(* ===== verification/_CoqProject ===== *)
-Q . S2P
Prelude.v
AlignExt.v
VmIo.v
Agents.v
IdAlloc.v
MemoryRegion.v
EarlyAlloc.v
IoPort.v
DynCpuLocal.v
RangeAlloc.v
CpuSet.v
Rcu.v
SpinLock.v
RwLock.v
RwArc.v
WaitQueue.v
WaitCancel.v
Scheduler.v
Mutex.v
RwMutex.v
RwMutexWake.v
Bitflags.v
Paging.v
FrameMeta.v
FrameSegment.v
FrameAlloc.v
Dma.v
Heap.v
FrameList.v
PageProp.v
Pte.v
PteBits.v
PteX86.v
PteRiscv.v
PteLoong.v
PtChild.v
PtNode.v
PtTree.v
PtStray.v
PtCursor.v
PtConfig.v
BootPt.v
PtLock.v
PtHandle.v
PtDrop.v
KVirtArea.v
IoMem.v
Tlb.v
VmSpace.v
