(* ===== verification/Prelude.v ===== *)
(** * A verification of OSTD, the framework of the Asterinas kernel

    OSTD ([src/ostd]) is the part of a Rust kernel that may use unsafe code.  It
    offers physical frames, page tables, locks and the small allocators they
    need to the rest of the kernel.  This library translates its executable code
    into functions and step relations and proves that they do what they mean to
    do.  The annotations with which the repository verifies itself (the [requires]
    and [ensures] clauses, ghost state and proof blocks) are not translated; they
    tell what each part promises.

    ** The parts and where they are modelled

    - [Prelude] (this file): panics, machine integers, the list and arithmetic
      lemmas that the components share, the hint database [vostd].
    - [AlignExt]: [ostd/libs/align_ext], rounding to powers of two.
    - [VmIo]: [ostd/src/mm/io.rs] with the copies of [VirtPtr], the readers and
      writers of memory and the trait [VmIo], over the interface [FallibleMem] of
      the routines that stop at a page fault; [Error] of [ostd/src/error.rs].
    - [Agents]: counting the agents of an interleaving.
    - [IdAlloc]: [ostd/libs/id-alloc], the bitmap allocator of ids, over the
      interface [BitVec] of the external bit vector.
    - [MemoryRegion]: [ostd/src/boot/memory_region.rs], the memory map that the
      boot code hands to the frame allocator.
    - [EarlyAlloc]: the frames of the boot stage of [ostd/src/mm/frame/allocator.rs] and
      the differences of ranges of [ostd/src/util/ops.rs], on top of [MemoryRegion].
    - [IoPort]: [ostd/src/io/io_port], the allocator of I/O ports, a client of [IdAlloc].
    - [DynCpuLocal]: [ostd/src/cpu/local/dyn_cpu_local.rs], chunks of CPU-local objects, over
      the interface [BitMap], which extends [BitVec].
    - [RangeAlloc]: [ostd/src/util/range_alloc.rs], the allocator of virtual
      address ranges.
    - [CpuSet]: [ostd/src/cpu/set.rs], sets of CPUs and their atomic version, over
      the interface [SmallVec] of the external vector.
    - [Rcu]: [ostd/src/sync/rcu], the monitor of grace periods and the pointers
      that are read without locks.
    - [SpinLock]: [ostd/src/sync/spin.rs] and [guard.rs], spin locks on CPUs with
      tasks and interrupt handlers, with the preemption count ([task/preempt]), the
      guard of local interrupts ([trap/irq.rs]) and the nesting of handlers
      ([trap/handler.rs]).
    - [RwLock]: [ostd/src/sync/rwlock.rs], the spinning reader-writer lock.
    - [RwArc]: [ostd/src/sync/rwarc.rs], shared pointers with a lock, over the steps of [RwLock].
    - [WaitQueue]: [ostd/src/sync/wait.rs], wait queues, for every lock that is an
      instance of [WaitClient].
    - [WaitCancel]: [wait_until_or_cancelled] of [ostd/src/sync/wait.rs].
    - [Scheduler]: [ostd/src/task/scheduler/], the words of tasks, the FIFO run queues, and parking
      and waking as interleaved steps.
    - [Mutex]: [ostd/src/sync/mutex.rs], the sleeping mutex, a client.
    - [RwMutex] and [RwMutexWake]: [ostd/src/sync/rwmutex.rs], the sleeping
      reader-writer mutex, a client; its protocol, and who is woken.
    - [Bitflags]: [verified_libs/bitflags], the methods of flag types.
    - [Paging]: the constants of [ostd/src/mm/mod.rs] and the arithmetic of
      [ostd/src/mm/page_table/mod.rs]; the classes [PagingConstsTrait] and
      [PagingConstsReqs], with x86-64 as the instance.
    - [FrameMeta]: [ostd/src/mm/frame/meta.rs], [mod.rs] and [unique.rs], the
      metadata slots and the reference counts of the frames.
    - [FrameSegment]: [ostd/src/mm/frame/segment.rs], contiguous ranges of frames that
      hold one count of each.
    - [FrameAlloc]: [FrameAllocOptions] of [ostd/src/mm/frame/allocator.rs], over the interface
      [GlobalFrameAllocator] of the allocator that the kernel injects.
    - [Dma]: [ostd/src/mm/dma], memory that is shared with devices: streams, slices of
      streams and coherent mappings.
    - [Heap]: [ostd/src/mm/heap], slabs whose free slots are linked through their own
      memory, large slots and the dispatch of the global allocator.
    - [FrameList]: [ostd/src/mm/frame/linked_list.rs], the lists of frames that are
      linked through the metadata slots, and their cursors.
    - [PageProp]: [ostd/src/mm/page_prop.rs], page properties.
    - [Pte]: the trait [PageTableEntryTrait] as a class with its laws.
    - [PteBits]: the macro [parse_flags] and what all entry formats share.
    - [PteX86], [PteRiscv], [PteLoong]: [ostd/src/arch/x86/mm/mod.rs],
      [arch/riscv/mm/mod.rs] and [arch/loongarch/mm/mod.rs], the entries of the three
      architectures; the first two are instances of the class with its laws.
    - [PtChild]: [ostd/src/mm/page_table/node/child.rs], children of nodes.
    - [PtNode]: [ostd/src/mm/page_table/node/mod.rs] and [entry.rs], nodes and
      entries, and [page_walk] of [ostd/src/mm/page_table/mod.rs].
    - [PtTree]: the nodes of one page table as an unshared tree, and what a write
      to an entry does to it; no code of its own.
    - [PtStray]: [dfs_mark_stray_and_unlock] of
      [ostd/src/mm/page_table/cursor/locking.rs], and the relation [same_tables] of
      stores that differ in locks and marks only.
    - [PtCursor]: [ostd/src/mm/page_table/cursor/mod.rs], the cursor, against the
      interface [PageTableConfig] of the items that a page table maps.
    - [PtConfig]: the two instances of that interface, [KernelPtConfig] of
      [ostd/src/mm/kspace/mod.rs] and [UserPtConfig] of [ostd/src/mm/vm_space.rs].
    - [BootPt]: [ostd/src/mm/page_table/boot_pt.rs], the page table of the boot stage, over plain
      memory and possibly shared tables.
    - [PtLock]: the rest of [cursor/locking.rs] and [Cursor::new].
    - [PtHandle]: the construction of kernel and user page tables of
      [ostd/src/mm/page_table/mod.rs].
    - [PtDrop]: [on_drop] of [ostd/src/mm/page_table/node/mod.rs], the release of a whole page
      table through the reference counts of [FrameMeta].
    - [KVirtArea]: [ostd/src/mm/kspace/kvirt_area.rs], the virtual areas of the kernel,
      which join the range allocator, the cursor and the kernel page table.
    - [IoMem]: [ostd/src/io/io_mem], device memory that is mapped into such areas, its accesses through
      [VmIo] and its allocator, a client of [RangeAlloc].
    - [Tlb]: [ostd/src/mm/tlb.rs], the requests for TLB flushes and their
      delivery to other CPUs.
    - [VmSpace]: [ostd/src/mm/vm_space.rs], user address spaces, from their
      construction on.

    The page table stack is layered: [PtNode] and [PtChild] are proved against
    the entry interface [Pte] and the constants of [Paging], so that every
    architecture that gives an instance inherits the theorems.  [PteX86] uses
    [Bitflags] and [PageProp].  [PtTree], [PtCursor] and [PtLock] build on the nodes,
    and [VmSpace] combines the cursor of x86-64 user page tables with the flusher of
    [Tlb], which uses [CpuSet], and hands out the windows of [VmIo].  The synchronisation
    parts share [Agents]; [RwMutex] has the word of [RwLock] and inherits its invariant, and
    the masks of [Rcu] are the atomic sets of [CpuSet].

    ** How code becomes definitions

    A [w]-bit integer is a [Z] with its width written out.  Arithmetic that
    overflows is a panic, and so are failed assertions, [unwrap] of nothing and
    indices out of range ([outcome], with [Ret] and [Panic]); a theorem that a
    call returns says that none of them happens.  Mutated structures are passed
    and returned.  In the concurrent parts ([Rcu], [SpinLock], [RwLock], [RwArc],
    [WaitQueue] and its clients, [WaitCancel], [Scheduler], [FrameMeta], the shootdown of [Tlb]) every
    method is cut at its accesses to shared memory; a state is the shared word or
    slot with a list of agents, a step is one access of one agent, and the
    invariants hold in all states reachable by any interleaving (sequentially
    consistent; the memory orderings are not modelled).  External crates and
    injected functions (bit vector, small vector, frame allocator, copies that stop
    at a fault) are interfaces with the laws their documentation states; each has a
    concrete instance with which the examples run.

    ** What the theorems show

    - Page tables: a page walk always ends in a translation or an absent entry
      ([page_walk_total]); splitting a huge page and allocating a missing table
      keep every translation ([split_huge_transparent],
      [alloc_if_none_transparent]); replacing and protecting an entry change
      exactly the addresses below it ([replace_correct], [protect_correct]);
      children and entries convert back and forth ([child_pte_roundtrip],
      [x86_new_page_roundtrip], [x86_set_prop_correct], [riscv_entry_roundtrip]); what the
      entries of LoongArch lose is stated exactly ([loong_entry_correct]).
    - Cursors: a new cursor has locked exactly the nodes of its range
      ([cursor_new_correct]); its operations keep the invariant of the cursor and are
      specified by the translations of the page walk: [query] reports them, a
      search keeps them and ends at the first mapping, [map], [take_next] and
      [protect_next] change exactly those of the mapped, taken or protected range
      ([cursor_query_correct], [cursor_find_next_correct], [cursor_jump_correct],
      [cursor_map_correct], [cursor_take_next_correct],
      [cursor_protect_next_correct]); items survive their raw form
      ([kernel_item_roundtrip]).
    - Boot: mapping and protecting a base page change exactly the addresses that end in its
      entry, through shared tables too ([map_base_page_correct]), unless the page is above level 2,
      where the split is wrong ([protect_base_page_correct]); taking over the tables of the
      firmware keeps every translation, and marks none ([from_current_pt_transparent]).
    - Handles: a new kernel page table has a table below every entry of its half, so that
      user page tables can share them ([kernel_page_table_shareable]); a new address space
      translates the kernel half like the kernel and nothing else, and its user ranges
      satisfy what the operations below assume ([vm_space_new_correct]).  The copied
      entries are the ones that the class [Uncounted] leaves out of the count of a node.
      Dropping the last handle frees each node that the table owns once, leaves those that it
      shares, and drops exactly the items that it maps ([page_table_drop_correct]).
    - Address spaces: mapping and unmapping, from the cursor or from the address
      space, change exactly the translations of the range, and the flushes that they
      dispatch cover every address that lost one ([vm_map_correct],
      [vm_unmap_correct], [vm_space_unmap_range]); a shootdown reaches every CPU
      under any interleaving, and the bounded stack of requests loses none
      ([tlb_shootdown_sound], [ops_stack_flushes_requests]); the memory handed to
      readers and writers is user memory ([vm_user_range_bounds]).
    - Kernel areas: a new area has addresses that nobody else has, and exactly the given
      frames or physical memory are mapped into it ([kvirt_map_frames_correct],
      [kvirt_map_untracked_correct]).
    - Memory access: no history of operations on a reader and a writer leaves its
      windows, and it panics exactly at a failed assertion ([vm_io_confined]);
      transfers copy what the windows have and report faults exactly
      ([vm_transfer_correct]); a value is read or written whole or the cursor stays
      ([vm_val_correct]); sequences of values land at their aligned offsets
      ([write_vals_correct]).
    - DMA: access to the memory of a stream, a slice or a coherent mapping stays in it and
      keeps to the direction ([dma_access_correct]); mapping does not record the pages
      ([dma_map_unchecked]).
    - Addresses: indices are the digits of an address, managed ranges are the
      canonical addresses of their top-level indices, and a range is tiled by
      its largest pages ([pte_index_digits], [vaddr_range_exact],
      [largest_pages_tiles]).
    - Frames: exclusive use excludes every other use, the count is the number of
      handles, requests fail with the error that names the state, metadata is
      stable under its readers ([frame_use_exclusive], [frame_ref_count_exact],
      [frame_request_outcomes], [frame_meta_stable], [frame_meta_bijection]), and
      a whole call is a run of its steps ([frame_calls_run]); segments refine the list of
      their ranges and neither leak nor release early ([segments_refine]); allocated frames are
      unheld, counted once and zeroed, and claiming them never fails ([frame_alloc_correct]); lists of frames
      refine sequences ([frame_lists_refine]).
    - Locks: a spin lock is exclusive and keeps the atomic mode, and if it disables
      interrupts its owner is running ([spin_lock_correct]), which is not so if it
      disables preemption only ([spin_preempt_self_deadlock]); mutual exclusion, exact
      conditions of the [try_] methods, a free lock after the last guard, no reader
      overtakes an upgrade ([rwlock_*], [rwmutex_exclusion]); deadlock freedom of the
      mutex and of the reader-writer mutex when waiters close their wakers and, for the
      latter, everybody waits ([mutex_*], [rwmutex_deadlock_free]); runs that lose a
      wake-up otherwise ([mutex_loses_wakeup], [rwmutex_unclosed_loses_wakeup],
      [rwmutex_loses_wakeup]).
      An [RwArc] can be read without its lock exactly by its only handle, and the data
      stays while it is ([rwarc_get_correct]); a wait that is cancelled loses no wake-up
      ([wait_cancel_correct]).
    - Scheduling: a task is at one place at most and no step panics ([sched_places]); a
      parked task that was woken is in a run queue or on its way there
      ([sched_no_lost_wakeup]), which justifies the parking of the wait queues.
    - RCU: no reader is left with a dropped object and nothing is dropped twice
      ([rcu_reader_safe]); two rounds of quiescent states run every callback, in order
      ([rcu_callbacks_run]).
    - Allocators: the id allocator refines a set of ids ([id_alloc_*]), the range
      allocator is safe and complete ([range_alloc_*]), the boot memory map is the
      coalesced partition with the most restrictive types
      ([into_non_overlapping_correct], [usable_is_safe]); early allocations and the memory given to
      the global allocator never overlap and are usable memory of the firmware's map
      ([boot_frames_correct]).
    - Devices: the ranges of device memory in use are disjoint, and which requests succeed is exact
      ([io_mem_exclusive]); new device memory maps exactly its bytes ([io_mem_new_correct]); its
      accesses go too far where it does not start at a page ([io_mem_access_correct]); sensitive
      ports are never granted, but granted ports are not recorded ([port_acquire_correct]).
    - CPU-local objects: a chunk refines a map from items to the values of the CPUs
      ([dyn_cpu_local_correct]).
    - Heap: a slab refines a pool of slots under every history of its users
      ([slab_refines_pool]); its slots lie in the page exactly when their size divides
      the page size ([slab_slots_bounds]); large slots release what they were allocated from
      ([large_slot_roundtrip]), and memory that is handed out fits its layout ([dispatch_checked]).
    - Sets: CPU sets refine finite sets, concurrent loads are exact where nobody
      interferes, flag types are a set algebra ([cpu_set_refines_set],
      [atomic_store_load], [racing_load_exact], [bitflags_set_algebra]).

    ** Bounds and fuel

    - [largest_pages] runs with fuel of the length in base pages plus one; the
      theorem shows that the iterator is exhausted within it.  The sweep of the
      boot memory map runs with fuel of the array length plus one, since every
      iteration fills a slot or fails.  The search of the cursor has fuel for every
      level of every page of its length, and [unmap] for every page; the theorems
      show that the loops end within it.  The attempts of [lock_range] have fuel
      because a stray node makes it start over: without other threads the first
      attempt succeeds.  The other loops are structural: over
      lists, over a number of slots, or over the level.
    - Page table operations that may need new tables assume an allocator that
      succeeds while the store is smaller than a pool, and a store with room for
      one table per level.  The locked range ends below the last slot of the
      address space, so that the end of a slot is an address.
    - The reader-writer lock has fewer than [2^61] agents (its reader count has 61
      bits, the last of which is the overflow sentinel); the wait queue fewer than
      [2^32] wakers, which is what [enqueue] assumes of its counter.  That waiters of
      the reader-writer mutex are woken is shown for fewer than [2^60] threads, for which
      the overflow sentinel is never reached.
    - The boot memory map assumes that the boundaries fit the array; without it
      [push] fails and the code panics, which the model shows too.

    ** What is not modelled

    - Hardware access: the instructions of devices and ports, the device side of DMA, interrupt
      controllers, page table activation and the flush instructions themselves, context switches with
      the stacks of tasks, the CPU-local objects that segment registers and single instructions
      address, boot protocols and the start of other CPUs, assembly.
    - The confidential-guest build ([cvm_guest]).
    - The logger, the console, procedural macros and test support, which have no state that
      other parts rely on; the ghost library and the example specifications of the
      repository, which do not run.
    - Code that has no compiled body and no effect described elsewhere: the callbacks and the allocation of
      interrupt lines ([trap/irq.rs]) and of timers, the release of areas and of DMA
      mappings, [unlock_range] and [dismiss] of the boot page table.  Where a
      body is kept in a comment and other parts rely on it, the model follows the comment and says so.
    - The global frame allocator, which the kernel injects: its documented behaviour is an interface of
      [FrameAlloc]; the other parts that allocate take what [FrameAlloc] shows as a hypothesis.
    - Destructors of frame metadata other than that of page table nodes.
    - Waiting for the lock of a node that another cursor holds, because the page table operations are
      modelled as run by one thread; the memory orderings of atomic accesses. *)

From Stdlib Require Export ZArith Lia Bool.
From stdpp Require Export base gmap sets numbers option list_numbers list sorting.

Open Scope Z_scope.

(** ** Outcomes of Rust code: a value or a panic *)

Inductive outcome (A : Type) : Type :=
| Ret (a : A)
| Panic.
Arguments Ret {A} _.
Arguments Panic {A}.

Global Instance outcome_ret : MRet outcome := fun A a => Ret a.
Global Instance outcome_bind : MBind outcome := fun A B f m =>
  match m with Ret a => f a | Panic => Panic end.

Global Instance outcome_eq_dec {A} `{EqDecision A} : EqDecision (outcome A).
Proof. solve_decision. Defined.

(** [assert!] / [assert_eq!]: panic unless the test holds. *)
Definition rassert (b : bool) : outcome unit := if b then Ret tt else Panic.

(** [debug_assert!]: only in builds with [debug_assertions]. *)
Definition debug_assert (debug_assertions : bool) (c : outcome bool) : outcome unit :=
  if debug_assertions then b ← c; rassert b else mret tt.

(** [Option::unwrap] / [expect]. *)
Definition unwrap {A} (o : option A) : outcome A :=
  match o with Some a => Ret a | None => Panic end.

Definition unwrap_or {A} (d : A) (o : option A) : A :=
  match o with Some a => a | None => d end.

Lemma bind_Ret {A B} (f : A -> outcome B) (m : outcome A) (b : B) :
  m ≫= f = Ret b <-> exists a, m = Ret a /\ f a = Ret b.
Proof.
  destruct m as [a|]; simpl; split; intros H.
  - eauto.
  - destruct H as (a' & [= ->] & ?). done.
  - done.
  - destruct H as (a' & ? & _). done.
Qed.

Lemma rassert_Ret b u : rassert b = Ret u <-> b = true.
Proof. destruct b, u; simpl; split; try done. Qed.

Lemma unwrap_Ret {A} (o : option A) a : unwrap o = Ret a <-> o = Some a.
Proof. destruct o; simpl; split; congruence. Qed.

(** ** Machine integers

    A [w]-bit unsigned integer is a [Z] in [[0, 2^w)].  Rust's [+], [-] and
    [*] panic on overflow when overflow checks are on; that is how they are
    modelled, so that a theorem that the model returns also says that the
    release build (which wraps) computes the same value. *)

Definition USIZE_BITS : Z := 64.
Definition USIZE_MAX : Z := 2 ^ 64 - 1.
Definition U64_MAX : Z := 2 ^ 64 - 1.

Definition uint (w x : Z) : Prop := 0 <= x < 2 ^ w.
Notation usize := (uint 64).

Definition uintb (w x : Z) : bool := (0 <=? x) && (x <? 2 ^ w).

Definition checked_add (w a b : Z) : option Z :=
  if a + b <? 2 ^ w then Some (a + b) else None.
Definition uadd (w a b : Z) : outcome Z := unwrap (checked_add w a b).
Definition usub (a b : Z) : outcome Z := if b <=? a then Ret (a - b) else Panic.
Definition umul (w a b : Z) : outcome Z :=
  if a * b <? 2 ^ w then Ret (a * b) else Panic.
Definition saturating_sub (a b : Z) : Z := Z.max 0 (a - b).
Definition wrapping_add (w a b : Z) : Z := (a + b) mod 2 ^ w.
Definition wrapping_sub (w a b : Z) : Z := (a - b) mod 2 ^ w.
(** [!x] on [w] bits. *)
Definition unot (w x : Z) : Z := Z.lxor x (Z.ones w).
(** [a.div_ceil(b)]. *)
Definition div_ceil (a b : Z) : Z := if a mod b =? 0 then a / b else a / b + 1.
Definition is_power_of_two (x : Z) : bool := (0 <? x) && (x =? 2 ^ Z.log2 x).

(** [start..end] of [core::ops::Range<usize>]. *)
Record range := mk_range { r_start : Z; r_end : Z }.
Global Instance range_eq_dec : EqDecision range.
Proof. solve_decision. Defined.
Definition range_is_empty (r : range) : bool := negb (r_start r <? r_end r).
Definition in_range (r : range) (x : Z) : Prop := r_start r <= x < r_end r.
Global Instance in_range_dec (r : range) (x : Z) : Decision (in_range r x).
Proof. unfold in_range. apply _. Defined.
(** [Range::<usize>::len]. *)
Definition range_len (r : range) : Z := Z.max 0 (r_end r - r_start r).
Definition range_contains (r : range) (x : Z) : bool :=
  (r_start r <=? x) && (x <? r_end r).

(** [core::alloc::Layout]. *)
Record Layout := mk_layout { layout_size : Z; layout_align : Z }.

(** ** Tactics and hints *)

Create HintDb vostd discriminated.

(** Turn boolean comparisons in the context into propositions. *)
Ltac zify_bools :=
  repeat match goal with
  | H : (_ && _) = true |- _ => apply andb_true_iff in H; destruct H
  | H : (_ || _) = false |- _ => apply orb_false_iff in H; destruct H
  | H : negb _ = true |- _ => apply negb_true_iff in H
  | H : negb _ = false |- _ => apply negb_false_iff in H
  | H : (_ <? _) = true |- _ => apply Z.ltb_lt in H
  | H : (_ <? _) = false |- _ => apply Z.ltb_ge in H
  | H : (_ <=? _) = true |- _ => apply Z.leb_le in H
  | H : (_ <=? _) = false |- _ => apply Z.leb_gt in H
  | H : (_ >=? _) = true |- _ => rewrite Z.geb_leb in H; apply Z.leb_le in H
  | H : (_ >=? _) = false |- _ => rewrite Z.geb_leb in H; apply Z.leb_gt in H
  | H : (_ >? _) = true |- _ => rewrite Z.gtb_ltb in H; apply Z.ltb_lt in H
  | H : (_ >? _) = false |- _ => rewrite Z.gtb_ltb in H; apply Z.ltb_ge in H
  | H : (_ =? _) = true |- _ => apply Z.eqb_eq in H
  | H : (_ =? _) = false |- _ => apply Z.eqb_neq in H
  end.

(** Split every [if] of the goal on its test, keeping the test as a fact. *)
Ltac zcase :=
  match goal with
  | |- context [if ?b then _ else _] => let E := fresh "E" in destruct b eqn:E
  end; zify_bools.
Ltac zcase_in H :=
  match type of H with
  | context [if ?b then _ else _] => let E := fresh "E" in destruct b eqn:E
  end; zify_bools.

(** Invert a successful monadic run into its steps. *)
Ltac inv_outcome :=
  repeat match goal with
  | H : Panic = Ret _ |- _ => discriminate H
  | H : Ret _ = Ret _ |- _ => injection H as H; try subst
  | H : mret _ = Ret _ |- _ => injection H as H; try subst
  | H : _ ≫= _ = Ret _ |- _ =>
      let a := fresh "a" in let Ha := fresh "Ha" in
      apply bind_Ret in H; destruct H as (a & Ha & H)
  | H : rassert _ = Ret _ |- _ => apply rassert_Ret in H
  | H : unwrap _ = Ret _ |- _ => apply unwrap_Ret in H
  end.

(** Uses a fact whose side conditions are arithmetic. *)
Tactic Notation "know" constr(t) "as" simple_intropattern(P) :=
  let H := fresh in pose proof t as H; repeat (specialize (H ltac:(lia))); revert H; intros P.

(** Runs the next step of a monadic computation with an equation for it. *)
Tactic Notation "step" uconstr(t) := rewrite t; cbn [mbind outcome_bind unwrap].
Tactic Notation "step" uconstr(t) "by" tactic3(tac) := rewrite t by tac; cbn [mbind outcome_bind unwrap].

(** ** Integers *)

Lemma uintb_spec w x : uintb w x = true <-> uint w x.
Proof. unfold uintb, uint. rewrite andb_true_iff, Z.leb_le, Z.ltb_lt. done. Qed.

Lemma uadd_Ret w a b c : uadd w a b = Ret c <-> c = a + b /\ a + b < 2 ^ w.
Proof.
  unfold uadd, checked_add. split.
  - zcase; simpl; [intros [= <-]; lia | done].
  - intros [-> ?]. zcase; [done | lia].
Qed.

Lemma usub_Ret a b c : usub a b = Ret c <-> c = a - b /\ b <= a.
Proof.
  unfold usub. split.
  - zcase; [intros [= <-]; lia | done].
  - intros [-> ?]. zcase; [done | lia].
Qed.

Lemma umul_Ret w a b c : umul w a b = Ret c <-> c = a * b /\ a * b < 2 ^ w.
Proof.
  unfold umul. split.
  - zcase; [intros [= <-]; lia | done].
  - intros [-> ?]. zcase; [done | lia].
Qed.

Lemma uadd_ok w a b : a + b < 2 ^ w -> uadd w a b = Ret (a + b).
Proof. intros. by apply uadd_Ret. Qed.
Lemma usub_ok a b : b <= a -> usub a b = Ret (a - b).
Proof. intros. by apply usub_Ret. Qed.
Lemma umul_ok w a b : a * b < 2 ^ w -> umul w a b = Ret (a * b).
Proof. intros. by apply umul_Ret. Qed.

Lemma pow2_pos e : 0 <= e -> 0 < 2 ^ e.
Proof. apply Z.pow_pos_nonneg. lia. Qed.

Lemma is_power_of_two_spec x :
  is_power_of_two x = true <-> exists e, 0 <= e /\ x = 2 ^ e.
Proof.
  unfold is_power_of_two. rewrite andb_true_iff, Z.ltb_lt, Z.eqb_eq. split.
  - intros [? ->]. eexists. split; [apply Z.log2_nonneg | done].
  - intros (e & He & ->). rewrite Z.log2_pow2 by done. split; [by apply pow2_pos | done].
Qed.

Lemma is_power_of_two_pow2 e : 0 <= e -> is_power_of_two (2 ^ e) = true.
Proof. intros. apply is_power_of_two_spec. eauto. Qed.

(** [x & !(2^e - 1)] clears the low [e] bits. *)
Lemma land_unot_low w e x :
  0 <= e <= w -> uint w x -> Z.land x (unot w (2 ^ e - 1)) = x - x mod 2 ^ e.
Proof.
  intros He [Hx0 Hx]. unfold unot.
  replace (2 ^ e - 1) with (Z.ones e) by (rewrite Z.ones_equiv; lia).
  assert (Z.land x (Z.lxor (Z.ones e) (Z.ones w)) = Z.ldiff x (Z.ones e)) as ->.
  { apply Z.bits_inj'. intros n Hn.
    rewrite Z.land_spec, Z.lxor_spec, Z.ldiff_spec, !Z.testbit_ones_nonneg by lia.
    destruct (Z.ltb_spec n e), (Z.ltb_spec n w); simpl; rewrite ?andb_true_r, ?andb_false_r;
      try lia; try done.
    symmetry. destruct (decide (x = 0)) as [->|]; [apply Z.bits_0|].
    apply Z.bits_above_log2; [lia|]. apply Z.log2_lt_pow2; [lia|].
    apply Z.lt_le_trans with (2 ^ w); [lia|]. apply Z.pow_le_mono_r; lia. }
  rewrite Z.ldiff_ones_r, Z.shiftl_mul_pow2, Z.shiftr_div_pow2 by lia.
  pose proof (Z.div_mod x (2 ^ e)). lia.
Qed.

Lemma mod_pos_bound' a b : 0 < b -> 0 <= a mod b < b.
Proof. apply Z.mod_pos_bound. Qed.
#[export] Hint Resolve mod_pos_bound' pow2_pos : vostd.

(** Multiples: two multiples of [m] closer than [m] are equal. *)
Lemma multiple_gap m a b : 0 < m -> a mod m = 0 -> b mod m = 0 -> a < b -> a + m <= b.
Proof.
  intros Hm Ha Hb Hlt.
  apply Z.mod_divide in Ha as [p ->]; [|lia].
  apply Z.mod_divide in Hb as [q ->]; [|lia].
  assert (p < q) by (apply (Z.mul_lt_mono_pos_r m); lia). nia.
Qed.

Lemma mod0_add m a b : 0 < m -> a mod m = 0 -> b mod m = 0 -> (a + b) mod m = 0.
Proof. intros Hm Ha Hb. rewrite Z.add_mod, Ha, Hb by lia. by rewrite Z.mod_0_l by lia. Qed.

Lemma mod0_sub m a b : 0 < m -> a mod m = 0 -> b mod m = 0 -> (a - b) mod m = 0.
Proof. intros Hm Ha Hb. rewrite Zminus_mod, Ha, Hb. by rewrite Z.mod_0_l by lia. Qed.
#[export] Hint Resolve mod0_add mod0_sub : vostd.

(** ** Indices

    A [usize] that only counts or indexes a collection is a [nat]; its
    overflow check still compares with the width. *)
Definition checked_addn (a b : nat) : option nat :=
  if Z.of_nat a + Z.of_nat b <? 2 ^ 64 then Some (a + b)%nat else None.
Definition addn (a b : nat) : outcome nat := unwrap (checked_addn a b).

Lemma addn_small (a b : nat) : Z.of_nat a + Z.of_nat b < 2 ^ 64 -> addn a b = Ret (a + b)%nat.
Proof. intros. unfold addn, checked_addn. zcase; [done | lia]. Qed.

(** ** Arrays and iterators *)

(** [a[i]] and [a[i] = x] on an array or slice: out of bounds panics. *)
Definition arr_get {A} (a : list A) (i : nat) : outcome A := unwrap (a !! i).
Definition arr_set {A} (a : list A) (i : nat) (x : A) : outcome (list A) :=
  if (i <? length a)%nat then Ret (<[i := x]> a) else Panic.

(** [Iterator::filter] with a closure that may panic ([mapM] is [Iterator::map]). *)
Fixpoint filterM {A} (f : A -> outcome bool) (l : list A) : outcome (list A) :=
  match l with
  | [] => mret []
  | x :: l' => b ← f x; l'' ← filterM f l'; mret (if (b : bool) then x :: l'' else l'')
  end.

(** [Iterator::max] and [Iterator::min] on integers. *)
Definition iter_max (l : list Z) : option Z :=
  match l with [] => None | x :: l' => Some (foldl Z.max x l') end.
Definition iter_min (l : list Z) : option Z :=
  match l with [] => None | x :: l' => Some (foldl Z.min x l') end.

Lemma arr_get_Ret {A} (a : list A) i x : arr_get a i = Ret x <-> a !! i = Some x.
Proof. apply unwrap_Ret. Qed.

Lemma arr_set_Ret {A} (a : list A) i x : (i < length a)%nat -> arr_set a i x = Ret (<[i := x]> a).
Proof. intros. unfold arr_set. by destruct (Nat.ltb_spec i (length a)); [|lia]. Qed.

Lemma mapM_Ret {A B} (f : A -> outcome B) g (l : list A) :
  (forall x, x ∈ l -> f x = Ret (g x)) -> mapM f l = Ret (g <$> l).
Proof.
  induction l as [|x l IH]; intros H; [done|]. cbn.
  rewrite H by set_solver. cbn. rewrite IH by set_solver. done.
Qed.

Lemma filterM_Ret {A} (f : A -> outcome bool) g (l : list A) :
  (forall x, x ∈ l -> f x = Ret (g x)) -> filterM f l = Ret (base.filter (fun x => g x = true) l).
Proof.
  induction l as [|x l IH]; intros H; [done|]. cbn [filterM].
  rewrite H, IH, filter_cons by set_solver. cbn [mbind outcome_bind].
  by destruct (decide (g x = true)) as [E|E%not_true_is_false]; rewrite E.
Qed.

Lemma list_filter_iff_in {A} (P Q : A -> Prop) `{!forall x, Decision (P x)} `{!forall x, Decision (Q x)} (l : list A) :
  (forall x, x ∈ l -> P x <-> Q x) -> base.filter P l = base.filter Q l.
Proof.
  induction l as [|x l IH]; intros Hiff; [done|].
  rewrite !filter_cons, IH by set_solver. specialize (Hiff x ltac:(set_solver)).
  destruct (decide (P x)), (decide (Q x)); tauto || done.
Qed.

Lemma list_filter_empty_in {A} (P : A -> Prop) `{!forall x, Decision (P x)} (l : list A) :
  (forall x, x ∈ l -> ~ P x) -> base.filter P l = [].
Proof.
  induction l as [|x l IH]; intros Hno; [done|].
  rewrite filter_cons_False by (apply Hno; set_solver). apply IH. set_solver.
Qed.

(** Pieces of ordered intervals are ordered. *)
Lemma sorted_bind {A B} (lo hi : A -> Z) (lo' hi' : B -> Z) (f : A -> list B) (l : list A) :
  StronglySorted (fun a b => hi a <= lo b) l ->
  (forall a, a ∈ l -> StronglySorted (fun x y => hi' x <= lo' y) (f a) /\ Forall (fun x => lo a <= lo' x /\ hi' x <= hi a) (f a)) ->
  StronglySorted (fun x y => hi' x <= lo' y) (l ≫= f).
Proof.
  intros Hl Hf. induction Hl as [|a l Hs IH Ha]; [constructor|]. cbn. destruct (Hf a) as [Hsa Hwa]; [left|].
  apply StronglySorted_app_2; [|done|by apply IH; intros; apply Hf; right].
  intros r s Hr (b & Hsb & Hb)%list_elem_of_bind. rewrite Forall_forall in Ha. rewrite Forall_forall in Hwa.
  destruct (Hf b) as [_ Hwb]; [by right|]. rewrite Forall_forall in Hwb.
  specialize (Ha _ Hb). specialize (Hwa _ Hr). specialize (Hwb _ Hsb). lia.
Qed.

Lemma foldl_max_spec l x :
  foldl Z.max x l ∈ x :: l /\ forall y, y ∈ x :: l -> y <= foldl Z.max x l.
Proof.
  revert x. induction l as [|z l IH]; intros x; cbn; [set_solver by lia|].
  destruct (IH (Z.max x z)) as [Hin Hle]. split.
  - destruct (Z.max_spec x z) as [[_ E]|[_ E]]; rewrite E in *; set_solver.
  - intros y Hy. assert (x <= Z.max x z /\ z <= Z.max x z) by lia.
    pose proof (Hle (Z.max x z) ltac:(set_solver)).
    rewrite !elem_of_cons in Hy. destruct Hy as [->|[->|Hy]]; [lia..|]. apply Hle. set_solver.
Qed.

Lemma foldl_min_spec l x :
  foldl Z.min x l ∈ x :: l /\ forall y, y ∈ x :: l -> foldl Z.min x l <= y.
Proof.
  revert x. induction l as [|z l IH]; intros x; cbn; [set_solver by lia|].
  destruct (IH (Z.min x z)) as [Hin Hle]. split.
  - destruct (Z.min_spec x z) as [[_ E]|[_ E]]; rewrite E in *; set_solver.
  - intros y Hy. assert (Z.min x z <= x /\ Z.min x z <= z) by lia.
    pose proof (Hle (Z.min x z) ltac:(set_solver)).
    rewrite !elem_of_cons in Hy. destruct Hy as [->|[->|Hy]]; [lia..|]. apply Hle. set_solver.
Qed.

Lemma iter_max_Some l m :
  iter_max l = Some m -> m ∈ l /\ forall y, y ∈ l -> y <= m.
Proof. destruct l as [|x l]; [done|]. intros [= <-]. apply foldl_max_spec. Qed.

Lemma iter_min_Some l m :
  iter_min l = Some m -> m ∈ l /\ forall y, y ∈ l -> m <= y.
Proof. destruct l as [|x l]; [done|]. intros [= <-]. apply foldl_min_spec. Qed.

(** ** Bits *)

(** A number fits in [w] bits iff no higher bit is set. *)
Lemma uint_bits w x : 0 <= w -> uint w x <-> 0 <= x /\ forall k, w <= k -> Z.testbit x k = false.
Proof.
  intros Hw. unfold uint. split.
  - intros Hx. split; [lia|]. intros k Hk. destruct (decide (x = 0)) as [->|]; [apply Z.bits_0|].
    apply Z.bits_above_log2; [lia|]. apply Z.log2_lt_pow2; [lia|].
    apply Z.lt_le_trans with (2 ^ w); [lia|]. apply Z.pow_le_mono_r; lia.
  - intros [Hx Hb]. split; [done|]. destruct (Z.lt_ge_cases x (2 ^ w)) as [|Hge]; [done|].
    assert (0 < x) by (pose proof (pow2_pos w Hw); lia).
    assert (Z.testbit x (Z.log2 x) = true) as Ht by (apply Z.bit_log2; lia).
    rewrite Hb in Ht; [done|]. apply Z.log2_le_pow2; lia.
Qed.

Lemma testbit_unot w x k : 0 <= k < w -> Z.testbit (unot w x) k = negb (Z.testbit x k).
Proof.
  intros Hk. unfold unot. rewrite Z.lxor_spec, Z.testbit_ones_nonneg by lia.
  destruct (Z.ltb_spec k w); [|lia]. by destruct (Z.testbit x k).
Qed.

Lemma uint_lor w x y : 0 <= w -> uint w x -> uint w y -> uint w (Z.lor x y).
Proof.
  intros Hw [? Hx]%uint_bits [? Hy]%uint_bits; [|done..]. apply uint_bits; [done|].
  split; [by apply Z.lor_nonneg|]. intros k Hk. by rewrite Z.lor_spec, Hx, Hy.
Qed.

Lemma uint_land w x y : 0 <= w -> uint w x -> uint w (Z.land x y).
Proof.
  intros Hw [? Hx]%uint_bits; [|done]. apply uint_bits; [done|].
  split; [by apply Z.land_nonneg; left|]. intros k Hk. by rewrite Z.land_spec, Hx.
Qed.

Lemma uint_unot w x : 0 <= w -> uint w x -> uint w (unot w x).
Proof.
  intros Hw [? Hx]%uint_bits; [|done]. apply uint_bits; [done|]. unfold unot. split.
  - apply Z.lxor_nonneg. split; [intros _|done]. rewrite Z.ones_equiv. pose proof (pow2_pos w Hw). lia.
  - intros k Hk. rewrite Z.lxor_spec, Hx, Z.testbit_ones_nonneg by lia.
    by destruct (Z.ltb_spec k w); [lia|].
Qed.

(** Two [w]-bit numbers with the same bits are equal. *)
Lemma uint_eq_bits w x y :
  0 <= w -> uint w x -> uint w y ->
  (forall k, 0 <= k < w -> Z.testbit x k = Z.testbit y k) -> x = y.
Proof.
  intros Hw [? Hx]%uint_bits [? Hy]%uint_bits Heq; [|done..]. apply Z.bits_inj'. intros k Hk.
  destruct (Z.lt_ge_cases k w); [apply Heq; lia|]. by rewrite Hx, Hy.
Qed.

Lemma testbit_pow2 n k : 0 <= n -> Z.testbit (2 ^ n) k = (k =? n).
Proof.
  intros Hn. destruct (Z.eqb_spec k n) as [->|Hne]; [by apply Z.pow2_bits_true|].
  apply Z.pow2_bits_false; lia.
Qed.

(** [(x & (1 << n)) != 0] is the [n]th bit. *)
Lemma land_pow2_testbit x n : 0 <= n -> negb (Z.land x (2 ^ n) =? 0) = Z.testbit x n.
Proof.
  intros Hn. destruct (Z.testbit x n) eqn:Hb.
  - apply negb_true_iff, Z.eqb_neq. intros H0.
    assert (Z.testbit (Z.land x (2 ^ n)) n = false) as Hf by (by rewrite H0, Z.bits_0).
    rewrite Z.land_spec, Hb, testbit_pow2, Z.eqb_refl in Hf by lia. done.
  - apply negb_false_iff, Z.eqb_eq, Z.bits_inj'. intros k Hk.
    rewrite Z.land_spec, testbit_pow2, Z.bits_0 by lia.
    destruct (Z.eqb_spec k n) as [->|]; [by rewrite Hb|by rewrite andb_false_r].
Qed.
