(* ===== verification/AlignExt.v ===== *)
(** * [ostd/libs/align_ext]: rounding an unsigned integer to a power of two

    [AlignExt::align_up] and [AlignExt::align_down], the two methods the macro
    [impl_align_ext!] generates for [u8], [u16], [u32], [u64] and [usize]; the
    width [w] is a parameter.  Both are compared with the mathematical
    rounding functions [nat_align_up] and [nat_align_down] of
    [verified_libs/vstd_extra/src/arithmetic.rs]. *)

From S2P Require Import Prelude.
Open Scope Z_scope.

(** Reference rounding on integers. *)
Definition nat_align_down (x align : Z) : Z := x - x mod align.
Definition nat_align_up (x align : Z) : Z :=
  if x mod align =? 0 then x else nat_align_down x align + align.

Definition align_up (w self align : Z) : outcome Z :=
  _ ← rassert (is_power_of_two align && (align >=? 2));
  m ← usub align 1;
  s ← unwrap (checked_add w self m);
  mret (Z.land s (unot w m)).

Definition align_down (w self align : Z) : outcome Z :=
  _ ← rassert (is_power_of_two align && (align >=? 2));
  m ← usub align 1;
  mret (Z.land self (unot w m)).

(** The alignments the methods accept. *)
Definition valid_align (align : Z) : Prop := exists e, 1 <= e /\ align = 2 ^ e.

(** ** Rounding on integers *)

Lemma nat_align_down_spec x a :
  0 < a ->
  nat_align_down x a <= x < nat_align_down x a + a /\ nat_align_down x a mod a = 0.
Proof.
  intros Ha. unfold nat_align_down. pose proof (Z.mod_pos_bound x a Ha).
  split; [lia|]. rewrite Zminus_mod, Zmod_mod, Z.sub_diag. by apply Z.mod_0_l; lia.
Qed.

Lemma nat_align_up_spec x a :
  0 < a ->
  nat_align_up x a - a < x <= nat_align_up x a /\ nat_align_up x a mod a = 0.
Proof.
  intros Ha. unfold nat_align_up. destruct (nat_align_down_spec x a Ha) as [? Hm].
  zcase; [lia|]. split.
  - unfold nat_align_down in *. pose proof (Z.mod_pos_bound x a Ha). lia.
  - apply mod0_add; auto. apply Z.mod_same. lia.
Qed.

Lemma nat_align_down_greatest x a n :
  0 < a -> n mod a = 0 -> n <= x -> n <= nat_align_down x a.
Proof.
  intros Ha Hn Hle. destruct (nat_align_down_spec x a Ha) as [? Hm].
  destruct (Z.le_gt_cases n (nat_align_down x a)); [done|].
  pose proof (multiple_gap a _ _ Ha Hm Hn). lia.
Qed.

Lemma nat_align_up_least x a n :
  0 < a -> n mod a = 0 -> x <= n -> nat_align_up x a <= n.
Proof.
  intros Ha Hn Hle. destruct (nat_align_up_spec x a Ha) as [? Hm].
  destruct (Z.le_gt_cases (nat_align_up x a) n); [done|].
  pose proof (multiple_gap a _ _ Ha Hn Hm). lia.
Qed.

Lemma nat_align_up_down x a :
  0 < a -> nat_align_up x a = nat_align_down (x + (a - 1)) a.
Proof.
  intros Ha. apply Z.le_antisymm.
  - destruct (nat_align_down_spec (x + (a - 1)) a Ha) as [? Hm].
    apply nat_align_up_least; auto; lia.
  - destruct (nat_align_up_spec x a Ha) as [? Hm].
    destruct (nat_align_down_spec (x + (a - 1)) a Ha) as [? Hm'].
    destruct (Z.le_gt_cases (nat_align_down (x + (a - 1)) a) (nat_align_up x a)); [done|].
    pose proof (multiple_gap a _ _ Ha Hm Hm'). lia.
Qed.

Lemma nat_align_down_mono_coarse x a b :
  0 < a -> 0 < b -> b mod a = 0 -> nat_align_down x b <= nat_align_down x a.
Proof.
  intros Ha Hb Hab. destruct (nat_align_down_spec x b Hb) as [? Hm].
  apply nat_align_down_greatest; [done| |lia].
  apply Z.mod_divide in Hm; [|lia]. apply Z.mod_divide in Hab; [|lia].
  apply Z.mod_divide; [lia|]. by apply (Z.divide_trans _ b).
Qed.

Lemma nat_align_down_multiple x a : 0 < a -> x mod a = 0 -> nat_align_down x a = x.
Proof. intros ? Hx. unfold nat_align_down. lia. Qed.

(** ** The machine implementations *)

Lemma valid_align_test align :
  is_power_of_two align && (align >=? 2) = true <-> valid_align align.
Proof.
  rewrite andb_true_iff, is_power_of_two_spec, Z.geb_leb, Z.leb_le. split.
  - intros [(e & He & ->) H2]. exists e. split; [|done].
    destruct (decide (e = 0)) as [->|]; [done | lia].
  - intros (e & He & ->). split; [exists e; lia|].
    replace 2 with (2 ^ 1) at 1 by done. apply Z.pow_le_mono_r; lia.
Qed.

Lemma valid_align_pos align : valid_align align -> 2 <= align.
Proof. intros H%valid_align_test. zify_bools. lia. Qed.

Lemma align_mask w x align :
  valid_align align -> align < 2 ^ w -> 0 <= w -> uint w x ->
  Z.land x (unot w (align - 1)) = nat_align_down x align.
Proof.
  intros (e & He & ->) Hlt Hw Hx. apply land_unot_low; [|done].
  split; [lia|]. apply Z.lt_le_incl, (Z.pow_lt_mono_r_iff 2); lia.
Qed.

Lemma align_up_Ret w self align r :
  0 <= w -> uint w self -> uint w align ->
  align_up w self align = Ret r <->
  valid_align align /\ self + (align - 1) < 2 ^ w /\ r = nat_align_up self align.
Proof.
  intros Hw Hs Ha. unfold align_up. rewrite bind_Ret. setoid_rewrite rassert_Ret.
  setoid_rewrite bind_Ret. setoid_rewrite usub_Ret. split.
  - intros (_ & Ht & m & [-> Hm] & H). apply valid_align_test in Ht. inv_outcome.
    unfold checked_add in Ha0. zcase_in Ha0; [|done]. injection Ha0 as <-.
    pose proof (valid_align_pos _ Ht).
    split_and!; auto. destruct Ha, Hs. rewrite align_mask; auto; [|split; lia].
    symmetry. apply nat_align_up_down. lia.
  - intros (Hv & Hlt & ->). exists tt. split; [by apply valid_align_test|].
    pose proof (valid_align_pos _ Hv). exists (align - 1). split; [lia|].
    unfold checked_add. zcase; [|lia]. cbn. destruct Ha, Hs. do 2 f_equal.
    rewrite align_mask; auto; [|split; lia]. symmetry. apply nat_align_up_down. lia.
Qed.

Lemma align_down_Ret w self align r :
  0 <= w -> uint w self -> uint w align ->
  align_down w self align = Ret r <-> valid_align align /\ r = nat_align_down self align.
Proof.
  intros Hw Hs Ha. unfold align_down. rewrite bind_Ret. setoid_rewrite rassert_Ret.
  setoid_rewrite bind_Ret. setoid_rewrite usub_Ret. split.
  - intros (_ & Ht & m & [-> Hm] & H). apply valid_align_test in Ht. inv_outcome.
    pose proof (valid_align_pos _ Ht). split; [done|]. destruct Ha. by rewrite align_mask.
  - intros (Hv & ->). exists tt. split; [by apply valid_align_test|].
    pose proof (valid_align_pos _ Hv). exists (align - 1). split; [lia|].
    cbn. destruct Ha. do 2 f_equal. by rewrite align_mask.
Qed.

(** [align_up] and [align_down] return exactly when the alignment is a power of two
    that is at least 2 (and, for [align_up], [self + (align - 1)] does not overflow), and
    panic otherwise; a returned value is the least multiple of [align] at or above [self]
    (the greatest at or below [self]). *)
Theorem align_ext_correct w self align r :
  0 <= w -> uint w self -> uint w align ->
  (align_up w self align = Ret r <->
     valid_align align /\ self + (align - 1) < 2 ^ w /\ self <= r /\ r mod align = 0 /\
     (forall n, self <= n -> n mod align = 0 -> r <= n)) /\
  (align_down w self align = Ret r <->
     valid_align align /\ r <= self /\ r mod align = 0 /\
     (forall n, n <= self -> n mod align = 0 -> n <= r)).
Proof.
  intros Hw Hs Ha. rewrite align_up_Ret, align_down_Ret by done. split; split.
  - intros (Hv & Hlt & ->). pose proof (valid_align_pos _ Hv).
    destruct (nat_align_up_spec self align ltac:(lia)). split_and!; auto; [lia|].
    intros. apply nat_align_up_least; auto; lia.
  - intros (Hv & Hlt & Hle & Hm & Hmin). pose proof (valid_align_pos _ Hv).
    destruct (nat_align_up_spec self align ltac:(lia)).
    split_and!; auto. apply Z.le_antisymm; [apply Hmin; [lia|done]|].
    apply nat_align_up_least; auto; lia.
  - intros (Hv & ->). pose proof (valid_align_pos _ Hv).
    destruct (nat_align_down_spec self align ltac:(lia)). split_and!; auto; [lia|].
    intros. apply nat_align_down_greatest; auto; lia.
  - intros (Hv & Hle & Hm & Hmax). pose proof (valid_align_pos _ Hv).
    destruct (nat_align_down_spec self align ltac:(lia)).
    split_and!; auto. apply Z.le_antisymm; [apply nat_align_down_greatest; auto; lia|].
    apply Hmax; [lia|done].
Qed.

Lemma align_ext_correct_witness :
  align_up 64 12 8 = Ret 16 /\ align_down 64 12 8 = Ret 8 /\ align_up 8 250 16 = Panic /\
  (forall n, 12 <= n -> n mod 8 = 0 -> 16 <= n).
Proof.
  assert (align_up 64 12 8 = Ret 16) as H by reflexivity.
  split; [done|]. split; [reflexivity|]. split; [reflexivity|].
  apply (align_ext_correct 64 12 8 16); [lia | split; lia | split; lia | done].
Defined.
