(* ===== verification/VmIo.v ===== *)
(** * [ostd/src/mm/io.rs]: readers and writers of virtual memory

    A [VmReader] and a [VmWriter] are windows of memory with a cursor.  They copy
    between each other, to and from values, and fill memory; accesses to user
    memory may stop at a page fault.  The trait [VmIo] writes sequences of values to
    an object at offsets.

    The memory gives a byte to every address.  The routines of the architecture
    that stop at a fault are the interface [FallibleMem]: they say how many bytes
    were not handled, and nothing is known of those.  RISC-V and LoongArch have them
    in Rust and are an instance.  A value of a plain type is its bytes, at the
    address at which it lies.

    The theorems show that no history of operations leaves the windows, what a
    transfer copies, that a failed read or write of a value leaves the cursor as it
    was, and where [write_vals] puts the values. *)

From S2P Require Import Prelude AlignExt.
Open Scope Z_scope.

(** [ostd/src/error.rs]. *)
Inductive Error := InvalidArgs | NoMemory | PageFault | AccessDenied | IoError | NotEnoughResources | Overflow.
Global Instance Error_eq_dec : EqDecision Error.
Proof. solve_decision. Defined.

(** The bytes at the addresses. *)
Definition memory := Z -> Z.

Implicit Types (m : memory) (a p n len : Z).

(** [write_volatile] of a value with the given bytes at [p], and the bytes of the value at [p]. *)
Definition put m p (bs : list Z) : memory := fun a => if (p <=? a) && (a <? p + Z.of_nat (length bs)) then nth (Z.to_nat (a - p)) bs 0 else m a.
Definition bytes m p n : list Z := (fun i => m (p + i)) <$> seqZ 0 n.

(** [copy_offset] and [copy_nonoverlapping] of [VirtPtr]: the bytes are copied from the last to the first. *)
Definition copy_offset m (src dst n : Z) : outcome memory :=
  s ← uadd 64 src n;
  d ← uadd 64 dst n;
  Ret (put m d [m s]).

Fixpoint copy_nonoverlapping m (src dst : Z) (n : nat) : outcome memory :=
  match n with
  | O => Ret m
  | S n' => m1 ← copy_offset m src dst (Z.of_nat n'); copy_nonoverlapping m1 src dst n'
  end.

Definition memcpy m (dst src len : Z) : outcome memory := copy_nonoverlapping m src dst (Z.to_nat len).

(** Ranges of addresses. *)
Definition within a p n : Prop := p <= a < p + n.
Definition disjoint_ranges p n q k : Prop := forall a, within a p n -> ~ within a q k.
Definition valid_range p n : Prop := 0 <= p /\ 0 <= n /\ p + n < 2 ^ 64.

(** [__memcpy_fallible] and [__memset_fallible]: the number of bytes that were not copied or set, and the memory. *)
Class FallibleMem := {
  memcpy_raw : memory -> Z -> Z -> Z -> Z * memory;
  memset_raw : memory -> Z -> Z -> Z -> Z * memory;
}.

(** [len] bytes from [dst] on have been set to those of [f], but for the last [failed] ones, which may be anything. *)
Definition handled m m' (dst len failed : Z) (f : Z -> Z) : Prop :=
  0 <= failed <= len /\
  (forall i, 0 <= i < len - failed -> m' (dst + i) = f i) /\
  (forall a, ~ within a dst len -> m' a = m a).

Class FallibleMemLaws `{FallibleMem} := {
  memcpy_raw_law m dst src len : valid_range dst len -> valid_range src len -> disjoint_ranges dst len src len ->
    handled m (memcpy_raw m dst src len).2 dst len (memcpy_raw m dst src len).1 (fun i => m (src + i));
  memset_raw_law m dst value len : valid_range dst len ->
    handled m (memset_raw m dst value len).2 dst len (memset_raw m dst value len).1 (fun _ => value);
}.

Record VmReader := mk_reader { rd_cursor : Z; rd_end : Z }.
Record VmWriter := mk_writer { wr_cursor : Z; wr_end : Z }.
Implicit Types (r : VmReader) (w : VmWriter).

Section io.
Context `{FallibleMem}.

Definition memcpy_fallible m (dst src len : Z) : outcome (Z * memory) :=
  let (failed_bytes, m') := memcpy_raw m dst src len in
  n ← usub len failed_bytes; Ret (n, m').
Definition memset_fallible m (dst value len : Z) : outcome (Z * memory) :=
  let (failed_bytes, m') := memset_raw m dst value len in
  n ← usub len failed_bytes; Ret (n, m').

(** ** Windows *)

(** [VmReader::from_kernel_space] and [VmReader::from_user_space]. *)
Definition reader_from_kernel_space (ptr len : Z) : VmReader := mk_reader ptr (wrapping_add 64 ptr len).
Definition reader_from_user_space (ptr len : Z) : VmReader := mk_reader ptr (wrapping_add 64 ptr len).
Definition writer_from_kernel_space (ptr len : Z) : VmWriter := mk_writer ptr (wrapping_add 64 ptr len).
Definition writer_from_user_space (ptr len : Z) : VmWriter := mk_writer ptr (wrapping_add 64 ptr len).

Definition remain r : outcome Z := usub (rd_end r) (rd_cursor r).
Definition avail w : outcome Z := usub (wr_end w) (wr_cursor w).
Definition has_remain r : outcome bool := n ← remain r; Ret (0 <? n).
Definition has_avail w : outcome bool := n ← avail w; Ret (0 <? n).

Definition reader_at r p : VmReader := mk_reader p (rd_end r).
Definition writer_at w p : VmWriter := mk_writer p (wr_end w).

Definition reader_limit r (max_remain : Z) : outcome VmReader :=
  n ← remain r;
  Ret (if max_remain <? n then mk_reader (rd_cursor r) (wrapping_add 64 (rd_cursor r) max_remain) else r).
Definition writer_limit w (max_avail : Z) : outcome VmWriter :=
  n ← avail w;
  Ret (if max_avail <? n then mk_writer (wr_cursor w) (wrapping_add 64 (wr_cursor w) max_avail) else w).

Definition reader_skip r (nbytes : Z) : outcome VmReader :=
  n ← remain r; _ ← rassert (nbytes <=? n); Ret (reader_at r (wrapping_add 64 (rd_cursor r) nbytes)).
Definition skip_in_place r (nbytes : Z) : outcome VmReader := reader_skip r nbytes.
Definition writer_skip w (nbytes : Z) : outcome VmWriter :=
  n ← avail w; _ ← rassert (nbytes <=? n); Ret (writer_at w (wrapping_add 64 (wr_cursor w) nbytes)).

(** ** Transfers *)

(** [VmReader::read] between windows of kernel memory; [VmWriter::write] is the same. *)
Definition read m r w : outcome (Z * VmReader * VmWriter * memory) :=
  n1 ← remain r; n2 ← avail w;
  let copy_len := Z.min n1 n2 in
  if copy_len =? 0 then Ret (0, r, w, m)
  else
    m' ← memcpy m (wr_cursor w) (rd_cursor r) copy_len;
    Ret (copy_len, reader_at r (wrapping_add 64 (rd_cursor r) copy_len), writer_at w (wrapping_add 64 (wr_cursor w) copy_len), m').
Definition write m w r : outcome (Z * VmReader * VmWriter * memory) := read m r w.

(** [read_fallible] and [write_fallible], when one of the windows is in user memory. *)
Definition read_fallible m r w : outcome ((Z + Error * Z) * VmReader * VmWriter * memory) :=
  n1 ← remain r; n2 ← avail w;
  let copy_len := Z.min n1 n2 in
  if copy_len =? 0 then Ret (inl 0, r, w, m)
  else
    ' (copied_len, m') ← memcpy_fallible m (wr_cursor w) (rd_cursor r) copy_len;
    let r' := reader_at r (wrapping_add 64 (rd_cursor r) copied_len) in
    let w' := writer_at w (wrapping_add 64 (wr_cursor w) copied_len) in
    Ret (if copied_len <? copy_len then inr (PageFault, copied_len) else inl copied_len, r', w', m').
Definition write_fallible m w r : outcome ((Z + Error * Z) * VmReader * VmWriter * memory) := read_fallible m r w.

(** Values: [len] is [size_of::<T>()], and the value lies at [val]. *)
Definition read_val m r (val len : Z) : outcome ((list Z + Error) * VmReader * memory) :=
  n ← remain r;
  if n <? len then Ret (inr InvalidArgs, r, m)
  else
    ' (_, r', _, m') ← read m r (writer_from_kernel_space val len);
    Ret (inl (bytes m' val len), r', m').

Definition write_val m w (val len : Z) : outcome ((unit + Error) * VmWriter * memory) :=
  n ← avail w;
  if n <? len then Ret (inr InvalidArgs, w, m)
  else
    ' (_, _, w', m') ← write m w (reader_from_kernel_space val len);
    Ret (inl tt, w', m').

(** The same for user memory: a fault puts the cursor back. *)
Definition read_val_fallible m r (val len : Z) : outcome ((list Z + Error) * VmReader * memory) :=
  n ← remain r;
  if n <? len then Ret (inr InvalidArgs, r, m)
  else
    ' (res, r', _, m') ← read_fallible m r (writer_from_kernel_space val len);
    match res with
    | inl _ => Ret (inl (bytes m' val len), r', m')
    | inr (err, copied_len) => p ← usub (rd_cursor r') copied_len; Ret (inr err, reader_at r' p, m')
    end.

Definition write_val_fallible m w (val len : Z) : outcome ((unit + Error) * VmWriter * memory) :=
  n ← avail w;
  if n <? len then Ret (inr InvalidArgs, w, m)
  else
    ' (res, _, w', m') ← write_fallible m w (reader_from_kernel_space val len);
    match res with
    | inl _ => Ret (inl tt, w', m')
    | inr (err, copied_len) => p ← usub (wr_cursor w') copied_len; Ret (inr err, writer_at w' p, m')
    end.

(** [VmReader::collect], into a zeroed buffer at [buf]. *)
Definition collect m r (buf : Z) : outcome ((list Z + Error) * VmReader * memory) :=
  len ← remain r;
  let m0 := put m buf (replicate (Z.to_nat len) 0) in
  ' (res, r', _, m') ← read_fallible m0 r (writer_from_kernel_space buf len);
  match res with
  | inl _ => Ret (inl (bytes m' buf len), r', m')
  | inr (err, copied_len) => p ← usub (rd_cursor r') copied_len; Ret (inr err, reader_at r' p, m')
  end.

(** [read_once] and [write_once], for a type of the given size and alignment. *)
Definition read_once m r (size align : Z) : outcome ((list Z + Error) * VmReader) :=
  n ← remain r;
  if n <? size then Ret (inr InvalidArgs, r)
  else
    _ ← rassert (rd_cursor r mod align =? 0);
    Ret (inl (bytes m (rd_cursor r) size), reader_at r (wrapping_add 64 (rd_cursor r) size)).

Definition write_once m w (value : list Z) (align : Z) : outcome ((unit + Error) * VmWriter * memory) :=
  let size := Z.of_nat (length value) in
  n ← avail w;
  if n <? size then Ret (inr InvalidArgs, w, m)
  else
    _ ← rassert (wr_cursor w mod align =? 0);
    Ret (inl tt, writer_at w (wrapping_add 64 (wr_cursor w) size), put m (wr_cursor w) value).

(** [VmWriter::fill]: the loop writes [k] more values from [p] on. *)
Fixpoint fill_loop (k : nat) m p (value : list Z) : memory :=
  match k with
  | O => m
  | S k' =>
      let len := Z.of_nat (length value) in
      fill_loop k' (put m p value) (wrapping_add 64 p len) value
  end.

Definition fill m w (value : list Z) (align : Z) : outcome (Z * VmWriter * memory) :=
  let len := Z.of_nat (length value) in
  _ ← rassert (wr_cursor w mod align =? 0);
  n ← avail w;
  _ ← rassert (negb (len =? 0));
  _ ← rassert (n mod len =? 0);
  let written_num := n / len in
  Ret (written_num, writer_at w (wr_end w), fill_loop (Z.to_nat written_num) m (wr_cursor w) value).

Definition fill_zeros m w len : outcome ((Z + Error * Z) * VmWriter * memory) :=
  n ← avail w;
  let len_to_set := Z.min n len in
  if len_to_set =? 0 then Ret (inl 0, w, m)
  else
    ' (set_len, m') ← memset_fallible m (wr_cursor w) 0 len_to_set;
    let w' := writer_at w (wrapping_add 64 (wr_cursor w) set_len) in
    Ret (if set_len <? len_to_set then inr (PageFault, set_len) else inl len_to_set, w', m').

(** ** Objects: the trait [VmIo] *)

(** The methods that an object of state [S] must have; readers and writers are over the memory. *)
Class VmIo (S : Type) := {
  vmio_read : S -> memory -> Z -> VmWriter -> outcome ((unit + Error) * VmWriter * memory);
  vmio_write : S -> memory -> Z -> VmReader -> outcome ((unit + Error) * VmReader * S);
}.

Section vmio.
Context {S : Type} `{VmIo S}.
Implicit Types (s : S).

(** The methods with a body, for a buffer of [len] bytes at [buf]. *)
Definition read_bytes s m (offset buf len : Z) : outcome ((unit + Error) * memory) :=
  ' (r, _, m') ← vmio_read s m offset (writer_from_kernel_space buf len); Ret (r, m').
Definition vmio_read_val s m (offset val len : Z) : outcome ((list Z + Error) * memory) :=
  ' (r, m') ← read_bytes s m offset val len;
  Ret (match r with inl _ => inl (bytes m' val len) | inr e => inr e end, m').
Definition read_slice s m (offset slice count size : Z) : outcome ((unit + Error) * memory) := read_bytes s m offset slice (count * size).
Definition write_bytes s m (offset buf len : Z) : outcome ((unit + Error) * S) :=
  ' (r, _, s') ← vmio_write s m offset (reader_from_kernel_space buf len); Ret (r, s').
Definition vmio_write_val s m (offset val len : Z) : outcome ((unit + Error) * S) := write_bytes s m offset val len.
Definition write_slice s m (offset slice count size : Z) : outcome ((unit + Error) * S) := write_bytes s m offset slice (count * size).

(** The loop of [write_vals]; the iterator yields values of [size] bytes at the given addresses. *)
Fixpoint write_vals_loop s m (items : list Z) (size item_size offset nr_written : Z) : outcome ((Z + Error) * S) :=
  match items with
  | [] => Ret (inl nr_written, s)
  | item :: items' =>
      if (nr_written =? USIZE_MAX) || (0 <? item_size) && (USIZE_MAX - item_size <? offset) then Ret (inl nr_written, s)
      else
        ' (r, s') ← vmio_write_val s m offset item size;
        match r with
        | inl _ =>
            offset' ← uadd 64 offset item_size;
            nr' ← uadd 64 nr_written 1;
            write_vals_loop s' m items' size item_size offset' nr'
        | inr e => Ret (if 0 <? nr_written then inl nr_written else inr e, s')
        end
  end.

Definition write_vals s m (offset : Z) (items : list Z) (size align : Z) : outcome ((Z + Error) * S) :=
  if align <=? 1 then write_vals_loop s m items size size offset 0
  else
    offset' ← align_up 64 offset align;
    item_size ← align_up 64 size align;
    write_vals_loop s m items size item_size offset' 0.
End vmio.
End io.

(** [__memcpy_fallible] and [__memset_fallible] of RISC-V and LoongArch, which never report a fault. *)
Definition ptr_copy m (dst src size : Z) : memory := put m dst (bytes m src size).
Definition riscv_memcpy m (dst src size : Z) : Z * memory := (0, ptr_copy m dst src size).
Definition riscv_memset m (dst value size : Z) : Z * memory := (0, put m dst (replicate (Z.to_nat size) value)).
Definition loongarch_memcpy m (dst src size : Z) : Z * memory := (0, ptr_copy m dst src size).
Definition loongarch_memset m (dst value size : Z) : Z * memory := (0, put m dst (replicate (Z.to_nat size) value)).

(** ** Memory *)

Lemma length_bytes m p n : length (bytes m p n) = Z.to_nat n.
Proof. unfold bytes. rewrite length_fmap, length_seqZ. done. Qed.

Lemma nth_bytes m p n i : 0 <= i < n -> nth (Z.to_nat i) (bytes m p n) 0 = m (p + i).
Proof.
  intros Hi. apply nth_lookup_Some. unfold bytes. rewrite list_lookup_fmap, lookup_seqZ_lt by lia. cbn. do 2 f_equal. lia.
Qed.

Lemma bytes_ext m m' p q n : (forall i, 0 <= i < n -> m (p + i) = m' (q + i)) -> bytes m p n = bytes m' q n.
Proof. intros He. unfold bytes. apply list_fmap_ext. intros j i [-> Hi]%lookup_seqZ. apply He. lia. Qed.

Lemma put_handled m p bs : handled m (put m p bs) p (Z.of_nat (length bs)) 0 (fun i => nth (Z.to_nat i) bs 0).
Proof.
  unfold handled, put, within. split_and!; [lia|lia|intros i Hi|intros a Ha].
  - replace ((p <=? p + i) && (p + i <? p + Z.of_nat (length bs))) with true by (symmetry; apply andb_true_iff; lia).
    do 2 f_equal. lia.
  - destruct ((p <=? a) && (a <? p + Z.of_nat (length bs))) eqn:E; [|done]. apply andb_true_iff in E. lia.
Qed.

Lemma handled_ext m m' dst len failed f g : (forall i, 0 <= i < len -> f i = g i) -> handled m m' dst len failed f -> handled m m' dst len failed g.
Proof. intros He (Hb & Hf & Ho). split_and!; [lia|lia| |done]. intros i Hi. rewrite <- He by lia. by apply Hf. Qed.

Lemma handled_outside m m' dst len failed f p n : handled m m' dst len failed f -> disjoint_ranges p n dst len -> bytes m' p n = bytes m p n.
Proof. intros (_ & _ & Ho) Hd. apply bytes_ext. intros i Hi. apply Ho, Hd. unfold within. lia. Qed.

Lemma handled_bytes m m' dst len p : handled m m' dst len 0 (fun i => m (p + i)) -> bytes m' dst len = bytes m p len.
Proof. intros (_ & Hf & _). apply bytes_ext. intros i Hi. apply Hf. lia. Qed.

Lemma zeros_handled m p v n : 0 <= n -> handled m (put m p (replicate (Z.to_nat n) v)) p n 0 (fun _ => v).
Proof.
  intros Hn. pose proof (put_handled m p (replicate (Z.to_nat n) v)) as Hp. rewrite length_replicate, Z2Nat.id in Hp by lia.
  eapply handled_ext; [|exact Hp]. intros i Hi. cbn beta. apply nth_lookup_Some. apply lookup_replicate_2. lia.
Qed.

(** The recursion of [copy_nonoverlapping] is a block copy. *)
Lemma copy_nonoverlapping_ok (n : nat) m src dst : valid_range src (Z.of_nat n) -> valid_range dst (Z.of_nat n) ->
  disjoint_ranges dst (Z.of_nat n) src (Z.of_nat n) ->
  exists m', copy_nonoverlapping m src dst n = Ret m' /\ handled m m' dst (Z.of_nat n) 0 (fun i => m (src + i)).
Proof.
  unfold valid_range, disjoint_ranges, within. revert m. induction n as [|n IH]; intros m Hs Hd Hdj.
  { exists m. split; [done|]. split_and!; [lia|lia|lia|done]. }
  cbn [copy_nonoverlapping]. unfold copy_offset. rewrite !uadd_ok by lia. cbn [mbind outcome_bind].
  destruct (IH (put m (dst + Z.of_nat n) [m (src + Z.of_nat n)])) as (m' & Hc & _ & Hf & Ho); [lia|lia|intros a Ha; specialize (Hdj a); lia|].
  exists m'. split; [done|].
  destruct (put_handled m (dst + Z.of_nat n) [m (src + Z.of_nat n)]) as (_ & Hpf & Hpo). cbn [length] in *.
  split_and!; [lia|lia| |].
  - intros i Hi. destruct (decide (i = Z.of_nat n)) as [->|Hne].
    + rewrite Ho by (unfold within; lia). specialize (Hpf 0 ltac:(lia)). rewrite Z.add_0_r in Hpf. by rewrite Hpf.
    + rewrite Hf by lia. apply Hpo. pose proof (Hdj (dst + Z.of_nat n)). unfold within. lia.
  - intros a Ha. unfold within in *. rewrite Ho by (unfold within; lia). apply Hpo. unfold within. lia.
Qed.

Lemma memcpy_ok m dst src n : valid_range src n -> valid_range dst n -> disjoint_ranges dst n src n ->
  exists m', memcpy m dst src n = Ret m' /\ handled m m' dst n 0 (fun i => m (src + i)).
Proof.
  intros Hs Hd Hdj. pose proof (Z2Nat.id n ltac:(unfold valid_range in *; lia)) as En.
  know (copy_nonoverlapping_ok (Z.to_nat n) m src dst) as (m' & Hc & Hh); rewrite ?En; eauto. rewrite En in Hh. eauto.
Qed.

(** RISC-V and LoongArch keep the laws of the interface. *)
Definition riscv_mem : FallibleMem := {| memcpy_raw := riscv_memcpy; memset_raw := riscv_memset |}.
Lemma riscv_mem_laws : @FallibleMemLaws riscv_mem.
Proof.
  split.
  - intros m dst src len Hd Hs Hdj. cbn. unfold ptr_copy. pose proof (put_handled m dst (bytes m src len)) as Hp.
    rewrite length_bytes, Z2Nat.id in Hp by (unfold valid_range in *; lia). eapply handled_ext; [|exact Hp].
    intros i Hi. by apply nth_bytes.
  - intros m dst value len Hd. cbn. apply zeros_handled. unfold valid_range in *; lia.
Qed.

(** ** Windows *)

Definition rd_len r : Z := rd_end r - rd_cursor r.
Definition wr_len w : Z := wr_end w - wr_cursor w.
Definition rd_ok r : Prop := valid_range (rd_cursor r) (rd_len r).
Definition wr_ok w : Prop := valid_range (wr_cursor w) (wr_len w).

(** The windows do not overlap. *)
Definition apart r w : Prop := disjoint_ranges (wr_cursor w) (wr_len w) (rd_cursor r) (rd_len r).

Create HintDb vmio.
#[export] Hint Unfold rd_ok wr_ok rd_len wr_len apart valid_range disjoint_ranges within : vmio.

Ltac windows := autounfold with vmio in *; cbn [rd_cursor rd_end wr_cursor wr_end] in *.

Lemma wrap_ok p n : 0 <= p + n < 2 ^ 64 -> wrapping_add 64 p n = p + n.
Proof. intros Hb. unfold wrapping_add. by apply Z.mod_small. Qed.

Lemma remain_ok r : rd_ok r -> remain r = Ret (rd_len r).
Proof. intros Hr. apply usub_ok. windows. lia. Qed.

Lemma avail_ok w : wr_ok w -> avail w = Ret (wr_len w).
Proof. intros Hw. apply usub_ok. windows. lia. Qed.

(** The windows of a buffer. *)
Lemma buffer_reader p n : valid_range p n -> reader_from_kernel_space p n = mk_reader p (p + n).
Proof. intros Hv. unfold reader_from_kernel_space. rewrite wrap_ok; [done|]. windows. lia. Qed.
Lemma buffer_writer p n : valid_range p n -> writer_from_kernel_space p n = mk_writer p (p + n).
Proof. intros Hv. unfold writer_from_kernel_space. rewrite wrap_ok; [done|]. windows. lia. Qed.

(** Moving the cursors. *)
Definition rd_advance r n : VmReader := reader_at r (rd_cursor r + n).
Definition wr_advance w n : VmWriter := writer_at w (wr_cursor w + n).

Lemma rd_advance_ok r n : rd_ok r -> 0 <= n <= rd_len r -> reader_at r (wrapping_add 64 (rd_cursor r) n) = rd_advance r n.
Proof. intros Hr Hn. rewrite wrap_ok; [done|]. windows. lia. Qed.
Lemma wr_advance_ok w n : wr_ok w -> 0 <= n <= wr_len w -> writer_at w (wrapping_add 64 (wr_cursor w) n) = wr_advance w n.
Proof. intros Hw Hn. rewrite wrap_ok; [done|]. windows. lia. Qed.
Lemma rd_advance_0 r : rd_advance r 0 = r.
Proof. destruct r. unfold rd_advance, reader_at. cbn. by rewrite Z.add_0_r. Qed.
Lemma wr_advance_0 w : wr_advance w 0 = w.
Proof. destruct w. unfold wr_advance, writer_at. cbn. by rewrite Z.add_0_r. Qed.

Lemma reader_skip_ok base n off : valid_range base n -> 0 <= off <= n -> reader_skip (mk_reader base (base + n)) off = Ret (mk_reader (base + off) (base + n)).
Proof.
  intros Hb Ho. unfold reader_skip, reader_at. step (remain_ok (mk_reader base (base + n))) by (windows; lia).
  unfold rd_len. cbn [rd_cursor rd_end]. rewrite (proj2 (Z.leb_le _ _)) by lia. cbn [rassert mbind outcome_bind]. rewrite wrap_ok; [done|windows; lia].
Qed.

Lemma writer_skip_ok base n off : valid_range base n -> 0 <= off <= n -> writer_skip (mk_writer base (base + n)) off = Ret (mk_writer (base + off) (base + n)).
Proof.
  intros Hb Ho. unfold writer_skip, writer_at. step (avail_ok (mk_writer base (base + n))) by (windows; lia).
  unfold wr_len. cbn [wr_cursor wr_end]. rewrite (proj2 (Z.leb_le _ _)) by lia. cbn [rassert mbind outcome_bind]. rewrite wrap_ok; [done|windows; lia].
Qed.

Section transfer.
Context `{FallibleMem} `{!FallibleMemLaws}.

Lemma handled_refl m dst f : handled m m dst 0 0 f.
Proof. split_and!; [lia|lia|lia|done]. Qed.

Lemma read_ok m r w : rd_ok r -> wr_ok w -> apart r w ->
  exists m', read m r w = Ret (Z.min (rd_len r) (wr_len w), rd_advance r (Z.min (rd_len r) (wr_len w)), wr_advance w (Z.min (rd_len r) (wr_len w)), m') /\
    handled m m' (wr_cursor w) (Z.min (rd_len r) (wr_len w)) 0 (fun i => m (rd_cursor r + i)).
Proof.
  intros Hr Hw Ha. unfold read. step (remain_ok r) by done. step (avail_ok w) by done.
  destruct (Z.eqb_spec (Z.min (rd_len r) (wr_len w)) 0) as [->|Hn].
  { rewrite rd_advance_0, wr_advance_0. eauto using handled_refl. }
  destruct (memcpy_ok m (wr_cursor w) (rd_cursor r) (Z.min (rd_len r) (wr_len w))) as (m' & Hm & Hh);
    [windows; lia|windows; lia|windows; intros a Hx; specialize (Ha a); lia|].
  step Hm. rewrite rd_advance_ok, wr_advance_ok by (done || windows; lia). eauto.
Qed.

Lemma memcpy_fallible_ok m dst src len : valid_range dst len -> valid_range src len -> disjoint_ranges dst len src len ->
  exists k m', memcpy_fallible m dst src len = Ret (k, m') /\ 0 <= k <= len /\ handled m m' dst len (len - k) (fun i => m (src + i)).
Proof.
  intros Hd Hs Hdj. pose proof (memcpy_raw_law m dst src len Hd Hs Hdj) as Hh. unfold memcpy_fallible.
  destruct (memcpy_raw m dst src len) as [f m']. cbn [fst snd] in Hh. pose proof (proj1 Hh). exists (len - f), m'.
  rewrite usub_ok by lia. replace (len - (len - f)) with f by lia. split_and!; [done|lia|lia|done..].
Qed.

Lemma memset_fallible_ok m dst v len : valid_range dst len ->
  exists k m', memset_fallible m dst v len = Ret (k, m') /\ 0 <= k <= len /\ handled m m' dst len (len - k) (fun _ => v).
Proof.
  intros Hd. pose proof (memset_raw_law m dst v len Hd) as Hh. unfold memset_fallible.
  destruct (memset_raw m dst v len) as [f m']. cbn [fst snd] in Hh. pose proof (proj1 Hh). exists (len - f), m'.
  rewrite usub_ok by lia. replace (len - (len - f)) with f by lia. split_and!; [done|lia|lia|done..].
Qed.

(** The answer of a transfer of [n] bytes of which [k] were handled. *)
Definition fault_at n k : Z + Error * Z := if k <? n then inr (PageFault, k) else inl k.

Lemma read_fallible_ok m r w : rd_ok r -> wr_ok w -> apart r w ->
  exists k m', read_fallible m r w = Ret (fault_at (Z.min (rd_len r) (wr_len w)) k, rd_advance r k, wr_advance w k, m') /\
    0 <= k <= Z.min (rd_len r) (wr_len w) /\
    handled m m' (wr_cursor w) (Z.min (rd_len r) (wr_len w)) (Z.min (rd_len r) (wr_len w) - k) (fun i => m (rd_cursor r + i)).
Proof.
  intros Hr Hw Ha. unfold read_fallible. step (remain_ok r) by done. step (avail_ok w) by done.
  destruct (Z.eqb_spec (Z.min (rd_len r) (wr_len w)) 0) as [->|Hn].
  { exists 0, m. rewrite rd_advance_0, wr_advance_0. split_and!; [done|lia|lia|apply handled_refl..]. }
  destruct (memcpy_fallible_ok m (wr_cursor w) (rd_cursor r) (Z.min (rd_len r) (wr_len w))) as (k & m' & Hm & Hk & Hh);
    [windows; lia|windows; lia|windows; intros a Hx; specialize (Ha a); lia|].
  exists k, m'. step Hm. rewrite rd_advance_ok, wr_advance_ok by (done || windows; lia). done.
Qed.

(** C24: transfers between windows that do not overlap.  [read] and [write] return, copy as many bytes as the shorter
    window has, unchanged and in order, move both cursors behind them, and change no other memory.  When user memory is
    involved, [read_fallible] and [write_fallible] do the same, or report a page fault with the number of bytes that
    they copied, by which the cursors have moved; memory outside of the window of the writer does not change. *)
Theorem vm_transfer_correct m r w : rd_ok r -> wr_ok w -> apart r w ->
  let n := Z.min (rd_len r) (wr_len w) in
  (exists m', read m r w = Ret (n, rd_advance r n, wr_advance w n, m') /\ write m w r = read m r w /\
    (forall i, 0 <= i < n -> m' (wr_cursor w + i) = m (rd_cursor r + i)) /\
    (forall a, ~ within a (wr_cursor w) n -> m' a = m a)) /\
  exists k m', read_fallible m r w = Ret (if k <? n then inr (PageFault, k) else inl n, rd_advance r k, wr_advance w k, m') /\
    write_fallible m w r = read_fallible m r w /\ 0 <= k <= n /\
    (forall i, 0 <= i < k -> m' (wr_cursor w + i) = m (rd_cursor r + i)) /\
    (forall a, ~ within a (wr_cursor w) n -> m' a = m a).
Proof.
  intros Hr Hw Ha n. split.
  - destruct (read_ok m r w Hr Hw Ha) as (m' & Hm & _ & Hf & Ho). exists m'. split_and!; [done|done| |done].
    intros i Hi. apply Hf. subst n. lia.
  - destruct (read_fallible_ok m r w Hr Hw Ha) as (k & m' & Hm & Hk & _ & Hf & Ho). exists k, m'. split_and!; [|done|lia|lia| |done].
    + rewrite Hm. unfold fault_at. fold n. destruct (Z.ltb_spec k n); [done|]. replace k with n by lia. done.
    + intros i Hi. apply Hf. lia.
Qed.

(** ** Values *)

(** A buffer of [len] bytes at [val] that does not overlap with a window. *)
Definition rd_buffer r val len : Prop := valid_range val len /\ disjoint_ranges val len (rd_cursor r) (rd_len r).
Definition wr_buffer w val len : Prop := valid_range val len /\ disjoint_ranges (wr_cursor w) (wr_len w) val len.

Lemma rd_back r k : 0 <= rd_cursor r -> 0 <= k -> usub (rd_cursor (rd_advance r k)) k = Ret (rd_cursor r).
Proof. intros Hc Hk. cbn. rewrite usub_ok by lia. f_equal. lia. Qed.
Lemma wr_back w k : 0 <= wr_cursor w -> 0 <= k -> usub (wr_cursor (wr_advance w k)) k = Ret (wr_cursor w).
Proof. intros Hc Hk. cbn. rewrite usub_ok by lia. f_equal. lia. Qed.

(** Reading [len] bytes into a buffer, with the cursor put back after a fault. *)
Lemma read_buffer_ok m r val len : rd_ok r -> rd_buffer r val len -> len <= rd_len r ->
  exists k m', read_fallible m r (mk_writer val (val + len)) = Ret (fault_at len k, rd_advance r k, wr_advance (mk_writer val (val + len)) k, m') /\
    0 <= k <= len /\ handled m m' val len (len - k) (fun i => m (rd_cursor r + i)).
Proof.
  intros Hr [Hv Hd] Hl. destruct (read_fallible_ok m r (mk_writer val (val + len))) as (k & m' & Hm & Hk & Hh);
    [done|windows; lia|windows; intros a; specialize (Hd a); lia|].
  replace (Z.min (rd_len r) (wr_len (mk_writer val (val + len)))) with len in * by (windows; lia). eauto.
Qed.

Lemma write_buffer_ok m w val len : wr_ok w -> wr_buffer w val len -> len <= wr_len w ->
  exists k m', read_fallible m (mk_reader val (val + len)) w = Ret (fault_at len k, rd_advance (mk_reader val (val + len)) k, wr_advance w k, m') /\
    0 <= k <= len /\ handled m m' (wr_cursor w) len (len - k) (fun i => m (val + i)).
Proof.
  intros Hw [Hv Hd] Hl. destruct (read_fallible_ok m (mk_reader val (val + len)) w) as (k & m' & Hm & Hk & Hh);
    [windows; lia|done|windows; intros a Ha; specialize (Hd a); lia|].
  replace (Z.min (rd_len (mk_reader val (val + len))) (wr_len w)) with len in * by (windows; lia). eauto.
Qed.

(** What reading [len] bytes to [val] may answer. *)
Definition val_read m r val len (res : list Z + Error) r' m' : Prop :=
  (forall a, ~ within a val len -> m' a = m a) /\
  match res with
  | inl bs => len <= rd_len r /\ bs = bytes m (rd_cursor r) len /\ r' = rd_advance r len
  | inr e => r' = r /\ (e = InvalidArgs /\ rd_len r < len /\ m' = m \/ e = PageFault /\ len <= rd_len r)
  end.

Definition val_written m w val len (res : unit + Error) w' m' : Prop :=
  (forall a, ~ within a (wr_cursor w) len -> m' a = m a) /\
  match res with
  | inl _ => len <= wr_len w /\ bytes m' (wr_cursor w) len = bytes m val len /\ w' = wr_advance w len
  | inr e => w' = w /\ (e = InvalidArgs /\ wr_len w < len /\ m' = m \/ e = PageFault /\ len <= wr_len w)
  end.

Lemma read_val_ok m r val len : rd_ok r -> rd_buffer r val len ->
  exists res r' m', read_val m r val len = Ret (res, r', m') /\ val_read m r val len res r' m' /\ res <> inr PageFault.
Proof.
  intros Hr Hb. unfold read_val. step (remain_ok r) by done. destruct (Z.ltb_spec (rd_len r) len) as [Hl|Hl].
  { do 3 eexists. split; [done|]. split; [|done]. split; [done|]. split; [done|]. by left. }
  rewrite buffer_writer by apply Hb. destruct Hb as [Hv Hd].
  destruct (read_ok m r (mk_writer val (val + len))) as (m' & Hm & Hh); [done|windows; lia|windows; intros a; specialize (Hd a); lia|].
  replace (Z.min (rd_len r) (wr_len (mk_writer val (val + len)))) with len in * by (windows; lia).
  step Hm. do 3 eexists. split; [done|]. split; [|done]. split; [apply Hh|]. split_and!; [done| |done]. by apply handled_bytes.
Qed.

Lemma read_val_fallible_ok m r val len : rd_ok r -> rd_buffer r val len ->
  exists res r' m', read_val_fallible m r val len = Ret (res, r', m') /\ val_read m r val len res r' m'.
Proof.
  intros Hr Hb. unfold read_val_fallible. step (remain_ok r) by done. destruct (Z.ltb_spec (rd_len r) len) as [Hl|Hl].
  { do 3 eexists. split; [done|]. split; [done|]. split; [done|]. by left. }
  rewrite buffer_writer by apply Hb. destruct (read_buffer_ok m r val len Hr Hb Hl) as (k & m' & Hm & Hk & Hh). step Hm.
  unfold fault_at. destruct (Z.ltb_spec k len) as [Hf|Hf]; cbn [mbind outcome_bind].
  - step (rd_back r k) by (windows; lia). do 3 eexists. split; [done|]. split; [apply Hh|]. split; [by destruct r|]. by right.
  - replace k with len in * by lia. rewrite Z.sub_diag in Hh. do 3 eexists. split; [done|]. split; [apply Hh|].
    split_and!; [done|by apply handled_bytes|done].
Qed.

Lemma write_val_ok m w val len : wr_ok w -> wr_buffer w val len ->
  exists res w' m', write_val m w val len = Ret (res, w', m') /\ val_written m w val len res w' m' /\ res <> inr PageFault.
Proof.
  intros Hw Hb. unfold write_val, write. step (avail_ok w) by done. destruct (Z.ltb_spec (wr_len w) len) as [Hl|Hl].
  { do 3 eexists. split; [done|]. split; [|done]. split; [done|]. split; [done|]. by left. }
  rewrite buffer_reader by apply Hb. destruct Hb as [Hv Hd].
  destruct (read_ok m (mk_reader val (val + len)) w) as (m' & Hm & Hh); [windows; lia|done|windows; intros a Ha; specialize (Hd a); lia|].
  replace (Z.min (rd_len (mk_reader val (val + len))) (wr_len w)) with len in * by (windows; lia).
  step Hm. do 3 eexists. split; [done|]. split; [|done]. split; [apply Hh|]. split_and!; [done| |done]. by apply handled_bytes.
Qed.

Lemma write_val_fallible_ok m w val len : wr_ok w -> wr_buffer w val len ->
  exists res w' m', write_val_fallible m w val len = Ret (res, w', m') /\ val_written m w val len res w' m'.
Proof.
  intros Hw Hb. unfold write_val_fallible, write_fallible. step (avail_ok w) by done. destruct (Z.ltb_spec (wr_len w) len) as [Hl|Hl].
  { do 3 eexists. split; [done|]. split; [done|]. split; [done|]. by left. }
  rewrite buffer_reader by apply Hb. destruct (write_buffer_ok m w val len Hw Hb Hl) as (k & m' & Hm & Hk & Hh). step Hm.
  unfold fault_at. destruct (Z.ltb_spec k len) as [Hf|Hf]; cbn [mbind outcome_bind].
  - step (wr_back w k) by (windows; lia). do 3 eexists. split; [done|]. split; [apply Hh|]. split; [by destruct w|]. by right.
  - replace k with len in * by lia. rewrite Z.sub_diag in Hh. do 3 eexists. split; [done|]. split; [apply Hh|].
    split_and!; [done|by apply handled_bytes|done].
Qed.

Lemma collect_ok m r buf : rd_ok r -> rd_buffer r buf (rd_len r) ->
  exists res r' m', collect m r buf = Ret (res, r', m') /\ val_read m r buf (rd_len r) res r' m'.
Proof.
  intros Hr Hb. unfold collect. step (remain_ok r) by done. rewrite buffer_writer by apply Hb.
  set (m0 := put _ _ _). assert (handled m m0 buf (rd_len r) 0 (fun _ => 0)) as Hz by (apply zeros_handled; windows; lia).
  destruct (read_buffer_ok m0 r buf (rd_len r) Hr Hb) as (k & m' & Hm & Hk & Hh); [lia|]. step Hm.
  assert (forall a, ~ within a buf (rd_len r) -> m' a = m a) as Ho.
  { intros a Ha. destruct Hh as (_ & _ & Ho), Hz as (_ & _ & Hz). by rewrite Ho, Hz. }
  unfold fault_at. destruct (Z.ltb_spec k (rd_len r)) as [Hf|Hf]; cbn [mbind outcome_bind].
  - step (rd_back r k) by (windows; lia). do 3 eexists. split; [done|]. split; [done|]. split; [by destruct r|]. by right.
  - replace k with (rd_len r) in * by lia. rewrite Z.sub_diag in Hh. do 3 eexists. split; [done|]. split; [done|].
    split_and!; [done| |done]. rewrite (handled_bytes _ _ _ _ _ Hh). eapply handled_outside; [done|].
    destruct Hb as [_ Hd]. windows. intros a Ha Hb. by apply (Hd a).
Qed.

(** Reading and writing values.  Whether the memory may fault or not, reading a value and collecting the rest of a
    window return.  On success the answer is the bytes under the cursor and the cursor is behind them.  If the window is
    too short they answer [InvalidArgs] and change nothing; after a page fault, which only user memory has, the cursor is
    where it was.  Only the buffer of the value changes.  Writing a value is the same in the other direction. *)
Theorem vm_val_correct m r w val len buf : rd_ok r -> rd_buffer r val len -> rd_buffer r buf (rd_len r) -> wr_ok w -> wr_buffer w val len ->
  (exists res r' m', read_val m r val len = Ret (res, r', m') /\ val_read m r val len res r' m' /\ res <> inr PageFault) /\
  (exists res r' m', read_val_fallible m r val len = Ret (res, r', m') /\ val_read m r val len res r' m') /\
  (exists res r' m', collect m r buf = Ret (res, r', m') /\ val_read m r buf (rd_len r) res r' m') /\
  (exists res w' m', write_val m w val len = Ret (res, w', m') /\ val_written m w val len res w' m' /\ res <> inr PageFault) /\
  (exists res w' m', write_val_fallible m w val len = Ret (res, w', m') /\ val_written m w val len res w' m').
Proof.
  intros Hr Hb Hc Hw Hd.
  eauto 10 using read_val_ok, read_val_fallible_ok, collect_ok, write_val_ok, write_val_fallible_ok.
Qed.

(** ** Filling *)

(** [k] copies of the value lie from [p] on, and nothing else has changed. *)
Definition filled m m' p (k : nat) (value : list Z) : Prop :=
  (forall (j : nat) i, (j < k)%nat -> 0 <= i < Z.of_nat (length value) ->
    m' (p + Z.of_nat j * Z.of_nat (length value) + i) = nth (Z.to_nat i) value 0) /\
  (forall a, ~ within a p (Z.of_nat k * Z.of_nat (length value)) -> m' a = m a).

Lemma fill_loop_ok (k : nat) m p value : 0 <= p -> p + Z.of_nat k * Z.of_nat (length value) < 2 ^ 64 ->
  filled m (fill_loop k m p value) p k value.
Proof.
  revert m p. induction k as [|k IH]; intros m p Hp Hb; cbn [fill_loop].
  { split; [lia|done]. }
  rewrite wrap_ok by nia. destruct (put_handled m p value) as (_ & Hf & Ho).
  destruct (IH (put m p value) (p + Z.of_nat (length value))) as [Hi Hu]; [lia|lia|]. unfold within in *.
  split.
  - intros [|j] i Hj Hr.
    + rewrite Z.mul_0_l, Z.add_0_r, Hu by nia. apply Hf; lia.
    + rewrite <- (Hi j i) by lia. f_equal. nia.
  - intros a Ha. unfold within in Ha. rewrite Hu by nia. apply Ho. nia.
Qed.

Lemma fill_ok m w value align : wr_ok w -> (0 < length value)%nat -> wr_cursor w mod align = 0 -> wr_len w mod Z.of_nat (length value) = 0 ->
  exists m', fill m w value align = Ret (wr_len w / Z.of_nat (length value), wr_advance w (wr_len w), m') /\
    filled m m' (wr_cursor w) (Z.to_nat (wr_len w / Z.of_nat (length value))) value /\
    Z.of_nat (Z.to_nat (wr_len w / Z.of_nat (length value))) * Z.of_nat (length value) = wr_len w.
Proof.
  intros Hw Hl Ha Hm. unfold fill. rewrite Ha, Z.eqb_refl. cbn [rassert mbind outcome_bind]. step (avail_ok w) by done.
  destruct (Z.eqb_spec (Z.of_nat (length value)) 0); [lia|]. cbn [negb rassert mbind outcome_bind].
  rewrite Hm, Z.eqb_refl. cbn [rassert mbind outcome_bind].
  assert (0 <= wr_len w / Z.of_nat (length value)) by (apply Z.div_pos; windows; lia).
  assert (Z.of_nat (Z.to_nat (wr_len w / Z.of_nat (length value))) * Z.of_nat (length value) = wr_len w) as Hk.
  { rewrite Z2Nat.id by done. rewrite (Z.div_mod (wr_len w) (Z.of_nat (length value))) at 2 by lia. lia. }
  eexists. split_and!; [| |exact Hk].
  - replace (wr_end w) with (wr_cursor w + wr_len w) by (windows; lia). done.
  - apply fill_loop_ok; windows; lia.
Qed.

Lemma fill_zeros_ok m w len : wr_ok w -> 0 <= len ->
  exists k m', fill_zeros m w len = Ret (fault_at (Z.min (wr_len w) len) k, wr_advance w k, m') /\
    0 <= k <= Z.min (wr_len w) len /\ handled m m' (wr_cursor w) (Z.min (wr_len w) len) (Z.min (wr_len w) len - k) (fun _ => 0).
Proof.
  intros Hw Hl. unfold fill_zeros. step (avail_ok w) by done. destruct (Z.eqb_spec (Z.min (wr_len w) len) 0) as [->|Hn].
  { exists 0, m. rewrite wr_advance_0. split_and!; [done|lia|lia|apply handled_refl..]. }
  destruct (memset_fallible_ok m (wr_cursor w) 0 (Z.min (wr_len w) len)) as (k & m' & Hm & Hk & Hh); [windows; lia|].
  exists k, m'. step Hm. rewrite wr_advance_ok by (done || windows; lia). split_and!; [|lia|lia|apply Hh..].
  unfold fault_at. destruct (Z.ltb_spec k (Z.min (wr_len w) len)); [done|]. by replace (Z.min (wr_len w) len) with k by lia.
Qed.

(** ** Histories *)

(** Operations on one reader and one writer; values and buffers lie at [sc]. *)
Inductive io_op :=
| RdLimit (n : Z) | WrLimit (n : Z) | RdSkip (n : Z) | WrSkip (n : Z)
| Read | ReadFallible
| ReadVal (len : Z) | WriteVal (len : Z) | ReadValFallible (len : Z) | WriteValFallible (len : Z) | Collect
| ReadOnce (size align : Z) | WriteOnce (value : list Z) (align : Z)
| Fill (value : list Z) (align : Z) | FillZeros (len : Z).

Record io_state := mk_io { io_mem : memory; io_rd : VmReader; io_wr : VmWriter }.
Implicit Types (st : io_state).

Definition io_exec (sc : Z) st (o : io_op) : outcome io_state :=
  let m := io_mem st in let r := io_rd st in let w := io_wr st in
  match o with
  | RdLimit n => r' ← reader_limit r n; Ret (mk_io m r' w)
  | WrLimit n => w' ← writer_limit w n; Ret (mk_io m r w')
  | RdSkip n => r' ← reader_skip r n; Ret (mk_io m r' w)
  | WrSkip n => w' ← writer_skip w n; Ret (mk_io m r w')
  | Read => ' (_, r', w', m') ← read m r w; Ret (mk_io m' r' w')
  | ReadFallible => ' (_, r', w', m') ← read_fallible m r w; Ret (mk_io m' r' w')
  | ReadVal len => ' (_, r', m') ← read_val m r sc len; Ret (mk_io m' r' w)
  | WriteVal len => ' (_, w', m') ← write_val m w sc len; Ret (mk_io m' r w')
  | ReadValFallible len => ' (_, r', m') ← read_val_fallible m r sc len; Ret (mk_io m' r' w)
  | WriteValFallible len => ' (_, w', m') ← write_val_fallible m w sc len; Ret (mk_io m' r w')
  | Collect => ' (_, r', m') ← collect m r sc; Ret (mk_io m' r' w)
  | ReadOnce size align => ' (_, r') ← read_once m r size align; Ret (mk_io m r' w)
  | WriteOnce value align => ' (_, w', m') ← write_once m w value align; Ret (mk_io m' r w')
  | Fill value align => ' (_, w', m') ← fill m w value align; Ret (mk_io m' r w')
  | FillZeros len => ' (_, w', m') ← fill_zeros m w len; Ret (mk_io m' r w')
  end.

Fixpoint io_run (sc : Z) st (os : list io_op) : outcome io_state :=
  match os with [] => Ret st | o :: os' => st' ← io_exec sc st o; io_run sc st' os' end.

(** The conditions that the operations assert. *)
Definition io_guard st (o : io_op) : bool :=
  let r := io_rd st in let w := io_wr st in
  match o with
  | RdSkip n => n <=? rd_len r
  | WrSkip n => n <=? wr_len w
  | ReadOnce size align => (rd_len r <? size) || (rd_cursor r mod align =? 0)
  | WriteOnce value align => (wr_len w <? Z.of_nat (length value)) || (wr_cursor w mod align =? 0)
  | Fill value align =>
      (wr_cursor w mod align =? 0) && negb (Z.of_nat (length value) =? 0) && (wr_len w mod Z.of_nat (length value) =? 0)
  | _ => true
  end.

(** Numbers are not negative, and values fit the buffer of [sn] bytes. *)
Definition io_fits (sn : Z) (o : io_op) : Prop :=
  match o with
  | RdLimit n | WrLimit n | RdSkip n | WrSkip n | FillZeros n | ReadOnce n _ => 0 <= n
  | ReadVal n | WriteVal n | ReadValFallible n | WriteValFallible n => 0 <= n <= sn
  | _ => True
  end.

(** The regions of the reader, the writer and the buffer. *)
Record regions (rp rn wp wn sc sn : Z) : Prop := {
  reg_r : valid_range rp rn; reg_w : valid_range wp wn; reg_s : valid_range sc sn;
  reg_wr : disjoint_ranges wp wn rp rn; reg_sr : disjoint_ranges sc sn rp rn; reg_ws : disjoint_ranges wp wn sc sn;
  reg_collect : rn <= sn;
}.

(** The windows are in their regions; what is in neither the region of the writer nor the buffer is as in [m]. *)
Record confined m (rp rn wp wn sc sn : Z) st : Prop := {
  con_r : rp <= rd_cursor (io_rd st) <= rd_end (io_rd st) /\ rd_end (io_rd st) <= rp + rn;
  con_w : wp <= wr_cursor (io_wr st) <= wr_end (io_wr st) /\ wr_end (io_wr st) <= wp + wn;
  con_m a : ~ within a wp wn -> ~ within a sc sn -> io_mem st a = m a;
}.

Section history.
Context (m0 : memory) (rp rn wp wn sc sn : Z) (Hreg : regions rp rn wp wn sc sn).
Local Notation confined := (confined m0 rp rn wp wn sc sn).

Lemma confined_ok st : confined st ->
  rd_ok (io_rd st) /\ wr_ok (io_wr st) /\ apart (io_rd st) (io_wr st) /\
  (forall len, 0 <= len <= sn -> rd_buffer (io_rd st) sc len /\ wr_buffer (io_wr st) sc len) /\ 0 <= rd_len (io_rd st) <= sn.
Proof.
  intros [Hr Hw _]. destruct Hreg as [Vr Vw Vs Dwr Dsr Dws Hc]. unfold rd_buffer, wr_buffer. windows.
  split_and!; [lia..| | |lia|lia].
  - intros a Ha Hb. apply (Dwr a); lia.
  - intros len Hl. split_and!; [lia..| |lia|lia|lia|]; intros a Ha Hb; [apply (Dsr a)|apply (Dws a)]; lia.
Qed.

(** A step that moves the windows within themselves and changes the memory only where the writer and the buffer are. *)
Lemma confined_step st m' r' w' : confined st ->
  rd_cursor (io_rd st) <= rd_cursor r' <= rd_end r' /\ rd_end r' <= rd_end (io_rd st) ->
  wr_cursor (io_wr st) <= wr_cursor w' <= wr_end w' /\ wr_end w' <= wr_end (io_wr st) ->
  (forall a, ~ within a (wr_cursor (io_wr st)) (wr_len (io_wr st)) -> ~ within a sc sn -> m' a = io_mem st a) ->
  confined (mk_io m' r' w').
Proof.
  intros [Hr Hw Hm] Hr' Hw' Hm'. split; cbn [io_mem io_rd io_wr]; [lia|lia|]. intros a Ha Hs.
  rewrite Hm' by (done || windows; lia). by apply Hm.
Qed.

(** An operation returns within the regions when its condition holds, and panics otherwise. *)
Definition op_ok st (o : io_op) : Prop :=
  if io_guard st o then exists st', io_exec sc st o = Ret st' /\ confined st' else io_exec sc st o = Panic.

Ltac returns := eexists; split; [reflexivity|]; eapply confined_step; [eassumption|windows; cbn; lia|windows; cbn; lia|].

Lemma window_ops_ok st n : confined st -> 0 <= n -> op_ok st (RdLimit n) /\ op_ok st (WrLimit n) /\ op_ok st (RdSkip n) /\ op_ok st (WrSkip n).
Proof.
  intros Hc Hn. destruct (confined_ok st Hc) as (Hr & Hw & _). unfold op_ok, io_exec, io_guard, reader_limit, writer_limit, reader_skip, writer_skip.
  step (remain_ok (io_rd st)) by done. step (avail_ok (io_wr st)) by done. split_and!.
  - destruct (Z.ltb_spec n (rd_len (io_rd st))); [rewrite wrap_ok by (windows; lia)|]; by returns.
  - destruct (Z.ltb_spec n (wr_len (io_wr st))); [rewrite wrap_ok by (windows; lia)|]; by returns.
  - destruct (Z.leb_spec n (rd_len (io_rd st))); [|done]. cbn [rassert mbind outcome_bind]. rewrite rd_advance_ok by (done || lia). by returns.
  - destruct (Z.leb_spec n (wr_len (io_wr st))); [|done]. cbn [rassert mbind outcome_bind]. rewrite wr_advance_ok by (done || lia). by returns.
Qed.

Lemma transfer_ops_ok st : confined st -> op_ok st Read /\ op_ok st ReadFallible.
Proof.
  intros Hc. destruct (confined_ok st Hc) as (Hr & Hw & Ha & _). unfold op_ok, io_exec, io_guard. split.
  - destruct (read_ok (io_mem st) _ _ Hr Hw Ha) as (m' & Hm & _ & _ & Ho). step Hm. returns.
    intros a Hx _. apply Ho. windows. lia.
  - destruct (read_fallible_ok (io_mem st) _ _ Hr Hw Ha) as (k & m' & Hm & Hk & _ & _ & Ho). step Hm. returns.
    intros a Hx _. apply Ho. windows. lia.
Qed.

(** After an operation on values. *)
Lemma val_read_confined st len res r' m' : confined st -> 0 <= len <= sn -> val_read (io_mem st) (io_rd st) sc len res r' m' ->
  confined (mk_io m' r' (io_wr st)).
Proof.
  intros Hc Hl [Ho Hv]. pose proof (confined_ok st Hc) as (Hr & Hw & _). eapply confined_step; [done| |windows; lia|].
  - destruct res as [bs|e]; [destruct Hv as (? & _ & ->)|destruct Hv as [-> _]]; windows; cbn; lia.
  - intros a _ Hs. apply Ho. windows. lia.
Qed.

Lemma val_written_confined st len res w' m' : confined st -> 0 <= len -> val_written (io_mem st) (io_wr st) sc len res w' m' ->
  confined (mk_io m' (io_rd st) w').
Proof.
  intros Hc Hl [Ho Hv]. pose proof (confined_ok st Hc) as (Hr & Hw & _).
  destruct res as [[]|e]; [destruct Hv as (Hle & _ & ->)|destruct Hv as [-> [(_ & _ & ->)|[_ Hle]]]];
    (eapply confined_step; [done|windows; lia|windows; cbn; lia|]); try done; intros a Ha _; apply Ho; windows; lia.
Qed.

Lemma value_ops_ok st len : confined st -> 0 <= len <= sn ->
  op_ok st (ReadVal len) /\ op_ok st (WriteVal len) /\ op_ok st (ReadValFallible len) /\ op_ok st (WriteValFallible len) /\ op_ok st Collect.
Proof.
  intros Hc Hl. destruct (confined_ok st Hc) as (Hr & Hw & _ & Hb & Hn). unfold op_ok, io_exec, io_guard.
  destruct (Hb len Hl) as [Hrb Hwb]. split_and!.
  - destruct (read_val_ok (io_mem st) _ _ _ Hr Hrb) as (res & r' & m' & Hm & Hv & _). step Hm. eauto using val_read_confined.
  - destruct (write_val_ok (io_mem st) _ _ _ Hw Hwb) as (res & w' & m' & Hm & Hv & _). step Hm. eexists. split; [done|]. eapply val_written_confined; [done|apply Hl|done].
  - destruct (read_val_fallible_ok (io_mem st) _ _ _ Hr Hrb) as (res & r' & m' & Hm & Hv). step Hm. eauto using val_read_confined.
  - destruct (write_val_fallible_ok (io_mem st) _ _ _ Hw Hwb) as (res & w' & m' & Hm & Hv). step Hm. eexists. split; [done|]. eapply val_written_confined; [done|apply Hl|done].
  - destruct (collect_ok (io_mem st) _ sc Hr (proj1 (Hb _ Hn))) as (res & r' & m' & Hm & Hv). step Hm. eauto using val_read_confined.
Qed.

Lemma once_ops_ok st size value align : confined st -> 0 <= size -> op_ok st (ReadOnce size align) /\ op_ok st (WriteOnce value align).
Proof.
  intros Hc Hl. destruct (confined_ok st Hc) as (Hr & Hw & _). unfold op_ok, io_exec, io_guard, read_once, write_once.
  step (remain_ok (io_rd st)) by done. step (avail_ok (io_wr st)) by done. split.
  - destruct (Z.ltb_spec (rd_len (io_rd st)) size); [by returns|]. cbn [orb].
    destruct (Z.eqb_spec (rd_cursor (io_rd st) mod align) 0); [|done]. cbn [rassert mbind outcome_bind].
    rewrite rd_advance_ok by (done || lia). by returns.
  - destruct (Z.ltb_spec (wr_len (io_wr st)) (Z.of_nat (length value))); [by returns|]. cbn [orb].
    destruct (Z.eqb_spec (wr_cursor (io_wr st) mod align) 0); [|done]. cbn [rassert mbind outcome_bind].
    rewrite wr_advance_ok by (done || lia). returns. intros a Ha _. apply put_handled. windows. lia.
Qed.

Lemma fill_ops_ok st value align len : confined st -> 0 <= len -> op_ok st (Fill value align) /\ op_ok st (FillZeros len).
Proof.
  intros Hc Hl. destruct (confined_ok st Hc) as (Hr & Hw & _). unfold op_ok, io_exec, io_guard. split.
  - destruct (Z.eqb_spec (wr_cursor (io_wr st) mod align) 0) as [Ha|Ha]; cbn [andb].
    2: { unfold fill. by rewrite (proj2 (Z.eqb_neq _ _) Ha). }
    destruct (Z.eqb_spec (Z.of_nat (length value)) 0) as [Hz|Hz]; cbn [andb negb].
    { unfold fill. rewrite Ha, Hz, Z.eqb_refl. cbn [rassert mbind outcome_bind]. by step (avail_ok (io_wr st)) by done. }
    destruct (Z.eqb_spec (wr_len (io_wr st) mod Z.of_nat (length value)) 0) as [Hm|Hm]; cbn [andb].
    + destruct (fill_ok (io_mem st) _ value align Hw) as (m' & Hf & [_ Ho] & Hk); [lia|done|done|]. step Hf. returns.
      intros a Hx _. apply Ho. by rewrite Hk.
    + unfold fill. rewrite Ha, Z.eqb_refl. cbn [rassert mbind outcome_bind]. step (avail_ok (io_wr st)) by done.
      by rewrite (proj2 (Z.eqb_neq _ _) Hz), (proj2 (Z.eqb_neq _ _) Hm).
  - destruct (fill_zeros_ok (io_mem st) _ len Hw Hl) as (k & m' & Hm & Hk & _ & _ & Ho). step Hm. returns.
    intros a Hx _. apply Ho. windows. lia.
Qed.

Lemma io_exec_ok st (o : io_op) : confined st -> io_fits sn o -> op_ok st o.
Proof.
  intros Hc Hf. destruct o; cbn [io_fits] in Hf;
    first [by apply transfer_ops_ok | by apply window_ops_ok | by apply value_ops_ok | by apply (fill_ops_ok st value align 0)
          | by apply (fill_ops_ok st [] 0) | by apply (once_ops_ok st size []) | by apply (once_ops_ok st 0 value) | idtac].
  apply (value_ops_ok st 0); [done|]. pose proof (reg_s _ _ _ _ _ _ Hreg). windows. lia.
Qed.

Lemma io_run_ok os st : confined st -> Forall (io_fits sn) os ->
  (forall st', io_run sc st os = Ret st' -> confined st') /\
  (io_run sc st os = Panic <-> exists pre o post st1, os = pre ++ o :: post /\ io_run sc st pre = Ret st1 /\ io_guard st1 o = false).
Proof.
  revert st. induction os as [|o os IH]; intros st Hc Hf.
  { split; [by intros st' [= <-]|]. split; [done|]. intros (pre & o & post & st1 & He & _). by destruct pre. }
  inversion Hf as [|? ? Ho Hos]; subst. pose proof (io_exec_ok st o Hc Ho) as Hx. unfold op_ok in Hx. cbn [io_run].
  destruct (io_guard st o) eqn:Hg.
  - destruct Hx as (st1 & Hx & Hc1). rewrite Hx. cbn [mbind outcome_bind]. destruct (IH st1 Hc1 Hos) as [IH1 IH2]. split; [done|].
    rewrite IH2. split.
    + intros (pre & o' & post & st2 & -> & Hr & Hg2). exists (o :: pre), o', post, st2. cbn [io_run]. by rewrite Hx.
    + intros (pre & o' & post & st2 & He & Hr & Hg2). destruct pre as [|o1 pre]; cbn in He; injection He as <- ->.
      * cbn in Hr. congruence.
      * cbn [io_run] in Hr. rewrite Hx in Hr. eauto 8.
  - rewrite Hx. split; [done|]. split; [|done]. intros _. exists [], o, os, st. done.
Qed.
End history.

(** C23: no operation leaves the windows.  Take a reader, a writer and a buffer for values in regions of memory that do
    not overlap, and any sequence of operations.  The sequence panics exactly if it comes to an operation whose assertion
    does not hold: skipping more than is left, or an access that is not aligned, or filling with a value that does not
    divide the window.  Otherwise the windows stay within their regions, with the cursor in front of the end, and no byte
    outside of the region of the writer and the buffer has changed. *)
Theorem vm_io_confined m rp rn wp wn sc sn os : regions rp rn wp wn sc sn -> Forall (io_fits sn) os ->
  let st := mk_io m (reader_from_user_space rp rn) (writer_from_user_space wp wn) in
  (forall st', io_run sc st os = Ret st' -> confined m rp rn wp wn sc sn st') /\
  (io_run sc st os = Panic <-> exists pre o post st1, os = pre ++ o :: post /\ io_run sc st pre = Ret st1 /\ io_guard st1 o = false).
Proof.
  intros Hreg Hf st. apply (io_run_ok _ _ _ _ _ _ _ Hreg); [|done]. destruct Hreg as [Hr Hw _ _ _ _ _]. subst st.
  unfold reader_from_user_space, writer_from_user_space. rewrite !wrap_ok by (windows; lia). split; cbn; [windows; lia|windows; lia|done].
Qed.
End transfer.

(** ** Sequences of values *)

(** What an object promises of [write]: on success all bytes of the reader are at the offset; other bytes never change. *)
Class VmIoLaws (S : Type) `{VmIo S} := {
  content : S -> Z -> Z;
  vmio_write_law s m offset p n : valid_range p n -> 0 <= offset ->
    exists res r' s', vmio_write s m offset (mk_reader p (p + n)) = Ret (res, r', s') /\
      (forall a, ~ within a offset n -> content s' a = content s a) /\
      (res = inl tt -> forall i, 0 <= i < n -> content s' (offset + i) = m (p + i));
}.

Section write_vals.
Context {S : Type} `{VmIoLaws S}.
Implicit Types (s : S).

(** The values at [items] lie in the object, one in each slot of [step] bytes from [offset] on. *)
Definition vals_at s m (items : list Z) (size step offset : Z) : Prop :=
  forall (j : nat) p i, items !! j = Some p -> 0 <= i < size -> content s (offset + Z.of_nat j * step + i) = m (p + i).

Definition unchanged s s' (lo hi : Z) : Prop := forall a, ~ (lo <= a < hi) -> content s' a = content s a.

Lemma write_val_item s m offset p size : valid_range p size -> 0 <= offset ->
  exists res s', vmio_write_val s m offset p size = Ret (res, s') /\ unchanged s s' offset (offset + size) /\
    (res = inl tt -> forall i, 0 <= i < size -> content s' (offset + i) = m (p + i)).
Proof.
  intros Hv Ho. unfold vmio_write_val, write_bytes. rewrite buffer_reader by done.
  destruct (vmio_write_law s m offset p size Hv Ho) as (res & r' & s' & Hw & Hu & Hc). step Hw. do 2 eexists. split; [done|]. by split.
Qed.

(** The loop stops after [k] items at their end, at the bounds of machine integers, or because the object refused the next one. *)
Definition stopped m (items : list Z) (size step offset nr : Z) (res : Z + Error) (k : nat) : Prop :=
  res = inl (nr + Z.of_nat k) /\
    (k = length items \/ nr + Z.of_nat k = USIZE_MAX \/ 0 < step /\ USIZE_MAX - step < offset + Z.of_nat k * step) \/
  exists s1 s2 p e, items !! k = Some p /\ vmio_write_val s1 m (offset + Z.of_nat k * step) p size = Ret (inr e, s2) /\
    res = if 0 <? nr + Z.of_nat k then inl (nr + Z.of_nat k) else inr e.

(** The first [k] items have been written, and at most a part of the next one. *)
Definition written s s' m (items : list Z) (size step offset nr : Z) (res : Z + Error) (k : nat) : Prop :=
  (k <= length items)%nat /\ vals_at s' m (take k items) size step offset /\
  unchanged s s' offset (offset + (Z.of_nat k + 1) * step) /\ stopped m items size step offset nr res k.

(** One more item in front. *)
Lemma written_cons s s1 s' m p items size step offset nr res (k : nat) : 0 <= size <= step ->
  unchanged s s1 offset (offset + size) -> (forall i, 0 <= i < size -> content s1 (offset + i) = m (p + i)) ->
  written s1 s' m items size step (offset + step) (nr + 1) res k -> written s s' m (p :: items) size step offset nr res (Datatypes.S k).
Proof.
  intros Hs Hu Hc (Hk & Hv & Hu' & Hst). split_and!; [cbn; lia| | |].
  - intros [|j] q i Hq Hi; cbn [firstn lookup list_lookup] in Hq.
    + injection Hq as <-. rewrite Hu' by lia. rewrite Z.mul_0_l, Z.add_0_r. by apply Hc.
    + rewrite <- (Hv j q i Hq Hi). f_equal. lia.
  - intros a Ha. rewrite Hu' by nia. apply Hu. nia.
  - replace (offset + step + Z.of_nat k * step) with (offset + Z.of_nat (Datatypes.S k) * step) in Hst by lia.
    unfold stopped in *. replace (nr + 1 + Z.of_nat k) with (nr + Z.of_nat (Datatypes.S k)) in Hst by lia.
    replace (offset + step + Z.of_nat k * step) with (offset + Z.of_nat (Datatypes.S k) * step) in Hst by lia.
    destruct Hst as [[-> Hst]|Hst]; [left; split; [done|]|by right]. cbn [length]. destruct Hst as [->|Hst]; [by left|by right].
Qed.

Lemma write_vals_loop_ok m size step : 0 <= size <= step -> forall items s offset nr,
  Forall (fun p => valid_range p size) items -> 0 <= offset <= USIZE_MAX -> 0 <= nr <= USIZE_MAX ->
  exists res s' k, write_vals_loop s m items size step offset nr = Ret (res, s') /\ written s s' m items size step offset nr res k.
Proof.
  intros Hs. induction items as [|p items IH]; intros s offset nr Hf Ho Hn; cbn [write_vals_loop].
  { exists (inl nr), s, 0%nat. split; [done|]. split_and!; [done|done|done|]. left. rewrite Z.add_0_r. split; [done|by left]. }
  inversion Hf as [|? ? Hp Hps]; subst.
  destruct ((nr =? USIZE_MAX) || (0 <? step) && (USIZE_MAX - step <? offset)) eqn:Hb.
  { exists (inl nr), s, 0%nat. split; [done|]. split_and!; [cbn; lia|done|done|]. left. rewrite !Z.add_0_r. split; [done|]. right. lia. }
  destruct (write_val_item s m offset p size Hp) as (res & s1 & Hw & Hu & Hc); [lia|]. step Hw. destruct res as [[]|e].
  - unfold USIZE_MAX in *. step (uadd_ok 64 offset step) by lia. step (uadd_ok 64 nr 1) by lia.
    destruct (IH s1 (offset + step) (nr + 1) Hps) as (res & s' & k & Hl & Hwr); [lia|lia|].
    exists res, s', (Datatypes.S k). split; [done|]. by eapply written_cons; eauto.
  - exists (if 0 <? nr then inl nr else inr e), s1, 0%nat. split; [done|]. split_and!; [cbn; lia|done| |].
    + intros a Ha. apply Hu. lia.
    + right. exists s, s1, p, e. rewrite !Z.add_0_r. done.
Qed.

(** [write_vals] puts values into an object.  For an object that keeps the contract of [VmIo::write], an alignment of
    at most one or a power of two and numbers that do not overflow by rounding, it returns.  Some first [k] of the values
    then lie in the object, at the rounded offset and in steps of the rounded size; the value after them may be there in
    part, and no other byte has changed.  The answer is [k], and the loop stopped at the last value, at the bounds of
    machine integers, or because the object refused a value; only if it refused the first one is its error the answer.
    An alignment that is not a power of two is a panic. *)
Theorem write_vals_correct s m offset items size align : uint 64 offset -> 0 <= size -> 0 <= align ->
  offset + align <= USIZE_MAX -> size + align <= USIZE_MAX -> Forall (fun p => valid_range p size) items ->
  if bool_decide (align <= 1) || is_power_of_two align then
    let a := Z.max align 1 in
    exists res s' k, write_vals s m offset items size align = Ret (res, s') /\
      written s s' m items size (nat_align_up size a) (nat_align_up offset a) 0 res k
  else write_vals s m offset items size align = Panic.
Proof.
  intros Ho Hs Ha Hoa Hsa Hf. unfold write_vals. assert (forall x, nat_align_up x 1 = x) as H1 by (intros x; unfold nat_align_up; by rewrite Z.mod_1_r).
  destruct (Z.leb_spec align 1) as [Hal|Hal].
  - rewrite bool_decide_true by done. cbn [orb]. rewrite Z.max_r, !H1 by lia. apply write_vals_loop_ok; [lia|done| |]; unfold USIZE_MAX; [destruct Ho|]; lia.
  - rewrite bool_decide_false by lia. cbn [orb]. rewrite Z.max_l by lia. unfold USIZE_MAX in *.
    assert (uint 64 align) by (split; lia). assert (uint 64 size) by (split; lia).
    destruct (is_power_of_two align) eqn:Hp.
    + assert (valid_align align) as Hv by (apply valid_align_test; rewrite Hp; cbn; lia).
      pose proof (nat_align_up_spec offset align ltac:(lia)). pose proof (nat_align_up_spec size align ltac:(lia)). destruct Ho.
      step (proj2 (align_up_Ret 64 offset align (nat_align_up offset align) ltac:(lia) ltac:(done) ltac:(done))) by (split_and!; [done|lia|done]).
      step (proj2 (align_up_Ret 64 size align (nat_align_up size align) ltac:(lia) ltac:(done) ltac:(done))) by (split_and!; [done|lia|done]).
      apply write_vals_loop_ok; [lia|done|unfold USIZE_MAX; lia|unfold USIZE_MAX; lia].
    + unfold align_up. by rewrite Hp.
Qed.
End write_vals.

(** ** Examples *)

Module IoExample.

(** Memory of which the addresses from [0x1000] on are not mapped. *)
Definition mapped (p n : Z) : Z := Z.max 0 (Z.min n (0x1000 - p)).
Instance page_mem : FallibleMem := {|
  memcpy_raw m dst src len := let k := Z.min (mapped dst len) (mapped src len) in (len - k, put m dst (bytes m src k));
  memset_raw m dst value len := let k := mapped dst len in (len - k, put m dst (replicate (Z.to_nat k) value));
|}.

Lemma prefix_handled m m' dst len k f : 0 <= k <= len -> handled m m' dst k 0 f -> handled m m' dst len (len - k) f.
Proof. intros Hk (_ & Hf & Ho). split_and!; [lia|lia|intros i Hi; apply Hf; lia|intros a Ha; apply Ho; windows; lia]. Qed.

Lemma page_mem_laws : FallibleMemLaws.
Proof.
  split.
  - intros m dst src len Hd Hs Hdj. cbn. set (k := Z.min _ _). assert (0 <= k <= len) as Hk by (unfold k, mapped; windows; lia).
    apply prefix_handled; [done|]. pose proof (put_handled m dst (bytes m src k)) as Hp. rewrite length_bytes, Z2Nat.id in Hp by lia.
    eapply handled_ext; [|exact Hp]. intros i Hi. by apply nth_bytes.
  - intros m dst value len Hd. cbn. assert (0 <= mapped dst len <= len) as Hk by (unfold mapped; windows; lia).
    apply prefix_handled; [done|]. apply zeros_handled; lia.
Qed.
Local Existing Instance page_mem_laws.

(** The byte at an address is the address modulo 256. *)
Definition mem0 : memory := fun a => a mod 256.
Definition rd0 : VmReader := mk_reader 0xff0 0x1010.
Definition wr0 : VmWriter := mk_writer 0x100 0x118.

(** The reader runs into the unmapped page after 16 of 24 bytes. *)
Example read_fallible_faults :
  match read_fallible mem0 rd0 wr0 with
  | Ret (res, r, w, m) => (res, rd_cursor r, wr_cursor w, bytes m 0x100 18) = (inr (PageFault, 16), 0x1000, 0x110, seqZ 0xf0 16 ++ [0x10; 0x11])
  | Panic => False
  end.
Proof. vm_compute. reflexivity. Qed.

Lemma vm_transfer_correct_witness :
  exists k m', read_fallible mem0 rd0 wr0 = Ret (if k <? 24 then inr (PageFault, k) else inl 24, rd_advance rd0 k, wr_advance wr0 k, m') /\
    0 <= k <= 24 /\ (forall i, 0 <= i < k -> m' (0x100 + i) = mem0 (0xff0 + i)).
Proof.
  destruct (vm_transfer_correct mem0 rd0 wr0) as [_ (k & m' & Hr & _ & Hk & Hb & _)];
    [windows; cbn; lia|windows; cbn; lia|intros a; windows; cbn; lia|].
  exists k, m'. split_and!; [exact Hr|apply Hk|apply Hk|exact Hb].
Defined.

(** A value of 32 bytes that reaches into the unmapped page: the cursor is put back. *)
Lemma vm_val_correct_witness :
  exists res r' m', read_val_fallible mem0 rd0 0x200 32 = Ret (res, r', m') /\ val_read mem0 rd0 0x200 32 res r' m'.
Proof.
  refine (proj1 (proj2 (vm_val_correct mem0 rd0 wr0 0x200 32 0x300 _ _ _ _ _))).
  - windows; cbn; lia.
  - split; [windows; cbn; lia|intros a; windows; cbn; lia].
  - split; [windows; cbn; lia|intros a; windows; cbn; lia].
  - windows; cbn; lia.
  - split; [windows; cbn; lia|intros a; windows; cbn; lia].
Defined.

Example read_val_restores :
  match read_val_fallible mem0 rd0 0x200 32 with Ret (res, r, _) => res = inr PageFault /\ r = rd0 | Panic => False end.
Proof. vm_compute. done. Qed.

Definition io_history : list io_op :=
  [RdSkip 4; ReadVal 2; WrLimit 16; WriteValFallible 4; ReadFallible; ReadOnce 4 4; WrSkip 100; Fill [7] 1].

(** Skipping more than is left of the writer is the first thing that panics. *)
Lemma vm_io_confined_witness : regions 0xff0 32 0x100 24 0x200 32 /\
  io_run 0x200 (mk_io mem0 (reader_from_user_space 0xff0 32) (writer_from_user_space 0x100 24)) io_history = Panic.
Proof.
  assert (regions 0xff0 32 0x100 24 0x200 32) as Hreg by (split; first [lia | windows; lia | intros a; windows; lia]). split; [done|].
  refine (proj2 (proj2 (vm_io_confined mem0 0xff0 32 0x100 24 0x200 32 io_history Hreg _)) _).
  - repeat constructor; cbn; lia.
  - exists (take 6 io_history), (WrSkip 100), (drop 7 io_history). eexists. split_and!; [reflexivity|vm_compute; reflexivity|vm_compute; reflexivity].
Defined.

(** An object of [fst] bytes that refuses to be written past its end. *)
Definition file : Type := Z * memory.
Instance file_io : VmIo file := {|
  vmio_read s m offset w :=
    if offset + wr_len w <=? s.1 then Ret (inl tt, writer_at w (wr_end w), put m (wr_cursor w) (bytes s.2 offset (wr_len w)))
    else Ret (inr InvalidArgs, w, m);
  vmio_write s m offset r :=
    if offset + rd_len r <=? s.1 then Ret (inl tt, reader_at r (rd_end r), (s.1, put s.2 offset (bytes m (rd_cursor r) (rd_len r))))
    else Ret (inr InvalidArgs, r, s);
|}.

#[refine] Instance file_laws : VmIoLaws file := {| content s := s.2 |}.
Proof.
  intros [sz d] m offset p n Hv Ho. cbn. unfold rd_len. cbn [rd_end rd_cursor]. replace (p + n - p) with n by lia.
  destruct (offset + n <=? sz); do 3 eexists; (split; [reflexivity|]); [|done].
  destruct (put_handled d offset (bytes m p n)) as (_ & Hf & Hu). rewrite length_bytes, Z2Nat.id in * by (windows; lia).
  split; [exact Hu|]. intros _ i Hi. cbn. rewrite Hf by lia. by apply nth_bytes.
Defined.

(** Three values of three bytes, in slots of four bytes: the file has room for two. *)
Lemma write_vals_correct_witness :
  exists res s' k, write_vals (12, mem0) mem0 1 [0x500; 0x600; 0x700] 3 4 = Ret (res, s') /\
    written (12, mem0) s' mem0 [0x500; 0x600; 0x700] 3 4 4 0 res k.
Proof.
  assert (Forall (fun p => valid_range p 3) [0x500; 0x600; 0x700]) as Hf by (repeat constructor; lia).
  pose proof (write_vals_correct (12, mem0) mem0 1 [0x500; 0x600; 0x700] 3 4 ltac:(split; lia) ltac:(lia) ltac:(lia)
    ltac:(unfold USIZE_MAX; lia) ltac:(unfold USIZE_MAX; lia) Hf) as Hw.
  replace (bool_decide (4 <= 1) || is_power_of_two 4) with true in Hw by reflexivity. cbv zeta in Hw.
  replace (nat_align_up 3 (Z.max 4 1)) with 4 in Hw by reflexivity.
  replace (nat_align_up 1 (Z.max 4 1)) with 4 in Hw by reflexivity. exact Hw.
Defined.

Example write_vals_run :
  match write_vals (12, mem0) mem0 1 [0x500; 0x601; 0x702] 3 4 with
  | Ret (res, s) => (res, bytes s.2 0 13) = (inl 2, [0; 1; 2; 3; 0; 1; 2; 7; 1; 2; 3; 11; 12])
  | Panic => False
  end.
Proof. vm_compute. reflexivity. Qed.
End IoExample.
