(* ===== verification/Agents.v ===== *)
(** * Counting the agents of an interleaving

    The concurrent components are modelled as a list of agents, each in a state
    of its own, that take atomic steps on a shared word.  Their invariants
    speak of how many agents are in which state. *)

From S2P Require Import Prelude.
Open Scope Z_scope.

Section agents.
Context {A : Type}.
Implicit Types (P Q : A -> bool) (ags : list A) (a b : A).

Definition holds P a : Z := if P a then 1 else 0.

Fixpoint number P ags : Z :=
  match ags with
  | [] => 0
  | a :: ags' => holds P a + number P ags'
  end.

Lemma number_insert P ags i a a' :
  ags !! i = Some a -> number P (<[i := a']> ags) = number P ags - holds P a + holds P a'.
Proof.
  revert i. induction ags as [|b ags IH]; intros [|i]; cbn; try done.
  - intros [= ->]. lia.
  - intros Hi. rewrite IH by done. lia.
Qed.

Lemma number_delete P ags i a : ags !! i = Some a -> number P (delete i ags) = number P ags - holds P a.
Proof.
  revert i. induction ags as [|b ags IH]; intros [|i]; cbn; try done.
  - intros [= ->]. lia.
  - intros Hi. change (list_delete i ags) with (delete i ags). rewrite IH by done. lia.
Qed.

Lemma number_nonneg P ags : 0 <= number P ags.
Proof. induction ags as [|b ags IH]; cbn; unfold holds; [lia|]. destruct (P b); lia. Qed.

Lemma number_le_length P ags : number P ags <= Z.of_nat (length ags).
Proof. induction ags as [|b ags IH]; cbn [number length]; unfold holds; [lia|]. destruct (P b); lia. Qed.

Lemma number_mono P Q ags :
  (forall a, holds P a <= holds Q a) -> number P ags <= number Q ags.
Proof. intros H. induction ags as [|b ags IH]; cbn; [lia|]. specialize (H b). lia. Qed.

Lemma number_mono_at P Q ags i a :
  (forall a, holds P a <= holds Q a) -> ags !! i = Some a ->
  number P ags + (holds Q a - holds P a) <= number Q ags.
Proof.
  intros H. revert i. induction ags as [|b ags IH]; intros [|i]; cbn; try done.
  - intros [= ->]. pose proof (number_mono P Q ags H). lia.
  - intros Hi. specialize (IH i Hi). specialize (H b). lia.
Qed.

Lemma number_at P ags i a : ags !! i = Some a -> holds P a <= number P ags.
Proof.
  revert i. induction ags as [|b ags IH]; intros [|i]; cbn; try done.
  - intros [= ->]. pose proof (number_nonneg P ags). lia.
  - intros Hi. specialize (IH i Hi). unfold holds in *. destruct (P b); lia.
Qed.

Lemma number_two P ags i j a b :
  i <> j -> ags !! i = Some a -> ags !! j = Some b -> holds P a + holds P b <= number P ags.
Proof.
  revert i j. induction ags as [|c ags IH]; intros [|i] [|j] Hij; cbn; try done.
  - intros [= ->] Hj. pose proof (number_at P ags j b Hj). lia.
  - intros Hi [= ->]. pose proof (number_at P ags i a Hi). lia.
  - intros Hi Hj. pose proof (IH i j ltac:(lia) Hi Hj). unfold holds in *. destruct (P c); lia.
Qed.

Lemma number_zero P ags : (forall i a, ags !! i = Some a -> P a = false) -> number P ags = 0.
Proof.
  induction ags as [|b ags IH]; intros Hno; cbn; [done|]. unfold holds.
  rewrite (Hno 0%nat b) by done. rewrite IH; [done|]. intros i a. apply (Hno (S i)).
Qed.

Lemma number_one P ags i a : ags !! i = Some a -> P a = true -> 1 <= number P ags.
Proof.
  intros Hi Ha. pose proof (number_at P ags i a Hi) as Hm. unfold holds in Hm. by rewrite Ha in Hm.
Qed.

Lemma number_all P ags : (forall i a, ags !! i = Some a -> P a = true) -> number P ags = Z.of_nat (length ags).
Proof.
  induction ags as [|b ags IH]; intros H; [done|]. cbn [number length]. unfold holds at 1.
  rewrite (H 0%nat b eq_refl), IH; [lia|]. intros i a Hi. exact (H (S i) a Hi).
Qed.

Lemma number_pos P ags : 0 < number P ags -> exists i a, ags !! i = Some a /\ P a = true.
Proof.
  induction ags as [|b ags IH]; cbn [number]; [lia|]. unfold holds at 1. destruct (P b) eqn:Hb.
  - intros _. by exists 0%nat, b.
  - intros Hn. destruct IH as (i & a & Hi & Ha); [lia|]. by exists (S i), a.
Qed.

End agents.
