(* ===== verification/IdAlloc.v ===== *)
(** * [ostd/libs/id-alloc]: the bitmap id allocator

    The bitmap itself is the third-party crate [bitvec]; it enters as an
    interface, [BitVec], whose laws are the contract the repository relies on
    (the one stated in [vstd_extra/src/external/bitvec.rs]).  The allocator is
    proved against the interface and refines an abstract allocator that is a
    set of allocated ids below a capacity. *)

From S2P Require Import Prelude.
Open Scope nat_scope.

(** ** The [bitvec] interface *)

Class BitVec (B S : Type) := {
  bv_with_capacity : nat -> outcome B;
  bv_resize : B -> nat -> bool -> outcome B;
  bv_len : B -> nat;
  bv_index : B -> nat -> outcome bool;
  bv_set : B -> nat -> bool -> outcome B;
  bv_get : B -> nat -> nat -> option S;
  bs_first_zero : S -> option nat;
  bv_view : B -> list bool;
  bs_view : S -> list bool;
}.

(** Index of the first [false], or the length. *)
Fixpoint first_zero_index (s : list bool) : nat :=
  match s with
  | [] => 0
  | false :: _ => 0
  | true :: s' => S (first_zero_index s')
  end.

Lemma first_zero_index_le s : first_zero_index s <= length s.
Proof. induction s as [|[] s IH]; simpl; lia. Qed.

Lemma first_zero_index_before s i : i < first_zero_index s -> s !! i = Some true.
Proof.
  revert i. induction s as [|[] s IH]; simpl; intros [|i] H; try lia; [done|].
  apply IH. lia.
Qed.

Lemma first_zero_index_at s :
  first_zero_index s < length s -> s !! first_zero_index s = Some false.
Proof. induction s as [|[] s IH]; simpl; intros H; try lia; [apply IH; lia | done]. Qed.

Lemma first_zero_index_unique s n :
  n <= length s -> (forall i, i < n -> s !! i = Some true) ->
  (n < length s -> s !! n = Some false) -> first_zero_index s = n.
Proof.
  intros Hn Hlt Hat.
  destruct (lt_eq_lt_dec (first_zero_index s) n) as [[H|]|H]; [|done|].
  - assert (s !! first_zero_index s = Some false) by (apply first_zero_index_at; lia).
    rewrite Hlt in * by lia. done.
  - pose proof (first_zero_index_le s). pose proof (first_zero_index_before s n H) as Ht.
    rewrite Hat in Ht by lia. done.
Qed.

(** [BitSlice::MAX_BITS], that is [usize::MAX / 8]. *)
Definition MAX_BITS : Z := ((2 ^ 64 - 1) / 8)%Z.

Class BitVecLaws B S `{BitVec B S} := {
  bv_with_capacity_ok c : (Z.of_nat c <= MAX_BITS)%Z ->
    exists b, bv_with_capacity c = Ret b /\ bv_view b = [];
  bv_resize_ok b n v : (Z.of_nat n <= MAX_BITS)%Z ->
    exists b', bv_resize b n v = Ret b' /\ bv_view b' = resize n v (bv_view b);
  bv_len_view b : bv_len b = length (bv_view b);
  bv_len_bound b : (Z.of_nat (length (bv_view b)) <= MAX_BITS)%Z;
  bv_index_view b i :
    bv_index b i = match bv_view b !! i with Some v => Ret v | None => Panic end;
  bv_set_ok b i v : i < length (bv_view b) ->
    exists b', bv_set b i v = Ret b' /\ bv_view b' = <[i := v]> (bv_view b);
  bv_set_oob b i v : length (bv_view b) <= i -> bv_set b i v = Panic;
  bv_get_ok b s e : s <= e -> e <= length (bv_view b) ->
    exists sl, bv_get b s e = Some sl /\ bs_view sl = take (e - s) (drop s (bv_view b));
  bs_first_zero_view sl :
    bs_first_zero sl =
      if first_zero_index (bs_view sl) <? length (bs_view sl)
      then Some (first_zero_index (bs_view sl)) else None;
}.

(** ** The allocator *)

Section id_alloc.
Context {B S : Type} `{BV : BitVec B S}.
(** Whether the build has [debug_assertions]. *)
Context (debug_assertions : bool).

Record IdAlloc := mk_IdAlloc { bitset : B; first_available_id : nat }.

Definition with_capacity (capacity : nat) : outcome IdAlloc :=
  bitset ← bv_with_capacity capacity;
  bitset ← bv_resize bitset capacity false;
  mret (mk_IdAlloc bitset 0).

Definition is_allocated (self : IdAlloc) (id : nat) : outcome bool :=
  bv_index (bitset self) id.

Definition update_first_available_id (self : IdAlloc) (start : nat) : outcome IdAlloc :=
  let len := bv_len (bitset self) in
  bit_slice ← unwrap (bv_get (bitset self) start len);
  faid ← (match bs_first_zero bit_slice with
          | Some offset => addn start offset
          | None => mret len
          end);
  mret (mk_IdAlloc (bitset self) faid).

Definition alloc (self : IdAlloc) : outcome (option nat * IdAlloc) :=
  if first_available_id self <? bv_len (bitset self) then
    let id := first_available_id self in
    bits ← bv_set (bitset self) id true;
    next ← addn id 1;
    self' ← update_first_available_id (mk_IdAlloc bits (first_available_id self)) next;
    mret (Some id, self')
  else mret (None, self).

(** The loop of [alloc_consecutive]: [curr_range.end] grows by one in each
    iteration, so [k = len - curr_range.end] iterations are left. *)
Fixpoint scan (self : IdAlloc) (count k start stop : nat) : outcome (nat * nat) :=
  match k with
  | O => mret (start, stop)
  | Datatypes.S k' =>
      if (stop - start <? count) && (stop <? bv_len (bitset self)) then
        b ← is_allocated self stop;
        if negb b then scan self count k' start (stop + 1)
        else scan self count k' (stop + 1) (stop + 1)
      else mret (start, stop)
  end.

(** [for id in start..start+n { self.bitset.set(id, v) }] *)
Fixpoint set_range (bits : B) (start n : nat) (v : bool) : outcome B :=
  match n with
  | O => mret bits
  | Datatypes.S n' => bits' ← bv_set bits start v; set_range bits' (start + 1) n' v
  end.

Definition alloc_consecutive (self : IdAlloc) (count : nat)
    : outcome (option (nat * nat) * IdAlloc) :=
  if count =? 0 then mret (None, self) else
  match checked_addn (first_available_id self) count with
  | None => mret (None, self)
  | Some stop =>
      if bv_len (bitset self) <? stop then mret (None, self) else
      let faid := first_available_id self in
      first ← addn faid 1;
      '(lo, hi) ← scan self count (bv_len (bitset self) - first) faid first;
      if hi - lo <? count then mret (None, self) else
      bits ← set_range (bitset self) lo (hi - lo) true;
      let self' := mk_IdAlloc bits faid in
      b ← is_allocated self' faid;
      self'' ← (if (b : bool) then update_first_available_id self' hi else mret self');
      mret (Some (lo, hi), self'')
  end.

(** [for id in start..start+n { debug_assert!(..); self.bitset.set(id, false) }] *)
Fixpoint free_range (bits : B) (start n : nat) : outcome B :=
  match n with
  | O => mret bits
  | Datatypes.S n' =>
      _ ← debug_assert debug_assertions (bv_index bits start);
      bits' ← bv_set bits start false;
      free_range bits' (start + 1) n'
  end.

Definition free_consecutive (self : IdAlloc) (lo hi : nat) : outcome IdAlloc :=
  if hi <=? lo then mret self else
  bits ← free_range (bitset self) lo (hi - lo);
  mret (mk_IdAlloc bits
    (if lo <? first_available_id self then lo else first_available_id self)).

Definition free (self : IdAlloc) (id : nat) : outcome IdAlloc :=
  _ ← debug_assert debug_assertions (is_allocated self id);
  bits ← bv_set (bitset self) id false;
  mret (mk_IdAlloc bits
    (if id <? first_available_id self then id else first_available_id self)).

Definition alloc_specific (self : IdAlloc) (id : nat) : outcome (option nat * IdAlloc) :=
  b ← bv_index (bitset self) id;
  if (b : bool) then mret (None, self) else
  bits ← bv_set (bitset self) id true;
  let self' := mk_IdAlloc bits (first_available_id self) in
  if id =? first_available_id self then
    next ← addn id 1;
    self'' ← update_first_available_id self' next;
    mret (Some id, self'')
  else mret (Some id, self').

(** The invariant: [first_available_id] is the first clear bit. *)
Definition view (self : IdAlloc) : list bool := bv_view (bitset self).
Definition inv (self : IdAlloc) : Prop :=
  first_available_id self = first_zero_index (view self).

(** ** The abstract allocator: a set of allocated ids below a capacity *)

Definition allocated (self : IdAlloc) (i : nat) : Prop := view self !! i = Some true.
Definition available (self : IdAlloc) (i : nat) : Prop := view self !! i = Some false.
Definition capacity (self : IdAlloc) : nat := length (view self).

Inductive op :=
| OpAlloc | OpAllocConsecutive (count : nat) | OpAllocSpecific (id : nat)
| OpFree (id : nat) | OpFreeConsecutive (lo hi : nat).
Inductive res := RNone | RId (id : nat) | RRange (lo hi : nat) | RUnit.

Definition exec (self : IdAlloc) (o : op) : outcome (res * IdAlloc) :=
  match o with
  | OpAlloc => '(r, s) ← alloc self; mret (from_option RId RNone r, s)
  | OpAllocConsecutive n =>
      '(r, s) ← alloc_consecutive self n;
      mret (from_option (fun p => RRange p.1 p.2) RNone r, s)
  | OpAllocSpecific id => '(r, s) ← alloc_specific self id; mret (from_option RId RNone r, s)
  | OpFree id => s ← free self id; mret (RUnit, s)
  | OpFreeConsecutive lo hi => s ← free_consecutive self lo hi; mret (RUnit, s)
  end.

(** What each operation promises of a set [A] of allocated ids below [cap]. *)
Definition free_run (cap : nat) (A : gset nat) (lo n : nat) : Prop :=
  forall i, lo <= i < lo + n -> i < cap /\ i ∉ A.
Definition range_set (lo hi : nat) : gset nat := list_to_set (seq lo (hi - lo)).

Inductive abs_step (cap : nat) (A : gset nat) : op -> res -> gset nat -> Prop :=
| abs_alloc id :
    id < cap -> id ∉ A -> (forall j, j < id -> j ∈ A) ->
    abs_step cap A OpAlloc (RId id) ({[id]} ∪ A)
| abs_alloc_full :
    (forall j, j < cap -> j ∈ A) -> abs_step cap A OpAlloc RNone A
| abs_alloc_consecutive n lo :
    0 < n -> free_run cap A lo n -> (forall j, j < lo -> ~ free_run cap A j n) ->
    abs_step cap A (OpAllocConsecutive n) (RRange lo (lo + n)) (range_set lo (lo + n) ∪ A)
| abs_alloc_consecutive_none n :
    (n = 0 \/ forall j, ~ free_run cap A j n) ->
    abs_step cap A (OpAllocConsecutive n) RNone A
| abs_alloc_specific id :
    id < cap -> id ∉ A -> abs_step cap A (OpAllocSpecific id) (RId id) ({[id]} ∪ A)
| abs_alloc_specific_taken id :
    id ∈ A -> abs_step cap A (OpAllocSpecific id) RNone A
| abs_free id : id ∈ A -> abs_step cap A (OpFree id) RUnit (A ∖ {[id]})
| abs_free_consecutive lo hi :
    (forall i, lo <= i < hi -> i ∈ A) ->
    abs_step cap A (OpFreeConsecutive lo hi) RUnit (A ∖ range_set lo hi).

(** When the abstract allocator accepts a call: the panicking calls are the
    out-of-range ones and, with debug assertions, freeing a free id. *)
Definition accepts (cap : nat) (A : gset nat) (o : op) : Prop :=
  match o with
  | OpAlloc | OpAllocConsecutive _ => True
  | OpAllocSpecific id => id < cap
  | OpFree id => id ∈ A
  | OpFreeConsecutive lo hi => forall i, lo <= i < hi -> i ∈ A
  end.

(** A bitmap represents the set of the positions of its set bits. *)
Definition represents (self : IdAlloc) (cap : nat) (A : gset nat) : Prop :=
  capacity self = cap /\ inv self /\ forall i, i ∈ A <-> allocated self i.

(** ** Lemmas against the interface *)

Context `{BL : !BitVecLaws B S}.
Implicit Types (self : IdAlloc) (b : B).

Lemma inv_before self i : inv self -> i < first_available_id self -> allocated self i.
Proof. unfold inv, allocated. intros ->. apply first_zero_index_before. Qed.

Lemma inv_at self :
  inv self -> first_available_id self < capacity self -> available self (first_available_id self).
Proof. unfold inv, available, capacity. intros ->. apply first_zero_index_at. Qed.

Lemma inv_le self : inv self -> first_available_id self <= capacity self.
Proof. unfold inv, capacity. intros ->. apply first_zero_index_le. Qed.

Lemma addn_len b i j : i + j <= Datatypes.S (length (bv_view b)) -> addn i j = Ret (i + j).
Proof.
  intros Hle. apply addn_small. pose proof (bv_len_bound b) as Hb.
  assert (MAX_BITS + 2 < 2 ^ 64)%Z by done. lia.
Qed.

Lemma update_first_available_id_ok self start :
  start <= capacity self -> (forall i, i < start -> allocated self i) ->
  exists self', update_first_available_id self start = Ret self' /\
    bitset self' = bitset self /\ inv self'.
Proof.
  unfold capacity, allocated, view. intros Hle Hall.
  unfold update_first_available_id. rewrite bv_len_view.
  destruct (bv_get_ok (bitset self) start (length (bv_view (bitset self)))) as (sl & -> & Hsl);
    [lia..|].
  rewrite take_ge in Hsl by (rewrite length_drop; lia). cbn.
  rewrite bs_first_zero_view, Hsl, length_drop.
  set (v := bv_view (bitset self)) in *.
  assert (Hfz : first_zero_index v = start + first_zero_index (drop start v)).
  { pose proof (first_zero_index_le (drop start v)) as Hd. rewrite length_drop in Hd.
    apply first_zero_index_unique; [lia|..].
    - intros i Hi. destruct (decide (i < start)); [by apply Hall|].
      pose proof (first_zero_index_before (drop start v) (i - start) ltac:(lia)) as Ht.
      rewrite lookup_drop in Ht. rewrite <- Ht. f_equal. lia.
    - intros Hlt. rewrite <- (lookup_drop v start). apply first_zero_index_at.
      rewrite length_drop. lia. }
  destruct (Nat.ltb_spec (first_zero_index (drop start v)) (length v - start)).
  - rewrite (addn_len (bitset self)) by (fold v; lia). cbn. eexists. split; [done|].
    split; [done|]. unfold inv, view. cbn. fold v. lia.
  - cbn. eexists. split; [done|]. split; [done|]. unfold inv, view. cbn. fold v.
    pose proof (first_zero_index_le (drop start v)) as Hd. rewrite length_drop in Hd. lia.
Qed.

(** A bitmap whose positions in [[lo, hi)] have become [v]. *)
Definition overwrites (b b' : B) (lo hi : nat) (v : bool) : Prop :=
  length (bv_view b') = length (bv_view b) /\
  forall j, bv_view b' !! j =
    if (lo <=? j) && (j <? hi) then const v <$> (bv_view b !! j) else bv_view b !! j.

Lemma overwrites_refl b lo v : overwrites b b lo lo v.
Proof.
  split; [done|]. intros j.
  destruct (Nat.leb_spec lo j), (Nat.ltb_spec j lo); try done. lia.
Qed.

Lemma bv_set_overwrites b i v :
  i < length (bv_view b) ->
  exists b', bv_set b i v = Ret b' /\ overwrites b b' i (i + 1) v.
Proof.
  intros Hi. destruct (bv_set_ok b i v Hi) as (b' & -> & Hv). exists b'. split; [done|].
  unfold overwrites. rewrite Hv. split; [apply length_insert|]. intros j.
  destruct (decide (j = i)) as [->|].
  - rewrite list_lookup_insert_eq by done.
    destruct (Nat.leb_spec i i), (Nat.ltb_spec i (i + 1)); try lia.
    destruct (lookup_lt_is_Some_2 _ _ Hi) as [x ->]. done.
  - rewrite list_lookup_insert_ne by done.
    destruct (Nat.leb_spec i j), (Nat.ltb_spec j (i + 1)); try done. lia.
Qed.

Lemma overwrites_trans b1 b2 b3 lo mid hi v :
  lo <= mid <= hi -> overwrites b1 b2 lo mid v -> overwrites b2 b3 mid hi v ->
  overwrites b1 b3 lo hi v.
Proof.
  intros Hle [Hl1 H1] [Hl2 H2]. split; [congruence|]. intros j. rewrite H2, H1.
  destruct (Nat.leb_spec mid j), (Nat.ltb_spec j hi), (Nat.leb_spec lo j), (Nat.ltb_spec j mid);
    simpl; try done; try lia.
Qed.

Lemma set_range_ok b lo n v :
  lo + n <= length (bv_view b) ->
  exists b', set_range b lo n v = Ret b' /\ overwrites b b' lo (lo + n) v.
Proof.
  revert b lo. induction n as [|n IH]; intros b lo Hle; cbn [set_range].
  { exists b. rewrite Nat.add_0_r. split; [done | apply overwrites_refl]. }
  destruct (bv_set_overwrites b lo v) as (b1 & -> & Ho); [lia|]. cbn.
  destruct (IH b1 (lo + 1)) as (b2 & -> & Ho2); [destruct Ho; lia|].
  exists b2. split; [done|]. replace (lo + Datatypes.S n) with (lo + 1 + n) by lia.
  eapply overwrites_trans; eauto; lia.
Qed.

Lemma free_range_ok b lo n :
  (forall i, lo <= i < lo + n -> bv_view b !! i = Some true) ->
  exists b', free_range b lo n = Ret b' /\ overwrites b b' lo (lo + n) false.
Proof.
  revert b lo. induction n as [|n IH]; intros b lo Hall; cbn [free_range].
  { exists b. rewrite Nat.add_0_r. split; [done | apply overwrites_refl]. }
  assert (Hlo : bv_view b !! lo = Some true) by (apply Hall; lia).
  assert (debug_assert debug_assertions (bv_index b lo) = Ret tt) as ->.
  { unfold debug_assert. rewrite bv_index_view, Hlo. by destruct debug_assertions. }
  cbn. destruct (bv_set_overwrites b lo false) as (b1 & -> & Ho);
    [by eapply lookup_lt_Some|]. cbn.
  destruct (IH b1 (lo + 1)) as (b2 & -> & Ho2).
  { intros i Hi. destruct Ho as [_ ->].
    destruct (Nat.leb_spec lo i), (Nat.ltb_spec i (lo + 1)); try lia; apply Hall; lia. }
  exists b2. split; [done|]. replace (lo + Datatypes.S n) with (lo + 1 + n) by lia.
  eapply overwrites_trans; eauto; lia.
Qed.

(** The scan keeps a run of clear bits and never skips a run that is long enough. *)
Definition clear_run (v : list bool) (lo n : nat) : Prop :=
  forall i, lo <= i < lo + n -> v !! i = Some false.

Lemma scan_ok self count k lo hi :
  let v := view self in
  0 < count -> lo <= hi <= length v -> hi - lo <= count -> k = length v - hi ->
  clear_run v lo (hi - lo) -> (forall s, s < lo -> ~ clear_run v s count) ->
  exists lo' hi', scan self count k lo hi = Ret (lo', hi') /\
    lo' <= hi' <= length v /\ clear_run v lo' (hi' - lo') /\
    (forall s, s < lo' -> ~ clear_run v s count) /\
    (hi' - lo' = count \/ (hi' - lo' < count /\ hi' = length v)).
Proof.
  cbn zeta. intros Hc. revert lo hi.
  induction k as [|k IH]; intros lo hi Hlh Hlen Hk Hrun Hno; cbn [scan].
  { exists lo, hi. split_and!; auto; lia. }
  rewrite bv_len_view. fold (view self).
  destruct (Nat.ltb_spec (hi - lo) count), (Nat.ltb_spec hi (length (view self)));
    cbn [andb]; try lia; cycle 1.
  { exists lo, hi. split_and!; auto; lia. }
  destruct (lookup_lt_is_Some_2 (view self) hi) as [x Hx]; [lia|].
  unfold is_allocated. rewrite bv_index_view. fold (view self). rewrite Hx. cbn.
  destruct x; cbn.
  - apply IH; try lia.
    + intros i ?. lia.
    + intros s Hs Hrs. destruct (decide (s < lo)); [by apply (Hno s)|].
      specialize (Hrs hi ltac:(lia)). congruence.
  - apply IH; try lia; [|done].
    intros i Hi. destruct (decide (i = hi)) as [->|]; [done|]. apply Hrun. lia.
Qed.

Lemma overwrites_allocated b b' lo hi v j :
  overwrites b b' lo hi v -> hi <= length (bv_view b) ->
  bv_view b' !! j = Some true <->
  (lo <= j < hi /\ v = true) \/ (~ (lo <= j < hi) /\ bv_view b !! j = Some true).
Proof.
  intros [_ ->] Hhi.
  destruct (Nat.leb_spec lo j), (Nat.ltb_spec j hi); simpl; try naive_solver lia.
  destruct (lookup_lt_is_Some_2 (bv_view b) j) as [x ->]; [lia|]. simpl.
  unfold const. naive_solver lia.
Qed.

Lemma elem_of_range_set i lo hi : i ∈ range_set lo hi <-> lo <= i < hi.
Proof. unfold range_set. rewrite elem_of_list_to_set, elem_of_seq. lia. Qed.

Lemma range_set_singleton i : range_set i (i + 1) = {[i]}.
Proof. apply set_eq. intros j. rewrite elem_of_range_set, elem_of_singleton. lia. Qed.

(** A bitmap with [[lo, hi)] set (cleared) represents the set with the range added (removed). *)
Lemma represents_overwrite self cap A b' lo hi v fa :
  represents self cap A -> overwrites (bitset self) b' lo hi v -> hi <= cap ->
  inv (mk_IdAlloc b' fa) ->
  represents (mk_IdAlloc b' fa) cap
    (if v then range_set lo hi ∪ A else A ∖ range_set lo hi).
Proof.
  intros (Hcap & Hinv & HA) Ho Hhi Hinv'. split_and!; [|done|].
  - unfold capacity, view in *. cbn. destruct Ho. congruence.
  - intros i. unfold allocated, view in *. cbn.
    rewrite (overwrites_allocated (bitset self) b' lo hi v) by
      (unfold capacity, view in *; auto; lia).
    destruct v; rewrite ?elem_of_union, ?elem_of_difference, elem_of_range_set, HA;
      destruct (decide (lo <= i < hi)); naive_solver.
Qed.

(** Clearing a range moves the first clear bit down to its start, if that is lower. *)
Lemma inv_clear self b' lo hi :
  inv self -> overwrites (bitset self) b' lo hi false -> lo < hi -> hi <= capacity self ->
  inv (mk_IdAlloc b' (if lo <? first_available_id self then lo else first_available_id self)).
Proof.
  intros Hinv Ho Hlt Hhi. unfold inv. cbn [first_available_id]. symmetry.
  assert (Hl : length (bv_view b') = capacity self) by (destruct Ho; done).
  pose proof (inv_le self Hinv) as Hle.
  apply first_zero_index_unique; unfold view; cbn [bitset].
  - rewrite Hl. destruct (Nat.ltb_spec lo (first_available_id self)); lia.
  - intros i Hi. destruct Ho as [_ ->].
    destruct (Nat.ltb_spec lo (first_available_id self)), (Nat.leb_spec lo i),
      (Nat.ltb_spec i hi); simpl; try lia; (apply (inv_before self); [done | lia]).
  - rewrite Hl. intros Hlt'. destruct Ho as [_ ->].
    destruct (Nat.ltb_spec lo (first_available_id self)).
    + destruct (Nat.leb_spec lo lo), (Nat.ltb_spec lo hi); simpl; try lia.
      destruct (lookup_lt_is_Some_2 (bv_view (bitset self)) lo) as [x ->]; [|done].
      unfold capacity, view in *. lia.
    + pose proof (inv_at self Hinv ltac:(lia)) as Ha. unfold available, view in Ha. rewrite Ha.
      by destruct (lo <=? _), (_ <? hi).
Qed.

Definition refines_step self cap A (o : op) : Prop :=
  exists r self' A', exec self o = Ret (r, self') /\ abs_step cap A o r A' /\
    represents self' cap A'.

Lemma represents_taken self cap A i : represents self cap A -> i ∈ A -> i < cap.
Proof.
  intros (<- & _ & HA) Hi%HA. unfold capacity, allocated in *. by eapply lookup_lt_Some.
Qed.

Lemma represents_not_taken self cap A i :
  represents self cap A -> i < cap /\ i ∉ A <-> available self i.
Proof.
  intros (<- & _ & HA). rewrite HA. unfold capacity, allocated, available.
  split.
  - intros [[x Hx]%lookup_lt_is_Some_2 Hn]. destruct x; congruence.
  - intros Hf. split; [by eapply lookup_lt_Some | congruence].
Qed.

(** Setting bits strictly after the first clear one leaves it the first clear one. *)
Lemma inv_set_after self b' lo hi :
  inv self -> overwrites (bitset self) b' lo hi true -> first_available_id self < lo ->
  inv (mk_IdAlloc b' (first_available_id self)).
Proof.
  intros Hinv Ho Hlt. unfold inv. cbn [first_available_id]. symmetry.
  assert (Hl : length (bv_view b') = capacity self) by (destruct Ho; done).
  apply first_zero_index_unique; unfold view; cbn [bitset]; rewrite ?Hl; [by apply inv_le|..].
  - intros i Hi. destruct Ho as [_ ->].
    destruct (Nat.leb_spec lo i); [lia|]. by apply (inv_before self).
  - intros Hc. destruct Ho as [_ ->].
    destruct (Nat.leb_spec lo (first_available_id self)); [lia|]. by apply (inv_at self).
Qed.

(** Setting the first clear bit and the bits up to [hi], then searching from [hi]. *)
Lemma update_after_set self b' hi :
  inv self -> overwrites (bitset self) b' (first_available_id self) hi true ->
  first_available_id self <= hi -> hi <= capacity self ->
  exists fa, update_first_available_id (mk_IdAlloc b' (first_available_id self)) hi
    = Ret (mk_IdAlloc b' fa) /\ inv (mk_IdAlloc b' fa).
Proof.
  intros Hinv Ho Hle Hhi.
  destruct (update_first_available_id_ok (mk_IdAlloc b' (first_available_id self)) hi)
    as ([b2 fa] & -> & Hb2 & Hinv').
  - unfold capacity, view. cbn. destruct Ho as [-> _]. done.
  - intros i Hi. unfold allocated, view. cbn. eapply overwrites_allocated; eauto.
    destruct (decide (first_available_id self <= i)); [left; lia|].
    right. split; [lia|]. apply (inv_before self); [done | lia].
  - cbn in Hb2. subst b2. eauto.
Qed.

Lemma alloc_refines self cap A : represents self cap A -> refines_step self cap A OpAlloc.
Proof.
  intros Hrep. pose proof Hrep as (Hcap & Hinv & HA). unfold refines_step, exec, alloc.
  rewrite bv_len_view. fold (view self). fold (capacity self).
  destruct (Nat.ltb_spec (first_available_id self) (capacity self)) as [Hlt|Hge]; cycle 1.
  { cbn. do 3 eexists. split; [done|]. split; [|exact Hrep]. apply abs_alloc_full.
    intros j Hj. apply HA, inv_before; auto. lia. }
  destruct (bv_set_overwrites (bitset self) (first_available_id self) true Hlt) as (b' & -> & Ho).
  cbn. rewrite (addn_len (bitset self)) by (fold (view self) (capacity self); lia). cbn.
  destruct (update_after_set self b' _ Hinv Ho) as (fa & -> & Hinv'); [lia..|]. cbn.
  do 3 eexists. split; [done|]. split.
  - apply abs_alloc.
    + lia.
    + rewrite HA. pose proof (inv_at self Hinv Hlt). unfold allocated, available in *. congruence.
    + intros j Hj. apply HA, inv_before; auto.
  - rewrite <- range_set_singleton.
    apply (represents_overwrite self cap A b' _ _ true); auto. lia.
Qed.

Lemma free_run_clear self cap A lo n :
  represents self cap A -> free_run cap A lo n <-> clear_run (view self) lo n.
Proof.
  intros Hrep. unfold free_run, clear_run. split; intros H i Hi.
  - by apply (represents_not_taken self cap A i Hrep), H.
  - by apply (represents_not_taken self cap A i Hrep), H.
Qed.

(** No run starts below the first clear bit, and a run fits in the capacity. *)
Lemma clear_run_bounds self n j :
  inv self -> 0 < n -> clear_run (view self) j n ->
  first_available_id self <= j /\ j + n <= capacity self.
Proof.
  intros Hinv Hn Hrun. split.
  - destruct (le_lt_dec (first_available_id self) j) as [|Hj]; [done|].
    pose proof (inv_before self j Hinv Hj) as Ha. unfold allocated in Ha.
    rewrite Hrun in Ha by lia. done.
  - specialize (Hrun (j + n - 1) ltac:(lia)). apply lookup_lt_Some in Hrun.
    unfold capacity. lia.
Qed.

Lemma alloc_consecutive_fails self cap A n :
  represents self cap A -> (n = 0 \/ forall j, ~ clear_run (view self) j n) ->
  alloc_consecutive self n = Ret (None, self) ->
  refines_step self cap A (OpAllocConsecutive n).
Proof.
  intros Hrep Hno Hex. exists RNone, self, A. unfold exec. rewrite Hex.
  split_and!; [done| |done]. apply abs_alloc_consecutive_none.
  setoid_rewrite (free_run_clear self cap A); auto.
Qed.

(** The last steps of [alloc_consecutive]. *)
Lemma consecutive_update self b' lo hi :
  inv self -> overwrites (bitset self) b' lo hi true ->
  first_available_id self <= lo < hi -> hi <= capacity self ->
  exists a fa, is_allocated (mk_IdAlloc b' (first_available_id self)) (first_available_id self)
      = Ret a /\
    (if a then update_first_available_id (mk_IdAlloc b' (first_available_id self)) hi
     else Ret (mk_IdAlloc b' (first_available_id self))) = Ret (mk_IdAlloc b' fa) /\
    inv (mk_IdAlloc b' fa).
Proof.
  intros Hinv Ho Hlt Hhi. unfold is_allocated. rewrite bv_index_view. cbn [bitset].
  pose proof (inv_at self Hinv ltac:(lia)) as Hat. unfold available, view in Hat.
  destruct (proj2 Ho (first_available_id self)). rewrite (proj2 Ho), Hat.
  destruct (Nat.leb_spec lo (first_available_id self)),
    (Nat.ltb_spec (first_available_id self) hi); try lia; cbn [andb].
  - assert (lo = first_available_id self) as -> by lia.
    destruct (update_after_set self b' hi Hinv Ho) as (fa & Hu & Hinv'); [lia..|].
    exists true, fa. eauto.
  - exists false, (first_available_id self). split_and!; [done..|].
    by eapply inv_set_after.
Qed.

(** [alloc_consecutive] once its early returns are passed and the scan is over. *)
Lemma alloc_consecutive_scan self n lo hi :
  0 < n -> first_available_id self + n <= capacity self ->
  scan self n (capacity self - (first_available_id self + 1)) (first_available_id self)
    (first_available_id self + 1) = Ret (lo, hi) ->
  alloc_consecutive self n =
    if hi - lo <? n then mret (None, self) else
      bits ← set_range (bitset self) lo (hi - lo) true;
      let self' := mk_IdAlloc bits (first_available_id self) in
      b ← is_allocated self' (first_available_id self);
      self'' ← (if (b : bool) then update_first_available_id self' hi else mret self');
      mret (Some (lo, hi), self'').
Proof.
  intros Hn Hle Hscan. unfold alloc_consecutive, checked_addn. rewrite bv_len_view.
  pose proof (bv_len_bound (bitset self)) as Hlen. fold (view self) (capacity self) in *.
  assert (MAX_BITS + 2 < 2 ^ 64)%Z by done.
  destruct (Nat.eqb_spec n 0); [lia|]. zcase; [|lia].
  destruct (Nat.ltb_spec (capacity self) (first_available_id self + n)); [lia|].
  rewrite (addn_len (bitset self)) by (fold (view self) (capacity self); lia).
  cbn [mbind outcome_bind]. by rewrite Hscan.
Qed.

Lemma alloc_consecutive_refines self cap A n :
  represents self cap A -> refines_step self cap A (OpAllocConsecutive n).
Proof.
  intros Hrep. pose proof Hrep as (Hcap & Hinv & HA). pose proof (clear_run_bounds self n) as Hb.
  pose proof (bv_len_bound (bitset self)) as Hlen. fold (view self) (capacity self) in Hlen.
  assert (MAX_BITS + 2 < 2 ^ 64)%Z by done.
  destruct (Nat.eqb_spec n 0) as [->|Hn].
  { apply alloc_consecutive_fails; auto. }
  destruct (le_lt_dec (first_available_id self + n) cap) as [Hle|Hgt]; cycle 1.
  { apply alloc_consecutive_fails; auto.
    - right. intros j Hrun. specialize (Hb j Hinv ltac:(lia) Hrun). lia.
    - unfold alloc_consecutive, checked_addn. rewrite bv_len_view. fold (view self) (capacity self).
      destruct (Nat.eqb_spec n 0); [done|]. zcase; [|done].
      destruct (Nat.ltb_spec (capacity self) (first_available_id self + n)); [done | lia]. }
  destruct (scan_ok self n (cap - (first_available_id self + 1)) (first_available_id self)
    (first_available_id self + 1)) as (lo & hi & Hscan & Hlh & Hrun & Hno & Hend);
    fold (capacity self) in *; try lia.
  { intros i Hi. replace i with (first_available_id self) by lia. apply (inv_at self Hinv). lia. }
  { intros s Hs Hr. specialize (Hb s Hinv ltac:(lia) Hr). lia. }
  pose proof (alloc_consecutive_scan self n lo hi ltac:(lia) ltac:(lia) ltac:(by rewrite Hcap))
    as Hstart.
  destruct (Nat.ltb_spec (hi - lo) n) as [Hshort|Hlong].
  { apply alloc_consecutive_fails; auto. right. intros j Hj.
    destruct (decide (j < lo)); [by apply (Hno j)|].
    specialize (Hb j Hinv ltac:(lia) Hj). lia. }
  assert (hi = lo + n) as -> by lia. replace (lo + n - lo) with n in * by lia.
  destruct (Hb lo Hinv ltac:(lia) Hrun).
  destruct (set_range_ok (bitset self) lo n true) as (b' & Hs & Ho);
    [unfold capacity, view in *; lia|].
  destruct (consecutive_update self b' lo (lo + n) Hinv Ho) as (a & fa & Ha & Hu & Hinv'); [lia..|].
  exists (RRange lo (lo + n)), (mk_IdAlloc b' fa), (range_set lo (lo + n) ∪ A). split_and!.
  - unfold exec. rewrite Hstart, Hs. cbn [mbind outcome_bind]. rewrite Ha. destruct a; cbn in Hu |- *.
    + by rewrite Hu.
    + by injection Hu as <-.
  - apply abs_alloc_consecutive; [lia|by eapply free_run_clear|].
    intros j Hj. rewrite (free_run_clear self cap A) by done. auto.
  - apply (represents_overwrite self cap A b' _ _ true); auto. lia.
Qed.

Lemma alloc_specific_refines self cap A id :
  represents self cap A -> id < cap -> refines_step self cap A (OpAllocSpecific id).
Proof.
  intros Hrep Hid. pose proof Hrep as (Hcap & Hinv & HA).
  unfold refines_step, exec, alloc_specific. rewrite bv_index_view. fold (view self).
  destruct (lookup_lt_is_Some_2 (view self) id) as [x Hx]; [unfold capacity in Hcap; lia|].
  rewrite Hx. cbn. destruct x; cbn.
  { do 3 eexists. split; [done|]. split; [|exact Hrep]. by apply abs_alloc_specific_taken, HA. }
  assert (Hna : id ∉ A) by (rewrite HA; unfold allocated; congruence).
  destruct (bv_set_overwrites (bitset self) id true) as (b' & -> & Ho);
    [fold (view self); unfold capacity in Hcap; lia|].
  cbn. destruct (Nat.eqb_spec id (first_available_id self)) as [->|Hne].
  - rewrite (addn_len (bitset self)) by (fold (view self) (capacity self); lia). cbn.
    destruct (update_after_set self b' _ Hinv Ho) as (fa & -> & Hinv'); [lia..|]. cbn.
    do 3 eexists. split; [done|]. split; [by apply abs_alloc_specific|].
    rewrite <- range_set_singleton.
    apply (represents_overwrite self cap A b' _ _ true); auto. lia.
  - cbn. do 3 eexists. split; [done|]. split; [by apply abs_alloc_specific|].
    rewrite <- range_set_singleton.
    apply (represents_overwrite self cap A b' _ _ true); auto; [lia|].
    apply (inv_set_after self b' _ _ Hinv Ho).
    destruct (lt_eq_lt_dec id (first_available_id self)) as [[Hlt|]|]; [|lia|done].
    pose proof (inv_before self id Hinv Hlt). unfold allocated in *. congruence.
Qed.

Lemma free_refines self cap A id :
  represents self cap A -> id ∈ A -> refines_step self cap A (OpFree id).
Proof.
  intros Hrep Hid. pose proof Hrep as (Hcap & Hinv & HA).
  pose proof (represents_taken _ _ _ _ Hrep Hid).
  unfold refines_step, exec, free, is_allocated.
  assert (debug_assert debug_assertions (bv_index (bitset self) id) = Ret tt) as ->.
  { unfold debug_assert. rewrite bv_index_view. apply HA in Hid. unfold allocated, view in Hid.
    rewrite Hid. by destruct debug_assertions. }
  cbn. destruct (bv_set_overwrites (bitset self) id false) as (b' & -> & Ho);
    [fold (view self) (capacity self); lia|].
  cbn [mbind outcome_bind mret outcome_ret]. do 3 eexists. split; [done|].
  split; [by apply abs_free|]. rewrite <- range_set_singleton.
  apply (represents_overwrite self cap A b' _ _ false); auto; [lia|].
  apply (inv_clear self b' id (id + 1)); auto; lia.
Qed.

Lemma free_consecutive_refines self cap A lo hi :
  represents self cap A -> (forall i, lo <= i < hi -> i ∈ A) ->
  refines_step self cap A (OpFreeConsecutive lo hi).
Proof.
  intros Hrep Hall. pose proof Hrep as (Hcap & Hinv & HA).
  unfold refines_step, exec, free_consecutive.
  destruct (Nat.leb_spec hi lo) as [Hle|Hlt].
  { cbn. do 3 eexists. split; [done|]. split; [by apply abs_free_consecutive|].
    replace (A ∖ range_set lo hi) with A; [done|]. apply set_eq. intros i.
    rewrite elem_of_difference, elem_of_range_set. naive_solver lia. }
  assert (hi <= cap).
  { pose proof (represents_taken _ _ _ (hi - 1) Hrep (Hall (hi - 1) ltac:(lia))). lia. }
  destruct (free_range_ok (bitset self) lo (hi - lo)) as (b' & -> & Ho).
  { intros i Hi. apply HA, Hall. lia. }
  replace (lo + (hi - lo)) with hi in Ho by lia.
  cbn [mbind outcome_bind mret outcome_ret]. do 3 eexists. split; [done|].
  split; [by apply abs_free_consecutive|].
  apply (represents_overwrite self cap A b' lo hi false); auto.
  apply (inv_clear self b' lo hi); auto; lia.
Qed.

Lemma with_capacity_represents cap :
  (Z.of_nat cap <= MAX_BITS)%Z ->
  exists self, with_capacity cap = Ret self /\ represents self cap ∅.
Proof.
  intros Hcap. unfold with_capacity.
  destruct (bv_with_capacity_ok cap Hcap) as (b & -> & Hb). cbn.
  destruct (bv_resize_ok b cap false Hcap) as (b' & -> & Hb'). cbn.
  rewrite Hb, resize_nil in Hb'. eexists. split; [done|].
  unfold represents, capacity, inv, allocated, view. cbn. rewrite Hb'.
  split_and!; [by rewrite length_replicate| |].
  - by destruct cap.
  - intros i. rewrite lookup_replicate. set_solver.
Qed.

Lemma exec_refines self cap A o :
  represents self cap A -> accepts cap A o -> refines_step self cap A o.
Proof.
  destruct o; cbn; eauto using alloc_refines, alloc_consecutive_refines,
    alloc_specific_refines, free_refines, free_consecutive_refines.
Qed.

Lemma debug_assert_bit b i :
  debug_assertions = true -> bv_view b !! i <> Some true -> debug_assert debug_assertions (bv_index b i) = Panic.
Proof.
  intros Hd Hi. unfold debug_assert. rewrite Hd, bv_index_view.
  by destruct (bv_view b !! i) as [[]|].
Qed.

Lemma free_range_Panic b lo n i :
  debug_assertions = true -> lo <= i < lo + n -> bv_view b !! i <> Some true ->
  free_range b lo n = Panic.
Proof.
  intros Hd. revert b lo. induction n as [|n IH]; intros b lo Hi Hb; [lia|]. cbn [free_range].
  destruct (decide (bv_view b !! lo = Some true)) as [Hlo|]; cycle 1.
  { by rewrite debug_assert_bit. }
  destruct (debug_assert _ _) as [[]|]; [|done]. cbn.
  assert (lo <> i) by congruence.
  destruct (bv_set_overwrites b lo false) as (b' & -> & _ & Ho); [by eapply lookup_lt_Some|].
  apply IH; [lia|]. rewrite Ho.
  destruct (Nat.leb_spec lo i), (Nat.ltb_spec i (lo + 1)); simpl; auto; lia.
Qed.

(** With debug assertions, the calls outside the contract panic. *)
Lemma exec_rejects self cap A o :
  debug_assertions = true -> represents self cap A -> ~ accepts cap A o -> exec self o = Panic.
Proof.
  intros Hd (Hcap & Hinv & HA) Hna. destruct o as [|n|id|id|lo hi]; cbn in Hna |- *; [tauto..| | |].
  - unfold alloc_specific. rewrite bv_index_view.
    rewrite lookup_ge_None_2 by (unfold capacity, view in Hcap; lia). done.
  - unfold free, is_allocated. rewrite debug_assert_bit; [done..|]. by rewrite <- (HA id).
  - unfold free_consecutive. destruct (Nat.leb_spec hi lo) as [Hle|Hlt].
    { destruct Hna. intros. lia. }
    destruct (decide (Forall (fun i => i ∈ A) (seq lo (hi - lo)))) as [Hall|Hex].
    { destruct Hna. intros i Hi. rewrite Forall_forall in Hall. apply Hall, elem_of_seq. lia. }
    apply not_Forall_Exists, Exists_exists in Hex as (i & Hi%elem_of_seq & Hn); [|apply _].
    rewrite (free_range_Panic _ _ _ i); [done..| |]; [lia|]. by rewrite <- (HA i).
Qed.

(** ** Histories *)

Fixpoint run (self : IdAlloc) (ops : list op) : outcome (list res * IdAlloc) :=
  match ops with
  | [] => mret ([], self)
  | o :: ops' =>
      '(r, self') ← exec self o;
      '(rs, self'') ← run self' ops';
      mret (r :: rs, self'')
  end.

Inductive abs_run (cap : nat) : gset nat -> list op -> list res -> gset nat -> Prop :=
| abs_run_nil A : abs_run cap A [] [] A
| abs_run_cons A o r A' ops rs A'' :
    abs_step cap A o r A' -> abs_run cap A' ops rs A'' ->
    abs_run cap A (o :: ops) (r :: rs) A''.

(** A client whose every call is within the contract, whatever it got before. *)
Fixpoint client_ok (cap : nat) (A : gset nat) (ops : list op) : Prop :=
  match ops with
  | [] => True
  | o :: ops' => accepts cap A o /\ forall r A', abs_step cap A o r A' -> client_ok cap A' ops'
  end.

Lemma run_refines self cap A ops :
  represents self cap A -> client_ok cap A ops ->
  exists rs self' A', run self ops = Ret (rs, self') /\ abs_run cap A ops rs A' /\
    represents self' cap A'.
Proof.
  revert self A. induction ops as [|o ops IH]; intros self A Hrep Hok.
  { exists [], self, A. split_and!; [done|constructor|done]. }
  destruct Hok as [Hacc Hok].
  destruct (exec_refines self cap A o Hrep Hacc) as (r & self1 & A1 & Hex & Hst & Hrep1).
  destruct (IH self1 A1 Hrep1 (Hok _ _ Hst)) as (rs & self2 & A2 & Hrun & Habs & Hrep2).
  exists (r :: rs), self2, A2. cbn [run]. rewrite Hex. cbn. rewrite Hrun.
  split_and!; [done|by econstructor|done].
Qed.

(** C32: starting from [with_capacity], any sequence of [alloc], [alloc_consecutive],
    [alloc_specific], [free] and [free_consecutive] calls that stays within the contract
    terminates without a panic, and the bitmap allocator answers exactly as the abstract
    set of allocated ids does: [alloc] returns the least free id, [alloc_consecutive] the
    first run of free ids that is long enough and [None] only if there is none, and the
    cached [first_available_id] remains the first clear bit. *)
Theorem id_alloc_history_refines cap ops :
  (Z.of_nat cap <= MAX_BITS)%Z -> client_ok cap ∅ ops ->
  exists self rs self' A',
    with_capacity cap = Ret self /\ run self ops = Ret (rs, self') /\
    abs_run cap ∅ ops rs A' /\ represents self' cap A'.
Proof.
  intros Hcap Hok. destruct (with_capacity_represents cap Hcap) as (self & Hw & Hrep).
  destruct (run_refines self cap ∅ ops Hrep Hok) as (rs & self' & A' & ? & ? & ?).
  by exists self, rs, self', A'.
Qed.

(** With debug assertions a call panics exactly when it breaks the contract: a
    specific id outside the capacity, or freeing an id that is not allocated. *)
Theorem id_alloc_panics_iff self cap A o :
  debug_assertions = true -> represents self cap A ->
  exec self o = Panic <-> ~ accepts cap A o.
Proof.
  intros Hd Hrep. split.
  - intros Hp Hacc. destruct (exec_refines self cap A o Hrep Hacc) as (? & ? & ? & Hex & _).
    congruence.
  - by apply exec_rejects.
Qed.

End id_alloc.

(** ** A model of the interface: bit vectors as bounded lists *)

Definition list_bv : Type := { l : list bool | (Z.of_nat (length l) <=? MAX_BITS)%Z = true }.

Definition mk_list_bv (l : list bool) : outcome list_bv :=
  match decide ((Z.of_nat (length l) <=? MAX_BITS)%Z = true) with
  | left H => Ret (exist _ l H)
  | right _ => Panic
  end.

Global Instance list_BitVec : BitVec list_bv (list bool) := {
  bv_with_capacity _ := mk_list_bv [];
  bv_resize b n v := mk_list_bv (resize n v (`b));
  bv_len b := length (`b);
  bv_index b i := match `b !! i with Some v => Ret v | None => Panic end;
  bv_set b i v := if i <? length (`b) then mk_list_bv (<[i := v]> (`b)) else Panic;
  bv_get b s e :=
    if (s <=? e) && (e <=? length (`b)) then Some (take (e - s) (drop s (`b))) else None;
  bs_first_zero sl :=
    if first_zero_index sl <? length sl then Some (first_zero_index sl) else None;
  bv_view b := `b;
  bs_view sl := sl;
}.

Lemma mk_list_bv_ok l :
  (Z.of_nat (length l) <= MAX_BITS)%Z -> exists b, mk_list_bv l = Ret b /\ `b = l.
Proof.
  intros H%Z.leb_le. unfold mk_list_bv.
  destruct (decide _) as [e|]; [by exists (exist _ l e) | done].
Qed.

Global Instance list_BitVecLaws : BitVecLaws list_bv (list bool).
Proof.
  split; cbn -[Nat.ltb Nat.leb].
  - intros c _. by apply mk_list_bv_ok.
  - intros b n v Hn. apply mk_list_bv_ok. by rewrite length_resize.
  - done.
  - intros [l H]. cbn. lia.
  - done.
  - intros b i v Hi. destruct (Nat.ltb_spec i (length (`b))); [|lia].
    apply mk_list_bv_ok. rewrite length_insert. destruct b as [l H']. cbn. lia.
  - intros b i v Hi. destruct (Nat.ltb_spec i (length (`b))); [lia|done].
  - intros b s e Hse He.
    destruct (Nat.leb_spec s e), (Nat.leb_spec e (length (`b))); try lia. cbn. eauto.
  - done.
Qed.

(** A client that fills, frees and refills an allocator of three ids. *)
Lemma id_alloc_history_refines_witness :
  exists self rs self' A',
    with_capacity 3 = Ret self /\
    run true self [OpAlloc; OpAllocConsecutive 2; OpAlloc; OpAllocSpecific 1] = Ret (rs, self') /\
    abs_run 3 ∅ [OpAlloc; OpAllocConsecutive 2; OpAlloc; OpAllocSpecific 1] rs A' /\
    represents (B := list_bv) (S := list bool) self' 3 A'.
Proof.
  apply (id_alloc_history_refines true).
  - vm_compute. discriminate.
  - cbn. repeat (intros; split); auto.
Defined.

Lemma id_alloc_panics_iff_witness :
  exists self, with_capacity (B := list_bv) 3 = Ret self /\
    exec true self (OpFree 1) = Panic /\ exec true self (OpAllocSpecific 3) = Panic.
Proof.
  destruct (with_capacity_represents (B := list_bv) (S := list bool) 3) as (self & Hw & Hrep).
  { vm_compute. discriminate. }
  exists self. split; [done|].
  split; apply (id_alloc_panics_iff true self 3 ∅ _ eq_refl Hrep); cbn; [set_solver | lia].
Defined.

(** The allocator run on the list model. *)
Example run_three :
  (self ← with_capacity (B := list_bv) 3;
   '(rs, _) ← run false self
     [OpAllocSpecific 1; OpAllocConsecutive 2; OpAlloc; OpFree 1; OpAllocConsecutive 2; OpAlloc];
   mret rs) = Ret [RId 1; RNone; RId 0; RUnit; RRange 1 3; RNone].
Proof. vm_compute. reflexivity. Qed.
