(* ===== verification/MemoryRegion.v ===== *)
(** * [ostd/src/boot/memory_region.rs]: the boot memory map

    Memory regions with a type, a fixed-capacity array of them, and
    [into_non_overlapping], the sweep that turns the firmware's overlapping
    regions into a sorted partition of the address space.  The array is a list
    of [LEN] slots with a [count], updated in place as in the code; the address
    arithmetic panics where it would overflow.

    The theorems: the result is a page-aligned, contiguous, coalesced partition
    in which each byte has the most restrictive type of the regions that cover
    it, and a byte reported as usable is usable in the input and in no region
    of another type. *)

From S2P Require Import Prelude AlignExt.
Open Scope Z_scope.

Definition PAGE_SIZE : Z := 4096.
Definition LINEAR_MAPPING_BASE_VADDR : Z := 0xffff800000000000.
Definition VMALLOC_BASE_VADDR : Z := 0xffffc00000000000.
Definition LINEAR_MAPPING_VADDR_RANGE : range :=
  mk_range LINEAR_MAPPING_BASE_VADDR VMALLOC_BASE_VADDR.
Definition paddr_to_vaddr (pa : Z) : outcome Z := uadd 64 pa LINEAR_MAPPING_BASE_VADDR.

Inductive MemoryRegionType :=
| BadMemory | Unknown | NonVolatileSleep | Reserved | Kernel | Module_
| Framebuffer | Reclaimable | Usable.
Global Instance MemoryRegionType_eq_dec : EqDecision MemoryRegionType.
Proof. solve_decision. Defined.

(** The discriminants, which are also the derived order. *)
Definition discriminant (t : MemoryRegionType) : Z :=
  match t with
  | BadMemory => 0 | Unknown => 1 | NonVolatileSleep => 2 | Reserved => 3 | Kernel => 4
  | Module_ => 5 | Framebuffer => 6 | Reclaimable => 7 | Usable => 8
  end.

Definition is_physical (self : MemoryRegionType) : bool :=
  negb (match self with
        | BadMemory | Unknown | Reserved | Framebuffer => true
        | _ => false
        end).

Record MemoryRegion := mk_region { base : Z; len : Z; typ : MemoryRegionType }.
Global Instance MemoryRegion_eq_dec : EqDecision MemoryRegion.
Proof. solve_decision. Defined.

Definition bad : MemoryRegion := mk_region 0 0 BadMemory.

Record BootloaderFramebufferArg := mk_fb { address : Z; width : Z; height : Z; bpp : Z }.

Definition framebuffer (fb : BootloaderFramebufferArg) : outcome MemoryRegion :=
  px ← umul 64 (width fb) (height fb);
  bits ← umul 64 px (bpp fb);
  mret (mk_region (address fb) (div_ceil bits 8) Framebuffer).

(** The argument is the slice [bytes] as its address and length. *)
Definition module (vaddr bytes_len : Z) : outcome MemoryRegion :=
  _ ← rassert (range_contains LINEAR_MAPPING_VADDR_RANGE vaddr);
  b ← usub vaddr LINEAR_MAPPING_BASE_VADDR;
  mret (mk_region b bytes_len Reclaimable).

Definition end_ (self : MemoryRegion) : outcome Z := uadd 64 (base self) (len self).
Definition is_empty (self : MemoryRegion) : bool := len self =? 0.

Definition as_aligned (self : MemoryRegion) : outcome MemoryRegion :=
  '(b, l) ← (match typ self with
    | Usable =>
        aligned_base ← align_up 64 (base self) PAGE_SIZE;
        e ← end_ self;
        aligned_end ← align_down 64 e PAGE_SIZE;
        mret (aligned_base, saturating_sub aligned_end aligned_base)
    | _ =>
        aligned_base ← align_down 64 (base self) PAGE_SIZE;
        e ← end_ self;
        aligned_end ← align_up 64 e PAGE_SIZE;
        l ← usub aligned_end aligned_base;
        mret (aligned_base, l)
    end);
  mret (mk_region b l (typ self)).

(** ** The array *)

Record MemoryRegionArray := mk_array { regions : list MemoryRegion; count : nat }.

(** [Deref]: the active regions. *)
Definition deref (self : MemoryRegionArray) : list MemoryRegion :=
  take (count self) (regions self).

Definition new (LEN : nat) : MemoryRegionArray := mk_array (replicate LEN bad) 0.

(** [None] is [Err(ArrayFullError)]. *)
Definition push (self : MemoryRegionArray) (region : MemoryRegion)
    : outcome (option MemoryRegionArray) :=
  if (length (regions self) <=? count self)%nat then mret None else
  rs ← arr_set (regions self) (count self) region;
  c ← addn (count self) 1;
  mret (Some (mk_array rs c)).

Definition max_region_end (rs : list MemoryRegion) : outcome (option Z) :=
  ends ← mapM end_ rs; mret (iter_max ends).

Definition type_min (a b : MemoryRegionType) : MemoryRegionType :=
  if discriminant b <? discriminant a then b else a.
Definition iter_min_type (l : list MemoryRegionType) : option MemoryRegionType :=
  match l with [] => None | x :: l' => Some (foldl type_min x l') end.

Definition most_restrictive_type (rs : list MemoryRegion) (cur_right : Z)
    : outcome (option MemoryRegionType) :=
  covering ← filterM (fun region =>
    e ← end_ region; mret (range_contains (mk_range (base region) e) cur_right)) rs;
  mret (iter_min_type (typ <$> covering)).

Definition next_region_boundary (rs : list MemoryRegion) (cur_right : Z)
    : outcome (option Z) :=
  future ← filterM (fun region => e ← end_ region; mret (e >? cur_right)) rs;
  boundaries ← mapM (fun region =>
    if base region >? cur_right then mret (base region) else end_ region) future;
  mret (iter_min boundaries).

(** ** [into_non_overlapping]: its three loops *)

(** [for i in 0..self.count] with [n] iterations left. *)
Fixpoint align_loop (rs : list MemoryRegion) (i n cnt : nat)
    : outcome (list MemoryRegion * nat) :=
  match n with
  | O => mret (rs, cnt)
  | S n' =>
      r ← arr_get rs i;
      region ← as_aligned r;
      if negb (is_empty region) then
        rs' ← arr_set rs cnt region;
        cnt' ← addn cnt 1;
        align_loop rs' (i + 1) n' cnt'
      else align_loop rs (i + 1) n' cnt
  end.

(** [while cur_right < max_addr].  Every iteration pushes one region, and the
    push that finds the array full panics, so [LEN + 1] iterations of fuel are
    all the code can use; the result is [Panic] if they are used up. *)
Fixpoint sweep_loop (fuel : nat) (self : list MemoryRegion) (max_addr : Z)
    (result : MemoryRegionArray) (cur_right : Z) : outcome MemoryRegionArray :=
  if cur_right <? max_addr then
    match fuel with
    | O => Panic
    | S fuel' =>
        t ← most_restrictive_type self cur_right;
        b ← next_region_boundary self cur_right;
        right ← unwrap b;
        l ← usub right cur_right;
        p ← push result (mk_region cur_right l (unwrap_or Unknown t));
        result' ← unwrap p;
        sweep_loop fuel' self max_addr result' right
    end
  else mret result.

(** [for i in 1..result.count] with [n] iterations left. *)
Fixpoint merge_loop (rs : list MemoryRegion) (i n merged_count : nat)
    : outcome (list MemoryRegion * nat) :=
  match n with
  | O => mret (rs, merged_count)
  | S n' =>
      r ← arr_get rs i;
      last ← arr_get rs (merged_count - 1);
      if decide (typ r = typ last) then
        l ← uadd 64 (len last) (len r);
        rs' ← arr_set rs (merged_count - 1) (mk_region (base last) l (typ last));
        merge_loop rs' (i + 1) n' merged_count
      else
        rs' ← arr_set rs merged_count r;
        mc ← addn merged_count 1;
        merge_loop rs' (i + 1) n' mc
  end.

Definition into_non_overlapping (self : MemoryRegionArray) : outcome MemoryRegionArray :=
  let LEN := length (regions self) in
  '(rs, cnt) ← align_loop (regions self) 0 (count self) 0;
  let self := mk_array rs cnt in
  m ← max_region_end (deref self);
  let max_addr := unwrap_or 0 m in
  result ← sweep_loop (S LEN) (deref self) max_addr (new LEN) 0;
  if (count result =? 0)%nat then mret result else
  '(rs', mc) ← merge_loop (regions result) 1 (count result - 1) 1;
  mret (mk_array rs' mc).

(** The unit test [sort_full_non_overlapping] of the source. *)
Definition pushes (LEN : nat) (rs : list MemoryRegion) : outcome MemoryRegionArray :=
  foldl (fun a r => a ← a; p ← push a r; unwrap p) (Ret (new LEN)) rs.

Example sort_full_non_overlapping :
  (a ← pushes 64 [mk_region 0 (PAGE_SIZE + 1) Usable;
     mk_region (PAGE_SIZE - 1) (PAGE_SIZE + 2) Usable;
     mk_region (PAGE_SIZE * 2) (PAGE_SIZE * 5) Usable;
     mk_region (PAGE_SIZE * 3 + 1) (PAGE_SIZE - 2) BadMemory;
     mk_region (PAGE_SIZE * 9) (PAGE_SIZE * 2) Usable];
   a' ← into_non_overlapping a; mret (deref a'))
  = Ret [mk_region 0 (PAGE_SIZE * 3) Usable;
     mk_region (PAGE_SIZE * 3) PAGE_SIZE BadMemory;
     mk_region (PAGE_SIZE * 4) (PAGE_SIZE * 3) Usable;
     mk_region (PAGE_SIZE * 7) (PAGE_SIZE * 2) Unknown;
     mk_region (PAGE_SIZE * 9) (PAGE_SIZE * 2) Usable].
Proof. vm_compute. reflexivity. Qed.

(** ** Specification *)

Definition r_hi (r : MemoryRegion) : Z := base r + len r.
Definition wf_region (r : MemoryRegion) : Prop :=
  0 <= base r /\ 0 <= len r /\ r_hi r < 2 ^ 64.
(** Rounding to pages does not overflow. *)
Definition roundable (r : MemoryRegion) : Prop :=
  match typ r with
  | Usable => base r <= USIZE_MAX - (PAGE_SIZE - 1)
  | _ => r_hi r <= USIZE_MAX - (PAGE_SIZE - 1)
  end.

Definition aligned_region (r : MemoryRegion) : MemoryRegion :=
  let b := match typ r with
           | Usable => nat_align_up (base r) PAGE_SIZE
           | _ => nat_align_down (base r) PAGE_SIZE end in
  let e := match typ r with
           | Usable => nat_align_down (r_hi r) PAGE_SIZE
           | _ => nat_align_up (r_hi r) PAGE_SIZE end in
  mk_region b (Z.max 0 (e - b)) (typ r).

Definition aligned_regions (rs : list MemoryRegion) : list MemoryRegion :=
  base.filter (fun r => negb (is_empty r) = true) (aligned_region <$> rs).

Definition covers (r : MemoryRegion) (a : Z) : Prop := base r <= a < r_hi r.
Definition coversb (r : MemoryRegion) (a : Z) : bool := range_contains (mk_range (base r) (r_hi r)) a.

(** The most restrictive type of the regions that cover [a], [Unknown] if there is none. *)
Definition selected_type (rs : list MemoryRegion) (a : Z) : MemoryRegionType :=
  unwrap_or Unknown (iter_min_type (typ <$> base.filter (fun r => coversb r a = true) rs)).

(** The distinct positive boundaries. *)
Definition region_boundaries (rs : list MemoryRegion) : gset Z :=
  (list_to_set (base <$> rs) ∪ list_to_set (r_hi <$> rs)) ∖ {[0]}.

(** Contiguous nonempty regions from [a] to [b]. *)
Fixpoint chain (a : Z) (rs : list MemoryRegion) (b : Z) : Prop :=
  match rs with
  | [] => a = b
  | r :: rs' => base r = a /\ 0 < len r /\ chain (r_hi r) rs' b
  end.

(** A page-aligned region that has the selected type on each byte. *)
Definition selected (rs : list MemoryRegion) (r : MemoryRegion) : Prop :=
  base r mod PAGE_SIZE = 0 /\ len r mod PAGE_SIZE = 0 /\
  forall a, covers r a -> typ r = selected_type rs a.

Definition coalesced (rs : list MemoryRegion) : Prop :=
  forall j r s, rs !! j = Some r -> rs !! S j = Some s -> typ r <> typ s.

(** The largest end of the regions, 0 if there is none. *)
Definition top (rs : list MemoryRegion) : Z := unwrap_or 0 (iter_max (r_hi <$> rs)).

(** ** Lemmas *)

Lemma coversb_spec r a : coversb r a = true <-> covers r a.
Proof. unfold coversb, range_contains, covers. cbn. lia. Qed.

Lemma discriminant_inj t u : discriminant t = discriminant u -> t = u.
Proof. by destruct t, u. Qed.

Lemma foldl_type_min_spec l x :
  foldl type_min x l ∈ x :: l /\
  forall y, y ∈ x :: l -> discriminant (foldl type_min x l) <= discriminant y.
Proof.
  revert x. induction l as [|z l IH]; intros x; cbn; [set_solver by lia|].
  destruct (IH (type_min x z)) as [Hin Hle].
  assert ((type_min x z = x \/ type_min x z = z) /\ discriminant (type_min x z) <= discriminant x /\
          discriminant (type_min x z) <= discriminant z) as (Hm & ? & ?).
  { unfold type_min. zcase; split_and!; auto; lia. }
  generalize dependent (foldl type_min (type_min x z) l). generalize dependent (type_min x z).
  intros m Hm ?? f Hin Hle. rewrite elem_of_cons in Hin. split.
  { rewrite !elem_of_cons. destruct Hin as [->|]; [destruct Hm as [->| ->]|]; auto. }
  intros y Hy. pose proof (Hle m ltac:(set_solver)). rewrite !elem_of_cons in Hy. destruct Hy as [->|[->|Hy]]; [lia..|]. apply Hle. set_solver.
Qed.

(** The selected type is that of a covering region, and none is more restrictive. *)
Lemma selected_type_cases rs a :
  (exists r, r ∈ rs /\ covers r a /\ typ r = selected_type rs a /\
     forall s, s ∈ rs -> covers s a -> discriminant (selected_type rs a) <= discriminant (typ s))
  \/ ((forall r, r ∈ rs -> ~ covers r a) /\ selected_type rs a = Unknown).
Proof.
  unfold selected_type.
  assert (Hf : forall r, r ∈ base.filter (fun r => coversb r a = true) rs <-> r ∈ rs /\ covers r a).
  { intros r. rewrite list_elem_of_filter, coversb_spec. tauto. }
  destruct (base.filter _ rs) as [|x l] eqn:E; cbn.
  - right. split; [|done]. intros r Hr Hc. assert (r ∈ []) by (apply Hf; auto). set_solver.
  - left. destruct (foldl_type_min_spec (typ <$> l) (typ x)) as [Hin Hle].
    change (typ x :: (typ <$> l)) with (typ <$> (x :: l)) in *.
    apply list_elem_of_fmap in Hin as (r & Hr & Hin). exists r. apply Hf in Hin as [? ?].
    split_and!; auto. intros s Hs Hc. apply Hle, list_elem_of_fmap. exists s.
    split; [done|]. by apply Hf.
Qed.

Lemma PAGE_SIZE_valid : valid_align PAGE_SIZE /\ uint 64 PAGE_SIZE.
Proof. split; [exists 12; split; [lia|done] | split; done]. Qed.

Lemma as_aligned_Ret r :
  wf_region r -> roundable r -> as_aligned r = Ret (aligned_region r).
Proof.
  intros (Hb & Hl & He) Hr. destruct PAGE_SIZE_valid as [Hv Hu]. unfold as_aligned, end_.
  assert (uint 64 (base r) /\ uint 64 (r_hi r)) as [Ub Uh].
  { unfold uint, r_hi in *. lia. }
  rewrite (proj2 (uadd_Ret 64 (base r) (len r) (r_hi r))) by (unfold r_hi in *; lia).
  rewrite (proj2 (align_down_Ret 64 (base r) PAGE_SIZE _ ltac:(lia) Ub Hu)) by done.
  cbn [mbind outcome_bind]. unfold roundable, USIZE_MAX, PAGE_SIZE in Hr.
  destruct (nat_align_up_spec (r_hi r) PAGE_SIZE) as [? _]; [done|].
  destruct (nat_align_down_spec (base r) PAGE_SIZE) as [? _]; [done|].
  unfold aligned_region, saturating_sub, PAGE_SIZE in *.
  destruct (typ r) eqn:Et; [..|
    rewrite (proj2 (align_up_Ret 64 (base r) 4096 (nat_align_up (base r) 4096)
      ltac:(lia) Ub Hu)) by (split_and!; [done|lia|done]);
    by rewrite (proj2 (align_down_Ret 64 (r_hi r) 4096 _ ltac:(lia) Uh Hu)) by done];
  rewrite (proj2 (align_up_Ret 64 (r_hi r) 4096 (nat_align_up (r_hi r) 4096)
    ltac:(lia) Uh Hu)) by (split_and!; [done|lia|done]); cbn [mbind outcome_bind];
  rewrite (proj2 (usub_Ret _ _ (Z.max 0 (nat_align_up (r_hi r) 4096 - nat_align_down (base r) 4096))))
    by (unfold r_hi in *; lia); done.
Qed.

(** *** The alignment loop *)

Lemma take_insert_S {A} (l : list A) i x : (i < length l)%nat -> take (S i) (<[i := x]> l) = take i l ++ [x].
Proof.
  intros Hi. rewrite (take_S_r _ _ x) by (by apply list_lookup_insert_eq).
  by rewrite take_insert_ge by lia.
Qed.

Lemma align_loop_ok n rs i cnt orig :
  (i + n <= length rs)%nat -> (cnt <= i)%nat -> Z.of_nat (length rs) < 2 ^ 64 ->
  length rs = length orig -> drop i rs = drop i orig ->
  Forall (fun r => wf_region r /\ roundable r) (take n (drop i orig)) ->
  take cnt rs = aligned_regions (take i orig) ->
  exists rs' cnt', align_loop rs i n cnt = Ret (rs', cnt') /\
    take cnt' rs' = aligned_regions (take (i + n) orig).
Proof.
  revert rs i cnt. induction n as [|n IH]; intros rs i cnt Hn Hc Hlen Ho Hd Hwf Ht; cbn [align_loop].
  { rewrite Nat.add_0_r. eauto. }
  destruct (lookup_lt_is_Some_2 orig i) as [r Hr]; [lia|].
  assert (Hget : rs !! i = Some r).
  { rewrite <- (Nat.add_0_r i), <- lookup_drop, Hd, lookup_drop, Nat.add_0_r. done. }
  rewrite (drop_S _ _ _ Hr) in Hwf. cbn [take] in Hwf. inversion Hwf as [|? ? [Hw Hro] Hwf']; subst.
  rewrite (proj2 (arr_get_Ret rs i r) Hget). cbn [mbind outcome_bind].
  rewrite as_aligned_Ret by done. cbn [mbind outcome_bind].
  assert (HS : aligned_regions (take (S i) orig) = aligned_regions (take i orig) ++
    (if negb (is_empty (aligned_region r)) then [aligned_region r] else [])).
  { rewrite (take_S_r _ _ r Hr). unfold aligned_regions. rewrite fmap_app, filter_app. f_equal.
    cbn -[is_empty]. by destruct (is_empty _). }
  replace (i + 1)%nat with (S i) in * by lia. replace (i + S n)%nat with (S i + n)%nat by lia.
  assert (Hd' : drop (S i) rs = drop (S i) orig).
  { replace (S i) with (i + 1)%nat by lia. by rewrite <- !drop_drop, Hd. }
  destruct (negb (is_empty (aligned_region r))).
  - rewrite arr_set_Ret by lia. cbn [mbind outcome_bind]. rewrite addn_small by lia.
    cbn [mbind outcome_bind]. replace (i + 1)%nat with (S i) by lia.
    apply IH; rewrite ?length_insert; try done; try lia.
    + by rewrite drop_insert_lt by lia.
    + replace (cnt + 1)%nat with (S cnt) by lia. rewrite take_insert_S by lia. congruence.
  - apply IH; try done; try lia. rewrite HS, app_nil_r. done.
Qed.

(** What the sweep relies on of its input. *)
Definition page_region (r : MemoryRegion) : Prop :=
  wf_region r /\ 0 < len r /\ base r mod PAGE_SIZE = 0 /\ len r mod PAGE_SIZE = 0.

Lemma aligned_region_bounds r :
  wf_region r -> roundable r ->
  0 <= base (aligned_region r) /\ r_hi (aligned_region r) < 2 ^ 64.
Proof.
  intros (Hb & Hl & He) Hr. unfold roundable, aligned_region, r_hi, USIZE_MAX, PAGE_SIZE in *.
  cbn [base len typ].
  destruct (nat_align_up_spec (base r) 4096) as [? _]; [done|].
  destruct (nat_align_down_spec (base r) 4096) as [? _]; [done|].
  destruct (nat_align_up_spec (base r + len r) 4096) as [? _]; [done|].
  destruct (nat_align_down_spec (base r + len r) 4096) as [? _]; [done|].
  pose proof (nat_align_down_greatest (base r) 4096 0 ltac:(done) ltac:(done)).
  destruct (typ r); lia.
Qed.

Lemma aligned_regions_page rs :
  Forall (fun r => wf_region r /\ roundable r) rs -> Forall page_region (aligned_regions rs).
Proof.
  rewrite !Forall_forall. intros H x Hx.
  apply list_elem_of_filter in Hx as [Hne (r & -> & Hr)%list_elem_of_fmap].
  destruct (H r Hr) as [Hw Hro]. destruct (aligned_region_bounds r Hw Hro) as [? ?].
  unfold is_empty in Hne. zify_bools.
  assert (0 <= len (aligned_region r)) by (unfold aligned_region; cbn; lia).
  destruct (nat_align_up_spec (base r) PAGE_SIZE) as [_ Hm1]; [done|].
  destruct (nat_align_down_spec (base r) PAGE_SIZE) as [_ Hm2]; [done|].
  destruct (nat_align_up_spec (r_hi r) PAGE_SIZE) as [_ Hm3]; [done|].
  destruct (nat_align_down_spec (r_hi r) PAGE_SIZE) as [_ Hm4]; [done|].
  split_and!; [by split_and!|lia|by unfold aligned_region; cbn; destruct (typ r)|].
  unfold aligned_region in *. cbn in *. rewrite Z.max_r by lia.
  destruct (typ r); apply mod0_sub; done.
Qed.

Lemma end_Ret r : wf_region r -> end_ r = Ret (r_hi r).
Proof. intros (? & ? & ?). apply uadd_Ret. unfold r_hi in *. lia. Qed.

Lemma most_restrictive_type_Ret rs a :
  Forall page_region rs ->
  most_restrictive_type rs a =
    Ret (iter_min_type (typ <$> base.filter (fun r => coversb r a = true) rs)).
Proof.
  rewrite Forall_forall. intros Hp. unfold most_restrictive_type.
  rewrite (filterM_Ret _ (fun r => coversb r a)); [done|].
  intros r Hr. rewrite end_Ret by (apply Hp; done). done.
Qed.

Lemma max_region_end_Ret rs :
  Forall page_region rs -> max_region_end rs = Ret (iter_max (r_hi <$> rs)).
Proof.
  rewrite Forall_forall. intros Hp. unfold max_region_end.
  rewrite (mapM_Ret _ r_hi); [done|].
  intros r Hr. apply end_Ret. by apply Hp.
Qed.

(** The next boundary after [a]: the least one, and it exists below the top. *)
Lemma next_region_boundary_Ret rs a :
  Forall page_region rs -> 0 <= a < top rs ->
  exists right, next_region_boundary rs a = Ret (Some right) /\
    a < right <= top rs /\ right ∈ region_boundaries rs /\ right mod PAGE_SIZE = 0 /\
    forall r, r ∈ rs -> (base r <= a \/ right <= base r) /\ (r_hi r <= a \/ right <= r_hi r).
Proof.
  intros Hp Ha. pose proof Hp as Hp'. rewrite Forall_forall in Hp'.
  set (bound r := if base r >? a then base r else r_hi r).
  set (future := base.filter (fun r => (r_hi r >? a) = true) rs).
  assert (Hfut : forall r, r ∈ future <-> r ∈ rs /\ a < r_hi r).
  { intros r. unfold future. rewrite list_elem_of_filter, Z.gtb_ltb, Z.ltb_lt. tauto. }
  assert (Hnb : next_region_boundary rs a = Ret (iter_min (bound <$> future))).
  { unfold next_region_boundary. rewrite (filterM_Ret _ (fun r => r_hi r >? a)); cycle 1.
    { intros r Hr. rewrite end_Ret by (by apply Hp'). done. }
    cbn [mbind outcome_bind]. fold future. rewrite (mapM_Ret _ bound); [done|].
    intros r [Hr _]%Hfut. unfold bound. zcase; [done|]. by apply end_Ret, Hp'. }
  unfold top in Ha. destruct (iter_max (r_hi <$> rs)) as [m|] eqn:Em; cbn in Ha; [|lia].
  pose proof Em as [(t & -> & Ht)%list_elem_of_fmap Hmax]%iter_max_Some.
  assert (t ∈ future) as Htf by (apply Hfut; split; [done|lia]).
  destruct (iter_min (bound <$> future)) as [right|] eqn:Er; cycle 1.
  { destruct future; [set_solver | done]. }
  pose proof Er as [(s & -> & Hs)%list_elem_of_fmap Hmin]%iter_min_Some.
  exists (bound s). apply Hfut in Hs as [Hs Hsa].
  pose proof (Hp' s ltac:(done)) as ((? & ? & ?) & ? & ? & ?).
  assert (r_hi s <= top rs).
  { unfold top. rewrite Em. cbn. apply Hmax, list_elem_of_fmap. eauto. }
  assert (Hbs : bound s = base s /\ a < base s \/ bound s = r_hi s /\ base s <= a).
  { unfold bound. zcase; lia. }
  split_and!; [done|unfold r_hi in *; lia|unfold r_hi in *; lia| | |].
  - unfold region_boundaries. apply elem_of_difference. split; [|set_solver by lia].
    apply elem_of_union. destruct Hbs as [[-> _]|[-> _]]; [left|right];
      apply elem_of_list_to_set, list_elem_of_fmap; eauto.
  - destruct Hbs as [[-> _]|[-> _]]; [done|]. apply mod0_add; done.
  - intros r Hr. pose proof (Hp' r ltac:(done)) as ((? & ? & ?) & ? & _).
    destruct (Z.le_gt_cases (r_hi r) a); [unfold r_hi in *; lia|].
    assert (Hbr : bound s <= if base r >? a then base r else r_hi r).
    { apply Hmin, list_elem_of_fmap. exists r. split; [done|]. by apply Hfut. }
    zcase_in Hbr; unfold r_hi in *; lia.
Qed.

Lemma chain_app a l1 l2 b :
  chain a (l1 ++ l2) b <-> exists m, chain a l1 m /\ chain m l2 b.
Proof.
  revert a. induction l1 as [|r l1 IH]; intros a; cbn; [naive_solver|].
  rewrite IH. naive_solver.
Qed.

Lemma push_ok arr r :
  (count arr < length (regions arr))%nat -> Z.of_nat (length (regions arr)) < 2 ^ 64 ->
  exists arr', push arr r = Ret (Some arr') /\ deref arr' = deref arr ++ [r] /\
    length (regions arr') = length (regions arr) /\ count arr' = S (count arr).
Proof.
  intros Hc Hl. unfold push.
  destruct (Nat.leb_spec (length (regions arr)) (count arr)); [lia|].
  rewrite arr_set_Ret by done. cbn [mbind outcome_bind]. rewrite addn_small by lia.
  eexists. split; [done|]. unfold deref. cbn [regions count]. rewrite length_insert.
  rewrite (Nat.add_comm _ 1), take_insert_S by done. done.
Qed.

(** Between a position and the next boundary the covering regions do not change. *)
Lemma selected_type_const rs a right x :
  (forall r, r ∈ rs -> (base r <= a \/ right <= base r) /\ (r_hi r <= a \/ right <= r_hi r)) ->
  a <= x < right -> selected_type rs x = selected_type rs a.
Proof.
  intros Hb Hx. unfold selected_type. do 3 f_equal. apply list_filter_iff_in.
  intros r Hr. rewrite !coversb_spec. specialize (Hb r Hr). unfold covers. lia.
Qed.

(** The boundaries the sweep has left. *)
Definition boundaries_above (rs : list MemoryRegion) (cur : Z) : gset Z :=
  base.filter (fun b => cur < b) (region_boundaries rs).

Lemma sweep_loop_ok rs fuel result cur :
  Forall page_region rs -> Z.of_nat (length (regions result)) < 2 ^ 64 ->
  0 <= cur <= top rs -> cur mod PAGE_SIZE = 0 ->
  (size (boundaries_above rs cur) < fuel)%nat ->
  (count result + size (boundaries_above rs cur)
     <= length (regions result))%nat ->
  chain 0 (deref result) cur -> Forall (selected rs) (deref result) ->
  exists result', sweep_loop fuel rs (top rs) result cur = Ret result' /\
    length (regions result') = length (regions result) /\
    (count result' <= length (regions result'))%nat /\
    chain 0 (deref result') (top rs) /\ Forall (selected rs) (deref result').
Proof.
  intros Hp. revert result cur.
  induction fuel as [|fuel IH]; intros result cur Hlen Hcur Hmod Hf Hcnt Hch Hsel; [lia|].
  cbn [sweep_loop]. zcase; cycle 1.
  { assert (cur = top rs) as -> by lia. exists result. split_and!; auto; lia. }
  rewrite most_restrictive_type_Ret by done. cbn [mbind outcome_bind].
  destruct (next_region_boundary_Ret rs cur Hp) as (right & -> & Hr & Hrb & Hrm & Hmin); [lia|].
  cbn [mbind outcome_bind unwrap]. rewrite (proj2 (usub_Ret right cur (right - cur))) by lia.
  cbn [mbind outcome_bind]. fold (selected_type rs cur).
  assert (Hsize : (size (boundaries_above rs right) <
    size (boundaries_above rs cur))%nat).
  { apply subset_size. split.
    - intros b. unfold boundaries_above. rewrite !elem_of_filter. intros [? ?]. split; [lia|done].
    - intros Hsub. specialize (Hsub right). unfold boundaries_above in Hsub.
      rewrite !elem_of_filter in Hsub.
      destruct Hsub; [split; [lia|done]|lia]. }
  destruct (push_ok result (mk_region cur (right - cur) (selected_type rs cur)))
    as (result1 & -> & Hd & Hl & Hc); [lia|done|].
  cbn [mbind outcome_bind unwrap].
  destruct (IH result1 right) as (result2 & -> & Hl2 & Hrest); rewrite ?Hl, ?Hd; auto; try lia.
  - rewrite chain_app. exists cur. split; [done|]. cbn. unfold r_hi. cbn. lia.
  - apply Forall_app. split; [done|]. constructor; [|done]. split_and!; cbn; [done|by apply mod0_sub|].
    intros x Hx. unfold covers, r_hi in Hx. cbn in Hx.
    symmetry. apply (selected_type_const rs cur right); [done|lia].
  - exists result2. split_and!; try done; try lia; apply Hrest.
Qed.

(** *** The merging loop *)

Lemma coalesced_snoc l p q : coalesced (l ++ [p]) -> typ p <> typ q -> coalesced (l ++ [p] ++ [q]).
Proof.
  intros Hc Hne j r s Hr Hs. pose proof (lookup_lt_Some _ _ _ Hs) as Hj. cbn in Hj.
  rewrite length_app in Hj. cbn in Hj. rewrite (app_assoc l) in Hr, Hs.
  destruct (decide (S j < length (l ++ [p]))%nat) as [Hlt|Hge].
  - rewrite lookup_app_l in Hr, Hs by lia. by apply (Hc j).
  - rewrite length_app in Hge. cbn in Hge. assert (j = length l) as -> by lia.
    rewrite <- app_assoc in Hr. cbn in Hr. rewrite list_lookup_middle in Hr by done.
    rewrite lookup_app_r in Hs by (rewrite length_app; cbn; lia).
    rewrite length_app in Hs. cbn in Hs. replace (_ - _)%nat with 0%nat in Hs by lia.
    cbn in Hs. congruence.
Qed.

Lemma coalesced_retype l p q : coalesced (l ++ [p]) -> typ p = typ q -> coalesced (l ++ [q]).
Proof.
  intros Hc He j r s Hr Hs. pose proof (lookup_lt_Some _ _ _ Hs) as Hj.
  rewrite length_app in Hj. cbn in Hj. rewrite lookup_app_l in Hr by lia.
  destruct (decide (S j < length l)%nat) as [Hlt|Hge].
  - rewrite lookup_app_l in Hs by lia. apply (Hc j); rewrite lookup_app_l by lia; done.
  - rewrite lookup_app_r in Hs by lia. replace (_ - _)%nat with 0%nat in Hs by lia.
    cbn in Hs. injection Hs as <-. rewrite <- He. apply (Hc j); [by rewrite lookup_app_l by lia|].
    rewrite lookup_app_r by lia. by replace (_ - _)%nat with 0%nat by lia.
Qed.

(** Joining two adjacent regions of one type. *)
Definition join (p q : MemoryRegion) : MemoryRegion := mk_region (base p) (len p + len q) (typ p).

Lemma selected_join rs p q :
  selected rs p -> selected rs q -> typ q = typ p -> base q = r_hi p -> selected rs (join p q).
Proof.
  intros (Hp1 & Hp2 & Hp3) (Hq1 & Hq2 & Hq3) Ht Hb. split_and!; cbn; [done|by apply mod0_add|].
  intros a Ha. unfold covers, r_hi, join in *. cbn in *.
  destruct (Z.lt_ge_cases a (base q)); [apply Hp3; lia|]. rewrite <- Ht. apply Hq3. lia.
Qed.

Lemma chain_join a A p q B b :
  chain a (A ++ [p] ++ q :: B) b -> base q = r_hi p /\ 0 < len p /\ chain a (A ++ [join p q] ++ B) b.
Proof.
  rewrite !chain_app. cbn. intros (m & HA & Hp & Hl & Hq & Hl' & HB). split_and!; auto.
  exists m. split; [done|]. cbn. split_and!; auto; [lia|].
  replace (r_hi (join p q)) with (r_hi q); [done|]. unfold r_hi, join in *. cbn. lia.
Qed.

Lemma chain_mono a l b : chain a l b -> a <= b /\ forall r, r ∈ l -> a <= base r /\ r_hi r <= b.
Proof.
  revert a. induction l as [|r l IH]; cbn; intros a; [set_solver by lia|].
  intros (<- & Hl & Hc). destruct (IH _ Hc) as [? Hin]. unfold r_hi in *. split; [lia|].
  intros s [->|Hs]%elem_of_cons; [lia|]. specialize (Hin s Hs). lia.
Qed.

Lemma merge_loop_ok n rs regs i m b :
  (1 <= m <= i)%nat -> (i + n <= length regs)%nat -> Z.of_nat (length regs) < 2 ^ 64 ->
  b < 2 ^ 64 -> chain 0 (take m regs ++ take n (drop i regs)) b ->
  Forall (selected rs) (take m regs ++ take n (drop i regs)) -> coalesced (take m regs) ->
  exists regs' m', merge_loop regs i n m = Ret (regs', m') /\ length regs' = length regs /\
    (1 <= m' <= i + n)%nat /\ chain 0 (take m' regs') b /\
    Forall (selected rs) (take m' regs') /\ coalesced (take m' regs').
Proof.
  revert regs i m. induction n as [|n IH]; intros regs i m Hm Hi Hlen Hb Hch Hsel Hco;
    cbn [merge_loop].
  { cbn in Hch, Hsel. rewrite app_nil_r in *. exists regs, m. split_and!; auto; lia. }
  destruct (lookup_lt_is_Some_2 regs i) as [q Hq]; [lia|].
  destruct (lookup_lt_is_Some_2 regs (m - 1)) as [p Hp]; [lia|].
  rewrite (proj2 (arr_get_Ret _ _ q) Hq). cbn [mbind outcome_bind].
  rewrite (proj2 (arr_get_Ret _ _ p) Hp). cbn [mbind outcome_bind].
  assert (Htm : take m regs = take (m - 1) regs ++ [p]).
  { rewrite <- (take_S_r _ _ p Hp). f_equal. lia. }
  rewrite (drop_S _ _ _ Hq) in Hch, Hsel. cbn [take] in Hch, Hsel.
  replace (i + 1)%nat with (S i) by lia. replace (i + S n)%nat with (S i + n)%nat by lia.
  assert (Hdrop : forall k x, (k <= i)%nat -> drop (S i) (<[k := x]> regs) = drop (S i) regs).
  { intros k x Hk. by rewrite drop_insert_lt by lia. }
  destruct (decide (typ q = typ p)) as [Ht|Hne].
  - rewrite Htm, <- app_assoc in Hch, Hsel.
    apply chain_join in Hch as (Hqb & Hpl & Hch).
    destruct (chain_mono _ _ _ Hch) as [_ Hin].
    specialize (Hin (join p q) ltac:(set_solver)) as [? Hjb]. unfold r_hi in Hjb. cbn in Hjb.
    rewrite (proj2 (uadd_Ret 64 _ _ (len p + len q))) by (cbn in *; lia).
    cbn [mbind outcome_bind]. rewrite arr_set_Ret by lia. cbn [mbind outcome_bind].
    assert (Htake : take m (<[(m - 1)%nat := join p q]> regs) = take (m - 1) regs ++ [join p q]).
    { rewrite <- take_insert_S by lia. f_equal. lia. }
    fold (join p q).
    destruct (IH (<[(m - 1)%nat := join p q]> regs) (S i) m) as (regs' & m' & -> & Hl & Hm' & Hrest);
      rewrite ?length_insert, ?Hdrop, ?Htake, <- ?app_assoc; auto; try lia.
    + apply Forall_app in Hsel as [? [? [? ?]%Forall_cons]%Forall_cons].
      apply Forall_app. split; [done|]. constructor; [by apply selected_join|done].
    + rewrite Htm in Hco. by apply (coalesced_retype _ p).
    + rewrite length_insert in Hl. exists regs', m'. split_and!; try apply Hrest; auto; lia.
  - rewrite arr_set_Ret by lia. cbn [mbind outcome_bind]. rewrite addn_small by lia.
    cbn [mbind outcome_bind]. replace (m + 1)%nat with (S m) by lia.
    destruct (IH (<[m := q]> regs) (S i) (S m)) as (regs' & m' & -> & Hl & Hm' & Hrest);
      rewrite ?length_insert, ?Hdrop, ?take_insert_S, <- ?app_assoc by lia; auto; try lia.
    + rewrite Htm, <- app_assoc. apply coalesced_snoc; [by rewrite <- Htm|congruence].
    + rewrite length_insert in Hl. exists regs', m'. split_and!; try apply Hrest; auto; lia.
Qed.

(** ** The result of [into_non_overlapping] *)

Definition wf_array (self : MemoryRegionArray) : Prop :=
  (count self <= length (regions self))%nat /\ Z.of_nat (length (regions self)) < 2 ^ 64.

(** The precondition of [into_non_overlapping]. *)
Definition normalizable (self : MemoryRegionArray) : Prop :=
  wf_array self /\ Forall (fun r => wf_region r /\ roundable r) (deref self) /\
  (size (region_boundaries (aligned_regions (deref self))) <= length (regions self))%nat.

Lemma deref_new LEN : deref (new LEN) = [].
Proof. done. Qed.

Lemma top_bounds rs : Forall page_region rs -> 0 <= top rs < 2 ^ 64.
Proof.
  intros Hp. rewrite Forall_forall in Hp. unfold top.
  destruct (iter_max _) as [m|] eqn:E; cbn; [|lia].
  apply iter_max_Some in E as [(r & -> & Hr)%list_elem_of_fmap _].
  destruct (Hp r Hr) as ((? & ? & ?) & _). unfold r_hi in *. lia.
Qed.

Lemma into_non_overlapping_ok self :
  normalizable self ->
  exists res, into_non_overlapping self = Ret res /\
    length (regions res) = length (regions self) /\ wf_array res /\
    chain 0 (deref res) (top (aligned_regions (deref self))) /\
    Forall (selected (aligned_regions (deref self))) (deref res) /\ coalesced (deref res).
Proof.
  intros ([Hc Hl] & Hwf & Hsize). unfold into_non_overlapping.
  destruct (align_loop_ok (count self) (regions self) 0 0 (regions self)) as (rs & cnt & -> & Hrs);
    auto; try lia.
  cbn [mbind outcome_bind]. change (deref (mk_array rs cnt)) with (take cnt rs). rewrite Hrs.
  cbn [Nat.add]. change (take (count self) (regions self)) with (deref self) in *.
  pose proof (aligned_regions_page _ Hwf) as Hpage. pose proof (top_bounds _ Hpage).
  set (al := aligned_regions (deref self)) in *.
  rewrite max_region_end_Ret by done. cbn [mbind outcome_bind]. fold (top al).
  assert (Hab : boundaries_above al 0 ⊆ region_boundaries al) by (apply filter_subseteq || set_solver).
  apply subseteq_size in Hab.
  destruct (sweep_loop_ok al (S (length (regions self))) (new (length (regions self))) 0)
    as (res & -> & Hlr & Hcr & Hch & Hsel); rewrite ?deref_new; cbn [new regions count];
    rewrite ?length_replicate; auto; try lia; [constructor|].
  cbn [new regions] in Hlr. rewrite length_replicate in Hlr. cbn [mbind outcome_bind].
  destruct (Nat.eqb_spec (count res) 0) as [Hz|Hz].
  { exists res. split_and!; auto; [split; lia|]. unfold deref. rewrite Hz. by intros j ???. }
  destruct (merge_loop_ok (count res - 1) al (regions res) 1 1 (top al))
    as (rs' & m' & -> & Hl' & Hm' & Hch' & Hsel' & Hco); try lia.
  1, 2: replace (take 1 (regions res) ++ _) with (deref res); [done|];
    rewrite take_take_drop; unfold deref; f_equal; lia.
  { intros j r s Hr Hs. apply lookup_lt_Some in Hs. rewrite length_take in Hs. lia. }
  exists (mk_array rs' m'). split_and!; auto; cbn [regions]; [congruence|].
  split; cbn [regions count]; lia.
Qed.

(** C31: the boot memory map is normalised correctly.  For an array whose regions can be
    rounded to pages and have at most [LEN] distinct positive boundaries,
    [into_non_overlapping] returns (no panic, all loops end) an array whose regions are a
    contiguous partition of the addresses from 0 to the largest aligned end, each
    nonempty and page aligned, each with the most restrictive type among the aligned
    input regions that cover its bytes ([Unknown] if there is none), and no two adjacent
    ones of the same type. *)
Theorem into_non_overlapping_correct self :
  normalizable self ->
  exists res, into_non_overlapping self = Ret res /\
    length (regions res) = length (regions self) /\ wf_array res /\
    chain 0 (deref res) (top (aligned_regions (deref self))) /\
    Forall (selected (aligned_regions (deref self))) (deref res) /\ coalesced (deref res).
Proof. apply into_non_overlapping_ok. Qed.

(** The types of the aligned regions over a byte, against the input regions. *)
Lemma aligned_covers_usable r a :
  wf_region r -> typ r = Usable -> covers (aligned_region r) a -> covers r a.
Proof.
  intros (? & ? & ?) Ht. unfold covers, aligned_region, r_hi. cbn. rewrite Ht.
  destruct (nat_align_up_spec (base r) PAGE_SIZE) as [? _]; [done|].
  destruct (nat_align_down_spec (base r + len r) PAGE_SIZE) as [? _]; [done|]. lia.
Qed.

Lemma same_page m lo hi a b :
  0 < m -> lo mod m = 0 -> hi mod m = 0 -> lo <= b < hi -> b / m = a / m -> lo <= a < hi.
Proof.
  intros Hm Hlo Hhi Hb Hp.
  pose proof (Z.div_mod a m ltac:(lia)). pose proof (Z.mod_pos_bound a m Hm).
  pose proof (Z.div_mod b m ltac:(lia)). pose proof (Z.mod_pos_bound b m Hm).
  rewrite Hp in *. split.
  - destruct (Z.le_gt_cases lo a); [done|].
    pose proof (multiple_gap m (m * (a / m)) lo Hm) as Hg. rewrite Z.mul_comm, Z.mod_mul in Hg by lia.
    lia.
  - destruct (Z.lt_ge_cases a hi); [done|].
    pose proof (multiple_gap m (m * (a / m)) hi Hm) as Hg. rewrite Z.mul_comm, Z.mod_mul in Hg by lia.
    lia.
Qed.

Lemma aligned_covers_page r b a :
  typ r <> Usable -> covers r b -> b / PAGE_SIZE = a / PAGE_SIZE -> covers (aligned_region r) a.
Proof.
  intros Ht Hb Hp. unfold covers in *.
  destruct (nat_align_down_spec (base r) PAGE_SIZE) as [? Hm1]; [done|].
  destruct (nat_align_up_spec (r_hi r) PAGE_SIZE) as [? Hm2]; [done|].
  apply (same_page PAGE_SIZE (nat_align_down (base r) PAGE_SIZE)
    (nat_align_up (r_hi r) PAGE_SIZE) a b) in Hp; [|done|done|done|lia].
  unfold r_hi in *. unfold aligned_region, r_hi. cbn [base len]. destruct (typ r); done || lia.
Qed.

Lemma discriminant_max t : 8 <= discriminant t -> t = Usable.
Proof. by destruct t. Qed.

Lemma aligned_regions_covers rs s a :
  s ∈ rs -> covers (aligned_region s) a -> aligned_region s ∈ aligned_regions rs.
Proof.
  intros Hs Hc. apply list_elem_of_filter. split; [|by apply list_elem_of_fmap_2].
  unfold covers, r_hi in Hc. unfold is_empty. apply negb_true_iff, Z.eqb_neq. lia.
Qed.

(** No byte of unusable memory is handed out.  A byte of the normalised map that is
    marked [Usable] lies in an input region of type [Usable] and in no input region of
    any other type, even one that shares only a page with it. *)
Theorem usable_is_safe self res r a :
  normalizable self -> into_non_overlapping self = Ret res ->
  r ∈ deref res -> typ r = Usable -> covers r a ->
  (exists s, s ∈ deref self /\ typ s = Usable /\ covers s a) /\
  (forall s b, s ∈ deref self -> covers s b -> b / PAGE_SIZE = a / PAGE_SIZE -> typ s = Usable).
Proof.
  intros Hn Hres Hr Ht Ha. pose proof Hn as (_ & Hwf & _). rewrite Forall_forall in Hwf.
  destruct (into_non_overlapping_ok self Hn) as (res' & Hres' & _ & _ & _ & Hsel & _).
  rewrite Hres in Hres'. injection Hres' as <-. rewrite Forall_forall in Hsel.
  destruct (Hsel r Hr) as (_ & _ & Hty). specialize (Hty a Ha). rewrite Ht in Hty.
  destruct (selected_type_cases (aligned_regions (deref self)) a)
    as [(x & Hx & Hxa & Hxt & Hmin)|[_ Hu]]; [|congruence].
  rewrite <- Hty in Hxt, Hmin.
  assert (Hal : forall s, s ∈ deref self -> covers (aligned_region s) a -> typ s = Usable).
  { intros s Hs Hc. apply (discriminant_max (typ (aligned_region s))), Hmin; [|done].
    by apply (aligned_regions_covers _ _ a). }
  split.
  - apply list_elem_of_filter in Hx as [_ (s & -> & Hs)%list_elem_of_fmap].
    exists s. split_and!; auto. apply aligned_covers_usable; [by apply Hwf|done|done].
  - intros s b Hs Hb Hpage. destruct (decide (typ s = Usable)) as [|Hne]; [done|].
    apply Hal; [done|]. by apply (aligned_covers_page s b).
Qed.

(** The input of the unit test above satisfies the precondition. *)
Definition sample_array : MemoryRegionArray :=
  mk_array [mk_region 0 (PAGE_SIZE + 1) Usable; mk_region (PAGE_SIZE * 3 + 1) 7 BadMemory;
            mk_region (PAGE_SIZE * 2) (PAGE_SIZE * 5) Usable; bad; bad; bad] 3.

Lemma sample_array_normalizable : normalizable sample_array.
Proof.
  split; [split; cbn; lia|]. split.
  - unfold deref. cbn [sample_array take count regions]. rewrite !Forall_cons.
    unfold wf_region, roundable, r_hi, USIZE_MAX, PAGE_SIZE. cbn [base len typ]. split_and!; lia || constructor.
  - vm_compute. lia.
Qed.

Lemma into_non_overlapping_correct_witness :
  exists res, into_non_overlapping sample_array = Ret res /\ coalesced (deref res).
Proof.
  destruct (into_non_overlapping_correct sample_array sample_array_normalizable)
    as (res & ? & _ & _ & _ & _ & ?). eauto.
Defined.

Lemma usable_is_safe_witness :
  exists res, into_non_overlapping sample_array = Ret res /\
    mk_region (PAGE_SIZE * 4) (PAGE_SIZE * 3) Usable ∈ deref res /\
    exists s, s ∈ deref sample_array /\ typ s = Usable /\ covers s (PAGE_SIZE * 5).
Proof.
  eexists. split; [vm_compute; reflexivity|].
  assert (mk_region (PAGE_SIZE * 4) (PAGE_SIZE * 3) Usable ∈
    [mk_region 0 4096 Usable; mk_region 4096 4096 Unknown; mk_region 8192 4096 Usable;
     mk_region 12288 4096 BadMemory; mk_region 16384 12288 Usable]) as Hin.
  { cbn. set_solver. }
  split; [exact Hin|]. eapply (usable_is_safe sample_array); [apply sample_array_normalizable
    | vm_compute; reflexivity | exact Hin | done | unfold covers, r_hi, PAGE_SIZE; cbn; lia].
Defined.
