(* ===== verification/EarlyAlloc.v ===== *)
(** * Frames of the boot stage ([ostd/src/mm/frame/allocator.rs], [ostd/src/util/ops.rs])

    Before the frame metadata exists, frames come from a bump allocator over at
    most two of the usable regions of the boot memory map: the largest part of
    one below 4 GiB and the largest part of one above.  [frame_init] retires it: it
    gives what the bump allocator has not used of the usable memory to the global
    frame allocator, which the kernel provides, so that the calls of its
    [add_free_memory] are recorded.  The functions of [allocator.rs] have no
    compiled body and follow the one in the comment.

    The theorem composes the whole path from the memory map of the firmware:
    its normalisation ([MemoryRegion]), any sequence of early allocations, and the
    hand-over. *)

From S2P Require Import Prelude AlignExt MemoryRegion.
Open Scope Z_scope.

(** ** Differences of ranges *)

Definition range_difference (a b : range) : list range :=
  let r := if range_is_empty b then [a; b]
           else [mk_range (r_start a) (Z.min (r_end a) (r_start b)); mk_range (Z.max (r_start a) (r_end b)) (r_end a)] in
  base.filter (fun v => range_is_empty v = false) r.

(** ** The early allocator *)

Definition PADDR4G : Z := 0x100000000.

Record EarlyFrameAllocator := mk_early {
  under_4g_range : range; under_4g_end : Z; max_range : range; max_end : Z }.

(** One round of the loop of [EarlyFrameAllocator::new]. *)
Definition early_consider (acc : range * range) (region : MemoryRegion) : outcome (range * range) :=
  let ' (under, mx) := acc in
  if decide (typ region <> Usable) then Ret acc else
  under' ← (if base region <? PADDR4G then
              e ← end_ region;
              let rg := mk_range (base region) (Z.min e PADDR4G) in
              Ret (if range_len under <? range_len rg then rg else under)
            else Ret under);
  e ← end_ region;
  if PADDR4G <=? e then
    let rg := mk_range (Z.max (base region) PADDR4G) e in
    Ret (under', if range_len mx <? range_len rg then rg else mx)
  else Ret (under', mx).

Definition early_new (regions : list MemoryRegion) : outcome EarlyFrameAllocator :=
  ' (under, mx) ← foldl (fun acc region => a ← acc; early_consider a region) (Ret (mk_range 0 0, mk_range 0 0)) regions;
  Ret (mk_early under (r_start under) mx (r_start mx)).

(** One round of the loop of [alloc]: the result and the new tail. *)
Definition try_bump (tail end_ size align : Z) : outcome (option Z * Z) :=
  allocated ← align_up 64 tail align;
  Ret (match checked_add 64 allocated size with
       | Some allocated_end => if allocated_end <=? end_ then (Some allocated, allocated_end) else (None, tail)
       | None => (None, tail)
       end).

Definition early_frame_alloc (self : EarlyFrameAllocator) (layout : Layout) : outcome (option Z * EarlyFrameAllocator) :=
  size ← align_up 64 (layout_size layout) PAGE_SIZE;
  let align := Z.max (layout_align layout) PAGE_SIZE in
  ' (r, tail) ← try_bump (under_4g_end self) (r_end (under_4g_range self)) size align;
  match r with
  | Some _ => Ret (r, mk_early (under_4g_range self) tail (max_range self) (max_end self))
  | None =>
      ' (r, tail) ← try_bump (max_end self) (r_end (max_range self)) size align;
      Ret (r, mk_early (under_4g_range self) (under_4g_end self) (max_range self) tail)
  end.

Definition allocated_regions (self : EarlyFrameAllocator) : range * range :=
  (mk_range (r_start (under_4g_range self)) (under_4g_end self), mk_range (r_start (max_range self)) (max_end self)).

(** ** The static [EARLY_ALLOCATOR] *)

Notation early_static := (option EarlyFrameAllocator).

Definition init_early_allocator (regions : list MemoryRegion) : outcome early_static :=
  al ← early_new regions; Ret (Some al).

Definition early_alloc (st : early_static) (layout : Layout) : outcome (option Z * early_static) :=
  al ← unwrap st;
  ' (r, al') ← early_frame_alloc al layout;
  Ret (r, Some al').

Section init.
Context (debug_assertions : bool).

(** The free ranges of one region. *)
Definition free_of_region (used : range * range) (region : MemoryRegion) : outcome (list range) :=
  if decide (typ region = Usable) then
    _ ← debug_assert debug_assertions (Ret (base region mod PAGE_SIZE =? 0));
    _ ← debug_assert debug_assertions (Ret (len region mod PAGE_SIZE =? 0));
    e ← end_ region;
    Ret (range_difference (mk_range (base region) e) used.1 ≫= fun r1 => range_difference r1 used.2)
  else Ret [].

(** [init] of the frame allocator: the calls [add_free_memory(start, len)], in order. *)
Definition frame_init (regions : list MemoryRegion) (st : early_static) : outcome (list (Z * Z) * early_static) :=
  early_allocator ← unwrap st;
  free ← mapM (free_of_region (allocated_regions early_allocator)) regions;
  Ret ((fun r => (r_start r, range_len r)) <$> concat free, None).

(** The boot stage: the early allocator is set up, serves some requests and is retired. *)
Fixpoint early_allocs (st : early_static) (ls : list Layout) : outcome (list (option Z) * early_static) :=
  match ls with
  | [] => Ret ([], st)
  | l :: ls' =>
      ' (p, st1) ← early_alloc st l;
      ' (ps, st2) ← early_allocs st1 ls';
      Ret (p :: ps, st2)
  end.

Definition boot_frames (regions : list MemoryRegion) (ls : list Layout)
  : outcome (list (option Z) * list (Z * Z) * early_static) :=
  st ← init_early_allocator regions;
  ' (ps, st) ← early_allocs st ls;
  ' (free, st) ← frame_init regions st;
  Ret (ps, free, st).

End init.

(** ** Lists of ranges *)

Definition apart (r s : range) : Prop := r_end r <= r_start s.
Definition covered (rs : list range) (x : Z) : Prop := exists r, r ∈ rs /\ in_range r x.
Definition within (lo hi : Z) (r : range) : Prop := lo <= r_start r /\ r_end r <= hi /\ r_start r < r_end r.
Definition page_bounds (r : range) : Prop := r_start r mod PAGE_SIZE = 0 /\ r_end r mod PAGE_SIZE = 0.

Lemma covered_bind {A} (f : A -> list range) (l : list A) x : covered (l ≫= f) x <-> exists a, a ∈ l /\ covered (f a) x.
Proof. unfold covered. setoid_rewrite list_elem_of_bind. naive_solver. Qed.

Lemma range_difference_ok a b :
  (forall x, covered (range_difference a b) x <-> in_range a x /\ ~ in_range b x) /\
  Forall (within (r_start a) (r_end a)) (range_difference a b) /\ StronglySorted apart (range_difference a b).
Proof.
  unfold range_difference, covered, in_range. set (r := if range_is_empty b then _ else _). split_and!.
  - intros x. setoid_rewrite list_elem_of_filter. subst r. unfold range_is_empty. split.
    + intros (v & (Hne & Hv) & Hx). destruct (Z.ltb_spec (r_start b) (r_end b)); cbn in Hv;
        apply elem_of_cons in Hv as [->|[->|[]%not_elem_of_nil]%elem_of_cons]; cbn in *; lia.
    + intros [Ha Hb]. destruct (Z.ltb_spec (r_start b) (r_end b)); cbn.
      * destruct (Z.lt_ge_cases x (r_start b)); [exists (mk_range (r_start a) (Z.min (r_end a) (r_start b)))|exists (mk_range (Z.max (r_start a) (r_end b)) (r_end a))];
          (split; [split; [|set_solver]|]; cbn; [apply negb_false_iff, Z.ltb_lt|]; lia).
      * exists a. split; [split; [apply negb_false_iff, Z.ltb_lt; lia|set_solver]|done].
  - apply Forall_forall. intros v [Hne Hv]%list_elem_of_filter. subst r. unfold range_is_empty, within in *.
    destruct (Z.ltb_spec (r_start b) (r_end b)); cbn in Hv;
      apply elem_of_cons in Hv as [->|[->|[]%not_elem_of_nil]%elem_of_cons]; cbn in *; zify_bools; lia.
  - subst r. unfold range_is_empty. destruct (Z.ltb_spec (r_start b) (r_end b)) as [Hlt|Hge]; cbn [negb].
    all: rewrite !filter_cons, filter_nil; repeat case_decide; repeat constructor; unfold apart; cbn in *; zify_bools; lia.
Qed.

Lemma range_difference_page a b : page_bounds a -> page_bounds b -> Forall page_bounds (range_difference a b).
Proof.
  intros [? ?] [? ?]. apply Forall_forall. intros v [_ Hv]%list_elem_of_filter.
  destruct (range_is_empty b); apply elem_of_cons in Hv as [->|[->|[]%not_elem_of_nil]%elem_of_cons]; try done.
  - split; cbn; [done|]. by destruct (Z.min_spec (r_end a) (r_start b)) as [[_ ->]|[_ ->]].
  - split; cbn; [|done]. by destruct (Z.max_spec (r_start a) (r_end b)) as [[_ ->]|[_ ->]].
Qed.

(** ** The allocator on a normalised memory map *)

Section map.
Context (rs : list MemoryRegion) (hi : Z).

Record memory_map_ok : Prop := {
  map_page : Forall page_region rs;
  map_sorted : StronglySorted (fun r s => r_hi r <= base s) rs;
  map_below : forall r, r ∈ rs -> r_hi r <= hi;
  map_bound : 0 <= hi < 2 ^ 64 }.

Definition usable_at (x : Z) : Prop := exists r, r ∈ rs /\ typ r = Usable /\ covers r x.

(** One of the two areas of the allocator, used up to [tail]. *)
Record area_ok (rg : range) (tail : Z) : Prop := {
  area_start : 0 <= r_start rg <= tail;
  area_end : tail <= r_end rg <= hi;
  area_page : page_bounds rg;
  area_tail : tail mod PAGE_SIZE = 0;
  area_usable : forall x, in_range rg x -> usable_at x }.

(** The two areas are on different sides of 4 GiB. *)
Record early_ok (al : EarlyFrameAllocator) : Prop := {
  early_under : area_ok (under_4g_range al) (under_4g_end al);
  early_max : area_ok (max_range al) (max_end al);
  early_low : r_end (under_4g_range al) <= PADDR4G;
  early_high : r_start (max_range al) = r_end (max_range al) \/ PADDR4G <= r_start (max_range al) }.

(** *** Choosing the areas *)

(** The part of a region below 4 GiB, and the part above. *)
Definition low_part (r : MemoryRegion) : range := mk_range (base r) (Z.min (r_hi r) PADDR4G).
Definition high_part (r : MemoryRegion) : range := mk_range (Z.max (base r) PADDR4G) (r_hi r).

(** The choice among the regions [l]. *)
Record choice_ok (l : list MemoryRegion) (acc : range * range) : Prop := {
  choice_early : early_ok (mk_early acc.1 (r_start acc.1) acc.2 (r_start acc.2));
  choice_largest : forall r, r ∈ l -> typ r = Usable ->
    range_len (low_part r) <= range_len acc.1 /\ range_len (high_part r) <= range_len acc.2 }.

Context (Hmap : memory_map_ok).

Lemma area_part r rg : r ∈ rs -> typ r = Usable -> base r <= r_start rg < r_end rg -> r_end rg <= r_hi r -> page_bounds rg ->
  area_ok rg (r_start rg).
Proof.
  intros Hr Ht Hs He Hp. pose proof (map_below Hmap r Hr). pose proof (map_page Hmap) as Hf. rewrite Forall_forall in Hf.
  destruct (Hf r Hr) as ((? & ? & ?) & _). split; try done; [lia..|apply Hp|].
  intros x [? ?]. exists r. split_and!; try done; unfold covers; lia.
Qed.

Lemma parts_page r : r ∈ rs -> page_bounds (low_part r) /\ page_bounds (high_part r) /\ r_hi r mod PAGE_SIZE = 0.
Proof.
  intros Hr. pose proof (map_page Hmap) as Hf. rewrite Forall_forall in Hf. destruct (Hf r Hr) as (_ & _ & Hb & Hl).
  assert (Hh : r_hi r mod PAGE_SIZE = 0) by (by apply mod0_add). split_and!; [split; cbn|split; cbn|]; try done.
  - by destruct (Z.min_spec (r_hi r) PADDR4G) as [[_ ->]|[_ ->]].
  - by destruct (Z.max_spec (base r) PADDR4G) as [[_ ->]|[_ ->]].
Qed.

Lemma early_consider_ok l acc r : r ∈ rs -> choice_ok l acc ->
  exists acc', early_consider acc r = Ret acc' /\ choice_ok (l ++ [r]) acc'.
Proof.
  intros Hr [[Hu Hm Hlo Hhi] Hla]. destruct acc as [u m]. cbn [fst snd under_4g_range under_4g_end max_range max_end] in *.
  unfold early_consider. destruct (decide (typ r <> Usable)) as [Hn|Ht%dec_stable].
  { exists (u, m). split; [done|]. split; [by split|]. intros r' [Hr'| ->%list_elem_of_singleton]%elem_of_app Ht; [by apply Hla|done]. }
  pose proof (map_page Hmap) as Hf. rewrite Forall_forall in Hf. destruct (Hf r Hr) as (Hwf & Hlen & _).
  destruct (parts_page r Hr) as (Hpl & Hph & _). rewrite (end_Ret r Hwf). cbn [mbind outcome_bind].
  set (u' := if range_len u <? range_len (low_part r) then low_part r else u).
  set (m' := if range_len m <? range_len (high_part r) then high_part r else m).
  assert (Hu' : area_ok u' (r_start u') /\ r_end u' <= PADDR4G /\ range_len u <= range_len u' /\ range_len (low_part r) <= range_len u').
  { subst u'. destruct (Z.ltb_spec (range_len u) (range_len (low_part r))) as [Hlt|]; [|split_and!; done || lia].
    unfold range_len, low_part in *. cbn [r_start r_end] in *. split_and!; [|lia..]. apply (area_part r); try done; cbn; lia. }
  assert (Hm' : area_ok m' (r_start m') /\ (r_start m' = r_end m' \/ PADDR4G <= r_start m') /\
    range_len m <= range_len m' /\ range_len (high_part r) <= range_len m').
  { subst m'. destruct (Z.ltb_spec (range_len m) (range_len (high_part r))) as [Hlt|]; [|split_and!; done || lia].
    unfold range_len, high_part in *. cbn [r_start r_end] in *. split_and!; [|lia..]. apply (area_part r); try done; cbn; lia. }
  exists (u', m'). destruct Hu' as (? & ? & ? & ?), Hm' as (? & ? & ? & ?). split.
  - assert ((if base r <? PADDR4G then Ret (if range_len u <? range_len (low_part r) then low_part r else u) else Ret u) = Ret u') as Heq.
    { subst u'. destruct (Z.ltb_spec (base r) PADDR4G); [done|].
      destruct (Z.ltb_spec (range_len u) (range_len (low_part r))) as [Hlt|]; [|done].
      unfold range_len, low_part in Hlt. cbn in Hlt. lia. }
    unfold low_part in Heq at 1 2. rewrite Heq. cbn [mbind outcome_bind]. fold (high_part r). subst m'.
    destruct (Z.leb_spec PADDR4G (r_hi r)); [done|].
    destruct (Z.ltb_spec (range_len m) (range_len (high_part r))) as [Hlt|]; [|done].
    unfold range_len, high_part in Hlt. cbn in Hlt. lia.
  - split; [by split|]. cbn [fst snd]. intros r' [Hr'| ->%list_elem_of_singleton]%elem_of_app Ht'; [|done].
    destruct (Hla r' Hr' Ht'). lia.
Qed.

Lemma consider_all l done_ acc : (forall r, r ∈ l -> r ∈ rs) -> choice_ok done_ acc ->
  exists acc', foldl (fun acc region => a ← acc; early_consider a region) (Ret acc) l = Ret acc' /\ choice_ok (done_ ++ l) acc'.
Proof.
  revert done_ acc. induction l as [|r l IH]; intros done_ acc Hl Hc; cbn [foldl].
  { exists acc. by rewrite app_nil_r. }
  destruct (early_consider_ok done_ acc r) as (acc1 & Heq & Hc1); [apply Hl; left|done|]. cbn [mbind outcome_bind]. rewrite Heq.
  destruct (IH (done_ ++ [r]) acc1) as (acc' & ? & Hc'); [intros; apply Hl; by right|done|].
  exists acc'. split; [done|]. by rewrite <- app_assoc in Hc'.
Qed.

Lemma early_new_ok : exists al, early_new rs = Ret al /\ early_ok al /\
  (forall r, r ∈ rs -> typ r = Usable ->
     range_len (low_part r) <= range_len (under_4g_range al) /\ range_len (high_part r) <= range_len (max_range al)).
Proof.
  unfold early_new. pose proof (map_bound Hmap).
  assert (Hz : area_ok (mk_range 0 0) 0) by (split; cbn; try done || lia; unfold in_range; cbn; lia).
  destruct (consider_all rs [] (mk_range 0 0, mk_range 0 0)) as ([u m] & Heq & Hc); [done| |].
  { split; [|by intros r ?%not_elem_of_nil]. by split; cbn; [..|left]. }
  step Heq. destruct Hc as [He Hla]. eexists. split; [done|]. split; [done|]. apply Hla.
Qed.

(** *** Allocating *)

(** What [Layout] promises, and room for the alignment above the memory. *)
Definition layout_ok (l : Layout) : Prop :=
  (exists e, 0 <= e /\ layout_align l = 2 ^ e) /\ 0 <= layout_size l < 2 ^ 63 /\ hi + Z.max (layout_align l) PAGE_SIZE < 2 ^ 64.

Definition alloc_size (l : Layout) : Z := nat_align_up (layout_size l) PAGE_SIZE.
Definition alloc_align (l : Layout) : Z := Z.max (layout_align l) PAGE_SIZE.
Definition block (l : Layout) (p : Z) : range := mk_range p (p + alloc_size l).

Lemma alloc_align_valid l : layout_ok l -> valid_align (alloc_align l) /\ alloc_align l mod PAGE_SIZE = 0.
Proof.
  intros [(e & He & Ha) _]. unfold alloc_align. change PAGE_SIZE with (2 ^ 12). rewrite Ha.
  destruct (Z.le_gt_cases e 12) as [Hle|Hgt].
  - rewrite Z.max_r by (apply Z.pow_le_mono_r; lia). split; [by exists 12|done].
  - rewrite Z.max_l by (apply Z.pow_le_mono_r; lia). split; [exists e; lia|].
    replace e with (12 + (e - 12)) by lia. rewrite Z.pow_add_r, Z.mul_comm by lia. by apply Z.mod_mul.
Qed.

Lemma try_bump_ok rg tail l : area_ok rg tail -> layout_ok l ->
  exists r tail', try_bump tail (r_end rg) (alloc_size l) (alloc_align l) = Ret (r, tail') /\ area_ok rg tail' /\
    match r with
    | Some p => tail <= p /\ p mod alloc_align l = 0 /\ p mod PAGE_SIZE = 0 /\ tail' = p + alloc_size l
    | None => tail' = tail /\ r_end rg < nat_align_up tail (alloc_align l) + alloc_size l
    end.
Proof.
  intros Har Hlo. destruct (alloc_align_valid l Hlo) as [Hv Hd]. pose proof (valid_align_pos _ Hv) as Hpos.
  pose proof (map_bound Hmap). destruct Har as [Hs He Hp Ht Hus]. destruct Hlo as (_ & Hsz & Hroom). fold (alloc_align l) in Hroom.
  destruct (nat_align_up_spec (layout_size l) PAGE_SIZE) as [Hsz1 Hszm]; [done|]. fold (alloc_size l) in Hsz1, Hszm.
  destruct (nat_align_up_spec tail (alloc_align l)) as [Hup Hupm]; [lia|]. set (p := nat_align_up tail (alloc_align l)) in *.
  assert (Hpp : p mod PAGE_SIZE = 0).
  { apply Z.mod_divide in Hupm; [|lia]. apply Z.mod_divide in Hd; [|done]. apply Z.mod_divide; [done|]. by transitivity (alloc_align l). }
  assert (Hau : align_up 64 tail (alloc_align l) = Ret p) by (apply align_up_Ret; [lia|split; lia..|split_and!; [done|lia|done]]).
  unfold try_bump. step Hau. unfold checked_add.
  destruct (Z.ltb_spec (p + alloc_size l) (2 ^ 64)) as [Hlt|Hge]; [destruct (Z.leb_spec (p + alloc_size l) (r_end rg))|]; eexists _, _; (split; [reflexivity|]).
  - split; [split; try done; [lia..|by apply mod0_add]|done || lia].
  - split; [by split|]. split; [done|lia].
  - split; [by split|]. split; [done|lia].
Qed.

(** The blocks that are allocated between two states of the allocator. *)
Definition fresh (al al' : EarlyFrameAllocator) (b : range) : Prop :=
  (under_4g_end al <= r_start b /\ r_end b <= under_4g_end al') \/ (max_end al <= r_start b /\ r_end b <= max_end al').

Record grows (al al' : EarlyFrameAllocator) : Prop := {
  grows_under : under_4g_range al' = under_4g_range al; grows_max : max_range al' = max_range al;
  grows_under_end : under_4g_end al <= under_4g_end al'; grows_max_end : max_end al <= max_end al' }.

Global Instance grows_preorder : PreOrder grows.
Proof. split; [by intros al; split|]. intros a b c [? ? ? ?] [? ? ? ?]. split; congruence || lia. Qed.

Lemma early_frame_alloc_ok al l : early_ok al -> layout_ok l ->
  exists r al', early_frame_alloc al l = Ret (r, al') /\ early_ok al' /\ grows al al' /\
    match r with
    | Some p => p mod layout_align l = 0 /\ p mod PAGE_SIZE = 0 /\ fresh al al' (block l p)
    | None => al' = al /\
        r_end (under_4g_range al) < nat_align_up (under_4g_end al) (alloc_align l) + alloc_size l /\
        r_end (max_range al) < nat_align_up (max_end al) (alloc_align l) + alloc_size l
    end.
Proof.
  intros [Hu Hm Hlo Hhi] Hl. pose proof Hl as ((e & He & Ha) & Hsz & _). unfold early_frame_alloc.
  assert (Hsize : align_up 64 (layout_size l) PAGE_SIZE = Ret (alloc_size l)).
  { apply align_up_Ret; [lia|split; lia|by split|]. split_and!; [by exists 12|unfold PAGE_SIZE; lia|done]. }
  assert (Hmod : forall p, p mod alloc_align l = 0 -> p mod layout_align l = 0).
  { intros p Hp. destruct (alloc_align_valid l Hl) as [Hv _]. pose proof (valid_align_pos _ Hv). apply Z.mod_divide in Hp; [|lia].
    pose proof (Z.pow_pos_nonneg 2 e). apply Z.mod_divide; [lia|]. transitivity (alloc_align l); [|done]. unfold alloc_align. rewrite Ha.
    destruct (Z.max_spec (2 ^ e) PAGE_SIZE) as [[Hlt ->]|[_ ->]]; [|done]. change PAGE_SIZE with (2 ^ 12) in *.
    apply Z.pow_lt_mono_r_iff in Hlt; [|lia..]. exists (2 ^ (12 - e)). rewrite <- Z.pow_add_r by lia. f_equal. lia. }
  destruct (nat_align_up_spec (layout_size l) PAGE_SIZE) as [Hsz1 _]; [done|]. fold (alloc_size l) in Hsz1.
  step Hsize. fold (alloc_align l). destruct (try_bump_ok _ _ l Hu Hl) as ([p|] & t & Heq & Hu' & Hr); step Heq.
  { destruct Hr as (? & ? & ? & ->). eexists _, _. split; [reflexivity|]. split_and!; [by split|split; cbn; done || lia|by apply Hmod|done|].
    left. cbn. lia. }
  destruct Hr as [-> Hnu]. destruct (try_bump_ok _ _ l Hm Hl) as ([p|] & t & Heq2 & Hm' & Hr); step Heq2; eexists _, _; (split; [reflexivity|]).
  - destruct Hr as (? & ? & ? & ->). split_and!; [by split|split; cbn; done || lia|by apply Hmod|done|]. right. cbn. lia.
  - destruct Hr as [-> Hnm]. split_and!; [by split|split; cbn; done || lia|by destruct al|done..].
Qed.

(** The blocks of a sequence of requests. *)
Fixpoint blocks (ls : list Layout) (ps : list (option Z)) : list range :=
  match ls, ps with
  | l :: ls', Some p :: ps' => block l p :: blocks ls' ps'
  | _ :: ls', None :: ps' => blocks ls' ps'
  | _, _ => []
  end.

Definition disjoint_range (b c : range) : Prop := forall x, in_range b x -> ~ in_range c x.

Definition served (l : Layout) (p : option Z) : Prop :=
  match p with Some p => p mod layout_align l = 0 /\ p mod PAGE_SIZE = 0 | None => True end.

Lemma fresh_disjoint al1 al2 al3 b c : early_ok al1 -> early_ok al2 -> early_ok al3 -> grows al1 al2 -> grows al2 al3 -> fresh al1 al2 b -> fresh al2 al3 c ->
  disjoint_range b c.
Proof.
  intros [[] [] ? ?] [[] [] ? ?] [[] [] ? ?] [Hu1 Hm1 ? ?] [Hu Hm ? ?] Hb Hc x Hxb Hxc.
  pose proof (f_equal r_end Hu). pose proof (f_equal r_end Hm). pose proof (f_equal r_end Hm1).
  unfold fresh, in_range in *. lia.
Qed.

Lemma fresh_mono al1 al2 al3 al4 b : grows al1 al2 -> grows al3 al4 -> fresh al2 al3 b -> fresh al1 al4 b.
Proof. intros [_ _ ? ?] [_ _ ? ?]. unfold fresh. lia. Qed.

Lemma early_allocs_ok ls al : early_ok al -> Forall layout_ok ls ->
  exists ps al', early_allocs (Some al) ls = Ret (ps, Some al') /\ early_ok al' /\ grows al al' /\ Forall2 served ls ps /\
    Forall (fresh al al') (blocks ls ps) /\ List.ForallOrdPairs disjoint_range (blocks ls ps).
Proof.
  intros Hal Hls. revert al Hal. induction Hls as [|l ls Hl _ IH]; intros al Hal; cbn [early_allocs].
  { exists [], al. split_and!; done || constructor. }
  unfold early_alloc. cbn [unwrap mbind outcome_bind].
  destruct (early_frame_alloc_ok al l Hal Hl) as (r & al1 & Heq & Hal1 & Hg1 & Hr). step Heq.
  destruct (IH al1 Hal1) as (ps & al2 & Heq2 & Hal2 & Hg2 & Hsv & Hfr & Hdi). step Heq2.
  exists (r :: ps), al2. split_and!; [done|done|by transitivity al1| | |].
  - constructor; [|done]. destruct r as [p|]; [|done]. by destruct Hr as (? & ? & _).
  - assert (Hrest : Forall (fresh al al2) (blocks ls ps)) by (eapply Forall_impl; [done|]; cbn; intros b; by apply fresh_mono).
    destruct r as [p|]; cbn [blocks]; [|done]. constructor; [|done]. destruct Hr as (_ & _ & Hf). by apply (fresh_mono al al al1 al2).
  - destruct r as [p|]; cbn [blocks]; [|done]. constructor; [|done]. destruct Hr as (_ & _ & Hf). eapply Forall_impl; [done|]. cbn.
    intros b. by apply (fresh_disjoint al al1 al2).
Qed.

(** *** Retiring the allocator *)

Definition pieces (used : range * range) (region : MemoryRegion) : list range :=
  if decide (typ region = Usable)
  then range_difference (mk_range (base region) (r_hi region)) used.1 ≫= fun r1 => range_difference r1 used.2 else [].

Lemma pieces_ok used r : r ∈ rs -> page_bounds used.1 -> page_bounds used.2 ->
  (forall x, covered (pieces used r) x <-> (typ r = Usable /\ covers r x) /\ ~ in_range used.1 x /\ ~ in_range used.2 x) /\
  StronglySorted apart (pieces used r) /\ Forall (within (base r) (r_hi r)) (pieces used r) /\ Forall page_bounds (pieces used r).
Proof.
  intros Hr H1 H2. unfold pieces. destruct (decide (typ r = Usable)) as [Ht|Hn].
  2: { split_and!; try constructor; [by intros (? & []%not_elem_of_nil & _)|by intros [[? _] _]]. }
  pose proof (map_page Hmap) as Hf. rewrite Forall_forall in Hf. destruct (Hf r Hr) as (_ & _ & Hb & _). destruct (parts_page r Hr) as (_ & _ & Hh).
  set (w := mk_range (base r) (r_hi r)). destruct (range_difference_ok w used.1) as (Hc1 & Hw1 & Hs1).
  pose proof (range_difference_page w used.1 (conj Hb Hh) H1) as Hp1. rewrite Forall_forall in Hw1, Hp1. split_and!.
  - intros x. rewrite covered_bind. setoid_rewrite (fun a => proj1 (range_difference_ok a used.2) x).
    specialize (Hc1 x). change (in_range w x) with (covers r x) in Hc1. split.
    + intros (a & Ha & Hx & Hn). destruct (proj1 Hc1) as [? ?]; [by exists a|done].
    + intros ([_ Hx] & Hn1 & Hn2). destruct (proj2 Hc1) as (a & Ha & Hxa); [done|by exists a].
  - apply (sorted_bind r_start r_end r_start r_end); [done|]. intros a _. destruct (range_difference_ok a used.2) as (_ & Hw & ?).
    split; [done|]. eapply Forall_impl; [done|]. by intros b (? & ? & _).
  - apply Forall_forall. intros p (a & Hp & Ha)%list_elem_of_bind. destruct (range_difference_ok a used.2) as (_ & Hw2 & _).
    rewrite Forall_forall in Hw2. specialize (Hw2 _ Hp). specialize (Hw1 _ Ha). unfold within in *. subst w. cbn in *. lia.
  - apply Forall_forall. intros p (a & Hp & Ha)%list_elem_of_bind. pose proof (range_difference_page a used.2 (Hp1 _ Ha) H2) as Hp2.
    rewrite Forall_forall in Hp2. by apply Hp2.
Qed.

Lemma frame_init_ok debug al : early_ok al ->
  exists free, frame_init debug rs (Some al) = Ret ((fun r => (r_start r, range_len r)) <$> free, None) /\
    (forall x, covered free x <-> usable_at x /\ ~ in_range (allocated_regions al).1 x /\ ~ in_range (allocated_regions al).2 x) /\
    StronglySorted apart free /\ Forall (fun r => r_start r < r_end r /\ page_bounds r) free.
Proof.
  intros [[? ? Hpu ? ?] [? ? Hpm ? ?] _ _]. set (used := allocated_regions al).
  assert (H1 : page_bounds used.1) by (split; [apply Hpu|done]). assert (H2 : page_bounds used.2) by (split; [apply Hpm|done]).
  exists (rs ≫= pieces used). split_and!.
  - unfold frame_init. cbn [unwrap mbind outcome_bind]. fold used. rewrite (mapM_Ret _ (pieces used)).
    + cbn [mbind outcome_bind]. do 3 f_equal. clear. induction rs as [|r l IH]; [done|]. cbn. by rewrite IH.
    + intros r Hr. pose proof (map_page Hmap) as Hf. rewrite Forall_forall in Hf. destruct (Hf r Hr) as (Hwf & _ & Hb & Hl).
      unfold free_of_region, pieces. destruct (decide _); [|done]. rewrite Hb, Hl, (end_Ret r Hwf). by destruct debug.
  - intros x. rewrite covered_bind. unfold usable_at. split.
    + intros (r & Hr & Hx). apply (pieces_ok used r Hr H1 H2) in Hx as [Hu Hn]. split; [by exists r|done].
    + intros [(r & Hr & Hx) Hn]. exists r. split; [done|]. by apply (pieces_ok used r Hr H1 H2).
  - apply (sorted_bind base r_hi r_start r_end); [apply (map_sorted Hmap)|]. intros r Hr. destruct (pieces_ok used r Hr H1 H2) as (_ & ? & Hw & _).
    split; [done|]. eapply Forall_impl; [done|]. by intros b (? & ? & _).
  - apply Forall_forall. intros p (r & Hp & Hr)%list_elem_of_bind. destruct (pieces_ok used r Hr H1 H2) as (_ & _ & Hw & Hpg).
    rewrite Forall_forall in Hw. rewrite Forall_forall in Hpg. destruct (Hw _ Hp). split; [lia|by apply Hpg].
Qed.

End map.

(** ** From the firmware's map to the frame allocator *)

Lemma chain_sorted a l b : chain a l b -> StronglySorted (fun r s => r_hi r <= base s) l.
Proof.
  revert a. induction l as [|r l IH]; intros a; [constructor|]. intros (_ & _ & Hc). constructor; [by eapply IH|].
  apply Forall_forall. intros s Hs. by apply (chain_mono _ _ _ Hc).
Qed.

Lemma normalised_memory_map self res : normalizable self -> into_non_overlapping self = Ret res ->
  memory_map_ok (deref res) (top (aligned_regions (deref self))).
Proof.
  intros Hn Hres. destruct (into_non_overlapping_ok self Hn) as (res' & Hres' & _ & _ & Hch & Hsel & _).
  rewrite Hres in Hres'. injection Hres' as <-. destruct Hn as (_ & Hwf & _). pose proof (top_bounds _ (aligned_regions_page _ Hwf)) as Ht.
  destruct (chain_mono _ _ _ Hch) as [_ Hin]. split; [|by eapply chain_sorted|by intros r Hr; apply Hin|done].
  rewrite Forall_forall in Hsel. apply Forall_forall. intros r Hr. destruct (Hsel r Hr) as (Hb & Hl & _). destruct (Hin r Hr) as [H0 Htop].
  assert (0 < len r).
  { clear -Hch Hr. revert Hch. generalize 0 at 1 as a. induction (deref res) as [|s l IH]; [by apply not_elem_of_nil in Hr|].
    intros a (_ & Hp & Hc). apply elem_of_cons in Hr as [->|Hr]; [done|by apply (IH Hr _ Hc)]. }
  split; [unfold wf_region; lia|done].
Qed.

(** A byte that the firmware reports as usable, in a page with nothing else. *)
Definition safe_byte (self : MemoryRegionArray) (x : Z) : Prop :=
  (exists s, s ∈ deref self /\ typ s = Usable /\ covers s x) /\
  (forall s b, s ∈ deref self -> covers s b -> b / PAGE_SIZE = x / PAGE_SIZE -> typ s = Usable).

(** C27: memory at boot is handed out once and only if the firmware calls it usable.  For any memory map of the firmware that can
    be normalised, and any sequence of early allocations, the boot stage returns, and the early allocator is retired.  Every block is
    aligned as asked and no two overlap; the ranges given to the global allocator are nonempty, page aligned, in ascending order and
    overlap neither each other nor a block; each byte of a block or of such a range is usable in the firmware's map and shares its
    page with no memory of another type.  Nothing usable is lost except what the early allocator went through: the ranges given are all
    of the usable memory outside of its two used areas. *)
Theorem boot_frames_correct debug self res ls :
  normalizable self -> into_non_overlapping self = Ret res -> Forall (layout_ok (top (aligned_regions (deref self)))) ls ->
  exists al0 ps al free, early_new (deref res) = Ret al0 /\ early_allocs (Some al0) ls = Ret (ps, Some al) /\
    boot_frames debug (deref res) ls = Ret (ps, (fun r => (r_start r, range_len r)) <$> free, None) /\
    Forall2 served ls ps /\ List.ForallOrdPairs disjoint_range (blocks ls ps) /\
    Forall (fun r => r_start r < r_end r /\ page_bounds r) free /\ StronglySorted apart free /\
    (forall x, covered free x -> ~ covered (blocks ls ps) x) /\
    (forall x, covered free x \/ covered (blocks ls ps) x -> safe_byte self x) /\
    (forall x, covered free x <-> usable_at (deref res) x /\ ~ in_range (allocated_regions al).1 x /\ ~ in_range (allocated_regions al).2 x).
Proof.
  intros Hn Hres Hls. pose proof (normalised_memory_map self res Hn Hres) as Hm.
  destruct (early_new_ok _ _ Hm) as (al0 & Hnew & Hal0 & _). destruct (early_allocs_ok _ _ Hm ls al0 Hal0 Hls) as (ps & al & Hrun & Hal & Hg & Hsv & Hfr & Hdi).
  destruct (frame_init_ok _ _ Hm debug al Hal) as (free & Hinit & Hcov & Hso & Hpg). exists al0, ps, al, free.
  assert (Hblk : forall x, covered (blocks ls ps) x ->
    (in_range (allocated_regions al).1 x \/ in_range (allocated_regions al).2 x) /\ usable_at (deref res) x).
  { intros x (b & Hb & Hx). rewrite Forall_forall in Hfr. specialize (Hfr b Hb).
    destruct Hal0 as [[] [] _ _], Hal as [[? ? ? ? Hu] [? ? ? ? Hmx] _ _], Hg as [Hgu Hgm ? ?].
    pose proof (f_equal r_start Hgu). pose proof (f_equal r_start Hgm). unfold fresh, in_range in *. cbn in *.
    destruct Hfr as [[? ?]|[? ?]]; (split; [lia|]); [apply Hu|apply Hmx]; lia. }
  assert (Hsafe : forall x, usable_at (deref res) x -> safe_byte self x).
  { intros x (r & Hr & Ht & Hx). by apply (usable_is_safe self res r x). }
  split_and!; try done.
  - unfold boot_frames, init_early_allocator. rewrite Hnew. cbn [mbind outcome_bind]. step Hrun. by step Hinit.
  - intros x [_ Hx]%Hcov Hbx. apply Hblk in Hbx. tauto.
  - intros x [Hx|Hx]; apply Hsafe; [apply Hcov in Hx|apply Hblk in Hx]; tauto.
Qed.

Module EarlyExample.

(** The memory map of [sample_array], with three requests; the last one does not fit. *)
Definition requests : list Layout := [mk_layout 5000 16; mk_layout 4096 8192; mk_layout 1 1].

Lemma boot_frames_correct_witness :
  exists res, into_non_overlapping sample_array = Ret res /\
    boot_frames true (deref res) requests = Ret ([Some 16384; Some 24576; None], [(0, 4096); (8192, 4096)], None) /\
    exists ps free, boot_frames true (deref res) requests = Ret (ps, (fun r => (r_start r, range_len r)) <$> free, None) /\
      List.ForallOrdPairs disjoint_range (blocks requests ps) /\ forall x, covered free x -> safe_byte sample_array x.
Proof.
  eexists. split; [vm_compute; reflexivity|]. split; [vm_compute; reflexivity|].
  destruct (boot_frames_correct true sample_array (default (MemoryRegion.new 0) (match into_non_overlapping sample_array with Ret r => Some r | Panic => None end)) requests)
    as (_ & ps & _ & free & _ & _ & Heq & _ & Hdi & _ & _ & _ & Hs & _).
  - apply sample_array_normalizable.
  - vm_compute. reflexivity.
  - repeat apply Forall_cons_2; [split; [by exists 4|]|split; [by exists 13|]|split; [by exists 0|]|by apply Forall_nil_2];
      vm_compute; split_and!; done || congruence.
  - exists ps, free. split_and!; [exact Heq|exact Hdi|auto].
Defined.

End EarlyExample.
