(* ===== verification/IoPort.v ===== *)
(** * I/O ports ([ostd/src/io/io_port])

    Ports are handed out by [IoPortAllocator], an [IdAlloc] with one id per port; the ports of the
    system are marked as allocated at the start.  A port object of a type of [size] bytes has [size] ports
    from its number on, and gives them back when it is dropped.

    [acquire] looks for an allocated port with [any], which takes the elements out of the range
    that it looks at, so that the loop behind it, which should allocate the
    ports, has nothing left to do.  The theorem states what follows.  The spin lock around the allocator makes
    each call one transition. *)

From S2P Require Import Prelude IdAlloc.
Open Scope nat_scope.

Section io_port.
Context {B S : Type} `{BV : BitVec B S}.
Context (debug_assertions : bool).
Implicit Types (al : IdAlloc (B := B)) (port size lo n : nat).

(** [MAX_IO_PORT] of [ostd/src/arch/x86/io.rs]. *)
Definition MAX_IO_PORT : nat := Z.to_nat 65535.

(** Addition of [u16]. *)
Definition add_u16 (a b : nat) : outcome nat := if (Z.of_nat a + Z.of_nat b <? 2 ^ 16)%Z then Ret (a + b) else Panic.

(** [Iterator::any] on the range [lo..lo + n]: the result, and the start of what is left of the range. *)
Fixpoint range_any (f : nat -> outcome bool) lo n : outcome (bool * nat) :=
  match n with
  | O => Ret (false, lo)
  | Datatypes.S n' => b ← f lo; if (b : bool) then Ret (true, lo + 1) else range_any f (lo + 1) n'
  end.

(** [for i in lo..lo + n { allocator.alloc_specific(i) }]. *)
Fixpoint alloc_each al lo n : outcome (IdAlloc (B := B)) :=
  match n with
  | O => Ret al
  | Datatypes.S n' => ' (_, al') ← alloc_specific al lo; alloc_each al' (lo + 1) n'
  end.

(** [IoPortAllocator::acquire]; a port object is its number, and [size] stands for [size_of::<T>() as u16]. *)
Definition port_acquire al port size : outcome (option nat * IdAlloc (B := B)) :=
  stop ← add_u16 port size;
  ' (found, rest) ← range_any (is_allocated al) port (stop - port);
  if (found : bool) then Ret (None, al)
  else
    al' ← alloc_each al rest (stop - rest);
    Ret (Some port, al').

Definition port_recycle al (lo hi : nat) : outcome (IdAlloc (B := B)) := free_consecutive debug_assertions al lo hi.

(** [Drop] of a port object. *)
Definition port_drop al port size : outcome (IdAlloc (B := B)) := stop ← add_u16 port size; port_recycle al port stop.

(** [init]: the sensitive ranges of ports, as [(begin, end)]. *)
Fixpoint remove_sensitive al (ranges : list (nat * nat)) : outcome (IdAlloc (B := B)) :=
  match ranges with
  | [] => Ret al
  | (lo, hi) :: ranges' =>
      _ ← rassert (lo <? hi);
      al' ← alloc_each al lo (hi - lo);
      remove_sensitive al' ranges'
  end.

Definition port_init (ranges : list (nat * nat)) : outcome (IdAlloc (B := B)) :=
  al ← with_capacity MAX_IO_PORT;
  remove_sensitive al ranges.

(** ** What can be acquired *)

Context `{BL : !BitVecLaws B S}.

Lemma is_allocated_ok al cap A i : represents al cap A -> i < cap -> is_allocated al i = Ret (bool_decide (i ∈ A)).
Proof.
  intros (Hc & _ & HA) Hi. unfold is_allocated. rewrite bv_index_view. destruct (lookup_lt_is_Some_2 (bv_view (bitset al)) i) as [b Hb].
  { unfold capacity, view in Hc. lia. }
  rewrite Hb. f_equal. symmetry. destruct b; [apply bool_decide_true|apply bool_decide_false]; rewrite HA; unfold allocated, view; congruence.
Qed.

(** [any] takes all elements out of a range in which no port is allocated. *)
Lemma range_any_ok al cap A lo n : represents al cap A -> lo + n <= cap ->
  (forall i, lo <= i < lo + n -> i ∉ A) /\ range_any (is_allocated al) lo n = Ret (false, lo + n) \/
  (exists i, lo <= i < lo + n /\ i ∈ A) /\ exists rest, range_any (is_allocated al) lo n = Ret (true, rest).
Proof.
  intros Hr. revert lo. induction n as [|n IH]; intros lo Hb; cbn [range_any].
  { left. rewrite Nat.add_0_r. split; [lia|done]. }
  rewrite (is_allocated_ok al cap A lo Hr) by lia. cbn [mbind outcome_bind]. case_bool_decide as Hin.
  - right. split; [exists lo; split; [lia|done]|eauto].
  - destruct (IH (lo + 1) ltac:(lia)) as [[Hno Hr']|[(i & Hi & HiA) Hr']].
    + left. replace (lo + Datatypes.S n) with (lo + 1 + n) by lia. split; [|done]. intros i Hi. destruct (decide (i = lo)) as [->|]; [done|apply Hno; lia].
    + right. split; [exists i; split; [lia|done]|done].
Qed.

Lemma alloc_each_ok al cap A lo n : represents al cap A -> lo + n <= cap ->
  exists al', alloc_each al lo n = Ret al' /\ represents al' cap (range_set lo (lo + n) ∪ A).
Proof.
  revert al A lo. induction n as [|n IH]; intros al A lo Hr Hb; cbn [alloc_each].
  { exists al. split; [done|]. assert (range_set lo (lo + 0) ∪ A = A) as ->; [|done]. apply set_eq. intros i. rewrite elem_of_union, elem_of_range_set. set_solver by lia. }
  destruct (exec_refines debug_assertions al cap A (OpAllocSpecific lo) Hr) as (r & al1 & A1 & Hex & Hst & Hr1); [cbn; lia|].
  cbn [exec] in Hex. destruct (alloc_specific al lo) as [[o al1']|]; [|done]. cbn [mbind outcome_bind mret outcome_ret] in Hex |- *. injection Hex as _ ->.
  destruct (IH al1 A1 (lo + 1) Hr1 ltac:(lia)) as (al' & Heq & Hr'). exists al'. split; [done|].
  assert (A1 = {[lo]} ∪ A) as ->. { inversion Hst; subst; set_solver. }
  assert (range_set lo (lo + Datatypes.S n) ∪ A = range_set (lo + 1) (lo + 1 + n) ∪ ({[lo]} ∪ A)) as ->; [|done].
  apply set_eq. intros i. rewrite !elem_of_union, !elem_of_range_set, elem_of_singleton. split; [|intuition lia].
  intros [?|?]; [|by auto]. destruct (decide (i = lo)); [auto|left; lia].
Qed.

(** The ports of the sensitive ranges. *)
Definition sensitive (ranges : list (nat * nat)) (i : nat) : Prop := Exists (fun r => r.1 <= i < r.2) ranges.

Definition ranges_ok (ranges : list (nat * nat)) : Prop := Forall (fun r => r.1 < r.2 /\ r.2 <= MAX_IO_PORT) ranges.

Lemma remove_sensitive_ok al A ranges : represents al MAX_IO_PORT A -> ranges_ok ranges ->
  exists al' A', remove_sensitive al ranges = Ret al' /\ represents al' MAX_IO_PORT A' /\ forall i, i ∈ A' <-> i ∈ A \/ sensitive ranges i.
Proof.
  intros Hr Hok. revert al A Hr. induction Hok as [|[lo hi] ranges [Hlt Hhi] Hok IH]; intros al A Hr; cbn [remove_sensitive].
  { exists al, A. split_and!; [done..|]. intros i. unfold sensitive. rewrite Exists_nil. tauto. }
  cbn in Hlt, Hhi. rewrite (proj2 (Nat.ltb_lt lo hi) Hlt). cbn [rassert mbind outcome_bind].
  destruct (alloc_each_ok al _ A lo (hi - lo) Hr ltac:(lia)) as (al1 & -> & Hr1). cbn [mbind outcome_bind].
  destruct (IH al1 _ Hr1) as (al' & A' & -> & Hr' & HA'). exists al', A'. split_and!; [done..|].
  intros i. rewrite HA'. unfold sensitive. rewrite Exists_cons, elem_of_union, elem_of_range_set. cbn.
  replace (lo + (hi - lo)) with hi by lia. tauto.
Qed.

Lemma MAX_IO_PORT_val : Z.of_nat MAX_IO_PORT = 65535%Z.
Proof. unfold MAX_IO_PORT. lia. Qed.

Lemma port_init_ok ranges : ranges_ok ranges ->
  exists al A, port_init ranges = Ret al /\ represents al MAX_IO_PORT A /\ forall i, i ∈ A <-> sensitive ranges i.
Proof.
  intros Hok. unfold port_init. pose proof MAX_IO_PORT_val as H.
  destruct (with_capacity_represents MAX_IO_PORT) as (al0 & -> & Hr0); [rewrite H; by vm_compute|]. cbn [mbind outcome_bind].
  destruct (remove_sensitive_ok al0 ∅ ranges Hr0 Hok) as (al & A & -> & Hr & HA). exists al, A. split_and!; [done..|].
  intros i. rewrite HA, elem_of_empty. tauto.
Qed.

Lemma add_u16_ok a b : a + b <= MAX_IO_PORT -> add_u16 a b = Ret (a + b).
Proof. intros H. pose proof MAX_IO_PORT_val. unfold add_u16. destruct (Z.ltb_spec (Z.of_nat a + Z.of_nat b) (2 ^ 16)); [done|lia]. Qed.

Lemma add_u16_overflow a b : MAX_IO_PORT < a + b -> add_u16 a b = Panic.
Proof. intros H. pose proof MAX_IO_PORT_val. unfold add_u16. destruct (Z.ltb_spec (Z.of_nat a + Z.of_nat b) (2 ^ 16)); [lia|done]. Qed.

Lemma port_acquire_spec al A port size : represents al MAX_IO_PORT A -> port + size <= MAX_IO_PORT ->
  (exists i, port <= i < port + size /\ i ∈ A) /\ port_acquire al port size = Ret (None, al) \/
  (forall i, port <= i < port + size -> i ∉ A) /\ port_acquire al port size = Ret (Some port, al).
Proof.
  intros Hr Hb. unfold port_acquire. rewrite add_u16_ok by done. cbn [mbind outcome_bind].
  replace (port + size - port) with size by lia.
  destruct (range_any_ok al _ A port size Hr Hb) as [[Hno ->]|[Hin (rest & ->)]]; cbn [mbind outcome_bind]; [right|left; done].
  rewrite Nat.sub_diag. done.
Qed.

(** Giving back ports that are not allocated panics when debug assertions are on. *)
Lemma port_drop_panics al A port size : debug_assertions = true -> represents al MAX_IO_PORT A -> port + size <= MAX_IO_PORT ->
  0 < size -> port ∉ A -> port_drop al port size = Panic.
Proof.
  intros Hd Hr Hb Hs Hn. unfold port_drop, port_recycle. rewrite add_u16_ok by done. cbn [mbind outcome_bind].
  pose proof (exec_rejects debug_assertions al _ A (OpFreeConsecutive port (port + size)) Hd Hr) as H. cbn in H.
  destruct (free_consecutive debug_assertions al port (port + size)); [|done]. discriminate H.
  intros Hall. apply Hn, Hall. lia.
Qed.

(** C30: after [init], a range of ports is refused exactly when it meets a sensitive range, and
    no driver ever gets a sensitive port; a range that would end behind the last
    port makes [acquire] panic.  The ports that are granted are not recorded: the allocator does not
    change, so that the same ports are granted again while the first owner holds
    them, and the drop of the port object panics in a build with debug assertions. *)
Theorem port_acquire_correct ranges : ranges_ok ranges ->
  exists al, port_init ranges = Ret al /\ forall port size,
    (MAX_IO_PORT < port + size -> port_acquire al port size = Panic) /\
    (port + size <= MAX_IO_PORT ->
     (exists i, port <= i < port + size /\ sensitive ranges i) /\ port_acquire al port size = Ret (None, al) \/
     (forall i, port <= i < port + size -> ~ sensitive ranges i) /\ port_acquire al port size = Ret (Some port, al) /\
       (debug_assertions = true -> 0 < size -> port_drop al port size = Panic)).
Proof.
  intros Hok. destruct (port_init_ok ranges Hok) as (al & A & Hinit & Hr & HA). exists al. split; [done|]. intros port size. split.
  { intros H. unfold port_acquire. by rewrite add_u16_overflow. }
  intros Hb. destruct (port_acquire_spec al A port size Hr Hb) as [[(i & Hi & HiA) ?]|[Hno ?]].
  - left. split; [exists i; by rewrite <- HA|done].
  - right. split_and!; [intros i Hi; rewrite <- HA; auto|done|].
    intros Hd Hs. apply (port_drop_panics al A); auto. apply Hno. lia.
Qed.

End io_port.

(** ** An instance: the ports of the first serial line and of the keyboard controller are sensitive *)
Module PortExample.

Definition ranges : list (nat * nat) := [(96, 100); (1016, 1024)].

Lemma port_acquire_correct_witness : exists al : IdAlloc (B := list_bv), port_init ranges = Ret al /\
  port_acquire al 98 4 = Ret (None, al) /\ port_acquire al 200 2 = Ret (Some 200, al) /\ port_drop true al 200 2 = Panic.
Proof.
  destruct (port_acquire_correct (B := list_bv) true ranges) as (al & Hinit & H).
  { unfold ranges_ok, ranges. rewrite !Forall_cons, Forall_nil. pose proof MAX_IO_PORT_val. unfold fst, snd. lia. }
  exists al. split; [exact Hinit|]. split.
  - destruct (proj2 (H 98 4)) as [[_ Ha]|[Hn _]]; [pose proof MAX_IO_PORT_val; lia|exact Ha|].
    destruct (Hn 98); [lia|]. unfold sensitive, ranges. rewrite Exists_cons. left. unfold fst, snd. lia.
  - destruct (proj2 (H 200 2)) as [[(i & Hi & Hs) _]|(_ & Ha & Hd)]; [pose proof MAX_IO_PORT_val; lia| |auto].
    exfalso. unfold sensitive, ranges in Hs. rewrite !Exists_cons, Exists_nil in Hs. cbn in Hs. lia.
Defined.

End PortExample.
