(* ===== verification/DynCpuLocal.v ===== *)
(** * [ostd/src/cpu/local/dyn_cpu_local.rs]: CPU-local objects that are allocated at run time

    A chunk is a segment with one page for each CPU, cut into items of [ITEM_SIZE] bytes; a bitmap
    tells which items are in use.  An object is one item: its address is
    the address on the first CPU, and the CPU [c] has its own value [c] pages behind.

    Memory maps the address of an object to its value, or to nothing where there
    is no initialised object.  The chunk refines a finite map from the items in use to the values of
    the CPUs.  The bitmap is the interface of the crate [bitvec]; the segment is allocated by a
    function that the kernel injects, and is a parameter. *)

From S2P Require Import Prelude IdAlloc MemoryRegion.
Open Scope Z_scope.

(** The operations of [bitvec] that the id allocator does not use: [bitvec![0; n]],
    [first_zero], [all] and [not_any]. *)
Class BitMap (B S : Type) `{BitVec B S} := {
  bv_zeros : nat -> outcome B;
  bv_first_zero : B -> option nat;
  bv_all : B -> bool;
  bv_not_any : B -> bool;
}.

Class BitMapLaws B S `{BitMap B S} : Prop := {
  bv_zeros_ok n : Z.of_nat n <= MAX_BITS -> exists b, bv_zeros n = Ret b /\ bv_view b = replicate n false;
  bv_first_zero_view b : bv_first_zero b =
    if (first_zero_index (bv_view b) <? length (bv_view b))%nat then Some (first_zero_index (bv_view b)) else None;
  bv_all_view b : bv_all b = forallb id (bv_view b);
  bv_not_any_view b : bv_not_any b = forallb negb (bv_view b);
}.

Definition checked_sub (a b : Z) : option Z := if b <=? a then Some (a - b) else None.

Definition CHUNK_SIZE : Z := PAGE_SIZE.

Section chunk.
Context {B S : Type} `{BM : BitMap B S}.
Context {V F : Type}.
Context (debug_assertions : bool).
(** The parameter of the type, and [num_cpus]. *)
Context (ITEM_SIZE : Z) (num_cpus : nat).

Record DynCpuLocalChunk := mk_chunk { segment : Z; bitmap : B }.
Implicit Types (self : DynCpuLocalChunk) (mem : gmap Z V).

(** [alloc_segment] is [FrameAllocOptions::alloc_segment_with]: the first address of so many frames. *)
Definition chunk_new (alloc_segment : Z -> option Z) : outcome (option DynCpuLocalChunk) :=
  total_chunk_size ← umul 64 CHUNK_SIZE (Z.of_nat num_cpus);
  match alloc_segment (div_ceil total_chunk_size PAGE_SIZE) with
  | None => Ret None
  | Some paddr =>
      _ ← rassert (CHUNK_SIZE mod ITEM_SIZE =? 0);
      bits ← bv_zeros (Z.to_nat (CHUNK_SIZE / ITEM_SIZE));
      Ret (Some (mk_chunk paddr bits))
  end.

Definition start_vaddr self : outcome Z := paddr_to_vaddr (segment self).

(** [DynamicStorage::get_ptr_on_target]; a storage is the address on the first CPU. *)
Definition get_ptr_on_target (bsp_va : Z) (cpu : nat) : outcome Z :=
  off ← umul 64 (Z.of_nat cpu) CHUNK_SIZE; uadd 64 bsp_va off.

(** The loop of [__new_dynamic] over [n] CPUs from [cpu] on; the closure [init_values] has a state. *)
Fixpoint init_loop (init_values : F -> nat -> V * F) (st : F) mem (va : Z) (cpu n : nat) : outcome (gmap Z V * F) :=
  match n with
  | O => Ret (mem, st)
  | Datatypes.S n' =>
      ptr ← get_ptr_on_target va cpu;
      let '(v, st') := init_values st cpu in
      init_loop init_values st' (<[ptr := v]> mem) va (cpu + 1) n'
  end.

Definition new_dynamic init_values st mem (ptr : Z) : outcome (Z * gmap Z V * F) :=
  _ ← rassert (negb (ptr =? 0));
  ' (mem', st') ← init_loop init_values st mem ptr 0 num_cpus;
  Ret (ptr, mem', st').

Definition chunk_alloc init_values st self mem : outcome (option Z * DynCpuLocalChunk * gmap Z V * F) :=
  match bv_first_zero (bitmap self) with
  | None => Ret (None, self, mem, st)
  | Some index =>
      bits ← bv_set (bitmap self) index true;
      start ← start_vaddr self;
      off ← umul 64 (Z.of_nat index) ITEM_SIZE;
      vaddr ← uadd 64 start off;
      ' (ptr, mem', st') ← new_dynamic init_values st mem vaddr;
      Ret (Some ptr, mk_chunk (segment self) bits, mem', st')
  end.

Definition get_item_index self (vaddr : Z) : outcome (option Z) :=
  start ← start_vaddr self;
  match checked_sub vaddr start with
  | None => Ret None
  | Some offset =>
      if CHUNK_SIZE <? offset then Ret None
      else
        _ ← debug_assert debug_assertions (Ret (offset mod ITEM_SIZE =? 0));
        Ret (Some (offset / ITEM_SIZE))
  end.

(** The loop of [try_dealloc]: the values that are dropped, and memory without them. *)
Fixpoint drop_loop mem (va : Z) (cpu n : nat) : outcome (list (option V) * gmap Z V) :=
  match n with
  | O => Ret ([], mem)
  | Datatypes.S n' =>
      ptr ← get_ptr_on_target va cpu;
      ' (vs, mem') ← drop_loop (delete ptr mem) va (cpu + 1) n';
      Ret (mem !! ptr :: vs, mem')
  end.

(** [try_dealloc]: [Some] with the values that are dropped, or [None] for [Err(cpu_local)]. *)
Definition try_dealloc self mem (cpu_local : Z) : outcome (option (list (option V)) * DynCpuLocalChunk * gmap Z V) :=
  index ← get_item_index self cpu_local;
  match index with
  | None => Ret (None, self, mem)
  | Some index =>
      bits ← bv_set (bitmap self) (Z.to_nat index) false;
      ' (vs, mem') ← drop_loop mem cpu_local 0 num_cpus;
      Ret (Some vs, mk_chunk (segment self) bits, mem')
  end.

Definition is_full self : bool := bv_all (bitmap self).
Definition chunk_is_empty self : bool := bv_not_any (bitmap self).

(** [Drop]: the segment that is given back. *)
Definition chunk_drop self : outcome Z := if chunk_is_empty self then Ret (segment self) else Panic.

(** ** The chunk as a map from items to values *)

Context `{BL : !BitVecLaws B S, ML : !BitMapLaws B S}.

Definition num_items : nat := Z.to_nat (CHUNK_SIZE / ITEM_SIZE).

(** The address of an item on a CPU. *)
Definition slot self (i cpu : nat) : Z := segment self + LINEAR_MAPPING_BASE_VADDR + Z.of_nat i * ITEM_SIZE + Z.of_nat cpu * CHUNK_SIZE.

(** The assertions of the code, and what [alloc_segment_with] promises. *)
Record chunk_ok self : Prop := {
  ok_item : 0 < ITEM_SIZE;
  ok_exact : Z.of_nat num_items * ITEM_SIZE = CHUNK_SIZE;
  ok_start : 0 <= segment self;
  ok_end : segment self + Z.of_nat num_cpus * CHUNK_SIZE <= VMALLOC_BASE_VADDR - LINEAR_MAPPING_BASE_VADDR;
  ok_cpus : (0 < num_cpus)%nat;
  ok_length : length (bv_view (bitmap self)) = num_items;
}.

(** Each item in use has a value for each CPU. *)
Definition represents_chunk self mem (objs : gmap nat (list V)) : Prop :=
  chunk_ok self /\
  (forall i, bv_view (bitmap self) !! i = Some true <-> is_Some (objs !! i)) /\
  (forall i vs, objs !! i = Some vs -> length vs = num_cpus /\ forall cpu, (cpu < num_cpus)%nat -> mem !! slot self i cpu = vs !! cpu).

(** Memory outside of the segment of the chunk is the same. *)
Definition outside_same self mem mem' : Prop :=
  forall a, a < slot self 0 0 \/ slot self 0 num_cpus <= a -> mem' !! a = mem !! a.

Lemma chunk_bound : LINEAR_MAPPING_BASE_VADDR + (VMALLOC_BASE_VADDR - LINEAR_MAPPING_BASE_VADDR) < 2 ^ 64 /\ 0 < LINEAR_MAPPING_BASE_VADDR.
Proof. done. Qed.

Lemma CHUNK_SIZE_val : CHUNK_SIZE = 4096.
Proof. done. Qed.

Section one_chunk.
Context (self : DynCpuLocalChunk) (Hok : chunk_ok self).

Lemma start_ok : start_vaddr self = Ret (slot self 0 0).
Proof.
  destruct Hok as [Hi He Hs Hb Hc _]. pose proof chunk_bound. pose proof CHUNK_SIZE_val. unfold start_vaddr, paddr_to_vaddr. rewrite uadd_ok by nia. unfold slot. f_equal. lia.
Qed.

(** An item lies in the page of its CPU. *)
Lemma slot_in i cpu : (i < num_items)%nat -> slot self 0 cpu <= slot self i cpu <= slot self 0 cpu + CHUNK_SIZE - ITEM_SIZE.
Proof. intros Hi. destruct Hok as [H0 He _ _ _ _]. unfold slot. nia. Qed.

Lemma slot_page cpu : slot self 0 cpu = slot self 0 0 + Z.of_nat cpu * CHUNK_SIZE.
Proof. unfold slot. lia. Qed.

(** The items of all CPUs are disjoint. *)
Lemma items_apart i c j d : (i < num_items)%nat -> (j < num_items)%nat -> (i, c) <> (j, d) ->
  slot self i c + ITEM_SIZE <= slot self j d \/ slot self j d + ITEM_SIZE <= slot self i c.
Proof.
  intros Hi Hj Hne. destruct Hok as [H0 He _ _ _ _]. destruct (lt_eq_lt_dec c d) as [ [Hcd| -> ]|Hcd].
  - left. know (slot_in i c Hi) as ?. know (slot_in j d Hj) as ?. rewrite (slot_page c), (slot_page d) in *. nia.
  - unfold slot. destruct (lt_eq_lt_dec i j) as [ [?| -> ]|?]; [left; nia|done|right; nia].
  - right. know (slot_in i c Hi) as ?. know (slot_in j d Hj) as ?. rewrite (slot_page c), (slot_page d) in *. nia.
Qed.

Lemma slot_inj i c j d : (i < num_items)%nat -> (j < num_items)%nat -> slot self i c = slot self j d -> i = j /\ c = d.
Proof.
  intros Hi Hj Heq. destruct (decide ((i, c) = (j, d))) as [Hp|Hne]; [by injection Hp as -> ->|].
  pose proof (ok_item _ Hok). destruct (items_apart i c j d Hi Hj Hne); lia.
Qed.

Lemma slot_inside i cpu : (i < num_items)%nat -> (cpu < num_cpus)%nat -> slot self 0 0 <= slot self i cpu < slot self 0 num_cpus.
Proof.
  intros Hi Hc. know (slot_in i cpu Hi) as ?. pose proof (ok_item _ Hok). rewrite (slot_page cpu), (slot_page num_cpus) in *.
  pose proof CHUNK_SIZE_val. nia.
Qed.

Lemma ptr_ok i cpu : (i < num_items)%nat -> (cpu < num_cpus)%nat -> get_ptr_on_target (slot self i 0) cpu = Ret (slot self i cpu).
Proof.
  intros Hi Hc. know (slot_inside i cpu Hi Hc) as Hin. destruct Hok as [H0 He Hs Hb _ _]. pose proof chunk_bound. pose proof CHUNK_SIZE_val.
  unfold get_ptr_on_target. rewrite umul_ok by nia. cbn [mbind outcome_bind]. unfold slot in *. rewrite uadd_ok by nia. f_equal. lia.
Qed.

(** The values that the closure makes for [n] CPUs from [cpu] on, and its state behind them. *)
Fixpoint init_list (init_values : F -> nat -> V * F) (st : F) (cpu n : nat) : list V * F :=
  match n with
  | O => ([], st)
  | Datatypes.S n' =>
      let '(v, st') := init_values st cpu in
      let '(vs, st'') := init_list init_values st' (cpu + 1) n' in (v :: vs, st'')
  end.

(** [mem'] is [mem] but for the item [i] of the CPUs from [cpu] on. *)
Definition changes_item (i cpu n : nat) mem mem' : Prop :=
  forall a, (forall k, (cpu <= k < cpu + n)%nat -> a <> slot self i k) -> mem' !! a = mem !! a.

Lemma init_length init_values st cpu n : length (init_list init_values st cpu n).1 = n.
Proof.
  revert st cpu. induction n as [|n IH]; intros st cpu; cbn [init_list]; [done|]. destruct (init_values st cpu) as [v st1].
  specialize (IH st1 (cpu + 1)%nat). destruct (init_list init_values st1 (cpu + 1) n). cbn in *. lia.
Qed.

Lemma init_loop_ok init_values st mem i cpu n : (i < num_items)%nat -> (cpu + n <= num_cpus)%nat ->
  exists mem', init_loop init_values st mem (slot self i 0) cpu n = Ret (mem', (init_list init_values st cpu n).2) /\
    (forall k, (k < n)%nat -> mem' !! slot self i (cpu + k) = (init_list init_values st cpu n).1 !! k) /\ changes_item i cpu n mem mem'.
Proof.
  intros Hi. revert st mem cpu. induction n as [|n IH]; intros st mem cpu Hn; cbn [init_loop init_list].
  { exists mem. split_and!; [done|lia|by intros a _]. }
  rewrite (ptr_ok i cpu Hi) by lia. cbn [mbind outcome_bind]. destruct (init_values st cpu) as [v st1].
  destruct (IH st1 (<[slot self i cpu := v]> mem) (cpu + 1)%nat ltac:(lia)) as (mem' & -> & Hv & Hf).
  destruct (init_list init_values st1 (cpu + 1) n) as [vs st2]. cbn [fst snd] in *. exists mem'. split_and!; [done| |].
  - intros [|k] Hk; cbn.
    + rewrite Nat.add_0_r, Hf; [apply lookup_insert_eq|]. intros k Hk' Heq. destruct (slot_inj i cpu i k Hi Hi Heq). lia.
    + rewrite <- Hv by lia. by replace (cpu + 1 + k)%nat with (cpu + Datatypes.S k)%nat by lia.
  - intros a Ha. rewrite Hf by (intros k Hk; apply Ha; lia). apply lookup_insert_ne. intros <-. by apply (Ha cpu); [lia|].
Qed.

Lemma values_drop_ok mem i cpu n : (i < num_items)%nat -> (cpu + n <= num_cpus)%nat ->
  exists mem', drop_loop mem (slot self i 0) cpu n = Ret ((fun k => mem !! slot self i k) <$> seq cpu n, mem') /\ changes_item i cpu n mem mem'.
Proof.
  intros Hi. revert mem cpu. induction n as [|n IH]; intros mem cpu Hn; cbn [drop_loop seq fmap list_fmap].
  { exists mem. split; [done|by intros a _]. }
  rewrite (ptr_ok i cpu Hi) by lia. cbn [mbind outcome_bind].
  destruct (IH (delete (slot self i cpu) mem) (cpu + 1)%nat ltac:(lia)) as (mem' & -> & Hf). cbn [mbind outcome_bind]. exists mem'. split.
  - rewrite Nat.add_1_r. do 3 f_equal. apply list_fmap_ext. intros j k [-> ?]%lookup_seq. apply lookup_delete_ne.
    intros Heq. destruct (slot_inj _ _ _ _ Hi Hi Heq). lia.
  - intros a Ha. rewrite Hf by (intros k Hk; apply Ha; lia). apply lookup_delete_ne. intros <-. by apply (Ha cpu); [lia|].
Qed.

(** A change of the item [i] is a change of the segment, and of no other item. *)
Lemma changes_outside i mem mem' : (i < num_items)%nat -> changes_item i 0 num_cpus mem mem' -> outside_same self mem mem'.
Proof.
  intros Hi Hc a Ha. apply Hc. intros k Hk ->. know (slot_inside i k Hi ltac:(lia)) as ?. lia.
Qed.

Lemma changes_other i j cpu mem mem' : (i < num_items)%nat -> (j < num_items)%nat -> i <> j -> changes_item i 0 num_cpus mem mem' ->
  mem' !! slot self j cpu = mem !! slot self j cpu.
Proof. intros Hi Hj Hne Hc. apply Hc. intros k _ Heq. destruct (slot_inj _ _ _ _ Hj Hi Heq). done. Qed.

End one_chunk.

(** ** The operations *)

Lemma live_item self mem objs i vs : represents_chunk self mem objs -> objs !! i = Some vs -> (i < num_items)%nat.
Proof.
  intros (Hok & Hb & _) Ho. rewrite <- (ok_length _ Hok). assert (is_Some (objs !! i)) as Hs by by eexists. apply Hb in Hs. by eapply lookup_lt_Some.
Qed.

(** One bit and one item change together. *)
Lemma represents_change self mem objs i b bits mem' : represents_chunk self mem objs -> (i < num_items)%nat ->
  bv_view bits = <[i := b]> (bv_view (bitmap self)) -> changes_item self i 0 num_cpus mem mem' ->
  forall objs', (forall j, j <> i -> objs' !! j = objs !! j) -> (is_Some (objs' !! i) <-> b = true) ->
  (forall vs, objs' !! i = Some vs -> length vs = num_cpus /\ forall cpu, (cpu < num_cpus)%nat -> mem' !! slot self i cpu = vs !! cpu) ->
  represents_chunk (mk_chunk (segment self) bits) mem' objs'.
Proof.
  intros Hrep Hi Hbits Hc objs' Hother Hthis Hvals. pose proof Hrep as (Hok & Hb & Hm). split_and!.
  - destruct Hok. split; cbn; auto. by rewrite Hbits, length_insert.
  - intros j. cbn. rewrite Hbits. destruct (decide (j = i)) as [->|Hne].
    + rewrite list_lookup_insert_eq by (by rewrite (ok_length _ Hok)). rewrite Hthis. naive_solver.
    + rewrite list_lookup_insert_ne by done. by rewrite Hother.
  - intros j vs Hj. destruct (decide (j = i)) as [->|Hne]; [by apply Hvals|]. rewrite Hother in Hj by done.
    destruct (Hm j vs Hj) as [Hl Hv]. split; [done|]. intros cpu Hcpu. rewrite <- Hv by done. change (slot (mk_chunk (segment self) bits) j cpu) with (slot self j cpu).
    apply (changes_other self Hok i); auto. by eapply live_item.
Qed.

Lemma alloc_ok init_values st self mem objs : represents_chunk self mem objs ->
  (forall i, (i < num_items)%nat -> is_Some (objs !! i)) /\ is_full self = true /\
    chunk_alloc init_values st self mem = Ret (None, self, mem, st) \/
  exists i self' mem', (i < num_items)%nat /\ objs !! i = None /\ is_full self = false /\
    chunk_alloc init_values st self mem = Ret (Some (slot self i 0), self', mem', (init_list init_values st 0 num_cpus).2) /\
    represents_chunk self' mem' (<[i := (init_list init_values st 0 num_cpus).1]> objs) /\ segment self' = segment self /\ outside_same self mem mem'.
Proof.
  intros Hrep. pose proof Hrep as (Hok & Hb & _). unfold chunk_alloc, is_full. rewrite bv_first_zero_view, bv_all_view.
  set (i := first_zero_index (bv_view (bitmap self))). rewrite (ok_length _ Hok). destruct (Nat.ltb_spec i num_items) as [Hi|Hi].
  - right. assert (Hz : bv_view (bitmap self) !! i = Some false) by (apply first_zero_index_at; by rewrite (ok_length _ Hok)).
    destruct (bv_set_ok (bitmap self) i true) as (bits & Hset & Hbits); [by rewrite (ok_length _ Hok)|].
    rewrite Hset. cbn [mbind outcome_bind]. rewrite (start_ok _ Hok). cbn [mbind outcome_bind].
    assert (slot self i 0 = slot self 0 0 + Z.of_nat i * ITEM_SIZE) as Hsl by (unfold slot; lia).
    assert (0 < slot self i 0 < 2 ^ 64 /\ Z.of_nat i * ITEM_SIZE < 2 ^ 64) as (Hpos & Hmul).
    { destruct Hok as [H0 He Hs He' Hc _]. pose proof chunk_bound. pose proof CHUNK_SIZE_val. unfold slot. nia. }
    rewrite umul_ok by lia. cbn [mbind outcome_bind]. rewrite uadd_ok by lia. cbn [mbind outcome_bind]. rewrite <- Hsl.
    unfold new_dynamic. destruct (Z.eqb_spec (slot self i 0) 0); [lia|]. cbn [negb rassert mbind outcome_bind].
    destruct (init_loop_ok self Hok init_values st mem i 0 num_cpus Hi ltac:(lia)) as (mem' & -> & Hv & Hch). cbn [mbind outcome_bind].
    assert (Hn : objs !! i = None). { apply eq_None_not_Some. rewrite <- Hb. congruence. }
    exists i, (mk_chunk (segment self) bits), mem'. split_and!; [done|done| |done| |done|by apply (changes_outside self Hok i)].
    + apply not_true_is_false. rewrite forallb_forall. intros Hall. specialize (Hall false). cbn in Hall. discriminate Hall. apply list_elem_of_In. by eapply list_elem_of_lookup_2.
    + apply (represents_change self mem objs i true bits mem' Hrep Hi Hbits Hch).
      * intros j Hj. by apply lookup_insert_ne.
      * rewrite lookup_insert_eq. naive_solver.
      * intros vs. rewrite lookup_insert_eq. intros [= <-]. split; [apply init_length|]. intros cpu Hcpu. by apply Hv.
  - left. assert (Hall : forall j, (j < num_items)%nat -> bv_view (bitmap self) !! j = Some true) by (intros j Hj; apply first_zero_index_before; fold i; lia).
    split_and!; [intros j Hj; by apply Hb, Hall| |done].
    apply forallb_forall. intros x Hx. apply list_elem_of_In, list_elem_of_lookup in Hx as (j & Hj). rewrite Hall in Hj; [by injection Hj as <-|].
    rewrite <- (ok_length _ Hok). by eapply lookup_lt_Some.
Qed.

Lemma item_index_ok self i : chunk_ok self -> (i <= num_items)%nat -> get_item_index self (slot self i 0) = Ret (Some (Z.of_nat i)).
Proof.
  intros Hok Hi. unfold get_item_index. rewrite (start_ok _ Hok). cbn [mbind outcome_bind]. destruct Hok as [H0 He _ _ _ _]. unfold checked_sub.
  replace (slot self i 0 - slot self 0 0) with (Z.of_nat i * ITEM_SIZE) by (unfold slot; lia).
  destruct (Z.leb_spec (slot self 0 0) (slot self i 0)) as [_|Hlt]; [|unfold slot in Hlt; nia].
  destruct (Z.ltb_spec CHUNK_SIZE (Z.of_nat i * ITEM_SIZE)); [nia|]. rewrite Z_mod_mult, Z_div_mult by lia. by destruct debug_assertions.
Qed.

Lemma dealloc_ok self mem objs i vs : represents_chunk self mem objs -> objs !! i = Some vs ->
  exists self' mem', try_dealloc self mem (slot self i 0) = Ret (Some (Some <$> vs), self', mem') /\
    represents_chunk self' mem' (delete i objs) /\ segment self' = segment self /\ outside_same self mem mem'.
Proof.
  intros Hrep Hi. pose proof (live_item _ _ _ _ _ Hrep Hi) as Hn. pose proof Hrep as (Hok & _ & Hm). unfold try_dealloc.
  rewrite item_index_ok by (done || lia). cbn [mbind outcome_bind]. rewrite Nat2Z.id.
  destruct (bv_set_ok (bitmap self) i false) as (bits & -> & Hbits); [by rewrite (ok_length _ Hok)|]. cbn [mbind outcome_bind].
  destruct (values_drop_ok self Hok mem i 0 num_cpus Hn ltac:(lia)) as (mem' & -> & Hch). cbn [mbind outcome_bind].
  destruct (Hm i vs Hi) as [Hl Hv]. exists (mk_chunk (segment self) bits), mem'. split_and!; [| |done|by apply (changes_outside self Hok i)].
  - do 4 f_equal. apply list_eq_same_length with num_cpus; [by rewrite length_fmap|by rewrite length_fmap, length_seq|].
    intros k x y Hk Hx Hy. apply list_lookup_fmap_Some in Hx as (k' & -> & Hx). apply lookup_seq in Hx as [-> _].
    rewrite list_lookup_fmap in Hy. cbn in *. rewrite Hv by lia. destruct (vs !! k) as [v|]; [by injection Hy|done].
  - apply (represents_change self mem objs i false bits mem' Hrep Hn Hbits Hch).
    + intros j Hj. by apply lookup_delete_ne.
    + rewrite lookup_delete_eq. split; [by intros [? ?]|done].
    + intros vs'. by rewrite lookup_delete_eq.
Qed.

(** An object that is outside of the first page and does not begin right behind it is refused. *)
Lemma dealloc_refused self mem va : chunk_ok self -> va < slot self 0 0 \/ slot self 0 0 + CHUNK_SIZE < va ->
  try_dealloc self mem va = Ret (None, self, mem).
Proof.
  intros Hok Hva. unfold try_dealloc, get_item_index, checked_sub. rewrite (start_ok _ Hok). cbn [mbind outcome_bind].
  destruct (Z.leb_spec (slot self 0 0) va); [|done]. destruct (Z.ltb_spec CHUNK_SIZE (va - slot self 0 0)); [done|lia].
Qed.

Lemma dealloc_behind self mem : chunk_ok self -> try_dealloc self mem (slot self 0 0 + CHUNK_SIZE) = Panic.
Proof.
  intros Hok. replace (slot self 0 0 + CHUNK_SIZE) with (slot self num_items 0).
  2:{ pose proof (ok_exact _ Hok). unfold slot. lia. }
  unfold try_dealloc. rewrite item_index_ok by (done || lia). cbn [mbind outcome_bind]. rewrite Nat2Z.id, bv_set_oob; [done|].
  by rewrite (ok_length _ Hok).
Qed.

Lemma chunk_drop_ok self mem objs : represents_chunk self mem objs -> chunk_drop self = if decide (objs = ∅) then Ret (segment self) else Panic.
Proof.
  intros (Hok & Hb & _). unfold chunk_drop, chunk_is_empty. rewrite bv_not_any_view. destruct (decide (objs = ∅)) as [->|Hne].
  - replace (forallb negb (bv_view (bitmap self))) with true; [done|]. symmetry. apply forallb_forall. intros x Hx.
    apply list_elem_of_In, list_elem_of_lookup in Hx as (j & Hj). destruct x; [|done]. apply Hb in Hj. rewrite lookup_empty in Hj. by destruct Hj.
  - apply map_choose in Hne as (i & vs & Hi). assert (Hs : is_Some (objs !! i)) by by eexists. apply Hb in Hs.
    replace (forallb negb (bv_view (bitmap self))) with false; [done|]. symmetry. apply not_true_is_false. rewrite forallb_forall. intros Hall.
    specialize (Hall true). cbn in Hall. discriminate Hall. apply list_elem_of_In. by eapply list_elem_of_lookup_2.
Qed.

(** What [alloc_segment_with] promises: contiguous frames in the range that is mapped linearly. *)
Definition segment_law (alloc_segment : Z -> option Z) : Prop := forall n paddr, alloc_segment n = Some paddr ->
  0 <= paddr /\ paddr + n * PAGE_SIZE <= VMALLOC_BASE_VADDR - LINEAR_MAPPING_BASE_VADDR.

Lemma chunk_new_ok alloc_segment mem : segment_law alloc_segment -> 0 < ITEM_SIZE -> CHUNK_SIZE mod ITEM_SIZE = 0 -> (0 < num_cpus)%nat ->
  CHUNK_SIZE * Z.of_nat num_cpus < 2 ^ 64 ->
  match alloc_segment (Z.of_nat num_cpus) with
  | None => chunk_new alloc_segment = Ret None
  | Some _ => exists self, chunk_new alloc_segment = Ret (Some self) /\ represents_chunk self mem ∅
  end.
Proof.
  intros Hlaw Hi Hm Hn Hb. unfold chunk_new. rewrite umul_ok by done. cbn [mbind outcome_bind].
  replace (div_ceil (CHUNK_SIZE * Z.of_nat num_cpus) PAGE_SIZE) with (Z.of_nat num_cpus).
  2:{ unfold div_ceil. change CHUNK_SIZE with PAGE_SIZE. rewrite Z.mul_comm, Z_mod_mult, Z_div_mult by done. done. }
  destruct (alloc_segment (Z.of_nat num_cpus)) as [paddr|] eqn:Hal; [|done]. destruct (Hlaw _ _ Hal) as [Hlo Hhi].
  rewrite Hm. cbn [Z.eqb rassert mbind outcome_bind]. know CHUNK_SIZE_val as Hcs.
  assert (Hex : Z.of_nat num_items * ITEM_SIZE = CHUNK_SIZE).
  { unfold num_items. rewrite Z2Nat.id by (apply Z.div_pos; lia). symmetry. rewrite Z.mul_comm. by apply Z_div_exact_full_2; [lia|]. }
  destruct (bv_zeros_ok num_items) as (bits & Hz & Hview).
  { assert (Z.of_nat num_items <= 4096) by nia. assert (4096 <= MAX_BITS) by done. lia. }
  unfold num_items in Hz at 1. rewrite Hz. cbn [mbind outcome_bind]. eexists. split; [done|]. split_and!.
  - split; cbn; auto. by rewrite Hview, length_replicate.
  - intros i. cbn. rewrite Hview, lookup_replicate, lookup_empty. split; [by intros []|by intros []].
  - intros i vs. by rewrite lookup_empty.
Qed.

(** C35: a chunk is a finite map from items to one value for each CPU.  [alloc] takes an unused item, and
    fails exactly when the chunk is full; the new object holds the values that the closure
    makes for the CPUs in their order, and no other object and no memory of other parts
    changes.  [try_dealloc] of an object of the chunk drops these values and frees the item.
    The chunk can be dropped exactly when it is empty.  An object of another chunk is refused, except one that begins right behind the first page,
    where [try_dealloc] panics instead of returning the object. *)
Theorem dyn_cpu_local_correct init_values st self mem objs : represents_chunk self mem objs ->
  ((forall i, (i < num_items)%nat -> is_Some (objs !! i)) /\ is_full self = true /\
     chunk_alloc init_values st self mem = Ret (None, self, mem, st) \/
   exists i self' mem', (i < num_items)%nat /\ objs !! i = None /\ is_full self = false /\
     chunk_alloc init_values st self mem = Ret (Some (slot self i 0), self', mem', (init_list init_values st 0 num_cpus).2) /\
     represents_chunk self' mem' (<[i := (init_list init_values st 0 num_cpus).1]> objs) /\ segment self' = segment self /\ outside_same self mem mem') /\
  (forall i vs, objs !! i = Some vs -> exists self' mem', try_dealloc self mem (slot self i 0) = Ret (Some (Some <$> vs), self', mem') /\
     represents_chunk self' mem' (delete i objs) /\ segment self' = segment self /\ outside_same self mem mem') /\
  (forall va, va < slot self 0 0 \/ slot self 0 0 + CHUNK_SIZE < va -> try_dealloc self mem va = Ret (None, self, mem)) /\
  try_dealloc self mem (slot self 0 0 + CHUNK_SIZE) = Panic /\
  chunk_drop self = (if decide (objs = ∅) then Ret (segment self) else Panic).
Proof.
  intros Hrep. pose proof Hrep as (Hok & _). split_and!.
  - by apply alloc_ok.
  - intros i vs. by apply dealloc_ok.
  - intros va. by apply dealloc_refused.
  - by apply dealloc_behind.
  - by eapply chunk_drop_ok.
Qed.

End chunk.

(** ** Bit vectors as lists have the operations *)

Global Instance list_BitMap : BitMap list_bv (list bool) := {
  bv_zeros n := mk_list_bv (replicate n false);
  bv_first_zero b := if (first_zero_index (`b) <? length (`b))%nat then Some (first_zero_index (`b)) else None;
  bv_all b := forallb id (`b);
  bv_not_any b := forallb negb (`b);
}.

Global Instance list_BitMapLaws : BitMapLaws list_bv (list bool).
Proof. split; [|done..]. intros n Hn. apply mk_list_bv_ok. by rewrite length_replicate. Qed.

(** ** An instance: items of 1024 bytes on two CPUs *)
Module ChunkExample.

Definition alloc_segment (n : Z) : option Z := if (0 <=? n) && (n <=? 16) then Some 65536 else None.

Definition init_values (st : Z) (cpu : nat) : Z * Z := (st + Z.of_nat cpu, st + 10).

Definition chunk : outcome (option (DynCpuLocalChunk (B := list_bv))) := chunk_new 1024 2 alloc_segment.

Lemma segment_law_ok : segment_law alloc_segment.
Proof.
  intros n paddr. unfold alloc_segment. destruct (Z.leb_spec 0 n), (Z.leb_spec n 16); cbn; [|done..]. intros [= <-].
  unfold VMALLOC_BASE_VADDR, LINEAR_MAPPING_BASE_VADDR, PAGE_SIZE. lia.
Qed.

(** The first object of a new chunk, and what another chunk's object leads to. *)
Lemma dyn_cpu_local_correct_witness : exists self : DynCpuLocalChunk (B := list_bv), chunk = Ret (Some self) /\
  (exists i self' mem', chunk_alloc 1024 2 init_values 5 self ∅ = Ret (Some (slot 1024 self i 0), self', mem', 25) /\
     represents_chunk 1024 2 self' mem' (<[i := [5; 16]]> ∅)) /\
  chunk_drop self = Ret (segment self).
Proof.
  pose proof (chunk_new_ok 1024 2 alloc_segment (B := list_bv) (V := Z) ∅ segment_law_ok ltac:(done) ltac:(done) ltac:(lia) ltac:(done)) as Hnew.
  cbn [alloc_segment Z.of_nat Z.leb Z.compare andb] in Hnew. destruct Hnew as (self & Hc & Hrep). exists self. split; [exact Hc|].
  destruct (dyn_cpu_local_correct true 1024 2 init_values 5 self ∅ ∅ Hrep) as ([(Hall & _)|(i & self' & mem' & _ & _ & _ & Hal & Hr & _)] & _ & _ & _ & Hdrop).
  - exfalso. destruct (Hall 0%nat) as [? H]; [apply Nat.ltb_lt; vm_compute; reflexivity|]. by rewrite lookup_empty in H.
  - split; [exists i, self', mem'; split; [exact Hal|exact Hr]|exact Hdrop].
Defined.

End ChunkExample.
