(* ===== verification/RangeAlloc.v ===== *)
(** * [ostd/src/util/range_alloc.rs]: the allocator of address ranges

    [RangeAllocator] hands out sub-ranges of a full range from a free list, a
    B-tree map from the start of each free block to the block, created at the
    first use.  The map is a finite map with iteration in ascending key order;
    the spin lock around it makes every operation one transition of the state.

    The free list is kept coalesced, so that the allocator is complete: a
    specific range is refused only if some address of it is taken, and an
    allocation fails only if no free run is long enough.  At any time the
    addresses are partitioned between the free list and the ranges that
    clients hold. *)

From stdpp Require Import sorting.
From S2P Require Import Prelude.
Open Scope Z_scope.

(** ** [BTreeMap] *)

Section btree.
Context {V : Type}.
Implicit Types (m : gmap Z V) (k : Z).

Definition key_le (a b : Z * V) : Prop := a.1 <= b.1.
Global Instance key_le_dec a b : Decision (key_le a b).
Proof. unfold key_le. apply _. Defined.
Global Instance key_le_total : Total key_le.
Proof. intros a b. unfold key_le. lia. Qed.
Global Instance key_le_trans : Transitive key_le.
Proof. intros a b c. unfold key_le. lia. Qed.

(** [iter()]: ascending keys. *)
Definition btree_iter m : list (Z * V) := merge_sort key_le (map_to_list m).

(** [upper_bound(Excluded(k)).peek_prev()] and [lower_bound(Excluded(k)).peek_next()]. *)
Definition btree_prev m k : option (Z * V) :=
  last (base.filter (fun p => p.1 < k) (btree_iter m)).
Definition btree_next m k : option (Z * V) :=
  head (base.filter (fun p => k < p.1) (btree_iter m)).

Lemma elem_of_btree_iter m k v : (k, v) ∈ btree_iter m <-> m !! k = Some v.
Proof. unfold btree_iter. rewrite merge_sort_Permutation. apply elem_of_map_to_list. Qed.

Lemma btree_iter_sorted m : StronglySorted key_le (btree_iter m).
Proof. apply Sorted_StronglySorted, Sorted_merge_sort; apply _. Qed.

Lemma StronglySorted_filter' (P : Z * V -> Prop) `{!forall x, Decision (P x)} l :
  StronglySorted key_le l -> StronglySorted key_le (base.filter P l).
Proof.
  induction 1 as [|x l Hs IH Hf]; [constructor|]. rewrite filter_cons.
  destruct (decide (P x)); [|done]. constructor; [done|].
  rewrite Forall_forall in *. intros y [_ Hy]%list_elem_of_filter. auto.
Qed.

Lemma btree_next_Some m k k' v :
  btree_next m k = Some (k', v) ->
  m !! k' = Some v /\ k < k' /\ forall j w, m !! j = Some w -> k < j -> k' <= j.
Proof.
  unfold btree_next. intros H.
  pose proof (StronglySorted_filter' (fun p => k < p.1) _ (btree_iter_sorted m)) as Hs.
  assert (Hin : forall j w, (j, w) ∈ base.filter (fun p => k < p.1) (btree_iter m) <->
    k < j /\ m !! j = Some w).
  { intros j w. by rewrite list_elem_of_filter, elem_of_btree_iter. }
  destruct (base.filter _ (btree_iter m)) as [|[k1 v1] l]; [done|].
  cbn in H. assert (k1 = k' /\ v1 = v) as [-> ->] by (split; congruence).
  destruct (proj1 (Hin k' v)) as [? ?]; [set_solver|]. split_and!; auto.
  intros j w Hj Hk. pose proof (proj2 (Hin j w) (conj Hk Hj)) as [[= -> ->]|Hl]%elem_of_cons; [lia|].
  inversion Hs as [|??? Hall]; subst. rewrite Forall_forall in Hall. by apply (Hall (j, w)).
Qed.

Lemma btree_next_None m k j w : btree_next m k = None -> m !! j = Some w -> j <= k.
Proof.
  unfold btree_next. intros H Hj. destruct (Z.le_gt_cases j k); [done|].
  assert (Hin : (j, w) ∈ base.filter (fun p => k < p.1) (btree_iter m)).
  { rewrite list_elem_of_filter, elem_of_btree_iter. split; [cbn; lia|done]. }
  destruct (base.filter _ (btree_iter m)); [set_solver|done].
Qed.

Lemma btree_prev_Some m k k' v :
  btree_prev m k = Some (k', v) ->
  m !! k' = Some v /\ k' < k /\ forall j w, m !! j = Some w -> j < k -> j <= k'.
Proof.
  unfold btree_prev. intros [l Hl]%last_Some.
  pose proof (StronglySorted_filter' (fun p => p.1 < k) _ (btree_iter_sorted m)) as Hs.
  assert (Hin : forall j w, (j, w) ∈ l ++ [(k', v)] <-> j < k /\ m !! j = Some w).
  { intros j w. by rewrite <- Hl, list_elem_of_filter, elem_of_btree_iter. }
  rewrite Hl in Hs. destruct (proj1 (Hin k' v)) as [? ?]; [set_solver|]. split_and!; auto.
  intros j w Hj Hk.
  pose proof (proj2 (Hin j w) (conj Hk Hj)) as [Hjl|[= -> ->]%list_elem_of_singleton]%elem_of_app;
    [|lia].
  apply (StronglySorted_app_1_elem_of key_le _ _ (j, w) (k', v) Hs); set_solver.
Qed.

Lemma btree_prev_None m k j w : btree_prev m k = None -> m !! j = Some w -> k <= j.
Proof.
  unfold btree_prev. intros H%last_None Hj. destruct (Z.le_gt_cases k j); [done|].
  assert (Hin : (j, w) ∈ base.filter (fun p => p.1 < k) (btree_iter m)).
  { rewrite list_elem_of_filter, elem_of_btree_iter. split; [cbn; lia|done]. }
  rewrite H in Hin. set_solver.
Qed.
End btree.

(** ** The allocator *)

Section range_alloc.
(** Whether the build has [debug_assertions]. *)
Context (debug_assertions : bool).

Record FreeRange := FreeRange_new { block : range }.

Record RangeAllocator := mk_RangeAllocator {
  fullrange : range;
  freelist : option (gmap Z FreeRange);
}.

Definition new (full : range) : RangeAllocator := mk_RangeAllocator full None.

(** Under the lock: the free list, with the whole range in it at the first use. *)
Definition get_freelist_guard (self : RangeAllocator) : gmap Z FreeRange :=
  match freelist self with
  | None => <[r_start (fullrange self) := FreeRange_new (fullrange self)]> ∅
  | Some fl => fl
  end.

Definition with_freelist (self : RangeAllocator) (fl : gmap Z FreeRange) : RangeAllocator :=
  mk_RangeAllocator (fullrange self) (Some fl).

(** The search loop of [alloc_specific]: key, left and right lengths. *)
Fixpoint find_specific (l : list (Z * FreeRange)) (r : range) : outcome (option (Z * Z * Z)) :=
  match l with
  | [] => mret None
  | (key, value) :: l' =>
      if (r_end (block value) >=? r_end r) && (r_start (block value) <=? r_start r) then
        left_length ← usub (r_start r) (r_start (block value));
        right_length ← usub (r_end (block value)) (r_end r);
        mret (Some (key, left_length, right_length))
      else find_specific l' r
  end.

(** The boolean result is [Ok(())] / [Err(RangeAllocError)]. *)
Definition alloc_specific (self : RangeAllocator) (r : range) : outcome (bool * RangeAllocator) :=
  _ ← debug_assert debug_assertions (mret (r_start r <? r_end r));
  let fl := get_freelist_guard self in
  target ← find_specific (btree_iter fl) r;
  match target with
  | None => mret (false, with_freelist self fl)
  | Some (key, left_length, right_length) =>
      let fl := if left_length =? 0 then delete key fl
                else match fl !! key with
                     | Some node => <[key := FreeRange_new (mk_range (r_start (block node)) (r_start r))]> fl
                     | None => fl
                     end in
      fl ← (if negb (right_length =? 0) then
              e ← uadd 64 (r_end r) right_length;
              mret (<[r_end r := FreeRange_new (mk_range (r_end r) e)]> fl)
            else mret fl);
      mret (true, with_freelist self fl)
  end.

(** The search loop of [alloc]: the key and the range cut from the end of its block. *)
Fixpoint find_fit (l : list (Z * FreeRange)) (size : Z) : outcome (option (Z * range)) :=
  match l with
  | [] => mret None
  | (key, value) :: l' =>
      n ← usub (r_end (block value)) (r_start (block value));
      if n >=? size then
        s ← usub (r_end (block value)) size;
        mret (Some (key, mk_range s (r_end (block value))))
      else find_fit l' size
  end.

Definition alloc (self : RangeAllocator) (size : Z) : outcome (option range * RangeAllocator) :=
  let fl := get_freelist_guard self in
  found ← find_fit (btree_iter fl) size;
  match found with
  | None => mret (None, with_freelist self fl)
  | Some (key, r) =>
      fl ← (match fl !! key with
            | Some node =>
                e ← usub (r_end (block node)) size;
                if e =? r_start (block node) then mret (delete key fl)
                else mret (<[key := FreeRange_new (mk_range (r_start (block node)) e)]> fl)
            | None => mret fl
            end);
      mret (Some r, with_freelist self fl)
  end.

(** The two merges of [free]: with the block that ends where the range starts, ... *)
Definition merge_prev (fl : gmap Z FreeRange) (r : range) : Z * gmap Z FreeRange :=
  match btree_prev fl (r_start r) with
  | Some (prev_va, prev_node) =>
      if r_end (block prev_node) =? r_start r
      then (r_start (block prev_node), delete prev_va fl) else (r_start r, fl)
  | None => (r_start r, fl)
  end.

(** ... and, once the range is in the list, with the block that starts where it ends. *)
Definition merge_next (fl : gmap Z FreeRange) (start end_ : Z) : outcome (gmap Z FreeRange) :=
  match btree_next fl start with
  | Some (next_va, next_node) =>
      if end_ =? r_start (block next_node) then
        let fl := delete next_va fl in
        node ← unwrap (fl !! start);
        mret (<[start := FreeRange_new (mk_range (r_start (block node)) (r_end (block next_node)))]> fl)
      else mret fl
  | None => mret fl
  end.

Definition free (self : RangeAllocator) (r : range) : outcome RangeAllocator :=
  fl ← unwrap (freelist self);
  let '(start, fl) := merge_prev fl r in
  let fl := <[start := FreeRange_new (mk_range start (r_end r))]> fl in
  fl ← merge_next fl start (r_end r);
  mret (with_freelist self fl).

(** ** The free list as a set of addresses *)

Definition free_addr (fl : gmap Z FreeRange) (a : Z) : Prop :=
  exists k f, fl !! k = Some f /\ in_range (block f) a.

(** Nonempty blocks inside the full range, keyed by their start, with a gap
    between any two of them. *)
Definition freelist_wf (full : range) (fl : gmap Z FreeRange) : Prop :=
  (forall k f, fl !! k = Some f ->
     k = r_start (block f) /\ r_start full <= k /\ k < r_end (block f) /\
     r_end (block f) <= r_end full) /\
  (forall k f k' f', fl !! k = Some f -> fl !! k' = Some f' -> k < k' -> r_end (block f) < k').

Definition wf_full (full : range) : Prop :=
  0 <= r_start full /\ r_start full < r_end full /\ r_end full < 2 ^ 64.

(** The block of a free run: a run never spans two blocks. *)
Lemma run_in_block full fl lo hi :
  freelist_wf full fl -> lo < hi -> (forall a, lo <= a < hi -> free_addr fl a) ->
  exists k f, fl !! k = Some f /\ k <= lo /\ hi <= r_end (block f).
Proof.
  intros [Hb Hg] Hlt Hrun. destruct (Hrun lo ltac:(lia)) as (k & f & Hf & Hlo).
  destruct (Hb _ _ Hf) as (-> & ? & ? & ?). unfold in_range in Hlo. exists (r_start (block f)), f.
  split_and!; [done|lia|]. destruct (Z.le_gt_cases hi (r_end (block f))); [done|].
  destruct (Hrun (r_end (block f)) ltac:(lia)) as (k' & g & Hg' & Hin). unfold in_range in Hin.
  destruct (Hb _ _ Hg') as (-> & ? & ? & ?).
  destruct (Z.lt_trichotomy (r_start (block f)) (r_start (block g))) as [H'|[H'|H']].
  - pose proof (Hg _ _ _ _ Hf Hg' H'). lia.
  - rewrite H' in Hf. rewrite Hf in Hg'. injection Hg' as <-. lia.
  - pose proof (Hg _ _ _ _ Hg' Hf H'). lia.
Qed.

(** The address after a block is not free. *)
Lemma block_end_not_free full fl k f :
  freelist_wf full fl -> fl !! k = Some f -> ~ free_addr fl (r_end (block f)).
Proof.
  intros Hwf Hf Hend. pose proof (proj1 Hwf _ _ Hf) as (Hk & ? & ? & ?).
  destruct (run_in_block full fl k (r_end (block f) + 1)) as (k' & f' & Hf' & Hk' & Hend');
    [done|lia| |].
  { intros a Ha. destruct (Z.eq_dec a (r_end (block f))) as [->|]; [done|].
    exists k, f. unfold in_range. split; [done|lia]. }
  destruct (Z.eq_dec k' k) as [->|]; [assert (f' = f) by congruence; subst; lia|].
  pose proof (proj2 Hwf _ _ _ _ Hf' Hf ltac:(lia)). lia.
Qed.

(** Cutting [[lo, hi)] out of the block [f] of key [k]. *)
Definition carve (fl : gmap Z FreeRange) (k : Z) (f : FreeRange) (lo hi : Z) : gmap Z FreeRange :=
  let fl := if lo - k =? 0 then delete k fl else <[k := FreeRange_new (mk_range k lo)]> fl in
  if negb (r_end (block f) - hi =? 0)
  then <[hi := FreeRange_new (mk_range hi (r_end (block f)))]> fl else fl.

Lemma carve_lookup full fl k f lo hi j g :
  freelist_wf full fl -> fl !! k = Some f -> k <= lo < hi -> hi <= r_end (block f) ->
  carve fl k f lo hi !! j = Some g <->
    (k < lo /\ j = k /\ g = FreeRange_new (mk_range k lo)) \/
    (hi < r_end (block f) /\ j = hi /\ g = FreeRange_new (mk_range hi (r_end (block f)))) \/
    (j <> k /\ fl !! j = Some g).
Proof.
  intros [Hb Hg] Hf Hlo Hhi. destruct (Hb _ _ Hf) as (Hk & _).
  assert (Hnone : forall g, hi < r_end (block f) -> fl !! hi = Some g -> False).
  { intros g' Hlt Hg'. pose proof (Hg _ _ _ _ Hf Hg' ltac:(lia)). lia. }
  assert (Hleft : forall j g, (if lo - k =? 0 then delete k fl
        else <[k := FreeRange_new (mk_range k lo)]> fl) !! j = Some g <->
      (k < lo /\ j = k /\ g = FreeRange_new (mk_range k lo)) \/ (j <> k /\ fl !! j = Some g)).
  { intros j' g'. zcase.
    - rewrite lookup_delete_Some. naive_solver lia.
    - rewrite lookup_insert_Some. naive_solver lia. }
  unfold carve. destruct (Z.eqb_spec (r_end (block f) - hi) 0); cbn [negb].
  - rewrite Hleft. naive_solver lia.
  - rewrite lookup_insert_Some, Hleft. split; [naive_solver lia|].
    intros [(? & -> & ->)|[(? & -> & ->)|(? & Hj)]].
    + right. split; [lia|]. auto.
    + left. done.
    + right. split; [|naive_solver]. intros ->. eapply Hnone; eauto. lia.
Qed.

Lemma carve_ok full fl k f lo hi :
  freelist_wf full fl -> fl !! k = Some f -> k <= lo < hi -> hi <= r_end (block f) ->
  freelist_wf full (carve fl k f lo hi) /\
  forall a, free_addr (carve fl k f lo hi) a <-> free_addr fl a /\ ~ (lo <= a < hi).
Proof.
  intros Hwf Hf Hlo Hhi. pose proof (carve_lookup full fl k f lo hi) as Hl.
  pose proof Hwf as [Hb Hg]. pose proof (Hb _ _ Hf) as (Hk & ? & ? & ?).
  assert (Hsep : forall j g, fl !! j = Some g -> j <> k ->
    r_end (block g) < k \/ r_end (block f) < j).
  { intros j g Hj Hne. destruct (Hb _ _ Hj) as (? & ? & ? & ?).
    destruct (Z.lt_trichotomy j k) as [Hlt|[?|Hlt]]; [left|done|right].
    - by apply (Hg _ _ _ _ Hj Hf).
    - by apply (Hg _ _ _ _ Hf Hj). }
  split; [split|].
  - intros j g Hj. apply (Hl j g) in Hj; auto.
    destruct Hj as [(? & -> & ->)|[(? & -> & ->)|(? & Hj)]]; cbn; [lia..|]. by apply Hb.
  - intros j g j' g' Hj Hj' Hlt. apply (Hl j g) in Hj; auto. apply (Hl j' g') in Hj'; auto.
    destruct Hj as [(? & -> & ->)|[(? & -> & ->)|(? & Hj)]],
      Hj' as [(? & -> & ->)|[(? & -> & ->)|(? & Hj')]]; cbn; try lia.
    + destruct (Hsep _ _ Hj' ltac:(done)); destruct (Hb _ _ Hj'); lia.
    + destruct (Hsep _ _ Hj' ltac:(done)); destruct (Hb _ _ Hj'); lia.
    + destruct (Hsep _ _ Hj ltac:(done)); destruct (Hb _ _ Hj); lia.
    + destruct (Hsep _ _ Hj ltac:(done)); destruct (Hb _ _ Hj); lia.
    + by apply (Hg _ _ _ _ Hj Hj').
  - intros a. unfold free_addr, in_range. setoid_rewrite Hl; auto. split.
    + intros (j & g & [(? & -> & ->)|[(? & -> & ->)|(? & Hj)]] & Hin); cbn in Hin.
      * split; [exists k, f; split; [done|lia]|lia].
      * split; [exists k, f; split; [done|lia]|lia].
      * split; [eauto|]. destruct (Hsep _ _ Hj ltac:(done)); destruct (Hb _ _ Hj); lia.
    + intros [(j & g & Hj & Hin) Hnot]. destruct (decide (j = k)) as [->|Hne].
      * assert (g = f) as -> by congruence. destruct (Z.lt_ge_cases a lo).
        -- exists k, (FreeRange_new (mk_range k lo)). cbn. split; [left; split_and!; auto; lia|lia].
        -- exists hi, (FreeRange_new (mk_range hi (r_end (block f)))). cbn.
           split; [right; left; split_and!; auto; lia|lia].
      * exists j, g. auto.
Qed.

(** *** The searches *)

Lemma find_specific_ok l r :
  r_start r < r_end r ->
  (exists k f, (k, f) ∈ l /\ r_start (block f) <= r_start r /\ r_end r <= r_end (block f) /\
     find_specific l r =
       Ret (Some (k, r_start r - r_start (block f), r_end (block f) - r_end r))) \/
  (find_specific l r = Ret None /\
   forall k f, (k, f) ∈ l -> ~ (r_start (block f) <= r_start r /\ r_end r <= r_end (block f))).
Proof.
  intros Hr. induction l as [|[k f] l IH]; cbn [find_specific].
  { right. split; [done|]. set_solver. }
  zcase.
  - left. exists k, f. split_and!; [set_solver|done|done|].
    rewrite (usub_ok (r_start r)) by lia. cbn [mbind outcome_bind].
    by rewrite usub_ok by lia.
  - destruct IH as [(k' & f' & ? & ? & ? & ?)|[-> Hno]]; [left; exists k', f'; set_solver|].
    right. split; [done|]. intros k' f' [[= -> ->]|Hin]%elem_of_cons; [|eauto]. lia.
Qed.

Lemma find_fit_ok l size :
  0 < size -> (forall k f, (k, f) ∈ l -> 0 <= r_start (block f) <= r_end (block f)) ->
  StronglySorted key_le l ->
  (exists k f, (k, f) ∈ l /\ size <= r_end (block f) - r_start (block f) /\
     find_fit l size = Ret (Some (k, mk_range (r_end (block f) - size) (r_end (block f)))) /\
     forall k' f', (k', f') ∈ l -> size <= r_end (block f') - r_start (block f') -> k <= k') \/
  (find_fit l size = Ret None /\
   forall k f, (k, f) ∈ l -> r_end (block f) - r_start (block f) < size).
Proof.
  intros Hs Hwf Hsort. induction l as [|[k f] l IH]; cbn [find_fit].
  { right. split; [done|]. set_solver. }
  inversion Hsort as [|??? Hall]; subst. rewrite Forall_forall in Hall.
  pose proof (Hwf k f ltac:(set_solver)).
  rewrite (usub_ok (r_end (block f)) (r_start (block f))) by lia.
  cbn [mbind outcome_bind]. zcase.
  - left. exists k, f. split_and!; [set_solver|lia| |].
    + by rewrite usub_ok by lia.
    + intros k' f' [[= -> ->]|Hin]%elem_of_cons Hsz; [lia|]. by apply (Hall (k', f')).
  - destruct IH as [(k' & f' & ? & ? & ? & Hmin)|[-> Hno]]; [set_solver|done| |].
    + left. exists k', f'. split_and!; [set_solver|done|done|].
      intros k'' f'' [[= -> ->]|Hin]%elem_of_cons Hsz; [lia|]. by apply (Hmin k'' f'').
    + right. split; [done|]. intros k' f' [[= -> ->]|Hin]%elem_of_cons; [lia|eauto].
Qed.

(** ** The abstract allocator: the set of free addresses *)

Definition represents (self : RangeAllocator) (full : range) (F : Z -> Prop) : Prop :=
  fullrange self = full /\ wf_full full /\ freelist_wf full (get_freelist_guard self) /\
  forall a, F a <-> free_addr (get_freelist_guard self) a.

Definition minus (F : Z -> Prop) (r : range) : Z -> Prop := fun a => F a /\ ~ in_range r a.
Definition plus (F : Z -> Prop) (r : range) : Z -> Prop := fun a => F a \/ in_range r a.
Definition all_free (F : Z -> Prop) (r : range) : Prop := forall a, in_range r a -> F a.

Lemma new_represents full : wf_full full -> represents (new full) full (in_range full).
Proof.
  intros Hw. split_and!; [done|done| |]; unfold get_freelist_guard; cbn [new freelist fullrange].
  - split; intros k f; rewrite ?insert_empty.
    + intros [<- <-]%lookup_singleton_Some. cbn. unfold wf_full in Hw. lia.
    + intros k' f' [<- <-]%lookup_singleton_Some [<- <-]%lookup_singleton_Some. lia.
  - intros a. unfold free_addr. rewrite insert_empty. setoid_rewrite lookup_singleton_Some.
    split; [intros; by exists (r_start full), (FreeRange_new full)|].
    by intros (k & f & [<- <-] & ?).
Qed.

Lemma carve_represents self full F k f lo hi :
  represents self full F -> get_freelist_guard self !! k = Some f -> k <= lo < hi ->
  hi <= r_end (block f) ->
  represents (with_freelist self (carve (get_freelist_guard self) k f lo hi)) full
    (minus F (mk_range lo hi)).
Proof.
  intros (Hfull & Hw & Hwf & HF) Hf Hlo Hhi.
  destruct (carve_ok full _ k f lo hi Hwf Hf Hlo Hhi) as [Hwf' Hfree].
  split_and!; [done|done|exact Hwf'|]. intros a. cbn. rewrite Hfree. unfold minus. by rewrite HF.
Qed.

Lemma range_alloc_specific_refines self full F r :
  represents self full F -> 0 <= r_start r < r_end r ->
  exists ok self', alloc_specific self r = Ret (ok, self') /\
    (ok = true <-> all_free F r) /\
    represents self' full (if ok then minus F r else F).
Proof.
  intros Hrep Hr. pose proof Hrep as (Hfull & Hw & Hwf & HF). unfold alloc_specific.
  assert (debug_assert debug_assertions (mret (r_start r <? r_end r)) = Ret tt) as ->.
  { unfold debug_assert. destruct debug_assertions; [|done]. cbn.
    by rewrite (proj2 (Z.ltb_lt _ _)) by lia. }
  cbn [mbind outcome_bind]. set (fl := get_freelist_guard self) in *.
  destruct (find_specific_ok (btree_iter fl) r ltac:(lia))
    as [(k & f & Hin & Hs & He & ->)|[-> Hno]]; cbn [mbind outcome_bind].
  - apply elem_of_btree_iter in Hin. rewrite Hin. pose proof (proj1 Hwf _ _ Hin) as (Hk & ? & ? & ?).
    exists true, (with_freelist self (carve fl k f (r_start r) (r_end r))). split_and!.
    + unfold carve. rewrite <- Hk.
      destruct (negb (r_end (block f) - r_end r =? 0)); [|done].
      rewrite (proj2 (uadd_Ret 64 _ _ (r_end (block f)))); [done|].
      unfold wf_full in Hw. lia.
    + split; [intros _ a Ha|done]. apply HF. exists k, f. unfold in_range in *. split; [done|lia].
    + destruct r as [lo hi]. apply carve_represents; cbn in *; auto; lia.
  - exists false, (with_freelist self fl). split_and!; [done| |done].
    split; [done|]. intros Hall.
    destruct (run_in_block full fl (r_start r) (r_end r)) as (k & f & Hf & ? & ?); auto; [lia| |].
    { intros a Ha. apply HF, Hall. done. }
    destruct (Hno k f); [by apply elem_of_btree_iter|]. destruct (proj1 Hwf _ _ Hf) as (<- & _). auto.
Qed.
Lemma range_alloc_refines self full F size :
  represents self full F -> 0 < size ->
  exists o self', alloc self size = Ret (o, self') /\
    match o with
    | Some r =>
        r_end r - r_start r = size /\ represents self' full (minus F r) /\ ~ F (r_end r) /\
        exists s, s <= r_start r /\ all_free F (mk_range s (r_end r)) /\
          forall x, all_free F (mk_range x (x + size)) -> s <= x
    | None => represents self' full F /\ forall x, ~ all_free F (mk_range x (x + size))
    end.
Proof.
  intros Hrep Hs. pose proof Hrep as (Hfull & Hw & Hwf & HF). unfold alloc.
  set (fl := get_freelist_guard self) in *. pose proof Hwf as [Hb _].
  assert (Hrun : forall x, all_free F (mk_range x (x + size)) ->
    exists k f, fl !! k = Some f /\ k <= x /\ x + size <= r_end (block f)).
  { intros x Hx. apply (run_in_block full); [done|lia|]. intros a Ha. by apply HF, Hx. }
  destruct (find_fit_ok (btree_iter fl) size Hs) as [(k & f & Hin & Hsz & -> & Hmin)|[-> Hno]];
    [|apply btree_iter_sorted| |]; cbn [mbind outcome_bind].
  { intros k f Hin%elem_of_btree_iter. pose proof (Hb _ _ Hin). unfold wf_full in Hw. lia. }
  - apply elem_of_btree_iter in Hin. rewrite Hin. destruct (Hb _ _ Hin) as (Hk & ? & ? & ?).
    unfold wf_full in Hw. rewrite usub_ok by lia. cbn [mbind outcome_bind]. rewrite <- Hk in *.
    eexists (Some _), (with_freelist self (carve fl k f (r_end (block f) - size) (r_end (block f)))).
    split.
    { unfold carve. rewrite Z.sub_diag. cbn [Z.eqb negb].
      destruct (Z.eqb_spec (r_end (block f) - size) k), (Z.eqb_spec (r_end (block f) - size - k) 0);
        done || lia. }
    cbn [r_start r_end]. split_and!; [lia|apply carve_represents; auto; lia| |].
    + rewrite HF. by apply (block_end_not_free full _ k).
    + exists k. split_and!; [lia| |].
      * intros a Ha. apply HF. exists k, f. unfold in_range in *. cbn in Ha. split; [done|lia].
      * intros x (k' & f' & Hf' & ? & ?)%Hrun. transitivity k'; [|lia].
        apply (Hmin k' f'); [by apply elem_of_btree_iter|]. destruct (Hb _ _ Hf'). lia.
  - exists None, (with_freelist self fl). split_and!; [done|done|].
    intros x (k' & f' & Hf' & ? & ?)%Hrun. destruct (Hb _ _ Hf').
    specialize (Hno k' f' ltac:(by apply elem_of_btree_iter)). lia.
Qed.

(** *** Freeing *)

Lemma merge_prev_ok full fl r :
  freelist_wf full fl ->
  let '(start, fl') := merge_prev fl r in
  (start = r_start r /\ fl' = fl /\ forall k f, fl !! k = Some f -> r_end (block f) <> r_start r) \/
  (start < r_start r /\ fl' = delete start fl /\
   fl !! start = Some (FreeRange_new (mk_range start (r_start r)))).
Proof.
  intros [Hb Hg]. unfold merge_prev.
  destruct (btree_prev fl (r_start r)) as [[k p]|] eqn:Hp.
  - apply btree_prev_Some in Hp as (Hp & Hlt & Hmax). destruct (Hb _ _ Hp) as (Hk & ? & ? & ?).
    zcase; [right|left].
    + rewrite <- Hk. split_and!; [done|done|]. rewrite Hp. destruct p as [[]]. cbn in *. congruence.
    + split_and!; [done|done|]. intros j g Hj He. destruct (Hb _ _ Hj) as (? & ? & ? & ?).
      pose proof (Hmax j g Hj ltac:(lia)).
      destruct (Z.eq_dec j k) as [->|]; [congruence|]. pose proof (Hg _ _ _ _ Hj Hp ltac:(lia)). lia.
  - left. split_and!; [done|done|]. intros j g Hj He. destruct (Hb _ _ Hj) as (? & ? & ? & ?).
    pose proof (btree_prev_None _ _ _ _ Hp Hj). lia.
Qed.

(** The free list after [free]: the range joined with its neighbours. *)
Definition joined (fl : gmap Z FreeRange) (r : range) (start end_ : Z) (fl' : gmap Z FreeRange) : Prop :=
  (start = r_start r /\ (forall k f, fl !! k = Some f -> r_end (block f) <> r_start r) \/
   start < r_start r /\ fl !! start = Some (FreeRange_new (mk_range start (r_start r)))) /\
  (end_ = r_end r /\ (forall g, fl !! r_end r <> Some g) \/
   r_end r < end_ /\ fl !! r_end r = Some (FreeRange_new (mk_range (r_end r) end_))) /\
  forall j g, fl' !! j = Some g <->
    (j = start /\ g = FreeRange_new (mk_range start end_)) \/
    (fl !! j = Some g /\ r_end (block g) <> r_start r /\ j <> r_end r).

Lemma merge_next_ok fl start e :
  start < e -> (forall j g, fl !! j = Some g -> j = r_start (block g)) ->
  (forall g, fl !! start = Some g -> False) ->
  (forall j g, fl !! j = Some g -> start < j -> e <= j) ->
  exists end_ fl',
    merge_next (<[start := FreeRange_new (mk_range start e)]> fl) start e = Ret fl' /\
    (end_ = e /\ (forall g, fl !! e <> Some g) \/ fl !! e = Some (FreeRange_new (mk_range e end_))) /\
    forall j g, fl' !! j = Some g <->
      (j = start /\ g = FreeRange_new (mk_range start end_)) \/ (fl !! j = Some g /\ j <> e).
Proof.
  intros Hlt Hb Hs Hpast. unfold merge_next.
  set (fl2 := <[start := _]> fl).
  assert (H2 : forall j g, fl2 !! j = Some g <->
    (j = start /\ g = FreeRange_new (mk_range start e)) \/ fl !! j = Some g).
  { intros j g. unfold fl2. rewrite lookup_insert_Some. naive_solver. }
  destruct (btree_next fl2 start) as [[nk nf]|] eqn:Hn.
  - apply btree_next_Some in Hn as (Hnk & Hns & Hmin).
    apply H2 in Hnk as [[-> _]|Hnk]; [lia|]. pose proof (Hb _ _ Hnk) as Hnb. rewrite <- Hnb.
    destruct (Z.eqb_spec e nk) as [->|Hne].
    + exists (r_end (block nf)). rewrite lookup_delete_ne by lia. unfold fl2.
      rewrite lookup_insert_eq. cbn [unwrap mbind outcome_bind block r_start].
      eexists. split; [done|]. split; [right; rewrite Hnk; destruct nf as [[]]; cbn in *; congruence|].
      intros j g. rewrite lookup_insert_Some, lookup_delete_Some, lookup_insert_Some. naive_solver.
    + assert (Hno : forall g, fl !! e <> Some g).
      { intros g He. pose proof (Hmin e g ltac:(apply H2; auto) Hlt).
        pose proof (Hpast _ _ Hnk Hns). lia. }
      exists e, fl2. split; [done|]. split; [auto|]. intros j g. rewrite H2. naive_solver.
  - assert (Hno : forall g, fl !! e <> Some g).
    { intros g He. pose proof (btree_next_None _ _ _ g Hn ltac:(apply H2; eauto)). lia. }
    exists e, fl2. split; [done|]. split; [auto|]. intros j g. rewrite H2. naive_solver.
Qed.

Lemma free_joined full fl r :
  freelist_wf full fl -> r_start r < r_end r -> (forall a, in_range r a -> ~ free_addr fl a) ->
  exists start end_ fl',
    (let '(start, fl) := merge_prev fl r in
     merge_next (<[start := FreeRange_new (mk_range start (r_end r))]> fl) start (r_end r)) = Ret fl' /\
    joined fl r start end_ fl'.
Proof.
  intros Hwf Hr Hdis. pose proof Hwf as [Hb Hg].
  pose proof (merge_prev_ok full fl r Hwf) as Hmp.
  destruct (merge_prev fl r) as [start fl1]. exists start.
  set (fl2 := <[start := FreeRange_new (mk_range start (r_end r))]> fl1).
  assert (Hstart : start <= r_start r) by lia.
  assert (Hout : forall j g, fl !! j = Some g -> ~ (r_start r <= j < r_end r)).
  { intros j g Hj Hin. apply (Hdis j Hin). exists j, g. destruct (Hb _ _ Hj). unfold in_range.
    split; [done|lia]. }
  assert (H1 : forall j g, fl1 !! j = Some g <-> fl !! j = Some g /\ r_end (block g) <> r_start r).
  { intros j g. destruct Hmp as [(-> & -> & Hno)|(Hlt & -> & Hp)]; [naive_solver|].
    rewrite lookup_delete_Some. split.
    - intros [Hne Hj]. split; [done|]. intros He.
      destruct (Hb _ _ Hj) as (? & ? & ? & ?), (Hb _ _ Hp) as (_ & ? & ? & ?). cbn in *.
      destruct (Z.lt_trichotomy j start) as [H'|[H'|H']]; [|congruence|].
      + pose proof (Hg _ _ _ _ Hj Hp H'). lia.
      + pose proof (Hg _ _ _ _ Hp Hj H') as Hx. cbn in Hx. lia.
    - intros [Hj He]. split; [|done]. intros <-. rewrite Hp in Hj. by injection Hj as <-. }
  assert (Hs1 : forall g, fl1 !! start = Some g -> False).
  { intros g Hg1. destruct Hmp as [(-> & -> & _)|(_ & -> & _)].
    - by apply (Hout _ _ Hg1); lia.
    - by rewrite lookup_delete_eq in Hg1. }
  assert (Hpast : forall j g, fl1 !! j = Some g -> start < j -> r_end r <= j).
  { intros j g [Hj He]%H1 Hlt. pose proof (Hout j g Hj).
    destruct Hmp as [(-> & _)|(_ & _ & Hp)]; [lia|].
    pose proof (Hg _ _ _ _ Hp Hj Hlt) as Hx. cbn in Hx. lia. }
  destruct (merge_next_ok fl1 start (r_end r)) as (end_ & fl' & Hm & Hend & Hl'); auto; [lia|..].
  { intros j g [Hj _]%H1. by destruct (Hb _ _ Hj). }
  exists end_, fl'. split; [exact Hm|]. split_and!.
  - destruct Hmp as [(-> & _ & ?)|(? & _ & ?)]; auto.
  - destruct Hend as [[-> Hno]|Hn].
    + left. split; [done|]. intros g Hg'. apply (Hno g), H1. split; [done|].
      destruct (Hb _ _ Hg') as (? & ? & ? & ?). lia.
    + right. apply H1 in Hn as [Hn _]. destruct (Hb _ _ Hn) as (_ & _ & ? & _). auto.
  - intros j g. rewrite Hl', H1. tauto.
Qed.

(** A block that is not joined keeps a gap to the joined one. *)
Lemma joined_gap full fl r start end_ fl' j g :
  freelist_wf full fl -> r_start r < r_end r -> (forall a, in_range r a -> ~ free_addr fl a) ->
  joined fl r start end_ fl' ->
  fl !! j = Some g -> r_end (block g) <> r_start r -> j <> r_end r ->
  (r_end (block g) < start \/ end_ < j).
Proof.
  intros [Hb Hg] Hr Hdis (Hs & He & _) Hj Hne1 Hne2. destruct (Hb _ _ Hj) as (Hk & ? & ? & ?).
  assert (r_end (block g) < r_start r \/ r_end r < j) as [Hlt|Hgt].
  { destruct (Z.lt_ge_cases (r_end (block g)) (r_start r)); [auto|].
    destruct (Z.lt_ge_cases (r_end r) j); [auto|]. exfalso.
    apply (Hdis (Z.max j (r_start r))); [|exists j, g; split; [done|]]; unfold in_range; lia. }
  - left. destruct Hs as [[-> _]|[Hslt Hp]]; [done|]. destruct (Hb _ _ Hp) as (_ & _ & ? & _).
    destruct (Z.lt_trichotomy j start) as [H'|[->|H']]; [by apply (Hg _ _ _ _ Hj Hp)| |].
    + rewrite Hp in Hj. injection Hj as <-. cbn in *. lia.
    + pose proof (Hg _ _ _ _ Hp Hj H') as Hx. cbn in Hx. lia.
  - right. destruct He as [[-> _]|[Helt Hn]]; [done|].
    apply (Hg _ _ _ _ Hn Hj) in Hgt. done.
Qed.

Lemma joined_ok full fl r start end_ fl' :
  freelist_wf full fl -> r_start r < r_end r -> (forall a, in_range r a -> ~ free_addr fl a) ->
  r_start full <= r_start r -> r_end r <= r_end full -> joined fl r start end_ fl' ->
  freelist_wf full fl' /\ forall a, free_addr fl' a <-> free_addr fl a \/ in_range r a.
Proof.
  intros Hwf Hr Hdis Hlo Hhi Hj. pose proof Hwf as [Hb Hg]. pose proof Hj as (Hs & He & Hl).
  assert (r_start full <= start /\ start <= r_start r /\ r_end r <= end_ /\ end_ <= r_end full).
  { split_and!.
    - destruct Hs as [[-> _]|[? Hp]]; [done|]. by destruct (Hb _ _ Hp) as (_ & ? & _).
    - lia.
    - lia.
    - destruct He as [[-> _]|[? Hn]]; [done|]. by destruct (Hb _ _ Hn) as (_ & _ & _ & ?). }
  assert (Hgap : forall j g, fl !! j = Some g -> r_end (block g) <> r_start r -> j <> r_end r ->
    r_end (block g) < start \/ end_ < j) by eauto using joined_gap.
  split; [split|].
  - intros j g [[-> ->]|(Hj' & _)]%Hl; [cbn; lia|]. by apply Hb.
  - intros j g j' g' [[-> ->]|(Hj1 & ? & ?)]%Hl [[-> ->]|(Hj2 & ? & ?)]%Hl Hlt; cbn; try lia.
    + destruct (Hgap _ _ Hj2); auto. destruct (Hb _ _ Hj2). lia.
    + destruct (Hgap _ _ Hj1); auto. lia.
    + by apply (Hg _ _ _ _ Hj1 Hj2).
  - intros a. unfold free_addr, in_range. setoid_rewrite Hl. split.
    + intros (j & g & [[-> ->]|(Hj' & _)] & Hin); [|eauto]. cbn in Hin.
      destruct (Z.lt_ge_cases a (r_start r)); [left|destruct (Z.lt_ge_cases a (r_end r)); [auto|left]].
      * destruct Hs as [[-> _]|[? Hp]]; [lia|]. exists start, (FreeRange_new (mk_range start (r_start r))).
        cbn. split; [done|lia].
      * destruct He as [[-> _]|[? Hn]]; [lia|]. exists (r_end r), (FreeRange_new (mk_range (r_end r) end_)).
        cbn. split; [done|lia].
    + assert (Hin : start <= a < end_ -> exists k f, (k = start /\ f = FreeRange_new (mk_range start end_) \/
        fl !! k = Some f /\ r_end (block f) <> r_start r /\ k <> r_end r) /\
        r_start (block f) <= a < r_end (block f)) by (intros; exists start, (FreeRange_new (mk_range start end_)); auto).
      intros [(k & f & Hf & Ha)|Ha]; [|apply Hin; lia].
      destruct (Hb _ _ Hf) as (Hk & ? & ? & ?).
      destruct (Z.eq_dec (r_end (block f)) (r_start r)) as [E|]; [apply Hin|
        destruct (Z.eq_dec k (r_end r)) as [->|]; [apply Hin|exists k, f; split; [right|]; auto]].
      * destruct Hs as [[_ Hno]|[? Hp]]; [by destruct (Hno _ _ Hf)|].
        destruct (Hb _ _ Hp) as (_ & ? & ? & ?). cbn in *.
        destruct (Z.lt_trichotomy k start) as [H'|[H'|H']]; [|lia|].
        -- pose proof (Hg _ _ _ _ Hf Hp H'). lia.
        -- pose proof (Hg _ _ _ _ Hp Hf H') as Hx. cbn in Hx. lia.
      * destruct He as [[_ Hno]|[? Hn]]; [by destruct (Hno f)|].
        rewrite Hf in Hn. injection Hn as ->. cbn in *. lia.
Qed.

Lemma range_free_refines self full F r :
  represents self full F -> freelist self <> None ->
  r_start full <= r_start r -> r_start r < r_end r -> r_end r <= r_end full ->
  (forall a, in_range r a -> ~ F a) ->
  exists self', free self r = Ret self' /\ represents self' full (plus F r) /\
    freelist self' <> None.
Proof.
  intros (Hfull & Hw & Hwf & HF) Hinit Hlo Hr Hhi Hdis. unfold free, get_freelist_guard in *.
  destruct (freelist self) as [fl|]; [|done]. cbn [unwrap mbind outcome_bind].
  setoid_rewrite HF in Hdis.
  destruct (free_joined full fl r Hwf Hr Hdis) as (start & end_ & fl' & Hm & Hj).
  destruct (merge_prev fl r) as [start' fl1]. rewrite Hm. cbn.
  destruct (joined_ok full fl r start end_ fl' Hwf Hr Hdis Hlo Hhi Hj) as [Hwf' HF'].
  eexists. split; [done|]. split; [|done]. split_and!; [done|done|done|].
  intros a. cbn. rewrite HF'. unfold plus. by rewrite HF.
Qed.

(** ** The allocator and its clients

    A step of the system: a client allocates, or gives back a range it holds. *)
Inductive client_op :=
| CAlloc (size : Z) | CAllocSpecific (r : range) | CFree (i : nat).

Definition valid_op (held : list range) (o : client_op) : Prop :=
  match o with
  | CAlloc size => 0 < size
  | CAllocSpecific r => 0 <= r_start r < r_end r
  | CFree i => (i < length held)%nat
  end.

(** The allocator and the ranges that are held. *)
Definition client_step (self : RangeAllocator) (held : list range) (o : client_op)
    : outcome (RangeAllocator * list range) :=
  match o with
  | CAlloc size => '(r, self') ← alloc self size; mret (self', option_list r ++ held)
  | CAllocSpecific r =>
      '(ok, self') ← alloc_specific self r; mret (self', (if (ok : bool) then [r] else []) ++ held)
  | CFree i =>
      r ← unwrap (held !! i); self' ← free self r; mret (self', delete i held)
  end.

Inductive reachable (full : range) : RangeAllocator -> list range -> Prop :=
| reach_new : reachable full (new full) []
| reach_step self held o self' held' :
    reachable full self held -> valid_op held o ->
    client_step self held o = Ret (self', held') -> reachable full self' held'.

(** Every address is free or in exactly one held range. *)
Definition partitioned (full : range) (F : Z -> Prop) (held : list range) : Prop :=
  (forall r, r ∈ held -> r_start full <= r_start r /\ r_start r < r_end r /\ r_end r <= r_end full) /\
  (forall i j r s a, held !! i = Some r -> held !! j = Some s -> in_range r a -> in_range s a -> i = j) /\
  (forall a, in_range full a -> F a \/ exists r, r ∈ held /\ in_range r a) /\
  (forall r a, r ∈ held -> in_range r a -> ~ F a).

Lemma represents_in_full self full F a : represents self full F -> F a -> in_range full a.
Proof.
  intros (_ & _ & [Hb _] & HF) (k & f & Hf & Hin)%HF. destruct (Hb _ _ Hf) as (? & ? & ? & ?).
  unfold in_range in *. lia.
Qed.

(** Handing out a free range keeps the partition. *)
Lemma partitioned_take full F held r :
  partitioned full F held -> (forall a, F a -> in_range full a) -> all_free F r ->
  r_start r < r_end r -> partitioned full (minus F r) (r :: held).
Proof.
  intros (Hin & Hdis & Hcov & Hnf) HFull Hall Hr.
  pose proof (HFull _ (Hall (r_start r) ltac:(unfold in_range; lia))) as H1.
  pose proof (HFull _ (Hall (r_end r - 1) ltac:(unfold in_range; lia))) as H2.
  unfold in_range in H1, H2. split_and!.
  - intros s [->|Hs]%elem_of_cons; [lia|auto].
  - intros [|i] [|j] s t a; cbn; intros Hs Ht Ha Hb; simplify_eq; [done| | |f_equal; eauto].
    + destruct (Hnf t a); eauto using list_elem_of_lookup_2.
    + destruct (Hnf s a); eauto using list_elem_of_lookup_2.
  - intros a Ha. unfold minus. destruct (decide (r_start r <= a < r_end r)) as [?|Hn].
    + right. exists r. split; [set_solver|done].
    + destruct (Hcov a Ha) as [?|(s & ? & ?)]; [auto|]. right. exists s. split; [set_solver|done].
  - intros s a [->|Hs]%elem_of_cons Ha [HF Hn]; [done|]. by apply (Hnf s a).
Qed.

(** Giving back a held range keeps the partition. *)
Lemma partitioned_give full F held i r :
  partitioned full F held -> held !! i = Some r -> partitioned full (plus F r) (delete i held).
Proof.
  intros (Hin & Hdis & Hcov & Hnf) Hi.
  assert (Hdel : forall j s, delete i held !! j = Some s ->
    exists j', j' <> i /\ held !! j' = Some s /\ (j' = j /\ (j < i)%nat \/ j' = S j /\ (i <= j)%nat)).
  { intros j s Hj. destruct (decide (j < i)%nat).
    - rewrite list_lookup_delete_lt in Hj by done. exists j. split_and!; auto; lia.
    - rewrite list_lookup_delete_ge in Hj by lia. exists (S j). split_and!; auto; lia. }
  split_and!.
  - intros s [j Hj]%list_elem_of_lookup. destruct (Hdel _ _ Hj) as (j' & _ & ? & _).
    eauto using list_elem_of_lookup_2.
  - intros j k s t a Hj Hk Ha Hb. destruct (Hdel _ _ Hj) as (j' & _ & Hj' & ?),
      (Hdel _ _ Hk) as (k' & _ & Hk' & ?). assert (j' = k') by eauto. lia.
  - intros a Ha. unfold plus. destruct (Hcov a Ha) as [?|(s & [j Hj]%list_elem_of_lookup & Hs)]; [auto|].
    destruct (decide (j = i)) as [->|Hne]; [rewrite Hi in Hj; injection Hj as ->; auto|].
    right. exists s. split; [|done]. apply list_elem_of_lookup.
    destruct (decide (j < i)%nat).
    + exists j. by rewrite list_lookup_delete_lt.
    + exists (j - 1)%nat. rewrite list_lookup_delete_ge by lia. by replace (S (j - 1)) with j by lia.
  - intros s a [j Hj]%list_elem_of_lookup Ha [HF|Hr]; destruct (Hdel _ _ Hj) as (j' & Hne & Hj' & _).
    + apply (Hnf s a); eauto using list_elem_of_lookup_2.
    + destruct Hne. eauto.
Qed.

Definition client_inv (full : range) (self : RangeAllocator) (held : list range) : Prop :=
  exists F, represents self full F /\ partitioned full F held /\
    (held <> [] -> freelist self <> None).

Lemma all_free_weaken F s lo hi : s <= lo -> all_free F (mk_range s hi) -> all_free F (mk_range lo hi).
Proof. intros Hs Hall a Ha. apply Hall. unfold in_range in *. cbn in *. lia. Qed.

Lemma alloc_initializes self size r self' : alloc self size = Ret (r, self') -> freelist self' <> None.
Proof.
  unfold alloc. intros ([[k f]|] & _ & H)%bind_Ret.
  - apply bind_Ret in H as (fl & _ & H). by injection H as <- <-.
  - by injection H as <- <-.
Qed.

Lemma alloc_specific_initializes self r ok self' :
  alloc_specific self r = Ret (ok, self') -> freelist self' <> None.
Proof.
  unfold alloc_specific. intros (_ & _ & ([[[k f] g]|] & _ & H)%bind_Ret)%bind_Ret.
  - apply bind_Ret in H as (fl & _ & H). by injection H as <- <-.
  - by injection H as <- <-.
Qed.

Lemma client_step_inv full self held o :
  client_inv full self held -> valid_op held o ->
  exists self' held', client_step self held o = Ret (self', held') /\ client_inv full self' held'.
Proof.
  intros (F & Hrep & Hpart & Hinit) Hv.
  pose proof (fun a => represents_in_full self full F a Hrep) as HFull.
  destruct o as [size|r|i]; cbn in Hv |- *.
  - destruct (range_alloc_refines self full F size Hrep Hv) as (o & self' & Ha & Ho).
    pose proof (alloc_initializes _ _ _ _ Ha). rewrite Ha. cbn. do 2 eexists. split; [done|].
    destruct o as [[lo hi]|]; cbn in Ho |- *.
    + destruct Ho as (Hsz & Hrep' & _ & s & Hs & Hall & _). exists (minus F (mk_range lo hi)).
      split_and!; auto. apply partitioned_take; auto; [by apply (all_free_weaken F s)|cbn; lia].
    + exists F. split_and!; auto. apply Ho.
  - destruct (range_alloc_specific_refines self full F r Hrep Hv) as (ok & self' & Ha & Hok & Hrep').
    pose proof (alloc_specific_initializes _ _ _ _ Ha). rewrite Ha. cbn. do 2 eexists. split; [done|].
    destruct ok; cbn.
    + exists (minus F r). split_and!; auto. apply partitioned_take; auto; [by apply Hok|lia].
    + exists F. auto.
  - destruct (lookup_lt_is_Some_2 held i Hv) as [r Hr]. rewrite Hr. cbn.
    pose proof (list_elem_of_lookup_2 _ _ _ Hr) as Hin. pose proof Hpart as (Hb & _ & _ & Hnf).
    destruct (Hb r Hin) as (? & ? & ?).
    destruct (range_free_refines self full F r) as (self' & -> & Hrep' & Hinit'); auto.
    { apply Hinit. by intros ->. }
    { eauto. }
    do 2 eexists. split; [done|]. exists (plus F r). split_and!; auto. by apply partitioned_give.
Qed.

Lemma range_reachable_inv full self held : wf_full full -> reachable full self held -> client_inv full self held.
Proof.
  intros Hw. induction 1 as [|self held o self' held' _ IH Hv Hs].
  - exists (in_range full). split_and!; [by apply new_represents| |done].
    split_and!; [set_solver|done|auto|set_solver].
  - destruct (client_step_inv full self held o IH Hv) as (s & h & Hs' & Hinv).
    rewrite Hs in Hs'. by injection Hs' as -> ->.
Qed.

(** C33: whatever clients do, as long as each gives back only ranges it holds, no operation of
    the allocator panics and the addresses of the full range stay partitioned between the
    free list and the held ranges: the held ranges are nonempty, inside the full range and
    pairwise disjoint, and none of their addresses is free. *)
Theorem range_alloc_safe full self held o :
  wf_full full -> reachable full self held -> valid_op held o ->
  (exists F, represents self full F /\ partitioned full F held) /\
  exists self' held', client_step self held o = Ret (self', held').
Proof.
  intros Hw Hr Hv. pose proof (range_reachable_inv full self held Hw Hr) as Hinv.
  destruct (client_step_inv full self held o Hinv Hv) as (self' & held' & ? & _).
  destruct Hinv as (F & ? & ? & _). eauto 6.
Qed.

(** The allocator is complete.  In a reachable state [alloc] fails only if every run of
    [size] addresses of the full range meets a held range; otherwise it cuts the result from
    the end of the lowest maximal free run that is long enough.  [alloc_specific] succeeds
    exactly if the range lies in the full range and meets no held range. *)
Theorem range_alloc_complete full self held size r :
  wf_full full -> reachable full self held -> 0 < size -> 0 <= r_start r < r_end r ->
  let unheld a := in_range full a /\ forall s, s ∈ held -> ~ in_range s a in
  (exists o self', alloc self size = Ret (o, self') /\
     match o with
     | None => forall x, ~ all_free unheld (mk_range x (x + size))
     | Some q => r_end q - r_start q = size /\ ~ unheld (r_end q) /\
         exists s, s <= r_start q /\ all_free unheld (mk_range s (r_end q)) /\
           forall x, all_free unheld (mk_range x (x + size)) -> s <= x
     end) /\
  exists ok self', alloc_specific self r = Ret (ok, self') /\ (ok = true <-> all_free unheld r).
Proof.
  intros Hw Hr Hs Hrr unheld.
  destruct (range_reachable_inv full self held Hw Hr) as (F & Hrep & Hpart & _).
  assert (HF : forall a, F a <-> unheld a).
  { intros a. destruct Hpart as (_ & _ & Hcov & Hnf). unfold unheld. split.
    - intros Ha. split; [by eapply represents_in_full|]. intros s Hs' Hin. by apply (Hnf s a).
    - intros [Hin Hno]. destruct (Hcov a Hin) as [?|(s & ? & ?)]; [done|]. by destruct (Hno s). }
  assert (Hall : forall q, all_free F q <-> all_free unheld q).
  { intros q. unfold all_free. setoid_rewrite HF. done. }
  destruct (range_alloc_refines self full F size Hrep Hs) as (o & self1 & Ha & Ho).
  destruct (range_alloc_specific_refines self full F r Hrep Hrr) as (ok & self2 & Hb & Hok & _).
  split; [exists o, self1|exists ok, self2; by rewrite <- Hall].
  split; [done|]. destruct o as [q|]; setoid_rewrite <- Hall; [|apply Ho].
  rewrite <- HF. destruct Ho as (? & _ & ? & ?). auto.
Qed.

End range_alloc.

(** A history in which two ranges are taken, one given back and one refused. *)
Definition sample_full : range := mk_range 0 100.
Definition sample_state : outcome (RangeAllocator * list range) :=
  '(s, h) ← client_step true (new sample_full) [] (CAlloc 10);
  '(s, h) ← client_step true s h (CAllocSpecific (mk_range 20 30));
  client_step true s h (CFree 1).

Lemma sample_reachable :
  exists self, sample_state = Ret (self, [mk_range 20 30]) /\
    reachable true sample_full self [mk_range 20 30].
Proof.
  eexists. split; [vm_compute; reflexivity|].
  eapply (reach_step _ _ _ [mk_range 20 30; mk_range 90 100] (CFree 1)).
  - eapply (reach_step _ _ _ [mk_range 90 100] (CAllocSpecific (mk_range 20 30))).
    + eapply (reach_step _ _ _ [] (CAlloc 10)); [apply reach_new|done|vm_compute; reflexivity].
    + cbn. lia.
    + vm_compute; reflexivity.
  - cbn. lia.
  - vm_compute. reflexivity.
Qed.

Lemma sample_wf_full : wf_full sample_full.
Proof. unfold wf_full, sample_full. cbn. lia. Qed.

Lemma range_alloc_safe_witness :
  exists self, sample_state = Ret (self, [mk_range 20 30]) /\
    exists self' held', client_step true self [mk_range 20 30] (CFree 0) = Ret (self', held').
Proof.
  destruct sample_reachable as (self & Hs & Hr). exists self. split; [done|].
  apply (range_alloc_safe true sample_full self [mk_range 20 30] (CFree 0)); auto using sample_wf_full.
  cbn. lia.
Defined.

Lemma range_alloc_complete_witness :
  exists self, sample_state = Ret (self, [mk_range 20 30]) /\
    exists ok self', alloc_specific true self (mk_range 25 40) = Ret (ok, self') /\
      (ok = true <-> all_free (fun a => in_range sample_full a /\
         forall s, s ∈ [mk_range 20 30] -> ~ in_range s a) (mk_range 25 40)).
Proof.
  destruct sample_reachable as (self & Hs & Hr). exists self. split; [done|].
  apply (range_alloc_complete true sample_full self [mk_range 20 30] 5 (mk_range 25 40));
    auto using sample_wf_full; cbn; lia.
Defined.
