(* ===== verification/CpuSet.v ===== *)
(** * [ostd/src/cpu/set.rs]: sets of CPUs as bit words

    [CpuSet] keeps one bit for each CPU in a small vector of 64-bit words, and
    [AtomicCpuSet] the same with atomic words.  The vector type is the external
    crate [smallvec]: it is the interface [SmallVec] with the laws of its
    documentation, and the list model below is an instance.  [num_cpus] is the
    number of CPUs that the boot code found.

    The theorems relate every operation to a finite set of CPU numbers. *)

From S2P Require Import Prelude.
Open Scope Z_scope.

(** ** The vector interface *)

Class SmallVec (V : Type) := {
  sv_with_capacity : nat -> V;
  sv_resize : V -> nat -> Z -> V;
  sv_len : V -> nat;
  sv_get : V -> nat -> outcome Z;
  sv_set : V -> nat -> Z -> outcome V;
  sv_fill : V -> Z -> V;
  sv_iter : V -> list Z;
  sv_collect : list Z -> V;
}.

Class SmallVecLaws V `{SmallVec V} := {
  sv_with_capacity_iter n : sv_iter (sv_with_capacity n) = [];
  sv_resize_iter v n x : sv_iter (sv_resize v n x) = resize n x (sv_iter v);
  sv_len_iter v : sv_len v = length (sv_iter v);
  sv_get_iter v i : sv_get v i = arr_get (sv_iter v) i;
  sv_set_iter v i x : (i < length (sv_iter v))%nat ->
    exists v', sv_set v i x = Ret v' /\ sv_iter v' = <[i := x]> (sv_iter v);
  sv_fill_iter v x : sv_iter (sv_fill v x) = replicate (length (sv_iter v)) x;
  sv_collect_iter l : sv_iter (sv_collect l) = l;
}.

Section cpu_set.
Context {V : Type} `{SV : SmallVec V}.
(** The number of CPUs. *)
Context (num_cpus : nat).

Definition BITS_PER_PART : nat := 64.

Record CpuSet := mk_CpuSet { bits : V }.

(** CPU ids are [nat]s. *)
Definition part_idx (cpu_id : nat) : nat := cpu_id / BITS_PER_PART.
Definition bit_idx (cpu_id : nat) : nat := cpu_id mod BITS_PER_PART.
Definition parts_for_cpus (n : nat) : nat :=
  Z.to_nat (div_ceil (Z.of_nat n) (Z.of_nat BITS_PER_PART)).

(** [1 << n] for [n < 64]. *)
Definition bit (n : nat) : Z := Z.shiftl 1 (Z.of_nat n).

Definition try_from (value : nat) : option nat :=
  if (value <? num_cpus)%nat then Some value else None.
Definition all_cpus : list nat := seq 0 num_cpus.

Definition with_capacity_val (n : nat) (val : Z) : CpuSet :=
  let num_parts := parts_for_cpus n in
  mk_CpuSet (sv_resize (sv_with_capacity num_parts) num_parts val).

Definition clear_nonexistent_cpu_bits (self : CpuSet) : outcome CpuSet :=
  if negb (num_cpus mod BITS_PER_PART =? 0)%nat then
    let i := (parts_for_cpus num_cpus - 1)%nat in
    w ← sv_get (bits self) i;
    m ← usub (bit (num_cpus mod BITS_PER_PART)) 1;
    v ← sv_set (bits self) i (Z.land w m);
    mret (mk_CpuSet v)
  else mret self.

Definition new_full : outcome CpuSet :=
  clear_nonexistent_cpu_bits (with_capacity_val num_cpus (unot 64 0)).
Definition new_empty : CpuSet := with_capacity_val num_cpus 0.

Definition add (self : CpuSet) (cpu_id : nat) : outcome CpuSet :=
  let part_idx := part_idx cpu_id in
  let bit_idx := bit_idx cpu_id in
  let v := if (sv_len (bits self) <=? part_idx)%nat
           then sv_resize (bits self) (part_idx + 1) 0 else bits self in
  w ← sv_get v part_idx;
  v ← sv_set v part_idx (Z.lor w (bit bit_idx));
  mret (mk_CpuSet v).

Definition remove (self : CpuSet) (cpu_id : nat) : outcome CpuSet :=
  let part_idx := part_idx cpu_id in
  let bit_idx := bit_idx cpu_id in
  if (part_idx <? sv_len (bits self))%nat then
    w ← sv_get (bits self) part_idx;
    v ← sv_set (bits self) part_idx (Z.land w (unot 64 (bit bit_idx)));
    mret (mk_CpuSet v)
  else mret self.

Definition contains (self : CpuSet) (cpu_id : nat) : outcome bool :=
  let part_idx := part_idx cpu_id in
  let bit_idx := bit_idx cpu_id in
  if (part_idx <? sv_len (bits self))%nat then
    w ← sv_get (bits self) part_idx;
    mret (negb (Z.land w (bit bit_idx) =? 0))
  else mret false.

(** [u64::count_ones]. *)
Definition count_ones (w : Z) : nat :=
  length (base.filter (fun i => Z.testbit w (Z.of_nat i) = true) (seq 0 64)).

(** The loop of [count], [idx] being the number of words read. *)
Fixpoint count_loop (self : CpuSet) (n idx count : nat) : outcome nat :=
  match n with
  | O => mret count
  | S n' =>
      part ← sv_get (bits self) idx;
      count ← addn count (count_ones part);
      count_loop self n' (idx + 1) count
  end.
Definition count (self : CpuSet) : outcome nat := count_loop self (sv_len (bits self)) 0 0.

Definition is_empty (self : CpuSet) : bool := forallb (fun part => part =? 0) (sv_iter (bits self)).

Fixpoint is_full_loop (self : CpuSet) (n idx : nat) : outcome bool :=
  match n with
  | O => mret true
  | S n' =>
      expected ← (if (idx =? sv_len (bits self) - 1)%nat && negb (num_cpus mod BITS_PER_PART =? 0)%nat
                  then usub (bit (num_cpus mod BITS_PER_PART)) 1 else mret (unot 64 0));
      part ← sv_get (bits self) idx;
      if negb (part =? expected) then mret false else is_full_loop self n' (idx + 1)
  end.
Definition is_full (self : CpuSet) : outcome bool := is_full_loop self (sv_len (bits self)) 0.

Definition add_all (self : CpuSet) : outcome CpuSet :=
  clear_nonexistent_cpu_bits (mk_CpuSet (sv_fill (bits self) (unot 64 0))).
Definition clear (self : CpuSet) : CpuSet := mk_CpuSet (sv_fill (bits self) 0).

Definition iter (self : CpuSet) : outcome (list nat) :=
  filterM (fun id =>
    w ← sv_get (bits self) (id / BITS_PER_PART);
    mret (negb (Z.land w (bit (id mod BITS_PER_PART)) =? 0)))
    (seq 0 (sv_len (bits self) * BITS_PER_PART)).

(** ** [AtomicCpuSet] *)

Inductive Ordering := Relaxed | Release | Acquire | AcqRel | SeqCst.

Record AtomicCpuSet := mk_AtomicCpuSet { abits : V }.

Definition atomic_new (value : CpuSet) : AtomicCpuSet :=
  mk_AtomicCpuSet (sv_collect (sv_iter (bits value))).

(** [AtomicU64::load] panics on [Release] and [AcqRel], [AtomicU64::store] on
    [Acquire] and [AcqRel]. *)
Definition atomic_load_word (o : Ordering) (w : Z) : outcome Z :=
  match o with Release | AcqRel => Panic | _ => mret w end.
Definition atomic_store_word (o : Ordering) (new : Z) : outcome Z :=
  match o with Acquire | AcqRel => Panic | _ => mret new end.

Definition load (self : AtomicCpuSet) (o : Ordering) : outcome CpuSet :=
  ws ← mapM (fun part => match o with
                         | Release => mret (Z.lor part 0)
                         | _ => atomic_load_word o part
                         end) (sv_iter (abits self));
  mret (mk_CpuSet (sv_collect ws)).

(** [zip] stops at the shorter of the two. *)
Fixpoint store_loop (v : V) (i : nat) (news : list Z) (o : Ordering) : outcome V :=
  match news with
  | [] => mret v
  | new :: news' =>
      if (i <? sv_len v)%nat then
        w ← atomic_store_word o new;
        v ← sv_set v i w;
        store_loop v (i + 1) news' o
      else mret v
  end.
Definition store (self : AtomicCpuSet) (value : CpuSet) (o : Ordering) : outcome AtomicCpuSet :=
  v ← store_loop (abits self) 0 (sv_iter (bits value)) o; mret (mk_AtomicCpuSet v).

Definition atomic_add (self : AtomicCpuSet) (cpu_id : nat) : outcome AtomicCpuSet :=
  if (part_idx cpu_id <? sv_len (abits self))%nat then
    w ← sv_get (abits self) (part_idx cpu_id);
    v ← sv_set (abits self) (part_idx cpu_id) (Z.lor w (bit (bit_idx cpu_id)));
    mret (mk_AtomicCpuSet v)
  else mret self.

Definition atomic_remove (self : AtomicCpuSet) (cpu_id : nat) : outcome AtomicCpuSet :=
  if (part_idx cpu_id <? sv_len (abits self))%nat then
    w ← sv_get (abits self) (part_idx cpu_id);
    v ← sv_set (abits self) (part_idx cpu_id) (Z.land w (unot 64 (bit (bit_idx cpu_id))));
    mret (mk_AtomicCpuSet v)
  else mret self.

Definition atomic_contains (self : AtomicCpuSet) (cpu_id : nat) (o : Ordering) : outcome bool :=
  if (part_idx cpu_id <? sv_len (abits self))%nat then
    w ← sv_get (abits self) (part_idx cpu_id);
    w ← atomic_load_word o w;
    mret (negb (Z.land w (bit (bit_idx cpu_id)) =? 0))
  else mret false.

(** ** The set of CPUs a vector of words stands for *)

Definition bit_at (ws : list Z) (i : nat) : bool :=
  match ws !! (i / 64)%nat with
  | Some w => Z.testbit w (Z.of_nat (i mod 64))
  | None => false
  end.

(** The representation invariant: as many words as the CPUs need, and no bit
    of a CPU that does not exist. *)
Definition words_inv (ws : list Z) : Prop :=
  length ws = parts_for_cpus num_cpus /\ Forall (uint 64) ws /\
  forall i, (num_cpus <= i)%nat -> bit_at ws i = false.
Definition inv (self : CpuSet) : Prop := words_inv (sv_iter (bits self)).

Definition view (self : CpuSet) : gset nat :=
  list_to_set (base.filter (fun i => bit_at (sv_iter (bits self)) i = true) (seq 0 num_cpus)).

Context `{SL : !SmallVecLaws V}.
Implicit Types (self : CpuSet) (ws : list Z) (i j : nat).

Lemma bit_pow2 n : bit n = 2 ^ Z.of_nat n.
Proof. unfold bit. by rewrite Z.shiftl_1_l. Qed.

Lemma mod_64 i : (i mod 64 < 64)%nat.
Proof. by apply Nat.mod_upper_bound. Qed.

Lemma div_mod_64 i : i = (64 * (i / 64) + i mod 64)%nat.
Proof. apply Nat.div_mod. lia. Qed.

Lemma same_bit i j : (i / 64 = j / 64)%nat -> (i mod 64 = j mod 64)%nat -> i = j.
Proof. intros. rewrite (div_mod_64 i), (div_mod_64 j). lia. Qed.

Lemma uint_bit n : (n < 64)%nat -> uint 64 (bit n).
Proof.
  intros Hn. rewrite bit_pow2. split; [lia|]. apply Z.pow_lt_mono_r; lia.
Qed.

Lemma bit_at_insert ws p w i :
  (p < length ws)%nat ->
  bit_at (<[p := w]> ws) i =
    if (i / 64 =? p)%nat then Z.testbit w (Z.of_nat (i mod 64)) else bit_at ws i.
Proof.
  intros Hp. unfold bit_at. destruct (Nat.eqb_spec (i / 64) p) as [->|].
  - by rewrite list_lookup_insert_eq.
  - by rewrite list_lookup_insert_ne.
Qed.

Lemma bit_at_test ws i w :
  ws !! (i / 64)%nat = Some w -> negb (Z.land w (bit (i mod 64)) =? 0) = bit_at ws i.
Proof. intros Hw. unfold bit_at. rewrite Hw, bit_pow2. apply land_pow2_testbit. lia. Qed.

Lemma elem_of_view self i : inv self -> i ∈ view self <-> bit_at (sv_iter (bits self)) i = true.
Proof.
  intros (_ & _ & Htail). unfold view.
  rewrite elem_of_list_to_set, list_elem_of_filter, elem_of_seq. split; [tauto|].
  intros Hb. split; [done|]. destruct (decide (i < num_cpus)%nat); [lia|].
  rewrite Htail in Hb by lia. done.
Qed.

Lemma view_eq self (A : gset nat) :
  inv self -> (forall i, i ∈ A <-> bit_at (sv_iter (bits self)) i = true) -> view self = A.
Proof. intros Hi HA. apply set_eq. intros i. by rewrite elem_of_view, HA. Qed.

(** Setting and clearing a bit of a word. *)
Lemma set_bit_at ws i w :
  ws !! (i / 64)%nat = Some w ->
  forall j, bit_at (<[(i / 64)%nat := Z.lor w (bit (i mod 64))]> ws) j = (j =? i)%nat || bit_at ws j.
Proof.
  intros Hw j. rewrite bit_at_insert by (by eapply lookup_lt_Some).
  destruct (Nat.eqb_spec (j / 64) (i / 64)) as [Hd|Hd].
  - unfold bit_at. rewrite Hd, Hw, Z.lor_spec, bit_pow2, testbit_pow2 by lia.
    destruct (Nat.eqb_spec j i) as [->|Hne].
    + by rewrite Z.eqb_refl, orb_true_r.
    + destruct (Z.eqb_spec (Z.of_nat (j mod 64)) (Z.of_nat (i mod 64))); [|by rewrite orb_false_r].
      destruct Hne. apply same_bit; lia.
  - destruct (Nat.eqb_spec j i) as [->|]; done.
Qed.

Lemma clear_bit_at ws i w :
  ws !! (i / 64)%nat = Some w ->
  forall j, bit_at (<[(i / 64)%nat := Z.land w (unot 64 (bit (i mod 64)))]> ws) j
    = negb (j =? i)%nat && bit_at ws j.
Proof.
  intros Hw j. rewrite bit_at_insert by (by eapply lookup_lt_Some). pose proof (mod_64 j).
  destruct (Nat.eqb_spec (j / 64) (i / 64)) as [Hd|Hd].
  - unfold bit_at. rewrite Hd, Hw, Z.land_spec, testbit_unot, bit_pow2, testbit_pow2 by lia.
    destruct (Nat.eqb_spec j i) as [->|Hne].
    + by rewrite Z.eqb_refl, andb_false_r.
    + destruct (Z.eqb_spec (Z.of_nat (j mod 64)) (Z.of_nat (i mod 64))); [|by rewrite andb_true_r].
      destruct Hne. apply same_bit; lia.
  - destruct (Nat.eqb_spec j i) as [->|]; done.
Qed.

Lemma parts_spec n : (n <= 64 * parts_for_cpus n < n + 64)%nat.
Proof.
  unfold parts_for_cpus, div_ceil, BITS_PER_PART. change (Z.of_nat 64) with 64.
  pose proof (Z.div_mod (Z.of_nat n) 64 ltac:(lia)). pose proof (Z.mod_pos_bound (Z.of_nat n) 64 ltac:(lia)).
  zcase; lia.
Qed.

Lemma part_lt i : (i < num_cpus)%nat -> (i / 64 < parts_for_cpus num_cpus)%nat.
Proof. intros Hi. pose proof (parts_spec num_cpus). apply Nat.Div0.div_lt_upper_bound. lia. Qed.

Lemma bit_at_ge ws i : (64 * length ws <= i)%nat -> bit_at ws i = false.
Proof.
  intros Hi. unfold bit_at. rewrite lookup_ge_None_2; [done|]. apply Nat.div_le_lower_bound; lia.
Qed.

Lemma word_uint ws p w : Forall (uint 64) ws -> ws !! p = Some w -> uint 64 w.
Proof. intros Hf Hw. by eapply Forall_lookup_1. Qed.

(** A CPU's word exists. *)
Lemma cpu_word self i : inv self -> (i < num_cpus)%nat ->
  exists w, sv_iter (bits self) !! (i / 64)%nat = Some w /\ uint 64 w /\
    sv_get (bits self) (i / 64) = Ret w.
Proof.
  intros (Hl & Hu & _) Hi. pose proof (part_lt i Hi).
  destruct (lookup_lt_is_Some_2 (sv_iter (bits self)) (i / 64)) as [w Hw]; [lia|].
  exists w. split_and!; [done|by eapply word_uint|]. rewrite sv_get_iter. by apply arr_get_Ret.
Qed.

Lemma add_ok self i : inv self -> (i < num_cpus)%nat ->
  exists self', add self i = Ret self' /\ inv self' /\ view self' = {[i]} ∪ view self.
Proof.
  intros Hinv Hi. pose proof (part_lt i Hi) as Hp. pose proof Hinv as (Hl & Hu & Ht).
  destruct (cpu_word self i Hinv Hi) as (w & Hw & Huw & Hg). unfold add, part_idx, bit_idx, BITS_PER_PART.
  rewrite sv_len_iter. destruct (Nat.leb_spec (length (sv_iter (bits self))) (i / 64)); [lia|].
  rewrite Hg. cbn [mbind outcome_bind].
  destruct (sv_set_iter (bits self) (i / 64) (Z.lor w (bit (i mod 64)))) as (v & -> & Hv); [lia|].
  cbn [mbind outcome_bind]. exists (mk_CpuSet v). split; [done|].
  pose proof (set_bit_at _ _ _ Hw) as Hb. rewrite <- Hv in Hb.
  assert (inv (mk_CpuSet v)) as Hinv'.
  { unfold inv. cbn. split_and!.
    - by rewrite Hv, length_insert.
    - rewrite Hv. apply Forall_insert; [done|]. apply uint_lor; auto; [lia|]. apply uint_bit, mod_64.
    - intros j Hj. rewrite Hb, Ht by done. by destruct (Nat.eqb_spec j i); [lia|]. }
  split; [done|]. apply view_eq; [done|]. intros j. cbn [bits].
  rewrite Hb, elem_of_union, elem_of_singleton, elem_of_view, orb_true_iff, Nat.eqb_eq by done. done.
Qed.

Lemma remove_ok self i : inv self -> (i < num_cpus)%nat ->
  exists self', remove self i = Ret self' /\ inv self' /\ view self' = view self ∖ {[i]}.
Proof.
  intros Hinv Hi. pose proof (part_lt i Hi) as Hp. pose proof Hinv as (Hl & Hu & Ht).
  destruct (cpu_word self i Hinv Hi) as (w & Hw & Huw & Hg).
  unfold remove, part_idx, bit_idx, BITS_PER_PART.
  rewrite sv_len_iter. destruct (Nat.ltb_spec (i / 64) (length (sv_iter (bits self)))); [|lia].
  rewrite Hg. cbn [mbind outcome_bind].
  destruct (sv_set_iter (bits self) (i / 64) (Z.land w (unot 64 (bit (i mod 64))))) as (v & -> & Hv); [lia|].
  cbn [mbind outcome_bind]. exists (mk_CpuSet v). split; [done|].
  pose proof (clear_bit_at _ _ _ Hw) as Hb. rewrite <- Hv in Hb.
  assert (inv (mk_CpuSet v)) as Hinv'.
  { unfold inv. cbn. split_and!.
    - by rewrite Hv, length_insert.
    - rewrite Hv. apply Forall_insert; [done|]. by apply uint_land.
    - intros j Hj. rewrite Hb, Ht by done. by rewrite andb_false_r. }
  split; [done|]. apply view_eq; [done|]. intros j. cbn [bits].
  rewrite Hb, elem_of_difference, elem_of_singleton, elem_of_view, andb_true_iff, negb_true_iff,
    Nat.eqb_neq by done. tauto.
Qed.

Lemma contains_ok self i : inv self -> (i < num_cpus)%nat ->
  contains self i = Ret (bool_decide (i ∈ view self)).
Proof.
  intros Hinv Hi. pose proof (part_lt i Hi) as Hp. pose proof Hinv as (Hl & Hu & Ht).
  destruct (cpu_word self i Hinv Hi) as (w & Hw & Huw & Hg).
  unfold contains, part_idx, bit_idx, BITS_PER_PART.
  rewrite sv_len_iter. destruct (Nat.ltb_spec (i / 64) (length (sv_iter (bits self)))); [|lia].
  rewrite Hg. cbn [mbind outcome_bind]. rewrite (bit_at_test _ _ _ Hw). f_equal.
  pose proof (elem_of_view self i Hinv) as Hv.
  case_bool_decide as Hd; rewrite Hv in Hd; [done|]. by apply not_true_is_false.
Qed.

Lemma testbit_low_mask n k : 0 <= n -> 0 <= k -> Z.testbit (2 ^ n - 1) k = (k <? n).
Proof.
  intros. replace (2 ^ n - 1) with (Z.ones n) by (rewrite Z.ones_equiv; lia).
  apply Z.testbit_ones_nonneg; lia.
Qed.

(** The last word when the number of CPUs is not a multiple of 64. *)
Lemma last_part : (num_cpus mod 64 <> 0)%nat ->
  (parts_for_cpus num_cpus - 1 = num_cpus / 64)%nat /\ (0 < parts_for_cpus num_cpus)%nat.
Proof.
  intros Hm. pose proof (parts_spec num_cpus). pose proof (div_mod_64 num_cpus).
  pose proof (mod_64 num_cpus). split; lia.
Qed.

Lemma clear_nonexistent_cpu_bits_ok self :
  length (sv_iter (bits self)) = parts_for_cpus num_cpus -> Forall (uint 64) (sv_iter (bits self)) ->
  exists self', clear_nonexistent_cpu_bits self = Ret self' /\ inv self' /\
    forall j, bit_at (sv_iter (bits self')) j = bit_at (sv_iter (bits self)) j && (j <? num_cpus)%nat.
Proof.
  intros Hl Hu. unfold clear_nonexistent_cpu_bits, BITS_PER_PART.
  pose proof (parts_spec num_cpus) as Hparts. pose proof (div_mod_64 num_cpus) as Hdm.
  assert (Hfin : forall self',
    length (sv_iter (bits self')) = parts_for_cpus num_cpus -> Forall (uint 64) (sv_iter (bits self')) ->
    (forall j, bit_at (sv_iter (bits self')) j = bit_at (sv_iter (bits self)) j && (j <? num_cpus)%nat) ->
    inv self').
  { intros self' ? ? Hb. split_and!; auto. intros j Hj. rewrite Hb.
    destruct (Nat.ltb_spec j num_cpus); [lia|]. apply andb_false_r. }
  destruct (Nat.eqb_spec (num_cpus mod 64) 0) as [Hz|Hnz]; cbn [negb].
  - assert (Hb : forall j, bit_at (sv_iter (bits self)) j
        = bit_at (sv_iter (bits self)) j && (j <? num_cpus)%nat).
    { intros j. destruct (Nat.ltb_spec j num_cpus); [by rewrite andb_true_r|].
      rewrite bit_at_ge; [done|]. rewrite Hl. lia. }
    exists self. split; [done|]. split; [|exact Hb]. by apply Hfin.
  - destruct (last_part Hnz) as [Hlast Hpos]. set (p := (parts_for_cpus num_cpus - 1)%nat) in *.
    destruct (lookup_lt_is_Some_2 (sv_iter (bits self)) p) as [w Hw]; [lia|].
    rewrite sv_get_iter, (proj2 (arr_get_Ret _ _ w) Hw). cbn [mbind outcome_bind].
    rewrite bit_pow2. pose proof (pow2_pos (Z.of_nat (num_cpus mod 64)) ltac:(lia)).
    rewrite usub_ok by lia. cbn [mbind outcome_bind].
    destruct (sv_set_iter (bits self) p (Z.land w (2 ^ Z.of_nat (num_cpus mod 64) - 1)))
      as (v & -> & Hv); [lia|]. cbn [mbind outcome_bind].
    assert (Hb : forall j, bit_at (sv_iter v) j
        = bit_at (sv_iter (bits self)) j && (j <? num_cpus)%nat).
    { intros j. rewrite Hv, bit_at_insert by lia. pose proof (div_mod_64 j). pose proof (mod_64 j).
      destruct (Nat.eqb_spec (j / 64) p) as [Hd|Hd].
      - unfold bit_at. rewrite Hd, Hw, Z.land_spec, testbit_low_mask by lia. f_equal.
        destruct (Z.ltb_spec (Z.of_nat (j mod 64)) (Z.of_nat (num_cpus mod 64))),
          (Nat.ltb_spec j num_cpus); lia.
      - destruct (Nat.ltb_spec j num_cpus); [by rewrite andb_true_r|].
        rewrite bit_at_ge; [done|]. rewrite Hl. lia. }
    exists (mk_CpuSet v). split; [done|]. split; [|exact Hb]. apply Hfin; [| |exact Hb]; cbn.
    + by rewrite Hv, length_insert.
    + rewrite Hv. apply Forall_insert; [done|]. apply uint_land; [lia|]. by eapply word_uint.
Qed.

Lemma bit_at_replicate n w j :
  bit_at (replicate n w) j = (j <? 64 * n)%nat && Z.testbit w (Z.of_nat (j mod 64)).
Proof.
  pose proof (div_mod_64 j). pose proof (mod_64 j). unfold bit_at.
  destruct (Nat.ltb_spec j (64 * n)).
  - by rewrite lookup_replicate_2 by lia.
  - rewrite lookup_ge_None_2; [done|]. rewrite length_replicate. lia.
Qed.

Definition all_set : gset nat := list_to_set all_cpus.

Lemma elem_of_all_set i : i ∈ all_set <-> (i < num_cpus)%nat.
Proof. unfold all_set, all_cpus. rewrite elem_of_list_to_set, elem_of_seq. lia. Qed.

(** A vector with all words ones, or all words zero. *)
Lemma ones_ok v : sv_iter v = replicate (parts_for_cpus num_cpus) (unot 64 0) ->
  exists self', clear_nonexistent_cpu_bits (mk_CpuSet v) = Ret self' /\ inv self' /\
    view self' = all_set.
Proof.
  intros Hv. destruct (clear_nonexistent_cpu_bits_ok (mk_CpuSet v)) as (self' & -> & Hinv & Hb).
  { cbn. by rewrite Hv, length_replicate. }
  { cbn. rewrite Hv. apply Forall_replicate, uint_unot; [lia|]. split; lia. }
  exists self'. split; [done|]. split; [done|]. apply view_eq; [done|]. intros i.
  pose proof (parts_spec num_cpus). pose proof (mod_64 i).
  rewrite Hb, elem_of_all_set. cbn [bits]. rewrite Hv, bit_at_replicate, testbit_unot, Z.bits_0 by lia.
  destruct (Nat.ltb_spec i (64 * parts_for_cpus num_cpus)), (Nat.ltb_spec i num_cpus); cbn; lia || naive_solver lia.
Qed.

Lemma zeros_ok v : sv_iter v = replicate (parts_for_cpus num_cpus) 0 ->
  inv (mk_CpuSet v) /\ view (mk_CpuSet v) = ∅.
Proof.
  intros Hv. assert (Hb : forall j, bit_at (sv_iter v) j = false).
  { intros j. rewrite Hv, bit_at_replicate, Z.bits_0. apply andb_false_r. }
  assert (Hinv : inv (mk_CpuSet v)).
  { split_and!; cbn; auto; rewrite Hv; [by rewrite length_replicate|].
    apply Forall_replicate. split; lia. }
  split; [done|]. apply view_eq; [done|]. intros i. cbn. rewrite Hb. set_solver.
Qed.

(** *** Counting and enumerating *)

Lemma length_filter_fmap {A B} (f : A -> B) (P : B -> Prop) `{!forall x, Decision (P x)} (l : list A) :
  length (base.filter P (f <$> l)) = length (base.filter (fun x => P (f x)) l).
Proof.
  induction l as [|x l IH]; [done|]. rewrite fmap_cons, !filter_cons.
  destruct (decide (P (f x))); cbn; congruence.
Qed.

Definition ones_in (ws : list Z) (l : list nat) : list nat :=
  base.filter (fun i => bit_at ws i = true) l.

Lemma count_words ws :
  foldr (fun w acc => count_ones w + acc)%nat 0%nat ws = length (ones_in ws (seq 0 (64 * length ws))).
Proof.
  induction ws as [|w ws IH]; [done|]. cbn [foldr length].
  replace (64 * S (length ws))%nat with (64 + 64 * length ws)%nat by lia. unfold ones_in in *.
  rewrite seq_app, filter_app, length_app, IH. apply (f_equal2 Nat.add).
  - unfold count_ones. apply (f_equal length), list_filter_iff_in. intros i Hi%elem_of_seq. unfold bit_at.
    by rewrite Nat.div_small, Nat.mod_small by lia.
  - change (0 + 64)%nat with (64 + 0)%nat. rewrite <- fmap_add_seq, length_filter_fmap.
    apply (f_equal length), list_filter_iff_in. intros i _. unfold bit_at.
    replace (64 + i)%nat with (i + 1 * 64)%nat by lia.
    rewrite Nat.div_add, Nat.Div0.mod_add by lia. by replace (i / 64 + 1)%nat with (S (i / 64)) by lia.
Qed.

Lemma ones_in_cpus ws :
  words_inv ws -> ones_in ws (seq 0 (64 * length ws)) = ones_in ws all_cpus.
Proof.
  intros (Hl & _ & Ht). pose proof (parts_spec num_cpus). unfold ones_in, all_cpus.
  replace (64 * length ws)%nat with (num_cpus + (64 * length ws - num_cpus))%nat by lia.
  rewrite seq_app, filter_app. rewrite <- (app_nil_r (base.filter _ (seq 0 num_cpus))) at 2. f_equal.
  apply list_filter_empty_in. intros i Hi%elem_of_seq. rewrite Ht by lia. done.
Qed.

Lemma view_size self : size (view self) = length (ones_in (sv_iter (bits self)) all_cpus).
Proof.
  unfold view, ones_in, all_cpus. rewrite size_list_to_set; [done|].
  apply NoDup_filter, NoDup_seq.
Qed.

Lemma count_loop_ok self n idx acc :
  (idx + n = length (sv_iter (bits self)))%nat ->
  Z.of_nat (acc + 64 * n) < 2 ^ 64 ->
  count_loop self n idx acc =
    Ret (acc + foldr (fun w acc => count_ones w + acc) 0 (drop idx (sv_iter (bits self))))%nat.
Proof.
  revert idx acc. induction n as [|n IH]; intros idx acc Hidx Hacc; cbn [count_loop].
  { rewrite drop_ge by lia. cbn. by rewrite Nat.add_0_r. }
  destruct (lookup_lt_is_Some_2 (sv_iter (bits self)) idx) as [w Hw]; [lia|].
  rewrite sv_get_iter, (proj2 (arr_get_Ret _ _ w) Hw). cbn [mbind outcome_bind].
  assert (count_ones w <= 64)%nat.
  { unfold count_ones. pose proof (length_filter (fun i => Z.testbit w (Z.of_nat i) = true) (seq 0 64)) as Hf.
    by rewrite length_seq in Hf. }
  rewrite addn_small by lia. cbn [mbind outcome_bind]. rewrite IH by lia.
  rewrite (drop_S _ _ _ Hw). cbn [foldr]. f_equal. rewrite Nat.add_1_r. lia.
Qed.

Lemma count_ok self : inv self -> Z.of_nat num_cpus < 2 ^ 32 -> count self = Ret (size (view self)).
Proof.
  intros Hinv Hn. pose proof Hinv as (Hl & _ & _). pose proof (parts_spec num_cpus).
  unfold count. rewrite sv_len_iter, count_loop_ok by lia. f_equal. rewrite drop_0, Nat.add_0_l.
  by rewrite count_words, ones_in_cpus, view_size.
Qed.

Lemma iter_ok self : inv self ->
  iter self = Ret (base.filter (fun i => i ∈ view self) all_cpus).
Proof.
  intros Hinv. unfold iter, BITS_PER_PART. rewrite sv_len_iter.
  rewrite (filterM_Ret _ (fun i => bit_at (sv_iter (bits self)) i)).
  - f_equal. rewrite Nat.mul_comm. etrans; [apply (ones_in_cpus _ Hinv)|].
    apply list_filter_iff_in. intros i _. by rewrite elem_of_view.
  - intros i Hi%elem_of_seq.
    destruct (lookup_lt_is_Some_2 (sv_iter (bits self)) (i / 64)) as [w Hw].
    { apply Nat.Div0.div_lt_upper_bound. lia. }
    rewrite sv_get_iter, (proj2 (arr_get_Ret _ _ w) Hw). cbn [mbind outcome_bind].
    by rewrite (bit_at_test _ _ _ Hw).
Qed.

(** *** Emptiness and fullness *)

Lemma bit_at_word ws p w k :
  ws !! p = Some w -> (k < 64)%nat -> bit_at ws (64 * p + k) = Z.testbit w (Z.of_nat k).
Proof.
  intros Hw Hk. unfold bit_at. rewrite (Nat.mul_comm 64 p), Nat.add_comm.
  rewrite Nat.div_add, Nat.Div0.mod_add, Nat.div_small, Nat.mod_small, Nat.add_0_l by lia.
  by rewrite Hw.
Qed.

(** A word is determined by the bits of its CPUs. *)
Lemma word_eq ws p w x :
  ws !! p = Some w -> uint 64 w -> uint 64 x ->
  w = x <-> forall k, (k < 64)%nat -> bit_at ws (64 * p + k) = Z.testbit x (Z.of_nat k).
Proof.
  intros Hw Hu Hx. split.
  - intros <- k Hk. by apply bit_at_word.
  - intros Hb. apply (uint_eq_bits 64); [lia|done|done|]. intros k Hk.
    rewrite <- (Z2Nat.id k) by lia. rewrite <- Hb, (bit_at_word _ _ w) by (done || lia). done.
Qed.

Lemma is_empty_ok self : inv self -> is_empty self = bool_decide (view self = ∅).
Proof.
  intros Hinv. pose proof Hinv as (Hl & Hu & _). unfold is_empty. apply eq_true_iff_eq.
  rewrite bool_decide_eq_true, forallb_forall. setoid_rewrite <- list_elem_of_In.
  setoid_rewrite Z.eqb_eq. split.
  - intros Hz. apply view_eq; [done|]. intros i. unfold bit_at.
    destruct (sv_iter (bits self) !! (i / 64)%nat) as [w|] eqn:Hw; [|set_solver].
    rewrite (Hz w), Z.bits_0 by (by eapply list_elem_of_lookup_2). set_solver.
  - intros He w [p Hw]%list_elem_of_lookup.
    apply (word_eq _ p w 0 Hw); [by eapply word_uint|split; lia|]. intros k _. rewrite Z.bits_0.
    apply not_true_is_false. rewrite <- elem_of_view by done. set_solver.
Qed.

(** The word a full set has at [idx]. *)
Definition full_word (idx : nat) : Z :=
  if (idx =? parts_for_cpus num_cpus - 1)%nat && negb (num_cpus mod 64 =? 0)%nat
  then 2 ^ Z.of_nat (num_cpus mod 64) - 1 else unot 64 0.

Lemma full_word_bits idx k :
  (idx < parts_for_cpus num_cpus)%nat -> (k < 64)%nat ->
  Z.testbit (full_word idx) (Z.of_nat k) = (64 * idx + k <? num_cpus)%nat.
Proof.
  intros Hidx Hk. unfold full_word. pose proof (parts_spec num_cpus).
  pose proof (div_mod_64 num_cpus). pose proof (mod_64 num_cpus).
  destruct (Nat.eqb_spec idx (parts_for_cpus num_cpus - 1)), (Nat.eqb_spec (num_cpus mod 64) 0),
    (Nat.ltb_spec (64 * idx + k) num_cpus); cbn [andb negb];
    rewrite ?testbit_unot, ?testbit_low_mask, ?Z.bits_0 by lia; try (done || lia).
  all: destruct (Z.ltb_spec (Z.of_nat k) (Z.of_nat (num_cpus mod 64))); lia.
Qed.

Lemma full_word_uint idx : uint 64 (full_word idx).
Proof.
  unfold full_word. pose proof (mod_64 num_cpus). destruct (_ && _).
  - pose proof (pow2_pos (Z.of_nat (num_cpus mod 64)) ltac:(lia)).
    pose proof (Z.pow_lt_mono_r 2 (Z.of_nat (num_cpus mod 64)) 64). split; lia.
  - apply uint_unot; [lia|split; lia].
Qed.

Lemma is_full_loop_ok self n idx :
  inv self -> (idx + n = length (sv_iter (bits self)))%nat ->
  exists b, is_full_loop self n idx = Ret b /\
    (b = true <-> forall p w, (idx <= p)%nat -> sv_iter (bits self) !! p = Some w -> w = full_word p).
Proof.
  intros Hinv. pose proof Hinv as (Hl & _). revert idx.
  induction n as [|n IH]; intros idx Hidx; cbn [is_full_loop].
  { exists true. split; [done|]. split; [|done]. intros _ p w Hp Hw%lookup_lt_Some. lia. }
  assert ((if (idx =? sv_len (bits self) - 1)%nat && negb (num_cpus mod BITS_PER_PART =? 0)%nat
     then usub (bit (num_cpus mod BITS_PER_PART)) 1 else mret (unot 64 0)) = Ret (full_word idx)) as ->.
  { unfold full_word, BITS_PER_PART. rewrite sv_len_iter, Hl, bit_pow2. destruct (_ && _); [|done].
    pose proof (pow2_pos (Z.of_nat (num_cpus mod 64)) ltac:(lia)). by rewrite usub_ok by lia. }
  destruct (lookup_lt_is_Some_2 (sv_iter (bits self)) idx) as [w Hw]; [lia|].
  cbn [mbind outcome_bind]. rewrite sv_get_iter, (proj2 (arr_get_Ret _ _ w) Hw). cbn [mbind outcome_bind].
  destruct (Z.eqb_spec w (full_word idx)) as [He|Hne]; cbn [negb].
  - destruct (IH (idx + 1)%nat) as (b & -> & Hb); [lia|]. exists b. split; [done|]. rewrite Hb.
    split; [|intros Hall p x Hp; apply Hall; lia].
    intros Hall p x Hp Hx. destruct (decide (p = idx)) as [->|]; [congruence|]. apply Hall; [lia|done].
  - exists false. split; [done|]. split; [done|]. intros Hall. destruct Hne. by apply Hall.
Qed.

Lemma is_full_ok self : inv self -> is_full self = Ret (bool_decide (view self = all_set)).
Proof.
  intros Hinv. pose proof Hinv as (Hl & Hu & Ht). unfold is_full.
  destruct (is_full_loop_ok self (sv_len (bits self)) 0 Hinv) as (b & -> & Hb); [by rewrite sv_len_iter|].
  f_equal. apply eq_true_iff_eq. rewrite bool_decide_eq_true, Hb. split.
  - intros Hall. apply view_eq; [done|]. intros i. rewrite elem_of_all_set. split.
    + intros Hi. destruct (cpu_word self i Hinv Hi) as (w & Hw & _). pose proof (part_lt i Hi).
      pose proof (mod_64 i). pose proof (div_mod_64 i).
      unfold bit_at. rewrite Hw, (Hall _ w ltac:(lia) Hw), full_word_bits by lia.
      apply Nat.ltb_lt. lia.
    + intros Hi. destruct (decide (i < num_cpus)%nat); [done|]. rewrite Ht in Hi by lia. done.
  - intros Hv p w _ Hw. pose proof (lookup_lt_Some _ _ _ Hw).
    apply (word_eq _ p w _ Hw); [by eapply word_uint|apply full_word_uint|]. intros k Hk.
    rewrite full_word_bits by lia. apply eq_true_iff_eq.
    by rewrite <- elem_of_view, Hv, elem_of_all_set, Nat.ltb_lt.
Qed.

(** ** Histories of a set *)

Inductive set_op := OpAdd (cpu_id : nat) | OpRemove (cpu_id : nat) | OpAddAll | OpClear.

Definition exec (self : CpuSet) (o : set_op) : outcome CpuSet :=
  match o with
  | OpAdd i => add self i
  | OpRemove i => remove self i
  | OpAddAll => add_all self
  | OpClear => mret (clear self)
  end.
Definition abs_exec (A : gset nat) (o : set_op) : gset nat :=
  match o with
  | OpAdd i => {[i]} ∪ A
  | OpRemove i => A ∖ {[i]}
  | OpAddAll => all_set
  | OpClear => ∅
  end.
Definition valid_set_op (o : set_op) : Prop :=
  match o with OpAdd i | OpRemove i => (i < num_cpus)%nat | _ => True end.

Definition run (self : outcome CpuSet) (ops : list set_op) : outcome CpuSet :=
  foldl (fun s o => s ← s; exec s o) self ops.

Lemma exec_ok self o :
  inv self -> valid_set_op o ->
  exists self', exec self o = Ret self' /\ inv self' /\ view self' = abs_exec (view self) o.
Proof.
  intros Hinv Hv. pose proof Hinv as (Hl & _). destruct o as [i|i| |]; cbn in Hv |- *.
  - by apply add_ok.
  - by apply remove_ok.
  - apply ones_ok. by rewrite sv_fill_iter, Hl.
  - eexists. split; [done|]. apply zeros_ok. by rewrite sv_fill_iter, Hl.
Qed.

Lemma run_ok self ops :
  inv self -> Forall valid_set_op ops ->
  exists self', run (Ret self) ops = Ret self' /\ inv self' /\
    view self' = foldl abs_exec (view self) ops.
Proof.
  intros Hinv Hv. revert self Hinv. induction Hv as [|o ops Ho Hv IH]; intros self Hinv; cbn.
  { eauto. }
  destruct (exec_ok self o Hinv Ho) as (self1 & -> & Hinv1 & <-). by apply IH.
Qed.

Lemma new_full_ok : exists self, new_full = Ret self /\ inv self /\ view self = all_set.
Proof. apply ones_ok. by rewrite sv_resize_iter, sv_with_capacity_iter, resize_nil. Qed.

Lemma new_empty_ok : inv new_empty /\ view new_empty = ∅.
Proof. apply zeros_ok. by rewrite sv_resize_iter, sv_with_capacity_iter, resize_nil. Qed.

(** What the queries answer for the set [A]. *)
Definition answers (self : CpuSet) (A : gset nat) : Prop :=
  (forall i, (i < num_cpus)%nat -> contains self i = Ret (bool_decide (i ∈ A))) /\
  count self = Ret (size A) /\
  is_empty self = bool_decide (A = ∅) /\
  is_full self = Ret (bool_decide (A = all_set)) /\
  iter self = Ret (base.filter (fun i => i ∈ A) all_cpus).

Lemma answers_ok self : inv self -> Z.of_nat num_cpus < 2 ^ 32 -> answers self (view self).
Proof.
  intros Hinv Hn. split_and!; auto using contains_ok, count_ok, is_empty_ok, is_full_ok, iter_ok.
Qed.

(** C34: a [CpuSet] is a set of CPUs.  From [new_empty] or [new_full], any sequence of [add],
    [remove], [add_all] and [clear] runs without a panic and keeps the invariant that no
    bit of a nonexistent CPU is set, and afterwards [contains], [count], [is_empty],
    [is_full] and [iter] answer as the finite set that the same operations give; [iter]
    yields the members in ascending order. *)
Theorem cpu_set_refines_set ops (from_full : bool) :
  Z.of_nat num_cpus < 2 ^ 32 -> Forall valid_set_op ops ->
  exists self, run (if from_full then new_full else Ret new_empty) ops = Ret self /\ inv self /\
    answers self (foldl abs_exec (if from_full then all_set else ∅) ops).
Proof.
  intros Hn Hv.
  assert (exists self, (if from_full then new_full else Ret new_empty) = Ret self /\ inv self /\
    view self = (if from_full then all_set else ∅)) as (self & -> & Hinv & <-).
  { destruct from_full; [apply new_full_ok|]. destruct new_empty_ok. eauto. }
  destruct (run_ok self ops Hinv Hv) as (self' & Hr & Hinv' & <-). exists self'.
  split_and!; auto using answers_ok.
Qed.

(** ** Racing with an atomic set

    Another thread's [add] or [remove] is one atomic step. *)
Inductive atomic_step (touched : nat -> Prop) (a0 : AtomicCpuSet) : AtomicCpuSet -> Prop :=
| astep_add i a1 : touched i -> atomic_add a0 i = Ret a1 -> atomic_step touched a0 a1
| astep_remove i a1 : touched i -> atomic_remove a0 i = Ret a1 -> atomic_step touched a0 a1.

(** [load] reads the words one by one, and the others run in between. *)
Inductive racing_load (touched : nat -> Prop) : AtomicCpuSet -> nat -> list Z -> Prop :=
| race_done a0 : racing_load touched a0 (sv_len (abits a0)) []
| race_other a0 a1 k ws :
    atomic_step touched a0 a1 -> racing_load touched a1 k ws -> racing_load touched a0 k ws
| race_read a0 k w ws :
    sv_get (abits a0) k = Ret w -> racing_load touched a0 (k + 1) ws ->
    racing_load touched a0 k (w :: ws).

Lemma atomic_step_bits touched a0 a1 j :
  atomic_step touched a0 a1 -> ~ touched j ->
  length (sv_iter (abits a1)) = length (sv_iter (abits a0)) /\
  bit_at (sv_iter (abits a1)) j = bit_at (sv_iter (abits a0)) j.
Proof.
  intros Hs Hj.
  destruct Hs as [i a1 Hi H|i a1 Hi H]; assert ((j =? i)%nat = false) as Hji by
    (apply Nat.eqb_neq; congruence);
    unfold atomic_add, atomic_remove, part_idx, bit_idx, BITS_PER_PART in H; rewrite sv_len_iter in H;
    (destruct (Nat.ltb_spec (i / 64) (length (sv_iter (abits a0)))) as [Hlt|]; [|by injection H as <-]);
    rewrite sv_get_iter in H; apply bind_Ret in H as (w & Hw%arr_get_Ret & H).
  - destruct (sv_set_iter (abits a0) (i / 64) (Z.lor w (bit (i mod 64))) Hlt) as (v & Hv & Hvi).
    rewrite Hv in H. injection H as <-. cbn. rewrite Hvi, length_insert, set_bit_at, Hji by done. done.
  - destruct (sv_set_iter (abits a0) (i / 64) (Z.land w (unot 64 (bit (i mod 64)))) Hlt) as (v & Hv & Hvi).
    rewrite Hv in H. injection H as <-. cbn. rewrite Hvi, length_insert, clear_bit_at, Hji by done. done.
Qed.

Lemma racing_load_bits touched a0 k ws j :
  racing_load touched a0 k ws -> ~ touched j -> (64 * k <= j)%nat ->
  bit_at ws (j - 64 * k) = bit_at (sv_iter (abits a0)) j.
Proof.
  intros Hl Hj. induction Hl as [a0|a0 a1 k ws Hs Hl IH|a0 k w ws Hw Hl IH]; intros Hk.
  - rewrite sv_len_iter in Hk. by rewrite !bit_at_ge by (cbn; lia).
  - rewrite IH by done. by eapply atomic_step_bits.
  - rewrite sv_get_iter in Hw. apply arr_get_Ret in Hw.
    destruct (decide (64 * (k + 1) <= j)%nat) as [Hge|Hlt].
    + rewrite <- IH by done. unfold bit_at at 1.
      replace (j - 64 * k)%nat with ((j - 64 * (k + 1)) + 1 * 64)%nat by lia.
      rewrite Nat.div_add, Nat.Div0.mod_add by lia. by rewrite Nat.add_1_r.
    + replace j with (64 * k + (j - 64 * k))%nat at 2 by lia.
      rewrite (bit_at_word _ k w) by (done || lia). unfold bit_at.
      by rewrite Nat.div_small, Nat.mod_small by lia.
Qed.

(** [AtomicCpuSet::load] is not atomic, but it is exact on every CPU that is not being
    added or removed meanwhile: however other threads' [add] and [remove] calls interleave
    with the reads of the words, the loaded set agrees with the shared one on each CPU
    that none of those calls is about. *)
Theorem racing_load_exact touched a0 ws j :
  racing_load touched a0 0 ws -> ~ touched j ->
  bit_at ws j = bit_at (sv_iter (abits a0)) j.
Proof.
  intros Hl Hj. rewrite <- (racing_load_bits touched a0 0 ws j Hl Hj) by lia. f_equal. lia.
Qed.

(** *** Storing and loading *)

Lemma store_loop_ok v k news o :
  o <> Acquire -> o <> AcqRel -> (k + length news = length (sv_iter v))%nat ->
  exists v', store_loop v k news o = Ret v' /\ sv_iter v' = take k (sv_iter v) ++ news.
Proof.
  intros Ho1 Ho2. revert v k. induction news as [|x news IH]; intros v k Hlen; cbn [store_loop length] in *.
  { exists v. split; [done|]. by rewrite app_nil_r, take_ge by lia. }
  rewrite sv_len_iter. destruct (Nat.ltb_spec k (length (sv_iter v))); [|lia].
  assert (atomic_store_word o x = Ret x) as -> by (by destruct o). cbn [mbind outcome_bind].
  destruct (sv_set_iter v k x) as (v1 & -> & Hv1); [done|]. cbn [mbind outcome_bind].
  destruct (IH v1 (k + 1)%nat) as (v2 & -> & Hv2); [rewrite Hv1, length_insert; lia|].
  exists v2. split; [done|]. rewrite Hv2, Hv1, (Nat.add_1_r k).
  rewrite (take_S_r _ _ x) by (by apply list_lookup_insert_eq).
  by rewrite take_insert_ge, <- app_assoc by lia.
Qed.

(** [load] without interference. *)
Lemma load_iter a o : o <> AcqRel -> exists res, load a o = Ret res /\ sv_iter (bits res) = sv_iter (abits a).
Proof.
  intros Ho. unfold load. rewrite (mapM_Ret _ id).
  - eexists. split; [done|]. cbn. by rewrite sv_collect_iter, list_fmap_id.
  - intros x _. destruct o; cbn; by rewrite ?Z.lor_0_r.
Qed.

Lemma store_iter a value o : o <> Acquire -> o <> AcqRel -> length (sv_iter (abits a)) = length (sv_iter (bits value)) ->
  exists a', store a value o = Ret a' /\ sv_iter (abits a') = sv_iter (bits value).
Proof.
  intros Ho1 Ho2 Hlen. unfold store. destruct (store_loop_ok (abits a) 0 (sv_iter (bits value)) o) as (v & -> & Hv); auto.
  exists (mk_AtomicCpuSet v). done.
Qed.

(** The set in an atomic set. *)
Definition atomic_value (a : AtomicCpuSet) : CpuSet := mk_CpuSet (abits a).

Lemma same_words self other : sv_iter (bits self) = sv_iter (bits other) -> inv self -> inv other /\ view other = view self.
Proof. unfold inv, view. intros ->. done. Qed.

Lemma atomic_add_ok a i : inv (atomic_value a) -> (i < num_cpus)%nat ->
  exists a', atomic_add a i = Ret a' /\ inv (atomic_value a') /\ view (atomic_value a') = {[i]} ∪ view (atomic_value a).
Proof.
  intros Hinv Hi. destruct (add_ok (atomic_value a) i Hinv Hi) as (s & Hs & Hv). destruct Hinv as (Hl & _).
  exists (mk_AtomicCpuSet (bits s)). split; [|by destruct s]. unfold atomic_add. unfold add in Hs. cbn [bits atomic_value] in *.
  rewrite sv_len_iter in *. pose proof (part_lt i Hi). unfold part_idx, BITS_PER_PART in *.
  destruct (Nat.leb_spec (length (sv_iter (abits a))) (i / 64)); [lia|].
  destruct (Nat.ltb_spec (i / 64) (length (sv_iter (abits a)))); [|lia].
  destruct (sv_get (abits a) (i / 64)) as [w|]; [|done]. cbn [mbind outcome_bind] in *.
  destruct (sv_set (abits a) (i / 64) (Z.lor w (bit (bit_idx i)))) as [v|]; [|done]. cbn in *. by injection Hs as <-.
Qed.

(** A set stored into an atomic set of the same size is read back by [load] (with any
    ordering these operations accept; [load] accepts [Release] although the word loads do
    not), and [AtomicCpuSet::new] holds the set it is made from. *)
Theorem atomic_store_load a0 value o o' :
  o <> Acquire -> o <> AcqRel -> o' <> AcqRel ->
  length (sv_iter (abits a0)) = length (sv_iter (bits value)) ->
  (exists a1 res, store a0 value o = Ret a1 /\ load a1 o' = Ret res /\
    sv_iter (bits res) = sv_iter (bits value)) /\
  exists res, load (atomic_new value) o' = Ret res /\ sv_iter (bits res) = sv_iter (bits value).
Proof.
  intros Ho1 Ho2 Ho' Hlen. split.
  - destruct (store_iter a0 value o Ho1 Ho2 Hlen) as (a1 & Hs & Hv). destruct (load_iter a1 o' Ho') as (res & Hl & Hr).
    exists a1, res. split_and!; [done|done|]. by rewrite Hr.
  - destruct (load_iter (atomic_new value) o' Ho') as (res & Hl & Hr). exists res. split; [done|].
    rewrite Hr. cbn. apply sv_collect_iter.
Qed.

End cpu_set.

(** ** The list model of the vector *)

Global Instance list_SmallVec : SmallVec (list Z) := {
  sv_with_capacity _ := [];
  sv_resize v n x := resize n x v;
  sv_len v := length v;
  sv_get v i := arr_get v i;
  sv_set v i x := arr_set v i x;
  sv_fill v x := replicate (length v) x;
  sv_iter v := v;
  sv_collect l := l;
}.

Global Instance list_SmallVecLaws : SmallVecLaws (list Z).
Proof. split; cbn; try done. intros v i x Hi. exists (<[i := x]> v). by rewrite arr_set_Ret. Qed.

(** 70 CPUs need two words. *)
Lemma cpu_set_refines_set_witness :
  exists self, run 70 (new_full 70) [OpRemove 69; OpClear; OpAdd 65; OpAdd 3] = Ret self /\
    inv 70 self /\ answers 70 self (foldl (abs_exec 70) (all_set 70) [OpRemove 69; OpClear; OpAdd 65; OpAdd 3]).
Proof.
  apply (cpu_set_refines_set (V := list Z) 70 [OpRemove 69; OpClear; OpAdd 65; OpAdd 3] true).
  - lia.
  - repeat (apply Forall_cons; split; [cbn; lia || done|]). constructor.
Defined.

Example run_70 :
  (s ← run (V := list Z) 70 (new_full 70) [OpRemove 69; OpClear; OpAdd 65; OpAdd 3]; iter s) = Ret [3; 65]%nat.
Proof. vm_compute. reflexivity. Qed.

(** A load of two words while another thread adds CPU 5. *)
Lemma racing_load_exact_witness :
  racing_load (fun i => i = 5%nat) (mk_AtomicCpuSet [8; 2]) 0 [40; 2] /\
  bit_at [40; 2] 3 = bit_at (sv_iter (abits (mk_AtomicCpuSet [8; 2]))) 3.
Proof.
  assert (Hr : racing_load (fun i => i = 5%nat) (mk_AtomicCpuSet [8; 2]) 0 [40; 2]).
  { eapply (race_other _ _ (mk_AtomicCpuSet [40; 2]));
      [by apply (astep_add _ _ 5); [|vm_compute; reflexivity]|].
    do 2 (eapply race_read; [vm_compute; reflexivity|]).
    change (0 + 1 + 1)%nat with (sv_len (abits (mk_AtomicCpuSet [40; 2]))). apply race_done. }
  split; [done|]. apply (racing_load_exact (fun i => i = 5%nat)); [done|lia].
Defined.

Lemma atomic_store_load_witness :
  exists a1 res, store (mk_AtomicCpuSet [8; 2]) (mk_CpuSet [1; 1]) SeqCst = Ret a1 /\
    load a1 Release = Ret res /\ sv_iter (bits res) = [1; 1].
Proof. by destruct (atomic_store_load (mk_AtomicCpuSet [8; 2]) (mk_CpuSet [1; 1]) SeqCst Release). Defined.
