(* ===== verification/Rcu.v ===== *)
(** * [ostd/src/sync/rcu]: read-copy-update

    [monitor.rs] decides when a grace period ends: every CPU reports a quiescent
    state, and callbacks that were registered before run after the last report.
    [mod.rs] is the pointer: readers load it with preemption disabled, writers
    exchange it and have the old object dropped after a grace period.

    The methods of the monitor and [delay_drop] have their bodies in comments; the
    definitions follow them.  A callback is the object that it drops.  The monitor is
    used under its lock, so its critical sections are single steps; the test of
    [is_monitoring] in front of the lock is a step of its own.  The accesses of the
    pointers are atomic steps.  A CPU reports a quiescent state only without read guards,
    which [switch_to_task] asserts.

    The theorems show that no reader is left with a dropped object, that no object is
    dropped twice, and that two rounds of reports run every callback. *)

From S2P Require Import Prelude CpuSet.
Open Scope Z_scope.

Section rcu.
Context {V : Type} `{SV : SmallVec V} (num_cpus : nat).

(** ** The monitor *)

Record GracePeriod := mk_gp { callbacks : list Z; cpu_mask : AtomicCpuSet (V := V); is_complete : bool }.
Record State := mk_state { current_gp : GracePeriod; next_callbacks : list Z }.
Record RcuMonitor := mk_monitor { is_monitoring : bool; state : State }.

Definition gp_new : GracePeriod := mk_gp [] (atomic_new (new_empty num_cpus)) true.
Definition state_new : State := mk_state gp_new [].
Definition monitor_new : RcuMonitor := mk_monitor false state_new.

Definition gp_finish (self : GracePeriod) (this_cpu : nat) : outcome GracePeriod :=
  mask ← atomic_add (cpu_mask self) this_cpu;
  cpus ← load mask Relaxed;
  full ← is_full num_cpus cpus;
  Ret (mk_gp (callbacks self) mask (if (full : bool) then true else is_complete self)).

Definition take_callbacks (self : GracePeriod) : list Z * GracePeriod :=
  (callbacks self, mk_gp [] (cpu_mask self) (is_complete self)).

Definition restart (self : GracePeriod) (cs : list Z) : outcome GracePeriod :=
  mask ← store (cpu_mask self) (new_empty num_cpus) Relaxed;
  Ret (mk_gp cs mask false).

(** The critical section of [finish_grace_period]; it returns the callbacks to invoke. *)
Definition finish_locked (self : RcuMonitor) (cpu : nat) : outcome (list Z * RcuMonitor) :=
  let st := state self in
  if is_complete (current_gp st) then Ret ([], self)
  else
    gp ← gp_finish (current_gp st) cpu;
    if negb (is_complete gp) then Ret ([], mk_monitor (is_monitoring self) (mk_state gp (next_callbacks st)))
    else
      let (current_callbacks, gp) := take_callbacks gp in
      if negb (bool_decide (next_callbacks st = [])) then
        gp ← restart gp (next_callbacks st);
        Ret (current_callbacks, mk_monitor (is_monitoring self) (mk_state gp []))
      else Ret (current_callbacks, mk_monitor false (mk_state gp (next_callbacks st))).

(** [finish_grace_period] without interference. *)
Definition finish_grace_period (self : RcuMonitor) (cpu : nat) : outcome (list Z * RcuMonitor) :=
  if negb (is_monitoring self) then Ret ([], self) else finish_locked self cpu.

Definition after_grace_period (self : RcuMonitor) (f : Z) : outcome RcuMonitor :=
  let st := state self in
  let next := next_callbacks st ++ [f] in
  if negb (is_complete (current_gp st)) then Ret (mk_monitor (is_monitoring self) (mk_state (current_gp st) next))
  else
    gp ← restart (current_gp st) next;
    Ret (mk_monitor true (mk_state gp [])).

(** ** Pointers and readers *)

(** A read guard: preemption is disabled, then the pointer of a slot is loaded.  Null is 0. *)
Inductive guard := Loading (slot : nat) | Holding (slot : nat) (obj_ptr : Z).

(** Where a CPU is in [finish_grace_period]. *)
Inductive reporting := NotReporting | Checked | Calling (cs : list Z).

Record cpu := mk_cpu { guards : list guard; report : reporting }.

(** The slots ([Rcu] and [RcuOption]), the objects that have not been dropped, those that were exchanged and
    still have to be handed to the monitor, the monitor and the CPUs. *)
Record system := mk_sys { slots : list Z; live : gset Z; retired : list Z; monitor : RcuMonitor; cpus : list cpu }.

(** [NonNull::new]. *)
Definition non_null (p : Z) : list Z := if p =? 0 then [] else [p].

(** [RcuInner::update] up to [delay_drop]: the slot gets [new], an object that is not in use. *)
Definition update (s : system) (slot : nat) (new : Z) : option system :=
  match slots s !! slot with
  | Some old => Some (mk_sys (<[slot := new]> (slots s)) (live s ∪ list_to_set (non_null new)) (retired s ++ non_null old) (monitor s) (cpus s))
  | None => None
  end.

(** [compare_exchange] of a guard that has loaded [obj_ptr]; on failure the new object goes back to the caller.
    It uses up the guard, whose release is the step [ReadDrop]. *)
Definition compare_exchange (s : system) (slot : nat) (obj_ptr new : Z) : option system :=
  if bool_decide (slots s !! slot = Some obj_ptr) then update s slot new else Some s.

(** [delay_drop] of the [i]-th exchanged object. *)
Definition delay_drop (s : system) (i : nat) : option (outcome system) :=
  match retired s !! i with
  | Some p => Some (mon ← after_grace_period (monitor s) p; Ret (mk_sys (slots s) (live s) (delete i (retired s)) mon (cpus s)))
  | None => None
  end.

Inductive action :=
| Update (slot : nat) (new : Z)
| CompareExchange (c i : nat) (new : Z)
| DelayDrop (i : nat)
| ReadBegin (c slot : nat) | ReadLoad (c i : nat) | ReadDrop (c i : nat)
| FinishCheck (c : nat) | FinishLocked (c : nat) | FinishCall (c : nat) | FinishReturn (c : nat).

Definition set_cpu (s : system) (c : nat) (a : cpu) : system := mk_sys (slots s) (live s) (retired s) (monitor s) (<[c := a]> (cpus s)).

(** The new object of a writer is one that is not in use. *)
Definition fresh (s : system) (new : Z) : bool := (new =? 0) || bool_decide (new ∉ live s).

(** The steps of [read], of dropping a guard, and of [finish_grace_period] on a CPU. *)
Definition cpu_exec (s : system) (c : nat) (a : cpu) (act : action) : option (outcome system) :=
  match act, report a with
  | CompareExchange _ i new, _ =>
      match guards a !! i with
      | Some (Holding slot p) => if fresh s new then Ret <$> compare_exchange s slot p new else None
      | _ => None
      end
  | ReadBegin _ slot, _ => Some (Ret (set_cpu s c (mk_cpu (Loading slot :: guards a) (report a))))
  | ReadLoad _ i, _ =>
      match guards a !! i with
      | Some (Loading slot) =>
          p ← slots s !! slot; Some (Ret (set_cpu s c (mk_cpu (<[i := Holding slot p]> (guards a)) (report a))))
      | _ => None
      end
  | ReadDrop _ i, _ => Some (Ret (set_cpu s c (mk_cpu (delete i (guards a)) (report a))))
  | FinishCheck _, NotReporting =>
      Some (Ret (set_cpu s c (mk_cpu (guards a) (if is_monitoring (monitor s) then Checked else NotReporting))))
  | FinishLocked _, Checked =>
      if bool_decide (guards a = []) then
        Some (' (cs, mon) ← finish_locked (monitor s) c;
              Ret (mk_sys (slots s) (live s) (retired s) mon (<[c := mk_cpu [] (Calling cs)]> (cpus s))))
      else None
  | FinishCall _, Calling (p :: cs) =>
      Some (Ret (mk_sys (slots s) (live s ∖ {[p]}) (retired s) (monitor s) (<[c := mk_cpu (guards a) (Calling cs)]> (cpus s))))
  | FinishReturn _, Calling [] => Some (Ret (set_cpu s c (mk_cpu (guards a) NotReporting)))
  | _, _ => None
  end.

(** A step; [None] if the action is not possible. *)
Definition exec (s : system) (act : action) : option (outcome system) :=
  match act with
  | Update slot new => if fresh s new then Ret <$> update s slot new else None
  | DelayDrop i => delay_drop s i
  | CompareExchange c _ _ | ReadBegin c _ | ReadLoad c _ | ReadDrop c _
  | FinishCheck c | FinishLocked c | FinishCall c | FinishReturn c => a ← cpus s !! c; cpu_exec s c a act
  end.

(** Slots are made with objects that are not shared. *)
Definition initial (ps : list Z) : system :=
  mk_sys ps (list_to_set (ps ≫= non_null)) [] monitor_new (replicate num_cpus (mk_cpu [] NotReporting)).

Inductive reachable (ps : list Z) : system -> Prop :=
| reach_initial : reachable ps (initial ps)
| reach_step s act s' : reachable ps s -> exec s act = Some (Ret s') -> reachable ps s'.

(** ** The monitor as a state machine *)

Context `{SL : !SmallVecLaws V} (some_cpu : (0 < num_cpus)%nat).
Local Notation all_set := (all_set num_cpus).

Definition mask_of (gp : GracePeriod) : gset nat := view num_cpus (atomic_value (cpu_mask gp)).

(** Idle, or the callbacks of the current grace period, the CPUs that have reported, and the callbacks of the next one. *)
Definition phase : Type := option (list Z * gset nat * list Z).

Definition rep (m : RcuMonitor) (ph : phase) : Prop :=
  let gp := current_gp (state m) in
  inv num_cpus (atomic_value (cpu_mask gp)) /\ is_monitoring m = negb (is_complete gp) /\
  match ph with
  | None => is_complete gp = true /\ callbacks gp = [] /\ next_callbacks (state m) = []
  | Some (cur, mask, nxt) => is_complete gp = false /\ callbacks gp = cur /\ next_callbacks (state m) = nxt /\ mask_of gp = mask /\ mask <> all_set
  end.

Definition next_phase (nxt : list Z) : phase := match nxt with [] => None | _ => Some (nxt, ∅, []) end.

Definition phase_finish (ph : phase) (c : nat) : list Z * phase :=
  match ph with
  | None => ([], None)
  | Some (cur, mask, nxt) =>
      if decide ({[c]} ∪ mask = all_set) then (cur, next_phase nxt) else ([], Some (cur, {[c]} ∪ mask, nxt))
  end.

Definition phase_after (ph : phase) (p : Z) : phase :=
  match ph with None => Some ([p], ∅, []) | Some (cur, mask, nxt) => Some (cur, mask, nxt ++ [p]) end.

Lemma empty_not_full : (∅ : gset nat) <> all_set.
Proof. intros He. assert (0%nat ∈ all_set) as H0 by (by apply elem_of_all_set). rewrite <- He in H0. set_solver. Qed.

Lemma restart_ok gp cs : inv num_cpus (atomic_value (cpu_mask gp)) ->
  exists gp', restart gp cs = Ret gp' /\ inv num_cpus (atomic_value (cpu_mask gp')) /\ mask_of gp' = ∅ /\ is_complete gp' = false /\ callbacks gp' = cs.
Proof.
  intros Hi. destruct (new_empty_ok (V := V) num_cpus) as [He Hv].
  destruct (store_iter (cpu_mask gp) (new_empty num_cpus) Relaxed) as (a' & Hs & Hit); [done|done|destruct Hi as [Hl _], He as [Hl' _]; cbn in *; congruence|].
  unfold restart. step Hs. eexists. split; [done|]. destruct (same_words num_cpus (new_empty num_cpus) (atomic_value a') (eq_sym Hit) He) as [Hi' Hv'].
  split_and!; try done. unfold mask_of. cbn [cpu_mask]. by rewrite Hv'.
Qed.

Lemma gp_finish_ok gp c : inv num_cpus (atomic_value (cpu_mask gp)) -> (c < num_cpus)%nat -> is_complete gp = false ->
  exists gp', gp_finish gp c = Ret gp' /\ inv num_cpus (atomic_value (cpu_mask gp')) /\ mask_of gp' = {[c]} ∪ mask_of gp /\
    callbacks gp' = callbacks gp /\ is_complete gp' = bool_decide ({[c]} ∪ mask_of gp = all_set).
Proof.
  intros Hi Hc Hn. unfold gp_finish. destruct (atomic_add_ok num_cpus (cpu_mask gp) c Hi Hc) as (m' & Ha & Hi' & Hv). step Ha.
  destruct (load_iter m' Relaxed) as (res & Hl & Hit); [done|]. step Hl.
  destruct (same_words num_cpus (atomic_value m') res (eq_sym Hit) Hi') as [Hir Hvr]. step (is_full_ok num_cpus res Hir).
  eexists. split; [done|]. split_and!; try done. cbn [is_complete]. rewrite Hvr, Hv, Hn. unfold mask_of. by destruct (bool_decide _).
Qed.

Lemma finish_locked_ok m ph c : rep m ph -> (c < num_cpus)%nat ->
  exists m', finish_locked m c = Ret ((phase_finish ph c).1, m') /\ rep m' (phase_finish ph c).2.
Proof.
  intros (Hi & Hm & Hph) Hc. unfold finish_locked. destruct ph as [[[cur mask] nxt]|]; cbn [phase_finish].
  2: { destruct Hph as (Hcm & Hcb & Hnx). rewrite Hcm. exists m. split; [done|]. done. }
  destruct Hph as (Hcm & <- & <- & <- & Hne). rewrite Hcm. rewrite Hcm in Hm. cbn [negb] in Hm.
  destruct (gp_finish_ok _ c Hi Hc Hcm) as (gp & Hf & Hig & Hmg & Hcg & Hfull). step Hf. rewrite Hfull.
  destruct (decide ({[c]} ∪ mask_of (current_gp (state m)) = all_set)) as [Heq|Hneq].
  - rewrite bool_decide_true by done. cbn [negb take_callbacks]. rewrite Hcg. destruct (next_callbacks (state m)) as [|p nxt]; cbn [bool_decide].
    + eexists. split; [done|]. split_and!; cbn; rewrite ?Hfull, ?bool_decide_true by done; done.
    + rewrite bool_decide_false by done. cbn [negb]. destruct (restart_ok (mk_gp [] (cpu_mask gp) (is_complete gp)) (p :: nxt) Hig) as (gp' & Hr & Hir & Hmr & Hcr & Hbr).
      step Hr. eexists. split; [done|]. split_and!; cbn; rewrite ?Hcr; split_and?; try done; apply empty_not_full.
  - rewrite bool_decide_false by done. cbn [negb]. eexists. split; [done|].
    split_and!; cbn; rewrite ?Hfull, ?bool_decide_false by done; done.
Qed.

Lemma after_grace_period_ok m ph p : rep m ph -> exists m', after_grace_period m p = Ret m' /\ rep m' (phase_after ph p).
Proof.
  intros (Hi & Hm & Hph). unfold after_grace_period. destruct ph as [[[cur mask] nxt]|]; cbn [phase_after].
  - destruct Hph as (Hcm & <- & <- & <- & Hne). rewrite Hcm. cbn [negb]. eexists. split; [done|]. by split_and!.
  - destruct Hph as (Hcm & Hcb & ->). rewrite Hcm. cbn [negb app].
    destruct (restart_ok (current_gp (state m)) [p] Hi) as (gp' & Hr & Hir & Hmr & Hcr & Hbr). step Hr. eexists. split; [done|].
    split_and!; cbn; rewrite ?Hcr; split_and?; try done; apply empty_not_full.
Qed.

Lemma monitor_new_rep : rep monitor_new None.
Proof.
  destruct (new_empty_ok (V := V) num_cpus) as [He Hv]. split_and!; try done.
  destruct (same_words num_cpus (new_empty num_cpus) (atomic_value (atomic_new (new_empty num_cpus)))) as [Hi _]; [|done|done].
  cbn. by rewrite sv_collect_iter.
Qed.

(** ** Progress *)

(** CPUs pass quiescent states one after another. *)
Fixpoint report_all (m : RcuMonitor) (cs : list nat) : outcome (list Z * RcuMonitor) :=
  match cs with
  | [] => Ret ([], m)
  | c :: cs' => ' (called, m1) ← finish_grace_period m c; ' (rest, m2) ← report_all m1 cs'; Ret (called ++ rest, m2)
  end.

Fixpoint phase_all (ph : phase) (cs : list nat) : list Z * phase :=
  match cs with
  | [] => ([], ph)
  | c :: cs' => let r := phase_finish ph c in let r' := phase_all r.2 cs' in (r.1 ++ r'.1, r'.2)
  end.

Lemma finish_grace_period_ok m ph c : rep m ph -> (c < num_cpus)%nat ->
  exists m', finish_grace_period m c = Ret ((phase_finish ph c).1, m') /\ rep m' (phase_finish ph c).2.
Proof.
  intros Hr Hc. unfold finish_grace_period. destruct (is_monitoring m) eqn:Hm; [by apply finish_locked_ok|]. exists m.
  destruct ph as [[[cur mask] nxt]|]; [|done]. destruct Hr as (_ & Hm' & Hcm & _). rewrite Hcm, Hm in Hm'. done.
Qed.

Lemma report_all_ok cs m ph : rep m ph -> Forall (fun c => (c < num_cpus)%nat) cs ->
  exists m', report_all m cs = Ret ((phase_all ph cs).1, m') /\ rep m' (phase_all ph cs).2.
Proof.
  revert m ph. induction cs as [|c cs IH]; intros m ph Hr Hc; cbn [report_all phase_all]; [by exists m|].
  inversion Hc as [|? ? Hc1 Hcs]; subst.
  destruct (finish_grace_period_ok m ph c Hr Hc1) as (m1 & Hf & Hr1).
  step Hf. destruct (IH m1 _ Hr1 Hcs) as (m2 & Hf2 & Hr2). step Hf2. by exists m2.
Qed.

Lemma phase_all_idle cs : phase_all None cs = ([], None).
Proof. induction cs as [|c cs IH]; cbn; [done|]. by rewrite IH. Qed.

(** A round of reports ends the current grace period; the rest of the reports count for the next one. *)
Lemma round_ends cs cur mask nxt : mask <> all_set -> mask ⊆ all_set -> all_set ⊆ mask ∪ list_to_set cs -> Forall (fun c => (c < num_cpus)%nat) cs ->
  exists rest, phase_all (Some (cur, mask, nxt)) cs = (cur ++ (phase_all (next_phase nxt) rest).1, (phase_all (next_phase nxt) rest).2) /\
    Forall (fun c => (c < num_cpus)%nat) rest.
Proof.
  revert mask. induction cs as [|c cs IH]; intros mask Hne Hsub Hcov Hc; cbn in Hcov.
  { exfalso. apply Hne. set_solver. }
  inversion Hc as [|? ? Hc1 Hcs]; subst. cbn [phase_all phase_finish]. destruct (decide ({[c]} ∪ mask = all_set)) as [Heq|Hneq]; cbn [fst snd].
  - exists cs. done.
  - destruct (IH ({[c]} ∪ mask)) as (rest & Hr & Hfr); [done| |set_solver|done|].
    + assert (c ∈ all_set) by (by apply elem_of_all_set). set_solver.
    + exists rest. rewrite Hr. done.
Qed.

Lemma phase_all_app ph cs ds : phase_all ph (cs ++ ds) = ((phase_all ph cs).1 ++ (phase_all (phase_all ph cs).2 ds).1, (phase_all (phase_all ph cs).2 ds).2).
Proof. revert ph. induction cs as [|c cs IH]; intros ph; cbn; [by destruct (phase_all ph ds)|]. rewrite IH. cbn. by rewrite app_assoc. Qed.

(** The callbacks that have been registered and not invoked. *)
Definition waiting (ph : phase) : list Z := match ph with None => [] | Some (cur, _, nxt) => cur ++ nxt end.

Definition phase_ok (ph : phase) : Prop := match ph with None => True | Some (_, mask, _) => mask <> all_set /\ mask ⊆ all_set end.

Lemma rep_phase_ok m ph : rep m ph -> phase_ok ph.
Proof.
  intros (_ & _ & Hph). destruct ph as [[[cur mask] nxt]|]; [|done]. destruct Hph as (_ & _ & _ & <- & Hne). split; [done|].
  intros c Hc. unfold mask_of, view in Hc. apply elem_of_list_to_set, list_elem_of_filter in Hc as [_ Hc]. apply elem_of_seq in Hc. apply elem_of_all_set. lia.
Qed.

Lemma two_rounds ph l1 l2 : phase_ok ph -> Forall (fun c => (c < num_cpus)%nat) (l1 ++ l2) -> all_set ⊆ list_to_set l1 -> all_set ⊆ list_to_set l2 ->
  phase_all ph (l1 ++ l2) = (waiting ph, None).
Proof.
  intros Hok Hc H1 H2. destruct ph as [[[cur mask] nxt]|]; [|apply phase_all_idle]. destruct Hok as [Hne Hsub]. apply Forall_app in Hc as [Hc1 Hc2].
  destruct (round_ends l1 cur mask nxt Hne Hsub) as (rest & Hr & Hcr); [set_solver|done|].
  rewrite phase_all_app, Hr. cbn [fst snd waiting]. rewrite <- app_assoc.
  assert (phase_all (next_phase nxt) (rest ++ l2) = (nxt, None)) as Hl.
  { destruct nxt as [|p nxt]; [apply phase_all_idle|].
    destruct (round_ends (rest ++ l2) (p :: nxt) ∅ []) as (rest' & Hr' & _); [apply empty_not_full|set_solver|rewrite list_to_set_app_L; set_solver|by apply Forall_app|].
    cbn [next_phase] in *. by rewrite Hr', phase_all_idle, app_nil_r. }
  rewrite phase_all_app in Hl. injection Hl as Hl1 Hl2. by rewrite Hl1, Hl2.
Qed.

(** A history of the monitor. *)
Inductive monitor_op := After (p : Z) | Finish (c : nat).

Fixpoint monitor_run (m : RcuMonitor) (os : list monitor_op) : outcome (list Z * RcuMonitor) :=
  match os with
  | [] => Ret ([], m)
  | After p :: os' => m1 ← after_grace_period m p; monitor_run m1 os'
  | Finish c :: os' => ' (called, m1) ← finish_grace_period m c; ' (rest, m2) ← monitor_run m1 os'; Ret (called ++ rest, m2)
  end.

Definition registered (os : list monitor_op) : list Z := os ≫= fun o => match o with After p => [p] | Finish _ => [] end.
Definition on_cpu (o : monitor_op) : Prop := match o with Finish c => (c < num_cpus)%nat | After _ => True end.

Lemma phase_finish_waiting ph c : (phase_finish ph c).1 ++ waiting (phase_finish ph c).2 = waiting ph.
Proof.
  destruct ph as [[[cur mask] nxt]|]; [|done]. cbn. destruct (decide _); cbn; [|done]. destruct nxt; cbn; by rewrite ?app_nil_r.
Qed.

Lemma monitor_run_ok os m ph : rep m ph -> Forall on_cpu os ->
  exists called m' ph', monitor_run m os = Ret (called, m') /\ rep m' ph' /\ called ++ waiting ph' = waiting ph ++ registered os.
Proof.
  revert m ph. induction os as [|[p|c] os IH]; intros m ph Hr Hc; cbn [monitor_run].
  - exists [], m, ph. split_and!; [done|done|]. cbn. by rewrite app_nil_r.
  - inversion Hc as [|? ? _ Hcs]; subst. destruct (after_grace_period_ok m ph p Hr) as (m1 & Ha & Hr1). step Ha.
    destruct (IH m1 _ Hr1 Hcs) as (called & m' & ph' & Hrun & Hr' & Hw). exists called, m', ph'. split_and!; [done|done|]. rewrite Hw.
    destruct ph as [[[cur mask] nxt]|]; cbn; [|done]. by rewrite <- !app_assoc.
  - inversion Hc as [|? ? Hc1 Hcs]; subst. destruct (finish_grace_period_ok m ph c Hr Hc1) as (m1 & Ha & Hr1). step Ha.
    destruct (IH m1 _ Hr1 Hcs) as (called & m' & ph' & Hrun & Hr' & Hw). step Hrun. do 3 eexists. split_and!; [done|done|].
    rewrite <- app_assoc, Hw, app_assoc, phase_finish_waiting. done.
Qed.

(** C39: every callback runs, once and in order.  After any history of registrations and reports of quiescent states,
    the callbacks that have run are the first ones that were registered.  When every CPU then reports twice, in any
    order, exactly the remaining ones run, in the order of their registration, and the monitor is idle. *)
Theorem rcu_callbacks_run os l1 l2 : Forall on_cpu os -> Forall (fun c => (c < num_cpus)%nat) (l1 ++ l2) ->
  all_set ⊆ list_to_set l1 -> all_set ⊆ list_to_set l2 ->
  exists called m rest m', monitor_run monitor_new os = Ret (called, m) /\ report_all m (l1 ++ l2) = Ret (rest, m') /\
    called ++ rest = registered os /\ is_monitoring m' = false.
Proof.
  intros Ho Hc H1 H2. destruct (monitor_run_ok os _ _ monitor_new_rep Ho) as (called & m & ph & Hrun & Hr & Hw).
  destruct (report_all_ok (l1 ++ l2) m ph Hr Hc) as (m' & Hrep & Hr'). rewrite two_rounds in Hrep, Hr' by (done || by eapply rep_phase_ok).
  exists called, m, (waiting ph), m'. split_and!; [done|done|done|]. destruct Hr' as (_ & Hm & Hcm & _). by rewrite Hm, Hcm.
Qed.

(** ** Readers never see a dropped object *)

Definition called_by (a : cpu) : list Z := match report a with Calling cs => cs | _ => [] end.
Definition current (ph : phase) : list Z := match ph with None => [] | Some (cur, _, _) => cur end.
Definition upcoming (ph : phase) : list Z := match ph with None => [] | Some (_, _, nxt) => nxt end.
Definition reported (ph : phase) : gset nat := match ph with None => ∅ | Some (_, mask, _) => mask end.

(** Where the objects are: in a slot, or on their way to be dropped. *)
Definition reachable_objs (s : system) (ph : phase) : list Z := (slots s ≫= non_null) ++ retired s ++ upcoming ph.
Definition objs (s : system) (ph : phase) : list Z := reachable_objs s ph ++ current ph ++ (cpus s ≫= called_by).

Record sys_inv (s : system) (ph : phase) : Prop := {
  si_rep : rep (monitor s) ph;
  si_cpus : length (cpus s) = num_cpus;
  si_nodup : NoDup (objs s ph);
  si_live p : p ∈ objs s ph <-> p ∈ live s;
  si_null : 0 ∉ live s;
  (** What a guard holds will not be dropped before its CPU reports. *)
  si_guard c a slot p : cpus s !! c = Some a -> Holding slot p ∈ guards a -> p <> 0 ->
    p ∈ reachable_objs s ph \/ p ∈ current ph /\ c ∉ reported ph;
}.

Lemma bind_insert {A} (f : A -> list Z) (xs : list A) i x y : xs !! i = Some x -> f x ++ (<[i := y]> xs ≫= f) ≡ₚ f y ++ (xs ≫= f).
Proof.
  revert i. induction xs as [|z xs IH]; intros [|i] Hi; cbn in *; try done.
  - injection Hi as ->. rewrite !app_assoc. by rewrite (Permutation_app_comm (f x)).
  - change (f x ++ f z ++ (<[i:=y]> xs ≫= f) ≡ₚ f y ++ f z ++ (xs ≫= f)).
    rewrite (Permutation_app_swap_app (f x)), (Permutation_app_swap_app (f y)). by rewrite IH.
Qed.

Lemma bind_insert_same {A} (f : A -> list Z) (xs : list A) i x y : xs !! i = Some x -> f y = f x -> (<[i := y]> xs ≫= f) ≡ₚ xs ≫= f.
Proof. intros Hi He. apply (Permutation_app_inv_l (f x)). by rewrite (bind_insert f xs i x y Hi), He. Qed.

(** A step that moves objects around. *)
Lemma same_objs s ph s' ph' : sys_inv s ph -> rep (monitor s') ph' -> length (cpus s') = length (cpus s) -> objs s' ph' ≡ₚ objs s ph -> live s' = live s ->
  (forall c a slot p, cpus s' !! c = Some a -> Holding slot p ∈ guards a -> p <> 0 -> p ∈ reachable_objs s' ph' \/ p ∈ current ph' /\ c ∉ reported ph') ->
  sys_inv s' ph'.
Proof.
  intros [Hr Hl Hn Hv H0 Hg] Hr' Hl' Hp He Hg'. split; [done|lia|by rewrite Hp| |by rewrite He|done]. intros p. by rewrite Hp, He.
Qed.

(** Only the guards or the report of one CPU change, and no callbacks. *)
Lemma set_cpu_inv s ph c a a' : sys_inv s ph -> cpus s !! c = Some a -> called_by a' = called_by a ->
  (forall slot p, Holding slot p ∈ guards a' -> p <> 0 -> Holding slot p ∈ guards a \/ p ∈ reachable_objs s ph) -> sys_inv (set_cpu s c a') ph.
Proof.
  intros Hi Hc Hcall Hg. eapply same_objs; [done|apply Hi|cbn; by rewrite length_insert| |done|].
  - unfold objs, set_cpu. cbn. by rewrite (bind_insert_same called_by (cpus s) c a a').
  - intros c0 a0 slot p Hc0 Hh Hp. cbn in Hc0. apply list_lookup_insert_Some in Hc0 as [(<- & <- & _)|[_ Hc0]].
    + destruct (Hg slot p Hh Hp) as [Ho|]; [|by left]. by apply (si_guard _ _ Hi c a slot p).
    + by apply (si_guard _ _ Hi c0 a0 slot p).
Qed.

(** Exchanging the pointer of a slot. *)
Lemma update_inv s ph slot new s' : sys_inv s ph -> fresh s new = true -> update s slot new = Some s' -> sys_inv s' ph.
Proof.
  intros Hi Hf. unfold update. destruct (slots s !! slot) as [old|] eqn:Hs; [|done]. intros [= <-].
  set (s' := mk_sys _ _ _ _ _). assert (reachable_objs s' ph ≡ₚ non_null new ++ reachable_objs s ph) as Hre.
  { unfold reachable_objs. cbn [slots retired s']. rewrite (Permutation_app_comm (retired s) (non_null old)), <- app_assoc.
    rewrite Permutation_app_swap_app, app_assoc, (bind_insert non_null (slots s) slot old new Hs). by rewrite <- app_assoc. }
  assert (objs s' ph ≡ₚ non_null new ++ objs s ph) as Hp by (unfold objs; rewrite Hre; by rewrite <- app_assoc).
  assert (non_null new = [] \/ non_null new = [new] /\ new <> 0 /\ new ∉ live s) as Hnn.
  { unfold fresh, non_null in *. destruct (Z.eqb_spec new 0); [by left|]. right. apply bool_decide_eq_true in Hf. done. }
  split; cbn [monitor cpus live s']; try apply Hi.
  - rewrite Hp. destruct Hnn as [->|(-> & _ & Hn)]; [apply Hi|]. apply NoDup_cons. split; [by rewrite (si_live _ _ Hi)|apply Hi].
  - intros p. rewrite Hp, elem_of_app, elem_of_union, elem_of_list_to_set, (si_live _ _ Hi). tauto.
  - pose proof (si_null _ _ Hi). destruct Hnn as [->|(-> & Hne & _)]; set_solver.
  - intros c a sl p Hc Hh Hne. destruct (si_guard _ _ Hi c a sl p Hc Hh Hne) as [Hr|]; [|by right]. left.
    rewrite Hre. set_solver.
Qed.

Lemma delay_drop_inv s ph i : sys_inv s ph ->
  match delay_drop s i with Some (Ret s') => exists ph', sys_inv s' ph' | Some Panic => False | None => True end.
Proof.
  intros Hi. unfold delay_drop. destruct (retired s !! i) as [p|] eqn:Hp; [|done].
  destruct (after_grace_period_ok (monitor s) ph p (si_rep _ _ Hi)) as (m' & Ha & Hr). step Ha. exists (phase_after ph p).
  pose proof (delete_Permutation (retired s) i p Hp) as Hd. set (rest := delete i (retired s)) in *. clearbody rest. eapply same_objs; [done|done|done| |done|].
  - unfold objs, reachable_objs. cbn [slots retired cpus]. rewrite Hd. destruct ph as [[[cur mask] nxt]|]; cbn [phase_after upcoming current].
    + solve_Permutation.
    + solve_Permutation.
  - intros c a slot q Hc Hh Hq. cbn [cpus] in Hc. pose proof (si_guard _ _ Hi c a slot q Hc Hh Hq) as Hg. unfold reachable_objs in *. cbn [slots retired] in *.
    rewrite Hd in Hg. destruct ph as [[[cur mask] nxt]|]; cbn [phase_after upcoming current reported] in *; set_solver.
Qed.

(** A CPU without guards reports. *)
Lemma finish_locked_inv s ph c a : sys_inv s ph -> cpus s !! c = Some a -> report a = Checked ->
  exists cs m' ph', finish_locked (monitor s) c = Ret (cs, m') /\
    sys_inv (mk_sys (slots s) (live s) (retired s) m' (<[c := mk_cpu [] (Calling cs)]> (cpus s))) ph'.
Proof.
  intros Hi Hc Hrep. assert (c < num_cpus)%nat as Hlt by (rewrite <- (si_cpus _ _ Hi); by eapply lookup_lt_Some).
  destruct (finish_locked_ok (monitor s) ph c (si_rep _ _ Hi) Hlt) as (m' & Hf & Hr). do 3 eexists. split; [exact Hf|].
  assert (called_by a = []) as Hca by (unfold called_by; by rewrite Hrep).
  eapply same_objs; [done|done|cbn; by rewrite length_insert| |done|].
  - pose proof (bind_insert called_by (cpus s) c a (mk_cpu [] (Calling (phase_finish ph c).1)) Hc) as Hb. rewrite Hca in Hb. cbn [app called_by report] in Hb.
    unfold objs, reachable_objs. cbn [slots retired cpus]. rewrite Hb. destruct ph as [[[cur mask] nxt]|]; [|done]. cbn [phase_finish].
    destruct (decide _); cbn [fst snd upcoming current]; [|done]. destruct nxt; cbn [next_phase upcoming current]; solve_Permutation.
  - intros c' a' slot q Hc' Hh Hq. cbn [cpus] in Hc'. apply list_lookup_insert_Some in Hc' as [(<- & <- & _)|[Hne Hc']]; [set_solver|].
    pose proof (si_guard _ _ Hi c' a' slot q Hc' Hh Hq) as Hg. unfold reachable_objs in *. cbn [slots retired] in *.
    destruct ph as [[[cur mask] nxt]|]; [|done]. cbn [phase_finish upcoming current reported] in *.
    destruct (decide _) as [Heq|Hneq]; cbn [snd]; [|set_solver].
    assert (c' ∈ all_set) as Hall by (apply elem_of_all_set; rewrite <- (si_cpus _ _ Hi); by eapply lookup_lt_Some). rewrite <- Heq in Hall.
    destruct Hg as [Hg|[_ Hg]]; [|set_solver]. destruct nxt as [|p nxt]; cbn [next_phase upcoming current reported]; set_solver.
Qed.

(** A callback runs. *)
Lemma finish_call_inv s ph c a p cs : sys_inv s ph -> cpus s !! c = Some a -> report a = Calling (p :: cs) ->
  p ∈ live s /\ sys_inv (mk_sys (slots s) (live s ∖ {[p]}) (retired s) (monitor s) (<[c := mk_cpu (guards a) (Calling cs)]> (cpus s))) ph.
Proof.
  intros Hi Hc Hrep. set (s' := mk_sys _ _ _ _ _). assert (objs s ph ≡ₚ p :: objs s' ph) as Hp.
  { pose proof (bind_insert called_by (cpus s) c a (mk_cpu (guards a) (Calling cs)) Hc) as Hb. unfold called_by in Hb at 1 3. rewrite Hrep in Hb. cbn [report] in Hb.
    assert ((cpus s ≫= called_by) ≡ₚ p :: (cpus s' ≫= called_by)) as Hb'. { apply (Permutation_app_inv_l cs). rewrite <- Hb. cbn [cpus s']. solve_Permutation. }
    unfold objs, reachable_objs. rewrite Hb'. cbn [slots retired s']. solve_Permutation. }
  pose proof (si_nodup _ _ Hi) as Hn. rewrite Hp in Hn. apply NoDup_cons in Hn as [Hnp Hn].
  split; [apply (si_live _ _ Hi); rewrite Hp; set_solver|]. split; cbn [monitor cpus live s']; try apply Hi; [by rewrite length_insert; apply Hi|done| | |].
  - intros q. rewrite elem_of_difference, <- (si_live _ _ Hi), Hp, elem_of_cons, elem_of_singleton. split; [|naive_solver].
    intros Hq. split; [by right|]. by intros ->.
  - pose proof (si_null _ _ Hi). set_solver.
  - intros c' a' slot q Hc' Hh Hq. apply list_lookup_insert_Some in Hc' as [(<- & <- & _)|[_ Hc']].
    + by apply (si_guard _ _ Hi c a slot q).
    + by apply (si_guard _ _ Hi c' a' slot q).
Qed.

Lemma load_inv s ph c a i slot p : sys_inv s ph -> cpus s !! c = Some a -> slots s !! slot = Some p ->
  sys_inv (set_cpu s c (mk_cpu (<[i := Holding slot p]> (guards a)) (report a))) ph.
Proof.
  intros Hi Hc Hs. eapply set_cpu_inv; [done..|]. cbn [guards]. intros sl q Hh Hq. apply list_elem_of_lookup in Hh as [j Hj].
  apply list_lookup_insert_Some in Hj as [(_ & He & _)|[_ Hj]]; [|left; by eapply list_elem_of_lookup_2].
  injection He as <- <-. right. unfold reachable_objs. apply elem_of_app. left. apply list_elem_of_bind. exists p.
  split; [|by eapply list_elem_of_lookup_2]. unfold non_null. destruct (Z.eqb_spec p 0); [done|set_solver].
Qed.

Lemma cpu_exec_inv s ph c a act : sys_inv s ph -> cpus s !! c = Some a ->
  match cpu_exec s c a act with Some (Ret s') => exists ph', sys_inv s' ph' | Some Panic => False | None => True end.
Proof.
  intros Hi Hc. destruct act as [| | |? slot|? i|? i| | | |], (report a) as [| |cs] eqn:Hrep; cbn [cpu_exec]; rewrite ?Hrep; try done.
  all: try (destruct (guards a !! i) as [[?|slot p]|]; [done| |done]; destruct (fresh s new) eqn:Hf; [|done]; unfold compare_exchange;
    destruct (bool_decide _); [|by exists ph]; destruct (update s slot new) eqn:Hu; [|done]; exists ph; by eapply update_inv).
  all: try (exists ph; eapply set_cpu_inv; [done|done|unfold called_by; cbn [report]; by rewrite Hrep|cbn [guards]; intros sl q Hh _; left; set_solver]).
  all: try (destruct (guards a !! i) as [[slot|? ?]|]; [|done..]; destruct (slots s !! slot) as [p|] eqn:Hs; [|done]; exists ph; rewrite <- Hrep; by apply load_inv).
  all: try (exists ph; eapply set_cpu_inv; [done|done|unfold called_by; cbn [report]; by rewrite Hrep|cbn [guards]; intros sl q Hh _; left;
    eapply elem_of_submseteq; [exact Hh|apply sublist_submseteq, sublist_delete]]).
  - exists ph. eapply set_cpu_inv; [done|done|unfold called_by; cbn [report]; rewrite Hrep; by destruct (is_monitoring _)|cbn [guards]; by left].
  - destruct (bool_decide _) eqn:Hg; [|done]. destruct (finish_locked_inv s ph c a Hi Hc Hrep) as (cs & m' & ph' & Hf & Hinv). rewrite Hf. by exists ph'.
  - destruct cs as [|p cs]; [done|]. exists ph. by apply finish_call_inv.
  - destruct cs as [|p cs]; [|done]. exists ph. eapply set_cpu_inv; [done|done|unfold called_by; cbn [report]; by rewrite Hrep|by left].
Qed.

Lemma exec_inv s ph act : sys_inv s ph ->
  match exec s act with Some (Ret s') => exists ph', sys_inv s' ph' | Some Panic => False | None => True end.
Proof.
  intros Hi. destruct act as [slot new|c i new|i|c slot|c i|c i|c|c|c|c]; cbn [exec].
  1: { destruct (fresh s new) eqn:Hf; [|done]. destruct (update s slot new) as [s'|] eqn:Hu; [|done]. exists ph. by eapply update_inv. }
  2: by apply (delay_drop_inv s ph).
  all: destruct (cpus s !! c) as [a|] eqn:Hc; [|done]; by apply (cpu_exec_inv s ph).
Qed.

Lemma initial_inv ps : NoDup (ps ≫= non_null) -> sys_inv (initial ps) None.
Proof.
  intros Hn. assert (forall n, replicate n (mk_cpu [] NotReporting) ≫= called_by = []) as Hr.
  { intros n. induction n as [|n IH]; [done|]. cbn. apply IH. }
  assert (objs (initial ps) None = ps ≫= non_null) as Ho.
  { unfold objs, reachable_objs. cbn [initial slots retired cpus upcoming current]. by rewrite Hr, !app_nil_r. }
  split; [apply monitor_new_rep|cbn; by rewrite length_replicate|by rewrite Ho|intros p; rewrite Ho; cbn; by rewrite elem_of_list_to_set| |].
  - cbn. rewrite elem_of_list_to_set, list_elem_of_bind. intros (p & H0 & _). unfold non_null in H0. destruct (Z.eqb_spec p 0); set_solver.
  - intros c a slot p Hc. apply lookup_replicate in Hc as [-> _]. cbn. set_solver.
Qed.

Lemma reachable_inv ps s : NoDup (ps ≫= non_null) -> reachable ps s -> exists ph, sys_inv s ph.
Proof.
  intros Hn Hr. induction Hr as [|s act s' Hr [ph Hi] He]; [by exists None; apply initial_inv|].
  pose proof (exec_inv s ph act Hi) as Hx. by rewrite He in Hx.
Qed.

(** C8: readers are safe.  Take any number of CPUs and of RCU pointers to distinct objects, and any interleaving of
    updates, compare-and-exchanges, reads, dropped guards, registrations with the monitor and reports of quiescent states.
    Whatever object a read guard holds has not been dropped; an object that a callback is about to drop has not been
    dropped before and is in no slot and in no guard; and no step panics. *)
Theorem rcu_reader_safe ps s : NoDup (ps ≫= non_null) -> reachable ps s ->
  (forall c a slot p, cpus s !! c = Some a -> Holding slot p ∈ guards a -> p <> 0 -> p ∈ live s) /\
  (forall c a p cs, cpus s !! c = Some a -> report a = Calling (p :: cs) -> p ∈ live s /\ p ∉ slots s /\ p ∉ cs /\
    forall c' a' slot, cpus s !! c' = Some a' -> Holding slot p ∉ guards a') /\
  (forall act, exec s act <> Some Panic).
Proof.
  intros Hn Hr. destruct (reachable_inv ps s Hn Hr) as [ph Hi]. split_and!.
  - intros c a slot p Hc Hh Hp. apply (si_live _ _ Hi). unfold objs. destruct (si_guard _ _ Hi c a slot p Hc Hh Hp) as [?|[? _]]; set_solver.
  - intros c a p cs Hc Hrep. destruct (finish_call_inv s ph c a p cs Hi Hc Hrep) as [Hl _].
    assert (p <> 0) as Hp by (intros ->; by apply (si_null _ _ Hi)).
    assert (exists rest, (cpus s ≫= called_by) ≡ₚ (p :: cs) ++ rest) as [rest Hb].
    { exists (<[c := mk_cpu [] NotReporting]> (cpus s) ≫= called_by).
      pose proof (bind_insert called_by (cpus s) c a (mk_cpu [] NotReporting) Hc) as Hb. unfold called_by in Hb at 1 3. rewrite Hrep in Hb. by rewrite Hb. }
    pose proof (si_nodup _ _ Hi) as Hd. unfold objs in Hd. rewrite Hb in Hd. apply NoDup_app in Hd as (_ & Hd1 & Hd2). apply NoDup_app in Hd2 as (_ & Hd2 & Hd3).
    apply NoDup_app in Hd3 as (Hd3 & _ & _). apply NoDup_cons in Hd3 as [Hd3 _].
    assert (p ∉ reachable_objs s ph) as Hre by (intros Hx; apply (Hd1 p Hx); set_solver). split_and!; [done| |done|].
    + intros Hs. apply Hre. unfold reachable_objs. apply elem_of_app. left. apply list_elem_of_bind. exists p. split; [|done].
      unfold non_null. destruct (Z.eqb_spec p 0); set_solver.
    + intros c' a' slot Hc' Hh. destruct (si_guard _ _ Hi c' a' slot p Hc' Hh Hp) as [Hx|[Hx _]]; [done|]. apply (Hd2 p Hx). set_solver.
  - intros act He. pose proof (exec_inv s ph act Hi) as Hx. by rewrite He in Hx.
Qed.

(** A sequence of steps. *)
Fixpoint sys_run (s : system) (acts : list action) : option system :=
  match acts with
  | [] => Some s
  | act :: acts' => match exec s act with Some (Ret s') => sys_run s' acts' | _ => None end
  end.

Lemma sys_run_reachable ps acts s s' : reachable ps s -> sys_run s acts = Some s' -> reachable ps s'.
Proof.
  revert s. induction acts as [|act acts IH]; intros s Hr; cbn; [by intros [= <-]|].
  destruct (exec s act) as [[s1|]|] eqn:He; [|done..]. apply IH. by eapply reach_step.
Qed.
End rcu.

(** ** Two CPUs and one pointer *)

Module RcuExample.

(** CPU 0 reads the object 10; then a writer replaces it by 20 and hands it to the monitor, and CPU 1 reports. *)
Definition acts1 : list action :=
  [ReadBegin 0 0; ReadLoad 0 0; Update 0 20; DelayDrop 0; FinishCheck 1; FinishLocked 1; FinishReturn 1; FinishCheck 0].
(** CPU 0 drops its guard and reports: the object is dropped. *)
Definition acts2 : list action := acts1 ++ [ReadDrop 0 0; FinishLocked 0; FinishCall 0; FinishReturn 0].

Definition start : system (V := list Z) := initial 2 [10].
Definition after (acts : list action) : system := default start (sys_run 2 start acts).

Example object_kept : (elements (live (after acts1)), sys_run 2 (after acts1) [FinishLocked 0]) = ([10; 20], None).
Proof. vm_compute. reflexivity. Qed.

Example object_dropped : elements (live (after acts2)) = [20].
Proof. vm_compute. reflexivity. Qed.

Lemma rcu_reader_safe_witness : 10 ∈ live (after acts1).
Proof.
  refine (proj1 (rcu_reader_safe 2 _ [10] (after acts1) _ _) 0%nat (mk_cpu [Holding 0 10] Checked) 0%nat 10 _ _ _).
  - lia.
  - apply NoDup_singleton.
  - apply (sys_run_reachable 2 [10] acts1 start); [apply reach_initial|vm_compute; reflexivity].
  - vm_compute. reflexivity.
  - apply list_elem_of_here.
  - discriminate.
Defined.

Definition monitor_history : list monitor_op := [After 1; Finish 0; After 2; Finish 0; After 3; Finish 1; After 4].

Lemma rcu_callbacks_run_witness :
  exists called m rest m', monitor_run 2 (monitor_new (V := list Z) 2) monitor_history = Ret (called, m) /\ report_all 2 m ([1; 0]%nat ++ [0; 1]%nat) = Ret (rest, m') /\
    called ++ rest = [1; 2; 3; 4] /\ is_monitoring m' = false.
Proof.
  apply (rcu_callbacks_run (V := list Z) 2 ltac:(lia) monitor_history [1; 0]%nat [0; 1]%nat).
  - repeat constructor.
  - repeat constructor.
  - set_solver.
  - set_solver.
Defined.

(** Only the first callback has run before the two rounds. *)
Example monitor_history_run : fst <$> (match monitor_run 2 (monitor_new (V := list Z) 2) monitor_history with Ret r => Some r | Panic => None end) = Some [1].
Proof. vm_compute. reflexivity. Qed.
End RcuExample.
