(* ===== verification/SpinLock.v ===== *)
(** * [ostd/src/sync/spin.rs] and [guard.rs]: spin locks and the atomic mode

    A spin lock is a flag.  Before it spins, [lock] makes the guard of its guardian, which
    disables preemption ([task/preempt]) or the interrupts of the CPU ([trap/irq.rs]); the
    guard is dropped after the flag is cleared.  [might_sleep] of [task/atomic_mode.rs]
    checks that neither is the case before a task is switched.

    The model has any number of CPUs, each with a stack of contexts: a task, and the
    interrupt handlers that run above it ([trap/handler.rs], with the top half and the
    bottom half).  Only the top context of a CPU runs.  Every access to the flag, the
    preemption count or the interrupt flag is a step, and an interrupt can come in between
    whenever interrupts are enabled.  [new] and [drop] of the preemption guard and [drop]
    of the interrupt guard follow the bodies in their comments.

    Besides mutual exclusion the theorems show that code that spins for or holds the lock
    is in atomic mode, and that interrupts nest twice at most; that a lock that disables
    interrupts is only ever held by a running context; and that one that disables
    preemption only can be waited for by the very handler that keeps its owner from
    running. *)

From S2P Require Import Prelude Agents.
Open Scope Z_scope.

(** ** The CPU-local data *)

Definition NEED_PREEMPT_MASK : Z := Z.shiftl 1 31.
Definition GUARD_COUNT_MASK : Z := Z.shiftl 1 31 - 1.

Definition should_preempt (info : Z) : bool := info =? 0.
Definition need_preempt (info : Z) : bool := Z.land info NEED_PREEMPT_MASK =? 0.
Definition set_need_preempt (info : Z) : Z := Z.land info (unot 32 NEED_PREEMPT_MASK).
Definition clear_need_preempt (info : Z) : Z := Z.lor info NEED_PREEMPT_MASK.
Definition get_guard_count (info : Z) : Z := Z.land info GUARD_COUNT_MASK.
Definition inc_guard_count (info : Z) : Z := wrapping_add 32 info 1.
(** With its debug assertion, which never fails; without it the result is the same. *)
Definition dec_guard_count (info : Z) : outcome Z := _ ← rassert (0 <? get_guard_count info); Ret (wrapping_sub 32 info 1).

(** What a context does with the lock; [was_enabled] is the field of its interrupt guard. *)
Inductive position :=
| Idle
| Guarding (was_enabled : bool)   (* [DisabledLocalIrqGuard::new] has read the flag *)
| Trying (was_enabled : bool)     (* [try_lock] has its guard *)
| Spinning (was_enabled : bool)   (* [lock] has its guard *)
| Holding (was_enabled : bool)    (* has a [SpinLockGuard] *)
| Dropping (was_enabled : bool).  (* the inner guard is left *)

(** A task or an interrupt handler.  [enables] tells whether its own code runs with interrupts enabled. *)
Record context := mk_context { enables : bool; in_bottom : bool; pos : position }.

(** [nested] is [INTERRUPT_NESTED_LEVEL]; the first context of the stack runs. *)
Record cpu := mk_cpu { preempt_info : Z; irq_enabled : bool; nested : Z; stack : list context }.

Definition task : context := mk_context true false Idle.
Definition cpu_new : cpu := mk_cpu NEED_PREEMPT_MASK true 0 [task].

(** [might_sleep], after boot. *)
Definition might_sleep (c : cpu) : outcome unit :=
  if negb (get_guard_count (preempt_info c) =? 0) || negb (irq_enabled c) then Panic else Ret tt.

(** ** Guardians *)

Inductive guardian := PreemptDisabled | LocalIrqDisabled | WriteIrqDisabled.

(** Whether [G::Guard] is a [DisabledLocalIrqGuard]. *)
Definition irq_guard (G : guardian) : bool := match G with PreemptDisabled => false | _ => true end.

Definition set_top (c : cpu) (t : context) : cpu :=
  mk_cpu (preempt_info c) (irq_enabled c) (nested c) (match stack c with [] => [] | _ :: rest => t :: rest end).
Definition set_info (c : cpu) (info : Z) : cpu := mk_cpu info (irq_enabled c) (nested c) (stack c).
Definition set_irq (c : cpu) (b : bool) : cpu := mk_cpu (preempt_info c) b (nested c) (stack c).
Definition at_pos (t : context) (p : position) : context := mk_context (enables t) (in_bottom t) p.

(** [G::guard], its last step; [after] is [Trying] or [Spinning]. *)
Definition guard (G : guardian) (c : cpu) (t : context) (was : bool) (after : bool -> position) : cpu :=
  if irq_guard G then set_top (set_irq c (if was then false else irq_enabled c)) (at_pos t (after was))
  else set_top (set_info c (inc_guard_count (preempt_info c))) (at_pos t (after was)).

(** [drop] of the inner guard. *)
Definition guard_drop (G : guardian) (c : cpu) (t : context) (was : bool) : outcome cpu :=
  if irq_guard G then Ret (set_top (set_irq c (if was then true else irq_enabled c)) (at_pos t Idle))
  else info ← dec_guard_count (preempt_info c); Ret (set_top (set_info c info) (at_pos t Idle)).

(** A step is a call that returns; that none of the calls panics is part of the theorem. *)
Definition returned {A} (o : outcome A) : option A := match o with Ret a => Some a | Panic => None end.

(** [compare_exchange(false, true)]. *)
Definition try_acquire_lock (lock : bool) : bool * bool := if lock then (true, false) else (true, true).
Definition release_lock (lock : bool) : bool := false.

(** ** Steps of a CPU *)

Inductive action :=
| ReadIrq                (* [is_local_enabled] in [DisabledLocalIrqGuard::new] *)
| Lock | TryLock         (* the guard is made *)
| Acquire                (* one [compare_exchange] *)
| Release                (* [SpinLockGuard::drop] *)
| DropGuard
| SetNeedPreempt | ClearNeedPreempt
| Interrupt              (* the hardware calls [call_irq_callback_functions] *)
| StartBottom            (* [process_bottom_half] up to [enable_local] *)
| SwitchIrq              (* the bottom half handler disables or enables interrupts *)
| EndBottom              (* it has returned, with interrupts disabled *)
| Return.                (* the handler returns *)

(** The methods of the lock. *)
Definition lock_next (G : guardian) (act : action) (lock : bool) (c : cpu) (t : context) : option (bool * cpu) :=
  match act, pos t with
  | ReadIrq, Idle => if irq_guard G then Some (lock, set_top c (at_pos t (Guarding (irq_enabled c)))) else None
  | Lock, Guarding was => if irq_guard G then Some (lock, guard G c t was Spinning) else None
  | TryLock, Guarding was => if irq_guard G then Some (lock, guard G c t was Trying) else None
  | Lock, Idle => if irq_guard G then None else Some (lock, guard G c t false Spinning)
  | TryLock, Idle => if irq_guard G then None else Some (lock, guard G c t false Trying)
  | Acquire, Spinning was => let '(l, ok) := try_acquire_lock lock in Some (l, set_top c (at_pos t (if ok then Holding was else Spinning was)))
  | Acquire, Trying was => let '(l, ok) := try_acquire_lock lock in Some (l, set_top c (at_pos t (if ok then Holding was else Dropping was)))
  | Release, Holding was => Some (release_lock lock, set_top c (at_pos t (Dropping was)))
  | DropGuard, Dropping was => c' ← returned (guard_drop G c t was); Some (lock, c')
  | _, _ => None
  end.

(** [call_irq_callback_functions] and [process_bottom_half]; the scheduler asks for a preemption. *)
Definition handler_next (act : action) (c : cpu) (t : context) (rest : list context) : option cpu :=
  match act, pos t with
  | SetNeedPreempt, _ => Some (set_info c (set_need_preempt (preempt_info c)))
  | ClearNeedPreempt, _ => Some (set_info c (clear_need_preempt (preempt_info c)))
  | Interrupt, _ =>
      if irq_enabled c
      then Some (mk_cpu (preempt_info c) false (wrapping_add 8 (nested c) 1) (mk_context false false Idle :: stack c)) else None
  | StartBottom, Idle =>
      if (nested c =? 1) && negb (in_bottom t)
      then Some (set_irq (set_top (set_info c (inc_guard_count (preempt_info c))) (mk_context true true Idle)) true) else None
  | SwitchIrq, Idle =>
      if in_bottom t then Some (set_irq (set_top c (mk_context (negb (enables t)) true Idle)) (negb (enables t))) else None
  | EndBottom, Idle =>
      if in_bottom t && negb (enables t)
      then info ← returned (dec_guard_count (preempt_info c)); Some (set_top (set_info c info) (mk_context false false Idle)) else None
  | Return, Idle =>
      match rest with
      | [] => None
      | _ => if in_bottom t then None else Some (mk_cpu (preempt_info c) true (wrapping_sub 8 (nested c) 1) rest)
      end
  | _, _ => None
  end.

Definition cpu_next (G : guardian) (act : action) (lock : bool) (c : cpu) : option (bool * cpu) :=
  match stack c with
  | [] => None
  | t :: rest =>
      match act with
      | ReadIrq | Lock | TryLock | Acquire | Release | DropGuard => lock_next G act lock c t
      | _ => c' ← handler_next act c t rest; Some (lock, c')
      end
  end.

(** ** The system *)

Record system := mk_sys { locked : bool; cpus : list cpu }.

Definition initial (n : nat) : system := mk_sys false (replicate n cpu_new).

Definition exec (G : guardian) (s : system) (i : nat) (act : action) : option system :=
  c ← cpus s !! i; '(l, c') ← cpu_next G act (locked s) c; Some (mk_sys l (<[i := c']> (cpus s))).

Inductive reachable (G : guardian) (n : nat) : system -> Prop :=
| reach_initial : reachable G n (initial n)
| reach_next s i act s' : reachable G n s -> exec G s i act = Some s' -> reachable G n s'.

(** ** The preemption count *)

Lemma guard_count_mod info : 0 <= info -> get_guard_count info = info mod 2 ^ 31.
Proof. intros _. unfold get_guard_count, GUARD_COUNT_MASK. rewrite Z.shiftl_1_l. change (2 ^ 31 - 1) with (Z.ones 31). by apply Z.land_ones. Qed.

Definition info_is (info n : Z) : Prop := 0 <= info < 2 ^ 32 /\ info mod 2 ^ 31 = n.

Lemma inc_info info n : info_is info n -> n + 1 < 2 ^ 31 -> info_is (inc_guard_count info) (n + 1).
Proof.
  intros [Hb Hm] Hn. unfold info_is, inc_guard_count, wrapping_add.
  rewrite (Z.mod_small (info + 1)) by (Z.to_euclidean_division_equations; lia).
  split; Z.to_euclidean_division_equations; lia.
Qed.

Lemma dec_info info n : info_is info n -> 1 <= n -> exists info', dec_guard_count info = Ret info' /\ info_is info' (n - 1).
Proof.
  intros [Hb Hm] Hn. unfold dec_guard_count. rewrite guard_count_mod, Hm, (proj2 (Z.ltb_lt 0 n)) by lia. eexists. split; [done|].
  unfold info_is, wrapping_sub. rewrite (Z.mod_small (info - 1)) by (Z.to_euclidean_division_equations; lia).
  split; Z.to_euclidean_division_equations; lia.
Qed.

Lemma low_bits_same x y : (forall k, 0 <= k < 31 -> Z.testbit x k = Z.testbit y k) -> x mod 2 ^ 31 = y mod 2 ^ 31.
Proof.
  intros H. apply Z.bits_inj'. intros k Hk. destruct (decide (k < 31)).
  - rewrite !Z.mod_pow2_bits_low by lia. apply H. lia.
  - by rewrite !Z.mod_pow2_bits_high by lia.
Qed.

Lemma set_need_info info n : info_is info n -> info_is (set_need_preempt info) n.
Proof.
  intros [Hb <-]. unfold info_is, set_need_preempt, NEED_PREEMPT_MASK. split; [by apply (uint_land 32)|]. apply low_bits_same. intros k Hk.
  rewrite Z.land_spec, Z.shiftl_1_l, testbit_unot, testbit_pow2 by lia. destruct (Z.eqb_spec k 31); [lia|]. apply andb_true_r.
Qed.

Lemma clear_need_info info n : info_is info n -> info_is (clear_need_preempt info) n.
Proof.
  intros [Hb <-]. unfold info_is, clear_need_preempt, NEED_PREEMPT_MASK. rewrite Z.shiftl_1_l. split; [apply (uint_lor 32); [lia|done|split; lia]|].
  apply low_bits_same. intros k Hk. rewrite Z.lor_spec, testbit_pow2 by lia. destruct (Z.eqb_spec k 31); [lia|]. apply orb_false_r.
Qed.

(** [should_preempt] is what its documentation says. *)
Lemma should_preempt_iff info : 0 <= info < 2 ^ 32 -> should_preempt info = need_preempt info && (get_guard_count info =? 0).
Proof.
  intros Hb. unfold should_preempt, need_preempt, NEED_PREEMPT_MASK. rewrite guard_count_mod by lia.
  pose proof (land_pow2_testbit info 31 ltac:(lia)) as Hl. rewrite <- Z.shiftl_1_l in Hl. rewrite Z.testbit_eqb in Hl by lia.
  destruct (Z.eqb_spec (Z.land info (Z.shiftl 1 31)) 0), (Z.eqb_spec info 0), (Z.eqb_spec (info mod 2 ^ 31) 0); cbn in *; try done;
    exfalso; Z.to_euclidean_division_equations; lia.
Qed.

(** ** The invariant of a CPU *)

Definition guarded (t : context) : bool := match pos t with Trying _ | Spinning _ | Holding _ | Dropping _ => true | _ => false end.
Definition is_holding (t : context) : bool := match pos t with Holding _ => true | _ => false end.

(** The preemption guards of the contexts. *)
Definition guards (G : guardian) (ts : list context) : Z := number in_bottom ts + if irq_guard G then 0 else number guarded ts.

(** The interrupt flag while a context runs. *)
Definition top_ok (G : guardian) (irq : bool) (t : context) : Prop :=
  match pos t with
  | Idle => irq = enables t
  | Guarding was => irq_guard G = true /\ irq = enables t /\ was = enables t
  | Trying was | Spinning was | Holding was | Dropping was => if irq_guard G then irq = false /\ was = enables t else irq = enables t
  end.

(** What a context was doing when it was interrupted. *)
Definition under_ok (G : guardian) (t : context) : Prop :=
  enables t = true /\ match pos t with Idle => True | Guarding was => irq_guard G = true /\ was = true | _ => irq_guard G = false end.

Definition stack_ok (G : guardian) (irq : bool) (ts : list context) : Prop :=
  match ts with
  | [t] => (enables t = true /\ in_bottom t = false) /\ top_ok G irq t
  | [h; t] => (enables t = true /\ in_bottom t = false) /\ under_ok G t /\ (enables h = true -> in_bottom h = true) /\ top_ok G irq h
  | [k; h; t] => (enables t = true /\ in_bottom t = false) /\ under_ok G t /\ in_bottom h = true /\ under_ok G h /\
      (enables k = false /\ in_bottom k = false) /\ top_ok G irq k
  | _ => False
  end.

Definition cpu_inv (G : guardian) (c : cpu) : Prop :=
  stack_ok G (irq_enabled c) (stack c) /\ info_is (preempt_info c) (guards G (stack c)) /\ nested c = Z.of_nat (length (stack c)) - 1.

Lemma guards_small G ts : (length ts <= 3)%nat -> 0 <= guards G ts <= 6.
Proof.
  intros Hl. unfold guards. pose proof (number_nonneg in_bottom ts). pose proof (number_le_length in_bottom ts).
  pose proof (number_nonneg guarded ts). pose proof (number_le_length guarded ts). destruct (irq_guard G); lia.
Qed.

Lemma stack_length G irq ts : stack_ok G irq ts -> (1 <= length ts <= 3)%nat.
Proof. destruct ts as [|? [|? [|? [|]]]]; cbn; try done; lia. Qed.

Lemma stack_top G irq t rest : stack_ok G irq (t :: rest) -> top_ok G irq t.
Proof. destruct rest as [|? [|? [|]]]; cbn; tauto. Qed.

Lemma top_replace G irq t rest irq' t' : stack_ok G irq (t :: rest) -> enables t' = enables t -> in_bottom t' = in_bottom t ->
  top_ok G irq' t' -> stack_ok G irq' (t' :: rest).
Proof. intros Hs He Hb Ht. destruct rest as [|? [|? [|]]]; cbn in *; rewrite ?He, ?Hb; tauto. Qed.

(** An interrupt comes: the context below is one that can be interrupted. *)
Lemma stack_push G t rest : stack_ok G true (t :: rest) -> stack_ok G false (mk_context false false Idle :: t :: rest).
Proof.
  intros Hs. pose proof (stack_top _ _ _ _ Hs) as Ht.
  assert (enables t = true /\ under_ok G t) as [He Hu].
  { unfold top_ok, under_ok in *. destruct (pos t), (irq_guard G); naive_solver. }
  destruct rest as [|h [|? [|]]]; cbn in *; unfold top_ok; cbn; naive_solver congruence.
Qed.

(** The handler returns. *)
Lemma stack_pop G irq t u rest : stack_ok G irq (t :: u :: rest) -> stack_ok G true (u :: rest).
Proof.
  intros Hs. assert (under_ok G u) as Hu by (destruct rest as [|? [|]]; cbn in Hs; tauto).
  assert (top_ok G true u) as Hu' by (unfold under_ok, top_ok in *; destruct (pos u), (irq_guard G); naive_solver).
  destruct rest as [|? [|]]; cbn in *; naive_solver.
Qed.

Lemma guards_replace G t rest t' : guards G (t' :: rest) = guards G (t :: rest) - (holds in_bottom t + if irq_guard G then 0 else holds guarded t)
  + (holds in_bottom t' + if irq_guard G then 0 else holds guarded t').
Proof. unfold guards. cbn [number]. destruct (irq_guard G); lia. Qed.

(** The top context moves from one position to another without touching the CPU-local data. *)
Lemma top_moves G c t rest p : cpu_inv G c -> stack c = t :: rest -> guarded (at_pos t p) = guarded t ->
  (top_ok G (irq_enabled c) t -> top_ok G (irq_enabled c) (at_pos t p)) -> cpu_inv G (set_top c (at_pos t p)).
Proof.
  intros (Hs & Hi & Hn) Hst Hg Ht. unfold cpu_inv, set_top. cbn. rewrite Hst in *. split_and!; [| |done].
  - eapply top_replace; [done..|]. apply Ht. by eapply stack_top.
  - unfold guards in *. cbn [number] in *. unfold holds in *. by rewrite Hg.
Qed.

(** The guard is made ... *)
Lemma guard_ok G c t rest was after : cpu_inv G c -> stack c = t :: rest -> (forall w, guarded (at_pos t (after w)) = true) ->
  (forall irq, top_ok G irq (at_pos t (after was)) <-> if irq_guard G then irq = false /\ was = enables t else irq = enables t) ->
  (if irq_guard G then pos t = Guarding was else pos t = Idle) -> cpu_inv G (guard G c t was after).
Proof.
  intros (Hs & Hi & Hn) Hst Hg Ht Hp. pose proof (stack_length _ _ _ Hs) as Hl. pose proof (guards_small G (stack c) ltac:(lia)) as Hsm.
  rewrite Hst in *. pose proof (stack_top _ _ _ _ Hs) as Htop. unfold top_ok in Htop. unfold guard, cpu_inv, set_top, set_irq, set_info. cbn.
  destruct (irq_guard G) eqn:HG; rewrite Hp in Htop; cbn [preempt_info irq_enabled nested stack]; rewrite Hst; (split_and!; [| |done]).
  - eapply top_replace; [done..|]. apply Ht. destruct Htop as (_ & -> & ->). by destruct (enables t).
  - unfold guards in *. rewrite HG in *. done.
  - eapply top_replace; [done..|]. by apply Ht.
  - rewrite (guards_replace G t), HG. unfold holds, guarded at 1. rewrite Hp, Hg.
    replace (guards G (t :: rest) - _ + _) with (guards G (t :: rest) + 1) by (cbn; lia). apply inc_info; [done|lia].
Qed.

Lemma guards_dropping G t rest was : irq_guard G = false -> pos t = Dropping was -> 1 <= guards G (t :: rest).
Proof.
  intros HG Hp. unfold guards. rewrite HG. cbn [number]. unfold holds at 2, guarded at 1. rewrite Hp. pose proof (number_nonneg in_bottom rest).
  pose proof (number_nonneg guarded rest). unfold holds. destruct (in_bottom t); lia.
Qed.

Lemma guards_bottom G t rest : in_bottom t = true -> 1 <= guards G (t :: rest).
Proof.
  intros Hb. unfold guards. cbn [number]. unfold holds at 1. rewrite Hb. pose proof (number_nonneg in_bottom rest). pose proof (number_nonneg guarded rest).
  unfold holds. destruct (irq_guard G), (guarded t); lia.
Qed.

(** ... and dropped. *)
Lemma guard_drop_ok G c t rest was : cpu_inv G c -> stack c = t :: rest -> pos t = Dropping was ->
  exists c', guard_drop G c t was = Ret c' /\ cpu_inv G c'.
Proof.
  intros (Hs & Hi & Hn) Hst Hp. rewrite Hst in *. pose proof (stack_top _ _ _ _ Hs) as Htop. unfold top_ok in Htop. rewrite Hp in Htop.
  unfold guard_drop, cpu_inv. destruct (irq_guard G) eqn:HG.
  - eexists. split; [done|]. unfold set_top, set_irq. cbn [preempt_info irq_enabled nested stack]. rewrite Hst. split_and!; [| |done].
    + eapply top_replace; [done..|]. cbn. destruct Htop as [-> ->]. by destruct (enables t).
    + unfold guards in *. by rewrite HG in *.
  - destruct (dec_info _ _ Hi (guards_dropping G t rest was HG Hp)) as (info & -> & Hd). eexists. split; [done|].
    unfold set_top, set_info. cbn [preempt_info irq_enabled nested stack]. rewrite Hst. split_and!; [by eapply top_replace| |done].
    rewrite (guards_replace G t), HG. unfold holds, guarded at 1. rewrite Hp.
    by replace (guards G (t :: rest) - _ + _) with (guards G (t :: rest) - 1) by (cbn; lia).
Qed.

(** Interrupts come and return, and the bottom half begins, switches and ends. *)
Lemma handler_ok G act lock c l' c' : cpu_next G act lock c = Some (l', c') -> cpu_inv G c ->
  match act with SetNeedPreempt | ClearNeedPreempt | Interrupt | StartBottom | SwitchIrq | EndBottom | Return => cpu_inv G c' | _ => True end.
Proof.
  intros Hn (Hs & Hi & Hnest). unfold cpu_next in Hn. destruct (stack c) as [|t rest] eqn:Hst; [done|].
  pose proof (stack_length _ _ _ Hs) as Hlen. pose proof (guards_small G (t :: rest) ltac:(lia)) as Hsm. pose proof (stack_top _ _ _ _ Hs) as Htop. unfold top_ok in Htop.
  unfold cpu_inv. destruct act; try done; unfold handler_next in Hn.
  - injection Hn as <- <-. cbn. rewrite Hst. split_and!; [done|by apply set_need_info|done].
  - injection Hn as <- <-. cbn. rewrite Hst. split_and!; [done|by apply clear_need_info|done].
  - destruct (irq_enabled c) eqn:Hirq; [|done]. injection Hn as <- <-. rewrite Hst. cbn [stack irq_enabled preempt_info nested]. split_and!.
    + by apply stack_push.
    + unfold guards in *. cbn [number] in *. unfold holds in *. cbn. destruct (irq_guard G); exact Hi.
    + rewrite Hnest. unfold wrapping_add. rewrite Z.mod_small; cbn in *; lia.
  - destruct (pos t) eqn:Hp; try done. destruct (Z.eqb_spec (nested c) 1) as [Hn1|]; [|done]. destruct (in_bottom t) eqn:Hb; [done|]. injection Hn as <- <-.
    destruct rest as [|u [|]]; cbn in Hnest; try lia. unfold set_irq, set_top, set_info. cbn [stack irq_enabled preempt_info nested]. rewrite Hst. split_and!; [| |done].
    + cbn in Hs |- *. unfold top_ok. cbn. tauto.
    + rewrite (guards_replace G t). unfold holds, guarded. rewrite Hb, Hp. cbn.
      pose proof (inc_info _ _ Hi ltac:(lia)) as Hd. destruct (irq_guard G); by replace (guards G [t; u] - _ + _) with (guards G [t; u] + 1) by lia.
  - destruct (pos t) eqn:Hp; try done. destruct (in_bottom t) eqn:Hb; [|done]. injection Hn as <- <-.
    unfold set_irq, set_top. cbn [stack irq_enabled preempt_info nested]. rewrite Hst. split_and!; [| |done].
    + destruct rest as [|? [|? [|]]]; cbn in Hs |- *; unfold top_ok; cbn; naive_solver congruence.
    + unfold guards in *. cbn [number] in *. unfold holds, guarded in *. cbn. rewrite Hb, Hp in Hi. exact Hi.
  - destruct (pos t) eqn:Hp; try done. destruct (in_bottom t) eqn:Hb; [|done]. destruct (enables t) eqn:He; [done|].
    destruct (dec_info _ _ Hi (guards_bottom G t rest Hb)) as (info & Hdec & Hd). rewrite Hdec in Hn. injection Hn as <- <-.
    unfold set_top, set_info. cbn [stack irq_enabled preempt_info nested]. rewrite Hst. split_and!; [| |done].
    + destruct rest as [|? [|? [|]]]; cbn in Hs |- *; unfold top_ok; cbn; naive_solver congruence.
    + rewrite (guards_replace G t). unfold holds, guarded. rewrite Hb, Hp. cbn. destruct (irq_guard G); by replace (guards G (t :: rest) - _ + _) with (guards G (t :: rest) - 1) by lia.
  - destruct (pos t) eqn:Hp; try done. destruct rest as [|u rest]; [done|]. destruct (in_bottom t) eqn:Hb; [done|]. injection Hn as <- <-.
    cbn [stack irq_enabled preempt_info nested]. split_and!; [by eapply stack_pop| |].
    + unfold guards in *. cbn [number] in *. unfold holds in *. unfold guarded in Hi at 1. rewrite Hb, Hp in Hi. exact Hi.
    + rewrite Hnest. unfold wrapping_sub. cbn in *. rewrite Z.mod_small; lia.
Qed.

Lemma cpu_next_inv G act lock c l' c' : cpu_next G act lock c = Some (l', c') -> cpu_inv G c -> cpu_inv G c'.
Proof.
  intros Hn Hinv. pose proof (handler_ok _ _ _ _ _ _ Hn Hinv) as Hh. unfold cpu_next in Hn. destruct (stack c) as [|t rest] eqn:Hst; [done|].
  pose proof Hinv as (Hs & Hi & Hnest). pose proof (stack_length _ _ _ Hs) as Hlen. pose proof (guards_small G (stack c) ltac:(lia)) as Hsm.
  pose proof Hs as Htop. rewrite Hst in Htop. apply stack_top in Htop. unfold top_ok in Htop.
  destruct act; try exact Hh; clear Hh; unfold lock_next in Hn; destruct (pos t) as [|was|was|was|was|was] eqn:Hp; try done.
  - destruct (irq_guard G) eqn:HG; [|done]. injection Hn as <- <-. eapply top_moves; [done..|unfold guarded; by rewrite Hp|]. intros _. unfold top_ok. cbn. by rewrite HG, Htop.
  - destruct (irq_guard G) eqn:HG; [done|]. injection Hn as <- <-. eapply guard_ok; [done..|]. by rewrite HG.
  - destruct (irq_guard G) eqn:HG; [|done]. injection Hn as <- <-. eapply guard_ok; [done..|]. by rewrite HG.
  - destruct (irq_guard G) eqn:HG; [done|]. injection Hn as <- <-. eapply guard_ok; [done..|]. by rewrite HG.
  - destruct (irq_guard G) eqn:HG; [|done]. injection Hn as <- <-. eapply guard_ok; [done..|]. by rewrite HG.
  - destruct lock; injection Hn as <- <-; (eapply top_moves; [done..|unfold guarded; by rewrite Hp|unfold top_ok; by rewrite Hp]).
  - destruct lock; injection Hn as <- <-; (eapply top_moves; [done..|unfold guarded; by rewrite Hp|unfold top_ok; by rewrite Hp]).
  - injection Hn as <- <-. eapply top_moves; [done..|unfold guarded; by rewrite Hp|unfold top_ok; by rewrite Hp].
  - destruct (guard_drop_ok _ _ _ _ _ Hinv Hst Hp) as (c1 & Hd & Hinv'). rewrite Hd in Hn. by injection Hn as <- <-.
Qed.

(** ** The flag *)

Lemma cpu_next_holding G act lock c l' c' : cpu_next G act lock c = Some (l', c') -> number is_holding (stack c) <= Z.b2z lock ->
  number is_holding (stack c') - number is_holding (stack c) = Z.b2z l' - Z.b2z lock.
Proof.
  intros Hn Hl. destruct c as [info irq ne [|[en bo p] rest]]; [done|]. unfold cpu_next in Hn. pose proof (number_nonneg is_holding rest).
  destruct act, p, lock; try done; unfold lock_next, handler_next, guard_drop, dec_guard_count in Hn; cbn in *;
    repeat (case_match; try done; cbn in Hn); simplify_eq; cbn in *; unfold guard; repeat case_match; cbn; try lia.
  all: destruct (0 <? get_guard_count info); [|done]; injection Hn as <- <-; cbn; lia.
Qed.

(** The contexts of all CPUs that hold the lock. *)
Fixpoint held (cs : list cpu) : Z := match cs with [] => 0 | c :: cs' => number is_holding (stack c) + held cs' end.

Lemma held_insert cs i c c' : cs !! i = Some c -> held (<[i := c']> cs) = held cs - number is_holding (stack c) + number is_holding (stack c').
Proof.
  revert i. induction cs as [|d cs IH]; intros [|i]; cbn; try done.
  - intros [= ->]. lia.
  - intros Hi. rewrite IH by done. lia.
Qed.

Lemma held_nonneg cs : 0 <= held cs.
Proof. induction cs as [|d cs IH]; cbn; [lia|]. pose proof (number_nonneg is_holding (stack d)). lia. Qed.

Lemma held_two cs i j c d : i <> j -> cs !! i = Some c -> cs !! j = Some d -> number is_holding (stack c) + number is_holding (stack d) <= held cs.
Proof.
  revert i j. induction cs as [|e cs IH]; intros [|i] [|j] Hij; cbn; try done.
  - intros [= ->] Hj. pose proof (IH (S j) j ltac:(lia)) as H. pose proof (held_insert cs j d cpu_new Hj). pose proof (held_nonneg (<[j := cpu_new]> cs)).
    change (number is_holding (stack cpu_new)) with 0 in *. lia.
  - intros Hi [= ->]. pose proof (held_insert cs i c cpu_new Hi). pose proof (held_nonneg (<[i := cpu_new]> cs)).
    change (number is_holding (stack cpu_new)) with 0 in *. lia.
  - intros Hi Hj. pose proof (IH i j ltac:(lia) Hi Hj). pose proof (number_nonneg is_holding (stack e)). lia.
Qed.

Lemma held_at cs i c : cs !! i = Some c -> number is_holding (stack c) <= held cs.
Proof.
  intros Hi. pose proof (held_insert cs i c cpu_new Hi). pose proof (held_nonneg (<[i := cpu_new]> cs)). change (number is_holding (stack cpu_new)) with 0 in *. lia.
Qed.

Definition sys_inv (G : guardian) (s : system) : Prop := held (cpus s) = Z.b2z (locked s) /\ Forall (cpu_inv G) (cpus s).

Lemma spin_reachable_inv G n s : reachable G n s -> sys_inv G s.
Proof.
  induction 1 as [|s i act s' Hr [Hh Hc] He].
  - split; cbn.
    + induction n as [|n IH]; cbn; lia.
    + apply Forall_replicate. split_and!; [done| |done]. change NEED_PREEMPT_MASK with (2 ^ 31). unfold info_is. cbn [preempt_info cpu_new]. destruct G; split; lia || done.
  - unfold exec in He. destruct (cpus s !! i) as [c|] eqn:Hi; [|done]. cbn in He. destruct (cpu_next G act (locked s) c) as [[l c']|] eqn:Hn; [|done].
    injection He as <-. pose proof (held_at _ _ _ Hi) as Hat. split; cbn.
    + rewrite (held_insert _ _ _ _ Hi). pose proof (cpu_next_holding _ _ _ _ _ _ Hn ltac:(lia)). lia.
    + apply Forall_insert; [done|]. eapply cpu_next_inv; [done|]. by eapply Forall_lookup_1.
Qed.

Definition holder (s : system) (i k : nat) : Prop :=
  exists c t, cpus s !! i = Some c /\ stack c !! k = Some t /\ is_holding t = true.

Lemma guards_pos G ts t : irq_guard G = false -> t ∈ ts -> guarded t = true -> 1 <= guards G ts.
Proof.
  intros HG Ht Hg. unfold guards. rewrite HG. apply list_elem_of_lookup in Ht as [k Hk]. pose proof (number_one guarded ts k t Hk Hg).
  pose proof (number_nonneg in_bottom ts). lia.
Qed.

Lemma guarded_runs G irq ts k t : irq_guard G = true -> stack_ok G irq ts -> ts !! k = Some t -> guarded t = true -> k = 0%nat /\ irq = false.
Proof.
  intros HG Hs Hk Hg. unfold guarded in Hg. destruct ts as [|a [|b [|c [|]]]]; cbn in Hs; try done; unfold under_ok, top_ok in Hs; rewrite ?HG in Hs;
    destruct k as [|[|[|k]]]; cbn in Hk; simplify_eq; destruct (pos t); try done; naive_solver.
Qed.

Lemma atomic_mode G c t : cpu_inv G c -> t ∈ stack c -> guarded t = true -> might_sleep c = Panic.
Proof.
  intros (Hs & [Hb Hm] & _) Ht Hg. unfold might_sleep. rewrite guard_count_mod, Hm by lia. destruct (irq_guard G) eqn:HG.
  - apply list_elem_of_lookup in Ht as [k Hk]. destruct (guarded_runs _ _ _ _ _ HG Hs Hk Hg) as [_ ->]. by rewrite orb_true_r.
  - pose proof (guards_pos _ _ _ HG Ht Hg). destruct (Z.eqb_spec (guards G (stack c)) 0); [lia|done].
Qed.

(** C19: a spin lock with any guardian is exclusive and keeps the atomic mode.  For any number of CPUs, with tasks and
    nested interrupt handlers that all use the lock, under every interleaving: at most one context has a guard, and exactly
    then the flag is set; on a CPU where some context has a guard, spins for one or is about to drop it, [might_sleep] panics;
    handlers nest at most twice; and if the guardian disables interrupts, the context that holds the lock is the
    running context of its CPU, so that it can release the lock however many other contexts spin for it.  The assertion
    that the count of preemption guards is positive holds whenever one is dropped. *)
Theorem spin_lock_correct G n s : reachable G n s ->
  (forall i k j m, holder s i k -> holder s j m -> i = j /\ k = m) /\ (locked s = true <-> exists i k, holder s i k) /\
  (forall i c, cpus s !! i = Some c -> 0 <= nested c <= 2 /\ forall t, t ∈ stack c -> guarded t = true -> might_sleep c = Panic) /\
  (irq_guard G = true -> forall i k, holder s i k -> k = 0%nat /\ is_Some (exec G s i Release)) /\
  (forall i c t rest, cpus s !! i = Some c -> stack c = t :: rest ->
     (forall was, pos t = Dropping was -> is_Some (exec G s i DropGuard)) /\
     (pos t = Idle -> in_bottom t = true -> enables t = false -> is_Some (exec G s i EndBottom))).
Proof.
  intros Hr. destruct (spin_reachable_inv _ _ _ Hr) as [Hh Hc].
  assert (forall i k, holder s i k -> exists c, cpus s !! i = Some c /\ 1 <= number is_holding (stack c)) as Hone.
  { intros i k (c & t & Hi & Hk & Ht). exists c. split; [done|]. by eapply number_one. }
  split_and!.
  - intros i k j m H1 H2. destruct (decide (i = j)) as [<-|Hij].
    + split; [done|]. destruct H1 as (c & t & Hi & Hk & Ht), H2 as (c' & t' & Hi' & Hm & Ht'). simplify_eq. destruct (decide (k = m)) as [|Hkm]; [done|]. exfalso.
      pose proof (number_two is_holding (stack c) k m t t' Hkm Hk Hm) as Htwo. unfold holds in Htwo. rewrite Ht, Ht' in Htwo.
      pose proof (held_at _ _ _ Hi). destruct (locked s); cbn in *; lia.
    + exfalso. destruct (Hone _ _ H1) as (c & Hi & ?), (Hone _ _ H2) as (d & Hj & ?). pose proof (held_two _ _ _ _ _ Hij Hi Hj). destruct (locked s); cbn in *; lia.
  - split.
    + intros Hl. rewrite Hl in Hh. assert (exists i c, cpus s !! i = Some c /\ 0 < number is_holding (stack c)) as (i & c & Hi & Hp).
      { clear - Hh. generalize dependent (cpus s). intros cs. cbn. induction cs as [|c cs IH]; cbn; [done|]. intros H.
        destruct (decide (0 < number is_holding (stack c))); [by exists 0%nat, c|]. pose proof (number_nonneg is_holding (stack c)).
        destruct IH as (i & d & Hi & Hd); [lia|]. by exists (S i), d. }
      destruct (number_pos _ _ Hp) as (k & t & Hk & Ht). exists i, k, c, t. done.
    + intros (i & k & H). destruct (Hone _ _ H) as (c & Hi & ?). pose proof (held_at _ _ _ Hi). destruct (locked s); [done|cbn in *; lia].
  - intros i c Hi. pose proof (Forall_lookup_1 _ _ _ _ Hc Hi) as Hci. split; [|intros t; by apply (atomic_mode G)].
    destruct Hci as (Hs & _ & ->). apply stack_length in Hs. lia.
  - intros HG i k (c & t & Hi & Hk & Ht). pose proof (Forall_lookup_1 _ _ _ _ Hc Hi) as (Hs & _ & _).
    assert (guarded t = true) as Hg by (unfold guarded, is_holding in *; by destruct (pos t)).
    destruct (guarded_runs _ _ _ _ _ HG Hs Hk Hg) as [-> _]. split; [done|]. unfold exec. rewrite Hi. cbn. unfold cpu_next, lock_next.
    destruct (stack c) as [|t' rest]; [done|]. injection Hk as ->. unfold is_holding in Ht. by destruct (pos t).
  - intros i c t rest Hi Hst. pose proof (Forall_lookup_1 _ _ _ _ Hc Hi) as Hinv. unfold exec, cpu_next. rewrite Hi. cbn [mbind option_bind]. rewrite Hst. split.
    + intros was Hp. cbn [lock_next]. rewrite Hp. destruct (guard_drop_ok _ _ _ _ _ Hinv Hst Hp) as (c' & -> & _). by eexists.
    + intros Hp Hb He. cbn [handler_next]. rewrite Hp, Hb, He. destruct Hinv as (_ & Hinfo & _). rewrite Hst in Hinfo.
      destruct (dec_info _ _ Hinfo (guards_bottom G t rest Hb)) as (info & -> & _). by eexists.
Qed.

(** ** Runs *)

Fixpoint run (G : guardian) (s : system) (acts : list (nat * action)) : option system :=
  match acts with
  | [] => Some s
  | (i, act) :: acts' => s' ← exec G s i act; run G s' acts'
  end.

Lemma spin_run_reachable G n acts s s' : reachable G n s -> run G s acts = Some s' -> reachable G n s'.
Proof.
  revert s. induction acts as [|[i act] acts IH]; intros s Hr; cbn; [by intros [= <-]|].
  destruct (exec G s i act) as [s1|] eqn:He; [|done]. cbn. apply IH. by eapply reach_next.
Qed.

(** A task holds a lock that disables preemption only; a handler interrupts it and locks. *)
Definition stuck_acts : list (nat * action) := [(0%nat, Lock); (0%nat, Acquire); (0%nat, Interrupt); (0%nat, Lock)].
Definition stuck_stack : list context := [mk_context false false (Spinning false); mk_context true false (Holding false)].
Definition stuck (s : system) : Prop :=
  locked s = true /\ exists info ne, cpus s = [mk_cpu info false ne stuck_stack].

Lemma stuck_step s i act s' : stuck s -> exec PreemptDisabled s i act = Some s' -> stuck s'.
Proof.
  destruct s as [l cs]. intros [Hl (info & ne & Hc)]. cbn in *. subst. unfold exec. cbn. destruct i as [|i]; [|done].
  destruct act; cbn; try done; intros [= <-]; (split; [done|]); eauto.
Qed.

(** The guardian matters: if a handler uses a lock that disables preemption only, it can wait for ever for the task
    that it interrupted.  There is a run after which a task holds the lock, a handler above it spins for it, and no
    further step of the CPU ever changes that. *)
Theorem spin_preempt_self_deadlock : exists s, reachable PreemptDisabled 1 s /\
  forall acts s', run PreemptDisabled s acts = Some s' -> locked s' = true /\ exists c, cpus s' = [c] /\ stack c = stuck_stack.
Proof.
  destruct (run PreemptDisabled (initial 1) stuck_acts) as [s|] eqn:Hrun; [|by vm_compute in Hrun]. exists s.
  split; [by eapply spin_run_reachable; [apply reach_initial|]|].
  assert (stuck s) as Hst by (vm_compute in Hrun; injection Hrun as <-; split; [done|]; do 2 eexists; reflexivity).
  clear Hrun. intros acts. revert s Hst. induction acts as [|[i act] acts IH]; intros s Hst s'; cbn.
  - intros [= <-]. destruct Hst as [Hl (info & ne & Hc)]. split; [done|]. eauto.
  - destruct (exec PreemptDisabled s i act) as [s1|] eqn:He; [|done]. cbn. apply IH. by eapply stuck_step.
Qed.

(** Two CPUs; one holds the lock, the other one spins in a handler. *)
Definition contend_acts : list (nat * action) :=
  [(0%nat, ReadIrq); (0%nat, Lock); (0%nat, Acquire); (1%nat, ReadIrq); (1%nat, Interrupt); (1%nat, ReadIrq); (1%nat, Lock); (1%nat, Acquire)].
Definition contend : system := default (initial 2) (run LocalIrqDisabled (initial 2) contend_acts).

Lemma spin_lock_correct_witness : is_Some (exec LocalIrqDisabled contend 0 Release).
Proof.
  refine (proj2 (proj1 (proj2 (proj2 (proj2 (spin_lock_correct LocalIrqDisabled 2 contend _)))) eq_refl 0%nat 0%nat _)).
  - apply (spin_run_reachable _ _ contend_acts (initial 2)); [apply reach_initial|vm_compute; reflexivity].
  - do 2 eexists. split_and!; vm_compute; reflexivity.
Defined.
