(* ===== verification/RwLock.v ===== *)
(** * [ostd/src/sync/rwlock.rs]: the spinning reader-writer lock

    The lock is one 64-bit word: a reader count with an overflow sentinel and
    three flag bits, for the writer, the upgradeable reader and an upgrade in
    progress.  Each method is a sequence of atomic operations on the word; the
    methods are cut at these operations, so that the calls of any number of
    agents interleave in every possible way.  [read], [write] and [upread] spin
    on the [try_] methods, and [upgrade] on [try_upgrade], which are the steps
    of an agent that calls them again.

    The main invariant reads the word back as the numbers of agents in each
    state.  It gives mutual exclusion, and that a lock nobody uses is free. *)

From S2P Require Import Prelude Agents.
Open Scope Z_scope.

Definition READER : Z := 1.
Definition WRITER : Z := Z.shiftl 1 63.
Definition UPGRADEABLE_READER : Z := Z.shiftl 1 62.
Definition BEING_UPGRADED : Z := Z.shiftl 1 61.
Definition MAX_READER : Z := Z.shiftl 1 60.

(** The atomic operations; each returns the previous value in the code. *)
Definition fetch_add (lock v : Z) : Z := wrapping_add 64 lock v.
Definition fetch_sub (lock v : Z) : Z := wrapping_sub 64 lock v.
Definition fetch_or (lock v : Z) : Z := Z.lor lock v.
Definition fetch_and (lock v : Z) : Z := Z.land lock v.

(** Where an agent is: outside the lock, holding a guard, or between the two
    atomic operations of a method. *)
Inductive agent :=
| Idle
| Reading        (* holds [RwLockReadGuard] *)
| Retracting     (* [try_read] failed, its count is still in the word *)
| Writing        (* holds [RwLockWriteGuard] *)
| Upreading      (* holds [RwLockUpgradeableGuard] *)
| UpRetracting   (* [try_upread] met a writer, its bit is still in the word *)
| Upgrading      (* in the loop of [upgrade] *)
| Upgraded.      (* [try_upgrade] succeeded, the upgradeable bit is still in the word *)
Global Instance agent_eq_dec : EqDecision agent.
Proof. solve_decision. Defined.

Definition new : Z := 0.

Definition try_read (lock : Z) : Z * agent :=
  (fetch_add lock READER,
   if Z.land lock (Z.lor (Z.lor WRITER MAX_READER) BEING_UPGRADED) =? 0 then Reading else Retracting).
Definition try_read_retract (lock : Z) : Z * agent := (fetch_sub lock READER, Idle).

Definition try_write (lock : Z) : Z * agent :=
  if lock =? 0 then (WRITER, Writing) else (lock, Idle).

Definition try_upread (lock : Z) : Z * agent :=
  let prev := Z.land lock (Z.lor WRITER UPGRADEABLE_READER) in
  (fetch_or lock UPGRADEABLE_READER,
   if prev =? 0 then Upreading else if prev =? WRITER then UpRetracting else Idle).
Definition try_upread_retract (lock : Z) : Z * agent := (fetch_sub lock UPGRADEABLE_READER, Idle).

Definition read_guard_drop (lock : Z) : Z * agent := (fetch_sub lock READER, Idle).
Definition write_guard_drop (lock : Z) : Z * agent := (fetch_and lock (unot 64 WRITER), Idle).
Definition upgradeable_guard_drop (lock : Z) : Z * agent := (fetch_sub lock UPGRADEABLE_READER, Idle).

Definition upgrade (lock : Z) : Z * agent := (fetch_or lock BEING_UPGRADED, Upgrading).
Definition try_upgrade (lock : Z) : Z * agent :=
  if lock =? Z.lor UPGRADEABLE_READER BEING_UPGRADED
  then (Z.lor WRITER UPGRADEABLE_READER, Upgraded) else (lock, Upgrading).
Definition try_upgrade_finish (lock : Z) : Z * agent := (fetch_sub lock UPGRADEABLE_READER, Writing).

(** ** The lock and its agents *)

Inductive agent_step (lock : Z) : agent -> Z * agent -> Prop :=
| st_try_read : agent_step lock Idle (try_read lock)
| st_read_retract : agent_step lock Retracting (try_read_retract lock)
| st_read_drop : agent_step lock Reading (read_guard_drop lock)
| st_try_write : agent_step lock Idle (try_write lock)
| st_write_drop : agent_step lock Writing (write_guard_drop lock)
| st_try_upread : agent_step lock Idle (try_upread lock)
| st_upread_retract : agent_step lock UpRetracting (try_upread_retract lock)
| st_up_drop : agent_step lock Upreading (upgradeable_guard_drop lock)
| st_upgrade : agent_step lock Upreading (upgrade lock)
| st_try_upgrade : agent_step lock Upgrading (try_upgrade lock)
| st_upgrade_finish : agent_step lock Upgraded (try_upgrade_finish lock).

(** One agent performs one atomic operation. *)
Inductive step (lock : Z) (ags : list agent) : Z -> list agent -> Prop :=
| step_agent i a lock' a' :
    ags !! i = Some a -> agent_step lock a (lock', a') -> step lock ags lock' (<[i := a']> ags).

Inductive reachable (n : nat) : Z -> list agent -> Prop :=
| reach_init : reachable n new (replicate n Idle)
| reach_next lock ags lock' ags' :
    reachable n lock ags -> step lock ags lock' ags' -> reachable n lock' ags'.

(** ** Counting agents *)

Definition is_read a := match a with Reading => true | _ => false end.
(** Agents whose count is in the reader bits. *)
Definition in_readers a := match a with Reading | Retracting => true | _ => false end.
Definition is_writer a := match a with Writing | Upgraded => true | _ => false end.
(** The agents that put the upgradeable bit into the word. *)
Definition has_upbit a :=
  match a with Upreading | UpRetracting | Upgrading | Upgraded => true | _ => false end.
Definition is_upgrading a := match a with Upgrading => true | _ => false end.
(** Agents with (shared) access as an upgradeable reader. *)
Definition is_upread a := match a with Upreading | Upgrading => true | _ => false end.

(** The word, read back. *)
Definition lock_inv (lock : Z) (ags : list agent) : Prop :=
  lock = number in_readers ags + 2 ^ 63 * number is_writer ags + 2 ^ 62 * number has_upbit ags
         + 2 ^ 61 * number is_upgrading ags /\
  number is_writer ags <= 1 /\ number has_upbit ags <= 1 /\
  (number is_writer ags = 1 -> number is_read ags = 0 /\ number is_upread ags = 0).

(** ** The fields of the word *)

Definition word (R W U B : Z) : Z := R + 2 ^ 63 * W + 2 ^ 62 * U + 2 ^ 61 * B.

Definition fields (R W U B : Z) : Prop :=
  0 <= R < 2 ^ 61 /\ 0 <= W <= 1 /\ 0 <= U <= 1 /\ 0 <= B <= 1.

Lemma word_bits R W U B : fields R W U B ->
  Z.testbit (word R W U B) 63 = (W =? 1) /\ Z.testbit (word R W U B) 62 = (U =? 1) /\
  Z.testbit (word R W U B) 61 = (B =? 1) /\ Z.testbit (word R W U B) 60 = (2 ^ 60 <=? R) /\
  0 <= word R W U B < 2 ^ 64.
Proof.
  intros (HR & HW & HU & HB). unfold word. rewrite !Z.testbit_eqb by lia.
  assert (W = 0 \/ W = 1) as [-> | ->] by lia; assert (U = 0 \/ U = 1) as [-> | ->] by lia;
    assert (B = 0 \/ B = 1) as [-> | ->] by lia; split_and!; try lia;
    (apply Bool.eq_true_iff_eq; rewrite ?Z.eqb_eq, ?Z.leb_le; split; intros; Z.to_euclidean_division_equations; lia).
Qed.

Lemma word_zero R W U B : fields R W U B -> word R W U B = 0 <-> R = 0 /\ W = 0 /\ U = 0 /\ B = 0.
Proof. unfold fields, word. lia. Qed.

Lemma lor_pow2_clear x k : 0 <= k -> Z.testbit x k = false -> Z.lor x (2 ^ k) = x + 2 ^ k.
Proof.
  intros Hk Hb. assert (Z.land x (2 ^ k) = 0) as H0.
  { pose proof (land_pow2_testbit x k Hk) as Hl. rewrite Hb in Hl. apply negb_false_iff in Hl. lia. }
  rewrite <- Z.lxor_lor by done. symmetry. by apply Z.add_nocarry_lxor.
Qed.

Lemma lor_pow2_set x k : 0 <= k -> Z.testbit x k = true -> Z.lor x (2 ^ k) = x.
Proof.
  intros Hk Hb. apply Z.bits_inj'. intros n Hn. rewrite Z.lor_spec, testbit_pow2 by done.
  destruct (Z.eqb_spec n k) as [->|]; [by rewrite Hb|]. by rewrite orb_false_r.
Qed.

(** Two or three flags tested at once. *)
Lemma land_lor_zero x a b : Z.land x (Z.lor a b) = 0 <-> Z.land x a = 0 /\ Z.land x b = 0.
Proof. rewrite Z.land_lor_distr_r. apply Z.lor_eq_0_iff. Qed.

Lemma land_flag_zero x k : 0 <= k -> Z.land x (Z.shiftl 1 k) = 0 <-> Z.testbit x k = false.
Proof.
  intros Hk. rewrite Z.shiftl_1_l. pose proof (land_pow2_testbit x k Hk) as Hl.
  rewrite <- Hl, negb_false_iff, Z.eqb_eq. done.
Qed.

(** ** The operations on the fields *)

Lemma fetch_sub_exact x v : 0 <= v <= x -> x < 2 ^ 64 -> fetch_sub x v = x - v.
Proof. intros. unfold fetch_sub, wrapping_sub. apply Z.mod_small. lia. Qed.

Lemma try_read_word R W U B : fields R W U B -> R + 1 < 2 ^ 61 ->
  try_read (word R W U B) = (word (R + 1) W U B,
    if (W =? 0) && (B =? 0) && (R <? 2 ^ 60) then Reading else Retracting).
Proof.
  intros Hf HR. destruct (word_bits _ _ _ _ Hf) as (H63 & H62 & H61 & H60 & Hb).
  destruct Hf as (? & ? & ? & ?). unfold try_read, READER. f_equal.
  - unfold fetch_add, wrapping_add. rewrite Z.mod_small; unfold word in *; lia.
  - assert (Hz : Z.land (word R W U B) (Z.lor (Z.lor WRITER MAX_READER) BEING_UPGRADED) = 0 <->
      W = 0 /\ B = 0 /\ R < 2 ^ 60).
    { rewrite !land_lor_zero. unfold WRITER, MAX_READER, BEING_UPGRADED.
      rewrite !land_flag_zero, H63, H61, H60 by lia. lia. }
    destruct (Z.eqb_spec (Z.land (word R W U B) (Z.lor (Z.lor WRITER MAX_READER) BEING_UPGRADED)) 0);
      destruct (Z.eqb_spec W 0), (Z.eqb_spec B 0), (Z.ltb_spec R (2 ^ 60)); cbn [andb];
      try reflexivity; exfalso; tauto || lia.
Qed.

Lemma sub_reader_word R W U B : fields R W U B -> 1 <= R ->
  fetch_sub (word R W U B) READER = word (R - 1) W U B.
Proof.
  intros Hf HR. destruct (word_bits _ _ _ _ Hf) as (_ & _ & _ & _ & Hb). destruct Hf as (? & ? & ? & ?).
  unfold READER. rewrite fetch_sub_exact; unfold word in *; lia.
Qed.

Lemma sub_upbit_word R W B : fields R W 1 B ->
  fetch_sub (word R W 1 B) UPGRADEABLE_READER = word R W 0 B.
Proof.
  intros Hf. destruct (word_bits _ _ _ _ Hf) as (_ & _ & _ & _ & Hb). destruct Hf as (? & ? & ? & ?).
  change UPGRADEABLE_READER with (2 ^ 62). rewrite fetch_sub_exact; unfold word in *; lia.
Qed.

Lemma or_upbit_word R W U B : fields R W U B ->
  fetch_or (word R W U B) UPGRADEABLE_READER = word R W 1 B.
Proof.
  intros Hf. destruct (word_bits _ _ _ _ Hf) as (_ & H62 & _). destruct Hf as (? & ? & ? & ?).
  unfold fetch_or. change UPGRADEABLE_READER with (2 ^ 62).
  destruct (Z.eqb_spec U 1) as [->|]; [by apply lor_pow2_set|].
  rewrite lor_pow2_clear by done. unfold word. lia.
Qed.

Lemma try_upread_word R W U B : fields R W U B ->
  try_upread (word R W U B) = (word R W 1 B,
    if U =? 1 then Idle else if W =? 1 then UpRetracting else Upreading).
Proof.
  intros Hf. destruct (word_bits _ _ _ _ Hf) as (H63 & H62 & _). unfold try_upread. f_equal.
  { by apply or_upbit_word. }
  set (prev := Z.land _ _).
  assert (P63 : Z.testbit prev 63 = (W =? 1)).
  { unfold prev. rewrite Z.land_spec, H63. by destruct (W =? 1). }
  assert (P62 : Z.testbit prev 62 = (U =? 1)).
  { unfold prev. rewrite Z.land_spec, H62. by destruct (U =? 1). }
  assert (Hz : prev = 0 <-> Z.testbit (word R W U B) 63 = false /\ Z.testbit (word R W U B) 62 = false).
  { unfold prev. rewrite land_lor_zero. unfold WRITER, UPGRADEABLE_READER.
    rewrite !land_flag_zero by lia. done. }
  assert (Hw : (U =? 1) = false -> (W =? 1) = true -> prev = WRITER).
  { intros HU HW. unfold prev. rewrite Z.land_lor_distr_r.
    rewrite (proj2 (land_flag_zero _ 62 ltac:(lia))) by congruence. rewrite Z.lor_0_r.
    apply Z.bits_inj'. intros n Hn. rewrite Z.land_spec. change WRITER with (2 ^ 63).
    rewrite testbit_pow2 by lia. destruct (Z.eqb_spec n 63) as [->|]; [by rewrite H63, HW|].
    apply andb_false_r. }
  rewrite H63, H62 in Hz.
  destruct (U =? 1), (W =? 1), (Z.eqb_spec prev 0) as [Hp|Hp], (Z.eqb_spec prev WRITER) as [Hq|Hq];
    try reflexivity; exfalso; rewrite ?Hp, ?Hq in *; naive_solver.
Qed.

Lemma or_upgraded_word R W U : fields R W U 0 ->
  fetch_or (word R W U 0) BEING_UPGRADED = word R W U 1.
Proof.
  intros Hf. destruct (word_bits _ _ _ _ Hf) as (_ & _ & H61 & _).
  unfold fetch_or. change BEING_UPGRADED with (2 ^ 61). rewrite lor_pow2_clear by done. unfold word. lia.
Qed.

Lemma and_writer_word R U B : fields R 1 U B ->
  fetch_and (word R 1 U B) (unot 64 WRITER) = word R 0 U B.
Proof.
  intros Hf. assert (fields R 0 U B) as Hf0 by (unfold fields in *; lia).
  destruct (word_bits _ _ _ _ Hf0) as (H63 & _ & _ & _ & Hb).
  unfold fetch_and. change WRITER with (2 ^ 63).
  replace (word R 1 U B) with (Z.lor (word R 0 U B) (2 ^ 63))
    by (rewrite lor_pow2_clear by done; unfold word; lia).
  apply (uint_eq_bits 64); [lia| |done|].
  - apply uint_land; [lia|]. apply uint_lor; [lia|done|]. split; lia.
  - intros k Hk. rewrite Z.land_spec, Z.lor_spec, testbit_unot, testbit_pow2 by lia.
    destruct (Z.eqb_spec k 63) as [->|]; cbn [negb]; [by rewrite H63|].
    by rewrite orb_false_r, andb_true_r.
Qed.

(** ** The invariant *)

(** Relations between the counts that follow from the predicates. *)
Lemma counts ags : Z.of_nat (length ags) < 2 ^ 61 ->
  number is_writer ags <= 1 -> number has_upbit ags <= 1 ->
  fields (number in_readers ags) (number is_writer ags) (number has_upbit ags) (number is_upgrading ags) /\
  0 <= number is_read ags <= number in_readers ags /\
  0 <= number is_upgrading ags <= number is_upread ags /\ number is_upread ags <= number has_upbit ags.
Proof.
  intros Hn Hw Hu.
  pose proof (number_nonneg in_readers ags). pose proof (number_nonneg is_writer ags).
  pose proof (number_nonneg has_upbit ags). pose proof (number_nonneg is_upgrading ags).
  pose proof (number_nonneg is_read ags).
  pose proof (number_le_length in_readers ags).
  pose proof (number_mono is_read in_readers ags ltac:(by intros [])).
  pose proof (number_mono is_upgrading is_upread ags ltac:(by intros [])).
  pose proof (number_mono is_upread has_upbit ags ltac:(by intros [])).
  unfold fields. lia.
Qed.

(** The counts after agent [i] has moved from [a] to [a']. *)
Lemma lock_inv_update lock' ags i a a' R W U B :
  ags !! i = Some a -> lock' = word R W U B ->
  R = number in_readers ags - holds in_readers a + holds in_readers a' ->
  W = number is_writer ags - holds is_writer a + holds is_writer a' ->
  U = number has_upbit ags - holds has_upbit a + holds has_upbit a' ->
  B = number is_upgrading ags - holds is_upgrading a + holds is_upgrading a' ->
  W <= 1 -> U <= 1 ->
  (W = 1 -> number is_read ags - holds is_read a + holds is_read a' = 0 /\
            number is_upread ags - holds is_upread a + holds is_upread a' = 0) ->
  lock_inv lock' (<[i := a']> ags).
Proof.
  intros Hi -> -> -> -> -> HW HU Hex. unfold lock_inv.
  rewrite !(number_insert _ ags i a a' Hi). split_and!; auto.
Qed.

Lemma lock_step_inv lock ags i a lock' a' :
  Z.of_nat (length ags) < 2 ^ 61 -> lock_inv lock ags -> ags !! i = Some a ->
  agent_step lock a (lock', a') -> lock_inv lock' (<[i := a']> ags).
Proof.
  intros Hn (Hlock & HW & HU & Hex) Hi Hs.
  destruct (counts ags Hn HW HU) as (Hf & Hrd & Hug & Hup).
  pose proof (number_mono_at is_upgrading has_upbit ags i a ltac:(by intros []) Hi) as Hat1.
  pose proof (number_mono_at is_upread has_upbit ags i a ltac:(by intros []) Hi) as Hat2.
  pose proof (number_mono_at (fun _ => false) in_readers ags i a ltac:(by intros []) Hi) as Hat3.
  pose proof (number_mono_at (fun _ => false) is_writer ags i a ltac:(by intros []) Hi) as Hat4.
  pose proof (number_mono_at in_readers (fun _ => true) ags i a ltac:(by intros []) Hi) as Hat5.
  pose proof (number_le_length (fun _ => true) ags) as Hall.
  pose proof (number_nonneg (fun _ => false) ags) as Hnn.
  pose proof (number_mono_at (fun _ => false) is_read ags i a ltac:(by intros []) Hi) as Hat6.
  pose proof (number_mono_at (fun _ => false) is_upread ags i a ltac:(by intros []) Hi) as Hat7.
  pose proof (number_mono_at (fun _ => false) is_upgrading ags i a ltac:(by intros []) Hi) as Hat8.
  pose proof (fun R W U B => lock_inv_update lock' ags i a a' R W U B Hi) as Hup'.
  change (lock = word (number in_readers ags) (number is_writer ags) (number has_upbit ags)
    (number is_upgrading ags)) in Hlock.
  pose proof Hf as (HfR & HfW & HfU & HfB). remember (lock', a') as p eqn:Ep.
  destruct Hs; cbn in *; rewrite Hlock in Ep.
  - rewrite try_read_word in Ep by (done || lia). injection Ep as <- <-.
    destruct (_ && _) eqn:Et; zify_bools; eapply Hup'; cbn; try reflexivity; lia.
  - unfold try_read_retract in Ep. rewrite sub_reader_word in Ep by (done || lia). injection Ep as <- <-.
    eapply Hup'; cbn; try reflexivity; lia.
  - unfold read_guard_drop in Ep. rewrite sub_reader_word in Ep by (done || lia). injection Ep as <- <-.
    eapply Hup'; cbn; try reflexivity; lia.
  - unfold try_write in Ep. zcase_in Ep; injection Ep as <- <-.
    + apply word_zero in E; [|done]. eapply (Hup' 0 1 0 0); cbn; try reflexivity; lia.
    + eapply Hup'; cbn; try reflexivity; lia.
  - assert (number is_writer ags = 1) as HW1 by lia. rewrite HW1 in *.
    unfold write_guard_drop in Ep. rewrite and_writer_word in Ep by done. injection Ep as <- <-.
    eapply Hup'; cbn; try reflexivity; lia.
  - rewrite try_upread_word in Ep by done. injection Ep as <- <-.
    repeat zcase; eapply Hup'; cbn; try reflexivity; lia.
  - assert (number has_upbit ags = 1) as HU1 by lia. rewrite HU1 in *.
    unfold try_upread_retract in Ep. rewrite sub_upbit_word in Ep by done. injection Ep as <- <-.
    eapply Hup'; cbn; try reflexivity; lia.
  - assert (number has_upbit ags = 1) as HU1 by lia. rewrite HU1 in *.
    unfold upgradeable_guard_drop in Ep. rewrite sub_upbit_word in Ep by done. injection Ep as <- <-.
    eapply Hup'; cbn; try reflexivity; lia.
  - assert (number is_upgrading ags = 0) as HB0 by lia. rewrite HB0 in *.
    unfold upgrade in Ep. rewrite or_upgraded_word in Ep by done. injection Ep as <- <-.
    eapply Hup'; cbn; try reflexivity; lia.
  - unfold try_upgrade in Ep. change (Z.lor UPGRADEABLE_READER BEING_UPGRADED) with (2 ^ 62 + 2 ^ 61) in Ep.
    zcase_in Ep; injection Ep as <- <-.
    + unfold word in E. eapply (Hup' 0 1 1 0); cbn; try reflexivity; lia.
    + eapply Hup'; cbn; try reflexivity; lia.
  - assert (number has_upbit ags = 1) as HU1 by lia. rewrite HU1 in *.
    unfold try_upgrade_finish in Ep. rewrite sub_upbit_word in Ep by done. injection Ep as <- <-.
    eapply Hup'; cbn; try reflexivity; lia.
Qed.

Lemma lock_reachable_inv n lock ags :
  Z.of_nat n < 2 ^ 61 -> reachable n lock ags -> lock_inv lock ags /\ length ags = n.
Proof.
  intros Hn. induction 1 as [|lock ags lock' ags' _ [IH Hlen] Hs].
  - split; [|apply length_replicate].
    assert (forall P, P Idle = false -> number P (replicate n Idle) = 0) as H0.
    { intros P HP. clear Hn. induction n as [|n IH]; cbn; [done|]. unfold holds at 1. by rewrite HP, IH. }
    unfold lock_inv, new. rewrite !H0 by done. lia.
  - destruct Hs as [i a lock' a' Hi Ha]. rewrite length_insert. split; [|done].
    eapply lock_step_inv; eauto. lia.
Qed.

(** Access to the protected data: shared or exclusive. *)
Definition exclusive (a : agent) : bool := is_writer a.
Definition accesses (a : agent) : bool := is_read a || is_upread a || is_writer a.

Lemma lock_inv_exclusion lock ags i j a b :
  Z.of_nat (length ags) < 2 ^ 61 -> lock_inv lock ags -> i <> j -> ags !! i = Some a -> ags !! j = Some b ->
  (exclusive a = true -> accesses b = false) /\ (is_upread a = true -> is_upread b = false).
Proof.
  intros Hn (_ & HW & HU & Hex) Hij Hi Hj.
  destruct (counts ags Hn HW HU) as (_ & _ & _ & Hup).
  pose proof (number_two is_writer ags i j a b Hij Hi Hj).
  pose proof (number_two is_upread ags i j a b Hij Hi Hj).
  unfold exclusive, accesses. split.
  - intros Ha. pose proof (number_one is_writer ags i a Hi Ha).
    destruct (Hex ltac:(lia)) as [Hread Hupr].
    pose proof (number_one is_read ags j b Hj). pose proof (number_one is_upread ags j b Hj).
    unfold holds in *. rewrite Ha in *.
    destruct (is_read b), (is_upread b), (is_writer b); cbn; lia || done || (exfalso; lia || naive_solver lia).
  - intros Ha. unfold holds in *. rewrite Ha in *. destruct (is_upread b); lia || done.
Qed.

(** C17: mutual exclusion.  In every reachable state of the lock, for any interleaving of the
    atomic operations of fewer than [2^61] agents, an agent with exclusive access (a write
    guard, also one obtained by an upgrade) is the only agent with access to the data, and
    at most one agent holds an upgradeable guard. *)
Theorem rwlock_exclusion n lock ags i j a b :
  Z.of_nat n < 2 ^ 61 -> reachable n lock ags -> i <> j ->
  ags !! i = Some a -> ags !! j = Some b ->
  (exclusive a = true -> accesses b = false) /\ (is_upread a = true -> is_upread b = false).
Proof.
  intros Hn Hr Hij Hi Hj. destruct (lock_reachable_inv n lock ags Hn Hr) as [Hl Hlen].
  apply (lock_inv_exclusion lock ags i j); done || lia.
Qed.

(** Nothing is leaked.  When every agent is outside the lock, in whatever way guards were
    acquired, upgraded, dropped or acquisitions failed before, the word is 0 again, and
    each of [try_read], [try_write] and [try_upread] would succeed. *)
Theorem rwlock_quiescent_free n lock ags :
  Z.of_nat n < 2 ^ 61 -> reachable n lock ags -> Forall (fun a => a = Idle) ags ->
  lock = 0 /\ (try_read lock).2 = Reading /\ (try_write lock).2 = Writing /\
  (try_upread lock).2 = Upreading.
Proof.
  intros Hn Hr Hidle. destruct (lock_reachable_inv n lock ags Hn Hr) as [(-> & _) _].
  assert (Hz : forall P, P Idle = false -> number P ags = 0).
  { intros P HP. apply number_zero. intros i a Hi. rewrite Forall_forall in Hidle.
    by rewrite (Hidle a) by (by eapply list_elem_of_lookup_2). }
  rewrite !Hz by done. done.
Qed.

Lemma acquire_iff n lock ags i :
  Z.of_nat n < 2 ^ 61 -> reachable n lock ags ->
  (ags !! i = Some Idle ->
    ((try_read lock).2 = Reading <->
       number is_writer ags = 0 /\ number is_upgrading ags = 0 /\ number in_readers ags < 2 ^ 60) /\
    ((try_write lock).2 = Writing <->
       number in_readers ags = 0 /\ number is_writer ags = 0 /\ number has_upbit ags = 0) /\
    ((try_upread lock).2 = Upreading <-> number is_writer ags = 0 /\ number has_upbit ags = 0)) /\
  (ags !! i = Some Upgrading -> (try_upgrade lock).2 = Upgraded <-> number in_readers ags = 0).
Proof.
  intros Hn Hr. destruct (lock_reachable_inv n lock ags Hn Hr) as [(Hlock & HW & HU & Hex) Hlen].
  destruct (counts ags ltac:(lia) HW HU) as (Hf & Hrd & Hug & Hup).
  fold (word (number in_readers ags) (number is_writer ags) (number has_upbit ags)
    (number is_upgrading ags)) in Hlock. rewrite Hlock. pose proof Hf as (? & ? & ? & ?).
  split; intros Hi.
  - pose proof (number_mono_at in_readers (fun _ => true) ags i Idle ltac:(by intros []) Hi) as Hat.
    pose proof (number_le_length (fun _ => true) ags). cbn in Hat. split_and!.
    + rewrite try_read_word by (done || lia). cbn [snd].
      destruct (_ && _) eqn:Et; zify_bools; split; try done; lia.
    + unfold try_write. pose proof (word_zero _ _ _ _ Hf). zcase; cbn [snd]; split; done || lia.
    + rewrite try_upread_word by done. cbn [snd]. repeat zcase; split; done || lia.
  - pose proof (number_one is_upgrading ags i _ Hi eq_refl). pose proof (number_one has_upbit ags i _ Hi eq_refl).
    unfold try_upgrade. change (Z.lor UPGRADEABLE_READER BEING_UPGRADED) with (2 ^ 62 + 2 ^ 61).
    pose proof (number_one is_upread ags i _ Hi eq_refl).
    unfold word. zcase; cbn [snd]; split; done || lia.
Qed.


(** When an acquisition succeeds.  [try_read] fails only if there is a writer, an upgrade in
    progress, or the reader count has reached its cap; [try_write] succeeds exactly if no
    agent has left a mark on the word; [try_upread] succeeds exactly if there is neither a
    writer nor another owner of the upgradeable bit; the pending upgrade of an agent
    succeeds exactly if no reader (and no failed read that is not yet retracted) is left. *)
Theorem rwlock_acquire_iff n lock ags i :
  Z.of_nat n < 2 ^ 61 -> reachable n lock ags ->
  (ags !! i = Some Idle ->
    ((try_read lock).2 = Reading <->
       number is_writer ags = 0 /\ number is_upgrading ags = 0 /\ number in_readers ags < 2 ^ 60) /\
    ((try_write lock).2 = Writing <->
       number in_readers ags = 0 /\ number is_writer ags = 0 /\ number has_upbit ags = 0) /\
    ((try_upread lock).2 = Upreading <-> number is_writer ags = 0 /\ number has_upbit ags = 0)) /\
  (ags !! i = Some Upgrading -> (try_upgrade lock).2 = Upgraded <-> number in_readers ags = 0).
Proof. apply acquire_iff. Qed.

(** An upgrade cannot be starved by new readers.  While an agent is in the loop of
    [upgrade], no step gives another agent shared or exclusive access: the readers that the
    upgrade waits for can only become fewer. *)
Theorem rwlock_upgrade_blocks_readers n lock ags lock' ags' i j b :
  Z.of_nat n < 2 ^ 61 -> reachable n lock ags -> ags !! i = Some Upgrading ->
  step lock ags lock' ags' -> i <> j -> ags' !! j = Some b -> accesses b = true ->
  ags !! j = Some b.
Proof.
  intros Hn Hr Hi Hs Hij Hj Hb. destruct Hs as [k a lock' a' Hk Ha].
  destruct (decide (k = j)) as [->|]; [|by rewrite list_lookup_insert_ne in Hj].
  rewrite list_lookup_insert_eq in Hj by (by eapply lookup_lt_Some). injection Hj as ->.
  destruct (lock_reachable_inv n lock ags Hn Hr) as [(_ & _ & HU & _) _].
  pose proof (number_two has_upbit ags i j _ _ Hij Hi Hk) as Htwo. cbn in Htwo.
  pose proof (number_one is_upgrading ags i _ Hi eq_refl). pose proof (number_one has_upbit ags i _ Hi eq_refl).
  destruct (acquire_iff n lock ags j Hn Hr) as [Hacq _].
  remember (lock', b) as p eqn:Ep. destruct Ha; cbn in Htwo; try lia;
    try (injection Ep as <- <-; done);
    destruct (Hacq Hk) as (Hread & Hwrite & Hup).
  - unfold try_read in *. cbn [snd] in Hread. injection Ep as <- <-.
    destruct (Z.land _ _ =? 0); [|done]. pose proof (proj1 Hread eq_refl). lia.
  - unfold try_write in *. destruct (lock =? 0); injection Ep as <- <-; [|done].
    pose proof (proj1 Hwrite eq_refl). lia.
  - unfold try_upread in *. cbn [snd] in Hup. injection Ep as <- <-.
    destruct (Z.land _ _ =? 0); [pose proof (proj1 Hup eq_refl); lia|].
    by destruct (Z.land _ _ =? WRITER).
Qed.

(** ** Example runs *)

Lemma reach_by n lock ags i a p :
  reachable n lock ags -> ags !! i = Some a -> agent_step lock a p -> reachable n p.1 (<[i := p.2]> ags).
Proof. intros Hr Hi Ha. eapply reach_next; [done|]. apply (step_agent _ _ i a); [done|]. by destruct p. Qed.

(** Agent 0 writes, agent 1 has tried to read. *)
Lemma reach_write : reachable 2 (WRITER + 1) [Writing; Retracting].
Proof.
  exact (reach_by _ _ _ 1 Idle _ (reach_by _ _ _ 0 Idle _ (reach_init 2) eq_refl (st_try_write _))
    eq_refl (st_try_read _)).
Qed.

(** Agent 0 upgrades while agent 1 reads. *)
Lemma reach_upgrading : reachable 2 (UPGRADEABLE_READER + BEING_UPGRADED + 1) [Upgrading; Reading].
Proof.
  exact (reach_by _ _ _ 0 Upreading _ (reach_by _ _ _ 1 Idle _ (reach_by _ _ _ 0 Idle _ (reach_init 2)
    eq_refl (st_try_upread _)) eq_refl (st_try_read _)) eq_refl (st_upgrade _)).
Qed.

Lemma rwlock_exclusion_witness :
  reachable 2 (WRITER + 1) [Writing; Retracting] /\ accesses Retracting = false.
Proof.
  split; [apply reach_write|].
  exact (proj1 (rwlock_exclusion 2 (WRITER + 1) [Writing; Retracting] 0 1 Writing Retracting
    eq_refl reach_write ltac:(done) eq_refl eq_refl) eq_refl).
Defined.

Lemma rwlock_quiescent_free_witness :
  reachable 2 0 [Idle; Idle] /\ (try_write 0).2 = Writing.
Proof.
  assert (Hr : reachable 2 0 [Idle; Idle]).
  { exact (reach_by _ _ _ 0 Writing _ (reach_by _ _ _ 1 Retracting _ reach_write eq_refl
      (st_read_retract _)) eq_refl (st_write_drop _)). }
  split; [done|]. apply (rwlock_quiescent_free 2 0 [Idle; Idle]); [done|done|].
  by repeat constructor.
Defined.

Lemma rwlock_acquire_iff_witness :
  (try_upgrade (UPGRADEABLE_READER + BEING_UPGRADED + 1)).2 = Upgraded <->
  number in_readers [Upgrading; Reading] = 0.
Proof.
  apply (rwlock_acquire_iff 2 _ [Upgrading; Reading] 0); [done|apply reach_upgrading|done].
Defined.

Lemma rwlock_upgrade_blocks_readers_witness :
  step (UPGRADEABLE_READER + BEING_UPGRADED + 1) [Upgrading; Reading]
    (UPGRADEABLE_READER + BEING_UPGRADED + 1) [Upgrading; Reading] /\
  [Upgrading; Reading] !! 1%nat = Some Reading.
Proof.
  assert (Hs : step (UPGRADEABLE_READER + BEING_UPGRADED + 1) [Upgrading; Reading]
    (UPGRADEABLE_READER + BEING_UPGRADED + 1) [Upgrading; Reading]).
  { exact (step_agent _ [Upgrading; Reading] 0 Upgrading _ Upgrading eq_refl
      (st_try_upgrade (UPGRADEABLE_READER + BEING_UPGRADED + 1))). }
  split; [done|].
  apply (rwlock_upgrade_blocks_readers 2 _ _ _ [Upgrading; Reading] 0 1 Reading (eq_refl : (Z.of_nat 2 < 2 ^ 61))
    reach_upgrading eq_refl Hs); done.
Defined.
