(* ===== verification/RwArc.v ===== *)
(** * [ostd/src/sync/rwarc.rs]: shared pointers with a lock

    An [RwArc] is a shared pointer to a value behind a reader-writer lock, and a [RoArc] one that can only read.  The
    allocation counts its [RwArc]s, so that [get] can read without the lock when there is only one.

    The model has any number of handles (the [RwArc]s) and of agents, each of which calls the lock through
    one of the handles or through a [RoArc].  The steps of the agents are those of the lock in
    [RwLock]; the other steps are the atomic operations on the count.  The rules of borrowing are
    conditions on the steps: a handle that is dropped, or borrowed mutably by [get], has no guard and no
    clone in progress.  [get] follows the body in the comment of the source. *)

From S2P Require Import Prelude Agents RwLock.
Open Scope Z_scope.

(** An [RwArc]: not there, between the two steps of [clone] from another handle, shared, or mutably borrowed for
    as long as the reference that [get] returned lives. *)
Inductive handle := Free | Cloning (src : nat) | Live | Got.

Section rwarc.
Context {T : Type}.
(** The handle that an agent calls the lock through, or [None] for a [RoArc]. *)
Context (owner : nat -> option nat).

Record Inner := mk_inner { num_rw : Z; handles : list handle; lock : Z; agents : list agent; data : T }.
Implicit Types (s : Inner) (h k i : nat).

(** [RwArc::new], with room for [n] more handles and for [m] agents. *)
Definition rwarc_new (d : T) (n m : nat) : Inner := mk_inner 1 (Live :: replicate n Free) new (replicate m Idle) d.

Definition set_handle (c : Z) h (x : handle) s : Inner := mk_inner c (<[h := x]> (handles s)) (lock s) (agents s) (data s).

(** [num_rw.fetch_add(1)] and [num_rw.fetch_sub(1)]. *)
Definition count_up s : Z := wrapping_add 64 (num_rw s) 1.
Definition count_down s : Z := wrapping_sub 64 (num_rw s) 1.

(** Whether [get] returns a reference. *)
Definition get s : bool := negb (1 <? num_rw s).

(** No guard of the handle is alive and it is not being cloned. *)
Definition unborrowed s h : Prop :=
  (forall i a, owner i = Some h -> agents s !! i = Some a -> a = Idle) /\ (forall k, handles s !! k <> Some (Cloning h)).

(** A [RoArc] only has [read]. *)
Inductive ro_step (l : Z) : agent -> Z * agent -> Prop :=
| ro_try_read : ro_step l Idle (try_read l)
| ro_retract : ro_step l Retracting (try_read_retract l)
| ro_drop : ro_step l Reading (read_guard_drop l).

Definition lock_step s i a (r : Z * agent) : Prop :=
  match owner i with
  | Some h => handles s !! h = Some Live /\ agent_step (lock s) a r
  | None => ro_step (lock s) a r
  end.

Inductive rstep s : Inner -> Prop :=
| s_clone h k : handles s !! h = Some Live -> handles s !! k = Some Free -> rstep s (set_handle (num_rw s) k (Cloning h) s)
| s_clone_count h k : handles s !! k = Some (Cloning h) -> rstep s (set_handle (count_up s) k Live s)
| s_drop h : handles s !! h = Some Live -> unborrowed s h -> rstep s (set_handle (count_down s) h Free s)
| s_get h : handles s !! h = Some Live -> unborrowed s h -> get s = true -> rstep s (set_handle (num_rw s) h Got s)
| s_release h : handles s !! h = Some Got -> rstep s (set_handle (num_rw s) h Live s)
| s_lock i a l' a' : agents s !! i = Some a -> lock_step s i a (l', a') ->
    rstep s (mk_inner (num_rw s) (handles s) l' (<[i := a']> (agents s)) (data s))
| s_write i d : agents s !! i = Some Writing -> rstep s (mk_inner (num_rw s) (handles s) (lock s) (agents s) d).

Inductive rreach (d : T) (n m : nat) : Inner -> Prop :=
| r_new : rreach d n m (rwarc_new d n m)
| r_step s s' : rreach d n m s -> rstep s s' -> rreach d n m s'.

(** ** The invariant *)

Definition is_live (x : handle) : bool := match x with Live | Got => true | _ => false end.

(** The states of an agent of a [RoArc]. *)
Definition ro_agent (a : agent) : bool := match a with Idle | Reading | Retracting => true | _ => false end.

Record rwarc_inv (n m : nat) s : Prop := {
  inv_handles : length (handles s) = S n;
  inv_count : num_rw s = number is_live (handles s);
  inv_cloning k h : handles s !! k = Some (Cloning h) -> handles s !! h = Some Live;
  inv_agents i a : agents s !! i = Some a ->
    match owner i with Some h => a = Idle \/ handles s !! h = Some Live | None => ro_agent a = true end;
  inv_got h k x : handles s !! h = Some Got -> handles s !! k = Some x -> k <> h -> is_live x = false;
  inv_lock : RwLock.reachable m (lock s) (agents s);
}.

Lemma ro_is_step l a r : ro_step l a r -> agent_step l a r.
Proof. intros []; constructor. Qed.

Lemma ro_keeps l a r : ro_step l a r -> ro_agent r.2 = true.
Proof. intros []; cbn; [by destruct (_ =? 0)|done..]. Qed.

Lemma handles_small n m s : rwarc_inv n m s -> Z.of_nat n < 2 ^ 63 -> 0 <= num_rw s <= Z.of_nat (S n).
Proof.
  intros Hinv Hn. rewrite (inv_count _ _ _ Hinv), <- (inv_handles _ _ _ Hinv). split; [apply number_nonneg|apply number_le_length].
Qed.

Lemma rwarc_new_inv d n m : rwarc_inv n m (rwarc_new d n m).
Proof.
  split; cbn.
  - by rewrite length_replicate.
  - change (number is_live (Live :: replicate n Free)) with (1 + number is_live (replicate n Free)). rewrite number_zero; [lia|].
    intros i a [-> _]%lookup_replicate. done.
  - intros [|k] h; cbn; [done|]. by intros [? _]%lookup_replicate.
  - intros i a [-> _]%lookup_replicate. destruct (owner i); [by left|done].
  - intros [|h] k x; cbn; [done|]. by intros [? _]%lookup_replicate.
  - constructor.
Qed.

(** One handle changes. *)
Lemma set_handle_inv n m s h x x' c : rwarc_inv n m s -> handles s !! h = Some x ->
  c = num_rw s - holds is_live x + holds is_live x' ->
  (x = Live -> x' = Live \/ unborrowed s h) ->
  (forall src, x' = Cloning src -> src <> h /\ handles s !! src = Some Live) ->
  (forall k y, handles s !! k = Some y -> k <> h -> x' = Got \/ y = Got -> is_live x' = true -> is_live y = false) ->
  rwarc_inv n m (set_handle c h x' s).
Proof.
  intros Hinv Hh Hc Hb Hcl Hg. pose proof (lookup_lt_Some _ _ _ Hh) as Hlt.
  assert (Hlook : forall k y, <[h := x']> (handles s) !! k = Some y -> k = h /\ y = x' \/ k <> h /\ handles s !! k = Some y).
  { intros k y. destruct (decide (k = h)) as [->|]; [rewrite list_lookup_insert_eq by done; intros [= <-]; auto|].
    rewrite list_lookup_insert_ne by done. auto. }
  assert (Hkeep : forall k, handles s !! k = Some Live -> (k = h -> x' = Live) -> <[h := x']> (handles s) !! k = Some Live).
  { intros k Hk Heq. destruct (decide (k = h)) as [->|]; [rewrite list_lookup_insert_eq by done; by rewrite Heq|by rewrite list_lookup_insert_ne]. }
  split; cbn.
  - by rewrite length_insert, (inv_handles _ _ _ Hinv).
  - by rewrite (number_insert _ _ _ _ _ Hh), Hc, (inv_count _ _ _ Hinv).
  - intros k src [[-> Heq]|[Hne Hk]]%Hlook.
    + destruct (Hcl src) as [Hne Hl]; [done|]. by apply Hkeep.
    + pose proof (inv_cloning _ _ _ Hinv _ _ Hk) as Hl. apply Hkeep; [done|]. intros ->. rewrite Hl in Hh. injection Hh as <-.
      destruct (Hb eq_refl) as [|[_ Hno]]; [done|by destruct (Hno k)].
  - intros i a Hi. pose proof (inv_agents _ _ _ Hinv i a Hi) as Ha. destruct (owner i) as [g|] eqn:Ho; [|done].
    destruct Ha as [->|Hl]; [by left|]. destruct (decide (a = Idle)) as [|Hn]; [by left|right]. apply Hkeep; [done|]. intros ->.
    rewrite Hl in Hh. injection Hh as <-. destruct (Hb eq_refl) as [|[Hno _]]; [done|]. by destruct Hn; apply (Hno i).
  - intros g k y [[-> Heq]|[Hg1 Hgot]]%Hlook [[-> ->]|[Hk1 Hk]]%Hlook Hne; [done| | |].
    + subst x'. by apply (Hg k y Hk); auto.
    + destruct (is_live x') eqn:E; [|done]. by specialize (Hg g Got Hgot Hg1 (or_intror eq_refl) eq_refl).
    + by apply (inv_got _ _ _ Hinv g k).
  - apply (inv_lock _ _ _ Hinv).
Qed.

(** A live handle beside a borrowed one is impossible. *)
Lemma live_no_got n m s h k y : rwarc_inv n m s -> handles s !! h = Some Live -> handles s !! k = Some y -> y <> Got.
Proof.
  intros Hinv Hh Hk ->. assert (h <> k) as Hne by (intros ->; congruence).
  by discriminate (inv_got _ _ _ Hinv k h Live Hk Hh Hne).
Qed.

(** [get] succeeds exactly for the only handle. *)
Lemma get_unique n m s h : rwarc_inv n m s -> handles s !! h = Some Live ->
  get s = true <-> forall k y, handles s !! k = Some y -> k <> h -> is_live y = false.
Proof.
  intros Hinv Hh. unfold get. rewrite (inv_count _ _ _ Hinv).
  pose proof (number_insert is_live _ _ _ Free Hh) as Hn. cbn [holds is_live] in Hn. split.
  - intros Hle k y Hk Hne. destruct (is_live y) eqn:E; [|done]. pose proof (number_two is_live _ h k Live y ltac:(done) Hh Hk) as H2.
    unfold holds in H2. rewrite E in H2. cbn in H2. destruct (Z.ltb_spec 1 (number is_live (handles s))); [done|lia].
  - intros Hall. assert (number is_live (<[h := Free]> (handles s)) = 0) as H0; [|unfold holds in Hn; destruct (Z.ltb_spec 1 (number is_live (handles s))); [cbn in Hn; lia|done]].
    apply number_zero. intros i a. destruct (decide (i = h)) as [->|Hne].
    + rewrite list_lookup_insert_eq by (by eapply lookup_lt_Some). by intros [= <-].
    + rewrite list_lookup_insert_ne by done. intros Hi. by apply (Hall i).
Qed.

Lemma lock_step_inv' n m s i a l' a' : rwarc_inv n m s -> agents s !! i = Some a -> lock_step s i a (l', a') ->
  rwarc_inv n m (mk_inner (num_rw s) (handles s) l' (<[i := a']> (agents s)) (data s)).
Proof.
  intros Hinv Hi Hs. unfold lock_step in Hs. split; cbn.
  1-3,5: apply Hinv.
  - intros j b Hj. destruct (decide (j = i)) as [->|Hne].
    + rewrite list_lookup_insert_eq in Hj by (by eapply lookup_lt_Some). injection Hj as <-.
      destruct (owner i); [right; apply Hs|exact (ro_keeps _ _ _ Hs)].
    + rewrite list_lookup_insert_ne in Hj by done. by apply (inv_agents _ _ _ Hinv).
  - eapply reach_next; [apply (inv_lock _ _ _ Hinv)|]. econstructor; [exact Hi|].
    destruct (owner i); [apply Hs|by apply ro_is_step].
Qed.

Lemma rstep_inv n m s s' : Z.of_nat n < 2 ^ 63 -> rwarc_inv n m s -> rstep s s' -> rwarc_inv n m s'.
Proof.
  intros Hn Hinv Hst. pose proof (handles_small _ _ _ Hinv Hn) as Hsmall. destruct Hst as [h k Hh Hk|h k Hk|h Hh Hu|h Hh Hu Hg|h Hh|i a l' a' Hi Hs|i d Hi].
  - apply (set_handle_inv _ _ _ _ _ _ _ Hinv Hk); cbn; [lia|done| |done]. intros src [= <-]. split; [intros ->; congruence|done].
  - pose proof (inv_cloning _ _ _ Hinv _ _ Hk) as Hh. apply (set_handle_inv _ _ _ _ _ _ _ Hinv Hk); cbn; [|done..|].
    + unfold count_up, wrapping_add. rewrite Z.mod_small; lia.
    + intros g y Hg _ [?| -> ]; [done|]. by destruct (live_no_got _ _ _ _ _ _ Hinv Hh Hg).
  - apply (set_handle_inv _ _ _ _ _ _ _ Hinv Hh); cbn; [|by auto|done|done].
    pose proof (number_one is_live _ _ _ Hh eq_refl) as H1. rewrite <- (inv_count _ _ _ Hinv) in H1.
    unfold count_down, wrapping_sub. rewrite Z.mod_small; lia.
  - apply (set_handle_inv _ _ _ _ _ _ _ Hinv Hh); cbn; [lia|by auto|done|].
    intros k y Hk Hne _ _. by apply (proj1 (get_unique _ _ _ _ Hinv Hh) Hg k).
  - apply (set_handle_inv _ _ _ _ _ _ _ Hinv Hh); cbn; [lia|done|done|].
    intros k y Hk Hne [?| -> ] _; [done|]. by apply (inv_got _ _ _ Hinv h k).
  - by eapply lock_step_inv'.
  - destruct Hinv. split; auto.
Qed.

Lemma rreach_inv d n m s : Z.of_nat n < 2 ^ 63 -> rreach d n m s -> rwarc_inv n m s.
Proof. intros Hn Hr. induction Hr as [|s s' _ IH Hst]; [apply rwarc_new_inv|by eapply rstep_inv]. Qed.

(** While a reference from [get] lives there is no writer: every agent that is inside of the lock calls it through a [RoArc]. *)
Lemma got_no_writer n m s h i a : rwarc_inv n m s -> handles s !! h = Some Got -> agents s !! i = Some a -> ro_agent a = true.
Proof.
  intros Hinv Hh Hi. pose proof (inv_agents _ _ _ Hinv i a Hi) as Ha. destruct (owner i) as [g|]; [|done].
  destruct Ha as [->|Hg]; [done|]. by destruct (live_no_got _ _ _ _ _ _ Hinv Hg Hh).
Qed.

(** C18: lockless reads of an [RwArc] are safe.  For any interleaving of clones, drops, uses of the lock and
    writes through its guards, the count is the number of [RwArc]s; [get] returns a reference exactly when its handle is the only one;
    and for as long as the reference lives no agent holds a write guard and no step changes the data.
    Through the lock, an agent that may write is the only one with access. *)
Theorem rwarc_get_correct d n m s : Z.of_nat n < 2 ^ 63 -> Z.of_nat m < 2 ^ 61 -> rreach d n m s ->
  num_rw s = number is_live (handles s) /\
  (forall h, handles s !! h = Some Live ->
     get s = true <-> forall k y, handles s !! k = Some y -> k <> h -> is_live y = false) /\
  (forall h, handles s !! h = Some Got ->
     (forall i a, agents s !! i = Some a -> exclusive a = false) /\ forall s', rstep s s' -> data s' = data s) /\
  (forall i j a b, i <> j -> agents s !! i = Some a -> agents s !! j = Some b -> exclusive a = true -> accesses b = false).
Proof.
  intros Hn Hm Hr. pose proof (rreach_inv _ _ _ _ Hn Hr) as Hinv. split_and!.
  - apply (inv_count _ _ _ Hinv).
  - intros h Hh. by apply (get_unique n m).
  - intros h Hh. pose proof (fun i a => got_no_writer n m s h i a Hinv Hh) as Hro. split.
    + intros i a Hi. specialize (Hro i a Hi). by destruct a.
    + intros s' Hst. destruct Hst as [| | | | | |i d' Hi]; try reflexivity. by discriminate (Hro i Writing Hi).
  - intros i j a b Hij Hi Hj. destruct (lock_reachable_inv m _ _ Hm (inv_lock _ _ _ Hinv)) as [Hl Hlen].
    apply (lock_inv_exclusion (lock s) (agents s) i j a b); [lia|done..].
Qed.

End rwarc.

(** ** An instance: a second handle writes and is dropped, then the first one reads without the lock *)
Module RwArcExample.

(** Agent 0 writes through handle 1; agent 1 reads through a [RoArc]. *)
Definition owner (i : nat) : option nat := match i with O => Some 1%nat | _ => None end.

Definition borrowed : Inner := mk_inner 1 [Got; Free] 1 [Idle; Reading] 7.

Lemma borrowed_reachable : rreach owner 5 1 2 borrowed.
Proof.
  eapply r_step; [|apply (s_lock _ (mk_inner 1 [Got; Free] 0 [Idle; Idle] 7) 1 Idle 1 Reading); [done|exact (ro_try_read 0)] ].
  eapply r_step; [|apply (s_get _ (mk_inner 1 [Live; Free] 0 [Idle; Idle] 7) 0); [done| |done] ].
  2:{ split; [intros [|i] a; [done|done]|intros [|[|k]]; done]. }
  eapply r_step; [|apply (s_drop _ (mk_inner 2 [Live; Live] 0 [Idle; Idle] 7) 1); [done|] ].
  2:{ split; [intros [|[|i]] a; cbn; congruence|intros [|[|k]]; done]. }
  eapply r_step; [|apply (s_lock _ (mk_inner 2 [Live; Live] WRITER [Writing; Idle] 7) 0 Writing 0 Idle); [done|split; [done|exact (st_write_drop WRITER)] ] ].
  eapply r_step; [|apply (s_write _ (mk_inner 2 [Live; Live] WRITER [Writing; Idle] 5) 0); done].
  eapply r_step; [|apply (s_lock _ (mk_inner 2 [Live; Live] 0 [Idle; Idle] 5) 0 Idle WRITER Writing); [done|split; [done|exact (st_try_write 0)] ] ].
  eapply r_step; [|apply (s_clone_count _ (mk_inner 1 [Live; Cloning 0] 0 [Idle; Idle] 5) 0 1); done].
  eapply r_step; [apply r_new|apply (s_clone _ (mk_inner 1 [Live; Free] 0 [Idle; Idle] 5) 0 1); done].
Qed.

Lemma rwarc_get_correct_witness : num_rw borrowed = 1 /\ (forall s', rstep owner borrowed s' -> data s' = 7) /\
  get (mk_inner 2 [Live; Live] 0 [Idle; Idle] 7) = false.
Proof.
  destruct (rwarc_get_correct owner 5 1 2 borrowed ltac:(done) ltac:(done) borrowed_reachable) as (Hc & _ & Hg & _).
  split_and!; [exact Hc| |reflexivity]. intros s' Hst. exact (proj2 (Hg 0%nat eq_refl) s' Hst).
Defined.

End RwArcExample.
