(* ===== verification/WaitQueue.v ===== *)
(** * [ostd/src/sync/wait.rs]: wait queues

    A wait queue is a queue of wakers.  [wait_until] tries a condition; if it fails, it
    makes a waker, enqueues it, tries again and otherwise sleeps until its waker is woken,
    in a loop.  [wake_one] wakes the first waker that was not woken before, [wake_all] all
    of them.  The queue is guarded by a spin lock, except that its length is read without
    it on the fast path of the wake methods.

    Every access to shared memory is a step, so that the calls of any number of threads
    interleave in every possible way (sequentially consistent).  The queue holds fewer than
    [2^32] wakers (the assumption [enqueue] states).  The bodies of [wake_up] and [do_wait]
    are those given in the comments of [wait.rs]; parking is waiting until the waker is
    woken.

    What the threads wait for is the client's: the interface [WaitClient] has the shared
    word of a lock and the steps that its methods make on it, conditions included.  The
    invariants of the queue are proved for every client. *)

From S2P Require Import Prelude Agents.
Open Scope Z_scope.

(** The spin lock of the queue, the queue, its length as the fast path reads it, and
    [has_woken] of each waker. *)
Record WaitQueue := mk_queue {
  queue_lock : bool;
  wakers : list nat;
  num_wakers : Z;
  has_woken : list bool;
}.

Definition queue_new : WaitQueue := mk_queue false [] 0 [].

Definition set_queue_lock (b : bool) (q : WaitQueue) : WaitQueue := mk_queue b (wakers q) (num_wakers q) (has_woken q).
Definition set_wakers (ws : list nat) (q : WaitQueue) : WaitQueue := mk_queue (queue_lock q) ws (num_wakers q) (has_woken q).
Definition set_num_wakers (n : Z) (q : WaitQueue) : WaitQueue := mk_queue (queue_lock q) (wakers q) n (has_woken q).
Definition set_has_woken (l : list bool) (q : WaitQueue) : WaitQueue := mk_queue (queue_lock q) (wakers q) (num_wakers q) l.

(** [Waiter::new_pair]: the new waker. *)
Definition new_pair (q : WaitQueue) : WaitQueue * nat :=
  (set_has_woken (has_woken q ++ [false]) q, length (has_woken q)).

Definition woken (q : WaitQueue) (w : nat) : bool := default true (has_woken q !! w).

(** [has_woken.swap(b)]. *)
Definition swap_woken (q : WaitQueue) (w : nat) (b : bool) : WaitQueue * bool :=
  (set_has_woken (<[w := b]> (has_woken q)) q, woken q w).

(** [Waker::close]. *)
Definition close (q : WaitQueue) (w : nat) : WaitQueue := (swap_woken q w true).1.

(** [enqueue] and the wake methods between the operations of the spin lock. *)
Definition enqueue_push (q : WaitQueue) (w : nat) : WaitQueue := set_wakers (wakers q ++ [w]) q.
Definition enqueue_count (q : WaitQueue) : WaitQueue := set_num_wakers (wrapping_add 32 (num_wakers q) 1) q.
Definition wake_count (q : WaitQueue) : WaitQueue := set_num_wakers (wrapping_sub 32 (num_wakers q) 1) q.
Definition is_empty (q : WaitQueue) : bool := num_wakers q =? 0.

(** Where a thread is with respect to the queue; [all] tells [wake_all] from [wake_one]. *)
Inductive control :=
| Run                      (* runs code of the client, without a waiter *)
| NewPair                  (* [wait_until]: the first try failed *)
| EnqLock (w : nat)        (* [enqueue]: takes the spin lock *)
| EnqPush (w : nat)
| EnqCount (w : nat)
| EnqUnlock (w : nat)
| Cond (w : nat)           (* [wait_until]: enqueued, runs the condition again *)
| Returning (w : nat)      (* [wait_until]: the condition succeeded *)
| Waiting (w : nat)        (* [do_wait]: tests the waker *)
| Parked (w : nat)         (* [do_wait]: parked *)
| WakeCheck (all : bool)   (* the fast path *)
| WakeLock (all : bool)    (* takes the spin lock *)
| WakePop (all : bool)
| WakeNone
| WakeCount (all : bool) (w : nat)
| WakeUnlock (all : bool) (w : nat)
| WakeUp (all : bool) (w : nat).

(** The next step of a thread in the code of the queue; [None] if it is not there or has to wait.
    [waiter_closes] says whether dropping a [Waiter] closes its waker. *)
Definition queue_next (waiter_closes : bool) (q : WaitQueue) (a : control) : option (WaitQueue * control) :=
  match a with
  | Run | Cond _ => None
  | NewPair => let '(q', w) := new_pair q in Some (q', EnqLock w)
  | EnqLock w => if queue_lock q then None else Some (set_queue_lock true q, EnqPush w)
  | EnqPush w => Some (enqueue_push q w, EnqCount w)
  | EnqCount w => if Z.of_nat (length (wakers q)) <? 2 ^ 32 then Some (enqueue_count q, EnqUnlock w) else None
  | EnqUnlock w => Some (set_queue_lock false q, Cond w)
  | Returning w => Some (if waiter_closes then close q w else q, Run)
  | Waiting w => let '(q', was) := swap_woken q w false in Some (q', if was then EnqLock w else Parked w)
  | Parked w => if woken q w then Some (q, Waiting w) else None
  | WakeCheck all => Some (q, if is_empty q then Run else WakeLock all)
  | WakeLock all => if queue_lock q then None else Some (set_queue_lock true q, WakePop all)
  | WakePop all => Some (match wakers q with [] => (q, WakeNone) | w :: ws => (set_wakers ws q, WakeCount all w) end)
  | WakeNone => Some (set_queue_lock false q, Run)
  | WakeCount all w => Some (wake_count q, WakeUnlock all w)
  | WakeUnlock all w => Some (set_queue_lock false q, WakeUp all w)
  | WakeUp all w => let '(q', was) := swap_woken q w true in Some (q', if was || all then WakeLock all else Run)
  end.

(** What the code of a client does to the control: it calls [wait_until] or a wake method, and it ends the condition. *)
Definition client_move (a a' : control) : bool :=
  match a, a' with
  | Run, Run | Run, NewPair | Run, WakeCheck _ => true
  | Cond w, Cond w' | Cond w, Returning w' | Cond w, Waiting w' => (w =? w')%nat
  | _, _ => false
  end.

(** ** The clients and their interleavings *)

(** A lock over a wait queue: its word, the places of a thread in its methods, and the steps of the methods. *)
Class WaitClient (L G Act : Type) := {
  client_new : L;
  client_idle : G;
  client_next : Act -> L -> G * control -> option (L * (G * control));
}.
Arguments client_new {_} _ _ {_}.
Arguments client_idle _ {_} _ {_}.

Class WaitClientLaws L G Act `{!WaitClient L G Act} : Prop := {
  client_moves act l t l' t' : client_next act l t = Some (l', t') -> client_move t.2 t'.2 = true;
}.

Section system.
Context {L G Act : Type} `{WaitClient L G Act} (waiter_closes : bool) (allowed : Act -> bool).

(** A step of a thread: in the queue, or in the client by the given action. *)
Definition thread_next (o : option Act) (s : L * WaitQueue) (t : G * control) : option ((L * WaitQueue) * (G * control)) :=
  match o with
  | None => '(q', a') ← queue_next waiter_closes s.2 t.2; Some ((s.1, q'), (t.1, a'))
  | Some act => if allowed act then '(l', t') ← client_next act s.1 t; Some ((l', s.2), t') else None
  end.

Inductive step (s : L * WaitQueue) (ts : list (G * control)) : L * WaitQueue -> list (G * control) -> Prop :=
| step_thread i o t s' t' : ts !! i = Some t -> thread_next o s t = Some (s', t') -> step s ts s' (<[i := t']> ts).

Definition outside : G * control := (client_idle L Act, Run).

Inductive reachable (n : nat) : L * WaitQueue -> list (G * control) -> Prop :=
| reach_init : reachable n (client_new G Act, queue_new) (replicate n outside)
| reach_next s ts s' ts' : reachable n s ts -> step s ts s' ts' -> reachable n s' ts'.

(** The run of a schedule that says which thread moves and how. *)
Fixpoint run (sched : list (nat * option Act)) (s : L * WaitQueue) (ts : list (G * control)) :
    option ((L * WaitQueue) * list (G * control)) :=
  match sched with
  | [] => Some (s, ts)
  | (i, o) :: sched => t ← ts !! i; '(s', t') ← thread_next o s t; run sched s' (<[i := t']> ts)
  end.

Lemma run_reachable n sched s ts s' ts' : reachable n s ts -> run sched s ts = Some (s', ts') -> reachable n s' ts'.
Proof.
  revert s ts. induction sched as [|[i o] sched IH]; intros s ts Hr Hrun; cbn in Hrun; [by simplify_eq|].
  destruct (ts !! i) as [t|] eqn:Hi; [|done]. cbn in Hrun.
  destruct (thread_next o s t) as [[s1 t1]|] eqn:Hn; [|done]. cbn in Hrun.
  eapply IH; [|done]. eapply reach_next; [done|]. by eapply step_thread.
Qed.
End system.

(** ** Roles of the threads *)

(** The threads that hold the spin lock of the queue. *)
Definition in_section (a : control) : bool :=
  match a with
  | EnqPush _ | EnqCount _ | EnqUnlock _ | WakePop _ | WakeNone | WakeCount _ _ | WakeUnlock _ _ => true
  | _ => false
  end.
Definition is_pushed (a : control) : bool := match a with EnqCount _ => true | _ => false end.
Definition is_popped (a : control) : bool := match a with WakeCount _ _ => true | _ => false end.

(** The waker of a waiting thread. *)
Definition own (a : control) : option nat :=
  match a with
  | EnqLock w | EnqPush w | EnqCount w | EnqUnlock w | Cond w | Returning w | Waiting w | Parked w => Some w
  | _ => None
  end.
(** ... once it is in the queue. *)
Definition listed (a : control) : option nat :=
  match a with EnqCount w | EnqUnlock w | Cond w | Waiting w | Parked w => Some w | _ => None end.
(** The waker that a thread has taken out of the queue. *)
Definition carried (a : control) : option nat :=
  match a with WakeCount _ w | WakeUnlock _ w | WakeUp _ w => Some w | _ => None end.

(** A thread that sleeps, or is about to. *)
Definition asleep (q : WaitQueue) (a : control) : bool :=
  match a with Waiting w | Parked w => negb (woken q w) | _ => false end.
(** A thread that will try its condition, or wake others, without being woken first. *)
Definition committed (q : WaitQueue) (a : control) : bool :=
  match a with
  | NewPair | EnqLock _ | EnqPush _ | EnqCount _ | EnqUnlock _ | Cond _ => true
  | WakeCheck _ | WakeLock _ | WakePop _ | WakeCount _ _ | WakeUnlock _ _ | WakeUp _ _ => true
  | Waiting w | Parked w => woken q w
  | _ => false
  end.

(** ** The invariants of the queue *)

Definition counts_inv (q : WaitQueue) (cs : list control) : Prop :=
  number in_section cs = Z.b2z (queue_lock q) /\
  num_wakers q = Z.of_nat (length (wakers q)) - number is_pushed cs + number is_popped cs /\
  0 <= num_wakers q < 2 ^ 32.

Definition owners_inv (q : WaitQueue) (cs : list control) : Prop :=
  (forall i a w, cs !! i = Some a -> own a = Some w -> (w < length (has_woken q))%nat) /\
  (forall i j a b w, cs !! i = Some a -> cs !! j = Some b -> own a = Some w -> own b = Some w -> i = j).

(** What was pushed and not counted is the last of the queue. *)
Definition pushed_inv (q : WaitQueue) (cs : list control) : Prop :=
  forall i w, cs !! i = Some (EnqCount w) -> last (wakers q) = Some w.

(** A waker that is not woken belongs to a waiting thread, and if it was enqueued, it is in the queue or on
    its way to be woken. *)
Definition wakers_inv (q : WaitQueue) (cs : list control) : Prop :=
  (forall w, woken q w = false -> exists i a, cs !! i = Some a /\ own a = Some w) /\
  (forall i a w, cs !! i = Some a -> listed a = Some w -> woken q w = false ->
     w ∈ wakers q \/ exists j b, cs !! j = Some b /\ carried b = Some w).

(** *** Looking up a thread after a step *)

Lemma lookup_step {A} (ts : list A) i a a' j b : ts !! i = Some a ->
  <[i := a']> ts !! j = Some b -> (j = i /\ b = a') \/ (j <> i /\ ts !! j = Some b).
Proof.
  intros Hi Hj. destruct (decide (j = i)) as [->|].
  - rewrite list_lookup_insert_eq in Hj by (by eapply lookup_lt_Some). injection Hj as <-. auto.
  - rewrite list_lookup_insert_ne in Hj by done. auto.
Qed.

Lemma lookup_step_same {A} (ts : list A) i a a' : ts !! i = Some a -> <[i := a']> ts !! i = Some a'.
Proof. intros Hi. apply list_lookup_insert_eq. by eapply lookup_lt_Some. Qed.

Lemma lookup_step_other {A} (ts : list A) i a' j b : j <> i -> ts !! j = Some b -> <[i := a']> ts !! j = Some b.
Proof. intros Hne Hj. by rewrite list_lookup_insert_ne. Qed.

(** *** The wakers after a step *)

Lemma woken_set q w b w' : (w < length (has_woken q))%nat ->
  woken (set_has_woken (<[w := b]> (has_woken q)) q) w' = if decide (w' = w) then b else woken q w'.
Proof.
  intros Hw. unfold woken. cbn. destruct (decide (w' = w)) as [->|].
  - by rewrite list_lookup_insert_eq.
  - by rewrite list_lookup_insert_ne.
Qed.

Lemma woken_out q w : ~ (w < length (has_woken q))%nat -> woken q w = true.
Proof. intros Hw. unfold woken. by rewrite lookup_ge_None_2 by lia. Qed.

(** A swap out of range does nothing; one in range sets the waker. *)
Lemma woken_swap q w b w' :
  woken (swap_woken q w b).1 w' = if decide (w' = w /\ (w < length (has_woken q))%nat) then b else woken q w'.
Proof.
  cbn [swap_woken fst]. destruct (decide (w < length (has_woken q))%nat) as [Hw|Hw].
  - rewrite woken_set by done. destruct (decide (w' = w)), (decide _); tauto || done.
  - destruct (decide _) as [[_ ?]|_]; [tauto|]. unfold woken. cbn. by rewrite list_insert_ge by lia.
Qed.

Lemma woken_new_pair q w' : woken (new_pair q).1 w' = if decide (w' = length (has_woken q)) then false else woken q w'.
Proof.
  unfold woken. cbn. destruct (decide _) as [->|Hne]; [by rewrite list_lookup_middle|].
  destruct (decide (w' < length (has_woken q))%nat); [by rewrite lookup_app_l|].
  rewrite !lookup_ge_None_2; [done|lia|rewrite length_app; cbn; lia].
Qed.

Lemma woken_swap_true q w w' : woken (swap_woken q w true).1 w' = false -> w' <> w /\ woken q w' = false.
Proof.
  rewrite woken_swap. destruct (decide _) as [|Hno]; [done|]. intros Hf. split; [|done]. intros ->.
  rewrite woken_out in Hf; [done|]. intros Hlt. by apply Hno.
Qed.

(** *** How one step changes the queue *)

(** A step in the code of the queue or of a client. *)
Definition queue_move (c : bool) (q : WaitQueue) (a : control) (q' : WaitQueue) (a' : control) : Prop :=
  queue_next c q a = Some (q', a') \/ q' = q /\ client_move a a' = true.

(** Reads the new state and the new place off a step, for each kind of step. *)
Ltac by_move Hs :=
  match type of Hs with queue_move _ _ ?a ?q' ?a' =>
    let Hm := fresh "Hm" in let Eq := fresh "Eq" in
    destruct Hs as [Hm|[Eq Hm]]; try clear Hs;
    [destruct a; cbn [queue_next new_pair swap_woken] in Hm; repeat case_match; simplify_eq; cbn in *; simplify_eq
    |subst q'; destruct a, a'; cbn in Hm; try done; rewrite ?Nat.eqb_eq in Hm; simplify_eq; cbn in *; simplify_eq]
  end.

Section one_step.
Context (c : bool) (q : WaitQueue) (a : control) (q' : WaitQueue) (a' : control).
Hypothesis Hs : queue_move c q a q' a'.

Lemma length_step : (length (has_woken q) <= length (has_woken q'))%nat.
Proof using Hs. by_move Hs; rewrite ?length_insert, ?length_app; lia. Qed.

Lemma own_step w : own a' = Some w ->
  own a = Some w \/ (w = length (has_woken q) /\ (w < length (has_woken q'))%nat).
Proof using Hs. intros Ho. by_move Hs; rewrite ?length_app; cbn; auto with lia. Qed.

Lemma queue_step w : w ∈ wakers q -> w ∈ wakers q' \/ carried a' = Some w.
Proof using Hs.
  intros Hw. by_move Hs; auto.
  - left. apply elem_of_app. auto.
  - by apply not_elem_of_nil in Hw.
  - apply elem_of_cons in Hw as [->|]; auto.
Qed.

Lemma carried_step w : carried a = Some w -> woken q' w = false -> carried a' = Some w.
Proof using Hs.
  intros Hc Hf. by_move Hs; try done. all: apply (woken_swap_true q w w) in Hf; tauto.
Qed.

(** Only the owner resets a waker. *)
Lemma woken_fall w : woken q' w = false -> own a' = Some w \/ woken q w = false.
Proof using Hs.
  intros Hf. by_move Hs; auto; try (by right; apply (woken_swap_true q w0 w)).
  - pose proof (woken_new_pair q w) as Hn. cbn in Hn. rewrite Hn in Hf. destruct (decide _) as [->|]; auto.
  - pose proof (woken_swap q w0 false w) as Hn. cbn in Hn. rewrite Hn in Hf. destruct (decide _) as [[-> _]|]; auto.
  - pose proof (woken_swap q w0 false w) as Hn. cbn in Hn. rewrite Hn in Hf. destruct (decide _) as [[-> _]|]; auto.
Qed.

(** A waiter that is destroyed leaves a woken waker. *)
Lemma own_kept w : c = true -> own a = Some w -> woken q' w = false -> own a' = Some w.
Proof using Hs.
  intros -> Ho Hf. by_move Hs; try done. by apply (woken_swap_true q w w) in Hf as [? _].
Qed.

Lemma listed_step w : listed a' = Some w -> woken q' w = false ->
  w ∈ wakers q' \/ (listed a = Some w /\ woken q w = false).
Proof using Hs.
  intros Hl Hf. by_move Hs; try (by right).
  left. apply elem_of_app. right. by apply list_elem_of_singleton.
Qed.

(** Only a thread in the section changes the queue. *)
Lemma wakers_change : wakers q' = wakers q \/ in_section a = true.
Proof using Hs. by_move Hs; auto. Qed.

Lemma pushed_step w : a' = EnqCount w -> last (wakers q') = Some w.
Proof using Hs. intros Ha. by_move Hs. apply last_snoc. Qed.
End one_step.

(** *** The invariants after a step *)

Lemma number_moving cs :
  number (fun a => is_pushed a || is_popped a) cs = number is_pushed cs + number is_popped cs.
Proof. induction cs as [|a cs IH]; [done|]. cbn [number]. rewrite IH. unfold holds. destruct a; cbn; lia. Qed.

Section invariants.
Context (c : bool) (q : WaitQueue) (cs : list control) (i : nat) (a : control) (q' : WaitQueue) (a' : control).
Hypothesis Hi : cs !! i = Some a.
Hypothesis Hs : queue_move c q a q' a'.

Lemma counts_step : counts_inv q cs -> counts_inv q' (<[i := a']> cs).
Proof using Hi Hs.
  intros (Hsec & Hnum & Hb). unfold counts_inv. rewrite !(number_insert _ cs i a a' Hi).
  pose proof (number_at in_section cs i a Hi).
  pose proof (number_nonneg is_pushed cs). pose proof (number_nonneg is_popped cs).
  pose proof (number_at is_pushed cs i a Hi). pose proof (number_at is_popped cs i a Hi).
  pose proof (number_mono_at (fun a => is_pushed a || is_popped a) in_section cs i a ltac:(by intros []) Hi) as Hm.
  rewrite number_moving in Hm. destruct q as [ql ws num hw]. cbn in *.
  destruct Hs as [Hn|[Eq Hc]]; [|subst; destruct a, a'; cbn in *; try done; lia].
  destruct a, ql; cbn in Hn; repeat case_match; simplify_eq; cbn in *; unfold wrapping_add, wrapping_sub in *;
    zify_bools; rewrite ?length_app, ?Z.mod_small by lia; cbn; lia.
Qed.

Hypothesis Hown : owners_inv q cs.

Lemma owners_step : owners_inv q' (<[i := a']> cs).
Proof using Hi Hs Hown.
  destruct Hown as [Hlt Hone]. pose proof (length_step _ _ _ _ _ Hs) as Hlen. split.
  - intros j b w [[-> ->]|[_ Hj]]%(lookup_step _ _ _ _ _ _ Hi) Ho.
    + destruct (own_step _ _ _ _ _ Hs w Ho) as [Ho'|[_ ?]]; [|done].
      specialize (Hlt i a w Hi Ho'). lia.
    + specialize (Hlt j b w Hj Ho). lia.
  - intros j k b d w [[-> ->]|[Hji Hj]]%(lookup_step _ _ _ _ _ _ Hi) [[-> ->]|[Hki Hk]]%(lookup_step _ _ _ _ _ _ Hi) Hb Hd;
      [done| | |by eapply Hone].
    + destruct (own_step _ _ _ _ _ Hs w Hb) as [Ho'|[-> _]]; [by eapply Hone|].
      specialize (Hlt k d _ Hk Hd). lia.
    + destruct (own_step _ _ _ _ _ Hs w Hd) as [Ho'|[-> _]]; [by eapply Hone|].
      specialize (Hlt j b _ Hj Hb). lia.
Qed.

(** The waker of another thread is not reset. *)
Lemma other_woken j b w : j <> i -> cs !! j = Some b -> own b = Some w -> woken q' w = false -> woken q w = false.
Proof using Hi Hs Hown.
  intros Hji Hj Ho Hf. destruct Hown as [Hlt Hone].
  destruct (woken_fall _ _ _ _ _ Hs w Hf) as [Ho'|?]; [|done].
  destruct (own_step _ _ _ _ _ Hs w Ho') as [Ha|[-> _]].
  - exfalso. eauto.
  - specialize (Hlt j b _ Hj Ho). lia.
Qed.

Lemma pushed_inv_step : counts_inv q cs -> pushed_inv q cs -> pushed_inv q' (<[i := a']> cs).
Proof using Hi Hs.
  intros (Hsec & _) Hp j w [[-> <-]|[Hji Hj]]%(lookup_step _ _ _ _ _ _ Hi); [by eapply pushed_step|].
  destruct (wakers_change _ _ _ _ _ Hs) as [->|Ha]; [by eapply Hp|]. exfalso.
  pose proof (number_two in_section cs j i _ _ Hji Hj Hi) as Htwo. unfold holds in Htwo. rewrite Ha in Htwo.
  cbn in Htwo. destruct (queue_lock q); cbn in *; lia.
Qed.

Lemma listed_own b w : listed b = Some w -> own b = Some w.
Proof using Type. by destruct b. Qed.

Lemma wakers_step : c = true -> wakers_inv q cs -> wakers_inv q' (<[i := a']> cs).
Proof using Hi Hs Hown.
  intros Hc [Hlive Hlist]. split.
  - intros w Hf. destruct (woken_fall _ _ _ _ _ Hs w Hf) as [Ho|Hf0].
    + exists i, a'. split; [|done]. by eapply lookup_step_same.
    + destruct (Hlive w Hf0) as (j & b & Hj & Ho). destruct (decide (j = i)) as [->|Hji].
      * simplify_eq. exists i, a'. split; [by eapply lookup_step_same|by eapply own_kept].
      * exists j, b. split; [by apply lookup_step_other|done].
  - intros j b w Hj Hl Hf.
    assert (w ∈ wakers q' \/ exists k d, cs !! k = Some d /\ listed d = Some w /\ woken q w = false) as [|(k & d & Hk & Hd & Hf0)].
    { apply (lookup_step _ _ _ _ _ _ Hi) in Hj as [[-> ->]|[Hji Hj]].
      - destruct (listed_step _ _ _ _ _ Hs w Hl Hf) as [|[]]; eauto 6.
      - right. exists j, b. split_and!; try done. eapply other_woken; eauto using listed_own. }
    { by left. }
    destruct (Hlist k d w Hk Hd Hf0) as [Hw|(m & e & Hm & He)].
    + destruct (queue_step _ _ _ _ _ Hs w Hw) as [|Hcar]; [by left|].
      right. exists i, a'. split; [by eapply lookup_step_same|done].
    + right. destruct (decide (m = i)) as [->|Hmi].
      * simplify_eq. exists i, a'. split; [by eapply lookup_step_same|by eapply carried_step].
      * exists m, e. split; [by apply lookup_step_other|done].
Qed.
End invariants.

(** ** Who is left when a thread has finished waking *)

Lemma asleep_listed q a : asleep q a = true -> exists w, listed a = Some w /\ woken q w = false.
Proof. destruct a; cbn; intros Ha; try done; exists w; split_and!; try done; by apply negb_true_iff. Qed.

(** A thread falls asleep only by its condition. *)
Lemma asleep_before c q a q' a' : queue_next c q a = Some (q', a') -> asleep q' a' = true -> asleep q a = true.
Proof.
  intros Hn Ha. destruct a; cbn [queue_next new_pair swap_woken] in Hn; repeat case_match; simplify_eq; try done; cbn in *.
  by apply negb_true_iff.
Qed.

Lemma cond_from c q a q' w : queue_next c q a = Some (q', Cond w) -> a = EnqUnlock w.
Proof. destruct a; cbn [queue_next new_pair swap_woken]; repeat case_match; intros; simplify_eq; done. Qed.

(** A thread that gives up its commitment in the code of the queue. *)
Lemma committed_step q a q' a' : queue_next true q a = Some (q', a') -> committed q a = true ->
  committed q' a' = true \/ (exists all, a = WakeCheck all) /\ num_wakers q = 0 \/
  (exists all, a = WakePop all) /\ wakers q = [] \/
  (exists w, a = WakeUp false w /\ q' = (swap_woken q w true).1 /\ woken q w = false).
Proof.
  intros Hn Hc. destruct a; cbn [queue_next new_pair swap_woken] in Hn; try done; repeat case_match; simplify_eq; try (by left); cbn in *; try congruence.
  - right; left. split; [by eexists|]. by apply Z.eqb_eq.
  - right; right; left. split; [by eexists|done].
  - right; right; right. apply orb_false_iff in H as [Hf ->]. by exists w.
Qed.

(** A thread that will wake all enqueued threads. *)
Definition waking_all (b : control) : bool :=
  match b with
  | WakeCheck true | WakeLock true | WakePop true | WakeCount true _ | WakeUnlock true _ | WakeUp true _ => true
  | _ => false
  end.

Lemma waking_all_ends c q a q' a' : queue_next c q a = Some (q', a') -> waking_all a = true -> waking_all a' = false ->
  carried a = None /\ (num_wakers q = 0 \/ wakers q = []).
Proof.
  intros Hn Ha Ha'. destruct a as [| | | | | | | | | |[]|[]|[]| |[]|[]|[]]; try done; cbn in Hn; repeat case_match; simplify_eq; try done.
  - split; [done|]. left. by apply Z.eqb_eq.
  - by auto.
  - by rewrite orb_true_r in *.
Qed.

Section passing.
Context (q : WaitQueue) (cs : list control) (i : nat) (a : control) (q' : WaitQueue) (a' : control).
Hypothesis Hi : cs !! i = Some a.
Hypothesis Hs : queue_move true q a q' a'.
Hypothesis Hcount : counts_inv q cs.
Hypothesis Hown : owners_inv q cs.
Hypothesis Hwak : wakers_inv q cs.

Lemma committed_other j b : j <> i -> cs !! j = Some b -> committed q b = true -> committed q' b = true.
Proof using Hi Hs Hown.
  intros Hji Hj Hb. destruct b; try done; cbn in *; apply not_false_iff_true; intros Hf;
    eapply (other_woken true q cs i a q' a') in Hf; eauto; congruence.
Qed.

Lemma asleep_other j b : j <> i -> cs !! j = Some b -> asleep q' b = true -> asleep q b = true.
Proof using Hi Hs Hown.
  intros Hji Hj Hb. destruct b; try done; cbn in *; apply negb_true_iff; apply negb_true_iff in Hb;
    eapply (other_woken true q cs i a q' a'); eauto.
Qed.

Lemma carried_committed b w : carried b = Some w -> committed q b = true.
Proof using Type. by destruct b. Qed.

(** An enqueued waker that is not woken is carried by another thread, if the queue is empty ... *)
Lemma empty_carried j b w : cs !! j = Some b -> listed b = Some w -> woken q w = false -> carried a = None ->
  wakers q = [] -> exists k d, k <> i /\ cs !! k = Some d /\ carried d = Some w.
Proof using Hi Hwak.
  intros Hj Hl Hf Hca Hnil. destruct Hwak as [_ Hlist].
  destruct (Hlist j b w Hj Hl Hf) as [Hw|(k & d & Hk & Hd)]; [rewrite Hnil in Hw; by apply not_elem_of_nil in Hw|].
  exists k, d. split_and!; [|done|done]. intros ->. congruence.
Qed.

(** ... and also if its length is read as 0, unless some thread is about to count its waker. *)
Lemma uncounted_carried j b w : cs !! j = Some b -> listed b = Some w -> woken q w = false -> carried a = None ->
  num_wakers q = 0 ->
  (exists k d, k <> i /\ cs !! k = Some d /\ carried d = Some w) \/
  exists k w', cs !! k = Some (EnqCount w') /\ exists w'', wakers q = [w''] /\ w = w''.
Proof using Hi Hcount Hwak.
  intros Hj Hl Hf Hca Hn. destruct Hcount as (Hsec & Hnum & _).
  destruct (decide (wakers q = [])) as [Hnil|Hne]; [left; by eapply empty_carried|].
  destruct Hwak as [_ Hlist]. destruct (Hlist j b w Hj Hl Hf) as [Hw|(k & d & Hk & Hd)].
  2: { left. exists k, d. split_and!; [|done|done]. intros ->. congruence. }
  right. pose proof (number_nonneg is_popped cs). pose proof (number_nonneg is_pushed cs).
  pose proof (number_mono (fun a => is_pushed a || is_popped a) in_section cs ltac:(by intros [])) as Hm. rewrite number_moving in Hm.
  destruct (wakers q) as [|w1 [|w2 ws]] eqn:Hws; [done| |destruct (queue_lock q); cbn in *; lia].
  destruct (number_pos is_pushed cs) as (k & d & Hk & Hd); [cbn in *; lia|].
  destruct d; try done. exists k, w0. split; [done|]. exists w1. split; [done|]. by apply list_elem_of_singleton in Hw.
Qed.

(** Whoever stops waking others while a waker is enqueued and not woken leaves another thread that goes on. *)
Lemma commitment_passed j b w : queue_next true q a = Some (q', a') -> committed q a = true -> committed q' a' = false ->
  cs !! j = Some b -> listed b = Some w -> woken q w = false ->
  exists k d, k <> i /\ cs !! k = Some d /\ (committed q' d = true \/ exists w', d = Returning w').
Proof using Hi Hs Hcount Hown Hwak.
  intros Hn Hc Hc' Hj Hl Hf.
  assert (forall k d, k <> i -> cs !! k = Some d -> committed q d = true ->
    exists k d, k <> i /\ cs !! k = Some d /\ (committed q' d = true \/ exists w', d = Returning w')) as Hgo.
  { intros k d Hki Hk Hd. exists k, d. eauto using committed_other. }
  destruct (committed_step _ _ _ _ Hn Hc) as [?|[[[all Ea] H0]|[[[all Ea] Hnil]|(w' & Ea & Eq & Hf')]]]; [congruence| | |].
  - destruct (uncounted_carried j b w Hj Hl Hf ltac:(by rewrite Ea) H0) as [(k & d & Hki & Hk & Hd)|(k & w' & Hk & _)].
    + eapply Hgo; eauto using carried_committed.
    + eapply (Hgo k); [|done|done]. intros ->. congruence.
  - destruct (empty_carried j b w Hj Hl Hf ltac:(by rewrite Ea) Hnil) as (k & d & Hki & Hk & Hd).
    eapply Hgo; eauto using carried_committed.
  - destruct Hwak as [Hlive _]. destruct (Hlive w' Hf') as (k & d & Hk & Hd). exists k, d.
    assert (woken q' w' = true) as Ht by (apply not_false_iff_true; rewrite Eq; by intros [? _]%woken_swap_true).
    split_and!; [intros ->; simplify_eq; congruence|done|]. destruct d; simplify_eq/=; eauto.
Qed.

(** ** The end of [wake_all] *)

(** When [wake_all] ends, every waker whose owner runs its condition has been woken or is about to be. *)
Lemma wake_all_done j w : pushed_inv q cs -> queue_next true q a = Some (q', a') -> waking_all a = true -> waking_all a' = false ->
  cs !! j = Some (Cond w) -> woken q w = false ->
  exists k d, k <> i /\ cs !! k = Some d /\ carried d = Some w.
Proof using Hi Hcount Hown Hwak.
  intros Hpush Hn Ha Ha' Hj Hf. destruct (waking_all_ends _ _ _ _ _ Hn Ha Ha') as [Hca [H0|Hnil]]; [|by eapply (empty_carried j (Cond w) w)].
  destruct (uncounted_carried j (Cond w) w Hj eq_refl Hf Hca H0) as [|(k & w' & Hk & w'' & Hws & ->)]; [done|].
  pose proof (Hpush k w' Hk) as Hlast. rewrite Hws in Hlast. injection Hlast as ->. destruct Hown as [_ Hone].
  specialize (Hone k j _ _ w' Hk Hj eq_refl eq_refl) as ->. congruence.
Qed.
End passing.

(** ** Reachable states *)

Section reachable_states.
Context {L G Act : Type} `{WaitClientLaws L G Act} (c : bool) (allowed : Act -> bool).

Lemma thread_move o s t s' t' : thread_next c allowed o s t = Some (s', t') -> queue_move c s.2 t.2 s'.2 t'.2.
Proof.
  destruct o as [act|]; cbn [thread_next].
  - destruct (allowed act); [|done]. destruct (client_next act s.1 t) as [[l' t1]|] eqn:Hc; [|done]. intros [= <- <-].
    right. split; [done|]. by eapply client_moves.
  - destruct (queue_next c s.2 t.2) as [[q' a']|] eqn:Hq; [|done]. intros [= <- <-]. by left.
Qed.

Lemma number_outside P n : P Run = false -> number P (replicate n (outside (L := L) (Act := Act))).*2 = 0.
Proof.
  intros HP. apply number_zero. intros i a. rewrite list_lookup_fmap. intros (t & [-> _]%lookup_replicate & ->)%fmap_Some. done.
Qed.

Lemma reachable_queue n s ts : reachable c allowed n s ts ->
  counts_inv s.2 ts.*2 /\ owners_inv s.2 ts.*2 /\ pushed_inv s.2 ts.*2 /\ (c = true -> wakers_inv s.2 ts.*2).
Proof.
  induction 1 as [|s ts s' ts' Hr (Hc & Ho & Hp & Hw) [i o t s1 t' Hi Hs]].
  - assert (forall j b, (replicate n (outside (L := L) (Act := Act))).*2 !! j = Some b -> b = Run) as Hout.
    { intros j b. rewrite list_lookup_fmap. intros (t & [-> _]%lookup_replicate & ->)%fmap_Some. done. }
    split_and!; [|split| |intros _; split].
    + unfold counts_inv. by rewrite !number_outside.
    + by intros i a w ->%Hout.
    + by intros i j a b w ->%Hout.
    + by intros i w ?%Hout.
    + intros w. by rewrite woken_out by (cbn; lia).
    + by intros i a w ->%Hout.
  - pose proof (thread_move _ _ _ _ _ Hs) as Hm. rewrite list_fmap_insert.
    assert (ts.*2 !! i = Some t.2) as Hi2 by (by rewrite list_lookup_fmap, Hi).
    split_and!; [by eapply counts_step|by eapply owners_step|by eapply pushed_inv_step|intros ->; eapply wakers_step; eauto].
Qed.

(** *** Moving *)

Lemma section_moves q a : in_section a = true -> Z.of_nat (length (wakers q)) < 2 ^ 32 -> is_Some (queue_next c q a).
Proof.
  intros Ha Hq. destruct a; try done; cbn. destruct (Z.ltb_spec (Z.of_nat (length (wakers q))) (2 ^ 32)); [done|lia].
Qed.

(** A thread in the code of the queue moves, unless it waits for the spin lock or sleeps. *)
Lemma control_moves q a : Z.of_nat (length (wakers q)) < 2 ^ 32 -> a <> Run -> (forall w, a <> Cond w) ->
  is_Some (queue_next c q a) \/ queue_lock q = true \/ asleep q a = true.
Proof.
  intros Hq Hr Hc. destruct (queue_lock q) eqn:Hl; [by auto|]. destruct (asleep q a) eqn:Hsl; [by auto|]. left.
  destruct a; try done; cbn; rewrite ?Hl; try done; [|by destruct (Hc w)|].
  - destruct (Z.ltb_spec (Z.of_nat (length (wakers q))) (2 ^ 32)); [done|lia].
  - cbn in Hsl. apply negb_false_iff in Hsl. by rewrite Hsl.
Qed.
End reachable_states.
