(* ===== verification/WaitCancel.v ===== *)
(** * Waiting that can be cancelled ([wait_until_or_cancelled] of [ostd/src/sync/wait.rs])

    A [Waiter] tries its condition, asks whether it is cancelled, and sleeps until its waker is woken.  When
    it is cancelled it closes its waker and tries once more, so that a wake-up it was given is not lost for the other waiters.

    The waiter's own steps are the accesses to shared memory, as in [WaitQueue]; between them other threads may wake
    the waker, change what the condition and the cancellation depend on, and use the queue with other
    wakers in any way.  The condition is a closure with effects on the shared state. *)

From S2P Require Import Prelude WaitQueue.
Open Scope Z_scope.

Section cancel.
Context {X R E : Type}.
(** [cond], with its effect, and [cancel_cond]. *)
Context (cond : X -> option R * X) (cancel_cond : X -> unit + E).
(** The waker of the waiter. *)
Context (w : nat).

(** Where the waiter is. *)
Inductive place :=
| PCond                   (* tries the condition *)
| PCancel                 (* asks whether it is cancelled *)
| PClose (e : E)          (* cancelled, closes the waker *)
| PRecheck (e : E)        (* tries the condition for the last time *)
| PWait                   (* [do_wait]: tests the waker *)
| PParked                 (* [do_wait]: parked *)
| PDone (r : R + E).

(** What happened: a wake-up that was successful, and a try of the condition with its result. *)
Inductive event := Woken | Tried (r : option R).

(** The events, the last one first, are there for the statements. *)
Record waiting := mk_waiting { shared : X; queue : WaitQueue; place_of : place; log : list event }.
Implicit Types (s : waiting) (l : list event).

Definition tried (p : option R -> place) s : waiting :=
  let '(r, x) := cond (shared s) in mk_waiting x (queue s) (p r) (Tried r :: log s).

(** The next step of the waiter; [None] if it has to wait or has returned. *)
Definition waiter_next s : option waiting :=
  match place_of s with
  | PCond => Some (tried (fun r => match r with Some res => PDone (inl res) | None => PCancel end) s)
  | PCancel => Some (mk_waiting (shared s) (queue s) (match cancel_cond (shared s) with inl _ => PWait | inr e => PClose e end) (log s))
  | PClose e => Some (mk_waiting (shared s) (close (queue s) w) (PRecheck e) (log s))
  | PRecheck e => Some (tried (fun r => match r with Some res => PDone (inl res) | None => PDone (inr e) end) s)
  | PWait =>
      let '(q, was) := swap_woken (queue s) w false in
      Some (mk_waiting (shared s) q (if was then PCond else PParked) (log s))
  | PParked => if woken (queue s) w then Some (mk_waiting (shared s) (queue s) PWait (log s)) else None
  | PDone _ => None
  end.

(** [Waker::wake_up] by any thread, with its result. *)
Definition wake_up s : waiting * bool :=
  let '(q, was) := swap_woken (queue s) w true in
  (mk_waiting (shared s) q (place_of s) (if was then log s else Woken :: log s), negb was).

Inductive cstep s : waiting -> Prop :=
| c_waiter s' : waiter_next s = Some s' -> cstep s s'
| c_wake : cstep s (wake_up s).1
| c_other x q : has_woken q !! w = has_woken (queue s) !! w -> cstep s (mk_waiting x q (place_of s) (log s)).

Inductive creach : waiting -> Prop :=
| c_start x q : has_woken q !! w = Some false -> creach (mk_waiting x q PCond [])
| c_next s s' : creach s -> cstep s s' -> creach s'.

(** Whether there was a wake-up since the last try, and the result of that try. *)
Definition pending l : bool := match l with Woken :: _ => true | _ => false end.
Fixpoint last_try l : option (option R) := match l with [] => None | Tried r :: _ => Some r | Woken :: l' => last_try l' end.

(** ** The invariant *)

(** The waiter tries the condition before it sleeps or reports the cancellation. *)
Definition delivered s : Prop :=
  match place_of s with
  | PCond => True
  | PCancel | PClose _ | PWait | PParked => pending (log s) = true -> woken (queue s) w = true
  | PRecheck _ => woken (queue s) w = true
  | PDone (inl r) => last_try (log s) = Some (Some r)
  | PDone (inr _) => woken (queue s) w = true /\ pending (log s) = false /\ last_try (log s) = Some None
  end.

Definition cancel_inv s : Prop := is_Some (has_woken (queue s) !! w) /\ delivered s.

Lemma woken_same q q' : has_woken q !! w = has_woken q' !! w -> woken q w = woken q' w.
Proof. unfold woken. by intros ->. Qed.

Lemma swap_flag q b : is_Some (has_woken q !! w) -> has_woken (swap_woken q w b).1 !! w = Some b /\ woken (swap_woken q w b).1 w = b.
Proof.
  intros Hs. assert (has_woken (swap_woken q w b).1 !! w = Some b) as H.
  { cbn. apply list_lookup_insert_eq. by apply lookup_lt_is_Some. }
  split; [done|]. unfold woken. by rewrite H.
Qed.

Lemma tried_inv p s : is_Some (has_woken (queue s) !! w) ->
  (forall r, match p r with
             | PDone (inl res) => r = Some res
             | PDone (inr _) => r = None /\ woken (queue s) w = true
             | PRecheck _ => False
             | _ => True end) -> cancel_inv (tried p s).
Proof.
  intros Hw Hp. unfold tried. destruct (cond (shared s)) as [r x]. split; [done|]. unfold delivered. cbn. specialize (Hp r).
  destruct (p r) as [| |e|e| | |[res|e] ]; try done; [by rewrite Hp|]. destruct Hp as [-> ?]. done.
Qed.

Lemma waiter_inv s s' : cancel_inv s -> waiter_next s = Some s' -> cancel_inv s'.
Proof.
  intros [Hw Hd]. pose proof (swap_flag (queue s) true Hw) as [Ht1 Ht2]. pose proof (swap_flag (queue s) false Hw) as [Hf1 Hf2].
  unfold waiter_next. unfold delivered in Hd. destruct (place_of s) as [| |e|e| | |r]; [| | | | | |done]; intros Hn; [injection Hn as <-..| |].
  - apply tried_inv; [done|]. by intros [res|].
  - split; [done|]. unfold delivered. cbn. by destruct (cancel_cond (shared s)).
  - split; [by eexists|]. exact Ht2.
  - apply tried_inv; [done|]. by intros [res|].
  - unfold swap_woken in *. cbn [fst] in *. injection Hn as <-. split; [by eexists|]. unfold delivered. cbn [place_of log queue].
    destruct (woken (queue s) w); [done|]. intros Hpe. by discriminate (Hd Hpe).
  - destruct (woken (queue s) w) eqn:Ef; [|done]. injection Hn as <-. split; [done|]. by intros _.
Qed.

Lemma wake_inv s : cancel_inv s -> cancel_inv (wake_up s).1.
Proof.
  intros [Hw Hd]. pose proof (swap_flag (queue s) true Hw) as [Ht1 Ht2]. unfold wake_up. unfold swap_woken in *. cbn [fst] in *.
  split; [by eexists|]. unfold delivered in *. cbn [place_of log queue].
  destruct (place_of s) as [| |e|e| | |[r|e] ]; try done.
  - by destruct (woken (queue s) w).
  - destruct Hd as (Hf & Hd). rewrite Hf. done.
Qed.

Lemma creach_inv s : creach s -> cancel_inv s.
Proof.
  intros Hr. induction Hr as [x q Hq|s s' _ IH [s1 Hn| |x q Hq] ].
  - split; [by eexists|done].
  - by eapply waiter_inv.
  - by apply wake_inv.
  - destruct IH as [Hw Hd]. split; cbn; [by rewrite Hq|]. unfold delivered in *. cbn. by rewrite (woken_same q (queue s) Hq).
Qed.

(** The flag of a waiter that reported its cancellation stays set. *)
Lemma wake_refused s : woken (queue s) w = true -> (wake_up s).2 = false.
Proof. intros H. unfold wake_up, swap_woken. by rewrite H. Qed.

(** C36: no wake-up is lost by a wait that can be cancelled.  For any interleaving with other threads: when [wait_until_or_cancelled] returns [Ok], its last
    try of the condition gave the result; when it returns [Err], its last try failed, no wake-up was
    successful since then, and every later one is refused, so that the waking thread goes on to
    another waiter; and a waiter that was woken since its last try is not left asleep: it can make a step. *)
Theorem wait_cancel_correct s : creach s ->
  (forall r, place_of s = PDone (inl r) -> last_try (log s) = Some (Some r)) /\
  (forall e, place_of s = PDone (inr e) -> last_try (log s) = Some None /\ pending (log s) = false /\ (wake_up s).2 = false) /\
  (pending (log s) = true -> (forall r, place_of s <> PDone r) -> is_Some (waiter_next s)).
Proof.
  intros Hr. destruct (creach_inv s Hr) as [Hw Hd]. unfold delivered in Hd. split_and!.
  - intros r Hp. by rewrite Hp in Hd.
  - intros e Hp. rewrite Hp in Hd. destruct Hd as (Hf & Hpe & Hl). split_and!; [done..|by apply wake_refused].
  - intros Hpe Hnd. unfold waiter_next. destruct (place_of s) as [| |e|e| | |r]; try by eexists.
    + rewrite Hd by done. by eexists.
    + by destruct (Hnd r).
Qed.

End cancel.

(** ** An instance: a wake-up arrives while the waiter is being cancelled *)
Module CancelExample.

(** The shared state is the number of units to take and whether the wait is cancelled. *)
Definition cond (x : Z * bool) : option Z * (Z * bool) := if 0 <? x.1 then (Some x.1, (x.1 - 1, x.2)) else (None, x).
Definition cancel_cond (x : Z * bool) : unit + Z := if x.2 then inr 4 else inl tt.

Definition flag (b : bool) : WaitQueue := set_has_woken [b] queue_new.

Lemma wait_cancel_correct_witness : let s := mk_waiting (0, true) (flag true) (PDone (inr 4)) [Tried None; Woken; Tried None] in
  last_try (log s) = Some (None : option Z) /\ (wake_up 0 s).2 = false.
Proof.
  assert (creach cond cancel_cond 0 (mk_waiting (0, true) (flag true) (PDone (inr 4)) [Tried None; Woken; Tried None])) as Hr.
  { eapply c_next; [|apply (c_waiter _ _ _ (mk_waiting (0, true) (flag true) (PRecheck 4) [Woken; Tried None])); reflexivity].
    eapply c_next; [|apply (c_waiter _ _ _ (mk_waiting (0, true) (flag true) (PClose 4) [Woken; Tried None])); reflexivity].
    eapply c_next; [|exact (c_wake cond cancel_cond 0 (mk_waiting (0, true) (flag false) (PClose 4) [Tried None]))].
    eapply c_next; [|apply (c_waiter _ _ _ (mk_waiting (0, true) (flag false) PCancel [Tried None])); reflexivity].
    eapply c_next; [|apply (c_waiter _ _ _ (mk_waiting (0, true) (flag false) PCond [])); reflexivity].
    apply c_start. reflexivity. }
  destruct (wait_cancel_correct cond cancel_cond 0 _ Hr) as (_ & He & _). destruct (He 4 eq_refl) as (Hl & _ & Hw).
  split; [exact Hl|exact Hw].
Defined.

End CancelExample.
