(* ===== verification/Scheduler.v ===== *)
(** * The scheduler: run queues, parking and waking

    [ostd/src/task/scheduler/]: the words that say on which CPU a task is ([AtomicCpuId] of [info.rs]), the FIFO
    scheduler with a run queue for each CPU ([fifo_scheduler.rs]), and the decisions of [mod.rs] that yield, preempt,
    park or end the current task, with [wake_up] and [do_wait] of [ostd/src/sync/wait.rs] as given in its comments.

    A run queue is guarded by a spin lock; the word of a task is read and written without it.  A
    state has a run queue and a place in the code for every CPU, and any number of wakers, which run
    [Waker::wake_up] or enqueue new tasks in any context.  Every access to a word, to a flag or to the lock is a
    step; what is done to a run queue under its lock, between such accesses, is one step.  Preemption
    is disabled on a CPU from before it takes the lock of its queue, so one CPU has one place in the
    code.  The model is sequentially consistent.

    The theorems: a task is at one place at most, in the run queue that its word names, and no call panics
    ([sched_places]); a task that was parked and has been woken is in a run queue or on its way into one
    ([sched_no_lost_wakeup]), which is what the wait queues assume of parking. *)

From S2P Require Import Prelude Agents.
Open Scope Z_scope.

(** ** [AtomicCpuId] *)

Section words.
Context (num_cpus : nat).

Definition NONE : Z := 2 ^ 32 - 1.

(** The result says whether the new value was written, and otherwise the previous one. *)
Definition set_if_is_none (v : Z) (cpu_id : nat) : outcome (Z * (unit + nat)) :=
  if v =? NONE then Ret (Z.of_nat cpu_id, inl tt)
  else if v <? Z.of_nat num_cpus then Ret (v, inr (Z.to_nat v)) else Panic.

Definition set_anyway (v : Z) (cpu_id : nat) : Z := Z.of_nat cpu_id.

Definition set_to_none (v : Z) : Z := NONE.

Definition get (v : Z) : option nat :=
  if v =? NONE then None else if v <? Z.of_nat num_cpus then Some (Z.to_nat v) else None.

(** [inv_value]. *)
Definition inv_value (v : Z) : Prop := v = NONE \/ 0 <= v < Z.of_nat num_cpus.
End words.

(** ** The run queue *)

Inductive EnqueueFlags := Spawn | Wake.
Inductive UpdateFlags := Tick | Wait | Yield | Exit.
Global Instance EnqueueFlags_eq_dec : EqDecision EnqueueFlags.
Proof. solve_decision. Defined.

Record FifoRunQueue := mk_rq { current : option nat; queue : list nat }.

Definition rq_new : FifoRunQueue := mk_rq None [].

Definition update_current (self : FifoRunQueue) (flags : UpdateFlags) : bool :=
  match flags with
  | Tick => false
  | Wait | Yield | Exit => match queue self with [] => false | _ => true end
  end.

Definition try_pick_next (self : FifoRunQueue) : option nat * FifoRunQueue :=
  match queue self with
  | [] => (None, self)
  | next_task :: queue =>
      (Some next_task, mk_rq (Some next_task) (match current self with Some prev_task => queue ++ [prev_task] | None => queue end))
  end.

Definition pick_next (self : FifoRunQueue) : outcome (nat * FifoRunQueue) :=
  let '(next, self') := try_pick_next self in
  next ← unwrap next; Ret (next, self').

(** The part of [dequeue_current] before the word of the task is cleared. *)
Definition take_current (self : FifoRunQueue) : option nat * FifoRunQueue := (current self, mk_rq None (queue self)).

(** ** The decisions of [mod.rs] *)

Inductive ReschedAction := DoNothing | Retry | SwitchTo (next : nat).

Definition might_preempt (local_rq : FifoRunQueue) : ReschedAction * FifoRunQueue :=
  let '(next_task_opt, local_rq) := try_pick_next local_rq in
  (match next_task_opt with Some next_task => SwitchTo next_task | None => DoNothing end, local_rq).

Definition yield_now (local_rq : FifoRunQueue) : outcome (ReschedAction * FifoRunQueue) :=
  if update_current local_rq Yield
  then ' (next_task, local_rq) ← pick_next local_rq; Ret (SwitchTo next_task, local_rq)
  else Ret (DoNothing, local_rq).

(** The end of the closures of [park_current] (with the waker) and [exit_current] (without): the task [cur] has been
    dequeued. *)
Definition decide_next (waker : option nat) (cur : nat) (next_task_opt : option nat) : ReschedAction :=
  match next_task_opt with
  | None => Retry
  | Some next_task =>
      match waker with
      | Some _ => if (cur =? next_task)%nat then DoNothing else SwitchTo next_task
      | None => SwitchTo next_task
      end
  end.

Definition resched_first (waker : option nat) (cur : nat) (should_pick_next : bool) (local_rq : FifoRunQueue)
  : outcome (ReschedAction * FifoRunQueue) :=
  if should_pick_next
  then ' (next_task, local_rq) ← pick_next local_rq; Ret (decide_next waker cur (Some next_task), local_rq)
  else Ret (decide_next waker cur None, local_rq).

Definition resched_again (waker : option nat) (cur : nat) (local_rq : FifoRunQueue) : ReschedAction * FifoRunQueue :=
  let '(next_task_opt, local_rq) := try_pick_next local_rq in (decide_next waker cur next_task_opt, local_rq).

(** [FifoScheduler::select_cpu]: the bootstrap processor. *)
Definition select_cpu : nat := 0.

(** ** The system *)

(** What a CPU does with its run queue.  A task ends ([OpExit]) or parks on a waker; after it has been dequeued without
    a successor, its CPU tries again ([OpRetry]). *)
Inductive local_op := OpTick | OpYield | OpPreempt | OpPark (w : nat) | OpExit | OpRetry (w : option nat) (cur : nat).

Inductive cpu_pc :=
| CRun                                            (* runs the current task, or nothing *)
| CLock (op : local_op)                           (* takes the lock of its run queue *)
| CIn (op : local_op)                             (* has it *)
| CTake (w : option nat)                          (* is going to dequeue the current task *)
| CClear (w : option nat) (t : nat) (should : bool)   (* is going to clear its word *)
| CPick (w : option nat) (t : nat) (should : bool).   (* is going to choose the next task *)

Inductive waker_pc :=
| WIdle
| WSwap (w : nat)                                 (* [wake_up]: sets the flag *)
| WSelect (t : nat) (flags : EnqueueFlags)        (* [enqueue]: the first try on the word *)
| WLock (t : nat) (still_in_rq : bool) (target : nat)
| WCheck (t : nat) (still_in_rq : bool) (target : nat)   (* has the lock *)
| WPush (t : nat) (target : nat).

(** [made] are the wakers that exist; [parked] records the waker on which a task was parked when it was
    dequeued last. *)
Record sched := mk_sched {
  words : list Z;
  rqs : list FifoRunQueue;
  locked : list bool;
  woken : gset nat;
  made : gset nat;
  cpus : list cpu_pc;
  wakers : list waker_pc;
  parked : gmap nat nat;
}.

Implicit Types (s : sched) (c t w i : nat) (q : FifoRunQueue).

Definition set_word s t v : sched := mk_sched (<[t := v]> (words s)) (rqs s) (locked s) (woken s) (made s) (cpus s) (wakers s) (parked s).
Definition set_rq s c q : sched := mk_sched (words s) (<[c := q]> (rqs s)) (locked s) (woken s) (made s) (cpus s) (wakers s) (parked s).
Definition set_lock s c (b : bool) : sched := mk_sched (words s) (rqs s) (<[c := b]> (locked s)) (woken s) (made s) (cpus s) (wakers s) (parked s).
Definition set_woken s (ws : gset nat) : sched := mk_sched (words s) (rqs s) (locked s) ws (made s) (cpus s) (wakers s) (parked s).
Definition set_cpu s c pc : sched := mk_sched (words s) (rqs s) (locked s) (woken s) (made s) (<[c := pc]> (cpus s)) (wakers s) (parked s).
Definition set_waker s i pc : sched := mk_sched (words s) (rqs s) (locked s) (woken s) (made s) (cpus s) (<[i := pc]> (wakers s)) (parked s).
Definition set_parked s t (w : option nat) : sched :=
  mk_sched (words s) (rqs s) (locked s) (woken s) (made s) (cpus s) (wakers s) (match w with Some w => <[t := w]> (parked s) | None => delete t (parked s) end).

(** The end of [reschedule] on a CPU that has the lock: the queue as the closure leaves it, the lock released, and the
    next round of the loop or none. *)
Definition finish s c (w : option nat) (cur : nat) (r : ReschedAction * FifoRunQueue) : sched :=
  set_cpu (set_lock (set_rq s c (snd r)) c false) c (match fst r with Retry => CLock (OpRetry w cur) | _ => CRun end).

Section system.
Context (debug_assertions : bool) (task_of : nat -> nat).

(** The next step of a CPU; [None] if it runs a task or has to wait. *)
Definition cpu_act s c : option (outcome sched) :=
  pc ← cpus s !! c;
  q ← rqs s !! c;
  match pc with
  | CRun => None
  | CLock op => if default true (locked s !! c) then None else Some (Ret (set_cpu (set_lock s c true) c (CIn op)))
  | CIn OpTick => Some (Ret (finish s c None 0 (DoNothing, q)))
  | CIn OpYield => Some (r ← yield_now q; Ret (finish s c None 0 r))
  | CIn OpPreempt => Some (Ret (finish s c None 0 (might_preempt q)))
  | CIn (OpPark w) => Some (Ret (if decide (w ∈ woken s) then finish s c None 0 (DoNothing, q) else set_cpu s c (CTake (Some w))))
  | CIn OpExit => Some (Ret (set_cpu s c (CTake None)))
  | CTake w =>
      let should := update_current q (match w with Some _ => Wait | None => Exit end) in
      let '(cur, q') := take_current q in
      Some (cur ← unwrap cur; Ret (set_cpu (set_rq s c q') c (CClear w cur should)))
  | CClear w cur should =>
      Some (v ← unwrap (words s !! cur); Ret (set_cpu (set_parked (set_word s cur (set_to_none v)) cur w) c (CPick w cur should)))
  | CPick w cur should => Some (r ← resched_first w cur should q; Ret (finish s c w cur r))
  | CIn (OpRetry w cur) => Some (Ret (finish s c w cur (resched_again w cur q)))
  end.

(** The next step of a waker. *)
Definition waker_act s i : option (outcome sched) :=
  pc ← wakers s !! i;
  match pc with
  | WIdle => None
  | WSwap w => Some (Ret (set_waker (set_woken s ({[w]} ∪ woken s)) i (if decide (w ∈ woken s) then WIdle else WSelect (task_of w) Wake)))
  | WSelect t flags =>
      Some (v ← unwrap (words s !! t);
            ' (v', r) ← set_if_is_none (length (cpus s)) v select_cpu;
            match r with
            | inr task_cpu_id =>
                _ ← debug_assert debug_assertions (Ret (bool_decide (flags <> Spawn)));
                Ret (set_waker s i (WLock t true task_cpu_id))
            | inl _ => Ret (set_waker (set_word s t v') i (WLock t false select_cpu))
            end)
  | WLock t still target =>
      match locked s !! target with
      | None => Some Panic
      | Some true => None
      | Some false => Some (Ret (set_waker (set_lock s target true) i (WCheck t still target)))
      end
  | WCheck t still target =>
      if still then
        Some (v ← unwrap (words s !! t);
              ' (v', r) ← set_if_is_none (length (cpus s)) v target;
              match r with
              | inr _ => Ret (set_waker (set_lock s target false) i WIdle)
              | inl _ => Ret (set_waker (set_word s t v') i (WPush t target))
              end)
      else Some (Ret (set_waker s i (WPush t target)))
  | WPush t target =>
      Some (q ← unwrap (rqs s !! target);
            Ret (set_waker (set_lock (set_rq s target (mk_rq (current q) (queue q ++ [t]))) target false) i WIdle))
  end.

(** What a CPU that runs a task may begin: anything with its run queue, parking on a waker of the current task
    and ending it included. *)
Definition may_begin q (op : local_op) : Prop :=
  match op with
  | OpTick | OpYield | OpPreempt => True
  | OpPark w => current q = Some (task_of w)
  | OpExit => is_Some (current q)
  | OpRetry _ _ => False
  end.

Inductive sstep s : sched -> Prop :=
| step_cpu c s' : cpu_act s c = Some (Ret s') -> sstep s s'
| step_waker i s' : waker_act s i = Some (Ret s') -> sstep s s'
| step_begin c q op : cpus s !! c = Some CRun -> rqs s !! c = Some q -> may_begin q op -> sstep s (set_cpu s c (CLock op))
(* [new_pair], [do_wait] and [close] of the current task on its own waker *)
| step_new c q w : cpus s !! c = Some CRun -> rqs s !! c = Some q -> current q = Some (task_of w) ->
    sstep s (mk_sched (words s) (rqs s) (locked s) (woken s) ({[w]} ∪ made s) (cpus s) (wakers s) (parked s))
| step_swap c q w : cpus s !! c = Some CRun -> rqs s !! c = Some q -> current q = Some (task_of w) -> sstep s (set_woken s (woken s ∖ {[w]}))
| step_close c q w : cpus s !! c = Some CRun -> rqs s !! c = Some q -> current q = Some (task_of w) -> sstep s (set_woken s ({[w]} ∪ woken s))
| step_wake i w : wakers s !! i = Some WIdle -> w ∈ made s -> sstep s (set_waker s i (WSwap w))
(* [run_new_task]: a new task *)
| step_spawn i : wakers s !! i = Some WIdle ->
    sstep s (set_waker (mk_sched (words s ++ [NONE]) (rqs s) (locked s) (woken s) (made s) (cpus s) (wakers s) (parked s)) i (WSelect (length (words s)) Spawn)).

(** A system of [n] CPUs and [k] wakers, without tasks. *)
Definition sched_new (n k : nat) : sched :=
  mk_sched [] (replicate n rq_new) (replicate n false) ∅ ∅ (replicate n CRun) (replicate k WIdle) ∅.

Inductive sreach (n k : nat) : sched -> Prop :=
| reach_new : sreach n k (sched_new n k)
| reach_step s s' : sreach n k s -> sstep s s' -> sreach n k s'.

(** ** The moves *)

(** The number of places of a task in a run queue. *)
Definition occ t q : Z := (if decide (current q = Some t) then 1 else 0) + number (Nat.eqb t) (queue q).

Definition crit_cpu (pc : cpu_pc) : bool := match pc with CRun | CLock _ => false | _ => true end.

(** The CPU [c] in the state [pc], with the run queue [q], goes on to [s']. *)
Inductive cpu_move s c q : cpu_pc -> sched -> Prop :=
| move_lock op : locked s !! c = Some false -> cpu_move s c q (CLock op) (set_cpu (set_lock s c true) c (CIn op))
| move_finish pc (w : option nat) cur r : crit_cpu pc = true -> (forall t, occ t (snd r) = occ t q) -> match pc with CTake _ | CClear _ _ _ => False | _ => True end ->
    cpu_move s c q pc (finish s c w cur r)
| move_park w : w ∉ woken s -> cpu_move s c q (CIn (OpPark w)) (set_cpu s c (CTake (Some w)))
| move_exit : cpu_move s c q (CIn OpExit) (set_cpu s c (CTake None))
| move_take (w : option nat) cur should : current q = Some cur -> (should = true -> queue q <> []) ->
    cpu_move s c q (CTake w) (set_cpu (set_rq s c (mk_rq None (queue q))) c (CClear w cur should))
| move_clear (w : option nat) cur should v : words s !! cur = Some v ->
    cpu_move s c q (CClear w cur should) (set_cpu (set_parked (set_word s cur NONE) cur w) c (CPick w cur should)).

Lemma number_snoc {A} (P : A -> bool) l x : number P (l ++ [x]) = number P l + holds P x.
Proof. induction l as [|y l IH]; cbn; lia. Qed.

Lemma holds_eqb t n : holds (Nat.eqb t) n = if decide (Some n = Some t) then 1 else 0.
Proof. unfold holds. destruct (Nat.eqb_spec t n); case_decide; congruence. Qed.

Lemma occ_pick q t : occ t (snd (try_pick_next q)) = occ t q.
Proof.
  unfold occ, try_pick_next. destruct q as [cur [|n l]]; [done|]. cbn [queue current snd number].
  destruct cur as [p|]; rewrite ?number_snoc, !holds_eqb; [lia|]. by rewrite (decide_False (P := None = Some t)).
Qed.

Lemma queue_busy q flags : update_current q flags = true -> queue q <> [].
Proof. unfold update_current. by destruct flags, (queue q). Qed.

Lemma pick_busy q : queue q <> [] -> exists n, pick_next q = Ret (n, snd (try_pick_next q)).
Proof. unfold pick_next, try_pick_next. destruct (queue q) as [|n l]; [done|]. by exists n. Qed.

(** The code of a CPU that has the lock moves; it does not panic. *)
Lemma cpu_act_move s c pc q r : cpus s !! c = Some pc -> rqs s !! c = Some q -> cpu_act s c = Some r ->
  (forall w : option nat, pc = CTake w -> is_Some (current q)) -> (forall (w : option nat) t b, pc = CPick w t b -> b = true -> queue q <> []) ->
  (forall (w : option nat) t b, pc = CClear w t b -> is_Some (words s !! t)) ->
  exists s', r = Ret s' /\ cpu_move s c q pc s'.
Proof.
  intros Hpc Hq. unfold cpu_act. rewrite Hpc, Hq. cbn [mbind option_bind]. intros Hr Htake Hpick Hclear.
  destruct pc as [|op|op|w|w t b|w t b]; [done| | | | |].
  - destruct (locked s !! c) as [[]|] eqn:Hl; try done. injection Hr as <-. eexists. split; [done|]. by constructor.
  - destruct op as [| | |w| |w cur]; injection Hr as <-.
    + eexists. split; [done|]. by apply move_finish.
    + unfold yield_now. destruct (update_current q Yield) eqn:Hu.
      * destruct (pick_busy q (queue_busy _ _ Hu)) as [n ->]. eexists. split; [done|]. apply move_finish; [done| |done]. intros t. apply occ_pick.
      * eexists. split; [done|]. by apply move_finish.
    + eexists. split; [done|]. apply move_finish; [done| |done]. intros t. unfold might_preempt. rewrite <- (occ_pick q t). by destruct (try_pick_next q).
    + eexists. split; [done|]. destruct (decide _); [by apply move_finish|by constructor].
    + eexists. split; [done|]. constructor.
    + eexists. split; [done|]. apply move_finish; [done| |done]. intros t. unfold resched_again. rewrite <- (occ_pick q t). by destruct (try_pick_next q).
  - destruct (Htake w eq_refl) as [cur Hcur]. unfold take_current in Hr. rewrite Hcur in Hr. injection Hr as <-. eexists. split; [done|].
    constructor; [done|]. apply queue_busy.
  - destruct (Hclear w t b eq_refl) as [v Hv]. rewrite Hv in Hr. injection Hr as <-. eexists. split; [done|]. by econstructor.
  - injection Hr as <-. unfold resched_first. destruct b.
    + destruct (pick_busy q (Hpick w t true eq_refl eq_refl)) as [n ->]. eexists. split; [done|]. apply move_finish; [done| |done]. intros t'. apply occ_pick.
    + eexists. split; [done|]. by apply move_finish.
Qed.

(** The waker [i] in the state [pc] goes on to [s']. *)
Inductive waker_move s i : waker_pc -> sched -> Prop :=
| move_swap w : waker_move s i (WSwap w)
    (set_waker (set_woken s ({[w]} ∪ woken s)) i (if decide (w ∈ woken s) then WIdle else WSelect (task_of w) Wake))
| move_select_err t v : words s !! t = Some v -> v <> NONE -> v < Z.of_nat (length (cpus s)) ->
    waker_move s i (WSelect t Wake) (set_waker s i (WLock t true (Z.to_nat v)))
| move_select_ok t flags : words s !! t = Some NONE -> waker_move s i (WSelect t flags) (set_waker (set_word s t (Z.of_nat select_cpu)) i (WLock t false select_cpu))
| move_wlock t still target : locked s !! target = Some false ->
    waker_move s i (WLock t still target) (set_waker (set_lock s target true) i (WCheck t still target))
| move_check_err t target v : words s !! t = Some v -> v <> NONE ->
    waker_move s i (WCheck t true target) (set_waker (set_lock s target false) i WIdle)
| move_check_ok t target : words s !! t = Some NONE ->
    waker_move s i (WCheck t true target) (set_waker (set_word s t (Z.of_nat target)) i (WPush t target))
| move_check_own t target : waker_move s i (WCheck t false target) (set_waker s i (WPush t target))
| move_push t target q : rqs s !! target = Some q ->
    waker_move s i (WPush t target) (set_waker (set_lock (set_rq s target (mk_rq (current q) (queue q ++ [t]))) target false) i WIdle).

(** ** Places *)

Section tally.
Context {A : Type} (f : A -> Z).

Fixpoint tally (l : list A) : Z := match l with [] => 0 | x :: l' => f x + tally l' end.

Lemma tally_insert l i x y : l !! i = Some x -> tally (<[i := y]> l) = tally l - f x + f y.
Proof.
  revert i. induction l as [|z l IH]; intros [|i]; cbn; try done; [intros [= ->]; lia|]. intros Hi. rewrite IH by done. lia.
Qed.

Lemma tally_at l i x : (forall x, 0 <= f x) -> l !! i = Some x -> f x <= tally l.
Proof.
  intros Hf. assert (forall l, 0 <= tally l) as Hn by (induction l0 as [|z l0 IH]; cbn; [lia|specialize (Hf z); lia]).
  revert i. induction l as [|z l IH]; intros [|i]; cbn; try done; [intros [= ->]; specialize (Hn l); lia|].
  intros Hi. specialize (IH i Hi). specialize (Hf z). lia.
Qed.

Lemma tally_pos l : 0 < tally l -> exists i x, l !! i = Some x /\ 0 < f x.
Proof.
  induction l as [|z l IH]; cbn; [lia|]. destruct (decide (0 < f z)); [intros _; by exists 0%nat, z|]. intros Hp.
  destruct IH as (i & x & Hi & Hx); [lia|]. by exists (S i), x.
Qed.

Lemma tally_two l i j x y : (forall x, 0 <= f x) -> i <> j -> l !! i = Some x -> l !! j = Some y -> f x + f y <= tally l.
Proof.
  intros Hf. revert i j. induction l as [|z l IH]; intros [|i] [|j] Hij; cbn; try done.
  - intros [= ->] Hj. pose proof (tally_at l j y Hf Hj). lia.
  - intros Hi [= ->]. pose proof (tally_at l i x Hf Hi). lia.
  - intros Hi Hj. pose proof (IH i j ltac:(lia) Hi Hj). specialize (Hf z). lia.
Qed.
End tally.

(** A waker that has written the word of a task and not yet pushed it; a CPU that has taken it and not yet cleared the word. *)
Definition wk_holds t (pc : waker_pc) : bool :=
  match pc with WLock t' false _ | WCheck t' false _ | WPush t' _ => (t =? t')%nat | _ => false end.
Definition cp_holds t (pc : cpu_pc) : bool := match pc with CClear _ t' _ => (t =? t')%nat | _ => false end.

Definition placed s t : Z := tally (occ t) (rqs s) + number (wk_holds t) (wakers s) + number (cp_holds t) (cpus s).

Definition on_cpu s t : Z := match words s !! t with Some v => if v =? NONE then 0 else 1 | None => 0 end.

Lemma occ_nonneg t q : 0 <= occ t q.
Proof. unfold occ. pose proof (number_nonneg (Nat.eqb t) (queue q)). case_decide; lia. Qed.

Lemma placed_set_cpu s c pc pc' t : cpus s !! c = Some pc ->
  placed (set_cpu s c pc') t = placed s t - holds (cp_holds t) pc + holds (cp_holds t) pc'.
Proof. intros Hc. unfold placed. cbn. rewrite (number_insert _ _ _ _ _ Hc). lia. Qed.

Lemma placed_set_waker s i pc pc' t : wakers s !! i = Some pc ->
  placed (set_waker s i pc') t = placed s t - holds (wk_holds t) pc + holds (wk_holds t) pc'.
Proof. intros Hc. unfold placed. cbn. rewrite (number_insert _ _ _ _ _ Hc). lia. Qed.

Lemma placed_set_rq s c q q' t : rqs s !! c = Some q -> placed (set_rq s c q') t = placed s t - occ t q + occ t q'.
Proof. intros Hc. unfold placed. cbn. rewrite (tally_insert _ _ _ _ _ Hc). lia. Qed.

(** The places of a task agree with its word. *)
Definition wk_word s (pc : waker_pc) : Prop :=
  match pc with
  | WLock t false c | WCheck t false c | WPush t c => words s !! t = Some (Z.of_nat c) /\ (c < length (cpus s))%nat
  | WLock t true c | WCheck t true c => (t < length (words s))%nat /\ (c < length (cpus s))%nat
  | WSelect t _ => (t < length (words s))%nat
  | WSwap _ | WIdle => True
  end.

Record inv_places s : Prop := {
  ip_lens : length (rqs s) = length (cpus s) /\ length (locked s) = length (cpus s);
  ip_cpus : (0 < length (cpus s))%nat /\ Z.of_nat (length (cpus s)) < NONE;
  ip_words : forall t v, words s !! t = Some v -> inv_value (length (cpus s)) v;
  ip_places : forall t, placed s t = on_cpu s t;
  ip_rq : forall c q t, rqs s !! c = Some q -> 0 < occ t q -> words s !! t = Some (Z.of_nat c);
  ip_wk : forall i pc, wakers s !! i = Some pc -> wk_word s pc;
  ip_cp : forall c (w : option nat) t b, cpus s !! c = Some (CClear w t b) -> words s !! t = Some (Z.of_nat c);
}.

Lemma placed_zero s t : placed s t = 0 ->
  (forall c q, rqs s !! c = Some q -> occ t q = 0) /\ (forall i pc, wakers s !! i = Some pc -> wk_holds t pc = false) /\
  (forall c pc, cpus s !! c = Some pc -> cp_holds t pc = false).
Proof.
  unfold placed. intros Hz. pose proof (number_nonneg (wk_holds t) (wakers s)). pose proof (number_nonneg (cp_holds t) (cpus s)).
  assert (0 <= tally (occ t) (rqs s)).
  { destruct (rqs s) as [|q l] eqn:Hr; [done|]. pose proof (tally_at (occ t) (q :: l) 0 q (occ_nonneg t) eq_refl). pose proof (occ_nonneg t q). lia. }
  split_and!.
  - intros c q Hq. pose proof (tally_at _ _ _ _ (occ_nonneg t) Hq). pose proof (occ_nonneg t q). lia.
  - intros i pc Hi. destruct (wk_holds t pc) eqn:Hh; [|done]. pose proof (number_one _ _ _ _ Hi Hh). lia.
  - intros c pc Hc. destruct (cp_holds t pc) eqn:Hh; [|done]. pose proof (number_one _ _ _ _ Hc Hh). lia.
Qed.

(** A new value for the word of a task that has no place. *)
Lemma set_word_other s t v t' : t' <> t -> words (set_word s t v) !! t' = words s !! t'.
Proof. intros Hne. cbn. by apply list_lookup_insert_ne. Qed.

Lemma set_word_same s t v v0 : words s !! t = Some v0 -> words (set_word s t v) !! t = Some v.
Proof. intros Ht%lookup_lt_Some. cbn. by apply list_lookup_insert_eq. Qed.

Lemma on_cpu_set s t v v0 t' : words s !! t = Some v0 ->
  on_cpu (set_word s t v) t' = if decide (t' = t) then (if v =? NONE then 0 else 1) else on_cpu s t'.
Proof.
  intros Ht. unfold on_cpu. case_decide as Hd; [subst|by rewrite set_word_other].
  by rewrite (set_word_same _ _ _ _ Ht).
Qed.

Lemma lookup_insert_case {A} (l : list A) i j x y : <[i := x]> l !! j = Some y -> (j = i /\ y = x) \/ (j <> i /\ l !! j = Some y).
Proof.
  intros [(<- & -> & _)|(Hne & Hj)]%list_lookup_insert_Some; [by left|]. right. split; [congruence|done].
Qed.

(** The word of a task [t] without a place changes to [v]. *)
Lemma words_changed s t v0 v s' : inv_places s -> words s !! t = Some v0 -> inv_value (length (cpus s)) v ->
  words s' = words (set_word s t v) -> length (cpus s') = length (cpus s) -> length (rqs s') = length (cpus s) -> length (locked s') = length (cpus s) ->
  (forall t', t' <> t -> placed s' t' = placed s t') -> placed s' t = (if v =? NONE then 0 else 1) ->
  (forall c q t', rqs s' !! c = Some q -> 0 < occ t' q -> t' <> t /\ exists q0, rqs s !! c = Some q0 /\ 0 < occ t' q0) ->
  (forall i pc, wakers s' !! i = Some pc -> wk_word s' pc) ->
  (forall c (w : option nat) t' b, cpus s' !! c = Some (CClear w t' b) -> t' <> t /\ cpus s !! c = Some (CClear w t' b)) ->
  inv_places s'.
Proof.
  intros [Hlen Hcp Hwd Hpl Hrq Hwk Hcc] Ht Hv Hw Hlc Hlr Hll Hpo Hps Hrq' Hwk' Hcc'.
  assert (forall t', t' <> t -> words s' !! t' = words s !! t') as Hoth by (intros t' Hne; rewrite Hw; by apply set_word_other).
  assert (words s' !! t = Some v) as Hsame by (rewrite Hw; by eapply set_word_same).
  split; rewrite ?Hlc; try done.
  - intros t' v' Hv'. destruct (decide (t' = t)) as [->|Hne]; [congruence|]. rewrite Hoth in Hv' by done. by apply (Hwd t').
  - intros t'. unfold on_cpu. destruct (decide (t' = t)) as [->|Hne]; [by rewrite Hsame|]. rewrite Hoth, Hpo by done. apply Hpl.
  - intros c q t' Hq Ho. destruct (Hrq' c q t' Hq Ho) as (Hne & q0 & Hq0 & Ho0). rewrite Hoth by done. by eapply Hrq.
  - intros c w t' b Hc. destruct (Hcc' c w t' b Hc) as [Hne Hc0]. rewrite Hoth by done. by eapply Hcc.
Qed.

(** Nothing is written to a word. *)
Lemma words_kept s s' : inv_places s -> words s' = words s -> length (cpus s') = length (cpus s) -> length (rqs s') = length (cpus s) ->
  length (locked s') = length (cpus s) -> (forall t, placed s' t = placed s t) ->
  (forall c q t, rqs s' !! c = Some q -> 0 < occ t q -> words s !! t = Some (Z.of_nat c)) ->
  (forall i pc, wakers s' !! i = Some pc -> wk_word s' pc) ->
  (forall c (w : option nat) t b, cpus s' !! c = Some (CClear w t b) -> words s !! t = Some (Z.of_nat c)) -> inv_places s'.
Proof.
  intros [Hlen Hcp Hwd Hpl Hrq Hwk Hcc] Hw Hlc Hlr Hll Hp Hrq' Hwk' Hcc'. split; rewrite ?Hlc, ?Hw; try done.
  intros t. rewrite Hp. unfold on_cpu. rewrite Hw. apply Hpl.
Qed.

Lemma wk_word_same s s' pc : words s' = words s -> length (cpus s') = length (cpus s) -> wk_word s pc -> wk_word s' pc.
Proof. intros Hw Hc. unfold wk_word. rewrite Hw, Hc. done. Qed.

Lemma wk_word_set s s' t v pc : words s' = words (set_word s t v) -> length (cpus s') = length (cpus s) -> wk_holds t pc = false ->
  wk_word s pc -> wk_word s' pc.
Proof.
  intros Hw Hc. unfold wk_word, wk_holds. rewrite Hw, Hc. cbn. rewrite length_insert.
  destruct pc as [| |t' fl|t' [] c|t' [] c|t' c]; intros Ht; try done; apply Nat.eqb_neq in Ht; by rewrite list_lookup_insert_ne.
Qed.

(** Solves the side conditions of the steps: lengths, and places that stay. *)
Ltac sched_lens := cbn; rewrite ?length_insert; tauto.

Lemma cpu_move_places s c q pc s' : inv_places s -> cpus s !! c = Some pc -> rqs s !! c = Some q -> cpu_move s c q pc s' -> inv_places s'.
Proof.
  intros Hinv Hc Hq Hmove. pose proof Hinv as [[Hlr Hll] Hcp Hwd Hpl Hrq Hwk Hcc]. destruct Hmove as [op Hl|pc w cur r Hcr Hocc Hnt|w Hw| |w cur should Hcur _|w cur should v Hv].
  - apply (words_kept s); try done; try sched_lens.
    + intros t. rewrite (placed_set_cpu _ _ (CLock op)) by done. unfold holds. cbn. unfold placed. cbn. lia.
    + intros i pc Hi. eapply wk_word_same; [..|by apply (Hwk i)]; sched_lens.
    + intros c' w t b [[_ ?]|[_ Hc']]%lookup_insert_case; [done|by eapply Hcc].
  - apply (words_kept s); try done; try sched_lens.
    + intros t. unfold finish. rewrite (placed_set_cpu _ _ pc) by done.
      transitivity (placed (set_rq s c (snd r)) t); [|rewrite (placed_set_rq _ _ _ _ _ Hq), Hocc; lia].
      assert (cp_holds t pc = false) as Hh by (by destruct pc). unfold holds. rewrite Hh. destruct (fst r); cbn; unfold placed; cbn; lia.
    + intros c' q' t [[-> ->]|[_ Hq']]%lookup_insert_case Ho; [rewrite Hocc in Ho; by eapply Hrq|by eapply Hrq].
    + intros i pc' Hi. eapply wk_word_same; [..|by apply (Hwk i)]; sched_lens.
    + intros c' w' t b [[_ Heq]|[_ Hc']]%lookup_insert_case; [by destruct (fst r)|by eapply Hcc].
  - apply (words_kept s); try done; try sched_lens.
    + intros t. rewrite (placed_set_cpu _ _ (CIn (OpPark w))) by done. unfold holds. cbn. lia.
    + intros i pc Hi. eapply wk_word_same; [..|by apply (Hwk i)]; sched_lens.
    + intros c' w' t b [[_ ?]|[_ Hc']]%lookup_insert_case; [done|by eapply Hcc].
  - apply (words_kept s); try done; try sched_lens.
    + intros t. rewrite (placed_set_cpu _ _ (CIn OpExit)) by done. unfold holds. cbn. lia.
    + intros i pc Hi. eapply wk_word_same; [..|by apply (Hwk i)]; sched_lens.
    + intros c' w' t b [[_ ?]|[_ Hc']]%lookup_insert_case; [done|by eapply Hcc].
  - assert (forall t, occ t q = occ t (mk_rq None (queue q)) + holds (cp_holds t) (CClear w cur should)) as Hsplit.
    { intros t. unfold occ, holds. rewrite Hcur. cbn. destruct (Nat.eqb_spec t cur); repeat case_decide; try lia; congruence. }
    apply (words_kept s); try done; try sched_lens.
    + intros t. rewrite (placed_set_cpu _ _ (CTake w)), (placed_set_rq _ _ _ _ _ Hq) by done. rewrite Hsplit. unfold holds at 2. cbn [cp_holds]. lia.
    + intros c' q' t [[-> ->]|[_ Hq']]%lookup_insert_case Ho; [|by eapply Hrq].
      apply (Hrq c q); [done|]. rewrite Hsplit. unfold holds. destruct (cp_holds _ _); lia.
    + intros i pc Hi. eapply wk_word_same; [..|by apply (Hwk i)]; sched_lens.
    + intros c' w' t b [[-> [= -> -> ->]]|[_ Hc']]%lookup_insert_case; [|by eapply Hcc].
      apply (Hrq c q); [done|]. unfold occ. rewrite decide_True by done. pose proof (number_nonneg (Nat.eqb cur) (queue q)). lia.
  - assert (placed (set_cpu s c (CPick w cur should)) cur = 0) as Hz.
    { rewrite (placed_set_cpu _ _ _ _ _ Hc), Hpl. unfold on_cpu. rewrite (Hcc _ _ _ _ Hc). unfold holds. cbn [cp_holds]. rewrite Nat.eqb_refl.
      apply lookup_lt_Some in Hc. by rewrite (proj2 (Z.eqb_neq (Z.of_nat c) NONE)) by lia. }
    destruct (placed_zero _ _ Hz) as (Hzr & Hzw & Hzc). cbn in Hzr, Hzw, Hzc.
    apply (words_changed s cur v NONE); try done; try sched_lens; [by left| | | |].
    + intros t' Hne. unfold placed. cbn. rewrite (number_insert _ _ _ _ _ Hc). unfold holds. cbn [cp_holds].
      rewrite (proj2 (Nat.eqb_neq t' cur)) by done. lia.
    + intros c' q' t' Hq' Ho. split; [|by exists q']. intros ->. rewrite (Hzr c' q') in Ho by done. lia.
    + intros i pc Hi. eapply wk_word_set; [| |by apply (Hzw i)|by apply (Hwk i)]; sched_lens.
    + intros c' w' t' b Hc'. cbn in Hc'. pose proof (Hzc _ _ Hc') as Hne. apply Nat.eqb_neq in Hne. split; [congruence|].
      apply lookup_insert_case in Hc' as [[_ ?]|[_ ?]]; done.
Qed.

(** A waker goes on without a change to words and run queues. *)
Lemma waker_kept s s1 i pc pc' : inv_places s -> wakers s !! i = Some pc -> (forall t, wk_holds t pc' = wk_holds t pc) -> wk_word s pc' ->
  words s1 = words s -> rqs s1 = rqs s -> cpus s1 = cpus s -> wakers s1 = wakers s -> length (locked s1) = length (locked s) ->
  inv_places (set_waker s1 i pc').
Proof.
  intros Hinv Hi Hh Hok Hw Hr Hc Hwk Hll. pose proof Hinv as [Hlen _ _ _ Hrq Hwks Hcc]. apply (words_kept s); cbn; rewrite ?Hw, ?Hr, ?Hc, ?Hwk; try done; try lia.
  - intros t. unfold placed. cbn. rewrite Hr, Hc, Hwk, (number_insert _ _ _ _ _ Hi). unfold holds. rewrite Hh. lia.
  - intros j pc'' Hj. eapply (wk_word_same s); cbn; [done|by rewrite Hc|]. apply lookup_insert_case in Hj as [[_ ->]|[_ Hj]]; [done|by apply (Hwks j)].
Qed.

(** A waker takes a task without a place, and writes its word. *)
Lemma waker_takes s i pc pc' t c : inv_places s -> wakers s !! i = Some pc -> words s !! t = Some NONE -> (c < length (cpus s))%nat ->
  (forall t', wk_holds t' pc = false) -> (forall t', wk_holds t' pc' = (t' =? t)%nat) ->
  (forall s', words s' !! t = Some (Z.of_nat c) -> length (cpus s') = length (cpus s) -> wk_word s' pc') ->
  inv_places (set_waker (set_word s t (Z.of_nat c)) i pc').
Proof.
  intros Hinv Hi Ht Hc Hh Hh' Hok. pose proof Hinv as [[Hlr Hll] Hcp Hwd Hpl Hrq Hwk Hcc].
  assert (placed s t = 0) as Hz by (rewrite Hpl; unfold on_cpu; by rewrite Ht, Z.eqb_refl).
  destruct (placed_zero _ _ Hz) as (Hzr & Hzw & Hzc).
  assert (forall t', placed (set_waker (set_word s t (Z.of_nat c)) i pc') t' = placed s t' + if (t' =? t)%nat then 1 else 0) as Hp.
  { intros t'. rewrite (placed_set_waker _ _ pc) by done. unfold holds. rewrite Hh, Hh'. unfold placed. cbn. lia. }
  apply (words_changed s t NONE (Z.of_nat c)); try done; try sched_lens; [right; lia| | | | |].
  - intros t' Hne. rewrite Hp, (proj2 (Nat.eqb_neq t' t)) by done. lia.
  - rewrite Hp, Nat.eqb_refl, Hz. by rewrite (proj2 (Z.eqb_neq (Z.of_nat c) NONE)) by lia.
  - intros c' q t' Hq Ho. split; [|by exists q]. intros ->. rewrite (Hzr c' q) in Ho by done. lia.
  - intros j pc'' Hj. apply lookup_insert_case in Hj as [[_ ->]|[_ Hj]].
    + apply Hok; [|done]. cbn. apply list_lookup_insert_eq. by eapply lookup_lt_Some.
    + eapply (wk_word_set s); [| |by apply (Hzw j)|by apply (Hwk j)]; done.
  - intros c' w t' b Hc'. split; [|done]. pose proof (Hzc _ _ Hc') as Hne. apply Nat.eqb_neq in Hne. congruence.
Qed.

Lemma waker_move_places s i pc s' : inv_places s -> wakers s !! i = Some pc -> (forall w, pc = WSwap w -> (task_of w < length (words s))%nat) ->
  waker_move s i pc s' -> inv_places s'.
Proof.
  intros Hinv Hi Hsw Hmove. pose proof Hinv as [[Hlr Hll] Hcp Hwd Hpl Hrq Hwk Hcc]. pose proof (Hwk _ _ Hi) as Hok.
  destruct Hmove as [w|t v Hv Hne Hlt|t flags Ht|t still target Hl|t target v Hv Hne|t target Ht|t target|t target q Hq].
  - eapply (waker_kept s); try done; cbn; case_decide; try done. by apply Hsw.
  - eapply (waker_kept s); try done. destruct (Hwd _ _ Hv) as [|[Hlo _]]; [done|]. split; [done|lia].
  - eapply (waker_takes s); try done; [unfold select_cpu; lia|]. intros s1 ? Hlc. split; [done|]. rewrite Hlc. apply Hcp.
  - eapply (waker_kept s); try done; cbn; by rewrite length_insert || destruct still.
  - eapply (waker_kept s); try done; cbn; by rewrite length_insert.
  - destruct Hok as [Hlt Htg]. eapply (waker_takes s); try done. intros s1 ? Hlc. split; [done|lia].
  - by eapply (waker_kept s).
  - destruct Hok as [Hwt Htg]. assert (forall t', occ t' (mk_rq (current q) (queue q ++ [t])) = occ t' q + holds (wk_holds t') (WPush t target)) as Ho.
    { intros t'. unfold occ. cbn [current queue]. rewrite number_snoc. unfold holds. cbn. lia. }
    apply (words_kept s); try done; try sched_lens.
    + intros t'. rewrite (placed_set_waker _ _ (WPush t target)) by done.
      transitivity (placed (set_rq s target (mk_rq (current q) (queue q ++ [t]))) t' - holds (wk_holds t') (WPush t target)); [unfold placed; cbn; lia|].
      rewrite (placed_set_rq _ _ _ _ _ Hq), Ho. lia.
    + intros c' q' t' [[-> ->]|[_ Hq']]%lookup_insert_case Hoc; [|by eapply Hrq]. rewrite Ho in Hoc. unfold holds in Hoc. cbn in Hoc.
      destruct (Nat.eqb_spec t' t) as [Heq|]; [by rewrite Heq|]. apply (Hrq target q); [done|lia].
    + intros j pc Hj. eapply (wk_word_same s); [sched_lens..|]. apply lookup_insert_case in Hj as [[_ ->]|[_ Hj]]; [done|by apply (Hwk j)].
Qed.

(** ** The locks *)

Definition crit_wk c (pc : waker_pc) : bool := match pc with WCheck _ _ c' | WPush _ c' => (c =? c')%nat | _ => false end.

Definition crit_at s c : Z := match cpus s !! c with Some pc => holds crit_cpu pc | None => 0 end.

Definition inv_lock s : Prop :=
  forall c b, locked s !! c = Some b -> number (crit_wk c) (wakers s) + crit_at s c = if b : bool then 1 else 0.

Lemma crit_at_set s s' c pc c' : cpus s' = <[c := pc]> (cpus s) -> (c < length (cpus s))%nat ->
  crit_at s' c' = if decide (c' = c) then holds crit_cpu pc else crit_at s c'.
Proof.
  intros Hc Hlt. unfold crit_at. rewrite Hc. case_decide as Hd; [subst; by rewrite list_lookup_insert_eq|by rewrite list_lookup_insert_ne].
Qed.

Lemma cpu_move_lock s c q pc s' : inv_lock s -> is_Some (locked s !! c) -> cpus s !! c = Some pc -> cpu_move s c q pc s' -> inv_lock s'.
Proof.
  intros Hinv [b0 Hb0] Hc Hmove. pose proof (lookup_lt_Some _ _ _ Hc) as Hlt.
  assert (crit_at s c = holds crit_cpu pc) as Hat by (unfold crit_at; by rewrite Hc).
  assert (forall pc', crit_cpu pc' = crit_cpu pc -> forall s', cpus s' = <[c := pc']> (cpus s) -> locked s' = locked s -> wakers s' = wakers s -> inv_lock s') as Hsame.
  { intros pc' Hcr s1 Hc1 Hl1 Hw1 c' b Hb. rewrite Hl1 in Hb. rewrite Hw1, (crit_at_set _ _ _ _ _ Hc1 Hlt), <- (Hinv c' b Hb).
    case_decide as Hd; [subst|lia]. rewrite Hat. unfold holds. rewrite Hcr. lia. }
  destruct Hmove as [op Hl|pc w cur r Hcr Hocc Hnt|w Hw| |w cur should Hcur _|w cur should v Hv]; try (eapply Hsame; [|reflexivity|reflexivity|reflexivity]; reflexivity).
  - intros c' b Hb. rewrite (crit_at_set s _ c (CIn op)) by done. cbn in Hb |- *. apply lookup_insert_case in Hb as [[-> ->]|[Hne Hb]].
    + rewrite decide_True by done. pose proof (Hinv c false Hl) as Hz. rewrite Hat in Hz. cbn in Hz |- *. lia.
    + rewrite decide_False by done. by apply Hinv.
  - intros c' b Hb. rewrite (crit_at_set s _ c (match fst r with Retry => CLock (OpRetry w cur) | _ => CRun end)) by done. cbn in Hb |- *.
    apply lookup_insert_case in Hb as [[-> ->]|[Hne Hb]].
    + rewrite decide_True by done. pose proof (Hinv c b0 Hb0) as Hz. rewrite Hat in Hz. unfold holds in Hz. rewrite Hcr in Hz.
      pose proof (number_nonneg (crit_wk c) (wakers s)). unfold holds. destruct b0, (fst r); cbn; lia.
    + rewrite decide_False by done. by apply Hinv.
Qed.

Lemma waker_move_lock s i pc s' : inv_lock s -> wakers s !! i = Some pc -> (forall t b c, pc = WCheck t b c -> is_Some (locked s !! c)) ->
  (forall t c, pc = WPush t c -> is_Some (locked s !! c)) -> waker_move s i pc s' -> inv_lock s'.
Proof.
  intros Hinv Hi Hck Hpu Hmove.
  assert (forall pc', (forall c, crit_wk c pc' = crit_wk c pc) -> forall s', wakers s' = <[i := pc']> (wakers s) -> locked s' = locked s -> cpus s' = cpus s -> inv_lock s') as Hsame.
  { intros pc' Hcr s1 Hw1 Hl1 Hc1 c b Hb. rewrite Hl1 in Hb. specialize (Hinv c b Hb). unfold crit_at in *. rewrite Hw1, Hc1, (number_insert _ _ _ _ _ Hi), <- Hinv.
    assert (holds (crit_wk c) pc' = holds (crit_wk c) pc) as -> by (unfold holds; by rewrite Hcr). lia. }
  assert (forall c, pc <> WIdle -> crit_wk c pc = true -> is_Some (locked s !! c) -> forall s', wakers s' = <[i := WIdle]> (wakers s) -> locked s' = <[c := false]> (locked s) ->
    cpus s' = cpus s -> (forall c', crit_wk c' pc = (c' =? c)%nat) -> inv_lock s') as Hrel.
  { intros c _ Hcr [b0 Hb0] s1 Hw1 Hl1 Hc1 Hcr' c' b Hb. rewrite Hl1 in Hb. unfold crit_at. rewrite Hw1, Hc1, (number_insert _ _ _ _ _ Hi).
    fold (crit_at s c'). unfold holds. rewrite Hcr'. cbn. apply lookup_insert_case in Hb as [[-> ->]|[Hne Hb]].
    - rewrite Nat.eqb_refl. pose proof (Hinv c b0 Hb0) as Hz. pose proof (number_one _ _ _ _ Hi Hcr).
      assert (0 <= crit_at s c) by (unfold crit_at, holds; destruct (cpus s !! c) as [p|]; [destruct (crit_cpu p)|]; lia). destruct b0; lia.
    - rewrite (proj2 (Nat.eqb_neq c' c)) by done. rewrite <- (Hinv c' b Hb). lia. }
  destruct Hmove as [w|t v Hv Hne Hlt|t flags Ht|t still target Hl|t target v Hv Hne|t target Ht|t target|t target q Hq]; try (eapply Hsame; [|reflexivity|reflexivity|reflexivity]; reflexivity).
  - eapply Hsame; [|reflexivity|reflexivity|reflexivity]. intros c. by case_decide.
  - intros c b Hb. cbn in Hb |- *. rewrite (number_insert _ _ _ _ _ Hi). unfold crit_at. cbn. fold (crit_at s c). unfold holds. cbn.
    apply lookup_insert_case in Hb as [[-> ->]|[Hne Hb]].
    + rewrite Nat.eqb_refl. pose proof (Hinv target false Hl) as Hz. cbn in Hz. lia.
    + rewrite (proj2 (Nat.eqb_neq c target)) by done. rewrite <- (Hinv c b Hb). lia.
  - eapply (Hrel target); try done; [by cbn; rewrite Nat.eqb_refl|by eapply Hck].
  - eapply (Hrel target); try done; [by cbn; rewrite Nat.eqb_refl|by eapply Hpu].
Qed.

(** ** The CPU and its run queue *)

Definition cp_local q (pc : cpu_pc) : Prop :=
  match pc with
  | CLock (OpPark w) | CIn (OpPark w) | CTake (Some w) => current q = Some (task_of w)
  | CLock OpExit | CIn OpExit | CTake None => is_Some (current q)
  | CClear w t b => (b = true -> queue q <> []) /\ forall w', w = Some w' -> t = task_of w'
  | CPick _ _ b => b = true -> queue q <> []
  | _ => True
  end.

Definition inv_local s : Prop := forall c pc q, cpus s !! c = Some pc -> rqs s !! c = Some q -> cp_local q pc.

Lemma cpu_move_local s c q pc s' : inv_local s -> cpus s !! c = Some pc -> rqs s !! c = Some q -> cpu_move s c q pc s' -> inv_local s'.
Proof.
  intros Hinv Hc Hq Hmove. pose proof (Hinv _ _ _ Hc Hq) as Hok.
  assert (forall q' pc' s1, cp_local q' pc' -> rqs s1 = <[c := q']> (rqs s) \/ (rqs s1 = rqs s /\ q' = q) -> cpus s1 = <[c := pc']> (cpus s) -> inv_local s1) as Hset.
  { intros q' pc' s1 Hl Hr Hcs c1 pc1 q1 Hc1 Hq1. rewrite Hcs in Hc1. apply lookup_insert_case in Hc1 as [[-> ->]|[Hne Hc1]].
    - destruct Hr as [Hr|[Hr ->]]; rewrite Hr in Hq1; [|congruence]. rewrite list_lookup_insert_eq in Hq1 by (by eapply lookup_lt_Some). congruence.
    - apply (Hinv c1); [done|]. destruct Hr as [Hr|[Hr _]]; rewrite Hr in Hq1; [by rewrite list_lookup_insert_ne in Hq1|done]. }
  destruct Hmove as [op Hl|pc w cur r Hcr Hocc Hnt|w Hw| |w cur should Hcur Hsh|w cur should v Hv].
  - eapply (Hset q); [|by right|done]. done.
  - eapply (Hset (snd r)); [|by left|done]. by destruct (fst r).
  - eapply (Hset q); [|by right|done]. done.
  - eapply (Hset q); [|by right|done]. done.
  - eapply (Hset (mk_rq None (queue q))); [|by left|done]. split; [done|]. intros w' ->. cbn in Hok. congruence.
  - eapply (Hset q); [|right; split; done|done]. exact (proj1 Hok).
Qed.

Lemma push_local q pc t : cp_local q pc -> cp_local (mk_rq (current q) (queue q ++ [t])) pc.
Proof.
  destruct pc as [|[]|[]|[]|w t' b|w t' b]; try done; cbn.
  - intros [_ Hw]. split; [|done]. intros _. by destruct (queue q).
  - intros _ _. by destruct (queue q).
Qed.

Lemma waker_move_local s i pc s' : inv_local s -> waker_move s i pc s' -> inv_local s'.
Proof.
  intros Hinv Hmove. destruct Hmove as [| | | | | | |t target q Hq]; try exact Hinv.
  intros c1 pc1 q1 Hc1 Hq1. cbn in Hc1, Hq1. apply lookup_insert_case in Hq1 as [[-> ->]|[_ Hq1]]; [|by apply (Hinv c1)]. by apply push_local, (Hinv target).
Qed.

(** ** New tasks and wakers *)

Definition refs t (pc : waker_pc) : bool :=
  match pc with WIdle => false | WSwap w => (t =? task_of w)%nat | WSelect t' _ | WLock t' _ _ | WCheck t' _ _ | WPush t' _ => (t =? t')%nat end.

Record inv_fresh s : Prop := {
  if_made : forall w, w ∈ made s -> (task_of w < length (words s))%nat;
  if_swap : forall i w, wakers s !! i = Some (WSwap w) -> w ∈ made s;
  if_fresh : forall i t, wakers s !! i = Some (WSelect t Spawn) ->
    words s !! t = Some NONE /\ number (refs t) (wakers s) = 1 /\ forall w, w ∈ made s -> task_of w <> t;
}.

Lemma cpu_move_fresh s c q pc s' : inv_places s -> inv_fresh s -> cpus s !! c = Some pc -> cpu_move s c q pc s' -> inv_fresh s'.
Proof.
  intros Hp [Hm Hs Hf] Hc Hmove. destruct Hmove as [| | | | |w cur should v Hv]; try (by split).
  pose proof (ip_cp _ Hp _ _ _ _ Hc) as Hw. destruct (ip_cpus _ Hp) as [_ Hn]. apply lookup_lt_Some in Hc. split; cbn; rewrite ?length_insert; try done.
  intros i t Hi. destruct (Hf i t Hi) as (Ht & Hr). split; [|done]. rewrite list_lookup_insert_ne; [done|]. intros ->. rewrite Hw in Ht. injection Ht as Ht. lia.
Qed.

(** The new state of a waker refers to the task of the old one. *)
Definition waker_word s i pc s' : Prop :=
  exists pc', wakers s' = <[i := pc']> (wakers s) /\ made s' = made s /\ (forall t, refs t pc' = true -> refs t pc = true) /\
    (forall t, pc' <> WSelect t Spawn) /\ (forall w, pc' <> WSwap w) /\ length (words s') = length (words s) /\
    forall t, refs t pc = false -> words s' !! t = words s !! t.

Lemma waker_move_word s i pc s' : waker_move s i pc s' -> waker_word s i pc s'.
Proof.
  destruct 1 as [w|t v Hv Hne Hlt|t flags Ht|t still target Hl|t target v Hv Hne|t target Ht|t target|t target q Hq]; eexists;
    (split; [reflexivity|]); cbn; rewrite ?length_insert; split_and!; try done; try (intros; by case_decide);
    intros t' Ht'%Nat.eqb_neq; by rewrite list_lookup_insert_ne.
Qed.

Lemma waker_move_fresh s i pc s' : inv_fresh s -> wakers s !! i = Some pc -> waker_move s i pc s' -> inv_fresh s'.
Proof.
  intros [Hm Hs Hf] Hi (pc' & Hw & Hma & Hre & Hns & Hnw & Hlen & Hwd)%waker_move_word. split; rewrite ?Hma, ?Hlen, ?Hw; [done| |].
  - intros j w [[_ <-]|[_ Hj]]%lookup_insert_case; [by destruct (Hnw w)|by eapply Hs].
  - intros j t [[_ Heq]|[Hne Hj]]%lookup_insert_case; [by destruct (Hns t)|]. destruct (Hf j t Hj) as (Ht & Hone & Hmd).
    assert (refs t pc = false) as Hnr.
    { destruct (refs t pc) eqn:Hr; [|done]. pose proof (number_two (refs t) _ j i _ _ Hne Hj Hi) as Htwo. unfold holds in Htwo.
      rewrite Hr in Htwo. cbn in Htwo. rewrite Nat.eqb_refl in Htwo. lia. }
    split_and!; [by rewrite Hwd| |done]. rewrite (number_insert _ _ _ _ _ Hi). unfold holds. rewrite Hnr.
    destruct (refs t pc') eqn:Hr; [|lia]. apply Hre in Hr. congruence.
Qed.

(** ** Wake-ups *)

(** A waker that is going to enqueue the task, and one that has not been at the lock of the run queue of [c] yet. *)
Definition brings t (pc : waker_pc) : Prop :=
  match pc with WSelect t' _ | WLock t' true _ | WCheck t' true _ => t' = t | _ => False end.
Definition brings_to t c (pc : waker_pc) : Prop :=
  match pc with WSelect t' _ => t' = t | WLock t' true c' => t' = t /\ c' = c | _ => False end.

Definition coming s (P : waker_pc -> Prop) : Prop := exists i pc, wakers s !! i = Some pc /\ P pc.

(** The waker that a CPU has found unset, between the test and the end of dequeuing. *)
Definition parking (pc : cpu_pc) : option nat := match pc with CTake w | CClear w _ _ => w | _ => None end.

Record inv_wake s : Prop := {
  iw_task : forall t w, parked s !! t = Some w -> task_of w = t;
  iw_parking : forall c pc w, cpus s !! c = Some pc -> parking pc = Some w -> w ∈ woken s -> coming s (brings_to (task_of w) c);
  iw_parked : forall t w, parked s !! t = Some w -> w ∈ woken s -> (exists v, words s !! t = Some v /\ v <> NONE) \/ coming s (brings t);
}.

(** The word of a task that is being parked names the CPU. *)
Lemma parking_word s c pc w : inv_places s -> inv_local s -> cpus s !! c = Some pc -> parking pc = Some w ->
  words s !! task_of w = Some (Z.of_nat c) /\ Z.of_nat c <> NONE.
Proof.
  intros Hp Hl Hc Hw. destruct (ip_lens _ Hp) as [Hlr _]. destruct (ip_cpus _ Hp) as [_ Hn]. pose proof (lookup_lt_Some _ _ _ Hc) as Hlt.
  split; [|lia]. destruct (lookup_lt_is_Some_2 (rqs s) c) as [q Hq]; [lia|]. pose proof (Hl _ _ _ Hc Hq) as Hok.
  destruct pc as [| | |w'|w' t b|]; try done; cbn in Hw; subst w'.
  - cbn in Hok. apply (ip_rq _ Hp c q); [done|]. unfold occ. rewrite decide_True by done. pose proof (number_nonneg (Nat.eqb (task_of w)) (queue q)). lia.
  - destruct Hok as [_ Ht]. rewrite <- (Ht w eq_refl). by apply (ip_cp _ Hp c (Some w) t b).
Qed.

Lemma coming_other s i pc pc' P : wakers s !! i = Some pc -> ~ P pc -> coming s P -> forall s', wakers s' = <[i := pc']> (wakers s) -> coming s' P.
Proof.
  intros Hi Hn (j & pcj & Hj & HP) s' Hw. exists j, pcj. rewrite Hw. split; [|done]. rewrite list_lookup_insert_ne; [done|]. intros ->. congruence.
Qed.

Lemma coming_self s i pc pc' P : wakers s !! i = Some pc -> P pc' -> forall s', wakers s' = <[i := pc']> (wakers s) -> coming s' P.
Proof. intros Hi HP s' Hw. exists i, pc'. rewrite Hw. split; [|done]. apply list_lookup_insert_eq. by eapply lookup_lt_Some. Qed.

Lemma cpu_move_wake s c q pc s' : inv_places s -> inv_local s -> inv_wake s -> cpus s !! c = Some pc -> rqs s !! c = Some q -> cpu_move s c q pc s' -> inv_wake s'.
Proof.
  intros Hp Hlo [Ht Hk Hj] Hc Hq Hmove.
  assert (forall pc' s1, cpus s1 = <[c := pc']> (cpus s) -> wakers s1 = wakers s -> woken s1 = woken s ->
    (forall w, parking pc' = Some w -> w ∈ woken s -> parking pc = Some w) ->
    forall c' pc1 w, cpus s1 !! c' = Some pc1 -> parking pc1 = Some w -> w ∈ woken s1 -> coming s1 (brings_to (task_of w) c')) as Hpark.
  { intros pc' s1 Hcs Hws Hwo Hpk c' pc1 w Hc1 Hpw Hw. rewrite Hwo in Hw. rewrite Hcs in Hc1. unfold coming. rewrite Hws.
    apply lookup_insert_case in Hc1 as [[-> ->]|[_ Hc1]]; [by apply (Hk c pc); [|apply Hpk|]|by apply (Hk c' pc1)]. }
  destruct Hmove as [op Hl|pc w cur r Hcr Hocc Hnt|w Hw| |w cur should Hcur Hsh|w cur should v Hv].
  - split; [done| |done]. by eapply Hpark.
  - split; [done| |done]. eapply Hpark; [reflexivity..|]. by destruct (fst r).
  - split; [done| |done]. eapply Hpark; [reflexivity..|]. by intros w' [= <-].
  - split; [done| |done]. by eapply Hpark.
  - split; [done| |done]. eapply Hpark; [reflexivity..|]. by intros w' [= ->].
  - destruct (Hlo _ _ _ Hc Hq) as [_ Htask]. split.
    + intros t w' Hpk. cbn in Hpk. destruct w as [w|]; [|by apply lookup_delete_Some in Hpk as [_ ?]; apply Ht].
      apply lookup_insert_Some in Hpk as [[<- <-]|[_ ?]]; [by rewrite (Htask w eq_refl)|by apply Ht].
    + eapply Hpark; [reflexivity..|]. done.
    + intros t w' Hpk Hw'. cbn in Hpk, Hw' |- *. destruct (decide (t = cur)) as [->|Hne].
      * right. destruct w as [w|]; [|by rewrite lookup_delete_eq in Hpk]. rewrite lookup_insert_eq in Hpk. injection Hpk as ->.
        destruct (Hk c _ w' Hc eq_refl Hw') as (i & pci & Hi & Hb). exists i, pci. split; [done|]. rewrite <- (Htask w' eq_refl) in Hb.
        destruct pci as [| | |t' []| |]; try done. by destruct Hb as [-> _].
      * rewrite list_lookup_insert_ne by done. apply (Hj t w'); [|done].
        destruct w as [w|]; [by rewrite lookup_insert_ne in Hpk by congruence|by rewrite lookup_delete_ne in Hpk by congruence].
Qed.

(** A waker that comes for the task of a parking CPU still comes after its step. *)
Lemma waker_move_parking s i pc s' c pc0 w : inv_places s -> inv_local s -> inv_lock s -> wakers s !! i = Some pc ->
  waker_move s i pc s' -> cpus s !! c = Some pc0 -> parking pc0 = Some w -> coming s (brings_to (task_of w) c) -> coming s' (brings_to (task_of w) c).
Proof.
  intros Hp Hlo Hlk Hi Hmove Hc Hw Hcome. destruct (parking_word _ _ _ _ Hp Hlo Hc Hw) as [Hword Hnn].
  destruct Hmove as [w0|t v Hv Hne Hlt|t flags Ht|t still target Hl|t target v Hv Hne|t target Ht|t target|t target q Hq];
    try (eapply (coming_other s); [exact Hi| |exact Hcome|reflexivity]; cbn; tauto).
  - destruct (decide (t = task_of w)) as [->|Hd]; [|eapply (coming_other s); [exact Hi|cbn; tauto|exact Hcome|reflexivity]].
    eapply (coming_self s); [exact Hi| |reflexivity]. split; [done|]. rewrite Hword in Hv. injection Hv as <-. lia.
  - eapply (coming_other s); [exact Hi| |exact Hcome|reflexivity]. cbn. intros ->. rewrite Hword in Ht. by injection Ht.
  - eapply (coming_other s); [exact Hi| |exact Hcome|reflexivity]. destruct still; [|cbn; tauto]. intros [_ ->].
    pose proof (Hlk c false Hl) as Hz. unfold crit_at in Hz. rewrite Hc in Hz. pose proof (number_nonneg (crit_wk c) (wakers s)).
    unfold holds in Hz. by destruct pc0; cbn in Hz; try done; lia.
Qed.

Lemma waker_move_parked s i pc s' t : wakers s !! i = Some pc -> waker_move s i pc s' ->
  (exists v, words s !! t = Some v /\ v <> NONE) \/ coming s (brings t) -> Z.of_nat (length (cpus s)) < NONE -> inv_places s ->
  (exists v, words s' !! t = Some v /\ v <> NONE) \/ coming s' (brings t).
Proof.
  intros Hi Hmove Hor Hn Hp.
  assert (forall s1 v0 c, (c < length (cpus s))%nat -> words s !! t = Some v0 -> words s1 = <[t := Z.of_nat c]> (words s) ->
    exists v, words s1 !! t = Some v /\ v <> NONE) as Hset.
  { intros s1 v0 c Hc Hv Hw. exists (Z.of_nat c). rewrite Hw, list_lookup_insert_eq by (by eapply lookup_lt_Some). split; [done|lia]. }
  pose proof (ip_wk _ Hp _ _ Hi) as Hok.
  destruct Hmove as [w0|t0 v Hv Hne Hlt|t0 flags Ht|t0 still target Hl|t0 target v Hv Hne|t0 target Ht|t0 target|t0 target q Hq];
    try (destruct Hor as [Hor|Hor]; [by left|right; eapply (coming_other s); [exact Hi|cbn; tauto|exact Hor|reflexivity]]).
  - destruct Hor as [Hor|Hor]; [by left|]. right. destruct (decide (t0 = t)) as [->|Hd];
      [by eapply (coming_self s); [exact Hi| |reflexivity]|eapply (coming_other s); [exact Hi|cbn; tauto|exact Hor|reflexivity]].
  - destruct (decide (t0 = t)) as [->|Hd]; [left; eapply Hset; [|exact Ht|reflexivity]; apply (ip_cpus _ Hp)|].
    destruct Hor as [Hor|Hor]; [left; cbn; by rewrite list_lookup_insert_ne|right; eapply (coming_other s); [exact Hi|cbn; tauto|exact Hor|reflexivity]].
  - destruct Hor as [Hor|Hor]; [by left|]. right. destruct still; [|eapply (coming_other s); [exact Hi|cbn; tauto|exact Hor|reflexivity]].
    destruct (decide (t0 = t)) as [->|Hd]; [by eapply (coming_self s); [exact Hi| |reflexivity]|eapply (coming_other s); [exact Hi|cbn; tauto|exact Hor|reflexivity]].
  - destruct (decide (t0 = t)) as [->|Hd]; [left; by exists v|].
    destruct Hor as [Hor|Hor]; [by left|right; eapply (coming_other s); [exact Hi|cbn; tauto|exact Hor|reflexivity]].
  - destruct (decide (t0 = t)) as [->|Hd]; [left; eapply Hset; [|exact Ht|reflexivity]; apply Hok|].
    destruct Hor as [Hor|Hor]; [left; cbn; by rewrite list_lookup_insert_ne|right; eapply (coming_other s); [exact Hi|cbn; tauto|exact Hor|reflexivity]].
Qed.

Lemma waker_move_same s i pc s' : waker_move s i pc s' -> cpus s' = cpus s /\ parked s' = parked s /\
  forall w, w ∈ woken s' -> w ∈ woken s \/ (pc = WSwap w /\ wakers s' = <[i := WSelect (task_of w) Wake]> (wakers s)).
Proof.
  destruct 1 as [w0| | | | | | |]; (split; [done|]); (split; [done|]); cbn; intros w; auto.
  rewrite elem_of_union, elem_of_singleton. destruct (decide (w0 ∈ woken s)) as [Hd|Hd]; [intros [->|]; by left|].
  intros [->|]; [by right|by left].
Qed.

Lemma waker_move_wake s i pc s' : inv_places s -> inv_local s -> inv_lock s -> inv_wake s -> wakers s !! i = Some pc -> waker_move s i pc s' -> inv_wake s'.
Proof.
  intros Hp Hlo Hlk [Ht Hk Hj] Hi Hmove. destruct (waker_move_same _ _ _ _ Hmove) as (Hcs & Hpk & Hwo). split; rewrite ?Hcs, ?Hpk.
  - done.
  - intros c pc0 w Hc Hw Hin. destruct (Hwo w Hin) as [Hold|[-> Hnew]]; [by eapply waker_move_parking; eauto|].
    by eapply (coming_self s); [exact Hi| |exact Hnew].
  - intros t w Hpw Hin. destruct (Hwo w Hin) as [Hold|[-> Hnew]].
    + eapply waker_move_parked; eauto. apply (ip_cpus _ Hp).
    + right. eapply (coming_self s); [exact Hi| |exact Hnew]. by apply Ht.
Qed.

(** ** All invariants *)

Record sched_inv s : Prop := {
  sv_places : inv_places s;
  sv_lock : inv_lock s;
  sv_local : inv_local s;
  sv_fresh : inv_fresh s;
  sv_wake : inv_wake s;
}.

(** The code of a waker moves; it does not panic. *)
Lemma waker_act_move s i pc r : inv_places s -> inv_fresh s -> wakers s !! i = Some pc -> waker_act s i = Some r ->
  exists s', r = Ret s' /\ waker_move s i pc s'.
Proof.
  intros Hp Hf Hi. pose proof (ip_wk _ Hp _ _ Hi) as Hok. destruct (ip_lens _ Hp) as [Hlr Hll]. unfold waker_act. rewrite Hi. cbn [mbind option_bind].
  destruct pc as [|w|t flags|t still target|t still target|t target]; intros Hr; [done| | | | |].
  - injection Hr as <-. eexists. split; [done|constructor].
  - destruct (lookup_lt_is_Some_2 _ _ Hok) as [v Hv]. rewrite Hv in Hr. cbn [unwrap mbind outcome_bind] in Hr. unfold set_if_is_none in Hr.
    destruct (Z.eqb_spec v NONE) as [Heq|Hne]; [rewrite Heq in Hv; injection Hr as <-; eexists; split; [done|by constructor]|].
    destruct (ip_words _ Hp _ _ Hv) as [|[Hlo Hlt]]; [done|]. rewrite (proj2 (Z.ltb_lt _ _) Hlt) in Hr. cbn [mbind outcome_bind] in Hr.
    assert (flags = Wake) as ->.
    { destruct flags; [|done]. destruct (if_fresh _ Hf _ _ Hi) as [Hn _]. congruence. }
    replace (debug_assert _ _) with (Ret tt) in Hr by (by destruct debug_assertions). injection Hr as <-. eexists. split; [done|by constructor].
  - assert (target < length (locked s))%nat as Hlt by (rewrite Hll; destruct still; apply Hok).
    destruct (lookup_lt_is_Some_2 _ _ Hlt) as [b Hb]. rewrite Hb in Hr. destruct b; [done|]. injection Hr as <-. eexists. split; [done|by constructor].
  - destruct still; [|injection Hr as <-; eexists; split; [done|constructor]]. destruct Hok as [Ht _].
    destruct (lookup_lt_is_Some_2 _ _ Ht) as [v Hv]. rewrite Hv in Hr. cbn [unwrap mbind outcome_bind] in Hr. unfold set_if_is_none in Hr.
    destruct (Z.eqb_spec v NONE) as [Heq|Hne]; [rewrite Heq in Hv; injection Hr as <-; eexists; split; [done|by constructor]|].
    destruct (ip_words _ Hp _ _ Hv) as [|[Hlo Hlt]]; [done|]. rewrite (proj2 (Z.ltb_lt _ _) Hlt) in Hr. injection Hr as <-. eexists. split; [done|by econstructor].
  - destruct (lookup_lt_is_Some_2 (rqs s) target) as [q Hq]; [rewrite Hlr; apply Hok|]. rewrite Hq in Hr. injection Hr as <-.
    eexists. split; [done|by constructor].
Qed.

Lemma cpu_act_ok s c r : sched_inv s -> cpu_act s c = Some r ->
  exists pc q s', cpus s !! c = Some pc /\ rqs s !! c = Some q /\ r = Ret s' /\ cpu_move s c q pc s'.
Proof.
  intros [Hp _ Hlo _ _] Hr. destruct (cpus s !! c) as [pc|] eqn:Hc; [|unfold cpu_act in Hr; by rewrite Hc in Hr].
  destruct (rqs s !! c) as [q|] eqn:Hq; [|unfold cpu_act in Hr; by rewrite Hc, Hq in Hr]. pose proof (Hlo _ _ _ Hc Hq) as Hok.
  destruct (cpu_act_move s c pc q r Hc Hq Hr) as (s' & -> & Hm); [| | |by exists pc, q, s'].
  - intros w ->. destruct w; [by eexists|done].
  - intros w t b -> Hb. by apply Hok.
  - intros w t b ->. rewrite (ip_cp _ Hp _ _ _ _ Hc). by eexists.
Qed.

Lemma current_word s c q t : inv_places s -> rqs s !! c = Some q -> current q = Some t ->
  words s !! t = Some (Z.of_nat c) /\ Z.of_nat c <> NONE /\ 1 <= occ t q.
Proof.
  intros Hp Hq Ht. destruct (ip_lens _ Hp) as [Hlr _]. destruct (ip_cpus _ Hp) as [_ Hn]. pose proof (lookup_lt_Some _ _ _ Hq) as Hlt.
  assert (1 <= occ t q) as Ho by (unfold occ; rewrite decide_True by done; pose proof (number_nonneg (Nat.eqb t) (queue q)); lia).
  split_and!; [apply (ip_rq _ Hp c q); [done|lia]|lia|done].
Qed.

Lemma step_inv_cpu s c s' : sched_inv s -> cpu_act s c = Some (Ret s') -> sched_inv s'.
Proof.
  intros Hinv Hact. destruct (cpu_act_ok _ _ _ Hinv Hact) as (pc & q & s1 & Hc & Hq & [= <-] & Hm). destruct Hinv as [Hp Hk Hl Hf Hw]. split.
  - by eapply cpu_move_places.
  - eapply cpu_move_lock; eauto. apply lookup_lt_is_Some_2. destruct (ip_lens _ Hp) as [_ ->]. by eapply lookup_lt_Some.
  - by eapply cpu_move_local.
  - by eapply cpu_move_fresh.
  - by eapply cpu_move_wake.
Qed.

Lemma step_inv_waker s i s' : sched_inv s -> waker_act s i = Some (Ret s') -> sched_inv s'.
Proof.
  intros [Hp Hk Hl Hf Hw] Hact. destruct (wakers s !! i) as [pc|] eqn:Hi; [|unfold waker_act in Hact; by rewrite Hi in Hact].
  destruct (waker_act_move _ _ _ _ Hp Hf Hi Hact) as (s1 & [= <-] & Hm). pose proof (ip_wk _ Hp _ _ Hi) as Hok. destruct (ip_lens _ Hp) as [_ Hll]. split.
  - eapply waker_move_places; eauto. intros w ->. by apply (if_made _ Hf), (if_swap _ Hf i).
  - eapply waker_move_lock; eauto.
    + intros t b c ->. apply lookup_lt_is_Some_2. rewrite Hll. destruct b; apply Hok.
    + intros t c ->. apply lookup_lt_is_Some_2. rewrite Hll. apply Hok.
  - by eapply waker_move_local.
  - by eapply waker_move_fresh.
  - by eapply waker_move_wake.
Qed.

Lemma step_inv_begin s c q op : sched_inv s -> cpus s !! c = Some CRun -> rqs s !! c = Some q -> may_begin q op -> sched_inv (set_cpu s c (CLock op)).
Proof.
  intros [Hp Hk Hl Hf Hw] Hc Hq Hop. pose proof (lookup_lt_Some _ _ _ Hc) as Hlt. split.
  - pose proof Hp as [[Hlr Hll] _ _ _ Hrq Hwk Hcc]. apply (words_kept s); try done; try sched_lens.
    + intros t. rewrite (placed_set_cpu _ _ CRun) by done. unfold holds. cbn. lia.
    + intros i pc Hi. eapply wk_word_same; [..|by apply (Hwk i)]; sched_lens.
    + intros c' w t b [[_ ?]|[_ Hc']]%lookup_insert_case; [done|by eapply Hcc].
  - intros c' b Hb. cbn. rewrite <- (Hk c' b Hb), (crit_at_set s _ c (CLock op)) by done. case_decide as Hd; [subst|done]. unfold crit_at. by rewrite Hc.
  - intros c' pc q' [[-> ->]|[_ Hc']]%lookup_insert_case Hq'; [|by apply (Hl c')]. assert (q' = q) as -> by (cbn in Hq'; congruence). by destruct op.
  - destruct Hf. by split.
  - destruct Hw as [Ht Hpk Hj]. split; [done| |done]. intros c' pc w [[-> ->]|[_ Hc']]%lookup_insert_case; [done|by apply Hpk].
Qed.

(** The flags change while the task of the waker runs. *)
Lemma step_inv_woken s c q w ws : sched_inv s -> cpus s !! c = Some CRun -> rqs s !! c = Some q -> current q = Some (task_of w) ->
  (forall w', w' ∈ ws -> w' <> w -> w' ∈ woken s) -> sched_inv (set_woken s ws).
Proof.
  intros [Hp Hk Hl Hf Hw] Hc Hq Hcur Hws. destruct (current_word _ _ _ _ Hp Hq Hcur) as (Hword & Hnn & Ho). split.
  - destruct Hp. by split.
  - done.
  - done.
  - destruct Hf. by split.
  - destruct Hw as [Ht Hpk Hj]. split; [done| |].
    + intros c' pc w' Hc' Hpw Hin. destruct (decide (w' = w)) as [->|Hne]; [|by apply (Hpk c' pc w'); [..|apply Hws]]. exfalso.
      destruct (parking_word _ _ _ _ Hp Hl Hc' Hpw) as [Hw' _]. assert (c' = c) as -> by (rewrite Hword in Hw'; injection Hw'; lia).
      cbn in Hc'. assert (pc = CRun) as -> by congruence. done.
    + intros t w' Hpt Hin. destruct (decide (w' = w)) as [->|Hne]; [|by apply (Hj t w'); [|apply Hws]].
      left. exists (Z.of_nat c). cbn. by rewrite <- (Ht _ _ Hpt).
Qed.

Lemma step_inv_new s c q w : sched_inv s -> cpus s !! c = Some CRun -> rqs s !! c = Some q -> current q = Some (task_of w) ->
  sched_inv (mk_sched (words s) (rqs s) (locked s) (woken s) ({[w]} ∪ made s) (cpus s) (wakers s) (parked s)).
Proof.
  intros [Hp Hk Hl Hf Hw] Hc Hq Hcur. destruct (current_word _ _ _ _ Hp Hq Hcur) as (Hword & Hnn & _). split.
  - destruct Hp. by split.
  - done.
  - done.
  - destruct Hf as [Hm Hs Hfr]. split; cbn.
    + intros w' [->%elem_of_singleton|Hw']%elem_of_union; [by eapply lookup_lt_Some|by apply Hm].
    + intros i w' Hi. apply elem_of_union. right. by eapply Hs.
    + intros i t Hi. destruct (Hfr i t Hi) as (Ht & Hn & Hmd). split_and!; [done|done|].
      intros w' [->%elem_of_singleton|Hw']%elem_of_union; [congruence|by apply Hmd].
  - destruct Hw. by split.
Qed.

Lemma step_inv_wake s i w : sched_inv s -> wakers s !! i = Some WIdle -> w ∈ made s -> sched_inv (set_waker s i (WSwap w)).
Proof.
  intros [Hp Hk Hl Hf Hw] Hi Hm. split.
  - by eapply (waker_kept s).
  - intros c b Hb. cbn. rewrite (number_insert _ _ _ _ _ Hi), <- (Hk c b Hb). unfold holds. cbn. unfold crit_at. cbn. lia.
  - done.
  - destruct Hf as [Hma Hs Hfr]. split; [done| |].
    + intros j w' [[_ [= ->]]|[_ Hj]]%lookup_insert_case; [done|by eapply Hs].
    + intros j t [[_ ?]|[_ Hj]]%lookup_insert_case; [done|]. destruct (Hfr j t Hj) as (Ht & Hn & Hmd). split_and!; [done| |done].
      cbn. rewrite (number_insert _ _ _ _ _ Hi), Hn. unfold holds. cbn. specialize (Hmd w Hm). by rewrite (proj2 (Nat.eqb_neq t (task_of w))) by congruence.
  - destruct Hw as [Ht Hpk Hj]. split; [done| |].
    + intros c pc w' Hc Hpw Hin. eapply (coming_other s); [exact Hi| |by eapply Hpk|reflexivity]. cbn. tauto.
    + intros t w' Hpt Hin. destruct (Hj t w' Hpt Hin) as [?|?]; [by left|right]. eapply (coming_other s); [exact Hi| |done|reflexivity]. cbn. tauto.
Qed.

Lemma refs_bound s i pc t : inv_places s -> inv_fresh s -> wakers s !! i = Some pc -> refs t pc = true -> (t < length (words s))%nat.
Proof.
  intros Hp Hf Hi Hr. pose proof (ip_wk _ Hp _ _ Hi) as Hok. destruct pc as [|w|t' fl|t' [] c|t' [] c|t' c]; try done; apply Nat.eqb_eq in Hr as ->; try apply Hok;
    try (destruct Hok as [Hok _]; by eapply lookup_lt_Some). by apply (if_made _ Hf), (if_swap _ Hf i).
Qed.

Lemma step_inv_spawn s i : sched_inv s -> wakers s !! i = Some WIdle ->
  sched_inv (set_waker (mk_sched (words s ++ [NONE]) (rqs s) (locked s) (woken s) (made s) (cpus s) (wakers s) (parked s)) i (WSelect (length (words s)) Spawn)).
Proof.
  intros [Hp Hk Hl Hf Hw] Hi. pose proof Hp as [[Hlr Hll] Hcp Hwd Hpl Hrq Hwk Hcc].
  assert (forall t v, words s !! t = Some v -> (words s ++ [NONE]) !! t = Some v) as Hold by (intros t v; apply lookup_app_l_Some). split.
  - split; cbn; try done.
    + intros t v [Hv|[_ Hv]]%lookup_app_Some; [by apply (Hwd t)|]. apply list_lookup_singleton_Some in Hv as [_ <-]. by left.
    + intros t. unfold placed. cbn. rewrite (number_insert _ _ _ _ _ Hi). unfold holds. cbn. pose proof (Hpl t) as Ht. unfold placed in Ht.
      unfold on_cpu in *. cbn. rewrite lookup_app. destruct (words s !! t) as [v|]; [lia|].
      destruct ((_ : list Z) !! _) as [v|] eqn:Hv; [|lia]. apply list_lookup_singleton_Some in Hv as [_ <-]. rewrite Z.eqb_refl. lia.
    + intros c q t Hq Ho. by eapply Hold, Hrq.
    + intros j pc [[_ ->]|[_ Hj]]%lookup_insert_case; [cbn; rewrite length_app; cbn; lia|]. pose proof (Hwk _ _ Hj) as Hok. unfold wk_word in *. cbn.
      rewrite length_app. cbn. destruct pc as [|w|t fl|t [] c|t [] c|t c]; try done; try lia; destruct Hok as [Ht ?]; (split; [by apply Hold|done]) || lia.
    + intros c w t b Hc. by eapply Hold, Hcc.
  - intros c b Hb. cbn. rewrite (number_insert _ _ _ _ _ Hi), <- (Hk c b Hb). unfold holds. cbn. unfold crit_at. cbn. lia.
  - done.
  - pose proof Hf as [Hma Hs Hfr]. split; cbn.
    + intros w Hm%Hma. rewrite length_app. cbn. lia.
    + intros j w [[_ ?]|[_ Hj]]%lookup_insert_case; [done|by eapply Hs].
    + intros j t [[_ [= ->]]|[Hne Hj]]%lookup_insert_case; rewrite (number_insert _ _ _ _ _ Hi); unfold holds; cbn.
      * rewrite Nat.eqb_refl. rewrite (number_zero (refs (length (words s)))).
        { split_and!; [rewrite lookup_app_r, Nat.sub_diag by lia; done|done|]. intros w Hm%Hma. lia. }
        intros j' pc Hj'. destruct (refs _ pc) eqn:Hr; [|done]. pose proof (refs_bound _ _ _ _ Hp Hf Hj' Hr). lia.
      * destruct (Hfr j t Hj) as (Ht & Hn & Hmd). pose proof (lookup_lt_Some _ _ _ Ht). split_and!; [by apply Hold| |done].
        rewrite (proj2 (Nat.eqb_neq t (length (words s)))) by lia. lia.
  - destruct Hw as [Ht Hpk Hj]. split; [done| |].
    + intros c pc w' Hc Hpw Hin. eapply (coming_other s); [exact Hi| |by eapply Hpk|reflexivity]. cbn. tauto.
    + intros t w' Hpt Hin. destruct (Hj t w' Hpt Hin) as [(v & Hv & Hn)|?]; [left; exists v; split; [by apply Hold|done]|right].
      eapply (coming_other s); [exact Hi| |done|reflexivity]. cbn. tauto.
Qed.

Lemma new_inv n k : (0 < n)%nat -> Z.of_nat n < NONE -> sched_inv (sched_new n k).
Proof.
  intros Hn Hmax. assert (forall t, placed (sched_new n k) t = 0) as Hz.
  { intros t. unfold placed. cbn. rewrite !number_zero.
    - clear. induction n as [|m IH]; [done|]. cbn [replicate tally]. unfold occ at 1. cbn [current queue rq_new number].
      rewrite decide_False by done. lia.
    - by intros i a [-> _]%lookup_replicate.
    - by intros i a [-> _]%lookup_replicate. }
  split.
  - split.
    + cbn. by rewrite !length_replicate.
    + cbn. by rewrite !length_replicate.
    + done.
    + intros t. by rewrite Hz.
    + intros c q t [-> _]%lookup_replicate Ho. cbn in Ho. unfold occ in Ho. cbn in Ho. by case_decide.
    + by intros i pc [-> _]%lookup_replicate.
    + by intros c w t b [? _]%lookup_replicate.
  - intros c b [-> Hc]%lookup_replicate. cbn. unfold crit_at. cbn. rewrite lookup_replicate_2 by done. rewrite number_zero; [done|]. by intros i a [-> _]%lookup_replicate.
  - by intros c pc q [-> _]%lookup_replicate _.
  - split; cbn; [set_solver|by intros i w [? _]%lookup_replicate|by intros i t [? _]%lookup_replicate].
  - split; cbn; [done| |done]. by intros c pc w [-> _]%lookup_replicate.
Qed.

Lemma reach_inv n k s : (0 < n)%nat -> Z.of_nat n < NONE -> sreach n k s -> sched_inv s.
Proof.
  intros Hn Hmax. induction 1 as [|s s' _ IH Hs]; [by apply new_inv|].
  destruct Hs as [c s' Ha|i s' Ha|c q op Hc Hq Hop|c q w Hc Hq Hcur|c q w Hc Hq Hcur|c q w Hc Hq Hcur|i w Hi Hm|i Hi].
  - by eapply step_inv_cpu.
  - by eapply step_inv_waker.
  - by eapply step_inv_begin.
  - by eapply step_inv_new.
  - eapply step_inv_woken; eauto. intros w' [? _]%elem_of_difference. done.
  - eapply step_inv_woken; eauto. intros w' [->%elem_of_singleton|]%elem_of_union; done.
  - by apply step_inv_wake.
  - by apply step_inv_spawn.
Qed.

(** Whoever has a lock can go on, and so can everybody who does not wait for one. *)
Lemma holder_acts s c : sched_inv s -> locked s !! c = Some true -> is_Some (cpu_act s c) \/ exists j, is_Some (waker_act s j).
Proof.
  intros [Hp Hk _ _ _] Hl. pose proof (Hk c true Hl) as Hone. destruct (decide (0 < number (crit_wk c) (wakers s))) as [Hpos|Hz].
  - destruct (number_pos _ _ Hpos) as (j & pc & Hj & Hcr). right. exists j. unfold waker_act. rewrite Hj. cbn [mbind option_bind].
    destruct pc as [| | | |t still c'|t c']; try done; try (by eexists); destruct still; by eexists.
  - left. unfold crit_at in Hone. destruct (cpus s !! c) as [pc|] eqn:Hc; [|lia]. destruct (lookup_lt_is_Some_2 (rqs s) c) as [q Hq].
    { destruct (ip_lens _ Hp) as [-> _]. by eapply lookup_lt_Some. }
    unfold cpu_act. rewrite Hc, Hq. cbn [mbind option_bind]. unfold holds in Hone. destruct pc as [| |op|w|w t b|w t b]; cbn in Hone; try lia; [destruct op| | |]; by eexists.
Qed.

Lemma in_rq q t : 0 < occ t q -> current q = Some t \/ t ∈ queue q.
Proof.
  unfold occ. case_decide; [by left|]. intros Hpos. right. destruct (number_pos (Nat.eqb t) (queue q)) as (i & x & Hx & Heq%Nat.eqb_eq); [lia|].
  subst x. by eapply list_elem_of_lookup_2.
Qed.

Lemma occ_queue q t : t ∈ queue q -> 1 <= number (Nat.eqb t) (queue q).
Proof. intros [i Hi]%list_elem_of_lookup. eapply number_one; [exact Hi|]. apply Nat.eqb_refl. Qed.

Lemma queue_NoDup l : (forall t, number (Nat.eqb t) l <= 1) -> NoDup l.
Proof.
  induction l as [|x l IH]; intros Hn; constructor.
  - intros [i Hi]%list_elem_of_lookup. specialize (Hn x). cbn in Hn. unfold holds in Hn. rewrite Nat.eqb_refl in Hn.
    pose proof (number_one (Nat.eqb x) l i x Hi (Nat.eqb_refl x)). lia.
  - apply IH. intros t. specialize (Hn t). cbn in Hn. unfold holds in Hn. destruct (t =? x)%nat; lia.
Qed.

(** Tasks have one place.  In every state that any interleaving of CPUs and wakers reaches, a task is the current task of one CPU at most,
    no run queue has a task twice, and the word of a task in a run queue names its CPU; the words are valid ([inv_value]);
    and no step panics: the next task that was promised exists, the task to dequeue is there, a new task is in no
    run queue, and words and indices are in range. *)
Theorem sched_places n k s : (0 < n)%nat -> Z.of_nat n < NONE -> sreach n k s ->
  (forall t c c' q q', rqs s !! c = Some q -> rqs s !! c' = Some q' -> current q = Some t -> (current q' = Some t \/ t ∈ queue q') ->
     c' = c /\ ~ t ∈ queue q') /\
  (forall c q, rqs s !! c = Some q -> NoDup (queue q)) /\
  (forall c q t, rqs s !! c = Some q -> current q = Some t \/ t ∈ queue q -> exists v, words s !! t = Some v /\ get (length (cpus s)) v = Some c) /\
  (forall t v, words s !! t = Some v -> inv_value (length (cpus s)) v) /\
  (forall c, cpu_act s c <> Some Panic) /\ forall i, waker_act s i <> Some Panic.
Proof.
  intros Hn Hmax Hreach. pose proof (reach_inv _ _ _ Hn Hmax Hreach) as Hinv. pose proof Hinv as [Hp Hk Hl Hf Hw].
  assert (forall t, placed s t <= 1) as Hone by (intros t; rewrite (ip_places _ Hp); unfold on_cpu; destruct (words s !! t) as [v|]; [destruct (v =? NONE)|]; lia).
  assert (forall t, tally (occ t) (rqs s) <= 1) as Htal.
  { intros t. specialize (Hone t). unfold placed in Hone. pose proof (number_nonneg (wk_holds t) (wakers s)). pose proof (number_nonneg (cp_holds t) (cpus s)). lia. }
  assert (forall c q t, rqs s !! c = Some q -> current q = Some t \/ t ∈ queue q -> 1 <= occ t q) as Hocc.
  { intros c q t Hq [Hc|Hin]; unfold occ; [rewrite decide_True by done; pose proof (number_nonneg (Nat.eqb t) (queue q)); lia|].
    pose proof (occ_queue _ _ Hin). case_decide; lia. }
  split_and!.
  - intros t c c' q q' Hq Hq' Hc Hin. destruct (decide (c' = c)) as [->|Hne].
    + split; [done|]. assert (q' = q) as -> by congruence. intros Hin'%occ_queue. pose proof (tally_at _ _ _ _ (occ_nonneg t) Hq) as Ha. specialize (Htal t).
      unfold occ at 1 in Ha. rewrite decide_True in Ha by done. lia.
    + pose proof (tally_two _ _ _ _ _ _ (occ_nonneg t) Hne Hq' Hq) as Ht. pose proof (Hocc _ _ _ Hq' Hin). pose proof (Hocc _ _ _ Hq (or_introl Hc)). specialize (Htal t). lia.
  - intros c q Hq. apply queue_NoDup. intros t. pose proof (tally_at _ _ _ _ (occ_nonneg t) Hq) as Ha. specialize (Htal t). unfold occ at 1 in Ha. case_decide; lia.
  - intros c q t Hq Hin. pose proof (Hocc _ _ _ Hq Hin). exists (Z.of_nat c). split; [apply (ip_rq _ Hp c q); [done|lia]|].
    destruct (ip_lens _ Hp) as [Hlr _]. destruct (ip_cpus _ Hp) as [_ Hnn]. apply lookup_lt_Some in Hq. unfold get.
    rewrite (proj2 (Z.eqb_neq _ _)), (proj2 (Z.ltb_lt _ _)) by lia. f_equal. lia.
  - apply Hp.
  - intros c Hact. destruct (cpu_act_ok _ _ _ Hinv Hact) as (? & ? & ? & _ & _ & ? & _). done.
  - intros i Hact. destruct (wakers s !! i) as [pc|] eqn:Hi; [|unfold waker_act in Hact; by rewrite Hi in Hact].
    destruct (waker_act_move _ _ _ _ Hp Hf Hi Hact) as (? & ? & _). done.
Qed.

(** C15: no wake-up is lost.  A task that was dequeued when it parked on a waker, and whose waker has been woken since, is in a run queue, or a waker is
    on the way to enqueue it, or it runs and is being dequeued anew; this is so however the test of the flag and the dequeuing
    interleave with wake-ups on other CPUs.  Wakers get there: one that cannot go on waits for the lock of a run queue, and then somebody
    can go on, the holder of the lock. *)
Theorem sched_no_lost_wakeup n k s : (0 < n)%nat -> Z.of_nat n < NONE -> sreach n k s ->
  (forall t w, parked s !! t = Some w -> w ∈ woken s ->
     task_of w = t /\
     ((exists c q, rqs s !! c = Some q /\ (current q = Some t \/ t ∈ queue q)) \/
      (exists i pc, wakers s !! i = Some pc /\ refs t pc = true) \/
      exists c (w' : option nat) b, cpus s !! c = Some (CClear w' t b))) /\
  forall i pc, wakers s !! i = Some pc -> pc <> WIdle -> is_Some (waker_act s i) \/
    exists t still c, pc = WLock t still c /\ (is_Some (cpu_act s c) \/ exists j, is_Some (waker_act s j)).
Proof.
  intros Hn Hmax Hreach. pose proof (reach_inv _ _ _ Hn Hmax Hreach) as Hinv. pose proof Hinv as [Hp Hk Hl Hf Hw]. split.
  - intros t w Hpk Hwo. split; [by apply Hw|]. destruct (iw_parked _ Hw t w Hpk Hwo) as [(v & Hv & Hnn)|(i & pc & Hi & Hb)].
    + pose proof (ip_places _ Hp t) as Hpl. unfold on_cpu in Hpl. rewrite Hv, (proj2 (Z.eqb_neq v NONE)) in Hpl by done. unfold placed in Hpl.
      pose proof (number_nonneg (wk_holds t) (wakers s)). pose proof (number_nonneg (cp_holds t) (cpus s)).
      destruct (decide (0 < number (wk_holds t) (wakers s))) as [Hpos|]; [|destruct (decide (0 < number (cp_holds t) (cpus s))) as [Hpos|]].
      * right. left. destruct (number_pos _ _ Hpos) as (i & pc & Hi & Hh). exists i, pc. split; [done|]. by destruct pc as [| | |? []|? []|].
      * right. right. destruct (number_pos _ _ Hpos) as (c & pc & Hc & Hh). destruct pc as [| | | |w' t' b|]; try done. apply Nat.eqb_eq in Hh as ->. by exists c, w', b.
      * left. destruct (tally_pos (occ t) (rqs s)) as (c & q & Hq & Ho); [lia|]. exists c, q. split; [done|]. by apply in_rq.
    + right. left. exists i, pc. split; [done|]. destruct pc as [| | |? []|? []|]; try done; cbn in Hb; subst; cbn; apply Nat.eqb_refl.
  - intros i pc Hi Hne. destruct (waker_act s i) as [r|] eqn:Ha; [left; by eexists|right]. unfold waker_act in Ha. rewrite Hi in Ha. cbn [mbind option_bind] in Ha.
    destruct pc as [| | |t still c|t [] c|]; try done. exists t, still, c. split; [done|]. destruct (locked s !! c) as [[]|] eqn:Hlk; try done. by apply holder_acts.
Qed.

(** ** Runs given as scripts *)

Inductive act := ACpu (c : nat) | AWaker (i : nat) | ABegin (c : nat) (op : local_op) | ANew (c w : nat) | AWake (i w : nat) | ASpawn (i : nat).

Definition began q (op : local_op) : bool :=
  match op with
  | OpTick | OpYield | OpPreempt => true
  | OpPark w => bool_decide (current q = Some (task_of w))
  | OpExit => bool_decide (is_Some (current q))
  | OpRetry _ _ => false
  end.

Definition drive1 s (a : act) : option sched :=
  match a with
  | ACpu c => match cpu_act s c with Some (Ret s') => Some s' | _ => None end
  | AWaker i => match waker_act s i with Some (Ret s') => Some s' | _ => None end
  | ABegin c op =>
      match cpus s !! c, rqs s !! c with Some CRun, Some q => if began q op then Some (set_cpu s c (CLock op)) else None | _, _ => None end
  | ANew c w =>
      match cpus s !! c, rqs s !! c with
      | Some CRun, Some q => if bool_decide (current q = Some (task_of w))
          then Some (mk_sched (words s) (rqs s) (locked s) (woken s) ({[w]} ∪ made s) (cpus s) (wakers s) (parked s)) else None
      | _, _ => None
      end
  | AWake i w => match wakers s !! i with Some WIdle => if bool_decide (w ∈ made s) then Some (set_waker s i (WSwap w)) else None | _ => None end
  | ASpawn i =>
      match wakers s !! i with
      | Some WIdle => Some (set_waker (mk_sched (words s ++ [NONE]) (rqs s) (locked s) (woken s) (made s) (cpus s) (wakers s) (parked s)) i (WSelect (length (words s)) Spawn))
      | _ => None
      end
  end.

Fixpoint drive s (l : list act) : option sched := match l with [] => Some s | a :: l' => s' ← drive1 s a; drive s' l' end.

Lemma drive1_step s a s' : drive1 s a = Some s' -> sstep s s'.
Proof.
  destruct a as [c|i|c op|c w|i w|i]; cbn.
  - destruct (cpu_act s c) as [[s1|]|] eqn:Ha; try done. intros [= <-]. by eapply step_cpu.
  - destruct (waker_act s i) as [[s1|]|] eqn:Ha; try done. intros [= <-]. by eapply step_waker.
  - destruct (cpus s !! c) as [[]|] eqn:Hc; try done. destruct (rqs s !! c) as [q|] eqn:Hq; [|done]. destruct (began q op) eqn:Hb; [|done].
    intros [= <-]. eapply step_begin; try done. destruct op; try done; by apply bool_decide_eq_true in Hb.
  - destruct (cpus s !! c) as [[]|] eqn:Hc; try done. destruct (rqs s !! c) as [q|] eqn:Hq; [|done]. case_bool_decide; [|done]. intros [= <-]. by eapply step_new.
  - destruct (wakers s !! i) as [[]|] eqn:Hi; try done. case_bool_decide; [|done]. intros [= <-]. by apply step_wake.
  - destruct (wakers s !! i) as [[]|] eqn:Hi; try done. intros [= <-]. by apply step_spawn.
Qed.

Lemma drive_reach n k l : forall s s', sreach n k s -> drive s l = Some s' -> sreach n k s'.
Proof.
  induction l as [|a l IH]; intros s s' Hr; cbn; [by intros [= <-]|]. destruct (drive1 s a) as [s1|] eqn:Ha; [|done]. apply IH.
  eapply reach_step; [done|]. by eapply drive1_step.
Qed.
End system.

(** ** One CPU and one waker *)

Module SchedExample.

(** A task is made and runs. *)
Definition run_task : list act := [ASpawn 0; AWaker 0; AWaker 0; AWaker 0; AWaker 0; ABegin 0 OpPreempt; ACpu 0; ACpu 0].

(** It makes a waker and parks; after it has found the flag unset, the waker sets the flag and finds the word still
    set; then the task is dequeued. *)
Definition park_race : list act := run_task ++ [ANew 0 0; ABegin 0 (OpPark 0); ACpu 0; ACpu 0; AWake 0 0; AWaker 0; AWaker 0; ACpu 0; ACpu 0].

Definition after (l : list act) : sched := default (sched_new 1 1) (drive true (fun _ => 0%nat) (sched_new 1 1) l).
Definition runs (l : list act) : bool := match drive true (fun _ => 0%nat) (sched_new 1 1) l with Some _ => true | None => false end.

Lemma after_reach l : runs l = true -> sreach true (fun _ => 0%nat) 1 1 (after l).
Proof.
  unfold runs, after. destruct (drive _ _ _ l) as [s|] eqn:Hs; [|done]. intros _. eapply drive_reach; [constructor|exact Hs].
Qed.

Lemma run_task_runs : runs run_task = true.
Proof. vm_compute. reflexivity. Qed.

Lemma park_race_runs : runs park_race = true.
Proof. vm_compute. reflexivity. Qed.

Lemma run_task_state : rqs (after run_task) = [mk_rq (Some 0%nat) []] /\ words (after run_task) = [0] /\ length (cpus (after run_task)) = 1%nat.
Proof. vm_compute. done. Qed.

Lemma park_race_state : rqs (after park_race) = [rq_new] /\ words (after park_race) = [NONE] /\ wakers (after park_race) = [WLock 0 true 0] /\
  cpus (after park_race) = [CPick (Some 0%nat) 0 false] /\ parked (after park_race) !! 0%nat = Some 0%nat /\ bool_decide (0%nat ∈ woken (after park_race)) = true.
Proof. vm_compute. done. Qed.

Lemma few_cpus : Z.of_nat 1 < NONE.
Proof. vm_compute. done. Qed.

Lemma sched_places_witness : rqs (after run_task) = [mk_rq (Some 0%nat) []] /\ exists v, words (after run_task) !! 0%nat = Some v /\ get 1 v = Some 0%nat.
Proof.
  destruct run_task_state as (Hq & _ & Hc). split; [exact Hq|].
  destruct (sched_places true (fun _ => 0%nat) 1 1 (after run_task) ltac:(lia) few_cpus (after_reach _ run_task_runs)) as (_ & _ & Hw & _).
  rewrite Hc in Hw. apply (Hw 0%nat (mk_rq (Some 0%nat) []) 0%nat); [by rewrite Hq|by left].
Defined.

(** The task is not in the run queue, but the waker waits for the lock to put it there. *)
Lemma sched_no_lost_wakeup_witness :
  rqs (after park_race) = [rq_new] /\ words (after park_race) = [NONE] /\
  exists i pc, wakers (after park_race) !! i = Some pc /\ refs (fun _ => 0%nat) 0 pc = true.
Proof.
  destruct park_race_state as (Hq & Hwd & _ & Hc & Hpk & Hwo%bool_decide_eq_true). do 2 (split; [done|]).
  destruct (sched_no_lost_wakeup true (fun _ => 0%nat) 1 1 (after park_race) ltac:(lia) few_cpus (after_reach _ park_race_runs)) as [Hl _].
  destruct (Hl 0%nat 0%nat Hpk Hwo) as [_ [(c & q & Hq' & Hin)|[Hw|(c & w' & b & Hc')]]].
  - exfalso. rewrite Hq in Hq'. destruct c as [|c]; [|done]. injection Hq' as <-. destruct Hin as [Hcur|Hin]; [done|by apply not_elem_of_nil in Hin].
  - exact Hw.
  - exfalso. rewrite Hc in Hc'. by destruct c as [|c].
Defined.
End SchedExample.
