(* ===== verification/Mutex.v ===== *)
(** * [ostd/src/sync/mutex.rs]: the sleeping mutex

    A [Mutex] is a flag and a wait queue.  [lock] waits until [try_lock] succeeds; a
    thread that releases the mutex wakes one waiter.  The mutex is a client of
    [WaitQueue]: its threads interleave at every access to the flag and to the queue.

    The question is whether a wake-up can be lost.  It depends on the destructor of
    [Waiter], which closes the waker: with it no wake-up is lost, and without it a thread
    can sleep for ever on a free mutex. *)

From S2P Require Import Prelude Agents WaitQueue.
Open Scope Z_scope.

(** Whether a thread has a [MutexGuard]. *)
Inductive place := Out | Held.
Global Instance place_eq_dec : EqDecision place.
Proof. solve_decision. Defined.

Definition mutex_new : bool := false.

(** [acquire_lock] and [release_lock] of the flag. *)
Definition acquire_lock (locked : bool) : bool * bool := if locked then (locked, false) else (true, true).
Definition release_lock (locked : bool) : bool := false.

(** [try_lock]; [lock], whose condition is [try_lock], before and after the waiter is enqueued; [unlock]. *)
Inductive action := TryLock | Lock | Retry | Unlock.

Definition mutex_next (act : action) (locked : bool) (t : place * control) : option (bool * (place * control)) :=
  match act, t with
  | TryLock, (Out, Run) => let '(l, ok) := acquire_lock locked in Some (l, (if ok then Held else Out, Run))
  | Lock, (Out, Run) => let '(l, ok) := acquire_lock locked in Some (l, if ok then (Held, Run) else (Out, NewPair))
  | Retry, (Out, Cond w) => let '(l, ok) := acquire_lock locked in Some (l, if ok then (Held, Returning w) else (Out, Waiting w))
  | Unlock, (Held, Run) => Some (release_lock locked, (Out, WakeCheck false))
  | _, _ => None
  end.

Global Instance mutex_client : WaitClient bool place action :=
  {| client_new := mutex_new; client_idle := Out; client_next := mutex_next |}.

Global Instance mutex_client_laws : WaitClientLaws bool place action.
Proof.
  split. intros act l [g a] l' t' Hn. destruct act, g, a, l; cbn in Hn; simplify_eq; cbn; try done; by rewrite Nat.eqb_refl.
Qed.

(** Every call is allowed. *)
Definition any (_ : action) : bool := true.
Local Notation mutex := (bool * WaitQueue)%type.
Local Notation thread := (place * control)%type.

(** ** Invariants *)

Definition has_guard (t : thread) : bool := match t.1 with Held => true | Out => false end.
(** A thread has the guard while it runs or returns from [wait_until]. *)
Definition fits (t : thread) : bool :=
  match t with
  | (Held, (Run | Returning _)) => true
  | (Held, _) | (Out, Returning _) => false
  | (Out, _) => true
  end.

Definition lock_inv (s : mutex) (ts : list thread) : Prop :=
  number has_guard ts = Z.b2z s.1 /\ forall i t, ts !! i = Some t -> fits t = true.

(** The mutex is held, or some thread will try to take it or to pass it on. *)
Definition attended (s : mutex) (ts : list thread) : Prop :=
  s.1 = true \/ exists j t, ts !! j = Some t /\ committed s.2 t.2 = true.
Definition wake_inv (s : mutex) (ts : list thread) : Prop :=
  forall i t, ts !! i = Some t -> asleep s.2 t.2 = true -> attended s ts.

(** The mutex of a guard is locked. *)
Lemma guard_locked s ts i a : lock_inv s ts -> ts !! i = Some (Held, a) -> s.1 = true.
Proof.
  intros [Hn _] Hi. pose proof (number_one has_guard ts i _ Hi eq_refl). destruct s.1; [done|cbn in *; lia].
Qed.

Section mutex_step.
Context (c : bool) (s : mutex) (ts : list thread) (i : nat) (o : option action) (t : thread) (s' : mutex) (t' : thread).
Hypothesis Hi : ts !! i = Some t.
Hypothesis Hs : thread_next c any o s t = Some (s', t').

Lemma mutex_lock_step : lock_inv s ts -> lock_inv s' (<[i := t']> ts).
Proof using Hi Hs.
  intros [Hn Hf]. pose proof (Hf i t Hi) as Hft. pose proof (number_at has_guard ts i t Hi) as Hat.
  assert (number has_guard ts - holds has_guard t + holds has_guard t' = Z.b2z s'.1 /\ fits t' = true) as [Hn' Hf'].
  { destruct s as [l q], t as [g a], o as [act|]; cbn in *.
    - destruct act, g, a, l; cbn in *; simplify_eq; cbn in *; try done; split; done || lia.
    - destruct (queue_next c q a) as [[q' a']|] eqn:Hq; [|done]. cbn in Hs. injection Hs as <- <-. cbn. split; [destruct g; cbn in *; lia|].
      destruct g, a; cbn in *; try done; repeat case_match; simplify_eq; try done; by repeat case_match. }
  split; [by rewrite (number_insert _ ts i t t' Hi)|].
  intros j b [[-> ->]|[_ Hj]]%(lookup_step _ _ _ _ _ _ Hi); [done|by eapply Hf].
Qed.

Lemma mutex_wake_step : c = true -> lock_inv s ts -> counts_inv s.2 ts.*2 -> owners_inv s.2 ts.*2 -> wakers_inv s.2 ts.*2 ->
  wake_inv s ts -> wake_inv s' (<[i := t']> ts).
Proof using Hi Hs.
  intros Hc Hlock Hcount Hown Hwak Hwake j b Hj Hb. pose proof (thread_move _ _ _ _ _ _ _ Hs) as Hm. rewrite Hc in Hm.
  assert (ts.*2 !! i = Some t.2) as Hi2 by (by rewrite list_lookup_fmap, Hi).
  assert (forall k d, ts !! k = Some d -> ts.*2 !! k = Some d.2) as Hsnd by (intros k d Hk; by rewrite list_lookup_fmap, Hk).
  destruct o as [act|].
  { destruct s as [l q], t as [g a]. destruct act, g, a, l; cbn in Hs; simplify_eq; try (by left).
    all: right; exists i, (Out, WakeCheck false); split; [by eapply lookup_step_same|done]. }
  cbn in Hs. destruct (queue_next c s.2 t.2) as [[q' a']|] eqn:Hq; [|done]. injection Hs as <- <-. cbn [fst snd] in *. rewrite Hc in Hq.
  assert (exists k d, ts !! k = Some d /\ asleep s.2 d.2 = true) as (k & d & Hk & Hd).
  { apply (lookup_step _ _ _ _ _ _ Hi) in Hj as [[-> ->]|[Hji Hj]]; [exists i, t|exists j, b]; (split; [done|]).
    - exact (asleep_before _ _ _ _ _ Hq Hb).
    - eapply (asleep_other s.2 ts.*2 i t.2 q' a'); eauto. }
  destruct (Hwake k d Hk Hd) as [Hl|(m & e & Hm' & He)]; [by left|].
  destruct (decide (m = i)) as [->|Hmi].
  2: { right. exists m, e. split; [by apply lookup_step_other|]. eapply committed_other; eauto. }
  assert (e = t) as -> by congruence. destruct (committed q' a') eqn:Hc'.
  { right. exists i, (t.1, a'). split; [by eapply lookup_step_same|done]. }
  destruct (asleep_listed _ _ Hd) as (w & Hl & Hw).
  destruct (commitment_passed _ _ _ _ _ _ Hi2 Hm Hcount Hown Hwak k d.2 w Hq He Hc' (Hsnd _ _ Hk) Hl Hw) as (k' & d' & Hki & Hk' & Hd').
  rewrite list_lookup_fmap in Hk'. apply fmap_Some in Hk' as (e & Hk' & ->). destruct Hd' as [Hd'|[w' Hd']].
  - right. exists k', e. split; [by apply lookup_step_other|done].
  - left. pose proof (proj2 Hlock k' e Hk') as Hfe. destruct e as [[] ?]; cbn in *; subst; [done|]. by eapply guard_locked.
Qed.
End mutex_step.

Lemma mutex_reachable_lock c n s ts : reachable c any n s ts -> lock_inv s ts.
Proof.
  induction 1 as [|s ts s' ts' _ IH [i o t s1 t' Hi Hs]]; [|by eapply mutex_lock_step].
  split; [|by intros i t [-> _]%lookup_replicate]. apply number_zero. by intros i t [-> _]%lookup_replicate.
Qed.

Lemma mutex_reachable_wake n s ts : reachable true any n s ts -> wake_inv s ts.
Proof.
  induction 1 as [|s ts s' ts' Hr IH [i o t s1 t' Hi Hs]]; [by intros i t [-> _]%lookup_replicate|].
  destruct (reachable_queue _ _ _ _ _ Hr) as (Hc & Ho & _ & Hw).
  eapply mutex_wake_step; eauto using mutex_reachable_lock.
Qed.

(** At any moment of any interleaving of the calls of any number of threads, at most one thread holds
    the mutex, and exactly then its flag is set. *)
Theorem mutex_exclusion c n s ts i j a b : reachable c any n s ts ->
  ts !! i = Some a -> ts !! j = Some b -> has_guard a = true -> has_guard b = true -> i = j /\ s.1 = true.
Proof.
  intros Hr Hi Hj Ha Hb. pose proof (mutex_reachable_lock _ _ _ _ Hr) as Hl. split.
  - destruct (decide (i = j)) as [|Hij]; [done|]. exfalso. destruct Hl as [Hn _].
    pose proof (number_two has_guard ts i j a b Hij Hi Hj) as Htwo. unfold holds in Htwo.
    rewrite Ha, Hb in Htwo. destruct s.1; cbn in *; lia.
  - destruct a as [[] a]; [done|]. by eapply guard_locked.
Qed.

(** A thread in a call or with a guard moves, unless it waits for the spin lock of the queue or sleeps. *)
Lemma mutex_thread_moves (s : mutex) (t : thread) : t <> (Out, Run) -> fits t = true -> Z.of_nat (length (wakers s.2)) < 2 ^ 32 ->
  (exists o, is_Some (thread_next true any o s t)) \/ queue_lock s.2 = true \/ asleep s.2 t.2 = true.
Proof.
  intros Ho Hf Hq. destruct t as [g a], s as [l q].
  assert ((exists w, a = Cond w) \/ a = Run \/ a <> Run /\ forall w, a <> Cond w) as [[w ->]|[->|[Hr Hc]]] by (destruct a; naive_solver).
  - left. exists (Some Retry). destruct g; [|done]. cbn. destruct l; eauto.
  - left. exists (Some Unlock). destruct g; [by destruct Ho|]. cbn. eauto.
  - destruct (control_moves true q a Hq Hr Hc) as [[[q' a'] Hn]|?]; [|by right].
    left. exists None. cbn in *. rewrite Hn. cbn. eauto.
Qed.

(** C37: When the waker of a waiter is closed as the waiter is dropped, no wake-up is lost: whenever some
    thread is inside a call or holds the mutex, some such thread can make a step, so that no thread sleeps for
    ever on a mutex that nobody holds. *)
Theorem mutex_deadlock_free n s ts i a : reachable true any n s ts ->
  Z.of_nat (length (wakers s.2)) < 2 ^ 32 -> ts !! i = Some a -> a <> (Out, Run) ->
  exists j b o, ts !! j = Some b /\ b <> (Out, Run) /\ is_Some (thread_next true any o s b).
Proof.
  intros Hr Hq Hi Ha. destruct (reachable_queue _ _ _ _ _ Hr) as ((Hsec & _) & _). pose proof (mutex_reachable_lock _ _ _ _ Hr) as Hlock.
  pose proof (mutex_reachable_wake _ _ _ Hr) as Hwake.
  assert (forall j b, ts !! j = Some b -> b <> (Out, Run) -> asleep s.2 b.2 = false ->
    exists j b o, ts !! j = Some b /\ b <> (Out, Run) /\ is_Some (thread_next true any o s b)) as Hgo.
  { intros j b Hj Hb Hsl. destruct (mutex_thread_moves s b Hb (proj2 Hlock j b Hj) Hq) as [[o Ho]|[Hl|]]; [eauto 6| |congruence].
    destruct (number_pos in_section ts.*2) as (k & d & Hk & Hd); [by rewrite Hsec, Hl|].
    rewrite list_lookup_fmap in Hk. apply fmap_Some in Hk as ([g a'] & Hk & ->). cbn in Hd.
    destruct (section_moves true s.2 a' Hd Hq) as [[q' a''] Hn].
    exists k, (g, a'), None. split_and!; [done|by intros [= -> ->]|]. cbn. rewrite Hn. cbn. eauto. }
  destruct (asleep s.2 a.2) eqn:Hsl; [|by apply (Hgo i a)].
  destruct (Hwake i a Hi Hsl) as [Hl|(j & b & Hj & Hb)].
  - destruct (number_pos has_guard ts) as (j & b & Hj & Hb); [by rewrite (proj1 Hlock), Hl|].
    apply (Hgo j b Hj); [by intros ->|]. pose proof (proj2 Hlock j b Hj). by destruct b as [[] []].
  - apply (Hgo j b Hj); [by intros ->|]. destruct b as [g []]; cbn in *; try done; by rewrite Hb.
Qed.

(** ** Schedules *)

Local Notation call i := (i%nat, Some Lock).
Local Notation unlock i := (i%nat, Some Unlock).
Local Notation retry i := (i%nat, Some Retry).
Local Notation go i := (i%nat, None).

(** One thread takes the mutex after it enqueued its waker; a second thread goes to sleep; the first one
    releases the mutex. *)
Definition lossy_schedule : list (nat * option action) :=
  [call 0; call 1; unlock 0; go 0] ++ replicate 5 (go 1) ++ [retry 1; go 1] ++ [call 2] ++ replicate 5 (go 2) ++ [retry 2; go 2] ++
  [unlock 1] ++ replicate 6 (go 1).

(** [wait_until] as it is written does not close the waker of its waiter, and the wake-up of a release
    can go to a thread that no longer waits: there is a run of three threads after which the mutex is free and no
    thread is in a call but one, which sleeps and was not woken. *)
Theorem mutex_loses_wakeup : exists q,
  reachable false any 3 (false, q) [(Out, Run); (Out, Run); (Out, Parked 1)] /\ wakers q = [1%nat] /\
  forall o, thread_next false any o (false, q) (Out, Parked 1) = None.
Proof.
  destruct (run false any lossy_schedule (mutex_new, queue_new) (replicate 3 outside)) as [[s ts]|] eqn:Hrun; [|by vm_compute in Hrun].
  pose proof (run_reachable false any 3 _ _ _ s ts (reach_init false any 3) Hrun) as Hr.
  vm_compute in Hrun. injection Hrun as <- <-. eexists. split_and!; [exact Hr|done|].
  by intros [[]|].
Qed.

(** The mutex held by one thread while the other one sleeps. *)
Definition contended_schedule : list (nat * option action) := [call 0; call 1] ++ replicate 5 (go 1) ++ [retry 1; go 1].
Definition contended : mutex := (true, mk_queue false [0%nat] 1 [false]).

Lemma contended_reachable c : reachable c any 2 contended [(Held, Run); (Out, Parked 0)].
Proof. apply (run_reachable c any 2 contended_schedule _ _ _ _ (reach_init c any 2)). by destruct c. Qed.

Lemma mutex_exclusion_witness : (0 = 0)%nat /\ contended.1 = true.
Proof.
  exact (mutex_exclusion true 2 contended [(Held, Run); (Out, Parked 0)] 0 0 (Held, Run) (Held, Run)
           (contended_reachable true) eq_refl eq_refl eq_refl eq_refl).
Defined.

Lemma mutex_deadlock_free_witness :
  exists j b o, [(Held, Run); (Out, Parked 0)] !! j = Some b /\ b <> (Out, Run) /\
    is_Some (thread_next true any o contended b).
Proof.
  exact (mutex_deadlock_free 2 contended [(Held, Run); (Out, Parked 0)] 1 (Out, Parked 0)
           (contended_reachable true) eq_refl eq_refl ltac:(discriminate)).
Defined.
