(* ===== verification/RwMutex.v ===== *)
(** * [ostd/src/sync/rwmutex.rs]: the sleeping reader-writer mutex

    The mutex has the word of the spinning reader-writer lock ([RwLock]) and a wait queue
    ([WaitQueue]): [read], [write] and [upread] wait until the [try_] methods succeed, and
    guards wake waiters when they are dropped.  Beyond the spinning lock it can turn a
    write guard into an upgradeable one.  The methods are cut at their accesses to the word.

    The word is the one of [RwLock], so its invariant gives mutual exclusion.  The other
    question is whether wake-ups are lost.  They are not if every thread waits for its guard;
    but a [try_] method that fails leaves its mark on the word until it takes it back, and a
    waiter that is woken in between goes to sleep again, with nobody left to wake it. *)

From S2P Require Import Prelude Agents RwLock WaitQueue.
Open Scope Z_scope.

Definition READER : Z := 1.
Definition WRITER : Z := Z.shiftl 1 (64 - 1).
Definition UPGRADEABLE_READER : Z := Z.shiftl 1 (64 - 2).
Definition BEING_UPGRADED : Z := Z.shiftl 1 (64 - 3).
Definition MAX_READER : Z := Z.shiftl 1 (64 - 4).

(** What a thread has: a guard, or a mark that it has left on the word. *)
Inductive place :=
| Idle
| Reading        (* [RwMutexReadGuard] *)
| Retracting     (* [try_read] failed, its count is still in the word *)
| Writing        (* [RwMutexWriteGuard] *)
| Upreading      (* [RwMutexUpgradeableGuard] *)
| UpRetracting   (* [try_upread] met a writer, its bit is still in the word *)
| Upgrading      (* in the loop of [upgrade] *)
| Upgraded       (* [try_upgrade] succeeded, the upgradeable bit is still in the word *)
| Downgraded.    (* [try_downgrade] has exchanged the word *)

Inductive kind := Read | Write | Upread.

Definition rwmutex_new : Z := 0.

Definition try_read (lock : Z) : Z * place :=
  (fetch_add lock READER,
   if Z.land lock (Z.lor (Z.lor WRITER BEING_UPGRADED) MAX_READER) =? 0 then Reading else Retracting).

Definition try_write (lock : Z) : Z * place := if lock =? 0 then (WRITER, Writing) else (lock, Idle).

Definition try_upread (lock : Z) : Z * place :=
  let prev := Z.land lock (Z.lor WRITER UPGRADEABLE_READER) in
  (fetch_or lock UPGRADEABLE_READER,
   if prev =? 0 then Upreading else if prev =? WRITER then UpRetracting else Idle).

Definition try_lock (k : kind) (lock : Z) : Z * place :=
  match k with Read => try_read lock | Write => try_write lock | Upread => try_upread lock end.

(** The second operation of a failed [try_read] or [try_upread]. *)
Definition retract (p : place) (lock : Z) : option Z :=
  match p with
  | Retracting => Some (fetch_sub lock READER)
  | UpRetracting => Some (fetch_sub lock UPGRADEABLE_READER)
  | _ => None
  end.

(** The destructors of the guards, up to the call of a wake method if there is one. *)
Definition read_guard_drop (lock : Z) : Z * control :=
  (fetch_sub lock READER, if lock =? READER then WakeCheck false else Run).

Definition write_guard_drop (lock : Z) : Z * control := (fetch_and lock (unot 64 WRITER), WakeCheck true).

Definition upgradeable_guard_drop (lock : Z) : Z * control :=
  (fetch_sub lock UPGRADEABLE_READER, if lock =? UPGRADEABLE_READER then WakeCheck true else Run).

Definition guard_drop (p : place) (lock : Z) : option (Z * control) :=
  match p with
  | Reading => Some (read_guard_drop lock)
  | Writing => Some (write_guard_drop lock)
  | Upreading => Some (upgradeable_guard_drop lock)
  | _ => None
  end.

Definition upgrade (lock : Z) : Z * place := (fetch_or lock BEING_UPGRADED, Upgrading).

Definition try_upgrade (lock : Z) : Z * place :=
  if lock =? Z.lor UPGRADEABLE_READER BEING_UPGRADED
  then (Z.lor WRITER UPGRADEABLE_READER, Upgraded) else (lock, Upgrading).

Definition try_upgrade_finish (lock : Z) : Z * place := (fetch_sub lock UPGRADEABLE_READER, Writing).

(** [downgrade] calls it until it succeeds. *)
Definition try_downgrade (lock : Z) : Z * place :=
  if lock =? WRITER then (UPGRADEABLE_READER, Downgraded) else (lock, Writing).

(** ... and then clears the writer bit and wakes all waiters. *)
Definition try_downgrade_finish (lock : Z) : Z * control := (fetch_and lock (unot 64 WRITER), WakeCheck true).

(** The steps of the methods.  A thread is in its place, and has the kind of guard that it waits for if it is in
    [read], [write] or [upread]. *)
Inductive action :=
| Try (k : kind)       (* [try_read], [try_write], [try_upread] *)
| Lock (k : kind)      (* [read], [write], [upread]: the first try *)
| Retry                (* the condition of [wait_until], after the waiter is enqueued *)
| Retract
| Drop
| Upgrade | TryUpgrade | FinishUpgrade
| TryDowngrade | FinishDowngrade.

Definition is_guard (p : place) : bool := match p with Reading | Writing | Upreading => true | _ => false end.
Definition has_mark (p : place) : bool := match p with Retracting | UpRetracting => true | _ => false end.

Definition rwmutex_next (act : action) (lock : Z) (t : (place * option kind) * control) :
    option (Z * ((place * option kind) * control)) :=
  match act, t with
  | Try k, (Idle, None, Run) => let '(l, p) := try_lock k lock in Some (l, (p, None, Run))
  | Lock k, (Idle, None, Run) =>
      let '(l, p) := try_lock k lock in
      Some (l, if is_guard p then (p, None, Run) else if has_mark p then (p, Some k, Run) else (p, Some k, NewPair))
  | Retry, (Idle, Some k, Cond w) =>
      let '(l, p) := try_lock k lock in
      Some (l, if is_guard p then (p, None, Returning w) else if has_mark p then (p, Some k, Cond w) else (p, Some k, Waiting w))
  | Retract, (p, None, Run) => l ← retract p lock; Some (l, (Idle, None, Run))
  | Retract, (p, Some k, Run) => l ← retract p lock; Some (l, (Idle, Some k, NewPair))
  | Retract, (p, Some k, Cond w) => l ← retract p lock; Some (l, (Idle, Some k, Waiting w))
  | Drop, (p, None, Run) => '(l, a) ← guard_drop p lock; Some (l, (Idle, None, a))
  | Upgrade, (Upreading, None, Run) => let '(l, p) := upgrade lock in Some (l, (p, None, Run))
  | TryUpgrade, (Upgrading, None, Run) => let '(l, p) := try_upgrade lock in Some (l, (p, None, Run))
  | FinishUpgrade, (Upgraded, None, Run) => let '(l, p) := try_upgrade_finish lock in Some (l, (p, None, Run))
  | TryDowngrade, (Writing, None, Run) => let '(l, p) := try_downgrade lock in Some (l, (p, None, Run))
  | FinishDowngrade, (Downgraded, None, Run) => let '(l, a) := try_downgrade_finish lock in Some (l, (Upreading, None, a))
  | _, _ => None
  end.

Global Instance rwmutex_client : WaitClient Z (place * option kind) action :=
  {| client_new := rwmutex_new; client_idle := (Idle, None); client_next := rwmutex_next |}.

Local Notation thread := ((place * option kind) * control)%type.

(** The steps, one by one. *)
Inductive rw_step (l : Z) : action -> thread -> Z -> thread -> Prop :=
| s_try k l' p : try_lock k l = (l', p) -> rw_step l (Try k) (Idle, None, Run) l' (p, None, Run)
| s_lock k l' p : try_lock k l = (l', p) -> rw_step l (Lock k) (Idle, None, Run) l'
    (if is_guard p then (p, None, Run) else if has_mark p then (p, Some k, Run) else (p, Some k, NewPair))
| s_retry k w l' p : try_lock k l = (l', p) -> rw_step l Retry (Idle, Some k, Cond w) l'
    (if is_guard p then (p, None, Returning w) else if has_mark p then (p, Some k, Cond w) else (p, Some k, Waiting w))
| s_retract_try p l' : retract p l = Some l' -> rw_step l Retract (p, None, Run) l' (Idle, None, Run)
| s_retract_first p k l' : retract p l = Some l' -> rw_step l Retract (p, Some k, Run) l' (Idle, Some k, NewPair)
| s_retract_cond p k w l' : retract p l = Some l' -> rw_step l Retract (p, Some k, Cond w) l' (Idle, Some k, Waiting w)
| s_drop p l' a : guard_drop p l = Some (l', a) -> rw_step l Drop (p, None, Run) l' (Idle, None, a)
| s_upgrade : rw_step l Upgrade (Upreading, None, Run) (upgrade l).1 (Upgrading, None, Run)
| s_try_upgrade : rw_step l TryUpgrade (Upgrading, None, Run) (try_upgrade l).1 ((try_upgrade l).2, None, Run)
| s_finish_upgrade : rw_step l FinishUpgrade (Upgraded, None, Run) (try_upgrade_finish l).1 (Writing, None, Run)
| s_try_downgrade : rw_step l TryDowngrade (Writing, None, Run) (try_downgrade l).1 ((try_downgrade l).2, None, Run)
| s_finish_downgrade : rw_step l FinishDowngrade (Downgraded, None, Run) (try_downgrade_finish l).1 (Upreading, None, WakeCheck true).

Lemma next_step act l t l' t' : rwmutex_next act l t = Some (l', t') -> rw_step l act t l' t'.
Proof.
  destruct t as [[p k] a]. destruct act as [k0|k0| | | | | | | |]; cbn [rwmutex_next].
  1,2: destruct p, k, a; try done; destruct (try_lock k0 l) as [l1 p1] eqn:Ht; intros [= <- <-]; by constructor.
  1: destruct p, k as [k0|], a; try done; destruct (try_lock k0 l) as [l1 p1] eqn:Ht; intros [= <- <-]; by constructor.
  1: destruct k, a; try done; destruct (retract p l) as [l1|] eqn:Hr; try done; intros [= <- <-]; by constructor.
  1: destruct k, a; try done; destruct (guard_drop p l) as [[l1 a1]|] eqn:Hd; try done; intros [= <- <-]; by constructor.
  1,3,5: destruct p, k, a; try done; intros [= <- <-]; constructor.
  - destruct p, k, a; try done. destruct (try_upgrade l) as [l1 p1] eqn:Ht. intros [= <- <-]. pose proof (s_try_upgrade l) as Hs. by rewrite Ht in Hs.
  - destruct p, k, a; try done. destruct (try_downgrade l) as [l1 p1] eqn:Ht. intros [= <- <-]. pose proof (s_try_downgrade l) as Hs. by rewrite Ht in Hs.
Qed.

Lemma guard_drop_control p l l' a : guard_drop p l = Some (l', a) -> a = Run \/ a = WakeCheck false \/ a = WakeCheck true.
Proof. destruct p; try done; intros [= <- <-]; try case_match; auto. Qed.

Global Instance rwmutex_client_laws : WaitClientLaws Z (place * option kind) action.
Proof.
  split. intros act l t l' t' Hn%next_step. destruct Hn as [| | | | | |p l' a Hd| | | | |]; try done; cbn.
  - by destruct p.
  - destruct p; cbn; apply Nat.eqb_refl.
  - apply Nat.eqb_refl.
  - by destruct (guard_drop_control _ _ _ _ Hd) as [->|[->| ->]].
Qed.

(** ** The word *)

(** The agent of the spinning lock that has the same guard or mark. *)
Definition view (p : place) : agent :=
  match p with
  | Idle => RwLock.Idle | Reading => RwLock.Reading | Retracting => RwLock.Retracting | Writing => RwLock.Writing
  | Upreading | Downgraded => RwLock.Upreading | UpRetracting => RwLock.UpRetracting
  | Upgrading => RwLock.Upgrading | Upgraded => RwLock.Upgraded
  end.
Definition agents (ts : list thread) : list agent := (fun t => view t.1.1) <$> ts.

(** A step on the word is one of the spinning lock, none, or one of [try_downgrade]. *)
Definition word_step (l : Z) (p : place) (l' : Z) (p' : place) : Prop :=
  agent_step l (view p) (l', view p') \/ l' = l /\ view p' = view p \/
  p = Writing /\ l = WRITER /\ l' = UPGRADEABLE_READER /\ p' = Downgraded \/
  p = Downgraded /\ l' = fetch_and l (unot 64 WRITER) /\ p' = Upreading.

Lemma try_lock_step k l : agent_step l RwLock.Idle ((try_lock k l).1, view (try_lock k l).2).
Proof.
  destruct k; cbn [try_lock].
  - pose proof (st_try_read l) as Hs. unfold RwLock.try_read, try_read in *.
    change (Z.lor (Z.lor WRITER BEING_UPGRADED) MAX_READER) with (Z.lor (Z.lor RwLock.WRITER RwLock.MAX_READER) RwLock.BEING_UPGRADED).
    by destruct (_ =? 0).
  - pose proof (st_try_write l) as Hs. unfold RwLock.try_write, try_write in *. by destruct (_ =? 0).
  - pose proof (st_try_upread l) as Hs. unfold RwLock.try_upread, try_upread in *.
    change WRITER with RwLock.WRITER. change UPGRADEABLE_READER with RwLock.UPGRADEABLE_READER.
    destruct (_ =? 0); [done|]. by destruct (_ =? RwLock.WRITER).
Qed.

Lemma retract_step p l l' : retract p l = Some l' -> agent_step l (view p) (l', RwLock.Idle).
Proof. destruct p; try done; intros [= <-]; [exact (st_read_retract l)|exact (st_upread_retract l)]. Qed.

Lemma guard_drop_step p l r : guard_drop p l = Some r -> agent_step l (view p) (r.1, RwLock.Idle).
Proof. destruct p; try done; intros [= <-]; [exact (st_read_drop l)|exact (st_write_drop l)|exact (st_up_drop l)]. Qed.

Lemma client_word act l t l' t' : rwmutex_next act l t = Some (l', t') -> word_step l t.1.1 l' t'.1.1.
Proof.
  intros Hn%next_step. unfold word_step. destruct Hn as [k l' p Ht|k l' p Ht|k w l' p Ht| | | |p l' a Hd| | | | |]; cbn [fst snd].
  1-3: left; pose proof (try_lock_step k l) as Hs; rewrite Ht in Hs; by destruct p.
  1-3: left; by apply retract_step.
  - left. exact (guard_drop_step _ _ _ Hd).
  - left. exact (st_upgrade l).
  - left. pose proof (st_try_upgrade l) as Hs. unfold RwLock.try_upgrade, try_upgrade in *.
    change (Z.lor UPGRADEABLE_READER BEING_UPGRADED) with (Z.lor RwLock.UPGRADEABLE_READER RwLock.BEING_UPGRADED).
    by destruct (l =? _).
  - left. exact (st_upgrade_finish l).
  - unfold try_downgrade. destruct (Z.eqb_spec l WRITER); [do 2 right; by left|right; by left].
  - by do 3 right.
Qed.

Lemma clear_writer_word R U B : fields R 0 U B -> fetch_and (word R 0 U B) (unot 64 WRITER) = word R 0 U B.
Proof.
  intros Hf. destruct (word_bits _ _ _ _ Hf) as (H63 & _ & _ & _ & Hb). unfold fetch_and. change WRITER with (2 ^ 63).
  apply (uint_eq_bits 64); [lia| |done|].
  - apply uint_land; [lia|done].
  - intros k Hk. rewrite Z.land_spec, testbit_unot, testbit_pow2 by lia.
    destruct (Z.eqb_spec k 63) as [->|]; cbn [negb]; [by rewrite H63|]. by rewrite andb_true_r.
Qed.

Lemma word_step_inv l ts i t l' t' : Z.of_nat (length ts) < 2 ^ 61 -> lock_inv l (agents ts) -> ts !! i = Some t ->
  word_step l t.1.1 l' t'.1.1 -> lock_inv l' (agents (<[i := t']> ts)).
Proof.
  intros Hn Hl Hi Hs. assert (agents ts !! i = Some (view t.1.1)) as Hi' by (unfold agents; by rewrite list_lookup_fmap, Hi).
  unfold agents at 1. rewrite list_fmap_insert. fold (agents ts).
  assert (Z.of_nat (length (agents ts)) < 2 ^ 61) as Hn' by (unfold agents; by rewrite length_fmap).
  destruct Hs as [Hs|[[-> ->]|[(Hp & -> & -> & Hp')|(Hp & -> & Hp')]]].
  - by eapply lock_step_inv.
  - by rewrite list_insert_id.
  - destruct Hl as (Hlock & HW & HU & Hex). destruct (counts _ Hn' HW HU) as (Hf & Hrd & Hug & Hup). rewrite Hp in Hi'. rewrite Hp'.
    pose proof (number_one is_writer _ i _ Hi' eq_refl). unfold fields in Hf. change WRITER with (2 ^ 63) in Hlock.
    eapply (lock_inv_update _ _ i _ _ 0 0 1 0 Hi'); try reflexivity; cbn; lia.
  - rewrite Hp in Hi'. rewrite Hp'. rewrite list_insert_id by done. destruct (Hl) as (Hlock & HW & HU & Hex).
    destruct (counts _ Hn' HW HU) as (Hf & _). pose proof (number_one is_upread _ i _ Hi' eq_refl).
    assert (number is_writer (agents ts) = 0) as HW0 by (destruct (decide (number is_writer (agents ts) = 1)); [lia|unfold fields in Hf; lia]).
    fold (word (number in_readers (agents ts)) (number is_writer (agents ts)) (number has_upbit (agents ts)) (number is_upgrading (agents ts))) in Hlock.
    rewrite Hlock. rewrite HW0 in *. rewrite clear_writer_word by done. by rewrite <- Hlock.
Qed.

Definition mutex_inv (n : nat) (l : Z) (ts : list thread) : Prop := length ts = n /\ lock_inv l (agents ts).

Lemma number_idle P n : P RwLock.Idle = false -> number P (agents (replicate n (Idle, None, Run))) = 0.
Proof.
  intros HP. apply number_zero. unfold agents. intros i a. rewrite list_lookup_fmap. intros (t & [-> _]%lookup_replicate & ->)%fmap_Some. done.
Qed.

Lemma rwmutex_reachable_inv c ok n s ts : Z.of_nat n < 2 ^ 61 -> reachable c ok n s ts -> mutex_inv n s.1 ts.
Proof.
  intros Hn. induction 1 as [|s ts s' ts' _ [Hlen IH] [i o t s1 t' Hi Hs]].
  { split; [apply length_replicate|]. unfold lock_inv. change (client_new _ _) with rwmutex_new.
    change (outside) with (Idle, None : option kind, Run). rewrite !number_idle by done. done. }
  split; [by rewrite length_insert|]. eapply word_step_inv; [lia|done|done|].
  destruct o as [act|]; cbn in Hs.
  - destruct (ok act); [|done]. destruct (rwmutex_next act s.1 t) as [[l' t1]|] eqn:Hc; [|done]. injection Hs as <- <-. by eapply client_word.
  - destruct (queue_next c s.2 t.2) as [[q' a']|] eqn:Hq; [|done]. injection Hs as <- <-. right; by left.
Qed.

(** C20: mutual exclusion.  In every reachable state of the mutex, for any interleaving of the calls of fewer than [2^61]
    threads (waiting for guards, trying, upgrading, downgrading and dropping), a thread with exclusive access (a write guard,
    also one obtained by an upgrade) is the only one with access to the data, and at most one thread has an upgradeable
    guard.  When all threads are outside the word is 0. *)
Theorem rwmutex_exclusion c ok n s ts : Z.of_nat n < 2 ^ 61 -> reachable c ok n s ts ->
  (forall i j a b, i <> j -> ts !! i = Some a -> ts !! j = Some b ->
    (exclusive (view a.1.1) = true -> accesses (view b.1.1) = false) /\
    (is_upread (view a.1.1) = true -> is_upread (view b.1.1) = false)) /\
  (Forall (fun t => t.1.1 = Idle) ts -> s.1 = 0).
Proof.
  intros Hn Hr. destruct (rwmutex_reachable_inv c ok n s ts Hn Hr) as [Hlen Hl]. split.
  - intros i j a b Hij Hi Hj. eapply (lock_inv_exclusion s.1 (agents ts) i j); [|done|done| |].
    + unfold agents. rewrite length_fmap. lia.
    + unfold agents. by rewrite list_lookup_fmap, Hi.
    + unfold agents. by rewrite list_lookup_fmap, Hj.
  - intros Hidle. destruct Hl as [-> _].
    assert (forall P, P RwLock.Idle = false -> number P (agents ts) = 0) as Hz.
    { intros P HP. apply number_zero. unfold agents. intros i a. rewrite list_lookup_fmap. intros (t & Ht & ->)%fmap_Some.
      rewrite Forall_forall in Hidle. by rewrite (Hidle t) by (by eapply list_elem_of_lookup_2). }
    by rewrite !Hz.
Qed.

(** ** Example runs *)

Definition any (_ : action) : bool := true.

(** Thread 0 downgrades its write guard while thread 1 has tried to read and then waits; thread 1 is woken and reads. *)
Definition downgrade_schedule : list (nat * option action) :=
  [(0%nat, Some (Lock Write)); (1%nat, Some (Lock Read)); (1%nat, Some Retract)] ++ replicate 5 (1%nat, None) ++
  [(0%nat, Some TryDowngrade); (0%nat, Some FinishDowngrade); (1%nat, Some Retry); (1%nat, None)].

Definition downgraded : list thread := [(Upreading, None, WakeCheck true); (Reading, None, Run)].

Lemma downgrade_reachable : reachable true any 2 (UPGRADEABLE_READER + READER, mk_queue false [0%nat] 1 [true]) downgraded.
Proof. apply (run_reachable true any 2 downgrade_schedule _ _ _ _ (reach_init true any 2)). vm_compute. reflexivity. Qed.

Lemma rwmutex_exclusion_witness : is_upread (view Reading) = false.
Proof.
  exact (proj2 (proj1 (rwmutex_exclusion true any 2 _ downgraded ltac:(lia) downgrade_reachable) 0%nat 1%nat
    (Upreading, None, WakeCheck true) (Reading, None, Run) ltac:(lia) eq_refl eq_refl) eq_refl).
Defined.
