(* ===== verification/RwMutexWake.v ===== *)
(** * Waking in [ostd/src/sync/rwmutex.rs]

    Whether a thread that waits for a guard of the reader-writer mutex is woken.  When all
    threads wait for their guards, nobody sleeps while everyone else is outside; with the
    [try_] methods a wake-up can be lost. *)

From S2P Require Import Prelude Agents RwLock WaitQueue RwMutex.
Open Scope Z_scope.

Local Notation thread := ((place * option kind) * control)%type.

(** ** No wake-up is lost between waiting threads *)

(** Only the calls that wait for a guard. *)
Definition waits_only (act : action) : bool := match act with Try _ => false | _ => true end.

Definition in_wake (a : control) : bool :=
  match a with WakeCheck _ | WakeLock _ | WakePop _ | WakeNone | WakeCount _ _ | WakeUnlock _ _ | WakeUp _ _ => true | _ => false end.
Definition in_wait (a : control) : bool :=
  match a with NewPair | EnqLock _ | EnqPush _ | EnqCount _ | EnqUnlock _ | Cond _ | Waiting _ | Parked _ => true | _ => false end.

(** Which places go with which controls. *)
Definition fits (t : thread) : bool :=
  match t with
  | (Idle, None, a) => match a with Run => true | _ => in_wake a end
  | (Idle, Some _, a) => in_wait a
  | ((Retracting | UpRetracting), Some _, (Run | Cond _)) => true
  | ((Reading | Writing), None, (Run | Returning _)) => true
  | (Upreading, None, a) => match a with Run | Returning _ => true | _ => in_wake a end
  | ((Upgrading | Upgraded | Downgraded), None, Run) => true
  | _ => false
  end.

Lemma try_lock_places k l : match (try_lock k l).2 with Idle | Reading | Writing | Upreading | Retracting | UpRetracting => True | _ => False end.
Proof. destruct k; cbn; [|unfold try_write|unfold try_upread]; repeat case_match; simplify_eq; cbn in *; simplify_eq; done. Qed.

Lemma fits_next c o s t s' t' : thread_next c waits_only o s t = Some (s', t') -> fits t = true -> fits t' = true.
Proof.
  intros Hs Hf. destruct o as [act|]; cbn in Hs.
  - destruct (waits_only act) eqn:Hok; [|done]. destruct (rwmutex_next act s.1 t) as [[l1 t1]|] eqn:Hn; [|done]. injection Hs as <- <-.
    apply next_step in Hn. destruct Hn as [|k l' p Ht|k w l' p Ht| | | |p l' a Hd| | | | |]; try done.
    1,2: pose proof (try_lock_places k s.1) as Hp; rewrite Ht in Hp; by destruct p.
    + by destruct (guard_drop_control _ _ _ _ Hd) as [->|[->| ->]].
    + unfold try_upgrade. by destruct (s.1 =? _).
    + unfold try_downgrade. by destruct (s.1 =? _).
  - destruct (queue_next c s.2 t.2) as [[q' a']|] eqn:Hq; [|done]. injection Hs as <- <-. destruct t as [[p k] a]. cbn [fst snd] in *.
    destruct a; try (by destruct p, k); cbn in Hq; repeat case_match; simplify_eq; by destruct p, k.
Qed.

(** *** Who keeps the waiting threads from sleeping for ever *)

(** A thread that has a guard, that is about to try for one, or that wakes others. *)
Definition busy (q : WaitQueue) (t : thread) : bool :=
  match t.1.1 with
  | Idle => committed q t.2
  | Retracting | UpRetracting => match t.2 with Cond w => woken q w | _ => true end
  | _ => true
  end.

(** A thread that sleeps, or that will after it has taken back its mark. *)
Definition sleeps (q : WaitQueue) (t : thread) : option nat :=
  match t with
  | (_, (Waiting w | Parked w)) | (Retracting, _, Cond w) | (UpRetracting, _, Cond w) => if woken q w then None else Some w
  | _ => None
  end.

Definition blocks (t : thread) : bool := is_writer (view t.1.1) || is_upgrading (view t.1.1).

(** A thread that the condition has left with a mark, and that was not woken since, met a writer or an upgrade, who is still
    there or wakes all. *)
Definition mark_inv (q : WaitQueue) (ts : list thread) : Prop :=
  forall i t w, ts !! i = Some t -> has_mark t.1.1 = true -> t.2 = Cond w -> woken q w = false ->
    exists j b, ts !! j = Some b /\ (blocks b = true \/ waking_all b.2 = true \/ carried b.2 = Some w).

Definition wake_inv (q : WaitQueue) (ts : list thread) : Prop :=
  forall i t w, ts !! i = Some t -> sleeps q t = Some w -> exists j b, ts !! j = Some b /\ busy q b = true.

Definition all_fit (ts : list thread) : Prop := forall i t, ts !! i = Some t -> fits t = true.

Lemma helper_busy q t w : fits t = true -> blocks t = true \/ waking_all t.2 = true \/ carried t.2 = Some w -> busy q t = true.
Proof.
  destruct t as [[p k] a]. intros Hf [Hb|[Hb|Hb]]; unfold blocks, busy in *; cbn [fst snd] in *.
  - by destruct p.
  - destruct p, k, a; try done; by destruct all.
  - by destruct p, k, a.
Qed.

(** A thread that is committed, or has left a mark, is busy or has someone who is. *)
Lemma awake_busy q ts i t : all_fit ts -> mark_inv q ts -> ts !! i = Some t ->
  committed q t.2 = true \/ t.1.1 <> Idle -> exists j b, ts !! j = Some b /\ busy q b = true.
Proof.
  intros Hfit Hmark Hi Ht. destruct (busy q t) eqn:Hb; [by exists i, t|]. destruct t as [[p k] a]. unfold busy in Hb. cbn [fst snd] in *.
  assert (has_mark p = true /\ exists w, a = Cond w /\ woken q w = false) as (Hm & w & -> & Hw).
  { destruct p; try done; [destruct Ht as [Ht|[]]; [congruence|done]| |]; (split; [done|]); destruct a; try done; eauto. }
  destruct (Hmark i _ w Hi Hm eq_refl Hw) as (j & b & Hj & Hh). exists j, b. split; [done|]. by eapply helper_busy; [eapply Hfit|].
Qed.

(** If the word is not 0, someone has a guard or has left a mark. *)
Lemma nonzero_place l ts : lock_inv l (agents ts) -> l <> 0 -> exists i t, ts !! i = Some t /\ t.1.1 <> Idle.
Proof.
  intros [Hl _] Hne. pose proof (number_nonneg in_readers (agents ts)). pose proof (number_nonneg is_writer (agents ts)).
  pose proof (number_nonneg has_upbit (agents ts)). pose proof (number_nonneg is_upgrading (agents ts)).
  assert (exists P, P RwLock.Idle = false /\ 0 < number P (agents ts)) as (P & HP & Hpos).
  { destruct (decide (0 < number in_readers (agents ts))); [by exists in_readers|].
    destruct (decide (0 < number is_writer (agents ts))); [by exists is_writer|].
    destruct (decide (0 < number has_upbit (agents ts))); [by exists has_upbit|]. exists is_upgrading. split; [done|lia]. }
  destruct (number_pos P _ Hpos) as (i & a & Hi & Ha). unfold agents in Hi. rewrite list_lookup_fmap in Hi.
  apply fmap_Some in Hi as (t & Hi & ->). exists i, t. split; [done|]. intros Hid. rewrite Hid in Ha. cbn in Ha. congruence.
Qed.

(** A condition that leaves a mark has met a writer or an upgrade. *)
Lemma mark_blocked k l ts : Z.of_nat (length ts) < 2 ^ 60 -> lock_inv l (agents ts) -> has_mark (try_lock k l).2 = true ->
  exists i t, ts !! i = Some t /\ blocks t = true.
Proof.
  intros Hn Hl Hm. destruct Hl as (Hlock & HW & HU & Hex).
  assert (Z.of_nat (length (agents ts)) < 2 ^ 60) as Hn' by (unfold agents; by rewrite length_fmap).
  destruct (counts (agents ts) ltac:(lia) HW HU) as (Hf & _). pose proof (number_le_length in_readers (agents ts)).
  fold (word (number in_readers (agents ts)) (number is_writer (agents ts)) (number has_upbit (agents ts)) (number is_upgrading (agents ts))) in Hlock.
  assert (exists P, (forall a, P a = true -> is_writer a || is_upgrading a = true) /\ 0 < number P (agents ts)) as (P & HP & Hpos).
  { pose proof Hf as (? & ? & ? & ?). destruct k; cbn [try_lock] in Hm.
    - pose proof (try_read_word _ _ _ _ Hf ltac:(lia)) as Hw. rewrite <- Hlock in Hw. injection Hw as _ Hw.
      unfold try_read in Hm. cbn [snd] in Hm.
      change (Z.lor (Z.lor WRITER BEING_UPGRADED) MAX_READER) with (Z.lor (Z.lor RwLock.WRITER RwLock.MAX_READER) RwLock.BEING_UPGRADED) in Hm.
      destruct (_ =? 0); [done|]. destruct (Z.eqb_spec (number is_writer (agents ts)) 0); [|exists is_writer; split; [by intros [] | lia]].
      destruct (Z.eqb_spec (number is_upgrading (agents ts)) 0); [|exists is_upgrading; split; [by intros []|lia]].
      exfalso. destruct (Z.ltb_spec (number in_readers (agents ts)) (2 ^ 60)); [done|lia].
    - unfold try_write in Hm. by destruct (l =? 0).
    - pose proof (try_upread_word _ _ _ _ Hf) as Hw. rewrite <- Hlock in Hw. injection Hw as _ Hw.
      unfold try_upread in Hm. cbn [snd] in Hm. change WRITER with RwLock.WRITER in Hm. change UPGRADEABLE_READER with RwLock.UPGRADEABLE_READER in Hm.
      exists is_writer. split; [by intros []|]. destruct (Z.eqb_spec (number has_upbit (agents ts)) 1), (Z.eqb_spec (number is_writer (agents ts)) 1); try lia;
        destruct (_ =? 0); try done; destruct (_ =? RwLock.WRITER); done. }
  destruct (number_pos P _ Hpos) as (i & a & Hi & Ha). unfold agents in Hi. rewrite list_lookup_fmap in Hi.
  apply fmap_Some in Hi as (t & Hi & ->). exists i, t. split; [done|]. by apply HP.
Qed.

Lemma word_bounds l ts : Z.of_nat (length ts) < 2 ^ 60 -> lock_inv l (agents ts) -> 0 <= l < 2 ^ 64.
Proof.
  intros Hn (Hl & HW & HU & _). destruct (counts (agents ts) ltac:(unfold agents; rewrite length_fmap; lia) HW HU) as (Hf & _).
  destruct (word_bits _ _ _ _ Hf) as (_ & _ & _ & _ & Hb). unfold word in Hb. lia.
Qed.

(** A condition that fails without a mark leaves a word that is not 0, ... *)
Lemma refused_nonzero k l : (try_lock k l).2 = Idle -> (try_lock k l).1 <> 0.
Proof.
  destruct k; cbn [try_lock].
  - unfold try_read. cbn. by destruct (_ =? 0).
  - unfold try_write. destruct (Z.eqb_spec l 0); cbn; [done|]. done.
  - intros _ Hz. unfold try_upread, fetch_or in Hz. cbn [fst] in Hz. apply Z.lor_eq_0_iff in Hz as [_ Hz]. done.
Qed.

(** ... and so does a guard that wakes nobody. *)
Lemma drop_nonzero p l r : 0 <= l < 2 ^ 64 -> guard_drop p l = Some r -> r.2 = Run -> r.1 <> 0.
Proof.
  intros Hl Hd Hr. destruct p; try done; injection Hd as <-; cbn in *; try done.
  - destruct (Z.eqb_spec l READER) as [|Hne]; [done|]. unfold fetch_sub, wrapping_sub, READER in *.
    intros Hz. apply Z.mod_divide in Hz as [x Hx]; lia.
  - destruct (Z.eqb_spec l UPGRADEABLE_READER) as [|Hne]; [done|]. change UPGRADEABLE_READER with (2 ^ 62) in *. unfold fetch_sub, wrapping_sub.
    intros Hz. apply Z.mod_divide in Hz as [x Hx]; lia.
Qed.

(** What is left behind by a step of a method after which the thread is not busy. *)
Lemma idle_after act q l t l' t' : waits_only act = true -> fits t = true -> 0 <= l < 2 ^ 64 -> rwmutex_next act l t = Some (l', t') -> busy q t' = false ->
  l' <> 0 \/ t'.1.1 <> Idle \/ exists w, has_mark t.1.1 = true /\ t.2 = Cond w /\ woken q w = false.
Proof.
  intros Ha Hft Hl Hn%next_step Hb. destruct Hn as [|k l' p Ht|k w l' p Ht|p l' Hr| |p k w l' Hr|p l' a Hd| | | | |]; try done.
  - by destruct p.
  - pose proof (refused_nonzero k l) as Hr. rewrite Ht in Hr. destruct p; try done; [left; by apply Hr|right; by left..].
  - by destruct p.
  - do 2 right. exists w. by destruct p.
  - left. apply (drop_nonzero p l (l', a) Hl Hd). by destruct (guard_drop_control _ _ _ _ Hd) as [->|[->| ->]].
  - unfold try_upgrade in Hb. by destruct (l =? _).
  - unfold try_downgrade in Hb. by destruct (l =? _).
Qed.

(** *** One step *)

Section rw_step.
Context (s : Z * WaitQueue) (ts : list thread) (i : nat) (o : option action) (t : thread) (s' : Z * WaitQueue) (t' : thread).
Hypothesis few : Z.of_nat (length ts) < 2 ^ 60.
Hypothesis Hi : ts !! i = Some t.
Hypothesis Hs : thread_next true waits_only o s t = Some (s', t').
Hypothesis Hlock : lock_inv s.1 (agents ts).
Hypothesis Hfit : all_fit ts.
Hypothesis Hcount : counts_inv s.2 ts.*2.
Hypothesis Hown : owners_inv s.2 ts.*2.
Hypothesis Hpush : pushed_inv s.2 ts.*2.
Hypothesis Hwak : wakers_inv s.2 ts.*2.

Lemma control_of j b : ts !! j = Some b -> ts.*2 !! j = Some b.2.
Proof using Type. intros Hj. by rewrite list_lookup_fmap, Hj. Qed.

Lemma rw_move : queue_move true s.2 t.2 s'.2 t'.2.
Proof using Hs. by eapply thread_move. Qed.

(** The two kinds of steps. *)
Lemma step_cases : (exists act, waits_only act = true /\ rwmutex_next act s.1 t = Some (s'.1, t') /\ s'.2 = s.2) \/
  queue_next true s.2 t.2 = Some (s'.2, t'.2) /\ s'.1 = s.1 /\ t'.1 = t.1.
Proof using Hs.
  destruct o as [act|]; cbn [thread_next] in Hs.
  - destruct (waits_only act) eqn:Ha; [|done]. left. exists act. change (client_next act s.1 t) with (rwmutex_next act s.1 t) in Hs.
    destruct (rwmutex_next act s.1 t) as [[l' t1]|]; [|done]. by injection Hs as <- <-.
  - destruct (queue_next true s.2 t.2) as [[q' a']|]; [|done]. injection Hs as <- <-. by right.
Qed.

(** Who meets a thread with a mark keeps blocking or wakes all. *)
Lemma blocks_step j b : j <> i -> ts !! j = Some b -> has_mark b.1.1 = true -> blocks t = true -> blocks t' = true \/ waking_all t'.2 = true.
Proof using few Hi Hs Hlock.
  intros Hji Hj Hm Hb. destruct step_cases as [(act & _ & Hn & _)|(_ & _ & Hp)]; [|left; unfold blocks in *; by rewrite Hp].
  assert (s.1 <> WRITER) as Hne.
  { intros Hl. pose proof Hlock as (Hlk & HW & HU & Hex). pose proof (number_nonneg is_upgrading (agents ts)).
    destruct (counts (agents ts) ltac:(unfold agents; rewrite length_fmap; lia) HW HU) as ((? & ? & ? & ?) & _).
    pose proof (number_le_length in_readers (agents ts)) as Hr. unfold agents at 2 in Hr. rewrite length_fmap in Hr.
    assert (agents ts !! j = Some (view b.1.1)) as Hj' by (unfold agents; by rewrite list_lookup_fmap, Hj).
    change WRITER with (2 ^ 63) in Hl. destruct (b.1.1) eqn:Hp; try done.
    - pose proof (number_one in_readers _ j _ Hj' eq_refl). lia.
    - pose proof (number_one has_upbit _ j _ Hj' eq_refl). lia. }
  apply next_step in Hn. destruct Hn as [| | |p l' Hr|p k l' Hr|p k w l' Hr|p l' a Hd| | | | |]; try done; try (by destruct p).
  - right. destruct p; try done. by injection Hd as <- <-.
  - left. unfold try_upgrade. by destruct (s.1 =? _).
  - by left.
  - left. unfold try_downgrade. by destruct (Z.eqb_spec s.1 WRITER).
Qed.

(** A new mark of a condition. *)
Lemma mark_new w : has_mark t'.1.1 = true -> t'.2 = Cond w -> exists j b, j <> i /\ ts !! j = Some b /\ blocks b = true.
Proof using few Hi Hs Hlock Hfit.
  intros Hm Hc. pose proof (Hfit i t Hi) as Hf. destruct step_cases as [(act & Ha & Hn & _)|(Hn & _ & Hp)].
  - assert (t.1.1 = Idle /\ exists k, has_mark (try_lock k s.1).2 = true) as (Hid & k & Hk).
    { apply next_step in Hn. destruct Hn as [|k l' p Ht|k w' l' p Ht| | | |p l' a Hd| | | | |]; try done; cbn [fst snd] in *.
      + by destruct p.
      + split; [done|]. exists k. rewrite Ht. by destruct p. }
    destruct (mark_blocked k s.1 ts few Hlock Hk) as (j & b & Hj & Hb). exists j, b. split; [|done]. intros ->.
    assert (b = t) as -> by congruence. unfold blocks in Hb. by rewrite Hid in Hb.
  - rewrite Hp in Hm. destruct t as [[p k] a]; destruct p, k, a; done.
Qed.

Lemma mark_step : mark_inv s.2 ts -> mark_inv s'.2 (<[i := t']> ts).
Proof using few Hi Hs Hlock Hfit Hcount Hown Hpush Hwak.
  intros Hmark j b w Hj Hm Hc Hf. pose proof (control_of _ _ Hi) as Hi2. pose proof rw_move as Hmv.
  assert (forall m e, m <> i -> ts !! m = Some e -> blocks e = true \/ waking_all e.2 = true \/ carried e.2 = Some w ->
    exists j b, <[i := t']> ts !! j = Some b /\ (blocks b = true \/ waking_all b.2 = true \/ carried b.2 = Some w)) as Hother.
  { intros m e Hmi Hme He. exists m, e. split; [by apply lookup_step_other|done]. }
  assert (blocks t' = true \/ waking_all t'.2 = true \/ carried t'.2 = Some w ->
    exists j b, <[i := t']> ts !! j = Some b /\ (blocks b = true \/ waking_all b.2 = true \/ carried b.2 = Some w)) as Hsame.
  { intros He. exists i, t'. split; [by eapply lookup_step_same|done]. }
  apply (lookup_step _ _ _ _ _ _ Hi) in Hj as [[-> ->]|[Hji Hj]].
  { destruct (mark_new w Hm Hc) as (m & e & Hmi & Hme & He). eapply Hother; eauto. }
  assert (woken s.2 w = false) as Hf0 by (eapply (other_woken true s.2 ts.*2 i t.2 s'.2 t'.2); eauto using control_of; by rewrite Hc).
  destruct (Hmark j b w Hj Hm Hc Hf0) as (m & e & Hme & He). destruct (decide (m = i)) as [->|Hmi]; [|by eapply Hother].
  assert (e = t) as -> by congruence. destruct He as [He|[He|He]].
  - destruct (blocks_step j b Hji Hj Hm He) as [?|?]; auto.
  - destruct (waking_all t'.2) eqn:Hw'; [auto|]. destruct Hmv as [Hn|[_ Hn]]; [|destruct t.2; try done; by destruct all].
    destruct (wake_all_done s.2 ts.*2 i t.2 s'.2 t'.2 Hi2 Hcount Hown Hwak j w Hpush Hn He Hw') as (k & d & Hki & Hk & Hd);
      [by rewrite (control_of _ _ Hj), Hc|done|].
    rewrite list_lookup_fmap in Hk. apply fmap_Some in Hk as (e & Hk & ->). eapply Hother; eauto.
  - apply Hsame. do 2 right. by eapply carried_step.
Qed.

(** A busy thread other than the one that moves stays busy. *)
Lemma busy_other m e : m <> i -> ts !! m = Some e -> busy s.2 e = true -> busy s'.2 e = true.
Proof using Hi Hs Hown.
  intros Hmi Hm Hb. pose proof (control_of _ _ Hi) as Hi2. pose proof rw_move as Hmv. pose proof (control_of _ _ Hm) as Hm2. unfold busy in *.
  destruct (e.1.1); try done; [by apply (committed_other s.2 ts.*2 i t.2 s'.2 t'.2 Hi2 Hmv Hown m)| |].
  all: destruct (e.2) eqn:He; try done; apply not_false_iff_true; intros Hf; rewrite ?He in Hm2;
    pose proof (other_woken true s.2 ts.*2 i t.2 s'.2 t'.2 Hi2 Hmv Hown m (Cond w) w Hmi Hm2 eq_refl Hf); congruence.
Qed.

Lemma sleeps_listed q b w : sleeps q b = Some w -> listed b.2 = Some w /\ own b.2 = Some w /\ woken q w = false.
Proof using Type.
  destruct b as [[p k] a]. destruct p, a; cbn; try done; case_match; try done; intros [= <-]; done.
Qed.

(** A step in the queue: who sleeps then slept before. *)
Lemma sleeps_before j b w : queue_next true s.2 t.2 = Some (s'.2, t'.2) -> t'.1 = t.1 -> <[i := t']> ts !! j = Some b -> sleeps s'.2 b = Some w ->
  exists k d w', ts !! k = Some d /\ sleeps s.2 d = Some w'.
Proof using Hi Hs Hfit Hown.
  intros Hn Hp Hj Hb. destruct (sleeps_listed _ _ _ Hb) as (Hl & Ho & Hf). pose proof (control_of _ _ Hi) as Hi2. pose proof rw_move as Hmv.
  apply (lookup_step _ _ _ _ _ _ Hi) in Hj as [[-> ->]|[Hji Hj]].
  - exists i, t. destruct t as [g a], t' as [g' a']. cbn [fst snd] in *. subst g'. pose proof (Hfit i (g, a) Hi) as Hft.
    assert (asleep s'.2 a' = true) as Ha.
    { destruct (asleep s'.2 a') eqn:Ha; [done|]. exfalso. destruct g as [p k]. assert (has_mark p = true /\ a' = Cond w) as [Hm ->].
      { destruct p, a'; cbn in *; try done; repeat case_match; simplify_eq; done. }
      apply cond_from in Hn as ->. by destruct p, k. }
    apply (asleep_before _ _ _ _ _ Hn) in Ha. exists (match a with Waiting w | Parked w => w | _ => 0%nat end). split; [done|].
    destruct g as [p k]. destruct a; try done; cbn in *; apply negb_true_iff in Ha; rewrite Ha; by destruct p.
  - exists j, b, w. split; [done|]. assert (woken s.2 w = false) as Hf0 by (eapply (other_woken true s.2 ts.*2 i t.2 s'.2 t'.2); eauto using control_of).
    destruct b as [[p k] a]. destruct p, a; cbn in *; try done; case_match; try done; simplify_eq; by rewrite Hf0.
Qed.

Lemma rw_wake_step : mark_inv s.2 ts -> wake_inv s.2 ts -> wake_inv s'.2 (<[i := t']> ts).
Proof using few Hi Hs Hlock Hfit Hcount Hown Hpush Hwak.
  intros Hmark Hwake j b w Hj Hb. pose proof (mark_step Hmark) as Hmark'. pose proof (control_of _ _ Hi) as Hi2.
  assert (<[i := t']> ts !! i = Some t') as Hi' by (by eapply lookup_step_same).
  destruct (busy s'.2 t') eqn:Hbusy; [by exists i, t'|].
  assert (all_fit (<[i := t']> ts)) as Hfit'.
  { intros m e [[-> ->]|[_ Hm]]%(lookup_step _ _ _ _ _ _ Hi); [|by eapply Hfit]. eapply fits_next; [exact Hs|]. by eapply Hfit. }
  assert (forall m e, m <> i -> ts !! m = Some e -> busy s.2 e = true -> exists j b, <[i := t']> ts !! j = Some b /\ busy s'.2 b = true) as Hother.
  { intros m e Hmi Hm He. exists m, e. split; [by apply lookup_step_other|by eapply busy_other]. }
  destruct step_cases as [(act & Ha & Hn & Hq)|(Hn & Hl & Hp)].
  - pose proof (word_step_inv s.1 ts i t s'.1 t' ltac:(lia) Hlock Hi (client_word _ _ _ _ _ Hn)) as Hlock'.
    destruct (idle_after act s'.2 _ _ _ _ Ha (Hfit i t Hi) (word_bounds _ _ few Hlock) Hn Hbusy) as [Hnz|[Hne|(w' & Hm & Hc & Hf)]].
    + destruct (nonzero_place _ _ Hlock' Hnz) as (m & e & Hm & He). eapply awake_busy; eauto.
    + eapply awake_busy; eauto.
    + rewrite Hq in Hf. destruct (Hwake i t w' Hi) as (m & e & Hme & He).
      { destruct t as [[p k] a]. cbn in *. subst a. destruct p; try done; by rewrite Hf. }
      destruct (decide (m = i)) as [->|]; [|by eapply Hother]. assert (e = t) as -> by congruence.
      exfalso. unfold busy in He. rewrite Hc, Hf in He. by destruct t.1.1.
  - destruct (sleeps_before j b w Hn Hp Hj Hb) as (k & d & w' & Hk & Hd). destruct (Hwake k d w' Hk Hd) as (m & e & Hme & He).
    destruct (decide (m = i)) as [->|]; [|by eapply Hother]. assert (e = t) as -> by congruence.
    assert (t.1.1 = Idle) as Hid.
    { destruct t as [[p0 k0] a0], t' as [[p1 k1] a1]. cbn in Hp. injection Hp as -> ->. unfold busy in Hbusy. cbn in *. destruct p0; try done.
      all: pose proof (Hfit i _ Hi); by destruct k0, a0. }
    unfold busy in He, Hbusy. rewrite Hp in Hbusy. rewrite Hid in *. destruct (sleeps_listed _ _ _ Hd) as (Hli & _ & Hf).
    destruct (commitment_passed _ _ _ _ _ _ Hi2 rw_move Hcount Hown Hwak k d.2 w' Hn He Hbusy (control_of _ _ Hk) Hli Hf) as (k' & c' & Hki & Hk' & Hc').
    rewrite list_lookup_fmap in Hk'. apply fmap_Some in Hk' as (e & Hk' & ->).
    eapply (awake_busy _ _ k' e); [done|done|by apply lookup_step_other|]. destruct Hc' as [|[w'' Hr]]; [by left|].
    right. pose proof (Hfit k' e Hk'). destruct e as [[[] []] ?]; cbn in *; by subst.
Qed.
End rw_step.

(** *** Reachable states *)

Lemma rw_reachable_wake n s ts : Z.of_nat n < 2 ^ 60 -> reachable true waits_only n s ts ->
  all_fit ts /\ mark_inv s.2 ts /\ wake_inv s.2 ts.
Proof.
  intros Hn. induction 1 as [|s ts s' ts' Hr (Hf & Hm & Hw) [i o t s1 t' Hi Hs]].
  { split_and!; [by intros i t [-> _]%lookup_replicate|by intros i t w [-> _]%lookup_replicate|by intros i t w [-> _]%lookup_replicate]. }
  destruct (reachable_queue _ _ _ _ _ Hr) as (Hc & Ho & Hp & Hwk). specialize (Hwk eq_refl).
  destruct (rwmutex_reachable_inv _ _ n s ts ltac:(lia) Hr) as [Hlen Hl].
  split_and!; [|eapply mark_step; eauto; lia|eapply rw_wake_step; eauto; lia].
  intros m e [[-> ->]|[_ Hme]]%(lookup_step _ _ _ _ _ _ Hi); [|by eapply Hf]. eapply fits_next; eauto.
Qed.

(** A thread in a call or with a guard moves, unless it waits for the spin lock of the queue or sleeps. *)
Lemma rw_thread_moves (s : Z * WaitQueue) t : t <> (Idle, None, Run) -> fits t = true -> Z.of_nat (length (wakers s.2)) < 2 ^ 32 ->
  (exists o, is_Some (thread_next true waits_only o s t)) \/ queue_lock s.2 = true \/ asleep s.2 t.2 = true.
Proof.
  intros Ho Hf Hq. destruct t as [[p k] a].
  assert ((exists w, a = Cond w) \/ a = Run \/ a <> Run /\ forall w, a <> Cond w) as [[w ->]|[->|[Hr Hc]]] by (destruct a; naive_solver).
  - left. destruct p, k as [k|]; try done; [exists (Some Retry)|exists (Some Retract)|exists (Some Retract)]; cbn; eauto. destruct (try_lock k s.1); cbn; eauto.
  - left. destruct p, k as [k|]; try done.
    1,3,4: exists (Some Drop); cbn; eauto.
    1,2: exists (Some Retract); cbn; eauto.
    + exists (Some TryUpgrade). cbn. destruct (try_upgrade s.1). cbn. eauto.
    + exists (Some FinishUpgrade). cbn. eauto.
    + exists (Some FinishDowngrade). cbn. eauto.
  - destruct (control_moves true s.2 a Hq Hr Hc) as [[[q' a'] Hn]|?]; [|by right]. left. exists None. cbn in *. rewrite Hn. cbn. eauto.
Qed.

(** C38: if waiters close their wakers when they are dropped, which the compiled [wait_until] does not do, and every thread waits
    for the guards it wants, no wake-up is lost.  For any
    interleaving of fewer than [2^60] threads that read, write, read upgradeably, upgrade, downgrade and drop, whenever some
    thread is inside a call or has a guard, some such thread can make a step; and while a thread sleeps, some other
    thread has a guard, is about to try for one, or wakes others. *)
Theorem rwmutex_deadlock_free n s ts i a : Z.of_nat n < 2 ^ 60 -> reachable true waits_only n s ts ->
  Z.of_nat (length (wakers s.2)) < 2 ^ 32 -> ts !! i = Some a -> a <> (Idle, None, Run) ->
  (exists j b o, ts !! j = Some b /\ b <> (Idle, None, Run) /\ is_Some (thread_next true waits_only o s b)) /\
  (asleep s.2 a.2 = true -> exists j b, ts !! j = Some b /\ busy s.2 b = true).
Proof.
  intros Hn Hr Hq Hi Ha. destruct (rw_reachable_wake n s ts Hn Hr) as (Hfit & _ & Hwake). destruct (reachable_queue _ _ _ _ _ Hr) as ((Hsec & _) & _).
  assert (asleep s.2 a.2 = true -> exists j b, ts !! j = Some b /\ busy s.2 b = true) as Hbusy.
  { intros Hsl. destruct (asleep_listed _ _ Hsl) as (w & Hl & Hf). apply (Hwake i a w Hi). destruct a as [g []]; try done; cbn in *; simplify_eq; rewrite Hf; by destruct g as [[]]. }
  split; [|done].
  assert (forall j b, ts !! j = Some b -> b <> (Idle, None, Run) -> asleep s.2 b.2 = false ->
    exists j b o, ts !! j = Some b /\ b <> (Idle, None, Run) /\ is_Some (thread_next true waits_only o s b)) as Hgo.
  { intros j b Hj Hb Hsl. destruct (rw_thread_moves s b Hb (Hfit j b Hj) Hq) as [[o Ho]|[Hl|]]; [eauto 6| |congruence].
    destruct (number_pos in_section ts.*2) as (k & d & Hk & Hd); [by rewrite Hsec, Hl|].
    rewrite list_lookup_fmap in Hk. apply fmap_Some in Hk as ([g a'] & Hk & ->). cbn in Hd.
    destruct (section_moves true s.2 a' Hd Hq) as [[q' a''] Hx].
    exists k, (g, a'), None. split_and!; [done|by intros [= -> ->]|]. cbn. rewrite Hx. cbn. eauto. }
  destruct (asleep s.2 a.2) eqn:Hsl; [|by apply (Hgo i a)]. destruct (Hbusy eq_refl) as (j & b & Hj & Hb).
  apply (Hgo j b Hj); [by intros ->|]. pose proof (Hfit j b Hj). destruct b as [[[] []] []]; try done; cbn in *; by rewrite Hb.
Qed.

(** ** Runs *)

Local Notation call i k := (i%nat, Some (Lock k)).
Local Notation act i a := (i%nat, Some a).
Local Notation go i := (i%nat, @None action).

(** Thread 0 writes and thread 1 goes to sleep. *)
Definition sleep_schedule : list (nat * option action) :=
  [call 0 Write; call 1 Write] ++ replicate 5 (go 1) ++ [act 1 Retry; go 1].
Definition sleep_state : Z * WaitQueue := (WRITER, mk_queue false [0%nat] 1 [false]).

(** ... a third thread tries to read; thread 0 drops its guard and wakes thread 1, which meets the mark of the third thread and
    sleeps again; then the third thread takes back its mark. *)
Definition lossy_schedule : list (nat * option action) :=
  sleep_schedule ++ [act 2 (Try Read); act 0 Drop] ++ replicate 9 (go 0) ++ replicate 6 (go 1) ++ [act 1 Retry; go 1; act 2 Retract].

(** A failed [try_read] can make a waiting writer sleep for ever, although waiters close their wakers: there is a run of
    three threads after which the word is 0 and no thread is in a call but one, which waits for a write guard, sleeps and
    was not woken. *)
Theorem rwmutex_loses_wakeup : exists q,
  reachable true any 3 (0, q) [(Idle, None, Run); (Idle, Some Write, Parked 0); (Idle, None, Run)] /\ wakers q = [0%nat] /\
  (try_write 0).2 = Writing /\ forall o, thread_next true any o (0, q) (Idle, Some Write, Parked 0) = None.
Proof.
  destruct (run true any lossy_schedule (rwmutex_new, queue_new) (replicate 3 (Idle, None, Run))) as [[s ts]|] eqn:Hrun; [|by vm_compute in Hrun].
  pose proof (run_reachable true any 3 _ _ _ s ts (reach_init true any 3) Hrun) as Hr.
  vm_compute in Hrun. injection Hrun as <- <-. eexists. split_and!; [exact Hr|done|done|]. by intros [[]|].
Qed.

(** Thread 1 gets its read guard after it enqueued its waker; thread 2 goes to sleep; thread 1 drops its guard. *)
Definition unclosed_schedule : list (nat * option action) :=
  [act 0 (Lock Write); act 1 (Lock Read); act 1 Retract; act 0 Drop; go 0] ++ replicate 5 (go 1) ++ [act 1 Retry; go 1] ++
  [act 2 (Lock Write)] ++ replicate 5 (go 2) ++ [act 2 Retry; go 2] ++ [act 1 Drop] ++ replicate 6 (go 1).

(** Without closed wakers, as [wait_until] is written, waiting alone can make a writer sleep for ever: there is a run of three threads that
    only wait for their guards, after which the word is 0 and no thread is in a call but one, which waits for a write guard,
    sleeps and was not woken. *)
Theorem rwmutex_unclosed_loses_wakeup : exists q,
  reachable false waits_only 3 (0, q) [(Idle, None, Run); (Idle, None, Run); (Idle, Some Write, Parked 1)] /\ wakers q = [1%nat] /\
  (try_write 0).2 = Writing /\ forall o, thread_next false waits_only o (0, q) (Idle, Some Write, Parked 1) = None.
Proof.
  destruct (run false waits_only unclosed_schedule (rwmutex_new, queue_new) (replicate 3 (Idle, None, Run))) as [[s ts]|] eqn:Hrun; [|by vm_compute in Hrun].
  pose proof (run_reachable false waits_only 3 _ _ _ s ts (reach_init false waits_only 3) Hrun) as Hr.
  vm_compute in Hrun. injection Hrun as <- <-. eexists. split_and!; [exact Hr|done|done|]. by intros [[]|].
Qed.

Lemma sleep_reachable : reachable true waits_only 2 sleep_state [(Writing, None, Run); (Idle, Some Write, Parked 0)].
Proof. apply (run_reachable true waits_only 2 sleep_schedule _ _ _ _ (reach_init true waits_only 2)). vm_compute. reflexivity. Qed.

Lemma rwmutex_deadlock_free_witness :
  exists j b, [(Writing, None, Run); (Idle, Some Write, Parked 0)] !! j = Some b /\ busy sleep_state.2 b = true.
Proof.
  exact (proj2 (rwmutex_deadlock_free 2 sleep_state _ 1 (Idle, Some Write, Parked 0) ltac:(lia) sleep_reachable eq_refl eq_refl ltac:(discriminate)) eq_refl).
Defined.
