(* ===== verification/Bitflags.v ===== *)
(** * [verified_libs/bitflags]: flag sets

    The [bitflags!] macro turns a list of flag constants into a structure that
    wraps an unsigned integer.  The macro is a section here: the width and the
    values of the declared flags are its parameters, and its methods are the
    definitions.  A flag set is seen as the set of its bit positions, on which
    the methods are the boolean operations; only [from_bits], [truncate] and
    the complement look at which bits are declared. *)

From S2P Require Import Prelude.
Open Scope Z_scope.

Record flags := mk_flags { bits : Z }.
Global Instance flags_eq_dec : EqDecision flags.
Proof. solve_decision. Defined.

Section bitflags.
(** The width of [$T] and the values of the enabled flags. *)
Context (w : Z) (declared : list Z).
Implicit Types (self other : flags).

Definition from_bits_unchecked (b : Z) : flags := mk_flags b.
Definition empty : flags := from_bits_unchecked 0.
Definition all : flags := from_bits_unchecked (foldl Z.lor 0 declared).
Definition known_bits self : Z := Z.land (bits self) (bits all).
Definition unknown_bits self : Z := Z.land (bits self) (unot w (bits all)).
Definition contains_unknown_bits self : bool := negb (unknown_bits self =? 0).
Definition is_empty self : bool := bits self =? 0.
Definition is_all self : bool := Z.lor (bits all) (bits self) =? bits self.
Definition contains self other : bool := Z.land (bits self) (bits other) =? bits other.
Definition intersects self other : bool := negb (Z.land (bits self) (bits other) =? 0).
Definition from_bits_truncate (b : Z) : flags := from_bits_unchecked (Z.land b (bits all)).
Definition from_bits_retain (b : Z) : flags := from_bits_unchecked b.
Definition from_bits (b : Z) : option flags :=
  let truncated := bits (from_bits_truncate b) in
  if truncated =? b then Some (from_bits_retain b) else None.
Definition union self other : flags := from_bits_unchecked (Z.lor (bits self) (bits other)).
Definition intersection self other : flags := from_bits_unchecked (Z.land (bits self) (bits other)).
Definition difference self other : flags :=
  from_bits_unchecked (Z.land (bits self) (unot w (bits other))).
Definition symmetric_difference self other : flags :=
  from_bits_unchecked (Z.lxor (bits self) (bits other)).
Definition complement self : flags := from_bits_truncate (unot w (bits self)).
Definition insert self other : flags := union (from_bits_retain (bits self)) other.
Definition remove self other : flags := difference (from_bits_retain (bits self)) other.
Definition toggle self other : flags := symmetric_difference (from_bits_retain (bits self)) other.
Definition set self other (value : bool) : flags := if value then insert self other else remove self other.
Definition truncate self : flags := from_bits_truncate (bits self).
Definition clear self : flags := empty.

(** ** Flag sets as sets of bit positions *)

Definition has self (k : Z) : bool := Z.testbit (bits self) k.
Definition wf self : Prop := uint w (bits self).

Hypothesis w_pos : 0 <= w.

Lemma land_eq_sub a b : Z.land a b = b <-> forall k, 0 <= k -> Z.testbit b k = true -> Z.testbit a k = true.
Proof.
  split.
  - intros <- k Hk. rewrite Z.land_spec. by intros [? _]%andb_true_iff.
  - intros Hsub. apply Z.bits_inj'. intros k Hk. rewrite Z.land_spec.
    destruct (Z.testbit b k) eqn:E; [by rewrite Hsub|apply andb_false_r].
Qed.

Lemma contains_has self other :
  contains self other = true <-> forall k, 0 <= k -> has other k = true -> has self k = true.
Proof. unfold contains, has. rewrite Z.eqb_eq. apply land_eq_sub. Qed.

Lemma from_bits_Some b f : from_bits b = Some f <->
  f = mk_flags b /\ forall k, 0 <= k -> Z.testbit b k = true -> has all k = true.
Proof.
  unfold from_bits, from_bits_truncate, from_bits_retain, from_bits_unchecked. cbn -[all].
  rewrite Z.land_comm. pose proof (land_eq_sub (bits all) b) as Hs. unfold has.
  destruct (Z.eqb_spec (Z.land (bits all) b) b); split; try done; naive_solver.
Qed.

Lemma intersects_has self other :
  wf self ->
  intersects self other = true <-> exists j, 0 <= j < w /\ has self j = true /\ has other j = true.
Proof.
  intros Hs. unfold intersects. rewrite negb_true_iff, Z.eqb_neq. split.
  - intros Hne. destruct (decide (Exists (fun j => Z.testbit (Z.land (bits self) (bits other)) j = true) (seqZ 0 w)))
      as [(j & Hj%elem_of_seqZ & Hb)%Exists_exists|Hno].
    + rewrite Z.land_spec in Hb. apply andb_true_iff in Hb. exists j. split; [lia|done].
    + destruct Hne. apply (uint_eq_bits w); [done|by apply uint_land|split; [lia|by apply pow2_pos]|].
      intros j Hj. rewrite Z.bits_0. apply not_true_is_false. intros Hb. apply Hno, Exists_exists.
      exists j. split; [apply elem_of_seqZ; lia|done].
  - intros (j & Hj & Ha & Hb) H0. assert (Z.testbit (Z.land (bits self) (bits other)) j = true) as Ht.
    { rewrite Z.land_spec. unfold has in *. by rewrite Ha, Hb. }
    by rewrite H0, Z.bits_0 in Ht.
Qed.

(** The methods of a flag type are the set operations on bit positions.  For well-formed
    flag values, membership in [union], [intersection], [difference] and
    [symmetric_difference], and in the results of [insert], [remove], [toggle] and [set],
    is the boolean combination of the memberships; [complement] and [truncate] stay within
    the declared bits; [contains] is inclusion, [intersects] is a common bit, [is_all] is
    inclusion of all declared bits; and all results are well formed. *)
Theorem bitflags_set_algebra self other (value : bool) k :
  wf self -> wf other -> 0 <= k < w ->
  has (union self other) k = has self k || has other k /\
  has (intersection self other) k = has self k && has other k /\
  has (difference self other) k = has self k && negb (has other k) /\
  has (symmetric_difference self other) k = xorb (has self k) (has other k) /\
  has (complement self) k = negb (has self k) && has all k /\
  has (truncate self) k = has self k && has all k /\
  has (set self other value) k = (if value then has self k || has other k
                                  else has self k && negb (has other k)) /\
  (contains self other = true <-> forall j, 0 <= j < w -> has other j = true -> has self j = true) /\
  (intersects self other = true <-> exists j, 0 <= j < w /\ has self j = true /\ has other j = true) /\
  (is_all self = true <-> contains self all = true) /\
  wf (union self other) /\ wf (intersection self other) /\ wf (difference self other) /\
  wf (symmetric_difference self other) /\ wf (complement self).
Proof.
  intros Hs Ho Hk.
  assert (Hlt : forall f j, wf f -> 0 <= j -> has f j = true -> j < w).
  { intros f j [_ Hf]%uint_bits Hj Hh; [|done]. destruct (Z.lt_ge_cases j w); [done|].
    unfold has in Hh. rewrite Hf in Hh by lia. done. }
  split_and!.
  - apply Z.lor_spec.
  - apply Z.land_spec.
  - unfold has, difference. cbn. by rewrite Z.land_spec, testbit_unot by lia.
  - apply Z.lxor_spec.
  - unfold has, complement, from_bits_truncate. cbn -[all]. by rewrite Z.land_spec, testbit_unot by lia.
  - apply Z.land_spec.
  - destruct value; cbn; unfold has; cbn; [apply Z.lor_spec|]. by rewrite Z.land_spec, testbit_unot by lia.
  - rewrite contains_has. split; [naive_solver lia|]. intros Hc j Hj Hh. apply Hc; eauto.
  - by apply intersects_has.
  - unfold is_all, contains. rewrite !Z.eqb_eq, land_eq_sub. split.
    + intros <- j Hj Ha. rewrite Z.lor_spec. unfold has in *. by rewrite Ha.
    + intros Hsub. apply Z.bits_inj'. intros j Hj. rewrite Z.lor_spec.
      destruct (Z.testbit (bits all) j) eqn:E; [|done]. by rewrite Hsub.
  - by apply uint_lor.
  - by apply uint_land.
  - by apply uint_land.
  - apply uint_bits; [done|]. apply uint_bits in Hs as [? Hs], Ho as [? Ho]; [|done..].
    cbn. split; [by apply Z.lxor_nonneg|]. intros j Hj. by rewrite Z.lxor_spec, Hs, Ho.
  - apply uint_land; [done|]. by apply uint_unot.
Qed.

End bitflags.

Lemma bitflags_set_algebra_witness :
  let a := mk_flags 3 in let b := mk_flags 6 in
  has (difference 8 a b) 1 = has a 1 && negb (has b 1) /\
  (intersects a b = true <-> exists j, 0 <= j < 8 /\ has a j = true /\ has b j = true).
Proof.
  destruct (bitflags_set_algebra 8 [1; 2; 4] ltac:(lia) (mk_flags 3) (mk_flags 6) true 1)
    as (_ & _ & ? & _ & _ & _ & _ & _ & ? & _); [split; cbn; lia|split; cbn; lia|lia|].
  split; done.
Defined.
