(* ===== verification/Paging.v ===== *)
(** * Paging constants and page table arithmetic

    [PagingConstsTrait] of [ostd/src/mm/mod.rs] and the functions of
    [ostd/src/mm/page_table/mod.rs] that compute with the constants: page sizes,
    the index of an address at a level, the range of addresses a page table
    manages, and the split of a range into the largest pages.  The constants are
    a class, their requirements (the lemma [lemma_paging_consts_requirements]
    every architecture proves) a second one; x86-64 is an instance. *)

From S2P Require Import Prelude AlignExt.
Open Scope Z_scope.

Definition MAX_PADDR : Z := 0x80000000.
Definition PAGE_SIZE : Z := 4096.

Class PagingConstsTrait := {
  BASE_PAGE_SIZE : Z;
  NR_LEVELS : Z;
  HIGHEST_TRANSLATION_LEVEL : Z;
  PTE_SIZE : Z;
  ADDRESS_WIDTH : Z;
  VA_SIGN_EXT : bool;
}.

Class PagingConstsReqs `{PagingConstsTrait} := {
  req_base : 0 < BASE_PAGE_SIZE /\ BASE_PAGE_SIZE = 2 ^ Z.log2 BASE_PAGE_SIZE;
  req_levels : 0 < HIGHEST_TRANSLATION_LEVEL <= NR_LEVELS /\ NR_LEVELS < 255;
  req_pte : PTE_SIZE = 2 ^ Z.log2 PTE_SIZE /\ 0 < PTE_SIZE <= BASE_PAGE_SIZE;
  req_width : 0 < ADDRESS_WIDTH < 64;
  req_coverage :
    Z.log2 BASE_PAGE_SIZE + Z.log2 (BASE_PAGE_SIZE / PTE_SIZE) * NR_LEVELS <= ADDRESS_WIDTH;
}.

(** [usize << n] for [n < 64]. *)
Definition ushl (a n : Z) : Z := Z.shiftl a n mod 2 ^ 64.

(** ** The constants of x86-64 *)

Module X86.
Definition consts : PagingConstsTrait := {|
  BASE_PAGE_SIZE := 4096;
  NR_LEVELS := 4;
  HIGHEST_TRANSLATION_LEVEL := 2;
  PTE_SIZE := 8;
  ADDRESS_WIDTH := 48;
  VA_SIGN_EXT := true;
|}.
Definition reqs : @PagingConstsReqs consts.
Proof. split; vm_compute; repeat split; discriminate. Qed.
End X86.

Section paging.
Context `{PagingConstsTrait}.

Definition nr_subpage_per_huge : Z := BASE_PAGE_SIZE / PTE_SIZE.

Definition page_size (level : Z) : Z :=
  ushl BASE_PAGE_SIZE (Z.log2 nr_subpage_per_huge * (level - 1)).

Definition nr_pte_index_bits : Z := Z.log2 nr_subpage_per_huge.

Definition pte_index_bit_offset (level : Z) : Z :=
  Z.log2 BASE_PAGE_SIZE + nr_pte_index_bits * (level - 1).

Definition pte_index (va level : Z) : Z :=
  Z.land (Z.shiftr va (pte_index_bit_offset level)) (nr_subpage_per_huge - 1).

Definition top_level_index_width : Z := ADDRESS_WIDTH - pte_index_bit_offset NR_LEVELS.

(** [TOP_LEVEL_INDEX_RANGE] of the configuration is the argument [top]. *)
Definition pt_va_range_start (top : range) : Z := ushl (r_start top) (pte_index_bit_offset NR_LEVELS).

Definition pt_va_range_end (top : range) : Z :=
  let shifted := ushl (r_end top) (pte_index_bit_offset NR_LEVELS) in
  wrapping_sub 64 shifted 1.

Definition sign_bit_of_va (va : Z) : bool := negb (Z.land (Z.shiftr va (ADDRESS_WIDTH - 1)) 1 =? 0).

Definition apply_sign_ext (va : Z) : Z :=
  let low_bit := ushl 1 ADDRESS_WIDTH in
  let low_mask := low_bit - 1 in
  let sign_ext_mask := Z.lxor (unot 64 0) low_mask in
  Z.lor va sign_ext_mask.

(** The inclusive range, as its ends. *)
Definition vaddr_range (top : range) : Z * Z :=
  let start := pt_va_range_start top in
  let end_ := pt_va_range_end top in
  if VA_SIGN_EXT && sign_bit_of_va (pt_va_range_start top)
  then (apply_sign_ext start, apply_sign_ext end_)
  else (start, end_).

Definition is_valid_range (top : range) (r : range) : bool :=
  let va_range := vaddr_range top in
  (r_start r <? r_end r) && ((va_range.1 <=? r_start r) && (r_end r - 1 <=? va_range.2)).

(** [largest_pages]: the state of the iterator, the loop that chooses the level
    (it counts down; at level [0] the shift amount of [page_size] underflows) and the
    closure. *)
Record pages_iter := mk_iter { it_va : Z; it_pa : Z; it_len : Z }.

Fixpoint choose_level (level : nat) (it : pages_iter) : outcome Z :=
  match level with
  | O => Panic
  | S level' =>
      let size := page_size (Z.of_nat level) in
      if (it_len it <? size) || negb (it_va it mod size =? 0) || negb (it_pa it mod size =? 0)
      then choose_level level' it else Ret (Z.of_nat level)
  end.

Definition pages_next (it : pages_iter) : outcome (option (Z * Z * pages_iter)) :=
  if it_len it =? 0 then Ret None
  else level ← choose_level (Z.to_nat HIGHEST_TRANSLATION_LEVEL) it;
       va ← uadd 64 (it_va it) (page_size level);
       pa ← uadd 64 (it_pa it) (page_size level);
       len ← usub (it_len it) (page_size level);
       Ret (Some (it_pa it, level, mk_iter va pa len)).

Definition largest_pages (top : range) (va pa len : Z) : outcome pages_iter :=
  _ ← rassert (va mod BASE_PAGE_SIZE =? 0);
  _ ← rassert (pa mod BASE_PAGE_SIZE =? 0);
  _ ← rassert (len mod BASE_PAGE_SIZE =? 0);
  end_ ← uadd 64 va len;
  _ ← rassert (is_valid_range top (mk_range va end_));
  Ret (mk_iter va pa len).

(** All items of the iterator; [None] when the fuel does not suffice. *)
Fixpoint collect_pages (fuel : nat) (it : pages_iter) : outcome (option (list (Z * Z))) :=
  match fuel with
  | O => Ret None
  | S fuel' =>
      r ← pages_next it;
      match r with
      | None => Ret (Some [])
      | Some (pa, level, it') =>
          rest ← collect_pages fuel' it';
          Ret (option_map (cons (pa, level)) rest)
      end
  end.

(** ** Sizes and indices are powers of two *)

Context `{!PagingConstsReqs}.

Let b := Z.log2 BASE_PAGE_SIZE.
Let k := nr_pte_index_bits.

Lemma nr_subpage_pow : nr_subpage_per_huge = 2 ^ k /\ 0 <= k <= b.
Proof.
  destruct req_base as [Hb0 Hb], req_pte as [Hp Hp0]. unfold k, nr_pte_index_bits, nr_subpage_per_huge.
  set (p := Z.log2 PTE_SIZE) in *. fold b in Hb.
  assert (Hpb : 0 <= p <= b) by (split; [apply Z.log2_nonneg|apply Z.log2_le_mono; lia]).
  rewrite Hb, Hp, <- Z.pow_sub_r by lia. rewrite Z.log2_pow2 by lia. lia.
Qed.

Lemma base_pow : BASE_PAGE_SIZE = 2 ^ b /\ 0 <= b.
Proof. split; [apply req_base|apply Z.log2_nonneg]. Qed.

Lemma offset_bound level : 1 <= level <= NR_LEVELS + 1 ->
  b <= pte_index_bit_offset level <= ADDRESS_WIDTH.
Proof.
  intros Hl. pose proof nr_subpage_pow as [_ Hk]. pose proof req_coverage as Hc.
  fold nr_subpage_per_huge in Hc. fold nr_pte_index_bits in Hc. fold k b in Hc.
  unfold pte_index_bit_offset. fold k b. nia.
Qed.

Lemma page_size_pow level : 1 <= level <= NR_LEVELS + 1 ->
  page_size level = 2 ^ pte_index_bit_offset level.
Proof.
  intros Hl. pose proof nr_subpage_pow as [_ Hk]. pose proof base_pow as [Hb Hb0].
  pose proof (offset_bound level Hl) as Ho. pose proof req_width.
  unfold page_size, ushl. rewrite Hb. fold nr_pte_index_bits k. rewrite Z.shiftl_mul_pow2 by nia.
  rewrite <- Z.pow_add_r by nia. unfold pte_index_bit_offset in *. fold k b in Ho |- *.
  apply Z.mod_small. split; [apply Z.pow_nonneg; lia|apply Z.pow_lt_mono_r; lia].
Qed.

Lemma page_size_pos level : 1 <= level <= NR_LEVELS + 1 -> 0 < page_size level.
Proof.
  intros Hl. rewrite page_size_pow by done. pose proof (offset_bound level Hl). pose proof base_pow.
  apply Z.pow_pos_nonneg; lia.
Qed.

Lemma page_size_next level : 1 <= level <= NR_LEVELS ->
  page_size (level + 1) = nr_subpage_per_huge * page_size level.
Proof.
  intros Hl. pose proof nr_subpage_pow as [-> Hk]. rewrite !page_size_pow by lia.
  pose proof (offset_bound level ltac:(lia)). pose proof base_pow.
  rewrite <- Z.pow_add_r by lia. f_equal. unfold pte_index_bit_offset. fold k b. lia.
Qed.

Lemma page_size_1 : page_size 1 = BASE_PAGE_SIZE.
Proof.
  pose proof req_levels. rewrite page_size_pow by lia. pose proof base_pow as [Hb _]. rewrite Hb.
  f_equal. unfold pte_index_bit_offset. fold k b. lia.
Qed.

Lemma pte_index_div va level : 1 <= level <= NR_LEVELS -> 0 <= va ->
  pte_index va level = va / page_size level mod nr_subpage_per_huge.
Proof.
  intros Hl Hva. pose proof nr_subpage_pow as [Hn Hk]. pose proof (offset_bound level ltac:(lia)).
  pose proof base_pow. unfold pte_index. rewrite page_size_pow, Hn by lia.
  replace (2 ^ k - 1) with (Z.ones k) by (rewrite Z.ones_equiv; lia).
  rewrite Z.land_ones by lia. rewrite Z.shiftr_div_pow2 by lia. done.
Qed.

(** Sizes of lower levels divide sizes of higher ones. *)
Lemma page_size_divide l1 l2 : 1 <= l1 <= l2 -> l2 <= NR_LEVELS + 1 -> (page_size l1 | page_size l2).
Proof.
  intros Hl Hl2. rewrite !page_size_pow by lia. pose proof nr_subpage_pow as [_ Hk]. pose proof base_pow.
  pose proof (offset_bound l1 ltac:(lia)).
  assert (pte_index_bit_offset l1 <= pte_index_bit_offset l2) by (unfold pte_index_bit_offset; fold k b; nia).
  exists (2 ^ (pte_index_bit_offset l2 - pte_index_bit_offset l1)). rewrite <- Z.pow_add_r by lia. f_equal. lia.
Qed.

(** ** The managed range *)

(** The requirements of a configuration on its range of top-level indices. *)
Definition top_range_ok (top : range) : Prop := 0 <= r_start top < r_end top /\ r_end top <= nr_subpage_per_huge.

(** The addresses that the hardware accepts. *)
Definition canonical (va : Z) : Prop :=
  if VA_SIGN_EXT then va < 2 ^ (ADDRESS_WIDTH - 1) \/ 2 ^ 64 - 2 ^ (ADDRESS_WIDTH - 1) <= va
  else va < 2 ^ ADDRESS_WIDTH.

Lemma width_pow : 2 ^ ADDRESS_WIDTH = 2 * 2 ^ (ADDRESS_WIDTH - 1) /\ 0 < 2 ^ (ADDRESS_WIDTH - 1) /\
  exists m, 2 ^ 64 = m * 2 ^ ADDRESS_WIDTH /\ 1 < m.
Proof.
  pose proof req_width. split_and!.
  - rewrite <- Z.pow_succ_r by lia. f_equal. lia.
  - apply Z.pow_pos_nonneg; lia.
  - exists (2 ^ (64 - ADDRESS_WIDTH)). rewrite <- Z.pow_add_r by lia. split; [f_equal; lia|].
    change 1 with (2 ^ 0). apply Z.pow_lt_mono_r; lia.
Qed.

Lemma top_coverage i : 0 <= i <= nr_subpage_per_huge -> 0 <= i * page_size NR_LEVELS <= 2 ^ ADDRESS_WIDTH.
Proof.
  intros Hi. pose proof req_levels. assert (0 < page_size NR_LEVELS) by (apply page_size_pos; lia).
  pose proof (page_size_next NR_LEVELS) as Hn. specialize (Hn ltac:(lia)).
  assert (page_size (NR_LEVELS + 1) <= 2 ^ ADDRESS_WIDTH); [|nia].
  rewrite page_size_pow by lia. pose proof (offset_bound (NR_LEVELS + 1)) as Ho. specialize (Ho ltac:(lia)).
  pose proof base_pow. apply Z.pow_le_mono_r; lia.
Qed.

Lemma ushl_top i : 0 <= i <= nr_subpage_per_huge ->
  ushl i (pte_index_bit_offset NR_LEVELS) = i * page_size NR_LEVELS.
Proof.
  intros Hi. pose proof req_levels. pose proof (top_coverage i Hi). pose proof width_pow as (_ & _ & m & Hm & Hm1).
  unfold ushl. pose proof (offset_bound NR_LEVELS) as Ho. specialize (Ho ltac:(lia)). pose proof base_pow.
  rewrite Z.shiftl_mul_pow2, page_size_pow in * by lia. apply Z.mod_small. nia.
Qed.

Lemma sign_bit_high va : 0 <= va < 2 ^ ADDRESS_WIDTH ->
  sign_bit_of_va va = (2 ^ (ADDRESS_WIDTH - 1) <=? va).
Proof.
  intros Hva. pose proof req_width. pose proof width_pow as (Hd & Hp & _). unfold sign_bit_of_va.
  rewrite Z.shiftr_div_pow2 by lia. change 1 with (Z.ones 1) at 2. rewrite Z.land_ones by lia.
  set (D := 2 ^ (ADDRESS_WIDTH - 1)) in *.
  destruct (Z.leb_spec D va).
  - replace (va / D) with 1; [done|]. apply Z.div_unique with (va - D); lia.
  - rewrite Z.div_small by lia. done.
Qed.

Lemma apply_sign_ext_add va : 0 <= va < 2 ^ ADDRESS_WIDTH ->
  apply_sign_ext va = va + (2 ^ 64 - 2 ^ ADDRESS_WIDTH).
Proof.
  intros Hva. pose proof req_width.
  assert (2 ^ ADDRESS_WIDTH < 2 ^ 64) by (apply Z.pow_lt_mono_r; lia).
  assert (Hbits : forall n, ADDRESS_WIDTH <= n -> Z.testbit va n = false) by (apply uint_bits; [lia|done]).
  assert (Hmask : Z.lxor (unot 64 0) (ushl 1 ADDRESS_WIDTH - 1) = Z.shiftl (Z.ones (64 - ADDRESS_WIDTH)) ADDRESS_WIDTH).
  { unfold ushl. rewrite Z.shiftl_mul_pow2, Z.mul_1_l, Z.mod_small by lia.
    replace (2 ^ ADDRESS_WIDTH - 1) with (Z.ones ADDRESS_WIDTH) by (rewrite Z.ones_equiv; lia).
    apply Z.bits_inj'. intros n Hn. unfold unot. rewrite !Z.lxor_spec, Z.shiftl_spec, Z.bits_0 by lia.
    rewrite !Z.testbit_ones by lia.
    destruct (Z.ltb_spec n 64), (Z.ltb_spec n ADDRESS_WIDTH), (Z.leb_spec 0 n),
      (Z.leb_spec 0 (n - ADDRESS_WIDTH)), (Z.ltb_spec (n - ADDRESS_WIDTH) (64 - ADDRESS_WIDTH));
      try lia; reflexivity. }
  unfold apply_sign_ext. rewrite Hmask. rewrite Z.add_comm, Z.lor_comm.
  replace (2 ^ 64 - 2 ^ ADDRESS_WIDTH) with (Z.shiftl (Z.ones (64 - ADDRESS_WIDTH)) ADDRESS_WIDTH).
  - rewrite <- Z.lxor_lor; [symmetry; apply Z.add_nocarry_lxor|];
      apply Z.bits_inj'; intros n Hn; rewrite Z.land_spec, Z.shiftl_spec, Z.bits_0 by lia;
      (destruct (Z.ltb_spec n ADDRESS_WIDTH); [by rewrite (Z.testbit_neg_r _ (n - ADDRESS_WIDTH)) by lia|];
       rewrite (Hbits n) by lia; apply andb_false_r).
  - rewrite Z.shiftl_mul_pow2, Z.ones_equiv by lia.
    replace (2 ^ 64) with (2 ^ (64 - ADDRESS_WIDTH) * 2 ^ ADDRESS_WIDTH); [nia|].
    rewrite <- Z.pow_add_r by lia. f_equal. lia.
Qed.

Lemma div_between x n lo hi : 0 < n -> lo <= x / n < hi <-> lo * n <= x < hi * n.
Proof.
  intros Hn. split; intros Hx.
  - pose proof (Z.mod_pos_bound x n Hn). pose proof (Z.div_mod x n ltac:(lia)). nia.
  - split; [apply Z.div_le_lower_bound; lia|apply Z.div_lt_upper_bound; lia].
Qed.

(** The range of a page table is exact.  For a configuration whose top-level indices do not
    cross the sign bit, [vaddr_range] holds exactly the canonical addresses whose top-level index is
    in the configured range; the sign extension does not overflow, also when the range ends at the top of the
    address space. *)
Theorem vaddr_range_exact top va :
  top_range_ok top ->
  (VA_SIGN_EXT = true -> r_end top * page_size NR_LEVELS <= 2 ^ (ADDRESS_WIDTH - 1) \/
                         2 ^ (ADDRESS_WIDTH - 1) <= r_start top * page_size NR_LEVELS) ->
  0 <= va < 2 ^ 64 ->
  (vaddr_range top).1 <= va <= (vaddr_range top).2 <->
  canonical va /\ r_start top <= va mod 2 ^ ADDRESS_WIDTH / page_size NR_LEVELS < r_end top.
Proof.
  intros [Hs He] Hhalf Hva. pose proof req_levels.
  assert (Hps : 0 < page_size NR_LEVELS) by (apply page_size_pos; lia).
  pose proof (top_coverage (r_start top) ltac:(lia)). pose proof (top_coverage (r_end top) ltac:(lia)).
  pose proof width_pow as (HD & HD0 & m & Hm & Hm1).
  assert (Hlt : r_start top * page_size NR_LEVELS + page_size NR_LEVELS <= r_end top * page_size NR_LEVELS) by nia.
  rewrite div_between by done. unfold vaddr_range, pt_va_range_start, pt_va_range_end, wrapping_sub, canonical.
  rewrite !ushl_top by lia. rewrite (Z.mod_small (_ - 1)) by nia. rewrite sign_bit_high by nia.
  set (lo := r_start top * page_size NR_LEVELS) in *. set (hi := r_end top * page_size NR_LEVELS) in *.
  assert (Hlow : va < 2 ^ ADDRESS_WIDTH -> va mod 2 ^ ADDRESS_WIDTH = va) by (intros; apply Z.mod_small; lia).
  assert (Hhigh : 2 ^ 64 - 2 ^ ADDRESS_WIDTH <= va ->
    va mod 2 ^ ADDRESS_WIDTH = va - (2 ^ 64 - 2 ^ ADDRESS_WIDTH)).
  { intros. symmetry. apply Z.mod_unique_pos with (m - 1); nia. }
  assert (Hany : 0 <= va mod 2 ^ ADDRESS_WIDTH < 2 ^ ADDRESS_WIDTH) by (apply Z.mod_pos_bound; lia).
  destruct VA_SIGN_EXT; cbn [andb fst snd].
  - specialize (Hhalf eq_refl). destruct (Z.leb_spec (2 ^ (ADDRESS_WIDTH - 1)) lo); cbn [fst snd].
    + rewrite !apply_sign_ext_add by lia. lia.
    + lia.
  - lia.
Qed.

Lemma index_digits va level : 0 <= va -> 1 <= level <= NR_LEVELS ->
  0 <= pte_index va level < nr_subpage_per_huge /\
  va mod page_size (level + 1) = pte_index va level * page_size level + va mod page_size level.
Proof.
  intros Hva Hl. rewrite pte_index_div, page_size_next by done.
  pose proof (page_size_pos level ltac:(lia)) as Hp. pose proof nr_subpage_pow as [Hn Hk].
  assert (0 < nr_subpage_per_huge) by (rewrite Hn; apply Z.pow_pos_nonneg; lia).
  split; [apply Z.mod_pos_bound; lia|].
  rewrite (Z.mul_comm nr_subpage_per_huge), Z.rem_mul_r by lia. lia.
Qed.

(** The indices of an address at the levels are the digits of the address: at every level the
    index is in bounds, and the part of the address below the next level is the index times the
    page size of the level plus the offset in the page. *)
Theorem pte_index_digits va level :
  0 <= va -> 1 <= level <= NR_LEVELS ->
  0 <= pte_index va level < nr_subpage_per_huge /\
  va mod page_size (level + 1) = pte_index va level * page_size level + va mod page_size level.
Proof. apply index_digits. Qed.

(** ** The largest pages *)

Definition fits (va pa len level : Z) : Prop :=
  page_size level <= len /\ va mod page_size level = 0 /\ pa mod page_size level = 0.

(** The highest usable level. *)
Definition best_level (va pa len level : Z) : Prop :=
  1 <= level <= HIGHEST_TRANSLATION_LEVEL /\ fits va pa len level /\
  forall higher, level < higher <= HIGHEST_TRANSLATION_LEVEL -> ~ fits va pa len higher.

(** The items follow each other and each is the largest possible at its place. *)
Inductive tiling : Z -> Z -> Z -> list (Z * Z) -> Prop :=
| tiling_nil va pa : tiling va pa 0 []
| tiling_cons va pa len level items :
    best_level va pa len level ->
    tiling (va + page_size level) (pa + page_size level) (len - page_size level) items ->
    tiling va pa len ((pa, level) :: items).

Definition base_aligned (it : pages_iter) : Prop :=
  it_va it mod BASE_PAGE_SIZE = 0 /\ it_pa it mod BASE_PAGE_SIZE = 0 /\ it_len it mod BASE_PAGE_SIZE = 0.

Lemma choose_level_spec it level : base_aligned it -> 0 < it_len it -> (1 <= level)%nat ->
  exists l, choose_level level it = Ret l /\ 1 <= l <= Z.of_nat level /\
    fits (it_va it) (it_pa it) (it_len it) l /\
    forall higher, l < higher <= Z.of_nat level -> ~ fits (it_va it) (it_pa it) (it_len it) higher.
Proof.
  intros (Hv & Hp & Hn) Hlen. induction level as [|level IH]; intros Hl; [lia|].
  cbn [choose_level]. zcase.
  - destruct (decide (level = 0%nat)) as [->|].
    + exfalso. change (Z.of_nat 1) with 1 in E. rewrite page_size_1 in E. rewrite Hv, Hp in E.
      pose proof (proj1 req_base). assert (BASE_PAGE_SIZE <= it_len it) by (apply Z.divide_pos_le; [done|apply Z.mod_divide; lia]). cbn in E. rewrite !orb_false_r in E. lia.
    + destruct IH as (l & Hc & Hb & Hf & Hm); [lia|]. exists l. split_and!; try done; try lia.
      intros higher Hh. destruct (decide (higher = Z.of_nat (S level))) as [->|]; [|apply Hm; lia].
      unfold fits. lia.
  - exists (Z.of_nat (S level)). unfold fits. split_and!; try done; try lia.
Qed.

Lemma pages_next_spec it : base_aligned it -> 0 < it_len it ->
  it_va it + it_len it < 2 ^ 64 -> it_pa it + it_len it < 2 ^ 64 ->
  exists level, best_level (it_va it) (it_pa it) (it_len it) level /\
    pages_next it = Ret (Some (it_pa it, level,
      mk_iter (it_va it + page_size level) (it_pa it + page_size level) (it_len it - page_size level))).
Proof.
  intros Hal Hlen Hv Hp. pose proof req_levels.
  destruct (choose_level_spec it (Z.to_nat HIGHEST_TRANSLATION_LEVEL) Hal Hlen ltac:(lia)) as (l & Hc & Hb & Hf & Hm).
  rewrite Z2Nat.id in * by lia. exists l. split; [done|]. destruct Hf as (Hs & _).
  unfold pages_next. zcase; [lia|]. rewrite Hc. cbn [mbind outcome_bind].
  rewrite !uadd_ok by lia. cbn [mbind outcome_bind]. rewrite usub_ok by lia. done.
Qed.

Lemma base_aligned_next it level : base_aligned it -> 1 <= level <= NR_LEVELS ->
  base_aligned (mk_iter (it_va it + page_size level) (it_pa it + page_size level) (it_len it - page_size level)).
Proof.
  intros (Hv & Hp & Hn) Hl. pose proof (proj1 req_base) as Hb.
  assert (Hd : (BASE_PAGE_SIZE | page_size level)) by (rewrite <- page_size_1; apply page_size_divide; lia).
  unfold base_aligned. cbn [it_va it_pa it_len].
  rewrite !Z.mod_divide in * by lia. auto using Z.divide_add_r, Z.divide_sub_r.
Qed.

Lemma collect_pages_spec fuel it : base_aligned it -> 0 <= it_len it ->
  it_va it + it_len it < 2 ^ 64 -> it_pa it + it_len it < 2 ^ 64 ->
  it_len it / BASE_PAGE_SIZE < Z.of_nat fuel ->
  exists items, collect_pages fuel it = Ret (Some items) /\ tiling (it_va it) (it_pa it) (it_len it) items.
Proof.
  revert it. induction fuel as [|fuel IH]; intros it Hal Hlen Hv Hp Hfuel.
  { pose proof (proj1 req_base). pose proof (Z.div_pos (it_len it) BASE_PAGE_SIZE). lia. }
  cbn [collect_pages]. destruct (decide (it_len it = 0)) as [Hz|].
  { exists []. unfold pages_next. rewrite Hz. split; [done|constructor]. }
  destruct (pages_next_spec it Hal ltac:(lia) Hv Hp) as (l & Hl & Hnx). rewrite Hnx. cbn [mbind outcome_bind].
  pose proof Hl as (Hb & (Hs & _) & _). pose proof req_levels. pose proof (page_size_pos l ltac:(lia)).
  pose proof (base_aligned_next it l Hal ltac:(lia)) as Hal'.
  assert (Hdec : (it_len it - page_size l) / BASE_PAGE_SIZE < Z.of_nat fuel).
  { pose proof (proj1 req_base) as Hb0. destruct Hal' as (_ & _ & Hn'). cbn in Hn'.
    assert (BASE_PAGE_SIZE <= page_size l)
      by (apply Z.divide_pos_le; [done|]; rewrite <- page_size_1; apply page_size_divide; lia).
    apply Z.div_lt_upper_bound; [done|]. pose proof (Z.mul_succ_div_gt (it_len it) BASE_PAGE_SIZE Hb0). nia. }
  destruct (IH _ Hal') as (items & Hc & Ht); cbn [it_va it_pa it_len] in *; try lia.
  rewrite Hc. exists ((it_pa it, l) :: items). split; [done|]. by constructor.
Qed.

(** The items cover the physical range, each address once. *)
Lemma tiling_covers va pa len items x : tiling va pa len items ->
  0 <= len /\ (pa <= x < pa + len <-> exists p l, (p, l) ∈ items /\ p <= x < p + page_size l) /\
  forall p l, (p, l) ∈ items -> pa <= p.
Proof.
  pose proof req_levels. induction 1 as [va pa|va pa len l items (Hb & (Hs & _) & _) _ (IH0 & IH & IHp)].
  { split_and!; [done| |]; [|intros ? ? Hin; by apply not_elem_of_nil in Hin].
    split; [lia|]. intros (? & ? & Hin & _). by apply not_elem_of_nil in Hin. }
  assert (0 < page_size l) by (apply page_size_pos; lia). split_and!; [lia| |].
  - transitivity (pa <= x < pa + page_size l \/ pa + page_size l <= x < pa + page_size l + (len - page_size l)); [lia|].
    rewrite IH. split.
    + intros [Hx|(p & l' & Hin & Hx)]; [exists pa, l|exists p, l']; rewrite elem_of_cons; auto.
    + intros (p & l' & [[= -> ->]|Hin]%elem_of_cons & Hx); [by left|right; eauto].
  - intros p l' [[= -> ->]|Hin]%elem_of_cons; [lia|]. specialize (IHp p l' Hin). lia.
Qed.

(** [largest_pages] splits its range into pages: once its assertions pass and the physical range does not
    pass the end of the address space, the iterator ends, yields consecutive pages that cover
    exactly the physical range, and each page has the highest level up to
    [HIGHEST_TRANSLATION_LEVEL] for which both addresses are aligned and the rest is long enough. *)
Theorem largest_pages_tiles top va pa len it fuel :
  largest_pages top va pa len = Ret it -> pa + len < 2 ^ 64 ->
  len / BASE_PAGE_SIZE < Z.of_nat fuel ->
  exists items, collect_pages fuel it = Ret (Some items) /\ tiling va pa len items /\
    forall x, pa <= x < pa + len <-> exists p l, (p, l) ∈ items /\ p <= x < p + page_size l.
Proof.
  intros Hlp Hend Hfuel. unfold largest_pages, rassert, is_valid_range in Hlp.
  repeat (zcase_in Hlp; cbn [mbind outcome_bind] in Hlp; try done).
  destruct (uadd 64 va len) as [end_|] eqn:Ha; [|done]. apply uadd_Ret in Ha as [-> Hov].
  cbn [mbind outcome_bind] in Hlp. zcase_in Hlp; [|done]. cbn [mbind outcome_bind r_start r_end] in *. inv_outcome.
  destruct (collect_pages_spec fuel (mk_iter va pa len)) as (items & Hc & Ht); cbn [it_va it_pa it_len]; try lia; [done|].
  exists items. split_and!; [done|done|]. intros x. by apply (tiling_covers va pa len items x).
Qed.

End paging.

(** ** The user and the kernel page tables of x86-64 *)

Definition user_top : range := mk_range 0 256.
Definition kernel_top : range := mk_range 256 512.

Example x86_ranges :
  @vaddr_range X86.consts user_top = (0, 0x7fffffffffff) /\
  @vaddr_range X86.consts kernel_top = (0xffff800000000000, 0xffffffffffffffff).
Proof. done. Qed.

Lemma vaddr_range_exact_witness :
  (@vaddr_range X86.consts kernel_top).1 <= 0xffffffffffffffff <= (@vaddr_range X86.consts kernel_top).2.
Proof.
  refine (proj2 (@vaddr_range_exact X86.consts X86.reqs kernel_top 0xffffffffffffffff _ _ _) _).
  - vm_compute. repeat split; discriminate.
  - intros _. right. vm_compute. discriminate.
  - lia.
  - vm_compute. repeat split; try discriminate. right. discriminate.
Defined.

Lemma pte_index_digits_witness :
  0x7f1234567abc mod @page_size X86.consts 3 =
  @pte_index X86.consts 0x7f1234567abc 2 * @page_size X86.consts 2 + 0x7f1234567abc mod @page_size X86.consts 2.
Proof.
  exact (proj2 (@pte_index_digits X86.consts X86.reqs 0x7f1234567abc 2 ltac:(done) ltac:(vm_compute; split; discriminate))).
Defined.

Lemma largest_pages_tiles_witness :
  @collect_pages X86.consts 1026 (mk_iter 0x1ff000 0x5ff000 0x401000) =
    Ret (Some [(0x5ff000, 1); (0x600000, 2); (0x800000, 2)]) /\
  exists items, @tiling X86.consts 0x1ff000 0x5ff000 0x401000 items.
Proof.
  split; [vm_compute; reflexivity|].
  destruct (@largest_pages_tiles X86.consts X86.reqs user_top 0x1ff000 0x5ff000 0x401000
    (mk_iter 0x1ff000 0x5ff000 0x401000) 1026 eq_refl ltac:(done) ltac:(done)) as (items & _ & Ht & _).
  exists items. exact Ht.
Defined.
