(* ===== verification/FrameMeta.v ===== *)
(** * [ostd/src/mm/frame]: frame metadata slots and reference counts

    Every physical frame has a 64-byte metadata slot in a linear array.  The
    slot's [ref_count] word is the only synchronisation between the users of a
    frame: shared handles ([Frame]), the exclusive handle ([UniqueFrame]), raw
    addresses into which handles were turned, and the threads that construct or
    destruct the metadata.

    The methods are cut at their atomic operations and at their accesses to the
    metadata, so that any number of agents interleave in every possible way.  A
    panic stops the machine ([panic_diverge]); it is the outcome [Panic] of the
    operation and no step.  The main invariant reads the word back as the
    numbers of handles. *)

From S2P Require Import Prelude Agents Paging.
Open Scope Z_scope.

(** ** Addresses of the slots *)

Definition META_SLOT_SIZE : Z := 64.
Definition FRAME_METADATA_RANGE : range := mk_range 0xffffe00000000000 0xffffe10000000000.

Definition frame_to_meta (paddr : Z) : outcome Z :=
  let base := r_start FRAME_METADATA_RANGE in
  let offset := paddr / PAGE_SIZE in
  bytes ← umul 64 offset META_SLOT_SIZE;
  uadd 64 base bytes.

Definition meta_to_frame (vaddr : Z) : outcome Z :=
  let base := r_start FRAME_METADATA_RANGE in
  diff ← usub vaddr base;
  let offset := diff / META_SLOT_SIZE in
  umul 64 offset PAGE_SIZE.

Inductive GetFrameError := InUse | Unused | Busy | Unique | OutOfBound | NotAligned.
Global Instance GetFrameError_eq_dec : EqDecision GetFrameError.
Proof. solve_decision. Defined.

(** The address of the slot of a frame. *)
Definition get_slot (paddr : Z) : outcome (Z + GetFrameError) :=
  if negb (paddr mod PAGE_SIZE =? 0) then Ret (inr NotAligned)
  else if MAX_PADDR <=? paddr then Ret (inr OutOfBound)
  else vaddr ← frame_to_meta paddr; Ret (inl vaddr).

(** ** A slot and its operations *)

Definition REF_COUNT_UNUSED : Z := 2 ^ 64 - 1.
Definition REF_COUNT_UNIQUE : Z := 2 ^ 64 - 1 - 1.
Definition REF_COUNT_MAX : Z := 2 ^ 63 - 1.

Section slot.
(** The type of the metadata. *)
Context {M : Type}.

(** [storage] and [vtable_ptr] are [None] while uninitialised. *)
Record MetaSlot := mk_slot {
  storage : option M;
  ref_count : Z;
  vtable_ptr : option Z;
  in_list : Z;
}.

Definition store (s : MetaSlot) (v : Z) : MetaSlot := mk_slot (storage s) v (vtable_ptr s) (in_list s).

(** [Ok] or [Err] with the previous value. *)
Definition compare_exchange (s : MetaSlot) (current new : Z) : MetaSlot * (Z + Z) :=
  if ref_count s =? current then (store s new, inl (ref_count s)) else (s, inr (ref_count s)).

Definition write_meta (s : MetaSlot) (metadata : M) : MetaSlot :=
  mk_slot (Some metadata) (ref_count s) (Some 0) (in_list s).

(** The slot after [on_drop] and the destructor of the metadata. *)
Definition drop_meta_in_place (s : MetaSlot) : MetaSlot :=
  mk_slot None (ref_count s) None (in_list s).

(** What an agent has of the frame. *)
Inductive agent :=
| NoHandle
| Claimed (metadata : M) (as_unique_ptr : bool) (* [get_from_unused]: the count is [0], nothing written yet *)
| Written (as_unique_ptr : bool)                (* [get_from_unused]: the metadata is written *)
| Counted (last_ref_cnt : Z)                    (* [get_from_in_use]: the count was loaded *)
| SharedFrame                                   (* a [Frame] *)
| RawFrame                                      (* [Frame::into_raw] *)
| OwnedFrame                                    (* a [UniqueFrame] *)
| RawOwned                                      (* [UniqueFrame::into_raw] *)
| Dropping                                      (* [drop_last_in_place]: before the metadata is dropped *)
| Dropped.                                      (* [drop_last_in_place]: after the metadata is dropped *)

(** [MetaSlot::get_from_unused], up to the claim of the slot. *)
Definition get_from_unused_claim (s : MetaSlot) : MetaSlot * (unit + GetFrameError) :=
  match compare_exchange s REF_COUNT_UNUSED 0 with
  | (s', inl _) => (s', inl tt)
  | (s', inr val) =>
      (s', inr (if val =? REF_COUNT_UNIQUE then Unique else if val =? 0 then Busy else InUse))
  end.

Definition get_from_unused_publish (s : MetaSlot) (as_unique_ptr : bool) : MetaSlot :=
  if as_unique_ptr then store s REF_COUNT_UNIQUE else store s 1.

(** One round of the loop of [MetaSlot::get_from_in_use]: the load, with the
    count to increment, and the exchange, which may fail spuriously. *)
Definition get_from_in_use_load (s : MetaSlot) : outcome (Z + GetFrameError) :=
  let cnt := ref_count s in
  if cnt =? REF_COUNT_UNUSED then Ret (inr Unused)
  else if cnt =? REF_COUNT_UNIQUE then Ret (inr Unique)
  else if cnt =? 0 then Ret (inr Busy)
  else if REF_COUNT_MAX <=? cnt then Panic
  else Ret (inl cnt).

Definition get_from_in_use_inc (spurious : bool) (last_ref_cnt : Z) (s : MetaSlot) : outcome (MetaSlot * bool) :=
  next ← uadd 64 last_ref_cnt 1;
  if spurious then Ret (s, false)
  else match compare_exchange s last_ref_cnt next with
       | (s', inl _) => Ret (s', true)
       | (s', inr _) => Ret (s', false)
       end.

Definition inc_ref_count (s : MetaSlot) : outcome MetaSlot :=
  let last_ref_cnt := ref_count s in
  let s' := store s (wrapping_add 64 last_ref_cnt 1) in
  if REF_COUNT_MAX <=? last_ref_cnt then Panic else Ret s'.

(** [Frame::drop] up to [drop_last_in_place]; the flag tells if it is called. *)
Definition frame_drop_dec (s : MetaSlot) : MetaSlot * bool :=
  (store s (wrapping_sub 64 (ref_count s) 1), ref_count s =? 1).

(** [UniqueFrame::drop] and [reset_as_unused] up to [drop_last_in_place]. *)
Definition unique_drop_zero (s : MetaSlot) : MetaSlot := store s 0.

Definition drop_last_release (s : MetaSlot) : MetaSlot := store s REF_COUNT_UNUSED.

Definition from_unique (s : MetaSlot) : MetaSlot := store s 1.

Definition try_from_shared (s : MetaSlot) : MetaSlot * bool :=
  match compare_exchange s 1 REF_COUNT_UNIQUE with
  | (s', inl _) => (s', true)
  | (s', inr _) => (s', false)
  end.

(** *** The calls without interference *)

Definition get_from_unused (paddr : Z) (metadata : M) (as_unique_ptr : bool) (s : MetaSlot)
    : outcome (MetaSlot * (Z + GetFrameError)) :=
  slot ← get_slot paddr;
  match slot with
  | inr err => Ret (s, inr err)
  | inl ptr =>
      match get_from_unused_claim s with
      | (s', inr err) => Ret (s', inr err)
      | (s', inl _) => Ret (get_from_unused_publish (write_meta s' metadata) as_unique_ptr, inl ptr)
      end
  end.

(** With an exchange that does not fail spuriously. *)
Definition get_from_in_use (paddr : Z) (s : MetaSlot) : outcome (MetaSlot * (Z + GetFrameError)) :=
  slot ← get_slot paddr;
  match slot with
  | inr err => Ret (s, inr err)
  | inl ptr =>
      cnt ← get_from_in_use_load s;
      match cnt with
      | inr err => Ret (s, inr err)
      | inl last_ref_cnt => r ← get_from_in_use_inc false last_ref_cnt s; Ret (r.1, inl ptr)
      end
  end.

Definition drop_last_in_place (s : MetaSlot) : MetaSlot := drop_last_release (drop_meta_in_place s).

Definition frame_drop (s : MetaSlot) : MetaSlot :=
  let '(s', last) := frame_drop_dec s in if last then drop_last_in_place s' else s'.

Definition unique_drop (s : MetaSlot) : MetaSlot := drop_last_in_place (unique_drop_zero s).

(** ** The slot and its agents *)

Inductive agent_step (s : MetaSlot) : agent -> outcome (MetaSlot * agent) -> Prop :=
| st_claim m u : agent_step s NoHandle
    (let '(s', r) := get_from_unused_claim s in
     Ret (s', match r with inl _ => Claimed m u | inr _ => NoHandle end))
| st_write m u : agent_step s (Claimed m u) (Ret (write_meta s m, Written u))
| st_publish u : agent_step s (Written u)
    (Ret (get_from_unused_publish s u, if (u : bool) then OwnedFrame else SharedFrame))
| st_load : agent_step s NoHandle
    (r ← get_from_in_use_load s;
     Ret (s, match r with inl cnt => Counted cnt | inr _ => NoHandle end))
| st_inc spurious cnt : agent_step s (Counted cnt)
    (r ← get_from_in_use_inc spurious cnt s; Ret (r.1, if (r.2 : bool) then SharedFrame else NoHandle))
| st_into_raw : agent_step s SharedFrame (Ret (s, RawFrame))
| st_from_raw : agent_step s RawFrame (Ret (s, SharedFrame))
| st_drop : agent_step s SharedFrame
    (let '(s', last) := frame_drop_dec s in Ret (s', if last then Dropping else NoHandle))
| st_try_from_shared : agent_step s SharedFrame
    (let '(s', ok) := try_from_shared s in Ret (s', if ok then OwnedFrame else SharedFrame))
| st_from_unique : agent_step s OwnedFrame (Ret (from_unique s, SharedFrame))
| st_unique_into_raw : agent_step s OwnedFrame (Ret (s, RawOwned))
| st_unique_from_raw : agent_step s RawOwned (Ret (s, OwnedFrame))
| st_unique_drop : agent_step s OwnedFrame (Ret (unique_drop_zero s, Dropping))
| st_drop_meta : agent_step s Dropping (Ret (drop_meta_in_place s, Dropped))
| st_release : agent_step s Dropped (Ret (drop_last_release s, NoHandle)).

(** A shared handle, raw or not, holds one count. *)
Definition is_shared (a : agent) : bool := match a with SharedFrame | RawFrame => true | _ => false end.

(** One agent performs one operation; [clone] and [inc_frame_ref_count] take a
    second count for a holder of the first. *)
Inductive step (s : MetaSlot) (ags : list agent) : MetaSlot -> list agent -> Prop :=
| step_agent i a s' a' :
    ags !! i = Some a -> agent_step s a (Ret (s', a')) -> step s ags s' (<[i := a']> ags)
| step_clone i a j s' :
    ags !! i = Some a -> is_shared a = true -> ags !! j = Some NoHandle ->
    inc_ref_count s = Ret s' -> step s ags s' (<[j := SharedFrame]> ags).

(** A slot as [alloc_meta_frames] writes it; the [Empty] storage holds no metadata. *)
Definition unused_slot : MetaSlot := mk_slot None REF_COUNT_UNUSED None 0.

Inductive reachable (n : nat) : MetaSlot -> list agent -> Prop :=
| reach_init : reachable n unused_slot (replicate n NoHandle)
| reach_next s ags s' ags' :
    reachable n s ags -> step s ags s' ags' -> reachable n s' ags'.

Definition is_owner (a : agent) : bool := match a with OwnedFrame | RawOwned => true | _ => false end.
(** The agents in the construction or the destruction of the metadata. *)
Definition is_busy (a : agent) : bool :=
  match a with Claimed _ _ | Written _ | Dropping | Dropped => true | _ => false end.
(** The agents for which the metadata is initialised. *)
Definition has_meta (a : agent) : bool :=
  match a with
  | Written _ | SharedFrame | RawFrame | OwnedFrame | RawOwned | Dropping => true
  | _ => false
  end.
(** The agents with exclusive use of the slot. *)
Definition is_exclusive (a : agent) : bool := is_owner a || is_busy a.
(** The agents that have anything to do with the frame. *)
Definition uses (a : agent) : bool := is_shared a || is_exclusive a.

(** ** The invariant *)

(** The word for [cs] counts, [cu] exclusive handles and [cb] busy agents. *)
Definition count_word (cs cu cb : Z) : Z :=
  if 0 <? cu then REF_COUNT_UNIQUE else if 0 <? cb then 0
  else if cs =? 0 then REF_COUNT_UNUSED else cs.

Definition counted_ok (a : agent) : bool :=
  match a with Counted cnt => (1 <=? cnt) && (cnt <? REF_COUNT_MAX) | _ => true end.

(** The counts of the agents in each role, with the limits between them. *)
Definition roles (cs cu cb cm : Z) : Prop :=
  0 <= cs <= REF_COUNT_MAX /\ 0 <= cu /\ 0 <= cb /\ cu + cb <= 1 /\ (cu + cb = 1 -> cs = 0) /\
  cs + cu <= cm <= cs + cu + cb.

Definition slot_inv (s : MetaSlot) (ags : list agent) : Prop :=
  let cs := number is_shared ags in let cu := number is_owner ags in
  let cb := number is_busy ags in let cm := number has_meta ags in
  roles cs cu cb cm /\ ref_count s = count_word cs cu cb /\
  (is_Some (storage s) <-> 0 < cm) /\ (is_Some (vtable_ptr s) <-> 0 < cm) /\ in_list s = 0 /\
  Forall (fun a => counted_ok a = true) ags.

Lemma slot_inv_init n : slot_inv unused_slot (replicate n NoHandle).
Proof.
  assert (H0 : forall P : agent -> bool, P NoHandle = false -> number P (replicate n NoHandle) = 0).
  { intros P HP. apply number_zero. intros i a [-> _]%lookup_replicate. done. }
  unfold slot_inv. rewrite !H0 by done. split_and!; try done.
  - split; [by intros []|lia].
  - split; [by intros []|lia].
  - apply Forall_replicate. done.
Qed.

(** The invariant after agent [i] has moved from [a] to [a']. *)
Lemma slot_inv_update s s' ags i a a' cs cu cb cm :
  slot_inv s ags -> ags !! i = Some a ->
  cs = number is_shared ags - holds is_shared a + holds is_shared a' ->
  cu = number is_owner ags - holds is_owner a + holds is_owner a' ->
  cb = number is_busy ags - holds is_busy a + holds is_busy a' ->
  cm = number has_meta ags - holds has_meta a + holds has_meta a' ->
  counted_ok a' = true -> roles cs cu cb cm -> ref_count s' = count_word cs cu cb ->
  (is_Some (storage s') <-> 0 < cm) -> (is_Some (vtable_ptr s') <-> 0 < cm) -> in_list s' = in_list s ->
  slot_inv s' (<[i := a']> ags).
Proof.
  intros (_ & _ & _ & _ & Hl & Hc) Hi -> -> -> -> ? Hr ? ? ? Hl'. unfold slot_inv.
  rewrite !(number_insert _ ags i a a' Hi). split_and!; try done; try congruence; try apply Hr.
  by apply Forall_insert.
Qed.

Lemma number_uses ags : number uses ags = number is_shared ags + number is_owner ags + number is_busy ags.
Proof. induction ags as [|a ags IH]; [done|]. cbn [number]. rewrite IH. unfold holds. destruct a; cbn; lia. Qed.

(** What the role of one agent says of the counts. *)
Lemma roles_at s ags i a : slot_inv s ags -> ags !! i = Some a ->
  holds is_shared a <= number is_shared ags /\ holds is_owner a <= number is_owner ags /\
  holds is_busy a <= number is_busy ags /\ holds has_meta a <= number has_meta ags /\
  number has_meta ags - holds has_meta a <=
    number is_shared ags + number is_owner ags + number is_busy ags - holds uses a /\
  counted_ok a = true.
Proof.
  intros (_ & _ & _ & _ & _ & Hc) Hi. split_and!; try (by eapply number_at).
  { rewrite <- number_uses. pose proof (number_mono_at has_meta uses ags i a ltac:(by intros []) Hi). lia. }
  by apply (Forall_lookup_1 _ _ _ _ Hc Hi).
Qed.

Lemma count_word_inv cs cu cb cm : roles cs cu cb cm ->
  (count_word cs cu cb = REF_COUNT_UNUSED <-> cs = 0 /\ cu = 0 /\ cb = 0) /\
  (count_word cs cu cb = REF_COUNT_UNIQUE <-> cu = 1) /\
  (count_word cs cu cb = 0 <-> cb = 1) /\
  (0 < count_word cs cu cb <= REF_COUNT_MAX <-> 0 < cs) /\ (0 < cs -> count_word cs cu cb = cs).
Proof.
  unfold roles, count_word, REF_COUNT_MAX, REF_COUNT_UNIQUE, REF_COUNT_UNUSED. intros.
  repeat zcase; lia.
Qed.

Lemma store_fields s v : ref_count (store s v) = v /\ storage (store s v) = storage s /\
  vtable_ptr (store s v) = vtable_ptr s /\ in_list (store s v) = in_list s.
Proof. done. Qed.

Lemma count_word_cases cs cu cb cm w : roles cs cu cb cm -> w = count_word cs cu cb ->
  cu = 1 /\ w = 2 ^ 64 - 2 \/ cu = 0 /\ cb = 1 /\ w = 0 \/
  cu = 0 /\ cb = 0 /\ cs = 0 /\ w = 2 ^ 64 - 1 \/ cu = 0 /\ cb = 0 /\ 0 < cs /\ w = cs.
Proof.
  unfold roles, count_word, REF_COUNT_MAX, REF_COUNT_UNIQUE, REF_COUNT_UNUSED. intros ? ->.
  repeat zcase; lia.
Qed.

(** Closes a condition of [slot_inv_update] that is arithmetic on the counts. *)
Ltac slot_arith :=
  unfold roles, count_word, holds, REF_COUNT_MAX, REF_COUNT_UNIQUE, REF_COUNT_UNUSED in *; cbn in *;
  rewrite ?is_Some_alt in *; cbn in *; repeat zcase; zify_bools; try tauto; try lia.

Ltac slot_upd Hinv Hi :=
  apply (slot_inv_update _ _ _ _ _ _ _ _ _ _ Hinv Hi eq_refl eq_refl eq_refl eq_refl); slot_arith.

Lemma slot_step_inv s ags i a s' a' :
  slot_inv s ags -> ags !! i = Some a -> agent_step s a (Ret (s', a')) ->
  slot_inv s' (<[i := a']> ags).
Proof.
  intros Hinv Hi Hs. pose proof (roles_at s ags i a Hinv Hi) as (? & ? & ? & ? & ? & Hok).
  pose proof Hinv as (Hr & Hw & Hst & Hvt & Hl & _).
  apply (count_word_cases _ _ _ _ _ Hr) in Hw.
  remember (Ret (s', a')) as p eqn:Ep. destruct Hs; cbn in *.
  - unfold get_from_unused_claim, compare_exchange in Ep.
    zcase_in Ep; injection Ep as <- <-; slot_upd Hinv Hi.
  - injection Ep as <- <-. slot_upd Hinv Hi.
  - destruct u; injection Ep as <- <-; slot_upd Hinv Hi.
  - unfold get_from_in_use_load in Ep. repeat zcase_in Ep; inv_outcome; slot_upd Hinv Hi.
    unfold REF_COUNT_MAX. lia.
  - zify_bools. unfold REF_COUNT_MAX in *. unfold get_from_in_use_inc in Ep. rewrite uadd_ok in Ep by lia.
    cbn [mbind outcome_bind] in Ep. unfold compare_exchange in Ep.
    repeat zcase_in Ep; cbn in Ep; injection Ep as <- <-; slot_upd Hinv Hi.
  - injection Ep as <- <-. slot_upd Hinv Hi.
  - injection Ep as <- <-. slot_upd Hinv Hi.
  - unfold frame_drop_dec in Ep. assert (Hd : wrapping_sub 64 (ref_count s) 1 = ref_count s - 1).
    { unfold roles, REF_COUNT_MAX in Hr. apply Z.mod_small. cbn in *. lia. }
    rewrite Hd in Ep. zcase_in Ep; injection Ep as <- <-; slot_upd Hinv Hi.
  - unfold try_from_shared, compare_exchange in Ep. zcase_in Ep; injection Ep as <- <-; slot_upd Hinv Hi.
  - injection Ep as <- <-. slot_upd Hinv Hi.
  - injection Ep as <- <-. slot_upd Hinv Hi.
  - injection Ep as <- <-. slot_upd Hinv Hi.
  - injection Ep as <- <-. slot_upd Hinv Hi.
  - injection Ep as <- <-. slot_upd Hinv Hi.
  - injection Ep as <- <-. slot_upd Hinv Hi.
Qed.

Lemma inc_ref_count_inv s ags i a j s' :
  slot_inv s ags -> ags !! i = Some a -> is_shared a = true -> ags !! j = Some NoHandle ->
  inc_ref_count s = Ret s' -> slot_inv s' (<[j := SharedFrame]> ags).
Proof.
  intros Hinv Hi Ha Hj Hs. pose proof (number_one _ _ _ _ Hi Ha) as Hone.
  pose proof Hinv as (Hr & Hw & Hst & Hvt & Hl & _). apply (count_word_cases _ _ _ _ _ Hr) in Hw.
  unfold inc_ref_count in Hs. zcase_in Hs; [done|]. injection Hs as <-.
  assert (Hd : wrapping_add 64 (ref_count s) 1 = ref_count s + 1).
  { unfold roles, REF_COUNT_MAX in *. apply Z.mod_small. lia. }
  rewrite Hd. slot_upd Hinv Hj.
Qed.

Lemma slot_reachable_inv n s ags : reachable n s ags -> slot_inv s ags.
Proof.
  induction 1 as [|s ags s' ags' _ IH Hs]; [apply slot_inv_init|].
  destruct Hs as [i a s' a' Hi Ha|i a j s' Hi Ha Hj Hs].
  - exact (slot_step_inv s ags i a s' a' IH Hi Ha).
  - exact (inc_ref_count_inv s ags i a j s' IH Hi Ha Hj Hs).
Qed.

(** The metadata that an agent with [has_meta] sees only changes through that agent. *)
Lemma agent_step_storage s ags i a s' a' j b :
  slot_inv s ags -> ags !! i = Some a -> agent_step s a (Ret (s', a')) ->
  ags !! j = Some b -> i <> j -> has_meta b = true -> storage s' = storage s.
Proof.
  intros (Hr & _) Hi Hs Hj Hij Hb.
  assert (Hx : is_busy a = true -> False).
  { intros Ha. pose proof (number_two uses ags i j a b Hij Hi Hj) as H2.
    pose proof (number_one is_busy ags i a Hi Ha). rewrite number_uses in H2.
    assert (uses a = true /\ uses b = true) as [Hu Hv]
      by (split; [by destruct a|by destruct b]).
    unfold holds in H2. rewrite Hu, Hv in H2. unfold roles in Hr. lia. }
  remember (Ret (s', a')) as p eqn:Ep. destruct Hs; try (by destruct (Hx eq_refl));
    try (injection Ep as <- <-; done).
  - unfold get_from_unused_claim, compare_exchange in Ep. zcase_in Ep; injection Ep as <- <-; done.
  - by destruct (get_from_in_use_load s); inv_outcome.
  - unfold get_from_in_use_inc, compare_exchange in Ep. destruct (uadd 64 cnt 1); [|done].
    cbn in Ep. repeat zcase_in Ep; cbn in Ep; injection Ep as <- <-; done.
  - unfold try_from_shared, compare_exchange in Ep. zcase_in Ep; injection Ep as <- <-; done.
Qed.

(** ** Addresses *)

Definition valid_frame_paddr (pa : Z) : Prop := 0 <= pa < MAX_PADDR /\ pa mod PAGE_SIZE = 0.

Lemma frame_to_meta_ok pa : 0 <= pa < MAX_PADDR ->
  frame_to_meta pa = Ret (0xffffe00000000000 + pa / 4096 * 64).
Proof.
  intros Hpa. unfold frame_to_meta, MAX_PADDR, PAGE_SIZE, META_SLOT_SIZE in *.
  rewrite umul_ok by (Z.to_euclidean_division_equations; lia). cbn -[Z.add Z.mul Z.div].
  apply uadd_ok. Z.to_euclidean_division_equations; lia.
Qed.

Lemma meta_to_frame_ok k : 0 <= k < 2 ^ 52 ->
  meta_to_frame (0xffffe00000000000 + k * 64) = Ret (k * 4096).
Proof.
  intros Hk. unfold meta_to_frame, PAGE_SIZE, META_SLOT_SIZE.
  rewrite usub_ok by (cbn -[Z.mul Z.add]; lia). cbn -[Z.add Z.mul Z.div Z.sub].
  replace (_ - _) with (k * 64) by lia. rewrite Z.div_mul by lia. apply umul_ok. lia.
Qed.

Lemma frame_meta_frame pa : valid_frame_paddr pa ->
  exists va, frame_to_meta pa = Ret va /\ in_range FRAME_METADATA_RANGE va /\
    va mod META_SLOT_SIZE = 0 /\ meta_to_frame va = Ret pa.
Proof.
  intros [Hpa Hal]. eexists. split; [by apply frame_to_meta_ok|].
  unfold MAX_PADDR, PAGE_SIZE, META_SLOT_SIZE, in_range in *. cbn [r_start r_end FRAME_METADATA_RANGE].
  rewrite meta_to_frame_ok by (Z.to_euclidean_division_equations; lia).
  split_and!; try f_equal; Z.to_euclidean_division_equations; lia.
Qed.

Lemma get_slot_spec pa : 0 <= pa ->
  (valid_frame_paddr pa -> exists ptr, get_slot pa = Ret (inl ptr) /\ frame_to_meta pa = Ret ptr) /\
  (pa mod PAGE_SIZE <> 0 -> get_slot pa = Ret (inr NotAligned)) /\
  (pa mod PAGE_SIZE = 0 -> MAX_PADDR <= pa -> get_slot pa = Ret (inr OutOfBound)).
Proof.
  intros H0. unfold get_slot. split_and!.
  - intros [Hpa Hal]. exists (0xffffe00000000000 + pa / 4096 * 64). rewrite (frame_to_meta_ok pa Hpa).
    repeat zcase; try lia. done.
  - intros. repeat zcase; done || lia.
  - intros. repeat zcase; done || lia.
Qed.

(** ** Whole calls on a slot whose agents are known *)

Lemma get_from_unused_valid pa m u s : valid_frame_paddr pa ->
  exists ptr, frame_to_meta pa = Ret ptr /\
  get_from_unused pa m u s = match get_from_unused_claim s with
    | (s', inr err) => Ret (s', inr err)
    | (s', inl _) => Ret (get_from_unused_publish (write_meta s' m) u, inl ptr)
    end.
Proof.
  intros Hv. destruct (proj1 (get_slot_spec pa (proj1 (proj1 Hv))) Hv) as (ptr & Hs & Hf).
  exists ptr. split; [done|]. unfold get_from_unused. rewrite Hs. done.
Qed.

Lemma get_from_in_use_valid pa s : valid_frame_paddr pa ->
  exists ptr, frame_to_meta pa = Ret ptr /\
  get_from_in_use pa s = (cnt ← get_from_in_use_load s;
    match cnt with
    | inr err => Ret (s, inr err)
    | inl last_ref_cnt => r ← get_from_in_use_inc false last_ref_cnt s; Ret (r.1, inl ptr)
    end).
Proof.
  intros Hv. destruct (proj1 (get_slot_spec pa (proj1 (proj1 Hv))) Hv) as (ptr & Hs & Hf).
  exists ptr. split; [done|]. unfold get_from_in_use. rewrite Hs. done.
Qed.

(** ** Properties *)

(** C16: exclusive use of a frame excludes every other use, under every interleaving of any
    number of agents: while one agent owns a [UniqueFrame] (or its raw address), or constructs or
    destructs the metadata, no other agent has a handle or is in a construction or destruction.
    The metadata is initialised for every agent that may read it, and is not initialised when a
    construction is about to write it, so no metadata is used after it is dropped, dropped
    twice or overwritten without being dropped. *)
Theorem frame_use_exclusive n s ags i a :
  reachable n s ags -> ags !! i = Some a ->
  (is_exclusive a = true -> forall j b, i <> j -> ags !! j = Some b -> uses b = false) /\
  (has_meta a = true -> is_Some (storage s) /\ is_Some (vtable_ptr s)) /\
  (forall m u, a = Claimed m u -> storage s = None /\ vtable_ptr s = None).
Proof.
  intros Hr Hi. pose proof (slot_reachable_inv n s ags Hr) as Hinv.
  pose proof (roles_at s ags i a Hinv Hi) as (? & ? & ? & ? & Hm & _).
  pose proof Hinv as (Hro & _ & Hst & Hvt & _). split_and!.
  - intros Ha j b Hij Hj. destruct (uses b) eqn:Hb; [|done].
    pose proof (number_two uses ags i j a b Hij Hi Hj) as Htwo. rewrite number_uses in Htwo.
    assert (uses a = true) as Hu by (unfold uses; rewrite Ha; apply orb_true_r).
    assert (1 <= number is_owner ags + number is_busy ags).
    { pose proof (number_nonneg is_owner ags). pose proof (number_nonneg is_busy ags).
      apply orb_true_iff in Ha as [Ha|Ha]; pose proof (number_one _ _ _ _ Hi Ha); lia. }
    unfold holds in Htwo. rewrite Hu, Hb in Htwo. unfold roles in Hro. lia.
  - intros Ha. unfold holds in *. rewrite Ha in *. rewrite Hst, Hvt. lia.
  - intros m u ->. cbn in Hm, H1. unfold roles in Hro. rewrite !eq_None_not_Some, Hst, Hvt. lia.
Qed.

(** The count is exact.  In every reachable state the word is the number of shared handles,
    raw or not, when there is one; it is [REF_COUNT_UNUSED] exactly when no agent has anything to
    do with the frame (so a frame whose handles are all gone can be allocated again),
    [REF_COUNT_UNIQUE] exactly when there is an exclusive handle, and [0] exactly during
    a construction or destruction.  It never passes [REF_COUNT_MAX]: a clone panics exactly when there
    are [REF_COUNT_MAX] shared handles. *)
Theorem frame_ref_count_exact n s ags :
  reachable n s ags ->
  (0 < number is_shared ags -> ref_count s = number is_shared ags) /\
  (ref_count s = REF_COUNT_UNUSED <-> number uses ags = 0) /\
  (ref_count s = REF_COUNT_UNIQUE <-> number is_owner ags = 1) /\
  (ref_count s = 0 <-> number is_busy ags = 1) /\
  number is_shared ags <= REF_COUNT_MAX /\
  (0 < number is_shared ags -> inc_ref_count s = Panic <-> number is_shared ags = REF_COUNT_MAX).
Proof.
  intros Hr. pose proof (slot_reachable_inv n s ags Hr) as (Hro & Hw & _).
  pose proof (count_word_inv _ _ _ _ Hro) as (Hu & Hq & Hb & _ & Hs). rewrite Hw, number_uses.
  pose proof Hro as (? & ? & ? & ? & ? & ?). split_and!; try done.
  - rewrite Hu. lia.
  - lia.
  - intros Hpos. unfold inc_ref_count. rewrite Hw, (Hs Hpos). zcase; split; intros; done || lia.
Qed.

(** The outcome of a request for a frame tells the state of the frame.  On a valid address
    [get_from_unused] succeeds exactly on a frame nobody uses, with the metadata written and the
    count of the kind of handle asked for, and otherwise changes nothing and returns
    [Unique], [Busy] or [InUse]; [get_from_in_use] takes one more count exactly on a shared
    frame and otherwise returns [Unused], [Unique] or [Busy], or panics at the maximum. *)
Theorem frame_request_outcomes n s ags pa m u :
  reachable n s ags -> valid_frame_paddr pa ->
  let cs := number is_shared ags in
  exists ptr, frame_to_meta pa = Ret ptr /\
  get_from_unused pa m u s =
    (if number uses ags =? 0
     then Ret (mk_slot (Some m) (if u then REF_COUNT_UNIQUE else 1) (Some 0) 0, inl ptr)
     else Ret (s, inr (if number is_owner ags =? 1 then Unique
                       else if number is_busy ags =? 1 then Busy else InUse))) /\
  get_from_in_use pa s =
    (if 0 <? cs
     then if cs =? REF_COUNT_MAX then Panic else Ret (store s (cs + 1), inl ptr)
     else Ret (s, inr (if number is_owner ags =? 1 then Unique
                       else if number is_busy ags =? 1 then Busy else Unused))).
Proof.
  intros Hr Hv cs. pose proof (slot_reachable_inv n s ags Hr) as (Hro & Hw & _ & _ & Hl & _).
  destruct (get_from_unused_valid pa m u s Hv) as (ptr & Hf & ->).
  destruct (get_from_in_use_valid pa s Hv) as (ptr' & Hf' & ->).
  assert (ptr' = ptr) as -> by congruence. exists ptr. split; [done|]. rewrite number_uses. fold cs.
  pose proof (count_word_cases _ _ _ _ _ Hro Hw) as Hc. fold cs in Hc, Hro.
  unfold roles, REF_COUNT_MAX in Hro. split.
  - unfold get_from_unused_claim, compare_exchange, REF_COUNT_UNUSED, REF_COUNT_UNIQUE.
    destruct u; repeat zcase; try done; try lia;
      unfold get_from_unused_publish, store, write_meta; cbn; by rewrite Hl.
  - unfold get_from_in_use_load, REF_COUNT_UNUSED, REF_COUNT_UNIQUE, REF_COUNT_MAX.
    repeat zcase; try done; try lia.
    cbn [mbind outcome_bind]. unfold get_from_in_use_inc. rewrite uadd_ok by lia.
    cbn [mbind outcome_bind]. unfold compare_exchange. zcase; [|lia]. cbn. do 3 f_equal; lia.
Qed.

Lemma reach_agent n s ags i a s' a' :
  reachable n s ags -> ags !! i = Some a -> agent_step s a (Ret (s', a')) ->
  reachable n s' (<[i := a']> ags).
Proof. intros Hr Hi Ha. eapply reach_next; [done|]. by apply (step_agent _ _ i a). Qed.

Lemma lookup_upd (ags : list agent) i a b : ags !! i = Some a -> <[i := b]> ags !! i = Some b.
Proof. intros Hi. apply list_lookup_insert_eq. by eapply lookup_lt_Some. Qed.

Lemma reach_drop_last n s ags i :
  reachable n s ags -> ags !! i = Some Dropping ->
  reachable n (drop_last_in_place s) (<[i := NoHandle]> ags).
Proof.
  intros Hr Hi. rewrite <- (list_insert_insert_eq ags i NoHandle Dropped).
  eapply reach_agent; [eapply reach_agent|..]; [done|done|apply st_drop_meta| |apply st_release].
  by eapply lookup_upd.
Qed.

(** A call that is not interrupted is one of the interleavings: a successful
    [get_from_unused] turns an agent without a handle into the holder of the handle asked for,
    and dropping a [Frame] or a [UniqueFrame] takes the handle away.  Dropping the last
    shared handle or the exclusive one leaves the slot as it was before its first use;
    dropping another shared handle only takes one count. *)
Theorem frame_calls_run n s ags i :
  reachable n s ags ->
  (forall pa m u s' ptr, ags !! i = Some NoHandle -> get_from_unused pa m u s = Ret (s', inl ptr) ->
     reachable n s' (<[i := if u then OwnedFrame else SharedFrame]> ags)) /\
  (ags !! i = Some SharedFrame ->
     reachable n (frame_drop s) (<[i := NoHandle]> ags) /\
     frame_drop s = if number is_shared ags =? 1 then unused_slot else store s (number is_shared ags - 1)) /\
  (ags !! i = Some OwnedFrame ->
     reachable n (unique_drop s) (<[i := NoHandle]> ags) /\ unique_drop s = unused_slot).
Proof.
  intros Hr. pose proof (slot_reachable_inv n s ags Hr) as (Hro & Hw & _ & _ & Hl & _). split_and!.
  - intros pa m u s' ptr Hi Hg. unfold get_from_unused in Hg. destruct (get_slot pa) as [[v|e]|]; try done.
    cbn in Hg. destruct (get_from_unused_claim s) as [s1 [[]|e]] eqn:Ec; [|done]. injection Hg as <- _.
    pose proof (st_claim s m u) as H1. rewrite Ec in H1.
    pose proof (reach_agent _ _ _ i _ _ _ Hr Hi H1) as R1.
    pose proof (reach_agent _ _ _ i _ _ _ R1 (lookup_upd _ _ _ _ Hi) (st_write _ m u)) as R2.
    rewrite list_insert_insert_eq in R2.
    pose proof (reach_agent _ _ _ i _ _ _ R2 (lookup_upd _ _ _ _ Hi) (st_publish _ u)) as R3.
    by rewrite list_insert_insert_eq in R3.
  - intros Hi. pose proof (number_one is_shared ags i _ Hi eq_refl) as H1.
    pose proof (proj2 (proj2 (proj2 (proj2 (count_word_inv _ _ _ _ Hro)))) ltac:(lia)) as Hc.
    rewrite Hc in Hw. assert (Hd : wrapping_sub 64 (ref_count s) 1 = number is_shared ags - 1).
    { unfold roles, REF_COUNT_MAX in Hro. rewrite Hw. apply Z.mod_small. lia. }
    pose proof (st_drop s) as Hst. unfold frame_drop, frame_drop_dec in *. rewrite Hd, Hw in *.
    zcase; (split; [|try done]).
    + rewrite <- (list_insert_insert_eq ags i NoHandle Dropping). apply reach_drop_last.
      * by eapply reach_agent.
      * by eapply lookup_upd.
    + unfold unused_slot. by rewrite <- Hl.
    + by eapply reach_agent.
  - intros Hi. split.
    + rewrite <- (list_insert_insert_eq ags i NoHandle Dropping). apply (reach_drop_last n (unique_drop_zero s)).
      * eapply reach_agent; [done|done|apply st_unique_drop].
      * by eapply lookup_upd.
    + unfold unique_drop, unused_slot. by rewrite <- Hl.
Qed.

(** The metadata of a live handle does not change.  Over any step of any agent, if an
    agent has the metadata before and after the step, through the same or another kind of
    handle, the metadata in the slot is the same. *)
Theorem frame_meta_stable n s ags s' ags' j b b' :
  reachable n s ags -> step s ags s' ags' -> ags !! j = Some b -> ags' !! j = Some b' ->
  has_meta b = true -> has_meta b' = true -> storage s' = storage s.
Proof.
  intros Hr Hs Hj Hj' Hb Hb'. pose proof (slot_reachable_inv n s ags Hr) as Hinv.
  destruct Hs as [i a s' a' Hi Ha|i a k s' Hi Ha Hk Hinc].
  - destruct (decide (i = j)) as [->|Hij]; [|by eapply (agent_step_storage s ags i a s' a' j b)].
    rewrite (lookup_upd _ _ _ _ Hi) in Hj'. injection Hj' as <-.
    assert (a = b) as -> by congruence. remember (Ret (s', a')) as p eqn:Ep.
    destruct Ha; try done; try (injection Ep as <- <-; done).
    + unfold get_from_unused_publish in Ep. destruct u; by injection Ep as <- <-.
    + unfold try_from_shared, compare_exchange in Ep. zcase_in Ep; by injection Ep as <- <-.
  - unfold inc_ref_count in Hinc. zcase_in Hinc; [done|]. by injection Hinc as <-.
Qed.

End slot.
Arguments MetaSlot : clear implicits.
Arguments agent : clear implicits.

(** The array of slots and the physical frames correspond one to one: the address
    computations do not overflow on valid arguments, [meta_to_frame] inverts [frame_to_meta] on the
    frames, [frame_to_meta] inverts [meta_to_frame] on the slots, and slots lie aligned in the
    range reserved for them. *)
Theorem frame_meta_bijection :
  (forall pa, valid_frame_paddr pa ->
     exists va, frame_to_meta pa = Ret va /\ in_range FRAME_METADATA_RANGE va /\
       va mod META_SLOT_SIZE = 0 /\ meta_to_frame va = Ret pa) /\
  (forall va, r_start FRAME_METADATA_RANGE <= va < r_start FRAME_METADATA_RANGE + MAX_PADDR / PAGE_SIZE * META_SLOT_SIZE ->
     va mod META_SLOT_SIZE = 0 ->
     exists pa, meta_to_frame va = Ret pa /\ valid_frame_paddr pa /\ frame_to_meta pa = Ret va) /\
  (forall pa, 0 <= pa -> (exists ptr, get_slot pa = Ret (inl ptr)) <-> valid_frame_paddr pa).
Proof.
  split_and!; [apply frame_meta_frame| |].
  - intros va Hva Hal. unfold META_SLOT_SIZE, MAX_PADDR, PAGE_SIZE in *.
    cbn [r_start FRAME_METADATA_RANGE] in *. assert (exists k, va = 0xffffe00000000000 + k * 64 /\ 0 <= k < 524288) as (k & -> & Hk)
      by (exists ((va - 0xffffe00000000000) / 64); Z.to_euclidean_division_equations; lia).
    exists (k * 4096). unfold valid_frame_paddr, MAX_PADDR, PAGE_SIZE.
    rewrite meta_to_frame_ok, frame_to_meta_ok, !Z.div_mul, Z.mod_mul by (unfold MAX_PADDR; lia).
    split_and!; done || lia.
  - intros pa H0. destruct (get_slot_spec pa H0) as (Hok & Hal & Hob). split.
    + intros [ptr Hs]. unfold valid_frame_paddr.
      destruct (Z.eq_dec (pa mod PAGE_SIZE) 0) as [Hz|Hz]; [|rewrite (Hal Hz) in Hs; done].
      split; [split; [done|]|done]. destruct (Z.lt_ge_cases pa MAX_PADDR); [done|].
      rewrite (Hob Hz) in Hs by done. done.
    + intros Hv. destruct (Hok Hv) as (ptr & ? & _). by exists ptr.
Qed.

(** ** Example runs *)

(** Agent 0 has made the frame, agent 1 has cloned the handle. *)
Definition shared_slot (cnt : Z) : MetaSlot nat := mk_slot (Some 7%nat) cnt (Some 0) 0.

Lemma reach_claimed : reachable 2 (mk_slot None 0 None 0) [Claimed 7%nat false; NoHandle].
Proof. exact (reach_agent 2 _ _ 0 _ _ _ (reach_init 2) eq_refl (st_claim _ 7%nat false)). Qed.

Lemma reach_one_frame : reachable 2 (shared_slot 1) [SharedFrame; NoHandle].
Proof.
  exact (reach_agent 2 _ _ 0 _ _ _ (reach_agent 2 _ _ 0 _ _ _ reach_claimed eq_refl (st_write _ 7%nat false))
    eq_refl (st_publish _ false)).
Qed.

Lemma clone_step : step (shared_slot 1) [SharedFrame; NoHandle] (shared_slot 2) [SharedFrame; SharedFrame].
Proof. exact (step_clone (shared_slot 1) [SharedFrame; NoHandle] 0 SharedFrame 1 _ eq_refl eq_refl eq_refl eq_refl). Qed.

Lemma reach_two_frames : reachable 2 (shared_slot 2) [SharedFrame; SharedFrame].
Proof. exact (reach_next _ _ _ _ _ reach_one_frame clone_step). Qed.

Lemma frame_use_exclusive_witness :
  uses (NoHandle : agent nat) = false /\ @storage nat (mk_slot None 0 None 0) = None.
Proof.
  pose proof (frame_use_exclusive 2 _ _ 0 _ reach_claimed eq_refl) as (Hex & _ & Hcl).
  split; [exact (Hex eq_refl 1%nat NoHandle ltac:(done) eq_refl)|].
  exact (proj1 (Hcl 7%nat false eq_refl)).
Defined.

Lemma frame_ref_count_exact_witness : ref_count (shared_slot 2) = 2.
Proof. exact (proj1 (frame_ref_count_exact 2 _ _ reach_two_frames) eq_refl). Defined.

Lemma frame_request_outcomes_witness :
  get_from_unused 0x5000 8%nat false (shared_slot 2) = Ret (shared_slot 2, inr InUse) /\
  exists ptr, get_from_in_use 0x5000 (shared_slot 2) = Ret (shared_slot 3, inl ptr).
Proof.
  destruct (frame_request_outcomes 2 _ _ 0x5000 8%nat false reach_two_frames ltac:(done)) as (ptr & _ & Hu & Hi).
  split; [exact Hu|]. exists ptr. exact Hi.
Defined.

Lemma frame_calls_run_witness :
  frame_drop (shared_slot 1) = unused_slot /\ reachable 2 (frame_drop (shared_slot 1)) [NoHandle; NoHandle].
Proof.
  pose proof (frame_calls_run 2 _ _ 0 reach_one_frame) as (_ & Hd & _).
  split; [exact (proj2 (Hd eq_refl))|exact (proj1 (Hd eq_refl))].
Defined.

Lemma frame_meta_stable_witness : storage (shared_slot 2) = storage (shared_slot 1).
Proof.
  exact (frame_meta_stable 2 _ _ _ _ 0 SharedFrame SharedFrame reach_one_frame clone_step
    eq_refl eq_refl eq_refl eq_refl).
Defined.
