(* ===== verification/FrameSegment.v ===== *)
(** * [ostd/src/mm/frame/segment.rs]: segments of frames

    A [Segment] is a contiguous range of frames and holds one reference count of each of
    them.  It is made from unused frames or from a single frame; it is cloned, split,
    sliced and iterated over, and dropping it drops its counts.  The counts are those of
    the metadata slots ([FrameMeta]).

    The segments are run by one thread, over the slots of all frames; the calls on a slot
    are those of [FrameMeta] without interference.  The theorem is a refinement: every
    history of segments and frames behaves as if the only state were the list of handles,
    and the count of each frame is the number of handles that contain it. *)

From S2P Require Import Prelude Agents Paging FrameMeta.
Open Scope Z_scope.

Section segment.
(** The metadata that [from_unused] writes, with the address it is for. *)
Context {M : Type} (metadata_fn : Z -> Z * M).

Local Notation slots := (gmap Z (MetaSlot M)).
Definition slot_at (h : slots) (pa : Z) : MetaSlot M := default unused_slot (h !! pa).

(** ** Frames *)

(** [Frame::from_unused]. *)
Definition frame_from_unused (h : slots) (pa : Z) (metadata : M) : outcome (slots * option GetFrameError) :=
  ' (s, r) ← get_from_unused pa metadata false (slot_at h pa);
  Ret (match r with inl _ => (<[pa := s]> h, None) | inr e => (h, Some e) end).

(** [Frame::from_raw] followed by [Frame::drop]. *)
Definition drop_raw (h : slots) (pa : Z) : outcome slots :=
  _ ← frame_to_meta pa; Ret (<[pa := frame_drop (slot_at h pa)]> h).

Definition inc_frame_ref_count (h : slots) (pa : Z) : outcome slots :=
  _ ← frame_to_meta pa; s ← inc_ref_count (slot_at h pa); Ret (<[pa := s]> h).

(** ** Segments *)

Definition Segment := range.

Definition start_paddr (self : Segment) : Z := r_start self.
Definition end_paddr (self : Segment) : Z := r_end self.
Definition size (self : Segment) : outcome Z := usub (r_end self) (r_start self).

(** Enough rounds for the loops over the frames of a range. *)
Definition rounds (start end_ : Z) : nat := Z.to_nat ((end_ - start) / PAGE_SIZE).

(** The loop of [clone] and [slice]. *)
Fixpoint inc_loop (fuel : nat) (h : slots) (paddr end_ : Z) : outcome slots :=
  if end_ <=? paddr then Ret h
  else
    match fuel with
    | O => Panic
    | S fuel' => h' ← inc_frame_ref_count h paddr; next ← uadd 64 paddr PAGE_SIZE; inc_loop fuel' h' next end_
    end.

Definition clone (h : slots) (self : Segment) : outcome (slots * Segment) :=
  h' ← inc_loop (rounds (r_start self) (r_end self)) h (r_start self) (r_end self);
  Ret (h', mk_range (r_start self) (r_end self)).

(** The loop of [drop], and of the failure of [from_unused]. *)
Fixpoint drop_loop (fuel : nat) (h : slots) (paddr end_ : Z) : outcome slots :=
  if end_ <=? paddr then Ret h
  else
    match fuel with
    | O => Panic
    | S fuel' => h' ← drop_raw h paddr; next ← uadd 64 paddr PAGE_SIZE; drop_loop fuel' h' next end_
    end.

Definition segment_drop (h : slots) (self : Segment) : outcome slots :=
  drop_loop (rounds (r_start self) (r_end self)) h (r_start self) (r_end self).

(** The loop of [from_unused], with [n] rounds left. *)
Fixpoint from_unused_loop (n : nat) (h : slots) (rg : range) (i : Z) (segment : Segment) : outcome (slots * (Segment + GetFrameError)) :=
  match n with
  | O => Ret (h, inl segment)
  | S n' =>
      offset ← umul 64 i PAGE_SIZE;
      paddr_in ← uadd 64 (r_start rg) offset;
      let '(paddr, meta) := metadata_fn paddr_in in
      ' (h1, res) ← frame_from_unused h paddr meta;
      match res with
      | Some e =>
          h2 ← drop_loop (rounds (r_start rg) (r_end segment)) h1 (r_start rg) (r_end segment);
          Ret (h2, inr e)
      | None =>
          end_ ← uadd 64 paddr PAGE_SIZE;
          i' ← uadd 64 i 1;
          from_unused_loop n' h1 rg i' (mk_range (r_start segment) end_)
      end
  end.

Definition from_unused (h : slots) (rg : range) : outcome (slots * (Segment + GetFrameError)) :=
  if negb (r_start rg mod PAGE_SIZE =? 0) || negb (r_end rg mod PAGE_SIZE =? 0) then Ret (h, inr NotAligned)
  else if MAX_PADDR <? r_end rg then Ret (h, inr OutOfBound)
  else
    _ ← rassert (r_start rg <? r_end rg);
    len ← usub (r_end rg) (r_start rg);
    from_unused_loop (Z.to_nat (len / PAGE_SIZE)) h rg 0 (mk_range (r_start rg) (r_start rg)).

Definition split (self : Segment) (offset : Z) : outcome (Segment * Segment) :=
  _ ← rassert (offset mod PAGE_SIZE =? 0);
  sz ← size self;
  _ ← rassert ((0 <? offset) && (offset <? sz));
  at_ ← uadd 64 (r_start self) offset;
  Ret (mk_range (r_start self) at_, mk_range at_ (r_end self)).

Definition slice (h : slots) (self : Segment) (rg : range) : outcome (slots * Segment) :=
  _ ← rassert ((r_start rg mod PAGE_SIZE =? 0) && (r_end rg mod PAGE_SIZE =? 0));
  sz ← size self;
  _ ← rassert ((r_start rg <=? r_end rg) && (r_end rg <=? sz));
  start ← uadd 64 (r_start self) (r_start rg);
  end_ ← uadd 64 (r_start self) (r_end rg);
  h' ← inc_loop (rounds start end_) h start end_;
  Ret (h', mk_range start end_).

(** [From<Frame> for Segment]. *)
Definition from_frame (pa : Z) : outcome Segment := end_ ← uadd 64 pa PAGE_SIZE; Ret (mk_range pa end_).

(** [Iterator::next]: the frame, and what is left. *)
Definition next (self : Segment) : outcome (option Z * Segment) :=
  if r_start self <? r_end self then
    _ ← frame_to_meta (r_start self);
    start ← uadd 64 (r_start self) PAGE_SIZE;
    Ret (Some (r_start self), mk_range start (r_end self))
  else Ret (None, self).

(** ** Histories *)

(** The slots and the handles: segments, and frames by their addresses. *)
Record world := mk_world { heap : slots; segments : list Segment; frames : list Z }.
Definition world_new : world := mk_world ∅ [] [].

Inductive op :=
| FromUnused (rg : range)
| Clone (i : nat)
| Split (i : nat) (offset : Z)
| Slice (i : nat) (rg : range)
| Next (i : nat)
| SegmentDrop (i : nat)
| FromFrame (j : nat)
| FrameDrop (j : nat).

Inductive result := Done | Failed (e : GetFrameError) | Exhausted.

(** [None] if the handle does not exist. *)
Definition exec (w : world) (o : op) : option (outcome (world * result)) :=
  match o with
  | FromUnused rg => Some (
      ' (h, r) ← from_unused (heap w) rg;
      Ret (match r with inl seg => (mk_world h (seg :: segments w) (frames w), Done) | inr e => (mk_world h (segments w) (frames w), Failed e) end))
  | Clone i => seg ← segments w !! i; Some (' (h, seg') ← clone (heap w) seg; Ret (mk_world h (seg' :: segments w) (frames w), Done))
  | Split i offset => seg ← segments w !! i; Some (' (l, r) ← split seg offset; Ret (mk_world (heap w) (l :: r :: delete i (segments w)) (frames w), Done))
  | Slice i rg => seg ← segments w !! i; Some (' (h, seg') ← slice (heap w) seg rg; Ret (mk_world h (seg' :: segments w) (frames w), Done))
  | Next i => seg ← segments w !! i; Some (
      ' (fr, seg') ← next seg;
      Ret (match fr with
           | Some pa => (mk_world (heap w) (<[i := seg']> (segments w)) (pa :: frames w), Done)
           | None => (mk_world (heap w) (<[i := seg']> (segments w)) (frames w), Exhausted)
           end))
  | SegmentDrop i => seg ← segments w !! i; Some (h ← segment_drop (heap w) seg; Ret (mk_world h (delete i (segments w)) (frames w), Done))
  | FromFrame j => pa ← frames w !! j; Some (seg ← from_frame pa; Ret (mk_world (heap w) (seg :: segments w) (delete j (frames w)), Done))
  | FrameDrop j => pa ← frames w !! j; Some (h ← drop_raw (heap w) pa; Ret (mk_world h (segments w) (delete j (frames w)), Done))
  end.

(** ** The handles alone *)

(** What the operations do to the handles.  An operation panics if an assertion fails or if a count is exhausted. *)
Definition covers (pa : Z) (seg : Segment) : bool := (r_start seg <=? pa) && (pa <? r_end seg).
Definition handles (segs : list Segment) (frs : list Z) (pa : Z) : Z := number (covers pa) segs + number (Z.eqb pa) frs.

Definition pages (seg : Segment) : list Z := (fun k => r_start seg + Z.of_nat k * PAGE_SIZE) <$> seq 0 (rounds (r_start seg) (r_end seg)).

Definition aligned (rg : range) : bool := (r_start rg mod PAGE_SIZE =? 0) && (r_end rg mod PAGE_SIZE =? 0).

Definition spec_share (segs : list Segment) (frs : list Z) (seg : Segment) : outcome (list Segment * list Z * result) :=
  if forallb (fun pa => handles segs frs pa <? REF_COUNT_MAX) (pages seg) then Ret (seg :: segs, frs, Done) else Panic.

Definition spec_exec (segs : list Segment) (frs : list Z) (o : op) : option (outcome (list Segment * list Z * result)) :=
  match o with
  | FromUnused rg => Some (
      if negb (aligned rg) then Ret (segs, frs, Failed NotAligned)
      else if MAX_PADDR <? r_end rg then Ret (segs, frs, Failed OutOfBound)
      else if r_end rg <=? r_start rg then Panic
      else if forallb (fun pa => handles segs frs pa =? 0) (pages rg) then Ret (rg :: segs, frs, Done) else Ret (segs, frs, Failed InUse))
  | Clone i => seg ← segs !! i; Some (spec_share segs frs seg)
  | Split i offset => seg ← segs !! i; Some (
      if (offset mod PAGE_SIZE =? 0) && (0 <? offset) && (offset <? r_end seg - r_start seg)
      then Ret (mk_range (r_start seg) (r_start seg + offset) :: mk_range (r_start seg + offset) (r_end seg) :: delete i segs, frs, Done) else Panic)
  | Slice i rg => seg ← segs !! i; Some (
      if aligned rg && (r_start rg <=? r_end rg) && (r_end rg <=? r_end seg - r_start seg)
      then spec_share segs frs (mk_range (r_start seg + r_start rg) (r_start seg + r_end rg)) else Panic)
  | Next i => seg ← segs !! i; Some (
      if r_start seg <? r_end seg
      then Ret (<[i := mk_range (r_start seg + PAGE_SIZE) (r_end seg)]> segs, r_start seg :: frs, Done) else Ret (segs, frs, Exhausted))
  | SegmentDrop i => _ ← segs !! i; Some (Ret (delete i segs, frs, Done))
  | FromFrame j => pa ← frs !! j; Some (Ret (mk_range pa (pa + PAGE_SIZE) :: segs, delete j frs, Done))
  | FrameDrop j => _ ← frs !! j; Some (Ret (segs, delete j frs, Done))
  end.

(** Histories; they stop at a panic and do not exist if a handle does not. *)
Fixpoint run (w : world) (os : list op) : option (outcome (world * list result)) :=
  match os with
  | [] => Some (Ret (w, []))
  | o :: os' =>
      match exec w o with
      | Some (Ret (w', r)) => match run w' os' with Some (Ret (w'', rs)) => Some (Ret (w'', r :: rs)) | stop => stop end
      | Some Panic => Some Panic
      | None => None
      end
  end.

Fixpoint spec_run (segs : list Segment) (frs : list Z) (os : list op) : option (outcome (list Segment * list Z * list result)) :=
  match os with
  | [] => Some (Ret (segs, frs, []))
  | o :: os' =>
      match spec_exec segs frs o with
      | Some (Ret (segs', frs', r)) => match spec_run segs' frs' os' with Some (Ret (hs, rs)) => Some (Ret (hs, r :: rs)) | stop => stop end
      | Some Panic => Some Panic
      | None => None
      end
  end.

(** Ranges of addresses are not negative. *)
Definition op_ok (o : op) : Prop := match o with FromUnused rg | Slice _ rg => 0 <= r_start rg | _ => True end.

(** ** The slots by their counts *)

Definition slot_of (pa n : Z) : MetaSlot M := if n =? 0 then unused_slot else mk_slot (Some (metadata_fn pa).2) n (Some 0) 0.

(** The slot of every frame has the given count. *)
Definition counted (h : slots) (f : Z -> Z) : Prop :=
  forall pa, valid_frame_paddr pa -> slot_at h pa = slot_of pa (f pa) /\ 0 <= f pa <= REF_COUNT_MAX.

Definition ind (p e pa : Z) : Z := Z.b2z (covers pa (mk_range p e)).

Lemma counted_ext h f g : counted h f -> (forall pa, valid_frame_paddr pa -> g pa = f pa) -> counted h g.
Proof. intros Hc Hg pa Hpa. rewrite Hg by done. by apply Hc. Qed.

Lemma counted_insert h f p s n g : counted h f -> s = slot_of p n -> 0 <= n <= REF_COUNT_MAX ->
  (forall pa, valid_frame_paddr pa -> g pa = if decide (pa = p) then n else f pa) -> counted (<[p := s]> h) g.
Proof.
  intros Hc -> Hn Hg pa Hpa. rewrite Hg by done. unfold slot_at. destruct (decide (pa = p)) as [->|Hne].
  - by rewrite lookup_insert, decide_True by done.
  - rewrite lookup_insert, decide_False by congruence. by apply Hc.
Qed.

Lemma inc_slot pa n : 1 <= n <= REF_COUNT_MAX ->
  inc_ref_count (slot_of pa n) = if REF_COUNT_MAX <=? n then Panic else Ret (slot_of pa (n + 1)).
Proof.
  intros Hn. unfold slot_of. destruct (Z.eqb_spec n 0); [lia|]. destruct (Z.eqb_spec (n + 1) 0); [lia|]. unfold inc_ref_count. cbn [ref_count].
  unfold wrapping_add, REF_COUNT_MAX in *. destruct (Z.leb_spec (2 ^ 63 - 1) n); [done|]. unfold store. cbn. rewrite Z.mod_small by lia. done.
Qed.

Lemma drop_slot pa n : 1 <= n <= REF_COUNT_MAX -> frame_drop (slot_of pa n) = slot_of pa (n - 1).
Proof.
  intros Hn. unfold slot_of. destruct (Z.eqb_spec n 0); [lia|]. unfold frame_drop, frame_drop_dec, REF_COUNT_MAX in *. cbn [ref_count].
  unfold wrapping_sub. destruct (Z.eqb_spec n 1) as [->|]; [done|]. destruct (Z.eqb_spec (n - 1) 0); [lia|].
  unfold store. cbn. rewrite Z.mod_small by lia. done.
Qed.

Lemma claim_frame h pa n : slot_at h pa = slot_of pa n -> 0 <= n <= REF_COUNT_MAX -> valid_frame_paddr pa ->
  frame_from_unused h pa (metadata_fn pa).2 = Ret (if n =? 0 then (<[pa := slot_of pa 1]> h, None) else (h, Some InUse)).
Proof.
  intros Hs Hn Hpa. unfold frame_from_unused. rewrite Hs. destruct (get_from_unused_valid pa (metadata_fn pa).2 false (slot_of pa n) Hpa) as (ptr & _ & ->).
  clear Hs. unfold slot_of, REF_COUNT_MAX in *. destruct (Z.eqb_spec n 0) as [Hz|Hne]; [done|]. unfold get_from_unused_claim, compare_exchange. cbn [ref_count].
  unfold REF_COUNT_UNUSED, REF_COUNT_UNIQUE. repeat zcase; try lia. done.
Qed.

(** ** The loops *)

Lemma next_page p e : p mod PAGE_SIZE = 0 -> e mod PAGE_SIZE = 0 -> p < e -> p + PAGE_SIZE <= e /\ (p + PAGE_SIZE) mod PAGE_SIZE = 0.
Proof. unfold PAGE_SIZE. intros. split; Z.to_euclidean_division_equations; lia. Qed.

Lemma rounds_step p e : p mod PAGE_SIZE = 0 -> e mod PAGE_SIZE = 0 -> p < e -> rounds p e = S (rounds (p + PAGE_SIZE) e).
Proof. unfold rounds, PAGE_SIZE. intros. Z.to_euclidean_division_equations; lia. Qed.

Lemma ind_iff p e pa : ind p e pa = if decide (p <= pa < e) then 1 else 0.
Proof. unfold ind, covers. cbn [r_start r_end]. destruct (Z.leb_spec p pa), (Z.ltb_spec pa e); case_decide; cbn; lia. Qed.

Lemma ind_step p e pa : p mod PAGE_SIZE = 0 -> e mod PAGE_SIZE = 0 -> p < e -> valid_frame_paddr pa ->
  ind p e pa = (if decide (pa = p) then 1 else 0) + ind (p + PAGE_SIZE) e pa.
Proof.
  intros Hp He Hlt [_ Hpa]. rewrite !ind_iff. destruct (decide (pa = p)) as [->|Hne].
  - rewrite decide_True, decide_False by (unfold PAGE_SIZE; lia). done.
  - destruct (decide (p < pa)) as [Hlt'|]; [pose proof (next_page p pa Hp Hpa Hlt')|]; unfold PAGE_SIZE in *; repeat case_decide; lia.
Qed.

Lemma ind_empty p e pa : e <= p -> ind p e pa = 0.
Proof. rewrite ind_iff. intros. case_decide; lia. Qed.

Section loops.
Context (e : Z) (e_aligned : e mod PAGE_SIZE = 0) (e_bound : e <= MAX_PADDR).

Lemma valid_page p : 0 <= p < e -> p mod PAGE_SIZE = 0 -> valid_frame_paddr p.
Proof using e_bound. unfold valid_frame_paddr. lia. Qed.

Lemma page_add p : 0 <= p < e -> uadd 64 p PAGE_SIZE = Ret (p + PAGE_SIZE).
Proof using e_bound. intros Hp. apply uadd_ok. unfold MAX_PADDR, PAGE_SIZE in *. lia. Qed.

(** One round of a loop that changes the count of the page by [d]. *)
Lemma counted_round h f p d : counted h f -> p mod PAGE_SIZE = 0 -> 0 <= p < e -> 0 <= f p + d <= REF_COUNT_MAX ->
  exists f', counted (<[p := slot_of p (f p + d)]> h) f' /\
    (forall pa, valid_frame_paddr pa -> f' pa + d * ind (p + PAGE_SIZE) e pa = f pa + d * ind p e pa) /\
    (forall pa, p < pa -> f' pa = f pa).
Proof using e_aligned.
  intros Hc Hp H0 Hd. exists (fun pa => if decide (pa = p) then f pa + d else f pa). split_and!.
  - eapply counted_insert; [done|done|done|]. intros pa _. by destruct (decide (pa = p)) as [->|].
  - intros pa Hpa. rewrite (ind_step p e pa) by (done || lia). case_decide; lia.
  - intros pa Hpa. rewrite decide_False by lia. done.
Qed.

Lemma inc_loop_ok fuel h f p : counted h f -> p mod PAGE_SIZE = 0 -> 0 <= p -> (rounds p e <= fuel)%nat ->
  (forall pa, valid_frame_paddr pa -> p <= pa < e -> 1 <= f pa) ->
  ((forall pa, valid_frame_paddr pa -> p <= pa < e -> f pa < REF_COUNT_MAX) ->
    exists h', inc_loop fuel h p e = Ret h' /\ counted h' (fun pa => f pa + ind p e pa)) /\
  ((exists pa, valid_frame_paddr pa /\ p <= pa < e /\ REF_COUNT_MAX <= f pa) -> inc_loop fuel h p e = Panic).
Proof using e_aligned e_bound.
  revert h f p. induction fuel as [|fuel IH]; intros h f p Hc Hp H0 Hr Hlive; cbn [inc_loop].
  all: destruct (Z.leb_spec e p) as [Hle|Hlt].
  1,3: split; [intros _; exists h; split; [done|]; eapply counted_ext; [done|]; intros; by rewrite ind_empty, Z.add_0_r by lia
              |intros (pa & _ & Hi & _); lia].
  { rewrite rounds_step in Hr by done. lia. }
  pose proof (valid_page p ltac:(lia) Hp) as Hv. destruct (Hc p Hv) as [Hs Hb]. pose proof (Hlive p Hv ltac:(lia)) as H1.
  unfold inc_frame_ref_count. rewrite frame_to_meta_ok by apply Hv. cbn [mbind outcome_bind].
  rewrite Hs, inc_slot by lia. rewrite rounds_step in Hr by done. destruct (next_page p e Hp e_aligned Hlt) as [Hn Ha].
  destruct (Z.leb_spec REF_COUNT_MAX (f p)) as [Hmax|Hmax]; [split; [|done]; intros Hall; specialize (Hall p Hv ltac:(lia)); lia|].
  cbn [mbind outcome_bind]. rewrite page_add by lia. cbn [mbind outcome_bind].
  destruct (counted_round h f p 1 Hc Hp ltac:(lia) ltac:(lia)) as (f' & Hc' & Hf & Hgt).
  assert (p < p + PAGE_SIZE) by (unfold PAGE_SIZE; lia).
  destruct (IH _ f' (p + PAGE_SIZE) Hc' Ha ltac:(lia) ltac:(lia)) as [IH1 IH2].
  { intros pa Hpa Hi. rewrite Hgt by lia. apply Hlive; [done|lia]. }
  split.
  - intros Hall. destruct IH1 as (h' & Hl & Hc2); [intros pa Hpa Hi; rewrite Hgt by lia; apply Hall; [done|lia]|].
    exists h'. split; [done|]. eapply counted_ext; [done|]. intros pa Hpa. specialize (Hf pa Hpa). cbn beta. lia.
  - intros (pa & Hpa & Hi & Hm). apply IH2. exists pa. assert (pa <> p) by (intros ->; lia).
    pose proof (next_page p pa Hp (proj2 Hpa) ltac:(lia)). rewrite Hgt by lia. split_and!; done || lia.
Qed.

Lemma drop_loop_ok fuel h f p : counted h f -> p mod PAGE_SIZE = 0 -> 0 <= p -> (rounds p e <= fuel)%nat ->
  (forall pa, valid_frame_paddr pa -> p <= pa < e -> 1 <= f pa) ->
  exists h', drop_loop fuel h p e = Ret h' /\ counted h' (fun pa => f pa - ind p e pa).
Proof using e_aligned e_bound.
  revert h f p. induction fuel as [|fuel IH]; intros h f p Hc Hp H0 Hr Hlive; cbn [drop_loop].
  all: destruct (Z.leb_spec e p) as [Hle|Hlt].
  1,3: exists h; split; [done|]; eapply counted_ext; [done|]; intros; by rewrite ind_empty, Z.sub_0_r by lia.
  { rewrite rounds_step in Hr by done. lia. }
  pose proof (valid_page p ltac:(lia) Hp) as Hv. destruct (Hc p Hv) as [Hs Hb]. pose proof (Hlive p Hv ltac:(lia)) as H1.
  unfold drop_raw. rewrite frame_to_meta_ok by apply Hv. cbn [mbind outcome_bind].
  rewrite Hs, drop_slot by lia. rewrite page_add by lia. cbn [mbind outcome_bind]. rewrite rounds_step in Hr by done.
  destruct (next_page p e Hp e_aligned Hlt) as [Hn Ha]. assert (p < p + PAGE_SIZE) by (unfold PAGE_SIZE; lia).
  destruct (counted_round h f p (-1) Hc Hp ltac:(lia) ltac:(lia)) as (f' & Hc' & Hf & Hgt).
  destruct (IH _ f' (p + PAGE_SIZE) Hc' Ha ltac:(lia) ltac:(lia)) as (h' & Hl & Hc2).
  { intros pa Hpa Hi. rewrite Hgt by lia. apply Hlive; [done|lia]. }
  exists h'. split; [done|]. eapply counted_ext; [done|]. intros pa Hpa. specialize (Hf pa Hpa). cbn beta. lia.
Qed.

Lemma counted_taken h f p q : counted h (fun pa => f pa + ind p q pa) -> p <= q -> q mod PAGE_SIZE = 0 -> f q = 0 ->
  counted (<[q := slot_of q 1]> h) (fun pa => f pa + ind p (q + PAGE_SIZE) pa).
Proof.
  intros Hc Hpq Hq Hf. assert (q < q + PAGE_SIZE) by (unfold PAGE_SIZE; lia).
  eapply counted_insert; [done|done|unfold REF_COUNT_MAX; lia|]. intros pa Hpa. cbn beta. rewrite !ind_iff.
  destruct (decide (pa = q)) as [->|Hne]; [rewrite decide_True by lia; lia|].
  destruct (decide (q < pa)) as [Hlt|]; [pose proof (next_page q pa Hq (proj2 Hpa) Hlt)|]; repeat case_decide; lia.
Qed.

End loops.

(** [from_unused] from the page [q] on, with the frames of [p .. q] taken. *)
Lemma from_unused_loop_ok e n h f p q i : e mod PAGE_SIZE = 0 -> e <= MAX_PADDR -> (forall pa, (metadata_fn pa).1 = pa) ->
  counted h (fun pa => f pa + ind p q pa) -> p mod PAGE_SIZE = 0 -> 0 <= p -> 0 <= i -> p + i * PAGE_SIZE = q -> q <= e -> n = rounds q e ->
  (forall pa, valid_frame_paddr pa -> p <= pa < q -> f pa = 0) ->
  (forall pa, valid_frame_paddr pa -> 0 <= f pa) ->
  ((forall pa, valid_frame_paddr pa -> q <= pa < e -> f pa = 0) ->
    exists h', from_unused_loop n h (mk_range p e) i (mk_range p q) = Ret (h', inl (mk_range p e)) /\ counted h' (fun pa => f pa + ind p e pa)) /\
  ((exists pa, valid_frame_paddr pa /\ q <= pa < e /\ f pa <> 0) ->
    exists h', from_unused_loop n h (mk_range p e) i (mk_range p q) = Ret (h', inr InUse) /\ counted h' f).
Proof.
  intros e_aligned e_bound Hfn. revert h q i. induction n as [|n IH]; intros h q i Hc Hp H0 Hi Hq Hqe Hn Hfree Hpos; cbn [from_unused_loop].
  all: assert (q mod PAGE_SIZE = 0) as Hqa by (rewrite <- Hq, Z.mod_add; done).
  all: destruct (decide (q = e)) as [He|Hne].
  1: rewrite He in *; split; [intros _; exists h; split; done|intros (pa & _ & ? & _); lia].
  1: rewrite rounds_step in Hn by (done || lia); done.
  1: rewrite He in Hn; unfold rounds in Hn; rewrite Z.sub_diag in Hn; done.
  assert (p <= q) as Hpq by (unfold PAGE_SIZE in Hq; lia). assert (MAX_PADDR < 2 ^ 64) as Hmax by done.
  pose proof (valid_page e e_bound q ltac:(lia) Hqa) as Hv. destruct (Hc q Hv) as [Hs Hb]. destruct (next_page q e Hqa e_aligned ltac:(lia)) as [Hn1 Ha].
  rewrite umul_ok by lia. cbn [mbind outcome_bind r_start r_end]. rewrite (uadd_ok 64 p) by lia. cbn [mbind outcome_bind]. rewrite Hq.
  rewrite rounds_step in Hn by (done || lia). injection Hn as Hn.
  rewrite (surjective_pairing (metadata_fn q)), Hfn, (claim_frame h q (f q + ind p q q) Hs Hb Hv).
  rewrite ind_iff, decide_False, Z.add_0_r in Hb |- * by lia.
  destruct (Z.eqb_spec (f q) 0) as [Hf0|Hf0]; cbn [mbind outcome_bind r_start].
  - rewrite (page_add e) by lia. cbn [mbind outcome_bind]. rewrite uadd_ok by (unfold PAGE_SIZE in Hq; lia). cbn [mbind outcome_bind r_start].
    assert (forall pa, valid_frame_paddr pa -> q <= pa -> pa = q \/ q + PAGE_SIZE <= pa) as Hnext.
    { intros pa Hpa Hle. destruct (decide (pa = q)) as [->|]; [by left|right]. apply (next_page q pa Hqa (proj2 Hpa)). lia. }
    destruct (IH (<[q := slot_of q 1]> h) (q + PAGE_SIZE) (i + 1)) as [IH1 IH2]; try done; try lia; [by apply counted_taken|..].
    { intros pa Hpa Hle. destruct (decide (q <= pa)); [|apply Hfree; [done|lia]]. destruct (Hnext pa Hpa) as [->|]; done || lia. }
    split; [intros Hall; apply IH1; intros pa Hpa ?; apply Hall; [done|unfold PAGE_SIZE in *; lia]|].
    intros (pa & Hpa & Hle & Hnz). apply IH2. exists pa. destruct (Hnext pa Hpa ltac:(lia)) as [->|]; [done|]. split_and!; done || lia.
  - split; [intros Hall; by specialize (Hall q Hv ltac:(lia))|intros _].
    destruct (drop_loop_ok q Hqa ltac:(lia) (rounds p q) h _ p Hc Hp H0 ltac:(lia)) as (h' & Hd & Hc').
    { intros pa Hpa Hr. rewrite ind_iff, decide_True by done. pose proof (Hpos pa Hpa). lia. }
    cbn [r_end] in Hd |- *. rewrite Hd. exists h'. split; [done|]. eapply counted_ext; [done|]. intros pa _. cbn beta. lia.
Qed.
(** ** The handles *)

Definition seg_ok (seg : Segment) : Prop :=
  0 <= r_start seg <= r_end seg /\ r_end seg <= MAX_PADDR /\ r_start seg mod PAGE_SIZE = 0 /\ r_end seg mod PAGE_SIZE = 0.

Record rel (w : world) (segs : list Segment) (frs : list Z) : Prop := mk_rel {
  rel_segments : segments w = segs;
  rel_frames : frames w = frs;
  rel_ranges : Forall seg_ok segs;
  rel_valid : Forall valid_frame_paddr frs;
  rel_counts : counted (heap w) (handles segs frs);
}.

Lemma holds_covers pa seg : holds (covers pa) seg = ind (r_start seg) (r_end seg) pa.
Proof. unfold holds, ind. destruct seg as [a b]. cbn [r_start r_end]. by destruct (covers pa (mk_range a b)). Qed.

Lemma handles_cons seg segs frs pa : handles (seg :: segs) frs pa = handles segs frs pa + ind (r_start seg) (r_end seg) pa.
Proof. unfold handles. cbn [number]. rewrite holds_covers. lia. Qed.

Lemma handles_delete segs frs i (seg : Segment) pa : segs !! i = Some seg ->
  handles (delete i segs) frs pa = handles segs frs pa - ind (r_start seg) (r_end seg) pa.
Proof. intros Hi. unfold handles. rewrite (number_delete _ _ _ _ Hi), holds_covers. lia. Qed.

Lemma handles_insert segs frs i (seg seg' : Segment) pa : segs !! i = Some seg ->
  handles (<[i := seg']> segs) frs pa = handles segs frs pa - ind (r_start seg) (r_end seg) pa + ind (r_start seg') (r_end seg') pa.
Proof. intros Hi. unfold handles. rewrite (number_insert _ _ _ _ _ Hi), !holds_covers. lia. Qed.

Lemma handles_cons_frame segs frs fr pa : handles segs (fr :: frs) pa = handles segs frs pa + if decide (pa = fr) then 1 else 0.
Proof. unfold handles. cbn [number]. unfold holds. destruct (Z.eqb_spec pa fr); case_decide; lia. Qed.

Lemma handles_delete_frame segs frs j fr pa : frs !! j = Some fr ->
  handles segs (delete j frs) pa = handles segs frs pa - if decide (pa = fr) then 1 else 0.
Proof. intros Hj. unfold handles. rewrite (number_delete _ _ _ _ Hj). unfold holds. destruct (Z.eqb_spec pa fr); case_decide; lia. Qed.

Lemma handles_covered segs frs i (seg : Segment) pa : segs !! i = Some seg -> r_start seg <= pa < r_end seg -> 1 <= handles segs frs pa.
Proof.
  intros Hi Hr. unfold handles. pose proof (number_nonneg (Z.eqb pa) frs).
  pose proof (number_one (covers pa) segs i seg Hi). unfold covers in *. rewrite andb_true_iff in *. lia.
Qed.

Lemma handles_frame segs frs j fr : frs !! j = Some fr -> 1 <= handles segs frs fr.
Proof.
  intros Hj. unfold handles. pose proof (number_nonneg (covers fr) segs). pose proof (number_one (Z.eqb fr) frs j fr Hj). lia.
Qed.

Lemma pages_spec seg pa : seg_ok seg -> pa ∈ pages seg <-> valid_frame_paddr pa /\ r_start seg <= pa < r_end seg.
Proof.
  intros (H0 & He & Hs & Ha). unfold pages, valid_frame_paddr. rewrite list_elem_of_fmap. split.
  - intros (k & -> & Hk). apply elem_of_seq in Hk. unfold rounds in Hk. rewrite Z.mod_add by done.
    unfold PAGE_SIZE in *. split_and!; Z.to_euclidean_division_equations; lia.
  - intros [[? Hm] Hr]. exists (Z.to_nat ((pa - r_start seg) / PAGE_SIZE)). rewrite elem_of_seq. unfold rounds, PAGE_SIZE in *.
    split; Z.to_euclidean_division_equations; lia.
Qed.

Lemma pages_forallb seg P : seg_ok seg ->
  if forallb P (pages seg) then forall pa, valid_frame_paddr pa -> r_start seg <= pa < r_end seg -> P pa = true
  else exists pa, valid_frame_paddr pa /\ r_start seg <= pa < r_end seg /\ P pa = false.
Proof.
  intros Hok. destruct (forallb P (pages seg)) eqn:Hf.
  - intros pa Hv Hr. rewrite forallb_forall in Hf. apply Hf, list_elem_of_In, pages_spec; done.
  - apply not_true_iff_false in Hf. destruct (existsb (fun pa => negb (P pa)) (pages seg)) eqn:Hx.
    + apply existsb_exists in Hx as (pa & Hin & Hn). apply list_elem_of_In, pages_spec in Hin as [Hv Hr]; [|done].
      exists pa. split_and!; try done; try lia. by apply negb_true_iff.
    + contradict Hf. apply forallb_forall. intros pa Hin. destruct (P pa) eqn:HP; [done|].
      apply not_true_iff_false in Hx. contradict Hx. apply existsb_exists. exists pa. by rewrite HP.
Qed.

(** ** One operation *)

Definition agree (a : option (outcome (world * result))) (b : option (outcome (list Segment * list Z * result))) : Prop :=
  match a, b with
  | Some (Ret (w, r)), Some (Ret (segs, frs, r')) => r = r' /\ rel w segs frs
  | Some Panic, Some Panic | None, None => True
  | _, _ => False
  end.

Section operations.
Context (w : world) (segs : list Segment) (frs : list Z) (related : rel w segs frs).

Lemma rel_seg i (seg : Segment) : segs !! i = Some seg -> seg_ok seg.
Proof using related. intros Hi. exact (proj1 (Forall_lookup _ _) (rel_ranges _ _ _ related) i seg Hi). Qed.

Lemma rel_frame j fr : frs !! j = Some fr -> valid_frame_paddr fr.
Proof using related. intros Hj. exact (proj1 (Forall_lookup _ _) (rel_valid _ _ _ related) j fr Hj). Qed.

(** The heap is left as it is and the handles contain the same frames. *)
Lemma rel_same segs' frs' : Forall seg_ok segs' -> Forall valid_frame_paddr frs' ->
  (forall pa, valid_frame_paddr pa -> handles segs' frs' pa = handles segs frs pa) -> rel (mk_world (heap w) segs' frs') segs' frs'.
Proof using related. intros Hs Hf He. split; try done. eapply counted_ext; [apply (rel_counts _ _ _ related)|done]. Qed.

Lemma share_agrees i (seg seg' : Segment) : segs !! i = Some seg -> seg_ok seg' -> r_start seg <= r_start seg' -> r_end seg' <= r_end seg ->
  agree (Some (h ← inc_loop (rounds (r_start seg') (r_end seg')) (heap w) (r_start seg') (r_end seg'); Ret (mk_world h (seg' :: segments w) (frames w), Done)))
    (Some (spec_share segs frs seg')).
Proof using related.
  intros Hi Hok Hl Hr. destruct related as [-> -> Hsegs Hfrs Hc]. pose proof Hok as (H0 & He & Hs & Ha).
  destruct (inc_loop_ok _ Ha He (rounds (r_start seg') (r_end seg')) (heap w) _ _ Hc Hs ltac:(lia) ltac:(lia)) as [Hgood Hbad].
  { intros pa _ Hpa. eapply handles_covered; [done|lia]. }
  unfold spec_share. pose proof (pages_forallb seg' (fun pa => handles segs frs pa <? REF_COUNT_MAX) Hok) as Hp. destruct (forallb _ _).
  - destruct Hgood as (h' & -> & Hc'). { intros pa Hv Hpa. specialize (Hp pa Hv Hpa). cbn beta in Hp. lia. }
    split; [done|]. split; try done; [by constructor|]. eapply counted_ext; [done|]. intros. apply handles_cons.
  - destruct Hp as (pa & Hv & Hpa & Hm). rewrite Hbad; [done|]. exists pa. split_and!; try done; lia.
Qed.

Lemma clone_agrees i : agree (exec w (Clone i)) (spec_exec segs frs (Clone i)).
Proof using related.
  cbn [exec spec_exec]. rewrite (rel_segments _ _ _ related). destruct (segs !! i) as [seg|] eqn:Hi; [|done].
  pose proof (share_agrees i seg (mk_range (r_start seg) (r_end seg)) Hi) as Hsh. cbn [r_start r_end] in Hsh. pose proof (rel_seg i seg Hi) as Hok.
  destruct seg as [a b]. cbn [r_start r_end] in Hsh. specialize (Hsh Hok ltac:(lia) ltac:(lia)).
  unfold clone. cbn [mbind option_bind r_start r_end]. rewrite (rel_segments _ _ _ related) in Hsh. destruct (inc_loop _ _ _ _); exact Hsh.
Qed.

Lemma slice_agrees i rg : 0 <= r_start rg -> agree (exec w (Slice i rg)) (spec_exec segs frs (Slice i rg)).
Proof using related.
  intros Hrg. cbn [exec spec_exec]. rewrite (rel_segments _ _ _ related). destruct (segs !! i) as [seg|] eqn:Hi; [|done].
  pose proof (rel_seg i seg Hi) as (H0 & He & Hs & Ha). unfold slice, size, aligned. cbn [mbind option_bind].
  destruct (Z.eqb_spec (r_start rg mod PAGE_SIZE) 0) as [Hsa|]; [|done]. destruct (Z.eqb_spec (r_end rg mod PAGE_SIZE) 0) as [Hea|]; [|done].
  rewrite usub_ok by lia. cbn [rassert mbind outcome_bind andb].
  destruct (Z.leb_spec (r_start rg) (r_end rg)); [|done]. destruct (Z.leb_spec (r_end rg) (r_end seg - r_start seg)); [|done].
  cbn [rassert mbind outcome_bind andb]. assert (MAX_PADDR < 2 ^ 64) by done.
  rewrite !uadd_ok by lia. cbn [mbind outcome_bind].
  pose proof (share_agrees i seg (mk_range (r_start seg + r_start rg) (r_start seg + r_end rg)) Hi) as Hsh. cbn [r_start r_end] in Hsh.
  assert (seg_ok (mk_range (r_start seg + r_start rg) (r_start seg + r_end rg))) as Hok.
  { unfold seg_ok. cbn [r_start r_end]. split_and!; try lia; by apply mod0_add. }
  specialize (Hsh Hok ltac:(lia) ltac:(lia)). rewrite (rel_segments _ _ _ related) in Hsh. destruct (inc_loop _ _ _ _); exact Hsh.
Qed.

Lemma from_unused_agrees rg : (forall pa, (metadata_fn pa).1 = pa) -> 0 <= r_start rg ->
  agree (exec w (FromUnused rg)) (spec_exec segs frs (FromUnused rg)).
Proof using related.
  intros Hfn H0. cbn [exec spec_exec]. unfold from_unused, aligned. destruct related as [-> -> Hsegs Hfrs Hc].
  destruct (Z.eqb_spec (r_start rg mod PAGE_SIZE) 0) as [Hs|]; [|done]. destruct (Z.eqb_spec (r_end rg mod PAGE_SIZE) 0) as [Ha|]; [|done].
  cbn [negb andb orb]. destruct (Z.ltb_spec MAX_PADDR (r_end rg)); [done|]. destruct (Z.ltb_spec (r_start rg) (r_end rg)) as [Hlt|Hle].
  2: { destruct (Z.leb_spec (r_end rg) (r_start rg)); [done|lia]. }
  destruct (Z.leb_spec (r_end rg) (r_start rg)); [lia|]. cbn [rassert mbind outcome_bind]. rewrite usub_ok by lia. cbn [mbind outcome_bind].
  destruct rg as [a b]. cbn [r_start r_end] in *.
  destruct (from_unused_loop_ok b (rounds a b) (heap w) (handles segs frs) a a 0) as [Hgood Hbad]; try done; try lia.
  { eapply counted_ext; [done|]. intros. rewrite ind_empty by lia. lia. }
  { intros pa Hv. destruct (Hc pa Hv). lia. }
  assert (seg_ok (mk_range a b)) as Hok by (unfold seg_ok; cbn [r_start r_end]; split_and!; done || lia).
  pose proof (pages_forallb (mk_range a b) (fun pa => handles segs frs pa =? 0) Hok) as Hp. change (Z.to_nat ((b - a) / PAGE_SIZE)) with (rounds a b).
  destruct (forallb _ _).
  - destruct Hgood as (h' & -> & Hc'); [intros pa Hv Hpa; specialize (Hp pa Hv Hpa); cbn beta in Hp; lia|].
    split; [done|]. split; try done; [by constructor|]. eapply counted_ext; [done|]. intros. apply handles_cons.
  - destruct Hp as (pa & Hv & Hpa & Hm). cbn [r_start r_end] in Hpa. destruct Hbad as (h' & -> & Hc'); [exists pa; split_and!; try done; lia|].
    split; [done|]. split; done.
Qed.

Lemma split_agrees i offset : agree (exec w (Split i offset)) (spec_exec segs frs (Split i offset)).
Proof using related.
  cbn [exec spec_exec]. rewrite (rel_segments _ _ _ related), (rel_frames _ _ _ related). destruct (segs !! i) as [seg|] eqn:Hi; [|done].
  pose proof (rel_seg i seg Hi) as (H0 & He & Hs & Ha). unfold split, size. cbn [mbind option_bind].
  destruct (Z.eqb_spec (offset mod PAGE_SIZE) 0) as [Ho|]; [|done]. rewrite usub_ok by lia. cbn [rassert mbind outcome_bind andb].
  destruct (Z.ltb_spec 0 offset); [|done]. destruct (Z.ltb_spec offset (r_end seg - r_start seg)); [|done].
  cbn [rassert mbind outcome_bind andb]. assert (MAX_PADDR < 2 ^ 64) by done. rewrite uadd_ok by lia. cbn [mbind outcome_bind].
  split; [done|]. pose proof (mod0_add PAGE_SIZE _ _ eq_refl Hs Ho). apply rel_same; [|apply (rel_valid _ _ _ related)|].
  - repeat constructor; cbn [r_start r_end]; try (done || lia). apply Forall_delete, (rel_ranges _ _ _ related).
  - intros pa _. rewrite !handles_cons, (handles_delete _ _ _ _ _ Hi). cbn [r_start r_end]. rewrite !ind_iff. repeat case_decide; lia.
Qed.

Lemma next_agrees i : agree (exec w (Next i)) (spec_exec segs frs (Next i)).
Proof using related.
  cbn [exec spec_exec]. rewrite (rel_segments _ _ _ related), (rel_frames _ _ _ related). destruct (segs !! i) as [seg|] eqn:Hi; [|done].
  pose proof (rel_seg i seg Hi) as (H0 & He & Hs & Ha). unfold next. cbn [mbind option_bind].
  destruct (Z.ltb_spec (r_start seg) (r_end seg)) as [Hlt|].
  2: { split; [done|]. rewrite list_insert_id by done. destruct related as [<- <- ? ? ?]. split; done. }
  rewrite frame_to_meta_ok by lia. cbn [mbind outcome_bind]. rewrite (page_add (r_end seg)) by lia. cbn [mbind outcome_bind].
  destruct (next_page _ _ Hs Ha Hlt). split; [done|]. apply rel_same.
  - apply Forall_insert; [apply (rel_ranges _ _ _ related)|]. unfold seg_ok, PAGE_SIZE in *. cbn [r_start r_end]. split_and!; done || lia.
  - constructor; [|apply (rel_valid _ _ _ related)]. split; [lia|done].
  - intros pa Hv. rewrite handles_cons_frame, (handles_insert _ _ _ _ _ _ Hi). cbn [r_start r_end].
    rewrite (ind_step (r_start seg) (r_end seg) pa) by done. lia.
Qed.

Lemma segment_drop_agrees i : agree (exec w (SegmentDrop i)) (spec_exec segs frs (SegmentDrop i)).
Proof using related.
  cbn [exec spec_exec]. rewrite (rel_segments _ _ _ related), (rel_frames _ _ _ related). destruct (segs !! i) as [seg|] eqn:Hi; [|done].
  pose proof (rel_seg i seg Hi) as (H0 & He & Hs & Ha). unfold segment_drop. cbn [mbind option_bind].
  destruct (drop_loop_ok _ Ha He (rounds (r_start seg) (r_end seg)) (heap w) _ _ (rel_counts _ _ _ related) Hs ltac:(lia) ltac:(lia)) as (h' & -> & Hc').
  { intros pa _ Hpa. by eapply handles_covered. }
  split; [done|]. destruct related. split; try done; [by apply Forall_delete|]. eapply counted_ext; [done|]. intros. by apply handles_delete.
Qed.

Lemma from_frame_agrees j : agree (exec w (FromFrame j)) (spec_exec segs frs (FromFrame j)).
Proof using related.
  cbn [exec spec_exec]. rewrite (rel_segments _ _ _ related), (rel_frames _ _ _ related). destruct (frs !! j) as [fr|] eqn:Hj; [|done].
  pose proof (rel_frame j fr Hj) as [Hv Ha]. unfold from_frame. cbn [mbind option_bind]. rewrite (page_add MAX_PADDR) by (done || lia). cbn [mbind outcome_bind].
  destruct (next_page fr MAX_PADDR Ha eq_refl ltac:(lia)). assert (fr < fr + PAGE_SIZE) by (unfold PAGE_SIZE; lia). split; [done|]. apply rel_same.
  - constructor; [|apply (rel_ranges _ _ _ related)]. unfold seg_ok. cbn [r_start r_end]. split_and!; done || lia.
  - apply Forall_delete, (rel_valid _ _ _ related).
  - intros pa Hpa. rewrite handles_cons, (handles_delete_frame _ _ _ _ _ Hj). cbn [r_start r_end].
    rewrite (ind_step fr (fr + PAGE_SIZE) pa), (ind_empty (fr + PAGE_SIZE)) by (done || lia). lia.
Qed.

Lemma frame_drop_agrees j : agree (exec w (FrameDrop j)) (spec_exec segs frs (FrameDrop j)).
Proof using related.
  cbn [exec spec_exec]. rewrite (rel_segments _ _ _ related), (rel_frames _ _ _ related). destruct (frs !! j) as [fr|] eqn:Hj; [|done].
  pose proof (rel_frame j fr Hj) as Hv. destruct related as [Hs Hf Hsegs Hfrs Hc]. destruct (Hc fr Hv) as [Hsl Hb]. pose proof (handles_frame segs frs j fr Hj).
  unfold drop_raw. cbn [mbind option_bind]. rewrite frame_to_meta_ok by apply Hv. cbn [mbind outcome_bind]. rewrite Hsl, drop_slot by lia.
  split; [done|]. split; try done; [by apply Forall_delete|]. eapply counted_insert; [done|done|lia|].
  intros pa _. rewrite (handles_delete_frame _ _ _ _ _ Hj). case_decide; [subst pa|]; lia.
Qed.

End operations.

Lemma exec_agrees w segs frs o : (forall pa, (metadata_fn pa).1 = pa) -> op_ok o -> rel w segs frs -> agree (exec w o) (spec_exec segs frs o).
Proof.
  intros Hfn Ho Hr. destruct o.
  - by apply from_unused_agrees.
  - by apply clone_agrees.
  - by apply split_agrees.
  - by apply slice_agrees.
  - by apply next_agrees.
  - by apply segment_drop_agrees.
  - by apply from_frame_agrees.
  - by apply frame_drop_agrees.
Qed.

Lemma rel_new : rel world_new [] [].
Proof. split; done. Qed.

Lemma run_agrees os w segs frs : (forall pa, (metadata_fn pa).1 = pa) -> Forall op_ok os -> rel w segs frs ->
  match run w os, spec_run segs frs os with
  | Some (Ret (w', rs)), Some (Ret (segs', frs', rs')) => rs = rs' /\ rel w' segs' frs'
  | Some Panic, Some Panic | None, None => True
  | _, _ => False
  end.
Proof.
  intros Hfn Hos. revert w segs frs. induction Hos as [|o os Ho _ IH]; intros w segs frs Hr; [done|].
  cbn [run spec_run]. pose proof (exec_agrees w segs frs o Hfn Ho Hr) as Ha. unfold agree in Ha.
  destruct (exec w o) as [[[w1 r1]|]|], (spec_exec segs frs o) as [[[[segs1 frs1] r2]|]|]; try done.
  destruct Ha as [-> Hr1]. specialize (IH w1 segs1 frs1 Hr1).
  destruct (run w1 os) as [[[w2 rs1]|]|], (spec_run segs1 frs1 os) as [[[[segs2 frs2] rs2]|]|]; try done.
  destruct IH as [-> Hr2]. done.
Qed.

(** C14: segments refine the list of handles.  Every history of [from_unused], [clone], [split], [slice], [next], [drop] and the
    conversion of a frame has the results of the specification, where the only state is the list of the ranges and frames that
    are held: it succeeds, fails with the same error and panics exactly when the specification does.  Afterwards the slot of
    each frame has the count of the handles that contain it, with its metadata, and is unused if there is none; so no frame
    of a live segment is released and none is leaked, also when [from_unused] fails midway. *)
Theorem segments_refine os : (forall pa, (metadata_fn pa).1 = pa) -> Forall op_ok os ->
  match run world_new os, spec_run [] [] os with
  | Some (Ret (w, rs)), Some (Ret (segs, frs, rs')) =>
      rs = rs' /\ segments w = segs /\ frames w = frs /\
      forall pa, valid_frame_paddr pa -> slot_at (heap w) pa = slot_of pa (handles segs frs pa)
  | Some Panic, Some Panic | None, None => True
  | _, _ => False
  end.
Proof.
  intros Hfn Hos. pose proof (run_agrees os world_new [] [] Hfn Hos rel_new) as Hr.
  destruct (run world_new os) as [[[w rs]|]|], (spec_run [] [] os) as [[[[segs frs] rs']|]|]; try done.
  destruct Hr as [-> [-> -> _ _ Hc]]. split_and!; try done. intros pa Hv. apply (Hc pa Hv).
Qed.
End segment.

(** ** An example *)

Module SegmentExample.
Definition meta (pa : Z) : Z * nat := (pa, 7%nat).

(** Three frames, split, cloned and iterated over; the frame of the iterator and its segment are dropped. *)
Definition history : list op :=
  [FromUnused (mk_range 0x4000 0x7000); Split 0 0x1000; Clone 1; FromUnused (mk_range 0x2000 0x5000); Slice 0 (mk_range 0x1000 0x2000); Next 1;
   FromFrame 0; SegmentDrop 3; SegmentDrop 1].

Lemma segments_refine_witness : exists w, run meta world_new history = Some (Ret (w, [Done; Done; Done; Failed InUse; Done; Done; Done; Done; Done])) /\
  slot_at (heap w) 0x4000 = unused_slot /\ ref_count (slot_at (heap w) 0x5000) = 2 /\ ref_count (slot_at (heap w) 0x6000) = 2.
Proof.
  pose proof (segments_refine meta history (fun pa => eq_refl) ltac:(repeat constructor; done)) as H.
  set (b := spec_run [] [] history) in H. vm_compute in b. subst b. cbn iota beta in H.
  destruct (run meta world_new history) as [[[w rs]|]|]; try done. destruct H as (-> & _ & _ & Hc). exists w. split; [done|].
  rewrite !Hc by (split; done). vm_compute. done.
Defined.
End SegmentExample.
