(* ===== verification/FrameAlloc.v ===== *)
(** * Allocation of frames and segments ([FrameAllocOptions] of [ostd/src/mm/frame/allocator.rs])

    [FrameAllocOptions] asks the global frame allocator for memory, claims the metadata slots of its
    frames, and fills it with zeros unless told otherwise.  The global allocator is injected by
    the kernel: it is an interface with a set of free addresses, which shrinks by what
    [alloc] returns.  Claiming the slots is that of [FrameSegment]; the methods follow the bodies in
    the comments of the source.

    The frames that the allocator has are those without a handle.  Frames whose last handle is dropped
    are not given back by the code, so the allocator's memory only shrinks. *)

From S2P Require Import Prelude Agents VmIo MemoryRegion Paging FrameMeta FrameSegment.
Open Scope Z_scope.

(** [Layout::from_size_align] of the standard library. *)
Definition from_size_align (size align : Z) : option Layout :=
  if 2 ^ 63 - align <? size then None else Some (mk_layout size align).

(** The trait [GlobalFrameAllocator]. *)
Class GlobalFrameAllocator (G : Type) := {
  ga_alloc : G -> Layout -> option Z * G;
  ga_free : G -> Z -> bool;
}.

(** What is documented of [alloc], for sizes that are multiples of the page size: a contiguous range of frames that were free. *)
Class GlobalFrameAllocatorLaws G `{GlobalFrameAllocator G} : Prop := {
  ga_alloc_some g l p g' : 0 < layout_size l -> layout_size l mod PAGE_SIZE = 0 -> layout_align l = PAGE_SIZE -> ga_alloc g l = (Some p, g') ->
    0 <= p /\ p mod PAGE_SIZE = 0 /\ p + layout_size l <= MAX_PADDR /\
    (forall pa, p <= pa < p + layout_size l -> ga_free g pa = true) /\
    (forall pa, ga_free g' pa = ga_free g pa && negb ((p <=? pa) && (pa <? p + layout_size l)));
  ga_alloc_none g l g' : ga_alloc g l = (None, g') -> forall pa, ga_free g' pa = ga_free g pa;
}.

Section frame_alloc.
Context {G M : Type} `{GA : GlobalFrameAllocator G}.
Local Notation slots := (gmap Z (MetaSlot M)).
Implicit Types (g : G) (h : slots) (m : memory) (zeroed : bool).

(** [core::ptr::write_bytes(addr, 0, len)] if the frames should be filled with zeros. *)
Definition clear zeroed m (paddr len : Z) : outcome memory :=
  if zeroed then addr ← paddr_to_vaddr paddr; Ret (put m addr (replicate (Z.to_nat len) 0)) else Ret m.

Definition alloc_frame_with zeroed (metadata : M) g h m : outcome ((Z + Error) * G * slots * memory) :=
  single_layout ← unwrap (from_size_align PAGE_SIZE PAGE_SIZE);
  match ga_alloc g single_layout with
  | (None, g') => Ret (inr NoMemory, g', h, m)
  | (Some paddr, g') =>
      ' (h', res) ← frame_from_unused h paddr metadata;
      match res with
      | Some _ => Panic
      | None => m' ← clear zeroed m paddr PAGE_SIZE; Ret (inl paddr, g', h', m')
      end
  end.

Definition alloc_segment_with zeroed (metadata_fn : Z -> M) (nframes : Z) g h m : outcome ((Segment + Error) * G * slots * memory) :=
  if nframes =? 0 then Ret (inr InvalidArgs, g, h, m)
  else
    len ← umul 64 nframes PAGE_SIZE;
    layout ← unwrap (from_size_align len PAGE_SIZE);
    match ga_alloc g layout with
    | (None, g') => Ret (inr NoMemory, g', h, m)
    | (Some start, g') =>
        end_ ← uadd 64 start len;
        ' (h', res) ← from_unused (fun pa => (pa, metadata_fn pa)) h (mk_range start end_);
        match res with
        | inr _ => Panic
        | inl segment => m' ← clear zeroed m (start_paddr segment) len; Ret (inl segment, g', h', m')
        end
    end.

(** ** Histories of allocations and handles *)

Context (metadata : M).
Local Notation meta := (fun pa : Z => (pa, metadata)).
Local Notation world := (@world M).

Record machine := mk_machine { allocator : G; frames_of : world; bytes_of : memory }.
Implicit Types (s : machine) (w : world).

(** The two allocations in a state of the machine. *)
Definition segment_request s zeroed (n : Z) : outcome ((Segment + Error) * G * slots * memory) :=
  alloc_segment_with zeroed (fun _ => metadata) n (allocator s) (heap (frames_of s)) (bytes_of s).
Definition frame_request s zeroed : outcome ((Z + Error) * G * slots * memory) :=
  alloc_frame_with zeroed metadata (allocator s) (heap (frames_of s)) (bytes_of s).

(** The operations on handles, without those that make them from unused frames. *)
Definition uses_handle (o : op) : bool := match o with FromUnused _ => false | _ => true end.

Inductive mstep s : machine -> Prop :=
| m_segment zeroed n seg g' h' m' : 0 <= n ->
    segment_request s zeroed n = Ret (inl seg, g', h', m') ->
    mstep s (mk_machine g' (mk_world h' (seg :: segments (frames_of s)) (frames (frames_of s))) m')
| m_segment_fails zeroed n e g' h' m' : 0 <= n ->
    segment_request s zeroed n = Ret (inr e, g', h', m') ->
    mstep s (mk_machine g' (mk_world h' (segments (frames_of s)) (frames (frames_of s))) m')
| m_frame zeroed pa g' h' m' :
    frame_request s zeroed = Ret (inl pa, g', h', m') ->
    mstep s (mk_machine g' (mk_world h' (segments (frames_of s)) (pa :: frames (frames_of s))) m')
| m_frame_fails zeroed e g' h' m' :
    frame_request s zeroed = Ret (inr e, g', h', m') ->
    mstep s (mk_machine g' (mk_world h' (segments (frames_of s)) (frames (frames_of s))) m')
| m_handle o w' r : uses_handle o = true -> op_ok o -> exec meta (frames_of s) o = Some (Ret (w', r)) ->
    mstep s (mk_machine (allocator s) w' (bytes_of s))
| m_write m' : mstep s (mk_machine (allocator s) (frames_of s) m').

Inductive mreach (g0 : G) : machine -> Prop :=
| m_start m : mreach g0 (mk_machine g0 world_new m)
| m_next s s' : mreach g0 s -> mstep s s' -> mreach g0 s'.

(** ** The invariant: free frames have no handle *)

Definition held_by w (pa : Z) : Z := handles (segments w) (frames w) pa.

Record machine_ok s : Prop := {
  mo_counts : rel meta (frames_of s) (segments (frames_of s)) (frames (frames_of s));
  mo_free pa : valid_frame_paddr pa -> ga_free (allocator s) pa = true -> held_by (frames_of s) pa = 0;
}.

Lemma handles_nonneg segs frs pa : 0 <= handles segs frs pa.
Proof. unfold handles. pose proof (number_nonneg (covers pa) segs). pose proof (number_nonneg (Z.eqb pa) frs). lia. Qed.

Lemma not_covered segs frs i (seg : Segment) pa : handles segs frs pa = 0 -> segs !! i = Some seg -> ~ (r_start seg <= pa < r_end seg).
Proof. intros H0 Hi Hr. know (handles_covered segs frs i seg pa Hi Hr) as ?. lia. Qed.

Lemma ind_outside p e pa : ~ (p <= pa < e) -> ind p e pa = 0.
Proof. intros H. rewrite ind_iff. case_decide; [tauto|done]. Qed.

(** Operations on handles make no handle of a frame that has none. *)
Lemma handle_keeps segs frs o segs' frs' r pa : uses_handle o = true -> op_ok o -> Forall valid_frame_paddr frs -> valid_frame_paddr pa ->
  spec_exec segs frs o = Some (Ret (segs', frs', r)) -> handles segs frs pa = 0 -> handles segs' frs' pa = 0.
Proof.
  intros Hu Ho Hfrs Hv Hex H0. pose proof (handles_nonneg segs' frs' pa) as Hnn.
  destruct o as [rg|i|i offset|i rg|i|i|j|j]; [done|..]; cbn [spec_exec] in Hex.
  1-5: destruct (segs !! i) as [seg|] eqn:Hi; [|done]; pose proof (not_covered segs frs i seg pa H0 Hi) as Hno; cbn [mbind option_bind] in Hex.
  6-7: destruct (frs !! j) as [fr|] eqn:Hj; [|done]; know (handles_frame segs frs j fr Hj) as H1; assert (pa <> fr) as Hne by (intros ->; lia);
    cbn [mbind option_bind] in Hex.
  - unfold spec_share in Hex. destruct (forallb _ _); [|done]. injection Hex as <- <- <-. rewrite handles_cons, ind_outside by done. lia.
  - destruct (_ && _ && _) eqn:Hc; [|done]. injection Hex as <- <- <-. rewrite !andb_true_iff in Hc. rewrite !handles_cons in *.
    rewrite (handles_delete _ _ _ _ _ Hi) in *. cbn [r_start r_end]. rewrite !ind_outside by lia. lia.
  - destruct (_ && _ && _) eqn:Hc; [|done]. rewrite !andb_true_iff in Hc. unfold spec_share in Hex. destruct (forallb _ _); [|done].
    injection Hex as <- <- <-. cbn in Ho. rewrite handles_cons. cbn [r_start r_end]. rewrite ind_outside by lia. lia.
  - destruct (Z.ltb_spec (r_start seg) (r_end seg)); injection Hex as <- <- <-; [|done]. rewrite handles_cons_frame, (handles_insert _ _ _ _ _ _ Hi).
    rewrite decide_False by lia. cbn [r_start r_end]. rewrite !ind_outside by (unfold PAGE_SIZE; lia). lia.
  - injection Hex as <- <- <-. rewrite (handles_delete _ _ _ _ _ Hi), ind_outside by done. lia.
  - injection Hex as <- <- <-. rewrite handles_cons, (handles_delete_frame _ _ _ _ _ Hj), decide_False by done. cbn [r_start r_end].
    rewrite ind_outside; [lia|]. pose proof (proj1 (Forall_lookup _ _) Hfrs j fr Hj) as Hvf. destruct Hv as [_ Ha], Hvf as [_ Hb].
    unfold PAGE_SIZE in *. Z.to_euclidean_division_equations; lia.
  - injection Hex as <- <- <-. rewrite (handles_delete_frame _ _ _ _ _ Hj), decide_False by done. lia.
Qed.

(** ** The allocations *)

(** The bytes of the frames are zero if asked for, and no other byte changes. *)
Definition cleared zeroed m m' (paddr len : Z) : Prop :=
  forall a, m' a = if zeroed && (paddr + LINEAR_MAPPING_BASE_VADDR <=? a) && (a <? paddr + LINEAR_MAPPING_BASE_VADDR + len) then 0 else m a.

Lemma clear_ok zeroed m paddr len : 0 <= paddr -> 0 <= len -> paddr + len <= MAX_PADDR ->
  exists m', clear zeroed m paddr len = Ret m' /\ cleared zeroed m m' paddr len.
Proof.
  intros Hp Hl Hb. unfold clear. destruct zeroed; [|exists m; split; [done|by intros a] ].
  assert (LINEAR_MAPPING_BASE_VADDR + MAX_PADDR < 2 ^ 64) by done. unfold paddr_to_vaddr. rewrite uadd_ok by lia. cbn [mbind outcome_bind].
  eexists. split; [done|]. intros a. unfold put. rewrite length_replicate, Z2Nat.id by done. cbn [andb].
  destruct (_ && _); [|done]. generalize (Z.to_nat (a - (paddr + LINEAR_MAPPING_BASE_VADDR))) as k. generalize (Z.to_nat len) as l.
  induction l as [|l IH]; intros [|k]; cbn; done.
Qed.

Lemma layout_of size : 0 < size -> size <= 2 ^ 63 - PAGE_SIZE -> from_size_align size PAGE_SIZE = Some (mk_layout size PAGE_SIZE).
Proof. intros _ H. unfold from_size_align. destruct (Z.ltb_spec (2 ^ 63 - PAGE_SIZE) size); [lia|done]. Qed.

(** Claiming frames without handles succeeds. *)
Lemma claim_ok w rg : rel meta w (segments w) (frames w) -> seg_ok rg -> r_start rg < r_end rg ->
  (forall pa, valid_frame_paddr pa -> r_start rg <= pa < r_end rg -> held_by w pa = 0) ->
  exists h', from_unused meta (heap w) rg = Ret (h', inl rg) /\ rel meta (mk_world h' (rg :: segments w) (frames w)) (rg :: segments w) (frames w).
Proof.
  intros Hrel Hok Hlt H0. pose proof Hok as (Hs & Hm & Ha & Hb).
  pose proof (from_unused_agrees meta w _ _ Hrel rg (fun _ => eq_refl) ltac:(lia)) as Hag. cbn [exec spec_exec] in Hag.
  unfold aligned in Hag. rewrite Ha, Hb in Hag. cbn [Z.eqb andb negb] in Hag.
  destruct (Z.ltb_spec MAX_PADDR (r_end rg)); [lia|]. destruct (Z.leb_spec (r_end rg) (r_start rg)); [lia|].
  assert (forallb (fun pa => handles (segments w) (frames w) pa =? 0) (pages rg) = true) as Hall.
  { apply forallb_forall. intros pa Hin%list_elem_of_In. apply (pages_spec meta) in Hin as [Hv Hr]; [|done]. apply Z.eqb_eq, H0; done. }
  rewrite Hall in Hag. destruct (from_unused meta (heap w) rg) as [[h' [seg|e]]|]; cbn [mbind outcome_bind agree] in Hag; [|by destruct Hag|done].
  destruct Hag as [_ Hrel']. pose proof (rel_segments _ _ _ _ Hrel') as Heq. cbn in Heq. injection Heq as ->. eauto.
Qed.

Lemma free_shrinks s g' w' m' lo hi : machine_ok s -> rel meta w' (segments w') (frames w') ->
  (forall pa, ga_free g' pa = ga_free (allocator s) pa && negb ((lo <=? pa) && (pa <? hi))) ->
  (forall pa, valid_frame_paddr pa -> ~ (lo <= pa < hi) -> held_by w' pa = held_by (frames_of s) pa) -> machine_ok (mk_machine g' w' m').
Proof.
  intros Hok Hrel Hf Hh. split; [done|]. cbn. intros pa Hv Hfree. rewrite Hf, andb_true_iff, negb_true_iff, andb_false_iff in Hfree. destruct Hfree as [Hfree Hout].
  rewrite Hh by (done || lia). by apply (mo_free _ Hok).
Qed.

(** What a successful allocation of the frames from [p] on is. *)
Record fresh_frames s zeroed (p len : Z) (s' : machine) : Prop := {
  ff_place : 0 <= p /\ p mod PAGE_SIZE = 0 /\ p + len <= MAX_PADDR;
  ff_unheld pa : valid_frame_paddr pa -> p <= pa < p + len -> held_by (frames_of s) pa = 0;
  ff_held pa : valid_frame_paddr pa -> held_by (frames_of s') pa = held_by (frames_of s) pa + ind p (p + len) pa;
  ff_slots pa : valid_frame_paddr pa -> slot_at (heap (frames_of s')) pa = slot_of meta pa (held_by (frames_of s') pa);
  ff_free pa : ga_free (allocator s') pa = ga_free (allocator s) pa && negb ((p <=? pa) && (pa <? p + len));
  ff_bytes : cleared zeroed (bytes_of s) (bytes_of s') p len;
}.

Context `{GL : !GlobalFrameAllocatorLaws G}.

(** The answer of the global allocator decides. *)
Lemma segment_ok s zeroed n : machine_ok s -> 0 < n -> n * PAGE_SIZE <= 2 ^ 63 - PAGE_SIZE ->
  match ga_alloc (allocator s) (mk_layout (n * PAGE_SIZE) PAGE_SIZE) with
  | (None, g') => segment_request s zeroed n = Ret (inr NoMemory, g', heap (frames_of s), bytes_of s) /\ forall pa, ga_free g' pa = ga_free (allocator s) pa
  | (Some p, g') => exists h' m', let seg := mk_range p (p + n * PAGE_SIZE) in
      let s' := mk_machine g' (mk_world h' (seg :: segments (frames_of s)) (frames (frames_of s))) m' in
      segment_request s zeroed n = Ret (inl seg, g', h', m') /\ fresh_frames s zeroed p (n * PAGE_SIZE) s' /\ machine_ok s'
  end.
Proof.
  intros Hok Hn Hb. assert (PAGE_SIZE = 4096) as HP by done. unfold segment_request, alloc_segment_with. destruct (Z.eqb_spec n 0); [lia|].
  rewrite umul_ok by lia. cbn [mbind outcome_bind]. rewrite layout_of by lia. cbn [unwrap mbind outcome_bind].
  destruct (ga_alloc (allocator s) (mk_layout (n * PAGE_SIZE) PAGE_SIZE)) as [[p|] g'] eqn:Hal.
  2:{ split; [done|]. by eapply ga_alloc_none. }
  destruct (ga_alloc_some (allocator s) (mk_layout (n * PAGE_SIZE) PAGE_SIZE) p g') as (Hp0 & Hpa & Hpm & Hfree & Hfree'); [cbn [layout_size]; lia|apply Z_mod_mult|done|done|].
  cbn [layout_size] in *.
  assert (MAX_PADDR < 2 ^ 64) by done. rewrite uadd_ok by lia. cbn [mbind outcome_bind].
  assert (seg_ok (mk_range p (p + n * PAGE_SIZE))) as Hseg.
  { unfold seg_ok. cbn. split_and!; [lia|lia|lia|done|]. by rewrite Z_mod_plus_full. }
  destruct (claim_ok (frames_of s) _ (mo_counts _ Hok) Hseg) as (h' & Hcl & Hrel); [cbn; lia|intros pa Hv Hr; apply (mo_free _ Hok); [done|by apply Hfree]|].
  cbn beta. change (from_unused _ _ _) with (from_unused meta (heap (frames_of s)) (mk_range p (p + n * PAGE_SIZE))). rewrite Hcl. cbn [mbind outcome_bind].
  unfold start_paddr. cbn [r_start]. destruct (clear_ok zeroed (bytes_of s) p (n * PAGE_SIZE)) as (m' & -> & Hm); [lia..|]. cbn [mbind outcome_bind].
  exists h', m'. split; [done|]. split; [split; cbn; [done| | | |done|done]|].
  - intros pa Hv Hr. apply (mo_free _ Hok); [done|by apply Hfree].
  - intros pa Hv. apply handles_cons.
  - intros pa Hv. apply (rel_counts _ _ _ _ Hrel pa Hv).
  - apply (free_shrinks s _ _ _ p (p + n * PAGE_SIZE) Hok Hrel Hfree'). intros pa Hv Hout. unfold held_by. cbn. rewrite handles_cons, ind_outside by done. lia.
Qed.

(** A number of frames that no layout can have panics. *)
Lemma segment_too_large s zeroed n : 0 < n -> 2 ^ 63 - PAGE_SIZE < n * PAGE_SIZE ->
  segment_request s zeroed n = Panic.
Proof.
  intros Hn Hb. unfold segment_request, alloc_segment_with. destruct (Z.eqb_spec n 0); [lia|]. destruct (umul 64 n PAGE_SIZE) as [len|] eqn:Hm; [|done].
  apply umul_Ret in Hm as [-> _]. cbn [mbind outcome_bind]. unfold from_size_align. destruct (Z.ltb_spec (2 ^ 63 - PAGE_SIZE) (n * PAGE_SIZE)); [done|lia].
Qed.

Lemma frame_ok s zeroed : machine_ok s ->
  match ga_alloc (allocator s) (mk_layout PAGE_SIZE PAGE_SIZE) with
  | (None, g') => frame_request s zeroed = Ret (inr NoMemory, g', heap (frames_of s), bytes_of s) /\ forall pa, ga_free g' pa = ga_free (allocator s) pa
  | (Some p, g') => exists h' m', let s' := mk_machine g' (mk_world h' (segments (frames_of s)) (p :: frames (frames_of s))) m' in
      frame_request s zeroed = Ret (inl p, g', h', m') /\ fresh_frames s zeroed p PAGE_SIZE s' /\ machine_ok s'
  end.
Proof.
  intros Hok. assert (PAGE_SIZE = 4096) as HP by done. unfold frame_request, alloc_frame_with. rewrite layout_of by lia. cbn [unwrap mbind outcome_bind].
  destruct (ga_alloc (allocator s) (mk_layout PAGE_SIZE PAGE_SIZE)) as [[p|] g'] eqn:Hal.
  2:{ split; [done|]. by eapply ga_alloc_none. }
  destruct (ga_alloc_some (allocator s) (mk_layout PAGE_SIZE PAGE_SIZE) p g') as (Hp0 & Hpa & Hpm & Hfree & Hfree'); [done..|]. cbn [layout_size] in *.
  assert (valid_frame_paddr p) as Hv by (split; [lia|done]).
  assert (held_by (frames_of s) p = 0) as H0 by (apply (mo_free _ Hok); [done|apply Hfree; lia]).
  pose proof (mo_counts _ Hok) as Hrel. destruct (rel_counts _ _ _ _ Hrel p Hv) as [Hslot Hb].
  pose proof (claim_frame meta _ p _ Hslot Hb Hv) as Hcl. cbn [snd] in Hcl. rewrite Hcl. unfold held_by in H0. rewrite H0. cbn [Z.eqb mbind outcome_bind].
  destruct (clear_ok zeroed (bytes_of s) p PAGE_SIZE) as (m' & -> & Hm); [lia..|]. cbn [mbind outcome_bind].
  assert (Hind : forall pa, valid_frame_paddr pa -> (if decide (pa = p) then 1 else 0) = ind p (p + PAGE_SIZE) pa).
  { intros pa [_ Ha]. rewrite ind_iff. do 2 case_decide; try done; [subst; lia|]. unfold PAGE_SIZE in *. Z.to_euclidean_division_equations; lia. }
  assert (rel meta (mk_world (<[p := slot_of meta p 1]> (heap (frames_of s))) (segments (frames_of s)) (p :: frames (frames_of s)))
    (segments (frames_of s)) (p :: frames (frames_of s))) as Hrel'.
  { destruct Hrel as [_ _ Hsegs Hfrs Hc]. split; cbn; [done..|by constructor|]. apply (counted_insert meta _ _ _ _ 1 _ Hc); [reflexivity|unfold REF_COUNT_MAX; lia|].
    intros pa _. rewrite handles_cons_frame. case_decide as Hd; [rewrite Hd, H0|]; lia. }
  eexists _, m'. split; [done|]. split; [split; cbn; [done| | | |done|done]|].
  - intros pa Hv' Hr. apply (mo_free _ Hok); [done|by apply Hfree].
  - intros pa Hv'. unfold held_by. cbn. by rewrite handles_cons_frame, Hind.
  - intros pa Hv'. apply (rel_counts _ _ _ _ Hrel' pa Hv').
  - apply (free_shrinks s _ _ _ p (p + PAGE_SIZE) Hok Hrel' Hfree').
    intros pa Hv' Hout. unfold held_by. cbn. rewrite handles_cons_frame, Hind, ind_outside by done. lia.
Qed.

Lemma mstep_ok s s' : machine_ok s -> mstep s s' -> machine_ok s'.
Proof.
  intros Hok Hst.
  assert (Hfail : forall g', (forall pa, ga_free g' pa = ga_free (allocator s) pa) ->
    machine_ok (mk_machine g' (mk_world (heap (frames_of s)) (segments (frames_of s)) (frames (frames_of s))) (bytes_of s))).
  { intros g' Hg. split; cbn; [|intros pa Hv; rewrite Hg; by apply (mo_free _ Hok)]. destruct (mo_counts _ Hok). by split. }
  destruct Hst as [z n seg g' h' m' Hn Hal|z n e g' h' m' Hn Hal|z pa g' h' m' Hal|z e g' h' m' Hal|o w' r Hu Ho Hex|m'].
  1-2: destruct (decide (n = 0)) as [->|Hne]; [injection Hal as <- <- <- <- || discriminate Hal; by apply Hfail|].
  1-2: destruct (decide (n * PAGE_SIZE <= 2 ^ 63 - PAGE_SIZE)) as [Hsz|Hsz]; [|by rewrite segment_too_large in Hal by lia].
  1-2: pose proof (segment_ok s z n Hok ltac:(lia) Hsz) as Hseg; destruct (ga_alloc (allocator s) _) as [[p|] g1];
    [destruct Hseg as (h1 & m1 & Heq & _ & Hok')|destruct Hseg as (Heq & Hg)]; rewrite Heq in Hal; injection Hal; intros; subst; auto; done.
  1-2: pose proof (frame_ok s z Hok) as Hfr; destruct (ga_alloc (allocator s) _) as [[p|] g1];
    [destruct Hfr as (h1 & m1 & Heq & _ & Hok')|destruct Hfr as (Heq & Hg)]; rewrite Heq in Hal; injection Hal; intros; subst; auto; done.
  - pose proof (exec_agrees meta _ _ _ o (fun _ => eq_refl) Ho (mo_counts _ Hok)) as Hag. rewrite Hex in Hag.
    destruct (spec_exec _ _ o) as [[[[segs frs] r']|]|] eqn:Hsp; try done. destruct Hag as [-> Hrel].
    pose proof (rel_segments _ _ _ _ Hrel) as Hs. pose proof (rel_frames _ _ _ _ Hrel) as Hf. subst segs frs.
    split; [done|]. cbn. intros pa Hv Hfree. eapply handle_keeps; [done|done|apply (rel_valid _ _ _ _ (mo_counts _ Hok))|done|done|]. by apply (mo_free _ Hok).
  - destruct Hok. by split.
Qed.

Lemma mreach_ok g0 s : mreach g0 s -> machine_ok s.
Proof.
  intros Hr. induction Hr as [m|s s' _ IH Hst]; [|by eapply mstep_ok]. split; [apply rel_new|]. done.
Qed.

(** C26: allocation of frames.  After any history of allocations, of operations on handles and of writes, with any global allocator that meets its
    documentation: frames that the allocator still has are in no handle, and the slot of each frame counts its handles.  [alloc_segment_with] reports invalid
    arguments for zero frames, changing nothing; it panics exactly for sizes that no layout has; otherwise the answer of the
    global allocator decides: without memory there it reports this, changing neither slots nor bytes nor the free memory,
    and with memory at [p] it returns the frames from [p] on, which nobody held; each gets one count, they are filled with zeros if
    asked for, the free memory shrinks by them, and no other byte or count changes.  In particular, claiming the slots never
    fails.  The same holds of [alloc_frame_with], which never panics. *)
Theorem frame_alloc_correct g0 s zeroed : mreach g0 s ->
  (forall pa, valid_frame_paddr pa -> slot_at (heap (frames_of s)) pa = slot_of meta pa (held_by (frames_of s) pa) /\
     (ga_free (allocator s) pa = true -> held_by (frames_of s) pa = 0)) /\
  segment_request s zeroed 0 = Ret (inr InvalidArgs, allocator s, heap (frames_of s), bytes_of s) /\
  (forall n, 0 <= n -> segment_request s zeroed n = Panic <-> 2 ^ 63 - PAGE_SIZE < n * PAGE_SIZE) /\
  (forall n, 0 < n -> n * PAGE_SIZE <= 2 ^ 63 - PAGE_SIZE ->
     match ga_alloc (allocator s) (mk_layout (n * PAGE_SIZE) PAGE_SIZE) with
     | (None, g') => segment_request s zeroed n = Ret (inr NoMemory, g', heap (frames_of s), bytes_of s) /\ forall pa, ga_free g' pa = ga_free (allocator s) pa
     | (Some p, g') => exists h' m', let seg := mk_range p (p + n * PAGE_SIZE) in segment_request s zeroed n = Ret (inl seg, g', h', m') /\
         fresh_frames s zeroed p (n * PAGE_SIZE) (mk_machine g' (mk_world h' (seg :: segments (frames_of s)) (frames (frames_of s))) m')
     end) /\
  match ga_alloc (allocator s) (mk_layout PAGE_SIZE PAGE_SIZE) with
  | (None, g') => frame_request s zeroed = Ret (inr NoMemory, g', heap (frames_of s), bytes_of s) /\ forall pa, ga_free g' pa = ga_free (allocator s) pa
  | (Some p, g') => exists h' m', frame_request s zeroed = Ret (inl p, g', h', m') /\
      fresh_frames s zeroed p PAGE_SIZE (mk_machine g' (mk_world h' (segments (frames_of s)) (p :: frames (frames_of s))) m')
  end.
Proof.
  intros Hr. pose proof (mreach_ok g0 s Hr) as Hok. split_and!.
  - intros pa Hv. split; [apply (rel_counts _ _ _ _ (mo_counts _ Hok) pa Hv)|by apply (mo_free _ Hok)].
  - done.
  - intros n Hn. split; [|intros Hb; apply segment_too_large; [assert (PAGE_SIZE = 4096) by done; lia|done] ]. intros Hp. apply Z.nle_gt. intros Hb.
    destruct (decide (n = 0)) as [->|Hne]; [done|]. pose proof (segment_ok s zeroed n Hok ltac:(lia) Hb) as Hseg.
    destruct (ga_alloc _ _) as [[p|] g']; [destruct Hseg as (h' & m' & Heq & _)|destruct Hseg as [Heq _] ]; by rewrite Hp in Heq.
  - intros n Hn Hb. pose proof (segment_ok s zeroed n Hok Hn Hb) as Hseg.
    destruct (ga_alloc _ _) as [[p|] g']; [destruct Hseg as (h' & m' & Heq & Hf & _); by exists h', m'|done].
  - pose proof (frame_ok s zeroed Hok) as Hfr. destruct (ga_alloc _ _) as [[p|] g']; [destruct Hfr as (h' & m' & Heq & Hf & _); by exists h', m'|done].
Qed.

End frame_alloc.

(** ** An instance: an allocator that hands out sixteen pages in order *)
Module AllocExample.

(** The number of the next page. *)
Definition pages_from := nat.

#[export] Instance bump : GlobalFrameAllocator pages_from := {
  ga_alloc g l := if Z.of_nat g * PAGE_SIZE + layout_size l <=? 16 * PAGE_SIZE then (Some (Z.of_nat g * PAGE_SIZE), (g + Z.to_nat (layout_size l / PAGE_SIZE))%nat) else (None, g);
  ga_free g pa := (Z.of_nat g * PAGE_SIZE <=? pa) && (pa <? 16 * PAGE_SIZE);
}.

#[export] Instance bump_laws : GlobalFrameAllocatorLaws pages_from.
Proof.
  split; cbn [ga_alloc ga_free bump].
  - intros g l p g' H0 Hm _. assert (16 * PAGE_SIZE <= MAX_PADDR) by done. assert (PAGE_SIZE = 4096) as HP by done.
    destruct (Z.leb_spec (Z.of_nat g * PAGE_SIZE + layout_size l) (16 * PAGE_SIZE)); [|done]. intros [= <- <-].
    assert (Z.of_nat (g + Z.to_nat (layout_size l / PAGE_SIZE)) * PAGE_SIZE = Z.of_nat g * PAGE_SIZE + layout_size l) as Hend.
    { rewrite Nat2Z.inj_add, Z2Nat.id by (apply Z.div_pos; lia). rewrite (Z_div_exact_full_2 (layout_size l) PAGE_SIZE) at 2 by (done || lia). lia. }
    split_and!; [lia|apply Z_mod_mult|lia|intros pa Hpa; lia|]. intros pa. rewrite Hend. apply eq_true_iff_eq.
    rewrite !andb_true_iff, negb_true_iff, andb_false_iff. lia.
  - intros g l g'. by destruct (_ <=? _); intros [= <-].
Qed.

Definition start_machine : machine (G := pages_from) (M := unit) := mk_machine 0%nat world_new (fun _ => 7).

(** Ten frames fit, and twenty do not. *)
Lemma frame_alloc_correct_witness :
  (exists h' m', segment_request tt start_machine true 10 = Ret (inl (mk_range 0 0xa000), 10%nat, h', m') /\
     fresh_frames tt start_machine true 0 0xa000 (mk_machine 10%nat (mk_world h' [mk_range 0 0xa000] []) m')) /\
  segment_request tt start_machine true 20 = Ret (inr NoMemory, 0%nat, ∅, bytes_of start_machine).
Proof.
  destruct (frame_alloc_correct (G := pages_from) tt (0%nat : pages_from) start_machine true (m_start _ _ _)) as (_ & _ & _ & Hseg & _). split.
  - pose proof (Hseg 10 ltac:(lia) ltac:(done)) as H10.
    assert (ga_alloc (allocator start_machine) (mk_layout (10 * PAGE_SIZE) PAGE_SIZE) = (Some 0, 10%nat)) as Hal by reflexivity.
    rewrite Hal in H10. exact H10.
  - pose proof (Hseg 20 ltac:(lia) ltac:(done)) as H20.
    assert (ga_alloc (allocator start_machine) (mk_layout (20 * PAGE_SIZE) PAGE_SIZE) = (None, 0%nat)) as Hal by reflexivity.
    rewrite Hal in H20. exact (proj1 H20).
Defined.

End AllocExample.
