(* ===== verification/Dma.v ===== *)
(** * [ostd/src/mm/dma]: memory that is shared with devices

    [DmaStream], its slices and [DmaCoherent] own a segment of frames and give the CPU
    access to it through readers and writers over the linear mapping.  A stream has a
    direction, which forbids one kind of access.

    The objects are behind a lock that nobody takes for writing, so an object is its
    data.  The set of mapped pages is state; what the device does with the memory is not
    part of the code.  [dma_type], which is decided by the hardware, is a parameter. *)

From S2P Require Import Prelude VmIo MemoryRegion Paging FrameMeta FrameSegment.
Open Scope Z_scope.

Inductive DmaType := Direct | Iommu.
Inductive DmaError := DmaInvalidArgs | AlreadyMapped.
Inductive DmaDirection := ToDevice | FromDevice | Bidirectional.

(** [DMA_MAPPING_SET]: [None] before [init]. *)
Definition dma_set := option (gset Z).

(** [init]. *)
Definition dma_init : dma_set := Some ∅.

(** The first loop of [check_and_insert_dma_mapping], with [n] rounds left: no page is in the set. *)
Fixpoint check_loop (n : nat) (set : gset Z) (start_paddr i : Z) : outcome bool :=
  match n with
  | O => Ret true
  | S n' =>
      offset ← umul 64 i PAGE_SIZE;
      paddr ← uadd 64 start_paddr offset;
      if decide (paddr ∈ set) then Ret false else check_loop n' set start_paddr (i + 1)
  end.

(** The second loop, in which the insertion is commented out. *)
Fixpoint insert_loop (n : nat) (set : gset Z) (start_paddr i : Z) : outcome (gset Z) :=
  match n with
  | O => Ret set
  | S n' =>
      offset ← umul 64 i PAGE_SIZE;
      paddr ← uadd 64 start_paddr offset;
      insert_loop n' set start_paddr (i + 1)
  end.

Definition check_and_insert_dma_mapping (ms : dma_set) (start_paddr num_pages : Z) : outcome (bool * dma_set) :=
  match ms with
  | None => Ret (false, ms)
  | Some set =>
      ok ← check_loop (Z.to_nat num_pages) set start_paddr 0;
      if (ok : bool) then set' ← insert_loop (Z.to_nat num_pages) set start_paddr 0; Ret (true, Some set')
      else Ret (false, ms)
  end.

Section dma.
Context (dma_type : DmaType) `{FM : FallibleMem}.
Implicit Types (m : memory) (r : VmReader) (w : VmWriter).

(** The device addresses of the frames, which the call into the IOMMU would map. *)
Fixpoint iommu_loop (n : nat) (start_paddr i : Z) : outcome unit :=
  match n with
  | O => Ret tt
  | S n' => offset ← umul 64 i PAGE_SIZE; _ ← uadd 64 start_paddr offset; iommu_loop n' start_paddr (i + 1)
  end.

Definition device_address (start_paddr frame_count : Z) : outcome Z :=
  match dma_type with
  | Direct => Ret start_paddr
  | Iommu => _ ← iommu_loop (Z.to_nat frame_count) start_paddr 0; Ret start_paddr
  end.

(** ** Access through the linear mapping *)

(** [reader_inner] and [writer_inner]. *)
Definition reader_inner (seg : Segment) : outcome VmReader :=
  vaddr ← paddr_to_vaddr (start_paddr seg); len ← size seg; Ret (reader_from_kernel_space vaddr len).
Definition writer_inner (seg : Segment) : outcome VmWriter :=
  vaddr ← paddr_to_vaddr (start_paddr seg); len ← size seg; Ret (writer_from_kernel_space vaddr len).

(** The bodies of [VmIo::read] and [VmIo::write] once the reader or the writer of the object is there. *)
Definition read_object m (reader : VmReader) (offset : Z) w : outcome ((unit + Error) * VmWriter * memory) :=
  remain_before_skip ← remain reader;
  if remain_before_skip <? offset then Ret (inr InvalidArgs, w, m)
  else
    left ← usub remain_before_skip offset;
    len ← avail w;
    if left <? len then Ret (inr InvalidArgs, w, m)
    else if len =? 0 then Ret (inl tt, w, m)
    else
      reader' ← reader_skip reader offset;
      ' (res, _, w', m') ← read_fallible m reader' w;
      match res with
      | inl _ => Ret (inl tt, w', m')
      | inr (err, copied) => c ← usub (wr_cursor w') copied; Ret (inr err, writer_at w' c, m')
      end.

Definition write_object m (writer : VmWriter) (offset : Z) r : outcome ((unit + Error) * VmReader * memory) :=
  avail_before_skip ← avail writer;
  if avail_before_skip <? offset then Ret (inr InvalidArgs, r, m)
  else
    left ← usub avail_before_skip offset;
    len ← remain r;
    if left <? len then Ret (inr InvalidArgs, r, m)
    else if len =? 0 then Ret (inl tt, r, m)
    else
      writer' ← writer_skip writer offset;
      ' (res, r', _, m') ← write_fallible m writer' r;
      match res with
      | inl _ => Ret (inl tt, r', m')
      | inr (err, copied) => c ← usub (rd_cursor r') copied; Ret (inr err, reader_at r' c, m')
      end.

(** ** Streams *)

Record DmaStream := mk_stream { segment : Segment; start_daddr : Z; is_cache_coherent : bool; direction : DmaDirection }.

Definition stream_map (ms : dma_set) (seg : Segment) (dir : DmaDirection) (coherent : bool) : outcome ((DmaStream + DmaError) * dma_set) :=
  sz ← size seg;
  let frame_count := sz / PAGE_SIZE in
  ' (ok, ms') ← check_and_insert_dma_mapping ms (start_paddr seg) frame_count;
  if negb ok then Ret (inr AlreadyMapped, ms')
  else
    daddr ← device_address (start_paddr seg) frame_count;
    Ret (inl (mk_stream seg daddr coherent dir), ms').

Definition stream_daddr (self : DmaStream) : Z := start_daddr self.
Definition stream_direction (self : DmaStream) : DmaDirection := direction self.
Definition stream_paddr (self : DmaStream) : Z := start_paddr (segment self).
Definition stream_nframes (self : DmaStream) : outcome Z := sz ← size (segment self); Ret (sz / PAGE_SIZE).
Definition stream_nbytes (self : DmaStream) : outcome Z := size (segment self).

Definition may_read (dir : DmaDirection) : bool := match dir with ToDevice => false | _ => true end.
Definition may_write (dir : DmaDirection) : bool := match dir with FromDevice => false | _ => true end.

Definition stream_reader (self : DmaStream) : outcome (VmReader + Error) :=
  if negb (may_read (direction self)) then Ret (inr AccessDenied) else r ← reader_inner (segment self); Ret (inl r).
Definition stream_writer (self : DmaStream) : outcome (VmWriter + Error) :=
  if negb (may_write (direction self)) then Ret (inr AccessDenied) else w ← writer_inner (segment self); Ret (inl w).

Definition stream_read m (self : DmaStream) (offset : Z) w : outcome ((unit + Error) * VmWriter * memory) :=
  if negb (may_read (direction self)) then Ret (inr AccessDenied, w, m)
  else reader ← reader_inner (segment self); read_object m reader offset w.
Definition stream_write m (self : DmaStream) (offset : Z) r : outcome ((unit + Error) * VmReader * memory) :=
  if negb (may_write (direction self)) then Ret (inr AccessDenied, r, m)
  else writer ← writer_inner (segment self); write_object m writer offset r.

(** ** Slices of streams *)

Record DmaStreamSlice := mk_slice { stream : DmaStream; offset : Z; slice_len : Z }.

Definition slice_daddr (self : DmaStreamSlice) : outcome Z := uadd 64 (stream_daddr (stream self)) (offset self).

(** The checks of [reader] and [writer]: the address of the slice. *)
Definition slice_vaddr (self : DmaStreamSlice) : outcome (Z + Error) :=
  match checked_add 64 (offset self) (slice_len self) with
  | None => Ret (inr InvalidArgs)
  | Some e =>
      sz ← size (segment (stream self));
      if sz <? e then Ret (inr InvalidArgs)
      else
        base_vaddr ← paddr_to_vaddr (start_paddr (segment (stream self)));
        Ret (match checked_add 64 base_vaddr (offset self) with
             | None => inr InvalidArgs
             | Some vaddr => match checked_add 64 vaddr (slice_len self) with None => inr InvalidArgs | Some _ => inl vaddr end
             end)
  end.

Definition slice_reader (self : DmaStreamSlice) : outcome (VmReader + Error) :=
  if negb (may_read (direction (stream self))) then Ret (inr AccessDenied)
  else v ← slice_vaddr self; Ret (match v with inl vaddr => inl (reader_from_kernel_space vaddr (slice_len self)) | inr e => inr e end).
Definition slice_writer (self : DmaStreamSlice) : outcome (VmWriter + Error) :=
  if negb (may_write (direction (stream self))) then Ret (inr AccessDenied)
  else v ← slice_vaddr self; Ret (match v with inl vaddr => inl (writer_from_kernel_space vaddr (slice_len self)) | inr e => inr e end).

Definition slice_read m (self : DmaStreamSlice) (off : Z) w : outcome ((unit + Error) * VmWriter * memory) :=
  reader ← slice_reader self;
  match reader with inr err => Ret (inr err, w, m) | inl reader => read_object m reader off w end.
Definition slice_write m (self : DmaStreamSlice) (off : Z) r : outcome ((unit + Error) * VmReader * memory) :=
  writer ← slice_writer self;
  match writer with inr err => Ret (inr err, r, m) | inl writer => write_object m writer off r end.

(** ** Coherent mappings *)

Record DmaCoherent := mk_coherent { c_segment : Segment; c_start_daddr : Z; c_is_cache_coherent : bool }.

Definition coherent_map (ms : dma_set) (seg : Segment) (coherent : bool) : outcome ((DmaCoherent + DmaError) * dma_set) :=
  sz ← size seg;
  let frame_count := sz / PAGE_SIZE in
  ' (ok, ms') ← check_and_insert_dma_mapping ms (start_paddr seg) frame_count;
  if negb ok then Ret (inr AlreadyMapped, ms')
  else
    daddr ← device_address (start_paddr seg) frame_count;
    Ret (inl (mk_coherent seg daddr coherent), ms').

Definition coherent_daddr (self : DmaCoherent) : Z := c_start_daddr self.
Definition coherent_paddr (self : DmaCoherent) : Z := start_paddr (c_segment self).
Definition coherent_nframes (self : DmaCoherent) : outcome Z := sz ← size (c_segment self); Ret (sz / PAGE_SIZE).
Definition coherent_nbytes (self : DmaCoherent) : outcome Z := size (c_segment self).
Definition coherent_reader (self : DmaCoherent) : outcome VmReader := reader_inner (c_segment self).
Definition coherent_writer (self : DmaCoherent) : outcome VmWriter := writer_inner (c_segment self).

Definition coherent_read m (self : DmaCoherent) (off : Z) w : outcome ((unit + Error) * VmWriter * memory) :=
  reader ← reader_inner (c_segment self); read_object m reader off w.
Definition coherent_write m (self : DmaCoherent) (off : Z) r : outcome ((unit + Error) * VmReader * memory) :=
  writer ← writer_inner (c_segment self); write_object m writer off r.

Definition coherent_read_once m (self : DmaCoherent) (off size align : Z) : outcome (list Z + Error) :=
  reader ← coherent_reader self; reader' ← reader_skip reader off; ' (res, _) ← read_once m reader' size align; Ret res.
Definition coherent_write_once m (self : DmaCoherent) (off : Z) (new_val : list Z) (align : Z) : outcome ((unit + Error) * memory) :=
  writer ← coherent_writer self; writer' ← writer_skip writer off; ' (res, _, m') ← write_once m writer' new_val align; Ret (res, m').

(** ** What an access does *)

(** The three kinds of objects. *)
Inductive object := Stream (s : DmaStream) | Slice (s : DmaStreamSlice) | Coherent (c : DmaCoherent).

Definition object_read m (o : object) (off : Z) w : outcome ((unit + Error) * VmWriter * memory) :=
  match o with Stream s => stream_read m s off w | Slice s => slice_read m s off w | Coherent c => coherent_read m c off w end.
Definition object_write m (o : object) (off : Z) r : outcome ((unit + Error) * VmReader * memory) :=
  match o with Stream s => stream_write m s off r | Slice s => slice_write m s off r | Coherent c => coherent_write m c off r end.

Definition object_segment (o : object) : Segment :=
  match o with Stream s => segment s | Slice s => segment (stream s) | Coherent c => c_segment c end.
Definition object_direction (o : object) : DmaDirection :=
  match o with Stream s => direction s | Slice s => direction (stream s) | Coherent _ => Bidirectional end.

(** The part of the segment that the object gives access to. *)
Definition seg_len (seg : Segment) : Z := r_end seg - r_start seg.
Definition object_start (o : object) : Z := match o with Slice s => offset s | _ => 0 end.
Definition object_len (o : object) : Z := match o with Slice s => slice_len s | _ => seg_len (object_segment o) end.

(** The address of its first byte, and of a segment, in the linear mapping. *)
Definition linear (seg : Segment) : Z := r_start seg + LINEAR_MAPPING_BASE_VADDR.
Definition object_vaddr (o : object) : Z := linear (object_segment o) + object_start o.

(** Why an access of [len] bytes at [off] is refused. *)
Definition refusal (allowed : bool) (o : object) (off len : Z) : option Error :=
  if negb allowed then Some AccessDenied
  else if seg_len (object_segment o) <? object_start o + object_len o then Some InvalidArgs
  else if object_len o <? off + len then Some InvalidArgs
  else None.

(** All of the window of the writer has been filled from [src]; or there was a fault and the writer is where it was. *)
Definition delivered m (src : Z) w (res : unit + Error) w' m' : Prop :=
  (forall a, ~ within a (wr_cursor w) (wr_len w) -> m' a = m a) /\
  match res with
  | inl _ => w' = wr_advance w (wr_len w) /\ forall i, 0 <= i < wr_len w -> m' (wr_cursor w + i) = m (src + i)
  | inr e => e = PageFault /\ w' = w
  end.

Definition stored m (dst : Z) r (res : unit + Error) r' m' : Prop :=
  (forall a, ~ within a dst (rd_len r) -> m' a = m a) /\
  match res with
  | inl _ => r' = rd_advance r (rd_len r) /\ forall i, 0 <= i < rd_len r -> m' (dst + i) = m (rd_cursor r + i)
  | inr e => e = PageFault /\ r' = r
  end.

Definition object_ok (o : object) : Prop :=
  seg_ok (object_segment o) /\ uint 64 (object_start o) /\ uint 64 (object_len o).

(** A range of addresses that does not meet the window of the object: the copies are not for overlapping memory. *)
Definition apart (o : object) (p n : Z) : Prop := disjoint_ranges p n (object_vaddr o) (object_len o).

(** ** Proofs *)

Context `{FL : !FallibleMemLaws}.

Lemma read_object_ok m base n off w : valid_range base n -> wr_ok w -> disjoint_ranges (wr_cursor w) (wr_len w) base n -> 0 <= off ->
  exists res w' m', read_object m (mk_reader base (base + n)) off w = Ret (res, w', m') /\
    if n <? off + wr_len w then res = inr InvalidArgs /\ w' = w /\ m' = m else delivered m (base + off) w res w' m'.
Proof.
  intros Hb Hw Hd Ho. assert (rd_ok (mk_reader base (base + n))) as Hr by (windows; lia).
  unfold read_object. step (remain_ok (mk_reader base (base + n))) by done. unfold rd_len at 1 2. cbn [rd_cursor rd_end].
  replace (base + n - base) with n by lia. pose proof Hw as (_ & Hwl & _).
  destruct (Z.ltb_spec n off); [do 3 eexists; split; [done|]; destruct (Z.ltb_spec n (off + wr_len w)); [done|lia]|].
  step (usub_ok n off) by lia. step (avail_ok w) by done.
  destruct (Z.ltb_spec (n - off) (wr_len w)); [do 3 eexists; split; [done|]; destruct (Z.ltb_spec n (off + wr_len w)); [done|lia]|].
  destruct (Z.ltb_spec n (off + wr_len w)); [lia|].
  destruct (Z.eqb_spec (wr_len w) 0) as [Hz|Hz].
  { do 3 eexists. split; [done|]. split; [done|]. rewrite Hz, wr_advance_0. split; [done|]. lia. }
  step (reader_skip_ok base n off) by (done || lia).
  destruct (read_fallible_ok m (mk_reader (base + off) (base + n)) w) as (k & m' & -> & Hk & _ & Hf & Hout);
    [windows; lia|done|windows; intros a Ha; specialize (Hd a Ha); lia|].
  unfold rd_len in *. cbn [rd_cursor rd_end] in *. replace (Z.min (base + n - (base + off)) (wr_len w)) with (wr_len w) in * by lia.
  cbn [mbind outcome_bind]. unfold fault_at. destruct (Z.ltb_spec k (wr_len w)).
  - rewrite wr_back by (windows; lia). cbn [mbind outcome_bind]. do 3 eexists. split; [done|]. split; [done|]. split; [done|]. by destruct w.
  - replace k with (wr_len w) in * by lia. do 3 eexists. split; [done|]. split; [done|]. split; [done|]. intros i Hi. apply Hf. lia.
Qed.

Lemma write_object_ok m base n off r : valid_range base n -> rd_ok r -> disjoint_ranges (rd_cursor r) (rd_len r) base n -> 0 <= off ->
  exists res r' m', write_object m (mk_writer base (base + n)) off r = Ret (res, r', m') /\
    if n <? off + rd_len r then res = inr InvalidArgs /\ r' = r /\ m' = m else stored m (base + off) r res r' m'.
Proof.
  intros Hb Hr Hd Ho. assert (wr_ok (mk_writer base (base + n))) as Hw by (windows; lia).
  unfold write_object. step (avail_ok (mk_writer base (base + n))) by done. unfold wr_len at 1 2. cbn [wr_cursor wr_end].
  replace (base + n - base) with n by lia. pose proof Hr as (_ & Hrl & _).
  destruct (Z.ltb_spec n off); [do 3 eexists; split; [done|]; destruct (Z.ltb_spec n (off + rd_len r)); [done|lia]|].
  step (usub_ok n off) by lia. step (remain_ok r) by done.
  destruct (Z.ltb_spec (n - off) (rd_len r)); [do 3 eexists; split; [done|]; destruct (Z.ltb_spec n (off + rd_len r)); [done|lia]|].
  destruct (Z.ltb_spec n (off + rd_len r)); [lia|].
  destruct (Z.eqb_spec (rd_len r) 0) as [Hz|Hz].
  { do 3 eexists. split; [done|]. split; [done|]. rewrite Hz, rd_advance_0. split; [done|]. lia. }
  step (writer_skip_ok base n off) by (done || lia). unfold write_fallible.
  destruct (read_fallible_ok m r (mk_writer (base + off) (base + n))) as (k & m' & -> & Hk & _ & Hf & Hout);
    [done|windows; lia|windows; intros a Ha Hx; specialize (Hd a Hx); lia|].
  unfold wr_len in *. cbn [wr_cursor wr_end] in *. replace (Z.min (rd_len r) (base + n - (base + off))) with (rd_len r) in * by lia.
  cbn [mbind outcome_bind]. unfold fault_at. destruct (Z.ltb_spec k (rd_len r)).
  - rewrite rd_back by (windows; lia). cbn [mbind outcome_bind]. do 3 eexists. split; [done|]. split; [done|]. split; [done|]. by destruct r.
  - replace k with (rd_len r) in * by lia. do 3 eexists. split; [done|]. split; [done|]. split; [done|]. intros i Hi. apply Hf. lia.
Qed.

(** ** The windows of the objects *)

Lemma linear_ok seg : seg_ok seg -> paddr_to_vaddr (start_paddr seg) = Ret (linear seg) /\ size seg = Ret (seg_len seg) /\
  0 <= seg_len seg /\ LINEAR_MAPPING_BASE_VADDR <= linear seg /\ linear seg + seg_len seg <= LINEAR_MAPPING_BASE_VADDR + MAX_PADDR.
Proof.
  intros (H0 & He & _ & _). unfold paddr_to_vaddr, start_paddr, size, linear, seg_len. assert (LINEAR_MAPPING_BASE_VADDR + MAX_PADDR < 2 ^ 64) by done.
  rewrite uadd_ok, usub_ok by lia. split_and!; try done; lia.
Qed.

Lemma linear_top p n : LINEAR_MAPPING_BASE_VADDR <= p -> 0 <= n -> p + n <= LINEAR_MAPPING_BASE_VADDR + MAX_PADDR -> valid_range p n.
Proof.
  intros. assert (LINEAR_MAPPING_BASE_VADDR + MAX_PADDR < 2 ^ 64) by done. assert (0 <= LINEAR_MAPPING_BASE_VADDR) by done. unfold valid_range. lia.
Qed.

Lemma inner_ok seg : seg_ok seg ->
  reader_inner seg = Ret (mk_reader (linear seg) (linear seg + seg_len seg)) /\ writer_inner seg = Ret (mk_writer (linear seg) (linear seg + seg_len seg)).
Proof.
  intros Hs. destruct (linear_ok seg Hs) as (Hl & Hz & H0 & Hlo & Hhi). unfold reader_inner, writer_inner. rewrite Hl. cbn [mbind outcome_bind]. rewrite Hz.
  cbn [mbind outcome_bind]. rewrite buffer_reader, buffer_writer by (by apply linear_top). done.
Qed.

Lemma slice_vaddr_ok s : object_ok (Slice s) ->
  slice_vaddr s = Ret (if seg_len (segment (stream s)) <? offset s + slice_len s then inr InvalidArgs else inl (linear (segment (stream s)) + offset s)).
Proof.
  intros (Hs & [Ho _] & [Hl _]). cbn [object_segment object_start object_len] in *. destruct (linear_ok _ Hs) as (Hp & Hz & H0 & Hlo & Hhi).
  assert (LINEAR_MAPPING_BASE_VADDR + MAX_PADDR < 2 ^ 64) as Htop by done. assert (0 <= LINEAR_MAPPING_BASE_VADDR) as Hpos by done.
  unfold slice_vaddr, checked_add. destruct (Z.ltb_spec (offset s + slice_len s) (2 ^ 64)).
  - rewrite Hz. cbn [mbind outcome_bind]. destruct (Z.ltb_spec (seg_len (segment (stream s))) (offset s + slice_len s)); [done|].
    rewrite Hp. cbn [mbind outcome_bind]. rewrite (proj2 (Z.ltb_lt _ _)) by lia. rewrite (proj2 (Z.ltb_lt _ _)) by lia. done.
  - destruct (Z.ltb_spec (seg_len (segment (stream s))) (offset s + slice_len s)); [done|lia].
Qed.

(** Reads and writes of an object whose window is in its segment are those of the window. *)
Lemma object_read_window m o off w : object_ok o ->
  object_read m o off w =
    if negb (may_read (object_direction o)) then Ret (inr AccessDenied, w, m)
    else if seg_len (object_segment o) <? object_start o + object_len o then Ret (inr InvalidArgs, w, m)
    else read_object m (mk_reader (object_vaddr o) (object_vaddr o + object_len o)) off w.
Proof.
  intros Hok. unfold object_vaddr. destruct o as [s|s|c]; cbn [object_read object_direction object_segment object_start object_len].
  - unfold stream_read. destruct (may_read _); [|done]. cbn [negb]. rewrite (proj1 (inner_ok (segment s) (proj1 Hok))), Z.ltb_irrefl, Z.add_0_r. done.
  - unfold slice_read, slice_reader. destruct (may_read _); [|done]. cbn [negb]. rewrite (slice_vaddr_ok s Hok). cbn [mbind outcome_bind].
    destruct (Z.ltb_spec (seg_len (segment (stream s))) (offset s + slice_len s)); [done|].
    destruct (linear_ok _ (proj1 Hok)) as (_ & _ & _ & Hlo & Hhi). destruct Hok as (_ & [Ho _] & [Hl _]). cbn [object_segment object_start object_len] in *.
    rewrite buffer_reader; [done|]. apply linear_top; lia.
  - unfold coherent_read. rewrite (proj1 (inner_ok (c_segment c) (proj1 Hok))), Z.ltb_irrefl, Z.add_0_r. done.
Qed.

Lemma object_write_window m o off r : object_ok o ->
  object_write m o off r =
    if negb (may_write (object_direction o)) then Ret (inr AccessDenied, r, m)
    else if seg_len (object_segment o) <? object_start o + object_len o then Ret (inr InvalidArgs, r, m)
    else write_object m (mk_writer (object_vaddr o) (object_vaddr o + object_len o)) off r.
Proof.
  intros Hok. unfold object_vaddr. destruct o as [s|s|c]; cbn [object_write object_direction object_segment object_start object_len].
  - unfold stream_write. destruct (may_write _); [|done]. cbn [negb]. rewrite (proj2 (inner_ok (segment s) (proj1 Hok))), Z.ltb_irrefl, Z.add_0_r. done.
  - unfold slice_write, slice_writer. destruct (may_write _); [|done]. cbn [negb]. rewrite (slice_vaddr_ok s Hok). cbn [mbind outcome_bind].
    destruct (Z.ltb_spec (seg_len (segment (stream s))) (offset s + slice_len s)); [done|].
    destruct (linear_ok _ (proj1 Hok)) as (_ & _ & _ & Hlo & Hhi). destruct Hok as (_ & [Ho _] & [Hl _]). cbn [object_segment object_start object_len] in *.
    rewrite buffer_writer; [done|]. apply linear_top; lia.
  - unfold coherent_write. rewrite (proj2 (inner_ok (c_segment c) (proj1 Hok))), Z.ltb_irrefl, Z.add_0_r. done.
Qed.

Lemma object_window o : object_ok o -> object_start o + object_len o <= seg_len (object_segment o) -> valid_range (object_vaddr o) (object_len o).
Proof.
  intros (Hs & [Ho _] & [Hl _]) Hfit. destruct (linear_ok _ Hs) as (_ & _ & _ & Hlo & Hhi). unfold object_vaddr. apply linear_top; lia.
Qed.

(** C25: access to memory shared with a device.  For a stream, a slice of one and a coherent mapping: [read] fills the whole
    window of the writer with the bytes of the object from the offset on, and [write] stores the whole window of the reader
    there; a page fault in the other memory is reported with the writer or reader where it was.  An access against the
    direction is denied, one that leaves the slice or the segment is invalid, and neither does anything.  Reading changes
    only the window of the writer and writing changes only bytes of the segment.  The other window is valid memory of any kind, of the user or of the
    kernel heap, that does not overlap the window of the object. *)
Theorem dma_access_correct m o off w r : object_ok o -> 0 <= off ->
  wr_ok w -> apart o (wr_cursor w) (wr_len w) -> rd_ok r -> apart o (rd_cursor r) (rd_len r) ->
  (exists res w' m', object_read m o off w = Ret (res, w', m') /\
    match refusal (may_read (object_direction o)) o off (wr_len w) with
    | Some e => res = inr e /\ w' = w /\ m' = m
    | None => delivered m (object_vaddr o + off) w res w' m'
    end) /\
  (exists res r' m', object_write m o off r = Ret (res, r', m') /\
    match refusal (may_write (object_direction o)) o off (rd_len r) with
    | Some e => res = inr e /\ r' = r /\ m' = m
    | None => stored m (object_vaddr o + off) r res r' m' /\
        forall a, ~ within a (linear (object_segment o)) (seg_len (object_segment o)) -> m' a = m a
    end).
Proof.
  intros Hok Hoff Hw Hfw Hr Hfr. rewrite object_read_window, object_write_window by done. unfold refusal. split.
  - destruct (negb (may_read _)); [by do 3 eexists|]. destruct (Z.ltb_spec (seg_len (object_segment o)) (object_start o + object_len o)); [by do 3 eexists|].
    pose proof (object_window o Hok ltac:(lia)) as Hv. destruct (read_object_ok m _ _ off w Hv Hw Hfw Hoff) as (res & w' & m' & Heq & Hres).
    exists res, w', m'. split; [done|]. by destruct (object_len o <? off + wr_len w).
  - destruct (negb (may_write _)); [by do 3 eexists|]. destruct (Z.ltb_spec (seg_len (object_segment o)) (object_start o + object_len o)); [by do 3 eexists|].
    pose proof (object_window o Hok ltac:(lia)) as Hv. destruct (write_object_ok m _ _ off r Hv Hr Hfr Hoff) as (res & r' & m' & Heq & Hres).
    exists res, r', m'. split; [done|]. destruct (Z.ltb_spec (object_len o) (off + rd_len r)); [done|]. split; [done|].
    intros a Ha. apply (proj1 Hres). destruct Hok as (_ & [Ho _] & _). unfold object_vaddr, within in *. lia.
Qed.

(** ** Single values of a coherent mapping *)

(** A read of one value returns its bytes if they lie in the mapping and is invalid otherwise; it panics if the offset is
    outside or the address is not aligned.  A write is the same and changes exactly the bytes of the value. *)
Lemma coherent_once_correct m c off size align (v : list Z) : seg_ok (c_segment c) -> 0 <= off -> 0 <= size ->
  let a := linear (c_segment c) + off in let n := seg_len (c_segment c) in
  coherent_read_once m c off size align =
    (if n <? off then Panic else if n <? off + size then Ret (inr InvalidArgs) else if a mod align =? 0 then Ret (inl (bytes m a size)) else Panic) /\
  coherent_write_once m c off v align =
    (if n <? off then Panic else if n <? off + Z.of_nat (length v) then Ret (inr InvalidArgs, m) else if a mod align =? 0 then Ret (inl tt, put m a v) else Panic).
Proof.
  intros Hs Ho Hsz a n. destruct (linear_ok _ Hs) as (_ & _ & H0 & Hlo & Hhi). destruct (inner_ok _ Hs) as [Hri Hwi].
  pose proof (linear_top (linear (c_segment c)) n Hlo H0 Hhi) as Hv. unfold coherent_read_once, coherent_write_once, coherent_reader, coherent_writer.
  rewrite Hri, Hwi. cbn [mbind outcome_bind]. fold n. destruct (Z.ltb_spec n off).
  - unfold reader_skip, writer_skip. rewrite remain_ok, avail_ok by (windows; lia). cbn [mbind outcome_bind]. unfold rd_len, wr_len.
    cbn [rd_cursor rd_end wr_cursor wr_end]. rewrite (proj2 (Z.leb_gt _ _)) by lia. done.
  - rewrite reader_skip_ok, writer_skip_ok by (done || lia). cbn [mbind outcome_bind]. unfold read_once, write_once.
    rewrite remain_ok, avail_ok by (windows; lia). cbn [mbind outcome_bind]. unfold rd_len, wr_len. cbn [rd_cursor rd_end wr_cursor wr_end]. fold a.
    replace (linear (c_segment c) + n - a) with (n - off) by (unfold a; lia). split.
    + destruct (Z.ltb_spec n (off + size)), (Z.ltb_spec (n - off) size); try lia; [done|]. by destruct (a mod align =? 0).
    + destruct (Z.ltb_spec n (off + Z.of_nat (length v))), (Z.ltb_spec (n - off) (Z.of_nat (length v))); try lia; [done|]. by destruct (a mod align =? 0).
Qed.

(** ** The set of mapped pages *)

Definition unmapped (set : gset Z) (pa : Z) : bool := bool_decide (pa ∉ set).

Lemma check_loop_ok n set start i : 0 <= i -> 0 <= start -> start + (i + Z.of_nat n) * PAGE_SIZE < 2 ^ 64 ->
  check_loop n set start i = Ret (forallb (unmapped set) ((fun k => start + (i + Z.of_nat k) * PAGE_SIZE) <$> seq 0 n)) /\
  insert_loop n set start i = Ret set /\ iommu_loop n start i = Ret tt.
Proof.
  revert i. induction n as [|n IH]; intros i Hi H0 Hb; [done|]. cbn [check_loop insert_loop iommu_loop seq fmap list_fmap forallb].
  assert (0 <= i * PAGE_SIZE) by (unfold PAGE_SIZE; lia). assert (0 < PAGE_SIZE) by done. rewrite umul_ok by nia. cbn [mbind outcome_bind]. rewrite uadd_ok by nia.
  cbn [mbind outcome_bind]. destruct (IH (i + 1) ltac:(lia) H0 ltac:(lia)) as (-> & -> & ->). split; [|done].
  change (Z.of_nat 0) with 0. rewrite Z.add_0_r. unfold unmapped at 2. destruct (decide (start + i * PAGE_SIZE ∈ set)).
  - by rewrite bool_decide_false by tauto.
  - rewrite bool_decide_true by done. cbn [andb]. do 2 f_equal. rewrite <- fmap_S_seq, <- list_fmap_compose. apply list_fmap_ext.
    intros k x _. cbn. lia.
Qed.

Lemma check_and_insert_ok ms seg : seg_ok seg ->
  check_and_insert_dma_mapping ms (start_paddr seg) (seg_len seg / PAGE_SIZE) =
    Ret (match ms with Some set => forallb (unmapped set) (pages seg) | None => false end, ms) /\
  device_address (start_paddr seg) (seg_len seg / PAGE_SIZE) = Ret (start_paddr seg).
Proof.
  intros (H0 & He & _ & _). assert (MAX_PADDR < 2 ^ 64) by done. assert (0 <= seg_len seg / PAGE_SIZE) as Hd by (apply Z.div_pos; unfold seg_len; lia || done).
  pose proof (Z.mul_div_le (seg_len seg) PAGE_SIZE eq_refl). unfold start_paddr, seg_len in *.
  assert (forall set, check_loop (Z.to_nat ((r_end seg - r_start seg) / PAGE_SIZE)) set (r_start seg) 0 = Ret (forallb (unmapped set) (pages seg)) /\
    insert_loop (Z.to_nat ((r_end seg - r_start seg) / PAGE_SIZE)) set (r_start seg) 0 = Ret set /\
    iommu_loop (Z.to_nat ((r_end seg - r_start seg) / PAGE_SIZE)) (r_start seg) 0 = Ret tt) as Hloops.
  { intros set. apply check_loop_ok; lia. }
  split.
  - destruct ms as [set|]; [|done]. destruct (Hloops set) as (Hc & Hi & _). unfold check_and_insert_dma_mapping. rewrite Hc. cbn [mbind outcome_bind].
    destruct (forallb _ _); [|done]. by rewrite Hi.
  - unfold device_address. destruct dma_type; [done|]. by rewrite (proj2 (proj2 (Hloops ∅))).
Qed.

(** Mapping memory for a device.  [DmaStream::map] and [DmaCoherent::map] succeed exactly if the set of mapped pages is
    there and has no page of the segment, with the physical address as the device address; but they leave the set as it is,
    so that a segment is mapped as often as it is asked for. *)
Theorem dma_map_unchecked ms seg dir coherent : seg_ok seg ->
  let free := match ms with Some set => forallb (unmapped set) (pages seg) | None => false end in
  stream_map ms seg dir coherent = Ret (if free then inl (mk_stream seg (r_start seg) coherent dir) else inr AlreadyMapped, ms) /\
  coherent_map ms seg coherent = Ret (if free then inl (mk_coherent seg (r_start seg) coherent) else inr AlreadyMapped, ms) /\
  (ms = dma_init -> free = true).
Proof.
  intros Hs free. destruct (linear_ok _ Hs) as (_ & Hz & _). destruct (check_and_insert_ok ms seg Hs) as [Hc Hd].
  unfold stream_map, coherent_map. rewrite Hz. cbn [mbind outcome_bind]. rewrite Hc. cbn [mbind outcome_bind]. fold free. split_and!.
  - destruct free; cbn [negb]; [|done]. by rewrite Hd.
  - destruct free; cbn [negb]; [|done]. by rewrite Hd.
  - intros ->. unfold free. cbn. apply forallb_forall. intros pa _. unfold unmapped. apply bool_decide_true. set_solver.
Qed.
End dma.

(** ** Examples *)

Module DmaExample.
Local Existing Instance riscv_mem.
Local Existing Instance riscv_mem_laws.

Definition seg : Segment := mk_range 0x4000 0x6000.
Definition slice_of (dir : DmaDirection) : object := Slice (mk_slice (mk_stream seg 0x4000 true dir) 0x800 0x100).
Definition mem : memory := fun a => a mod 256.

Lemma seg_valid : seg_ok seg.
Proof. unfold seg_ok. cbn. split_and!; done || lia. Qed.

(** Sixteen bytes of a slice are read into a buffer of the kernel heap, which lies in the linear mapping too. *)
Definition heap_buffer : VmWriter := mk_writer (LINEAR_MAPPING_BASE_VADDR + 0x9000) (LINEAR_MAPPING_BASE_VADDR + 0x9010).

Lemma dma_access_correct_witness : exists res w' m', object_read mem (slice_of Bidirectional) 0x20 heap_buffer = Ret (res, w', m') /\
  delivered mem (LINEAR_MAPPING_BASE_VADDR + 0x4820) heap_buffer res w' m'.
Proof.
  assert (object_ok (slice_of Bidirectional)) as Hok by (split; [apply seg_valid|cbn; split; split; lia]).
  assert (object_vaddr (slice_of Bidirectional) = LINEAR_MAPPING_BASE_VADDR + 0x4800) as Hv by reflexivity.
  destruct (dma_access_correct mem (slice_of Bidirectional) 0x20 heap_buffer (mk_reader 0x100 0x110) Hok) as [Hr _]; [lia| | | | |exact Hr].
  - windows. unfold heap_buffer, LINEAR_MAPPING_BASE_VADDR. cbn. lia.
  - intros a. rewrite Hv. windows. unfold heap_buffer. cbn. lia.
  - windows. lia.
  - intros a. rewrite Hv. windows. unfold LINEAR_MAPPING_BASE_VADDR. cbn. lia.
Defined.

Example slice_write_run :
  match object_write mem (slice_of ToDevice) 0x20 (mk_reader 0x110 0x114) with
  | Ret (res, r, m) => (res, rd_cursor r, bytes m (LINEAR_MAPPING_BASE_VADDR + 0x481f) 6) = (inl tt, 0x114, [0x1f; 0x10; 0x11; 0x12; 0x13; 0x24])
  | Panic => False
  end.
Proof. vm_compute. reflexivity. Qed.

Example slice_denied : object_read mem (slice_of ToDevice) 0x20 (mk_writer 0x3000 0x3010) = Ret (inr AccessDenied, mk_writer 0x3000 0x3010, mem).
Proof. reflexivity. Qed.

(** The same segment is mapped twice. *)
Lemma dma_map_unchecked_witness :
  stream_map Iommu dma_init seg ToDevice true = Ret (inl (mk_stream seg 0x4000 true ToDevice), dma_init) /\
  coherent_map Iommu dma_init seg false = Ret (inl (mk_coherent seg 0x4000 false), dma_init).
Proof.
  split.
  - destruct (dma_map_unchecked Iommu dma_init seg ToDevice true seg_valid) as (Hm & _ & Hf). rewrite (Hf eq_refl) in Hm. exact Hm.
  - destruct (dma_map_unchecked Iommu dma_init seg ToDevice false seg_valid) as (_ & Hm & Hf). rewrite (Hf eq_refl) in Hm. exact Hm.
Defined.
End DmaExample.
