(* ===== verification/Heap.v ===== *)
(** * The heap: slots, slabs and the dispatch of allocations

    [ostd/src/mm/heap/]: a slab is a page that is cut into slots of one size; the free slots are
    linked through their own memory ([SlabSlotList] of [slot_list.rs]), so that the list lives in
    the bytes of the slots it holds.  Large slots are segments ([HeapSlot] of [slot.rs]).  The global
    allocator ([AllocDispatch] of [mod.rs]) asks an injected allocator and checks its answer.

    Memory has a byte for every address ([VmIo]); a pointer in a slot is eight of them.  The
    frame of a slab, the segments of large slots, the injected allocator and its map from layouts to
    slots are parameters. *)

From S2P Require Import Prelude AlignExt VmIo MemoryRegion.
Open Scope Z_scope.

(** ** Slots *)

Inductive SlotInfo := SlabSlot (size : Z) | LargeSlot (size : Z).
Global Instance SlotInfo_eq_dec : EqDecision SlotInfo.
Proof. solve_decision. Defined.

Definition info_size (self : SlotInfo) : Z := match self with SlabSlot size | LargeSlot size => size end.

Record HeapSlot := mk_slot { addr : Z; info : SlotInfo }.

Definition slot_size (self : HeapSlot) : Z := match info self with SlabSlot size | LargeSlot size => size end.

Definition slot_paddr (self : HeapSlot) : outcome Z := usub (addr self) LINEAR_MAPPING_BASE_VADDR.

(** Eight bytes as a [usize]. *)
Definition read_usize (m : memory) (p : Z) : Z := little_endian_to_Z 8 (bytes m p 8).
Definition write_usize (m : memory) (p v : Z) : memory := put m p (Z_to_little_endian 8 8 v).

(** ** The list of free slots: its head *)

Section slab.
(** The size of the slots, for which [new] has compile-time assertions; the features. *)
Context (SLOT_SIZE : Z) (allow_panic debug_assertions : bool).

Implicit Types (m : memory) (head : option Z).

Definition list_push m head (slot : HeapSlot) : outcome (option Z * memory) :=
  let slot_ptr := addr slot in
  match info slot with
  | LargeSlot _ => if allow_panic then Panic else Ret (head, m)
  | SlabSlot slot_size =>
      _ ← (if allow_panic then rassert (slot_size =? SLOT_SIZE) else Ret tt);
      _ ← debug_assert debug_assertions (Ret (negb (slot_ptr =? 0)));
      Ret (Some slot_ptr, write_usize m slot_ptr (default 0 head))
  end.

Definition list_pop m head : option HeapSlot * option Z :=
  match head with
  | None => (None, None)
  | Some original_head =>
      let next := read_usize m original_head in
      (Some (mk_slot original_head (SlabSlot SLOT_SIZE)), if next =? 0 then None else Some next)
  end.

(** ** Slabs: the frame with its metadata *)

Record Slab := mk_slab { start_paddr : Z; free_list : option Z; nr_allocated : Z }.

Definition capacity : Z := (PAGE_SIZE / SLOT_SIZE) mod 2 ^ 16.

(** [SlabMeta::alloc]; nothing is [AllocError]. *)
Definition slab_alloc m (self : Slab) : outcome (option HeapSlot * Slab) :=
  match list_pop m (free_list self) with
  | (None, _) => Ret (None, self)
  | (Some allocated, head) =>
      nr ← uadd 16 (nr_allocated self) 1;
      Ret (Some allocated, mk_slab (start_paddr self) head nr)
  end.

(** The offsets of [(0..PAGE_SIZE).step_by(SLOT_SIZE)]. *)
Definition slot_offsets : list Z := (fun i => i * SLOT_SIZE) <$> seqZ 0 ((PAGE_SIZE + SLOT_SIZE - 1) / SLOT_SIZE).

Definition push_slot (head_vaddr : Z) (acc : outcome (option Z * memory)) (slot_offset : Z) : outcome (option Z * memory) :=
  ' (head, m) ← acc;
  slot_ptr ← uadd 64 head_vaddr slot_offset;
  list_push m head (mk_slot slot_ptr (SlabSlot SLOT_SIZE)).

(** [Slab::new], with the frame that [FrameAllocOptions] gives. *)
Definition slab_new m (frame : option Z) : outcome (option Slab * memory) :=
  match frame with
  | None => Ret (None, m)
  | Some head_paddr =>
      head_vaddr ← paddr_to_vaddr head_paddr;
      ' (head, m') ← foldl (push_slot head_vaddr) (Ret (None, m)) slot_offsets;
      Ret (Some (mk_slab head_paddr head 0), m')
  end.

(** [Slab::dealloc]; [false] is [AllocError]. *)
Definition slab_dealloc m (self : Slab) (slot : HeapSlot) : outcome (bool * Slab * memory) :=
  end_ ← uadd 64 (start_paddr self) PAGE_SIZE;
  pa ← slot_paddr slot;
  if negb ((start_paddr self <=? pa) && (pa <? end_)) then Ret (false, self, m)
  else
    _ ← debug_assert debug_assertions (Ret (slot_size slot =? SLOT_SIZE));
    ' (head, m') ← list_push m (free_list self) slot;
    nr ← usub (nr_allocated self) 1;
    Ret (true, mk_slab (start_paddr self) head nr, m').

(** [AnyFrameMeta::on_drop] of the metadata. *)
Definition slab_on_drop (self : Slab) : outcome unit := rassert (nr_allocated self =? 0).

(** ** What the list means *)

Context (size_range : 8 <= SLOT_SIZE <= PAGE_SIZE).

(** The slots from the head on, through the pointers in memory. *)
Fixpoint chain m head (l : list Z) : Prop :=
  match l with
  | [] => head = None
  | a :: l' => head = Some a /\ chain m (list_pop m head).2 l'
  end.

Lemma nr_offsets : Z.of_nat (length slot_offsets) = (PAGE_SIZE + SLOT_SIZE - 1) / SLOT_SIZE /\ 1 <= (PAGE_SIZE + SLOT_SIZE - 1) / SLOT_SIZE <= PAGE_SIZE.
Proof.
  unfold PAGE_SIZE in *. assert (1 <= (4096 + SLOT_SIZE - 1) / SLOT_SIZE <= 4096).
  { split; [apply Z.div_le_lower_bound; lia|]. apply Z.div_le_upper_bound; nia. }
  split; [|done]. unfold slot_offsets. rewrite length_fmap, length_seqZ. unfold PAGE_SIZE. lia.
Qed.

(** ** Pointers in memory *)

Lemma bytes_put m p bs : bytes (put m p bs) p (Z.of_nat (length bs)) = bs.
Proof.
  apply (nth_ext _ _ 0 0); [rewrite length_bytes; lia|]. intros i Hi. rewrite length_bytes in Hi.
  replace i with (Z.to_nat (Z.of_nat i)) at 1 by lia. rewrite nth_bytes by lia.
  destruct (put_handled m p bs) as (_ & Hp & _). rewrite Hp by lia. by rewrite Nat2Z.id.
Qed.

Lemma length_usize v : Z.of_nat (length (Z_to_little_endian 8 8 v)) = 8.
Proof. apply length_Z_to_little_endian. lia. Qed.

Lemma read_write m p v : 0 <= v < 2 ^ 64 -> read_usize (write_usize m p v) p = v.
Proof.
  intros Hv. unfold read_usize, write_usize. rewrite <- (length_usize v) at 2. rewrite bytes_put.
  rewrite little_endian_to_Z_to_little_endian by lia. apply Z.mod_small. exact Hv.
Qed.

Lemma write_elsewhere m p v q n : (forall a, q <= a < q + n -> ~ p <= a < p + 8) -> bytes (write_usize m p v) q n = bytes m q n.
Proof.
  intros Hd. unfold write_usize. eapply handled_outside; [apply put_handled|]. rewrite length_usize. exact Hd.
Qed.

(** ** The slots of the page at [base] *)

Definition slots_at (base : Z) : list Z := (fun o => base + o) <$> slot_offsets.

Lemma elem_slots base a : a ∈ slots_at base <-> exists i, a = base + i * SLOT_SIZE /\ 0 <= i < (PAGE_SIZE + SLOT_SIZE - 1) / SLOT_SIZE.
Proof.
  unfold slots_at, slot_offsets. rewrite list_elem_of_fmap. setoid_rewrite list_elem_of_fmap. setoid_rewrite elem_of_seqZ. split.
  - intros (o & -> & i & -> & Hi). exists i. split; [done|lia].
  - intros (i & -> & Hi). eexists. split; [done|]. exists i. split; [done|lia].
Qed.

Lemma slots_NoDup base : NoDup (slots_at base).
Proof.
  apply NoDup_fmap_2; [intros x y; lia|]. apply NoDup_fmap_2; [intros x y; nia|]. apply NoDup_seqZ.
Qed.

Lemma slots_apart base a b : a ∈ slots_at base -> b ∈ slots_at base -> a <> b -> a + SLOT_SIZE <= b \/ b + SLOT_SIZE <= a.
Proof.
  intros (i & -> & _)%elem_slots (j & -> & _)%elem_slots Hne. assert (i <> j) by congruence. nia.
Qed.

(** A page of the linear mapping. *)
Definition page_at (pa base : Z) : Prop := 0 <= pa /\ pa + PAGE_SIZE <= LINEAR_MAPPING_VADDR_RANGE.(r_end) - LINEAR_MAPPING_BASE_VADDR /\ base = pa + LINEAR_MAPPING_BASE_VADDR.

Lemma heap_slot_bounds pa base a : page_at pa base -> a ∈ slots_at base -> base <= a < base + PAGE_SIZE /\ 0 < a < 2 ^ 64.
Proof.
  intros (Hpa & Hmax & ->) (i & -> & Hi)%elem_slots. cbn in Hmax. unfold LINEAR_MAPPING_BASE_VADDR, VMALLOC_BASE_VADDR, PAGE_SIZE in *.
  assert (i * SLOT_SIZE < 4096); [|nia]. pose proof (Z.mul_div_le (4096 + SLOT_SIZE - 1) SLOT_SIZE ltac:(lia)). nia.
Qed.

(** ** The chain of free slots *)

Lemma chain_frame m m' l : forall head, (forall a, a ∈ l -> bytes m' a 8 = bytes m a 8) -> chain m head l -> chain m' head l.
Proof.
  induction l as [|a l IH]; intros head Hb; [done|]. intros [-> Hc]. split; [done|]. cbn in Hc |- *.
  unfold read_usize in *. rewrite (Hb a) by left. apply IH; [|done]. intros b Hbl. apply Hb. by right.
Qed.

Lemma chain_head m head l : chain m head l -> head = hd_error l.
Proof. destruct l; [done|]. by intros [-> _]. Qed.

Lemma chain_push m head l a : chain m head l -> (forall b, b ∈ l -> 0 < b < 2 ^ 64 /\ (a + 8 <= b \/ b + 8 <= a)) ->
  chain (write_usize m a (default 0 head)) (Some a) (a :: l).
Proof.
  intros Hc Hl. split; [done|]. cbn. pose proof (chain_head _ _ _ Hc) as Hh.
  assert (0 <= default 0 head < 2 ^ 64) as Hrange.
  { rewrite Hh. destruct l as [|b l]; cbn; [lia|]. destruct (Hl b ltac:(left)). lia. }
  rewrite read_write by done. replace (if default 0 head =? 0 then None else Some (default 0 head)) with head.
  - apply (chain_frame m); [|done]. intros b Hb. apply write_elsewhere. intros q Hq. destruct (Hl b Hb). lia.
  - rewrite Hh. destruct l as [|b l]; [done|]. cbn. destruct (Hl b ltac:(left)). by rewrite (proj2 (Z.eqb_neq b 0)) by lia.
Qed.

Lemma list_push_ok m head a : 0 < a ->
  list_push m head (mk_slot a (SlabSlot SLOT_SIZE)) = Ret (Some a, write_usize m a (default 0 head)).
Proof.
  intros Ha. unfold list_push. cbn. assert ((a =? 0) = false) as Hz by lia. rewrite Z.eqb_refl, Hz. by destruct allow_panic, debug_assertions.
Qed.

(** ** The invariant of a slab *)

(** [l] are the free slots in their order, [held] the slots in use. *)
Record slab_inv (base : Z) m (self : Slab) (l held : list Z) : Prop := {
  si_page : page_at (start_paddr self) base;
  si_chain : chain m (free_list self) l;
  si_slots : l ++ held ≡ₚ slots_at base;
  si_count : nr_allocated self = Z.of_nat (length held);
}.

Lemma inv_slots base m self l held : slab_inv base m self l held ->
  NoDup (l ++ held) /\ (forall a, a ∈ l ++ held -> a ∈ slots_at base) /\ (length l + length held = length slot_offsets)%nat.
Proof.
  intros [_ _ Hs _]. split_and!.
  - rewrite Hs. apply slots_NoDup.
  - intros a. by rewrite Hs.
  - apply Permutation_length in Hs. rewrite length_app in Hs. unfold slots_at in Hs. by rewrite length_fmap in Hs.
Qed.

(** The slots of the page have been pushed in their order. *)
Lemma push_slots pa base : page_at pa base -> forall os l m head, chain m head l ->
  NoDup (l ++ ((fun o => base + o) <$> os)) -> (forall a, a ∈ l ++ ((fun o => base + o) <$> os) -> a ∈ slots_at base) ->
  exists head' m', foldl (push_slot base) (Ret (head, m)) os = Ret (head', m') /\ chain m' head' (reverse ((fun o => base + o) <$> os) ++ l) /\
    forall q, (forall a, a ∈ (fun o => base + o) <$> os -> ~ a <= q < a + 8) -> m' q = m q.
Proof.
  intros Hpg. induction os as [|o os IH]; intros l m head Hc Hnd Hin; [by exists head, m|].
  cbn [foldl fmap list_fmap] in *. assert (base + o ∈ slots_at base) as Ho by (apply Hin; set_solver).
  destruct (heap_slot_bounds _ _ _ Hpg Ho) as [_ Hb]. unfold push_slot at 2. cbn [mbind outcome_bind]. step uadd_ok by lia.
  rewrite list_push_ok by lia.
  assert (base + o ∉ l) as Hnl by (apply NoDup_app in Hnd as (_ & Hd & _); intros Hx; apply (Hd _ Hx); by left).
  assert (chain (write_usize m (base + o) (default 0 head)) (Some (base + o)) ((base + o) :: l)) as Hc'.
  { apply chain_push; [done|]. intros b Hb'. assert (b ∈ slots_at base) as Hbs by (apply Hin; set_solver).
    split; [apply (heap_slot_bounds _ _ _ Hpg Hbs)|]. destruct (slots_apart base (base + o) b Ho Hbs ltac:(congruence)); lia. }
  destruct (IH ((base + o) :: l) _ _ Hc') as (head' & m' & Hf & Hc2 & Hmem).
  - eapply NoDup_Permutation_proper; [|exact Hnd]. apply Permutation_middle.
  - intros a Ha. apply Hin. set_solver.
  - exists head', m'. split_and!; [exact Hf| |].
    + by rewrite reverse_cons, <- (assoc_L (++)).
    + intros q Hq. rewrite Hmem by (intros a Ha; apply Hq; by right). unfold write_usize.
      destruct (put_handled m (base + o) (Z_to_little_endian 8 8 (default 0 head))) as (_ & _ & Hout). apply Hout.
      unfold within. rewrite length_usize. apply Hq. left.
Qed.

Lemma slab_new_ok pa base m : page_at pa base ->
  exists slab m', slab_new m (Some pa) = Ret (Some slab, m') /\ slab_inv base m' slab (reverse (slots_at base)) [] /\
    forall q, (forall a, a ∈ slots_at base -> ~ a <= q < a + 8) -> m' q = m q.
Proof.
  intros Hpg. pose proof Hpg as (H0 & Hmax & Hb). cbn in Hmax.
  destruct (push_slots pa base Hpg slot_offsets [] m None) as (head & m' & Hf & Hc & Hmem); [done|apply slots_NoDup|done|].
  exists (mk_slab pa head 0), m'. split_and!.
  - unfold slab_new, paddr_to_vaddr. step uadd_ok by (unfold LINEAR_MAPPING_BASE_VADDR, VMALLOC_BASE_VADDR, PAGE_SIZE in *; lia).
    rewrite <- Hb. by step Hf.
  - rewrite app_nil_r in Hc. split; [done|done| |done]. rewrite app_nil_r. apply reverse_Permutation.
  - exact Hmem.
Qed.

(** The slots that [pop] gives. *)
Lemma slab_alloc_ok base m self l held : slab_inv base m self l held ->
  match l with
  | [] => slab_alloc m self = Ret (None, self)
  | a :: l' => exists self', slab_alloc m self = Ret (Some (mk_slot a (SlabSlot SLOT_SIZE)), self') /\ slab_inv base m self' l' (a :: held)
  end.
Proof.
  intros Hinv. pose proof Hinv as [Hpg Hc Hs Hn]. destruct (inv_slots _ _ _ _ _ Hinv) as (_ & _ & Hlen). unfold slab_alloc. destruct l as [|a l'].
  { cbn in Hc. by rewrite Hc. }
  destruct Hc as [Hh Hc]. rewrite Hh. destruct nr_offsets as [Hno Hle]. unfold PAGE_SIZE in *. cbn in Hlen.
  rewrite Hh in Hc. cbn [list_pop] in Hc |- *. step uadd_ok by lia.
  eexists. split; [done|]. split; [done|done| |cbn; lia]. cbn [app] in Hs. rewrite <- Hs. cbn. symmetry. apply Permutation_middle.
Qed.

Lemma slab_dealloc_ok base m self l held1 a held2 : slab_inv base m self l (held1 ++ a :: held2) ->
  exists self' m', slab_dealloc m self (mk_slot a (SlabSlot SLOT_SIZE)) = Ret (true, self', m') /\
    slab_inv base m' self' (a :: l) (held1 ++ held2) /\ start_paddr self' = start_paddr self /\
    forall b, b ∈ slots_at base -> b <> a -> bytes m' b SLOT_SIZE = bytes m b SLOT_SIZE.
Proof.
  intros Hinv. pose proof Hinv as [Hpg Hc Hs Hn]. destruct (inv_slots _ _ _ _ _ Hinv) as (Hnd & Hin & Hlen).
  assert (a ∈ slots_at base) as Ha by (apply Hin; set_solver). destruct (heap_slot_bounds _ _ _ Hpg Ha) as [Hb Hb'].
  pose proof Hpg as (H0 & Hmax & Hbase). cbn in Hmax. unfold slab_dealloc. rewrite Hbase in Hb.
  step uadd_ok by (unfold LINEAR_MAPPING_BASE_VADDR, VMALLOC_BASE_VADDR, PAGE_SIZE in *; lia). unfold slot_paddr. cbn [addr].
  step (usub_ok a) by lia. replace ((start_paddr self <=? a - LINEAR_MAPPING_BASE_VADDR) && (a - LINEAR_MAPPING_BASE_VADDR <? start_paddr self + PAGE_SIZE)) with true
    by (symmetry; apply andb_true_iff; lia). cbn [negb]. unfold slot_size. cbn [info]. rewrite Z.eqb_refl.
  replace (debug_assert debug_assertions (Ret true)) with (Ret tt) by (by destruct debug_assertions). cbn [mbind outcome_bind].
  rewrite list_push_ok by lia. cbn [mbind outcome_bind]. rewrite Hn. rewrite length_app in Hn |- *. cbn [length] in Hn |- *. step usub_ok by lia.
  eexists _, _. split; [done|]. split_and!; [|done|].
  - split; [done| | |cbn; rewrite length_app; lia].
    + cbn. apply chain_push; [done|]. intros b Hbl. assert (b ∈ slots_at base) as Hbs by (apply Hin; set_solver).
      assert (b <> a) as Hne. { intros ->. apply NoDup_app in Hnd as (_ & Hd & _). apply (Hd _ Hbl). set_solver. }
      split; [apply (heap_slot_bounds _ _ _ Hpg Hbs)|]. destruct (slots_apart base a b Ha Hbs ltac:(congruence)); lia.
    + rewrite <- Hs. cbn. rewrite !(assoc_L (++)). apply Permutation_middle.
  - intros b Hbs Hne. apply write_elsewhere. intros q Hq. destruct (slots_apart base a b Ha Hbs ltac:(congruence)); lia.
Qed.

(** ** Histories of a slab and its users *)

(** A user allocates, gives back a slot, or writes a byte. *)
Inductive heap_op := HAlloc | HDealloc (slot : HeapSlot) | HWrite (p b : Z).
Inductive heap_res := RSlot (slot : option HeapSlot) | RDone (ok : bool) | RUnit.

Record heap_state := mk_heap { h_mem : memory; h_slab : Slab; h_held : list Z }.
Implicit Types (h : heap_state).

Definition heap_step h (op : heap_op) : outcome (heap_res * heap_state) :=
  match op with
  | HAlloc =>
      ' (slot, slab) ← slab_alloc (h_mem h) (h_slab h);
      Ret (RSlot slot, mk_heap (h_mem h) slab (from_option (fun s => addr s :: h_held h) (h_held h) slot))
  | HDealloc slot =>
      ' (ok, slab, m) ← slab_dealloc (h_mem h) (h_slab h) slot;
      Ret (RDone ok, mk_heap m slab (if ok : bool then filter (fun a => a <> addr slot) (h_held h) else h_held h))
  | HWrite p b => Ret (RUnit, mk_heap (put (h_mem h) p [b]) (h_slab h) (h_held h))
  end.

(** What a user may do: give back slots of the heap that it holds, and write to slots that it holds. *)
Definition foreign_slot h (slot : HeapSlot) : Prop :=
  LINEAR_MAPPING_BASE_VADDR <= addr slot /\
  ~ start_paddr (h_slab h) <= addr slot - LINEAR_MAPPING_BASE_VADDR < start_paddr (h_slab h) + PAGE_SIZE.

Definition legal h (op : heap_op) : Prop :=
  match op with
  | HAlloc => True
  | HDealloc slot => foreign_slot h slot \/ (addr slot ∈ h_held h /\ info slot = SlabSlot SLOT_SIZE)
  | HWrite p _ => exists a, a ∈ h_held h /\ a <= p < a + SLOT_SIZE
  end.

Inductive heap_reach (h0 : heap_state) : heap_state -> Prop :=
| heap_start : heap_reach h0 h0
| heap_next h op r h' : heap_reach h0 h -> legal h op -> heap_step h op = Ret (r, h') -> heap_reach h0 h'.

(** What an operation promises: an allocation hands out a slot that nobody holds, or there is none left;
    a slot that is given back can be handed out again, a slot of another slab is refused; the
    contents of the slots in use stay. *)
Definition heap_post (base : Z) h (op : heap_op) (r : heap_res) h' : Prop :=
  match op with
  | HAlloc =>
      h_mem h' = h_mem h /\
      if decide (length (h_held h) = length slot_offsets) then r = RSlot None /\ h_held h' = h_held h
      else exists a, r = RSlot (Some (mk_slot a (SlabSlot SLOT_SIZE))) /\ a ∈ slots_at base /\ a ∉ h_held h /\ h_held h' = a :: h_held h
  | HDealloc slot =>
      (foreign_slot h slot -> r = RDone false /\ h' = h) /\
      (addr slot ∈ h_held h -> r = RDone true /\ (forall a, a ∈ h_held h' <-> a ∈ h_held h /\ a <> addr slot) /\
         forall a, a ∈ h_held h' -> bytes (h_mem h') a SLOT_SIZE = bytes (h_mem h) a SLOT_SIZE)
  | HWrite p b => h_held h' = h_held h /\ h_mem h' = put (h_mem h) p [b]
  end.

Definition heap_inv (base : Z) h : Prop := exists l, slab_inv base (h_mem h) (h_slab h) l (h_held h).

Lemma filter_ne (l : list Z) a : a ∉ l -> filter (fun x : Z => x <> a) l = l.
Proof.
  induction l as [|b l IH]; [done|]. intros [Hb Hl]%not_elem_of_cons. rewrite filter_cons, decide_True by congruence. by rewrite IH.
Qed.

Lemma filter_remove (l h1 : list Z) a (h2 : list Z) : NoDup (l ++ h1 ++ a :: h2) -> filter (fun x : Z => x <> a) (h1 ++ a :: h2) = h1 ++ h2.
Proof.
  intros (_ & _ & (_ & Hd & [Ha _]%NoDup_cons)%NoDup_app)%NoDup_app. rewrite filter_app, filter_cons, decide_False by (intros Hc; by apply Hc).
  rewrite !filter_ne; [done|done|]. intros Hx. apply (Hd a Hx). left.
Qed.

Lemma foreign_refused base h slot : page_at (start_paddr (h_slab h)) base -> foreign_slot h slot ->
  slab_dealloc (h_mem h) (h_slab h) slot = Ret (false, h_slab h, h_mem h).
Proof.
  intros (H0 & Hmax & _) [Hlo Hf]. cbn in Hmax. unfold slab_dealloc.
  step uadd_ok by (unfold LINEAR_MAPPING_BASE_VADDR, VMALLOC_BASE_VADDR, PAGE_SIZE in *; lia). unfold slot_paddr. step (usub_ok (addr slot)) by lia.
  destruct (_ && _) eqn:Hc; [|done]. apply andb_true_iff in Hc. lia.
Qed.

Lemma held_not_foreign base h l slot : slab_inv base (h_mem h) (h_slab h) l (h_held h) -> addr slot ∈ h_held h -> ~ foreign_slot h slot.
Proof.
  intros Hinv Ha [_ Hf]. destruct (inv_slots _ _ _ _ _ Hinv) as (_ & Hin & _).
  assert (addr slot ∈ slots_at base) as Hs by (apply Hin, elem_of_app; by right).
  destruct (heap_slot_bounds _ _ _ (si_page _ _ _ _ _ Hinv) Hs) as [Hb _]. destruct (si_page _ _ _ _ _ Hinv) as (_ & _ & ->). lia.
Qed.

Lemma heap_step_ok base h op : heap_inv base h -> legal h op ->
  exists r h', heap_step h op = Ret (r, h') /\ heap_post base h op r h' /\ heap_inv base h'.
Proof.
  intros [l Hinv] Hl. pose proof (inv_slots _ _ _ _ _ Hinv) as (Hnd & Hin & Hlen). destruct op as [|slot|p b]; unfold heap_step.
  - pose proof (slab_alloc_ok _ _ _ _ _ Hinv) as Ha. destruct l as [|a l].
    + step Ha. eexists _, _. split; [done|]. split; [|by exists []]. split; [done|]. rewrite decide_True by (cbn in Hlen; lia). done.
    + destruct Ha as (slab & Ha & Hinv'). step Ha. eexists _, _. split; [done|]. split; [|by exists l]. split; [done|].
      rewrite decide_False by (cbn in Hlen; lia). exists a. split_and!; [done|apply Hin; left| |done].
      apply NoDup_app in Hnd as (_ & Hd & _). apply Hd. left.
  - destruct (decide (addr slot ∈ h_held h)) as [Hh|Hh].
    + pose proof (held_not_foreign _ _ _ _ Hinv Hh) as Hnf. destruct Hl as [Hf|[_ Hi]]; [done|]. destruct slot as [a i]. cbn in Hh, Hi. subst i.
      apply list_elem_of_split in Hh as (h1 & h2 & Heq). pose proof Hinv as Hinv'. rewrite Heq in Hinv'.
      destruct (slab_dealloc_ok _ _ _ _ _ _ _ Hinv') as (slab & m' & Hd & Hinv2 & _ & Hb). step Hd. cbn [addr].
      assert (filter (fun x => x <> a) (h_held h) = h1 ++ h2) as Hfil.
      { rewrite Heq in Hnd |- *. by apply filter_remove with (l := l). }
      eexists _, _. split; [done|]. split; [|exists (a :: l); cbn; by rewrite Hfil]. split; [done|]. intros _. split; [done|]. cbn [h_held h_mem addr]. split.
      * intros x. rewrite list_elem_of_filter. tauto.
      * intros x [Hx Hxh]%list_elem_of_filter. apply Hb; [|done]. apply Hin, elem_of_app. by right.
    + destruct Hl as [Hf|[? _]]; [|done]. rewrite (foreign_refused base) by (done || apply Hinv). cbn [mbind outcome_bind].
      eexists _, _. split; [done|]. split; [|by exists l]. split; [by destruct h|done].
  - destruct Hl as (a & Ha & Hp). eexists _, _. split; [done|]. split; [done|]. exists l. cbn [h_mem h_slab h_held].
    destruct Hinv as [Hpg Hc Hs Hn]. split; try done. apply (chain_frame (h_mem h)); [|done].
    intros x Hx. assert (x <> a) as Hne. { intros ->. apply NoDup_app in Hnd as (_ & Hd & _). by apply (Hd _ Hx). }
    eapply handled_outside; [apply put_handled|]. intros q Hq. unfold within in *. cbn [length].
    destruct (slots_apart base a x) as [|]; [apply Hin, elem_of_app; by right|apply Hin, elem_of_app; by left|done|lia|lia].
Qed.

(** C21: a new slab and its users refine a pool of slots.  [Slab::new] succeeds with any frame; whatever legal operations
    follow, in any order, the slots in use are different slots of the slab, at least a slot size apart, the count is
    their number, the slab can be dropped exactly when there are none, and every further legal operation returns: an
    allocation with a slot that nobody holds unless all are in use, a deallocation with the slot made free again and the
    contents of all other slots in use unchanged, that of a slot from elsewhere with an error.  The free list is kept in
    the free slots themselves. *)
Theorem slab_refines_pool pa base m : page_at pa base ->
  exists slab m', slab_new m (Some pa) = Ret (Some slab, m') /\
  forall h, heap_reach (mk_heap m' slab []) h ->
    NoDup (h_held h) /\
    (forall a b, a ∈ h_held h -> b ∈ h_held h -> a <> b -> a + SLOT_SIZE <= b \/ b + SLOT_SIZE <= a) /\
    nr_allocated (h_slab h) = Z.of_nat (length (h_held h)) /\
    (slab_on_drop (h_slab h) = Ret tt <-> h_held h = []) /\
    forall op, legal h op -> exists r h', heap_step h op = Ret (r, h') /\ heap_post base h op r h'.
Proof.
  intros Hpg. destruct (slab_new_ok pa base m Hpg) as (slab & m' & Hn & Hinv & _). exists slab, m'. split; [done|].
  intros h Hr. assert (heap_inv base h) as [l Hi].
  { induction Hr as [|h op r h' _ IH Hl Hs]; [by eexists|]. destruct (heap_step_ok _ _ _ IH Hl) as (r' & h2 & Hs' & _ & Hinv'). congruence. }
  destruct (inv_slots _ _ _ _ _ Hi) as (Hnd & Hin & _). split_and!.
  - by apply NoDup_app in Hnd as (_ & _ & ?).
  - intros a b Ha Hb. apply (slots_apart base); apply Hin, elem_of_app; by right.
  - apply Hi.
  - unfold slab_on_drop, rassert. rewrite (si_count _ _ _ _ _ Hi). destruct (h_held h) as [|a l']; [done|]. split; [|done]. cbn [length].
    by destruct (Z.eqb_spec (Z.of_nat (S (length l'))) 0); [lia|].
  - intros op Hl. destruct (heap_step_ok base h op) as (r & h' & ? & ? & _); [by exists l|done|]. by exists r, h'.
Qed.

Lemma slots_last base : reverse (slots_at base) !! 0%nat = Some (base + ((PAGE_SIZE + SLOT_SIZE - 1) / SLOT_SIZE - 1) * SLOT_SIZE).
Proof.
  destruct nr_offsets as [Hlen Hb]. unfold slots_at. rewrite reverse_lookup by (rewrite length_fmap; lia).
  rewrite length_fmap, list_lookup_fmap. replace (length slot_offsets - 1)%nat with (Z.to_nat ((PAGE_SIZE + SLOT_SIZE - 1) / SLOT_SIZE - 1)) by lia.
  unfold slot_offsets. rewrite list_lookup_fmap, lookup_seqZ_lt by lia. cbn. by rewrite Z2Nat.id by lia.
Qed.

(** C22: the slots of a slab lie in its page exactly when the slot size divides the page size.  Then there are [capacity] many,
    and [new] writes nothing outside of the page.  Otherwise the loop of [new] makes one slot more than the
    capacity, which reaches over the end of the page, and the first allocation hands it out: the compile-time assertions
    of [new] do not exclude such sizes. *)
Theorem slab_slots_bounds pa base m : page_at pa base ->
  exists slab m', slab_new m (Some pa) = Ret (Some slab, m') /\
  (PAGE_SIZE mod SLOT_SIZE = 0 ->
     Z.of_nat (length slot_offsets) = capacity /\ (forall a, a ∈ slots_at base -> base <= a /\ a + SLOT_SIZE <= base + PAGE_SIZE) /\
     forall q, ~ base <= q < base + PAGE_SIZE -> m' q = m q) /\
  (PAGE_SIZE mod SLOT_SIZE <> 0 ->
     Z.of_nat (length slot_offsets) = capacity + 1 /\
     exists a slab', slab_alloc m' slab = Ret (Some (mk_slot a (SlabSlot SLOT_SIZE)), slab') /\ a < base + PAGE_SIZE < a + SLOT_SIZE).
Proof.
  intros Hpg. destruct (slab_new_ok pa base m Hpg) as (slab & m' & Hn & Hinv & Hmem). exists slab, m'. split; [done|].
  destruct nr_offsets as [Hlen Hb]. pose proof (Z.div_mod PAGE_SIZE SLOT_SIZE ltac:(lia)) as Hdm. pose proof (Z.mod_pos_bound PAGE_SIZE SLOT_SIZE ltac:(lia)) as Hmb.
  assert (capacity = PAGE_SIZE / SLOT_SIZE) as Hcap.
  { unfold capacity. apply Z.mod_small. unfold PAGE_SIZE in *. split; [apply Z.div_pos; lia|]. apply Z.div_lt_upper_bound; lia. }
  rewrite Hlen, Hcap. split; intros Hd.
  - assert ((PAGE_SIZE + SLOT_SIZE - 1) / SLOT_SIZE = PAGE_SIZE / SLOT_SIZE) as Hq.
    { symmetry. apply Z.div_unique with (SLOT_SIZE - 1); lia. }
    assert (forall a, a ∈ slots_at base -> base <= a /\ a + SLOT_SIZE <= base + PAGE_SIZE) as Hin.
    { intros a (i & -> & Hi)%elem_slots. rewrite Hq in Hi. nia. }
    split_and!; [done|done|]. intros q Hout. apply Hmem. intros a Ha. specialize (Hin a Ha). lia.
  - assert ((PAGE_SIZE + SLOT_SIZE - 1) / SLOT_SIZE = PAGE_SIZE / SLOT_SIZE + 1) as Hq.
    { symmetry. apply Z.div_unique with (PAGE_SIZE mod SLOT_SIZE - 1); lia. }
    split; [done|]. pose proof (slots_last base) as Hlast. pose proof (slab_alloc_ok _ _ _ _ _ Hinv) as Ha.
    destruct (reverse (slots_at base)) as [|a l]; [done|]. injection Hlast as ->. destruct Ha as (slab' & Ha & _).
    eexists _, slab'. split; [exact Ha|]. rewrite Hq. nia.
Qed.
End slab.

(** ** Large slots *)

Section large.
Context (allow_panic debug_assertions : bool).
(** [FrameAllocOptions::alloc_segment_with], forgotten by [into_raw]: the range of the frames. *)
Context (alloc_segment : Z -> option range).

Definition alloc_large (size : Z) : outcome (option HeapSlot) :=
  _ ← (if allow_panic then rassert (size mod PAGE_SIZE =? 0) else Ret tt);
  let nframes := size / PAGE_SIZE in
  match alloc_segment nframes with
  | None => Ret None
  | Some paddr_range =>
      vaddr ← paddr_to_vaddr (r_start paddr_range);
      _ ← rassert (negb (vaddr =? 0));
      Ret (Some (mk_slot vaddr (LargeSlot size)))
  end.

(** The range of the segment that is restored and dropped; nothing is the return with the feature off. *)
Definition dealloc_large (self : HeapSlot) : outcome (option range) :=
  match info self with
  | SlabSlot _ => if allow_panic then Panic else Ret None
  | LargeSlot size =>
      _ ← debug_assert debug_assertions (Ret (size mod PAGE_SIZE =? 0));
      _ ← debug_assert debug_assertions (pa ← slot_paddr self; Ret (pa mod PAGE_SIZE =? 0));
      start ← slot_paddr self;
      pa ← slot_paddr self;
      end_ ← uadd 64 pa size;
      Ret (Some (mk_range start end_))
  end.

(** What [alloc_segment_with] documents: as many frames as asked for, next to one another, in memory. *)
Context (alloc_segment_law : forall n r, alloc_segment n = Some r ->
  0 <= r_start r /\ r_start r mod PAGE_SIZE = 0 /\ r_end r = r_start r + n * PAGE_SIZE /\
  r_end r <= VMALLOC_BASE_VADDR - LINEAR_MAPPING_BASE_VADDR).

(** Deallocating a large slot releases exactly the segment it was allocated from. *)
Theorem large_slot_roundtrip size r : 0 <= size -> size mod PAGE_SIZE = 0 -> alloc_segment (size / PAGE_SIZE) = Some r ->
  exists slot, alloc_large size = Ret (Some slot) /\ slot_size slot = size /\ dealloc_large slot = Ret (Some r).
Proof.
  intros H0 Hal Hs. destruct (alloc_segment_law _ _ Hs) as (Hlo & Hra & Hend & Hmax). exists (mk_slot (r_start r + LINEAR_MAPPING_BASE_VADDR) (LargeSlot size)).
  assert (size / PAGE_SIZE * PAGE_SIZE = size) as Hsz by (unfold PAGE_SIZE in *; Z.to_euclidean_division_equations; lia). rewrite Hsz in Hend.
  assert (r_start r + size < 2 ^ 63) as Hb by (unfold LINEAR_MAPPING_BASE_VADDR, VMALLOC_BASE_VADDR in *; lia). split_and!; [|done|].
  - unfold alloc_large, rassert, paddr_to_vaddr. rewrite Hal, Hs. replace (if allow_panic then _ else _) with (Ret tt) by (by destruct allow_panic).
    cbn [mbind outcome_bind]. step uadd_ok by (unfold LINEAR_MAPPING_BASE_VADDR, VMALLOC_BASE_VADDR in *; lia).
    assert ((r_start r + LINEAR_MAPPING_BASE_VADDR =? 0) = false) as -> by (unfold LINEAR_MAPPING_BASE_VADDR; lia). done.
  - unfold dealloc_large, slot_paddr. cbn [info addr]. rewrite Hal. rewrite usub_ok by lia. replace (_ + _ - _) with (r_start r) by lia. cbn [mbind outcome_bind].
    rewrite Hra. replace (debug_assert debug_assertions _) with (Ret tt) by (by destruct debug_assertions). cbn [mbind outcome_bind].
    step uadd_ok by lia. rewrite <- Hend. by destruct r.
Qed.
End large.

(** ** The global allocator *)

Section dispatch.
(** The injected functions: the map from layouts to slots, and the allocator with its state. *)
Context {S : Type} (slot_size_from_layout : Layout -> option SlotInfo).
Context (ga_alloc : S -> Layout -> option HeapSlot * S) (ga_dealloc : S -> HeapSlot -> bool * S).

(** The null pointer is [0]; aborting is a panic. *)
Definition dispatch_alloc (s : S) (layout : Layout) : outcome (Z * S) :=
  match slot_size_from_layout layout with
  | None => Panic
  | Some required_slot =>
      match ga_alloc s layout with
      | (None, s') => Ret (0, s')
      | (Some slot, s') =>
          if negb (info_size required_slot =? slot_size slot) || (slot_size slot <? layout_size layout)
             || negb (addr slot mod layout_align layout =? 0)
          then Panic else Ret (addr slot, s')
      end
  end.

Definition dispatch_dealloc (s : S) (ptr : Z) (layout : Layout) : outcome S :=
  match slot_size_from_layout layout with
  | None => Panic
  | Some required_slot =>
      let slot := mk_slot ptr required_slot in
      let '(ok, s') := ga_dealloc s slot in
      if ok then Ret s' else Panic
  end.

(** Memory that is handed out fits its layout, whatever the injected allocator does.  The slot that deallocation
    restores from the pointer and the layout is the one that was allocated if it has the required kind; sizes alone are
    checked, so a large slot may come back as a slab slot of the same size. *)
Theorem dispatch_checked s layout p s' : dispatch_alloc s layout = Ret (p, s') ->
  (fst (ga_alloc s layout) = None /\ p = 0) \/
  exists slot required, ga_alloc s layout = (Some slot, s') /\ p = addr slot /\ slot_size_from_layout layout = Some required /\
    layout_size layout <= slot_size slot /\ p mod layout_align layout = 0 /\ info_size required = slot_size slot /\
    (mk_slot p required = slot <-> info slot = required) /\
    forall t, dispatch_dealloc t p layout = (let '(ok, t') := ga_dealloc t (mk_slot p required) in if ok then Ret t' else Panic).
Proof.
  unfold dispatch_alloc, dispatch_dealloc. destruct (slot_size_from_layout layout) as [req|]; [|done].
  destruct (ga_alloc s layout) as [[slot|] s1]; [|by intros [= <- <-]; left].
  destruct (_ || _) eqn:Hc; [done|]. intros [= <- <-]. right. apply orb_false_iff in Hc as [[Hc1 Hc2]%orb_false_iff Hc3].
  exists slot, req. split_and!; try done; [lia|lia|lia|]. destruct slot as [a i]; cbn. split; [by intros [= ->]|by intros ->].
Qed.
End dispatch.

(** ** Examples *)

Module HeapExample.

(** The first page of physical memory. *)
Lemma first_page : page_at 0x5000 (0x5000 + LINEAR_MAPPING_BASE_VADDR).
Proof. split_and!; [lia| |done]. cbn. unfold LINEAR_MAPPING_BASE_VADDR, VMALLOC_BASE_VADDR, PAGE_SIZE. lia. Qed.

Lemma slab_refines_pool_witness :
  exists slab m', slab_new 64 true true (fun _ => 0) (Some 0x5000) = Ret (Some slab, m') /\
    exists a h', heap_step 64 true true (mk_heap m' slab []) HAlloc = Ret (RSlot (Some (mk_slot a (SlabSlot 64))), h') /\ h_held h' = [a].
Proof.
  destruct (slab_refines_pool 64 true true ltac:(unfold PAGE_SIZE; lia) 0x5000 _ (fun _ => 0) first_page) as (slab & m' & Hn & Hh).
  exists slab, m'. split; [exact Hn|].
  destruct (Hh _ (heap_start _ _ _ _)) as (_ & _ & _ & _ & Hop). destruct (Hop HAlloc I) as (r & h' & Hs & _ & Hpost).
  destruct (decide (length (h_held (mk_heap m' slab [])) = length (slot_offsets 64))) as [He|_]; [discriminate He|].
  destruct Hpost as (a & -> & _ & _ & Hheld). exists a, h'. split; [exact Hs|exact Hheld].
Defined.

(** Slots of 3000 bytes: the second one reaches over the end of the page, and is handed out first. *)
Lemma slab_slots_bounds_witness :
  exists slab m' a slab', slab_new 3000 true true (fun _ => 0) (Some 0x5000) = Ret (Some slab, m') /\
    slab_alloc 3000 m' slab = Ret (Some (mk_slot a (SlabSlot 3000)), slab') /\ a + 3000 > 0x5000 + LINEAR_MAPPING_BASE_VADDR + PAGE_SIZE.
Proof.
  destruct (slab_slots_bounds 3000 true true ltac:(unfold PAGE_SIZE; lia) 0x5000 _ (fun _ => 0) first_page) as (slab & m' & Hn & _ & Hover).
  destruct (Hover ltac:(vm_compute; discriminate)) as (_ & a & slab' & Ha & Hb). exists slab, m', a, slab'. split_and!; [exact Hn|exact Ha|lia].
Defined.
End HeapExample.
