(* ===== verification/FrameList.v ===== *)
(** * [ostd/src/mm/frame/linked_list.rs]: lists of frames

    A [LinkedList] threads a doubly linked list through the metadata slots of
    the frames that it owns, and marks each slot with the id of its list.  A
    cursor inserts and removes frames at any place of it.

    The memory is the map of the slots of [FrameMeta], by their addresses, with
    the allocator of list ids; a frame handle is the address of its slot.
    The abstract view of a list is the sequence of its frames.  The theorems show
    that histories of operations on any number of lists answer as on sequences,
    and that the destructor gives all frames back. *)

From S2P Require Import Prelude Agents AlignExt Paging FrameMeta.
Open Scope Z_scope.

Section frame_list.
(** The metadata of the frames. *)
Context {M : Type}.

Record Link := mk_link { next : option Z; prev : option Z; lmeta : M }.

Definition link_new (meta : M) : Link := mk_link None None meta.

Record LinkedList := mk_list { front : option Z; back : option Z; lsize : Z; list_id : Z }.

Record CursorMut := mk_cur { clist : LinkedList; current : option Z }.

(** The slots that are not listed have never been used. *)
Record heap := mk_heap { slots : gmap Z (MetaSlot Link); list_id_allocator : Z }.

Implicit Types (h : heap) (l : LinkedList) (c : CursorMut) (p id : Z) (s : MetaSlot Link).

Definition slot_at h p : MetaSlot Link := default unused_slot (slots h !! p).
Definition set_slot h p s : heap := mk_heap (<[p := s]> (slots h)) (list_id_allocator h).

(** [borrow_meta] and assignments through [borrow_meta_mut]. *)
Definition borrow_meta h p : outcome Link := unwrap (storage (slot_at h p)).
Definition update_meta h p (f : Link -> Link) : outcome heap :=
  let s := slot_at h p in
  link ← unwrap (storage s);
  Ret (set_slot h p (mk_slot (Some (f link)) (ref_count s) (vtable_ptr s) (in_list s))).

Definition set_next (v : option Z) (link : Link) : Link := mk_link v (prev link) (lmeta link).
Definition set_prev (v : option Z) (link : Link) : Link := mk_link (next link) v (lmeta link).

Definition store_in_list h p id : heap :=
  let s := slot_at h p in set_slot h p (mk_slot (storage s) (ref_count s) (vtable_ptr s) id).

(** ** Lists and cursors *)

Definition list_new : LinkedList := mk_list None None 0 0.
Definition size l : Z := lsize l.
Definition is_empty l : bool := lsize l =? 0.

Definition with_front l (v : option Z) : LinkedList := mk_list v (back l) (lsize l) (list_id l).
Definition with_back l (v : option Z) : LinkedList := mk_list (front l) v (lsize l) (list_id l).
Definition with_size l (n : Z) : LinkedList := mk_list (front l) (back l) n (list_id l).

Definition MAX_LIST_ID : Z := 2 ^ 63 - 1.

(** The function has no compiled body and follows the one in its comment. *)
Definition lazy_get_id h l : outcome (Z * LinkedList * heap) :=
  if list_id l =? 0 then
    let id := list_id_allocator h in
    let h' := mk_heap (slots h) ((id + 1) mod 2 ^ 64) in
    if MAX_LIST_ID <=? id then Panic
    else Ret (id, mk_list (front l) (back l) (lsize l) id, h')
  else Ret (list_id l, l, h).

Definition cursor_front_mut l : CursorMut := mk_cur l (front l).
Definition cursor_back_mut l : CursorMut := mk_cur l (back l).
Definition cursor_at_ghost_mut l : CursorMut := mk_cur l None.

(** Whether the slot of a frame carries the id of the list. *)
Definition contains h l (frame : Z) : outcome (bool * LinkedList * heap) :=
  r ← get_slot frame;
  match r with
  | inr _ => Ret (false, l, h)
  | inl slot =>
      ' (id, l', h') ← lazy_get_id h l;
      Ret (in_list (slot_at h' slot) =? id, l', h')
  end.

Definition cursor_mut_at h l (frame : Z) : outcome (option CursorMut * LinkedList * heap) :=
  r ← get_slot frame;
  match r with
  | inr _ => Ret (None, l, h)
  | inl slot =>
      ' (id, l', h') ← lazy_get_id h l;
      if in_list (slot_at h' slot) =? id then
        meta_ptr ← frame_to_meta frame;
        Ret (Some (mk_cur l' (Some meta_ptr)), l', h')
      else Ret (None, l', h')
  end.

Definition move_next h c : outcome CursorMut :=
  current' ← match current c with Some p => link ← borrow_meta h p; Ret (next link) | None => Ret (front (clist c)) end;
  Ret (mk_cur (clist c) current').

Definition move_prev h c : outcome CursorMut :=
  current' ← match current c with Some p => link ← borrow_meta h p; Ret (prev link) | None => Ret (back (clist c)) end;
  Ret (mk_cur (clist c) current').

(** The metadata under the cursor, with what the caller makes of it. *)
Definition current_meta h c (f : M -> M) : outcome (option M * heap) :=
  match current c with
  | Some p =>
      link ← borrow_meta h p;
      h' ← update_meta h p (fun k => mk_link (next k) (prev k) (f (lmeta k)));
      Ret (Some (lmeta link), h')
  | None => Ret (None, h)
  end.

(** The neighbours of a frame that is removed are linked to each other. *)
Definition unlink h l (next_ptr prev_ptr : option Z) : outcome (LinkedList * heap) :=
  ' (l1, h1) ← match prev_ptr with
               | Some p => h1 ← update_meta h p (set_next next_ptr); Ret (l, h1)
               | None => Ret (with_front l next_ptr, h)
               end;
  match next_ptr with
  | Some n => h2 ← update_meta h1 n (set_prev prev_ptr); Ret (l1, h2)
  | None => Ret (with_back l1 prev_ptr, h1)
  end.

(** Removing the frame under the cursor; the handle is made from its physical address. *)
Definition take_current h c : outcome (option Z * CursorMut * heap) :=
  match current c with
  | None => Ret (None, c, h)
  | Some cur =>
      paddr ← meta_to_frame cur;
      frame ← frame_to_meta paddr;
      link ← borrow_meta h frame;
      let next_ptr := next link in
      let prev_ptr := prev link in
      ' (l1, h1) ← unlink h (clist c) next_ptr prev_ptr;
      h2 ← update_meta h1 frame (set_next None);
      h3 ← update_meta h2 frame (set_prev None);
      let h4 := store_in_list h3 frame 0 in
      n ← usub (lsize l1) 1;
      Ret (Some frame, mk_cur (with_size l1 n) next_ptr, h4)
  end.

(** A frame is linked between the one under the cursor and its predecessor. *)
Definition link_before h c (frame : Z) : outcome (LinkedList * heap) :=
  let l := clist c in
  match current c with
  | Some cur =>
      link ← borrow_meta h cur;
      match prev link with
      | Some prv =>
          h1 ← update_meta h frame (set_prev (Some prv));
          h2 ← update_meta h1 frame (set_next (Some cur));
          h3 ← update_meta h2 prv (set_next (Some frame));
          h4 ← update_meta h3 cur (set_prev (Some frame));
          Ret (l, h4)
      | None =>
          h1 ← update_meta h frame (set_next (Some cur));
          h2 ← update_meta h1 cur (set_prev (Some frame));
          Ret (with_front l (Some frame), h2)
      end
  | None =>
      match back l with
      | Some bk =>
          h1 ← update_meta h frame (set_prev (Some bk));
          h2 ← update_meta h1 bk (set_next (Some frame));
          Ret (with_back l (Some frame), h2)
      | None => Ret (with_back (with_front l (Some frame)) (Some frame), h)
      end
  end.

Definition insert_before h c (frame : Z) : outcome (CursorMut * heap) :=
  ' (l1, h1) ← link_before h c frame;
  ' (id, l2, h2) ← lazy_get_id h1 l1;
  let h3 := store_in_list h2 frame id in
  n ← uadd 64 (lsize l2) 1;
  Ret (mk_cur (with_size l2 n) (current c), h3).

Definition push_front h l (frame : Z) : outcome (LinkedList * heap) :=
  ' (c, h') ← insert_before h (cursor_front_mut l) frame; Ret (clist c, h').
Definition push_back h l (frame : Z) : outcome (LinkedList * heap) :=
  ' (c, h') ← insert_before h (cursor_at_ghost_mut l) frame; Ret (clist c, h').
Definition pop_front h l : outcome (option Z * LinkedList * heap) :=
  ' (r, c, h') ← take_current h (cursor_front_mut l); Ret (r, clist c, h').
Definition pop_back h l : outcome (option Z * LinkedList * heap) :=
  ' (r, c, h') ← take_current h (cursor_back_mut l); Ret (r, clist c, h').

(** The destructor: every frame is removed and dropped. *)
Fixpoint drop_loop (n : nat) h c : outcome (CursorMut * heap) :=
  match n with
  | O => Panic
  | S n' =>
      ' (entry, c', h') ← take_current h c;
      match entry with
      | Some frame => drop_loop n' (set_slot h' frame (unique_drop (slot_at h' frame))) c'
      | None => Ret (c', h')
      end
  end.

Definition drop_list h l : outcome heap :=
  ' (_, h') ← drop_loop (S (Z.to_nat (lsize l))) h (cursor_front_mut l); Ret h'.

(** ** Histories *)

(** The memory and the lists, by names. *)
Definition world : Type := heap * gmap nat LinkedList.

Inductive cursor_cmd := MoveNext | MovePrev | Insert (p : Z) | Take | Meta (f : M -> M).
Inductive place := AtFront | AtBack | AtFrame (frame : Z).

Inductive op :=
| Alloc (frame : Z) (m : M)      (* [UniqueFrame::from_unused] with [Link::new] *)
| Release (p : Z)                (* [UniqueFrame::drop] *)
| NewList (j : nat)
| DropList (j : nat)
| PushFront (j : nat) (p : Z)
| PushBack (j : nat) (p : Z)
| PopFront (j : nat)
| PopBack (j : nat)
| Size (j : nat)
| Contains (j : nat) (frame : Z)
| Edit (j : nat) (pl : place) (cmds : list cursor_cmd).

Inductive answer :=
| Done
| Truth (b : bool)
| Number (n : Z)
| Handle (o : option Z)
| Value (o : option M)
| Allocated (r : Z + GetFrameError)
| NoCursor
| Answers (l : list answer).

Definition exec_cursor h c (cmd : cursor_cmd) : outcome (answer * CursorMut * heap) :=
  match cmd with
  | MoveNext => c' ← move_next h c; Ret (Done, c', h)
  | MovePrev => c' ← move_prev h c; Ret (Done, c', h)
  | Insert p => ' (c', h') ← insert_before h c p; Ret (Done, c', h')
  | Take => ' (r, c', h') ← take_current h c; Ret (Handle r, c', h')
  | Meta f => ' (r, h') ← current_meta h c f; Ret (Value r, c, h')
  end.

Fixpoint exec_script h c (cmds : list cursor_cmd) : outcome (list answer * CursorMut * heap) :=
  match cmds with
  | [] => Ret ([], c, h)
  | cmd :: cmds' =>
      ' (a, c1, h1) ← exec_cursor h c cmd;
      ' (l, c2, h2) ← exec_script h1 c1 cmds';
      Ret (a :: l, c2, h2)
  end.

Definition open_cursor h l (pl : place) : outcome (option CursorMut * LinkedList * heap) :=
  match pl with
  | AtFront => Ret (Some (cursor_front_mut l), l, h)
  | AtBack => Ret (Some (cursor_back_mut l), l, h)
  | AtFrame frame => cursor_mut_at h l frame
  end.

Definition exec (w : world) (o : op) : outcome (answer * world) :=
  let '(h, ls) := w in
  match o with
  | Alloc frame m =>
      slot ← get_slot frame;
      match slot with
      | inr err => Ret (Allocated (inr err), w)
      | inl p => ' (s, r) ← get_from_unused frame (link_new m) true (slot_at h p); Ret (Allocated r, (set_slot h p s, ls))
      end
  | Release p => Ret (Done, (set_slot h p (unique_drop (slot_at h p)), ls))
  | NewList j => Ret (Done, (h, <[j := list_new]> ls))
  | DropList j => l ← unwrap (ls !! j); h' ← drop_list h l; Ret (Done, (h', delete j ls))
  | PushFront j p => l ← unwrap (ls !! j); ' (l', h') ← push_front h l p; Ret (Done, (h', <[j := l']> ls))
  | PushBack j p => l ← unwrap (ls !! j); ' (l', h') ← push_back h l p; Ret (Done, (h', <[j := l']> ls))
  | PopFront j => l ← unwrap (ls !! j); ' (r, l', h') ← pop_front h l; Ret (Handle r, (h', <[j := l']> ls))
  | PopBack j => l ← unwrap (ls !! j); ' (r, l', h') ← pop_back h l; Ret (Handle r, (h', <[j := l']> ls))
  | Size j => l ← unwrap (ls !! j); Ret (Number (size l), w)
  | Contains j frame => l ← unwrap (ls !! j); ' (b, l', h') ← contains h l frame; Ret (Truth b, (h', <[j := l']> ls))
  | Edit j pl cmds =>
      l ← unwrap (ls !! j);
      ' (cur, l', h') ← open_cursor h l pl;
      match cur with
      | None => Ret (NoCursor, (h', <[j := l']> ls))
      | Some c => ' (l, c', h'') ← exec_script h' c cmds; Ret (Answers l, (h'', <[j := clist c']> ls))
      end
  end.

Fixpoint run (w : world) (os : list op) : outcome (list answer * world) :=
  match os with
  | [] => Ret ([], w)
  | o :: os' => ' (a, w1) ← exec w o; ' (l, w2) ← run w1 os'; Ret (a :: l, w2)
  end.

(** No frame is in use, and there are no lists. *)
Definition boot_world : world := (mk_heap ∅ 1, ∅).

(** *** The same on sequences *)

(** The sequences of the lists, and the metadata of the frames in use. *)
Record view := mk_view { seqs : gmap nat (list Z); values : gmap Z M }.

(** The frame is in use and in no list: its owner has the handle. *)
Definition loose_in (v : view) p : Prop := p ∈ dom (values v) /\ map_Forall (fun _ xs => p ∉ xs) (seqs v).

Definition ins (i : nat) p (xs : list Z) : list Z := take i xs ++ p :: drop i xs.

Definition listed p (xs : list Z) : bool := bool_decide (p ∈ xs).

Definition spec_cursor (v : view) (j i : nat) (cmd : cursor_cmd) : option (answer * view * nat) :=
  xs ← seqs v !! j;
  match cmd with
  | MoveNext => Some (Done, v, if (i <? length xs)%nat then S i else 0%nat)
  | MovePrev => Some (Done, v, if (i =? 0)%nat then length xs else Nat.pred i)
  | Insert p => if decide (loose_in v p) then Some (Done, mk_view (<[j := ins i p xs]> (seqs v)) (values v), S i) else None
  | Take =>
      match xs !! i with
      | Some p => Some (Handle (Some p), mk_view (<[j := delete i xs]> (seqs v)) (values v), i)
      | None => Some (Handle None, v, i)
      end
  | Meta f =>
      match xs !! i with
      | Some p => m ← values v !! p; Some (Value (Some m), mk_view (seqs v) (<[p := f m]> (values v)), i)
      | None => Some (Value None, v, i)
      end
  end.

Fixpoint spec_script (v : view) (j i : nat) (cmds : list cursor_cmd) : option (list answer * view) :=
  match cmds with
  | [] => Some ([], v)
  | cmd :: cmds' =>
      ' (a, v1, i1) ← spec_cursor v j i cmd;
      ' (l, v2) ← spec_script v1 j i1 cmds';
      Some (a :: l, v2)
  end.

(** The slot of an address, which is not negative. *)
Definition spec_slot (frame : Z) : option (Z + GetFrameError) :=
  if decide (0 <= frame) then match get_slot frame with Ret r => Some r | Panic => None end else None.

Definition spec_place (xs : list Z) (pl : place) : option (option nat) :=
  match pl with
  | AtFront => Some (Some 0%nat)
  | AtBack => Some (Some (Nat.pred (length xs)))
  | AtFrame frame => r ← spec_slot frame; Some (match r with inl p => fst <$> list_find (eq p) xs | inr _ => None end)
  end.

Definition spec (v : view) (o : op) : option (answer * view) :=
  match o with
  | Alloc frame m =>
      r ← spec_slot frame;
      Some (match r with
            | inr err => (Allocated (inr err), v)
            | inl p => match values v !! p with
                       | Some _ => (Allocated (inr Unique), v)
                       | None => (Allocated (inl p), mk_view (seqs v) (<[p := m]> (values v)))
                       end
            end)
  | Release p => if decide (loose_in v p) then Some (Done, mk_view (seqs v) (delete p (values v))) else None
  | NewList j => match seqs v !! j with None => Some (Done, mk_view (<[j := []]> (seqs v)) (values v)) | Some _ => None end
  | DropList j => xs ← seqs v !! j; Some (Done, mk_view (delete j (seqs v)) (filter (fun kv => kv.1 ∉ xs) (values v)))
  | PushFront j p => xs ← seqs v !! j; if decide (loose_in v p) then Some (Done, mk_view (<[j := p :: xs]> (seqs v)) (values v)) else None
  | PushBack j p => xs ← seqs v !! j; if decide (loose_in v p) then Some (Done, mk_view (<[j := xs ++ [p]]> (seqs v)) (values v)) else None
  | PopFront j => xs ← seqs v !! j; Some (Handle (head xs), mk_view (<[j := tail xs]> (seqs v)) (values v))
  | PopBack j => xs ← seqs v !! j; Some (Handle (last xs), mk_view (<[j := take (Nat.pred (length xs)) xs]> (seqs v)) (values v))
  | Size j => xs ← seqs v !! j; Some (Number (Z.of_nat (length xs)), v)
  | Contains j frame =>
      xs ← seqs v !! j; r ← spec_slot frame;
      Some (Truth (match r with inl p => listed p xs | inr _ => false end), v)
  | Edit j pl cmds =>
      xs ← seqs v !! j;
      start ← spec_place xs pl;
      match start with
      | None => Some (NoCursor, v)
      | Some i => ' (l, v') ← spec_script v j i cmds; Some (Answers l, v')
      end
  end.

Fixpoint spec_run (v : view) (os : list op) : option (list answer * view) :=
  match os with
  | [] => Some ([], v)
  | o :: os' => ' (a, v1) ← spec v o; ' (l, v2) ← spec_run v1 os'; Some (a :: l, v2)
  end.

(** ** The slots after an update *)

Definition on_link (f : Link -> Link) s : MetaSlot Link := mk_slot (f <$> storage s) (ref_count s) (vtable_ptr s) (in_list s).
Definition upd h p (f : Link -> Link) : heap := set_slot h p (on_link f (slot_at h p)).

Lemma slot_at_set h p s q : slot_at (set_slot h p s) q = if decide (q = p) then s else slot_at h q.
Proof.
  unfold slot_at, set_slot. cbn [slots]. destruct (decide (q = p)) as [->|]; [by rewrite lookup_insert_eq|by rewrite lookup_insert_ne].
Qed.

(** The metadata of the slot may be accessed. *)
Definition live h p : Prop := is_Some (storage (slot_at h p)).

Lemma update_meta_ok h p f : live h p -> update_meta h p f = Ret (upd h p f).
Proof. intros [k Hk]. unfold update_meta, upd, on_link. by rewrite Hk. Qed.

Lemma borrow_meta_ok h p k : storage (slot_at h p) = Some k -> borrow_meta h p = Ret k.
Proof. intros Hk. unfold borrow_meta. by rewrite Hk. Qed.

(** The parts of a slot, as functions of the address. *)
Lemma storage_upd h p f q : storage (slot_at (upd h p f) q) = if decide (q = p) then f <$> storage (slot_at h q) else storage (slot_at h q).
Proof. unfold upd. rewrite slot_at_set. by destruct (decide (q = p)) as [->|]. Qed.

Lemma live_upd h p f q : live h q -> live (upd h p f) q.
Proof. unfold live. intros [k Hk]. rewrite storage_upd, Hk. destruct (decide _); eauto. Qed.

Lemma count_upd h p f q : ref_count (slot_at (upd h p f) q) = ref_count (slot_at h q).
Proof. unfold upd. rewrite slot_at_set. by destruct (decide (q = p)) as [->|]. Qed.

Lemma in_list_upd h p f q : in_list (slot_at (upd h p f) q) = in_list (slot_at h q).
Proof. unfold upd. rewrite slot_at_set. by destruct (decide (q = p)) as [->|]. Qed.

Lemma storage_store h p id q : storage (slot_at (store_in_list h p id) q) = storage (slot_at h q).
Proof. unfold store_in_list. rewrite slot_at_set. by destruct (decide (q = p)) as [->|]. Qed.

Lemma count_store h p id q : ref_count (slot_at (store_in_list h p id) q) = ref_count (slot_at h q).
Proof. unfold store_in_list. rewrite slot_at_set. by destruct (decide (q = p)) as [->|]. Qed.

Lemma in_list_store h p id q : in_list (slot_at (store_in_list h p id) q) = if decide (q = p) then id else in_list (slot_at h q).
Proof. unfold store_in_list. rewrite slot_at_set. by destruct (decide (q = p)) as [->|]. Qed.

Lemma slot_at_alloc h id q : slot_at (mk_heap (slots h) id) q = slot_at h q.
Proof. done. Qed.

(** *** The sequence of a list *)

(** The address of a metadata slot. *)
Definition slot_addr p : Prop := exists pa, valid_frame_paddr pa /\ frame_to_meta pa = Ret p.

Lemma slot_addr_back p : slot_addr p -> exists pa, meta_to_frame p = Ret pa /\ frame_to_meta pa = Ret p.
Proof. intros (pa & Hv & Hp). destruct (frame_meta_frame pa Hv) as (va & Hva & _ & _ & Hb). exists pa. split; congruence. Qed.

Definition before (xs : list Z) (i : nat) : option Z := match i with O => None | S i' => xs !! i' end.

(** The slot of a frame of a list, between its neighbours. *)
Record linked h (xs : list Z) (i : nat) p id : Prop := {
  lk_addr : slot_addr p;
  lk_link : exists m, storage (slot_at h p) = Some (mk_link (xs !! S i) (before xs i) m);
  lk_count : ref_count (slot_at h p) = REF_COUNT_UNIQUE;
  lk_list : in_list (slot_at h p) = id;
}.

(** The list [l] holds the frames [xs]. *)
Record rep h l (xs : list Z) : Prop := {
  rep_nodup : NoDup xs;
  rep_front : front l = head xs;
  rep_back : back l = last xs;
  rep_size : lsize l = Z.of_nat (length xs);
  rep_id : xs <> [] -> list_id l <> 0;
  rep_linked : forall i p, xs !! i = Some p -> linked h xs i p (list_id l);
}.

(** A frame in the hand of its owner. *)
Record loose h p (m : M) : Prop := {
  lo_addr : slot_addr p;
  lo_link : storage (slot_at h p) = Some (link_new m);
  lo_count : ref_count (slot_at h p) = REF_COUNT_UNIQUE;
  lo_list : in_list (slot_at h p) = 0;
}.

(** *** Inserting *)

Lemma ins_lookup i p xs j : (i <= length xs)%nat ->
  ins i p xs !! j = if decide (j < i)%nat then xs !! j else if decide (j = i) then Some p else xs !! (j - 1)%nat.
Proof.
  intros Hi. unfold ins. destruct (decide (j < i)%nat).
  - rewrite lookup_app_l by (rewrite length_take; lia). by apply lookup_take_lt.
  - rewrite lookup_app_r by (rewrite length_take; lia). rewrite length_take, Nat.min_l by done.
    destruct (decide (j = i)) as [->|]; [by rewrite Nat.sub_diag|]. replace (j - i)%nat with (S (j - i - 1)) by lia. rewrite lookup_cons.
    rewrite lookup_drop. f_equal. lia.
Qed.

Lemma ins_length i p xs : (i <= length xs)%nat -> length (ins i p xs) = S (length xs).
Proof. intros Hi. unfold ins. rewrite length_app, length_take, length_cons, length_drop. lia. Qed.

Lemma elem_of_ins i p xs q : q ∈ ins i p xs <-> q = p \/ q ∈ xs.
Proof. unfold ins. rewrite elem_of_app, elem_of_cons. rewrite <- (take_drop i xs) at 3. rewrite elem_of_app. tauto. Qed.

Lemma ins_nodup i p xs : NoDup xs -> p ∉ xs -> NoDup (ins i p xs).
Proof.
  intros Hn Hp. unfold ins. rewrite <- (take_drop i xs) in Hn, Hp. apply NoDup_app in Hn as (H1 & Hd & H2).
  rewrite elem_of_app in Hp. apply NoDup_app. split; [done|]. split; [|by apply NoDup_cons; tauto].
  intros x Hx [->|Hx']%elem_of_cons; [tauto|]. by apply (Hd x).
Qed.

(** What linking [p] before the position [i] makes of the links. *)
Definition linked_in h h' (xs : list Z) (i : nat) p m : Prop := forall q,
  storage (slot_at h' q) =
    if decide (q = p) then Some (mk_link (xs !! i) (before xs i) m)
    else (if decide (xs !! i = Some q) then set_prev (Some p) else id) <$>
         ((if decide (before xs i = Some q) then set_next (Some p) else id) <$> storage (slot_at h q)).

Definition keeps_marks h h' : Prop :=
  list_id_allocator h' = list_id_allocator h /\
  forall q, ref_count (slot_at h' q) = ref_count (slot_at h q) /\ vtable_ptr (slot_at h' q) = vtable_ptr (slot_at h q) /\
    in_list (slot_at h' q) = in_list (slot_at h q).

Lemma upd_keeps h p f : keeps_marks h (upd h p f).
Proof. split; [done|]. intros q. unfold upd. rewrite slot_at_set. by destruct (decide (q = p)) as [->|]. Qed.

Lemma keeps_marks_trans h1 h2 h3 : keeps_marks h1 h2 -> keeps_marks h2 h3 -> keeps_marks h1 h3.
Proof. intros [Ha Hk] [Ha' Hk']. split; [congruence|]. intros q. destruct (Hk q) as (? & ? & ?), (Hk' q) as (? & ? & ?). split_and!; congruence. Qed.

Lemma ins_head i p xs : (i <= length xs)%nat -> head (ins i p xs) = if decide (i = 0%nat) then Some p else head xs.
Proof. intros Hi. rewrite !head_lookup, ins_lookup by done. by destruct i. Qed.

Lemma ins_last i p xs : (i <= length xs)%nat -> last (ins i p xs) = if decide (i = length xs) then Some p else last xs.
Proof.
  intros Hi. rewrite !last_lookup, ins_length by done. cbn [Nat.pred]. rewrite ins_lookup by done.
  destruct (decide (i = length xs)) as [->|]; [by rewrite decide_False, decide_True by lia|].
  rewrite !decide_False by lia. f_equal. lia.
Qed.

Lemma rep_at h l xs i p : rep h l xs -> xs !! i = Some p ->
  exists m, storage (slot_at h p) = Some (mk_link (xs !! S i) (before xs i) m).
Proof. intros Hr Hp. apply (rep_linked _ _ _ Hr i p Hp). Qed.

(** Positions of a list are determined by the frame. *)
Lemma rep_inj h l xs i j p : rep h l xs -> xs !! i = Some p -> xs !! j = Some p -> i = j.
Proof. intros Hr. apply NoDup_lookup, Hr. Qed.

Local Ltac run_upd := repeat (step update_meta_ok by (repeat apply live_upd; done)).
Local Ltac marks := repeat (apply upd_keeps || (eapply keeps_marks_trans; [|apply upd_keeps])).
Local Ltac links H := intros ?q; rewrite ?storage_upd; repeat case_decide; simplify_eq; rewrite ?option_fmap_id, ?H; done.

Lemma rep_live h l xs i p : rep h l xs -> xs !! i = Some p -> live h p.
Proof. intros Hr Hp. destruct (rep_at _ _ _ _ _ Hr Hp) as [m Hm]. by eexists. Qed.

Lemma link_before_ok h l xs i p m : rep h l xs -> (i <= length xs)%nat -> loose h p m -> p ∉ xs ->
  exists l' h', link_before h (mk_cur l (xs !! i)) p = Ret (l', h') /\ linked_in h h' xs i p m /\ keeps_marks h h' /\
    front l' = head (ins i p xs) /\ back l' = last (ins i p xs) /\ lsize l' = lsize l /\ list_id l' = list_id l.
Proof.
  intros Hr Hi [_ Hlk _ _] Hp. unfold link_before. cbn [current clist]. rewrite ins_head, ins_last by done. unfold linked_in.
  assert (live h p) as Hlive by (by eexists).
  assert (forall j q, xs !! j = Some q -> q <> p) as Hne by (intros j q Hq ->; by apply Hp, (list_elem_of_lookup_2 xs j)).
  destruct (xs !! i) as [cur|] eqn:Hc.
  - pose proof (lookup_lt_Some _ _ _ Hc) as Hlt. destruct (rep_at _ _ _ _ _ Hr Hc) as [mc Hcur]. step (borrow_meta_ok _ _ _ Hcur). cbn [prev].
    pose proof (Hne _ _ Hc) as Hcp. pose proof (rep_live _ _ _ _ _ Hr Hc) as Hlc. rewrite (decide_False (P := i = length xs)) by lia.
    destruct i as [|i]; cbn [before].
    + run_upd. eexists _, _. split; [done|]. split_and!; try done; [|marks|apply Hr].
      links Hlk.
    + destruct (lookup_lt_is_Some_2 xs i) as [prv Hprv]; [lia|]. rewrite Hprv. pose proof (Hne _ _ Hprv) as Hpp. pose proof (rep_live _ _ _ _ _ Hr Hprv) as Hlp.
      run_upd. eexists _, _. split; [done|]. split_and!; try done; [|marks|apply Hr|apply Hr].
      links Hlk.
  - apply lookup_ge_None_1 in Hc. assert (i = length xs) as -> by lia. rewrite (rep_back _ _ _ Hr), last_lookup.
    rewrite (decide_True (P := length xs = length xs)) by done. destruct (length xs) as [|k] eqn:Hk; cbn [Nat.pred before].
    + rewrite lookup_ge_None_2 by lia. eexists _, _. split; [done|]. split_and!; try done. links Hlk.
    + destruct (lookup_lt_is_Some_2 xs k) as [bk Hbk]; [lia|]. rewrite Hbk. pose proof (Hne _ _ Hbk) as Hbp. pose proof (rep_live _ _ _ _ _ Hr Hbk) as Hlb.
      run_upd. eexists _, _. split; [done|]. split_and!; try done; [|marks|apply Hr].
      links Hlk.
Qed.

(** The metadata of the frames, which linking does not change. *)
Definition meta_at h p : option M := lmeta <$> storage (slot_at h p).

Lemma before_lt xs i j q : before xs i = Some q -> xs !! j = Some q -> NoDup xs -> S j = i.
Proof. destruct i as [|i]; [done|]. cbn. intros Hi Hj Hn. f_equal. by eapply NoDup_lookup. Qed.

(** The links of the longer sequence. *)
Lemma linked_in_at h h' l xs i p m j q : rep h l xs -> (i <= length xs)%nat -> p ∉ xs -> linked_in h h' xs i p m ->
  ins i p xs !! j = Some q ->
  exists m', storage (slot_at h' q) = Some (mk_link (ins i p xs !! S j) (before (ins i p xs) j) m').
Proof.
  intros Hr Hi Hp Hin Hq. pose proof (rep_nodup _ _ _ Hr) as Hnd. rewrite Hin. rewrite ins_lookup in Hq by done.
  assert (before (ins i p xs) j = if decide (j <= i)%nat then before xs j else if decide (j = S i) then Some p else before xs (j - 1)) as ->.
  { destruct j as [|j]; cbn [before]; [by rewrite decide_True by lia|]. rewrite ins_lookup by done.
    destruct (decide (j < i)%nat); [by rewrite decide_True by lia|]. rewrite (decide_False (P := (S j <= i)%nat)) by lia.
    destruct (decide (j = i)) as [->|]; [by rewrite decide_True|]. rewrite (decide_False (P := S j = S i)) by lia.
    replace (S j - 1)%nat with (S (j - 1)) by lia. done. }
  rewrite ins_lookup by done.
  assert (forall k, xs !! k = Some q -> q <> p /\ exists m', storage (slot_at h q) = Some (mk_link (xs !! S k) (before xs k) m') /\
    (xs !! i = Some q <-> k = i) /\ (before xs i = Some q <-> S k = i)) as Hold.
  { intros k Hk. split; [intros ->; by apply Hp, (list_elem_of_lookup_2 xs k)|]. destruct (rep_at _ _ _ _ _ Hr Hk) as [m' Hm']. exists m'.
    split; [done|]. split; split; [intros Hx; by eapply NoDup_lookup|by intros ->|intros Hb; by eapply before_lt|by intros <-]. }
  destruct (decide (j < i)%nat) as [Hji|Hji]; [|destruct (decide (j = i)) as [->|Hne]].
  - destruct (Hold j Hq) as (Hqp & m' & -> & Hx & Hb). rewrite (decide_False (P := q = p)) by done.
    rewrite (decide_False (P := xs !! i = Some q)) by (rewrite Hx; lia). rewrite (decide_True (P := (j <= i)%nat)) by lia. exists m'.
    destruct (decide (S j = i)) as [Hs|Hs].
    + rewrite (decide_True (P := before xs i = Some q)) by tauto. rewrite (decide_False (P := (S j < i)%nat)) by lia. done.
    + rewrite (decide_False (P := before xs i = Some q)) by tauto. rewrite (decide_True (P := (S j < i)%nat)) by lia. done.
  - injection Hq as <-. rewrite decide_True by done. exists m.
    rewrite (decide_False (P := (S i < i)%nat)), (decide_False (P := S i = i)), (decide_True (P := (i <= i)%nat)) by lia. by replace (S i - 1)%nat with i by lia.
  - destruct (Hold (j - 1)%nat Hq) as (Hqp & m' & -> & Hx & Hb). rewrite (decide_False (P := q = p)) by done.
    rewrite (decide_False (P := before xs i = Some q)) by (rewrite Hb; lia).
    rewrite (decide_False (P := (S j < i)%nat)), (decide_False (P := S j = i)), (decide_False (P := (j <= i)%nat)) by lia. exists m'.
    replace (S j - 1)%nat with (S (j - 1)) by lia. destruct (decide (j = S i)) as [->|].
    + rewrite (decide_True (P := xs !! i = Some q)) by (apply Hx; lia). done.
    + rewrite (decide_False (P := xs !! i = Some q)) by (rewrite Hx; lia). done.
Qed.

(** Only the slots of [ys] change. *)
Definition changed h h' (ys : list Z) : Prop := forall q, q ∉ ys -> slot_at h' q = slot_at h q.

(** There is an id for the list. *)
Definition nameable h l : Prop := 0 < list_id_allocator h /\ (list_id l = 0 -> list_id_allocator h < MAX_LIST_ID).

(** The list keeps its id, or gets the next one. *)
Definition named h l h' l' : Prop :=
  (list_id l <> 0 /\ list_id l' = list_id l /\ list_id_allocator h' = list_id_allocator h) \/
  (list_id l = 0 /\ list_id l' = list_id_allocator h /\ list_id_allocator h' = list_id_allocator h + 1).

Lemma slot_eq s s' : storage s' = storage s -> ref_count s' = ref_count s -> vtable_ptr s' = vtable_ptr s -> in_list s' = in_list s -> s' = s.
Proof. destruct s, s'. cbn. congruence. Qed.

Lemma lazy_ok h l : nameable h l ->
  exists l' h', lazy_get_id h l = Ret (list_id l', l', h') /\ named h l h' l' /\ list_id l' <> 0 /\ slots h' = slots h /\
    front l' = front l /\ back l' = back l /\ lsize l' = lsize l.
Proof.
  intros [Ha0 Ha]. unfold lazy_get_id, named. destruct (Z.eqb_spec (list_id l) 0).
  - destruct (Z.leb_spec MAX_LIST_ID (list_id_allocator h)); [lia|]. eexists (mk_list _ _ _ _), _. split; [done|]. cbn.
    unfold MAX_LIST_ID in *. rewrite Z.mod_small by lia. split_and!; try done; [by right|lia].
  - exists l, h. split; [done|]. split_and!; try done. by left.
Qed.

Lemma linked_in_changed h h' xs i p m : linked_in h h' xs i p m -> keeps_marks h h' -> changed h h' (p :: xs).
Proof.
  intros Hin [_ Hk] q Hq. destruct (Hk q) as (? & ? & ?). apply slot_eq; try done. rewrite Hin.
  apply not_elem_of_cons in Hq as [Hqp Hqx]. rewrite decide_False by done.
  rewrite (decide_False (P := xs !! i = Some q)) by (intros Hx; by apply Hqx, (list_elem_of_lookup_2 xs i)).
  rewrite decide_False; [by rewrite !option_fmap_id|]. destruct i as [|i]; [done|]. intros Hx. by apply Hqx, (list_elem_of_lookup_2 xs i).
Qed.

Lemma linked_in_meta h h' xs i p m q : linked_in h h' xs i p m -> meta_at h p = Some m -> meta_at h' q = meta_at h q.
Proof.
  intros Hin Hm. unfold meta_at in *. rewrite Hin. destruct (decide (q = p)) as [->|]; [by rewrite Hm|].
  destruct (storage (slot_at h q)) as [k|]; [|by repeat case_decide]. by repeat case_decide.
Qed.

Lemma insert_ok h l xs i p m : rep h l xs -> (i <= length xs)%nat -> loose h p m -> p ∉ xs ->
  nameable h l -> Z.of_nat (length xs) + 1 < 2 ^ 64 ->
  exists l' h', insert_before h (mk_cur l (xs !! i)) p = Ret (mk_cur l' (xs !! i), h') /\ rep h' l' (ins i p xs) /\ named h l h' l' /\
    changed h h' (p :: xs) /\ forall q, meta_at h' q = meta_at h q.
Proof.
  intros Hr Hi Hlo Hp Ha Hlen. destruct (link_before_ok h l xs i p m Hr Hi Hlo Hp) as (l1 & h1 & Hl & Hin & Hk & Hf & Hb & Hs & Hid).
  pose proof Hk as [Ha1 Hm1]. destruct (lazy_ok h1 l1) as (l2 & h2 & Hlz & Hnm & Hid2 & Hsl & Hf2 & Hb2 & Hs2); [unfold nameable in *; by rewrite Ha1, Hid|].
  assert (forall q, slot_at h2 q = slot_at h1 q) as Hslot by (intros q; unfold slot_at; by rewrite Hsl).
  unfold insert_before. step Hl. step Hlz. rewrite Hs2, Hs, (rep_size _ _ _ Hr). step uadd_ok by lia. cbn [current].
  eexists _, _. split; [done|].
  assert (list_id l <> 0 -> list_id l2 = list_id l) as Hsame by (intros Hn; destruct Hnm as [(_ & ? & _)|(? & _)]; congruence).
  split_and!.
  - split; cbn [with_size front back lsize list_id]; try congruence.
    + by apply ins_nodup; [apply Hr|].
    + rewrite ins_length by done. lia.
    + intros j q Hq. destruct (linked_in_at _ _ _ _ _ _ _ _ _ Hr Hi Hp Hin Hq) as [m' Hm'].
      assert (q = p \/ (q <> p /\ exists k, xs !! k = Some q)) as Hcase.
      { apply (list_elem_of_lookup_2 (ins i p xs) j) in Hq. apply elem_of_ins in Hq as [|Hq]; [by left|right].
        split; [congruence|]. by apply list_elem_of_lookup. }
      destruct (Hm1 q) as (Hc & _ & Hl1). split.
      * destruct Hcase as [->|(_ & k & Hk')]; [apply Hlo|apply (rep_linked _ _ _ Hr k q Hk')].
      * exists m'. by rewrite storage_store, Hslot.
      * rewrite count_store, Hslot, Hc. destruct Hcase as [->|(_ & k & Hk')]; [apply Hlo|apply (rep_linked _ _ _ Hr k q Hk')].
      * rewrite in_list_store, Hslot. destruct (decide (q = p)) as [|Hne]; [done|]. destruct Hcase as [|(_ & k & Hk')]; [done|].
        rewrite Hl1, Hsame; [apply (rep_linked _ _ _ Hr k q Hk')|]. apply (rep_id _ _ _ Hr). intros ->. by rewrite lookup_nil in Hk'.
  - unfold named in *. cbn [with_size list_id store_in_list set_slot list_id_allocator]. by rewrite Ha1, Hid in Hnm.
  - intros q Hq. rewrite <- (linked_in_changed _ _ _ _ _ _ Hin Hk q Hq), <- Hslot. unfold store_in_list. rewrite slot_at_set.
    apply not_elem_of_cons in Hq as [Hq _]. by rewrite decide_False.
  - intros q. unfold meta_at at 1. rewrite storage_store, Hslot. apply (linked_in_meta _ _ _ _ _ _ q Hin). unfold meta_at. by rewrite (lo_link _ _ _ Hlo).
Qed.

(** *** Removing *)

Lemma delete_lookup (xs : list Z) i j : delete i xs !! j = if decide (j < i)%nat then xs !! j else xs !! S j.
Proof. destruct (decide (j < i)%nat); [by apply list_lookup_delete_lt|apply list_lookup_delete_ge; lia]. Qed.

Lemma delete_head (xs : list Z) i : head (delete i xs) = if decide (i = 0%nat) then xs !! 1%nat else head xs.
Proof. rewrite !head_lookup, delete_lookup. by destruct i. Qed.

Lemma delete_last (xs : list Z) i p : xs !! i = Some p -> last (delete i xs) = if decide (S i = length xs) then before xs i else last xs.
Proof.
  intros Hp. pose proof (lookup_lt_Some _ _ _ Hp) as Hlt. rewrite !last_lookup, delete_lookup, (length_delete xs i) by (rewrite Hp; done).
  destruct (decide (S i = length xs)) as [Hl|Hne].
  - replace (Nat.pred (length xs - 1)) with (Nat.pred i) by lia.
    destruct i as [|i]; cbn [Nat.pred before]; [rewrite decide_False by lia; apply lookup_ge_None_2; lia|by rewrite decide_True by lia].
  - rewrite decide_False by lia. f_equal. lia.
Qed.

(** What removing the position [i] makes of the links of the others. *)
Definition unlinked h h' (xs : list Z) (i : nat) : Prop := forall q,
  storage (slot_at h' q) = (if decide (xs !! S i = Some q) then set_prev (before xs i) else id) <$>
    ((if decide (before xs i = Some q) then set_next (xs !! S i) else id) <$> storage (slot_at h q)).

Lemma unlink_ok h l xs i p : rep h l xs -> xs !! i = Some p ->
  exists l' h', unlink h l (xs !! S i) (before xs i) = Ret (l', h') /\ unlinked h h' xs i /\ keeps_marks h h' /\
    front l' = head (delete i xs) /\ back l' = last (delete i xs) /\ lsize l' = lsize l /\ list_id l' = list_id l.
Proof.
  intros Hr Hp. pose proof (lookup_lt_Some _ _ _ Hp) as Hlt. unfold unlink, unlinked. rewrite delete_head, (delete_last xs i p Hp).
  assert (storage (slot_at h p) = storage (slot_at h p)) as Hrefl by done.
  assert (forall q, xs !! S i = Some q -> before xs i = Some q -> False) as Hdiff.
  { intros q Hq Hb. pose proof (before_lt _ _ _ _ Hb Hq (rep_nodup _ _ _ Hr)). lia. }
  destruct i as [|i]; cbn [before] in *.
  - cbn [mbind outcome_bind]. destruct (xs !! 1%nat) as [nx|] eqn:Hnx.
    + pose proof (lookup_lt_Some _ _ _ Hnx). pose proof (rep_live _ _ _ _ _ Hr Hnx). rewrite (decide_False (P := 1%nat = length xs)) by lia.
      run_upd. eexists _, _. split; [done|]. split_and!; try done; [links Hrefl|marks|apply Hr].
    + apply lookup_ge_None_1 in Hnx. rewrite (decide_True (P := 1%nat = length xs)) by lia. eexists _, _. split; [done|]. split_and!; try done.
      links Hrefl.
  - destruct (lookup_lt_is_Some_2 xs i) as [prv Hprv]; [lia|]. rewrite Hprv in *. pose proof (rep_live _ _ _ _ _ Hr Hprv).
    destruct (xs !! S (S i)) as [nx|] eqn:Hnx.
    + pose proof (lookup_lt_Some _ _ _ Hnx). pose proof (rep_live _ _ _ _ _ Hr Hnx). rewrite (decide_False (P := S (S i) = length xs)) by lia.
      assert (nx <> prv) by (intros ->; by apply (Hdiff prv)).
      run_upd. eexists _, _. split; [done|]. split_and!; try done; [links Hrefl|marks|apply Hr|apply Hr].
    + apply lookup_ge_None_1 in Hnx. rewrite (decide_True (P := S (S i) = length xs)) by lia.
      run_upd. eexists _, _. split; [done|]. split_and!; try done; [links Hrefl|marks|apply Hr].
Qed.

Lemma unlinked_at h h' l xs i p j q : rep h l xs -> xs !! i = Some p -> unlinked h h' xs i -> delete i xs !! j = Some q ->
  exists m, storage (slot_at h' q) = Some (mk_link (delete i xs !! S j) (before (delete i xs) j) m).
Proof.
  intros Hr Hp Hun Hq. pose proof (rep_nodup _ _ _ Hr) as Hnd. rewrite Hun. rewrite delete_lookup in Hq.
  assert (before (delete i xs) j = if decide (j <= i)%nat then before xs j else before xs (S j)) as ->.
  { destruct j as [|j]; cbn [before]; [by rewrite decide_True by lia|]. rewrite delete_lookup.
    destruct (decide (j < i)%nat); [by rewrite decide_True by lia|by rewrite decide_False by lia]. }
  rewrite delete_lookup.
  assert (forall k, xs !! k = Some q -> exists m, storage (slot_at h q) = Some (mk_link (xs !! S k) (before xs k) m) /\
    (xs !! S i = Some q <-> k = S i) /\ (before xs i = Some q <-> S k = i)) as Hold.
  { intros k Hk. destruct (rep_at _ _ _ _ _ Hr Hk) as [m Hm]. exists m.
    split; [done|]. split; split; [intros Hx; by eapply NoDup_lookup|by intros ->|intros Hb; by eapply before_lt|by intros <-]. }
  destruct (decide (j < i)%nat) as [Hji|Hji].
  - destruct (Hold j Hq) as (m & -> & Hx & Hb). rewrite (decide_False (P := xs !! S i = Some q)) by (rewrite Hx; lia).
    rewrite (decide_True (P := (j <= i)%nat)) by lia. exists m. destruct (decide (S j = i)) as [Hs|Hs].
    + rewrite (decide_True (P := before xs i = Some q)) by tauto. rewrite (decide_False (P := (S j < i)%nat)) by lia. by rewrite Hs.
    + rewrite (decide_False (P := before xs i = Some q)) by tauto. by rewrite (decide_True (P := (S j < i)%nat)) by lia.
  - destruct (Hold (S j) Hq) as (m & -> & Hx & Hb). rewrite (decide_False (P := before xs i = Some q)) by (rewrite Hb; lia).
    rewrite (decide_False (P := (S j < i)%nat)) by lia. exists m. destruct (decide (j = i)) as [->|Hne].
    + rewrite (decide_True (P := xs !! S i = Some q)), (decide_True (P := (i <= i)%nat)) by done. done.
    + rewrite (decide_False (P := xs !! S i = Some q)) by (rewrite Hx; lia). by rewrite (decide_False (P := (j <= i)%nat)) by lia.
Qed.

Lemma unlinked_same h h' l xs i q : rep h l xs -> unlinked h h' xs i -> (forall j, j <> i -> xs !! j <> Some q) ->
  storage (slot_at h' q) = storage (slot_at h q).
Proof.
  intros Hr Hun Hq. rewrite Hun. rewrite (decide_False (P := xs !! S i = Some q)) by (apply Hq; lia).
  rewrite (decide_False (P := before xs i = Some q)); [by rewrite !option_fmap_id|]. destruct i as [|i]; [done|]. apply Hq. lia.
Qed.

Lemma delete_from (xs : list Z) i j q : delete i xs !! j = Some q -> exists k, k <> i /\ xs !! k = Some q /\ (j = if decide (k < i)%nat then k else Nat.pred k).
Proof.
  rewrite delete_lookup. intros Hj. destruct (decide (j < i)%nat).
  - exists j. rewrite decide_True by done. split_and!; [lia|done|done].
  - exists (S j). rewrite decide_False by lia. split_and!; [lia|done|done].
Qed.

Lemma delete_nodup (xs : list Z) i : NoDup xs -> NoDup (delete i xs).
Proof.
  rewrite !NoDup_alt. intros Hn j1 j2 q H1 H2. apply delete_from in H1 as (k1 & _ & H1 & ->). apply delete_from in H2 as (k2 & _ & H2 & ->).
  by rewrite (Hn _ _ _ H1 H2).
Qed.

Lemma list_take_ok h l xs i p : rep h l xs -> xs !! i = Some p ->
  exists l' h', take_current h (mk_cur l (Some p)) = Ret (Some p, mk_cur l' (xs !! S i), h') /\ rep h' l' (delete i xs) /\
    list_id l' = list_id l /\ list_id_allocator h' = list_id_allocator h /\ (exists m, loose h' p m) /\
    changed h h' xs /\ forall q, meta_at h' q = meta_at h q.
Proof.
  intros Hr Hp. pose proof (lookup_lt_Some _ _ _ Hp) as Hlt. pose proof (rep_nodup _ _ _ Hr) as Hnd.
  destruct (rep_linked _ _ _ Hr i p Hp) as [Haddr [m Hm] Hcnt Hil]. destruct (slot_addr_back p Haddr) as (pa & Hmf & Hfm).
  destruct (unlink_ok h l xs i p Hr Hp) as (l1 & h1 & Hu & Hun & [Ha Hk] & Hf & Hb & Hs & Hid).
  assert (storage (slot_at h1 p) = storage (slot_at h p)) as Hsp.
  { apply (unlinked_same _ _ _ _ _ _ Hr Hun). intros j Hj Hx. apply Hj. by eapply NoDup_lookup. }
  assert (live h1 p) as Hlive by (unfold live; rewrite Hsp, Hm; eauto).
  unfold take_current. cbn [current clist]. step Hmf. step Hfm. step (borrow_meta_ok _ _ _ Hm). cbn [next prev]. step Hu. run_upd.
  rewrite Hs, (rep_size _ _ _ Hr). step usub_ok by lia. eexists _, _. split; [done|].
  set (h2 := upd (upd h1 p (set_next None)) p (set_prev None)).
  assert (forall q, q <> p -> slot_at (store_in_list h2 p 0) q = slot_at h1 q) as Hoff.
  { intros q Hq. unfold store_in_list, h2, upd. by rewrite !slot_at_set, !decide_False by done. }
  assert (storage (slot_at (store_in_list h2 p 0) p) = Some (link_new m)) as Hlk.
  { rewrite storage_store. unfold h2. rewrite !storage_upd, !decide_True by done. rewrite Hsp, Hm. done. }
  split_and!; try done.
  - split; cbn [with_size front back lsize list_id]; try congruence.
    + by apply delete_nodup.
    + rewrite (length_delete xs i) by (rewrite Hp; done). lia.
    + intros Hne. rewrite Hid. apply (rep_id _ _ _ Hr). by intros ->.
    + intros j q Hq. destruct (unlinked_at _ _ _ _ _ _ _ _ Hr Hp Hun Hq) as [m' Hm'].
      assert (exists k, xs !! k = Some q /\ q <> p) as (k & Hk' & Hqp).
      { apply delete_from in Hq as (k & Hki & Hk' & _). exists k. split; [done|]. intros ->. apply Hki. by eapply NoDup_lookup. }
      destruct (rep_linked _ _ _ Hr k q Hk') as [? _ Hc ?]. destruct (Hk q) as (? & _ & ?).
      split; [done|exists m'; by rewrite Hoff|rewrite Hoff by done; congruence|rewrite Hoff by done; congruence].
  - exists m. split; [done|done| |].
    + rewrite count_store. unfold h2. rewrite !count_upd. destruct (Hk p) as (-> & _). done.
    + rewrite in_list_store. by rewrite decide_True.
  - intros q Hq. assert (q <> p) by (intros ->; by apply Hq, (list_elem_of_lookup_2 xs i)). rewrite Hoff by done.
    destruct (Hk q) as (? & ? & ?). apply slot_eq; try done. apply (unlinked_same _ _ _ _ _ _ Hr Hun). intros j _ Hx. by apply Hq, (list_elem_of_lookup_2 xs j).
  - intros q. unfold meta_at. destruct (decide (q = p)) as [->|Hne]; [by rewrite Hlk, Hm|]. rewrite Hoff, Hun by done.
    destruct (storage (slot_at h q)); by repeat case_decide.
Qed.

(** ** The invariant of all lists *)

Record winv h (ls : gmap nat LinkedList) (v : view) : Prop := {
  w_dom : forall j, is_Some (ls !! j) <-> is_Some (seqs v !! j);
  w_rep : forall j l xs, ls !! j = Some l -> seqs v !! j = Some xs -> rep h l xs;
  w_ids : forall j1 j2 l1 l2, ls !! j1 = Some l1 -> ls !! j2 = Some l2 -> list_id l1 <> 0 -> list_id l1 = list_id l2 -> j1 = j2;
  w_alloc : 0 < list_id_allocator h /\ forall j l, ls !! j = Some l -> 0 <= list_id l < list_id_allocator h;
  w_live : forall p m, values v !! p = Some m -> slot_addr p /\ ref_count (slot_at h p) = REF_COUNT_UNIQUE /\ meta_at h p = Some m /\
    (in_list (slot_at h p) = 0 -> storage (slot_at h p) = Some (link_new m));
  w_dead : forall p, values v !! p = None -> slot_at h p = unused_slot;
  w_mark : forall p, in_list (slot_at h p) <> 0 -> exists j l xs, ls !! j = Some l /\ seqs v !! j = Some xs /\ list_id l = in_list (slot_at h p) /\ p ∈ xs;
}.

Lemma rep_elem h l xs p : rep h l xs -> p ∈ xs -> exists i, xs !! i = Some p /\ linked h xs i p (list_id l) /\ list_id l <> 0.
Proof.
  intros Hr [i Hi]%list_elem_of_lookup. exists i. split; [done|]. split; [by apply Hr|]. apply (rep_id _ _ _ Hr). by intros ->.
Qed.

Lemma linked_in_use h xs i p id : linked h xs i p id -> slot_at h p <> unused_slot.
Proof. intros [_ _ Hc _] Hu. rewrite Hu in Hc. discriminate. Qed.

Lemma winv_listed h ls v j xs p : winv h ls v -> seqs v !! j = Some xs -> p ∈ xs -> is_Some (values v !! p).
Proof.
  intros Hw Hxs Hp. destruct (proj2 (w_dom _ _ _ Hw j) (ex_intro _ _ Hxs)) as [l Hl].
  destruct (rep_elem _ _ _ _ (w_rep _ _ _ Hw j l xs Hl Hxs) Hp) as (i & _ & Hlk & _). destruct (values v !! p) eqn:Hv; [eauto|].
  by destruct (linked_in_use _ _ _ _ _ Hlk), (w_dead _ _ _ Hw p Hv).
Qed.

Lemma winv_loose h ls v p : winv h ls v -> loose_in v p -> exists m, values v !! p = Some m /\ loose h p m.
Proof.
  intros Hw [[m Hm]%elem_of_dom Hno]. exists m. split; [done|]. destruct (w_live _ _ _ Hw p m Hm) as (Ha & Hc & _ & Hl).
  assert (in_list (slot_at h p) = 0) as Hz.
  { destruct (decide (in_list (slot_at h p) = 0)) as [|Hnz]; [done|]. destruct (w_mark _ _ _ Hw p Hnz) as (j & l & xs & _ & Hxs & _ & Hin).
    by destruct (Hno j xs Hxs). }
  by split; auto.
Qed.

(** A frame is in one list. *)
Lemma winv_disjoint h ls v j1 j2 xs1 xs2 p : winv h ls v -> seqs v !! j1 = Some xs1 -> seqs v !! j2 = Some xs2 -> p ∈ xs1 -> p ∈ xs2 -> j1 = j2.
Proof.
  intros Hw H1 H2 Hp1 Hp2. destruct (proj2 (w_dom _ _ _ Hw j1) (ex_intro _ _ H1)) as [l1 Hl1], (proj2 (w_dom _ _ _ Hw j2) (ex_intro _ _ H2)) as [l2 Hl2].
  destruct (rep_elem _ _ _ _ (w_rep _ _ _ Hw _ _ _ Hl1 H1) Hp1) as (i1 & _ & Hk1 & Hid). destruct (rep_elem _ _ _ _ (w_rep _ _ _ Hw _ _ _ Hl2 H2) Hp2) as (i2 & _ & Hk2 & _).
  apply (w_ids _ _ _ Hw j1 j2 l1 l2 Hl1 Hl2 Hid). rewrite <- (lk_list _ _ _ _ _ Hk1). apply Hk2.
Qed.

Lemma rep_same h h' l xs : rep h l xs -> (forall q, q ∈ xs -> slot_at h' q = slot_at h q) -> rep h' l xs.
Proof.
  intros [Hn Hf Hb Hs Hid Hl] Hsame. split; try done. intros i p Hp. destruct (Hl i p Hp) as [Ha Hk Hc Hi].
  pose proof (Hsame p (list_elem_of_lookup_2 xs i p Hp)) as Hp'. by split; rewrite ?Hp'.
Qed.

(** One list changes, with the slots of [ys]. *)
Lemma winv_update h ls v j l xs h' l' xs' ys : winv h ls v -> ls !! j = Some l -> seqs v !! j = Some xs ->
  rep h' l' xs' -> named h l h' l' \/ (list_id l' = list_id l /\ list_id_allocator h' = list_id_allocator h) ->
  changed h h' ys -> (forall q, meta_at h' q = meta_at h q) ->
  (forall q, q ∈ ys -> q ∈ xs \/ loose_in v q) -> (forall q, q ∈ xs -> q ∈ ys) -> (forall q, q ∈ ys -> q ∈ xs' \/ exists m, loose h' q m) ->
  winv h' (<[j := l']> ls) (mk_view (<[j := xs']> (seqs v)) (values v)).
Proof.
  intros Hw Hl Hxs Hr Hnm Hch Hmt Hys Hsub Hys'.
  assert (forall j2 xs2 q, j2 <> j -> seqs v !! j2 = Some xs2 -> q ∈ xs2 -> q ∉ ys) as Hother.
  { intros j2 xs2 q Hne Hx2 Hq Hin. destruct (Hys q Hin) as [Hq'|[_ Hno]]; [by apply Hne, (winv_disjoint h ls v j2 j xs2 xs q)|by apply (Hno j2 xs2)]. }
  assert (0 <= list_id l < list_id_allocator h) as Hlid by (by eapply w_alloc).
  assert (forall j2 l2, j2 <> j -> ls !! j2 = Some l2 -> list_id l' <> 0 -> list_id l' <> list_id l2) as Hid.
  { intros j2 l2 Hne Hl2 Hz Heq. pose proof (proj2 (w_alloc _ _ _ Hw) j2 l2 Hl2).
    destruct Hnm as [[(? & ? & _)|(? & ? & _)]|[? _]]; [|lia|]; apply Hne; symmetry; apply (w_ids _ _ _ Hw j j2 l l2); congruence. }
  split; cbn [seqs values].
  - intros j2. destruct (decide (j2 = j)) as [->|]; [by rewrite !lookup_insert_eq|]. rewrite !lookup_insert_ne by done. apply Hw.
  - intros j2 l2 xs2. destruct (decide (j2 = j)) as [->|Hne]; [rewrite !lookup_insert_eq; by intros [= <-] [= <-]|].
    rewrite !lookup_insert_ne by done. intros Hl2 Hx2. apply (rep_same h); [by eapply w_rep|]. intros q Hq. by eapply Hch, Hother.
  - intros j1 j2 l1 l2. destruct (decide (j1 = j)) as [->|H1], (decide (j2 = j)) as [->|H2]; rewrite ?lookup_insert_eq, ?lookup_insert_ne by done; try done.
    + intros [= <-] Hl2 Hz Heq. by destruct (Hid j2 l2).
    + intros Hl1 [= <-] Hz Heq. by destruct (Hid j1 l1); [done|done|congruence|].
    + apply (w_ids _ _ _ Hw).
  - destruct (w_alloc _ _ _ Hw) as [Hpos Hall].
    assert (list_id_allocator h <= list_id_allocator h' /\ 0 <= list_id l' < list_id_allocator h') as [Hle Hnew]
      by (destruct Hnm as [[(_ & -> & ->)|(_ & -> & ->)]|[-> ->]]; lia).
    split; [lia|]. intros j2 l2. destruct (decide (j2 = j)) as [->|]; [rewrite lookup_insert_eq; by intros [= <-]|].
    rewrite lookup_insert_ne by done. intros Hl2. specialize (Hall j2 l2 Hl2). lia.
  - intros p m Hm. destruct (w_live _ _ _ Hw p m Hm) as (Ha & Hc & Hma & Hz). rewrite Hmt. destruct (decide (p ∈ ys)) as [Hp|Hp]; [|by rewrite (Hch p Hp)].
    destruct (Hys' p Hp) as [Hp'|[m' [Ha' Hl' Hc' Hz']]].
    + destruct (rep_elem _ _ _ _ Hr Hp') as (i & _ & [Ha' _ Hc' Hl'] & Hnz). split_and!; try done. congruence.
    + split_and!; try done. intros _. rewrite Hl'. do 2 f_equal. rewrite <- (Hmt p) in Hma. unfold meta_at in Hma. rewrite Hl' in Hma. by injection Hma.
  - intros p Hp. rewrite (Hch p); [by apply (w_dead _ _ _ Hw)|]. intros Hin. destruct (Hys p Hin) as [Hq|[Hq _]].
    + destruct (winv_listed _ _ _ _ _ _ Hw Hxs Hq). congruence.
    + apply elem_of_dom in Hq as [? ?]. congruence.
  - intros p Hnz. destruct (decide (p ∈ ys)) as [Hp|Hp].
    + destruct (Hys' p Hp) as [Hp'|[m' [_ _ _ Hz']]]; [|done]. exists j, l', xs'. rewrite !lookup_insert_eq. split_and!; try done.
      destruct (rep_elem _ _ _ _ Hr Hp') as (i & _ & [_ _ _ Hl'] & _). done.
    + rewrite (Hch p Hp) in Hnz |- *. destruct (w_mark _ _ _ Hw p Hnz) as (j2 & l2 & xs2 & Hl2 & Hx2 & Hid2 & Hin).
      exists j2, l2, xs2. assert (j2 <> j) by (intros ->; apply Hp, Hsub; congruence). by rewrite !lookup_insert_ne.
Qed.

(** *** Editing through a cursor *)

(** There are no more frames than slots. *)
Lemma slots_bound (xs : list Z) : NoDup xs -> (forall p, p ∈ xs -> slot_addr p) -> Z.of_nat (length xs) <= MAX_PADDR / PAGE_SIZE.
Proof.
  intros Hn Ha. set (g := fun p => Z.to_nat ((p - 0xffffe00000000000) / 64)).
  assert (forall p, slot_addr p -> p = 0xffffe00000000000 + Z.of_nat (g p) * 64 /\ (g p < Z.to_nat (MAX_PADDR / PAGE_SIZE))%nat) as Hg.
  { intros p (pa & [Hpa Hal] & Hp). rewrite (frame_to_meta_ok pa Hpa) in Hp. injection Hp as <-. unfold g, MAX_PADDR, PAGE_SIZE in *.
    replace (0xffffe00000000000 + pa / 4096 * 64 - 0xffffe00000000000) with (pa / 4096 * 64) by lia. rewrite Z.div_mul by done.
    Z.to_euclidean_division_equations. lia. }
  assert (length (g <$> xs) <= length (seq 0 (Z.to_nat (MAX_PADDR / PAGE_SIZE))))%nat as Hle.
  { apply submseteq_length, NoDup_submseteq.
    - apply NoDup_fmap_2_strong; [|done]. intros x y Hx Hy Heq. destruct (Hg x (Ha x Hx)) as [Ex _], (Hg y (Ha y Hy)) as [Ey _]. rewrite Ex, Ey, Heq. done.
    - intros k (p & -> & Hp)%list_elem_of_fmap. apply elem_of_seq. destruct (Hg p (Ha p Hp)) as [_ ?]. lia. }
  rewrite length_fmap, length_seq in Hle. change (MAX_PADDR / PAGE_SIZE) with 524288 in *. lia.
Qed.

Lemma rep_bound h l xs : rep h l xs -> Z.of_nat (length xs) + 1 < 2 ^ 64.
Proof.
  intros Hr. assert (Z.of_nat (length xs) <= MAX_PADDR / PAGE_SIZE) as Hb; [|change (MAX_PADDR / PAGE_SIZE) with 524288 in Hb; lia].
  apply slots_bound; [apply Hr|]. intros p [i Hi]%list_elem_of_lookup. apply (rep_linked _ _ _ Hr i p Hi).
Qed.

(** Metadata changes do not touch the links. *)
Definition on_meta (f : M -> M) (k : Link) : Link := mk_link (next k) (prev k) (f (lmeta k)).

Lemma rep_meta h l xs p f : rep h l xs -> rep (upd h p (on_meta f)) l xs.
Proof.
  intros [Hn Hf Hb Hs Hid Hl]. split; try done. intros i q Hq. destruct (Hl i q Hq) as [Ha [m Hm] Hc Hi].
  split; [done| |by rewrite count_upd|by rewrite in_list_upd]. rewrite storage_upd, Hm. destruct (decide _); cbn; eauto.
Qed.

Lemma winv_meta h ls v p m f : winv h ls v -> values v !! p = Some m ->
  winv (upd h p (on_meta f)) ls (mk_view (seqs v) (<[p := f m]> (values v))).
Proof.
  intros [Hd Hr Hids Ha Hlv Hde Hmk] Hm. split; cbn [seqs values]; try done.
  - intros j l xs Hl Hx. by apply rep_meta, (Hr j).
  - intros q mq. unfold meta_at. rewrite count_upd, in_list_upd, storage_upd. destruct (decide (q = p)) as [->|Hne].
    + rewrite lookup_insert_eq. intros [= <-]. destruct (Hlv p m Hm) as (? & ? & Hma & Hz). unfold meta_at in Hma. split_and!; try done.
      * destruct (storage (slot_at h p)); [|done]. cbn in *. by injection Hma as ->.
      * intros Hi. by rewrite (Hz Hi).
    + rewrite lookup_insert_ne by done. apply Hlv.
  - intros q. destruct (decide (q = p)) as [->|Hne]; [by rewrite lookup_insert_eq|]. rewrite lookup_insert_ne by done. intros Hq.
    unfold upd. rewrite slot_at_set, decide_False by done. by apply Hde.
  - intros q. rewrite in_list_upd. apply Hmk.
Qed.

(** The ids that are taken when the list has one. *)
Definition ids_after h l : Z := list_id_allocator h + (if list_id l =? 0 then 1 else 0).

Lemma named_after h l h' l' : named h l h' l' -> list_id l' <> 0 -> ids_after h' l' = ids_after h l.
Proof.
  unfold ids_after. intros [(? & -> & ->)|(-> & -> & ->)] Hz; [done|]. rewrite (proj2 (Z.eqb_neq _ 0) Hz). cbn. lia.
Qed.

(** The cursor [c] stands at the position [i] of the list [j]. *)
Record editing h (ls : gmap nat LinkedList) (v : view) (j : nat) c (i : nat) : Prop := {
  ed_inv : winv h (<[j := clist c]> ls) v;
  ed_at : exists xs, seqs v !! j = Some xs /\ (i <= length xs)%nat /\ current c = xs !! i;
  ed_ids : ids_after h (clist c) <= MAX_LIST_ID;
}.

Lemma editing_nameable h ls v j c i : editing h ls v j c i -> nameable h (clist c).
Proof.
  intros [Hw _ Hi]. split; [apply Hw|]. intros Hz. unfold ids_after in Hi. rewrite Hz in Hi. cbn in Hi. lia.
Qed.

Lemma edit_rep h ls v j c i xs : editing h ls v j c i -> seqs v !! j = Some xs -> rep h (clist c) xs /\ (i <= length xs)%nat /\ current c = xs !! i.
Proof.
  intros [Hw (xs' & Hxs & Hi & Hc) _] Hx. assert (xs' = xs) as -> by congruence. split_and!; try done.
  apply (w_rep _ _ _ Hw j); [apply lookup_insert_eq|done].
Qed.

Lemma edit_insert h ls v j c i xs p : editing h ls v j c i -> seqs v !! j = Some xs -> loose_in v p ->
  exists c' h', insert_before h c p = Ret (c', h') /\ editing h' ls (mk_view (<[j := ins i p xs]> (seqs v)) (values v)) j c' (S i) /\
    ids_after h' (clist c') = ids_after h (clist c).
Proof.
  intros He Hx Hp. destruct (edit_rep _ _ _ _ _ _ _ He Hx) as (Hr & Hi & Hc). pose proof (ed_inv _ _ _ _ _ _ He) as Hw.
  destruct (winv_loose _ _ _ _ Hw Hp) as (m & _ & Hlo). assert (p ∉ xs) as Hnot by (by apply Hp in Hx).
  destruct c as [l cur]. cbn [clist current] in *. subst cur.
  destruct (insert_ok h l xs i p m Hr Hi Hlo Hnot (editing_nameable _ _ _ _ _ _ He) (rep_bound _ _ _ Hr)) as (l' & h' & Hins & Hr' & Hnm & Hch & Hmt).
  assert (list_id l' <> 0) as Hid. { apply (rep_id _ _ _ Hr'). unfold ins. by destruct (take i xs). }
  exists (mk_cur l' (xs !! i)), h'. split; [done|]. cbn [clist]. pose proof (named_after _ _ _ _ Hnm Hid) as Hids. split; [|done]. split; cbn [clist current].
  - rewrite <- (insert_insert_eq ls j l' l).
    apply (winv_update h (<[j := l]> ls) v j l xs h' l' (ins i p xs) (p :: xs) Hw); try done; [apply lookup_insert_eq|by left| | |].
    + intros q [->|Hq]%elem_of_cons; [by right|by left].
    + intros q Hq. by right.
    + intros q [->|Hq]%elem_of_cons; left; apply elem_of_ins; auto.
  - exists (ins i p xs). cbn [seqs]. rewrite lookup_insert_eq, ins_length, ins_lookup by done. split_and!; [done|lia|].
    rewrite !decide_False by lia. by replace (S i - 1)%nat with i by lia.
  - rewrite Hids. apply (ed_ids _ _ _ _ _ _ He).
Qed.

Lemma edit_take h ls v j c i xs p : editing h ls v j c i -> seqs v !! j = Some xs -> xs !! i = Some p ->
  exists c' h', take_current h c = Ret (Some p, c', h') /\ editing h' ls (mk_view (<[j := delete i xs]> (seqs v)) (values v)) j c' i /\
    ids_after h' (clist c') = ids_after h (clist c) /\ list_id_allocator h' = list_id_allocator h.
Proof.
  intros He Hx Hp. destruct (edit_rep _ _ _ _ _ _ _ He Hx) as (Hr & Hi & Hc). pose proof (ed_inv _ _ _ _ _ _ He) as Hw.
  pose proof (lookup_lt_Some _ _ _ Hp) as Hlt. destruct c as [l cur]. cbn [clist current] in *. rewrite Hp in Hc. subst cur.
  destruct (list_take_ok h l xs i p Hr Hp) as (l' & h' & Htk & Hr' & Hid & Hal & Hlo & Hch & Hmt).
  exists (mk_cur l' (xs !! S i)), h'. split; [done|]. cbn [clist]. unfold ids_after. rewrite Hid, Hal. split; [|done]. split; cbn [clist current].
  - rewrite <- (insert_insert_eq ls j l' l).
    apply (winv_update h (<[j := l]> ls) v j l xs h' l' (delete i xs) xs Hw); try done; [apply lookup_insert_eq|by right|by left|].
    intros q [k Hk]%list_elem_of_lookup. destruct (decide (k = i)) as [->|Hne]; [right; assert (q = p) as -> by congruence; done|left].
    apply list_elem_of_lookup. exists (if decide (k < i)%nat then k else Nat.pred k). rewrite delete_lookup. destruct (decide (k < i)%nat).
    + by rewrite decide_True.
    + rewrite decide_False by lia. by replace (S (Nat.pred k)) with k by lia.
  - exists (delete i xs). cbn [seqs]. rewrite lookup_insert_eq, delete_lookup, (length_delete xs i) by (rewrite Hp; done).
    split_and!; [done|lia|]. by rewrite decide_False by lia.
  - unfold ids_after. rewrite Hid, Hal. apply (ed_ids _ _ _ _ _ _ He).
Qed.

Lemma edit_move h ls v j c i xs i' cur' : editing h ls v j c i -> seqs v !! j = Some xs -> (i' <= length xs)%nat -> cur' = xs !! i' ->
  editing h ls v j (mk_cur (clist c) cur') i'.
Proof. intros [Hw _ Hid] Hx Hi ->. split; [done| |done]. by exists xs. Qed.

Lemma exec_cursor_ok h ls v j c i cmd a v' i' : editing h ls v j c i -> spec_cursor v j i cmd = Some (a, v', i') ->
  exists c' h', exec_cursor h c cmd = Ret (a, c', h') /\ editing h' ls v' j c' i' /\ ids_after h' (clist c') = ids_after h (clist c).
Proof.
  intros He Hs. pose proof (ed_at _ _ _ _ _ _ He) as (xs & Hx & _). destruct (edit_rep _ _ _ _ _ _ _ He Hx) as (Hr & Hi & Hc).
  unfold spec_cursor in Hs. rewrite Hx in Hs. cbn [mbind option_bind] in Hs. destruct cmd as [| |p| |f]; cbn [exec_cursor].
  - injection Hs as <- <- <-. unfold move_next. rewrite Hc. destruct (Nat.ltb_spec i (length xs)) as [Hlt|Hge].
    + destruct (lookup_lt_is_Some_2 xs i Hlt) as [q Hq]. rewrite Hq. destruct (rep_at _ _ _ _ _ Hr Hq) as [m Hm]. step (borrow_meta_ok _ _ _ Hm).
      eexists _, h. split; [done|]. split; [|done]. by eapply edit_move.
    + rewrite lookup_ge_None_2 by lia. cbn [mbind outcome_bind]. eexists _, h. split; [done|]. split; [|done]. eapply edit_move; [done|done|lia|].
      by rewrite (rep_front _ _ _ Hr), head_lookup.
  - injection Hs as <- <- <-. unfold move_prev. rewrite Hc. destruct (xs !! i) as [q|] eqn:Hq.
    + destruct (rep_at _ _ _ _ _ Hr Hq) as [m Hm]. step (borrow_meta_ok _ _ _ Hm). eexists _, h. split; [done|]. split; [|done].
      destruct i as [|i]; cbn [Nat.eqb Nat.pred before prev]; (eapply edit_move; [done|done|lia|]); [by rewrite lookup_ge_None_2|done].
    + apply lookup_ge_None_1 in Hq. assert (i = length xs) as -> by lia. cbn [mbind outcome_bind]. eexists _, h. split; [done|]. split; [|done].
      eapply edit_move; [done|done|by destruct (length xs); cbn; lia|]. rewrite (rep_back _ _ _ Hr), last_lookup. by destruct (length xs).
  - destruct (decide (loose_in v p)) as [Hp|]; [|done]. injection Hs as <- <- <-.
    destruct (edit_insert _ _ _ _ _ _ _ _ He Hx Hp) as (c' & h' & Hins & He' & Hid). step Hins. eauto.
  - destruct (xs !! i) as [q|] eqn:Hq; injection Hs as <- <- <-.
    + destruct (edit_take _ _ _ _ _ _ _ _ He Hx Hq) as (c' & h' & Htk & He' & Hid & _). step Htk. eauto.
    + unfold take_current. rewrite Hc. cbn [mbind outcome_bind]. eauto.
  - unfold current_meta. rewrite Hc. destruct (xs !! i) as [q|] eqn:Hq; [|injection Hs as <- <- <-; cbn [mbind outcome_bind]; eauto].
    destruct (values v !! q) as [m|] eqn:Hm; [|done]. cbn [mbind option_bind] in Hs. injection Hs as <- <- <-.
    destruct (rep_at _ _ _ _ _ Hr Hq) as [m' Hm']. step (borrow_meta_ok _ _ _ Hm'). step update_meta_ok by (by eapply rep_live). cbn [lmeta].
    destruct (w_live _ _ _ (ed_inv _ _ _ _ _ _ He) q m Hm) as (_ & _ & Hma & _). unfold meta_at in Hma. rewrite Hm' in Hma. injection Hma as ->.
    eexists _, _. split; [done|]. split; [|done]. destruct He as [Hw _ Hid]. split; [by apply (winv_meta h _ v q m f)|by exists xs; rewrite Hq|done].
Qed.

Lemma exec_script_ok cmds h ls v j c i an v' : editing h ls v j c i -> spec_script v j i cmds = Some (an, v') ->
  exists c' h' i', exec_script h c cmds = Ret (an, c', h') /\ editing h' ls v' j c' i' /\ ids_after h' (clist c') = ids_after h (clist c).
Proof.
  revert h v c i an. induction cmds as [|cmd cmds IH]; intros h v c i an He Hs; cbn [spec_script exec_script] in *.
  { injection Hs as <- <-. eauto 6. }
  destruct (spec_cursor v j i cmd) as [[[a v1] i1]|] eqn:H1; [|done]. cbn [mbind option_bind] in Hs.
  destruct (spec_script v1 j i1 cmds) as [[an' v2]|] eqn:H2; [|done]. cbn [mbind option_bind] in Hs. injection Hs as <- <-.
  destruct (exec_cursor_ok _ _ _ _ _ _ _ _ _ _ He H1) as (c1 & h1 & Hr1 & He1 & Hid1). step Hr1.
  destruct (IH _ _ _ _ _ He1 H2) as (c' & h' & i' & Hr & He' & Hid). step Hr. exists c', h', i'. split_and!; [done|done|congruence].
Qed.

(** *** Frames, lists and ids that come and go *)

(** Only the slot of a frame that is in no list changes. *)
Lemma winv_frame h ls v p s vals : winv h ls v -> (values v !! p = None \/ loose_in v p) -> in_list s = 0 ->
  (forall q, q <> p -> vals !! q = values v !! q) ->
  match vals !! p with
  | Some m => slot_addr p /\ ref_count s = REF_COUNT_UNIQUE /\ storage s = Some (link_new m)
  | None => s = unused_slot
  end -> winv (set_slot h p s) ls (mk_view (seqs v) vals).
Proof.
  intros Hw Hp Hz Hvals Hs. pose proof Hw as [Hd Hr Hids Ha Hlv Hde Hmk].
  assert (forall j xs, seqs v !! j = Some xs -> p ∉ xs) as Hno.
  { intros j xs Hx Hin. destruct Hp as [Hp|[_ Hp]]; [|by apply (Hp j xs)]. destruct (winv_listed _ _ _ _ _ _ Hw Hx Hin). congruence. }
  split; cbn [seqs values]; try done.
  - intros j l xs Hl Hx. apply (rep_same h); [by eapply Hr|]. intros q Hq. rewrite slot_at_set, decide_False; [done|]. intros ->. by apply (Hno j xs).
  - intros q m Hm. unfold meta_at. rewrite slot_at_set. destruct (decide (q = p)) as [->|Hne].
    + rewrite Hm in Hs. destruct Hs as (? & ? & ->). done.
    + apply Hlv. by rewrite <- Hvals.
  - intros q Hq. rewrite slot_at_set. destruct (decide (q = p)) as [->|Hne]; [by rewrite Hq in Hs|]. apply Hde. by rewrite <- Hvals.
  - intros q. rewrite slot_at_set. destruct (decide (q = p)) as [->|Hne]; [done|]. apply Hmk.
Qed.

Lemma winv_release h ls v p : winv h ls v -> loose_in v p ->
  winv (set_slot h p (unique_drop (slot_at h p))) ls (mk_view (seqs v) (delete p (values v))).
Proof.
  intros Hw Hp. destruct (winv_loose _ _ _ _ Hw Hp) as (m & _ & Hlo). apply (winv_frame h ls v); [done|by right|apply Hlo| |].
  - intros q Hq. by rewrite lookup_delete_ne.
  - rewrite lookup_delete_eq. unfold unique_drop, drop_last_in_place, drop_meta_in_place, drop_last_release, unique_drop_zero, store. cbn.
    by rewrite (lo_list _ _ _ Hlo).
Qed.

Lemma winv_alloc h ls v frame p m : winv h ls v -> get_slot frame = Ret (inl p) -> 0 <= frame ->
  exists s r, get_from_unused frame (link_new m) true (slot_at h p) = Ret (s, r) /\
    let '(a, vals) := match values v !! p with Some _ => (inr Unique, values v) | None => (inl p, <[p := m]> (values v)) end in
    r = a /\ winv (set_slot h p s) ls (mk_view (seqs v) vals).
Proof.
  intros Hw Hg Hf. assert (slot_addr p) as Haddr.
  { destruct (get_slot_spec frame Hf) as (_ & Hal & Hout). unfold get_slot in Hg. destruct (Z.eqb_spec (frame mod PAGE_SIZE) 0); [|done]. cbn [negb] in Hg.
    destruct (Z.leb_spec MAX_PADDR frame); [done|]. destruct (frame_to_meta frame) as [va|] eqn:Hva; [|done]. cbn in Hg. injection Hg as ->.
    exists frame. split; [|done]. split; [lia|done]. }
  unfold get_from_unused. rewrite Hg. cbn [mbind outcome_bind]. destruct (values v !! p) as [m'|] eqn:Hv.
  - destruct (w_live _ _ _ Hw p m' Hv) as (_ & Hc & _). unfold get_from_unused_claim, compare_exchange. rewrite Hc. cbn.
    eexists _, _. split; [done|]. split; [done|]. destruct Hw as [Hd Hr Hids Ha Hlv Hde Hmk].
    assert (forall q, slot_at (set_slot h p (slot_at h p)) q = slot_at h q) as Heq by (intros q; rewrite slot_at_set; by destruct (decide (q = p)) as [->|]).
    split; try done.
    + intros j l xs Hl Hx. apply (rep_same h); [by eapply Hr|]. intros q _. apply Heq.
    + intros q mq. unfold meta_at. rewrite Heq. apply Hlv.
    + intros q. rewrite Heq. apply Hde.
    + intros q. rewrite Heq. apply Hmk.
  - rewrite (w_dead _ _ _ Hw p Hv). cbn. eexists _, _. split; [done|]. split; [done|].
    apply (winv_frame h ls v); [done|by left|done| |by rewrite lookup_insert_eq].
    intros q Hq. by rewrite lookup_insert_ne.
Qed.

Lemma rep_nil h l : front l = None -> back l = None -> lsize l = 0 -> rep h l [].
Proof. intros Hf Hb Hs. split; try done. apply NoDup_nil. done. Qed.

Lemma winv_new h ls v j : winv h ls v -> seqs v !! j = None -> winv h (<[j := list_new]> ls) (mk_view (<[j := []]> (seqs v)) (values v)).
Proof.
  intros Hw Hj. pose proof Hw as [Hd Hr Hids Ha Hlv Hde Hmk].
  assert (ls !! j = None) as Hlj. { destruct (ls !! j) eqn:Hl; [|done]. destruct (proj1 (Hd j)); [eauto|congruence]. }
  split; cbn [seqs values]; try done.
  - intros j2. destruct (decide (j2 = j)) as [->|]; [by rewrite !lookup_insert_eq|]. by rewrite !lookup_insert_ne.
  - intros j2 l xs. destruct (decide (j2 = j)) as [->|]; [rewrite !lookup_insert_eq; intros [= <-] [= <-]; by apply rep_nil|].
    rewrite !lookup_insert_ne by done. apply Hr.
  - intros j1 j2 l1 l2. destruct (decide (j1 = j)) as [->|], (decide (j2 = j)) as [->|]; rewrite ?lookup_insert_eq, ?lookup_insert_ne by done; try done.
    + by intros [= <-] _.
    + intros _ [= <-] Hz Heq. by rewrite Heq in Hz.
    + apply Hids.
  - destruct Ha as [Hpos Ha]. split; [done|]. intros j2 l. destruct (decide (j2 = j)) as [->|]; [rewrite lookup_insert_eq; intros [= <-]; cbn; lia|].
    rewrite lookup_insert_ne by done. apply Ha.
  - intros p Hnz. destruct (Hmk p Hnz) as (j2 & l & xs & Hl & Hx & ?). exists j2, l, xs. assert (j2 <> j) by congruence. by rewrite !lookup_insert_ne.
Qed.

Lemma winv_remove h ls v j : winv h ls v -> seqs v !! j = Some [] -> winv h (delete j ls) (mk_view (delete j (seqs v)) (values v)).
Proof.
  intros Hw Hj. pose proof Hw as [Hd Hr Hids Ha Hlv Hde Hmk]. split; cbn [seqs values]; try done.
  - intros j2. destruct (decide (j2 = j)) as [->|]; [rewrite !lookup_delete_eq; by split; intros []|]. by rewrite !lookup_delete_ne.
  - intros j2 l xs [_ Hl]%lookup_delete_Some [_ Hx]%lookup_delete_Some. by eapply Hr.
  - intros j1 j2 l1 l2 [_ H1]%lookup_delete_Some [_ H2]%lookup_delete_Some. by apply Hids.
  - split; [apply Ha|]. intros j2 l [_ Hl]%lookup_delete_Some. by eapply Ha.
  - intros p Hnz. destruct (Hmk p Hnz) as (j2 & l & xs & Hl & Hx & Hid & Hin). exists j2, l, xs.
    assert (j2 <> j). { intros ->. assert (xs = []) as -> by congruence. by apply not_elem_of_nil in Hin. } by rewrite !lookup_delete_ne.
Qed.

(** *** Looking for a frame *)

Lemma winv_lazy h ls v j l xs : winv h ls v -> ls !! j = Some l -> seqs v !! j = Some xs -> list_id_allocator h < MAX_LIST_ID ->
  exists l' h', lazy_get_id h l = Ret (list_id l', l', h') /\ winv h' (<[j := l']> ls) v /\ ids_after h' l' = ids_after h l /\
    forall p, (in_list (slot_at h' p) =? list_id l') = listed p xs.
Proof.
  intros Hw Hl Hx Ha. pose proof (w_rep _ _ _ Hw j l xs Hl Hx) as Hr. pose proof (proj1 (w_alloc _ _ _ Hw)) as Hpos.
  destruct (lazy_ok h l) as (l' & h' & Hlz & Hnm & Hid & Hsl & Hf & Hb & Hs); [by split; [|intros _]|].
  assert (forall q, slot_at h' q = slot_at h q) as Hslot by (intros q; unfold slot_at; by rewrite Hsl).
  assert (rep h' l' xs) as Hr'.
  { apply (rep_same h); [|intros q _; apply Hslot]. destruct Hr as [Hn Hf0 Hb0 Hs0 Hid0 Hlk]. split; try congruence. intros i p Hp.
    replace (list_id l') with (list_id l); [by apply Hlk|]. destruct Hnm as [(_ & -> & _)|(Hz & _)]; [done|].
    exfalso. apply Hid0; [|done]. by intros ->. }
  assert (winv h' (<[j := l']> ls) v) as Hw'.
  { destruct v as [sq vals]. cbn [seqs] in Hx. rewrite <- (insert_id sq j xs Hx).
    apply (winv_update h ls (mk_view sq vals) j l xs h' l' xs xs Hw); try done; [by left|by intros q _|by intros q; unfold meta_at; rewrite Hslot|by left|by left]. }
  exists l', h'. split; [done|]. split; [done|]. split; [by apply named_after|]. intros p.
  assert (<[j := l']> ls !! j = Some l') as Hl' by apply lookup_insert_eq. apply Bool.eq_iff_eq_true. unfold listed. rewrite Z.eqb_eq, bool_decide_eq_true. split.
  - intros Heq. destruct (w_mark _ _ _ Hw' p) as (j2 & l2 & xs2 & Hl2 & Hx2 & Hid2 & Hin); [by rewrite Heq|].
    assert (j = j2) as <- by (apply (w_ids _ _ _ Hw' j j2 l' l2); [done|done|done|congruence]). congruence.
  - intros Hp. destruct (rep_elem _ _ _ _ Hr' Hp) as (i & _ & [_ _ _ Hlk] & _). done.
Qed.

Lemma spec_slot_ok frame r : spec_slot frame = Some r -> 0 <= frame /\ get_slot frame = Ret r.
Proof. unfold spec_slot. destruct (decide (0 <= frame)); [|done]. destruct (get_slot frame); [|done]. by intros [= ->]. Qed.

Lemma get_slot_meta frame p : get_slot frame = Ret (inl p) -> frame_to_meta frame = Ret p.
Proof.
  unfold get_slot. destruct (negb _); [done|]. destruct (_ <=? _); [done|]. destruct (frame_to_meta frame); [|done]. cbn. by intros [= ->].
Qed.

(** Opening a cursor. *)
Lemma open_ok h ls v j l xs pl start : winv h ls v -> ls !! j = Some l -> seqs v !! j = Some xs -> list_id_allocator h < MAX_LIST_ID ->
  spec_place xs pl = Some start ->
  exists cur l' h', open_cursor h l pl = Ret (cur, l', h') /\ winv h' (<[j := l']> ls) v /\ ids_after h' l' = ids_after h l /\
    match start with None => cur = None | Some i => exists c, cur = Some c /\ clist c = l' /\ (i <= length xs)%nat /\ current c = xs !! i end.
Proof.
  intros Hw Hl Hx Ha Hpl. pose proof (w_rep _ _ _ Hw j l xs Hl Hx) as Hr.
  destruct pl as [| |frame]; cbn [spec_place open_cursor] in *.
  - injection Hpl as <-. exists (Some (cursor_front_mut l)), l, h. rewrite insert_id by done. split_and!; try done.
    eexists. split; [done|]. cbn. rewrite (rep_front _ _ _ Hr), head_lookup. split_and!; [done|lia|done].
  - injection Hpl as <-. exists (Some (cursor_back_mut l)), l, h. rewrite insert_id by done. split_and!; try done.
    eexists. split; [done|]. cbn. rewrite (rep_back _ _ _ Hr), last_lookup. split_and!; [done|lia|done].
  - destruct (spec_slot frame) as [r|] eqn:Hs; [|done]. cbn [mbind option_bind] in Hpl. injection Hpl as <-. apply spec_slot_ok in Hs as [_ Hs].
    unfold cursor_mut_at. step Hs. destruct r as [p|err].
    2: { exists None, l, h. by rewrite insert_id. }
    destruct (winv_lazy _ _ _ _ _ _ Hw Hl Hx Ha) as (l' & h' & Hlz & Hw' & Hid & Hin). step Hlz. rewrite Hin. unfold listed.
    destruct (list_find (eq p) xs) as [[i q]|] eqn:Hfind.
    + apply list_find_Some in Hfind as (Hi & <- & _). rewrite bool_decide_true by (by eapply list_elem_of_lookup_2). step (get_slot_meta _ _ Hs).
      eexists _, l', h'. split; [done|]. split_and!; try done. eexists. split; [done|]. cbn. split_and!; [done| |done]. apply lookup_lt_Some in Hi. lia.
    + rewrite bool_decide_false. { by exists None, l', h'. }
      intros Hp. apply list_find_None in Hfind. rewrite Forall_forall in Hfind. by apply (Hfind p).
Qed.

(** *** Dropping a list *)

Lemma drop_values (vals : gmap Z M) (p : Z) (xs : list Z) :
  filter (fun kv => kv.1 ∉ xs) (delete p vals) = filter (fun kv => kv.1 ∉ p :: xs) vals.
Proof.
  apply map_eq. intros q. apply option_eq. intros m. rewrite !map_lookup_filter_Some, lookup_delete_Some, not_elem_of_cons. cbn. naive_solver.
Qed.

Lemma drop_ok (xs : list Z) h ls v j c : editing h ls v j c 0 -> seqs v !! j = Some xs ->
  exists c' h', drop_loop (S (length xs)) h c = Ret (c', h') /\ list_id_allocator h' = list_id_allocator h /\
    winv h' (<[j := clist c']> ls) (mk_view (<[j := []]> (seqs v)) (filter (fun kv => kv.1 ∉ xs) (values v))).
Proof.
  revert h v c. induction xs as [|p xs IH]; intros h v c He Hx; cbn [length drop_loop].
  - destruct (edit_rep _ _ _ _ _ _ _ He Hx) as (_ & _ & Hc). unfold take_current. rewrite Hc. cbn [mbind outcome_bind lookup list_lookup].
    exists c, h. split; [done|]. split; [done|]. rewrite (insert_id (seqs v) j [] Hx). destruct v as [sq vals]. cbn [seqs values] in *.
    rewrite map_filter_id; [apply He|]. intros q m _. apply not_elem_of_nil.
  - destruct (edit_rep _ _ _ _ _ _ _ He Hx) as (Hr & _ & _).
    destruct (edit_take h ls v j c 0 (p :: xs) p He Hx eq_refl) as (c1 & h1 & Htk & He1 & _ & Hal1). step Htk. cbn [delete list_delete] in He1.
    set (v1 := mk_view (<[j := xs]> (seqs v)) (values v)) in *. pose proof (ed_inv _ _ _ _ _ _ He1) as Hw1.
    assert (loose_in v1 p) as Hlo.
    { split.
      - apply elem_of_dom. cbn [v1 values]. apply (winv_listed h (<[j := clist c]> ls) v j (p :: xs) p (ed_inv _ _ _ _ _ _ He) Hx). by left.
      - intros j2 xs2. cbn [v1 seqs]. destruct (decide (j2 = j)) as [->|Hne].
        + rewrite lookup_insert_eq. intros [= <-]. pose proof (rep_nodup _ _ _ Hr) as Hn. by apply NoDup_cons in Hn as [? _].
        + rewrite lookup_insert_ne by done. intros Hx2 Hin. apply Hne.
          apply (winv_disjoint h (<[j := clist c]> ls) v j2 j xs2 (p :: xs) p (ed_inv _ _ _ _ _ _ He)); try done. by left. }
    pose proof (winv_release _ _ _ _ Hw1 Hlo) as Hw2. cbn [v1 seqs values] in Hw2.
    destruct (IH (set_slot h1 p (unique_drop (slot_at h1 p))) (mk_view (<[j := xs]> (seqs v)) (delete p (values v))) c1) as (c' & h' & Hd & Hal & Hw').
    { destruct He1 as [_ Hat1 Hids1]. split; [done| |done]. destruct Hat1 as (ys & Hy & ? & ?). cbn [v1 seqs] in *. exists ys. split_and!; done. }
    { apply lookup_insert_eq. }
    exists c', h'. split; [done|]. split.
    + by rewrite Hal.
    + cbn [seqs values] in Hw'. by rewrite insert_insert_eq, drop_values in Hw'.
Qed.

(** *** A step of a history *)

Lemma ids_bound h l h' l' : ids_after h' l' = ids_after h l -> list_id_allocator h' <= list_id_allocator h + 1.
Proof. unfold ids_after. destruct (list_id l' =? 0), (list_id l =? 0); lia. Qed.

Lemma editing_start h ls v j l xs c i : winv h ls v -> ls !! j = Some l -> seqs v !! j = Some xs -> list_id_allocator h < MAX_LIST_ID ->
  clist c = l -> (i <= length xs)%nat -> current c = xs !! i -> editing h ls v j c i.
Proof.
  intros Hw Hl Hx Ha <- Hi Hc. split; [by rewrite insert_id|by exists xs|]. unfold ids_after. destruct (_ =? _); lia.
Qed.

Lemma pop_ok h ls v j l xs i : winv h ls v -> ls !! j = Some l -> seqs v !! j = Some xs -> list_id_allocator h < MAX_LIST_ID -> (i <= length xs)%nat ->
  exists c' h', take_current h (mk_cur l (xs !! i)) = Ret (xs !! i, c', h') /\
    winv h' (<[j := clist c']> ls) (mk_view (<[j := delete i xs]> (seqs v)) (values v)) /\ list_id_allocator h' = list_id_allocator h.
Proof.
  intros Hw Hl Hx Ha Hi. pose proof (editing_start h ls v j l xs (mk_cur l (xs !! i)) i Hw Hl Hx Ha eq_refl Hi eq_refl) as He.
  destruct (xs !! i) as [p|] eqn:Hp.
  - destruct (edit_take _ _ _ _ _ _ _ _ He Hx Hp) as (c' & h' & Htk & He' & _ & Hal). exists c', h'. split_and!; try done. apply He'.
  - exists (mk_cur l None), h. split_and!; try done. cbn [clist]. rewrite delete_take_drop, drop_ge, app_nil_r, take_ge by (apply lookup_ge_None_1 in Hp; lia).
    rewrite insert_id, insert_id by done. by destruct v.
Qed.

Lemma push_at_ok h (ls : gmap nat LinkedList) v (j : nat) l (xs : list Z) (i : nat) p : winv h ls v -> ls !! j = Some l -> seqs v !! j = Some xs -> list_id_allocator h < MAX_LIST_ID ->
  (i <= length xs)%nat -> loose_in v p ->
  exists c' h', insert_before h (mk_cur l (xs !! i)) p = Ret (c', h') /\
    winv h' (<[j := clist c']> ls) (mk_view (<[j := ins i p xs]> (seqs v)) (values v)) /\ list_id_allocator h' <= list_id_allocator h + 1.
Proof.
  intros Hw Hl Hx Ha Hi Hp. pose proof (editing_start h ls v j l xs (mk_cur l (xs !! i)) i Hw Hl Hx Ha eq_refl Hi eq_refl) as He.
  destruct (edit_insert _ _ _ _ _ _ _ _ He Hx Hp) as (c' & h' & Hins & He' & Hid). exists c', h'. split_and!; [done|apply He'|by eapply ids_bound].
Qed.

Lemma list_exec_ok h ls v o a v' : winv h ls v -> list_id_allocator h < MAX_LIST_ID -> spec v o = Some (a, v') ->
  exists h' ls', exec (h, ls) o = Ret (a, (h', ls')) /\ winv h' ls' v' /\ list_id_allocator h' <= list_id_allocator h + 1.
Proof.
  intros Hw Ha Hs.
  assert (forall j xs, seqs v !! j = Some xs -> exists l, ls !! j = Some l /\ rep h l xs) as Hget.
  { intros j xs Hx. destruct (proj2 (w_dom _ _ _ Hw j) (ex_intro _ _ Hx)) as [l Hl]. exists l. split; [done|]. by eapply w_rep. }
  destruct o as [frame m|p|j|j|j p|j p|j|j|j|j frame|j pl cmds]; cbn [spec exec] in *.
  3: { destruct (seqs v !! j) eqn:Hj; [done|]. injection Hs as <- <-. eexists _, _. split; [done|]. split; [by apply winv_new|lia]. }
  2: { destruct (decide (loose_in v p)) as [Hp|]; [|done]. injection Hs as <- <-. eexists _, _. split; [done|]. split; [by apply winv_release|cbn; lia]. }
  1: { destruct (spec_slot frame) as [r|] eqn:Hr; [|done]. cbn [mbind option_bind] in Hs. apply spec_slot_ok in Hr as [Hf Hr]. step Hr.
       destruct r as [p|err]; [|injection Hs as <- <-; eexists _, _; split; [done|]; split; [done|lia]].
       destruct (winv_alloc h ls v frame p m Hw Hr Hf) as (s & r & Hg & Hcase). step Hg. destruct (values v !! p); injection Hs as <- <-;
         destruct Hcase as [-> Hw']; (eexists _, _; split; [done|]; split; [|cbn; lia]); [by destruct v|done]. }
  all: destruct (seqs v !! j) as [xs|] eqn:Hx; [|done]; cbn [mbind option_bind] in Hs; destruct (Hget j xs Hx) as (l & Hl & Hr); rewrite Hl; cbn [mbind outcome_bind unwrap].
  - injection Hs as <- <-. unfold drop_list. rewrite (rep_size _ _ _ Hr), Nat2Z.id.
    destruct (drop_ok xs h ls v j (cursor_front_mut l)) as (c' & h' & Hd & Hal & Hw'); [|done|].
    { eapply editing_start; try done; [lia|]. cbn. by rewrite (rep_front _ _ _ Hr), head_lookup. }
    step Hd. eexists _, _. split; [done|]. split; [|lia]. apply (winv_remove _ _ _ j) in Hw'; [|apply lookup_insert_eq].
    cbn [seqs values] in Hw'. by rewrite !delete_insert_eq in Hw'.
  - destruct (decide (loose_in v p)) as [Hp|]; [|done]. injection Hs as <- <-.
    destruct (push_at_ok h ls v j l xs 0 p Hw Hl Hx Ha ltac:(lia) Hp) as (c' & h' & Hins & Hw' & Hal).
    unfold push_front, cursor_front_mut. rewrite (rep_front _ _ _ Hr), head_lookup. step Hins. eauto.
  - destruct (decide (loose_in v p)) as [Hp|]; [|done]. injection Hs as <- <-.
    destruct (push_at_ok h ls v j l xs (length xs) p Hw Hl Hx Ha ltac:(lia) Hp) as (c' & h' & Hins & Hw' & Hal).
    unfold push_back, cursor_at_ghost_mut. rewrite lookup_ge_None_2 in Hins by lia. step Hins. unfold ins in Hw'. rewrite take_ge, drop_ge in Hw' by lia. eauto.
  - injection Hs as <- <-. destruct (pop_ok h ls v j l xs 0 Hw Hl Hx Ha ltac:(lia)) as (c' & h' & Htk & Hw' & Hal).
    unfold pop_front, cursor_front_mut. rewrite (rep_front _ _ _ Hr), head_lookup. step Htk. eexists _, _. split; [done|]. split; [|lia]. by destruct xs.
  - injection Hs as <- <-. destruct (pop_ok h ls v j l xs (Nat.pred (length xs)) Hw Hl Hx Ha ltac:(lia)) as (c' & h' & Htk & Hw' & Hal).
    unfold pop_back, cursor_back_mut. rewrite (rep_back _ _ _ Hr), last_lookup. step Htk. eexists _, _. split; [done|]. split; [|lia].
    rewrite delete_take_drop, drop_ge, app_nil_r in Hw' by lia. done.
  - injection Hs as <- <-. unfold size. rewrite (rep_size _ _ _ Hr). eexists _, _. split; [done|]. split; [done|lia].
  - destruct (spec_slot frame) as [r|] eqn:Hsl; [|done]. cbn [mbind option_bind] in Hs. injection Hs as <- <-. apply spec_slot_ok in Hsl as [_ Hsl].
    unfold contains. step Hsl. destruct r as [p|err]; [|eexists _, _; split; [done|]; split; [by rewrite insert_id|lia]].
    destruct (winv_lazy _ _ _ _ _ _ Hw Hl Hx Ha) as (l' & h' & Hlz & Hw' & Hid & Hin). step Hlz. rewrite Hin.
    eexists _, _. split; [done|]. split; [done|by eapply ids_bound].
  - destruct (spec_place xs pl) as [start|] eqn:Hpl; [|done]. cbn [mbind option_bind] in Hs.
    destruct (open_ok _ _ _ _ _ _ _ _ Hw Hl Hx Ha Hpl) as (cur & l' & h' & Hop & Hw' & Hid & Hst). step Hop. destruct start as [i|].
    2: { subst cur. injection Hs as <- <-. eexists _, _. split; [done|]. split; [done|by eapply ids_bound]. }
    destruct Hst as (c & -> & Hcl & Hi & Hc). destruct (spec_script v j i cmds) as [[an v2]|] eqn:Hsc; [|done]. cbn [mbind option_bind] in Hs. injection Hs as <- <-.
    destruct (exec_script_ok cmds h' ls v j c i an v2) as (c2 & h2 & i2 & Hr2 & He2 & Hid2); [|done|].
    { split; [by rewrite Hcl|by exists xs|]. rewrite Hcl, Hid. unfold ids_after. destruct (_ =? _); lia. }
    step Hr2. eexists _, _. split; [done|]. split; [apply He2|]. eapply (ids_bound h l). rewrite Hid2, Hcl. exact Hid.
Qed.

Lemma list_run_ok os h ls v an v' : winv h ls v -> list_id_allocator h + Z.of_nat (length os) <= MAX_LIST_ID -> spec_run v os = Some (an, v') ->
  exists h' ls', run (h, ls) os = Ret (an, (h', ls')) /\ winv h' ls' v'.
Proof.
  revert h ls v an. induction os as [|o os IH]; intros h ls v an Hw Ha Hs; cbn [spec_run run length] in *.
  { injection Hs as <- <-. eauto. }
  destruct (spec v o) as [[a v1]|] eqn:H1; [|done]. cbn [mbind option_bind] in Hs.
  destruct (spec_run v1 os) as [[l v2]|] eqn:H2; [|done]. cbn [mbind option_bind] in Hs. injection Hs as <- <-.
  destruct (list_exec_ok h ls v o a v1 Hw ltac:(lia) H1) as (h1 & ls1 & Hr1 & Hw1 & Ha1). step Hr1.
  destruct (IH h1 ls1 v1 l Hw1 ltac:(lia) H2) as (h' & ls' & Hr & Hw'). step Hr. eauto.
Qed.

Lemma boot_inv : winv (mk_heap ∅ 1) ∅ (mk_view ∅ ∅).
Proof.
  split; cbn [seqs values]; try done.
  - intros j. rewrite !lookup_empty. by split; intros [].
Qed.

(** C13: the lists of frames behave as sequences.  Take any history of operations on any number of lists, from the start
    of the system: frames are put into use and given back, lists are made and dropped, frames are pushed, popped, looked
    for, and inserted and removed through cursors.  If the callers insert and give back only frames that they own, and
    there are fewer operations than list ids, then no operation panics, follows an invalid link or overflows, and every
    answer is the one that sequences of frames give. *)
Theorem frame_lists_refine (os : list op) (an : list answer) (v : view) : spec_run (mk_view ∅ ∅) os = Some (an, v) ->
  Z.of_nat (length os) < MAX_LIST_ID ->
  exists w, run boot_world os = Ret (an, w) /\
    forall j xs, seqs v !! j = Some xs -> exists l, w.2 !! j = Some l /\ rep w.1 l xs.
Proof.
  intros Hs Hlen. destruct (list_run_ok os (mk_heap ∅ 1) ∅ (mk_view ∅ ∅) an v boot_inv) as (h & ls & Hr & Hw); [cbn; lia|done|].
  exists (h, ls). split; [done|]. intros j xs Hx. destruct (proj2 (w_dom _ _ _ Hw j) (ex_intro _ _ Hx)) as [l Hl]. exists l. split; [done|]. by eapply w_rep.
Qed.
End frame_list.

(** ** Three frames in two lists *)

Module FrameListExample.
(** The slots of the frames at [0x1000], [0x2000] and [0x3000]. *)
Definition slot1 : Z := 0xffffe00000000040.
Definition slot2 : Z := 0xffffe00000000080.
Definition slot3 : Z := 0xffffe000000000c0.

Definition history : list (op (M := nat)) :=
  [Alloc 0x1000 1%nat; Alloc 0x2000 2%nat; Alloc 0x3000 3%nat; Alloc 0x2000 5%nat; NewList 0; NewList 1;
   PushFront 0 slot1; PushBack 0 slot2; PushFront 0 slot3; Contains 0 0x2000; Contains 1 0x2000;
   Edit 0 (AtFrame 0x1000) [Meta S; Take; MovePrev; Insert slot1; MovePrev; Meta id];
   PopBack 0; PushBack 1 slot2; Edit 1 (AtFrame 0x1000) [Take]; Size 0; DropList 0; Alloc 0x1000 6%nat].

Definition answers : list (answer (M := nat)) :=
  [Allocated (inl slot1); Allocated (inl slot2); Allocated (inl slot3); Allocated (inr Unique); Done; Done;
   Done; Done; Done; Truth true; Truth false;
   Answers [Value (Some 1%nat); Handle (Some slot1); Done; Done; Done; Value (Some 2%nat)];
   Handle (Some slot2); Done; NoCursor; Number 2; Done; Allocated (inl slot1)].

Lemma frame_lists_refine_witness : exists w, run boot_world history = Ret (answers, w) /\
  exists l, w.2 !! 1%nat = Some l /\ rep w.1 l [slot2].
Proof.
  destruct (spec_run (mk_view ∅ ∅) history) as [[an v]|] eqn:Hs; [|vm_compute in Hs; discriminate].
  destruct (frame_lists_refine history an v Hs eq_refl) as (w & Hr & Hl). vm_compute in Hs. injection Hs as <- <-.
  exists w. split; [exact Hr|]. apply (Hl 1%nat [slot2]). reflexivity.
Defined.

(** The same run, evaluated; the frames of the dropped list are unused again. *)
Example history_run :
  match run boot_world history with
  | Ret (l, w) => l = answers /\ slot_at w.1 slot3 = unused_slot /\ w.2 !! 0%nat = None /\
      w.2 !! 1%nat = Some (mk_list (Some slot2) (Some slot2) 1 2)
  | Panic => False
  end.
Proof. vm_compute. repeat split. Qed.
End FrameListExample.
