(* ===== verification/PageProp.v ===== *)
(** * [ostd/src/mm/page_prop.rs]: page properties

    The flag types are instances of the [bitflags!] macro (the build without
    the [cvm_guest] feature). *)

From S2P Require Import Prelude Bitflags.
Open Scope Z_scope.

Module PageFlags.
Definition R : flags := mk_flags 0x01.
Definition W : flags := mk_flags 0x02.
Definition X : flags := mk_flags 0x04.
Definition RW : flags := mk_flags 0x03.
Definition RX : flags := mk_flags 0x05.
Definition RWX : flags := mk_flags 0x07.
Definition ACCESSED : flags := mk_flags 0x08.
Definition DIRTY : flags := mk_flags 0x10.
Definition AVAIL1 : flags := mk_flags 0x40.
Definition AVAIL2 : flags := mk_flags 0x80.
Definition declared : list Z :=
  bits <$> [R; W; X; RW; RX; RWX; ACCESSED; DIRTY; AVAIL1; AVAIL2].
End PageFlags.

Module PrivFlags.
Definition USER : flags := mk_flags 0x01.
Definition GLOBAL : flags := mk_flags 0x02.
Definition declared : list Z := bits <$> [USER; GLOBAL].
End PrivFlags.

Inductive CachePolicy := Uncacheable | WriteCombining | WriteProtected | Writethrough | Writeback.
Global Instance CachePolicy_eq_dec : EqDecision CachePolicy.
Proof. solve_decision. Defined.

Record PageProperty := mk_prop { pflags : flags; cache : CachePolicy; priv_flags : flags }.
Global Instance PageProperty_eq_dec : EqDecision PageProperty.
Proof. solve_decision. Defined.

Definition new_user (f : flags) (c : CachePolicy) : PageProperty := mk_prop f c PrivFlags.USER.
Definition new_absent_prop : PageProperty := mk_prop empty Writeback empty.

(** [PageProperty::inv]: only declared bits. *)
Definition prop_inv (p : PageProperty) : Prop :=
  Z.land (bits (pflags p)) (bits (all PageFlags.declared)) = bits (pflags p) /\
  Z.land (bits (priv_flags p)) (bits (all PrivFlags.declared)) = bits (priv_flags p).

Lemma prop_inv_bits p k :
  prop_inv p -> 0 <= k ->
  (Z.testbit (bits (pflags p)) k = true -> k ∈ [0; 1; 2; 3; 4; 6; 7]) /\
  (Z.testbit (bits (priv_flags p)) k = true -> k ∈ [0; 1]).
Proof.
  intros [H1 H2] Hk. change (bits (all PageFlags.declared)) with 0xDF in H1.
  change (bits (all PrivFlags.declared)) with 3 in H2.
  assert (Hc : forall m x, 0 <= x < 256 -> m = x -> Z.testbit x k = true -> k < 8).
  { intros m x Hx _ Hb. apply (uint_bits 8) in Hx as [_ Hx]; [|lia].
    destruct (Z.lt_ge_cases k 8); [done|]. rewrite Hx in Hb by lia. done. }
  split; intros Hb.
  - rewrite <- H1, Z.land_spec in Hb. apply andb_true_iff in Hb as [_ Hb].
    pose proof (Hc 0xDF 0xDF ltac:(lia) eq_refl Hb).
    assert (k ∈ seqZ 0 8) as Hin by (apply elem_of_seqZ; lia). cbn in Hin.
    repeat (apply elem_of_cons in Hin as [->|Hin]; [set_solver || done|]). set_solver.
  - rewrite <- H2, Z.land_spec in Hb. apply andb_true_iff in Hb as [_ Hb].
    pose proof (Hc 3 3 ltac:(lia) eq_refl Hb).
    assert (k ∈ seqZ 0 8) as Hin by (apply elem_of_seqZ; lia). cbn in Hin.
    repeat (apply elem_of_cons in Hin as [->|Hin]; [set_solver || done|]). set_solver.
Qed.
