(* ===== verification/Pte.v ===== *)
(** * The page table entry interface

    [PageTableEntryTrait] of [ostd/src/mm/page_table/mod.rs]: what an
    architecture's page table entry offers to the page table code, and the laws
    its specification states.  The page table code is proved against this
    interface; each architecture is an instance. *)

From S2P Require Import Prelude AlignExt Paging PageProp.
Open Scope Z_scope.

Class PageTableEntryTrait (E : Type) := {
  new_absent : E;
  is_present : E -> bool;
  new_page : Z -> Z -> PageProperty -> outcome E;
  new_pt : Z -> E;
  paddr : E -> Z;
  prop : E -> outcome PageProperty;
  set_prop : E -> PageProperty -> outcome E;
  is_last : E -> Z -> bool;
}.

Class PageTableEntryLaws E `{PageTableEntryTrait E} := {
  (** [new_page_req] and [set_prop_req] with a cache policy that does not panic. *)
  prop_req : PageProperty -> Prop;
  (** A value of the entry type. *)
  pte_wf : E -> Prop;
  new_absent_wf : pte_wf new_absent;
  new_absent_law : is_present new_absent = false;
  new_page_law pa level p :
    0 <= pa < MAX_PADDR -> prop_req p ->
    exists e, new_page pa level p = Ret e /\ pte_wf e /\ is_present e = true /\
      is_last e level = true /\ paddr e = nat_align_down pa PAGE_SIZE /\ prop e = Ret p;
  new_pt_law pa level :
    0 <= pa < MAX_PADDR -> 1 < level ->
    pte_wf (new_pt pa) /\ is_present (new_pt pa) = true /\ is_last (new_pt pa) level = false /\
    paddr (new_pt pa) = nat_align_down pa PAGE_SIZE;
  set_prop_law e p :
    pte_wf e -> is_present e = true -> prop_req p ->
    exists e', set_prop e p = Ret e' /\ pte_wf e' /\ is_present e' = true /\ prop e' = Ret p /\
      paddr e' = paddr e /\ forall level, is_last e level = true -> is_last e' level = true;
  set_prop_absent_law e p : is_present e = false -> set_prop e p = Ret e;
}.
