(* ===== verification/PteBits.v ===== *)
(** * Flags in page table entries

    The macro [parse_flags!], which every architecture defines in the same way to move
    a flag from one position to another, its meaning bit by bit, and the finite set of
    page properties, over which facts about encodings are checked by evaluation. *)

From S2P Require Import Prelude AlignExt Bitflags Paging PageProp Pte.
Open Scope Z_scope.

(** [(val & from) >> from.ilog2() << to.ilog2()] *)
Definition parse_flags (val from to : Z) : Z :=
  Z.shiftl (Z.shiftr (Z.land val from) (Z.log2 from)) (Z.log2 to).

Definition bit_if (b : bool) (j : Z) : Z := if b then 2 ^ j else 0.

Lemma testbit_bit_if b j k : 0 <= j -> Z.testbit (bit_if b j) k = b && (k =? j).
Proof. intros. unfold bit_if. destruct b; [by apply testbit_pow2|by apply Z.bits_0]. Qed.

Lemma parse_flags_bit v i j :
  0 <= i -> 0 <= j -> parse_flags v (2 ^ i) (2 ^ j) = bit_if (Z.testbit v i) j.
Proof.
  intros Hi Hj. unfold parse_flags. rewrite !Z.log2_pow2 by done.
  apply Z.bits_inj'. intros k Hk.
  rewrite testbit_bit_if, Z.shiftl_spec by done.
  destruct (Z.lt_ge_cases k j).
  - rewrite Z.testbit_neg_r by lia. destruct (Z.eqb_spec k j); [lia|]. by rewrite andb_false_r.
  - rewrite Z.shiftr_spec, Z.land_spec, testbit_pow2 by lia.
    destruct (Z.eqb_spec (k - j + i) i), (Z.eqb_spec k j); try lia.
    subst k. by replace (j - j + i) with i by lia.
Qed.

Lemma uint_pow2 w j : 0 <= j < w -> uint w (2 ^ j).
Proof. intros. split; [apply Z.pow_nonneg; lia|]. apply Z.pow_lt_mono_r; lia. Qed.

Lemma uint_bit_if w b j : 0 <= j < w -> uint w (bit_if b j).
Proof.
  intros. unfold bit_if. destruct b; [by apply uint_pow2|]. split; [lia|]. apply pow2_pos. lia.
Qed.

Lemma prop_inv_uint p : prop_inv p -> uint 8 (bits (pflags p)) /\ uint 8 (bits (priv_flags p)).
Proof.
  intros [H1 H2]. rewrite <- H1, <- H2.
  split; rewrite Z.land_comm; apply uint_land; [lia|split; done|lia|split; done].
Qed.

Lemma land_flag_bit v k : 0 <= k -> negb (Z.land v (Z.shiftl 1 k) =? 0) = Z.testbit v k.
Proof. intros. rewrite Z.shiftl_1_l. by apply land_pow2_testbit. Qed.

(** Eight bits, one by one. *)
Lemma uint8_eq x y : uint 8 x -> uint 8 y ->
  Z.testbit x 0 = Z.testbit y 0 -> Z.testbit x 1 = Z.testbit y 1 -> Z.testbit x 2 = Z.testbit y 2 ->
  Z.testbit x 3 = Z.testbit y 3 -> Z.testbit x 4 = Z.testbit y 4 -> Z.testbit x 5 = Z.testbit y 5 ->
  Z.testbit x 6 = Z.testbit y 6 -> Z.testbit x 7 = Z.testbit y 7 -> x = y.
Proof.
  intros Hx Hy. intros. apply (uint_eq_bits 8); [lia|done|done|]. intros k Hk.
  assert (k = 0 \/ k = 1 \/ k = 2 \/ k = 3 \/ k = 4 \/ k = 5 \/ k = 6 \/ k = 7)
    as [-> |[-> |[-> |[-> |[-> |[-> |[-> | ->]]]]]]] by lia; done.
Qed.

Lemma from_bits_known decl x : Z.land x (bits (all decl)) = x -> from_bits decl x = Some (mk_flags x).
Proof.
  intros Hx. unfold from_bits, from_bits_truncate. cbn -[all]. by rewrite Hx, Z.eqb_refl.
Qed.

(** ** All page properties *)

Definition all_caches : list CachePolicy := [Uncacheable; WriteCombining; WriteProtected; Writethrough; Writeback].
Definition all_props : list PageProperty :=
  f ← filter (fun f => Z.land f (bits (all PageFlags.declared)) = f) (seqZ 0 256); c ← all_caches; pf ← seqZ 0 4; [mk_prop (mk_flags f) c (mk_flags pf)].

Lemma all_props_complete p : prop_inv p -> p ∈ all_props.
Proof.
  intros Hi. pose proof (prop_inv_uint p Hi) as [Hf _]. destruct Hi as [Hd Hp]. destruct p as [[f] c [pf]]. change (uint 8 f) in Hf.
  change (Z.land pf (Z.ones 2) = pf) in Hp. rewrite Z.land_ones in Hp by lia. pose proof (Z.mod_pos_bound pf (2 ^ 2)).
  unfold all_props. apply list_elem_of_bind. exists f. split; [|apply list_elem_of_filter; split; [exact Hd|apply elem_of_seqZ; destruct Hf; lia]].
  apply list_elem_of_bind. exists c. split; [|destruct c; set_solver].
  apply list_elem_of_bind. exists pf. split; [set_solver|apply elem_of_seqZ; lia].
Qed.

(** A decidable fact about all properties is checked by evaluation. *)
Lemma all_props_check (f : PageProperty -> bool) : forallb f all_props = true -> forall p, prop_inv p -> f p = true.
Proof. intros Hf p Hp. rewrite forallb_forall in Hf. apply Hf. apply list_elem_of_In, all_props_complete, Hp. Qed.

(** ** Words in fields *)

(** A flag of a word lies in any mask that has the flag. *)
Lemma parse_flags_mask v mask from to : Z.land mask from = from -> parse_flags (Z.land v mask) from to = parse_flags v from to.
Proof. intros Hm. unfold parse_flags. by rewrite <- Z.land_assoc, Hm. Qed.

Lemma land_mask v mask from : Z.land mask from = from -> Z.land (Z.land v mask) from = Z.land v from.
Proof. intros Hm. by rewrite <- Z.land_assoc, Hm. Qed.

Lemma parse_unot_mask v mask from to : uint 64 from -> Z.land mask from = from ->
  parse_flags (unot 64 (Z.land v mask)) from to = parse_flags (unot 64 v) from to.
Proof.
  intros Hf Hm. unfold parse_flags. do 2 f_equal. apply (uint_eq_bits 64); [lia|rewrite Z.land_comm; by apply uint_land..|].
  intros k Hk. rewrite !Z.land_spec, !testbit_unot, Z.land_spec by lia. rewrite <- Hm, Z.land_spec.
  destruct (Z.testbit v k), (Z.testbit mask k), (Z.testbit from k); done.
Qed.

(** A word made of an address field and flags outside of it. *)
Lemma field_split v mask fl other : Z.land mask other = 0 -> Z.land fl other = fl ->
  Z.land (Z.lor (Z.land v mask) fl) other = fl.
Proof. intros Hm Hf. by rewrite Z.land_lor_distr_l, <- Z.land_assoc, Hm, Z.land_0_r, Hf. Qed.

Lemma field_address v mask fl : Z.land fl mask = 0 -> Z.land (Z.lor (Z.land v mask) fl) mask = Z.land v mask.
Proof. intros Hf. by rewrite Z.land_lor_distr_l, <- Z.land_assoc, Z.land_diag, Hf, Z.lor_0_r. Qed.
