(* ===== verification/PteX86.v ===== *)
(** * [ostd/src/arch/x86/mm/mod.rs]: the x86-64 page table entry

    The entry is a 64-bit word; flags are moved between the word and a page
    property bit by bit with the macro [parse_flags!].  The build without the
    [cvm_guest] feature is modelled. *)

From S2P Require Import Prelude AlignExt Bitflags Paging PageProp Pte PteBits.
Open Scope Z_scope.

Module PageTableFlags.
Definition PRESENT : Z := Z.shiftl 1 0.
Definition WRITABLE : Z := Z.shiftl 1 1.
Definition USER : Z := Z.shiftl 1 2.
Definition WRITE_THROUGH : Z := Z.shiftl 1 3.
Definition NO_CACHE : Z := Z.shiftl 1 4.
Definition ACCESSED : Z := Z.shiftl 1 5.
Definition DIRTY : Z := Z.shiftl 1 6.
Definition HUGE : Z := Z.shiftl 1 7.
Definition GLOBAL : Z := Z.shiftl 1 8.
Definition HIGH_IGN1 : Z := Z.shiftl 1 52.
Definition HIGH_IGN2 : Z := Z.shiftl 1 53.
Definition NO_EXECUTE : Z := Z.shiftl 1 63.
End PageTableFlags.

Module F := PageTableFlags.

Definition PHYS_ADDR_MASK : Z := 0xFFFFFFFFFF000.
Definition PROP_MASK : Z := Z.land (unot 64 PHYS_ADDR_MASK) (unot 64 0x80).

Record PageTableEntry := mk_pte { raw : Z }.

Definition x86_new_absent : PageTableEntry := mk_pte 0.

Definition x86_is_present (self : PageTableEntry) : bool :=
  negb (Z.land (raw self) F.PRESENT =? 0) || negb (Z.land (raw self) F.HUGE =? 0).

Definition x86_prop (self : PageTableEntry) : outcome PageProperty :=
  let v := raw self in
  let flags :=
    Z.lor (Z.lor (Z.lor (Z.lor (Z.lor (Z.lor
      (parse_flags v F.PRESENT (bits PageFlags.R))
      (parse_flags v F.WRITABLE (bits PageFlags.W)))
      (parse_flags (unot 64 v) F.NO_EXECUTE (bits PageFlags.X)))
      (parse_flags v F.ACCESSED (bits PageFlags.ACCESSED)))
      (parse_flags v F.DIRTY (bits PageFlags.DIRTY)))
      (parse_flags v F.HIGH_IGN1 (bits PageFlags.AVAIL1)))
      (parse_flags v F.HIGH_IGN2 (bits PageFlags.AVAIL2)) in
  let privf :=
    Z.lor (parse_flags v F.USER (bits PrivFlags.USER))
      (parse_flags v F.GLOBAL (bits PrivFlags.GLOBAL)) in
  let c := if negb (Z.land v F.NO_CACHE =? 0) then Uncacheable
           else if negb (Z.land v F.WRITE_THROUGH =? 0) then Writethrough else Writeback in
  f ← unwrap (from_bits PageFlags.declared (flags mod 2 ^ 8));
  pf ← unwrap (from_bits PrivFlags.declared (privf mod 2 ^ 8));
  mret (mk_prop f c pf).

(** The flags of [set_prop] before the cache policy. *)
Definition x86_prop_flags (prop : PageProperty) : Z :=
  let pf := bits (pflags prop) in
  let vf := bits (priv_flags prop) in
  Z.lor (Z.lor (Z.lor (Z.lor (Z.lor (Z.lor (Z.lor (Z.lor (Z.lor 0
    (parse_flags pf (bits PageFlags.R) F.PRESENT))
    (parse_flags pf (bits PageFlags.W) F.WRITABLE))
    (parse_flags (unot 8 pf) (bits PageFlags.X) F.NO_EXECUTE))
    (parse_flags pf (bits PageFlags.ACCESSED) F.ACCESSED))
    (parse_flags pf (bits PageFlags.DIRTY) F.DIRTY))
    (parse_flags pf (bits PageFlags.AVAIL1) F.HIGH_IGN1))
    (parse_flags pf (bits PageFlags.AVAIL2) F.HIGH_IGN2))
    (parse_flags vf (bits PrivFlags.USER) F.USER))
    (parse_flags vf (bits PrivFlags.GLOBAL) F.GLOBAL).

Definition x86_set_prop (self : PageTableEntry) (prop : PageProperty) : outcome PageTableEntry :=
  if negb (x86_is_present self) then mret self else
  let flags := x86_prop_flags prop in
  flags ← (match cache prop with
           | Writeback => mret flags
           | Writethrough => mret (Z.lor flags F.WRITE_THROUGH)
           | Uncacheable => mret (Z.lor flags F.NO_CACHE)
           | _ => Panic
           end);
  mret (mk_pte (Z.lor (Z.land (raw self) (unot 64 PROP_MASK)) flags)).

Definition x86_new_page (pa _level : Z) (prop : PageProperty) : outcome PageTableEntry :=
  x86_set_prop (mk_pte (Z.lor (Z.land pa PHYS_ADDR_MASK) F.HUGE)) prop.

Definition x86_new_pt (pa : Z) : PageTableEntry :=
  mk_pte (Z.lor (Z.land pa PHYS_ADDR_MASK) (Z.lor (Z.lor F.PRESENT F.WRITABLE) F.USER)).

Definition x86_paddr (self : PageTableEntry) : Z := Z.land (raw self) PHYS_ADDR_MASK.

Definition x86_is_last (self : PageTableEntry) (_level : Z) : bool :=
  negb (Z.land (raw self) F.HUGE =? 0).

Global Instance x86_PageTableEntry : PageTableEntryTrait PageTableEntry := {
  new_absent := x86_new_absent;
  is_present := x86_is_present;
  new_page := x86_new_page;
  new_pt := x86_new_pt;
  paddr := x86_paddr;
  prop := x86_prop;
  set_prop := x86_set_prop;
  is_last := x86_is_last;
}.

(** ** Flags bit by bit *)

(** The bits a property puts into an entry: those of the flags and of the cache policy. *)
Definition prop_bit (p : PageProperty) (k : Z) : bool :=
  let pf := bits (pflags p) in let vf := bits (priv_flags p) in
  (Z.testbit pf 0 && (k =? 0)) || (Z.testbit pf 1 && (k =? 1)) ||
  (negb (Z.testbit pf 2) && (k =? 63)) || (Z.testbit pf 3 && (k =? 5)) ||
  (Z.testbit pf 4 && (k =? 6)) || (Z.testbit pf 6 && (k =? 52)) || (Z.testbit pf 7 && (k =? 53)) ||
  (Z.testbit vf 0 && (k =? 2)) || (Z.testbit vf 1 && (k =? 8)) ||
  (bool_decide (cache p = Writethrough) && (k =? 3)) || (bool_decide (cache p = Uncacheable) && (k =? 4)).

Definition supported_cache (c : CachePolicy) : bool :=
  match c with Writeback | Writethrough | Uncacheable => true | _ => false end.

Lemma x86_prop_flags_bits p :
  uint 64 (x86_prop_flags p) /\
  forall k, 0 <= k < 64 -> prop_bit p k = Z.testbit (x86_prop_flags p) k ||
    (bool_decide (cache p = Writethrough) && (k =? 3)) || (bool_decide (cache p = Uncacheable) && (k =? 4)).
Proof.
  unfold x86_prop_flags.
  change (bits PageFlags.R) with (2 ^ 0). change (bits PageFlags.W) with (2 ^ 1).
  change (bits PageFlags.X) with (2 ^ 2). change (bits PageFlags.ACCESSED) with (2 ^ 3).
  change (bits PageFlags.DIRTY) with (2 ^ 4). change (bits PageFlags.AVAIL1) with (2 ^ 6).
  change (bits PageFlags.AVAIL2) with (2 ^ 7). change (bits PrivFlags.USER) with (2 ^ 0).
  change (bits PrivFlags.GLOBAL) with (2 ^ 1).
  change F.PRESENT with (2 ^ 0). change F.WRITABLE with (2 ^ 1). change F.USER with (2 ^ 2).
  change F.ACCESSED with (2 ^ 5).
  change F.DIRTY with (2 ^ 6). change F.GLOBAL with (2 ^ 8). change F.HIGH_IGN1 with (2 ^ 52).
  change F.HIGH_IGN2 with (2 ^ 53). change F.NO_EXECUTE with (2 ^ 63).
  rewrite !parse_flags_bit, testbit_unot by lia. split.
  - repeat (apply uint_lor; [lia| |apply uint_bit_if; lia]). split; lia.
  - intros k Hk. unfold prop_bit. by rewrite !Z.lor_spec, Z.bits_0, !testbit_bit_if by lia.
Qed.

Lemma x86_set_prop_bits self p :
  x86_is_present self = true ->
  match x86_set_prop self p with
  | Ret pte => supported_cache (cache p) = true /\ (uint 64 (raw self) -> uint 64 (raw pte)) /\
      forall k, 0 <= k < 64 -> Z.testbit (raw pte) k =
        (Z.testbit (raw self) k && negb (Z.testbit PROP_MASK k)) || prop_bit p k
  | Panic => supported_cache (cache p) = false
  end.
Proof.
  intros Hp. unfold x86_set_prop. rewrite Hp. cbn [negb].
  destruct (x86_prop_flags_bits p) as [Hu Hb]. set (fl := x86_prop_flags p) in *.
  change F.WRITE_THROUGH with (2 ^ 3). change F.NO_CACHE with (2 ^ 4).
  clearbody fl.
  assert (Hfin : forall x, uint 64 x ->
    (forall k, 0 <= k < 64 -> Z.testbit x k = prop_bit p k) ->
    (uint 64 (raw self) -> uint 64 (Z.lor (Z.land (raw self) (unot 64 PROP_MASK)) x)) /\
    forall k, 0 <= k < 64 -> Z.testbit (Z.lor (Z.land (raw self) (unot 64 PROP_MASK)) x) k =
      (Z.testbit (raw self) k && negb (Z.testbit PROP_MASK k)) || prop_bit p k).
  { intros x Hx Hxb. split.
    - intros Hr. apply uint_lor; [lia|by apply uint_land|done].
    - intros k Hk. by rewrite Z.lor_spec, Z.land_spec, testbit_unot, Hxb by lia. }
  destruct (cache p) eqn:Ec; cbn [mbind outcome_bind mret outcome_ret supported_cache raw]; try done;
    (split; [done|]); apply Hfin; try done; try (apply uint_lor; [lia|done|by apply uint_pow2; lia]);
    intros k Hk; rewrite Hb, ?Z.lor_spec, ?testbit_pow2 by lia; cbn.
  - by rewrite orb_false_r.
  - by rewrite orb_false_r.
  - by rewrite !orb_false_r.
Qed.

Lemma prop_bit_at p :
  let pf := bits (pflags p) in let vf := bits (priv_flags p) in
  prop_bit p 0 = Z.testbit pf 0 /\ prop_bit p 1 = Z.testbit pf 1 /\ prop_bit p 63 = negb (Z.testbit pf 2) /\
  prop_bit p 5 = Z.testbit pf 3 /\ prop_bit p 6 = Z.testbit pf 4 /\ prop_bit p 52 = Z.testbit pf 6 /\
  prop_bit p 53 = Z.testbit pf 7 /\ prop_bit p 2 = Z.testbit vf 0 /\ prop_bit p 8 = Z.testbit vf 1 /\
  prop_bit p 3 = bool_decide (cache p = Writethrough) /\ prop_bit p 4 = bool_decide (cache p = Uncacheable) /\
  prop_bit p 7 = false /\ forall k, 12 <= k < 52 -> prop_bit p k = false.
Proof.
  cbn zeta. unfold prop_bit.
  split_and!; try (cbn -[Z.testbit bool_decide];
    by rewrite ?andb_false_r, ?andb_true_r, ?orb_false_r).
  intros k Hk. repeat match goal with |- context [k =? ?n] =>
    replace (k =? n) with false by (symmetry; apply Z.eqb_neq; lia) end.
  by rewrite !andb_false_r.
Qed.

(** The bits of an entry that hold the property [p]. *)
Definition encodes (v : Z) (p : PageProperty) : Prop :=
  forall k, k ∈ [0; 1; 2; 3; 4; 5; 6; 8; 52; 53; 63] -> Z.testbit v k = prop_bit p k.

Lemma x86_prop_encodes v p :
  encodes v p -> prop_inv p -> supported_cache (cache p) = true -> uint 64 v ->
  x86_prop (mk_pte v) = Ret p.
Proof.
  intros He Hinv Hc Hv. pose proof (prop_inv_uint p Hinv) as [Uf Up]. pose proof Hinv as [Kf Kp].
  destruct (prop_bit_at p) as (B0 & B1 & B63 & B5 & B6 & B52 & B53 & B2 & B8 & B3 & B4 & _ & _).
  unfold encodes in He.
  rewrite <- !He in B0, B1, B63, B5, B6, B52, B53, B2, B8, B3, B4 by set_solver.
  unfold x86_prop. cbn [raw].
  change F.PRESENT with (2 ^ 0). change F.WRITABLE with (2 ^ 1). change F.USER with (2 ^ 2).
  change F.ACCESSED with (2 ^ 5). change F.DIRTY with (2 ^ 6). change F.GLOBAL with (2 ^ 8).
  change F.HIGH_IGN1 with (2 ^ 52). change F.HIGH_IGN2 with (2 ^ 53). change F.NO_EXECUTE with (2 ^ 63).
  change (bits PageFlags.R) with (2 ^ 0). change (bits PageFlags.W) with (2 ^ 1).
  change (bits PageFlags.X) with (2 ^ 2). change (bits PageFlags.ACCESSED) with (2 ^ 3).
  change (bits PageFlags.DIRTY) with (2 ^ 4). change (bits PageFlags.AVAIL1) with (2 ^ 6).
  change (bits PageFlags.AVAIL2) with (2 ^ 7). change (bits PrivFlags.USER) with (2 ^ 0).
  change (bits PrivFlags.GLOBAL) with (2 ^ 1).
  rewrite !parse_flags_bit, testbit_unot by lia.
  rewrite B0, B1, B63, B5, B6, B52, B53, B2, B8, negb_involutive.
  unfold F.NO_CACHE, F.WRITE_THROUGH. rewrite (land_flag_bit v 3), (land_flag_bit v 4), B3, B4 by lia.
  match goal with |- context [from_bits PageFlags.declared (?x mod _)] =>
    assert (x mod 2 ^ 8 = bits (pflags p)) as -> end.
  { rewrite Z.mod_small by (repeat (apply uint_lor; [lia| |apply uint_bit_if; lia]); apply uint_bit_if; lia).
    apply uint8_eq; [repeat (apply uint_lor; [lia| |apply uint_bit_if; lia]); apply uint_bit_if; lia|done|..];
      rewrite !Z.lor_spec, !testbit_bit_if by lia; cbn -[Z.testbit];
      rewrite ?andb_false_r, ?andb_true_r, ?orb_false_r, ?orb_false_l; try done.
    symmetry. apply not_true_is_false. intros Hb. apply prop_inv_bits in Hb; [|done|lia]. set_solver. }
  match goal with |- context [from_bits PrivFlags.declared (?x mod _)] =>
    assert (x mod 2 ^ 8 = bits (priv_flags p)) as -> end.
  { rewrite Z.mod_small by (apply uint_lor; [lia|apply uint_bit_if; lia..]).
    apply uint8_eq; [apply uint_lor; [lia|apply uint_bit_if; lia..]|done|..];
      rewrite Z.lor_spec, !testbit_bit_if by lia; cbn -[Z.testbit];
      rewrite ?andb_false_r, ?andb_true_r, ?orb_false_r, ?orb_false_l; try done;
    symmetry; apply not_true_is_false; intros Hb; apply prop_inv_bits in Hb; try done; set_solver. }
  rewrite !from_bits_known by done. cbn. destruct p as [[f] c [pf]]. cbn in *. by destruct c.
Qed.

(** ** The address field *)

Lemma mask_bits k : 0 <= k -> Z.testbit PHYS_ADDR_MASK k = (12 <=? k) && (k <? 52).
Proof.
  intros Hk. change PHYS_ADDR_MASK with (Z.shiftl (Z.ones 40) 12). rewrite Z.shiftl_spec by done.
  destruct (Z.leb_spec 12 k).
  - rewrite Z.testbit_ones_nonneg by lia. cbn [andb].
    destruct (Z.ltb_spec (k - 12) 40), (Z.ltb_spec k 52); lia.
  - by rewrite Z.testbit_neg_r by lia.
Qed.

Lemma prop_mask_bits k : 0 <= k < 64 ->
  Z.testbit PROP_MASK k = negb ((12 <=? k) && (k <? 52)) && negb (k =? 7).
Proof.
  intros Hk. unfold PROP_MASK. rewrite Z.land_spec, !testbit_unot, mask_bits by lia.
  change 0x80 with (2 ^ 7). by rewrite testbit_pow2 by lia.
Qed.

Lemma mask_align pa : 0 <= pa < 2 ^ 52 -> Z.land pa PHYS_ADDR_MASK = nat_align_down pa PAGE_SIZE.
Proof. intros Hpa. apply (land_unot_low 52 12 pa); [lia|done]. Qed.

Lemma present_bits e :
  x86_is_present e = Z.testbit (raw e) 0 || Z.testbit (raw e) 7.
Proof. unfold x86_is_present, F.PRESENT, F.HUGE. by rewrite !land_flag_bit by lia. Qed.

Lemma last_bits e level : x86_is_last e level = Z.testbit (raw e) 7.
Proof. unfold x86_is_last, F.HUGE. by rewrite land_flag_bit by lia. Qed.

(** [set_prop] on a present entry. *)
Lemma x86_set_prop_ok e p :
  uint 64 (raw e) -> x86_is_present e = true -> prop_inv p -> supported_cache (cache p) = true ->
  exists e', x86_set_prop e p = Ret e' /\ uint 64 (raw e') /\ x86_prop e' = Ret p /\
    x86_paddr e' = x86_paddr e /\ (forall level, x86_is_last e' level = x86_is_last e level) /\
    x86_is_present e' = Z.testbit (bits (pflags p)) 0 || x86_is_last e 1.
Proof.
  intros Hu Hp Hinv Hc. pose proof (x86_set_prop_bits e p Hp) as Hs.
  destruct (x86_set_prop e p) as [e'|]; [|congruence]. destruct Hs as (_ & Hu' & Hb).
  specialize (Hu' Hu). destruct (prop_bit_at p) as (B0 & _ & _ & _ & _ & _ & _ & _ & _ & _ & _ & B7 & Bmid).
  assert (H7 : Z.testbit (raw e') 7 = Z.testbit (raw e) 7).
  { rewrite Hb, prop_mask_bits, B7, orb_false_r by lia. cbn -[Z.testbit]. apply andb_true_r. }
  exists e'. split_and!; [done|done| | | |].
  - destruct e' as [v]. cbn [raw] in *. apply x86_prop_encodes; auto. intros k Hk.
    assert (0 <= k < 64 /\ (k < 12 \/ 52 <= k) /\ k <> 7) as (Hk64 & Hko & Hk7).
    { repeat (apply elem_of_cons in Hk as [->|Hk]; [lia|]). set_solver. }
    rewrite Hb, prop_mask_bits by lia.
    destruct (Z.leb_spec 12 k), (Z.ltb_spec k 52), (Z.eqb_spec k 7); try lia;
      cbn [andb negb]; by rewrite andb_false_r.
  - apply (uint_eq_bits 64); [lia|by apply uint_land|by apply uint_land|]. intros k Hk.
    unfold x86_paddr. rewrite !Z.land_spec, mask_bits, Hb, prop_mask_bits by lia.
    destruct (Z.leb_spec 12 k), (Z.ltb_spec k 52); cbn [andb negb]; rewrite ?andb_false_r, ?andb_true_r; try done.
    by rewrite Bmid, orb_false_r by lia.
  - intros level. by rewrite !last_bits, H7.
  - rewrite present_bits, last_bits, H7, Hb, B0, prop_mask_bits by lia. cbn -[Z.testbit].
    by rewrite andb_false_r.
Qed.

Lemma x86_new_page_ok pa level p :
  0 <= pa < 2 ^ 52 -> prop_inv p -> supported_cache (cache p) = true ->
  exists e, x86_new_page pa level p = Ret e /\ uint 64 (raw e) /\ x86_is_present e = true /\
    x86_is_last e level = true /\ x86_paddr e = nat_align_down pa PAGE_SIZE /\ x86_prop e = Ret p.
Proof.
  intros Hpa Hinv Hc. unfold x86_new_page. set (e0 := mk_pte _).
  assert (H7 : Z.testbit (raw e0) 7 = true).
  { cbn [e0 raw]. rewrite Z.lor_spec. apply orb_true_r. }
  assert (Hu : uint 64 (raw e0)).
  { apply uint_lor; [lia| |split; done]. rewrite Z.land_comm. apply uint_land; [lia|split; done]. }
  assert (Hpa' : x86_paddr e0 = nat_align_down pa PAGE_SIZE).
  { rewrite <- mask_align by done. unfold x86_paddr. cbn [e0 raw].
    rewrite Z.land_lor_distr_l, <- Z.land_assoc, Z.land_diag. change (Z.land F.HUGE PHYS_ADDR_MASK) with 0.
    apply Z.lor_0_r. }
  destruct (x86_set_prop_ok e0 p Hu) as (e & -> & Hu' & Hp & Ha & Hl & Hpr); auto.
  { by rewrite present_bits, H7, orb_true_r. }
  exists e. split_and!; auto; [|by rewrite Hl, last_bits|congruence].
  by rewrite Hpr, last_bits, H7, orb_true_r.
Qed.

Lemma x86_new_pt_ok pa level :
  0 <= pa < 2 ^ 52 ->
  uint 64 (raw (x86_new_pt pa)) /\ x86_is_present (x86_new_pt pa) = true /\
  x86_is_last (x86_new_pt pa) level = false /\ x86_paddr (x86_new_pt pa) = nat_align_down pa PAGE_SIZE.
Proof.
  intros Hpa. assert (Hb : forall k, 0 <= k < 12 -> Z.testbit (raw (x86_new_pt pa)) k = (k <? 3)).
  { intros k Hk. unfold x86_new_pt. cbn [raw]. rewrite Z.lor_spec, Z.land_spec, mask_bits by lia.
    change (Z.lor (Z.lor F.PRESENT F.WRITABLE) F.USER) with (Z.ones 3).
    rewrite Z.testbit_ones_nonneg by lia. destruct (Z.leb_spec 12 k); [lia|]. cbn [andb].
    by rewrite andb_false_r. }
  split_and!.
  - apply uint_lor; [lia| |split; done]. rewrite Z.land_comm. apply uint_land; [lia|split; done].
  - by rewrite present_bits, (Hb 0) by lia.
  - by rewrite last_bits, Hb by lia.
  - rewrite <- mask_align by done. unfold x86_paddr, x86_new_pt. cbn [raw].
    rewrite Z.land_lor_distr_l, <- Z.land_assoc, Z.land_diag.
    change (Z.land (Z.lor (Z.lor F.PRESENT F.WRITABLE) F.USER) PHYS_ADDR_MASK) with 0. apply Z.lor_0_r.
Qed.

(** The x86-64 entry implements the interface. *)
Global Program Instance x86_PageTableEntryLaws : PageTableEntryLaws PageTableEntry := {
  prop_req p := prop_inv p /\ Z.testbit (bits (pflags p)) 0 = true /\ supported_cache (cache p) = true;
  pte_wf e := uint 64 (raw e);
}.
Next Obligation. split; done. Qed.
Next Obligation. done. Qed.
Next Obligation.
  intros pa level p Hpa (Hi & _ & Hc). apply x86_new_page_ok; auto. unfold MAX_PADDR in Hpa. lia.
Qed.
Next Obligation. intros pa level Hpa _. apply x86_new_pt_ok. unfold MAX_PADDR in Hpa. lia. Qed.
Next Obligation.
  intros e p Hu Hp (Hi & Hr & Hc). destruct (x86_set_prop_ok e p Hu Hp Hi Hc) as (e' & ? & ? & ? & ? & Hl & Hpr).
  exists e'. cbn. split_and!; auto; [by rewrite Hpr, Hr|]. intros level. by rewrite Hl.
Qed.
Next Obligation. intros e p Hp. cbn in *. unfold x86_set_prop. by rewrite Hp. Qed.

(** C40: an x86-64 entry made by [new_page] reads back what it was made of.  For every page
    property with declared flags, [new_page] returns exactly if the cache policy is one the
    format has (it panics on the others), and then the entry is a present leaf whose
    address is the page-aligned physical address and whose [prop] is the given property. *)
Theorem x86_new_page_roundtrip pa level p :
  0 <= pa < 2 ^ 52 -> prop_inv p ->
  (supported_cache (cache p) = false -> x86_new_page pa level p = Panic) /\
  (supported_cache (cache p) = true ->
   exists e, x86_new_page pa level p = Ret e /\ x86_is_present e = true /\ x86_is_last e level = true /\
     x86_paddr e = nat_align_down pa PAGE_SIZE /\ x86_prop e = Ret p).
Proof.
  intros Hpa Hinv. split; intros Hc.
  - unfold x86_new_page. set (e0 := mk_pte _).
    assert (Hp : x86_is_present e0 = true).
    { rewrite present_bits. cbn [e0 raw]. rewrite !Z.lor_spec. apply orb_true_intro. right. apply orb_true_r. }
    pose proof (x86_set_prop_bits e0 p Hp) as Hs. destruct (x86_set_prop e0 p); [|done].
    destruct Hs as [? _]. congruence.
  - destruct (x86_new_page_ok pa level p Hpa Hinv Hc) as (e & ? & _ & ? & ? & ? & ?). eauto 7.
Qed.

(** Changing the property of a present entry changes nothing else.  The new property is
    read back, the address and the leaf bit are kept, the entry is present if the property
    is readable or the entry is a leaf, and an absent entry is left alone. *)
Theorem x86_set_prop_correct e p :
  uint 64 (raw e) -> prop_inv p -> supported_cache (cache p) = true ->
  (x86_is_present e = false -> x86_set_prop e p = Ret e) /\
  (x86_is_present e = true ->
   exists e', x86_set_prop e p = Ret e' /\ x86_prop e' = Ret p /\ x86_paddr e' = x86_paddr e /\
     (forall level, x86_is_last e' level = x86_is_last e level) /\
     x86_is_present e' = contains (pflags p) PageFlags.R || x86_is_last e 1).
Proof.
  intros Hu Hinv Hc. split; intros Hp.
  - unfold x86_set_prop. by rewrite Hp.
  - destruct (x86_set_prop_ok e p Hu Hp Hinv Hc) as (e' & ? & _ & ? & ? & ? & Hpr).
    exists e'. split_and!; auto. rewrite Hpr. f_equal. unfold contains. change (bits PageFlags.R) with (2 ^ 0).
    apply eq_true_iff_eq. rewrite Z.eqb_eq, <- land_pow2_testbit by lia.
    split; intros Hb.
    + apply negb_true_iff, Z.eqb_neq in Hb. apply Z.bits_inj'. intros k Hk.
      rewrite Z.land_spec, testbit_pow2 by lia. destruct (Z.eqb_spec k 0) as [->|]; [|apply andb_false_r].
      rewrite andb_true_r. rewrite <- land_pow2_testbit by lia. by apply negb_true_iff, Z.eqb_neq.
    + by rewrite Hb.
Qed.

(** An entry that points to a child page table stops being present when it is given a
    property without [R], for every such property with a supported cache policy. *)
Theorem x86_set_prop_hides_page_table pa p :
  0 <= pa < 2 ^ 52 -> prop_inv p -> supported_cache (cache p) = true ->
  Z.testbit (bits (pflags p)) 0 = false ->
  x86_is_present (x86_new_pt pa) = true /\
  exists e', x86_set_prop (x86_new_pt pa) p = Ret e' /\ x86_is_present e' = false.
Proof.
  intros Hpa Hinv Hc Hr. destruct (x86_new_pt_ok pa 1 Hpa) as (Hu & Hp & Hl & _).
  split; [done|]. destruct (x86_set_prop_ok _ p Hu Hp Hinv Hc) as (e' & ? & _ & _ & _ & _ & Hpr).
  exists e'. split; [done|]. by rewrite Hpr, Hr, Hl.
Qed.

Definition sample_prop : PageProperty := mk_prop PageFlags.RW Writethrough PrivFlags.USER.

Lemma x86_new_page_roundtrip_witness :
  exists e, x86_new_page 0x7123 1 sample_prop = Ret e /\ x86_is_present e = true /\
    x86_is_last e 1 = true /\ x86_paddr e = 0x7000 /\ x86_prop e = Ret sample_prop.
Proof.
  apply (proj2 (x86_new_page_roundtrip 0x7123 1 sample_prop ltac:(lia) ltac:(split; reflexivity))). done.
Defined.

Lemma x86_set_prop_correct_witness :
  exists e', x86_set_prop (x86_new_pt 0x7000) sample_prop = Ret e' /\ x86_prop e' = Ret sample_prop.
Proof.
  destruct (proj2 (x86_set_prop_correct (x86_new_pt 0x7000) sample_prop ltac:(split; vm_compute; done)
    ltac:(split; reflexivity) eq_refl) eq_refl) as (e' & ? & ? & _). eauto.
Defined.

Lemma x86_set_prop_hides_page_table_witness :
  exists e', x86_set_prop (x86_new_pt 0x7000) new_absent_prop = Ret e' /\ x86_is_present e' = false.
Proof.
  by apply (x86_set_prop_hides_page_table 0x7000 new_absent_prop ltac:(lia) ltac:(split; reflexivity)).
Defined.
