(* ===== verification/PteRiscv.v ===== *)
(** * [ostd/src/arch/riscv/mm/mod.rs]: the page table entry of RISC-V (Sv48)

    The address field of an entry starts at bit 10, an entry is a leaf if it has a
    permission, and the accessed and dirty bits belong to the hardware: [set_prop]
    clears them.  The entry is an instance of the interface for properties that have a
    permission and neither of these bits. *)

From S2P Require Import Prelude AlignExt Bitflags Paging PageProp Pte PteBits.
Open Scope Z_scope.

Module Riscv.
Definition consts : PagingConstsTrait := {|
  BASE_PAGE_SIZE := 4096;
  NR_LEVELS := 4;
  HIGHEST_TRANSLATION_LEVEL := 4;
  PTE_SIZE := 8;
  ADDRESS_WIDTH := 48;
  VA_SIGN_EXT := true;
|}.
Definition reqs : @PagingConstsReqs consts.
Proof. split; vm_compute; repeat split; discriminate. Qed.
End Riscv.

Module PageTableFlags.
Definition VALID : Z := Z.shiftl 1 0.
Definition READABLE : Z := Z.shiftl 1 1.
Definition WRITABLE : Z := Z.shiftl 1 2.
Definition EXECUTABLE : Z := Z.shiftl 1 3.
Definition USER : Z := Z.shiftl 1 4.
Definition GLOBAL : Z := Z.shiftl 1 5.
Definition ACCESSED : Z := Z.shiftl 1 6.
Definition DIRTY : Z := Z.shiftl 1 7.
Definition RSV1 : Z := Z.shiftl 1 8.
Definition RSV2 : Z := Z.shiftl 1 9.
Definition PBMT_NC : Z := Z.shiftl 1 61.
Definition PBMT_IO : Z := Z.shiftl 1 62.
Definition NAPOT : Z := Z.shiftl 1 63.
End PageTableFlags.

Module F := PageTableFlags.

Definition PHYS_ADDR_MASK : Z := 0x003FFFFFFFFFFC00.

Record PageTableEntry := mk_pte { raw : Z }.

Definition new_paddr (paddr : Z) : PageTableEntry := mk_pte (ushl (Z.shiftr paddr 12) 10).

Definition riscv_new_absent : PageTableEntry := mk_pte 0.

Definition riscv_is_present (self : PageTableEntry) : bool := negb (Z.land (raw self) F.VALID =? 0).

Definition riscv_paddr (self : PageTableEntry) : Z :=
  let ppn := Z.shiftr (Z.land (raw self) PHYS_ADDR_MASK) 10 in
  ushl ppn 12.

Definition riscv_prop (self : PageTableEntry) : outcome PageProperty :=
  let v := raw self in
  let flags :=
    Z.lor (Z.lor (Z.lor (Z.lor (Z.lor (Z.lor
      (parse_flags v F.READABLE (bits PageFlags.R))
      (parse_flags v F.WRITABLE (bits PageFlags.W)))
      (parse_flags v F.EXECUTABLE (bits PageFlags.X)))
      (parse_flags v F.ACCESSED (bits PageFlags.ACCESSED)))
      (parse_flags v F.DIRTY (bits PageFlags.DIRTY)))
      (parse_flags v F.RSV1 (bits PageFlags.AVAIL1)))
      (parse_flags v F.RSV2 (bits PageFlags.AVAIL2)) in
  let privf :=
    Z.lor (parse_flags v F.USER (bits PrivFlags.USER))
      (parse_flags v F.GLOBAL (bits PrivFlags.GLOBAL)) in
  let c := if negb (Z.land v F.PBMT_IO =? 0) then Uncacheable else Writeback in
  f ← unwrap (from_bits PageFlags.declared (flags mod 2 ^ 8));
  pf ← unwrap (from_bits PrivFlags.declared (privf mod 2 ^ 8));
  mret (mk_prop f c pf).

(** The flags that [set_prop] puts into a present entry. *)
Definition riscv_flags (prop : PageProperty) : outcome Z :=
  let pf := bits (pflags prop) in
  let vf := bits (priv_flags prop) in
  let flags :=
    Z.lor (Z.lor (Z.lor (Z.lor (Z.lor (Z.lor (Z.lor F.VALID
      (parse_flags pf (bits PageFlags.R) F.READABLE))
      (parse_flags pf (bits PageFlags.W) F.WRITABLE))
      (parse_flags pf (bits PageFlags.X) F.EXECUTABLE))
      (parse_flags vf (bits PrivFlags.USER) F.USER))
      (parse_flags vf (bits PrivFlags.GLOBAL) F.GLOBAL))
      (parse_flags pf (bits PageFlags.AVAIL1) F.RSV1))
      (parse_flags pf (bits PageFlags.AVAIL2) F.RSV2) in
  match cache prop with
  | Writeback => mret flags
  | Uncacheable => mret (Z.lor flags F.PBMT_IO)
  | _ => Panic
  end.

Definition riscv_set_prop (self : PageTableEntry) (prop : PageProperty) : outcome PageTableEntry :=
  if negb (riscv_is_present self) then mret self
  else flags ← riscv_flags prop; mret (mk_pte (Z.lor (Z.land (raw self) PHYS_ADDR_MASK) flags)).

Definition riscv_new_page (paddr _level : Z) (prop : PageProperty) : outcome PageTableEntry :=
  riscv_set_prop (mk_pte (Z.lor (raw (new_paddr paddr)) F.VALID)) prop.

Definition riscv_new_pt (paddr : Z) : PageTableEntry := mk_pte (Z.lor (raw (new_paddr paddr)) F.VALID).

Definition riscv_is_last (self : PageTableEntry) (level : Z) : bool :=
  let rwx := Z.lor (Z.lor F.READABLE F.WRITABLE) F.EXECUTABLE in
  (level =? 1) || negb (Z.land (raw self) rwx =? 0).

Global Instance riscv_PageTableEntry : PageTableEntryTrait PageTableEntry := {
  new_absent := riscv_new_absent;
  is_present := riscv_is_present;
  new_page := riscv_new_page;
  new_pt := riscv_new_pt;
  paddr := riscv_paddr;
  prop := riscv_prop;
  set_prop := riscv_set_prop;
  is_last := riscv_is_last;
}.

(** ** The property field *)

Definition FLAGS_MASK : Z := Z.land (unot 64 PHYS_ADDR_MASK) (Z.ones 64).

Lemma riscv_prop_field v : riscv_prop (mk_pte (Z.land v FLAGS_MASK)) = riscv_prop (mk_pte v).
Proof. unfold riscv_prop. cbn [raw]. rewrite !parse_flags_mask, land_mask by done. done. Qed.

(** The property as it is read back: without the bits of the hardware. *)
Definition HW_BITS : flags := mk_flags 0x18.
Definition without_hw (p : PageProperty) : PageProperty := mk_prop (difference 8 (pflags p) HW_BITS) (cache p) (priv_flags p).

Definition riscv_cache (c : CachePolicy) : bool := match c with Writeback | Uncacheable => true | _ => false end.
Definition has_rwx (p : PageProperty) : bool := negb (Z.land (bits (pflags p)) 7 =? 0).

(** What the encoding of a property is, checked for all of them. *)
Definition riscv_flags_ok (p : PageProperty) : bool :=
  match riscv_flags p with
  | Ret fl => riscv_cache (cache p) && uintb 64 fl && (Z.land fl FLAGS_MASK =? fl) && (Z.land fl PHYS_ADDR_MASK =? 0) && Z.testbit fl 0 &&
      bool_decide (riscv_prop (mk_pte fl) = Ret (without_hw p)) && eqb (negb (Z.land fl 14 =? 0)) (has_rwx p)
  | Panic => negb (riscv_cache (cache p))
  end.

Lemma riscv_flags_checked : forallb riscv_flags_ok all_props = true.
Proof. vm_compute. reflexivity. Qed.

Lemma riscv_flags_Panic p : prop_inv p -> riscv_cache (cache p) = false -> riscv_flags p = Panic.
Proof.
  intros Hi Hc. pose proof (all_props_check _ riscv_flags_checked p Hi) as Hk. unfold riscv_flags_ok in Hk.
  destruct (riscv_flags p); [|done]. rewrite Hc in Hk. done.
Qed.

Lemma riscv_flags_Ret p : prop_inv p -> riscv_cache (cache p) = true ->
  exists fl, riscv_flags p = Ret fl /\ uint 64 fl /\ Z.land fl FLAGS_MASK = fl /\ Z.land fl PHYS_ADDR_MASK = 0 /\ Z.testbit fl 0 = true /\
    riscv_prop (mk_pte fl) = Ret (without_hw p) /\ negb (Z.land fl 14 =? 0) = has_rwx p.
Proof.
  intros Hi Hc. pose proof (all_props_check _ riscv_flags_checked p Hi) as Hk. unfold riscv_flags_ok in Hk.
  destruct (riscv_flags p) as [fl|]; [|by rewrite Hc in Hk]. exists fl. split; [done|].
  rewrite !andb_true_iff, uintb_spec, !Z.eqb_eq, bool_decide_eq_true, eqb_true_iff in Hk. tauto.
Qed.

(** ** Addresses *)

Lemma addr_mask_bits k : 0 <= k -> Z.testbit PHYS_ADDR_MASK k = (10 <=? k) && (k <? 54).
Proof.
  intros Hk. change PHYS_ADDR_MASK with (Z.shiftl (Z.ones 44) 10). rewrite Z.shiftl_spec by done. destruct (Z.leb_spec 10 k).
  - rewrite Z.testbit_ones_nonneg by lia. cbn [andb]. destruct (Z.ltb_spec (k - 10) 44), (Z.ltb_spec k 54); lia.
  - by rewrite Z.testbit_neg_r by lia.
Qed.

Lemma new_paddr_raw pa : 0 <= pa < 2 ^ 56 -> raw (new_paddr pa) = pa / 2 ^ 12 * 2 ^ 10 /\ 0 <= pa / 2 ^ 12 < 2 ^ 44.
Proof.
  intros Hpa. assert (0 <= pa / 2 ^ 12 < 2 ^ 44) as Hd by (split; [apply Z.div_pos; lia|apply Z.div_lt_upper_bound; lia]).
  split; [|done]. unfold new_paddr, ushl. cbn [raw]. rewrite Z.shiftr_div_pow2, Z.shiftl_mul_pow2 by lia. apply Z.mod_small. lia.
Qed.

Lemma new_paddr_ok pa x : 0 <= pa < 2 ^ 56 -> 0 <= x < 2 ^ 10 -> riscv_paddr (mk_pte (Z.lor (raw (new_paddr pa)) x)) = nat_align_down pa PAGE_SIZE.
Proof.
  intros Hpa Hx. destruct (new_paddr_raw pa Hpa) as [-> Hd]. set (d := pa / 2 ^ 12) in *. unfold riscv_paddr, ushl. cbn [raw].
  assert (Z.shiftr (Z.land (Z.lor (d * 2 ^ 10) x) PHYS_ADDR_MASK) 10 = d) as ->.
  { apply Z.bits_inj'. intros k Hk. rewrite Z.shiftr_spec, Z.land_spec, Z.lor_spec, addr_mask_bits, Z.mul_pow2_bits by lia. replace (k + 10 - 10) with k by lia.
    destruct (uint_bits 10 x) as [Hb _]; [lia|]. destruct (Hb Hx) as [_ Hb']. rewrite Hb' by lia. rewrite orb_false_r.
    destruct (Z.leb_spec 10 (k + 10)); [|lia]. destruct (Z.ltb_spec (k + 10) 54); [by rewrite andb_true_r|].
    destruct (uint_bits 44 d) as [Hc _]; [lia|]. destruct (Hc Hd) as [_ Hc']. by rewrite Hc' by lia. }
  rewrite Z.shiftl_mul_pow2 by lia. rewrite Z.mod_small by lia. unfold nat_align_down, PAGE_SIZE. change 4096 with (2 ^ 12).
  pose proof (Z.div_mod pa (2 ^ 12)). subst d. lia.
Qed.

Lemma present_bit e : riscv_is_present e = Z.testbit (raw e) 0.
Proof. unfold riscv_is_present, F.VALID. by rewrite land_flag_bit by lia. Qed.

(** ** Operations *)

Lemma riscv_set_prop_ok e p : uint 64 (raw e) -> riscv_is_present e = true -> prop_inv p -> riscv_cache (cache p) = true ->
  exists e', riscv_set_prop e p = Ret e' /\ uint 64 (raw e') /\ riscv_is_present e' = true /\ riscv_prop e' = Ret (without_hw p) /\
    riscv_paddr e' = riscv_paddr e /\ forall level, riscv_is_last e' level = (level =? 1) || has_rwx p.
Proof.
  intros Hu Hp Hi Hc. unfold riscv_set_prop. rewrite Hp. cbn [negb]. destruct (riscv_flags_Ret p Hi Hc) as (fl & Hf & Hfu & Hfm & Hfa & H0 & Hd & Hl).
  step Hf. eexists. split; [reflexivity|]. split_and!.
  - apply uint_lor; [lia|by apply uint_land|done].
  - rewrite present_bit. cbn [raw]. by rewrite Z.lor_spec, H0, orb_true_r.
  - rewrite <- riscv_prop_field, field_split by done. done.
  - unfold riscv_paddr. cbn [raw]. by rewrite field_address.
  - intros level. unfold riscv_is_last. cbn [raw]. f_equal. rewrite <- Hl. do 2 f_equal.
    change (Z.lor (Z.lor F.READABLE F.WRITABLE) F.EXECUTABLE) with 14. by rewrite Z.land_lor_distr_l, <- Z.land_assoc, Z.land_0_r.
Qed.

Lemma valid_entry_uint pa : 0 <= pa < 2 ^ 56 -> uint 64 (Z.lor (raw (new_paddr pa)) F.VALID).
Proof. intros Hpa. destruct (new_paddr_raw pa Hpa) as [-> Hd]. apply uint_lor; [lia| |split; done]. split; lia. Qed.

Lemma riscv_new_page_ok pa level p : 0 <= pa < 2 ^ 56 -> prop_inv p -> riscv_cache (cache p) = true ->
  exists e, riscv_new_page pa level p = Ret e /\ uint 64 (raw e) /\ riscv_is_present e = true /\ riscv_prop e = Ret (without_hw p) /\
    riscv_paddr e = nat_align_down pa PAGE_SIZE /\ forall level', riscv_is_last e level' = (level' =? 1) || has_rwx p.
Proof.
  intros Hpa Hi Hc. destruct (riscv_set_prop_ok (riscv_new_pt pa) p) as (e & Hs & Hu & Hp & Hr & Ha & Hl); [by apply valid_entry_uint| |done|done|].
  - rewrite present_bit. unfold riscv_new_pt. cbn [raw]. rewrite Z.lor_spec. apply orb_true_r.
  - exists e. split_and!; [done..|by rewrite Ha; apply new_paddr_ok|done].
Qed.

Lemma riscv_new_pt_ok pa level : 0 <= pa < 2 ^ 56 -> 1 < level ->
  uint 64 (raw (riscv_new_pt pa)) /\ riscv_is_present (riscv_new_pt pa) = true /\ riscv_is_last (riscv_new_pt pa) level = false /\
  riscv_paddr (riscv_new_pt pa) = nat_align_down pa PAGE_SIZE.
Proof.
  intros Hpa Hlv. split_and!; [by apply valid_entry_uint| | |by apply new_paddr_ok].
  - rewrite present_bit. unfold riscv_new_pt. cbn [raw]. rewrite Z.lor_spec. apply orb_true_r.
  - unfold riscv_is_last, riscv_new_pt. cbn [raw]. destruct (Z.eqb_spec level 1); [lia|]. cbn [orb].
    change (Z.lor (Z.lor F.READABLE F.WRITABLE) F.EXECUTABLE) with 14. rewrite Z.land_lor_distr_l. change (Z.land F.VALID 14) with 0. rewrite Z.lor_0_r.
    destruct (new_paddr_raw pa Hpa) as [-> _]. replace (Z.land (pa / 2 ^ 12 * 2 ^ 10) 14) with 0; [done|].
    apply Z.bits_inj'. intros k Hk. rewrite Z.bits_0, Z.land_spec. destruct (Z.lt_ge_cases k 10).
    + by rewrite Z.mul_pow2_bits_low.
    + assert (Z.testbit 14 k = false) as ->; [|by rewrite andb_false_r]. destruct (uint_bits 10 14) as [Hb _]; [lia|]. apply Hb; [split; done|lia].
Qed.

Lemma without_hw_id p : prop_inv p -> Z.land (bits (pflags p)) (bits HW_BITS) = 0 -> without_hw p = p.
Proof.
  assert (forallb (fun p => negb (Z.land (bits (pflags p)) (bits HW_BITS) =? 0) || bool_decide (without_hw p = p)) all_props = true) as Hk by (vm_compute; done).
  intros Hi Hz. pose proof (all_props_check _ Hk p Hi) as Hp. cbn beta in Hp. rewrite Hz in Hp. by apply bool_decide_eq_true in Hp.
Qed.

(** The entry of RISC-V implements the interface. *)
Global Program Instance riscv_PageTableEntryLaws : PageTableEntryLaws PageTableEntry := {
  prop_req p := prop_inv p /\ riscv_cache (cache p) = true /\ has_rwx p = true /\ Z.land (bits (pflags p)) (bits HW_BITS) = 0;
  pte_wf e := uint 64 (raw e);
}.
Next Obligation. split; done. Qed.
Next Obligation. done. Qed.
Next Obligation.
  intros pa level p Hpa (Hi & Hc & Hr & Hz). destruct (riscv_new_page_ok pa level p) as (e & ? & ? & ? & Hp & ? & Hl); [unfold MAX_PADDR in Hpa; lia|done|done|].
  exists e. cbn. split_and!; [done..|by rewrite Hl, Hr, orb_true_r|done|by rewrite Hp, without_hw_id].
Qed.
Next Obligation. intros pa level Hpa Hlv. apply riscv_new_pt_ok; [unfold MAX_PADDR in Hpa; lia|done]. Qed.
Next Obligation.
  intros e p Hu Hp (Hi & Hc & Hr & Hz). destruct (riscv_set_prop_ok e p Hu Hp Hi Hc) as (e' & ? & ? & ? & Hd & ? & Hl).
  exists e'. cbn. split_and!; [done..|by rewrite Hd, without_hw_id|done|]. intros level _. by rewrite Hl, Hr, orb_true_r.
Qed.
Next Obligation. intros e p Hp. cbn in *. unfold riscv_set_prop. by rewrite Hp. Qed.

(** An entry of RISC-V reads back what [new_page] or [set_prop] put into it.  For every page property with declared
    flags they panic exactly on a cache policy that the format does not have.  Otherwise the entry is present, has the
    page-aligned address, and its property is the given one without the accessed and dirty bits; it is a leaf above the
    last level exactly if the property has a permission.  [set_prop] leaves an absent entry alone. *)
Theorem riscv_entry_roundtrip pa level p e : 0 <= pa < 2 ^ 56 -> prop_inv p -> uint 64 (raw e) ->
  if riscv_cache (cache p) then
    (exists e', riscv_new_page pa level p = Ret e' /\ riscv_is_present e' = true /\ riscv_paddr e' = nat_align_down pa PAGE_SIZE /\
      riscv_prop e' = Ret (without_hw p) /\ forall l, riscv_is_last e' l = (l =? 1) || has_rwx p) /\
    (riscv_is_present e = true ->
      exists e', riscv_set_prop e p = Ret e' /\ riscv_is_present e' = true /\ riscv_paddr e' = riscv_paddr e /\
        riscv_prop e' = Ret (without_hw p) /\ forall l, riscv_is_last e' l = (l =? 1) || has_rwx p) /\
    (riscv_is_present e = false -> riscv_set_prop e p = Ret e)
  else riscv_new_page pa level p = Panic /\ (riscv_is_present e = true -> riscv_set_prop e p = Panic).
Proof.
  intros Hpa Hi Hu. destruct (riscv_cache (cache p)) eqn:Hc.
  - split_and!.
    + destruct (riscv_new_page_ok pa level p Hpa Hi Hc) as (e' & ? & _ & ? & ? & ? & ?). eauto 7.
    + intros Hp. destruct (riscv_set_prop_ok e p Hu Hp Hi Hc) as (e' & ? & _ & ? & ? & ? & ?). eauto 7.
    + intros Hp. unfold riscv_set_prop. by rewrite Hp.
  - assert (forall e0, riscv_is_present e0 = true -> riscv_set_prop e0 p = Panic) as Hs.
    { intros e0 Hp. unfold riscv_set_prop. by rewrite Hp, riscv_flags_Panic. }
    split; [|apply Hs]. apply Hs. rewrite present_bit. cbn [raw]. rewrite Z.lor_spec. apply orb_true_r.
Qed.

(** A dirty page loses the bit, and keeps everything else. *)
Lemma riscv_entry_roundtrip_witness :
  exists e', riscv_new_page 0x80007123 2 (mk_prop (mk_flags 0x13) Uncacheable PrivFlags.USER) = Ret e' /\ riscv_is_present e' = true /\
    riscv_paddr e' = 0x80007000 /\ riscv_prop e' = Ret (mk_prop PageFlags.RW Uncacheable PrivFlags.USER) /\
    forall l, riscv_is_last e' l = (l =? 1) || true.
Proof.
  exact (proj1 (riscv_entry_roundtrip 0x80007123 2 (mk_prop (mk_flags 0x13) Uncacheable PrivFlags.USER) riscv_new_absent
    ltac:(lia) ltac:(split; reflexivity) ltac:(split; done))).
Defined.
