(* ===== verification/PteLoong.v ===== *)
(** * [ostd/src/arch/loongarch/mm/mod.rs]: the page table entry of LoongArch

    An entry for a base page carries the bit [IS_BASIC]; bit 6 means global in such
    an entry and huge page in the others.  The theorem says which property is read
    back.  It differs from the one that was put in: the dirty bit is always set, and an
    uncacheable page reads as a write-back one.  An entry for a huge page is no leaf
    any more after [set_prop], so the entry implements the page table interface for base
    pages only. *)

From S2P Require Import Prelude AlignExt Bitflags Paging PageProp Pte PteBits.
Open Scope Z_scope.

Module LoongArch.
Definition consts : PagingConstsTrait := {|
  BASE_PAGE_SIZE := 4096;
  NR_LEVELS := 4;
  HIGHEST_TRANSLATION_LEVEL := 1;
  PTE_SIZE := 8;
  ADDRESS_WIDTH := 48;
  VA_SIGN_EXT := true;
|}.
Definition reqs : @PagingConstsReqs consts.
Proof. split; vm_compute; repeat split; discriminate. Qed.
End LoongArch.

Module PageTableFlags.
Definition VALID : Z := Z.shiftl 1 0.
Definition DIRTY : Z := Z.shiftl 1 1.
Definition PLVL : Z := Z.shiftl 1 2.
Definition PLVH : Z := Z.shiftl 1 3.
Definition MATL : Z := Z.shiftl 1 4.
Definition MATH : Z := Z.shiftl 1 5.
Definition GLOBAL_OR_HUGE : Z := Z.shiftl 1 6.
Definition PRESENT : Z := Z.shiftl 1 7.
Definition WRITABLE : Z := Z.shiftl 1 8.
Definition IS_BASIC : Z := Z.shiftl 1 9.
Definition RSV1 : Z := Z.shiftl 1 10.
Definition RSV2 : Z := Z.shiftl 1 11.
Definition GLOBAL_IN_HUGE : Z := Z.shiftl 1 12.
Definition NOT_READABLE : Z := Z.shiftl 1 61.
Definition NOT_EXECUTABLE : Z := Z.shiftl 1 62.
Definition RPLV : Z := Z.shiftl 1 63.
End PageTableFlags.

Module F := PageTableFlags.

Definition PHYS_ADDR_MASK : Z := 0x0000FFFFFFFFF000.

Record PageTableEntry := mk_pte { raw : Z }.

Definition has_flag (self : PageTableEntry) (f : Z) : bool := negb (Z.land (raw self) f =? 0).

Definition is_huge (self : PageTableEntry) : bool :=
  if has_flag self F.IS_BASIC then false else has_flag self F.GLOBAL_OR_HUGE.

Definition is_global (self : PageTableEntry) : bool :=
  if has_flag self F.IS_BASIC then has_flag self F.GLOBAL_OR_HUGE else has_flag self F.GLOBAL_IN_HUGE.

Definition is_user (self : PageTableEntry) : bool := has_flag self F.PLVL && has_flag self F.PLVH.

Definition loong_new_absent : PageTableEntry := mk_pte 0.

Definition loong_is_present (self : PageTableEntry) : bool := has_flag self F.VALID.

Definition loong_new_pt (paddr : Z) : PageTableEntry := mk_pte (Z.lor (Z.land paddr PHYS_ADDR_MASK) F.VALID).

Definition loong_paddr (self : PageTableEntry) : Z :=
  if is_huge self then ushl (Z.shiftr (Z.land (Z.land (raw self) PHYS_ADDR_MASK) (unot 64 F.GLOBAL_IN_HUGE)) 12) 12
  else ushl (Z.shiftr (Z.land (raw self) PHYS_ADDR_MASK) 12) 12.

Definition loong_prop (self : PageTableEntry) : outcome PageProperty :=
  let v := raw self in
  let flags :=
    Z.lor (Z.lor (Z.lor (Z.lor (Z.lor (Z.lor
      (parse_flags (unot 64 v) F.NOT_READABLE (bits PageFlags.R))
      (parse_flags v F.WRITABLE (bits PageFlags.W)))
      (parse_flags (unot 64 v) F.NOT_EXECUTABLE (bits PageFlags.X)))
      (parse_flags v F.PRESENT (bits PageFlags.ACCESSED)))
      (parse_flags v F.DIRTY (bits PageFlags.DIRTY)))
      (parse_flags v F.RSV1 (bits PageFlags.AVAIL1)))
      (parse_flags v F.RSV2 (bits PageFlags.AVAIL2)) in
  let privf := bits empty in
  let privf := if is_user self then Z.lor privf (bits PrivFlags.USER) else privf in
  let privf := if is_global self then Z.lor privf (bits PrivFlags.GLOBAL) else privf in
  let c := if has_flag self F.MATL then Writeback else if has_flag self F.MATH then WriteCombining else Writeback in
  f ← unwrap (from_bits PageFlags.declared (flags mod 2 ^ 8));
  pf ← unwrap (from_bits PrivFlags.declared (privf mod 2 ^ 8));
  mret (mk_prop f c pf).

(** The flags that [set_prop] puts into a present entry. *)
Definition loong_flags (huge : bool) (prop : PageProperty) : outcome Z :=
  let pf := bits (pflags prop) in
  let flags :=
    Z.lor (Z.lor (Z.lor (Z.lor (Z.lor (Z.lor (Z.lor (Z.lor F.VALID
      F.DIRTY)
      (parse_flags (unot 8 pf) (bits PageFlags.R) F.NOT_READABLE))
      (parse_flags pf (bits PageFlags.W) F.WRITABLE))
      (parse_flags (unot 8 pf) (bits PageFlags.X) F.NOT_EXECUTABLE))
      (parse_flags pf (bits PageFlags.DIRTY) F.DIRTY))
      (parse_flags pf (bits PageFlags.ACCESSED) F.PRESENT))
      (parse_flags pf (bits PageFlags.AVAIL1) F.RSV1))
      (parse_flags pf (bits PageFlags.AVAIL2) F.RSV2) in
  let flags := if contains (priv_flags prop) PrivFlags.USER then Z.lor (Z.lor flags F.PLVL) F.PLVH else flags in
  let flags := if contains (priv_flags prop) PrivFlags.GLOBAL
               then Z.lor flags (if huge then F.GLOBAL_IN_HUGE else F.GLOBAL_OR_HUGE) else flags in
  match cache prop with
  | Writeback => mret (Z.lor flags F.MATL)
  | Uncacheable => mret flags
  | WriteCombining => mret (Z.lor flags F.MATH)
  | _ => Panic
  end.

Definition loong_set_prop (self : PageTableEntry) (prop : PageProperty) : outcome PageTableEntry :=
  if negb (loong_is_present self) then mret self
  else
    flags ← loong_flags (is_huge self) prop;
    mret (mk_pte (Z.lor (Z.land (raw self) (Z.lor PHYS_ADDR_MASK F.IS_BASIC)) flags)).

Definition loong_new_page (paddr level : Z) (prop : PageProperty) : outcome PageTableEntry :=
  let flags := if level =? 1 then F.IS_BASIC else F.GLOBAL_OR_HUGE in
  pte ← loong_set_prop (mk_pte (Z.lor (Z.lor (Z.land paddr PHYS_ADDR_MASK) F.VALID) flags)) prop;
  mret (mk_pte (Z.lor (raw pte) flags)).

Definition loong_is_last (self : PageTableEntry) (level : Z) : bool := (level =? 1) || is_huge self.

Global Instance loong_PageTableEntry : PageTableEntryTrait PageTableEntry := {
  new_absent := loong_new_absent;
  is_present := loong_is_present;
  new_page := loong_new_page;
  new_pt := loong_new_pt;
  paddr := loong_paddr;
  prop := loong_prop;
  set_prop := loong_set_prop;
  is_last := loong_is_last;
}.

(** ** The property field *)

Definition FLAGS_MASK : Z := unot 64 PHYS_ADDR_MASK.

(** The entries for base pages, whose flags are outside of the address field. *)
Definition basic (e : PageTableEntry) : Prop := uint 64 (raw e) /\ has_flag e F.IS_BASIC = true.

Lemma has_flag_field v f : Z.land FLAGS_MASK f = f -> has_flag (mk_pte (Z.land v FLAGS_MASK)) f = has_flag (mk_pte v) f.
Proof. intros Hf. unfold has_flag. cbn [raw]. by rewrite land_mask. Qed.

Lemma loong_prop_field v : has_flag (mk_pte v) F.IS_BASIC = true -> loong_prop (mk_pte (Z.land v FLAGS_MASK)) = loong_prop (mk_pte v).
Proof.
  intros Hb. unfold loong_prop, is_user, is_global. rewrite (has_flag_field v F.IS_BASIC), Hb by done.
  rewrite !has_flag_field by done. cbn [raw].
  rewrite !parse_flags_mask, !parse_unot_mask by (done || split; done). done.
Qed.

(** What is read back. *)
Definition read_back (p : PageProperty) : PageProperty :=
  mk_prop (union (pflags p) PageFlags.DIRTY) (match cache p with Uncacheable => Writeback | c => c end) (priv_flags p).

Definition loong_cache (c : CachePolicy) : bool := match c with Writeback | Uncacheable | WriteCombining => true | _ => false end.

(** The encoding of a property in an entry for a base page, checked for all of them. *)
Definition loong_flags_ok (p : PageProperty) : bool :=
  match loong_flags false p with
  | Ret fl => loong_cache (cache p) && uintb 64 fl && (Z.land fl FLAGS_MASK =? fl) && (Z.land fl PHYS_ADDR_MASK =? 0) && Z.testbit fl 0 &&
      bool_decide (loong_prop (mk_pte (Z.lor fl F.IS_BASIC)) = Ret (read_back p))
  | Panic => negb (loong_cache (cache p))
  end.

Lemma loong_flags_checked : forallb loong_flags_ok all_props = true.
Proof. vm_compute. reflexivity. Qed.

Lemma loong_flags_Panic p huge : loong_cache (cache p) = false -> loong_flags huge p = Panic.
Proof. intros Hc. unfold loong_flags. by destruct (cache p). Qed.

Lemma loong_flags_Ret p : prop_inv p -> loong_cache (cache p) = true ->
  exists fl, loong_flags false p = Ret fl /\ uint 64 fl /\ Z.land fl FLAGS_MASK = fl /\ Z.land fl PHYS_ADDR_MASK = 0 /\ Z.testbit fl 0 = true /\
    loong_prop (mk_pte (Z.lor fl F.IS_BASIC)) = Ret (read_back p).
Proof.
  intros Hi Hc. pose proof (all_props_check _ loong_flags_checked p Hi) as Hk. unfold loong_flags_ok in Hk.
  destruct (loong_flags false p) as [fl|]; [|by rewrite Hc in Hk]. exists fl. split; [done|].
  rewrite !andb_true_iff, uintb_spec, !Z.eqb_eq, bool_decide_eq_true in Hk. tauto.
Qed.

(** ** Operations on base pages *)

Lemma has_flag_bit e k : 0 <= k -> has_flag e (Z.shiftl 1 k) = Z.testbit (raw e) k.
Proof. intros Hk. unfold has_flag. by apply land_flag_bit. Qed.

Lemma basic_not_huge e : basic e -> is_huge e = false.
Proof. intros [_ Hb]. unfold is_huge. by rewrite Hb. Qed.

Lemma basic_field e : basic e -> Z.land (raw e) F.IS_BASIC = F.IS_BASIC.
Proof.
  intros [_ Hb]. unfold F.IS_BASIC in *. rewrite has_flag_bit in Hb by lia. apply Z.bits_inj'. intros k Hk.
  rewrite Z.land_spec, Z.shiftl_1_l, testbit_pow2 by lia. destruct (Z.eqb_spec k 9) as [->|]; [by rewrite Hb|apply andb_false_r].
Qed.

Lemma loong_set_prop_ok e p : basic e -> loong_is_present e = true -> prop_inv p -> loong_cache (cache p) = true ->
  exists e', loong_set_prop e p = Ret e' /\ basic e' /\ loong_is_present e' = true /\ loong_prop e' = Ret (read_back p) /\ loong_paddr e' = loong_paddr e.
Proof.
  intros He Hp Hi Hc. unfold loong_set_prop. rewrite Hp, basic_not_huge by done. cbn [negb].
  destruct (loong_flags_Ret p Hi Hc) as (fl & Hf & Hfu & Hfm & Hfa & H0 & Hd). step Hf. eexists. split; [reflexivity|].
  rewrite Z.land_lor_distr_r, basic_field, <- Z.lor_assoc by done. set (low := Z.lor F.IS_BASIC fl).
  assert (uint 64 (Z.lor (Z.land (raw e) PHYS_ADDR_MASK) low)) as Hu.
  { apply uint_lor; [lia|apply uint_land; [lia|apply He]|]. apply uint_lor; [lia|split; done|done]. }
  assert (basic (mk_pte (Z.lor (Z.land (raw e) PHYS_ADDR_MASK) low))) as Hb.
  { split; [done|]. unfold F.IS_BASIC. rewrite has_flag_bit by lia. cbn [raw]. unfold low. rewrite !Z.lor_spec.
    change (Z.testbit F.IS_BASIC 9) with true. by rewrite orb_true_r. }
  split; [done|]. split_and!.
  - unfold loong_is_present, F.VALID. rewrite has_flag_bit by lia. cbn [raw]. unfold low. by rewrite !Z.lor_spec, H0, !orb_true_r.
  - rewrite <- loong_prop_field by apply Hb. rewrite field_split; [|done|].
    + unfold low. by rewrite Z.lor_comm.
    + unfold low. by rewrite Z.land_lor_distr_l, Hfm.
  - unfold loong_paddr. rewrite !basic_not_huge by done. cbn [raw]. rewrite field_address; [done|].
    unfold low. rewrite Z.land_lor_distr_l, Hfa. done.
Qed.

Lemma basic_new pa : 0 <= pa < 2 ^ 48 -> let e := mk_pte (Z.lor (Z.lor (Z.land pa PHYS_ADDR_MASK) F.VALID) F.IS_BASIC) in
  basic e /\ loong_is_present e = true /\ loong_paddr e = nat_align_down pa PAGE_SIZE.
Proof.
  intros Hpa e. assert (Z.land (raw e) PHYS_ADDR_MASK = nat_align_down pa PAGE_SIZE) as Ha.
  { cbn [e raw]. rewrite <- Z.lor_assoc, field_address by done. apply (land_unot_low 48 12 pa); [lia|done]. }
  assert (basic e) as Hb.
  { split.
    - apply uint_lor; [lia| |split; done]. apply uint_lor; [lia| |split; done]. rewrite Z.land_comm. apply uint_land; [lia|split; done].
    - unfold F.IS_BASIC at 1. rewrite has_flag_bit by lia. cbn [e raw]. rewrite Z.lor_spec. apply orb_true_r. }
  split; [done|]. split.
  - unfold loong_is_present, F.VALID at 1. rewrite has_flag_bit by lia. cbn [e raw]. rewrite !Z.lor_spec.
    change (Z.testbit F.VALID 0) with true. by rewrite orb_true_r.
  - unfold loong_paddr. rewrite basic_not_huge, Ha by done. unfold ushl, nat_align_down, PAGE_SIZE. change 4096 with (2 ^ 12).
    pose proof (Z.div_mod pa (2 ^ 12)). pose proof (Z.mod_pos_bound pa (2 ^ 12)). pose proof (Z.div_pos pa (2 ^ 12)).
    replace (pa - pa mod 2 ^ 12) with (pa / 2 ^ 12 * 2 ^ 12) by lia.
    rewrite Z.shiftr_div_pow2, Z.div_mul, Z.shiftl_mul_pow2 by lia. apply Z.mod_small. lia.
Qed.

Lemma loong_new_page_ok pa p : 0 <= pa < 2 ^ 48 -> prop_inv p -> loong_cache (cache p) = true ->
  exists e, loong_new_page pa 1 p = Ret e /\ basic e /\ loong_is_present e = true /\ loong_prop e = Ret (read_back p) /\
    loong_paddr e = nat_align_down pa PAGE_SIZE.
Proof.
  intros Hpa Hi Hc. destruct (basic_new pa Hpa) as (Hb & Hp & Ha). unfold loong_new_page. cbn [Z.eqb Pos.eqb].
  destruct (loong_set_prop_ok _ p Hb Hp Hi Hc) as (e & Hs & He & Hpr & Hd & Had). step Hs. exists e. split.
  - destruct e as [v]. cbn [raw] in *. do 2 f_equal. pose proof (basic_field _ He) as Hf. cbn [raw] in Hf. apply Z.bits_inj'. intros k Hk.
    rewrite <- Hf, Z.lor_spec, Z.land_spec. destruct (Z.testbit v k); [done|]. done.
  - split; [done|]. split_and!; [done|done|congruence].
Qed.

(** ** Huge pages *)

Definition huge_flags_ok (p : PageProperty) : bool :=
  match loong_flags true p with Ret fl => negb (Z.testbit fl 6) && negb (Z.testbit fl 9) && Z.testbit fl 0 | Panic => true end.

Lemma huge_flags_checked : forallb huge_flags_ok all_props = true.
Proof. vm_compute. reflexivity. Qed.

Lemma loong_set_prop_huge e p e' : is_huge e = true -> loong_is_present e = true -> prop_inv p -> loong_set_prop e p = Ret e' ->
  loong_is_present e' = true /\ is_huge e' = false.
Proof.
  intros Hh Hp Hi. unfold loong_set_prop. rewrite Hp, Hh. cbn [negb]. pose proof (all_props_check _ huge_flags_checked p Hi) as Hk.
  unfold huge_flags_ok in Hk. destruct (loong_flags true p) as [fl|]; [|done]. rewrite !andb_true_iff, !negb_true_iff in Hk. destruct Hk as [[H6 H9] H0].
  intros [= <-]. unfold is_huge, loong_is_present, F.IS_BASIC, F.GLOBAL_OR_HUGE, F.VALID in *. rewrite !has_flag_bit in * by lia. cbn [raw].
  rewrite !Z.lor_spec, !Z.land_spec, H6, H9, H0. split; [by rewrite orb_true_r|].
  destruct (Z.testbit (raw e) 9); [done|]. cbn [andb orb]. change (Z.testbit (Z.lor PHYS_ADDR_MASK (Z.shiftl 1 9)) 6) with false. by rewrite andb_false_r.
Qed.

(** An entry of LoongArch for a base page reads back the property that [new_page] or [set_prop] put into it, with
    the dirty bit set, and with write-back in place of uncacheable.  The entry is present and has the page-aligned
    address; the calls panic exactly on a cache policy that the format does not have.  Changing the property of an entry
    for a huge page makes it a present entry that is not a leaf any more. *)
Theorem loong_entry_correct pa p e : 0 <= pa < 2 ^ 48 -> prop_inv p -> loong_is_present e = true ->
  (loong_cache (cache p) = false -> loong_new_page pa 1 p = Panic /\ loong_set_prop e p = Panic) /\
  (loong_cache (cache p) = true ->
    exists e', loong_new_page pa 1 p = Ret e' /\ loong_is_present e' = true /\ loong_paddr e' = nat_align_down pa PAGE_SIZE /\ loong_prop e' = Ret (read_back p)) /\
  (loong_cache (cache p) = true -> basic e ->
    exists e', loong_set_prop e p = Ret e' /\ basic e' /\ loong_is_present e' = true /\ loong_paddr e' = loong_paddr e /\ loong_prop e' = Ret (read_back p)) /\
  (is_huge e = true -> forall e', loong_set_prop e p = Ret e' -> loong_is_present e' = true /\ forall level, 1 < level -> loong_is_last e' level = false).
Proof.
  intros Hpa Hi Hp. split_and!.
  - intros Hc. assert (forall e0, loong_is_present e0 = true -> loong_set_prop e0 p = Panic) as Hs.
    { intros e0 Hp0. unfold loong_set_prop. by rewrite Hp0, loong_flags_Panic. }
    split; [|by apply Hs]. unfold loong_new_page. cbn [Z.eqb Pos.eqb]. rewrite Hs; [done|]. by apply basic_new.
  - intros Hc. destruct (loong_new_page_ok pa p Hpa Hi Hc) as (e' & ? & _ & ? & ? & ?). eauto 7.
  - intros Hc Hb. destruct (loong_set_prop_ok e p Hb Hp Hi Hc) as (e' & ? & ? & ? & ? & ?). eauto 8.
  - intros Hh e' Hs. destruct (loong_set_prop_huge e p e' Hh Hp Hi Hs) as [Hp' Hh']. split; [done|].
    intros level Hl. unfold loong_is_last. rewrite Hh'. destruct (Z.eqb_spec level 1); [lia|done].
Qed.

(** An uncacheable page is read back as a write-back one. *)
Lemma loong_entry_correct_witness :
  exists e', loong_new_page 0x7123 1 (mk_prop PageFlags.RW Uncacheable PrivFlags.GLOBAL) = Ret e' /\ loong_is_present e' = true /\
    loong_paddr e' = 0x7000 /\ loong_prop e' = Ret (mk_prop (mk_flags 0x13) Writeback PrivFlags.GLOBAL).
Proof.
  exact (proj1 (proj2 (loong_entry_correct 0x7123 (mk_prop PageFlags.RW Uncacheable PrivFlags.GLOBAL) (loong_new_pt 0x7000)
    ltac:(lia) ltac:(split; reflexivity) eq_refl)) eq_refl).
Defined.

Example loong_huge_page_lost :
  match loong_new_page 0x200000 2 (mk_prop PageFlags.RW Writeback PrivFlags.USER) with
  | Ret e => loong_is_last e 2 = true /\
      match loong_set_prop e (mk_prop PageFlags.R Writeback PrivFlags.USER) with Ret e' => loong_is_last e' 2 = false | Panic => False end
  | Panic => False
  end.
Proof. vm_compute. done. Qed.
