(* ===== verification/PtChild.v ===== *)
(** * [ostd/src/mm/page_table/node/child.rs]: the children of a page table node

    A child of a node is another node, a mapped frame or nothing; a page table
    entry encodes it.  The code is generic in the entry type and is proved
    against the interface of [Pte]. *)

From S2P Require Import Prelude AlignExt Paging FrameMeta PageProp Pte PteX86.
Open Scope Z_scope.

(** A [PageTableNode] is the pointer to its metadata slot. *)
Inductive Child :=
| PageTable (node : Z)
| Frame (paddr level : Z) (prop : PageProperty)
| ChildNone.

Inductive ChildRef :=
| RefPageTable (node : Z)
| RefFrame (paddr level : Z) (prop : PageProperty)
| RefNone.

Definition child_is_none (c : Child) : bool := match c with ChildNone => true | _ => false end.

Section child.
Context `{PageTableEntryTrait E}.

Definition into_pte (c : Child) : outcome E :=
  match c with
  | PageTable node => pa ← meta_to_frame node; Ret (new_pt pa)
  | Frame pa level p => new_page pa level p
  | ChildNone => Ret new_absent
  end.

Definition from_pte (pte : E) (level : Z) : outcome Child :=
  if negb (is_present pte) then Ret ChildNone
  else let pa := paddr pte in
       if negb (is_last pte level) then node ← frame_to_meta pa; Ret (PageTable node)
       else p ← prop pte; Ret (Frame pa level p).

Definition ref_from_pte (pte : E) (level : Z) : outcome ChildRef :=
  if negb (is_present pte) then Ret RefNone
  else let pa := paddr pte in
       if negb (is_last pte level) then node ← frame_to_meta pa; Ret (RefPageTable node)
       else p ← prop pte; Ret (RefFrame pa level p).

Context `{!PageTableEntryLaws E}.

(** A child that fits into a node of the level. *)
Definition child_wf (level : Z) (c : Child) : Prop :=
  match c with
  | PageTable node => 1 < level /\ exists pa, valid_frame_paddr pa /\ frame_to_meta pa = Ret node
  | Frame pa l p => l = level /\ valid_frame_paddr pa /\ prop_req p
  | ChildNone => True
  end.

Lemma align_down_frame pa : valid_frame_paddr pa -> nat_align_down pa PAGE_SIZE = pa.
Proof. intros [_ Hal]. by apply nat_align_down_multiple. Qed.

(** An entry that encodes a well-formed child, read back. *)
Lemma child_encoded level c : child_wf level c ->
  exists e, into_pte c = Ret e /\ pte_wf e /\ is_present e = negb (child_is_none c) /\
    from_pte e level = Ret c /\
    match c with
    | PageTable node => is_last e level = false /\ meta_to_frame node = Ret (paddr e) /\ valid_frame_paddr (paddr e)
    | Frame pa l p => is_last e level = true /\ paddr e = pa /\ prop e = Ret p
    | ChildNone => True
    end.
Proof.
  unfold from_pte. destruct c as [node|pa l p|]; cbn [child_wf into_pte child_is_none].
  - intros (Hl & pa & Hv & Hn). destruct (frame_meta_frame pa Hv) as (va & Hva & _ & _ & Hback).
    assert (va = node) as -> by congruence. rewrite Hback. cbn [mbind outcome_bind].
    destruct (new_pt_law pa level (proj1 Hv) Hl) as (Hw & Hp & Hla & Hpa).
    exists (new_pt pa). rewrite Hp, Hla, Hpa, align_down_frame, Hn by done. done.
  - intros (-> & Hv & Hreq).
    destruct (new_page_law pa level p (proj1 Hv) Hreq) as (e & He & Hw & Hp & Hla & Hpa & Hpr).
    exists e. rewrite Hp, Hla, Hpa, align_down_frame, Hpr by done. done.
  - intros _. exists new_absent. rewrite new_absent_law. split_and!; try done. apply new_absent_wf.
Qed.

(** Entries encode children without loss, for every entry type that satisfies the interface: a
    child that fits the level is written by [into_pte] and read back by [from_pte] as the same child, and
    by [ChildRef::from_pte] as the reference to the same node or the same frame. *)
Theorem child_pte_roundtrip level c :
  child_wf level c ->
  exists e, into_pte c = Ret e /\ from_pte e level = Ret c /\
    ref_from_pte e level = Ret (match c with
      | PageTable node => RefPageTable node | Frame pa l p => RefFrame pa l p | ChildNone => RefNone end).
Proof.
  intros Hc. destruct (child_encoded level c Hc) as (e & He & _ & _ & Hf & _). exists e. split_and!; [done|done|].
  unfold from_pte, ref_from_pte in *. destruct (negb (is_present e)); [by injection Hf as <-|].
  destruct (negb (is_last e level)).
  - destruct (frame_to_meta (paddr e)); inv_outcome. done.
  - destruct (prop e); inv_outcome. done.
Qed.

End child.

(** A frame and a node as entries of x86-64. *)
Lemma child_pte_roundtrip_witness :
  child_wf 2 (PageTable 0xffffe000000001c0) /\
  exists e : PageTableEntry, into_pte (PageTable 0xffffe000000001c0) = Ret e /\
    from_pte e 2 = Ret (PageTable 0xffffe000000001c0).
Proof.
  assert (Hw : child_wf 2 (PageTable 0xffffe000000001c0)) by (split; [done|by exists 0x7000]).
  split; [exact Hw|]. destruct (child_pte_roundtrip 2 _ Hw) as (e & He & Hf & _). exists e. split; [exact He|exact Hf].
Defined.
