(* ===== verification/PtNode.v ===== *)
(** * [ostd/src/mm/page_table/node]: page table nodes and their entries

    The nodes of the page tables live in physical memory; the store maps the
    address of a node to its metadata and its entries.  The operations of
    [PageTableGuard] and [Entry] are translated as state passing functions on the
    store.  A pointer to no node, an index out of the node and a failed
    assertion are [Panic]; the theorems show that none of them happens.

    [page_walk] is the software walk of [ostd/src/mm/page_table/mod.rs] and
    serves as the meaning of a page table: the theorems say how each
    operation changes it.

    The allocator of frames is code outside of this component: it is a function
    that gives the address of a frame that holds no node. *)

From S2P Require Import Prelude Agents AlignExt Paging FrameMeta PageProp Pte PteX86 PtChild.
Open Scope Z_scope.

(** [PageTablePageMeta]; the lock is [0] when free. *)
Record PageTablePageMeta := mk_meta {
  nr_children : Z;
  stray : bool;
  level : Z;
  lock : Z;
}.

Record pt_node (E : Type) := mk_node { meta : PageTablePageMeta; ptes : list E }.
Arguments mk_node {E}.
Arguments meta {E}.
Arguments ptes {E}.

Notation pt_store E := (gmap Z (pt_node E)).

(** [Entry]: [node] is the address of the locked node. *)
Record Entry (E : Type) := mk_entry { pte : E; idx : nat; node : Z }.
Arguments mk_entry {E}.
Arguments pte {E}.
Arguments idx {E}.
Arguments node {E}.

Definition meta_new (lv : Z) : PageTablePageMeta := mk_meta 0 false lv 0.

(** The entries that a node holds without counting them as its children.  The root of a user page table has
    such entries, the copies of the kernel entries that [create_user_page_table] writes. *)
Class Uncounted := uncounted : Z -> nat -> bool.

Definition all_counted : Uncounted := fun _ _ => false.

Section node.
Context `{PagingConstsTrait} `{PageTableEntryTrait E}.
(** The feature of the same name, and [debug_assertions]. *)
Context (allow_panic debug_assertions : bool).
(** [FrameAllocOptions::alloc_frame_with] of a zeroed frame. *)
Context (alloc_frame : pt_store E -> option Z).

Implicit Types (st : pt_store E) (pa : Z) (i : nat).

Definition get_node st pa : outcome (pt_node E) := unwrap (st !! pa).

Definition node_level st pa : outcome Z := n ← get_node st pa; Ret (level (meta n)).

Definition read_pte st pa i : outcome E := n ← get_node st pa; arr_get (ptes n) i.

Definition write_pte st pa i (e : E) : outcome (pt_store E) :=
  n ← get_node st pa;
  es ← arr_set (ptes n) i e;
  Ret (<[pa := mk_node (meta n) es]> st).

(** The cell of [nr_children_mut]. *)
Definition set_nr_children st pa (nr : Z) : outcome (pt_store E) :=
  n ← get_node st pa;
  Ret (<[pa := mk_node (mk_meta nr (stray (meta n)) (level (meta n)) (lock (meta n))) (ptes n)]> st).

Definition inc_nr_children st pa : outcome (pt_store E) :=
  n ← get_node st pa; nr ← uadd 16 (nr_children (meta n)) 1; set_nr_children st pa nr.
Definition dec_nr_children st pa : outcome (pt_store E) :=
  n ← get_node st pa; nr ← usub (nr_children (meta n)) 1; set_nr_children st pa nr.

(** A node that is locked already would be waited for. *)
Definition lock_node st pa : outcome (pt_store E) :=
  n ← get_node st pa;
  _ ← rassert (lock (meta n) =? 0);
  Ret (<[pa := mk_node (mk_meta (nr_children (meta n)) (stray (meta n)) (level (meta n)) 1) (ptes n)]> st).

(** [PageTableNode::alloc]: the new node's address, [start_paddr] of the returned handle. *)
Definition alloc st (lv : Z) : outcome (Z * pt_store E) :=
  pa ← unwrap (alloc_frame st);
  Ret (pa, <[pa := mk_node (meta_new lv) (replicate (Z.to_nat nr_subpage_per_huge) new_absent)]> st).

Definition new_at st pa i : outcome (Entry E) := e ← read_pte st pa i; Ret (mk_entry e i pa).

Definition entry st pa i : outcome (Entry E) :=
  _ ← (if allow_panic then rassert (Z.of_nat i <? nr_subpage_per_huge) else Ret tt);
  new_at st pa i.

Definition entry_is_none (e : Entry E) : bool := negb (is_present (pte e)).

Definition entry_is_node st (e : Entry E) : outcome bool :=
  lv ← node_level st (node e); Ret (is_present (pte e) && negb (is_last (pte e) lv)).

Definition to_ref st (e : Entry E) : outcome ChildRef :=
  lv ← node_level st (node e); ref_from_pte (pte e) lv.

(** The check of the feature [allow_panic] in [replace] and [replace_child]. *)
Definition check_child_level st pa (new_child : Child) : outcome unit :=
  if allow_panic then
    guard_level ← node_level st pa;
    match new_child with
    | PageTable n =>
        child_pa ← meta_to_frame n; lv ← node_level st child_pa;
        below ← usub guard_level 1; rassert (lv =? below)
    | Frame _ lv _ => rassert (lv =? guard_level)
    | ChildNone => Ret tt
    end
  else Ret tt.

Definition adjust_nr_children st pa (old_child new_child : Child) : outcome (pt_store E) :=
  if child_is_none old_child && negb (child_is_none new_child) then inc_nr_children st pa
  else if negb (child_is_none old_child) && child_is_none new_child then dec_nr_children st pa
  else Ret st.

Definition replace st (e : Entry E) (new_child : Child) : outcome (Child * Entry E * pt_store E) :=
  _ ← check_child_level st (node e) new_child;
  lv ← node_level st (node e);
  old_child ← from_pte (pte e) lv;
  st1 ← adjust_nr_children st (node e) old_child new_child;
  new_pte ← into_pte new_child;
  st2 ← write_pte st1 (node e) (idx e) new_pte;
  Ret (old_child, mk_entry new_pte (idx e) (node e), st2).

Definition replace_child st pa i (new_child : Child) : outcome (Child * pt_store E) :=
  _ ← check_child_level st pa new_child;
  e ← read_pte st pa i;
  lv ← node_level st pa;
  old_child ← from_pte e lv;
  st1 ← adjust_nr_children st pa old_child new_child;
  new_pte ← into_pte new_child;
  st2 ← write_pte st1 pa i new_pte;
  Ret (old_child, st2).

Definition protect_child st pa i (op : PageProperty -> PageProperty) : outcome (E * pt_store E) :=
  e ← read_pte st pa i;
  p ← prop e;
  e' ← set_prop e (op p);
  st' ← write_pte st pa i e';
  Ret (e', st').

Definition protect st (e : Entry E) (op : PageProperty -> PageProperty) : outcome (Entry E * pt_store E) :=
  ' (e', st') ← protect_child st (node e) (idx e) op;
  Ret (mk_entry e' (idx e) (node e), st').

(** The address of the new node is returned as its guard. *)
Definition alloc_if_none st (e : Entry E) : outcome (option Z * Entry E * pt_store E) :=
  let entry_is_present := is_present (pte e) in
  lv ← node_level st (node e);
  if entry_is_present || (lv <=? 1) then Ret (None, e, st)
  else
    below ← usub lv 1;
    ' (pa, st1) ← alloc st below;
    new_page ← frame_to_meta pa;
    new_pte ← into_pte (PageTable new_page);
    st2 ← lock_node st1 pa;
    st3 ← write_pte st2 (node e) (idx e) new_pte;
    st4 ← inc_nr_children st3 (node e);
    Ret (Some pa, mk_entry new_pte (idx e) (node e), st4).

Definition alloc_absent_child st pa i : outcome (Z * pt_store E) :=
  lv ← node_level st pa;
  below ← usub lv 1;
  ' (new_pa, st1) ← alloc st below;
  new_page ← frame_to_meta new_pa;
  new_pte ← into_pte (PageTable new_page);
  st2 ← lock_node st1 new_pa;
  st3 ← write_pte st2 pa i new_pte;
  st4 ← inc_nr_children st3 pa;
  Ret (new_pa, st4).

Definition replace_absent_with_frame st pa i (frame_pa lv : Z) (p : PageProperty) : outcome (pt_store E) :=
  st1 ← inc_nr_children st pa;
  new_pte ← into_pte (Frame frame_pa lv p);
  write_pte st1 pa i new_pte.

(** The loop over [i, ..., n - 1] of [split_if_mapped_huge]. *)
Fixpoint split_loop st new_pa (pa lv : Z) (p : PageProperty) (i n : nat) : outcome (pt_store E) :=
  match n with
  | O => Ret st
  | S n' =>
      offset ← umul 64 (Z.of_nat i) (page_size (lv - 1));
      small_pa ← uadd 64 pa offset;
      st1 ← replace_absent_with_frame st new_pa i small_pa (lv - 1) p;
      split_loop st1 new_pa pa lv p (S i) n'
  end.

Definition split_if_mapped_huge st (e : Entry E) : outcome (option Z * Entry E * pt_store E) :=
  lv ← node_level st (node e);
  if negb (is_last (pte e) lv && (1 <? lv)) then Ret (None, e, st)
  else
    let pa := paddr (pte e) in
    p ← prop (pte e);
    ' (new_pa, st1) ← alloc st (lv - 1);
    st2 ← lock_node st1 new_pa;
    st3 ← split_loop st2 new_pa pa lv p 0 (Z.to_nat nr_subpage_per_huge);
    new_page ← frame_to_meta new_pa;
    new_pte ← into_pte (PageTable new_page);
    st4 ← write_pte st3 (node e) (idx e) new_pte;
    Ret (Some new_pa, mk_entry new_pte (idx e) (node e), st4).

(** [page_walk]: the levels from [lv] down to [1]; a node is named by its physical address,
    which [paddr_to_vaddr] shifts by a constant. *)
Fixpoint walk st (lv : nat) (pt_addr vaddr : Z) : outcome (option (Z * PageProperty)) :=
  match lv with
  | O => Panic
  | S lv' =>
      let cur_level := Z.of_nat lv in
      let offset := pte_index vaddr cur_level in
      cur_pte ← read_pte st pt_addr (Z.to_nat offset);
      if negb (is_present cur_pte) then Ret None
      else if is_last cur_pte cur_level then
        _ ← debug_assert debug_assertions (Ret (cur_level <=? HIGHEST_TRANSLATION_LEVEL));
        pa ← uadd 64 (paddr cur_pte) (Z.land vaddr (page_size cur_level - 1));
        p ← prop cur_pte;
        Ret (Some (pa, p))
      else walk st lv' (paddr cur_pte) vaddr
  end.

Definition page_walk st (root_paddr vaddr : Z) : outcome (option (Z * PageProperty)) :=
  walk st (Z.to_nat NR_LEVELS) root_paddr vaddr.

(** ** The invariant of the store *)

Context `{!PagingConstsReqs} `{!PageTableEntryLaws E}.
Context `{U : !Uncounted}.
(** The architecture's constants (the assumption [axiom_current_paging_consts_hardcoded]). *)
Context (base_is_page : BASE_PAGE_SIZE = PAGE_SIZE).

Definition pte_ok st (lv : Z) (e : E) : Prop :=
  pte_wf e /\
  (is_present e = true ->
   if is_last e lv
   then lv <= HIGHEST_TRANSLATION_LEVEL /\ paddr e mod page_size lv = 0 /\ 0 <= paddr e /\
        paddr e + page_size lv <= MAX_PADDR /\ exists p, prop e = Ret p /\ prop_req p
   else 1 < lv /\ exists n, st !! paddr e = Some n /\ level (meta n) = lv - 1).

(** The number of the present entries that count. *)
Definition counted pa (es : list E) : Z :=
  number (fun x => x) (imap (fun i e => is_present e && negb (uncounted pa i)) es).

Definition node_ok st pa (n : pt_node E) : Prop :=
  1 <= level (meta n) <= NR_LEVELS /\ Z.of_nat (length (ptes n)) = nr_subpage_per_huge /\
  nr_children (meta n) = counted pa (ptes n) /\ Forall (pte_ok st (level (meta n))) (ptes n).

Record store_ok st : Prop := {
  store_node : forall pa n, st !! pa = Some n -> valid_frame_paddr pa /\ node_ok st pa n;
  store_uncounted : forall pa i, uncounted pa i = true -> exists n, st !! pa = Some n /\ level (meta n) = NR_LEVELS;
}.
Coercion store_node : store_ok >-> Funclass.

(** The entry is the one at its place, and one that counts. *)
Definition entry_at st (e : Entry E) (n : pt_node E) : Prop :=
  st !! node e = Some n /\ ptes n !! idx e = Some (pte e) /\ uncounted (node e) (idx e) = false.

(** A child that can be put into a node of the level. *)
Definition child_ok st (lv : Z) (c : Child) : Prop :=
  child_wf lv c /\
  match c with
  | PageTable nd => exists pa n, frame_to_meta pa = Ret nd /\ valid_frame_paddr pa /\
      st !! pa = Some n /\ level (meta n) = lv - 1
  | Frame pa _ _ => lv <= HIGHEST_TRANSLATION_LEVEL /\ pa mod page_size lv = 0 /\
      pa + page_size lv <= MAX_PADDR
  | ChildNone => True
  end.

(** The store with another entry and the count that goes with it. *)
Definition with_entry (n : pt_node E) i (e : E) : pt_node E :=
  let nr := nr_children (meta n) in
  let nr' := from_option (fun e0 => nr - holds is_present e0 + holds is_present e) nr (ptes n !! i) in
  mk_node (mk_meta nr' (stray (meta n)) (level (meta n)) (lock (meta n))) (<[i := e]> (ptes n)).

Definition set_entry st pa (n : pt_node E) i (e : E) : pt_store E := <[pa := with_entry n i e]> st.

(** [st'] has the nodes of [st] at their levels. *)
Definition same_levels st st' : Prop :=
  forall pa n, st !! pa = Some n -> exists n', st' !! pa = Some n' /\ level (meta n') = level (meta n).

Lemma pte_ok_mono st st' lv e : same_levels st st' -> pte_ok st lv e -> pte_ok st' lv e.
Proof.
  intros Hs [Hw Hp]. split; [done|]. intros He. specialize (Hp He). destruct (is_last e lv); [done|].
  destruct Hp as (Hl & n & Hn & Hlv). split; [done|]. destruct (Hs _ _ Hn) as (n' & ? & ?). exists n'. by rewrite <- Hlv.
Qed.

Lemma node_ok_mono st st' pa n : same_levels st st' -> node_ok st pa n -> node_ok st' pa n.
Proof.
  intros Hs (? & ? & ? & Hf). split_and!; try done; try lia.
  eapply Forall_impl; [exact Hf|]. intros e. by apply pte_ok_mono.
Qed.

Lemma same_levels_refl st : same_levels st st.
Proof. intros pa n ?. by exists n. Qed.

Lemma same_levels_insert st pa n' :
  (forall n, st !! pa = Some n -> level (meta n') = level (meta n)) -> same_levels st (<[pa := n']> st).
Proof.
  intros Hl q n Hq. destruct (decide (q = pa)) as [->|].
  - exists n'. rewrite lookup_insert_eq. auto.
  - exists n. by rewrite lookup_insert_ne.
Qed.

Lemma uncounted_mono st st' pa i : same_levels st st' -> store_ok st -> uncounted pa i = true ->
  exists n, st' !! pa = Some n /\ level (meta n) = NR_LEVELS.
Proof.
  intros Hs Hst (n & Hn & Hl)%(store_uncounted _ Hst). destruct (Hs pa n Hn) as (m & ? & ?). exists m. split; [done|congruence].
Qed.

(** A store with one node replaced or added is fine when the node is. *)
Lemma store_ok_insert st pa n' : store_ok st -> valid_frame_paddr pa ->
  (forall n, st !! pa = Some n -> level (meta n') = level (meta n)) ->
  node_ok (<[pa := n']> st) pa n' -> store_ok (<[pa := n']> st).
Proof.
  intros Hst Hpa Hl Hn. pose proof (same_levels_insert st pa n' Hl) as Hsame. split.
  - intros q n Hq. apply lookup_insert_Some in Hq as [[<- <-]|[Hne Hq]]; [done|].
    destruct (Hst q n Hq) as [Hv Hok]. split; [done|]. by eapply node_ok_mono.
  - intros q i. by eapply uncounted_mono.
Qed.

(** ** Counting *)

Lemma new_counted st pa i : store_ok st -> st !! pa = None -> uncounted pa i = false.
Proof. intros Hst Hnew. destruct (uncounted pa i) eqn:Hu; [|done]. destruct (store_uncounted _ Hst pa i Hu) as (n & ? & _). congruence. Qed.

Lemma low_counted st pa n i : store_ok st -> st !! pa = Some n -> level (meta n) < NR_LEVELS -> uncounted pa i = false.
Proof.
  intros Hst Hn Hl. destruct (uncounted pa i) eqn:Hu; [|done]. destruct (store_uncounted _ Hst pa i Hu) as (m & ? & ?).
  assert (n = m) as -> by congruence. lia.
Qed.

Lemma counted_bound pa es : 0 <= counted pa es <= Z.of_nat (length es).
Proof.
  unfold counted. set (l := imap _ es). assert (length es = length l) as -> by (unfold l; by rewrite length_imap).
  split; [apply number_nonneg|apply number_le_length].
Qed.

Lemma children_insert pa (es : list E) i e0 e : es !! i = Some e0 -> uncounted pa i = false ->
  counted pa (<[i := e]> es) = counted pa es - holds is_present e0 + holds is_present e.
Proof.
  intros Hi Hu. unfold counted. set (f := fun i e => is_present e && negb (uncounted pa i)).
  assert (imap f (<[i := e]> es) = <[i := f i e]> (imap f es)) as ->.
  { apply list_eq. intros j. rewrite list_lookup_imap. destruct (decide (j = i)) as [->|Hne].
    - apply lookup_lt_Some in Hi. rewrite !list_lookup_insert_eq by (rewrite ?length_imap; done). done.
    - rewrite !list_lookup_insert_ne by done. by rewrite list_lookup_imap. }
  rewrite (number_insert _ _ i (f i e0)) by (by rewrite list_lookup_imap, Hi).
  unfold f, holds. by rewrite Hu, !andb_true_r.
Qed.

Lemma counted_all pa es : (forall i, uncounted pa i = false) -> counted pa es = number is_present es.
Proof.
  intros Hu. unfold counted. rewrite (imap_ext _ (fun _ e => is_present e)) by (intros i e _; by rewrite Hu, andb_true_r).
  change (imap (fun _ e => is_present e) es) with (imap (const is_present) es). rewrite imap_const.
  induction es as [|e es IH]; [done|]. cbn. by rewrite IH.
Qed.

Lemma set_entry_ok st pa n i e : store_ok st -> st !! pa = Some n -> uncounted pa i = false -> pte_ok st (level (meta n)) e ->
  store_ok (set_entry st pa n i e) /\ same_levels st (set_entry st pa n i e).
Proof.
  intros Hst Hn Hu He. destruct (Hst pa n Hn) as [Hv (Hl & Hlen & Hnr & Hf)].
  assert (Hsame : same_levels st (set_entry st pa n i e)).
  { apply same_levels_insert. intros n0 Hn0. rewrite Hn in Hn0. by injection Hn0 as <-. }
  split; [|done]. apply store_ok_insert; [done|done| |].
  - intros n0 Hn0. rewrite Hn in Hn0. by injection Hn0 as <-.
  - split_and!; cbn [with_entry ptes meta level nr_children]; try done; try lia; [by rewrite length_insert| |].
    + rewrite Hnr. destruct (ptes n !! i) as [e0|] eqn:Hi; cbn [from_option].
      * by rewrite (children_insert pa _ i e0).
      * by rewrite list_insert_ge by (by apply lookup_ge_None).
    + apply Forall_insert; [|by eapply pte_ok_mono].
      eapply Forall_impl; [exact Hf|]. intros ?. by apply pte_ok_mono.
Qed.

(** ** The operations in terms of [set_entry] *)

Lemma nr_subpage_bound : 0 < nr_subpage_per_huge < 2 ^ 16.
Proof.
  pose proof nr_subpage_pow as [Hn Hk]. pose proof req_pte as [_ Hp]. split.
  - rewrite Hn. apply Z.pow_pos_nonneg; lia.
  - unfold nr_subpage_per_huge. rewrite base_is_page in *. unfold PAGE_SIZE in *.
    apply Z.div_lt_upper_bound; nia.
Qed.

Lemma nr_children_bound st pa n : node_ok st pa n -> 0 <= nr_children (meta n) <= nr_subpage_per_huge.
Proof. intros (_ & Hlen & -> & _). pose proof (counted_bound pa (ptes n)). lia. Qed.

Lemma with_entry_nr st pa n i e0 e : node_ok st pa n -> ptes n !! i = Some e0 -> uncounted pa i = false ->
  nr_children (meta (with_entry n i e)) = nr_children (meta n) - holds is_present e0 + holds is_present e /\
  0 <= nr_children (meta (with_entry n i e)) <= nr_subpage_per_huge /\ 0 <= nr_children (meta n) <= nr_subpage_per_huge.
Proof.
  intros Hok Hi Hu. pose proof (nr_children_bound st pa n Hok) as Hb. destruct Hok as (_ & Hlen & Hnr & _).
  cbn [with_entry meta nr_children]. rewrite Hi. cbn [from_option]. split_and!; [done| | |lia|lia];
    rewrite Hnr, <- (children_insert pa _ i e0 e Hi Hu); pose proof (counted_bound pa (<[i := e]> (ptes n))) as Hc;
    rewrite length_insert in Hc; lia.
Qed.

Lemma get_node_insert st pa n : get_node (<[pa := n]> st) pa = Ret n.
Proof. unfold get_node. by rewrite lookup_insert_eq. Qed.

Lemma arr_set_ok (es : list E) i e0 e : es !! i = Some e0 -> arr_set es i e = Ret (<[i := e]> es).
Proof. intros Hi%lookup_lt_Some. unfold arr_set. by destruct (Nat.ltb_spec i (length es)); [|lia]. Qed.

(** The adjustment of the count, then the write. *)
Lemma adjust_write st pa n i e0 e old_child new_child :
  store_ok st -> st !! pa = Some n -> ptes n !! i = Some e0 -> uncounted pa i = false ->
  is_present e0 = negb (child_is_none old_child) -> is_present e = negb (child_is_none new_child) ->
  (st1 ← adjust_nr_children st pa old_child new_child; write_pte st1 pa i e) = Ret (set_entry st pa n i e).
Proof.
  intros Hst Hn Hi Hu He0 He1. destruct (Hst pa n Hn) as [_ Hok].
  destruct (with_entry_nr st pa n i e0 e Hok Hi Hu) as (Hnum & Hb & Hb'). pose proof nr_subpage_bound as Hs.
  unfold holds in Hnum. rewrite He0, He1 in Hnum.
  assert (Hg : get_node st pa = Ret n) by (unfold get_node; by rewrite Hn).
  unfold adjust_nr_children, inc_nr_children, dec_nr_children, set_nr_children, write_pte.
  destruct (child_is_none old_child), (child_is_none new_child); cbn [negb andb] in *;
    rewrite ?Hg; cbn [mbind outcome_bind]; rewrite ?uadd_ok, ?usub_ok by lia; cbn [mbind outcome_bind];
    rewrite ?Hg; cbn [mbind outcome_bind]; rewrite ?get_node_insert; rewrite ?Hg; cbn [mbind outcome_bind ptes meta];
    rewrite (arr_set_ok _ _ _ _ Hi); cbn [mbind outcome_bind]; unfold set_entry, with_entry; rewrite Hi; cbn [from_option]; unfold holds; rewrite He0, He1;
    rewrite ?insert_insert_eq; cbn [stray level lock]; do 4 f_equal; try lia; destruct (meta n); cbn in *; f_equal; lia.
Qed.

(** The write of a new child into an absent entry, then the increment. *)
Lemma write_inc st pa n i e0 e : store_ok st -> st !! pa = Some n -> ptes n !! i = Some e0 -> uncounted pa i = false ->
  is_present e0 = false -> is_present e = true ->
  (st1 ← write_pte st pa i e; inc_nr_children st1 pa) = Ret (set_entry st pa n i e).
Proof.
  intros Hst Hn Hi Hu He0 He1. destruct (Hst pa n Hn) as [_ Hok].
  destruct (with_entry_nr st pa n i e0 e Hok Hi Hu) as (Hnum & Hb & Hb'). pose proof nr_subpage_bound as Hs.
  unfold holds in Hnum. rewrite He0, He1 in Hnum.
  assert (Hg : get_node st pa = Ret n) by (unfold get_node; by rewrite Hn).
  unfold inc_nr_children, set_nr_children, write_pte. rewrite Hg. cbn [mbind outcome_bind].
  rewrite (arr_set_ok _ _ _ _ Hi). cbn [mbind outcome_bind]. rewrite get_node_insert. cbn [mbind outcome_bind meta].
  rewrite uadd_ok by lia. cbn [mbind outcome_bind ptes meta].
  unfold set_entry, with_entry. rewrite Hi. cbn [from_option]. unfold holds. rewrite He0, He1, insert_insert_eq. do 4 f_equal. lia.
Qed.

Lemma page_valid pa lv : 1 <= lv <= NR_LEVELS -> 0 <= pa -> pa mod page_size lv = 0 ->
  pa + page_size lv <= MAX_PADDR -> valid_frame_paddr pa.
Proof.
  intros Hl H0' Hal Hmax. assert (Hp : 0 < page_size lv) by (apply page_size_pos; lia).
  split; [lia|]. rewrite <- base_is_page, <- page_size_1. apply Z.mod_divide.
  { rewrite page_size_1. pose proof (proj1 req_base). lia. }
  transitivity (page_size lv); [apply page_size_divide; lia|apply Z.mod_divide; lia].
Qed.

Lemma child_entry st lv c : child_ok st lv c ->
  exists e, into_pte c = Ret e /\ pte_ok st lv e /\ is_present e = negb (child_is_none c) /\
    from_pte e lv = Ret c /\
    match c with
    | PageTable nd => is_last e lv = false /\ meta_to_frame nd = Ret (paddr e)
    | Frame pa _ p => is_last e lv = true /\ paddr e = pa /\ prop e = Ret p
    | ChildNone => True
    end.
Proof.
  intros [Hw Hc]. destruct (child_encoded lv c Hw) as (e & He & Hwf & Hpr & Hf & Hm).
  exists e. split_and!; try done; [|destruct c; [split; apply Hm|exact Hm|done]].
  split; [done|]. intros Hp. destruct c as [nd|pa l p|].
  - destruct Hm as (-> & Hback & _), Hw as [Hl _], Hc as (pa & n & Hn & Hv & Hst & Hlv).
    destruct (frame_meta_frame pa Hv) as (va & Hva & _ & _ & Hback'). split; [done|].
    exists n. assert (paddr e = pa) as -> by congruence. done.
  - destruct Hm as (-> & -> & Hprop), Hw as (-> & Hv & Hreq), Hc as (? & ? & ?), Hv as [? _].
    split_and!; try done; try lia. by exists p.
  - by rewrite Hpr in Hp.
Qed.

(** ** The walk *)

(** The entry that the walk reads in a node. *)
Definition walk_pte (n : pt_node E) (va : Z) : option E :=
  ptes n !! Z.to_nat (pte_index va (level (meta n))).

Definition node_walk st pa (n : pt_node E) (va : Z) := walk st (Z.to_nat (level (meta n))) pa va.

(** What a present or absent entry at a level contributes to the walk. *)
Definition pte_walk st (lv : Z) (e : E) (va : Z) : outcome (option (Z * PageProperty)) :=
  if negb (is_present e) then Ret None
  else if is_last e lv then p ← prop e; Ret (Some (paddr e + va mod page_size lv, p))
  else walk st (Z.to_nat (lv - 1)) (paddr e) va.

Lemma walk_index st {pa} n va : node_ok st pa n -> 0 <= va -> exists e, walk_pte n va = Some e /\ pte_ok st (level (meta n)) e.
Proof.
  intros (Hl & Hlen & _ & Hf) Hva. unfold walk_pte.
  assert (Hi : 0 <= pte_index va (level (meta n)) < nr_subpage_per_huge).
  { rewrite pte_index_div by done. apply Z.mod_pos_bound. pose proof nr_subpage_bound. lia. }
  destruct (lookup_lt_is_Some_2 (ptes n) (Z.to_nat (pte_index va (level (meta n))))) as [e He]; [lia|].
  exists e. split; [done|]. by apply (Forall_lookup_1 _ _ _ _ Hf He).
Qed.

(** One level of the walk. *)
Lemma node_walk_step st pa n va e : store_ok st -> st !! pa = Some n -> 0 <= va -> walk_pte n va = Some e ->
  node_walk st pa n va = pte_walk st (level (meta n)) e va.
Proof.
  intros Hst Hn Hva He. destruct (Hst pa n Hn) as [_ Hok]. destruct (walk_index st n va Hok Hva) as (e1 & He1 & Hw & Hp).
  assert (e1 = e) as -> by congruence. destruct Hok as (Hl & _).
  unfold node_walk, pte_walk. destruct (Z.to_nat (level (meta n))) as [|l] eqn:El; [lia|].
  cbn [walk]. replace (Z.of_nat (S l)) with (level (meta n)) by lia.
  unfold read_pte, get_node, arr_get. rewrite Hn. cbn [mbind outcome_bind unwrap]. unfold walk_pte in He. rewrite He.
  cbn [mbind outcome_bind unwrap]. destruct (is_present e); cbn [negb]; [|done]. specialize (Hp eq_refl).
  destruct (is_last e (level (meta n))).
  - destruct Hp as (Hh & _ & H0' & Hmax & p & -> & _). assert (0 < page_size (level (meta n))) by (apply page_size_pos; lia).
    assert (Hland : Z.land va (page_size (level (meta n)) - 1) = va mod page_size (level (meta n))).
    { rewrite page_size_pow by lia. pose proof (offset_bound (level (meta n))) as Ho. specialize (Ho ltac:(lia)).
      pose proof base_pow.
      replace (_ - 1) with (Z.ones (pte_index_bit_offset (level (meta n)))) by (rewrite Z.ones_equiv; lia).
      apply Z.land_ones. lia. }
    rewrite Hland. pose proof (Z.mod_pos_bound va (page_size (level (meta n))) ltac:(done)).
    unfold MAX_PADDR in Hmax. rewrite uadd_ok by lia. unfold debug_assert, rassert.
    destruct debug_assertions; cbn [mbind outcome_bind]; [|done]. zcase; [done|lia].
  - replace (Z.to_nat (level (meta n) - 1)) with l by lia. done.
Qed.

(** The walk from a node at its level never panics. *)
Lemma node_walk_total st va : store_ok st -> 0 <= va ->
  forall l pa n, st !! pa = Some n -> level (meta n) = Z.of_nat l -> exists r, node_walk st pa n va = Ret r.
Proof.
  intros Hst Hva. induction l as [|l IH]; intros pa n Hn Hl; destruct (Hst pa n Hn) as [_ Hok].
  { destruct Hok as (? & _). lia. }
  destruct (walk_index st n va Hok Hva) as (e & He & _ & Hp).
  rewrite (node_walk_step st pa n va e Hst Hn Hva He). unfold pte_walk.
  destruct (is_present e); [|by eexists]. specialize (Hp eq_refl). cbn [negb].
  destruct (is_last e (level (meta n))).
  - destruct Hp as (_ & _ & _ & _ & p & -> & _). by eexists.
  - destruct Hp as (_ & n' & Hn' & Hl'). rewrite <- Hl'. apply IH; [done|lia].
Qed.

Lemma node_walk_bound st va : store_ok st -> 0 <= va ->
  forall l q n pa p, st !! q = Some n -> level (meta n) = Z.of_nat l -> node_walk st q n va = Ret (Some (pa, p)) ->
    0 <= pa < MAX_PADDR.
Proof.
  intros Hst Hva. induction l as [|l IH]; intros q n pa p Hn Hl Hw; destruct (Hst q n Hn) as [_ Hok]; pose proof Hok as (Hlv & _).
  { lia. }
  destruct (walk_index st n va Hok Hva) as (e & He & _ & Hp).
  rewrite (node_walk_step st q n va e Hst Hn Hva He) in Hw. unfold pte_walk in Hw.
  destruct (is_present e); [|done]. specialize (Hp eq_refl). cbn [negb] in Hw.
  destruct (is_last e (level (meta n))).
  - destruct Hp as (_ & _ & H0' & Hmax & p' & Hpr & _). rewrite Hpr in Hw. cbn [mbind outcome_bind] in Hw. injection Hw as <- _.
    pose proof (Z.mod_pos_bound va (page_size (level (meta n)))) as Hm.
    assert (0 < page_size (level (meta n))) by (apply page_size_pos; lia). lia.
  - destruct Hp as (_ & n' & Hn' & Hl'). rewrite <- Hl' in Hw. by apply (IH _ _ pa p Hn' ltac:(lia)).
Qed.

(** Two stores agree on an address from every node up to a level if each node reads the same entry, or
    agrees already. *)
Lemma walk_congr st st' va L : store_ok st -> store_ok st' -> 0 <= va ->
  (forall q n, st !! q = Some n -> level (meta n) <= L ->
     exists n', st' !! q = Some n' /\ level (meta n') = level (meta n) /\
       (walk_pte n' va = walk_pte n va \/ node_walk st' q n' va = node_walk st q n va)) ->
  forall l q n n', level (meta n) = Z.of_nat l -> level (meta n) <= L ->
    st !! q = Some n -> st' !! q = Some n' -> node_walk st' q n' va = node_walk st q n va.
Proof.
  intros Hst Hst' Hva Hag. induction l as [|l IH]; intros q n n' Hl HL Hn Hn'; destruct (Hst q n Hn) as [_ Hok].
  { destruct Hok as (? & _). lia. }
  destruct (Hag q n Hn HL) as (n1 & Hn1 & Hlv & [Heq|]); [|by assert (n1 = n') as <- by congruence].
  assert (n1 = n') as -> by congruence. destruct (walk_index st n va Hok Hva) as (e & He & _ & Hp).
  rewrite (node_walk_step st q n va e), (node_walk_step st' q n' va e) by (done || congruence).
  rewrite Hlv. unfold pte_walk. destruct (is_present e); [|done]. specialize (Hp eq_refl). cbn [negb].
  destruct (is_last e (level (meta n))); [done|]. destruct Hp as (_ & m & Hm & Hlm).
  destruct (Hag _ _ Hm ltac:(lia)) as (m' & Hm' & Hlm' & _). specialize (IH _ m m' ltac:(lia) ltac:(lia) Hm Hm').
  unfold node_walk in IH. rewrite Hlm', Hlm in IH. exact IH.
Qed.

Lemma node_level_nat st pa n : store_ok st -> st !! pa = Some n -> level (meta n) = Z.of_nat (Z.to_nat (level (meta n))).
Proof. intros Hst Hn. destruct (Hst pa n Hn) as [_ (? & _)]. lia. Qed.

(** Below the node of the entry nothing changes. *)
Lemma walk_set_below st pa n i e va q m : store_ok st -> st !! pa = Some n -> uncounted pa i = false -> pte_ok st (level (meta n)) e -> 0 <= va ->
  st !! q = Some m -> level (meta m) < level (meta n) ->
  walk (set_entry st pa n i e) (Z.to_nat (level (meta m))) q va = walk st (Z.to_nat (level (meta m))) q va.
Proof.
  intros Hst Hn Hu He Hva Hq Hlt. destruct (set_entry_ok st pa n i e Hst Hn Hu He) as [Hst' Hsame].
  assert (Hun : forall q' m', st !! q' = Some m' -> level (meta m') <= level (meta m) -> set_entry st pa n i e !! q' = Some m').
  { intros q' m' Hq' Hl. unfold set_entry. rewrite lookup_insert_ne; [done|]. intros ->.
    assert (n = m') as -> by congruence. lia. }
  refine (walk_congr st (set_entry st pa n i e) va (level (meta m)) Hst Hst' Hva _ _ q m m
    (node_level_nat st q m Hst Hq) (Z.le_refl _) Hq (Hun q m Hq (Z.le_refl _))).
  intros q' m' Hq' Hl. exists m'. split_and!; [by apply Hun|done|by left].
Qed.

Lemma pte_walk_set st pa n i e e1 va : store_ok st -> st !! pa = Some n -> uncounted pa i = false -> pte_ok st (level (meta n)) e -> 0 <= va ->
  pte_ok st (level (meta n)) e1 ->
  pte_walk (set_entry st pa n i e) (level (meta n)) e1 va = pte_walk st (level (meta n)) e1 va.
Proof.
  intros Hst Hn Hu He Hva [_ Hp]. unfold pte_walk. destruct (is_present e1); [|done]. specialize (Hp eq_refl). cbn [negb].
  destruct (is_last e1 (level (meta n))); [done|]. destruct Hp as (_ & m & Hm & Hlm). rewrite <- Hlm.
  apply walk_set_below; try done. lia.
Qed.

(** The walk from the node of the entry. *)
Lemma walk_set_entry st pa n i e va : store_ok st -> st !! pa = Some n -> uncounted pa i = false -> pte_ok st (level (meta n)) e -> 0 <= va ->
  node_walk (set_entry st pa n i e) pa (with_entry n i e) va =
    if decide (Z.to_nat (pte_index va (level (meta n))) = i) then pte_walk st (level (meta n)) e va else node_walk st pa n va.
Proof.
  intros Hst Hn Hu He Hva. destruct (set_entry_ok st pa n i e Hst Hn Hu He) as [Hst' _]. destruct (Hst pa n Hn) as [_ Hok].
  destruct (walk_index st n va Hok Hva) as (e0 & He0 & Hp0).
  assert (Hn' : set_entry st pa n i e !! pa = Some (with_entry n i e)) by apply lookup_insert_eq.
  destruct (decide _) as [Hi|Hi].
  - rewrite (node_walk_step _ pa _ va e Hst' Hn' Hva); [exact (pte_walk_set st pa n i e e va Hst Hn Hu He Hva He)|].
    unfold walk_pte in *. cbn [with_entry ptes meta level]. rewrite Hi in *. apply list_lookup_insert_eq. by eapply lookup_lt_Some.
  - rewrite (node_walk_step _ pa _ va e0 Hst' Hn' Hva), (node_walk_step st pa n va e0) by
      (done || (unfold walk_pte; cbn [with_entry ptes meta level]; by rewrite list_lookup_insert_ne)).
    exact (pte_walk_set st pa n i e e0 va Hst Hn Hu He Hva Hp0).
Qed.

(** An entry that means the same as the one before leaves every walk as it was. *)
Lemma walk_set_same st pa n i e va : store_ok st -> st !! pa = Some n -> uncounted pa i = false -> pte_ok st (level (meta n)) e -> 0 <= va ->
  (Z.to_nat (pte_index va (level (meta n))) = i -> pte_walk st (level (meta n)) e va = node_walk st pa n va) ->
  forall q m m', st !! q = Some m -> set_entry st pa n i e !! q = Some m' ->
    node_walk (set_entry st pa n i e) q m' va = node_walk st q m va.
Proof.
  intros Hst Hn Hu He Hva Hmean q m m' Hq Hq'. destruct (set_entry_ok st pa n i e Hst Hn Hu He) as [Hst' _].
  refine (walk_congr st _ va (level (meta m)) Hst Hst' Hva _ _ q m m' (node_level_nat st q m Hst Hq) (Z.le_refl _) Hq Hq').
  intros q1 m1 Hq1 _. destruct (decide (q1 = pa)) as [->|Hne].
  - assert (m1 = n) as -> by congruence. exists (with_entry n i e).
    split_and!; [apply lookup_insert_eq|done|right]. rewrite walk_set_entry by done.
    destruct (decide _) as [Hi|]; [by apply Hmean|done].
  - exists m1. split_and!; [by apply lookup_insert_Some; right|done|by left].
Qed.

(** A new node is on no walk yet. *)
Lemma walk_add st pa n va q m : store_ok st -> store_ok (<[pa := n]> st) -> st !! pa = None -> 0 <= va ->
  st !! q = Some m -> node_walk (<[pa := n]> st) q m va = node_walk st q m va.
Proof.
  intros Hst Hst' Hnew Hva Hq.
  assert (Hun : forall q1 m1, st !! q1 = Some m1 -> <[pa := n]> st !! q1 = Some m1).
  { intros q1 m1 Hq1. rewrite lookup_insert_ne; [done|]. intros ->. congruence. }
  refine (walk_congr st _ va (level (meta m)) Hst Hst' Hva _ _ q m m (node_level_nat st q m Hst Hq) (Z.le_refl _) Hq (Hun q m Hq)).
  intros q1 m1 Hq1 _. exists m1. split_and!; [by apply Hun|done|by left].
Qed.

Lemma node_level_ok st pa n : st !! pa = Some n -> node_level st pa = Ret (level (meta n)).
Proof. intros Hn. unfold node_level, get_node. by rewrite Hn. Qed.

(** ** Replacing and protecting *)

Lemma entry_at_set st e n e1 : entry_at st e n ->
  entry_at (set_entry st (node e) n (idx e) e1) (mk_entry e1 (idx e) (node e)) (with_entry n (idx e) e1).
Proof.
  intros (_ & Hi & Hu). split_and!; [apply lookup_insert_eq| |done]. cbn. apply list_lookup_insert_eq. by eapply lookup_lt_Some.
Qed.

(** What a child contributes to the walk. *)
Definition child_walk st (lv : Z) (c : Child) (va : Z) : outcome (option (Z * PageProperty)) :=
  match c with
  | PageTable nd => pa ← meta_to_frame nd; walk st (Z.to_nat (lv - 1)) pa va
  | Frame pa _ p => Ret (Some (pa + va mod page_size lv, p))
  | ChildNone => Ret None
  end.

Lemma from_pte_total st lv e : store_ok st -> pte_ok st lv e ->
  exists old, from_pte e lv = Ret old /\ is_present e = negb (child_is_none old).
Proof.
  intros Hst [_ Hp]. unfold from_pte. destruct (is_present e); [|by exists ChildNone]. specialize (Hp eq_refl). cbn [negb].
  destruct (is_last e lv); cbn [negb].
  - destruct Hp as (_ & _ & _ & _ & p & -> & _). by eexists.
  - destruct Hp as (_ & n & Hn & _). destruct (Hst _ _ Hn) as [Hv _].
    destruct (frame_meta_frame _ Hv) as (nd & -> & _). by eexists.
Qed.

Lemma check_child_ok st pa n c : store_ok st -> st !! pa = Some n -> child_ok st (level (meta n)) c ->
  check_child_level st pa c = Ret tt.
Proof.
  intros Hst Hn [Hw Hc]. unfold check_child_level. destruct allow_panic; [|done].
  rewrite (node_level_ok _ _ _ Hn). cbn [mbind outcome_bind]. destruct c as [nd|fpa l p|]; [| |done].
  - destruct Hc as (cpa & m & Hnd & Hv & Hm & Hlm). destruct (frame_meta_frame cpa Hv) as (va & Hva & _ & _ & Hback).
    assert (va = nd) as -> by congruence. rewrite Hback. cbn [mbind outcome_bind].
    rewrite (node_level_ok _ _ _ Hm). cbn [mbind outcome_bind]. destruct Hw as [Hl _]. rewrite usub_ok by lia.
    cbn [mbind outcome_bind]. unfold rassert. zcase; [done|lia].
  - destruct Hw as (-> & _). unfold rassert. zcase; [done|lia].
Qed.

Lemma child_pte_walk st lv c e va : is_present e = negb (child_is_none c) ->
  match c with
  | PageTable nd => is_last e lv = false /\ meta_to_frame nd = Ret (paddr e)
  | Frame pa _ p => is_last e lv = true /\ paddr e = pa /\ prop e = Ret p
  | ChildNone => True
  end -> pte_walk st lv e va = child_walk st lv c va.
Proof.
  intros Hp Hm. unfold pte_walk. rewrite Hp. destruct c as [nd|pa l p|]; cbn [child_is_none negb child_walk]; [| |done].
  - destruct Hm as [-> ->]. done.
  - destruct Hm as (-> & -> & ->). done.
Qed.

(** The operations that replace an entry write the encoding of the new child and adjust the count. *)
Lemma replace_spec st e n c :
  store_ok st -> entry_at st e n -> child_ok st (level (meta n)) c ->
  exists old e1, from_pte (pte e) (level (meta n)) = Ret old /\ into_pte c = Ret e1 /\
    pte_ok st (level (meta n)) e1 /\ is_present e1 = negb (child_is_none c) /\ from_pte e1 (level (meta n)) = Ret c /\
    (forall va, pte_walk st (level (meta n)) e1 va = child_walk st (level (meta n)) c va) /\
    replace st e c = Ret (old, mk_entry e1 (idx e) (node e), set_entry st (node e) n (idx e) e1) /\
    replace_child st (node e) (idx e) c = Ret (old, set_entry st (node e) n (idx e) e1).
Proof.
  intros Hst (Hn & Hi & Hu) Hc. destruct (Hst _ _ Hn) as [_ (_ & _ & _ & Hf)].
  pose proof (Forall_lookup_1 _ _ _ _ Hf Hi) as Hok.
  destruct (from_pte_total st _ _ Hst Hok) as (old & Hold & Hp0).
  destruct (child_entry st _ c Hc) as (e1 & Hin & Hok1 & Hp1 & Hf1 & Hm1).
  pose proof (adjust_write st (node e) n (idx e) (pte e) e1 old c Hst Hn Hi Hu Hp0 Hp1) as Haw.
  exists old, e1. split_and!; try done.
  { intros va. exact (child_pte_walk st _ c e1 va Hp1 Hm1). }
  all: unfold replace, replace_child, read_pte, get_node; rewrite (check_child_ok _ _ _ _ Hst Hn Hc); cbn [mbind outcome_bind];
    rewrite ?Hn; cbn [mbind outcome_bind unwrap]; rewrite ?(proj2 (arr_get_Ret _ _ _) Hi); cbn [mbind outcome_bind];
    rewrite (node_level_ok _ _ _ Hn); cbn [mbind outcome_bind]; rewrite Hold; cbn [mbind outcome_bind];
    destruct (adjust_nr_children st (node e) old c) as [st1|]; try done; cbn [mbind outcome_bind] in Haw |- *;
    rewrite Hin; cbn [mbind outcome_bind]; by rewrite Haw.
Qed.

(** Replacing an entry.  For a child that fits the node, [replace] and [replace_child] do not panic; they
    return the child that the entry encoded and leave an entry that encodes the new child, so that
    replacing again gives that child back.  Only the node of the entry changes, the store keeps
    its invariant, and the walk from the node goes through the new child exactly for the addresses
    whose index is that of the entry, and is otherwise as before. *)
Theorem replace_correct st e n c :
  store_ok st -> entry_at st e n -> child_ok st (level (meta n)) c ->
  exists old e' st', replace st e c = Ret (old, e', st') /\
    replace_child st (node e) (idx e) c = Ret (old, st') /\
    from_pte (pte e) (level (meta n)) = Ret old /\ from_pte (pte e') (level (meta n)) = Ret c /\
    store_ok st' /\ entry_at st' e' (with_entry n (idx e) (pte e')) /\
    (forall q, q <> node e -> st' !! q = st !! q) /\
    forall va, 0 <= va -> node_walk st' (node e) (with_entry n (idx e) (pte e')) va =
      if decide (Z.to_nat (pte_index va (level (meta n))) = idx e)
      then child_walk st (level (meta n)) c va else node_walk st (node e) n va.
Proof.
  intros Hst He Hc. destruct (replace_spec st e n c Hst He Hc) as (old & e1 & Hold & _ & Hok1 & _ & Hf1 & Hw & Hr & Hrc).
  exists old, (mk_entry e1 (idx e) (node e)), (set_entry st (node e) n (idx e) e1). pose proof He as (Hn & _ & Hu).
  split_and!; try done.
  - by apply set_entry_ok.
  - by apply entry_at_set.
  - intros q Hq. by apply lookup_insert_ne.
  - intros va Hva. rewrite walk_set_entry by done. cbn [pte]. by rewrite Hw.
Qed.

Lemma protect_spec st e n op p :
  store_ok st -> entry_at st e n -> is_present (pte e) = true -> is_last (pte e) (level (meta n)) = true ->
  prop (pte e) = Ret p -> prop_req (op p) ->
  exists e1, protect_child st (node e) (idx e) op = Ret (e1, set_entry st (node e) n (idx e) e1) /\
    pte_ok st (level (meta n)) e1 /\ is_present e1 = true /\ is_last e1 (level (meta n)) = true /\
    prop e1 = Ret (op p) /\ paddr e1 = paddr (pte e).
Proof.
  intros Hst (Hn & Hi & Hu) Hp Hla Hpr Hreq. destruct (Hst _ _ Hn) as [_ Hnok]. pose proof Hnok as (_ & _ & _ & Hf).
  pose proof (Forall_lookup_1 _ _ _ _ Hf Hi) as [Hwf Hok]. specialize (Hok Hp). rewrite Hla in Hok.
  destruct (set_prop_law (pte e) (op p) Hwf Hp Hreq) as (e1 & Hset & Hwf1 & Hp1 & Hpr1 & Hpa1 & Hla1).
  specialize (Hla1 _ Hla). exists e1.
  pose proof (adjust_write st (node e) n (idx e) (pte e) e1 (Frame 0 0 p) (Frame 0 0 p) Hst Hn Hi Hu Hp Hp1) as Haw. cbn in Haw.
  split_and!; [|split|..]; try done.
  - unfold protect_child, read_pte, get_node. rewrite Hn. cbn [mbind outcome_bind unwrap].
    rewrite (proj2 (arr_get_Ret _ _ _) Hi). cbn [mbind outcome_bind]. rewrite Hpr. cbn [mbind outcome_bind].
    rewrite Hset. cbn [mbind outcome_bind]. by rewrite Haw.
  - intros _. rewrite Hla1, Hpa1. destruct Hok as (? & ? & ? & ? & _). split_and!; try done. by exists (op p).
Qed.

(** Protecting a mapped page.  When the new property is one the entry type can hold, [protect] does not
    panic; the walk from the node translates the addresses of the entry to the same physical addresses with
    the property given by [op], and the other addresses as before.  The store keeps its invariant. *)
Theorem protect_correct st e n op p :
  store_ok st -> entry_at st e n -> is_present (pte e) = true -> is_last (pte e) (level (meta n)) = true ->
  prop (pte e) = Ret p -> prop_req (op p) ->
  exists e' st', protect st e op = Ret (e', st') /\
    store_ok st' /\ entry_at st' e' (with_entry n (idx e) (pte e')) /\
    nr_children (meta (with_entry n (idx e) (pte e'))) = nr_children (meta n) /\
    (forall q, q <> node e -> st' !! q = st !! q) /\
    forall va, 0 <= va -> node_walk st' (node e) (with_entry n (idx e) (pte e')) va =
      if decide (Z.to_nat (pte_index va (level (meta n))) = idx e)
      then Ret (Some (paddr (pte e) + va mod page_size (level (meta n)), op p)) else node_walk st (node e) n va.
Proof.
  intros Hst He Hp Hla Hpr Hreq. pose proof He as (Hn & Hi & Hu). destruct (Hst _ _ Hn) as [_ Hnok].
  destruct (protect_spec st e n op p Hst He Hp Hla Hpr Hreq) as (e1 & Hpc & Hok1 & Hp1 & Hla1 & Hpr1 & Hpa1).
  exists (mk_entry e1 (idx e) (node e)), (set_entry st (node e) n (idx e) e1).
  unfold protect. rewrite Hpc. split_and!; try done.
  - by apply set_entry_ok.
  - by apply entry_at_set.
  - destruct (with_entry_nr st (node e) n (idx e) (pte e) e1 Hnok Hi Hu) as (Hnum & _). cbn [pte].
    unfold holds in Hnum. rewrite Hp, Hp1 in Hnum. lia.
  - intros q Hq. by apply lookup_insert_ne.
  - intros va Hva. rewrite walk_set_entry by done. cbn [pte]. unfold pte_walk. by rewrite Hp1, Hla1, Hpr1, Hpa1.
Qed.

(** The software walk is total: in a well-formed store, from a root node of the highest level, [page_walk] of
    any address neither reaches its [unreachable!], nor reads outside of a node, nor fails its debug
    assertion, nor overflows.  It translates within physical memory. *)
Theorem page_walk_total st root n va :
  store_ok st -> st !! root = Some n -> level (meta n) = NR_LEVELS -> 0 <= va ->
  exists r, page_walk st root va = Ret r /\ forall pa p, r = Some (pa, p) -> 0 <= pa < MAX_PADDR.
Proof.
  intros Hst Hn Hl Hva. unfold page_walk. rewrite <- Hl. fold (node_walk st root n va).
  destruct (node_walk_total st va Hst Hva _ _ _ Hn (node_level_nat _ _ _ Hst Hn)) as [r Hr].
  exists r. split; [done|]. intros pa p ->. by apply (node_walk_bound st va Hst Hva _ _ _ pa p Hn (node_level_nat _ _ _ Hst Hn)).
Qed.

(** ** New nodes *)

Definition locked_node (lv : Z) (es : list E) : pt_node E := mk_node (mk_meta (number is_present es) false lv 1) es.

Definition empty_ptes : list E := replicate (Z.to_nat nr_subpage_per_huge) new_absent.

Lemma number_empty : number is_present empty_ptes = 0.
Proof. apply number_zero. intros i a [-> _]%lookup_replicate. apply new_absent_law. Qed.

Lemma absent_ok st lv : pte_ok st lv new_absent.
Proof. split; [apply new_absent_wf|]. by rewrite new_absent_law. Qed.

(** The new node, locked. *)
Lemma alloc_lock st pa lv : alloc_frame st = Some pa ->
  exists st1, alloc st lv = Ret (pa, st1) /\ lock_node st1 pa = Ret (<[pa := locked_node lv empty_ptes]> st).
Proof.
  intros Ha. eexists. unfold alloc. rewrite Ha. split; [done|]. unfold lock_node. rewrite get_node_insert.
  cbn [mbind outcome_bind meta meta_new lock rassert Z.eqb ptes]. rewrite insert_insert_eq.
  unfold locked_node. by rewrite number_empty.
Qed.

Lemma locked_node_ok st pa lv es : store_ok st -> st !! pa = None -> valid_frame_paddr pa -> 1 <= lv <= NR_LEVELS ->
  length es = length empty_ptes -> Forall (pte_ok st lv) es -> store_ok (<[pa := locked_node lv es]> st).
Proof.
  intros Hst Hnew Hv Hl Hlen Hes. apply store_ok_insert; [done|done|by rewrite Hnew|].
  pose proof nr_subpage_bound. split_and!; cbn [locked_node meta ptes level nr_children]; try done; try lia.
  - rewrite Hlen. unfold empty_ptes. rewrite length_replicate. lia.
  - rewrite counted_all; [done|]. intros i. by eapply new_counted.
  - eapply Forall_impl; [exact Hes|]. intros e. apply pte_ok_mono. apply same_levels_insert. by rewrite Hnew.
Qed.

(** The entry for a new node. *)
Lemma node_entry st pa m lv : valid_frame_paddr pa -> 1 < lv -> st !! pa = Some m -> level (meta m) = lv - 1 ->
  exists nd e, frame_to_meta pa = Ret nd /\ into_pte (PageTable nd) = Ret e /\ pte_ok st lv e /\
    is_present e = true /\ is_last e lv = false /\ paddr e = pa.
Proof.
  intros Hv Hl Hm Hlm. destruct (frame_meta_frame pa Hv) as (nd & Hnd & _ & _ & Hback).
  destruct (child_entry st lv (PageTable nd)) as (e & He & Hok & Hp & _ & Hla & Hpa).
  { split; [split; [done|by exists pa]|]. by exists pa, m. }
  exists nd, e. split_and!; try done. congruence.
Qed.

(** A new node put into an absent or a last-level entry: the store after the write. *)
Definition put_node st (e : Entry E) (n : pt_node E) pa (m : pt_node E) (e1 : E) : pt_store E :=
  set_entry (<[pa := m]> st) (node e) n (idx e) e1.

(** When the entry of the new node means what the old one meant, every walk is as before. *)
Lemma put_node_walk st e n pa m e1 : store_ok st -> entry_at st e n -> st !! pa = None -> store_ok (<[pa := m]> st) ->
  pte_ok (<[pa := m]> st) (level (meta n)) e1 ->
  (forall va, 0 <= va -> Z.to_nat (pte_index va (level (meta n))) = idx e ->
     pte_walk (<[pa := m]> st) (level (meta n)) e1 va = pte_walk st (level (meta n)) (pte e) va) ->
  store_ok (put_node st e n pa m e1) /\
  entry_at (put_node st e n pa m e1) (mk_entry e1 (idx e) (node e)) (with_entry n (idx e) e1) /\
  put_node st e n pa m e1 !! pa = Some m /\
  forall q k, st !! q = Some k -> exists k', put_node st e n pa m e1 !! q = Some k' /\
    level (meta k') = level (meta k) /\
    forall va, 0 <= va -> node_walk (put_node st e n pa m e1) q k' va = node_walk st q k va.
Proof.
  intros Hst (Hn & Hi & Hu) Hnew Hst1 He1 Hmean. assert (Hne : pa <> node e) by (intros ->; congruence).
  assert (Hn1 : <[pa := m]> st !! node e = Some n) by (by rewrite lookup_insert_ne).
  destruct (set_entry_ok _ (node e) n (idx e) e1 Hst1 Hn1 Hu He1) as [Hst2 Hsame]. unfold put_node. split_and!; [done| | |].
  - split_and!; [apply lookup_insert_eq| |done]. cbn. apply list_lookup_insert_eq. by eapply lookup_lt_Some.
  - unfold set_entry. by rewrite lookup_insert_ne, lookup_insert_eq.
  - intros q k Hq. assert (Hq1 : <[pa := m]> st !! q = Some k) by (rewrite lookup_insert_ne; [done|intros ->; congruence]).
    destruct (Hsame q k Hq1) as (k' & Hk' & Hlk). exists k'. split_and!; [done|done|]. intros va Hva.
    rewrite <- (walk_add st pa m va q k) by done.
    apply (walk_set_same _ (node e) n (idx e) e1 va Hst1 Hn1 Hu He1 Hva); [|done|done].
    intros Hix. rewrite (Hmean va Hva Hix), (walk_add st pa m va (node e) n) by done. symmetry.
    apply node_walk_step; try done. unfold walk_pte. by rewrite Hix.
Qed.

(** The allocator returns a frame that is not in use. *)
Context (alloc_fresh : forall st pa, alloc_frame st = Some pa -> valid_frame_paddr pa /\ st !! pa = None).

(** A new, empty, locked node put under an absent entry. *)
Lemma alloc_child_spec st e n pa :
  store_ok st -> entry_at st e n -> is_present (pte e) = false -> 1 < level (meta n) -> alloc_frame st = Some pa ->
  let m := locked_node (level (meta n) - 1) empty_ptes in
  exists e1, store_ok (<[pa := m]> st) /\ pte_ok (<[pa := m]> st) (level (meta n)) e1 /\
    is_present e1 = true /\ is_last e1 (level (meta n)) = false /\ paddr e1 = pa /\
    (forall va, 0 <= va -> pte_walk (<[pa := m]> st) (level (meta n)) e1 va = pte_walk st (level (meta n)) (pte e) va) /\
    alloc_if_none st e = Ret (Some pa, mk_entry e1 (idx e) (node e), put_node st e n pa m e1) /\
    alloc_absent_child st (node e) (idx e) = Ret (pa, put_node st e n pa m e1).
Proof.
  intros Hst He Hp Hl Ha m. pose proof He as (Hn & Hi & Hu). destruct (Hst _ _ Hn) as [_ Hok]. pose proof Hok as (Hlv & _).
  destruct (alloc_fresh st pa Ha) as [Hv Hnew].
  assert (Hst1 : store_ok (<[pa := m]> st)).
  { apply locked_node_ok; try done; [lia|]. apply Forall_replicate. apply absent_ok. }
  destruct (node_entry (<[pa := m]> st) pa m (level (meta n))) as (nd & e1 & Hnd & Hin & Hok1 & Hp1 & Hl1 & Hpa1);
    [done|done|apply lookup_insert_eq|done|].
  exists e1. split_and!; try done.
  { intros va Hva. unfold pte_walk. rewrite Hp, Hp1, Hl1, Hpa1. cbn [negb].
    assert (Hm : <[pa := m]> st !! pa = Some m) by apply lookup_insert_eq.
    destruct (walk_index (<[pa := m]> st) m va (proj2 (Hst1 _ _ Hm)) Hva) as (e2 & He2 & _).
    change (level (meta n) - 1) with (level (meta m)). fold (node_walk (<[pa := m]> st) pa m va).
    rewrite (node_walk_step _ pa m va e2 Hst1 Hm Hva He2).
    apply lookup_replicate in He2 as [-> _]. unfold pte_walk. by rewrite new_absent_law. }
  all: unfold alloc_if_none, alloc_absent_child; rewrite (node_level_ok _ _ _ Hn); cbn [mbind outcome_bind].
  all: assert (Hne : pa <> node e) by (intros ->; congruence).
  all: destruct (alloc_lock st pa (level (meta n) - 1) Ha) as (st1 & Hal & Hlk); fold m in Hlk.
  all: rewrite ?Hp; destruct (Z.leb_spec (level (meta n)) 1); [lia|]; cbn [orb].
  all: rewrite !usub_ok by lia; cbn [mbind outcome_bind]; rewrite Hal; cbn [mbind outcome_bind];
    rewrite Hnd; cbn [mbind outcome_bind]; rewrite Hin; cbn [mbind outcome_bind]; rewrite Hlk; cbn [mbind outcome_bind].
  all: assert (Hn1 : <[pa := m]> st !! node e = Some n) by (by rewrite lookup_insert_ne);
    pose proof (write_inc _ (node e) n (idx e) (pte e) e1 Hst1 Hn1 Hi Hu Hp Hp1) as Hwi;
    destruct (write_pte (<[pa := m]> st) (node e) (idx e) e1) as [st3|]; try done;
    cbn [mbind outcome_bind] in Hwi |- *; by rewrite Hwi.
Qed.

(** Allocating a page table under an absent entry is invisible.  [alloc_if_none] does nothing on a
    present entry and at level 1.  On an absent entry of a higher level it returns a new, empty, locked
    node of the level below, to which the entry now points; the store keeps its invariant (in particular the
    counts of children) and from every node every address translates as before.
    [alloc_absent_child] of the guard does the same. *)
Theorem alloc_if_none_transparent st e n :
  store_ok st -> entry_at st e n ->
  (is_present (pte e) = true \/ level (meta n) <= 1 -> alloc_if_none st e = Ret (None, e, st)) /\
  (is_present (pte e) = false -> 1 < level (meta n) -> forall pa, alloc_frame st = Some pa ->
   exists e' st', alloc_if_none st e = Ret (Some pa, e', st') /\
     alloc_absent_child st (node e) (idx e) = Ret (pa, st') /\
     store_ok st' /\ entry_at st' e' (with_entry n (idx e) (pte e')) /\
     (nd ← frame_to_meta pa; Ret (PageTable nd)) = from_pte (pte e') (level (meta n)) /\
     st' !! pa = Some (locked_node (level (meta n) - 1) empty_ptes) /\
     forall q k, st !! q = Some k -> exists k', st' !! q = Some k' /\ level (meta k') = level (meta k) /\
       forall va, 0 <= va -> node_walk st' q k' va = node_walk st q k va).
Proof.
  intros Hst He. pose proof He as (Hn & Hi & Hu). split.
  - intros Hc. unfold alloc_if_none. rewrite (node_level_ok _ _ _ Hn). cbn [mbind outcome_bind].
    destruct (is_present (pte e)); [done|]. destruct (Z.leb_spec (level (meta n)) 1); [done|].
    destruct Hc; [done|lia].
  - intros Hp Hl pa Ha. destruct (alloc_fresh st pa Ha) as [Hv Hnew].
    destruct (alloc_child_spec st e n pa Hst He Hp Hl Ha) as (e1 & Hst1 & Hok1 & Hp1 & Hl1 & Hpa1 & Hw & Hal & Hac).
    set (m := locked_node (level (meta n) - 1) empty_ptes) in *.
    destruct (put_node_walk st e n pa m e1 Hst He Hnew Hst1 Hok1) as (Hst2 & He2 & Hm2 & Hw2); [by auto|].
    exists (mk_entry e1 (idx e) (node e)), (put_node st e n pa m e1). split_and!; try done.
    unfold from_pte. cbn [pte]. rewrite Hp1, Hl1, Hpa1. done.
Qed.

(** ** Splitting a huge page *)

(** The entry [j] of a split page. *)
Definition page_entry (pa lv : Z) (p : PageProperty) (j : nat) (e : E) : Prop :=
  is_present e = true /\ is_last e (lv - 1) = true /\
  paddr e = pa + Z.of_nat j * page_size (lv - 1) /\ prop e = Ret p.

(** The entries of the new node after [i] rounds. *)
Definition split_entries (pa lv : Z) (p : PageProperty) i (es : list E) : Prop :=
  length es = length empty_ptes /\
  (forall j e, es !! j = Some e -> if decide (j < i)%nat then page_entry pa lv p j e else e = new_absent).

(** A page that can be split. *)
Definition splittable (pa lv : Z) (p : PageProperty) : Prop :=
  1 < lv <= NR_LEVELS /\ lv <= HIGHEST_TRANSLATION_LEVEL /\ 0 <= pa /\ pa mod page_size lv = 0 /\
  pa + page_size lv <= MAX_PADDR /\ prop_req p.

Lemma small_page st pa lv p j : splittable pa lv p -> 0 <= j < nr_subpage_per_huge ->
  child_ok st (lv - 1) (Frame (pa + j * page_size (lv - 1)) (lv - 1) p) /\ 0 < page_size (lv - 1) /\
  j * page_size (lv - 1) < 2 ^ 64 /\ pa + j * page_size (lv - 1) < 2 ^ 64.
Proof.
  intros (Hl & Hh & H0' & Hal & Hmax & Hreq) Hj.
  pose proof (page_size_next (lv - 1)) as Hnx. specialize (Hnx ltac:(lia)). replace (lv - 1 + 1) with lv in Hnx by lia.
  assert (Hp : 0 < page_size (lv - 1)) by (apply page_size_pos; lia).
  assert (Hal' : (pa + j * page_size (lv - 1)) mod page_size (lv - 1) = 0).
  { rewrite Z.mod_add by lia. rewrite Hnx in Hal. apply Z.mod_divide in Hal; [|nia]. apply Z.mod_divide; [lia|].
    destruct Hal as [q ->]. exists (q * nr_subpage_per_huge). lia. }
  assert (Hfit : pa + j * page_size (lv - 1) + page_size (lv - 1) <= MAX_PADDR) by nia.
  unfold child_ok, child_wf. unfold MAX_PADDR in *. split_and!; try done; try nia.
  apply (page_valid _ (lv - 1)); done || nia.
Qed.

Lemma split_round st new_pa es pa lv p i :
  splittable pa lv p -> split_entries pa lv p i es -> Z.of_nat i < nr_subpage_per_huge ->
  store_ok (<[new_pa := locked_node (lv - 1) es]> st) ->
  exists es', replace_absent_with_frame (<[new_pa := locked_node (lv - 1) es]> st) new_pa i
      (pa + Z.of_nat i * page_size (lv - 1)) (lv - 1) p = Ret (<[new_pa := locked_node (lv - 1) es']> st) /\
    split_entries pa lv p (S i) es' /\ store_ok (<[new_pa := locked_node (lv - 1) es']> st).
Proof.
  intros Hsp [Hlen Hes] Hi Hst. set (st1 := <[new_pa := locked_node (lv - 1) es]> st) in *.
  assert (Hn : st1 !! new_pa = Some (locked_node (lv - 1) es)) by apply lookup_insert_eq.
  destruct (small_page st1 pa lv p (Z.of_nat i) Hsp ltac:(lia)) as [Hc _].
  destruct (child_entry st1 (lv - 1) _ Hc) as (e & He & Hok & Hp & _ & Hla & Hpa & Hpr).
  destruct (lookup_lt_is_Some_2 es i) as [e0 He0].
  { rewrite Hlen. unfold empty_ptes. rewrite length_replicate. lia. }
  assert (Hu : uncounted new_pa i = false) by (destruct Hsp as (? & _); eapply low_counted; [done..|cbn; lia]).
  assert (Hab : e0 = new_absent). { specialize (Hes i e0 He0). by destruct (decide (i < i)%nat); [lia|]. }
  pose proof (adjust_write st1 new_pa _ i e0 e ChildNone (Frame (pa + Z.of_nat i * page_size (lv - 1)) (lv - 1) p) Hst Hn He0 Hu
    ltac:(rewrite Hab; apply new_absent_law) Hp) as Haw.
  exists (<[i := e]> es). unfold replace_absent_with_frame. cbn [adjust_nr_children child_is_none negb andb] in Haw.
  assert (Hset : set_entry st1 new_pa (locked_node (lv - 1) es) i e = <[new_pa := locked_node (lv - 1) (<[i := e]> es)]> st)
    by (unfold set_entry, with_entry, st1, locked_node; cbn [ptes meta level nr_children stray lock];
        by rewrite insert_insert_eq, He0, (number_insert _ _ _ _ _ He0)).
  rewrite <- Hset. split_and!.
  - change (adjust_nr_children st1 new_pa ChildNone (Frame (pa + Z.of_nat i * page_size (lv - 1)) (lv - 1) p))
      with (inc_nr_children st1 new_pa) in Haw.
    destruct (inc_nr_children st1 new_pa) as [st2|]; [|done]. cbn [mbind outcome_bind] in Haw |- *.
    rewrite He. exact Haw.
  - split; [by rewrite length_insert|]. intros j e' Hj. destruct (decide (j = i)) as [->|Hne].
    + rewrite list_lookup_insert_eq in Hj by (by eapply lookup_lt_Some). injection Hj as <-.
      destruct (decide (i < S i)%nat); [|lia]. done.
    + rewrite list_lookup_insert_ne in Hj by done. specialize (Hes j e' Hj).
      destruct (decide (j < i)%nat), (decide (j < S i)%nat); done || lia.
  - by apply set_entry_ok.
Qed.

Lemma split_loop_spec st new_pa pa lv p k i es :
  splittable pa lv p -> split_entries pa lv p i es -> Z.of_nat (i + k) = nr_subpage_per_huge ->
  store_ok (<[new_pa := locked_node (lv - 1) es]> st) ->
  exists es', split_loop (<[new_pa := locked_node (lv - 1) es]> st) new_pa pa lv p i k =
      Ret (<[new_pa := locked_node (lv - 1) es']> st) /\
    split_entries pa lv p (i + k) es' /\ store_ok (<[new_pa := locked_node (lv - 1) es']> st).
Proof.
  intros Hsp. revert i es. induction k as [|k IH]; intros i es Hes Hik Hst.
  { exists es. rewrite Nat.add_0_r. done. }
  destruct (small_page st pa lv p (Z.of_nat i) Hsp ltac:(lia)) as (_ & Hpos & Hov1 & Hov2).
  destruct (split_round st new_pa es pa lv p i Hsp Hes ltac:(lia) Hst) as (es1 & Hr & Hes1 & Hst1).
  cbn [split_loop]. rewrite umul_ok by done. cbn [mbind outcome_bind].
  rewrite uadd_ok by done. cbn [mbind outcome_bind]. rewrite Hr. cbn [mbind outcome_bind].
  destruct (IH (S i) es1 Hes1 ltac:(lia) Hst1) as (es2 & Hr2 & Hes2 & Hst2).
  exists es2. replace (i + S k)%nat with (S i + k)%nat by lia. done.
Qed.

(** The page of an entry of a well-formed store can be split. *)
Lemma pte_splittable st lv e : pte_ok st lv e -> 1 < lv <= NR_LEVELS -> is_present e = true -> is_last e lv = true ->
  exists p, prop e = Ret p /\ splittable (paddr e) lv p.
Proof.
  intros [_ Hp] Hl He Hla. specialize (Hp He). rewrite Hla in Hp. destruct Hp as (Hh & Hal & H0' & Hmax & p & Hpr & Hreq).
  exists p. split; [done|]. unfold splittable. lia || (split_and!; done || lia).
Qed.

(** The node of the split pages means what the huge page meant. *)
Lemma split_node_walk st new_pa pa lv p es va :
  splittable pa lv p -> split_entries pa lv p (length empty_ptes) es ->
  store_ok (<[new_pa := locked_node (lv - 1) es]> st) -> 0 <= va ->
  walk (<[new_pa := locked_node (lv - 1) es]> st) (Z.to_nat (lv - 1)) new_pa va = Ret (Some (pa + va mod page_size lv, p)).
Proof.
  intros (Hl & _) [Hlen Hes] Hst Hva. set (m := locked_node (lv - 1) es) in *.
  assert (Hm : <[new_pa := m]> st !! new_pa = Some m) by apply lookup_insert_eq.
  destruct (walk_index _ m va (proj2 (Hst _ _ Hm)) Hva) as (e & He & _).
  change (lv - 1) with (level (meta m)). fold (node_walk (<[new_pa := m]> st) new_pa m va).
  rewrite (node_walk_step _ new_pa m va e Hst Hm Hva He). unfold walk_pte in He. cbn [m locked_node ptes meta level] in *.
  specialize (Hes _ e He). apply lookup_lt_Some in He. rewrite Hlen in He.
  destruct (decide _) as [_|]; [|lia]. destruct Hes as (Hp & Hla & Hpa & Hpr). unfold pte_walk. rewrite Hp, Hla, Hpa, Hpr.
  cbn [negb mbind outcome_bind]. destruct (index_digits va (lv - 1)) as [Hi Hd]; [done|lia|].
  replace (lv - 1 + 1) with lv in Hd by lia. rewrite Z2Nat.id by lia. do 3 f_equal. lia.
Qed.

Lemma split_spec st e n pa :
  store_ok st -> entry_at st e n -> is_present (pte e) = true ->
  is_last (pte e) (level (meta n)) = true -> 1 < level (meta n) -> alloc_frame st = Some pa ->
  exists p es e1, prop (pte e) = Ret p /\ split_entries (paddr (pte e)) (level (meta n)) p (length empty_ptes) es /\
    let m := locked_node (level (meta n) - 1) es in
    store_ok (<[pa := m]> st) /\ pte_ok (<[pa := m]> st) (level (meta n)) e1 /\
    is_present e1 = true /\ is_last e1 (level (meta n)) = false /\ paddr e1 = pa /\
    (forall va, 0 <= va -> pte_walk (<[pa := m]> st) (level (meta n)) e1 va = pte_walk st (level (meta n)) (pte e) va) /\
    split_if_mapped_huge st e = Ret (Some pa, mk_entry e1 (idx e) (node e), put_node st e n pa m e1).
Proof.
  intros Hst He Hp Hla Hl Ha. pose proof He as (Hn & Hi & Hu). destruct (Hst _ _ Hn) as [_ Hok]. pose proof Hok as (Hlv & _ & _ & Hf).
  destruct (alloc_fresh st pa Ha) as [Hv Hnew]. set (lv := level (meta n)) in *.
  destruct (pte_splittable st lv (pte e) (Forall_lookup_1 _ _ _ _ Hf Hi) ltac:(lia) Hp Hla) as (p & Hpr & Hsp).
  destruct (alloc_lock st pa (lv - 1) Ha) as (st1 & Hal & Hlk). pose proof nr_subpage_bound as Hnr.
  assert (Hlen : length empty_ptes = Z.to_nat nr_subpage_per_huge) by apply length_replicate.
  destruct (split_loop_spec st pa (paddr (pte e)) lv p (length empty_ptes) 0 empty_ptes Hsp) as (es & Hloop & Hes & Hst1).
  { split; [done|]. intros j x [-> _]%lookup_replicate. by destruct (decide _); [lia|]. }
  { rewrite Hlen. lia. }
  { apply locked_node_ok; try done; [lia|]. apply Forall_replicate, absent_ok. }
  cbn [Nat.add] in Hes. set (m := locked_node (lv - 1) es) in *.
  destruct (node_entry (<[pa := m]> st) pa m lv) as (nd & e1 & Hnd & Hin & Hok1 & Hp1 & Hl1 & Hpa1);
    [done|done|apply lookup_insert_eq|done|].
  exists p, es, e1. do 2 (split; [done|]). cbv zeta. do 2 (split; [done|]). split_and!; try done.
  { intros va Hva. unfold pte_walk. rewrite Hp, Hp1, Hl1, Hpa1, Hla, Hpr. by apply split_node_walk. }
  unfold split_if_mapped_huge.
  rewrite (node_level_ok _ _ _ Hn). cbn [mbind outcome_bind]. fold lv. rewrite Hla.
  destruct (Z.ltb_spec 1 lv); [|lia]. cbn [andb negb]. rewrite Hpr. cbn [mbind outcome_bind].
  rewrite Hal. cbn [mbind outcome_bind]. rewrite Hlk. cbn [mbind outcome_bind]. rewrite <- Hlen, Hloop.
  cbn [mbind outcome_bind]. rewrite Hnd. cbn [mbind outcome_bind]. rewrite Hin. cbn [mbind outcome_bind].
  assert (Hn1 : <[pa := m]> st !! node e = Some n) by (rewrite lookup_insert_ne; [done|intros ->; congruence]).
  pose proof (adjust_write _ (node e) n (idx e) (pte e) e1 (PageTable nd) (PageTable nd) Hst1 Hn1 Hi Hu Hp Hp1) as Haw.
  cbn in Haw. by rewrite Haw.
Qed.

Lemma split_all_present pa lv p es : split_entries pa lv p (length empty_ptes) es ->
  number is_present es = nr_subpage_per_huge.
Proof.
  intros [Hles Hes]. rewrite (number_all is_present es).
  - rewrite Hles. unfold empty_ptes. rewrite length_replicate. pose proof nr_subpage_bound. lia.
  - intros j x Hj. specialize (Hes j x Hj). apply lookup_lt_Some in Hj. rewrite Hles in Hj.
    destruct (decide _); [apply Hes|lia].
Qed.

(** C10: splitting a huge page does not change the address space.  On a present last-level entry of a level above
    1, [split_if_mapped_huge] succeeds whenever a frame can be allocated, without overflow
    in the addresses of the small pages; the entry then points to a new locked node of the level below whose
    entries are all present.  The store keeps its invariant, and from every node every
    address translates to the same physical address with the same property as before. *)
Theorem split_huge_transparent st e n pa :
  store_ok st -> entry_at st e n -> is_present (pte e) = true ->
  is_last (pte e) (level (meta n)) = true -> 1 < level (meta n) -> alloc_frame st = Some pa ->
  exists e' st' m, split_if_mapped_huge st e = Ret (Some pa, e', st') /\
    store_ok st' /\ entry_at st' e' (with_entry n (idx e) (pte e')) /\
    st' !! pa = Some m /\ level (meta m) = level (meta n) - 1 /\ nr_children (meta m) = nr_subpage_per_huge /\
    lock (meta m) = 1 /\
    forall q k, st !! q = Some k -> exists k', st' !! q = Some k' /\ level (meta k') = level (meta k) /\
      forall va, 0 <= va -> node_walk st' q k' va = node_walk st q k va.
Proof.
  intros Hst He Hp Hla Hl Ha. destruct (alloc_fresh st pa Ha) as [Hv Hnew].
  destruct (split_spec st e n pa Hst He Hp Hla Hl Ha) as (p & es & e1 & _ & Hes & Hst1 & Hok1 & _ & _ & _ & Hw & Hsplit).
  set (m := locked_node (level (meta n) - 1) es) in *.
  destruct (put_node_walk st e n pa m e1 Hst He Hnew Hst1 Hok1) as (Hst2 & He2 & Hm2 & Hw2); [by auto|].
  exists (mk_entry e1 (idx e) (node e)), (put_node st e n pa m e1), m. split_and!; try done.
  exact (split_all_present _ _ _ es Hes).
Qed.

End node.

(** ** A page table of x86-64 *)

Module Example86.
Local Existing Instance X86.consts.
Local Existing Instance X86.reqs.
Local Existing Instance all_counted.

Notation pte64 := PageTableEntry.

Lemma base86 : BASE_PAGE_SIZE = PAGE_SIZE.
Proof. reflexivity. Qed.

(** An allocator with two frames. *)
Definition frames (st : pt_store pte64) : option Z :=
  head (filter (fun pa => st !! pa = None) [0x5000; 0x6000]).

Lemma frames_fresh st pa : frames st = Some pa -> valid_frame_paddr pa /\ st !! pa = None.
Proof.
  intros Hh. assert (Hin : pa ∈ filter (fun pa => st !! pa = None) [0x5000; 0x6000])
    by (apply head_Some_elem_of; exact Hh).
  apply list_elem_of_filter in Hin as [Hnone Hin]. split; [|done].
  repeat (apply elem_of_cons in Hin as [->|Hin]); [done|done|by apply not_elem_of_nil in Hin].
Qed.

(** A node of the level whose entry 3 is given. *)
Definition one_node (lv : Z) : pt_node pte64 := locked_node lv empty_ptes.
Definition one_store (lv : Z) : pt_store pte64 := <[0x1000 := one_node lv]> ∅.

Lemma one_store_ok lv : 1 <= lv <= 4 -> store_ok (one_store lv).
Proof.
  intros Hl. unfold one_store, one_node. apply (locked_node_ok base86 ∅ 0x1000 lv empty_ptes).
  - split; [intros pa n Hn; by rewrite lookup_empty in Hn|done].
  - apply lookup_empty.
  - split; [split; [discriminate|reflexivity]|reflexivity].
  - exact Hl.
  - reflexivity.
  - apply Forall_replicate, absent_ok.
Qed.

Definition root_entry : Entry pte64 := mk_entry new_absent 3 0x1000.

Lemma root_entry_at lv : entry_at (one_store lv) root_entry (one_node lv).
Proof. split_and!; [apply lookup_insert_eq|reflexivity|reflexivity]. Qed.

(** The same with a huge page in the entry. *)
Definition huge : Child := Frame 0x400000 2 sample_prop.
Definition huge_pte : pte64 := match into_pte huge with Ret e => e | Panic => new_absent end.
Definition huge_store : pt_store pte64 := set_entry (one_store 2) 0x1000 (one_node 2) 3 huge_pte.
Definition huge_entry : Entry pte64 := mk_entry huge_pte 3 0x1000.

Lemma sample_prop_req : prop_req (E := pte64) sample_prop.
Proof. split; [split; reflexivity|split; reflexivity]. Qed.

Lemma huge_child_ok st : child_ok (E := pte64) st 2 huge.
Proof. split; [split_and!; [done|done|exact sample_prop_req]|done]. Qed.

Lemma huge_pte_ok st : pte_ok st 2 huge_pte.
Proof.
  destruct (child_entry st 2 huge (huge_child_ok st)) as (e & He & Hok & _).
  unfold huge_pte. by rewrite He.
Qed.

Lemma huge_store_ok : store_ok huge_store /\ entry_at huge_store huge_entry (with_entry (one_node 2) 3 huge_pte).
Proof.
  pose proof (one_store_ok 2 ltac:(lia)) as Hst. pose proof (root_entry_at 2) as He. split.
  - apply (set_entry_ok (one_store 2) 0x1000 (one_node 2) 3 huge_pte Hst); [apply He|done|apply huge_pte_ok].
  - exact (entry_at_set (one_store 2) root_entry (one_node 2) huge_pte He).
Qed.

Lemma frames_huge : frames huge_store = Some 0x5000.
Proof. reflexivity. Qed.

Lemma frames_one : frames (one_store 4) = Some 0x5000.
Proof. reflexivity. Qed.

Lemma split_huge_transparent_witness :
  exists e' st', split_if_mapped_huge frames huge_store huge_entry = Ret (Some 0x5000, e', st') /\ store_ok st'.
Proof.
  destruct (split_huge_transparent true frames base86 frames_fresh huge_store huge_entry
    (with_entry (one_node 2) 3 huge_pte) 0x5000 (proj1 huge_store_ok) (proj2 huge_store_ok)
    eq_refl eq_refl eq_refl frames_huge) as (e' & st' & _ & Hs & Hok & _).
  exists e', st'. split; [exact Hs|exact Hok].
Defined.

Lemma alloc_if_none_transparent_witness :
  exists e' st', alloc_if_none frames (one_store 4) root_entry = Ret (Some 0x5000, e', st') /\ store_ok st'.
Proof.
  destruct (proj2 (alloc_if_none_transparent true frames base86 frames_fresh (one_store 4) root_entry (one_node 4)
    (one_store_ok 4 ltac:(lia)) (root_entry_at 4)) eq_refl eq_refl 0x5000 frames_one) as (e' & st' & Ha & _ & Hok & _).
  exists e', st'. split; [exact Ha|exact Hok].
Defined.

Lemma replace_correct_witness :
  exists e' st', replace true (one_store 2) root_entry huge = Ret (ChildNone, e', st') /\ store_ok st'.
Proof.
  destruct (replace_correct true true base86 (one_store 2) root_entry (one_node 2) huge (one_store_ok 2 ltac:(lia))
    (root_entry_at 2) (huge_child_ok _)) as (old & e' & st' & Hr & _ & Hold & _ & Hok & _).
  exists e', st'. cbv in Hold. injection Hold as <-. split; [exact Hr|exact Hok].
Defined.

Lemma protect_correct_witness :
  exists e' st', protect huge_store huge_entry (fun _ => sample_prop) = Ret (e', st') /\ store_ok st'.
Proof.
  destruct (protect_correct true base86 huge_store huge_entry (with_entry (one_node 2) 3 huge_pte) (fun _ => sample_prop)
    sample_prop (proj1 huge_store_ok) (proj2 huge_store_ok) eq_refl eq_refl eq_refl sample_prop_req)
    as (e' & st' & Hp & Hok & _).
  exists e', st'. split; [exact Hp|exact Hok].
Defined.

Lemma page_walk_total_witness : exists r, page_walk true (one_store 4) 0x1000 0x7fff12345678 = Ret r.
Proof.
  destruct (page_walk_total true base86 (one_store 4) 0x1000 (one_node 4) 0x7fff12345678 (one_store_ok 4 ltac:(lia))
    (proj1 (root_entry_at 4)) eq_refl ltac:(lia)) as (r & Hr & _).
  exists r. exact Hr.
Defined.

(** The walks before and after the split, evaluated. *)
Example split_walks :
  let before := huge_store in
  let after := match split_if_mapped_huge frames before huge_entry with Ret (_, _, st) => st | Panic => ∅ end in
  walk true before 2 0x1000 0x612345 = Ret (Some (0x412345, sample_prop)) /\
  walk true after 2 0x1000 0x612345 = Ret (Some (0x412345, sample_prop)).
Proof. vm_compute. split; reflexivity. Qed.

End Example86.
