(* ===== verification/PtTree.v ===== *)
(** * Page tables as trees

    A page table is the part of the node store below a root.  An address selects
    one node at each level; [descend] follows it down.  The nodes below the root
    form a tree: a node is selected by one run of addresses only.  (Nodes
    may be shared with other roots, as user page tables share the kernel half.)
    Then a write to one entry changes the walks through this entry and no
    others, which is what the operations of the cursor rely on. *)

From S2P Require Import Prelude Agents AlignExt Paging FrameMeta PageProp Pte PtChild PtNode.
Open Scope Z_scope.

(** ** Slots

    The slot of an address at a level is the run of addresses that one entry of
    this level covers. *)

Section slots.
Context `{PagingConstsTrait} `{!PagingConstsReqs}.

Definition slot (va lv : Z) : Z := va / page_size lv.

Lemma slot_up va lv : 1 <= lv <= NR_LEVELS -> slot va (lv + 1) = slot va lv / nr_subpage_per_huge.
Proof.
  intros Hl. unfold slot. rewrite page_size_next by done. pose proof (page_size_pos lv) as Hp. specialize (Hp ltac:(lia)).
  pose proof nr_subpage_pow as [Hn Hk]. assert (0 < nr_subpage_per_huge) by (rewrite Hn; apply Z.pow_pos_nonneg; lia).
  rewrite Z.mul_comm, Z.div_div by lia. done.
Qed.

Lemma slot_index va lv : 0 <= va -> 1 <= lv <= NR_LEVELS -> pte_index va lv = slot va lv mod nr_subpage_per_huge.
Proof. intros Hva Hl. by apply pte_index_div. Qed.

Lemma slot_above va1 va2 lv lv' : 1 <= lv <= lv' -> lv' <= NR_LEVELS + 1 -> slot va1 lv = slot va2 lv -> slot va1 lv' = slot va2 lv'.
Proof.
  intros Hl Hl' Heq. replace lv' with (lv + Z.of_nat (Z.to_nat (lv' - lv))) in * by lia.
  induction (Z.to_nat (lv' - lv)) as [|d IH]; [by rewrite Z.add_0_r|].
  replace (lv + Z.of_nat (S d)) with (lv + Z.of_nat d + 1) in * by lia. rewrite !slot_up, IH by lia. done.
Qed.

Lemma slot_index_eq va1 va2 lv lv' : 0 <= va1 -> 0 <= va2 -> 1 <= lv <= lv' -> lv' <= NR_LEVELS ->
  slot va1 lv = slot va2 lv -> pte_index va1 lv' = pte_index va2 lv'.
Proof. intros H1 H2 Hl Hl' Heq. rewrite !slot_index by lia. by rewrite (slot_above va1 va2 lv lv') by (done || lia). Qed.

(** The indices are the digits below a common slot. *)
Lemma slot_below va1 va2 lv : 0 <= va1 -> 0 <= va2 -> 1 <= lv <= NR_LEVELS ->
  slot va1 (lv + 1) = slot va2 (lv + 1) -> pte_index va1 lv = pte_index va2 lv -> slot va1 lv = slot va2 lv.
Proof.
  intros H1 H2 Hl. rewrite !slot_up, !slot_index by done.
  pose proof nr_subpage_pow as [Hn Hk]. assert (0 < nr_subpage_per_huge) by (rewrite Hn; apply Z.pow_pos_nonneg; lia).
  intros Hd Hm. rewrite (Z.div_mod (slot va1 lv) nr_subpage_per_huge), (Z.div_mod (slot va2 lv) nr_subpage_per_huge) by lia.
  by rewrite Hd, Hm.
Qed.

Lemma slot_range va va' lv : 1 <= lv <= NR_LEVELS + 1 ->
  slot va' lv = slot va lv <-> slot va lv * page_size lv <= va' < slot va lv * page_size lv + page_size lv.
Proof.
  intros Hl. pose proof (page_size_pos lv Hl) as Hp. unfold slot. set (q := va / page_size lv). split.
  - intros <-. pose proof (Z.div_mod va' (page_size lv)) as Hd. specialize (Hd ltac:(lia)).
    pose proof (Z.mod_pos_bound va' (page_size lv) Hp). nia.
  - intros Hr. symmetry. apply (Z.div_unique_pos _ _ _ (va' - q * page_size lv)); lia.
Qed.

(** Addresses of one slot at the level [hi + 1] with the same indices down to [lo]. *)
Lemma slot_digits va1 va2 lo (d : nat) : 0 <= va1 -> 0 <= va2 -> 1 <= lo -> lo + Z.of_nat d <= NR_LEVELS + 1 ->
  slot va1 (lo + Z.of_nat d) = slot va2 (lo + Z.of_nat d) ->
  (forall l, lo <= l < lo + Z.of_nat d -> pte_index va1 l = pte_index va2 l) -> slot va1 lo = slot va2 lo.
Proof.
  intros H1 H2 Hlo. induction d as [|d IH]; intros Hd Heq Hix; [by rewrite !Z.add_0_r in Heq|].
  replace (lo + Z.of_nat (S d)) with (lo + Z.of_nat d + 1) in * by lia. apply IH; [lia| |intros l Hl; apply Hix; lia].
  apply slot_below; [done|done|lia|done|]. apply Hix. lia.
Qed.

Lemma slot_mono va1 va2 lv : 1 <= lv <= NR_LEVELS + 1 -> va1 <= va2 -> slot va1 lv <= slot va2 lv.
Proof. intros Hl Hle. unfold slot. apply Z.div_le_mono; [by apply page_size_pos|done]. Qed.

(** A multiple of a page size is the start of its slot. *)
Lemma slot_start va lv : 1 <= lv <= NR_LEVELS + 1 -> va mod page_size lv = 0 -> slot va lv * page_size lv = va.
Proof. intros Hl Hm. pose proof (page_size_pos lv Hl). pose proof (Z.div_mod va (page_size lv)). unfold slot. lia. Qed.

Lemma slot_bounds va lv : 1 <= lv <= NR_LEVELS + 1 -> slot va lv * page_size lv <= va < slot va lv * page_size lv + page_size lv.
Proof. intros Hl. by apply slot_range. Qed.

(** The start of the next slot, seen from the level above. *)
Lemma slot_next va lv : 0 <= va -> 1 <= lv <= NR_LEVELS ->
  let next := (slot va lv + 1) * page_size lv in
  (pte_index next lv = 0 -> next = (slot va (lv + 1) + 1) * page_size (lv + 1)) /\
  (pte_index next lv <> 0 -> slot next (lv + 1) = slot va (lv + 1)).
Proof.
  intros Hva Hl next. pose proof nr_subpage_pow as [Hn Hk].
  assert (Hpos : 0 < nr_subpage_per_huge) by (rewrite Hn; apply Z.pow_pos_nonneg; lia).
  know (page_size_pos lv) as Hp. assert (Hsl : 0 <= slot va lv) by (apply Z.div_pos; lia).
  assert (Hs : slot next lv = slot va lv + 1) by (unfold slot, next; rewrite Z.div_mul by lia; done).
  rewrite slot_index, Hs by (unfold next; nia). rewrite !slot_up, Hs, page_size_next by lia.
  set (x := slot va lv) in *. set (nr := nr_subpage_per_huge) in *. know (Z.div_mod (x + 1) nr) as Hd.
  know (Z.div_mod x nr) as Hd'. know (Z.mod_pos_bound x nr) as Hb. know (Z.mod_pos_bound (x + 1) nr) as Hb'. split.
  - intros Hz. assert ((x + 1) / nr = x / nr + 1) by nia. unfold next. fold x. nia.
  - intros Hz. nia.
Qed.

Lemma align_down_page va lv : BASE_PAGE_SIZE = PAGE_SIZE -> 0 <= va < 2 ^ 64 -> 1 <= lv <= NR_LEVELS + 1 ->
  align_down 64 va (page_size lv) = Ret (slot va lv * page_size lv).
Proof.
  intros Hb Hva Hl. pose proof (offset_bound lv Hl) as Ho. pose proof (page_size_pow lv Hl) as Hp. rewrite Hb in Ho.
  change (Z.log2 PAGE_SIZE) with 12 in Ho. pose proof req_width as Hw. rewrite Hp in *.
  assert (0 < 2 ^ pte_index_bit_offset lv) by (apply Z.pow_pos_nonneg; lia). apply align_down_Ret; [lia|done| |].
  - split; [lia|]. apply Z.pow_lt_mono_r; lia.
  - split; [exists (pte_index_bit_offset lv); lia|]. unfold nat_align_down, slot. rewrite Hp.
    pose proof (Z.div_mod va (2 ^ pte_index_bit_offset lv)). lia.
Qed.

End slots.

(** ** Following an address down *)

Section tree.
Context `{PagingConstsTrait} `{PageTableEntryTrait E} (debug_assertions : bool).
Context `{!PagingConstsReqs} `{!PageTableEntryLaws E} `{U : !Uncounted} (base_is_page : BASE_PAGE_SIZE = PAGE_SIZE).
Implicit Types (st : pt_store E) (q pa root va lv : Z) (i k : nat) (e : E) (n m : pt_node E).

Local Notation walk := (walk debug_assertions).
Local Notation page_walk := (page_walk debug_assertions).
Local Notation pte_walk := (pte_walk debug_assertions).
Local Notation node_walk := (node_walk debug_assertions).

(** The node that is [k] levels below the node [q] of the level [lv]. *)
Fixpoint descend st k lv q va : option Z :=
  match k with
  | O => Some q
  | S k' =>
      n ← st !! q;
      e ← ptes n !! Z.to_nat (pte_index va lv);
      if is_present e && negb (is_last e lv) then descend st k' (lv - 1) (paddr e) va else None
  end.

Lemma descend_app st j k lv q va :
  descend st (j + k) lv q va = descend st j lv q va ≫= fun q' => descend st k (lv - Z.of_nat j) q' va.
Proof.
  revert lv q. induction j as [|j IH]; intros lv q; [cbn; by rewrite Z.sub_0_r|]. cbn [descend Nat.add].
  destruct (st !! q) as [n|]; [|done]. cbn [mbind option_bind].
  destruct (ptes n !! Z.to_nat (pte_index va lv)) as [e|]; [|done]. cbn [mbind option_bind].
  destruct (is_present e && negb (is_last e lv)); [|done]. rewrite IH.
  destruct (descend st j (lv - 1) (paddr e) va); [|done]. cbn [mbind option_bind]. f_equal. lia.
Qed.

Lemma descend_snoc st k lv q va q' : descend st k lv q va = Some q' ->
  descend st (S k) lv q va = descend st 1 (lv - Z.of_nat k) q' va.
Proof. intros Hk. replace (S k) with (k + 1)%nat by lia. by rewrite descend_app, Hk. Qed.

(** The last step of a descent. *)
Lemma descend_step st k lv q va q' : descend st (S k) lv q va = Some q' ->
  exists q1 n e, descend st k lv q va = Some q1 /\ st !! q1 = Some n /\
    ptes n !! Z.to_nat (pte_index va (lv - Z.of_nat k)) = Some e /\
    is_present e = true /\ is_last e (lv - Z.of_nat k) = false /\ paddr e = q'.
Proof.
  intros Hd. replace (S k) with (k + 1)%nat in Hd by lia. rewrite descend_app in Hd.
  destruct (descend st k lv q va) as [q1|]; [|done]. cbn in Hd.
  destruct (st !! q1) as [n|] eqn:Hn; [|done]. cbn in Hd.
  destruct (ptes n !! _) as [e|] eqn:He; [|done]. cbn in Hd.
  destruct (is_present e) eqn:Hp; [|done]. destruct (is_last e (lv - Z.of_nat k)) eqn:Hl; [done|].
  cbn in Hd. injection Hd as <-. by exists q1, n, e.
Qed.

Lemma descend_step_intro st k lv q va q1 n e : descend st k lv q va = Some q1 -> st !! q1 = Some n ->
  ptes n !! Z.to_nat (pte_index va (lv - Z.of_nat k)) = Some e ->
  is_present e = true -> is_last e (lv - Z.of_nat k) = false -> descend st (S k) lv q va = Some (paddr e).
Proof.
  intros Hk Hn He Hp Hl. rewrite (descend_snoc _ _ _ _ _ _ Hk). cbn. rewrite Hn. cbn. rewrite He. cbn.
  by rewrite Hp, Hl.
Qed.

Lemma descend_node st k lv q va n q' : store_ok st -> st !! q = Some n -> level (meta n) = lv ->
  descend st k lv q va = Some q' ->
  exists m, st !! q' = Some m /\ level (meta m) = lv - Z.of_nat k /\ 1 <= level (meta m).
Proof.
  intros Hst. revert q'. induction k as [|k IH]; intros q' Hn Hl Hd.
  - cbn in Hd. injection Hd as <-. exists n. destruct (Hst _ _ Hn) as [_ (? & _)]. split_and!; [done|lia|lia].
  - apply descend_step in Hd as (q1 & n1 & e & Hd & Hn1 & He & Hp & Hla & <-).
    destruct (IH q1 Hn Hl Hd) as (m & Hm & Hlm & _). assert (m = n1) as -> by congruence.
    destruct (Hst _ _ Hn1) as [_ (_ & _ & _ & Hf)].
    destruct (Forall_lookup_1 _ _ _ _ Hf He) as [_ Hok]. specialize (Hok Hp). rewrite Hlm, Hla in Hok.
    destruct Hok as (Hgt & m' & Hm' & Hlm'). exists m'. split_and!; [done|lia|lia].
Qed.

(** Only the slot at the level above the result matters. *)
Lemma descend_slot st k lv q va1 va2 : 0 <= va1 -> 0 <= va2 -> 1 <= lv - Z.of_nat k + 1 -> lv <= NR_LEVELS ->
  slot va1 (lv - Z.of_nat k + 1) = slot va2 (lv - Z.of_nat k + 1) -> descend st k lv q va1 = descend st k lv q va2.
Proof.
  revert lv q. induction k as [|k IH]; intros lv q Hv1 Hv2 Hlo Hhi Heq; [done|]. cbn [descend].
  rewrite (slot_index_eq va1 va2 (lv - Z.of_nat (S k) + 1) lv) by (done || lia).
  destruct (st !! q) as [n|]; [|done]. cbn [mbind option_bind].
  destruct (ptes n !! _) as [e|]; [|done]. cbn [mbind option_bind]. destruct (_ && _); [|done].
  apply IH; try lia. replace (lv - 1 - Z.of_nat k + 1) with (lv - Z.of_nat (S k) + 1) by lia. done.
Qed.

Lemma walk_descend st k (L : nat) q va q' : (k <= L)%nat -> descend st k (Z.of_nat L) q va = Some q' ->
  walk st L q va = walk st (L - k) q' va.
Proof.
  revert L q. induction k as [|k IH]; intros L q HkL Hd; [cbn in Hd; injection Hd as <-; by rewrite Nat.sub_0_r|].
  destruct L as [|L]; [lia|]. cbn [descend] in Hd. cbn [PtNode.walk Nat.sub].
  unfold read_pte, get_node, arr_get. destruct (st !! q) as [n|]; [|done]. cbn [mbind option_bind outcome_bind unwrap] in *.
  destruct (ptes n !! _) as [e|]; [|done]. cbn [mbind option_bind outcome_bind unwrap] in *.
  destruct (is_present e); [|done]. destruct (is_last e (Z.of_nat (S L))); [done|]. cbn [negb andb] in *.
  apply IH; [lia|]. by replace (Z.of_nat L) with (Z.of_nat (S L) - 1) by lia.
Qed.

(** ** Two stores that differ at one node *)

Section differ.
Context (st st' : pt_store E) (pa : Z).
Hypothesis Hsame : forall q, q <> pa -> st' !! q = st !! q.

Lemma descend_off k lv q va : (forall j, (j < k)%nat -> descend st j lv q va <> Some pa) ->
  descend st' k lv q va = descend st k lv q va.
Proof.
  revert lv q. induction k as [|k IH]; intros lv q Hoff; [done|]. cbn [descend].
  assert (q <> pa) as Hq. { intros ->. by apply (Hoff 0%nat); [lia|]. }
  rewrite Hsame by done. destruct (st !! q) as [n|] eqn:Hn; [|done]. cbn [mbind option_bind].
  destruct (ptes n !! _) as [e|] eqn:He; [|done]. cbn [mbind option_bind]. destruct (_ && _) eqn:Hc; [|done].
  apply IH. intros j Hj Hd. apply (Hoff (S j)); [lia|]. cbn [descend]. rewrite Hn. cbn [mbind option_bind].
  rewrite He. cbn [mbind option_bind]. by rewrite Hc.
Qed.

Lemma walk_off (L : nat) q va : (forall j, (j < L)%nat -> descend st j (Z.of_nat L) q va <> Some pa) ->
  walk st' L q va = walk st L q va.
Proof.
  revert q. induction L as [|L IH]; intros q Hoff; [done|]. cbn [PtNode.walk].
  assert (q <> pa) as Hq. { intros ->. by apply (Hoff 0%nat); [lia|]. }
  unfold read_pte, get_node, arr_get. rewrite Hsame by done.
  destruct (st !! q) as [n|] eqn:Hn; [|done]. cbn [mbind outcome_bind unwrap].
  destruct (ptes n !! _) as [e|] eqn:He; [|done]. cbn [mbind outcome_bind unwrap].
  destruct (is_present e) eqn:Hp; [|done]. destruct (is_last e (Z.of_nat (S L))) eqn:Hl; [done|]. cbn [negb].
  apply IH. intros j Hj Hd. apply (Hoff (S j)); [lia|]. cbn [descend]. rewrite Hn. cbn [mbind option_bind].
  rewrite He. cbn [mbind option_bind]. rewrite Hp, Hl. cbn [andb negb].
  by replace (Z.of_nat (S L) - 1) with (Z.of_nat L) by lia.
Qed.

End differ.

(** ** Trees *)

(** The node of the page table at [root] that is [k] levels below the root. *)
Definition node_at st root k va : option Z := descend st k NR_LEVELS root va.

Record tree_ok st root : Prop := {
  tree_store : store_ok st;
  tree_root : exists n, st !! root = Some n /\ level (meta n) = NR_LEVELS;
  tree_unshared : forall k va1 va2 q, 0 <= va1 -> 0 <= va2 ->
    node_at st root k va1 = Some q -> node_at st root k va2 = Some q ->
    forall l, NR_LEVELS - Z.of_nat k < l <= NR_LEVELS -> pte_index va1 l = pte_index va2 l;
}.

Lemma node_at_level st root k va q : tree_ok st root -> node_at st root k va = Some q ->
  exists n, st !! q = Some n /\ level (meta n) = NR_LEVELS - Z.of_nat k /\ 1 <= level (meta n).
Proof. intros [Hst (n & Hn & Hl) _] Hk. by eapply descend_node. Qed.

(** A node is at one level. *)
Lemma node_at_inj st root j k va1 va2 q : tree_ok st root ->
  node_at st root j va1 = Some q -> node_at st root k va2 = Some q -> j = k.
Proof.
  intros Ht Hj Hk. destruct (node_at_level _ _ _ _ _ Ht Hj) as (n & Hn & Hl & _).
  destruct (node_at_level _ _ _ _ _ Ht Hk) as (n' & Hn' & Hl' & _). simplify_eq. lia.
Qed.

(** Addresses that select a node at a depth share the slot above it, within the addresses of the table. *)
Lemma node_at_slot st root k va1 va2 q : tree_ok st root -> 0 <= va1 -> 0 <= va2 ->
  slot va1 (NR_LEVELS + 1) = slot va2 (NR_LEVELS + 1) -> node_at st root k va1 = Some q ->
  node_at st root k va2 = Some q <-> slot va2 (NR_LEVELS - Z.of_nat k + 1) = slot va1 (NR_LEVELS - Z.of_nat k + 1).
Proof.
  intros Ht Hv1 Hv2 Htop Hk. destruct (node_at_level _ _ _ _ _ Ht Hk) as (n & _ & Hl & Hl1). split.
  - intros Hk2. apply (slot_digits va2 va1 _ k); [done|done|lia|lia| |].
    + by replace (NR_LEVELS - Z.of_nat k + 1 + Z.of_nat k) with (NR_LEVELS + 1) by lia.
    + intros l Hll. apply (tree_unshared _ _ Ht k va2 va1 q); try done. lia.
  - intros Hs. unfold node_at. rewrite (descend_slot st k NR_LEVELS root va2 va1); try done; lia.
Qed.

Lemma walk_split st root k va q : tree_ok st root -> node_at st root k va = Some q ->
  page_walk st root va = walk st (Z.to_nat (NR_LEVELS - Z.of_nat k)) q va.
Proof.
  intros Ht Hk. destruct (node_at_level _ _ _ _ _ Ht Hk) as (n & _ & Hl & Hl1). unfold PtNode.page_walk.
  rewrite (walk_descend st k (Z.to_nat NR_LEVELS) root va q).
  - f_equal. lia.
  - lia.
  - rewrite Z2Nat.id by (pose proof req_levels; lia). exact Hk.
Qed.

(** The table has no huge pages, apart from those below entries that the root does not count. *)
Definition base_pages st root : Prop :=
  forall k va q n e, 0 <= va -> uncounted root (Z.to_nat (pte_index va NR_LEVELS)) = false -> node_at st root k va = Some q ->
    st !! q = Some n -> walk_pte n va = Some e -> is_present e = true -> is_last e (level (meta n)) = true -> level (meta n) = 1.

(** *** Writing an entry *)

Section write.
Context (st : pt_store E) (root pa : Z) (n : pt_node E) (i k : nat) (e : E).
Hypothesis Ht : tree_ok st root.
Hypothesis Hn : st !! pa = Some n.
Hypothesis Hk : level (meta n) = NR_LEVELS - Z.of_nat k.
Hypothesis Hu : uncounted pa i = false.
Hypothesis He : pte_ok st (level (meta n)) e.
Let st' := set_entry st pa n i e.
Let lv := level (meta n).

Lemma write_other q : q <> pa -> st' !! q = st !! q.
Proof. intros Hq. by apply lookup_insert_ne. Qed.

Lemma write_low d l q m va : st !! q = Some m -> level (meta m) = l -> l < lv ->
  descend st' d l q va = descend st d l q va.
Proof.
  intros Hq Hm Hl. apply (descend_off st st' pa write_other). intros j _ Hj.
  destruct (descend_node st j l q va m pa (tree_store _ _ Ht) Hq Hm Hj) as (m' & Hm' & Hlm & _).
  assert (m' = n) as -> by congruence. unfold lv in *. lia.
Qed.

Lemma write_at_high j va : (j <= k)%nat -> node_at st' root j va = node_at st root j va.
Proof.
  intros Hj. apply (descend_off st st' pa write_other). intros j' Hj' Hd.
  destruct (node_at_level st root j' va pa Ht Hd) as (m & Hm & Hl & _). simplify_eq. lia.
Qed.

Lemma write_at_off j va : node_at st root k va <> Some pa -> node_at st' root j va = node_at st root j va.
Proof.
  intros Hoff. apply (descend_off st st' pa write_other). intros j' _ Hd.
  destruct (node_at_level st root j' va pa Ht Hd) as (m & Hm & Hl & _). simplify_eq.
  replace k with j' in Hoff by lia. done.
Qed.

(** Below the node: through the entry, or through another one. *)
Lemma write_at_through d va : 0 <= va -> node_at st root k va = Some pa ->
  node_at st' root (k + S d) va =
    if decide (Z.to_nat (pte_index va lv) = i)
    then if is_present e && negb (is_last e lv) then descend st d (lv - 1) (paddr e) va else None
    else node_at st root (k + S d) va.
Proof.
  intros Hva Hat. unfold node_at in *. rewrite !descend_app.
  pose proof (write_at_high k va (le_n _)) as Hh. unfold node_at in Hh. rewrite Hh, Hat. cbn [mbind option_bind].
  rewrite <- Hk. fold lv. cbn [descend]. unfold st', set_entry. rewrite lookup_insert_eq, Hn. cbn [mbind option_bind with_entry ptes].
  destruct (walk_index base_is_page st n va (proj2 (tree_store _ _ Ht _ _ Hn)) Hva) as (e0 & He0 & Hp0).
  unfold walk_pte in He0. fold lv in He0, Hp0.
  destruct (decide _) as [Hi|Hi].
  - rewrite <- Hi. rewrite list_lookup_insert_eq by (by eapply lookup_lt_Some). cbn [mbind option_bind].
    destruct (is_present e) eqn:Hpr; [|done]. destruct (is_last e lv) eqn:Hla; [done|]. cbn [andb negb].
    destruct He as [_ Hok]. specialize (Hok Hpr). fold lv in Hok. rewrite Hla in Hok. destruct Hok as (_ & m & Hm & Hlm).
    rewrite Hi. fold (set_entry st pa n i e). fold st'. apply (write_low d (lv - 1) (paddr e) m); done || lia.
  - rewrite list_lookup_insert_ne by done. rewrite He0. cbn [mbind option_bind].
    destruct (is_present e0) eqn:Hpr; [|done]. destruct (is_last e0 lv) eqn:Hla; [done|]. cbn [andb negb].
    destruct Hp0 as [_ Hok]. specialize (Hok Hpr). rewrite Hla in Hok. destruct Hok as (_ & m & Hm & Hlm).
    fold (set_entry st pa n i e). fold st'. apply (write_low d (lv - 1) (paddr e0) m); done || lia.
Qed.

Lemma write_walk va : 0 <= va ->
  page_walk st' root va =
    if decide (node_at st root k va = Some pa /\ Z.to_nat (pte_index va lv) = i)
    then pte_walk st lv e va else page_walk st root va.
Proof.
  intros Hva. destruct (decide (node_at st root k va = Some pa)) as [Hat|Hoff].
  - pose proof (walk_set_entry debug_assertions base_is_page st pa n i e va (tree_store _ _ Ht) Hn Hu He Hva) as Hw.
    unfold PtNode.node_walk in Hw. cbn [with_entry meta level] in Hw. fold lv st' in Hw.
    assert (page_walk st' root va = walk st' (Z.to_nat lv) pa va) as ->.
    { unfold PtNode.page_walk. destruct (node_at_level _ _ _ _ _ Ht Hat) as (n0 & _ & Hl0 & Hl1).
      rewrite (walk_descend st' k (Z.to_nat NR_LEVELS) root va pa); [f_equal; unfold lv; lia|lia|].
      rewrite Z2Nat.id by (pose proof req_levels; lia). rewrite <- Hat. by apply write_at_high. }
    rewrite Hw, (walk_split st root k va pa Ht Hat), <- Hk. fold lv. destruct (decide _), (decide _); tauto || done.
  - destruct (decide _) as [[? _]|_]; [done|]. apply (walk_off st st' pa write_other). intros j Hj Hd.
    rewrite Z2Nat.id in Hd by (pose proof req_levels; lia).
    destruct (node_at_level st root j va pa Ht Hd) as (m & Hm & Hl & _). simplify_eq.
    replace k with j in Hoff by lia. done.
Qed.

(** The entry read after the write. *)
Lemma write_pte_at q m va x : st' !! q = Some m -> walk_pte m va = Some x ->
  q = pa /\ level (meta m) = lv /\ x = e \/ exists m0, st !! q = Some m0 /\ walk_pte m0 va = Some x /\ level (meta m) = level (meta m0).
Proof.
  unfold st', set_entry. intros Hm Hx. apply lookup_insert_Some in Hm as [[<- <-]|[Hne Hm]]; [|right; by exists m].
  unfold walk_pte in *. cbn [with_entry ptes meta level] in *. apply list_lookup_insert_Some in Hx as [(_ & -> & _)|[_ Hx]]; [by left|].
  right. by exists n.
Qed.

Lemma write_leaf_at j va q : is_present e && negb (is_last e lv) = false -> 0 <= va ->
  node_at st' root j va = Some q -> node_at st root j va = Some q.
Proof.
  intros Hleaf Hva Hq. destruct (decide (j <= k)%nat) as [|Hj]; [by rewrite <- write_at_high|].
  destruct (decide (node_at st root k va = Some pa)) as [Hat|]; [|by rewrite <- write_at_off].
  replace j with (k + S (j - k - 1))%nat in * by lia. rewrite write_at_through in Hq by done.
  destruct (decide _); [|done]. by rewrite Hleaf in Hq.
Qed.

(** An entry that leads to no node keeps the tree. *)
Lemma write_leaf_tree : is_present e && negb (is_last e lv) = false -> tree_ok st' root.
Proof.
  intros Hleaf. destruct (set_entry_ok st pa n i e (tree_store _ _ Ht) Hn Hu He) as [Hst' Hsl]. split; [done| |].
  - destruct (tree_root _ _ Ht) as (r & Hr & Hlr). destruct (Hsl _ _ Hr) as (r' & ? & ?). exists r'. split; [done|congruence].
  - intros j va1 va2 q Hv1 Hv2 Hq1%write_leaf_at Hq2%write_leaf_at; try done. by eapply (tree_unshared _ _ Ht j va1 va2 q).
Qed.

Lemma write_leaf_pages : is_present e && negb (is_last e lv) = false -> (is_present e = true -> lv = 1) ->
  base_pages st root -> base_pages st' root.
Proof.
  intros Hleaf Hlow Hb j va q m x Hva Hc Hq%write_leaf_at Hm Hx Hp Hla; try done.
  destruct (write_pte_at q m va x Hm Hx) as [(-> & Hlm & ->)|(m0 & Hm0 & Hx0 & Hlm)]; [rewrite Hlm; auto|].
  rewrite Hlm in *. by eapply Hb.
Qed.

End write.

(** *** Adding a node *)

Section put.
Context (st : pt_store E) (root pa : Z) (e : Entry E) (n m : pt_node E) (k : nat) (e1 : E).
Hypothesis Ht : tree_ok st root.
Hypothesis Hat : entry_at st e n.
Hypothesis Hk : level (meta n) = NR_LEVELS - Z.of_nat k.
Hypothesis Hnew : st !! pa = None.
Hypothesis Hst1 : store_ok (<[pa := m]> st).
Hypothesis He1 : pte_ok (<[pa := m]> st) (level (meta n)) e1.
Hypothesis Hnode : is_present e1 = true /\ is_last e1 (level (meta n)) = false /\ paddr e1 = pa.
Hypothesis Hleaf : forall i x, ptes m !! i = Some x -> is_present x && negb (is_last x (level (meta n) - 1)) = false.
Let st1 := <[pa := m]> st.
Let st2 := put_node st e n pa m e1.

Lemma add_at j va : node_at st1 root j va = node_at st root j va.
Proof.
  apply (descend_off st st1 pa); [intros q Hq; by apply lookup_insert_ne|]. intros j' _ Hd.
  destruct (node_at_level st root j' va pa Ht Hd) as (n0 & Hn0 & _). congruence.
Qed.

Lemma add_tree : tree_ok st1 root.
Proof.
  split; [done| |].
  - destruct (tree_root _ _ Ht) as (r & Hr & Hlr). exists r. split; [|done]. unfold st1.
    rewrite lookup_insert_ne; [done|]. congruence.
  - intros j va1 va2 q Hv1 Hv2. rewrite !add_at. by apply (tree_unshared _ _ Ht).
Qed.

Lemma put_entry : st1 !! node e = Some n.
Proof. unfold st1. rewrite lookup_insert_ne; [apply Hat|]. destruct Hat as [? _]. congruence. Qed.

Lemma put_at_high j va : (j <= k)%nat -> node_at st2 root j va = node_at st root j va.
Proof.
  intros Hj. rewrite <- (add_at j va). apply (write_at_high st1 root (node e) n (idx e) k e1 add_tree put_entry Hk). done.
Qed.

Lemma put_at_new d va : 0 <= va -> node_at st root k va = Some (node e) ->
  Z.to_nat (pte_index va (level (meta n))) = idx e ->
  node_at st2 root (k + S d) va = if decide (d = 0%nat) then Some pa else None.
Proof.
  intros Hva Hd Hi. unfold st2, put_node. fold st1.
  rewrite (write_at_through st1 root (node e) n (idx e) k e1 add_tree put_entry Hk He1 d va Hva) by (by rewrite add_at).
  destruct (decide _); [|done]. destruct Hnode as (-> & -> & ->). cbn [andb negb]. destruct d as [|d]; [done|].
  cbn [descend]. unfold st1. rewrite lookup_insert_eq. cbn [mbind option_bind].
  destruct (ptes m !! _) as [x|] eqn:Hx; [|done]. cbn [mbind option_bind]. by rewrite (Hleaf _ _ Hx).
Qed.

Lemma put_at_old j va : 0 <= va ->
  node_at st root k va <> Some (node e) \/ Z.to_nat (pte_index va (level (meta n))) <> idx e ->
  node_at st2 root j va = node_at st root j va.
Proof.
  intros Hva Hoff. rewrite <- (add_at j va). unfold st2, put_node. fold st1.
  destruct (decide (j <= k)%nat) as [Hj|Hj].
  { by apply (write_at_high st1 root (node e) n (idx e) k e1 add_tree put_entry Hk). }
  destruct (decide (node_at st root k va = Some (node e))) as [Hd|Hd].
  - replace j with (k + S (j - k - 1))%nat by lia.
    rewrite (write_at_through st1 root (node e) n (idx e) k e1 add_tree put_entry Hk He1) by (done || by rewrite add_at).
    destruct (decide _); [|done]. destruct Hoff; done.
  - apply (write_at_off st1 root (node e) n (idx e) k e1 add_tree put_entry Hk). by rewrite add_at.
Qed.

Lemma put_at_case j va q : 0 <= va -> node_at st2 root j va = Some q ->
  (q <> pa /\ node_at st root j va = Some q) \/
  (q = pa /\ j = S k /\ node_at st root k va = Some (node e) /\ Z.to_nat (pte_index va (level (meta n))) = idx e).
Proof.
  intros Hva Hq.
  assert (node_at st root j va = Some q -> q <> pa /\ node_at st root j va = Some q) as Hold.
  { intros Hd. split; [|done]. intros ->. destruct (node_at_level st root j va pa Ht Hd) as (n0 & Hn0 & _). congruence. }
  destruct (decide (j <= k)%nat) as [Hj|Hj]; [left; apply Hold; by rewrite <- put_at_high|].
  destruct (decide (node_at st root k va = Some (node e) /\ Z.to_nat (pte_index va (level (meta n))) = idx e)) as [[Hd Hi]|Hoff].
  - right. replace j with (k + S (j - k - 1))%nat in Hq by lia. rewrite put_at_new in Hq by done.
    destruct (decide _); [|done]. injection Hq as <-. split_and!; done || lia.
  - left. apply Hold. rewrite <- put_at_old; [done|done|]. destruct (decide (node_at st root k va = Some (node e))); tauto.
Qed.

Lemma put_pages : (forall i x, ptes m !! i = Some x -> is_present x = false) -> base_pages st root -> base_pages st2 root.
Proof.
  intros Hempty Hb j va q x y Hva Hc Hq Hx Hy Hp Hla. unfold st2, put_node in Hx. fold st1 in Hx.
  destruct (write_pte_at st1 (node e) n (idx e) e1 put_entry He1 q x va y Hx Hy) as [(-> & Hlx & ->)|(x0 & Hx0 & Hy0 & Hlx)].
  { destruct Hnode as (_ & Hno & _). congruence. }
  destruct (put_at_case j va q Hva Hq) as [[Hne Hq0]|(-> & _)].
  - unfold st1 in Hx0. rewrite lookup_insert_ne in Hx0 by done. rewrite Hlx in *. by eapply Hb.
  - unfold st1 in Hx0. rewrite lookup_insert_eq in Hx0. injection Hx0 as <-. unfold walk_pte in Hy0.
    by rewrite (Hempty _ _ Hy0) in Hp.
Qed.

Lemma put_tree : tree_ok st2 root.
Proof.
  destruct (set_entry_ok st1 (node e) n (idx e) e1 Hst1 put_entry (proj2 (proj2 Hat)) He1) as [Hst2 Hsl].
  split; [done| |].
  - destruct (tree_root _ _ add_tree) as (r & Hr & Hlr). destruct (Hsl _ _ Hr) as (r' & ? & ?). exists r'. split; [done|congruence].
  - intros j va1 va2 q Hv1 Hv2 Hq1 Hq2 l Hl.
    destruct (put_at_case j va1 q Hv1 Hq1) as [[Hne Hd1]|(Hq & Hj & Hd1 & Hi1)],
      (put_at_case j va2 q Hv2 Hq2) as [[Hne2 Hd2]|(Hq' & _ & Hd2 & Hi2)]; try done.
    + exact (tree_unshared _ _ Ht j va1 va2 q Hv1 Hv2 Hd1 Hd2 l Hl).
    + destruct (decide (l = level (meta n))) as [->|Hne].
      * pose proof nr_subpage_pow as [Hnr _]. destruct (node_at_level _ _ _ _ _ Ht Hd1) as (n0 & _ & ? & ?).
        destruct (index_digits va1 (level (meta n))) as [? _]; [done|lia|].
        destruct (index_digits va2 (level (meta n))) as [? _]; [done|lia|]. lia.
      * apply (tree_unshared _ _ Ht k va1 va2 (node e) Hv1 Hv2 Hd1 Hd2). lia.
Qed.

Lemma put_walk va : 0 <= va ->
  (forall va, 0 <= va -> pte_walk st1 (level (meta n)) e1 va = pte_walk st (level (meta n)) (pte e) va) ->
  page_walk st2 root va = page_walk st root va.
Proof.
  intros Hva Hmean. destruct (tree_root _ _ Ht) as (r & Hr & Hlr).
  destruct (put_node_walk debug_assertions base_is_page st e n pa m e1 (tree_store _ _ Ht) Hat Hnew Hst1 He1)
    as (_ & _ & _ & Hw); [by auto|].
  destruct (Hw root r Hr) as (r' & _ & Hlr' & Hwr). specialize (Hwr va Hva). unfold PtNode.node_walk in Hwr.
  rewrite Hlr', Hlr in Hwr. exact Hwr.
Qed.

End put.

End tree.
