(* ===== verification/PtStray.v ===== *)
(** * Discarding a subtree ([dfs_mark_stray_and_unlock] of [ostd/src/mm/page_table/cursor/locking.rs])

    When a table is cut out of a page table, its nodes are marked as stray, so
    that a thread that waits for one of their locks starts over, and are
    unlocked.  The function has no compiled body and follows the one in its
    comment.  It changes no entry: the relation [same_tables] of stores with the
    same entries, levels and counts preserves everything that the walks depend
    on. *)

From S2P Require Import Prelude Agents AlignExt Paging FrameMeta PageProp Pte PtChild PtNode PtTree.
Open Scope Z_scope.

Section stray.
Context `{PagingConstsTrait} `{PageTableEntryTrait E}.
Context (allow_panic debug_assertions : bool).
Implicit Types (st : pt_store E) (q pa root va lv : Z) (i k : nat) (n m : pt_node E).

(** One round of the loop over the entries. *)
Definition mark_entry (dfs : pt_store E -> Z -> outcome (Z * pt_store E)) pa (acc : outcome (Z * pt_store E)) i
  : outcome (Z * pt_store E) :=
  ' (num_frames, st) ← acc;
  e ← entry allow_panic st pa i;
  child ← to_ref st e;
  match child with
  | RefPageTable nd =>
      locked_pt ← meta_to_frame nd;
      ' (num, st') ← dfs st locked_pt;
      total ← uadd 64 num_frames num;
      Ret (total, st')
  | RefNone | RefFrame _ _ _ => Ret (num_frames, st)
  end.

Definition mark_node n : pt_node E := mk_node (mk_meta (nr_children (meta n)) true (level (meta n)) 0) (ptes n).

Fixpoint dfs_mark_stray_and_unlock (lv : nat) st pa : outcome (Z * pt_store E) :=
  match lv with
  | O => Panic
  | S lv' =>
      n ← get_node st pa;
      let st1 := <[pa := mark_node n]> st in
      if level (meta n) =? 1 then Ret (nr_children (meta n), st1)
      else foldl (mark_entry (dfs_mark_stray_and_unlock lv') pa) (Ret (0, st1)) (seq 0 (Z.to_nat nr_subpage_per_huge))
  end.

(** ** Stores with the same tables *)

Context `{!PagingConstsReqs} `{!PageTableEntryLaws E} `{U : !Uncounted} (base_is_page : BASE_PAGE_SIZE = PAGE_SIZE).

Definition content n : Z * Z * list E := (nr_children (meta n), level (meta n), ptes n).

Definition same_tables st st' : Prop := forall pa, content <$> st' !! pa = content <$> st !! pa.

Global Instance same_tables_equiv : Equivalence same_tables.
Proof.
  split.
  - by intros st pa.
  - intros st st' Hs pa. by rewrite Hs.
  - intros st1 st2 st3 H12 H23 pa. by rewrite H23, H12.
Qed.

Lemma same_tables_lookup st st' pa n : same_tables st st' -> st !! pa = Some n ->
  exists n', st' !! pa = Some n' /\ nr_children (meta n') = nr_children (meta n) /\ level (meta n') = level (meta n) /\ ptes n' = ptes n.
Proof.
  intros Hs Hn. specialize (Hs pa). rewrite Hn in Hs. destruct (st' !! pa) as [n'|]; [|done].
  unfold content in Hs. cbn in Hs. injection Hs as ? ? ?. by exists n'.
Qed.

Lemma same_tables_mark st pa n : st !! pa = Some n -> same_tables st (<[pa := mark_node n]> st).
Proof.
  intros Hn q. destruct (decide (q = pa)) as [->|]; [by rewrite lookup_insert_eq, Hn|by rewrite lookup_insert_ne].
Qed.

Global Instance descend_same : Proper (same_tables ==> eq ==> eq ==> eq ==> eq ==> eq) descend.
Proof.
  intros st st' Hs k _ <- lv _ <- q _ <- va _ <-. revert lv q. induction k as [|k IH]; intros lv q; [done|]. cbn [descend].
  pose proof (Hs q) as Hq. destruct (st !! q) as [n|], (st' !! q) as [n'|]; try done. cbn in Hq |- *.
  injection Hq as _ _ ->. destruct (ptes n !! _) as [e|]; [|done]. cbn. by destruct (_ && _).
Qed.

Global Instance walk_same : Proper (same_tables ==> eq ==> eq ==> eq ==> eq) (walk debug_assertions).
Proof.
  intros st st' Hs k _ <- q _ <- va _ <-. revert q. induction k as [|k IH]; intros q; [done|]. cbn [walk].
  unfold read_pte, get_node, arr_get. pose proof (Hs q) as Hq.
  destruct (st !! q) as [n|], (st' !! q) as [n'|]; try done. cbn in Hq |- *. injection Hq as _ _ ->.
  destruct (ptes n !! _) as [e|]; [|done]. cbn. destruct (negb _); [done|]. by destruct (is_last e _).
Qed.

Global Instance page_walk_same : Proper (same_tables ==> eq ==> eq ==> eq) (page_walk debug_assertions).
Proof. intros st st' Hs root _ <- va _ <-. unfold page_walk. by rewrite Hs. Qed.

Lemma same_tables_levels st st' : same_tables st st' -> same_levels st st'.
Proof. intros Hs pa n Hn. destruct (same_tables_lookup _ _ _ _ Hs Hn) as (n' & ? & _ & ? & _). by exists n'. Qed.

Lemma store_ok_same st st' : same_tables st st' -> store_ok st -> store_ok st'.
Proof.
  intros Hs Hst. pose proof (same_tables_levels _ _ Hs) as Hsl. split.
  - intros pa n' Hn'. destruct (same_tables_lookup st' st pa n' (symmetry Hs) Hn') as (n & Hn & Hc & Hl & Hp).
    destruct (Hst pa n Hn) as [Hv Hok]. split; [done|]. apply (node_ok_mono st st' pa n Hsl) in Hok.
    destruct Hok as (? & ? & ? & ?). unfold node_ok. rewrite <- Hl, <- Hp, <- Hc. done.
  - intros pa i. by eapply uncounted_mono.
Qed.

Lemma tree_ok_same st st' root : same_tables st st' -> tree_ok st root -> tree_ok st' root.
Proof.
  intros Hs [Hst (n & Hn & Hl) Hun]. split; [by eapply store_ok_same| |].
  - destruct (same_tables_lookup _ _ _ _ Hs Hn) as (n' & ? & _ & ? & _). exists n'. split; [done|congruence].
  - intros k va1 va2 q Hv1 Hv2. unfold node_at. rewrite <- !Hs. by apply Hun.
Qed.

Lemma same_tables_size st st' : same_tables st st' -> size st' = size st.
Proof.
  intros Hs. rewrite <- !size_dom. f_equal. apply set_eq. intros pa. rewrite !elem_of_dom. specialize (Hs pa).
  destruct (st !! pa), (st' !! pa); try done; by split; intros [].
Qed.

Lemma base_pages_same st st' root : same_tables st st' -> base_pages st root -> base_pages st' root.
Proof.
  intros Hs Hb k va q n' e Hva Hc Hq Hn' He. destruct (same_tables_lookup st' st q n' (symmetry Hs) Hn') as (n & Hn & _ & Hl & Hp).
  unfold node_at in Hq. rewrite <- Hs in Hq. rewrite <- Hl. apply (Hb k va q n e); try done.
  unfold walk_pte in *. by rewrite Hp, Hl.
Qed.

(** ** The nodes of the subtree *)

(** The node [q] is [pa] or below it; [lv] is the level of [pa]. *)
Inductive below st : Z -> Z -> Z -> Prop :=
| below_refl lv pa : below st lv pa pa
| below_step lv pa n i e q : st !! pa = Some n -> ptes n !! i = Some e -> is_present e = true -> is_last e lv = false ->
    below st (lv - 1) (paddr e) q -> below st lv pa q.

Lemma below_same st st' lv pa q : same_tables st st' -> below st lv pa q -> below st' lv pa q.
Proof.
  intros Hs. induction 1 as [|lv pa n i e q Hn He Hp Hl _ IH]; [constructor|].
  destruct (same_tables_lookup _ _ _ _ Hs Hn) as (n' & Hn' & _ & _ & Hpt). apply (below_step _ lv pa n' i e); try done. by rewrite Hpt.
Qed.

(** The nodes below a node depend on the nodes of its level and of lower ones. *)
Lemma below_low st st' lv pa m q : store_ok st -> st !! pa = Some m -> level (meta m) = lv ->
  (forall r n, st !! r = Some n -> level (meta n) <= lv -> st' !! r = Some n) -> below st lv pa q -> below st' lv pa q.
Proof.
  intros Hst Hm Hlv Hkeep Hbel. revert m Hm Hlv Hkeep.
  induction Hbel as [|lv pa n i e q Hn He Hp Hla _ IH]; intros m Hm Hlv Hkeep; [constructor|].
  destruct (Hst _ _ Hn) as [_ (_ & _ & _ & Hf)]. destruct (Forall_lookup_1 _ _ _ _ Hf He) as [_ Hok]. specialize (Hok Hp).
  assert (m = n) as -> by congruence. rewrite Hlv, Hla in Hok. destruct Hok as (_ & m' & Hm' & Hlm').
  apply (below_step _ lv pa n i e); try done; [apply Hkeep; [done|lia]|].
  apply (IH m'); try done. intros r n' Hr Hle. apply Hkeep; [done|lia].
Qed.

(** What an address selects below a node is below it. *)
Lemma descend_below st k lv q va q' : descend st k lv q va = Some q' -> below st lv q q'.
Proof.
  revert lv q. induction k as [|k IH]; intros lv q Hd; cbn [descend] in Hd; [injection Hd as <-; constructor|].
  destruct (st !! q) as [n|] eqn:Hn; [|done]. cbn in Hd. destruct (ptes n !! _) as [e|] eqn:He; [|done]. cbn in Hd.
  destruct (is_present e) eqn:Hp; [|done]. destruct (is_last e lv) eqn:Hl; [done|]. cbn in Hd.
  apply (below_step _ lv q n _ e q' Hn He Hp Hl). by apply IH.
Qed.

Definition marked st q : Prop := forall m, st !! q = Some m -> stray (meta m) = true /\ lock (meta m) = 0.

Definition dfs_post st lv pa (r : outcome (Z * pt_store E)) : Prop :=
  exists num st', r = Ret (num, st') /\ same_tables st st' /\
    (forall q, st' !! q = st !! q \/ (below st lv pa q /\ marked st' q)) /\
    (forall q, below st lv pa q -> marked st' q) /\ 0 <= num /\ num * BASE_PAGE_SIZE <= page_size (lv + 1).

Lemma marked_keep st st' (P : Z -> Prop) q : (forall q, st' !! q = st !! q \/ (P q /\ marked st' q)) -> marked st q -> marked st' q.
Proof. intros Hc Hm. destruct (Hc q) as [Heq|[_ ?]]; [|done]. intros m. rewrite Heq. apply Hm. Qed.

(** Reading the entry [i] of a node, from any state in which the node has the same entries. *)
Variant visit_case st lv (e : E) : ChildRef -> Prop :=
| visit_table nd m : is_present e = true -> is_last e lv = false -> meta_to_frame nd = Ret (paddr e) -> st !! paddr e = Some m ->
    level (meta m) = lv - 1 -> visit_case st lv e (RefPageTable nd)
| visit_none : is_present e && negb (is_last e lv) = false -> visit_case st lv e RefNone
| visit_frame a l p : is_present e && negb (is_last e lv) = false -> visit_case st lv e (RefFrame a l p).

Lemma visit_entry_at st cur pa n n1 i : store_ok st -> st !! pa = Some n -> cur !! pa = Some n1 -> level (meta n1) = level (meta n) ->
  ptes n1 = ptes n -> Z.of_nat i < nr_subpage_per_huge ->
  exists e c, ptes n !! i = Some e /\ entry allow_panic cur pa i = Ret (mk_entry e i pa) /\
    to_ref cur (mk_entry e i pa) = Ret c /\ visit_case st (level (meta n)) e c.
Proof.
  intros Hst Hn Hn1 Hl1 Hp1 Hi. destruct (Hst _ _ Hn) as [_ (_ & Hlen & _ & Hf)]. destruct (lookup_lt_is_Some_2 (ptes n) i) as [e He]; [lia|].
  destruct (Forall_lookup_1 _ _ _ _ Hf He) as [_ Hok].
  assert (entry allow_panic cur pa i = Ret (mk_entry e i pa)) as Hent.
  { unfold entry, new_at, read_pte, get_node. rewrite Hn1. cbn [mbind outcome_bind unwrap]. rewrite Hp1.
    rewrite (proj2 (arr_get_Ret _ _ _) He). cbn [mbind outcome_bind]. apply Z.ltb_lt in Hi. rewrite Hi. by destruct allow_panic. }
  exists e. unfold to_ref, ref_from_pte. cbn [PtNode.node pte]. rewrite (node_level_ok _ _ _ Hn1), Hl1. cbn [mbind outcome_bind].
  destruct (is_present e) eqn:Hp; cbn [negb].
  2: { exists RefNone. split_and!; try done. constructor. by rewrite Hp. }
  specialize (Hok eq_refl). destruct (is_last e (level (meta n))) eqn:Hla; cbn [negb].
  - destruct Hok as (_ & _ & _ & _ & p & Hpr & _). rewrite Hpr. eexists. split_and!; try done. constructor. by rewrite Hp, Hla.
  - destruct Hok as (_ & m & Hm & Hlm). destruct (frame_meta_frame _ (proj1 (Hst _ _ Hm))) as (nd & Hnd & _ & _ & Hback).
    rewrite Hnd. eexists. split_and!; try done. by eapply visit_table.
Qed.

Lemma visit_entry st cur pa n i : store_ok st -> same_tables st cur -> st !! pa = Some n -> Z.of_nat i < nr_subpage_per_huge ->
  exists e c, ptes n !! i = Some e /\ entry allow_panic cur pa i = Ret (mk_entry e i pa) /\
    to_ref cur (mk_entry e i pa) = Ret c /\ visit_case st (level (meta n)) e c.
Proof.
  intros Hst Hcur Hn Hi. destruct (same_tables_lookup _ _ _ _ Hcur Hn) as (n1 & Hn1 & _ & Hl1 & Hp1). by apply (visit_entry_at st cur pa n n1).
Qed.

Section entries.
Context st lv pa n (dfs : pt_store E -> Z -> outcome (Z * pt_store E)).
Context (Hst : store_ok st) (Hn : st !! pa = Some n) (Hlv : level (meta n) = lv) (Hl1 : 1 < lv).
Context (Hdfs : forall st1 q m, store_ok st1 -> st1 !! q = Some m -> level (meta m) = lv - 1 -> dfs_post st1 (lv - 1) q (dfs st1 q)).

(** The children that the loop over the entries [l] visits. *)
Definition visited (l : list nat) q : Prop :=
  exists i e, i ∈ l /\ ptes n !! i = Some e /\ is_present e = true /\ is_last e lv = false /\ below st (lv - 1) (paddr e) q.

Lemma visited_below l q : visited l q -> below st lv pa q.
Proof using Hn. intros (i & e & _ & ? & ? & ? & ?). by eapply below_step. Qed.

(** One entry, from any state that has the tables of [st]. *)
Lemma mark_entry_ok cur num i : same_tables st cur -> Z.of_nat i < nr_subpage_per_huge ->
  0 <= num -> num * BASE_PAGE_SIZE + page_size lv <= page_size (lv + 1) ->
  exists num1 st1, mark_entry dfs pa (Ret (num, cur)) i = Ret (num + num1, st1) /\ same_tables st st1 /\
    (forall q, st1 !! q = cur !! q \/ (below st lv pa q /\ marked st1 q)) /\
    (forall q, visited [i] q -> marked st1 q) /\ 0 <= num1 /\ num1 * BASE_PAGE_SIZE <= page_size lv.
Proof.
  intros Hcur Hi Hnum Hb. destruct (Hst _ _ Hn) as [_ (Hlr & _)]. know (page_size_pos lv) as Hps. pose proof req_base as [Hb0 _].
  destruct (visit_entry st cur pa n i Hst Hcur Hn Hi) as (e & c & He & Hent & Href & Hcase). rewrite Hlv in Hcase.
  unfold mark_entry. cbn [mbind outcome_bind]. step Hent. step Href.
  assert (is_present e && negb (is_last e lv) = false -> forall q, visited [i] q -> False) as Hleaf.
  { intros Hc q (j & e' & ->%list_elem_of_singleton & He' & Hp' & Hla' & _). assert (e' = e) as -> by congruence. by rewrite Hp', Hla' in Hc. }
  destruct Hcase as [nd m Hp Hla Hback Hm Hlm|Hc|a l p Hc].
  2, 3: exists 0, cur; rewrite Z.add_0_r; split; [done|]; split_and!; try done; try lia; [by left|intros q Hv; by destruct (Hleaf Hc q Hv)].
  destruct (same_tables_lookup _ _ _ _ Hcur Hm) as (m1 & Hm1 & _ & Hlm1 & _).
  destruct (Hdfs cur (paddr e) m1 (store_ok_same _ _ Hcur Hst) Hm1 ltac:(lia)) as (num1 & st1 & Hr1 & Hs1 & Hch1 & Hmk1 & Hnum1 & Hb1).
  replace (lv - 1 + 1) with lv in Hb1 by lia. exists num1, st1. split; [|split_and!; try done].
  - step Hback. step Hr1. step uadd_ok; [done|].
    know (page_size_pow (lv + 1)) as Hpw. know (offset_bound (lv + 1)) as Hob. pose proof req_width. pose proof base_pow as [Hbb Hbb0].
    assert (page_size (lv + 1) < 2 ^ 64) by (rewrite Hpw; apply Z.pow_lt_mono_r; lia). nia.
  - by etransitivity.
  - intros q. destruct (Hch1 q) as [?|[Hbel Hmq]]; [by left|right]. split; [|done].
    apply (below_step _ lv pa n i e); try done. exact (below_same cur st _ _ _ (symmetry Hcur) Hbel).
  - intros q (j & e' & ->%list_elem_of_singleton & He' & _ & _ & Hbel). assert (e' = e) as -> by congruence.
    apply Hmk1. by eapply below_same.
Qed.

Lemma mark_entries_ok l cur num : same_tables st cur -> (forall i, i ∈ l -> Z.of_nat i < nr_subpage_per_huge) ->
  0 <= num -> num * BASE_PAGE_SIZE + Z.of_nat (length l) * page_size lv <= page_size (lv + 1) ->
  exists num' st', foldl (mark_entry dfs pa) (Ret (num, cur)) l = Ret (num', st') /\ same_tables st st' /\
    (forall q, st' !! q = cur !! q \/ (below st lv pa q /\ marked st' q)) /\ (forall q, visited l q -> marked st' q) /\
    0 <= num' /\ num' * BASE_PAGE_SIZE <= num * BASE_PAGE_SIZE + Z.of_nat (length l) * page_size lv.
Proof.
  revert cur num. induction l as [|i l IH]; intros cur num Hcur Hl Hnum Hb; cbn [foldl length] in *.
  { exists num, cur. split_and!; try done; [by left| |lia]. intros q (i & e & Hi & _). by apply not_elem_of_nil in Hi. }
  destruct (Hst _ _ Hn) as [_ (Hlr & _)]. know (page_size_pos lv) as Hps.
  destruct (mark_entry_ok cur num i) as (num1 & st1 & -> & Hs1 & Hch1 & Hv1 & Hn1 & Hb1); try done; [apply Hl; by left|nia|].
  destruct (IH st1 (num + num1)) as (num' & st' & Hr & Hs & Hch & Hv & Hn' & Hb'); try done; try nia; [intros j Hj; apply Hl; by right|].
  exists num', st'. split_and!; try done; [| |nia].
  - intros q. destruct (Hch q) as [Heq|?]; [|by right]. destruct (Hch1 q) as [?|[? Hm]]; [left; congruence|right].
    split; [done|]. by apply (marked_keep st1 st' _ q Hch).
  - intros q (j & e & [->|Hj]%elem_of_cons & Hrest); [|by apply Hv; exists j, e].
    apply (marked_keep st1 st' _ q Hch), Hv1. exists i, e. split; [by left|done].
Qed.

End entries.

Lemma dfs_ok (k : nat) st pa n : store_ok st -> st !! pa = Some n -> (Z.to_nat (level (meta n)) <= k)%nat ->
  dfs_post st (level (meta n)) pa (dfs_mark_stray_and_unlock k st pa).
Proof.
  revert st pa n. induction k as [|k IH]; intros st pa n Hst Hn Hk; destruct (Hst _ _ Hn) as [_ Hok]; pose proof Hok as (Hl & Hlen & Hnr & _); [lia|].
  cbn [dfs_mark_stray_and_unlock]. unfold get_node. rewrite Hn. cbn [mbind outcome_bind unwrap].
  pose proof (same_tables_mark st pa n Hn) as Hs. pose proof (nr_subpage_bound base_is_page) as Hnrb. pose proof req_base as [Hb0 _].
  assert (marked (<[pa := mark_node n]> st) pa) as Hself by (intros m; rewrite lookup_insert_eq; by intros [= <-]).
  assert (forall q, <[pa := mark_node n]> st !! q = st !! q \/ (q = pa /\ marked (<[pa := mark_node n]> st) pa)) as Hch.
  { intros q. destruct (decide (q = pa)) as [->|]; [right|left; by rewrite lookup_insert_ne]. done. }
  destruct (Z.eqb_spec (level (meta n)) 1) as [H1l|H1l].
  - exists (nr_children (meta n)), (<[pa := mark_node n]> st). pose proof (nr_children_bound st pa n Hok). rewrite H1l.
    split_and!; try done; [| |lia|].
    + intros q. destruct (Hch q) as [|[-> ?]]; [by left|right]. split; [constructor|done].
    + intros q Hbel. inversion Hbel as [|lv0 pa0 n0 i e q0 Hn0 He Hp Hla _]; subst; [exact Hself|]. exfalso.
      assert (n0 = n) as -> by congruence. destruct Hok as (_ & _ & _ & Hf).
      destruct (Forall_lookup_1 _ _ _ _ Hf He) as [_ Hok]. specialize (Hok Hp). rewrite H1l, Hla in Hok. lia.
    + know (page_size_next 1) as Hp2. rewrite Hp2, page_size_1. nia.
  - know (page_size_next (level (meta n))) as Hnx. know (page_size_pos (level (meta n))) as Hps.
    assert (length (seq 0 (Z.to_nat nr_subpage_per_huge)) = Z.to_nat nr_subpage_per_huge) as Hsq by apply length_seq.
    destruct (mark_entries_ok st (level (meta n)) pa n (dfs_mark_stray_and_unlock k)) with (l := seq 0 (Z.to_nat nr_subpage_per_huge))
      (cur := <[pa := mark_node n]> st) (num := 0) as (num & st' & Hr & Hs' & Hch' & Hmk & Hnum & Hb); try done; try lia.
    { intros st1 q m Hst1 Hm Hlm. rewrite <- Hlm. apply IH; try done. lia. }
    { intros i Hi%elem_of_seq. lia. }
    exists num, st'. split_and!; try done.
    + intros q. destruct (Hch' q) as [Heq|]; [|by right]. rewrite Heq.
      destruct (Hch q) as [|[-> ?]]; [by left|right]. split; [constructor|].
      by apply (marked_keep (<[pa := mark_node n]> st) st' _ pa Hch').
    + intros q Hbel. inversion Hbel as [|lv0 pa0 n0 i e q0 Hn0 He Hp Hla Hsub]; subst.
      * by apply (marked_keep _ st' _ _ Hch').
      * assert (n0 = n) as -> by congruence. apply Hmk. exists i, e. split_and!; try done. apply elem_of_seq. apply lookup_lt_Some in He. lia.
    + rewrite Hsq in Hb. rewrite Hnx. lia.
Qed.

End stray.
