(* ===== verification/PtCursor.v ===== *)
(** * [ostd/src/mm/page_table/cursor/mod.rs]: the page table cursor

    A cursor stands at an address of a locked range of a page table and holds
    the nodes from the top of the locked subtree ([guard_level]) down to its
    level.  Through it the kernel queries, maps, unmaps and protects pages.

    The operations are state passing functions on the cursor and the store of
    nodes.  A guard is the address of its node.  The theorems relate every
    operation to [page_walk] from the root of the page table: what it reports is
    what the walk finds, and it changes the translations of exactly the range
    it is asked to change.

    Items are values here: the reference counts that cloning an item or a
    removed node adjusts belong to [FrameMeta]. *)

From S2P Require Import Prelude Agents AlignExt Paging FrameMeta PageProp Pte PteX86 PtChild PtNode PtTree PtStray.
Open Scope Z_scope.

Inductive PageTableError :=
| InvalidVaddrRange (start end_ : Z)
| InvalidVaddr (va : Z)
| UnalignedVaddr.

(** [PageTableConfig]: the items that a page table maps, and what it manages. *)
Class PageTableConfig := {
  Item : Type;
  TOP_LEVEL_INDEX_RANGE : range;
  TOP_LEVEL_CAN_UNMAP : bool;
  item_into_raw : Item -> Z * Z * PageProperty;
  item_from_raw : Z -> Z -> PageProperty -> Item;
}.

(** What a configuration promises: [item_well_formed], and the contracts of the two conversions. *)
Class PageTableConfigLaws `{PagingConstsTrait} (E : Type) `{PageTableEntryTrait E} `{!PageTableEntryLaws E} `{PageTableConfig} := {
  item_ok : Item -> Prop;
  item_raw_law item pa lv p : item_ok item -> item_into_raw item = (pa, lv, p) ->
    1 <= lv <= NR_LEVELS /\ valid_frame_paddr pa /\ pa mod page_size lv = 0 /\ pa + page_size lv <= MAX_PADDR /\
    prop_req p /\ item_from_raw pa lv p = item;
}.

Definition MAX_NR_LEVELS : nat := 4.

Record Cursor := mk_cursor {
  c_path : list (option Z);
  c_level : Z;
  guard_level : Z;
  c_va : Z;
  barrier_va : range;
}.

Inductive PageTableFrag {Item : Type} :=
| Mapped (va : Z) (item : Item)
| StrayPageTable (pt va len num_frames : Z).
Arguments PageTableFrag : clear implicits.

Definition with_va (c : Cursor) (va : Z) : Cursor :=
  mk_cursor (c_path c) (c_level c) (guard_level c) va (barrier_va c).

Section cursor.
Context `{PagingConstsTrait} `{PageTableEntryTrait E} `{PageTableConfig}.
Context (allow_panic debug_assertions : bool).
Context (alloc_frame : pt_store E -> option Z).
Implicit Types (st : pt_store E) (c : Cursor) (pa va : Z).

Definition path_slot_as_mut c (i : nat) : outcome Z := slot ← arr_get (c_path c) i; unwrap slot.

Definition cur_va_range c : outcome range :=
  let size := page_size (c_level c) in
  start ← align_down 64 (c_va c) size;
  end_ ← uadd 64 start size;
  Ret (mk_range start end_).

Definition cur_entry st c : outcome (Entry E) :=
  i ← usub (c_level c) 1;
  node ← path_slot_as_mut c (Z.to_nat i);
  entry allow_panic st node (Z.to_nat (pte_index (c_va c) (c_level c))).

Definition pop_level c : outcome Cursor :=
  i ← usub (c_level c) 1;
  slot ← arr_get (c_path c) (Z.to_nat i);
  _ ← unwrap slot;
  path ← arr_set (c_path c) (Z.to_nat i) None;
  lv ← uadd 8 (c_level c) 1;
  Ret (mk_cursor path lv (guard_level c) (c_va c) (barrier_va c)).

Definition push_level c (child_pt : Z) : outcome Cursor :=
  lv ← usub (c_level c) 1;
  i ← usub lv 1;
  path ← arr_set (c_path c) (Z.to_nat i) (Some child_pt);
  Ret (mk_cursor path lv (guard_level c) (c_va c) (barrier_va c)).

(** The loop of [move_forward]; at most [n] levels are left. *)
Fixpoint move_forward_loop (n : nat) (next_va : Z) c : outcome Cursor :=
  if (c_level c <? guard_level c) && (pte_index next_va (c_level c) =? 0) then
    match n with
    | O => Panic
    | S n' => c' ← pop_level c; move_forward_loop n' next_va c'
    end
  else Ret c.

Definition move_forward c : outcome Cursor :=
  r ← cur_va_range c;
  let next_va := r_end r in
  c' ← move_forward_loop (Z.to_nat (guard_level c - c_level c)) next_va c;
  Ret (with_va c' next_va).

(** The loop of [query]; [n] bounds the levels below. *)
Fixpoint query_loop (n : nat) st c : outcome (range * option Item * Cursor) :=
  let lv := c_level c in
  e ← cur_entry st c;
  child ← to_ref st e;
  match child with
  | RefPageTable nd =>
      match n with
      | O => Panic
      | S n' => pa ← meta_to_frame nd; c' ← push_level c pa; query_loop n' st c'
      end
  | RefNone => r ← cur_va_range c; Ret (r, None, c)
  | RefFrame pa _ p => r ← cur_va_range c; Ret (r, Some (item_from_raw pa lv p), c)
  end.

Definition query st c : outcome ((range * option Item + PageTableError) * Cursor) :=
  if r_end (barrier_va c) <=? c_va c then Ret (inr (InvalidVaddr (c_va c)), c)
  else ' (r, item, c') ← query_loop (Z.to_nat (c_level c)) st c; Ret (inl (r, item), c').

(** The loop of [find_next_impl], with fuel for its iterations. *)
Fixpoint find_next_loop (fuel : nat) (end_ : Z) (find_unmap_subtree split_huge : bool) st c
  : outcome (option Z * Cursor * pt_store E) :=
  if c_va c <? end_ then
    match fuel with
    | O => Panic
    | S fuel' =>
        let cur_va := c_va c in
        r ← cur_va_range c;
        let cur_entry_fits_range := (cur_va =? r_start r) && (r_end r <=? end_) in
        e ← cur_entry st c;
        child ← to_ref st e;
        match child with
        | RefPageTable nd =>
            if find_unmap_subtree && cur_entry_fits_range && (TOP_LEVEL_CAN_UNMAP || negb (c_level c =? NR_LEVELS))
            then Ret (Some cur_va, c, st)
            else
              pa ← meta_to_frame nd;
              n ← get_node st pa;
              c' ← (if negb (nr_children (meta n) =? 0) then push_level c pa else move_forward c);
              find_next_loop fuel' end_ find_unmap_subtree split_huge st c'
        | RefNone =>
            c' ← move_forward c;
            find_next_loop fuel' end_ find_unmap_subtree split_huge st c'
        | RefFrame _ _ _ =>
            if cur_entry_fits_range || negb split_huge then Ret (Some cur_va, c, st)
            else
              ' (child, _, st') ← split_if_mapped_huge alloc_frame st e;
              split_child ← unwrap child;
              c' ← push_level c split_child;
              find_next_loop fuel' end_ find_unmap_subtree split_huge st' c'
        end
    end
  else Ret (None, c, st).

Definition find_next_fuel (len : Z) : nat :=
  Z.to_nat ((len / BASE_PAGE_SIZE + 1) * (NR_LEVELS + 1)).

Definition find_next_impl st c (len : Z) (find_unmap_subtree split_huge : bool)
  : outcome (option Z * Cursor * pt_store E) :=
  _ ← rassert (len mod BASE_PAGE_SIZE =? 0);
  remaining ← usub (r_end (barrier_va c)) (c_va c);
  _ ← rassert (len <=? remaining);
  end_ ← uadd 64 (c_va c) len;
  ' (found, c', st') ← find_next_loop (find_next_fuel len) end_ find_unmap_subtree split_huge st c;
  match found with
  | Some va => Ret (Some va, c', st')
  | None => Ret (None, if r_end (barrier_va c') <? c_va c' then with_va c' (r_end (barrier_va c')) else c', st')
  end.

Definition find_next st c (len : Z) := find_next_impl st c len false false.

(** The loop of [jump]; at most [n] levels are left. *)
Fixpoint jump_loop (n : nat) va c : outcome Cursor :=
  let node_size := page_size (c_level c + 1) in
  node_start ← align_down 64 (c_va c) node_size;
  if (c_level c <=? guard_level c) && (node_start <=? va) && (va - node_start <? node_size)
  then Ret (with_va c va)
  else match n with
       | O => Panic
       | S n' => c' ← pop_level c; jump_loop n' va c'
       end.

Definition jump c va : outcome ((unit + PageTableError) * Cursor) :=
  _ ← rassert (va mod PAGE_SIZE =? 0);
  if negb (range_contains (barrier_va c) va) then Ret (inr (InvalidVaddr va), c)
  else c' ← jump_loop MAX_NR_LEVELS va c; Ret (inl tt, c').

(** [map_branch_pt]: descends into an existing table. *)
Definition map_branch_pt c (nd : Z) : outcome Cursor := pa ← meta_to_frame nd; push_level c pa.

(** The loop of [map_loop]; at most [n] levels are left. *)
Fixpoint map_loop (n : nat) (lv : Z) st c : outcome (Cursor * pt_store E) :=
  if c_level c =? lv then Ret (c, st)
  else match n with
  | O => Panic
  | S n' =>
      if c_level c <? lv then c' ← pop_level c; map_loop n' lv st c'
      else
        e ← cur_entry st c;
        child ← to_ref st e;
        match child with
        | RefPageTable nd => c' ← map_branch_pt c nd; map_loop n' lv st c'
        | RefNone =>
            i ← usub (c_level c) 1;
            node ← path_slot_as_mut c (Z.to_nat i);
            ' (child_guard, st') ←
              alloc_absent_child alloc_frame st node (Z.to_nat (pte_index (c_va c) (c_level c)));
            c' ← push_level c child_guard;
            map_loop n' lv st' c'
        | RefFrame _ _ _ =>
            e' ← cur_entry st c;
            ' (child, _, st') ← split_if_mapped_huge alloc_frame st e';
            split_child ← unwrap child;
            c' ← push_level c split_child;
            map_loop n' lv st' c'
        end
  end.

Definition replace_cur_entry st c (new_child : Child) : outcome (option (PageTableFrag Item) * pt_store E) :=
  let va := c_va c in
  let lv := c_level c in
  i ← usub lv 1;
  node ← path_slot_as_mut c (Z.to_nat i);
  ' (old, st1) ← replace_child allow_panic st node (Z.to_nat (pte_index va lv)) new_child;
  match old with
  | ChildNone => Ret (None, st1)
  | Frame pa _ p => Ret (Some (Mapped va (item_from_raw pa lv p)), st1)
  | PageTable nd =>
      if negb TOP_LEVEL_CAN_UNMAP && (lv =? NR_LEVELS) then Panic
      else
        pt ← meta_to_frame nd;
        ' (num_frames, st2) ← dfs_mark_stray_and_unlock allow_panic (Z.to_nat NR_LEVELS) st1 pt;
        Ret (Some (StrayPageTable pt va (page_size lv) num_frames), st2)
  end.

Definition protect_cur_entry st c (op : PageProperty -> PageProperty) : outcome (pt_store E) :=
  let i := Z.to_nat (pte_index (c_va c) (c_level c)) in
  j ← usub (c_level c) 1;
  node ← path_slot_as_mut c (Z.to_nat j);
  ' (_, st') ← protect_child st node i op;
  Ret st'.

Definition map st c (item : Item) : outcome ((unit + PageTableFrag Item) * Cursor * pt_store E) :=
  _ ← rassert (c_va c <? r_end (barrier_va c));
  let '(pa, lv, p) := item_into_raw item in
  _ ← rassert ((lv <=? HIGHEST_TRANSLATION_LEVEL) && (lv <=? guard_level c));
  let size := page_size lv in
  _ ← rassert (c_va c mod size =? 0);
  remaining ← usub (r_end (barrier_va c)) (c_va c);
  _ ← rassert (size <=? remaining);
  ' (c1, st1) ← map_loop MAX_NR_LEVELS lv st c;
  ' (frag, st2) ← replace_cur_entry st1 c1 (Frame pa lv p);
  c2 ← move_forward c1;
  Ret (match frag with Some f => inr f | None => inl tt end, c2, st2).

Definition take_next st c (len : Z) : outcome (option (PageTableFrag Item) * Cursor * pt_store E) :=
  ' (found, c1, st1) ← find_next_impl st c len true true;
  match found with
  | None => Ret (None, c1, st1)
  | Some _ =>
      ' (frag, st2) ← replace_cur_entry st1 c1 ChildNone;
      c2 ← move_forward c1;
      Ret (frag, c2, st2)
  end.

Definition protect_next st c (len : Z) (op : PageProperty -> PageProperty)
  : outcome (option range * Cursor * pt_store E) :=
  ' (found, c1, st1) ← find_next_impl st c len false true;
  match found with
  | None => Ret (None, c1, st1)
  | Some _ =>
      st2 ← protect_cur_entry st1 c1 op;
      protected_va ← cur_va_range c1;
      c2 ← move_forward c1;
      Ret (Some protected_va, c2, st2)
  end.

(** ** The invariant of the cursor *)

Context `{!PagingConstsReqs} `{!PageTableEntryLaws E} `{U : !Uncounted} (base_is_page : BASE_PAGE_SIZE = PAGE_SIZE).
Context (levels_fit : NR_LEVELS <= Z.of_nat MAX_NR_LEVELS).

Local Notation page_walk := (page_walk debug_assertions).
Local Notation pte_walk := (pte_walk debug_assertions).

(** The depth of a level below the root. *)
Definition depth (lv : Z) : nat := Z.to_nat (NR_LEVELS - lv).

(** The end of the last slot of the guard level that the locked range meets. *)
Definition limit c : Z := (slot (r_end (barrier_va c) - 1) (guard_level c) + 1) * page_size (guard_level c).

(** The locked range lies below one node of the guard level, and its slots do not reach the end of the
    address space. *)
Definition barrier_ok c : Prop :=
  0 <= r_start (barrier_va c) < r_end (barrier_va c) /\
  r_start (barrier_va c) mod BASE_PAGE_SIZE = 0 /\ r_end (barrier_va c) mod BASE_PAGE_SIZE = 0 /\
  slot (r_start (barrier_va c)) (guard_level c + 1) = slot (r_end (barrier_va c) - 1) (guard_level c + 1) /\
  limit c < 2 ^ 64.

(** The path holds the nodes that an address [w] of the locked range selects; [w] is the address of the
    cursor, or an address before it in the same node. *)
Definition path_ok st root c (w : Z) : Prop :=
  in_range (barrier_va c) w /\ (slot (c_va c) (c_level c + 1) = slot w (c_level c + 1) \/ c_level c = guard_level c) /\
  forall l, c_level c <= l <= guard_level c ->
    exists q, node_at st root (depth l) w = Some q /\ c_path c !! Z.to_nat (l - 1) = Some (Some q).

(** The entries of the root on the way to the range count: a cursor of a user range stays away from the entries
    that the root shares with the kernel page table. *)
Definition counted_range (root : Z) (r : range) : Prop :=
  forall va, in_range r va -> uncounted root (Z.to_nat (pte_index va NR_LEVELS)) = false.

Record cursor_at st root c : Prop := {
  at_tree : tree_ok st root;
  at_levels : 1 <= c_level c <= guard_level c /\ guard_level c <= NR_LEVELS;
  at_barrier : barrier_ok c;
  at_va : r_start (barrier_va c) <= c_va c <= limit c /\ c_va c mod BASE_PAGE_SIZE = 0;
  at_len : length (c_path c) = MAX_NR_LEVELS;
  at_path : exists w, path_ok st root c w;
  at_none : forall l, 1 <= l <= Z.of_nat MAX_NR_LEVELS -> l < c_level c \/ guard_level c < l ->
    c_path c !! Z.to_nat (l - 1) = Some None;
  at_counted : counted_range root (barrier_va c);
}.

(** Between calls the cursor is in its range or at its end. *)
Definition cursor_ok st root c : Prop := cursor_at st root c /\ c_va c <= r_end (barrier_va c).

Implicit Types (root w : Z).

Lemma barrier_slot c va : barrier_ok c -> 1 <= guard_level c <= NR_LEVELS -> in_range (barrier_va c) va ->
  slot va (guard_level c + 1) = slot (r_start (barrier_va c)) (guard_level c + 1).
Proof.
  intros (Hb & _ & _ & Hs & _) Hg [Hlo Hhi].
  assert (slot (r_start (barrier_va c)) (guard_level c + 1) <= slot va (guard_level c + 1)) by (apply slot_mono; lia).
  assert (slot va (guard_level c + 1) <= slot (r_end (barrier_va c) - 1) (guard_level c + 1)) by (apply slot_mono; lia). lia.
Qed.

Lemma node_counted st root r (k : nat) va q : tree_ok st root -> counted_range root r -> in_range r va ->
  node_at st root k va = Some q -> uncounted q (Z.to_nat (pte_index va (NR_LEVELS - Z.of_nat k))) = false.
Proof.
  intros Ht Hcr Hr Hq. destruct k as [|k]; [injection Hq as <-; rewrite Z.sub_0_r; by apply Hcr|].
  destruct (node_at_level st root _ va q Ht Hq) as (n & Hn & Hl & _). apply (low_counted st q n); [apply Ht|done|lia].
Qed.

(** Inside of the range the path is that of the address itself. *)
Lemma path_here st root c : cursor_at st root c -> c_va c < r_end (barrier_va c) -> path_ok st root c (c_va c).
Proof.
  intros [Ht [Hl Hg] Hb [[Hlo _] _] _ (w & Hw & Hs & Hp) _] Hva. split; [split; done|]. split; [by left|].
  assert (slot (c_va c) (c_level c + 1) = slot w (c_level c + 1)) as Heq.
  { destruct Hs as [|Hlg]; [done|]. rewrite Hlg.
    rewrite (barrier_slot c (c_va c)), (barrier_slot c w); try done; try lia. }
  intros l Hll. destruct (Hp l Hll) as (q & Hq & Hpq). exists q. split; [|done]. rewrite <- Hq. unfold node_at, depth in *.
  destruct Hb as ([Hb0 _] & _), Hw as [Hw _]. apply descend_slot; try lia.
  apply (slot_above _ _ (c_level c + 1)); lia.
Qed.

(** Another store with the same nodes on the path. *)
Lemma cursor_at_store st st' root c : cursor_at st root c -> c_va c < r_end (barrier_va c) -> tree_ok st' root ->
  (forall l, c_level c <= l <= guard_level c -> node_at st' root (depth l) (c_va c) = node_at st root (depth l) (c_va c)) ->
  cursor_at st' root c.
Proof.
  intros Hc Hva Ht' Hsame. destruct (path_here st root c Hc Hva) as (Hr & Hs & Hp). destruct Hc. split; try done.
  exists (c_va c). split; [done|]. split; [done|]. intros l Hl. rewrite Hsame by done. by apply Hp.
Qed.

Lemma path_slot_ok st root c : cursor_at st root c -> c_va c < r_end (barrier_va c) ->
  exists q n, path_slot_as_mut c (Z.to_nat (c_level c - 1)) = Ret q /\ node_at st root (depth (c_level c)) (c_va c) = Some q /\
    st !! q = Some n /\ level (meta n) = c_level c.
Proof.
  intros Hc Hva. pose proof (at_levels _ _ _ Hc) as [Hl Hg]. destruct (path_here st root c Hc Hva) as (_ & _ & Hp).
  destruct (Hp (c_level c)) as (q & Hq & Hpq); [lia|].
  destruct (node_at_level st root _ _ q (at_tree _ _ _ Hc) Hq) as (n & Hn & Hlv & _). exists q, n.
  split_and!; [|done|done|unfold depth in Hlv; lia].
  unfold path_slot_as_mut, arr_get. rewrite Hpq. done.
Qed.

(** The entry at which the cursor stands. *)
Definition stands_at st root c (e : Entry E) (n : pt_node E) : Prop :=
  entry_at st e n /\ level (meta n) = c_level c /\ idx e = Z.to_nat (pte_index (c_va c) (c_level c)) /\
  node_at st root (depth (c_level c)) (c_va c) = Some (node e) /\
  path_slot_as_mut c (Z.to_nat (c_level c - 1)) = Ret (node e) /\ pte_ok st (c_level c) (pte e).

Lemma stands_at_inj st root c e e' n n' : stands_at st root c e n -> stands_at st root c e' n' -> e = e' /\ n = n'.
Proof.
  intros ((Hn & Hp & _) & _ & Hi & _ & Hps & _) ((Hn' & Hp' & _) & _ & Hi' & _ & Hps' & _).
  assert (node e = node e') as Heq by congruence. rewrite Heq in Hn. assert (n = n') as <- by congruence.
  assert (idx e = idx e') as Hix by congruence. rewrite Hix in Hp. assert (pte e = pte e') as Hpe by congruence.
  destruct e, e'. cbn in *. by subst.
Qed.

Lemma cur_entry_ok st root c : cursor_at st root c -> c_va c < r_end (barrier_va c) ->
  exists e n, cur_entry st c = Ret e /\ stands_at st root c e n.
Proof.
  intros Hc Hva. destruct (path_slot_ok st root c Hc Hva) as (q & n & Hps & Hq & Hn & Hlv).
  pose proof (at_levels _ _ _ Hc) as [Hl Hg]. pose proof (at_barrier _ _ _ Hc) as ([Hb0 _] & _).
  pose proof (at_va _ _ _ Hc) as [[Hlo _] _].
  destruct (walk_index base_is_page st n (c_va c) (proj2 (tree_store _ _ (at_tree _ _ _ Hc) _ _ Hn)) ltac:(lia)) as (e & He & Hok).
  unfold walk_pte in He. rewrite Hlv in He, Hok.
  assert (uncounted q (Z.to_nat (pte_index (c_va c) (c_level c))) = false) as Hu.
  { replace (c_level c) with (NR_LEVELS - Z.of_nat (depth (c_level c))) by (unfold depth; lia).
    eapply node_counted; [apply Hc|apply Hc|split; [done|exact Hva]|done]. }
  exists (mk_entry e (Z.to_nat (pte_index (c_va c) (c_level c))) q), n. split; [|by split_and!; try apply Hok].
  unfold cur_entry. rewrite usub_ok by lia. cbn [mbind outcome_bind]. rewrite Hps. cbn [mbind outcome_bind].
  unfold entry, new_at, read_pte, get_node. rewrite Hn. cbn [mbind outcome_bind unwrap].
  destruct (index_digits (c_va c) (c_level c)) as [Hi _]; [lia|lia|].
  replace (Z.of_nat (Z.to_nat (pte_index (c_va c) (c_level c))) <? nr_subpage_per_huge) with true by (symmetry; apply Z.ltb_lt; lia).
  rewrite (proj2 (arr_get_Ret _ _ _) He). by destruct allow_panic.
Qed.

(** Pages are of level 1 in a table without huge pages. *)
Lemma page_level st root c e n : base_pages st root -> cursor_at st root c -> c_va c < r_end (barrier_va c) -> stands_at st root c e n ->
  is_present (pte e) = true -> is_last (pte e) (c_level c) = true -> c_level c = 1.
Proof.
  intros Hbp Hc Hva ((Hn & He & _) & Hlv & Hi & Hq & _) Hp Hla. pose proof (at_va _ _ _ Hc) as [[Hlo _] _].
  pose proof (at_barrier _ _ _ Hc) as ([Hb0 _] & _). rewrite <- Hlv in Hla |- *.
  apply (Hbp (depth (c_level c)) (c_va c) (node e) n (pte e)); try done; [lia|apply (at_counted _ _ _ Hc); split; done|].
  unfold walk_pte. by rewrite Hlv, <- Hi.
Qed.

(** What the entry says about the addresses of its slot. *)
Lemma cur_walk st root c e n va : cursor_at st root c -> stands_at st root c e n -> 0 <= va ->
  slot va (c_level c) = slot (c_va c) (c_level c) -> page_walk st root va = pte_walk st (c_level c) (pte e) va.
Proof.
  intros Hc ((Hn & He & _) & Hlv & Hi & Hq & _ & _) Hva Hs. pose proof (at_levels _ _ _ Hc) as [Hl Hg].
  pose proof (at_barrier _ _ _ Hc) as ([Hb0 _] & _). pose proof (at_va _ _ _ Hc) as [[Hlo _] _].
  assert (node_at st root (depth (c_level c)) va = Some (node e)) as Hq'.
  { rewrite <- Hq. apply descend_slot; unfold depth in *; try lia. apply (slot_above _ _ (c_level c)); lia. }
  rewrite (walk_split debug_assertions st root _ va (node e) (at_tree _ _ _ Hc) Hq').
  replace (NR_LEVELS - Z.of_nat (depth (c_level c))) with (level (meta n)) by (unfold depth; lia).
  rewrite <- Hlv. apply (node_walk_step debug_assertions base_is_page st (node e) n va (pte e) (tree_store _ _ (at_tree _ _ _ Hc)) Hn Hva).
  unfold walk_pte. rewrite Hlv, (slot_index_eq va (c_va c) (c_level c)) by (done || lia). by rewrite <- Hi.
Qed.

(** *** Moving between levels and slots *)

(** The slot of the cursor. *)
Definition slot_lo c : Z := slot (c_va c) (c_level c) * page_size (c_level c).
Definition slot_hi c : Z := slot_lo c + page_size (c_level c).

Lemma slot_hi_limit st root c : cursor_at st root c -> c_va c < r_end (barrier_va c) -> slot_hi c <= limit c.
Proof.
  intros [_ [Hl Hg] (Hb & _) _ _ _ _] Hva. unfold slot_hi, slot_lo, limit.
  destruct (page_size_divide (c_level c) (guard_level c)) as [d Hd]; [lia|lia|].
  assert (0 < page_size (c_level c)) by (apply page_size_pos; lia). assert (0 < page_size (guard_level c)) by (apply page_size_pos; lia).
  know (slot_bounds (r_end (barrier_va c) - 1) (guard_level c)) as Hs.
  know (slot_bounds (c_va c) (c_level c)) as Hv. rewrite Hd in Hs |- *.
  set (ps := page_size (c_level c)) in *. set (sv := slot (c_va c) (c_level c)) in *.
  set (sg := slot (r_end (barrier_va c) - 1) (guard_level c)) in *.
  assert (sv < (sg + 1) * d) by (apply (Z.mul_lt_mono_pos_r ps); nia). nia.
Qed.

Lemma cur_va_range_ok st root c : cursor_at st root c -> c_va c < r_end (barrier_va c) ->
  cur_va_range c = Ret (mk_range (slot_lo c) (slot_hi c)).
Proof.
  intros Hc Hva. pose proof (slot_hi_limit st root c Hc Hva) as Hh. destruct Hc as [_ [Hl Hg] (Hb & _ & _ & _ & Hlim) [Hv _] _ _ _].
  unfold cur_va_range. rewrite align_down_page by (done || lia). cbn [mbind outcome_bind].
  rewrite uadd_ok; [done|]. unfold slot_hi, slot_lo in Hh. lia.
Qed.

Lemma path_lookup_set (p : list (option Z)) lv l x : length p = MAX_NR_LEVELS -> 1 <= lv <= Z.of_nat MAX_NR_LEVELS -> 1 <= l ->
  <[Z.to_nat (lv - 1) := x]> p !! Z.to_nat (l - 1) = if decide (l = lv) then Some x else p !! Z.to_nat (l - 1).
Proof.
  intros Hp Hlv Hl. destruct (decide (l = lv)) as [->|].
  - apply list_lookup_insert_eq. rewrite Hp. lia.
  - apply list_lookup_insert_ne. lia.
Qed.

Lemma push_level_ok st root c q : cursor_at st root c -> c_va c < r_end (barrier_va c) -> 1 < c_level c ->
  node_at st root (depth (c_level c - 1)) (c_va c) = Some q ->
  exists c', push_level c q = Ret c' /\ cursor_at st root c' /\ c_va c' = c_va c /\ c_level c' = c_level c - 1 /\
    guard_level c' = guard_level c /\ barrier_va c' = barrier_va c.
Proof.
  intros Hc Hva Hl1 Hq. destruct (path_here st root c Hc Hva) as (Hr & _ & Hp). destruct Hc as [Ht [Hl Hg] Hb Hv Hlen _ Hnone].
  eexists. unfold push_level. rewrite !usub_ok by lia. cbn [mbind outcome_bind]. rewrite usub_ok by lia. cbn [mbind outcome_bind].
  rewrite arr_set_Ret by (rewrite Hlen; lia). cbn [mbind outcome_bind]. split; [done|]. split; [|done].
  split; cbn [c_path c_level guard_level c_va barrier_va]; try done; [lia|by rewrite length_insert| |].
  - exists (c_va c). split; [done|]. split; [by left|]. cbn [c_path c_level guard_level c_va barrier_va]. intros l Hll.
    rewrite path_lookup_set by (done || lia). destruct (decide (l = c_level c - 1)) as [->|]; [by exists q|]. apply Hp. lia.
  - intros l Hl4 Hll. rewrite path_lookup_set by (done || lia). destruct (decide _); [lia|]. apply Hnone; lia.
Qed.

Lemma pop_level_ok st root c : cursor_at st root c -> c_level c < guard_level c ->
  exists c', pop_level c = Ret c' /\ cursor_at st root c' /\ c_va c' = c_va c /\ c_level c' = c_level c + 1 /\
    guard_level c' = guard_level c /\ barrier_va c' = barrier_va c.
Proof.
  intros [Ht [Hl Hg] Hb Hv Hlen (w & Hw & Hs & Hp) Hnone] Hlt. destruct (Hp (c_level c)) as (q & _ & Hpq); [lia|].
  assert (Hn4 : Z.of_nat MAX_NR_LEVELS = 4) by done.
  eexists. unfold pop_level, arr_get. rewrite usub_ok by lia. cbn [mbind outcome_bind]. rewrite Hpq. cbn [mbind outcome_bind unwrap].
  rewrite arr_set_Ret by (rewrite Hlen; lia). cbn [mbind outcome_bind]. rewrite uadd_ok by lia. cbn [mbind outcome_bind].
  split; [done|]. split; [|done].
  split; cbn [c_path c_level guard_level c_va barrier_va]; try done; [lia|by rewrite length_insert| |].
  - exists w. split; [done|]. cbn [c_path c_level guard_level c_va barrier_va]. split.
    + left. destruct Hs as [Hs|]; [|lia]. apply (slot_above _ _ (c_level c + 1)); done || lia.
    + intros l Hll. rewrite path_lookup_set by (done || lia). destruct (decide _); [lia|]. apply Hp. lia.
  - intros l Hl4 Hll. rewrite path_lookup_set by (done || lia). destruct (decide _); [done|]. apply Hnone; lia.
Qed.

Lemma move_loop_ok st root n c : cursor_at st root c -> c_va c < r_end (barrier_va c) ->
  Z.of_nat n = guard_level c - c_level c ->
  exists c', move_forward_loop n (slot_hi c) c = Ret c' /\ cursor_at st root c' /\ c_va c' = c_va c /\
    guard_level c' = guard_level c /\ barrier_va c' = barrier_va c /\ c_level c <= c_level c' /\
    (slot (slot_hi c) (c_level c' + 1) = slot (c_va c) (c_level c' + 1) \/ c_level c' = guard_level c').
Proof.
  revert c. induction n as [|n IH]; intros c Hc Hva Hn; cbn [move_forward_loop];
    pose proof (at_levels _ _ _ Hc) as [Hl Hg]; pose proof (at_barrier _ _ _ Hc) as ([Hb0 _] & _);
    pose proof (at_va _ _ _ Hc) as [[Hlo _] _].
  { destruct (Z.ltb_spec (c_level c) (guard_level c)); [lia|]. exists c. cbn [andb]. split_and!; try done. right. lia. }
  destruct (Z.ltb_spec (c_level c) (guard_level c)) as [Hlt|]; cbn [andb]; [|lia].
  assert (slot_hi c = (slot (c_va c) (c_level c) + 1) * page_size (c_level c)) as Hhi by (unfold slot_hi, slot_lo; lia).
  destruct (slot_next (c_va c) (c_level c)) as [Hz Hnz]; [lia|lia|]. rewrite <- Hhi in Hz, Hnz.
  destruct (Z.eqb_spec (pte_index (slot_hi c) (c_level c)) 0) as [Hi|Hi].
  - destruct (pop_level_ok st root c Hc Hlt) as (c1 & Hpop & Hc1 & Hva1 & Hl1 & Hg1 & Hb1). step Hpop.
    assert (slot_hi c = slot_hi c1) as ->. { rewrite (Hz Hi). unfold slot_hi, slot_lo. rewrite Hva1, Hl1. lia. }
    destruct (IH c1 Hc1) as (c' & Hr & Hc' & Hva' & Hg' & Hb' & Hl' & Hs'); [by rewrite Hb1, Hva1|lia|].
    exists c'. rewrite Hva1 in *. split_and!; try done; try congruence. lia.
  - exists c. split_and!; try done. left. by apply Hnz.
Qed.

Lemma move_forward_ok st root c : cursor_at st root c -> c_va c < r_end (barrier_va c) ->
  exists c', move_forward c = Ret c' /\ cursor_at st root c' /\ c_va c' = slot_hi c /\
    guard_level c' = guard_level c /\ barrier_va c' = barrier_va c /\ c_level c <= c_level c' /\ slot_hi c <= limit c /\
    (slot (slot_hi c) (c_level c' + 1) = slot (c_va c) (c_level c' + 1) \/ c_level c' = guard_level c').
Proof.
  intros Hc Hva. pose proof (slot_hi_limit st root c Hc Hva) as Hlim. pose proof (at_levels _ _ _ Hc) as [Hl Hg].
  destruct (move_loop_ok st root (Z.to_nat (guard_level c - c_level c)) c Hc Hva) as (c1 & Hr & Hc1 & Hva1 & Hg1 & Hb1 & Hl1 & Hs1); [lia|].
  exists (with_va c1 (slot_hi c)). unfold move_forward. step (cur_va_range_ok st root c Hc Hva). cbn [r_end]. step Hr.
  split_and!; try done. pose proof (at_barrier _ _ _ Hc) as ([Hb0 _] & _). pose proof (at_va _ _ _ Hc) as [[Hlo _] _].
  pose proof (path_here st root c1 Hc1 ltac:(rewrite Hva1, Hb1; done)) as (Hr1 & _ & Hp1).
  destruct Hc1 as [Ht1 Hlv1 Hbar1 Hv1 Hlen1 _ Hnone1]. unfold with_va.
  split; cbn [c_path c_level guard_level c_va barrier_va]; try done.
  - unfold limit in *. cbn [guard_level barrier_va]. rewrite Hb1, Hg1.
    know (slot_bounds (c_va c) (c_level c)) as Hsb. unfold slot_hi, slot_lo in *. split; [lia|].
    replace (_ + _) with ((slot (c_va c) (c_level c) + 1) * page_size (c_level c)) by lia.
    rewrite <- page_size_1. destruct (page_size_divide 1 (c_level c)) as [d ->]; [lia|lia|].
    rewrite Z.mul_assoc. apply Z.mod_mul. know (page_size_pos 1) as Hp1'. lia.
  - exists (c_va c1). split; [done|]. rewrite Hva1. split; [exact Hs1|]. cbn [c_path c_level guard_level]. rewrite Hva1 in Hp1. exact Hp1.
Qed.

(** *** The child at the cursor *)

Variant child_case st root c (e : Entry E) : ChildRef -> Prop :=
| case_none : is_present (pte e) = false -> child_case st root c e RefNone
| case_frame p : is_present (pte e) = true -> is_last (pte e) (c_level c) = true -> prop (pte e) = Ret p ->
    child_case st root c e (RefFrame (paddr (pte e)) (c_level c) p)
| case_node nd m : is_present (pte e) = true -> is_last (pte e) (c_level c) = false -> 1 < c_level c ->
    meta_to_frame nd = Ret (paddr (pte e)) -> st !! paddr (pte e) = Some m -> level (meta m) = c_level c - 1 ->
    node_at st root (depth (c_level c - 1)) (c_va c) = Some (paddr (pte e)) ->
    child_case st root c e (RefPageTable nd).

Lemma to_ref_ok st root c e n : cursor_at st root c -> stands_at st root c e n ->
  exists child, to_ref st e = Ret child /\ child_case st root c e child.
Proof.
  intros Hc ((Hn & He & _) & Hlv & Hi & Hq & _ & Hok). unfold to_ref, ref_from_pte.
  step (node_level_ok _ _ _ Hn). rewrite Hlv. destruct Hok as [_ Hok].
  destruct (is_present (pte e)) eqn:Hp; [|eexists; split; [done|by constructor]]. specialize (Hok eq_refl). cbn [negb].
  destruct (is_last (pte e) (c_level c)) eqn:Hla; cbn [negb].
  - destruct Hok as (_ & _ & _ & _ & p & Hpr & _). step Hpr. eexists. split; [done|by constructor].
  - destruct Hok as (Hl1 & m & Hm & Hlm).
    destruct (frame_meta_frame _ (proj1 (tree_store _ _ (at_tree _ _ _ Hc) _ _ Hm))) as (nd & Hnd & _ & _ & Hback).
    step Hnd. eexists. split; [done|]. apply (case_node _ _ _ _ _ m); try done.
    pose proof (at_levels _ _ _ Hc) as [Hl Hg]. unfold node_at.
    replace (depth (c_level c - 1)) with (S (depth (c_level c))) by (unfold depth; lia).
    assert (NR_LEVELS - Z.of_nat (depth (c_level c)) = c_level c) as Hd by (unfold depth; lia).
    apply (descend_step_intro st (depth (c_level c)) NR_LEVELS root (c_va c) (node e) n); rewrite ?Hd; try done. by rewrite <- Hi.
Qed.

(** The addresses of a range translate to consecutive physical addresses with one property, or not at all. *)
Definition maps_to st root (r : range) (o : option (Z * PageProperty)) : Prop :=
  forall va, in_range r va -> page_walk st root va =
    Ret (match o with Some (pa, p) => Some (pa + (va - r_start r), p) | None => None end).

Definition cur_range c : range := mk_range (slot_lo c) (slot_hi c).

Lemma cur_range_slot c va : 1 <= c_level c <= NR_LEVELS -> in_range (cur_range c) va <-> slot va (c_level c) = slot (c_va c) (c_level c).
Proof. intros Hl. rewrite slot_range by lia. unfold in_range, cur_range, slot_hi, slot_lo. cbn. done. Qed.

Lemma cur_range_in c : 1 <= c_level c <= NR_LEVELS -> in_range (cur_range c) (c_va c).
Proof. intros Hl. by apply cur_range_slot. Qed.

Lemma slot_lo_nonneg st root c : cursor_at st root c -> 0 <= slot_lo c.
Proof.
  intros [_ [Hl Hg] ([Hb0 _] & _) [[Hlo _] _] _ _ _]. unfold slot_lo. know (page_size_pos (c_level c)) as Hp.
  assert (0 <= slot (c_va c) (c_level c)) by (apply Z.div_pos; lia). nia.
Qed.

Lemma cur_maps st root c e n : cursor_at st root c -> stands_at st root c e n ->
  (is_present (pte e) = false -> maps_to st root (cur_range c) None) /\
  (forall p, is_present (pte e) = true -> is_last (pte e) (c_level c) = true -> prop (pte e) = Ret p ->
     maps_to st root (cur_range c) (Some (paddr (pte e), p))).
Proof.
  intros Hc He. pose proof (at_levels _ _ _ Hc) as [Hl Hg]. pose proof (slot_lo_nonneg _ _ _ Hc) as Hlo.
  split.
  - intros Hp va Hr. pose proof Hr as [Hr0 _]. apply cur_range_slot in Hr; [|lia]. cbn in Hr0.
    rewrite (cur_walk st root c e n va Hc He) by (done || lia). unfold PtNode.pte_walk. by rewrite Hp.
  - intros p Hp Hla Hpr va Hr. pose proof Hr as [Hr0 _]. apply cur_range_slot in Hr; [|lia]. cbn in Hr0 |- *.
    rewrite (cur_walk st root c e n va Hc He) by (done || lia). unfold PtNode.pte_walk. rewrite Hp, Hla, Hpr. cbn.
    know (page_size_pos (c_level c)) as Hps. know (Z.div_mod va (page_size (c_level c))) as Hdm.
    unfold slot_lo. rewrite <- Hr. unfold slot. do 3 f_equal. lia.
Qed.

(** ** Querying *)

Lemma query_loop_ok st root n c : cursor_at st root c -> c_va c < r_end (barrier_va c) -> (Z.to_nat (c_level c) <= S n)%nat ->
  exists c' o, query_loop n st c = Ret (cur_range c', (fun '(pa, p) => item_from_raw pa (c_level c') p) <$> o, c') /\
    cursor_at st root c' /\ c_va c' = c_va c /\ barrier_va c' = barrier_va c /\ guard_level c' = guard_level c /\
    maps_to st root (cur_range c') o.
Proof.
  revert c. induction n as [|n IH]; intros c Hc Hva Hn; cbn [query_loop];
    destruct (cur_entry_ok st root c Hc Hva) as (e & nd & Hce & He); step Hce;
    destruct (to_ref_ok st root c e nd Hc He) as (child & Href & Hcase); step Href;
    destruct (cur_maps st root c e nd Hc He) as [Hnone Hframe].
  - destruct Hcase as [Hp|p Hp Hla Hpr|]; [| |lia]; step (cur_va_range_ok st root c Hc Hva).
    + exists c, None. split_and!; try done. by apply Hnone.
    + exists c, (Some (paddr (pte e), p)). split_and!; try done. by apply Hframe.
  - destruct Hcase as [Hp|p Hp Hla Hpr|nd' m Hp Hla Hl1 Hback Hm Hlm Hat].
    + step (cur_va_range_ok st root c Hc Hva). exists c, None. split_and!; try done. by apply Hnone.
    + step (cur_va_range_ok st root c Hc Hva). exists c, (Some (paddr (pte e), p)). split_and!; try done. by apply Hframe.
    + step Hback. destruct (push_level_ok st root c _ Hc Hva Hl1 Hat) as (c1 & Hpush & Hc1 & Hva1 & Hl1' & Hg1 & Hb1). step Hpush.
      destruct (IH c1 Hc1) as (c' & o & Hr & Hc' & Hva' & Hb' & Hg' & Hm'); [by rewrite Hb1, Hva1|lia|].
      exists c', o. split_and!; try done; congruence.
Qed.

(** Querying.  At the end of its range the cursor reports the address; elsewhere [query] does not
    panic, leaves the address of the cursor and its invariant, and reports the slot around the address
    with what [page_walk] from the root finds there: nothing for all addresses of the slot, or an item whose
    consecutive physical addresses and property are those of the walk. *)
Theorem cursor_query_correct st root c : cursor_ok st root c ->
  (r_end (barrier_va c) <= c_va c -> query st c = Ret (inr (InvalidVaddr (c_va c)), c)) /\
  (c_va c < r_end (barrier_va c) -> exists r o c',
     query st c = Ret (inl (r, (fun '(pa, p) => item_from_raw pa (c_level c') p) <$> o), c') /\
     cursor_ok st root c' /\ c_va c' = c_va c /\ in_range r (c_va c) /\ r_end r - r_start r = page_size (c_level c') /\
     maps_to st root r o).
Proof.
  intros [Hc Hend]. unfold query. split; intros Hva; destruct (Z.leb_spec (r_end (barrier_va c)) (c_va c)); try done; try lia.
  destruct (query_loop_ok st root (Z.to_nat (c_level c)) c Hc Hva) as (c' & o & Hr & Hc' & Hva' & Hb' & Hg' & Hm); [lia|].
  exists (cur_range c'), o, c'. step Hr. split; [done|]. pose proof (at_levels _ _ _ Hc') as [Hl Hg].
  split; [split; [done|]; by rewrite Hva', Hb'|]. split_and!; try done.
  - rewrite <- Hva'. apply cur_range_in. lia.
  - unfold cur_range, slot_hi. cbn. lia.
Qed.

(** ** Going down through new nodes *)

(** The allocator returns a frame that is not in use, and returns one as long as fewer than [pool] are used. *)
Context (alloc_fresh : forall st pa, alloc_frame st = Some pa -> valid_frame_paddr pa /\ st !! pa = None).
Context (pool : nat) (alloc_succeeds : forall st, (size st < pool)%nat -> is_Some (alloc_frame st)).

(** [c'] stands one level below [c] at the same address. *)
Definition went_down c c' : Prop :=
  c_va c' = c_va c /\ c_level c' = c_level c - 1 /\ guard_level c' = guard_level c /\ barrier_va c' = barrier_va c.

(** No translation changes. *)
Definition same_walks st st' root : Prop := forall va, 0 <= va -> page_walk st' root va = page_walk st root va.

(** The entry at the cursor is not a table. *)
Definition leads_nowhere st root c : Prop :=
  forall e n, stands_at st root c e n -> is_present (pte e) && negb (is_last (pte e) (c_level c)) = false.

Lemma put_child_ok st root c e n pa m e1 :
  cursor_at st root c -> c_va c < r_end (barrier_va c) -> stands_at st root c e n -> 1 < c_level c ->
  st !! pa = None -> store_ok (<[pa := m]> st) -> pte_ok (<[pa := m]> st) (c_level c) e1 ->
  is_present e1 = true /\ is_last e1 (c_level c) = false /\ paddr e1 = pa ->
  (forall i x, ptes m !! i = Some x -> is_present x && negb (is_last x (c_level c - 1)) = false) ->
  (forall va, 0 <= va -> pte_walk (<[pa := m]> st) (c_level c) e1 va = pte_walk st (c_level c) (pte e) va) ->
  let st' := put_node st e n pa m e1 in
  exists c', push_level c pa = Ret c' /\ cursor_at st' root c' /\ went_down c c' /\
    same_walks st st' root /\ size st' = S (size st) /\ leads_nowhere st' root c' /\
    (base_pages st root -> (forall i x, ptes m !! i = Some x -> is_present x = false) -> base_pages st' root).
Proof.
  intros Hc Hva (Hat & Hlv & Hi & Hq & Hps & Hok) Hl1 Hnew Hst1 He1 Hnode Hleaf Hmean st'.
  pose proof (at_tree _ _ _ Hc) as Ht. pose proof (at_levels _ _ _ Hc) as [Hl Hg]. pose proof (at_va _ _ _ Hc) as [[Hlo _] _].
  pose proof (at_barrier _ _ _ Hc) as ([Hb0 _] & _).
  assert (level (meta n) = NR_LEVELS - Z.of_nat (depth (c_level c))) as Hk by (unfold depth; lia).
  rewrite <- Hlv in He1, Hnode, Hleaf, Hmean.
  pose proof (put_tree base_is_page st root pa e n m _ e1 Ht Hat Hk Hnew Hst1 He1 Hnode Hleaf) as Ht'. fold st' in Ht'.
  assert (cursor_at st' root c) as Hc'.
  { apply (cursor_at_store st st' root c Hc Hva Ht'). intros l Hll.
    apply (put_at_high st root pa e n m _ e1 Ht Hat Hk Hnew Hst1). unfold depth. lia. }
  assert (node_at st' root (depth (c_level c - 1)) (c_va c) = Some pa) as Hatpa.
  { pose proof (put_at_new base_is_page st root pa e n m _ e1 Ht Hat Hk Hnew Hst1 He1 Hnode Hleaf 0 (c_va c) ltac:(lia) Hq) as Hnew'.
    cbn in Hnew'. replace (depth (c_level c - 1)) with (depth (c_level c) + 1)%nat by (unfold depth; lia).
    apply Hnew'. by rewrite Hlv. }
  destruct (push_level_ok st' root c pa Hc' Hva Hl1 Hatpa) as (c' & Hpush & Hc1 & Hdown).
  exists c'. split_and!; try done; try apply Hdown.
  - intros va Hv. by apply (put_walk debug_assertions base_is_page st root pa e n m e1 Ht Hat Hnew Hst1 He1).
  - unfold st', put_node, set_entry. destruct Hat as [Hn _]. rewrite map_size_insert_Some; [|by rewrite lookup_insert_ne; [eauto|congruence]].
    by rewrite map_size_insert_None.
  - destruct Hdown as (Hva' & Hl' & _). intros e' n' ((Hn' & He' & _) & _ & _ & Hq' & _). rewrite Hl', Hva' in Hq'.
    assert (node e' = pa) as Hpa by congruence. rewrite Hpa in Hn'. unfold st', put_node, set_entry in Hn'.
    rewrite lookup_insert_ne, lookup_insert_eq in Hn' by (destruct Hat; congruence). injection Hn' as <-.
    rewrite Hl', <- Hlv. exact (Hleaf _ _ He').
  - intros Hbp Hempty. by apply (put_pages base_is_page st root pa e n m (depth (c_level c)) e1).
Qed.

Lemma split_push_ok st root c e n : cursor_at st root c -> c_va c < r_end (barrier_va c) -> stands_at st root c e n ->
  is_present (pte e) = true -> is_last (pte e) (c_level c) = true -> 1 < c_level c -> (size st < pool)%nat ->
  exists pa e' c' st', split_if_mapped_huge alloc_frame st e = Ret (Some pa, e', st') /\ push_level c pa = Ret c' /\
    cursor_at st' root c' /\ went_down c c' /\ same_walks st st' root /\ size st' = S (size st) /\ leads_nowhere st' root c'.
Proof.
  intros Hc Hva He Hp Hla Hl1 Hsz. destruct (alloc_succeeds st Hsz) as [pa Ha]. destruct (alloc_fresh st pa Ha) as [Hv Hnew].
  pose proof He as (Hat & Hlv & _). rewrite <- Hlv in Hla.
  destruct (split_spec debug_assertions alloc_frame base_is_page alloc_fresh st e n pa (tree_store _ _ (at_tree _ _ _ Hc)) Hat Hp Hla ltac:(lia) Ha)
    as (p & es & e1 & Hpr & [Hles Hes] & Hst1 & Hok1 & Hp1 & Hl1' & Hpa1 & Hw & Hsplit).
  set (m := locked_node (level (meta n) - 1) es) in *. rewrite Hlv in *.
  destruct (put_child_ok st root c e n pa m e1) as (c' & Hpush & Hc' & Hd & Hsw & Hsize & Hno & _); try done.
  { intros i x Hx. specialize (Hes i x Hx). apply lookup_lt_Some in Hx. cbn in Hx. rewrite Hles in Hx.
    destruct (decide _) as [|]; [|lia]. destruct Hes as (-> & -> & _). done. }
  eauto 12.
Qed.

Lemma alloc_push_ok st root c e n : cursor_at st root c -> c_va c < r_end (barrier_va c) -> stands_at st root c e n ->
  is_present (pte e) = false -> 1 < c_level c -> (size st < pool)%nat ->
  exists pa c' st', alloc_absent_child alloc_frame st (node e) (idx e) = Ret (pa, st') /\ push_level c pa = Ret c' /\
    cursor_at st' root c' /\ went_down c c' /\ same_walks st st' root /\ size st' = S (size st) /\ leads_nowhere st' root c' /\
    (base_pages st root -> base_pages st' root).
Proof.
  intros Hc Hva He Hp Hl1 Hsz. destruct (alloc_succeeds st Hsz) as [pa Ha]. destruct (alloc_fresh st pa Ha) as [Hv Hnew].
  pose proof He as (Hat & Hlv & _).
  destruct (alloc_child_spec debug_assertions alloc_frame base_is_page alloc_fresh st e n pa (tree_store _ _ (at_tree _ _ _ Hc)) Hat Hp ltac:(lia) Ha)
    as (e1 & Hst1 & Hok1 & Hp1 & Hl1' & Hpa1 & Hw & _ & Halloc).
  set (m := locked_node (level (meta n) - 1) empty_ptes) in *. rewrite Hlv in *.
  destruct (put_child_ok st root c e n pa m e1) as (c' & Hpush & Hc' & Hd & Hsw & Hsize & Hno & Hbp); try done.
  { intros i x [-> _]%lookup_replicate. by rewrite new_absent_law. }
  exists pa, c', (put_node st e n pa m e1). split_and!; try done. intros Hb. apply Hbp; [done|].
  intros i x [-> _]%lookup_replicate. apply new_absent_law.
Qed.

(** ** Finding the next mapping *)

Lemma same_walks_refl st root : same_walks st st root.
Proof. by intros va _. Qed.

Lemma same_walks_trans st st1 st2 root : same_walks st st1 root -> same_walks st1 st2 root -> same_walks st st2 root.
Proof. intros Hw1 Hw2 va Hva. by rewrite Hw2, Hw1. Qed.

(** The cursor has stayed in its range. *)
Definition same_range c c' : Prop := guard_level c' = guard_level c /\ barrier_va c' = barrier_va c.

(** The entry at which a search ends; [end_] is the end of the search. *)
Definition found_at (end_ : Z) (find_unmap_subtree split_huge : bool) st root c : Prop :=
  c_va c < end_ /\ exists e n, stands_at st root c e n /\ is_present (pte e) = true /\
  if is_last (pte e) (c_level c) then split_huge = true -> slot_lo c = c_va c /\ slot_hi c <= end_
  else find_unmap_subtree = true /\ slot_lo c = c_va c /\ slot_hi c <= end_ /\
       (TOP_LEVEL_CAN_UNMAP = true \/ c_level c <> NR_LEVELS).

Lemma aligned_gap a b : a mod BASE_PAGE_SIZE = 0 -> b mod BASE_PAGE_SIZE = 0 -> a < b -> a + BASE_PAGE_SIZE <= b.
Proof. intros Ha Hb Hlt. apply multiple_gap; try done. apply req_base. Qed.

(** At level 1 a page fits whatever page-aligned range it is in. *)
Lemma page_fits st root c end_ : cursor_at st root c -> c_level c = 1 -> c_va c < end_ -> end_ mod BASE_PAGE_SIZE = 0 ->
  slot_lo c = c_va c /\ slot_hi c <= end_.
Proof.
  intros Hc Hl Hlt Hend. pose proof (at_va _ _ _ Hc) as [_ Hal]. pose proof (aligned_gap _ _ Hal Hend Hlt).
  pose proof req_levels. assert (slot_lo c = c_va c) as Hlo.
  { unfold slot_lo. rewrite Hl. apply slot_start; [lia|]. by rewrite page_size_1. }
  split; [done|]. unfold slot_hi. rewrite Hlo, Hl, page_size_1. done.
Qed.

(** The search at a mapped page splits it until it fits. *)
Lemma find_frame_ok end_ fu sh (fuel : nat) st root c e n : cursor_at st root c -> c_va c < end_ ->
  end_ <= r_end (barrier_va c) -> end_ mod BASE_PAGE_SIZE = 0 -> stands_at st root c e n ->
  is_present (pte e) = true -> is_last (pte e) (c_level c) = true ->
  (Z.to_nat (c_level c) <= fuel)%nat -> (size st + Z.to_nat (c_level c) <= S pool)%nat ->
  exists c' st', find_next_loop fuel end_ fu sh st c = Ret (Some (c_va c), c', st') /\ cursor_at st' root c' /\
    c_va c' = c_va c /\ same_range c c' /\ same_walks st st' root /\ found_at end_ fu sh st' root c' /\
    leads_nowhere st' root c' /\ (sh = false -> c' = c /\ st' = st) /\ (st' = st \/ ~ base_pages st root).
Proof.
  revert st c e n. induction fuel as [|fuel IH]; intros st c e n Hc Hlt Hend Hal He Hp Hla Hfuel Hpool;
    pose proof (at_levels _ _ _ Hc) as [Hl Hg]; [lia|].
  cbn [find_next_loop]. destruct (Z.ltb_spec (c_va c) end_); [|lia].
  assert (c_va c < r_end (barrier_va c)) as Hva by lia. step (cur_va_range_ok st root c Hc Hva). cbn [r_start r_end].
  destruct (cur_entry_ok st root c Hc Hva) as (e0 & n0 & Hce & He0).
  destruct (stands_at_inj st root c e0 e n0 n He0 He) as [-> ->].
  step Hce. destruct (to_ref_ok st root c e n Hc He) as (child & Href & Hcase). step Href.
  destruct Hcase as [?|p _ _ Hpr|nd m _ Hno]; [congruence| |congruence].
  destruct (Z.eqb_spec (c_va c) (slot_lo c)) as [Hlo|Hlo], (Z.leb_spec (slot_hi c) end_) as [Hhi|Hhi], sh; cbn [andb orb negb].
  all: try (exists c, st; split_and!; try done;
    [split; [done|]; exists e, n; split_and!; try done; rewrite Hla; intros ?; try done; split; lia
    |intros e1 n1 He1; destruct (stands_at_inj st root c e1 e n1 n He1 He) as [-> ->]; by rewrite Hp, Hla|by left]).
  all: destruct (decide (c_level c = 1)) as [Hl1|Hl1];
    [destruct (page_fits st root c end_ Hc Hl1 Hlt Hal); lia|].
  all: assert (1 < c_level c) as Hgt by lia; assert (size st < pool)%nat as Hsz by lia;
    destruct (split_push_ok st root c e n Hc Hva He Hp Hla Hgt Hsz)
    as (pa & e' & c1 & st1 & Hsplit & Hpush & Hc1 & (Hva1 & Hlv1 & Hg1 & Hb1) & Hw1 & Hsz1 & Hno1);
    step Hsplit; step Hpush.
  all: destruct (cur_entry_ok st1 root c1 Hc1) as (e1 & n1 & Hce1 & He1); [by rewrite Hva1, Hb1|].
  all: assert (is_present (pte e1) = true) as Hp1.
  1,3,5: apply not_false_iff_true; intros Habs;
    pose proof (proj1 (cur_maps st1 root c1 e1 n1 Hc1 He1) Habs (c_va c1) ltac:(apply cur_range_in; lia)) as Hm;
    pose proof (proj2 (cur_maps st root c e n Hc He) p Hp Hla Hpr (c_va c) ltac:(apply cur_range_in; lia)) as Hm0;
    rewrite Hva1, Hw1, Hm0 in Hm; [done|pose proof (at_va _ _ _ Hc); pose proof (at_barrier _ _ _ Hc) as ([? _] & _); lia].
  all: pose proof (Hno1 e1 n1 He1) as Hleaf; rewrite Hp1 in Hleaf; cbn in Hleaf; apply negb_false_iff in Hleaf.
  all: destruct (IH st1 c1 e1 n1 Hc1) as (c' & st' & Hr & Hc' & Hva' & [Hg' Hb'] & Hw' & Hf' & Hno' & _); try done; try lia;
    try (by rewrite Hb1).
  all: exists c', st'; rewrite Hva1 in *; split_and!; try done; try congruence; [split; congruence|by eapply same_walks_trans|].
  all: right; intros Hbp; pose proof (page_level st root c e n Hbp Hc Hva He Hp Hla); lia.
Qed.

(** No address of the range is mapped. *)
Definition unmapped st root (lo hi : Z) : Prop := forall va, lo <= va < hi -> page_walk st root va = Ret None.

(** An empty table maps nothing. *)
Lemma empty_table_maps st root c e n m : cursor_at st root c -> stands_at st root c e n -> is_present (pte e) = true ->
  is_last (pte e) (c_level c) = false -> st !! paddr (pte e) = Some m -> level (meta m) = c_level c - 1 ->
  nr_children (meta m) = 0 -> maps_to st root (cur_range c) None.
Proof.
  intros Hc He Hp Hla Hm Hlm Hnr va Hr. pose proof (at_levels _ _ _ Hc) as [Hl Hg]. pose proof (slot_lo_nonneg _ _ _ Hc) as Hlo.
  pose proof Hr as [Hr0 _]. cbn in Hr0. apply cur_range_slot in Hr; [|lia].
  rewrite (cur_walk st root c e n va Hc He) by (done || lia). unfold PtNode.pte_walk. rewrite Hp, Hla. cbn [negb].
  rewrite <- Hlm. pose proof (tree_store _ _ (at_tree _ _ _ Hc)) as Hst. destruct (Hst _ _ Hm) as [_ Hok].
  destruct (walk_index base_is_page st m va Hok ltac:(lia)) as (e2 & He2 & _).
  pose proof (node_walk_step debug_assertions base_is_page st (paddr (pte e)) m va e2 Hst Hm ltac:(lia) He2) as Hstep.
  unfold node_walk in Hstep. rewrite Hstep. unfold PtNode.pte_walk. destruct (is_present e2) eqn:Hp2; [|done].
  destruct Hok as (_ & _ & Hcnt & _). rewrite counted_all in Hcnt by (intros i; apply (low_counted st _ m); [done|done|lia]).
  pose proof (number_one is_present (ptes m) _ e2 He2 Hp2). lia.
Qed.

(** The iterations that remain. *)
Definition find_measure (end_ : Z) c : Z := (end_ - c_va c) / BASE_PAGE_SIZE * (NR_LEVELS + 1) + c_level c.

Lemma find_measure_forward end_ c c' st root : cursor_at st root c -> cursor_at st root c' -> c_va c < c_va c' ->
  find_measure end_ c' < find_measure end_ c.
Proof.
  intros Hc Hc' Hlt. pose proof (at_va _ _ _ Hc) as [_ Ha]. pose proof (at_va _ _ _ Hc') as [_ Ha'].
  pose proof (aligned_gap _ _ Ha Ha' Hlt) as Hgap. pose proof (at_levels _ _ _ Hc) as [? ?]. pose proof (at_levels _ _ _ Hc') as [? ?].
  unfold find_measure. pose proof req_base as [Hb _].
  assert ((end_ - c_va c') / BASE_PAGE_SIZE + 1 <= (end_ - c_va c) / BASE_PAGE_SIZE).
  { rewrite <- Z.div_add by lia. apply Z.div_le_mono; lia. }
  nia.
Qed.

(** What a search returns. *)
Definition find_post (end_ : Z) (fu sh : bool) st root c (r : option Z * Cursor * pt_store E) : Prop :=
  let '(found, c', st') := r in
  cursor_at st' root c' /\ same_range c c' /\ c_va c <= c_va c' /\ same_walks st st' root /\
  unmapped st root (c_va c) (c_va c') /\ (sh = false -> st' = st) /\
  match found with
  | Some va => va = c_va c' /\ found_at end_ fu sh st' root c' /\ (st' = st \/ leads_nowhere st' root c') /\ (st' = st \/ ~ base_pages st root)
  | None => end_ <= c_va c' /\ st' = st
  end.

Definition find_loop_spec (end_ : Z) (fu sh : bool) st root (fuel : nat) : Prop :=
  forall c, cursor_at st root c -> end_ <= r_end (barrier_va c) -> (c_va c < end_ -> find_measure end_ c <= Z.of_nat fuel) ->
    exists r, find_next_loop fuel end_ fu sh st c = Ret r /\ find_post end_ fu sh st root c r.

Lemma measure_level end_ c : c_va c < end_ -> 0 <= NR_LEVELS -> c_level c <= find_measure end_ c.
Proof.
  intros Hlt Hnr. unfold find_measure. pose proof req_base as [Hb _].
  assert (0 <= (end_ - c_va c) / BASE_PAGE_SIZE) by (apply Z.div_pos; lia). nia.
Qed.

(** Going on behind a slot that maps nothing. *)
Lemma find_skip end_ fu sh st root fuel c : find_loop_spec end_ fu sh st root fuel -> cursor_at st root c ->
  c_va c < end_ -> end_ <= r_end (barrier_va c) -> find_measure end_ c <= Z.of_nat (S fuel) ->
  maps_to st root (cur_range c) None ->
  exists r, (c' ← move_forward c; find_next_loop fuel end_ fu sh st c') = Ret r /\ find_post end_ fu sh st root c r.
Proof.
  intros IH Hc Hlt Hend Hfuel Hm. assert (c_va c < r_end (barrier_va c)) as Hva by lia. pose proof (at_levels _ _ _ Hc) as [Hl Hg].
  destruct (move_forward_ok st root c Hc Hva) as (c1 & Hmv & Hc1 & Hva1 & Hg1 & Hb1 & _). step Hmv.
  pose proof (cur_range_in c ltac:(lia)) as [Hin Hin']. cbn in Hin, Hin'.
  pose proof (find_measure_forward end_ c c1 st root Hc Hc1 ltac:(lia)).
  destruct (IH c1 Hc1) as ([[found c'] st'] & Hr & Hc' & [Hg' Hb'] & Hva' & Hw' & Hun & Hsh & Hf); [by rewrite Hb1|lia|].
  exists (found, c', st'). split; [done|]. split; [done|]. split; [split; congruence|]. split_and!; try done; [lia|].
  intros va Hin2. destruct (decide (va < slot_hi c)) as [|Hge].
  - apply (Hm va). split; cbn; lia.
  - apply Hun. lia.
Qed.

(** Going down into a table that is not empty. *)
Lemma find_down end_ fu sh st root fuel c q : find_loop_spec end_ fu sh st root fuel -> cursor_at st root c ->
  c_va c < end_ -> end_ <= r_end (barrier_va c) -> find_measure end_ c <= Z.of_nat (S fuel) -> 1 < c_level c ->
  node_at st root (depth (c_level c - 1)) (c_va c) = Some q ->
  exists r, (c' ← push_level c q; find_next_loop fuel end_ fu sh st c') = Ret r /\ find_post end_ fu sh st root c r.
Proof.
  intros IH Hc Hlt Hend Hfuel Hl1 Hat. assert (c_va c < r_end (barrier_va c)) as Hva by lia.
  destruct (push_level_ok st root c _ Hc Hva Hl1 Hat) as (c1 & Hpush & Hc1 & Hva1 & Hlv1 & Hg1 & Hb1). step Hpush.
  destruct (IH c1 Hc1) as ([[found c'] st'] & Hr & Hc' & [Hg' Hb'] & Hrest); [by rewrite Hb1| |].
  { intros _. unfold find_measure in *. rewrite Hva1, Hlv1. lia. }
  exists (found, c', st'). rewrite Hva1 in Hrest. split; [done|]. split; [done|]. split; [split; congruence|exact Hrest].
Qed.

Lemma find_loop_ok end_ fu sh st root fuel : end_ mod BASE_PAGE_SIZE = 0 -> (size st + Z.to_nat NR_LEVELS <= S pool)%nat ->
  find_loop_spec end_ fu sh st root fuel.
Proof.
  intros Hal Hpool. induction fuel as [|fuel IH]; intros c Hc Hend Hfuel;
    pose proof (at_levels _ _ _ Hc) as [Hl Hg]; pose proof (measure_level end_ c) as Hml;
    destruct (Z.ltb_spec (c_va c) end_) as [Hlt|Hge]; [lia| | |].
  1, 3: exists (None, c, st); cbn [find_next_loop]; destruct (Z.ltb_spec (c_va c) end_); [lia|]; split; [done|];
    split_and!; try done; intros va ?; lia.
  specialize (Hfuel Hlt). assert (c_va c < r_end (barrier_va c)) as Hva by lia.
  destruct (cur_entry_ok st root c Hc Hva) as (e & n & Hce & He).
  destruct (to_ref_ok st root c e n Hc He) as (child & Href & Hcase). pose proof (cur_maps st root c e n Hc He) as [Hnone _].
  destruct Hcase as [Hp|p Hp Hla Hpr|nd m Hp Hla Hl1 Hback Hm Hlm Hat].
  2: { destruct (find_frame_ok end_ fu sh (S fuel) st root c e n Hc Hlt Hend Hal He Hp Hla ltac:(lia) ltac:(lia))
         as (c' & st' & Hr & Hc' & Hva' & Hsr & Hw & Hf & Hno & Hsh & Hbp).
       exists (Some (c_va c), c', st'). split; [done|]. split; [done|]. split; [done|]. split_and!; try done; [lia| | |].
       - intros va ?. lia.
       - intros Hs. by destruct (Hsh Hs).
       - by right. }
  all: cbn [find_next_loop]; destruct (Z.ltb_spec (c_va c) end_); [|lia];
    step (cur_va_range_ok st root c Hc Hva); cbn [r_start r_end]; step Hce; step Href.
  - apply find_skip; try done. by apply Hnone.
  - destruct (fu && _ && _) eqn:Hstop.
    + zify_bools. subst fu. exists (Some (c_va c), c, st). split; [done|]. split_and!; try done; [intros va ?; lia| |by left|by left].
      split; [done|]. exists e, n. split_and!; try done. rewrite Hla. split_and!; try done.
      match goal with Ht : _ || _ = true |- _ => apply orb_true_iff in Ht as [|Htop]; [by left|right] end. by zify_bools.
    + step Hback. unfold get_node. rewrite Hm. cbn [mbind outcome_bind unwrap].
      destruct (Z.eqb_spec (nr_children (meta m)) 0) as [Hnr|Hnr]; cbn [negb].
      * apply find_skip; try done. by eapply empty_table_maps.
      * by apply find_down.
Qed.

(** A cursor behind its range goes back to the end of the range. *)
Lemma clamp_ok st root c : cursor_at st root c -> r_end (barrier_va c) < c_va c ->
  cursor_at st root (with_va c (r_end (barrier_va c))).
Proof.
  intros [Ht [Hl Hg] Hb [Hv _] Hlen (w & Hw & Hs & Hp) Hnone] Hlt. pose proof Hb as (Hb0 & _ & Hbe & _ & _).
  split; cbn [with_va c_path c_level guard_level c_va barrier_va]; try done; [split; [|done]; unfold limit in *; cbn; lia|].
  exists w. split; [done|]. split; [|done]. cbn [with_va c_level guard_level c_va]. destruct Hs as [Hs|]; [left|by right].
  destruct Hw as [Hw0 Hw1].
  assert (slot w (c_level c + 1) <= slot (r_end (barrier_va c)) (c_level c + 1)) by (apply slot_mono; lia).
  assert (slot (r_end (barrier_va c)) (c_level c + 1) <= slot (c_va c) (c_level c + 1)) by (apply slot_mono; lia). lia.
Qed.

Lemma find_fuel_ok st root c len : cursor_at st root c -> find_measure (c_va c + len) c <= Z.of_nat (find_next_fuel len).
Proof.
  intros Hc. pose proof (at_levels _ _ _ Hc) as [Hl Hg]. unfold find_measure, find_next_fuel.
  replace (c_va c + len - c_va c) with len by lia. nia.
Qed.

Lemma find_impl_ok st root c len fu sh : cursor_ok st root c -> len mod BASE_PAGE_SIZE = 0 -> 0 <= len ->
  len <= r_end (barrier_va c) - c_va c -> (size st + Z.to_nat NR_LEVELS <= S pool)%nat ->
  exists found c' st', find_next_impl st c len fu sh = Ret (found, c', st') /\
    find_post (c_va c + len) fu sh st root c (found, c', st') /\ c_va c' <= r_end (barrier_va c).
Proof.
  intros [Hc Hend] Hal Hlen Hrem Hpool. pose proof (at_barrier _ _ _ Hc) as (Hb & _ & _ & _ & Hlim).
  pose proof (at_va _ _ _ Hc) as [[Hlo _] Hva]. pose proof req_base as [Hbase _].
  assert (r_end (barrier_va c) <= limit c) as Hel.
  { pose proof (at_levels _ _ _ Hc) as [Hl Hg]. unfold limit. know (slot_bounds (r_end (barrier_va c) - 1) (guard_level c)) as Hsb. lia. }
  destruct (find_loop_ok (c_va c + len) fu sh st root (find_next_fuel len)) with (c := c) as ([[found c'] st'] & Hr & Hpost);
    [by apply mod0_add|done|done|lia|intros _; by eapply find_fuel_ok|].
  unfold find_next_impl. rewrite Hal, Z.eqb_refl. cbn [rassert mbind outcome_bind]. step usub_ok by lia.
  replace (len <=? _) with true by (symmetry; apply Z.leb_le; lia). cbn [rassert mbind outcome_bind]. step uadd_ok by lia.
  step Hr. destruct Hpost as (Hc' & [Hg' Hb'] & Hle & Hw & Hun & Hsh & Hf). destruct found as [va|].
  - exists (Some va), c', st'. split_and!; try done. destruct Hf as (_ & [Hlt _] & _). lia.
  - rewrite Hb'. destruct Hf as [Hge ->]. destruct (Z.ltb_spec (r_end (barrier_va c)) (c_va c')) as [Hgt|Hle'].
    + exists None, (with_va c' (r_end (barrier_va c))), st. split; [done|]. cbn [find_post with_va c_va]. split_and!; try done; try lia.
      * rewrite <- Hb'. apply clamp_ok; [done|]. by rewrite Hb'.
      * intros va ?. apply Hun. lia.
    + exists None, c', st. split; [done|]. by split_and!.
Qed.

(** Searching.  [find_next] (also with its flags for unmapping and splitting) panics when the length is not a
    multiple of the page size or reaches behind the locked range.  Otherwise its loop ends, within the fuel of
    the model; no translation changes, even if a huge page is split; all addresses from the old to the
    new position of the cursor are unmapped.  If it finds nothing, these include the whole searched range; if it
    finds an entry, the cursor stands at it: a mapped page, with [split_huge] one that lies in the searched range,
    or with [find_unmap_subtree] also a table that lies in the range. *)
Theorem cursor_find_next_correct st root c len fu sh : cursor_ok st root c -> 0 <= len ->
  (size st + Z.to_nat NR_LEVELS <= S pool)%nat ->
  (len mod BASE_PAGE_SIZE <> 0 \/ r_end (barrier_va c) - c_va c < len -> find_next_impl st c len fu sh = Panic) /\
  (len mod BASE_PAGE_SIZE = 0 -> len <= r_end (barrier_va c) - c_va c ->
   exists found c' st', find_next_impl st c len fu sh = Ret (found, c', st') /\
     cursor_ok st' root c' /\ barrier_va c' = barrier_va c /\ same_walks st st' root /\ (sh = false -> st' = st) /\
     c_va c <= c_va c' /\ unmapped st root (c_va c) (c_va c') /\
     match found with
     | None => c_va c + len <= c_va c'
     | Some va => va = c_va c' /\ found_at (c_va c + len) fu sh st' root c'
     end).
Proof.
  intros Hc Hlen Hpool. split.
  - intros Hbad. unfold find_next_impl. destruct (Z.eqb_spec (len mod BASE_PAGE_SIZE) 0) as [Hal|]; [|done]. cbn [rassert mbind outcome_bind].
    destruct Hbad as [|Hbad]; [done|]. step usub_ok by (destruct Hc; lia). by destruct (Z.leb_spec len (r_end (barrier_va c) - c_va c)); [lia|].
  - intros Hal Hrem. destruct (find_impl_ok st root c len fu sh Hc Hal Hlen Hrem Hpool) as (found & c' & st' & Hr & Hpost & Hle).
    destruct Hpost as (Hc' & [Hg' Hb'] & Hva & Hw & Hun & Hsh & Hf). exists found, c', st'. split; [done|].
    split; [split; [done|by rewrite Hb']|]. split_and!; try done. destruct found; [|by destruct Hf]. by destruct Hf as (? & ? & _).
Qed.

(** ** Jumping *)

(** The test of [jump] is whether the node at the cursor covers the address. *)
Lemma jump_test st root c va : cursor_at st root c -> 0 <= va ->
  exists start, align_down 64 (c_va c) (page_size (c_level c + 1)) = Ret start /\
    (start <=? va) && (va - start <? page_size (c_level c + 1)) = bool_decide (slot va (c_level c + 1) = slot (c_va c) (c_level c + 1)).
Proof.
  intros [_ [Hl Hg] ([Hb0 _] & _ & _ & _ & Hlim) [[Hlo Hhi] _] _ _ _] Hva. eexists. split; [apply align_down_page; done || lia|].
  know (slot_range (c_va c) va (c_level c + 1)) as Hr. apply eq_true_iff_eq. rewrite andb_true_iff, Z.leb_le, Z.ltb_lt, bool_decide_eq_true, Hr. lia.
Qed.

Lemma with_va_ok st root c va : cursor_at st root c -> in_range (barrier_va c) va -> va mod BASE_PAGE_SIZE = 0 ->
  slot va (c_level c + 1) = slot (c_va c) (c_level c + 1) -> cursor_at st root (with_va c va).
Proof.
  intros [Ht [Hl Hg] Hb Hv Hlen (w & Hw & Hs & Hp) Hnone] [Hlo Hhi] Hal Hslot.
  split; cbn [with_va c_path c_level guard_level c_va barrier_va]; try done.
  - split; [|done]. split; [done|]. unfold limit. cbn. know (slot_bounds (r_end (barrier_va c) - 1) (guard_level c)) as Hsb. lia.
  - exists w. split; [done|]. split; [|done]. cbn [with_va c_level guard_level c_va]. destruct Hs as [Hs|]; [left; congruence|by right].
Qed.

Lemma jump_loop_ok st root n c va : cursor_at st root c -> in_range (barrier_va c) va -> va mod BASE_PAGE_SIZE = 0 ->
  slot (c_va c) (guard_level c + 1) = slot (r_start (barrier_va c)) (guard_level c + 1) ->
  guard_level c - c_level c <= Z.of_nat n ->
  exists c', jump_loop n va c = Ret c' /\ cursor_at st root c' /\ c_va c' = va /\ same_range c c' /\ c_level c <= c_level c'.
Proof.
  revert c. induction n as [|n IH]; intros c Hc Hr Hal Hin Hn; cbn [jump_loop];
    pose proof (at_levels _ _ _ Hc) as [Hl Hg]; pose proof (at_barrier _ _ _ Hc) as Hb; pose proof Hb as ([Hb0 _] & _);
    pose proof Hr as [Hr0 _]; destruct (jump_test st root c va Hc ltac:(lia)) as (start & Hst & Htest); step Hst;
    rewrite <- andb_assoc, Htest; (destruct (Z.leb_spec (c_level c) (guard_level c)); [|lia]); cbn [andb];
    destruct (bool_decide_reflect (slot va (c_level c + 1) = slot (c_va c) (c_level c + 1))) as [Hs|Hs].
  1, 3: exists (with_va c va); split_and!; try done; by apply with_va_ok.
  1: exfalso; apply Hs; replace (c_level c) with (guard_level c) by lia; by rewrite (barrier_slot c va) by (done || lia).
  destruct (decide (c_level c = guard_level c)) as [Heq|Hne].
  { exfalso. apply Hs. rewrite Heq. by rewrite (barrier_slot c va) by (done || lia). }
  destruct (pop_level_ok st root c Hc ltac:(lia)) as (c1 & Hpop & Hc1 & Hva1 & Hl1 & Hg1 & Hb1). step Hpop.
  destruct (IH c1 Hc1) as (c' & Hj & Hc' & Hva' & [Hg' Hb'] & Hl'); [by rewrite Hb1|done|by rewrite Hva1, Hg1, Hb1|lia|].
  exists c'. split_and!; try done; [split; congruence|lia].
Qed.

(** Above the guard level there is no node to go back to. *)
Lemma pop_above c : c_level c = guard_level c + 1 -> 1 <= guard_level c -> length (c_path c) = MAX_NR_LEVELS ->
  (forall l, 1 <= l <= Z.of_nat MAX_NR_LEVELS -> guard_level c < l -> c_path c !! Z.to_nat (l - 1) = Some None) ->
  pop_level c = Panic.
Proof.
  intros Hl Hg Hlen Hnone. unfold pop_level, arr_get. step usub_ok by lia. destruct (decide (c_level c <= Z.of_nat MAX_NR_LEVELS)) as [Hle|Hgt].
  - by rewrite Hnone by lia.
  - by rewrite lookup_ge_None_2 by lia.
Qed.

Lemma jump_loop_depleted st root n c va : cursor_at st root c -> in_range (barrier_va c) va ->
  slot (c_va c) (guard_level c + 1) <> slot (r_start (barrier_va c)) (guard_level c + 1) -> jump_loop n va c = Panic.
Proof.
  intros Hc Hr Hout. pose proof (at_levels _ _ _ Hc) as [Hl Hg]. pose proof (at_barrier _ _ _ Hc) as Hb.
  pose proof Hb as ([Hb0 _] & _). pose proof Hr as [Hr0 _].
  assert (c_level c = guard_level c) as Heq.
  { destruct (at_path _ _ _ Hc) as (w & Hw & [Hs|] & _); [|done]. destruct (decide (c_level c = guard_level c)); [done|].
    exfalso. apply Hout. rewrite <- (barrier_slot c w) by (done || lia). apply (slot_above _ _ (c_level c + 1)); done || lia. }
  destruct (jump_test st root c va Hc ltac:(lia)) as (start & Hst & Htest).
  destruct n as [|n]; cbn [jump_loop]; step Hst; rewrite <- andb_assoc, Htest, Heq, (barrier_slot c va) by (done || lia);
    rewrite bool_decide_eq_false_2 by congruence; rewrite andb_false_r; [done|].
  destruct (at_path _ _ _ Hc) as (w & _ & _ & Hp). destruct (Hp (c_level c)) as (q & _ & Hpq); [lia|].
  unfold pop_level at 1. step usub_ok by lia. unfold arr_get. step Hpq. rewrite arr_set_Ret by (rewrite (at_len _ _ _ Hc); lia).
  cbn [mbind outcome_bind]. step uadd_ok by (pose proof req_levels; lia).
  set (c1 := mk_cursor _ _ _ _ _). assert (pop_level c1 = Panic) as Hpop.
  { apply pop_above; cbn [c1 c_level guard_level c_path]; [by rewrite Heq|lia|rewrite length_insert; apply (at_len _ _ _ Hc)|].
    intros l Hl4 Hgt. rewrite list_lookup_insert_ne by lia. apply (at_none _ _ _ Hc); lia. }
  assert (c_level c1 <=? guard_level c1 = false) as Hleb by (apply Z.leb_gt; cbn [c1 c_level guard_level]; lia).
  destruct n as [|n]; cbn [jump_loop]; rewrite Hleb; cbn [andb]; rewrite ?Hpop; cbn [mbind outcome_bind];
    by destruct (align_down 64 (c_va c1) (page_size (c_level c1 + 1))).
Qed.

(** Jumping.  [jump] panics on an address that is not a multiple of the page size and reports an address outside of
    the locked range.  From any position before the end of the node that holds the range it moves to
    the given address and keeps the invariant.  A cursor that has run to the end of this node, however, cannot
    jump back: the call panics, although the address is in the range. *)
Theorem cursor_jump_correct st root c va : cursor_ok st root c ->
  (va mod PAGE_SIZE <> 0 -> jump c va = Panic) /\
  (va mod PAGE_SIZE = 0 -> ~ in_range (barrier_va c) va -> jump c va = Ret (inr (InvalidVaddr va), c)) /\
  (va mod PAGE_SIZE = 0 -> in_range (barrier_va c) va ->
   let inside := slot (c_va c) (guard_level c + 1) = slot (r_start (barrier_va c)) (guard_level c + 1) in
   (inside -> exists c', jump c va = Ret (inl tt, c') /\ cursor_ok st root c' /\ c_va c' = va /\ barrier_va c' = barrier_va c) /\
   (~ inside -> jump c va = Panic)).
Proof.
  intros [Hc Hend]. pose proof (at_levels _ _ _ Hc) as [Hl Hg].
  assert (forall v, range_contains (barrier_va c) v = true <-> in_range (barrier_va c) v) as Hcont.
  { intros v. unfold range_contains, in_range. rewrite andb_true_iff, Z.leb_le, Z.ltb_lt. done. }
  unfold jump. split; [|split].
  - intros Hal. by destruct (Z.eqb_spec (va mod PAGE_SIZE) 0).
  - intros -> Hout. rewrite Z.eqb_refl. cbn [rassert mbind outcome_bind].
    destruct (range_contains (barrier_va c) va) eqn:Hr; [|done]. by apply Hcont in Hr.
  - intros Hal Hin. rewrite Hal. cbn [Z.eqb rassert mbind outcome_bind]. rewrite (proj2 (Hcont va) Hin). cbn [negb]. split.
    + intros Hi. destruct (jump_loop_ok st root MAX_NR_LEVELS c va) as (c' & Hj & Hc' & Hva & [_ Hb'] & _); try done;
        [by rewrite base_is_page|lia|]. step Hj. exists c'. split; [done|]. split; [split; [done|]; rewrite Hva, Hb'; destruct Hin; lia|done].
    + intros Hi. by step (jump_loop_depleted st root MAX_NR_LEVELS c va Hc Hin Hi).
Qed.

(** ** Mapping *)

Lemma map_loop_ok root lv n st c : cursor_at st root c -> c_va c < r_end (barrier_va c) -> 1 <= lv <= guard_level c ->
  Z.abs (c_level c - lv) <= Z.of_nat n -> (size st + Z.to_nat (c_level c - lv) <= pool)%nat ->
  exists c' st', map_loop n lv st c = Ret (c', st') /\ cursor_at st' root c' /\ c_va c' = c_va c /\ same_range c c' /\
    c_level c' = lv /\ same_walks st st' root /\ (st' = st \/ leads_nowhere st' root c') /\
    (lv <= c_level c -> leads_nowhere st root c -> leads_nowhere st' root c') /\ (base_pages st root -> base_pages st' root) /\
    (size st' <= size st + Z.to_nat (c_level c - lv))%nat.
Proof.
  revert st c. induction n as [|n IH]; intros st c Hc Hva Hlv Hn Hpool; cbn [map_loop];
    (destruct (Z.eqb_spec (c_level c) lv) as [Heq|Hne]; [exists c, st; split_and!; try done; [by left|lia]|]); [lia|].
  pose proof (at_levels _ _ _ Hc) as [Hl Hg].
  assert (forall st1 c1, cursor_at st1 root c1 -> c_va c1 = c_va c -> same_range c c1 -> same_walks st st1 root ->
    Z.abs (c_level c1 - lv) <= Z.of_nat n -> (size st1 + Z.to_nat (c_level c1 - lv) <= pool)%nat ->
    (st1 = st /\ (lv <= c_level c -> ~ leads_nowhere st root c) \/ (lv <= c_level c1 /\ leads_nowhere st1 root c1)) ->
    (base_pages st root -> base_pages st1 root) -> (size st1 + Z.to_nat (c_level c1 - lv) <= size st + Z.to_nat (c_level c - lv))%nat ->
    exists c' st', map_loop n lv st1 c1 = Ret (c', st') /\ cursor_at st' root c' /\ c_va c' = c_va c /\ same_range c c' /\
      c_level c' = lv /\ same_walks st st' root /\ (st' = st \/ leads_nowhere st' root c') /\
      (lv <= c_level c -> leads_nowhere st root c -> leads_nowhere st' root c') /\ (base_pages st root -> base_pages st' root) /\
      (size st' <= size st + Z.to_nat (c_level c - lv))%nat) as Hgo.
  { intros st1 c1 Hc1 Hva1 [Hg1 Hb1] Hw1 Hn1 Hp1 Hcase Hbp Hgrow.
    destruct (IH st1 c1) as (c' & st' & Hr & Hc' & Hva' & [Hg' Hb'] & Hl' & Hw' & Hno & Hno' & Hbp' & Hsz'); try done; [by rewrite Hva1, Hb1|lia|].
    exists c', st'. split_and!; try done; [congruence|split; congruence|by eapply same_walks_trans| | |by auto|lia].
    - destruct Hcase as [[-> _]|[Hle Hn']]; [done|right; by apply Hno'].
    - intros Hle Hn0. destruct Hcase as [[_ Hn']|[Hle' Hn']]; [by destruct (Hn' Hle)|by apply Hno']. }
  destruct (Z.ltb_spec (c_level c) lv).
  { destruct (pop_level_ok st root c Hc ltac:(lia)) as (c1 & Hpop & Hc1 & Hva1 & Hl1 & Hg1 & Hb1). step Hpop.
    apply Hgo; try done; [lia|lia| |lia]. left. split; [done|lia]. }
  destruct (cur_entry_ok st root c Hc Hva) as (e & nd & Hce & He). step Hce.
  destruct (to_ref_ok st root c e nd Hc He) as (child & Href & Hcase). step Href.
  pose proof He as (_ & _ & Hi & _ & Hps & _).
  destruct Hcase as [Hp|p Hp Hla Hpr|nd' m Hp Hla Hl1 Hback Hm Hlm Hat].
  - step usub_ok by lia. step Hps. rewrite <- Hi.
    destruct (alloc_push_ok st root c e nd Hc Hva He Hp ltac:(lia) ltac:(lia))
      as (pa & c1 & st1 & Hal & Hpush & Hc1 & (Hva1 & Hl1 & Hg1 & Hb1) & Hw1 & Hsz & Hno1 & Hbp1).
    step Hal. step Hpush. apply Hgo; try done; [lia|lia| |lia]. right. split; [lia|done].
  - destruct (split_push_ok st root c e nd Hc Hva He Hp Hla ltac:(lia) ltac:(lia))
      as (pa & e' & c1 & st1 & Hsplit & Hpush & Hc1 & (Hva1 & Hl1 & Hg1 & Hb1) & Hw1 & Hsz & Hno1).
    step Hsplit. step Hpush. apply Hgo; try done; [lia|lia|right; split; [lia|done]| |lia].
    intros Hbp. pose proof (page_level st root c e nd Hbp Hc Hva He Hp Hla). lia.
  - unfold map_branch_pt. step Hback.
    destruct (push_level_ok st root c _ Hc Hva Hl1 Hat) as (c1 & Hpush & Hc1 & Hva1 & Hl1' & Hg1 & Hb1). step Hpush.
    apply Hgo; try done; [lia|lia| |lia]. left. split; [done|]. intros _ Hn0. specialize (Hn0 e nd He). by rewrite Hp, Hla in Hn0.
Qed.

(** *** Writing at the cursor *)

(** The addresses that the page table distinguishes from one another. *)
Definition same_window (va1 va2 : Z) : Prop := slot va1 (NR_LEVELS + 1) = slot va2 (NR_LEVELS + 1).

(** Exactly the translations of a range change, to the given ones. *)
Definition updates st st' root (r : range) (new : Z -> outcome (option (Z * PageProperty))) : Prop :=
  forall va, 0 <= va -> same_window va (r_start r) ->
    page_walk st' root va = if decide (in_range r va) then new va else page_walk st root va.

Lemma barrier_window st root c x y : cursor_at st root c -> in_range (barrier_va c) x -> in_range (barrier_va c) y -> same_window x y.
Proof.
  intros Hc Hx Hy. pose proof (at_levels _ _ _ Hc) as [Hl Hg]. pose proof (at_barrier _ _ _ Hc) as Hb. pose proof Hb as ([Hb0 _] & _).
  destruct Hx as [Hx0 Hx1], Hy as [Hy0 Hy1]. apply (slot_above _ _ (guard_level c + 1)); [lia|lia|].
  by rewrite (barrier_slot c x), (barrier_slot c y) by (done || lia).
Qed.

Lemma updates_empty st root lo new : updates st st root (mk_range lo lo) new.
Proof. intros va _ _. rewrite decide_False; [done|]. unfold in_range. cbn. lia. Qed.

(** Two updates of adjacent ranges. *)
Lemma updates_append st st1 st2 root lo mid hi new1 new2 : lo <= mid <= hi -> same_window lo mid ->
  updates st st1 root (mk_range lo mid) new1 -> updates st1 st2 root (mk_range mid hi) new2 ->
  updates st st2 root (mk_range lo hi) (fun va => if va <? mid then new1 va else new2 va).
Proof.
  intros Hm Hw Hu1 Hu2 va Hva Hwin. cbn [r_start] in Hwin. rewrite Hu2 by (done || exact (eq_trans Hwin Hw)). rewrite Hu1 by done.
  unfold in_range. cbn [r_start r_end]. destruct (Z.ltb_spec va mid); repeat case_decide; done || lia.
Qed.

Lemma entry_addresses st root c e n va : cursor_at st root c -> stands_at st root c e n -> 0 <= va -> same_window va (c_va c) ->
  (node_at st root (depth (c_level c)) va = Some (node e) /\ Z.to_nat (pte_index va (c_level c)) = idx e) <->
  in_range (cur_range c) va.
Proof.
  intros Hc (_ & _ & Hi & Hq & _) Hva Hw. pose proof (at_levels _ _ _ Hc) as [Hl Hg].
  pose proof (at_va _ _ _ Hc) as [[Hlo _] _]. pose proof (at_barrier _ _ _ Hc) as ([Hb0 _] & _).
  rewrite cur_range_slot by lia.
  rewrite (node_at_slot st root _ (c_va c) va (node e) (at_tree _ _ _ Hc) ltac:(lia) Hva (eq_sym Hw) Hq).
  replace (NR_LEVELS - Z.of_nat (depth (c_level c))) with (c_level c) by (unfold depth; lia). rewrite Hi.
  destruct (index_digits va (c_level c)) as [Hd _]; [lia|lia|]. destruct (index_digits (c_va c) (c_level c)) as [Hd' _]; [lia|lia|].
  split.
  - intros [Hs Hx]. apply slot_below; [lia|lia|lia|done|lia].
  - intros Hs. split; [apply (slot_above _ _ (c_level c)); done || lia|].
    f_equal. apply (slot_index_eq va (c_va c) (c_level c)); done || lia.
Qed.

Lemma cur_window st root c : cursor_at st root c -> same_window (slot_lo c) (c_va c).
Proof.
  intros Hc. pose proof (at_levels _ _ _ Hc) as [Hl Hg]. know (page_size_pos (c_level c)) as Hp.
  apply (slot_above _ _ (c_level c)); [lia|lia|]. unfold slot_lo, slot at 1. by rewrite Z.div_mul by lia.
Qed.

Lemma write_leaf_ok st root c e n e1 : cursor_at st root c -> c_va c < r_end (barrier_va c) -> stands_at st root c e n ->
  pte_ok st (c_level c) e1 -> is_present e1 && negb (is_last e1 (c_level c)) = false ->
  let st' := set_entry st (node e) n (idx e) e1 in
  cursor_at st' root c /\ updates st st' root (cur_range c) (pte_walk st (c_level c) e1) /\
  (base_pages st root -> (is_present e1 = true -> c_level c = 1) -> base_pages st' root).
Proof.
  intros Hc Hva He He1 Hleaf st'. pose proof He as ((Hn & _ & Hu) & Hlv & _). pose proof (at_tree _ _ _ Hc) as Ht.
  pose proof (at_levels _ _ _ Hc) as [Hl Hg].
  assert (level (meta n) = NR_LEVELS - Z.of_nat (depth (c_level c))) as Hk by (unfold depth; lia).
  rewrite <- Hlv in He1, Hleaf. split_and!.
  - apply (cursor_at_store st st' root c Hc Hva).
    + by apply (write_leaf_tree base_is_page st root (node e) n (idx e) (depth (c_level c)) e1).
    + intros l Hll. apply (write_at_high st root (node e) n (idx e) (depth (c_level c)) e1 Ht Hn Hk). unfold depth. lia.
  - intros va Hv Hw. cbn in Hw. unfold same_window in Hw. rewrite (cur_window st root c Hc) in Hw.
    pose proof (entry_addresses st root c e n va Hc He Hv Hw) as Hiff.
    unfold st'. rewrite (write_walk debug_assertions base_is_page st root (node e) n (idx e) (depth (c_level c)) e1 Ht Hn Hk Hu He1 va Hv).
    rewrite Hlv in *. destruct (decide (in_range _ _)), (decide (_ /\ _)); try done; tauto.
  - rewrite <- Hlv. intros Hb Hlow. by apply (write_leaf_pages base_is_page st root (node e) n (idx e) (depth (c_level c)) e1).
Qed.

(** The tables, and not the locks and stray marks, decide where a cursor can stand. *)
Lemma cursor_at_same st st' root c : same_tables st st' -> cursor_at st root c -> cursor_at st' root c.
Proof.
  intros Hs [Ht Hl Hb Hv Hlen (w & Hw & Hsl & Hp) Hnone]. split; try done; [by eapply tree_ok_same|].
  exists w. split; [done|]. split; [done|]. intros l Hll. destruct (Hp l Hll) as (q & Hq & Hpq). exists q. split; [|done].
  unfold node_at in *. by rewrite <- Hs.
Qed.

Lemma updates_same st st1 st2 root r new : same_tables st1 st2 -> updates st st1 root r new -> updates st st2 root r new.
Proof. intros Hs Hu va Hva Hw. rewrite <- (Hu va Hva Hw). symmetry. by apply page_walk_same. Qed.

(** What a fragment that is taken out of the page table [st] at the address [va] and the level [lv] tells about
    its translations; [st'] is the store afterwards. *)
Definition taken st st' root va (lv : Z) (frag : option (PageTableFrag Item)) : Prop :=
  let r := mk_range va (va + page_size lv) in
  match frag with
  | None => maps_to st root r None
  | Some (Mapped va' item) => va' = va /\ exists pa p, item = item_from_raw pa lv p /\ maps_to st root r (Some (pa, p))
  | Some (StrayPageTable pt va' len num_frames) => va' = va /\ len = page_size lv /\
      node_at st root (depth (lv - 1)) va = Some pt /\
      (forall q, below st (lv - 1) pt q -> marked st' q) /\ 0 <= num_frames /\ num_frames * BASE_PAGE_SIZE <= len
  end.

Lemma taken_table st st' root c e n m e1 num : cursor_at st root c -> stands_at st root c e n ->
  1 < c_level c -> st !! paddr (pte e) = Some m -> level (meta m) = c_level c - 1 ->
  node_at st root (depth (c_level c - 1)) (c_va c) = Some (paddr (pte e)) ->
  dfs_post (set_entry st (node e) n (idx e) e1) (c_level c - 1) (paddr (pte e)) (Ret (num, st')) ->
  taken st st' root (c_va c) (c_level c) (Some (StrayPageTable (paddr (pte e)) (c_va c) (page_size (c_level c)) num)).
Proof.
  intros Hc ((Hn & _ & Hu) & Hlv & _) Hl Hm Hlm Hat (num' & st'' & [= <- <-] & _ & _ & Hmk & Hnum & Hb).
  replace (c_level c - 1 + 1) with (c_level c) in Hb by lia. split_and!; try done.
  intros q Hbel. apply Hmk. apply (below_low st _ _ _ m); try done; [apply (tree_store _ _ (at_tree _ _ _ Hc))|].
  intros r n' Hr Hle. unfold set_entry. rewrite lookup_insert_ne; [done|]. intros <-. assert (n' = n) as -> by congruence. lia.
Qed.

Lemma replace_cur_ok st root c e n child : cursor_at st root c -> c_va c < r_end (barrier_va c) -> stands_at st root c e n ->
  child_ok st (c_level c) child -> (forall nd, child <> PageTable nd) -> slot_lo c = c_va c ->
  (is_present (pte e) = true -> is_last (pte e) (c_level c) = false -> TOP_LEVEL_CAN_UNMAP = true \/ c_level c <> NR_LEVELS) ->
  exists frag st', replace_cur_entry st c child = Ret (frag, st') /\ cursor_at st' root c /\
    updates st st' root (cur_range c) (child_walk debug_assertions st (c_level c) child) /\
    taken st st' root (c_va c) (c_level c) frag /\ (is_present (pte e) = true -> frag <> None) /\
    (forall va item, frag = Some (Mapped va item) -> is_present (pte e) = true /\ is_last (pte e) (c_level c) = true) /\
    size st' = size st /\ (base_pages st root -> (child = ChildNone \/ c_level c = 1) -> base_pages st' root).
Proof.
  intros Hc Hva He Hch Hleaf Hlo Htop. pose proof He as (Hent & Hlv & Hi & _ & Hps & _). pose proof (at_levels _ _ _ Hc) as [Hl Hg].
  rewrite <- Hlv in Hch.
  destruct (replace_spec allow_panic debug_assertions base_is_page st e n child (tree_store _ _ (at_tree _ _ _ Hc)) Hent Hch)
    as (old & e1 & Hold & _ & Hok1 & Hp1 & Hf1 & Hw & _ & Hrc).
  rewrite Hlv in *. set (st1 := set_entry st (node e) n (idx e) e1) in *.
  assert (is_present e1 && negb (is_last e1 (c_level c)) = false) as Hl1.
  { unfold from_pte in Hf1. destruct (is_present e1); [|done]. cbn [negb andb] in *. destruct (is_last e1 (c_level c)); [done|]. cbn [negb] in Hf1.
    destruct (frame_to_meta (paddr e1)); [|done]. cbn in Hf1. injection Hf1 as <-. exfalso. by eapply Hleaf. }
  destruct (write_leaf_ok st root c e n e1 Hc Hva He Hok1 Hl1) as (Hc1 & Hu1 & Hb1). fold st1 in Hc1, Hu1.
  assert (updates st st1 root (cur_range c) (child_walk debug_assertions st (c_level c) child)) as Hu.
  { intros va Hv Hwin. rewrite Hu1 by done. destruct (decide _); [apply Hw|done]. }
  assert (size st1 = size st /\ (base_pages st root -> (child = ChildNone \/ c_level c = 1) -> base_pages st1 root)) as [Hsz Hbp].
  { pose proof Hent as [Hn _]. split; [unfold st1, set_entry; apply map_size_insert_Some; eauto|]. intros Hb Hcl. apply Hb1; [done|].
    intros Hp. destruct Hcl as [->|]; [|done]. by rewrite Hp in Hp1. }
  unfold replace_cur_entry. step usub_ok by lia. step Hps. rewrite <- Hi. step Hrc.
  destruct (to_ref_ok st root c e n Hc He) as (ch & Href & Hcase). destruct (cur_maps st root c e n Hc He) as [Hm0 Hm1].
  unfold cur_range, slot_hi in Hm0, Hm1. rewrite Hlo in Hm0, Hm1. unfold from_pte in Hold. destruct Hcase as [Hp|p Hp Hla Hpr|nd m Hp Hla Hgt Hback Hm Hlm Hat].
  - rewrite Hp in Hold. injection Hold as <-. exists None, st1. split_and!; try done; [by apply Hm0|congruence].
  - rewrite Hp, Hla, Hpr in Hold. cbn in Hold. injection Hold as <-. exists (Some (Mapped (c_va c) (item_from_raw (paddr (pte e)) (c_level c) p))), st1.
    split_and!; try done. split; [done|]. exists (paddr (pte e)), p. split; [done|]. by apply Hm1.
  - destruct (frame_meta_frame _ (proj1 (tree_store _ _ (at_tree _ _ _ Hc) _ _ Hm))) as (nd' & Hnd & _ & _ & Hback').
    rewrite Hp, Hla, Hnd in Hold. injection Hold as <-.
    assert (negb TOP_LEVEL_CAN_UNMAP && (c_level c =? NR_LEVELS) = false) as ->.
    { destruct (Htop Hp Hla) as [->|]; [done|]. destruct (Z.eqb_spec (c_level c) NR_LEVELS); [done|]. by rewrite andb_false_r. }
    step Hback'. pose proof Hent as [Hn _].
    assert (st1 !! paddr (pte e) = Some m) as Hm'. { unfold st1, set_entry. rewrite lookup_insert_ne; [done|]. intros Heq. rewrite Heq in Hn. assert (n = m) by congruence. subst. lia. }
    pose proof (dfs_ok allow_panic base_is_page (Z.to_nat NR_LEVELS) st1 (paddr (pte e)) m (tree_store _ _ (at_tree _ _ _ Hc1)) Hm' ltac:(lia)) as Hdfs.
    rewrite Hlm in Hdfs. pose proof Hdfs as (num & st' & Hr & Hs & _). rewrite Hr in *. cbn [mbind outcome_bind].
    eexists _, st'. split; [done|]. split; [by eapply cursor_at_same|]. split; [by eapply updates_same|].
    split; [by apply (taken_table st st' root c e n m e1 num)|]. split_and!; try done; [by rewrite (same_tables_size st1)|].
    intros Hb Hcl. eapply base_pages_same; [done|by apply Hbp].
Qed.

(** A page table with the same translations whose entry at the cursor is not a table of its own. *)
Lemma taken_walks st st1 st' root c frag : cursor_at st1 root c -> same_walks st st1 root ->
  (st1 = st \/ leads_nowhere st1 root c) -> c_va c < r_end (barrier_va c) ->
  taken st1 st' root (c_va c) (c_level c) frag -> taken st st' root (c_va c) (c_level c) frag.
Proof.
  intros Hc Hw [->|Hno] Hva Ht; [done|]. pose proof (at_levels _ _ _ Hc) as [Hl Hg].
  assert (0 <= c_va c) as Hv0. { pose proof (at_va _ _ _ Hc) as [[? _] _]. pose proof (at_barrier _ _ _ Hc) as ([? _] & _). lia. }
  assert (forall o, let r := mk_range (c_va c) (c_va c + page_size (c_level c)) in maps_to st1 root r o -> maps_to st root r o) as Hm.
  { intros o r Hm va Hr. rewrite <- (Hm va Hr). symmetry. apply Hw. destruct Hr as [Hr _]. cbn in Hr. lia. }
  destruct frag as [[va item|pt va len num]|]; cbn in Ht |- *.
  - destruct Ht as (-> & pa & p & -> & Hmap). split; [done|]. exists pa, p. split; [done|]. by apply Hm.
  - exfalso. destruct Ht as (_ & _ & Hat & _). destruct (cur_entry_ok st1 root c Hc Hva) as (e & n & _ & He).
    unfold node_at in Hat. replace (depth (c_level c - 1)) with (S (depth (c_level c))) in Hat by (unfold depth; lia).
    apply descend_step in Hat as (q & n' & e' & Hq & Hn' & He' & Hp & Hla & _).
    replace (NR_LEVELS - Z.of_nat (depth (c_level c))) with (c_level c) in * by (unfold depth; lia).
    specialize (Hno e n He). pose proof He as ((Hn & Hpe & _) & _ & Hi & Hat & _). unfold node_at in Hat. rewrite Hat in Hq. injection Hq as <-.
    assert (n' = n) as -> by congruence. rewrite Hi, He' in Hpe. injection Hpe as ->. by rewrite Hp, Hla in Hno.
  - by apply Hm.
Qed.

Lemma updates_walks st st1 st2 root r new : same_walks st st1 root -> updates st1 st2 root r new -> updates st st2 root r new.
Proof. intros Hw Hu va Hva Hwin. rewrite (Hu va Hva Hwin). destruct (decide _); [done|]. by apply Hw. Qed.

Lemma updates_ext st st' root r new new' : (forall va, in_range r va -> new va = new' va) ->
  updates st st' root r new -> updates st st' root r new'.
Proof. intros He Hu va Hva Hwin. rewrite (Hu va Hva Hwin). destruct (decide _); [by apply He|done]. Qed.

(** The last steps of an operation: the entry at the cursor is written, and the cursor goes on behind it. *)
Lemma cursor_done st root c : cursor_at st root c -> c_va c < r_end (barrier_va c) -> slot_hi c <= r_end (barrier_va c) ->
  exists c', move_forward c = Ret c' /\ cursor_ok st root c' /\ c_va c' = slot_hi c /\ barrier_va c' = barrier_va c.
Proof.
  intros Hc Hva Hhi. destruct (move_forward_ok st root c Hc Hva) as (c' & Hmv & Hc' & Hva' & Hg' & Hb' & _).
  exists c'. split; [done|]. split; [|done]. split; [done|]. by rewrite Hva', Hb'.
Qed.

Context `{!PageTableConfigLaws E}.

Lemma frame_child_ok st item pa lv p : item_ok item -> item_into_raw item = (pa, lv, p) -> lv <= HIGHEST_TRANSLATION_LEVEL ->
  child_ok st lv (Frame pa lv p).
Proof. intros Hi Hr Hh. destruct (item_raw_law item pa lv p Hi Hr) as (? & ? & ? & ? & ? & _). by split_and!. Qed.

Definition map_allowed c (lv : Z) : Prop :=
  c_va c < r_end (barrier_va c) /\ lv <= HIGHEST_TRANSLATION_LEVEL /\ lv <= guard_level c /\
  c_va c mod page_size lv = 0 /\ page_size lv <= r_end (barrier_va c) - c_va c.

(** What [map] returns: the item is mapped, and what has been there before is handed out. *)
Definition map_post st root c (pa lv : Z) (p : PageProperty) (r : (unit + PageTableFrag Item) * Cursor * pt_store E) : Prop :=
  let '(res, c', st') := r in
  cursor_ok st' root c' /\ barrier_va c' = barrier_va c /\ c_va c' = c_va c + page_size lv /\
  updates st st' root (mk_range (c_va c) (c_va c + page_size lv)) (fun va => Ret (Some (pa + (va - c_va c), p))) /\
  taken st st' root (c_va c) lv (match res with inl _ => None | inr f => Some f end) /\
  (base_pages st root -> lv = 1 -> base_pages st' root) /\ (size st' < size st + Z.to_nat NR_LEVELS)%nat.

Section map.
Context st root c item pa lv p (Hok : cursor_ok st root c) (Hitem : item_ok item) (Hraw : item_into_raw item = (pa, lv, p)).

Lemma map_refused : ~ map_allowed c lv -> map st c item = Panic.
Proof.
  intros Hno. destruct Hok as [_ Hend]. unfold map. rewrite Hraw.
  destruct (Z.ltb_spec (c_va c) (r_end (barrier_va c))); [|done]. cbn [rassert mbind outcome_bind].
  destruct (Z.leb_spec lv HIGHEST_TRANSLATION_LEVEL); [|done]. destruct (Z.leb_spec lv (guard_level c)); [|done]. cbn [andb rassert mbind outcome_bind].
  destruct (Z.eqb_spec (c_va c mod page_size lv) 0); [|done]. cbn [rassert mbind outcome_bind]. step usub_ok by lia.
  destruct (Z.leb_spec (page_size lv) (r_end (barrier_va c) - c_va c)); [|done]. exfalso. apply Hno. by split_and!.
Qed.

Lemma map_ok : map_allowed c lv -> (size st + Z.to_nat NR_LEVELS <= S pool)%nat -> TOP_LEVEL_CAN_UNMAP = true \/ lv <> NR_LEVELS ->
  exists r, map st c item = Ret r /\ map_post st root c pa lv p r.
Proof.
  intros (Hva & Hh & Hlg & Hal & Hfit) Hpool Htop. destruct Hok as [Hc _]. pose proof (at_levels _ _ _ Hc) as [Hl Hg].
  destruct (item_raw_law item pa lv p Hitem Hraw) as (Hlv & _). know (page_size_pos lv) as Hps. unfold map. rewrite Hraw.
  rewrite (proj2 (Z.ltb_lt _ _) Hva), (proj2 (Z.leb_le _ _) Hh), (proj2 (Z.leb_le _ _) Hlg), Hal.
  cbn [andb Z.eqb rassert mbind outcome_bind]. step usub_ok by lia. rewrite (proj2 (Z.leb_le _ _) Hfit). cbn [rassert mbind outcome_bind].
  destruct (map_loop_ok root lv MAX_NR_LEVELS st c Hc Hva) as (c1 & st1 & Hloop & Hc1 & Hva1 & [Hg1 Hb1] & Hl1 & Hw1 & Hno1 & _ & Hbp1 & Hsz1); [lia|lia|lia|].
  step Hloop. assert (c_va c1 < r_end (barrier_va c1)) as Hlt1 by (by rewrite Hva1, Hb1).
  assert (slot_lo c1 = c_va c1) as Hlo by (unfold slot_lo; rewrite Hl1, Hva1; apply slot_start; [lia|done]).
  destruct (cur_entry_ok st1 root c1 Hc1 Hlt1) as (e & n & _ & He).
  destruct (replace_cur_ok st1 root c1 e n (Frame pa lv p) Hc1 Hlt1 He) as (frag & st' & Hrep & Hc' & Hu & Htk & _ & _ & Hsz' & Hbp'); try done;
    [rewrite Hl1; by eapply frame_child_ok|by rewrite Hl1|]. step Hrep.
  assert (slot_hi c1 = c_va c + page_size lv) as Hhi by (unfold slot_hi; rewrite Hlo, Hva1, Hl1; lia).
  destruct (cursor_done st' root c1 Hc' Hlt1) as (c' & Hmv & Hok' & Hva' & Hb'); [rewrite Hhi, Hb1; lia|]. step Hmv.
  apply (taken_walks st) in Htk; try done. rewrite Hva1, Hl1 in Htk.
  eexists (_, c', st'). split; [done|]. split; [done|]. split; [congruence|]. split; [congruence|].
  split; [|split; [by destruct frag|split; [intros Hb ?; apply Hbp'; [by apply Hbp1|right; congruence]|lia]]].
  apply (updates_walks _ _ _ _ _ _ Hw1). unfold cur_range in Hu. rewrite Hlo, Hhi, Hva1, Hl1 in Hu. revert Hu. apply updates_ext.
  intros va [Hr1 Hr2]. cbn in Hr1, Hr2 |- *. do 4 f_equal.
  know (Z.div_mod (c_va c) (page_size lv)) as Hdm. symmetry. apply (Z.mod_unique_pos _ _ (c_va c / page_size lv)); lia.
Qed.
End map.

(** C4: mapping.  [map] panics when the cursor is at the end of its range, when the item is larger than a page table of
    the locked subtree or than a page that the hardware supports, when the address is not aligned to the size of
    the item or when the item reaches behind the range.  Otherwise, with frames left for the missing tables
    and no need to remove a table of the top level that must stay, the addresses of the item translate to
    it and no other translation of the page table changes, whatever tables and huge pages are on the way;
    what has been there before is returned, a removed subtree with all of its nodes marked as stray; and the
    cursor goes on behind the item. *)
Theorem cursor_map_correct st root c item pa lv p : cursor_ok st root c -> item_ok item -> item_into_raw item = (pa, lv, p) ->
  (size st + Z.to_nat NR_LEVELS <= S pool)%nat -> TOP_LEVEL_CAN_UNMAP = true \/ lv <> NR_LEVELS ->
  (~ map_allowed c lv -> map st c item = Panic) /\
  (map_allowed c lv -> exists r, map st c item = Ret r /\ map_post st root c pa lv p r).
Proof. intros Hok Hi Hraw Hpool Htop. split; intros Ha; [by eapply map_refused|by eapply map_ok]. Qed.

(** ** Unmapping and protecting *)

(** The length of a search is a multiple of the page size and stays in the range. *)
Definition search_allowed c (len : Z) : Prop := len mod BASE_PAGE_SIZE = 0 /\ len <= r_end (barrier_va c) - c_va c.

Lemma find_refused st root c len fu sh : cursor_ok st root c -> ~ search_allowed c len -> find_next_impl st c len fu sh = Panic.
Proof.
  intros [_ Hend] Hno. unfold find_next_impl. destruct (Z.eqb_spec (len mod BASE_PAGE_SIZE) 0); [|done]. cbn [rassert mbind outcome_bind].
  step usub_ok by lia. destruct (Z.leb_spec len (r_end (barrier_va c) - c_va c)); [|done]. exfalso. by apply Hno.
Qed.

(** What [take_next] returns. *)
Definition take_post st root c (len : Z) (r : option (PageTableFrag Item) * Cursor * pt_store E) : Prop :=
  let '(frag, c', st') := r in
  cursor_ok st' root c' /\ barrier_va c' = barrier_va c /\
  match frag with
  | None => st' = st /\ c_va c + len <= c_va c' /\ unmapped st root (c_va c) (c_va c + len)
  | Some _ => exists va lv, c_va c <= va /\ 1 <= lv <= NR_LEVELS /\ va + page_size lv <= c_va c + len /\
      c_va c' = va + page_size lv /\ unmapped st root (c_va c) va /\
      updates st st' root (mk_range va (va + page_size lv)) (fun _ => Ret None) /\ taken st st' root va lv frag /\
      (base_pages st root -> base_pages st' root /\ size st' = size st /\ forall va' item, frag = Some (Mapped va' item) -> lv = 1)
  end.

Lemma take_next_ok st root c len : cursor_ok st root c -> 0 <= len -> (size st + Z.to_nat NR_LEVELS <= S pool)%nat ->
  search_allowed c len -> exists r, take_next st c len = Ret r /\ take_post st root c len r.
Proof.
  intros Hok Hlen Hpool [Hal Hrem]. unfold take_next. destruct (find_impl_ok st root c len true true Hok Hal Hlen Hrem Hpool) as (found & c1 & st1 & Hr & Hpost & Hle).
  step Hr. destruct Hpost as (Hc1 & [Hg1 Hb1] & Hva1 & Hw1 & Hun & _ & Hf). destruct found as [va|].
  2: { destruct Hf as [Hge ->]. exists (None, c1, st). split; [done|]. split; [split; [done|by rewrite Hb1]|]. split_and!; try done.
       intros va ?. apply Hun. lia. }
  destruct Hf as (-> & [Hlt (e & n & He & Hp & Hfit)] & Hno1 & Hbp1).
  assert (slot_lo c1 = c_va c1 /\ slot_hi c1 <= c_va c + len /\
    (is_last (pte e) (c_level c1) = false -> TOP_LEVEL_CAN_UNMAP = true \/ c_level c1 <> NR_LEVELS)) as (Hlo & Hhi & Htop).
  { destruct (is_last (pte e) (c_level c1)); [destruct (Hfit eq_refl); done|]. destruct Hfit as (_ & ? & ? & ?). done. }
  assert (c_va c1 < r_end (barrier_va c1)) as Hlt1 by (rewrite Hb1; lia).
  destruct (replace_cur_ok st1 root c1 e n ChildNone Hc1 Hlt1 He) as (frag & st' & Hrep & Hc' & Hu & Htk & Hsome & Hmp & Hsz & Hbp); try done.
  step Hrep. destruct (cursor_done st' root c1 Hc' Hlt1) as (c' & Hmv & Hok' & Hva' & Hb'); [rewrite Hb1; lia|]. step Hmv.
  exists (frag, c', st'). split; [done|]. split; [done|]. split; [congruence|]. specialize (Hsome Hp). destruct frag as [f|]; [|done].
  apply (taken_walks st) in Htk; try done. exists (c_va c1), (c_level c1). unfold cur_range, slot_hi in *. rewrite Hlo in *.
  pose proof (at_levels _ _ _ Hc1) as [Hl1 Hl2]. split; [done|]. split; [lia|]. split_and!; try done.
  - by apply (updates_walks _ _ _ _ _ _ Hw1).
  - intros Hb. destruct Hbp1 as [->|]; [|done]. split_and!; [by apply Hbp; [|left]|done|]. intros va' item [Hpe Hla]%Hmp.
    by apply (page_level st root c1 e n).
Qed.

(** C5: unmapping.  [take_next] panics as [find_next] does.  Otherwise it either reports that the whole range is unmapped
    and changes nothing, or takes out the first fragment of the range: all addresses before it are unmapped, its own
    become so, no other translation of the page table changes, and the fragment describes what has been
    there, a removed subtree with all of its nodes marked as stray. *)
Theorem cursor_take_next_correct st root c len : cursor_ok st root c -> 0 <= len -> (size st + Z.to_nat NR_LEVELS <= S pool)%nat ->
  (~ search_allowed c len -> take_next st c len = Panic) /\
  (search_allowed c len -> exists r, take_next st c len = Ret r /\ take_post st root c len r).
Proof.
  intros Hok Hlen Hpool. split; [|by apply take_next_ok].
  intros Hno. unfold take_next. by step (find_refused st root c len true true Hok Hno).
Qed.

(** What [protect_next] returns. *)
Definition protect_post st root c (len : Z) (op : PageProperty -> PageProperty) (r : option range * Cursor * pt_store E) : Prop :=
  let '(res, c', st') := r in
  cursor_ok st' root c' /\ barrier_va c' = barrier_va c /\
  match res with
  | None => st' = st /\ c_va c + len <= c_va c' /\ unmapped st root (c_va c) (c_va c + len)
  | Some r => c_va c <= r_start r < r_end r /\ r_end r <= c_va c + len /\ c_va c' = r_end r /\
      unmapped st root (c_va c) (r_start r) /\
      exists pa p, maps_to st root r (Some (pa, p)) /\ updates st st' root r (fun va => Ret (Some (pa + (va - r_start r), op p)))
  end.

Lemma protect_next_ok st root c len op : cursor_ok st root c -> 0 <= len -> (size st + Z.to_nat NR_LEVELS <= S pool)%nat ->
  (forall p, prop_req p -> prop_req (op p)) -> search_allowed c len ->
  exists r, protect_next st c len op = Ret r /\ protect_post st root c len op r.
Proof.
  intros Hok Hlen Hpool Hop [Hal Hrem]. unfold protect_next. destruct (find_impl_ok st root c len false true Hok Hal Hlen Hrem Hpool) as (found & c1 & st1 & Hr & Hpost & Hle).
  step Hr. destruct Hpost as (Hc1 & [Hg1 Hb1] & Hva1 & Hw1 & Hun & _ & Hf). destruct found as [va|].
  2: { destruct Hf as [Hge ->]. exists (None, c1, st). split; [done|]. split; [split; [done|by rewrite Hb1]|]. split_and!; try done.
       intros va ?. apply Hun. lia. }
  destruct Hf as (-> & [Hlt (e & n & He & Hp & Hfit)] & _).
  destruct (is_last (pte e) (c_level c1)) eqn:Hla; [|by destruct Hfit]. destruct (Hfit eq_refl) as [Hlo Hhi].
  assert (c_va c1 < r_end (barrier_va c1)) as Hlt1 by (rewrite Hb1; lia). pose proof He as (Hent & Hlv & Hi & _ & Hps & [_ Hokp]).
  pose proof (at_levels _ _ _ Hc1) as [Hl1 Hl2]. specialize (Hokp Hp). rewrite Hla in Hokp. destruct Hokp as (_ & _ & _ & _ & p & Hpr & Hreq).
  rewrite <- Hlv in Hla.
  destruct (protect_spec base_is_page st1 e n op p (tree_store _ _ (at_tree _ _ _ Hc1)) Hent Hp Hla Hpr (Hop p Hreq))
    as (e1 & Hpc & Hok1 & Hp1 & Hla1 & Hpr1 & Hpa1). rewrite Hlv in *.
  destruct (write_leaf_ok st1 root c1 e n e1 Hc1 Hlt1 He Hok1) as (Hc' & Hu & _); [by rewrite Hp1, Hla1|].
  unfold protect_cur_entry. step usub_ok by lia. step Hps. rewrite <- Hi. step Hpc. step (cur_va_range_ok _ root c1 Hc' Hlt1).
  destruct (cursor_done _ root c1 Hc' Hlt1) as (c' & Hmv & Hok' & Hva' & Hb'); [rewrite Hb1; lia|]. step Hmv.
  eexists (_, c', _). split; [done|]. split; [done|]. split; [congruence|]. cbn [r_start r_end].
  pose proof (slot_lo_nonneg _ _ _ Hc1) as Hlo0. know (page_size_pos (c_level c1)) as Hps0.
  split_and!; try done; [lia|unfold slot_hi; lia|by rewrite Hlo|]. exists (paddr (pte e)), p. split.
  - intros va Hr2. etransitivity; [|exact (proj2 (cur_maps st1 root c1 e n Hc1 He) p Hp Hla Hpr va Hr2)].
    symmetry. apply Hw1. destruct Hr2 as [Hr2 _]. cbn in Hr2. lia.
  - apply (updates_walks _ _ _ _ _ _ Hw1). revert Hu. apply updates_ext. intros va Hr2. unfold PtNode.pte_walk. rewrite Hp1, Hla1, Hpr1, Hpa1. cbn.
    pose proof (slot_bounds (c_va c1) (c_level c1)). destruct Hr2 as [Hr1 Hr2]. cbn in Hr1, Hr2. unfold slot_hi in Hr2. do 4 f_equal.
    symmetry. apply (Z.mod_unique_pos _ _ (slot (c_va c1) (c_level c1))); unfold slot_lo in *; lia.
Qed.

(** Protecting.  [protect_next] panics as [find_next] does.  Otherwise it either reports that the whole range is
    unmapped and changes nothing, or protects the first page of the range (a huge page that is not inside of the range
    is split before): the addresses before it are unmapped, its own keep their physical addresses and
    get the new property, and no other translation changes. *)
Theorem cursor_protect_next_correct st root c len op : cursor_ok st root c -> 0 <= len ->
  (size st + Z.to_nat NR_LEVELS <= S pool)%nat -> (forall p, prop_req p -> prop_req (op p)) ->
  (~ search_allowed c len -> protect_next st c len op = Panic) /\
  (search_allowed c len -> exists r, protect_next st c len op = Ret r /\ protect_post st root c len op r).
Proof.
  intros Hok Hlen Hpool Hop. split; [|by apply protect_next_ok].
  intros Hno. unfold protect_next. by step (find_refused st root c len false true Hok Hno).
Qed.

End cursor.
