(* ===== verification/PtConfig.v ===== *)
(** * The page table configurations ([KernelPtConfig] of [ostd/src/mm/kspace/mod.rs], [UserPtConfig] of [ostd/src/mm/vm_space.rs])

    The items that the kernel and the user page tables of x86-64 map, and their
    raw forms.  A frame handle is given by the address of its frame:
    [FrameMeta] shows that the address of a frame and that of its metadata slot
    determine one another.  The debug assertions of the conversions are the
    [_checked] versions.  The module [Cursor86] applies the theorems about the
    cursor to user page tables of x86-64, with an allocator that hands out
    a list of frames. *)

From S2P Require Import Prelude Agents AlignExt Bitflags Paging FrameMeta PageProp Pte PteX86 PtChild PtNode PtTree PtStray PtCursor.
Open Scope Z_scope.

(** [Frame::map_level]. *)
Definition map_level : Z := 1.

Module UserPt.
Record MappedItem := mk_item { frame : Z; item_prop : PageProperty }.

Definition user_into_raw (item : MappedItem) : Z * Z * PageProperty := (frame item, map_level, item_prop item).
Definition user_from_raw (paddr level : Z) (prop : PageProperty) : MappedItem := mk_item paddr prop.

Definition UserPtConfig : PageTableConfig := {|
  Item := MappedItem;
  TOP_LEVEL_INDEX_RANGE := mk_range 0 256;
  TOP_LEVEL_CAN_UNMAP := true;
  item_into_raw := user_into_raw;
  item_from_raw := user_from_raw;
|}.
End UserPt.

Module KernelPt.
Inductive MappedItem :=
| Tracked (frame : Z) (prop : PageProperty)
| Untracked (pa level : Z) (prop : PageProperty).

Definition with_flags (p : PageProperty) (f : flags) : PageProperty := mk_prop f (cache p) (priv_flags p).

Definition kernel_into_raw (item : MappedItem) : Z * Z * PageProperty :=
  match item with
  | Tracked frame prop => (frame, map_level, with_flags prop (union (pflags prop) PageFlags.AVAIL1))
  | Untracked pa level prop => (pa, level, with_flags prop (difference 8 (pflags prop) PageFlags.AVAIL1))
  end.

Definition kernel_from_raw (paddr level : Z) (prop : PageProperty) : MappedItem :=
  if contains (pflags prop) PageFlags.AVAIL1
  then Tracked paddr (with_flags prop (difference 8 (pflags prop) PageFlags.AVAIL1))
  else Untracked paddr level prop.

Definition kernel_into_raw_checked (debug_assertions : bool) (item : MappedItem) : outcome (Z * Z * PageProperty) :=
  let prop := match item with Tracked _ p | Untracked _ _ p => p end in
  _ ← debug_assert debug_assertions (Ret (negb (contains (pflags prop) PageFlags.AVAIL1)));
  Ret (kernel_into_raw item).

Definition kernel_from_raw_checked (debug_assertions : bool) (paddr level : Z) (prop : PageProperty) : outcome MappedItem :=
  if contains (pflags prop) PageFlags.AVAIL1
  then _ ← debug_assert debug_assertions (Ret (level =? 1)); Ret (kernel_from_raw paddr level prop)
  else Ret (kernel_from_raw paddr level prop).

Definition KernelPtConfig : PageTableConfig := {|
  Item := MappedItem;
  TOP_LEVEL_INDEX_RANGE := mk_range 256 512;
  TOP_LEVEL_CAN_UNMAP := false;
  item_into_raw := kernel_into_raw;
  item_from_raw := kernel_from_raw;
|}.

(** ** The flag [AVAIL1] *)

Lemma avail1_bit k : 0 <= k -> Z.testbit 0x40 k = (k =? 6).
Proof. intros Hk. change 0x40 with (2 ^ 6). rewrite Z.pow2_bits_eqb by lia. by rewrite Z.eqb_sym. Qed.

Lemma contains_avail1 f : contains f PageFlags.AVAIL1 = Z.testbit (bits f) 6.
Proof.
  unfold contains. apply eq_true_iff_eq. rewrite Z.eqb_eq, land_eq_sub. cbn [bits PageFlags.AVAIL1]. split.
  - intros Hs. by apply Hs.
  - intros Hb k Hk Ht. rewrite avail1_bit in Ht by done. by apply Z.eqb_eq in Ht as ->.
Qed.

Lemma union_avail1_bit f k : 0 <= k -> Z.testbit (bits (union f PageFlags.AVAIL1)) k = Z.testbit (bits f) k || (k =? 6).
Proof. intros Hk. cbn. by rewrite Z.lor_spec, avail1_bit. Qed.

Lemma difference_avail1_bit f k : uint 8 (bits f) -> 0 <= k ->
  Z.testbit (bits (difference 8 f PageFlags.AVAIL1)) k = Z.testbit (bits f) k && negb (k =? 6).
Proof.
  intros Hf Hk. cbn [difference from_bits_unchecked bits]. rewrite Z.land_spec.
  apply uint_bits in Hf as [_ Hf]; [|lia]. destruct (Z.lt_ge_cases k 8); [|by rewrite Hf].
  f_equal. change (unot 8 (bits PageFlags.AVAIL1)) with 0xBF.
  assert (k ∈ seqZ 0 8) as Hin by (apply elem_of_seqZ; lia). cbn in Hin.
  repeat (apply elem_of_cons in Hin as [->|Hin]; [reflexivity|]). by apply not_elem_of_nil in Hin.
Qed.

Lemma flags_ext f g : (forall k, 0 <= k -> Z.testbit (bits f) k = Z.testbit (bits g) k) -> f = g.
Proof. intros Hb. destruct f as [a], g as [b]. f_equal. by apply Z.bits_inj'. Qed.

Lemma prop_flags_uint p : prop_inv p -> uint 8 (bits (pflags p)).
Proof. intros [<- _]. rewrite Z.land_comm. apply uint_land; [lia|]. split; done. Qed.

Lemma set_clear_avail1 p : prop_inv p -> contains (pflags p) PageFlags.AVAIL1 = false ->
  with_flags p (difference 8 (union (pflags p) PageFlags.AVAIL1) PageFlags.AVAIL1) = p /\
  with_flags p (difference 8 (pflags p) PageFlags.AVAIL1) = p.
Proof.
  intros Hi Hc. pose proof (prop_flags_uint p Hi) as Hu. rewrite contains_avail1 in Hc. destruct p as [f ca pr]. cbn in *.
  assert (uint 8 (bits (union f PageFlags.AVAIL1))) as Hu' by (apply uint_lor; [lia|done|split; done]).
  unfold with_flags. cbn. split; f_equal; apply flags_ext; intros k Hk; rewrite difference_avail1_bit by done;
    [rewrite union_avail1_bit by done|]; destruct (Z.eqb_spec k 6) as [->|]; cbn [negb]; rewrite ?Hc, ?orb_false_r, ?andb_true_r, ?andb_false_r; done.
Qed.

Lemma clear_set_avail1 p : prop_inv p -> contains (pflags p) PageFlags.AVAIL1 = true ->
  with_flags p (union (difference 8 (pflags p) PageFlags.AVAIL1) PageFlags.AVAIL1) = p.
Proof.
  intros Hi Hc. pose proof (prop_flags_uint p Hi) as Hu. rewrite contains_avail1 in Hc. destruct p as [f ca pr]. cbn in *.
  unfold with_flags. cbn. f_equal. apply flags_ext. intros k Hk. rewrite union_avail1_bit, difference_avail1_bit by done.
  destruct (Z.eqb_spec k 6) as [->|]; cbn [negb]; rewrite ?Hc, ?orb_false_r, ?andb_true_r, ?andb_false_r; done.
Qed.

Lemma contains_set_avail1 f : contains (union f PageFlags.AVAIL1) PageFlags.AVAIL1 = true.
Proof. rewrite contains_avail1, union_avail1_bit by lia. by rewrite orb_true_r. Qed.

(** The items of the kernel page table and their raw forms.  Without the flag [AVAIL1], which marks the
    tracked frames, an item is restored from its raw form, and the debug assertions of both conversions hold; and a
    raw form with the flag only at level 1 is the raw form of the item made of it. *)
Theorem kernel_item_roundtrip (debug_assertions : bool) :
  (forall item, let prop := match item with Tracked _ p | Untracked _ _ p => p end in
     prop_inv prop -> contains (pflags prop) PageFlags.AVAIL1 = false ->
     exists pa lv p, kernel_into_raw_checked debug_assertions item = Ret (pa, lv, p) /\
       kernel_from_raw_checked debug_assertions pa lv p = Ret item) /\
  (forall pa lv p, prop_inv p -> (contains (pflags p) PageFlags.AVAIL1 = true -> lv = 1) ->
     exists item, kernel_from_raw_checked debug_assertions pa lv p = Ret item /\ kernel_into_raw item = (pa, lv, p)).
Proof.
  split.
  - intros item prop Hi Hc. unfold kernel_into_raw_checked. fold prop. rewrite Hc. destruct (set_clear_avail1 prop Hi Hc) as [H1 H2].
    destruct item as [fr p|pa lv p]; cbn in prop; subst prop; eexists _, _, _; (split; [by destruct debug_assertions|]);
      unfold kernel_from_raw_checked, kernel_from_raw.
    + cbn [with_flags pflags]. rewrite contains_set_avail1. unfold with_flags in H1 |- *. cbn [pflags cache priv_flags]. rewrite H1. by destruct debug_assertions.
    + rewrite H2, Hc. done.
  - intros pa lv p Hi Hl. unfold kernel_from_raw_checked, kernel_from_raw. destruct (contains (pflags p) PageFlags.AVAIL1) eqn:Hc.
    + rewrite (Hl eq_refl). eexists. split; [by destruct debug_assertions|]. cbn [kernel_into_raw with_flags pflags].
      unfold with_flags. cbn [pflags cache priv_flags]. by rewrite <- (clear_set_avail1 p Hi Hc) at 4.
    + eexists. split; [done|]. cbn [kernel_into_raw]. by rewrite (proj2 (set_clear_avail1 p Hi Hc)).
Qed.
End KernelPt.

(** ** The configurations keep the promises of the interface *)

Section laws.
Local Existing Instance X86.consts.
Local Existing Instance X86.reqs.

Definition frame_ok (pa lv : Z) (p : PageProperty) : Prop :=
  1 <= lv <= NR_LEVELS /\ valid_frame_paddr pa /\ pa mod page_size lv = 0 /\ pa + page_size lv <= MAX_PADDR /\
  prop_req (E := PageTableEntry) p.

Global Program Instance user_laws : PageTableConfigLaws (H1 := UserPt.UserPtConfig) PageTableEntry := {
  item_ok (item : UserPt.MappedItem) := frame_ok (UserPt.frame item) 1 (UserPt.item_prop item)
}.
Next Obligation. intros item pa lv p Hok [= <- <- <-]. destruct Hok as (? & ? & ? & ? & ?). split_and!; try done. by destruct item. Qed.

Lemma set_avail1_req p : prop_req (E := PageTableEntry) p -> prop_req (E := PageTableEntry) (KernelPt.with_flags p (union (pflags p) PageFlags.AVAIL1)).
Proof.
  intros ([Hf Hp] & Hr & Hc). change (Z.land (bits (pflags p)) 0xDF = bits (pflags p)) in Hf. split; [split; [|done]|split; [|done]].
  - change (Z.land (Z.lor (bits (pflags p)) 0x40) 0xDF = Z.lor (bits (pflags p)) 0x40). by rewrite Z.land_lor_distr_l, Hf.
  - change (Z.testbit (Z.lor (bits (pflags p)) 0x40) 0 = true). by rewrite Z.lor_spec, Hr.
Qed.

Global Program Instance kernel_laws : PageTableConfigLaws (H1 := KernelPt.KernelPtConfig) PageTableEntry := {
  item_ok (item : KernelPt.MappedItem) :=
    match item with
    | KernelPt.Tracked fr p => frame_ok fr 1 p /\ contains (pflags p) PageFlags.AVAIL1 = false
    | KernelPt.Untracked pa lv p => frame_ok pa lv p /\ contains (pflags p) PageFlags.AVAIL1 = false
    end
}.
Next Obligation.
  intros [fr p|pa lv p] pa' lv' p' [(? & ? & ? & ? & Hreq) Hc] [= <- <- <-];
    destruct (KernelPt.set_clear_avail1 p (proj1 Hreq) Hc) as [Hsc Hcl]; cbn [item_from_raw KernelPt.KernelPtConfig].
  - split_and!; try done; [by apply set_avail1_req|]. unfold KernelPt.kernel_from_raw. cbn [KernelPt.with_flags pflags].
    rewrite KernelPt.contains_set_avail1. unfold KernelPt.with_flags in Hsc |- *. cbn [pflags cache priv_flags]. by rewrite Hsc.
  - rewrite Hcl. do 5 (split; [done|]). unfold KernelPt.kernel_from_raw. by rewrite Hc.
Qed.

End laws.

Lemma kernel_item_roundtrip_witness :
  exists pa lv p, KernelPt.kernel_into_raw_checked true (KernelPt.Untracked 0x400000 2 sample_prop) = Ret (pa, lv, p) /\
    KernelPt.kernel_from_raw_checked true pa lv p = Ret (KernelPt.Untracked 0x400000 2 sample_prop).
Proof.
  exact (proj1 (KernelPt.kernel_item_roundtrip true) (KernelPt.Untracked 0x400000 2 sample_prop) (conj eq_refl eq_refl) eq_refl).
Defined.

(** ** An allocator that hands out a list of frames *)

Section pool.
Context {A : Type} (frames : list Z).

Definition pool_alloc (st : gmap Z A) : option Z := head (filter (fun pa => st !! pa = None) frames).

Lemma pool_alloc_fresh st pa : Forall valid_frame_paddr frames -> pool_alloc st = Some pa -> valid_frame_paddr pa /\ st !! pa = None.
Proof.
  intros Hv Ha. apply head_Some_elem_of, list_elem_of_filter in Ha as [Hnone Hin]. split; [|done]. by eapply Forall_forall in Hv.
Qed.

(** It has a frame as long as the store is smaller than the list. *)
Lemma pool_alloc_succeeds st : NoDup frames -> (size st < length frames)%nat -> is_Some (pool_alloc st).
Proof.
  intros Hnd Hsz. unfold pool_alloc. destruct (filter (fun pa => st !! pa = None) frames) as [|pa l] eqn:Hf; [|by eexists].
  assert (list_to_set frames ⊆ dom st) as Hsub.
  { intros pa Hin%elem_of_list_to_set. apply elem_of_dom. destruct (st !! pa) eqn:Hst; [by eexists|].
    assert (pa ∈ filter (fun pa => st !! pa = None) frames) as Hx by (by apply list_elem_of_filter). rewrite Hf in Hx. by apply not_elem_of_nil in Hx. }
  apply subseteq_size in Hsub. rewrite size_list_to_set in Hsub by done. rewrite size_dom in Hsub. lia.
Qed.
End pool.

(** ** Cursors of user page tables of x86-64 *)

Module Cursor86.
Local Existing Instance X86.consts.
Local Existing Instance X86.reqs.
Local Existing Instance UserPt.UserPtConfig.
Local Existing Instance all_counted.

Notation pte64 := PageTableEntry.

Definition frames : list Z := [0x5000; 0x6000; 0x7000; 0x8000].
Definition alloc : pt_store pte64 -> option Z := pool_alloc frames.

Lemma alloc_fresh st pa : alloc st = Some pa -> valid_frame_paddr pa /\ st !! pa = None.
Proof. apply pool_alloc_fresh. repeat constructor; done. Qed.

Lemma alloc_succeeds st : (size st < 4)%nat -> is_Some (alloc st).
Proof. apply (pool_alloc_succeeds frames). apply (bool_decide_unpack _). reflexivity. Qed.

(** A page table that consists of its empty root. *)
Definition empty_table : pt_store pte64 := Example86.one_store 4.

Lemma empty_table_ok : tree_ok empty_table 0x1000.
Proof.
  split.
  - apply Example86.one_store_ok. lia.
  - exists (Example86.one_node 4). split; [apply lookup_insert_eq|done].
  - intros [|k] va1 va2 q _ _ Hq _ l Hl; [cbn in Hl; lia|]. exfalso. unfold node_at in Hq. cbn [descend] in Hq.
    unfold empty_table, Example86.one_store in Hq. rewrite lookup_insert_eq in Hq. cbn in Hq.
    destruct (empty_ptes !! _) as [e|] eqn:He in Hq; [|done]. unfold empty_ptes in He. apply lookup_replicate in He as [-> _]. done.
Qed.

Definition cursor0 : Cursor := mk_cursor [None; None; None; Some 0x1000] 4 4 0x400000 (mk_range 0x400000 0x800000).

Lemma cursor0_ok : cursor_ok empty_table 0x1000 cursor0.
Proof.
  split; [|done]. split; cbn [cursor0 c_path c_level guard_level c_va barrier_va r_start r_end].
  - exact empty_table_ok.
  - cbn. lia.
  - split_and!; try reflexivity; done.
  - split_and!; try reflexivity; done.
  - reflexivity.
  - exists 0x400000. split; [split; cbn; lia|]. split; [by right|]. cbn [c_level guard_level cursor0 c_path]. intros l Hl.
    assert (l = 4) as -> by lia. exists 0x1000. done.
  - cbn [c_level guard_level cursor0 c_path]. intros l Hl4 Hl. change (Z.of_nat MAX_NR_LEVELS) with 4 in Hl4.
    assert (l = 1 \/ l = 2 \/ l = 3) as [->|[->| ->]] by lia; reflexivity.
  - done.
Qed.

Lemma levels_fit : NR_LEVELS <= Z.of_nat MAX_NR_LEVELS.
Proof. done. Qed.

Definition item0 : Item := UserPt.mk_item 0x200000 sample_prop.

Lemma item0_ok : item_ok item0.
Proof.
  split; [cbn; lia|]. split; [split; [split; [discriminate|reflexivity]|reflexivity]|].
  split; [reflexivity|]. split; [discriminate|exact Example86.sample_prop_req].
Qed.

Lemma cursor_query_correct_witness :
  exists r item c', query true empty_table cursor0 = Ret (inl (r, item), c') /\ in_range r 0x400000.
Proof.
  destruct (cursor_query_correct true true Example86.base86 levels_fit empty_table 0x1000 cursor0 cursor0_ok) as [_ Hq].
  destruct (Hq eq_refl) as (r & o & c' & Hr & _ & _ & Hin & _). eauto.
Defined.

Lemma cursor_find_next_correct_witness :
  exists found c' st', find_next_impl true alloc empty_table cursor0 0x2000 true true = Ret (found, c', st') /\ cursor_ok st' 0x1000 c'.
Proof.
  destruct (cursor_find_next_correct true true alloc Example86.base86 levels_fit alloc_fresh 4 alloc_succeeds
    empty_table 0x1000 cursor0 0x2000 true true cursor0_ok ltac:(lia) ltac:(vm_compute; lia)) as [_ Hf].
  destruct (Hf eq_refl ltac:(cbn; lia)) as (found & c' & st' & Hr & Hok & _). eauto.
Defined.

Lemma cursor_jump_correct_witness : exists c', jump cursor0 0x500000 = Ret (inl tt, c') /\ c_va c' = 0x500000.
Proof.
  destruct (cursor_jump_correct Example86.base86 levels_fit empty_table 0x1000 cursor0 0x500000 cursor0_ok) as (_ & _ & Hj).
  destruct (proj1 (Hj eq_refl ltac:(split; cbn; lia)) eq_refl) as (c' & Hr & _ & Hva & _). eauto.
Defined.

Lemma cursor_map_correct_witness :
  exists r, map true alloc empty_table cursor0 item0 = Ret r /\
    map_post true empty_table 0x1000 cursor0 0x200000 1 sample_prop r.
Proof.
  apply (cursor_map_correct true true alloc Example86.base86 levels_fit alloc_fresh 4 alloc_succeeds
    empty_table 0x1000 cursor0 item0 0x200000 1 sample_prop cursor0_ok item0_ok eq_refl ltac:(vm_compute; lia) (or_introl eq_refl)).
  repeat split; try reflexivity; discriminate.
Defined.

Lemma cursor_take_next_correct_witness :
  exists r, take_next true alloc empty_table cursor0 0x2000 = Ret r /\ take_post true empty_table 0x1000 cursor0 0x2000 r.
Proof.
  apply (cursor_take_next_correct true true alloc Example86.base86 levels_fit alloc_fresh 4 alloc_succeeds
    empty_table 0x1000 cursor0 0x2000 cursor0_ok ltac:(lia) ltac:(vm_compute; lia)).
  split; [reflexivity|cbn; lia].
Defined.

Lemma cursor_protect_next_correct_witness :
  exists r, protect_next true alloc empty_table cursor0 0x2000 id = Ret r /\ protect_post true empty_table 0x1000 cursor0 0x2000 id r.
Proof.
  apply (cursor_protect_next_correct true true alloc Example86.base86 levels_fit alloc_fresh 4 alloc_succeeds
    empty_table 0x1000 cursor0 0x2000 id cursor0_ok ltac:(lia) ltac:(vm_compute; lia) (fun p Hp => Hp)).
  split; [reflexivity|cbn; lia].
Defined.

(** A run: after mapping a page, its address translates, a jump back finds it, and taking it out ends the translation. *)
Example map_and_take :
  match map true alloc empty_table cursor0 item0 with
  | Ret (inl _, c1, st1) =>
      match jump c1 0x400000 with
      | Ret (inl _, c2) =>
          page_walk true st1 0x1000 0x400123 = Ret (Some (0x200123, sample_prop)) /\
          match take_next true alloc st1 c2 0x2000 with
          | Ret (Some (Mapped va item), c3, st2) => va = 0x400000 /\ item = item0 /\ c_va c3 = 0x401000 /\
              page_walk true st2 0x1000 0x400123 = Ret None
          | _ => False
          end
      | _ => False
      end
  | _ => False
  end.
Proof. vm_compute. repeat split. Qed.

End Cursor86.
