(* ===== verification/BootPt.v ===== *)
(** * The boot page table

    [ostd/src/mm/page_table/boot_pt.rs]: the page table of the boot stage, set up by the
    firmware or the loader and extended here before the metadata of frames exists.  Its tables are
    plain memory, without counts, locks or levels, and the tables of the firmware may be shared: the
    walks form a graph and not a tree.  The theorems therefore name the entry at which the walk of
    an address ends ([leaf]), and say for every address whether an operation changes its
    translation.

    The frames of new tables come from a parameter, the two allocators of [alloc_child]. *)

From S2P Require Import Prelude Bitflags AlignExt Paging PageProp Pte FrameMeta PteX86 PtChild PtNode PtTree PtStray PtCursor PtConfig.
Open Scope Z_scope.

(** The tables, by their physical addresses. *)
Notation boot_mem E := (gmap Z (list E)).

(** [BootPageTable]: the frame number of the root. *)
Record BootPageTable := mk_boot { root_pt : Z }.

(** The entry at which a walk ends: its level, its place and its value. *)
Record leaf_entry (E : Type) := mk_leaf { l_level : nat; l_frame : Z; l_index : nat; l_pte : E }.
Arguments mk_leaf {E}.
Arguments l_level {E}.
Arguments l_frame {E}.
Arguments l_index {E}.
Arguments l_pte {E}.

Section boot.
Context `{PagingConstsTrait} `{PageTableEntryTrait E}.
(** The feature of the same name. *)
Context (allow_panic : bool).
(** The frame of [FrameAllocOptions::alloc_frame_with] or [early_alloc]. *)
Context (alloc_frame : boot_mem E -> option Z).

Implicit Types (mem : boot_mem E) (pt pa va : Z) (lv : nat) (e : E).

(** ** The code *)

(** A read and a write through the pointer to entry [i] of the table in frame [pt]. *)
Definition pte_read mem pt (i : nat) : outcome E :=
  pa ← umul 64 pt BASE_PAGE_SIZE;
  table ← unwrap (mem !! pa);
  unwrap (table !! i).

Definition pte_write mem pt (i : nat) e : outcome (boot_mem E) :=
  pa ← umul 64 pt BASE_PAGE_SIZE;
  table ← unwrap (mem !! pa);
  _ ← rassert (Z.of_nat i <? Z.of_nat (length table));
  Ret (<[pa := <[i := e]> table]> mem).

Definition root_address (self : BootPageTable) : outcome Z := umul 64 (root_pt self) BASE_PAGE_SIZE.

Definition alloc_child mem : outcome (E * boot_mem E) :=
  frame_paddr ← unwrap (alloc_frame mem);
  Ret (new_pt frame_paddr, <[frame_paddr := empty_ptes]> mem).

(** The early exit of an operation that does not apply. *)
Definition refuse {A} (a : A) : outcome A := if allow_panic then Panic else Ret a.

(** The loop of [map_base_page]; the frame of the table of level 1, or nothing after the early exit. *)
Fixpoint map_walk mem lv pt (from : Z) : outcome (option Z * boot_mem E) :=
  match lv with
  | S (S _ as lv') =>
      let index := Z.to_nat (pte_index from (Z.of_nat lv)) in
      pte ← pte_read mem pt index;
      if negb (is_present pte) then
        ' (pte, mem1) ← alloc_child mem;
        mem2 ← pte_write mem1 pt index pte;
        map_walk mem2 lv' (paddr pte / BASE_PAGE_SIZE) from
      else if is_last pte (Z.of_nat lv) then refuse (None, mem)
      else map_walk mem lv' (paddr pte / BASE_PAGE_SIZE) from
  | _ => Ret (Some pt, mem)
  end.

Definition map_base_page mem (self : BootPageTable) (from to : Z) (p : PageProperty) : outcome (boot_mem E) :=
  ' (found, mem1) ← map_walk mem (Z.to_nat NR_LEVELS) (root_pt self) from;
  match found with
  | None => Ret mem1
  | Some pt =>
      let index := Z.to_nat (pte_index from 1) in
      pte ← pte_read mem1 pt index;
      if is_present pte then refuse mem1
      else
        pa ← umul 64 to BASE_PAGE_SIZE;
        pte ← new_page pa 1 p;
        pte_write mem1 pt index pte
  end.

(** The loop that fills the table of a huge page, over [i, ..., i + n - 1]. *)
Fixpoint split_fill mem (child_frame_pa huge_pa : Z) (level : Z) (p : PageProperty) (i n : nat) : outcome (boot_mem E) :=
  match n with
  | O => Ret mem
  | S n' =>
      offset ← umul 64 (Z.of_nat i) BASE_PAGE_SIZE;
      pa ← uadd 64 huge_pa offset;
      pte ← new_page pa (level - 1) p;
      table ← unwrap (mem !! child_frame_pa);
      split_fill (<[child_frame_pa := <[i := pte]> table]> mem) child_frame_pa huge_pa level p (S i) n'
  end.

(** The loop of [protect_base_page]. *)
Fixpoint protect_walk mem lv pt (virt_addr : Z) : outcome (option Z * boot_mem E) :=
  match lv with
  | S (S _ as lv') =>
      let index := Z.to_nat (pte_index virt_addr (Z.of_nat lv)) in
      pte ← pte_read mem pt index;
      if negb (is_present pte) then refuse (None, mem)
      else if is_last pte (Z.of_nat lv) then
        ' (child_pte, mem1) ← alloc_child mem;
        let child_frame_pa := paddr child_pte in
        let huge_pa := paddr pte in
        p ← prop pte;
        mem2 ← split_fill mem1 child_frame_pa huge_pa (Z.of_nat lv) p 0 (Z.to_nat nr_subpage_per_huge);
        mem3 ← pte_write mem2 pt index (new_pt child_frame_pa);
        protect_walk mem3 lv' (child_frame_pa / BASE_PAGE_SIZE) virt_addr
      else protect_walk mem lv' (paddr pte / BASE_PAGE_SIZE) virt_addr
  | _ => Ret (Some pt, mem)
  end.

Definition protect_base_page mem (self : BootPageTable) (virt_addr : Z) (op : PageProperty -> PageProperty)
  : outcome (boot_mem E) :=
  ' (found, mem1) ← protect_walk mem (Z.to_nat NR_LEVELS) (root_pt self) virt_addr;
  match found with
  | None => Ret mem1
  | Some pt =>
      let index := Z.to_nat (pte_index virt_addr 1) in
      pte ← pte_read mem1 pt index;
      if negb (is_present pte) then refuse mem1
      else
        p ← prop pte;
        pte ← new_page (paddr pte) 1 (op p);
        pte_write mem1 pt index pte
  end.

(** One round of the loop of [dfs_walk_on_leave]; [walk] is the recursive call. *)
Definition dfs_entry (op : E -> outcome E) (walk : boot_mem E -> Z -> outcome (boot_mem E)) lv pt
    (acc : outcome (boot_mem E)) (i : nat) : outcome (boot_mem E) :=
  mem ← acc;
  pte ← pte_read mem pt i;
  if is_present pte && negb (is_last pte (Z.of_nat lv)) then
    mem1 ← walk mem (paddr pte / BASE_PAGE_SIZE);
    pte1 ← pte_read mem1 pt i;
    pte2 ← op pte1;
    pte_write mem1 pt i pte2
  else Ret mem.

Fixpoint dfs_walk_on_leave (op : E -> outcome E) lv mem pt : outcome (boot_mem E) :=
  match lv with
  | S (S _ as lv') =>
      foldl (dfs_entry op (dfs_walk_on_leave op lv') lv pt) (Ret mem) (seq 0 (Z.to_nat nr_subpage_per_huge))
  | _ => Ret mem
  end.

(** [from_current_pt]; the closure computes flags with the mark of the firmware and then sets the property
    that it has read. *)
Definition PTE_POINTS_TO_FIRMWARE_PT : flags := PageFlags.AVAIL1.

Definition firmware_op e : outcome E :=
  p ← prop e;
  let flags := mk_flags (Z.lor (bits (pflags p)) (bits PTE_POINTS_TO_FIRMWARE_PT)) in
  set_prop e p.

Definition from_current_pt mem (current_page_table_paddr : Z) : outcome (BootPageTable * boot_mem E) :=
  let root_pt := current_page_table_paddr / BASE_PAGE_SIZE in
  mem1 ← dfs_walk_on_leave firmware_op (Z.to_nat NR_LEVELS) mem root_pt;
  Ret (mk_boot root_pt, mem1).

(** ** What the memory means *)

Definition maps_page lv e : bool := (lv =? 1)%nat || is_last e (Z.of_nat lv).

(** The walk does not go below the entry. *)
Definition ends lv e : bool := negb (is_present e) || maps_page lv e.

Definition va_index va lv : nat := Z.to_nat (pte_index va (Z.of_nat lv)).

Fixpoint leaf mem lv pa va : option (leaf_entry E) :=
  match lv with
  | O => None
  | S lv' =>
      table ← mem !! pa;
      e ← table !! va_index va lv;
      if ends lv e then Some (mk_leaf lv pa (va_index va lv) e) else leaf mem lv' (paddr e) va
  end.

Definition place (x : leaf_entry E) : Z * nat := (l_frame x, l_index x).

(** The translation that an entry gives to an address. *)
Definition entry_means lv e va : option (Z * outcome PageProperty) :=
  if is_present e then Some (paddr e + va mod page_size (Z.of_nat lv), prop e) else None.

Definition translate mem lv pa va : option (Z * outcome PageProperty) :=
  x ← leaf mem lv pa va; entry_means (l_level x) (l_pte x) va.

(** The addresses lie in the same base page of a page of the level. *)
Definition same_page lv va va' : Prop :=
  va mod page_size (Z.of_nat lv) / BASE_PAGE_SIZE = va' mod page_size (Z.of_nat lv) / BASE_PAGE_SIZE.

(** The walk of [va'] ends where that of [va] ends, at [x], and in the same base page. *)
Definition hits (x y : leaf_entry E) va va' : Prop := place y = place x /\ same_page (l_level x) va va'.

Global Instance hits_dec x y va va' : Decision (hits x y va va').
Proof. unfold hits, same_page. apply _. Defined.

Context `{!PagingConstsReqs} `{!PageTableEntryLaws E}.
(** The architecture's constants (the assumption [axiom_current_paging_consts_hardcoded]). *)
Context (base_is_page : BASE_PAGE_SIZE = PAGE_SIZE).

(** Tables have one level each, which [lvl] records; their entries are absent, map memory, or lead to a
    table of the next level. *)
Definition page_ok lv e : Prop :=
  paddr e mod PAGE_SIZE = 0 /\ 0 <= paddr e /\ paddr e + page_size (Z.of_nat lv) <= MAX_PADDR /\
  exists p, prop e = Ret p /\ prop_req p.

Definition entry_ok (lvl : gmap Z nat) lv e : Prop :=
  pte_wf e /\ (is_present e = true -> if maps_page lv e then page_ok lv e else lvl !! paddr e = Some (pred lv)).

Definition table_ok (lvl : gmap Z nat) pa lv (table : list E) : Prop :=
  valid_frame_paddr pa /\ 1 <= Z.of_nat lv <= NR_LEVELS /\ Z.of_nat (length table) = nr_subpage_per_huge /\
  Forall (entry_ok lvl lv) table.

Definition mem_ok (lvl : gmap Z nat) mem : Prop :=
  forall pa lv, lvl !! pa = Some lv -> exists table, mem !! pa = Some table /\ table_ok lvl pa lv table.

Implicit Types (lvl : gmap Z nat) (x y : leaf_entry E).

(** ** Walks *)

Lemma index_lookup va lv (table : list E) : 0 <= va -> 1 <= Z.of_nat lv <= NR_LEVELS ->
  Z.of_nat (length table) = nr_subpage_per_huge -> exists e, table !! va_index va lv = Some e.
Proof.
  intros Hva Hlv Hlen. destruct (index_digits va (Z.of_nat lv) Hva Hlv) as [Hi _].
  apply lookup_lt_is_Some_2. unfold va_index. lia.
Qed.

(** What is known of the entry at which a walk ends. *)
Record leaf_ok lvl mem va x : Prop := {
  lf_level : lvl !! l_frame x = Some (l_level x);
  lf_index : l_index x = va_index va (l_level x);
  lf_pte : exists table, mem !! l_frame x = Some table /\ table !! l_index x = Some (l_pte x);
  lf_ends : ends (l_level x) (l_pte x) = true;
}.

Lemma table_entry lvl mem pa lv va : mem_ok lvl mem -> lvl !! pa = Some lv -> 0 <= va ->
  exists lv' table e, lv = S lv' /\ mem !! pa = Some table /\ table_ok lvl pa lv table /\
    table !! va_index va lv = Some e /\ entry_ok lvl lv e.
Proof.
  intros Hm Hl Hva. destruct (Hm pa lv Hl) as (table & Ht & Hok). pose proof Hok as (_ & Hlv & Hlen & Hf).
  destruct (index_lookup va lv table Hva Hlv Hlen) as [e He]. destruct lv as [|lv']; [lia|].
  exists lv', table, e. split_and!; try done. by eapply Forall_lookup_1.
Qed.

Lemma not_ends lvl lv e : entry_ok lvl lv e -> ends lv e = false ->
  is_present e = true /\ maps_page lv e = false /\ lvl !! paddr e = Some (pred lv).
Proof.
  unfold ends. intros [_ Hok]. destruct (is_present e); [|done]. destruct (maps_page lv e); [done|]. intros _. auto.
Qed.

Lemma leaf_step mem lv pa va table e : mem !! pa = Some table -> table !! va_index va (S lv) = Some e ->
  leaf mem (S lv) pa va = if ends (S lv) e then Some (mk_leaf (S lv) pa (va_index va (S lv)) e) else leaf mem lv (paddr e) va.
Proof. intros Ht He. cbn [leaf]. rewrite Ht. cbn [mbind option_bind]. by rewrite He. Qed.

Lemma leaf_total lvl mem va : mem_ok lvl mem -> 0 <= va -> forall lv pa, lvl !! pa = Some lv ->
  exists x, leaf mem lv pa va = Some x /\ leaf_ok lvl mem va x /\ (l_level x <= lv)%nat.
Proof.
  intros Hm Hva. induction lv as [|lv IH]; intros pa Hl.
  { destruct (table_entry _ _ _ _ va Hm Hl Hva) as (? & ? & ? & ? & _). lia. }
  destruct (table_entry _ _ _ _ va Hm Hl Hva) as (lv' & table & e & Heq & Ht & _ & He & Hok). injection Heq as <-.
  rewrite (leaf_step _ _ _ _ _ _ Ht He). destruct (ends (S lv) e) eqn:Hend.
  - eexists. split; [done|]. split; [|done]. split; cbn; [done|done|by exists table|done].
  - destruct (not_ends _ _ _ Hok Hend) as (_ & _ & Hp). destruct (IH _ Hp) as (x & Hx & Hxok & Hle).
    exists x. split_and!; [done|done|lia].
Qed.

Lemma fresh_level lvl mem f : mem_ok lvl mem -> mem !! f = None -> lvl !! f = None.
Proof. intros Hm Hf. destruct (lvl !! f) as [l|] eqn:Hl; [|done]. destruct (Hm f l Hl) as (t & ? & _). congruence. Qed.

(** A new table that no table refers to yet changes no walk. *)
Lemma leaf_fresh lvl mem f table va : mem_ok lvl mem -> 0 <= va -> mem !! f = None -> forall lv pa, lvl !! pa = Some lv ->
  leaf (<[f := table]> mem) lv pa va = leaf mem lv pa va.
Proof.
  intros Hm Hva Hf. induction lv as [|lv IH]; intros pa Hl; [done|].
  destruct (table_entry _ _ _ _ va Hm Hl Hva) as (lv' & t & e & Heq & Ht & _ & He & Hok). injection Heq as <-.
  rewrite (leaf_step _ _ _ _ _ _ Ht He). rewrite (leaf_step _ _ _ _ t e); [|by rewrite lookup_insert_ne by congruence|done].
  destruct (ends (S lv) e) eqn:Hend; [done|]. by apply IH, (not_ends _ _ _ Hok Hend).
Qed.

(** Writing an entry at which walks end: those walks, and no others, go on from the new entry. *)
Lemma leaf_set lvl mem q l i e e' table va : mem_ok lvl mem -> 0 <= va -> lvl !! q = Some l ->
  mem !! q = Some table -> table !! i = Some e -> ends l e = true -> forall lv pa, lvl !! pa = Some lv ->
  let mem' := <[q := <[i := e']> table]> mem in
  leaf mem' lv pa va =
    (x ← leaf mem lv pa va;
     if decide (place x = (q, i)) then if ends l e' then Some (mk_leaf l q i e') else leaf mem' (pred l) (paddr e') va
     else Some x).
Proof.
  intros Hm Hva Hq Ht Hi Hend lv pa Hl mem'. revert pa Hl. induction lv as [|lv IH]; intros pa Hl; [done|].
  destruct (table_entry _ _ _ _ va Hm Hl Hva) as (lv' & t & e0 & Heq & Hpa & _ & He & Hok). injection Heq as <-.
  rewrite (leaf_step _ _ _ _ _ _ Hpa He). destruct (decide (pa = q)) as [->|Hne].
  - assert (l = S lv) as -> by congruence. assert (t = table) as -> by congruence.
    assert (mem' !! q = Some (<[i := e']> table)) as Hq' by apply lookup_insert_eq.
    destruct (decide (va_index va (S lv) = i)) as [<-|Hni].
    + assert (e0 = e) as -> by congruence. rewrite Hend. cbn. rewrite decide_True by done.
      apply (leaf_step _ _ _ _ _ e' Hq'). apply list_lookup_insert_eq. by eapply lookup_lt_Some.
    + rewrite (leaf_step _ _ _ _ _ e0 Hq') by (by rewrite list_lookup_insert_ne).
      destruct (ends (S lv) e0) eqn:Hend0; [|by apply IH, (not_ends _ _ _ Hok Hend0)].
      cbn. rewrite decide_False; [done|]. intros [=]. done.
  - rewrite (leaf_step mem' _ _ _ t e0); [|unfold mem'; by rewrite lookup_insert_ne|done].
    destruct (ends (S lv) e0) eqn:Hend0; [|by apply IH, (not_ends _ _ _ Hok Hend0)].
    cbn. rewrite decide_False; [done|]. intros [=]. done.
Qed.

(** Writing an entry that is fine keeps the memory fine. *)
Lemma mem_ok_set lvl mem q l i table e' : mem_ok lvl mem -> lvl !! q = Some l -> mem !! q = Some table ->
  entry_ok lvl l e' -> mem_ok lvl (<[q := <[i := e']> table]> mem).
Proof.
  intros Hm Hq Ht He pa lv Hl. destruct (Hm pa lv Hl) as (t & Hpa & Hv & Hlv & Hlen & Hf).
  destruct (decide (pa = q)) as [->|Hne]; [|exists t; rewrite lookup_insert_ne by done; done].
  assert (t = table) as -> by congruence. assert (lv = l) as -> by congruence.
  eexists. rewrite lookup_insert_eq. split; [done|]. split_and!; [done|lia|lia|by rewrite length_insert|].
  by apply Forall_insert.
Qed.

Lemma entry_ok_mono lvl f l lv e : lvl !! f = None -> entry_ok lvl lv e -> entry_ok (<[f := l]> lvl) lv e.
Proof.
  intros Hf [Hw He]. split; [done|]. intros Hp. specialize (He Hp). destruct (maps_page lv e); [done|].
  rewrite lookup_insert_ne; [done|congruence].
Qed.

(** Adding a table whose entries are fine, too. *)
Lemma mem_ok_fresh lvl mem f l table : mem_ok lvl mem -> mem !! f = None -> lvl !! f = None -> table_ok lvl f l table ->
  mem_ok (<[f := l]> lvl) (<[f := table]> mem).
Proof.
  intros Hm Hf Hlf (Hv & Hlv & Hlen & Hall) pa lv [[<- <-]|[Hne Hl]]%lookup_insert_Some.
  - exists table. rewrite lookup_insert_eq. split; [done|]. split_and!; [done|lia|lia|done|].
    eapply Forall_impl; [exact Hall|]. intros e. by apply entry_ok_mono.
  - destruct (Hm pa lv Hl) as (t & Ht & Hvp & Hlvp & Hlenp & Hf'). exists t. rewrite lookup_insert_ne by done.
    split; [done|]. split_and!; [done|lia|lia|done|]. eapply Forall_impl; [exact Hf'|]. intros e. by apply entry_ok_mono.
Qed.

(** ** New tables *)

Context (alloc_new : forall mem f, alloc_frame mem = Some f -> valid_frame_paddr f /\ mem !! f = None).
(** The allocators have a frame while there are fewer tables than [pool]. *)
Context (pool : nat) (alloc_pool : forall mem, (size mem < pool)%nat -> is_Some (alloc_frame mem)).

Lemma frame_base pa : valid_frame_paddr pa -> umul 64 (pa / BASE_PAGE_SIZE) BASE_PAGE_SIZE = Ret pa.
Proof.
  intros [Hpa Hal]. rewrite base_is_page. unfold MAX_PADDR, PAGE_SIZE in *.
  rewrite umul_ok by (Z.to_euclidean_division_equations; lia). f_equal. Z.to_euclidean_division_equations; lia.
Qed.

Lemma pte_read_ok mem pa table i e : valid_frame_paddr pa -> mem !! pa = Some table -> table !! i = Some e ->
  pte_read mem (pa / BASE_PAGE_SIZE) i = Ret e.
Proof. intros Hv Ht He. unfold pte_read. step (frame_base _ Hv). step Ht. by step He. Qed.

Lemma pte_write_ok mem pa table i e e' : valid_frame_paddr pa -> mem !! pa = Some table -> table !! i = Some e ->
  pte_write mem (pa / BASE_PAGE_SIZE) i e' = Ret (<[pa := <[i := e']> table]> mem).
Proof.
  intros Hv Ht He%lookup_lt_Some. unfold pte_write. step (frame_base _ Hv). step Ht.
  unfold rassert. by rewrite (proj2 (Z.ltb_lt _ _)) by lia.
Qed.

Lemma new_table f l : valid_frame_paddr f -> (1 <= l)%nat ->
  paddr (new_pt f) = f /\ pte_wf (new_pt f) /\ is_present (new_pt f) = true /\ maps_page (S l) (new_pt f) = false.
Proof.
  intros Hv Hl. destruct (new_pt_law f (Z.of_nat (S l))) as (Hw & Hp & Hla & Hpa); [apply Hv|lia|].
  rewrite Hpa, align_down_frame by done. split_and!; try done. unfold maps_page. rewrite Hla.
  by destruct l; [lia|].
Qed.

(** A new table below an entry at which walks end. *)
Lemma graft lvl mem q l i e table f es : mem_ok lvl mem -> lvl !! q = Some (S l) -> mem !! q = Some table ->
  table !! i = Some e -> ends (S l) e = true -> mem !! f = None -> table_ok lvl f l es ->
  (forall e, e ∈ es -> ends l e = true) ->
  let mem' := <[q := <[i := new_pt f]> table]> (<[f := es]> mem) in
  mem_ok (<[f := l]> lvl) mem' /\ size mem' = S (size mem) /\
  forall lv pa va, 0 <= va -> lvl !! pa = Some lv ->
    leaf mem' lv pa va =
      (x ← leaf mem lv pa va;
       if decide (place x = (q, i)) then mk_leaf l f (va_index va l) <$> es !! va_index va l else Some x).
Proof.
  intros Hm Hq Ht Hi Hend Hf Hes Hall mem'. pose proof Hes as (Hv & Hlv & Hlen & _).
  destruct (new_table f l Hv ltac:(lia)) as (Hpa & Hw & Hp & Hmp).
  pose proof (fresh_level _ _ _ Hm Hf) as Hlf.
  assert (q <> f) as Hqf by congruence.
  assert (mem_ok (<[f := l]> lvl) (<[f := es]> mem)) as Hm1 by (by apply mem_ok_fresh).
  assert (<[f := l]> lvl !! q = Some (S l)) as Hq1 by (by rewrite lookup_insert_ne by congruence).
  assert (<[f := es]> mem !! q = Some table) as Ht1 by (by rewrite lookup_insert_ne by congruence).
  split_and!.
  - apply (mem_ok_set _ _ _ (S l)); try done. split; [done|]. intros _. rewrite Hmp, Hpa. apply lookup_insert_eq.
  - unfold mem'. rewrite map_size_insert_Some by (by eexists). by apply map_size_insert_None.
  - intros lv pa va Hva Hl. assert (<[f := l]> lvl !! pa = Some lv) as Hl1 by (rewrite lookup_insert_ne; [done|congruence]).
    unfold mem'. rewrite (leaf_set _ _ _ _ _ _ _ _ _ Hm1 Hva Hq1 Ht1 Hi Hend _ _ Hl1).
    rewrite (leaf_fresh _ _ _ _ _ Hm Hva Hf _ _ Hl). destruct (leaf mem lv pa va) as [x|]; [|done]. cbn [mbind option_bind].
    destruct (decide _); [|done]. unfold ends. rewrite Hp, Hmp, Hpa. cbn [negb orb pred].
    destruct (index_lookup va l es Hva ltac:(lia) Hlen) as [e' He']. rewrite He'. cbn [fmap option_fmap option_map].
    destruct l as [|l]; [lia|]. rewrite (leaf_step _ _ _ _ es e'); [|by rewrite lookup_insert_ne, lookup_insert_eq by done|done].
    rewrite Hall; [done|]. by eapply list_elem_of_lookup_2.
Qed.

(** ** Base pages of a page *)

Lemma page_mult l : 1 <= Z.of_nat l <= NR_LEVELS -> exists k, 0 < k /\ page_size (Z.of_nat l) = k * BASE_PAGE_SIZE.
Proof.
  intros Hl. destruct (page_size_divide 1 (Z.of_nat l)) as [k Hk]; [lia|lia|]. rewrite page_size_1 in Hk.
  pose proof (page_size_pos (Z.of_nat l)). destruct req_base. exists k. nia.
Qed.

Lemma same_page_step l va va' : 0 <= va -> 0 <= va' -> 1 <= Z.of_nat l -> Z.of_nat (S l) <= NR_LEVELS ->
  same_page (S l) va va' <-> va_index va l = va_index va' l /\ same_page l va va'.
Proof.
  intros Hva Hva' Hl1 Hl. unfold same_page, va_index. destruct (page_mult l ltac:(lia)) as (k & Hk & Hps). destruct req_base as [Hb _].
  destruct (index_digits va (Z.of_nat l)) as [Hi Hd]; [lia..|]. destruct (index_digits va' (Z.of_nat l)) as [Hi' Hd']; [lia..|].
  replace (Z.of_nat (S l)) with (Z.of_nat l + 1) by lia. rewrite Hd, Hd', Hps, !Z.mul_assoc.
  rewrite !(Z.add_comm (_ * BASE_PAGE_SIZE)), !Z.div_add by lia.
  assert (forall a, 0 <= a mod (k * BASE_PAGE_SIZE) / BASE_PAGE_SIZE < k) as Hr.
  { intros a. pose proof (Z.mod_pos_bound a (k * BASE_PAGE_SIZE) (Z.mul_pos_pos _ _ Hk Hb)). split; [apply Z.div_pos; lia|].
    apply Z.div_lt_upper_bound; lia. }
  pose proof (Hr va). pose proof (Hr va'). split; [|intros [Ha Hb']; apply Z2Nat.inj in Ha; lia || (rewrite Hb'; lia)].
  intros Heq. assert (pte_index va (Z.of_nat l) = pte_index va' (Z.of_nat l)) as Hidx by nia. rewrite Hidx in Heq |- *. split; [done|lia].
Qed.

Lemma same_page_1 va va' : same_page 1 va va'.
Proof.
  unfold same_page. change (Z.of_nat 1) with 1. rewrite page_size_1. destruct req_base as [Hb _].
  by rewrite !Z.div_small by (apply Z.mod_pos_bound; lia).
Qed.

(** ** Down to the table of level 1 *)

(** The walk of [va], which ended at [x], has been led to the entry [e] at place [(q, i)] of a table of level 1,
    without a change to any translation. *)
Record prepared lvl mem va x lvl' mem' (q : Z) (i : nat) e : Prop := {
  pr_ok : mem_ok lvl' mem';
  pr_index : i = va_index va 1;
  pr_level : lvl' !! q = Some 1%nat;
  pr_entry : exists table, mem' !! q = Some table /\ table !! i = Some e;
  pr_sub : lvl ⊆ lvl';
  pr_walk : forall lv pa va' y, 0 <= va' -> lvl !! pa = Some lv -> leaf mem lv pa va' = Some y ->
    exists y', leaf mem' lv pa va' = Some y' /\
      entry_means (l_level y') (l_pte y') va' = entry_means (l_level y) (l_pte y) va' /\
      (place y' = (q, i) <-> hits x y va va');
}.

Lemma prepared_here lvl mem va x : mem_ok lvl mem -> leaf_ok lvl mem va x -> l_level x = 1%nat ->
  prepared lvl mem va x lvl mem (l_frame x) (l_index x) (l_pte x).
Proof.
  intros Hm [Hl Hi Hp _] H1'. rewrite H1' in *. split; try done.
  intros lv pa va' y _ _ Hy. exists y. split_and!; [done|done|]. unfold hits. rewrite H1'. pose proof (same_page_1 va va'). tauto.
Qed.

(** Through a new table that means what the entry above it meant. *)
Lemma prepared_graft lvl mem va l x table f es e1 lvl' mem' q i e :
  mem_ok lvl mem -> 0 <= va -> l_level x = S l -> leaf_ok lvl mem va x -> mem !! l_frame x = Some table ->
  mem !! f = None -> table_ok lvl f l es -> (forall e, e ∈ es -> ends l e = true) -> es !! va_index va l = Some e1 ->
  (forall va' e', 0 <= va' -> es !! va_index va' l = Some e' -> entry_means l e' va' = entry_means (S l) (l_pte x) va') ->
  prepared (<[f := l]> lvl) (<[l_frame x := <[l_index x := new_pt f]> table]> (<[f := es]> mem)) va
    (mk_leaf l f (va_index va l) e1) lvl' mem' q i e ->
  prepared lvl mem va x lvl' mem' q i e.
Proof.
  intros Hm Hva Hlx Hx Ht Hf Hes Hall He1 Hmean Hpr. pose proof Hx as [Hl Hi (t & Ht' & Hp) Hend]. rewrite Hlx in *.
  assert (t = table) as -> by congruence. pose proof Hes as (_ & Hlv & Hlen & _).
  pose proof (fresh_level _ _ _ Hm Hf) as Hlf.
  destruct (graft _ _ _ _ _ _ _ _ _ Hm Hl Ht Hp Hend Hf Hes Hall) as (_ & _ & Hleaf).
  split; [apply Hpr|apply Hpr|apply Hpr|apply Hpr| |].
  { transitivity (<[f := l]> lvl); [by apply insert_subseteq|apply Hpr]. }
  intros lv pa va' y Hva' Hpa Hy.
  assert (Z.of_nat (S l) <= NR_LEVELS) as HSl by (destruct (Hm _ _ Hl) as (? & _ & _ & ? & _); lia).
  specialize (Hleaf lv pa va' Hva' Hpa). rewrite Hy in Hleaf. cbn [mbind option_bind] in Hleaf.
  assert (<[f := l]> lvl !! pa = Some lv) as Hpa' by (rewrite lookup_insert_ne; [done|congruence]).
  destruct (leaf_total _ _ va' Hm Hva' _ _ Hpa) as (y0 & Hy0 & [Hyl _ (t1 & Ht1 & Hp1) _] & _). rewrite Hy in Hy0. injection Hy0 as <-.
  destruct (decide (place y = (l_frame x, l_index x))) as [Heq|Hne].
  - destruct (index_lookup va' l es Hva' ltac:(lia) Hlen) as [e' He']. rewrite He' in Hleaf.
    destruct (pr_walk _ _ _ _ _ _ _ _ _ Hpr lv pa va' _ Hva' Hpa' Hleaf) as (y' & Hy' & Hm' & Hiff).
    exists y'. split; [done|]. injection Heq as Hfr Hix. rewrite Hfr in Hyl, Ht1. rewrite Hix in Hp1.
    assert (l_level y = S l) as Hly by congruence. assert (l_pte y = l_pte x) as Hpy by congruence.
    split; [rewrite Hm', Hly, Hpy; by apply Hmean|]. rewrite Hiff. unfold hits, place in *. cbn [l_frame l_index l_level].
    rewrite Hlx, Hfr, Hix, (same_page_step l va va') by lia. split; [intros [[=] ?]; auto|intros (_ & -> & ?); auto].
  - destruct (pr_walk _ _ _ _ _ _ _ _ _ Hpr lv pa va' _ Hva' Hpa' Hleaf) as (y' & Hy' & Hm' & Hiff).
    exists y'. split_and!; [done|done|]. rewrite Hiff. unfold hits, place in *. cbn [l_frame l_index l_level].
    split; [intros [[= Hc _] _]; congruence|intros [Hc _]; by destruct Hne].
Qed.

(** An unmapped address. *)
Lemma absent_table f l lvl : valid_frame_paddr f -> 1 <= Z.of_nat l <= NR_LEVELS ->
  table_ok lvl f l empty_ptes /\ forall e : E, e ∈ empty_ptes -> e = new_absent.
Proof.
  intros Hv Hl. pose proof (nr_subpage_bound base_is_page). split.
  - split_and!; [done|lia|lia|unfold empty_ptes; rewrite length_replicate; lia|].
    apply Forall_replicate. split; [apply new_absent_wf|]. rewrite new_absent_law. done.
  - intros e [i He]%list_elem_of_lookup. by apply lookup_replicate in He as [? _].
Qed.

Lemma alloc_child_ok mem : (size mem < pool)%nat ->
  exists f, alloc_child mem = Ret (new_pt f, <[f := empty_ptes]> mem) /\ valid_frame_paddr f /\ mem !! f = None.
Proof.
  intros [f Hf]%alloc_pool. destruct (alloc_new _ _ Hf). exists f. unfold alloc_child. by step Hf.
Qed.

(** The loops make a step to the next table. *)
Lemma walk_table lvl mem va lv pa e table : mem_ok lvl mem -> 0 <= va -> lvl !! pa = Some (S lv) -> mem !! pa = Some table ->
  table !! va_index va (S lv) = Some e -> is_present e = true -> maps_page (S lv) e = false ->
  lvl !! paddr e = Some lv /\ is_last e (Z.of_nat (S lv)) = false /\ leaf mem (S lv) pa va = leaf mem lv (paddr e) va.
Proof.
  intros Hm Hva Hl Ht He Hp Hmp. destruct (Hm _ _ Hl) as (t & Ht' & _ & _ & _ & Hf). assert (t = table) as -> by congruence.
  destruct (Forall_lookup_1 _ _ _ _ Hf He) as [_ Hok]. specialize (Hok Hp). rewrite Hmp in Hok. split_and!; [done| |].
  - unfold maps_page in Hmp. by apply orb_false_iff in Hmp as [_ ?].
  - rewrite (leaf_step _ _ _ _ _ _ Ht He). unfold ends. by rewrite Hp, Hmp.
Qed.

Lemma map_walk_spec va : 0 <= va -> forall lv lvl mem pa x, mem_ok lvl mem -> lvl !! pa = Some lv ->
  leaf mem lv pa va = Some x -> is_present (l_pte x) = false -> (size mem + l_level x <= S pool)%nat ->
  exists lvl' mem' q e, map_walk mem lv (pa / BASE_PAGE_SIZE) va = Ret (Some (q / BASE_PAGE_SIZE), mem') /\
    prepared lvl mem va x lvl' mem' q (va_index va 1) e /\ is_present e = false.
Proof.
  intros Hva. induction lv as [|lv IH]; intros lvl mem pa x Hm Hl Hx Hp Hsz; [done|].
  destruct (leaf_total _ _ va Hm Hva _ _ Hl) as (x0 & Hx0 & Hxok & Hle). rewrite Hx in Hx0. injection Hx0 as <-.
  destruct (table_entry _ _ _ _ va Hm Hl Hva) as (lv' & table & e & Heq & Ht & (Hv & Hlv & Hlen & Hf) & He & Hok). injection Heq as <-.
  destruct lv as [|lv].
  { assert (l_level x = 1%nat) as H1' by (destruct (Hm _ _ (lf_level _ _ _ _ Hxok)) as (? & _ & _ & ? & _); lia).
    rewrite (leaf_step _ _ _ _ _ _ Ht He) in Hx. replace (ends 1 e) with true in Hx by (unfold ends, maps_page; by destruct (is_present e)).
    pose proof (prepared_here _ _ _ _ Hm Hxok H1') as Hpr. injection Hx as <-. by exists lvl, mem, pa, e. }
  cbn [map_walk]. fold (va_index va (S (S lv))). step (pte_read_ok _ _ _ _ _ Hv Ht He). destruct (is_present e) eqn:Hpe; cbn [negb].
  - destruct (maps_page (S (S lv)) e) eqn:Hmp.
    { rewrite (leaf_step _ _ _ _ _ _ Ht He) in Hx. unfold ends in Hx. rewrite Hpe, Hmp in Hx. injection Hx as <-. cbn in Hp. congruence. }
    destruct (walk_table _ _ _ _ _ _ _ Hm Hva Hl Ht He Hpe Hmp) as (Hle' & -> & Hlf). rewrite Hlf in Hx. by apply (IH lvl).
  - rewrite (leaf_step _ _ _ _ _ _ Ht He) in Hx. unfold ends in Hx. rewrite Hpe in Hx. injection Hx as <-. cbn [l_level l_pte] in *.
    destruct (alloc_child_ok mem ltac:(lia)) as (f & Hal & Hvf & Hnf). step Hal.
    destruct (absent_table f (S lv) lvl Hvf ltac:(lia)) as [Hes Habs]. destruct (new_table f (S lv) Hvf ltac:(lia)) as (Hpf & _).
    assert (pa <> f) by congruence. step (pte_write_ok (<[f := empty_ptes]> mem) pa table _ e (new_pt f) Hv ltac:(by rewrite lookup_insert_ne) He).
    assert (forall e : E, e ∈ empty_ptes -> ends (S lv) e = true) as Hends.
    { intros e' ->%Habs. unfold ends. by rewrite new_absent_law. }
    assert (ends (S (S lv)) e = true) as Hend by (unfold ends; by rewrite Hpe).
    destruct (graft _ _ _ _ _ _ _ _ _ Hm Hl Ht He Hend Hnf Hes Hends) as (Hm2 & Hsz2 & _). rewrite Hpf.
    destruct (index_lookup va (S lv) empty_ptes Hva ltac:(lia) (proj1 (proj2 (proj2 Hes)))) as [e1 He1].
    assert (e1 = new_absent) as Habs1 by (eapply Habs, list_elem_of_lookup_2, He1).
    destruct (IH _ _ f (mk_leaf (S lv) f (va_index va (S lv)) e1) Hm2 ltac:(apply lookup_insert_eq)) as (lvl' & mem' & q & e' & Hw & Hpr & Hpe').
    { rewrite (leaf_step _ _ _ _ empty_ptes e1); [|by rewrite lookup_insert_ne, lookup_insert_eq by done|done].
      by rewrite (Hends e1) by (eapply list_elem_of_lookup_2, He1). }
    { cbn. rewrite Habs1. apply new_absent_law. }
    { cbn. lia. }
    exists lvl', mem', q, e'. split_and!; [exact Hw| |done].
    eapply (prepared_graft lvl mem va (S lv) (mk_leaf (S (S lv)) pa (va_index va (S (S lv))) e)); try done.
    intros va' e2 Hva' He2. unfold entry_means. cbn [l_pte]. rewrite Hpe. rewrite (Habs e2), new_absent_law; [done|by eapply list_elem_of_lookup_2].
Qed.

(** A base page in the prepared entry. *)
Lemma prepared_write lvl mem va x lvl' mem' q i e e2 : prepared lvl mem va x lvl' mem' q i e ->
  pte_wf e2 -> is_present e2 = true -> page_ok 1 e2 ->
  exists mem2, pte_write mem' (q / BASE_PAGE_SIZE) i e2 = Ret mem2 /\ mem_ok lvl' mem2 /\
    forall lv pa va' y, 0 <= va' -> lvl !! pa = Some lv -> leaf mem lv pa va' = Some y ->
      translate mem2 lv pa va' =
        if decide (hits x y va va') then Some (paddr e2 + va' mod BASE_PAGE_SIZE, prop e2) else translate mem lv pa va'.
Proof.
  intros [Hm Hi Hl (table & Ht & He) Hsub Hw] Hwf Hp Hok. destruct (Hm _ _ Hl) as (t & Ht' & Hv & _).
  assert (t = table) as -> by congruence. eexists. split; [by eapply pte_write_ok|]. split.
  { by apply (mem_ok_set _ _ _ 1). }
  intros lv pa va' y Hva' Hpa Hy. destruct (Hw lv pa va' y Hva' Hpa Hy) as (y' & Hy' & Hmean & Hiff).
  assert (ends 1 e = true) as Hend by (unfold ends, maps_page; by destruct (is_present e)).
  unfold translate. rewrite (leaf_set _ _ _ _ _ _ _ _ _ Hm Hva' Hl Ht He Hend _ _ (lookup_weaken _ _ _ _ Hpa Hsub)), Hy', Hy.
  cbn [mbind option_bind]. destruct (decide (place y' = (q, i))) as [Hpl|Hpl].
  - rewrite decide_True by (by apply Hiff). replace (ends 1 e2) with true by (unfold ends, maps_page; by destruct (is_present e2)).
    cbn [mbind option_bind l_level l_pte]. unfold entry_means. rewrite Hp. change (Z.of_nat 1) with 1. by rewrite page_size_1.
  - rewrite decide_False by (by rewrite <- Hiff). exact Hmean.
Qed.

(** A page of 4 KiB as [new_page] makes it. *)
Lemma base_page pa p : valid_frame_paddr pa -> prop_req p ->
  exists e, new_page pa 1 p = Ret e /\ pte_wf e /\ is_present e = true /\ page_ok 1 e /\ paddr e = pa /\ prop e = Ret p.
Proof.
  intros Hv Hr. destruct (new_page_law pa 1 p) as (e & He & Hw & Hp & _ & Hpa & Hpr); [apply Hv|done|].
  rewrite align_down_frame in Hpa by done. exists e. split_and!; try done. unfold page_ok. rewrite Hpa.
  destruct Hv as [Hb Hal]. split_and!; [done|lia| |by exists p]. change (Z.of_nat 1) with 1. rewrite page_size_1, base_is_page.
  unfold MAX_PADDR, PAGE_SIZE in *. Z.to_euclidean_division_equations; lia.
Qed.

Lemma root_frame self root : root_address self = Ret root -> valid_frame_paddr root -> root_pt self = root / BASE_PAGE_SIZE.
Proof.
  unfold root_address. intros [-> Hb]%umul_Ret _. destruct req_base. by rewrite Z.div_mul by lia.
Qed.

(** The loops stop before a page that is in the way, without a change. *)
Lemma boot_map_refused va to p lvl mem self root x : 0 <= va -> mem_ok lvl mem -> root_pt self = root / BASE_PAGE_SIZE ->
  lvl !! root = Some (Z.to_nat NR_LEVELS) -> leaf mem (Z.to_nat NR_LEVELS) root va = Some x -> is_present (l_pte x) = true ->
  map_base_page mem self va to p = refuse mem.
Proof.
  intros Hva Hm Hr Hl Hx Hp. unfold map_base_page. rewrite Hr. clear Hr. revert root Hl Hx.
  induction (Z.to_nat NR_LEVELS) as [|lv IH]; intros pa Hl Hx; [done|].
  destruct (table_entry _ _ _ _ va Hm Hl Hva) as (lv' & table & e & Heq & Ht & (Hv & Hlv & _) & He & Hok). injection Heq as <-.
  pose proof Hx as Hx'. rewrite (leaf_step _ _ _ _ _ _ Ht He) in Hx'. unfold ends in Hx'. destruct lv as [|lv]; cbn [map_walk].
  - cbn [mbind outcome_bind]. change (Z.to_nat (pte_index va 1)) with (va_index va 1). step (pte_read_ok _ _ _ _ _ Hv Ht He).
    rewrite (orb_true_intro _ (maps_page 1 e)) in Hx' by (by right). injection Hx' as <-. cbn in Hp. by rewrite Hp.
  - fold (va_index va (S (S lv))). step (pte_read_ok _ _ _ _ _ Hv Ht He). destruct (is_present e) eqn:Hpe; cbn [negb orb] in Hx' |- *.
    + destruct (maps_page (S (S lv)) e) eqn:Hmp.
      * replace (is_last e _) with true by (unfold maps_page in Hmp; cbn in Hmp; done). unfold refuse. by destruct allow_panic.
      * destruct (walk_table _ _ _ _ _ _ _ Hm Hva Hl Ht He Hpe Hmp) as (Hle & -> & _). by apply IH.
    + injection Hx' as <-. cbn in Hp. congruence.
Qed.

(** C11: [map_base_page] maps the page of [from], or refuses because the address is mapped already (a panic, or with the
    feature off a return without effect).  When it maps, the translation changes for exactly the addresses whose walk ends at the entry where
    that of [from] ends and that lie in the same base page below it, [from] among them; in a page table whose tables are not
    shared these are the addresses of the page.  Every other address, also one that goes through the same
    shared tables, translates as before. *)
Theorem map_base_page_correct lvl mem (self : BootPageTable) root from to p x :
  mem_ok lvl mem -> root_address self = Ret root -> lvl !! root = Some (Z.to_nat NR_LEVELS) -> 0 <= from ->
  valid_frame_paddr (to * BASE_PAGE_SIZE) -> prop_req p -> (size mem + Z.to_nat NR_LEVELS <= S pool)%nat ->
  leaf mem (Z.to_nat NR_LEVELS) root from = Some x ->
  (is_present (l_pte x) = true -> map_base_page mem self from to p = refuse mem) /\
  (is_present (l_pte x) = false -> exists lvl' mem', map_base_page mem self from to p = Ret mem' /\ mem_ok lvl' mem' /\
     forall va y, 0 <= va -> leaf mem (Z.to_nat NR_LEVELS) root va = Some y ->
       translate mem' (Z.to_nat NR_LEVELS) root va =
         if decide (hits x y from va) then Some (to * BASE_PAGE_SIZE + va mod BASE_PAGE_SIZE, Ret p)
         else translate mem (Z.to_nat NR_LEVELS) root va).
Proof.
  intros Hm Hroot Hl Hva Hto Hreq Hsz Hx. destruct (Hm _ _ Hl) as (_ & _ & Hvr & _). pose proof (root_frame _ _ Hroot Hvr) as Hr.
  destruct (leaf_total _ _ from Hm Hva _ _ Hl) as (x0 & Hx0 & _ & Hle). rewrite Hx in Hx0. injection Hx0 as <-.
  split; intros Hp.
  - by eapply boot_map_refused.
  - destruct (map_walk_spec from Hva _ _ _ _ _ Hm Hl Hx Hp ltac:(lia)) as (lvl' & mem' & q & e & Hw & Hpr & Hpe).
    unfold map_base_page. rewrite Hr. step Hw. destruct (pr_entry _ _ _ _ _ _ _ _ _ Hpr) as (table & Ht & He). destruct (pr_ok _ _ _ _ _ _ _ _ _ Hpr _ _ (pr_level _ _ _ _ _ _ _ _ _ Hpr)) as (? & _ & Hv & _).
    change (Z.to_nat (pte_index from 1)) with (va_index from 1). step (pte_read_ok _ _ _ _ _ Hv Ht He). rewrite Hpe.
    step umul_ok by (destruct Hto; unfold MAX_PADDR in *; lia). destruct (base_page _ _ Hto Hreq) as (e2 & Hn & Hwf & Hp2 & Hok & Hpa & Hpr2). step Hn.
    destruct (prepared_write _ _ _ _ _ _ _ _ _ _ Hpr Hwf Hp2 Hok) as (mem2 & -> & Hm2 & Htr). exists lvl', mem2. split_and!; [done|done|].
    intros va y Hva' Hy. by rewrite (Htr _ _ va y Hva' Hl Hy), Hpa, Hpr2.
Qed.

(** ** Splitting a huge page *)

(** The entry [j] of a split page: the code advances by base pages at every level. *)
Definition small_entry (pa : Z) l (p : PageProperty) (j : nat) e : Prop :=
  pte_wf e /\ is_present e = true /\ is_last e (Z.of_nat l) = true /\ paddr e = pa + Z.of_nat j * BASE_PAGE_SIZE /\ prop e = Ret p.

Lemma split_fill_spec mem f pa l p n : valid_frame_paddr pa -> prop_req p -> forall i t,
  length t = (i + n)%nat -> pa + Z.of_nat (i + n) * BASE_PAGE_SIZE <= MAX_PADDR ->
  exists t', split_fill (<[f := t]> mem) f pa (Z.of_nat (S l)) p i n = Ret (<[f := t']> mem) /\ length t' = length t /\
    forall j e, t' !! j = Some e -> if decide (i <= j)%nat then small_entry pa l p j e else t !! j = Some e.
Proof.
  intros Hv Hr. induction n as [|n IH]; intros i t Hlen Hmax.
  { exists t. split_and!; [done|done|]. intros j e He. apply lookup_lt_Some in He as Hj. by rewrite decide_False by lia. }
  cbn [split_fill]. rewrite base_is_page in Hmax |- *. destruct Hv as [Hb Hal]. unfold MAX_PADDR, PAGE_SIZE in Hmax, Hb, Hal.
  step umul_ok by (unfold PAGE_SIZE; lia). step uadd_ok by (unfold PAGE_SIZE; lia).
  assert (valid_frame_paddr (pa + Z.of_nat i * PAGE_SIZE)) as Hvi.
  { split; unfold MAX_PADDR, PAGE_SIZE; [lia|]. by rewrite Z.mod_add by lia. }
  destruct (new_page_law (pa + Z.of_nat i * PAGE_SIZE) (Z.of_nat (S l) - 1) p) as (e & He & Hw & Hp & Hla & Hpa & Hpr); [apply Hvi|done|].
  rewrite align_down_frame in Hpa by done. step He. rewrite lookup_insert_eq. cbn [unwrap mbind outcome_bind]. rewrite insert_insert_eq.
  destruct (IH (S i) (<[i := e]> t)) as (t' & Ht' & Hlen' & Hall); [rewrite length_insert; lia|rewrite base_is_page; unfold MAX_PADDR, PAGE_SIZE; lia|].
  exists t'. rewrite length_insert in Hlen'. split_and!; [by rewrite Ht'|done|].
  intros j e' He'. specialize (Hall j e' He'). destruct (decide (S i <= j)%nat); [by rewrite decide_True by lia|].
  destruct (decide (j = i)) as [->|Hne].
  - rewrite list_lookup_insert_eq in Hall by lia. injection Hall as <-. rewrite decide_True by done. unfold small_entry.
    rewrite base_is_page. replace (Z.of_nat (S l) - 1) with (Z.of_nat l) in Hla by lia. done.
  - rewrite list_lookup_insert_ne in Hall by done. by rewrite decide_False by lia.
Qed.

(** The new table is fine, and below a page of level 2 it means what the page meant. *)
Lemma split_table lvl f l pa p es : valid_frame_paddr f -> 1 <= Z.of_nat l -> Z.of_nat (S l) <= NR_LEVELS -> valid_frame_paddr pa ->
  pa + page_size (Z.of_nat (S l)) <= MAX_PADDR -> prop_req p -> Z.of_nat (length es) = nr_subpage_per_huge ->
  (forall j e, es !! j = Some e -> small_entry pa l p j e) ->
  table_ok lvl f l es /\ (forall e, e ∈ es -> ends l e = true) /\
  forall va e, 0 <= va -> es !! va_index va l = Some e ->
    entry_means l e va = Some (pa + pte_index va (Z.of_nat l) * BASE_PAGE_SIZE + va mod page_size (Z.of_nat l), Ret p).
Proof.
  intros Hf Hl Hl2 Hpa Hmax Hr Hlen Hes. assert (page_size (Z.of_nat (S l)) = nr_subpage_per_huge * page_size (Z.of_nat l)) as Hnx.
  { replace (Z.of_nat (S l)) with (Z.of_nat l + 1) by lia. apply page_size_next. lia. }
  destruct (page_mult l ltac:(lia)) as (k & Hk & Hps). destruct req_base as [Hb _].
  unfold table_ok. split_and!; [done|lia|lia|done| | |].
  - apply Forall_lookup_2. intros j e He. pose proof (lookup_lt_Some _ _ _ He). destruct (Hes j e He) as (Hw & Hp & Hla & Hpe & Hpr).
    split; [done|]. intros _. unfold maps_page. rewrite Hla, orb_true_r. unfold page_ok. rewrite Hpe. destruct Hpa as [Hpa0 Hal].
    assert (Z.of_nat j * BASE_PAGE_SIZE + page_size (Z.of_nat l) <= page_size (Z.of_nat (S l))).
    { rewrite Hnx. transitivity ((Z.of_nat j + 1) * page_size (Z.of_nat l)); [rewrite Hps; nia|]. apply Z.mul_le_mono_nonneg_r; [nia|lia]. }
    split_and!; [rewrite base_is_page, Z.mod_add by done; done|nia|lia|by exists p].
  - intros e [j He]%list_elem_of_lookup. destruct (Hes j e He) as (_ & _ & Hla & _). unfold ends, maps_page. by rewrite Hla, !orb_true_r.
  - intros va e Hva He. destruct (Hes _ e He) as (_ & Hp & _ & Hpe & Hpr). unfold entry_means. rewrite Hp, Hpe, Hpr. unfold va_index.
    destruct (index_digits va (Z.of_nat l)) as [Hi _]; [lia..|]. by rewrite Z2Nat.id by lia.
Qed.

(** The walk of [va] has been led to a page of level 1 that has the property of the page [x]; the other
    walks are as before. *)
Record reached lvl mem va x lvl' mem' (q : Z) e : Prop := {
  re_ok : mem_ok lvl' mem';
  re_level : lvl' !! q = Some 1%nat;
  re_entry : exists table, mem' !! q = Some table /\ table !! va_index va 1 = Some e;
  re_sub : lvl ⊆ lvl';
  re_present : is_present e = true;
  re_prop : prop e = prop (l_pte x);
  re_kept : forall lv pa va' y, 0 <= va' -> lvl !! pa = Some lv -> leaf mem lv pa va' = Some y -> place y <> place x ->
    leaf mem' lv pa va' = Some y /\ place y <> (q, va_index va 1);
}.

(** What the addresses of a page above level 2 mean after the split, apart from those of the entry of [va]. *)
Definition misplaced lvl mem va x mem' (q : Z) : Prop :=
  forall lv pa va' y, 0 <= va' -> lvl !! pa = Some lv -> leaf mem lv pa va' = Some y -> place y = place x ->
    va_index va' (pred (l_level x)) <> va_index va (pred (l_level x)) ->
    exists y', leaf mem' lv pa va' = Some y' /\ place y' <> (q, va_index va 1) /\
      entry_means (l_level y') (l_pte y') va' =
        Some (paddr (l_pte x) + pte_index va' (Z.of_nat (pred (l_level x))) * BASE_PAGE_SIZE
              + va' mod page_size (Z.of_nat (pred (l_level x))), prop (l_pte x)).

Lemma reached_here lvl mem va x : mem_ok lvl mem -> leaf_ok lvl mem va x -> l_level x = 1%nat -> is_present (l_pte x) = true ->
  reached lvl mem va x lvl mem (l_frame x) (l_pte x).
Proof.
  intros Hm [Hl Hi Hp _] H1' Hpe. rewrite H1' in *. split; try done; [by rewrite <- Hi|].
  intros lv pa va' y _ _ Hy Hne. split; [done|]. unfold place in Hne. by rewrite <- Hi.
Qed.

Lemma reached_graft lvl mem va l x table f es e1 p lvl' mem' q e :
  mem_ok lvl mem -> l_level x = S l -> leaf_ok lvl mem va x -> mem !! l_frame x = Some table ->
  mem !! f = None -> table_ok lvl f l es -> (forall e, e ∈ es -> ends l e = true) -> es !! va_index va l = Some e1 ->
  prop (l_pte x) = Ret p -> prop e1 = Ret p ->
  (forall va' e', 0 <= va' -> es !! va_index va' l = Some e' -> entry_means l e' va' =
     Some (paddr (l_pte x) + pte_index va' (Z.of_nat l) * BASE_PAGE_SIZE + va' mod page_size (Z.of_nat l), Ret p)) ->
  reached (<[f := l]> lvl) (<[l_frame x := <[l_index x := new_pt f]> table]> (<[f := es]> mem)) va
    (mk_leaf l f (va_index va l) e1) lvl' mem' q e ->
  reached lvl mem va x lvl' mem' q e /\ misplaced lvl mem va x mem' q.
Proof.
  intros Hm Hlx Hx Ht Hf Hes Hall He1 Hp Hp1 Hmean Hre. pose proof Hx as [Hl Hi (t & Ht' & Hpt) Hend]. rewrite Hlx in *.
  assert (t = table) as -> by congruence. pose proof (fresh_level _ _ _ Hm Hf) as Hlf.
  destruct (graft _ _ _ _ _ _ _ _ _ Hm Hl Ht Hpt Hend Hf Hes Hall) as (_ & _ & Hleaf). pose proof Hes as (_ & Hlv & Hlen & _).
  assert (forall pa lv, lvl !! pa = Some lv -> <[f := l]> lvl !! pa = Some lv) as Hweak.
  { intros pa lv Hpa. rewrite lookup_insert_ne; [done|congruence]. }
  split.
  - split; try apply Hre.
    + transitivity (<[f := l]> lvl); [by apply insert_subseteq|apply Hre].
    + rewrite (re_prop _ _ _ _ _ _ _ _ Hre). cbn. congruence.
    + intros lv pa va' y Hva' Hpa Hy Hne. apply (re_kept _ _ _ _ _ _ _ _ Hre); [done|by apply Hweak| |].
      * rewrite Hleaf, Hy by done. cbn [mbind option_bind]. by rewrite decide_False.
      * destruct (leaf_total _ _ va' Hm Hva' _ _ Hpa) as (y0 & Hy0 & [Hyl _ _ _] & _). rewrite Hy in Hy0. injection Hy0 as <-.
        unfold place. cbn. intros [= Hc _]. congruence.
  - intros lv pa va' y Hva' Hpa Hy Heq Hidx. rewrite Hlx in *. cbn [pred] in *.
    destruct (index_lookup va' l es Hva' ltac:(lia) Hlen) as [e' He'].
    assert (leaf (<[l_frame x := <[l_index x := new_pt f]> table]> (<[f := es]> mem)) lv pa va' = Some (mk_leaf l f (va_index va' l) e')) as Hy2.
    { rewrite Hleaf, Hy by done. cbn [mbind option_bind]. rewrite decide_True by done. by rewrite He'. }
    destruct (re_kept _ _ _ _ _ _ _ _ Hre lv pa va' _ Hva' (Hweak _ _ Hpa) Hy2) as [Hk Hpl]; [by intros [= ?]|].
    eexists. split; [exact Hk|]. split; [exact Hpl|]. cbn [l_level l_pte]. rewrite Hp. by apply Hmean.
Qed.

(** One split: the code up to the write of the new entry. *)
Lemma split_step lvl mem l e p : page_ok (S l) e -> prop e = Ret p -> prop_req p -> 1 <= Z.of_nat l -> Z.of_nat (S l) <= NR_LEVELS ->
  (size mem < pool)%nat ->
  exists f es, alloc_child mem = Ret (new_pt f, <[f := empty_ptes]> mem) /\ valid_frame_paddr f /\ mem !! f = None /\
    split_fill (<[f := empty_ptes]> mem) f (paddr e) (Z.of_nat (S l)) p 0 (Z.to_nat nr_subpage_per_huge) = Ret (<[f := es]> mem) /\
    table_ok lvl f l es /\ (forall e, e ∈ es -> ends l e = true) /\
    (forall j e', es !! j = Some e' -> small_entry (paddr e) l p j e') /\
    forall va e', 0 <= va -> es !! va_index va l = Some e' ->
      entry_means l e' va = Some (paddr e + pte_index va (Z.of_nat l) * BASE_PAGE_SIZE + va mod page_size (Z.of_nat l), Ret p).
Proof.
  intros (Hal & H0' & Hmax & _) Hp Hr Hl Hl2 Hsz. destruct (alloc_child_ok mem Hsz) as (f & Ha & Hv & Hnf).
  pose proof (nr_subpage_bound base_is_page) as Hnr. destruct (page_mult l ltac:(lia)) as (k & Hk & Hps). destruct req_base as [Hb _].
  assert (page_size (Z.of_nat (S l)) = nr_subpage_per_huge * page_size (Z.of_nat l)) as Hnx.
  { replace (Z.of_nat (S l)) with (Z.of_nat l + 1) by lia. apply page_size_next. lia. }
  assert (nr_subpage_per_huge * BASE_PAGE_SIZE <= page_size (Z.of_nat (S l))) as Hfit by (rewrite Hnx, Hps; nia).
  assert (valid_frame_paddr (paddr e)) as Hve by (split; [nia|done]).
  destruct (split_fill_spec mem f (paddr e) l p (Z.to_nat nr_subpage_per_huge) Hve Hr 0 empty_ptes) as (es & Hes & Hlen & Hall).
  { unfold empty_ptes. by rewrite length_replicate. }
  { rewrite Nat.add_0_l, Z2Nat.id by lia. lia. }
  assert (forall j e', es !! j = Some e' -> small_entry (paddr e) l p j e') as Hsm.
  { intros j e' He'. specialize (Hall j e' He'). by rewrite decide_True in Hall by lia. }
  unfold empty_ptes in Hlen at 1. rewrite length_replicate in Hlen.
  destruct (split_table lvl f l (paddr e) p es Hv Hl Hl2 Hve Hmax Hr ltac:(lia) Hsm) as (Htab & Hends & Hmeans).
  by exists f, es.
Qed.

(** At level 2 the base pages are the pages of the next level. *)
Lemma split_level_2 va e p : 0 <= va -> 2 <= NR_LEVELS -> is_present e = true -> prop e = Ret p ->
  Some (paddr e + pte_index va (Z.of_nat 1) * BASE_PAGE_SIZE + va mod page_size (Z.of_nat 1), Ret p) = entry_means 2 e va.
Proof.
  intros Hva Hnl Hp Hpr. unfold entry_means. rewrite Hp, Hpr. destruct (index_digits va 1) as [_ Hd]; [lia..|].
  change (Z.of_nat 2) with (1 + 1). change (Z.of_nat 1) with 1. rewrite Hd, page_size_1. do 2 f_equal. lia.
Qed.

Lemma protect_walk_spec va : 0 <= va -> forall lv lvl mem pa x, mem_ok lvl mem -> lvl !! pa = Some lv ->
  leaf mem lv pa va = Some x -> is_present (l_pte x) = true -> (size mem + l_level x <= S pool)%nat ->
  exists lvl' mem' q e, protect_walk mem lv (pa / BASE_PAGE_SIZE) va = Ret (Some (q / BASE_PAGE_SIZE), mem') /\
    reached lvl mem va x lvl' mem' q e /\
    ((l_level x <= 2)%nat -> prepared lvl mem va x lvl' mem' q (va_index va 1) e) /\
    ((2 < l_level x)%nat -> misplaced lvl mem va x mem' q).
Proof.
  intros Hva. induction lv as [|lv IH]; intros lvl mem pa x Hm Hl Hx Hp Hsz; [done|].
  destruct (leaf_total _ _ va Hm Hva _ _ Hl) as (x0 & Hx0 & Hxok & Hle). rewrite Hx in Hx0. injection Hx0 as <-.
  destruct (table_entry _ _ _ _ va Hm Hl Hva) as (lv' & table & e & Heq & Ht & (Hv & Hlv & Hlen & Hf) & He & Hok). injection Heq as <-.
  destruct lv as [|lv].
  { assert (l_level x = 1%nat) as H1' by (destruct (Hm _ _ (lf_level _ _ _ _ Hxok)) as (? & _ & _ & ? & _); lia).
    rewrite (leaf_step _ _ _ _ _ _ Ht He) in Hx. replace (ends 1 e) with true in Hx by (unfold ends, maps_page; by destruct (is_present e)).
    pose proof (prepared_here _ _ _ _ Hm Hxok H1') as Hpr. pose proof (reached_here _ _ _ _ Hm Hxok H1' Hp) as Hre.
    injection Hx as <-. exists lvl, mem, pa, e. split_and!; [done|done|done|cbn; lia]. }
  cbn [protect_walk]. fold (va_index va (S (S lv))). step (pte_read_ok _ _ _ _ _ Hv Ht He). destruct (maps_page (S (S lv)) e) eqn:Hmp.
  - rewrite (leaf_step _ _ _ _ _ _ Ht He) in Hx. unfold ends in Hx. rewrite Hmp, orb_true_r in Hx. injection Hx as <-. cbn [l_level l_pte] in *.
    rewrite Hp. cbn [negb]. replace (is_last e _) with true by (unfold maps_page in Hmp; cbn in Hmp; done).
    destruct Hok as [_ Hok]. specialize (Hok Hp). rewrite Hmp in Hok. pose proof Hok as (_ & _ & _ & p & Hpr & Hreq).
    destruct (split_step lvl mem (S lv) e p Hok Hpr Hreq ltac:(lia) ltac:(lia) ltac:(lia)) as (f & es & Ha & Hvf & Hnf & Hfill & Htab & Hends & Hsm & Hmean).
    step Ha. destruct (new_table f (S lv) Hvf ltac:(lia)) as (Hpf & _). step Hpr. rewrite Hpf. step Hfill. assert (pa <> f) by congruence.
    step (pte_write_ok (<[f := es]> mem) pa table _ e (new_pt f) Hv ltac:(by rewrite lookup_insert_ne) He).
    set (x := mk_leaf (S (S lv)) pa (va_index va (S (S lv))) e) in *.
    destruct (graft _ _ _ _ _ _ _ _ _ Hm Hl Ht He (lf_ends _ _ _ _ Hxok) Hnf Htab Hends) as (Hm2 & Hsz2 & _).
    destruct (index_lookup va (S lv) es Hva ltac:(lia) (proj1 (proj2 (proj2 Htab)))) as [e1 He1]. destruct (Hsm _ _ He1) as (_ & Hp1 & _ & _ & Hpr1).
    set (x1 := mk_leaf (S lv) f (va_index va (S lv)) e1).
    destruct (IH _ _ f x1 Hm2 ltac:(apply lookup_insert_eq)) as (lvl' & mem' & q & e' & Hw & Hre & Hprep & _).
    { rewrite (leaf_step _ _ _ _ es e1); [|by rewrite lookup_insert_ne, lookup_insert_eq by done|done].
      by rewrite (Hends e1) by (eapply list_elem_of_lookup_2, He1). }
    { done. }
    { cbn. lia. }
    destruct (reached_graft lvl mem va (S lv) x table f es e1 p lvl' mem' q e' Hm eq_refl Hxok Ht Hnf Htab Hends He1 Hpr Hpr1 Hmean Hre) as [Hre' Hmis].
    exists lvl', mem', q, e'. split_and!; [exact Hw|done| |done]. cbn. intros Hl2. assert (lv = 0%nat) as -> by lia.
    eapply (prepared_graft lvl mem va 1 x); try done; [|apply Hprep; cbn; lia].
    intros va' e2 Hva' He2. rewrite (Hmean va' e2 Hva' He2). apply split_level_2; done || lia.
  - assert (is_present e = true) as Hpe.
    { rewrite (leaf_step _ _ _ _ _ _ Ht He) in Hx. unfold ends in Hx. destruct (is_present e) eqn:Hpe; [done|]. injection Hx as <-. cbn in Hp. congruence. }
    destruct (walk_table _ _ _ _ _ _ _ Hm Hva Hl Ht He Hpe Hmp) as (Hle' & -> & Hlf). rewrite Hpe. cbn [negb]. rewrite Hlf in Hx. by apply (IH lvl).
Qed.

Lemma boot_protect_refused va op lvl mem self root x : 0 <= va -> mem_ok lvl mem -> root_pt self = root / BASE_PAGE_SIZE ->
  lvl !! root = Some (Z.to_nat NR_LEVELS) -> leaf mem (Z.to_nat NR_LEVELS) root va = Some x -> is_present (l_pte x) = false ->
  protect_base_page mem self va op = refuse mem.
Proof.
  intros Hva Hm Hr Hl Hx Hp. unfold protect_base_page. rewrite Hr. clear Hr. revert root Hl Hx.
  induction (Z.to_nat NR_LEVELS) as [|lv IH]; intros pa Hl Hx; [done|].
  destruct (table_entry _ _ _ _ va Hm Hl Hva) as (lv' & table & e & Heq & Ht & (Hv & Hlv & _) & He & Hok). injection Heq as <-.
  pose proof Hx as Hx'. rewrite (leaf_step _ _ _ _ _ _ Ht He) in Hx'. unfold ends in Hx'. destruct lv as [|lv]; cbn [protect_walk].
  - cbn [mbind outcome_bind]. change (Z.to_nat (pte_index va 1)) with (va_index va 1). step (pte_read_ok _ _ _ _ _ Hv Ht He).
    rewrite (orb_true_intro _ (maps_page 1 e)) in Hx' by (by right). injection Hx' as <-. cbn in Hp. by rewrite Hp.
  - fold (va_index va (S (S lv))). step (pte_read_ok _ _ _ _ _ Hv Ht He). destruct (is_present e) eqn:Hpe; cbn [negb orb] in Hx' |- *.
    + destruct (maps_page (S (S lv)) e) eqn:Hmp; [injection Hx' as <-; cbn in Hp; congruence|].
      destruct (walk_table _ _ _ _ _ _ _ Hm Hva Hl Ht He Hpe Hmp) as (Hle & -> & _). by apply IH.
    + unfold refuse. by destruct allow_panic.
Qed.

(** The last write of [protect_base_page]: the rest of the function after its loop. *)
Lemma reached_protect lvl mem va x lvl' mem' q e op p : reached lvl mem va x lvl' mem' q e -> prop (l_pte x) = Ret p -> prop_req (op p) ->
  exists e2, (pte ← pte_read mem' (q / BASE_PAGE_SIZE) (va_index va 1);
     if negb (is_present pte) then refuse mem'
     else p ← prop pte; pte ← new_page (paddr pte) 1 (op p); pte_write mem' (q / BASE_PAGE_SIZE) (va_index va 1) pte)
    = pte_write mem' (q / BASE_PAGE_SIZE) (va_index va 1) e2 /\
    pte_wf e2 /\ is_present e2 = true /\ page_ok 1 e2 /\ paddr e2 = paddr e /\ prop e2 = Ret (op p) /\
  exists mem2, pte_write mem' (q / BASE_PAGE_SIZE) (va_index va 1) e2 = Ret mem2 /\ mem_ok lvl' mem2 /\
    forall lv pa va' y, 0 <= va' -> lvl' !! pa = Some lv -> leaf mem' lv pa va' = Some y -> place y <> (q, va_index va 1) ->
      leaf mem2 lv pa va' = Some y.
Proof.
  intros [Hm Hl (table & Ht & He) Hsub Hpe Hpp _] Hp Hr. destruct (Hm _ _ Hl) as (t & Ht' & Hv & _ & _ & Hf).
  assert (t = table) as -> by congruence. destruct (Forall_lookup_1 _ _ _ _ Hf He) as [_ Hok]. specialize (Hok Hpe).
  destruct Hok as (Hal & H0' & Hmax & _). assert (valid_frame_paddr (paddr e)) as Hve.
  { split; [|done]. change (Z.of_nat 1) with 1 in Hmax. rewrite page_size_1 in Hmax. destruct req_base. lia. }
  destruct (base_page _ _ Hve Hr) as (e2 & Hn & Hwf & Hp2 & Hok2 & Hpa2 & Hpr2). exists e2.
  split; [step (pte_read_ok _ _ _ _ _ Hv Ht He); rewrite Hpe; cbn [negb]; rewrite Hpp; step Hp; by step Hn|].
  do 5 (split; [done|]). eexists. split; [by eapply pte_write_ok|]. split; [by apply (mem_ok_set _ _ _ 1)|].
  intros lv pa va' y Hva' Hpa Hy Hne. assert (ends 1 e = true) as Hend by (unfold ends, maps_page; by destruct (is_present e)).
  rewrite (leaf_set _ _ _ _ _ _ _ _ _ Hm Hva' Hl Ht He Hend _ _ Hpa), Hy. cbn [mbind option_bind]. by rewrite decide_False.
Qed.

Lemma same_leaf lvl mem va va' x y lv pa : mem_ok lvl mem -> 0 <= va' -> lvl !! pa = Some lv -> leaf mem lv pa va' = Some y ->
  leaf_ok lvl mem va x -> place y = place x -> l_level y = l_level x /\ l_pte y = l_pte x.
Proof.
  intros Hm Hva' Hpa Hy [Hl _ (t & Ht & He) _] [= Hfr Hix].
  destruct (leaf_total _ _ va' Hm Hva' _ _ Hpa) as (y0 & Hy0 & [Hl' _ (t' & Ht' & He') _] & _). rewrite Hy in Hy0. injection Hy0 as <-.
  rewrite Hfr in Hl', Ht'. rewrite Hix in He'. assert (t' = t) as -> by congruence. split; congruence.
Qed.

(** What the addresses of the prepared entry mean. *)
Lemma prepared_before lvl mem va x lvl' mem' q i e lv pa va' y : prepared lvl mem va x lvl' mem' q i e -> 0 <= va' ->
  lvl !! pa = Some lv -> leaf mem lv pa va' = Some y -> hits x y va va' -> is_present e = true ->
  translate mem lv pa va' = Some (paddr e + va' mod BASE_PAGE_SIZE, prop e).
Proof.
  intros [Hm -> Hl (t & Ht & He) Hsub Hw] Hva' Hpa Hy Hh Hp. destruct (Hw lv pa va' y Hva' Hpa Hy) as (y' & Hy' & Hmean & Hiff).
  apply Hiff in Hh. unfold translate. rewrite Hy. cbn [mbind option_bind]. rewrite <- Hmean.
  assert (leaf_ok lvl' mem' va (mk_leaf 1 q (va_index va 1) e)) as Hok.
  { split; cbn; [done|done|by exists t|]. unfold ends, maps_page. by destruct (is_present e). }
  destruct (same_leaf _ _ _ _ _ _ _ _ Hm Hva' (lookup_weaken _ _ _ _ Hpa Hsub) Hy' Hok Hh) as [-> ->].
  cbn [l_level l_pte]. unfold entry_means. rewrite Hp. change (Z.of_nat 1) with 1. by rewrite page_size_1.
Qed.

Lemma huge_before lvl mem va va' x y lv pa p : mem_ok lvl mem -> 0 <= va' -> lvl !! pa = Some lv -> leaf mem lv pa va' = Some y ->
  leaf_ok lvl mem va x -> place y = place x -> (2 < l_level x)%nat -> is_present (l_pte x) = true -> prop (l_pte x) = Ret p ->
  let next := pred (l_level x) in
  translate mem lv pa va' =
    Some (paddr (l_pte x) + (pte_index va' (Z.of_nat next) * page_size (Z.of_nat next) + va' mod page_size (Z.of_nat next)), Ret p).
Proof.
  intros Hm Hva' Hpa Hy Hx Heq Hl Hp Hpr next. unfold translate. rewrite Hy. cbn [mbind option_bind].
  destruct (same_leaf _ _ _ _ _ _ _ _ Hm Hva' Hpa Hy Hx Heq) as [-> ->]. unfold entry_means. rewrite Hp, Hpr.
  destruct (Hm _ _ (lf_level _ _ _ _ Hx)) as (_ & _ & _ & Hlv & _). destruct (index_digits va' (Z.of_nat next)) as [_ Hd]; [lia..|].
  replace (Z.of_nat next + 1) with (Z.of_nat (l_level x)) in Hd by lia. by rewrite Hd.
Qed.

(** C12: [protect_base_page] refuses an unmapped address, and never a mapped one, although its documentation says that it panics if the page is
    already mapped.  A page of level 1 or 2 it protects: the
    property changes by [op] for exactly the addresses of the base page (as for [map_base_page], those that end there through
    shared tables included), splitting a page of level 2, and nothing else changes.  A page of a higher level is split
    wrongly: the table that replaces it advances by base pages instead of pages of its level, so that the other addresses of
    the page translate to [paddr + index * BASE_PAGE_SIZE] where they meant [paddr + index * page_size]. *)
Theorem protect_base_page_correct lvl mem (self : BootPageTable) root va op x :
  mem_ok lvl mem -> root_address self = Ret root -> lvl !! root = Some (Z.to_nat NR_LEVELS) -> 0 <= va ->
  (size mem + Z.to_nat NR_LEVELS <= S pool)%nat -> leaf mem (Z.to_nat NR_LEVELS) root va = Some x ->
  (is_present (l_pte x) = false -> protect_base_page mem self va op = refuse mem) /\
  forall p, is_present (l_pte x) = true -> prop (l_pte x) = Ret p -> prop_req (op p) ->
    exists lvl' mem', protect_base_page mem self va op = Ret mem' /\ mem_ok lvl' mem' /\
    forall va' y, 0 <= va' -> leaf mem (Z.to_nat NR_LEVELS) root va' = Some y ->
      let before := translate mem (Z.to_nat NR_LEVELS) root va' in
      let after := translate mem' (Z.to_nat NR_LEVELS) root va' in
      let next := pred (l_level x) in
      (place y <> place x -> after = before) /\
      ((l_level x <= 2)%nat -> after = if decide (hits x y va va') then prod_map id (fun _ => Ret (op p)) <$> before else before) /\
      ((2 < l_level x)%nat -> place y = place x -> va_index va' next <> va_index va next ->
         let offset := va' mod page_size (Z.of_nat next) in
         before = Some (paddr (l_pte x) + (pte_index va' (Z.of_nat next) * page_size (Z.of_nat next) + offset), Ret p) /\
         after = Some (paddr (l_pte x) + pte_index va' (Z.of_nat next) * BASE_PAGE_SIZE + offset, Ret p)).
Proof.
  intros Hm Hroot Hl Hva Hsz Hx. destruct (Hm _ _ Hl) as (_ & _ & Hvr & _). pose proof (root_frame _ _ Hroot Hvr) as Hr.
  destruct (leaf_total _ _ va Hm Hva _ _ Hl) as (x0 & Hx0 & Hxok & Hle). rewrite Hx in Hx0. injection Hx0 as <-.
  split; [intros Hp; by eapply boot_protect_refused|]. intros p Hp Hpr Hreq.
  destruct (protect_walk_spec va Hva _ _ _ _ _ Hm Hl Hx Hp ltac:(lia)) as (lvl' & mem1 & q & e & Hw & Hre & Hprep & Hmis).
  destruct (reached_protect _ _ _ _ _ _ _ _ op p Hre Hpr Hreq) as (e2 & Hrest & Hwf & Hp2 & Hok2 & Hpa2 & Hpr2 & mem2 & Hwr & Hm2 & Hkeep).
  exists lvl', mem2. split_and!; [|done|].
  { unfold protect_base_page. rewrite Hr. step Hw. change (Z.to_nat (pte_index va 1)) with (va_index va 1). by rewrite Hrest. }
  intros va' y Hva' Hy before after next. pose proof (lookup_weaken _ _ _ _ Hl (re_sub _ _ _ _ _ _ _ _ Hre)) as Hl'. split_and!.
  - intros Hne. destruct (re_kept _ _ _ _ _ _ _ _ Hre _ _ va' y Hva' Hl Hy Hne) as [Hy' Hne'].
    unfold after, before, translate. by rewrite (Hkeep _ _ va' y Hva' Hl' Hy' Hne'), Hy.
  - intros Hl2. specialize (Hprep Hl2). destruct (prepared_write _ _ _ _ _ _ _ _ _ _ Hprep Hwf Hp2 Hok2) as (mem3 & Hwr3 & _ & Htr).
    assert (mem3 = mem2) as -> by congruence. unfold after. rewrite (Htr _ _ va' y Hva' Hl Hy). destruct (decide _) as [Hh|]; [|done].
    unfold before. rewrite (prepared_before _ _ _ _ _ _ _ _ _ _ _ _ _ Hprep Hva' Hl Hy Hh (re_present _ _ _ _ _ _ _ _ Hre)).
    cbn. by rewrite Hpa2, Hpr2.
  - intros Hl2 Heq Hidx offset. destruct (Hmis Hl2 _ _ va' y Hva' Hl Hy Heq Hidx) as (y' & Hy' & Hne' & Hmean).
    split; [|unfold after, translate; rewrite (Hkeep _ _ va' y' Hva' Hl' Hy' Hne'); cbn; by rewrite Hmean, Hpr].
    unfold before. by apply (huge_before lvl mem va va' x y).
Qed.

(** ** The walk over all tables *)

(** Entries, and memories, that mean the same. *)
Record entry_alike e e' : Prop := {
  al_present : is_present e' = is_present e;
  al_last : forall level, is_last e' level = is_last e level;
  al_paddr : paddr e' = paddr e;
  al_prop : prop e' = prop e;
}.

Global Instance entry_alike_preorder : PreOrder entry_alike.
Proof. split; [by intros e; split|]. intros a b c [] []. split; congruence. Qed.

Definition mem_alike mem mem' : Prop := forall pa, option_Forall2 (Forall2 entry_alike) (mem !! pa) (mem' !! pa).

Global Instance mem_alike_preorder : PreOrder mem_alike.
Proof.
  split; [intros mem pa; reflexivity|]. intros a b c Hab Hbc pa. specialize (Hab pa). specialize (Hbc pa).
  destruct Hab as [ta tb Hab|]; inversion Hbc; subst; constructor. by etransitivity.
Qed.

Lemma alike_lookup mem mem' pa table : mem_alike mem mem' -> mem !! pa = Some table ->
  exists table', mem' !! pa = Some table' /\ Forall2 entry_alike table table'.
Proof. intros Ha Ht. specialize (Ha pa). rewrite Ht in Ha. inversion Ha as [? t' Hf Heq Heq'|]. by exists t'. Qed.

Lemma alike_set mem pa table i e e' : mem !! pa = Some table -> table !! i = Some e -> entry_alike e e' ->
  mem_alike mem (<[pa := <[i := e']> table]> mem).
Proof.
  intros Ht He Ha q. destruct (decide (q = pa)) as [->|Hne]; [|rewrite lookup_insert_ne by done; reflexivity].
  rewrite lookup_insert_eq, Ht. constructor. rewrite <- (list_insert_id table i e He) at 1. by apply Forall2_insert.
Qed.

(** Translations depend on nothing else. *)
Lemma alike_leaf mem mem' va : mem_alike mem mem' -> forall lv pa,
  option_Forall2 (fun x x' => l_level x' = l_level x /\ place x' = place x /\ entry_alike (l_pte x) (l_pte x'))
    (leaf mem lv pa va) (leaf mem' lv pa va).
Proof.
  intros Ha. induction lv as [|lv IH]; intros pa; [constructor|]. cbn [leaf]. destruct (Ha pa) as [t t' Hf|]; [|constructor].
  cbn [mbind option_bind]. destruct (proj1 (Forall2_lookup _ _ _) Hf (va_index va (S lv))) as [e e' He|]; [|constructor].
  cbn [mbind option_bind]. assert (ends (S lv) e' = ends (S lv) e) as ->.
  { unfold ends, maps_page. by rewrite (al_present _ _ He), (al_last _ _ He). }
  destruct (ends (S lv) e); [by constructor|]. rewrite (al_paddr _ _ He). apply IH.
Qed.

Lemma alike_translate mem mem' lv pa va : mem_alike mem mem' -> translate mem' lv pa va = translate mem lv pa va.
Proof.
  intros Ha. unfold translate. destruct (alike_leaf _ _ va Ha lv pa) as [x x' (Hl & _ & He)|]; [|done]. cbn [mbind option_bind].
  unfold entry_means. by rewrite Hl, (al_present _ _ He), (al_paddr _ _ He), (al_prop _ _ He).
Qed.

Section dfs.
Context (op : E -> outcome E) (lvl : gmap Z nat) (mem0 : boot_mem E).
(** The operation keeps the meaning of the entries of tables. *)
Context (op_alike : forall mem pa lv table i e, mem_ok lvl mem -> mem_alike mem0 mem -> lvl !! pa = Some lv -> mem !! pa = Some table ->
  table !! i = Some e -> is_present e = true -> exists e', op e = Ret e' /\ pte_wf e' /\ entry_alike e e').

Lemma dfs_entry_alike walk lv pa mem i :
  (forall pa mem, lvl !! pa = Some (S lv) -> mem_ok lvl mem -> mem_alike mem0 mem ->
     exists mem', walk mem (pa / BASE_PAGE_SIZE) = Ret mem' /\ mem_ok lvl mem' /\ mem_alike mem mem') ->
  lvl !! pa = Some (S (S lv)) -> mem_ok lvl mem -> mem_alike mem0 mem -> Z.of_nat i < nr_subpage_per_huge ->
  exists mem', dfs_entry op walk (S (S lv)) (pa / BASE_PAGE_SIZE) (Ret mem) i = Ret mem' /\ mem_ok lvl mem' /\ mem_alike mem mem'.
Proof.
  intros Hwalk Hl Hm Ha Hi. destruct (Hm _ _ Hl) as (t & Ht & Hv & _ & Hlen & Hf).
  destruct (lookup_lt_is_Some_2 t i) as [e He]; [lia|]. unfold dfs_entry. cbn [mbind outcome_bind]. step (pte_read_ok _ _ _ _ _ Hv Ht He).
  destruct (is_present e && negb (is_last e (Z.of_nat (S (S lv))))) eqn:Hc; [|by exists mem].
  apply andb_true_iff in Hc as [Hp Hla%negb_true_iff]. destruct (Forall_lookup_1 _ _ _ _ Hf He) as [_ Hok]. specialize (Hok Hp).
  unfold maps_page in Hok. rewrite Hla in Hok. destruct (Hwalk _ mem Hok Hm Ha) as (mem1 & Hw & Hm1 & Ha1). step Hw.
  destruct (alike_lookup _ _ _ _ Ha1 Ht) as (t1 & Ht1 & Hf1). destruct (Forall2_lookup_l _ _ _ _ _ Hf1 He) as (e1 & He1 & Hae).
  step (pte_read_ok _ _ _ _ _ Hv Ht1 He1). assert (is_present e1 = true) as Hp1 by (by rewrite (al_present _ _ Hae)).
  destruct (op_alike mem1 pa _ t1 i e1 Hm1 ltac:(by transitivity mem) Hl Ht1 He1 Hp1) as (e2 & Hop & Hwf & Hae2). step Hop.
  eexists. split; [by eapply pte_write_ok|]. split; [|by transitivity mem1; [|by eapply alike_set]].
  apply (mem_ok_set _ _ _ _ _ _ _ Hm1 Hl Ht1). split; [done|]. intros _. unfold maps_page.
  by rewrite (al_last _ _ Hae2), (al_last _ _ Hae), (al_paddr _ _ Hae2), (al_paddr _ _ Hae), Hla.
Qed.

Lemma dfs_alike lv : forall pa mem, lvl !! pa = Some lv -> mem_ok lvl mem -> mem_alike mem0 mem ->
  exists mem', dfs_walk_on_leave op lv mem (pa / BASE_PAGE_SIZE) = Ret mem' /\ mem_ok lvl mem' /\ mem_alike mem mem'.
Proof.
  induction lv as [|lv IH]; intros pa mem Hl Hm Ha; [by exists mem|]. destruct lv as [|lv]; [by exists mem|].
  change (dfs_walk_on_leave op (S (S lv))) with (fun mem pt => foldl (dfs_entry op (dfs_walk_on_leave op (S lv)) (S (S lv)) pt) (Ret mem)
    (seq 0 (Z.to_nat nr_subpage_per_huge))). cbv beta.
  assert (forall i, i ∈ seq 0 (Z.to_nat nr_subpage_per_huge) -> Z.of_nat i < nr_subpage_per_huge) as Hin.
  { intros i Hi%elem_of_seq. lia. }
  revert mem Hm Ha. induction (seq 0 _) as [|i js IHs]; intros mem Hm Ha; [by exists mem|].
  cbn [foldl]. destruct (dfs_entry_alike _ lv pa mem i IH Hl Hm Ha) as (mem1 & -> & Hm1 & Ha1); [apply Hin; left|].
  destruct IHs with (mem := mem1) as (mem2 & Hr & Hm2 & Ha2); [intros j Hj; apply Hin; by right|done|by transitivity mem|].
  exists mem2. split_and!; [exact Hr|done|by transitivity mem1].
Qed.
End dfs.

(** [from_current_pt] returns for every page table whose entries have a readable property, with the current
    root; every address translates as before.  It also leaves the property of every entry as it was: no entry is
    marked as [PTE_POINTS_TO_FIRMWARE_PT], for the closure sets the property that it read and not the flags that it
    computed.  The walk reaches shared tables once for each entry that leads to them. *)
Theorem from_current_pt_transparent lvl mem root
  (set_prop_last : forall e p e' level, pte_wf e -> is_present e = true -> prop_req p ->
     set_prop e p = Ret e' -> is_last e' level = is_last e level) :
  mem_ok lvl mem -> lvl !! root = Some (Z.to_nat NR_LEVELS) ->
  (forall pa table e, is_Some (lvl !! pa) -> mem !! pa = Some table -> e ∈ table -> is_present e = true ->
     exists p, prop e = Ret p /\ prop_req p) ->
  exists self mem', from_current_pt mem root = Ret (self, mem') /\ root_address self = Ret root /\ mem_ok lvl mem' /\
    (forall lv pa va, translate mem' lv pa va = translate mem lv pa va) /\
    forall pa table, mem !! pa = Some table -> exists table', mem' !! pa = Some table' /\ prop <$> table' = prop <$> table.
Proof.
  intros Hm Hl Hprop. destruct (Hm _ _ Hl) as (_ & _ & Hv & _).
  destruct (dfs_alike firmware_op lvl mem) with (lv := Z.to_nat NR_LEVELS) (pa := root) (mem := mem) as (mem' & Hd & Hm' & Ha); [|done|done|done|].
  { intros mem1 pa lv t i e Hm1 Ha1 Hpa Ht He Hp. destruct (Hm _ _ Hpa) as (t0 & Ht0 & _).
    destruct (alike_lookup _ _ _ _ Ha1 Ht0) as (t1 & Ht1 & Hf1). assert (t1 = t) as -> by congruence.
    destruct (Forall2_lookup_r _ _ _ _ _ Hf1 He) as (e0 & He0 & Hae).
    destruct (Hprop pa t0 e0) as (p & Hpr & Hreq); [by eexists|done|by eapply list_elem_of_lookup_2|by rewrite <- (al_present _ _ Hae)|].
    destruct (Hm1 _ _ Hpa) as (t2 & Ht2 & _ & _ & _ & Hf2). assert (t2 = t) as -> by congruence.
    destruct (Forall_lookup_1 _ _ _ _ Hf2 He) as [Hwf _]. destruct (set_prop_law e p Hwf Hp Hreq) as (e' & Hs & Hwf' & Hp' & Hpr' & Hpa' & _).
    exists e'. unfold firmware_op. rewrite (al_prop _ _ Hae), Hpr. cbn [mbind outcome_bind]. split_and!; [done|done|].
    split; [congruence|intros level; by eapply set_prop_last|done|]. by rewrite Hpr', (al_prop _ _ Hae), Hpr. }
  eexists _, mem'. unfold from_current_pt. step Hd. split_and!; [done|by apply frame_base|done|intros; by apply alike_translate|].
  intros pa t Ht. destruct (alike_lookup _ _ _ _ Ha Ht) as (t' & Ht' & Hf). exists t'. split; [done|].
  clear -Hf. induction Hf as [|e e' l l' He _ IH]; [done|]. cbn. by rewrite IH, (al_prop _ _ He).
Qed.
End boot.

(** ** A boot page table of x86-64 *)

Module BootExample.
Local Existing Instance X86.consts.
Local Existing Instance X86.reqs.

Notation pte64 := PageTableEntry.

Definition boot_frames : list Z := [0x5000; 0x6000; 0x7000; 0x8000; 0x9000].
Definition boot_alloc : boot_mem pte64 -> option Z := pool_alloc boot_frames.

Lemma boot_alloc_new mem f : boot_alloc mem = Some f -> valid_frame_paddr f /\ mem !! f = None.
Proof. apply pool_alloc_fresh. repeat constructor; done. Qed.

Lemma boot_alloc_pool mem : (size mem < 5)%nat -> is_Some (boot_alloc mem).
Proof. apply (pool_alloc_succeeds boot_frames). apply (bool_decide_unpack _). reflexivity. Qed.

(** A root, a table of level 3 and in that a page of 1 GiB, for the addresses from 1 GiB on. *)
Definition huge3 : pte64 := match new_page 0x40000000 3 sample_prop with Ret e => e | Panic => new_absent end.
Definition boot_mem3 : boot_mem pte64 :=
  <[0x1000 := <[0%nat := new_pt 0x2000]> empty_ptes]> (<[0x2000 := <[1%nat := huge3]> empty_ptes]> ∅).
Definition boot_lvl3 : gmap Z nat := <[0x1000 := 4%nat]> (<[0x2000 := 3%nat]> ∅).

Lemma boot_table_ok pa lv i (e : pte64) : valid_frame_paddr pa -> 1 <= Z.of_nat lv <= 4 -> entry_ok boot_lvl3 lv e ->
  table_ok boot_lvl3 pa lv (<[i := e]> empty_ptes).
Proof.
  intros Hv Hl He. destruct (absent_table Example86.base86 pa lv boot_lvl3 Hv Hl) as [(_ & _ & Hlen & Hf) _].
  split_and!; [done|apply Hl|apply Hl|by rewrite length_insert|]. by apply Forall_insert.
Qed.

Lemma boot_mem3_ok : mem_ok boot_lvl3 boot_mem3.
Proof.
  intros pa lv Hl. unfold boot_lvl3 in Hl. apply lookup_insert_Some in Hl as [[<- <-]|[_ [[<- <-]|[_ []%lookup_empty_Some]]%lookup_insert_Some]].
  - exists (<[0%nat := new_pt 0x2000]> empty_ptes). split; [apply lookup_insert_eq|]. apply boot_table_ok; [split; done|done|].
    split; [vm_compute; split; discriminate || done|]. intros _. reflexivity.
  - exists (<[1%nat := huge3]> empty_ptes). split; [done|]. apply boot_table_ok; [split; done|done|].
    split; [vm_compute; split; discriminate || done|]. intros _.
    split_and!; [reflexivity|vm_compute; discriminate|vm_compute; discriminate|]. exists sample_prop. split; [reflexivity|apply Example86.sample_prop_req].
Qed.

Lemma boot_table_entry i (e0 e : pte64) : e ∈ <[i := e0]> empty_ptes -> is_present e = true -> e = e0.
Proof.
  intros [j Hj]%list_elem_of_lookup Hp. destruct (decide (i = j)) as [<-|Hne].
  - apply list_lookup_insert_Some in Hj as [(_ & -> & _)|(? & _)]; done.
  - rewrite list_lookup_insert_ne in Hj by done. apply lookup_replicate in Hj as [-> _]. done.
Qed.

Lemma boot_mem3_props pa table (e : pte64) : is_Some (boot_lvl3 !! pa) -> boot_mem3 !! pa = Some table -> e ∈ table -> is_present e = true ->
  exists p, prop e = Ret p /\ prop_req p.
Proof.
  intros _ Ht He Hp. unfold boot_mem3 in Ht.
  apply lookup_insert_Some in Ht as [[<- <-]|[_ [[<- <-]|[_ []%lookup_empty_Some]]%lookup_insert_Some]];
    apply boot_table_entry in He as ->; try done; eexists; (split; [reflexivity|split; [split; reflexivity|split; reflexivity]]).
Qed.

Definition boot_self : BootPageTable := mk_boot 1.

Lemma map_base_page_correct_witness :
  exists mem', map_base_page true boot_alloc boot_mem3 boot_self 0x5000 7 sample_prop = Ret mem' /\
    translate mem' 4 0x1000 0x5123 = Some (0x7123, Ret sample_prop) /\
    translate mem' 4 0x1000 0x40000123 = Some (0x40000123, Ret sample_prop).
Proof.
  destruct (proj2 (map_base_page_correct true boot_alloc Example86.base86 boot_alloc_new 5 boot_alloc_pool boot_lvl3 boot_mem3 boot_self
    0x1000 0x5000 7 sample_prop (mk_leaf 3 0x2000 0 new_absent) boot_mem3_ok eq_refl eq_refl ltac:(lia) ltac:(split; done)
    Example86.sample_prop_req ltac:(vm_compute; lia) eq_refl) eq_refl) as (lvl' & mem' & Hm & _ & Htr).
  exists mem'. split_and!; [exact Hm| |].
  - exact (Htr 0x5123 (mk_leaf 3 0x2000 0 new_absent) ltac:(lia) eq_refl).
  - exact (Htr 0x40000123 (mk_leaf 3 0x2000 1 huge3) ltac:(lia) eq_refl).
Defined.

(** Protecting the first base page of the huge page moves the page at 1 GiB + 2 MiB. *)
Lemma protect_base_page_correct_witness :
  translate boot_mem3 4 0x1000 0x40200000 = Some (0x40200000, Ret sample_prop) /\
  exists mem', protect_base_page true boot_alloc boot_mem3 boot_self 0x40000000 (fun p => p) = Ret mem' /\
    translate mem' 4 0x1000 0x40200000 = Some (0x40001000, Ret sample_prop).
Proof.
  split; [reflexivity|].
  destruct (proj2 (protect_base_page_correct true boot_alloc Example86.base86 boot_alloc_new 5 boot_alloc_pool boot_lvl3 boot_mem3 boot_self
    0x1000 0x40000000 (fun p => p) (mk_leaf 3 0x2000 1 huge3) boot_mem3_ok eq_refl eq_refl ltac:(lia) ltac:(vm_compute; lia) eq_refl)
    sample_prop eq_refl eq_refl Example86.sample_prop_req) as (lvl' & mem' & Hm & _ & Htr).
  exists mem'. split; [exact Hm|].
  apply (proj2 (proj2 (proj2 (Htr 0x40200000 (mk_leaf 3 0x2000 1 huge3) ltac:(lia) eq_refl)) ltac:(cbn; lia) eq_refl ltac:(vm_compute; lia))).
Defined.

Lemma from_current_pt_transparent_witness :
  exists self mem', from_current_pt boot_mem3 0x1000 = Ret (self, mem') /\ root_address self = Ret 0x1000 /\
    translate mem' 4 0x1000 0x40000123 = Some (0x40000123, Ret sample_prop).
Proof.
  destruct (from_current_pt_transparent Example86.base86 boot_lvl3 boot_mem3 0x1000) as (self & mem' & Hf & Hr & _ & Htr & _).
  - intros e p e' level Hw Hp Hreq Hs. destruct Hreq as [Hinv Hc].
    destruct (x86_set_prop_ok e p Hw Hp Hinv ltac:(apply Hc)) as (e1 & Hs1 & _ & _ & _ & Hla & _).
    cbn in Hs |- *. assert (e' = e1) as -> by congruence. apply Hla.
  - exact boot_mem3_ok.
  - reflexivity.
  - exact boot_mem3_props.
  - exists self, mem'. split_and!; [exact Hf|exact Hr|]. rewrite Htr. reflexivity.
Defined.
End BootExample.
