(* ===== verification/PtLock.v ===== *)
(** * [ostd/src/mm/page_table/cursor/locking.rs]: locking the range of a cursor

    A new cursor goes down to the lowest node that covers its range, creating
    missing tables on the way, locks it, and locks all nodes below that translate
    addresses of the range.  A node that another thread removed from the table
    is marked as stray: then the search starts over.

    The functions run alone here: waiting for a lock that is held would not
    end and is a panic of the model.  [Cursor::new] is shown to lock exactly
    the nodes that translate addresses of the range, from the node of the guard
    level on, and to return a cursor in the invariant of [PtCursor]. *)

From S2P Require Import Prelude Agents AlignExt Paging FrameMeta PageProp Pte PteX86 PtChild PtNode PtTree PtStray PtCursor PtConfig.
Open Scope Z_scope.

Section lock.
Context `{PagingConstsTrait} `{PageTableEntryTrait E} `{PageTableConfig}.
Context (allow_panic debug_assertions : bool) (alloc_frame : pt_store E -> option Z).
Implicit Types (st : pt_store E) (pa q root va lv : Z) (i k : nat) (n m : pt_node E) (r : range).

Definition set_lock n (l : Z) : pt_node E := mk_node (mk_meta (nr_children (meta n)) (stray (meta n)) (level (meta n)) l) (ptes n).

(** Dropping a guard. *)
Definition unlock_node st pa : outcome (pt_store E) := n ← get_node st pa; Ret (<[pa := set_lock n 0]> st).

Definition dfs_get_idx_range lv (cur_node_va : Z) r : outcome range :=
  let ps := page_size lv in
  diff ← usub (r_end r) cur_node_va;
  offset ← usub (r_start r) cur_node_va;
  sum ← uadd 64 diff ps;
  last ← usub sum 1;
  Ret (mk_range (offset / ps) (last / ps)).

Definition range_list r : list nat := seq (Z.to_nat (r_start r)) (Z.to_nat (r_end r - r_start r)).

(** The part of the range that a child covers. *)
Definition child_range lv (child_node_va : Z) r : outcome range :=
  child_node_va_end ← uadd 64 child_node_va (page_size lv);
  Ret (mk_range (Z.max (r_start r) child_node_va) (Z.min (r_end r) child_node_va_end)).

(** One round of the loop of [dfs_acquire_lock]. *)
Definition acquire_entry (rec : pt_store E -> Z -> Z -> range -> outcome (pt_store E)) pa lv (cur_node_va : Z) r
    (acc : outcome (pt_store E)) i : outcome (pt_store E) :=
  st ← acc;
  child ← entry allow_panic st pa i;
  c ← to_ref st child;
  match c with
  | RefPageTable nd =>
      pt ← meta_to_frame nd;
      st1 ← lock_node st pt;
      offset ← umul 64 (Z.of_nat i) (page_size lv);
      child_node_va ← uadd 64 cur_node_va offset;
      r' ← child_range lv child_node_va r;
      rec st1 pt child_node_va r'
  | RefNone | RefFrame _ _ _ => Ret st
  end.

Fixpoint dfs_acquire_lock (fuel : nat) st pa (cur_node_va : Z) r : outcome (pt_store E) :=
  match fuel with
  | O => Panic
  | S fuel' =>
      cur_level ← node_level st pa;
      if cur_level =? 1 then Ret st
      else
        idx_range ← dfs_get_idx_range cur_level cur_node_va r;
        foldl (acquire_entry (dfs_acquire_lock fuel') pa cur_level cur_node_va r) (Ret st) (range_list idx_range)
  end.

(** One round of the loop of [dfs_release_lock]: the guard of the child is dropped at its end. *)
Definition release_entry (rec : pt_store E -> Z -> Z -> range -> outcome (pt_store E)) pa lv (cur_node_va end_ : Z) r
    (acc : outcome (pt_store E)) i : outcome (pt_store E) :=
  st ← acc;
  j ← usub end_ (Z.of_nat i);
  child ← entry allow_panic st pa (Z.to_nat j);
  c ← to_ref st child;
  match c with
  | RefPageTable nd =>
      pt ← meta_to_frame nd;
      offset ← umul 64 j (page_size lv);
      child_node_va ← uadd 64 cur_node_va offset;
      r' ← child_range lv child_node_va r;
      st1 ← rec st pt child_node_va r';
      unlock_node st1 pt
  | RefNone | RefFrame _ _ _ => Ret st
  end.

Fixpoint dfs_release_lock (fuel : nat) st pa (cur_node_va : Z) r : outcome (pt_store E) :=
  match fuel with
  | O => Panic
  | S fuel' =>
      cur_level ← node_level st pa;
      if cur_level =? 1 then Ret st
      else
        idx_range ← dfs_get_idx_range cur_level cur_node_va r;
        foldl (release_entry (dfs_release_lock fuel') pa cur_level cur_node_va (r_end idx_range) r) (Ret st) (range_list idx_range)
  end.

(** The guard that is held, or a new one. *)
Definition take_guard st (cur_pt_addr : Z) (cur_node_guard : option Z) : outcome (Z * pt_store E) :=
  match cur_node_guard with
  | Some pt_guard => Ret (pt_guard, st)
  | None => st' ← lock_node st cur_pt_addr; Ret (cur_pt_addr, st')
  end.

Definition drop_guard st (cur_node_guard : option Z) : outcome (pt_store E) :=
  match cur_node_guard with Some pt_guard => unlock_node st pt_guard | None => Ret st end.

(** The loop of [try_traverse_and_lock_subtree_root] from [cur_level] down; [None] when a stray node is met. *)
Fixpoint traverse_loop (cur_level : nat) st (cur_pt_addr : Z) (cur_node_guard : option Z) r
  : outcome (option (Z * option Z) * pt_store E) :=
  match cur_level with
  | O => Ret (Some (cur_pt_addr, cur_node_guard), st)
  | S cur_level' =>
      let lv := Z.of_nat cur_level in
      let start_idx := pte_index (r_start r) lv in
      end_va ← usub (r_end r) 1;
      let level_too_high := (1 <? lv) && (start_idx =? pte_index end_va lv) in
      if negb level_too_high then Ret (Some (cur_pt_addr, cur_node_guard), st)
      else
        cur_pte ← read_pte st cur_pt_addr (Z.to_nat start_idx);
        if is_present cur_pte then
          if is_last cur_pte lv then Ret (Some (cur_pt_addr, cur_node_guard), st)
          else st1 ← drop_guard st cur_node_guard; traverse_loop cur_level' st1 (paddr cur_pte) None r
        else
          ' (pt_guard, st1) ← take_guard st cur_pt_addr cur_node_guard;
          n ← get_node st1 pt_guard;
          if stray (meta n) then st2 ← unlock_node st1 pt_guard; Ret (None, st2)
          else
            cur_entry ← entry allow_panic st1 pt_guard (Z.to_nat start_idx);
            if entry_is_none cur_entry then
              ' (allocated, _, st2) ← alloc_if_none alloc_frame st1 cur_entry;
              allocated_guard ← unwrap allocated;
              st3 ← unlock_node st2 pt_guard;
              traverse_loop cur_level' st3 allocated_guard (Some allocated_guard) r
            else
              is_node ← entry_is_node st1 cur_entry;
              if is_node : bool then
                child ← to_ref st1 cur_entry;
                match child with
                | RefPageTable nd =>
                    pt ← meta_to_frame nd;
                    st2 ← unlock_node st1 pt_guard;
                    traverse_loop cur_level' st2 pt None r
                | RefNone | RefFrame _ _ _ => Panic
                end
              else st2 ← unlock_node st1 pt_guard; Ret (Some (cur_pt_addr, None), st2)
  end.

Definition try_traverse_and_lock_subtree_root st root r : outcome (option Z * pt_store E) :=
  ' (found, st1) ← traverse_loop (Z.to_nat NR_LEVELS) st root None r;
  match found with
  | None => Ret (None, st1)
  | Some (cur_pt_addr, cur_node_guard) =>
      ' (pt_guard, st2) ← take_guard st1 cur_pt_addr cur_node_guard;
      n ← get_node st2 pt_guard;
      if stray (meta n) then st3 ← unlock_node st2 pt_guard; Ret (None, st3) else Ret (Some pt_guard, st2)
  end.

(** The loop of [lock_range], with fuel for its attempts. *)
Fixpoint find_subtree_root (fuel : nat) st root r : outcome (Z * pt_store E) :=
  match fuel with
  | O => Panic
  | S fuel' =>
      ' (candidate, st1) ← try_traverse_and_lock_subtree_root st root r;
      match candidate with
      | Some candidate_root => Ret (candidate_root, st1)
      | None => find_subtree_root fuel' st1 root r
      end
  end.

Definition lock_range (fuel : nat) st root r : outcome (Cursor * pt_store E) :=
  ' (subtree_root, st1) ← find_subtree_root fuel st root r;
  guard_level ← node_level st1 subtree_root;
  cur_node_va ← align_down 64 (r_start r) (page_size (guard_level + 1));
  st2 ← dfs_acquire_lock (Z.to_nat NR_LEVELS) st1 subtree_root cur_node_va r;
  i ← usub guard_level 1;
  path ← arr_set (replicate MAX_NR_LEVELS None) (Z.to_nat i) (Some subtree_root);
  Ret (mk_cursor path guard_level guard_level (r_start r) r, st2).

Definition cursor_new (fuel : nat) st root r : outcome ((Cursor + PageTableError) * pt_store E) :=
  if negb (is_valid_range TOP_LEVEL_INDEX_RANGE r) || (r_end r <=? r_start r)
  then Ret (inr (InvalidVaddrRange (r_start r) (r_end r)), st)
  else if negb (r_start r mod BASE_PAGE_SIZE =? 0) || negb (r_end r mod BASE_PAGE_SIZE =? 0)
  then Ret (inr UnalignedVaddr, st)
  else ' (c, st') ← lock_range fuel st root r; Ret (inl c, st').

(** ** The children that a range meets *)

Context `{!PagingConstsReqs} `{!PageTableEntryLaws E} `{U : !Uncounted} (base_is_page : BASE_PAGE_SIZE = PAGE_SIZE).
Context (address_bits : ADDRESS_WIDTH < 63).

Lemma nr_pos : 0 < nr_subpage_per_huge.
Proof. pose proof nr_subpage_pow as [-> Hk]. apply Z.pow_pos_nonneg; lia. Qed.

(** The range [r] lies in the slot [P] of the level above [lv], which a node of the level [lv] covers. *)
Record in_slot (P lv : Z) r : Prop := {
  is_level : 1 <= lv <= NR_LEVELS;
  is_range : P * page_size (lv + 1) <= r_start r < r_end r /\ r_end r <= (P + 1) * page_size (lv + 1);
  is_bounds : 0 <= P /\ (slot (r_end r - 1) lv + 1) * page_size lv < 2 ^ 64;
}.

Lemma in_slot_va P lv r va : in_slot P lv r -> in_range r va -> 0 <= va /\ slot va (lv + 1) = P.
Proof.
  intros [Hl [Hr Hr'] [HP _]] [Hv Hv']. know (page_size_pos (lv + 1)) as Hps. split; [nia|]. unfold slot.
  symmetry. apply (Z.div_unique_pos _ _ _ (va - P * page_size (lv + 1))); lia.
Qed.

Lemma in_slot_index P lv va : 1 <= lv <= NR_LEVELS -> 0 <= va -> slot va (lv + 1) = P ->
  pte_index va lv = slot va lv - P * nr_subpage_per_huge /\ 0 <= pte_index va lv < nr_subpage_per_huge.
Proof.
  intros Hl Hv Hs. rewrite slot_index by done. rewrite slot_up in Hs by lia. pose proof nr_pos as Hn.
  know (Z.div_mod (slot va lv) nr_subpage_per_huge) as Hd. know (Z.mod_pos_bound (slot va lv) nr_subpage_per_huge) as Hb. lia.
Qed.

Lemma slot_sub va a lv : 1 <= lv <= NR_LEVELS -> slot va lv - a = (va - a * page_size lv) / page_size lv.
Proof. intros Hl. know (page_size_pos lv) as Hp. unfold slot. replace (va - a * page_size lv) with (va + (- a) * page_size lv) by lia. rewrite Z.div_add by lia. lia. Qed.

Lemma idx_range_ok P lv r : in_slot P lv r ->
  dfs_get_idx_range lv (P * page_size (lv + 1)) r = Ret (mk_range (pte_index (r_start r) lv) (pte_index (r_end r - 1) lv + 1)).
Proof.
  intros Hs. pose proof Hs as [Hl [Hr Hr'] [HP Hlim]]. know (page_size_pos lv) as Hp. know (page_size_next lv) as Hn. pose proof nr_pos as Hnr.
  destruct (in_slot_va P lv r (r_start r) Hs) as [Hv1 Hs1]; [split; lia|].
  destruct (in_slot_va P lv r (r_end r - 1) Hs) as [Hv2 Hs2]; [split; lia|].
  assert (page_size (lv + 1) <= 2 ^ 62) as Hbig.
  { know (page_size_pow (lv + 1)) as Hpw. know (offset_bound (lv + 1)) as Ho. pose proof base_pow as [_ ?]. rewrite Hpw. apply Z.pow_le_mono_r; lia. }
  assert (page_size lv <= page_size (lv + 1)) by nia. know (slot_bounds (r_end r - 1) lv) as Hb2.
  unfold dfs_get_idx_range. step usub_ok by lia. step usub_ok by lia. step uadd_ok by lia. step usub_ok by lia.
  destruct (in_slot_index P lv _ Hl Hv1 Hs1) as [-> _]. destruct (in_slot_index P lv _ Hl Hv2 Hs2) as [-> _].
  rewrite !slot_sub by done. replace (P * nr_subpage_per_huge * page_size lv) with (P * page_size (lv + 1)) by (rewrite Hn; lia).
  replace (r_end r - P * page_size (lv + 1) + page_size lv - 1) with (r_end r - 1 - P * page_size (lv + 1) + 1 * page_size lv) by lia.
  by rewrite Z.div_add by lia.
Qed.

(** The part of the range below the child [i], and the slot of the child. *)
Definition child_slot (P : Z) i : Z := P * nr_subpage_per_huge + Z.of_nat i.
Definition cut (P lv : Z) r i : range :=
  mk_range (Z.max (r_start r) (child_slot P i * page_size lv)) (Z.min (r_end r) (child_slot P i * page_size lv + page_size lv)).

Lemma in_cut P lv r i va : in_slot P lv r -> (Z.of_nat i < nr_subpage_per_huge) ->
  in_range (cut P lv r i) va <-> in_range r va /\ Z.to_nat (pte_index va lv) = i.
Proof.
  intros Hs Hi. pose proof Hs as [Hl _ _]. know (page_size_pos lv) as Hp.
  assert (in_range r va -> (Z.to_nat (pte_index va lv) = i <-> slot va lv = child_slot P i)) as Hslot.
  { intros Hr. destruct (in_slot_va P lv r va Hs Hr) as [Hv Hs']. destruct (in_slot_index P lv va Hl Hv Hs') as [-> ?]. unfold child_slot. lia. }
  assert (slot va lv = child_slot P i <-> child_slot P i * page_size lv <= va < child_slot P i * page_size lv + page_size lv) as Hb.
  { split; [intros <-; by apply slot_bounds; lia|]. intros Hr. unfold slot. symmetry.
    apply (Z.div_unique_pos _ _ _ (va - child_slot P i * page_size lv)); lia. }
  unfold in_range, cut in *. cbn [r_start r_end]. split.
  - intros Hr. split; [lia|]. apply Hslot, Hb; lia.
  - intros [Hr Hix]. apply Hslot, Hb in Hix; lia.
Qed.

Lemma idx_list_spec P lv r i : in_slot P lv r ->
  i ∈ range_list (mk_range (pte_index (r_start r) lv) (pte_index (r_end r - 1) lv + 1)) <->
  Z.of_nat i < nr_subpage_per_huge /\ exists va, in_range (cut P lv r i) va.
Proof.
  intros Hs. pose proof Hs as [Hl [Hr Hr'] _]. know (page_size_pos lv) as Hp.
  assert (forall va, in_range r va -> 0 <= pte_index va lv < nr_subpage_per_huge /\ pte_index va lv = slot va lv - P * nr_subpage_per_huge) as Hix.
  { intros va Hva. destruct (in_slot_va P lv r va Hs Hva) as [Hv Hs']. destruct (in_slot_index P lv va Hl Hv Hs'). done. }
  destruct (Hix (r_start r)) as [Hi1 He1]; [split; lia|]. destruct (Hix (r_end r - 1)) as [Hi2 He2]; [split; lia|].
  unfold range_list. cbn [r_start r_end]. rewrite elem_of_seq. split.
  - intros Hi. split; [lia|]. know (slot_bounds (r_start r) lv) as Hb1. know (slot_bounds (r_end r - 1) lv) as Hb2.
    exists (Z.max (r_start r) (child_slot P i * page_size lv)). unfold in_range, cut, child_slot. cbn [r_start r_end].
    set (ps := page_size lv) in *. set (s1 := slot (r_start r) lv) in *. set (s2 := slot (r_end r - 1) lv) in *.
    assert (s1 <= P * nr_subpage_per_huge + Z.of_nat i <= s2) by lia. nia.
  - intros [Hi [va Hva]]. apply (in_cut P lv r i va Hs Hi) in Hva as [Hva <-]. destruct (Hix va Hva) as [Hiv Hev]. destruct Hva.
    assert (slot (r_start r) lv <= slot va lv) by (apply slot_mono; lia). assert (slot va lv <= slot (r_end r - 1) lv) by (apply slot_mono; lia). lia.
Qed.

(** The slots of a level end before those of the next level. *)
Lemma slot_end va lv : 1 <= lv <= NR_LEVELS -> (slot va lv + 1) * page_size lv <= (slot va (lv + 1) + 1) * page_size (lv + 1).
Proof.
  intros Hl. know (page_size_pos lv) as Hp. know (page_size_next lv) as Hn. pose proof nr_pos as Hnr. rewrite slot_up, Hn by lia.
  know (Z.div_mod (slot va lv) nr_subpage_per_huge) as Hd. know (Z.mod_pos_bound (slot va lv) nr_subpage_per_huge) as Hb.
  assert (slot va lv + 1 <= (slot va lv / nr_subpage_per_huge + 1) * nr_subpage_per_huge) by lia. nia.
Qed.

Lemma met_slot P lv r i va : in_slot P lv r -> Z.of_nat i < nr_subpage_per_huge -> in_range (cut P lv r i) va ->
  child_slot P i = slot va lv /\ va <= r_end r - 1.
Proof.
  intros Hs Hi Hva. pose proof Hs as [Hl _ _]. apply (in_cut P lv r i va Hs Hi) in Hva as [Hva Hix]. pose proof Hva as [_ Hv'].
  destruct (in_slot_va P lv r va Hs Hva) as [Hv Hs']. destruct (in_slot_index P lv va Hl Hv Hs') as [He Hb]. unfold child_slot. lia.
Qed.

Lemma child_in_slot P lv r i : in_slot P lv r -> 1 < lv -> Z.of_nat i < nr_subpage_per_huge -> (exists va, in_range (cut P lv r i) va) ->
  in_slot (child_slot P i) (lv - 1) (cut P lv r i).
Proof.
  intros Hs Hl1 Hi [va Hva]. pose proof Hs as [Hl [Hr Hr'] [HP Hlim]]. know (page_size_pos lv) as Hp.
  pose proof Hva as [Hv1 Hv2]. split; replace (lv - 1 + 1) with lv by lia; [lia| |].
  - unfold cut in *. cbn [r_start r_end] in *. lia.
  - pose proof nr_pos. unfold child_slot. split; [nia|]. know (slot_end (r_end (cut P lv r i) - 1) (lv - 1)) as He.
    replace (lv - 1 + 1) with lv in He by lia. assert (r_end (cut P lv r i) - 1 <= r_end r - 1) by (unfold cut; cbn [r_end]; lia).
    know (slot_mono (r_end (cut P lv r i) - 1) (r_end r - 1) lv) as Hm. nia.
Qed.

Lemma child_args P lv r i : in_slot P lv r -> Z.of_nat i < nr_subpage_per_huge -> (exists va, in_range (cut P lv r i) va) ->
  umul 64 (Z.of_nat i) (page_size lv) = Ret (Z.of_nat i * page_size lv) /\
  uadd 64 (P * page_size (lv + 1)) (Z.of_nat i * page_size lv) = Ret (child_slot P i * page_size lv) /\
  child_range lv (child_slot P i * page_size lv) r = Ret (cut P lv r i).
Proof.
  intros Hs Hi [va Hva]. pose proof Hs as [Hl _ [HP Hlim]]. know (page_size_pos lv) as Hp. know (page_size_next lv) as Hn. rewrite Hn in *.
  destruct (met_slot P lv r i va Hs Hi Hva) as [Hslot Hle]. know (slot_mono va (r_end r - 1) lv) as Hm. pose proof nr_pos.
  assert ((child_slot P i + 1) * page_size lv < 2 ^ 64) by nia.
  assert (0 <= P * nr_subpage_per_huge * page_size lv) by (apply Z.mul_nonneg_nonneg; nia).
  unfold child_range, child_slot in *. split; [apply umul_ok; lia|]. split; [rewrite uadd_ok by lia; f_equal; lia|].
  step uadd_ok by lia. done.
Qed.

(** ** Locking nodes *)

(** The nodes [P], and no others, are locked now. *)
Definition relocks st st' (P : Z -> Prop) : Prop :=
  same_tables st st' /\ (forall q, P q -> exists n, st !! q = Some n /\ st' !! q = Some (set_lock n 1)) /\
  (forall q, ~ P q -> st' !! q = st !! q).

Lemma relocks_refl st (P : Z -> Prop) : (forall q, ~ P q) -> relocks st st P.
Proof. intros HP. split; [done|]. split; [|done]. intros q Hq. by destruct (HP q). Qed.

Lemma relocks_trans st1 st2 st3 P Q : relocks st1 st2 P -> relocks st2 st3 Q -> (forall q, P q -> ~ Q q) ->
  relocks st1 st3 (fun q => P q \/ Q q).
Proof.
  intros (Hs & HP & HP') (Hs' & HQ & HQ') Hd. split; [by etransitivity|]. split.
  - intros q [Hq|Hq].
    + destruct (HP q Hq) as (n & Hn & Hn'). exists n. split; [done|]. by rewrite HQ' by (by apply Hd).
    + destruct (HQ q Hq) as (n & Hn & Hn'). exists n. split; [|done]. rewrite <- Hn. symmetry. apply HP'. intros Hp. by apply (Hd q).
  - intros q Hq. rewrite HQ', HP'; [done| |]; tauto.
Qed.

Lemma relocks_iff st st' P Q : (forall q, P q <-> Q q) -> relocks st st' P -> relocks st st' Q.
Proof. intros Hpq (Hs & HP & HP'). split; [done|]. split; [intros q Hq; by apply HP, Hpq|]. intros q Hq. apply HP'. by rewrite Hpq. Qed.

Lemma set_lock_same st q n l : st !! q = Some n -> same_tables st (<[q := set_lock n l]> st).
Proof.
  intros Hn pa. destruct (decide (pa = q)) as [->|]; [by rewrite lookup_insert_eq, Hn|by rewrite lookup_insert_ne].
Qed.

Lemma lock_node_ok st q n : st !! q = Some n -> lock (meta n) = 0 ->
  lock_node st q = Ret (<[q := set_lock n 1]> st) /\ relocks st (<[q := set_lock n 1]> st) (fun q' => q' = q).
Proof.
  intros Hn Hl. split.
  - unfold lock_node, get_node. rewrite Hn. cbn [mbind outcome_bind unwrap]. by rewrite Hl.
  - split; [by apply set_lock_same|]. split; [intros q' ->; exists n; by rewrite lookup_insert_eq|].
    intros q' Hq. by rewrite lookup_insert_ne.
Qed.

(** *** The nodes that a range meets *)

(** The nodes below [pa] that translate addresses of the range, by the entries [D] of [pa]. *)
Definition meets st lv pa r (D : nat -> Prop) q : Prop :=
  exists va k, in_range r va /\ D (Z.to_nat (pte_index va lv)) /\ descend st (S k) lv pa va = Some q.

Definition unshared st lv pa r : Prop := forall k va1 va2 q, in_range r va1 -> in_range r va2 ->
  descend st k lv pa va1 = Some q -> descend st k lv pa va2 = Some q ->
  forall l, lv - Z.of_nat k < l <= lv -> pte_index va1 l = pte_index va2 l.

Definition unlocked st (P : Z -> Prop) : Prop := forall q n, P q -> st !! q = Some n -> lock (meta n) = 0.

Lemma meets_mono st lv pa r (D D' : nat -> Prop) q : (forall i, D i -> D' i) -> meets st lv pa r D q -> meets st lv pa r D' q.
Proof. intros HD (va & k & ? & ? & ?). exists va, k. auto. Qed.

Lemma meets_disjoint st lv pa r n D D' q : store_ok st -> st !! pa = Some n -> level (meta n) = lv -> unshared st lv pa r ->
  (forall i, D i -> ~ D' i) -> meets st lv pa r D q -> ~ meets st lv pa r D' q.
Proof.
  intros Hst Hn Hl Hun HD (va & k & Hva & Hd & Hq) (va' & k' & Hva' & Hd' & Hq').
  destruct (descend_node st (S k) lv pa va n q Hst Hn Hl Hq) as (m & Hm & Hlm & _).
  destruct (descend_node st (S k') lv pa va' n q Hst Hn Hl Hq') as (m' & Hm' & Hlm' & _).
  assert (k' = k) as -> by (assert (m' = m) as -> by congruence; lia).
  rewrite (Hun (S k) va va' q Hva Hva' Hq Hq' lv) in Hd by lia. by apply (HD (Z.to_nat (pte_index va' lv))).
Qed.

Lemma meets_step st lv pa n i e va k : st !! pa = Some n -> ptes n !! i = Some e -> Z.to_nat (pte_index va lv) = i ->
  descend st (S k) lv pa va = if is_present e && negb (is_last e lv) then descend st k (lv - 1) (paddr e) va else None.
Proof. intros Hn He Hi. cbn [descend]. rewrite Hn. cbn [mbind option_bind]. rewrite Hi, He. done. Qed.

(** *** The loop over the children *)

Section acquire.
Context (rec : pt_store E -> Z -> Z -> range -> outcome (pt_store E)) (P lv : Z) (r : range) (st : pt_store E) (pa : Z) (n : pt_node E).
Context (Hs : in_slot P lv r) (Hst : store_ok st) (Hn : st !! pa = Some n) (Hlv : level (meta n) = lv) (Hl1 : 1 < lv).
Context (Hun : unshared st lv pa r) (Hfree : unlocked st (meets st lv pa r (fun _ => True))).
Context (Hrec : forall st' q m r' P', in_slot P' (lv - 1) r' -> store_ok st' -> st' !! q = Some m -> level (meta m) = lv - 1 ->
  unshared st' (lv - 1) q r' -> unlocked st' (meets st' (lv - 1) q r' (fun _ => True)) ->
  exists st'', rec st' q (P' * page_size lv) r' = Ret st'' /\ relocks st' st'' (meets st' (lv - 1) q r' (fun _ => True))).

Local Notation meets_by := (meets st lv pa r).

(** A child that is a table: the node itself and what the range meets below. *)
Lemma meets_child i e q : Z.of_nat i < nr_subpage_per_huge -> (exists va, in_range (cut P lv r i) va) -> ptes n !! i = Some e ->
  is_present e = true -> is_last e lv = false ->
  meets_by (eq i) q <-> q = paddr e \/ meets st (lv - 1) (paddr e) (cut P lv r i) (fun _ => True) q.
Proof.
  intros Hi [va0 Hva0] He Hp Hla. split.
  - intros (va & k & Hva & Hix & Hd). rewrite (meets_step st lv pa n i e va k Hn He (eq_sym Hix)), Hp, Hla in Hd. cbn [andb negb] in Hd.
    destruct k as [|k]; [left; cbn in Hd; by injection Hd|right]. exists va, k. split; [|done]. by apply in_cut.
  - intros [->|(va & k & Hva & _ & Hd)].
    + apply (in_cut P lv r i va0 Hs Hi) in Hva0 as [Hva0 Hix]. exists va0, 0%nat. split_and!; try done.
      by rewrite (meets_step st lv pa n i e va0 0 Hn He Hix), Hp, Hla.
    + apply (in_cut P lv r i va Hs Hi) in Hva as [Hva Hix]. exists va, (S k). split_and!; try done.
      by rewrite (meets_step st lv pa n i e va (S k) Hn He Hix), Hp, Hla.
Qed.

Lemma meets_leaf i e q : ptes n !! i = Some e -> is_present e && negb (is_last e lv) = false -> ~ meets_by (eq i) q.
Proof.
  intros He Hc (va & k & Hva & Hix & Hd). by rewrite (meets_step st lv pa n i e va k Hn He (eq_sym Hix)), Hc in Hd.
Qed.

(** The child [i] after the children [D]. *)
Lemma acquire_entry_ok (D : nat -> Prop) cur i : relocks st cur (meets_by D) -> ~ D i -> Z.of_nat i < nr_subpage_per_huge ->
  (exists va, in_range (cut P lv r i) va) ->
  exists cur', acquire_entry rec pa lv (P * page_size (lv + 1)) r (Ret cur) i = Ret cur' /\ relocks st cur' (meets_by (fun j => D j \/ i = j)).
Proof.
  intros Hcur HD Hi Hcut. pose proof Hcur as (Hsame & _ & Hkeep).
  destruct (visit_entry allow_panic st cur pa n i Hst Hsame Hn Hi) as (e & c & He & Hent & Href & Hcase). rewrite Hlv in Hcase.
  unfold acquire_entry. cbn [mbind outcome_bind]. step Hent. step Href.
  assert (forall Q cur', relocks cur cur' Q -> (forall q, Q q <-> meets_by (eq i) q) -> relocks st cur' (meets_by (fun j => D j \/ i = j))) as Hadd.
  { intros Q cur' HQ Hiff. apply (relocks_iff _ _ (fun q => meets_by D q \/ Q q)).
    - intros q. rewrite Hiff. split; [intros [Hm|Hm]; revert Hm; apply meets_mono; auto|].
      intros (va & k & Hva & [Hd|Hd] & Hq); [left|right]; by exists va, k.
    - eapply relocks_trans; [done|done|]. intros q Hq. rewrite Hiff. revert Hq.
      apply (meets_disjoint st lv pa r n D (eq i) q Hst Hn Hlv Hun). by intros j Hj <-. }
  destruct Hcase as [nd m Hp Hla Hback Hm Hlm|Hc|a l p Hc].
  2, 3: exists cur; split; [done|]; apply (Hadd (fun _ => False) cur); [apply relocks_refl; tauto|]; intros q; split; [done|];
    by apply (meets_leaf i e q He).
  destruct (child_args P lv r i Hs Hi Hcut) as (Hmul & Hoff & Hcr).
  assert (meets_by (eq i) (paddr e)) as Hmi by (by apply (meets_child i e); auto).
  assert (forall q, meets_by (eq i) q -> cur !! q = st !! q) as Hold.
  { intros q Hq. apply Hkeep. intros Hq'. revert Hq. apply (meets_disjoint st lv pa r n D (eq i) q Hst Hn Hlv Hun); [by intros j Hj <-|done]. }
  assert (cur !! paddr e = Some m) as Hmc by (by rewrite Hold).
  assert (lock (meta m) = 0) as Hfm. { apply (Hfree (paddr e) m); [|done]. revert Hmi. by apply meets_mono. }
  destruct (lock_node_ok cur (paddr e) m Hmc Hfm) as [Hlock Hrl]. set (cur1 := <[paddr e := set_lock m 1]> cur) in *.
  step Hback. step Hlock. step Hmul. step Hoff. step Hcr.
  assert (same_tables st cur1) as Hsame1 by (etransitivity; [done|apply Hrl]).
  assert (forall q, meets cur1 (lv - 1) (paddr e) (cut P lv r i) (fun _ => True) q <-> meets st (lv - 1) (paddr e) (cut P lv r i) (fun _ => True) q) as Hmeq.
  { intros q. unfold meets. by setoid_rewrite Hsame1. }
  assert (forall q, meets st (lv - 1) (paddr e) (cut P lv r i) (fun _ => True) q -> meets_by (eq i) q /\ q <> paddr e) as Hsub.
  { intros q Hq. split; [apply (meets_child i e); auto|]. intros ->. destruct Hq as (va & k & _ & _ & Hd).
    destruct (descend_node st (S k) (lv - 1) (paddr e) va m _ Hst Hm Hlm Hd) as (m' & Hm' & Hlm' & _).
    assert (m' = m) as -> by congruence. lia. }
  destruct (Hrec cur1 (paddr e) (set_lock m 1) (cut P lv r i) (child_slot P i)) as (cur2 & Hr2 & Hrl2).
  - by apply child_in_slot.
  - by eapply store_ok_same.
  - apply lookup_insert_eq.
  - done.
  - intros k va1 va2 q Hv1 Hv2. rewrite <- !Hsame1. intros Hd1 Hd2 l Hl.
    apply (in_cut P lv r i _ Hs Hi) in Hv1 as [Hv1 Hx1]. apply (in_cut P lv r i _ Hs Hi) in Hv2 as [Hv2 Hx2].
    apply (Hun (S k) va1 va2 q Hv1 Hv2); [| |lia].
    + by rewrite (meets_step st lv pa n i e va1 k Hn He Hx1), Hp, Hla.
    + by rewrite (meets_step st lv pa n i e va2 k Hn He Hx2), Hp, Hla.
  - intros q m' Hq%Hmeq Hm'. destruct (Hsub q Hq) as [Hqi Hne]. unfold cur1 in Hm'. rewrite lookup_insert_ne in Hm' by done.
    rewrite Hold in Hm' by done. apply (Hfree q m'); [|done]. revert Hqi. by apply meets_mono.
  - exists cur2. split; [done|]. eapply Hadd; [eapply relocks_trans; [exact Hrl|exact Hrl2|]|].
    + intros q -> Hq%Hmeq. by destruct (Hsub _ Hq).
    + intros q. cbn beta. rewrite Hmeq. symmetry. by apply meets_child.
Qed.

Lemma acquire_loop_ok l (D : nat -> Prop) cur : relocks st cur (meets_by D) -> NoDup l -> (forall i, i ∈ l -> ~ D i) ->
  (forall i, i ∈ l -> Z.of_nat i < nr_subpage_per_huge /\ exists va, in_range (cut P lv r i) va) ->
  exists cur', foldl (acquire_entry rec pa lv (P * page_size (lv + 1)) r) (Ret cur) l = Ret cur' /\
    relocks st cur' (meets_by (fun j => D j \/ j ∈ l)).
Proof.
  revert D cur. induction l as [|i l IH]; intros D cur Hcur Hnd HD Hl; cbn [foldl].
  { exists cur. split; [done|]. revert Hcur. apply relocks_iff. intros q. split; apply meets_mono; [by left|]. intros j [|Hj]; [done|]. by apply not_elem_of_nil in Hj. }
  apply NoDup_cons in Hnd as [Hni Hnd]. destruct (Hl i) as [Hi Hcut]; [by left|].
  destruct (acquire_entry_ok D cur i Hcur (HD i ltac:(by left)) Hi Hcut) as (cur1 & Hr1 & Hcur1). rewrite Hr1.
  destruct (IH (fun j => D j \/ i = j) cur1 Hcur1 Hnd) as (cur' & Hr & Hcur').
  - intros j Hj [Hd| ->]; [by apply (HD j); [right|]|done].
  - intros j Hj. apply Hl. by right.
  - exists cur'. split; [done|]. revert Hcur'. apply relocks_iff. intros q.
    split; apply meets_mono; intros j; rewrite elem_of_cons; [|intros [|[->|]]; auto]. intros [[|]|]; auto.
Qed.
End acquire.

Lemma dfs_acquire_ok (fuel : nat) P lv r st pa n : in_slot P lv r -> store_ok st -> st !! pa = Some n -> level (meta n) = lv ->
  unshared st lv pa r -> unlocked st (meets st lv pa r (fun _ => True)) -> (Z.to_nat lv <= fuel)%nat ->
  exists st', dfs_acquire_lock fuel st pa (P * page_size (lv + 1)) r = Ret st' /\ relocks st st' (meets st lv pa r (fun _ => True)).
Proof.
  revert P lv r st pa n. induction fuel as [|fuel IH]; intros P lv r st pa n Hs Hst Hn Hlv Hun Hfree Hfuel; pose proof Hs as [Hl _ _]; [lia|].
  cbn [dfs_acquire_lock]. step (node_level_ok _ _ _ Hn). rewrite Hlv. destruct (Z.eqb_spec lv 1) as [->|Hne].
  - exists st. split; [done|]. apply relocks_refl. intros q (va & k & _ & _ & Hd).
    destruct (descend_node st (S k) 1 pa va n q Hst Hn Hlv Hd) as (m & _ & Hlm & Hge). lia.
  - step (idx_range_ok P lv r Hs).
    destruct (acquire_loop_ok (dfs_acquire_lock fuel) P lv r st pa n Hs Hst Hn Hlv) with
      (l := range_list (mk_range (pte_index (r_start r) lv) (pte_index (r_end r - 1) lv + 1))) (D := fun _ : nat => False) (cur := st)
      as (st' & Hr & Hrl); try done; try lia.
    + intros st1 q m r' P' Hs' Hst1 Hm Hlm Hun' Hfr'. replace (P' * page_size lv) with (P' * page_size (lv - 1 + 1)) by (do 2 f_equal; lia).
      apply (IH P' (lv - 1) r' st1 q m); try done. lia.
    + apply relocks_refl. by intros q (va & k & _ & [] & _).
    + apply NoDup_seq.
    + intros i Hi. by apply idx_list_spec.
    + exists st'. split; [done|]. revert Hrl. apply relocks_iff. intros q. split; [by apply meets_mono|].
      intros (va & k & Hva & _ & Hd). exists va, k. split; [done|]. split; [right|done]. apply (idx_list_spec P lv r _ Hs).
      destruct (in_slot_va P lv r va Hs Hva) as [Hv Hsl]. destruct (in_slot_index P lv va Hl Hv Hsl) as [_ Hix]. split; [lia|].
      exists va. apply in_cut; [done|lia|done].
Qed.

(** ** Going down to the node that covers the range *)

Context (alloc_fresh : forall st pa, alloc_frame st = Some pa -> valid_frame_paddr pa /\ st !! pa = None).
Context (pool : nat) (alloc_succeeds : forall st, (size st < pool)%nat -> is_Some (alloc_frame st)).

(** The nodes that translate addresses of the range are in the tree and, except for the one of [guard], not locked. *)
Definition free_but st root r (guard : option Z) : Prop := forall k va q n, in_range r va -> node_at st root k va = Some q -> st !! q = Some n ->
  stray (meta n) = false /\ lock (meta n) = if decide (guard = Some q) then 1 else 0.

(** The search has come to the node [cur] of the level [lv]. *)
Record going st0 st root r lv cur (guard : option Z) : Prop := {
  go_tree : tree_ok st root;
  go_walks : same_walks debug_assertions st0 st root;
  go_level : 1 <= lv <= NR_LEVELS;
  go_at : node_at st root (depth lv) (r_start r) = Some cur;
  go_slot : slot (r_start r) (lv + 1) = slot (r_end r - 1) (lv + 1);
  go_free : free_but st root r guard;
  go_guard : guard = None \/ guard = Some cur;
  go_keep : forall q n, st0 !! q = Some n -> st !! q = Some n \/ exists k, (k <= depth lv)%nat /\ node_at st root k (r_start r) = Some q;
  go_size : Z.of_nat (size st) + lv <= Z.of_nat (size st0) + NR_LEVELS;
  go_base : base_pages st0 root -> base_pages st root;
  go_counted : counted_range root r;
}.

(** A guard is held only for a table that was just made. *)
Definition new_guard st cur (guard : option Z) : Prop := guard <> None ->
  forall n i e, st !! cur = Some n -> ptes n !! i = Some e -> is_present e = false.

Section covering.
Context (r0 : range) (Hr0 : 0 <= r_start r0 < r_end r0).

Lemma start_in : in_range r0 (r_start r0).
Proof. split; lia. Qed.

(** Addresses between two of one slot are in it. *)
Lemma between_slot lv va : 1 <= lv <= NR_LEVELS + 1 -> slot (r_start r0) lv = slot (r_end r0 - 1) lv -> in_range r0 va ->
  slot va lv = slot (r_start r0) lv.
Proof.
  intros Hl Hs [Hv1 Hv2]. assert (slot (r_start r0) lv <= slot va lv) by (apply slot_mono; lia).
  assert (slot va lv <= slot (r_end r0 - 1) lv) by (apply slot_mono; lia). lia.
Qed.

Lemma going_all st0 st root lv cur guard va : going st0 st root r0 lv cur guard -> in_range r0 va ->
  node_at st root (depth lv) va = Some cur.
Proof.
  intros Hg Hva. pose proof (go_level _ _ _ _ _ _ _ Hg) as Hl. rewrite <- (go_at _ _ _ _ _ _ _ Hg). unfold node_at.
  pose proof Hva as [Hv _]. apply descend_slot; unfold depth; try lia.
  replace (NR_LEVELS - Z.of_nat (Z.to_nat (NR_LEVELS - lv)) + 1) with (lv + 1) by lia.
  apply between_slot; [lia|apply (go_slot _ _ _ _ _ _ _ Hg)|done].
Qed.

Lemma going_node st0 st root lv cur guard : going st0 st root r0 lv cur guard ->
  exists n, st !! cur = Some n /\ level (meta n) = lv /\ stray (meta n) = false /\ (guard = None -> lock (meta n) = 0).
Proof.
  intros Hg. pose proof (go_level _ _ _ _ _ _ _ Hg) as Hl.
  destruct (node_at_level st root _ _ cur (go_tree _ _ _ _ _ _ _ Hg) (go_at _ _ _ _ _ _ _ Hg)) as (n & Hn & Hln & _).
  exists n. destruct (go_free _ _ _ _ _ _ _ Hg _ _ _ _ start_in (go_at _ _ _ _ _ _ _ Hg) Hn) as [Hs Hlk].
  split_and!; try done; [unfold depth in Hln; lia|]. intros ->. by rewrite decide_False in Hlk.
Qed.

Lemma going_counted st0 st root lv cur guard : going st0 st root r0 lv cur guard ->
  uncounted cur (Z.to_nat (pte_index (r_start r0) lv)) = false.
Proof.
  intros Hg. pose proof (go_level _ _ _ _ _ _ _ Hg) as Hl. replace lv with (NR_LEVELS - Z.of_nat (depth lv)) at 1 by (unfold depth; lia).
  eapply node_counted; [apply Hg|apply Hg|apply start_in|apply Hg].
Qed.

(** Changing the lock of the node. *)
Lemma going_relock st0 st root lv cur guard n guard' (l : Z) : going st0 st root r0 lv cur guard -> st !! cur = Some n ->
  (guard' = Some cur /\ l = 1 \/ guard' = None /\ l = 0) -> going st0 (<[cur := set_lock n l]> st) root r0 lv cur guard'.
Proof.
  intros Hg Hn Hl. pose proof (set_lock_same st cur n l Hn) as Hs. pose proof Hg as [Ht Hw Hlv Hat Hsl Hfr Hgd Hkp Hsz Hbp]. split; try done.
  - by eapply tree_ok_same.
  - intros va Hva. rewrite <- (Hw va Hva). symmetry. by apply page_walk_same.
  - unfold node_at in *. by rewrite <- Hs.
  - intros k va q m Hva Hq. unfold node_at in Hq. rewrite <- Hs in Hq. fold (node_at st root k va) in Hq.
    destruct (decide (q = cur)) as [->|Hne].
    + rewrite lookup_insert_eq. intros [= <-]. destruct (Hfr _ _ _ _ Hva Hq Hn) as [Hst _]. split; [done|]. cbn [set_lock meta lock].
      destruct Hl as [[-> ->]|[-> ->]]; [by rewrite decide_True|by rewrite decide_False].
    + rewrite lookup_insert_ne by done. intros Hm. destruct (Hfr _ _ _ _ Hva Hq Hm) as [Hst Hlk]. split; [done|]. rewrite Hlk.
      assert (guard <> Some q) by (destruct Hgd as [-> | ->]; congruence).
      assert (guard' <> Some q) by (destruct Hl as [[-> _]|[-> _]]; congruence). by rewrite !decide_False.
  - destruct Hl as [[-> _]|[-> _]]; [by right|by left].
  - intros q m Hm. destruct (decide (q = cur)) as [->|Hne].
    + right. exists (depth lv). unfold node_at in *. by rewrite <- Hs.
    + rewrite lookup_insert_ne by done. destruct (Hkp q m Hm) as [|(k & Hk & Hq)]; [by left|right].
      exists k. unfold node_at in *. by rewrite <- Hs.
  - by rewrite (same_tables_size _ _ Hs).
  - intros Hb. eapply base_pages_same; [exact Hs|by apply Hbp].
Qed.

Lemma take_guard_ok st0 st root lv cur guard n : going st0 st root r0 lv cur guard -> st !! cur = Some n ->
  exists st' n', take_guard st cur guard = Ret (cur, st') /\ going st0 st' root r0 lv cur (Some cur) /\ same_tables st st' /\
    st' !! cur = Some n' /\ ptes n' = ptes n /\ stray (meta n') = false /\ level (meta n') = level (meta n).
Proof.
  intros Hg Hn. destruct (going_node _ _ _ _ _ _ Hg) as (n1 & Hn1 & _ & Hs & Hlk). assert (n1 = n) as -> by congruence.
  destruct guard as [q|]; cbn [take_guard].
  - destruct (go_guard _ _ _ _ _ _ _ Hg) as [|[= ->]]; [done|]. exists st, n. done.
  - destruct (lock_node_ok st cur n Hn (Hlk eq_refl)) as [Hlock [Hsame _]]. step Hlock.
    exists (<[cur := set_lock n 1]> st), (set_lock n 1). split_and!; try done; [|apply lookup_insert_eq].
    apply (going_relock st0 st root lv cur None n); auto.
Qed.

(** The entry of the node through which the search goes. *)
Lemma going_entry st0 st root lv cur guard : going st0 st root r0 lv cur guard ->
  exists n e, st !! cur = Some n /\ level (meta n) = lv /\ Z.of_nat (Z.to_nat (pte_index (r_start r0) lv)) < nr_subpage_per_huge /\
    ptes n !! Z.to_nat (pte_index (r_start r0) lv) = Some e /\ read_pte st cur (Z.to_nat (pte_index (r_start r0) lv)) = Ret e.
Proof.
  intros Hg. pose proof (go_level _ _ _ _ _ _ _ Hg) as Hl. destruct (going_node _ _ _ _ _ _ Hg) as (n & Hn & Hln & _).
  pose proof (tree_store _ _ (go_tree _ _ _ _ _ _ _ Hg)) as Hst.
  assert (0 <= pte_index (r_start r0) lv < nr_subpage_per_huge) as Hix by (apply index_digits; lia).
  destruct (visit_entry allow_panic st st cur n (Z.to_nat (pte_index (r_start r0) lv)) Hst ltac:(done) Hn ltac:(lia)) as (e & c & He & _).
  exists n, e. split_and!; try done; [lia|]. unfold read_pte, get_node. rewrite Hn. cbn [mbind outcome_bind unwrap]. unfold arr_get. by rewrite He.
Qed.

(** Both ends of the range take the same entry, so all of the range does. *)
Lemma slot_lower lv : 1 <= lv <= NR_LEVELS -> slot (r_start r0) (lv + 1) = slot (r_end r0 - 1) (lv + 1) ->
  pte_index (r_start r0) lv = pte_index (r_end r0 - 1) lv -> slot (r_start r0) lv = slot (r_end r0 - 1) lv.
Proof. intros Hl Hs Hi. apply slot_below; lia || done. Qed.

Lemma range_index lv va : 1 <= lv <= NR_LEVELS -> slot (r_start r0) lv = slot (r_end r0 - 1) lv -> in_range r0 va ->
  pte_index va lv = pte_index (r_start r0) lv.
Proof. intros Hl Hs Hva. pose proof Hva as [Hv _]. rewrite !slot_index by lia. by rewrite (between_slot lv va ltac:(lia) Hs Hva). Qed.

Lemma going_down st0 st root lv cur n e : going st0 st root r0 lv cur None -> 1 < lv -> st !! cur = Some n ->
  pte_index (r_start r0) lv = pte_index (r_end r0 - 1) lv -> ptes n !! Z.to_nat (pte_index (r_start r0) lv) = Some e ->
  is_present e = true -> is_last e lv = false -> going st0 st root r0 (lv - 1) (paddr e) None.
Proof.
  intros Hg Hl1 Hn Hi He Hp Hla. pose proof Hg as [Ht Hw Hlv Hat Hsl Hfr _ Hkp Hsz Hbp]. split; try done; [lia| | |by left| |lia].
  - replace (depth (lv - 1)) with (S (depth lv)) by (unfold depth; lia). unfold node_at in *.
    eapply descend_step_intro; [exact Hat|exact Hn| | |]; try done; replace (NR_LEVELS - Z.of_nat (depth lv)) with lv by (unfold depth; lia); done.
  - replace (lv - 1 + 1) with lv by lia. by apply slot_lower.
  - intros q m Hm. destruct (Hkp q m Hm) as [|(k & Hk & Hq)]; [by left|right]. exists k. split; [unfold depth in *; lia|done].
Qed.

(** A missing table is made, and the lock passes from the parent to it. *)
Section grow.
Context (st0 st : pt_store E) (root lv cur : Z) (n : pt_node E) (e : E).
Context (Hg : going st0 st root r0 lv cur (Some cur)) (Hl1 : 1 < lv) (Hn : st !! cur = Some n) (Hln : level (meta n) = lv).
Context (Hi : pte_index (r_start r0) lv = pte_index (r_end r0 - 1) lv).
Let i : nat := Z.to_nat (pte_index (r_start r0) lv).
Context (He : ptes n !! i = Some e) (Hp : is_present e = false).

Lemma grown_going pa m e1 : let en := mk_entry e i cur in let st2 := put_node st en n pa m e1 in
  st !! pa = None -> store_ok (<[pa := m]> st) -> pte_ok (<[pa := m]> st) lv e1 ->
  is_present e1 = true -> is_last e1 lv = false -> paddr e1 = pa ->
  (forall j x, ptes m !! j = Some x -> is_present x = false) -> stray (meta m) = false -> lock (meta m) = 1 ->
  (forall va, 0 <= va -> pte_walk debug_assertions (<[pa := m]> st) lv e1 va = pte_walk debug_assertions st lv e va) ->
  let st3 := <[cur := set_lock (with_entry n i e1) 0]> st2 in
  going st0 st3 root r0 (lv - 1) pa (Some pa) /\ new_guard st3 pa (Some pa) /\ size st3 = S (size st).
Proof.
  intros en st2 Hnew Hst1 Hok Hp1 Hla1 Hpa Hempty Hstray Hlock Hmean st3.
  pose proof Hg as [Ht Hw Hlv Hat Hsl Hfr _ Hkp Hsz Hbp]. rewrite <- Hln in Hok, Hla1, Hmean.
  assert (entry_at st en n) as Hen by (split_and!; [done|done|exact (going_counted _ _ _ _ _ _ Hg)]).
  assert (level (meta n) = NR_LEVELS - Z.of_nat (depth lv)) as Hk by (unfold depth; lia).
  assert (forall j x, ptes m !! j = Some x -> is_present x && negb (is_last x (level (meta n) - 1)) = false) as Hleaf.
  { intros j x Hx. by rewrite (Hempty j x Hx). }
  pose proof (put_tree base_is_page st root pa en n m _ e1 Ht Hen Hk Hnew Hst1 Hok ltac:(done) Hleaf) as Ht2. fold st2 in Ht2.
  assert (cur <> pa) as Hne by congruence.
  assert (st2 !! cur = Some (with_entry n i e1)) as Hc2 by apply lookup_insert_eq.
  assert (same_tables st2 st3) as Hs3 by (by apply set_lock_same).
  assert (st3 !! pa = Some m) as Hm3.
  { unfold st3, st2, put_node, set_entry. cbn [node en]. rewrite !lookup_insert_ne by done. apply lookup_insert_eq. }
  assert (slot (r_start r0) lv = slot (r_end r0 - 1) lv) as Hsl' by (apply slot_lower; lia || done).
  assert (forall d va, in_range r0 va -> node_at st2 root (depth lv + S d) va = if decide (d = 0%nat) then Some pa else None) as Hnew2.
  { intros d va Hva. pose proof Hva as [Hv _]. apply (put_at_new base_is_page st root pa en n m _ e1 Ht Hen Hk Hnew Hst1 Hok); try done; [lia| |].
    - by apply (going_all _ _ _ _ _ _ _ Hg).
    - rewrite Hln. by rewrite (range_index lv va ltac:(lia) Hsl' Hva). }
  assert (size st3 = S (size st)) as Hsize3.
  { rewrite (same_tables_size _ _ Hs3). unfold st2, put_node, set_entry. cbn [node idx en].
    rewrite map_size_insert_Some; [by rewrite map_size_insert_None|]. rewrite lookup_insert_ne by done. eauto. }
  split; [split|split; [|done]].
  - by eapply tree_ok_same.
  - intros va Hva. rewrite <- (Hw va Hva), <- Hs3.
    by apply (put_walk debug_assertions base_is_page st root pa en n m e1 Ht Hen Hnew Hst1 Hok).
  - lia.
  - unfold node_at. rewrite <- Hs3. replace (depth (lv - 1)) with (depth lv + 1)%nat by (unfold depth; lia). apply Hnew2, start_in.
  - by replace (lv - 1 + 1) with lv by lia.
  - intros k va q x Hva Hq Hx. unfold node_at in Hq. rewrite <- Hs3 in Hq. fold (node_at st2 root k va) in Hq.
    destruct (decide (k <= depth lv)%nat) as [Hkl|Hkl].
    + unfold st2 in Hq. rewrite (put_at_high st root pa en n m _ e1 Ht Hen Hk Hnew Hst1 k va Hkl) in Hq.
      assert (q <> pa). { intros ->. destruct (node_at_level st root k va pa Ht Hq) as (? & ? & _). congruence. }
      rewrite decide_False by congruence. destruct (decide (q = cur)) as [->|Hqc].
      * unfold st3 in Hx. rewrite lookup_insert_eq in Hx. injection Hx as <-. destruct (Hfr _ _ _ _ Hva Hq Hn) as [? _]. done.
      * unfold st3, st2, put_node, set_entry in Hx. cbn [node en] in Hx. rewrite !lookup_insert_ne in Hx by done.
        destruct (Hfr _ _ _ _ Hva Hq Hx) as [Hs Hlk]. rewrite decide_False in Hlk by congruence. done.
    + replace k with (depth lv + S (k - depth lv - 1))%nat in Hq by lia. rewrite Hnew2 in Hq by done.
      destruct (decide _); [|done]. injection Hq as <-. rewrite decide_True by done. assert (x = m) as -> by congruence. done.
  - by right.
  - intros q x Hx. destruct (decide (q = cur)) as [->|Hqc].
    + right. exists (depth lv). split; [unfold depth; lia|]. unfold node_at. rewrite <- Hs3. fold (node_at st2 root (depth lv) (r_start r0)).
      unfold st2. by rewrite (put_at_high st root pa en n m _ e1 Ht Hen Hk Hnew Hst1).
    + destruct (Hkp q x Hx) as [Hq|(k & Hkl & Hq)].
      * left. unfold st3, st2, put_node, set_entry. cbn [node en]. rewrite !lookup_insert_ne by congruence. done.
      * right. exists k. split; [unfold depth in *; lia|]. unfold node_at. rewrite <- Hs3. fold (node_at st2 root k (r_start r0)).
        unfold st2. by rewrite (put_at_high st root pa en n m _ e1 Ht Hen Hk Hnew Hst1).
  - lia.
  - intros Hb. eapply base_pages_same; [exact Hs3|]. by apply (put_pages base_is_page st root pa en n m (depth lv) e1); auto.
  - exact (go_counted _ _ _ _ _ _ _ Hg).
  - intros _ n' j x Hn'. assert (n' = m) as -> by congruence. apply Hempty.
Qed.

Lemma grow_ok : (size st < pool)%nat -> exists pa e' st2 st3, alloc_if_none alloc_frame st (mk_entry e i cur) = Ret (Some pa, e', st2) /\
  unlock_node st2 cur = Ret st3 /\ going st0 st3 root r0 (lv - 1) pa (Some pa) /\ new_guard st3 pa (Some pa) /\ size st3 = S (size st).
Proof.
  intros Hsz. destruct (alloc_succeeds st Hsz) as [pa Ha]. destruct (alloc_fresh st pa Ha) as [Hv Hnew].
  assert (entry_at st (mk_entry e i cur) n) as Hen by (split_and!; [done|done|exact (going_counted _ _ _ _ _ _ Hg)]).
  destruct (alloc_child_spec debug_assertions alloc_frame base_is_page alloc_fresh st (mk_entry e i cur) n pa
    (tree_store _ _ (go_tree _ _ _ _ _ _ _ Hg)) Hen Hp ltac:(lia) Ha) as (e1 & Hst1 & Hok1 & Hp1 & Hl1' & Hpa1 & Hw & Halloc & _).
  rewrite Hln in Hst1, Hok1, Hl1', Hw, Halloc. set (m := locked_node (lv - 1) empty_ptes) in *.
  destruct (grown_going pa m e1) as (Hg' & Hng & Hsize); try done.
  { intros j x [-> _]%lookup_replicate. apply new_absent_law. }
  eexists pa, _, _, _. split; [exact Halloc|]. split; [|split; [exact Hg'|split; [exact Hng|exact Hsize]]].
  unfold unlock_node, get_node, put_node, set_entry. cbn [node idx]. by rewrite lookup_insert_eq.
Qed.
End grow.

(** The loop ends at the lowest level whose node covers the range, or at a huge page. *)
Lemma traverse_ok st0 root (l : nat) st cur guard : going st0 st root r0 (Z.of_nat l) cur guard -> new_guard st cur guard ->
  (size st + l <= S pool)%nat ->
  exists lv' cur' guard' st', traverse_loop l st cur guard r0 = Ret (Some (cur', guard'), st') /\ going st0 st' root r0 lv' cur' guard'.
Proof.
  revert st cur guard. induction l as [|l IH]; intros st cur guard Hg Hng Hsz; pose proof (go_level _ _ _ _ _ _ _ Hg) as Hlv; [lia|].
  cbn [traverse_loop]. remember (Z.of_nat (S l)) as lv eqn:Elv. step usub_ok by lia.
  assert (Z.of_nat l = lv - 1) as Epred by lia.
  assert (exists lv' cur' guard' st', Ret (Some (cur, guard), st) = Ret (Some (cur', guard'), st') /\ going st0 st' root r0 lv' cur' guard') as Hstop
    by (by exists lv, cur, guard, st).
  destruct (Z.ltb_spec 1 lv) as [Hl1|_]; [|exact Hstop].
  destruct (Z.eqb_spec (pte_index (r_start r0) lv) (pte_index (r_end r0 - 1) lv)) as [Hi|_]; [|exact Hstop].
  cbn [andb negb]. destruct (going_entry _ _ _ _ _ _ Hg) as (n & e & Hn & Hln & Hib & He & Hread). step Hread.
  destruct (is_present e) eqn:Hp.
  - destruct (is_last e lv) eqn:Hla; [exact Hstop|]. destruct guard as [q|].
    { specialize (Hng ltac:(done) n _ e Hn He). congruence. }
    cbn [drop_guard mbind outcome_bind]. apply IH; [|intros Hc; by destruct Hc|lia]. rewrite Epred. by eapply going_down.
  - destruct (take_guard_ok _ _ _ _ _ _ _ Hg Hn) as (st1 & n1 & Ht & Hg1 & Hs1 & Hn1 & Hpt & Hst1 & Hln1). step Ht.
    unfold get_node. rewrite Hn1. cbn [mbind outcome_bind unwrap]. rewrite Hst1.
    destruct (visit_entry allow_panic st1 st1 cur n1 _ (tree_store _ _ (go_tree _ _ _ _ _ _ _ Hg1)) ltac:(done) Hn1 Hib) as (e' & c & He' & Hent & _).
    rewrite Hpt in He'. assert (e' = e) as -> by congruence. step Hent. unfold entry_is_none. cbn [pte]. rewrite Hp. cbn [negb].
    rewrite <- Hpt in He. pose proof (same_tables_size _ _ Hs1) as Hsize.
    destruct (grow_ok st0 st1 root lv cur n1 e Hg1 Hl1 Hn1 ltac:(lia) Hi He Hp) as (pa & e2 & st2 & st3 & Ha & Hu & Hg3 & Hng3 & Hs3); [lia|].
    step Ha. cbn [unwrap]. step Hu. apply IH; [by rewrite Epred|done|lia].
Qed.

Lemma try_traverse_ok st root : tree_ok st root -> counted_range root r0 -> free_but st root r0 None ->
  slot (r_start r0) (NR_LEVELS + 1) = slot (r_end r0 - 1) (NR_LEVELS + 1) -> (size st + Z.to_nat NR_LEVELS <= S pool)%nat ->
  exists lv cur st', try_traverse_and_lock_subtree_root st root r0 = Ret (Some cur, st') /\ going st st' root r0 lv cur (Some cur).
Proof.
  intros Ht Hcr Hfr Hsl Hsz. pose proof req_levels as Hnr.
  assert (going st st root r0 NR_LEVELS root None) as Hg.
  { split; try done; [lia| |by left|intros q n Hn; by left]. unfold depth. by rewrite Z.sub_diag. }
  rewrite <- (Z2Nat.id NR_LEVELS) in Hg by lia.
  destruct (traverse_ok st root _ st root None Hg ltac:(intros Hc; by destruct Hc) Hsz) as (lv & cur & guard & st1 & Hr & Hg1).
  unfold try_traverse_and_lock_subtree_root. step Hr. destruct (going_node _ _ _ _ _ _ Hg1) as (n & Hn & _).
  destruct (take_guard_ok _ _ _ _ _ _ _ Hg1 Hn) as (st2 & n2 & Htk & Hg2 & _ & Hn2 & _ & Hst2 & _). step Htk.
  unfold get_node. rewrite Hn2. cbn [mbind outcome_bind unwrap]. rewrite Hst2. by exists lv, cur, st2.
Qed.

(** ** The new cursor *)

Context (levels_fit : NR_LEVELS <= Z.of_nat MAX_NR_LEVELS).
Context (aligned : r_start r0 mod BASE_PAGE_SIZE = 0 /\ r_end r0 mod BASE_PAGE_SIZE = 0).
Context (fits : (slot (r_end r0 - 1) NR_LEVELS + 1) * page_size NR_LEVELS < 2 ^ 64).

Lemma fits_level lv : 1 <= lv <= NR_LEVELS -> (slot (r_end r0 - 1) lv + 1) * page_size lv < 2 ^ 64.
Proof.
  intros Hl. replace lv with (NR_LEVELS - (NR_LEVELS - lv)) by lia. assert (0 <= NR_LEVELS - lv < NR_LEVELS) as Hd by lia.
  revert Hd. generalize (NR_LEVELS - lv). intros d [Hd0 Hd]. revert Hd. pattern d. apply natlike_ind; [by rewrite Z.sub_0_r|intros x Hx IH Hd|done].
  know (slot_end (r_end r0 - 1) (NR_LEVELS - Z.succ x)) as He. replace (NR_LEVELS - Z.succ x + 1) with (NR_LEVELS - x) in He by lia. lia.
Qed.

Lemma going_in_slot st0 st root lv cur guard : going st0 st root r0 lv cur guard -> in_slot (slot (r_start r0) (lv + 1)) lv r0.
Proof.
  intros Hg. pose proof (go_level _ _ _ _ _ _ _ Hg) as Hl. pose proof (go_slot _ _ _ _ _ _ _ Hg) as Hs.
  know (slot_bounds (r_start r0) (lv + 1)) as Hb. know (slot_bounds (r_end r0 - 1) (lv + 1)) as Hb'. know (page_size_pos (lv + 1)) as Hp.
  split; [done|lia|]. split; [by apply Z.div_pos; lia|]. by apply fits_level.
Qed.

(** From the node of the guard level the descent goes on as from the root. *)
Lemma going_descend st0 st root lv cur guard k va : going st0 st root r0 lv cur guard -> in_range r0 va ->
  descend st k lv cur va = node_at st root (depth lv + k) va.
Proof.
  intros Hg Hva. pose proof (go_level _ _ _ _ _ _ _ Hg) as Hl. pose proof (going_all _ _ _ _ _ _ _ Hg Hva) as Hd. unfold node_at in *.
  rewrite descend_app, Hd. cbn [mbind option_bind]. f_equal. unfold depth. lia.
Qed.

Lemma going_acquire st0 st root lv cur : going st0 st root r0 lv cur (Some cur) ->
  unshared st lv cur r0 /\ unlocked st (meets st lv cur r0 (fun _ => True)).
Proof.
  intros Hg. pose proof (go_level _ _ _ _ _ _ _ Hg) as Hl. split.
  - intros k va1 va2 q Hv1 Hv2. rewrite !(going_descend _ _ _ _ _ _ _ _ Hg) by done. intros Hd1 Hd2 l Hll.
    pose proof Hv1 as [? _]. pose proof Hv2 as [? _].
    apply (tree_unshared _ _ (go_tree _ _ _ _ _ _ _ Hg) _ va1 va2 q ltac:(lia) ltac:(lia) Hd1 Hd2). unfold depth. lia.
  - intros q n (va & k & Hva & _ & Hd) Hn. rewrite (going_descend _ _ _ _ _ _ _ _ Hg) in Hd by done.
    destruct (go_free _ _ _ _ _ _ _ Hg _ _ _ _ Hva Hd Hn) as [_ ->]. rewrite decide_False; [done|]. intros [= ->].
    pose proof (node_at_inj _ _ _ _ _ _ _ (go_tree _ _ _ _ _ _ _ Hg) Hd (go_at _ _ _ _ _ _ _ Hg)). lia.
Qed.

(** The cursor [c] over the range, in the store [st'], made from the store [st]. *)
Record new_cursor st st' root r c : Prop := {
  nc_ok : cursor_ok st' root c;
  nc_start : c_va c = r_start r /\ barrier_va c = r /\ c_level c = guard_level c;
  nc_walks : same_walks debug_assertions st st' root;
  nc_locks : forall k va q n, in_range r va -> node_at st' root k va = Some q -> st' !! q = Some n ->
    stray (meta n) = false /\ lock (meta n) = if decide (level (meta n) <= guard_level c) then 1 else 0;
  nc_keep : forall q n, st !! q = Some n -> (forall k va, in_range r va -> node_at st' root k va <> Some q) -> st' !! q = Some n;
  nc_size : Z.of_nat (size st') < Z.of_nat (size st) + NR_LEVELS;
  nc_base : base_pages st root -> base_pages st' root;
}.

Lemma new_cursor_at st0 st st' root lv cur : going st0 st root r0 lv cur (Some cur) -> same_tables st st' ->
  cursor_ok st' root (mk_cursor (<[Z.to_nat (lv - 1) := Some cur]> (replicate MAX_NR_LEVELS None)) lv lv (r_start r0) r0).
Proof.
  intros Hg Hs. pose proof Hg as [Ht _ Hl Hat Hsl _ _ _ _ _ Hcr]. pose proof aligned as [Ha1 Ha2].
  know (slot_bounds (r_end r0 - 1) lv) as Hb. split; [split|]; cbn [c_va barrier_va c_level guard_level c_path].
  - by eapply tree_ok_same.
  - lia.
  - split_and!; cbn [barrier_va guard_level]; try done; try lia. unfold limit. cbn [barrier_va guard_level]. by apply fits_level.
  - unfold limit. cbn [barrier_va guard_level]. split; [lia|done].
  - by rewrite length_insert, length_replicate.
  - exists (r_start r0). split; [cbn; apply start_in|]. split; [by right|]. cbn [c_level guard_level c_path]. intros l Hll.
    assert (l = lv) as -> by lia. exists cur. split; [unfold node_at in *; by rewrite <- Hs|].
    apply list_lookup_insert_eq. rewrite length_replicate. lia.
  - intros l Hll Hne. rewrite list_lookup_insert_ne by lia. apply lookup_replicate. split; [done|lia].
  - done.
  - lia.
Qed.

Lemma new_cursor_locks st0 st st' root lv cur : going st0 st root r0 lv cur (Some cur) -> relocks st st' (meets st lv cur r0 (fun _ => True)) ->
  forall k va q n, in_range r0 va -> node_at st' root k va = Some q -> st' !! q = Some n ->
  stray (meta n) = false /\ lock (meta n) = if decide (level (meta n) <= lv) then 1 else 0.
Proof.
  intros Hg (Hs & Hin & Hout) k va q n Hva Hq Hn. pose proof (go_level _ _ _ _ _ _ _ Hg) as Hl. pose proof (go_tree _ _ _ _ _ _ _ Hg) as Ht.
  destruct (node_at_level st' root k va q (tree_ok_same _ _ _ Hs Ht) Hq) as (n1 & Hn1 & Hlv1 & _). assert (n1 = n) as -> by congruence.
  unfold node_at in Hq. rewrite <- Hs in Hq. fold (node_at st root k va) in Hq. destruct (decide (depth lv < k)%nat) as [Hk|Hk].
  - destruct (Hin q) as (m & Hm & Hm').
    { exists va, (k - depth lv - 1)%nat. split_and!; try done. rewrite (going_descend _ _ _ _ _ _ _ _ Hg) by done.
      by replace (depth lv + S (k - depth lv - 1))%nat with k by lia. }
    assert (n = set_lock m 1) as -> by congruence. destruct (go_free _ _ _ _ _ _ _ Hg _ _ _ _ Hva Hq Hm) as [Hst _].
    split; [done|]. rewrite decide_True; [done|]. unfold depth in *. lia.
  - rewrite Hout in Hn.
    2: { intros (va' & k' & Hva' & _ & Hd). rewrite (going_descend _ _ _ _ _ _ _ _ Hg) in Hd by done.
         pose proof (node_at_inj _ _ _ _ _ _ _ Ht Hd Hq). lia. }
    destruct (go_free _ _ _ _ _ _ _ Hg _ _ _ _ Hva Hq Hn) as [Hst Hlk]. split; [done|]. rewrite Hlk.
    destruct (decide (k = depth lv)) as [->|Hkd].
    + rewrite (going_all _ _ _ _ _ _ _ Hg Hva) in Hq. injection Hq as <-. rewrite !decide_True; [done| |done]. unfold depth in *. lia.
    + rewrite !decide_False; [done|unfold depth in *; lia|]. intros [= ->].
      pose proof (node_at_inj _ _ _ _ _ _ _ Ht Hq (go_at _ _ _ _ _ _ _ Hg)). done.
Qed.

Lemma lock_range_ok (fuel : nat) st root : tree_ok st root -> counted_range root r0 -> free_but st root r0 None ->
  slot (r_start r0) (NR_LEVELS + 1) = slot (r_end r0 - 1) (NR_LEVELS + 1) -> (size st + Z.to_nat NR_LEVELS <= S pool)%nat ->
  exists c st', lock_range (S fuel) st root r0 = Ret (c, st') /\ new_cursor st st' root r0 c.
Proof.
  intros Ht Hcr Hfr Hsl Hsz. destruct (try_traverse_ok st root Ht Hcr Hfr Hsl Hsz) as (lv & cur & st1 & Htry & Hg).
  pose proof (go_level _ _ _ _ _ _ _ Hg) as Hl. destruct (going_node _ _ _ _ _ _ Hg) as (n & Hn & Hln & _).
  destruct (going_acquire _ _ _ _ _ Hg) as [Hun Hunl]. know (slot_bounds (r_end r0 - 1) lv) as Hb. know (fits_level lv) as Hfit.
  destruct (dfs_acquire_ok (Z.to_nat NR_LEVELS) _ lv r0 st1 cur n (going_in_slot _ _ _ _ _ _ Hg)
    (tree_store _ _ (go_tree _ _ _ _ _ _ _ Hg)) Hn Hln Hun Hunl ltac:(lia)) as (st2 & Hacq & Hrl). pose proof Hrl as (Hs & _ & Hout).
  unfold lock_range. cbn [find_subtree_root]. step Htry. step (node_level_ok _ _ _ Hn). rewrite Hln.
  step (align_down_page (r_start r0) (lv + 1) base_is_page ltac:(lia) ltac:(lia)). step Hacq. step usub_ok by lia.
  unfold arr_set. rewrite length_replicate. destruct (Nat.ltb_spec (Z.to_nat (lv - 1)) MAX_NR_LEVELS); [|lia].
  eexists _, st2. split; [done|]. split; cbn [c_va barrier_va c_level guard_level].
  - by apply (new_cursor_at st st1).
  - done.
  - intros va Hva. rewrite <- Hs. by apply (go_walks _ _ _ _ _ _ _ Hg).
  - by apply (new_cursor_locks st st1 st2 root lv cur).
  - intros q m Hm Hno. unfold node_at in Hno. setoid_rewrite <- Hs in Hno. destruct (go_keep _ _ _ _ _ _ _ Hg q m Hm) as [Hq|(k & _ & Hq)].
    + rewrite Hout; [done|]. intros (va & k & Hva & _ & Hd). rewrite (going_descend _ _ _ _ _ _ _ _ Hg) in Hd by done.
      by apply (Hno (depth lv + S k)%nat va Hva).
    + by destruct (Hno k (r_start r0) start_in).
  - rewrite (same_tables_size _ _ Hs). pose proof (go_size _ _ _ _ _ _ _ Hg). lia.
  - intros Hbp. eapply base_pages_same; [exact Hs|]. by apply (go_base _ _ _ _ _ _ _ Hg).
Qed.
End covering.

(** C7: a new cursor.  [Cursor::new] refuses ranges outside of the page table and ranges that are not aligned to
    pages, without an effect.  For any other range on nodes that no one else has locked it returns a cursor at
    the start of the range that satisfies the invariant of the cursor operations; no translation
    changes, the nodes that translate addresses of the range are exactly locked from the guard level down, none of
    them is stray, and no other node is touched. *)
Theorem cursor_new_correct (fuel : nat) st root r :
  (is_valid_range TOP_LEVEL_INDEX_RANGE r = false ->
    cursor_new (S fuel) st root r = Ret (inr (InvalidVaddrRange (r_start r) (r_end r)), st)) /\
  (is_valid_range TOP_LEVEL_INDEX_RANGE r = true ->
    r_start r mod BASE_PAGE_SIZE <> 0 \/ r_end r mod BASE_PAGE_SIZE <> 0 ->
    cursor_new (S fuel) st root r = Ret (inr UnalignedVaddr, st)) /\
  (NR_LEVELS <= Z.of_nat MAX_NR_LEVELS -> is_valid_range TOP_LEVEL_INDEX_RANGE r = true -> 0 <= r_start r ->
    r_start r mod BASE_PAGE_SIZE = 0 -> r_end r mod BASE_PAGE_SIZE = 0 ->
    slot (vaddr_range TOP_LEVEL_INDEX_RANGE).1 (NR_LEVELS + 1) = slot (vaddr_range TOP_LEVEL_INDEX_RANGE).2 (NR_LEVELS + 1) ->
    (slot (r_end r - 1) NR_LEVELS + 1) * page_size NR_LEVELS < 2 ^ 64 ->
    tree_ok st root -> counted_range root r -> free_but st root r None -> (size st + Z.to_nat NR_LEVELS <= S pool)%nat ->
    exists c st', cursor_new (S fuel) st root r = Ret (inl c, st') /\ new_cursor st st' root r c).
Proof.
  unfold cursor_new. split; [by intros ->|]. split.
  - intros Hv Hal. rewrite Hv. unfold is_valid_range in Hv. destruct (Z.leb_spec (r_end r) (r_start r)); [lia|]. cbn [negb orb].
    destruct (Z.eqb_spec (r_start r mod BASE_PAGE_SIZE) 0), (Z.eqb_spec (r_end r mod BASE_PAGE_SIZE) 0); first [done|by destruct Hal].
  - intros Hfit Hv Hpos Ha1 Ha2 Htop Hlim Ht Hcr Hfr Hsz. rewrite Hv, Ha1, Ha2. unfold is_valid_range in Hv.
    destruct (Z.leb_spec (r_end r) (r_start r)); [lia|]. cbn [negb orb Z.eqb]. pose proof req_levels as Hnr.
    destruct (lock_range_ok r ltac:(lia) Hfit (conj Ha1 Ha2) Hlim fuel st root Ht Hcr Hfr) as (c & st' & Hr & Hc); [|done|by step Hr; eauto].
    know (slot_mono (vaddr_range TOP_LEVEL_INDEX_RANGE).1 (r_start r) (NR_LEVELS + 1)) as Hm1.
    know (slot_mono (r_start r) (r_end r - 1) (NR_LEVELS + 1)) as Hm2.
    know (slot_mono (r_end r - 1) (vaddr_range TOP_LEVEL_INDEX_RANGE).2 (NR_LEVELS + 1)) as Hm3. lia.
Qed.
End lock.

Module LockExample.
Import Cursor86.
Local Existing Instance X86.consts.
Local Existing Instance X86.reqs.
Local Existing Instance UserPt.UserPtConfig.
Local Existing Instance all_counted.

Definition two_pages : range := mk_range 0x400000 0x402000.

(** The empty page table, with no lock held. *)
Definition free_table : pt_store pte64 := <[0x1000 := set_lock (Example86.one_node 4) 0]> empty_table.

Lemma free_table_ok : tree_ok free_table 0x1000.
Proof. eapply tree_ok_same; [|exact empty_table_ok]. apply set_lock_same. apply lookup_insert_eq. Qed.

Lemma free_table_free r : free_but free_table 0x1000 r None.
Proof.
  intros k va q n Hva Hq Hn. unfold free_table, empty_table, Example86.one_store in Hn. rewrite insert_insert_eq in Hn.
  apply lookup_insert_Some in Hn as [[_ <-]|[_ Hn]]; [done|by rewrite lookup_empty in Hn].
Qed.

Lemma cursor_new_correct_witness :
  exists c st', cursor_new true alloc 1 free_table 0x1000 two_pages = Ret (inl c, st') /\ cursor_ok st' 0x1000 c.
Proof.
  destruct (cursor_new_correct true true alloc Example86.base86 ltac:(done) alloc_fresh 4 alloc_succeeds 0 free_table 0x1000 two_pages)
    as (_ & _ & Hnew).
  destruct (Hnew levels_fit eq_refl ltac:(done) eq_refl eq_refl eq_refl eq_refl free_table_ok ltac:(done) (free_table_free _)) as (c & st' & Hr & Hc);
    [by vm_compute; lia|].
  exists c, st'. split; [exact Hr|apply Hc].
Defined.

(** A run: three tables are made, only the last of them stays locked, and it is the guard node. *)
Example new_run :
  match cursor_new true alloc 1 free_table 0x1000 two_pages with
  | Ret (inl c, st) => c_level c = 1 /\ size st = 4%nat /\ c_path c = [Some 0x7000; None; None; None] /\
      (fun n => lock (meta n)) <$> st !! 0x1000 = Some 0 /\ (fun n => lock (meta n)) <$> st !! 0x7000 = Some 1
  | _ => False
  end.
Proof. vm_compute. repeat split. Qed.

(** [dfs_release_lock] takes the child [end - i] for [i] in [start..end]: of the children 2 and 3 that the range meets it
    unlocks only the child 2. *)
Example release_misses_child :
  match cursor_new true alloc 1 free_table 0x1000 (mk_range 0x5ff000 0x601000) with
  | Ret (inl c, st) =>
      match map true alloc st c item0 with
      | Ret (inl _, c1, st1) =>
          match map true alloc st1 c1 item0 with
          | Ret (inl _, c2, st2) =>
              c_path c2 !! 1%nat = Some (Some 0x6000) /\
              match dfs_release_lock true 4 st2 0x6000 0 (mk_range 0x5ff000 0x601000) with
              | Ret st3 => (fun n => lock (meta n)) <$> st3 !! 0x7000 = Some 0 /\ (fun n => lock (meta n)) <$> st3 !! 0x8000 = Some 1
              | Panic => False
              end
          | _ => False
          end
      | _ => False
      end
  | _ => False
  end.
Proof. vm_compute. repeat split. Qed.
End LockExample.
