(* ===== verification/PtHandle.v ===== *)
(** * The page table handle ([ostd/src/mm/page_table/mod.rs])

    A page table is its root node.  The root of the kernel page table has a
    table below each entry of its half from the start, and never loses one; a
    new user page table copies these entries into its root, so that all
    address spaces share the tables of the kernel.

    [PageTable::empty] has no compiled body: it is the parameter [empty], with its documentation as the hypothesis
    [empty_law].  [new_kernel_page_table] has none either and follows the one in its comment.  The copied entries are not counted
    as children of the new root, so the invariant of the store holds with these entries as [uncounted]. *)

From S2P Require Import Prelude Agents AlignExt Paging FrameMeta PageProp Pte PteX86 PtChild PtNode PtTree PtStray PtCursor PtConfig PtLock.
Open Scope Z_scope.

Section handle.
Context `{PagingConstsTrait} `{PageTableEntryTrait E}.
Context (allow_panic debug_assertions : bool).
(** [KernelPtConfig::TOP_LEVEL_INDEX_RANGE]. *)
Context (top : range).
(** [PageTable::empty]: the address of the new root. *)
Context (empty : pt_store E -> outcome (Z * pt_store E)).
Implicit Types (st : pt_store E) (pa q root va lv : Z) (i k : nat) (n m : pt_node E).

(** One round of the loop of [new_kernel_page_table]; the guard of the new table is dropped at once. *)
Definition make_table (alloc_frame : pt_store E -> option Z) root (acc : outcome (pt_store E)) i : outcome (pt_store E) :=
  st ← acc;
  root_entry ← entry allow_panic st root i;
  ' (guard, _, st1) ← alloc_if_none alloc_frame st root_entry;
  pt ← unwrap guard;
  unlock_node st1 pt.

Definition new_kernel_page_table (alloc_frame : pt_store E -> option Z) st : outcome (Z * pt_store E) :=
  ' (root, st1) ← empty st;
  st2 ← lock_node st1 root;
  st3 ← foldl (make_table alloc_frame root) (Ret st2) (range_list top);
  st4 ← unlock_node st3 root;
  Ret (root, st4).

(** One round of the loop of [create_user_page_table]. *)
Definition share_table root (new_root : Z) (acc : outcome (pt_store E)) i : outcome (pt_store E) :=
  st ← acc;
  root_entry ← entry allow_panic st root i;
  child ← to_ref st root_entry;
  match child with
  | RefPageTable pt =>
      pt_addr ← meta_to_frame pt;
      write_pte st new_root i (new_pt pt_addr)
  | RefFrame _ _ _ | RefNone => Panic
  end.

Definition create_user_page_table st root : outcome (Z * pt_store E) :=
  ' (new_root, st1) ← empty st;
  st2 ← lock_node st1 root;
  st3 ← lock_node st2 new_root;
  st4 ← foldl (share_table root new_root) (Ret st3) (range_list top);
  st5 ← unlock_node st4 new_root;
  st6 ← unlock_node st5 root;
  Ret (new_root, st6).

(** ** Sharing the tables of the kernel *)

Context `{!PagingConstsReqs} `{!PageTableEntryLaws E} `{U : !Uncounted} (base_is_page : BASE_PAGE_SIZE = PAGE_SIZE).
(** The half of the kernel is a part of the root. *)
Context (top_fits : 0 <= r_start top <= r_end top /\ r_end top <= nr_subpage_per_huge).
(** "Create a new empty page table": a root of the highest level in a frame that is not in use, with no entries and not locked. *)
Context (empty_law : forall st pa st', empty st = Ret (pa, st') ->
  valid_frame_paddr pa /\ st !! pa = None /\ st' = <[pa := mk_node (meta_new NR_LEVELS) empty_ptes]> st).

(** The index of the root that an address selects. *)
Definition top_index va : Z := pte_index va NR_LEVELS.

(** The entries [l] of the node lead to tables. *)
Definition shares n (l : list nat) : Prop :=
  forall i, i ∈ l -> exists e, ptes n !! i = Some e /\ is_present e = true /\ is_last e NR_LEVELS = false.

Definition in_top i : bool := bool_decide (i ∈ range_list top).

(** The entries of the new root. *)
Definition copied n (l : list nat) (es : list E) : Prop :=
  length es = length empty_ptes /\
  forall i x, es !! i = Some x ->
    if decide (i ∈ l) then exists e, ptes n !! i = Some e /\ x = new_pt (paddr e) else x = new_absent.

(** The copies of the root [new] are not counted. *)
Definition user_uncounted new : Uncounted := fun pa i => if decide (pa = new) then in_top i else uncounted pa i.

Lemma in_top_spec va : 0 <= va -> Z.to_nat (top_index va) ∈ range_list top <-> in_range top (top_index va).
Proof.
  intros Hva. assert (0 <= top_index va) as Hi.
  { unfold top_index. pose proof req_levels. apply (index_digits va NR_LEVELS); lia. }
  unfold range_list, in_range. rewrite elem_of_seq. lia.
Qed.

Lemma top_bound i : i ∈ range_list top -> Z.of_nat i < nr_subpage_per_huge.
Proof. unfold range_list. rewrite elem_of_seq. lia. Qed.

Lemma elem_snoc (l : list nat) i j : j ∈ l ++ [i] <-> j ∈ l \/ j = i.
Proof. by rewrite elem_of_app, list_elem_of_singleton. Qed.

Section share.
Context (st : pt_store E) (root new : Z) (n : pt_node E).
Context (Ht : tree_ok st root) (Hn : st !! root = Some n) (Hlk : lock (meta n) = 0).
Context (Hv : valid_frame_paddr new) (Hnew : st !! new = None).

Lemma root_level : level (meta n) = NR_LEVELS.
Proof. destruct (tree_root _ _ Ht) as (n' & Hn' & Hl). congruence. Qed.

Lemma new_not_root : new <> root.
Proof. congruence. Qed.

(** The store in the loop, with the entries written so far. *)
Let cur (es : list E) : pt_store E :=
  <[new := mk_node (mk_meta 0 false NR_LEVELS 1) es]> (<[root := set_lock n 1]> st).

Lemma copied_insert l es i e : copied n l es -> ptes n !! i = Some e -> copied n (l ++ [i]) (<[i := new_pt (paddr e)]> es).
Proof.
  intros [Hlen Hes] He. split; [by rewrite length_insert|]. intros j x Hx. destruct (decide (j = i)) as [->|Hne].
  - rewrite decide_True by (apply elem_snoc; auto). exists e. split; [done|]. apply list_lookup_insert_Some in Hx as [(_ & -> & _)|[? _]]; congruence.
  - rewrite list_lookup_insert_ne in Hx by done. specialize (Hes j x Hx).
    destruct (decide (j ∈ l)); [rewrite decide_True by (apply elem_snoc; auto)|rewrite decide_False by (rewrite elem_snoc; tauto)]; done.
Qed.

Lemma share_round es i : Z.of_nat i < nr_subpage_per_huge -> length es = length empty_ptes ->
  exists e, ptes n !! i = Some e /\ share_table root new (Ret (cur es)) i =
    if is_present e && negb (is_last e NR_LEVELS) then Ret (cur (<[i := new_pt (paddr e)]> es)) else Panic.
Proof.
  intros Hi Hlen. assert (cur es !! root = Some (set_lock n 1)) as Hcur.
  { unfold cur. rewrite lookup_insert_ne by exact new_not_root. apply lookup_insert_eq. }
  destruct (visit_entry_at allow_panic st (cur es) root n (set_lock n 1) i (tree_store _ _ Ht) Hn Hcur eq_refl eq_refl Hi)
    as (e & c & He & Hent & Href & Hcase). rewrite root_level in Hcase. exists e. split; [done|].
  unfold share_table. cbn [mbind outcome_bind]. step Hent. step Href.
  destruct Hcase as [nd m Hp Hla Hback Hm _|Hno|a l p Hno]; [|by rewrite Hno|by rewrite Hno].
  rewrite Hp, Hla. cbn [andb negb]. step Hback. unfold write_pte, cur. rewrite get_node_insert. cbn [mbind outcome_bind ptes meta].
  rewrite arr_set_Ret by (rewrite Hlen; unfold empty_ptes; rewrite length_replicate; lia). cbn [mbind outcome_bind].
  by rewrite insert_insert_eq.
Qed.

Lemma share_panic l : foldl (share_table root new) Panic l = Panic.
Proof. by induction l. Qed.

Lemma share_loop l : (forall i, i ∈ l -> Z.of_nat i < nr_subpage_per_huge) -> forall done es, copied n done es ->
  (shares n l -> exists es', foldl (share_table root new) (Ret (cur es)) l = Ret (cur es') /\ copied n (done ++ l) es') /\
  (~ shares n l -> foldl (share_table root new) (Ret (cur es)) l = Panic).
Proof.
  induction l as [|i l IH]; intros Hl done es Hes; cbn [foldl].
  { split; [|intros Hno; destruct Hno; intros i Hi; by apply not_elem_of_nil in Hi]. intros _. exists es. by rewrite app_nil_r. }
  destruct (share_round es i (Hl i (list_elem_of_here _ _)) (proj1 Hes)) as (e & He & ->).
  destruct (is_present e) eqn:Hp; [destruct (is_last e NR_LEVELS) eqn:Hla|]; cbn [andb negb].
  1, 3: split; [intros Hsh; destruct (Hsh i (list_elem_of_here _ _)) as (e' & He' & ? & ?); congruence|intros _; apply share_panic].
  destruct (IH (fun j Hj => Hl j (list_elem_of_further _ _ _ Hj)) (done ++ [i]) _ (copied_insert done es i e Hes He)) as [Hyes Hno].
  rewrite <- app_assoc in Hyes. cbn [app] in Hyes. split.
  - intros Hsh. apply Hyes. intros j Hj. apply Hsh. by right.
  - intros Hsh. apply Hno. intros Hl'. apply Hsh. intros j [->|Hj]%elem_of_cons; [by exists e|by apply Hl'].
Qed.


(** The store with the new page table. *)
Let user_store (es : list E) : pt_store E := <[new := mk_node (meta_new NR_LEVELS) es]> st.

Lemma create_user_ok st1 : empty st = Ret (new, st1) ->
  (shares n (range_list top) -> exists es, create_user_page_table st root = Ret (new, user_store es) /\ copied n (range_list top) es) /\
  (~ shares n (range_list top) -> create_user_page_table st root = Panic).
Proof.
  intros He. destruct (empty_law _ _ _ He) as (_ & _ & ->). unfold create_user_page_table. step He.
  assert (lock_node (<[new := mk_node (meta_new NR_LEVELS) empty_ptes]> st) root =
    Ret (<[root := set_lock n 1]> (<[new := mk_node (meta_new NR_LEVELS) empty_ptes]> st))) as Hl1.
  { unfold lock_node, get_node. rewrite lookup_insert_ne, Hn by exact new_not_root. cbn. by rewrite Hlk. }
  step Hl1. rewrite insert_insert_ne by exact (not_eq_sym new_not_root).
  assert (lock_node (<[new := mk_node (meta_new NR_LEVELS) empty_ptes]> (<[root := set_lock n 1]> st)) new = Ret (cur empty_ptes)) as Hl2.
  { unfold lock_node. rewrite get_node_insert. cbn [mbind outcome_bind meta meta_new lock rassert Z.eqb nr_children stray level ptes].
    by rewrite insert_insert_eq. }
  step Hl2.
  destruct (share_loop (range_list top) top_bound [] empty_ptes) as [Hyes Hno].
  { split; [done|]. intros i x [-> _]%lookup_replicate. rewrite decide_False; [done|]. apply not_elem_of_nil. }
  split; [intros (es & Hr & Hes)%Hyes|intros Hr%Hno]; rewrite Hr; cbn [mbind outcome_bind]; [|done].
  exists es. split; [|done]. unfold unlock_node, cur. rewrite get_node_insert. cbn [mbind outcome_bind]. rewrite insert_insert_eq.
  unfold get_node. rewrite lookup_insert_ne, lookup_insert_eq by exact new_not_root. cbn [mbind outcome_bind unwrap].
  do 2 f_equal. rewrite insert_insert_ne, insert_insert_eq by exact (not_eq_sym new_not_root). unfold user_store. f_equal.
  apply insert_id. rewrite Hn. f_equal. destruct n as [[] ?]. cbn in *. by subst.
Qed.

Section user.
Context (es : list E) (Hes : copied n (range_list top) es) (Hsh : shares n (range_list top)).

(** An entry of the new root. *)
Lemma user_entry i x : es !! i = Some x ->
  if decide (i ∈ range_list top)
  then exists e m, ptes n !! i = Some e /\ is_present e = true /\ is_last e NR_LEVELS = false /\ st !! paddr e = Some m /\
    level (meta m) = NR_LEVELS - 1 /\ 1 < NR_LEVELS /\ pte_wf x /\ is_present x = true /\ is_last x NR_LEVELS = false /\ paddr x = paddr e
  else x = new_absent.
Proof.
  intros Hx. pose proof (proj2 Hes i x Hx) as Hc. destruct (decide _) as [Hi|]; [|done].
  destruct Hc as (e & He & ->), (Hsh i Hi) as (e' & He' & Hp & Hla). assert (e' = e) as -> by congruence.
  destruct (tree_store _ _ Ht _ _ Hn) as [_ (_ & _ & _ & Hf)]. destruct (Forall_lookup_1 _ _ _ _ Hf He) as [_ Hok].
  specialize (Hok Hp). rewrite root_level, Hla in Hok. destruct Hok as (Hl & m & Hm & Hlm).
  destruct (tree_store _ _ Ht _ _ Hm) as [Hvm _]. destruct (new_pt_law (paddr e) NR_LEVELS (proj1 Hvm) Hl) as (Hw & Hp' & Hla' & Hpa).
  exists e, m. rewrite align_down_frame in Hpa by done. split_and!; done.
Qed.

Lemma user_same_levels : same_levels st (user_store es).
Proof. apply same_levels_insert. by rewrite Hnew. Qed.

Lemma user_store_ok : store_ok (U := user_uncounted new) (user_store es).
Proof.
  split.
  - intros q m Hq. unfold user_store in Hq. apply lookup_insert_Some in Hq as [[<- <-]|[Hne Hq]].
    + split; [done|]. pose proof req_levels. pose proof (nr_subpage_bound base_is_page). split_and!; cbn [meta ptes level meta_new nr_children]; try lia.
      * rewrite (proj1 Hes). unfold empty_ptes. rewrite length_replicate. lia.
      * symmetry. apply number_zero. intros i b Hb. rewrite list_lookup_imap in Hb. destruct (es !! i) as [x|] eqn:Hx; [|done].
        cbn in Hb. injection Hb as <-. unfold uncounted, user_uncounted. rewrite decide_True by done. unfold in_top.
        pose proof (user_entry i x Hx) as Hc. destruct (decide (i ∈ range_list top)); [by rewrite bool_decide_true, andb_false_r by done|].
        subst x. by rewrite new_absent_law.
      * apply Forall_lookup_2. intros i x Hx. pose proof (user_entry i x Hx) as Hc. destruct (decide _) as [Hi|]; [|subst x; apply absent_ok].
        destruct Hc as (e & m & _ & _ & _ & Hm & Hlm & Hl & Hw & Hp & Hla & Hpa). split; [done|]. intros _. rewrite Hla, Hpa. split; [done|].
        destruct (user_same_levels _ _ Hm) as (m' & ? & ?). exists m'. split; [done|congruence].
    + destruct (tree_store _ _ Ht q m Hq) as [Hvq Hok]. split; [done|]. apply (node_ok_mono st (user_store es) q m user_same_levels) in Hok.
      destruct Hok as (? & ? & Hnr & ?). split_and!; try done; try lia. rewrite Hnr. unfold counted. f_equal. apply imap_ext. intros i x _.
      unfold uncounted at 2, user_uncounted. by rewrite decide_False.
  - intros q i Hu. unfold uncounted, user_uncounted in Hu. destruct (decide (q = new)) as [->|].
    + eexists. split; [apply lookup_insert_eq|done].
    + by apply (uncounted_mono st (user_store es) q i user_same_levels (tree_store _ _ Ht)).
Qed.


Let user_root_node : pt_node E := mk_node (meta_new NR_LEVELS) es.

Lemma user_root_at : user_store es !! new = Some user_root_node.
Proof. apply lookup_insert_eq. Qed.

Lemma user_other q : q <> new -> user_store es !! q = st !! q.
Proof. intros Hq. by apply lookup_insert_ne. Qed.

(** The entry of the new root for an address. *)
Lemma user_index va : 0 <= va -> exists x, walk_pte user_root_node va = Some x /\ es !! Z.to_nat (top_index va) = Some x.
Proof.
  intros Hva. destruct (walk_index (U := user_uncounted new) base_is_page (user_store es) user_root_node va (proj2 (user_store_ok _ _ user_root_at)) Hva)
    as (x & Hx & _). by exists x.
Qed.

(** Below the entries the tables are those of the kernel. *)
Lemma user_low d l q m va : st !! q = Some m -> level (meta m) = l -> descend (user_store es) d l q va = descend st d l q va.
Proof.
  intros Hq Hm. apply (descend_off st (user_store es) new user_other). intros j _ Hj.
  destruct (descend_node st j l q va m new (tree_store _ _ Ht) Hq Hm Hj) as (m' & ? & _). congruence.
Qed.

Lemma user_at k va : 0 <= va ->
  node_at (user_store es) new (S k) va = if decide (in_range top (top_index va)) then node_at st root (S k) va else None.
Proof.
  intros Hva. destruct (user_index va Hva) as (x & _ & Hx). unfold node_at. cbn [descend]. rewrite user_root_at, Hn. cbn [mbind option_bind ptes user_root_node].
  fold (top_index va). rewrite Hx. cbn [mbind option_bind]. pose proof (user_entry _ x Hx) as Hc.
  destruct (decide (Z.to_nat (top_index va) ∈ _)) as [Hi|Hi].
  - rewrite decide_True by (by apply in_top_spec). destruct Hc as (e & m & He & Hp & Hla & Hm & Hlm & _ & _ & Hp' & Hla' & Hpa).
    rewrite He. cbn [mbind option_bind]. rewrite Hp, Hla, Hp', Hla', Hpa. cbn [andb negb]. by eapply user_low.
  - rewrite decide_False by (by rewrite <- in_top_spec). subst x. by rewrite new_absent_law.
Qed.

Lemma user_tree : tree_ok (U := user_uncounted new) (user_store es) new.
Proof.
  split; [exact user_store_ok|by exists user_root_node; split; [exact user_root_at|]|].
  intros [|k] va1 va2 q Hv1 Hv2; [intros _ _ l Hl; lia|]. rewrite !user_at by done.
  destruct (decide (in_range _ _)), (decide (in_range _ _)); try done. by apply (tree_unshared _ _ Ht).
Qed.

Lemma user_walk va : 0 <= va ->
  page_walk debug_assertions (user_store es) new va =
    if decide (in_range top (top_index va)) then page_walk debug_assertions st root va else Ret None.
Proof.
  intros Hva. destruct (user_index va Hva) as (x & Hwx & Hx). pose proof (user_entry _ x Hx) as Hc.
  pose proof (node_walk_step (U := user_uncounted new) debug_assertions base_is_page (user_store es) new user_root_node va x user_store_ok user_root_at Hva Hwx) as Hw.
  unfold node_walk in Hw. cbn [user_root_node meta meta_new level] in Hw. unfold page_walk. rewrite Hw. unfold pte_walk.
  destruct (decide (Z.to_nat (top_index va) ∈ _)) as [Hi|Hi].
  - rewrite decide_True by (by apply in_top_spec). destruct Hc as (e & m & He & Hp & Hla & Hm & Hlm & _ & _ & -> & -> & ->). cbn [negb].
    pose proof (node_walk_step debug_assertions base_is_page st root n va e (tree_store _ _ Ht) Hn Hva) as Hw'.
    unfold node_walk, walk_pte in Hw'. rewrite root_level in Hw'. rewrite Hw' by done. unfold pte_walk. rewrite Hp, Hla. cbn [negb].
    pose proof req_levels. apply (walk_off debug_assertions st (user_store es) new user_other). intros j _ Hj. rewrite Z2Nat.id in Hj by lia.
    destruct (descend_node st j _ _ va m new (tree_store _ _ Ht) Hm Hlm Hj) as (m' & ? & _). congruence.
  - rewrite decide_False by (by rewrite <- in_top_spec). subst x. by rewrite new_absent_law.
Qed.

(** The part of the user: nothing below the root, and nothing locked. *)
Lemma user_free r : (forall va, in_range r va -> 0 <= va /\ ~ in_range top (top_index va)) -> free_but (user_store es) new r None.
Proof.
  intros Hr k va q m Hva Hq Hm. destruct (Hr va Hva) as [Hv0 Hout]. destruct k as [|k].
  - cbn in Hq. injection Hq as <-. rewrite user_root_at in Hm. injection Hm as <-. done.
  - rewrite user_at in Hq by done. by rewrite decide_False in Hq.
Qed.

Lemma user_pages : base_pages (U := user_uncounted new) (user_store es) new.
Proof.
  intros k va q m e Hva Hc Hq Hm He Hp _. unfold uncounted, user_uncounted in Hc. rewrite decide_True in Hc by done.
  fold (top_index va) in Hc. unfold in_top in Hc. apply bool_decide_eq_false in Hc. destruct k as [|k].
  - cbn in Hq. injection Hq as <-. rewrite user_root_at in Hm. injection Hm as <-. exfalso.
    unfold walk_pte in He. cbn [user_root_node ptes meta meta_new level] in He. pose proof (user_entry _ e He) as Hx.
    rewrite decide_False in Hx by done. subst e. by rewrite new_absent_law in Hp.
  - rewrite user_at in Hq by done. rewrite decide_False in Hq; [done|]. by rewrite <- in_top_spec.
Qed.

End user.
End share.

(** ** The kernel page table *)

Section kernel.
Context (alloc_frame : pt_store E -> option Z) (alloc_fresh : forall st pa, alloc_frame st = Some pa -> valid_frame_paddr pa /\ st !! pa = None).
Context (pool : nat) (alloc_succeeds : forall st, (size st < pool)%nat -> is_Some (alloc_frame st)).
Context (tables : 1 < NR_LEVELS).

Local Notation make_table := (make_table alloc_frame).
Local Notation new_kernel_page_table := (new_kernel_page_table alloc_frame).

(** A root without entries. *)
Lemma bare_root st root n : store_ok st -> st !! root = Some n -> level (meta n) = NR_LEVELS ->
  (forall i e, ptes n !! i = Some e -> is_present e = false) ->
  tree_ok st root /\ (forall k va, node_at st root (S k) va = None) /\
  forall va, 0 <= va -> page_walk debug_assertions st root va = Ret None.
Proof.
  intros Hst Hn Hl Hab.
  assert (forall k va, node_at st root (S k) va = None) as Hat.
  { intros k va. unfold node_at. cbn [descend]. rewrite Hn. cbn [mbind option_bind].
    destruct (ptes n !! _) as [e|] eqn:He; [|done]. cbn [mbind option_bind]. by rewrite (Hab _ _ He). }
  split_and!; [split; [done|by exists n|]|done|].
  - intros [|k] va1 va2 q _ _ Hq1 _ l Hll; [lia|]. by rewrite Hat in Hq1.
  - intros va Hva. destruct (walk_index base_is_page st n va (proj2 (Hst _ _ Hn)) Hva) as (e & He & _).
    pose proof (node_walk_step debug_assertions base_is_page st root n va e Hst Hn Hva He) as Hw. unfold node_walk in Hw. rewrite Hl in Hw.
    unfold page_walk. rewrite Hw. unfold pte_walk. unfold walk_pte in He. by rewrite (Hab _ _ He).
Qed.

(** The store in the loop, after the entries [l]; [st0] is the store before. *)
Record growing st0 root (l : list nat) st n : Prop := {
  gr_tree : tree_ok st root;
  gr_root : st !! root = Some n;
  gr_lock : lock (meta n) = 1 /\ stray (meta n) = false;
  gr_entries : forall i e, ptes n !! i = Some e ->
    if decide (i ∈ l) then is_present e = true /\ is_last e NR_LEVELS = false else is_present e = false;
  gr_walk : forall va, 0 <= va -> page_walk debug_assertions st root va = Ret None;
  gr_free : forall k va q m, 0 <= va -> node_at st root k va = Some q -> st !! q = Some m -> q <> root ->
    stray (meta m) = false /\ lock (meta m) = 0;
  gr_keep : forall q, is_Some (st0 !! q) -> st !! q = st0 !! q;
  gr_size : (size st = S (size st0) + length l)%nat;
}.

Section round.
Context (st0 st : pt_store E) (root : Z) (l : list nat) (n : pt_node E) (i : nat).
Context (Hg : growing st0 root l st n) (Hnot : st0 !! root = None) (Hcnt : uncounted root i = false).
Context (Hi : Z.of_nat i < nr_subpage_per_huge) (Hil : i ∉ l).

Lemma growing_level : level (meta n) = NR_LEVELS.
Proof. destruct (tree_root _ _ (gr_tree _ _ _ _ _ Hg)) as (n' & Hn' & Hl). rewrite (gr_root _ _ _ _ _ Hg) in Hn'. by injection Hn' as ->. Qed.

(** The new table [m] at [pa], with its guard dropped. *)
Lemma grow_put e pa m e1 : let en := mk_entry e i root in let st2 := <[pa := set_lock m 0]> (put_node st en n pa m e1) in
  entry_at st en n -> st !! pa = None -> store_ok (<[pa := m]> st) -> pte_ok (<[pa := m]> st) NR_LEVELS e1 ->
  is_present e1 = true -> is_last e1 NR_LEVELS = false -> paddr e1 = pa -> stray (meta m) = false ->
  (forall j x, ptes m !! j = Some x -> is_present x = false) ->
  (forall va, 0 <= va -> pte_walk debug_assertions (<[pa := m]> st) NR_LEVELS e1 va = pte_walk debug_assertions st NR_LEVELS e va) ->
  growing st0 root (l ++ [i]) st2 (with_entry n i e1).
Proof.
  intros en st2 Hen Hnew Hst1 Hok Hp1 Hla1 Hpa Hstray Hempty Hmean.
  pose proof Hg as [Ht Hn [Hlk Hs] Hents Hw Hfr Hkp Hsz]. rewrite <- growing_level in Hok, Hla1, Hmean.
  assert (level (meta n) = NR_LEVELS - Z.of_nat 0) as Hk by (rewrite growing_level; lia).
  assert (forall j x, ptes m !! j = Some x -> is_present x && negb (is_last x (level (meta n) - 1)) = false) as Hleaf.
  { intros j x Hx. by rewrite (Hempty j x Hx). }
  assert (root <> pa) as Hne by congruence.
  assert (put_node st en n pa m e1 !! pa = Some m) as Hm2.
  { unfold put_node, set_entry. cbn [node en]. rewrite lookup_insert_ne by done. apply lookup_insert_eq. }
  assert (same_tables (put_node st en n pa m e1) st2) as Hs2 by (by apply set_lock_same).
  assert (st2 !! root = Some (with_entry n i e1)) as Hr2.
  { unfold st2. rewrite lookup_insert_ne by done. apply lookup_insert_eq. }
  assert (forall q, q <> pa -> q <> root -> st2 !! q = st !! q) as Hq2.
  { intros q Hq1 Hq2. unfold st2, put_node, set_entry. cbn [node en]. by rewrite !lookup_insert_ne. }
  split; try done.
  - eapply tree_ok_same; [exact Hs2|]. by apply (put_tree base_is_page st root pa en n m 0 e1).
  - intros j x Hx. cbn [with_entry ptes] in Hx. apply list_lookup_insert_Some in Hx as [(-> & -> & _)|[Hj Hx]].
    + rewrite decide_True by (apply elem_snoc; auto). rewrite <- growing_level. done.
    + specialize (Hents j x Hx).
      destruct (decide (j ∈ l)); [rewrite decide_True by (apply elem_snoc; auto)|rewrite decide_False by (rewrite elem_snoc; intros [?| ->]; done)]; done.
  - intros va Hva. rewrite <- (Hw va Hva), <- Hs2. by apply (put_walk debug_assertions base_is_page st root pa en n m e1 Ht Hen Hnew Hst1 Hok).
  - intros k va q x Hva Hq Hx Hqr. unfold node_at in Hq. rewrite <- Hs2 in Hq.
    destruct (put_at_case base_is_page st root pa en n m 0 e1 Ht Hen Hk Hnew Hst1 Hok ltac:(done) Hleaf k va q Hva Hq) as [[Hqp Hq0]|(-> & _)].
    + rewrite Hq2 in Hx by done. by apply (Hfr k va q x).
    + unfold st2 in Hx. rewrite lookup_insert_eq in Hx. injection Hx as <-. done.
  - intros q [x Hx]. assert (q <> root) by congruence. assert (st !! q = st0 !! q) as Hqs by (apply Hkp; by eexists).
    rewrite <- Hqs. apply Hq2; congruence.
  - rewrite (same_tables_size _ _ Hs2), length_app. unfold put_node, set_entry. cbn [node en length].
    rewrite map_size_insert_Some by (rewrite lookup_insert_ne by done; eauto). rewrite map_size_insert_None by done. lia.
Qed.

Lemma grow_round : (size st < pool)%nat -> exists st' n', make_table root (Ret st) i = Ret st' /\ growing st0 root (l ++ [i]) st' n'.
Proof.
  intros Hsz. pose proof Hg as [Ht Hn _ Hents _ _ _ _]. destruct (alloc_succeeds st Hsz) as [pa Ha]. destruct (alloc_fresh st pa Ha) as [Hv Hnew].
  destruct (visit_entry allow_panic st st root n i (tree_store _ _ Ht) ltac:(done) Hn Hi) as (e & c & He & Hent & _).
  assert (is_present e = false) as Hp. { specialize (Hents i e He). by rewrite decide_False in Hents. }
  assert (entry_at st (mk_entry e i root) n) as Hen by done.
  destruct (alloc_child_spec debug_assertions alloc_frame base_is_page alloc_fresh st (mk_entry e i root) n pa (tree_store _ _ Ht) Hen Hp) as
    (e1 & Hst1 & Hok1 & Hp1 & Hl1 & Hpa1 & Hw & Halloc & _); [by rewrite growing_level|done|].
  rewrite growing_level in Hst1, Hok1, Hl1, Hw, Halloc. set (m := locked_node (NR_LEVELS - 1) empty_ptes) in *.
  unfold make_table. cbn [mbind outcome_bind]. step Hent. step Halloc. cbn [unwrap]. unfold unlock_node, get_node, put_node, set_entry. cbn [node idx mbind outcome_bind].
  rewrite lookup_insert_ne, lookup_insert_eq by congruence. cbn [mbind outcome_bind unwrap]. eexists _, _. split; [done|].
  apply (grow_put e pa m e1); try done. intros j x [-> _]%lookup_replicate. apply new_absent_law.
Qed.
End round.

Lemma grow_loop st0 root l2 : (forall i, uncounted root i = false) -> st0 !! root = None -> NoDup l2 ->
  (forall i, i ∈ l2 -> Z.of_nat i < nr_subpage_per_huge) ->
  forall l1 st n, growing st0 root l1 st n -> (forall i, i ∈ l2 -> i ∉ l1) -> (size st + length l2 <= pool)%nat ->
  exists st' n', foldl (make_table root) (Ret st) l2 = Ret st' /\ growing st0 root (l1 ++ l2) st' n'.
Proof.
  intros Hcnt Hnot. induction l2 as [|i l2 IH]; intros Hnd Hb l1 st n Hg Hdis Hsz; cbn [foldl length] in *.
  { exists st, n. by rewrite app_nil_r. }
  apply NoDup_cons in Hnd as [Hi Hnd].
  destruct (grow_round st0 st root l1 n i Hg Hnot (Hcnt i) (Hb i (list_elem_of_here _ _)) (Hdis i (list_elem_of_here _ _)) ltac:(lia)) as (st1 & n1 & -> & Hg1).
  pose proof (gr_size _ _ _ _ _ Hg) as Hs0. pose proof (gr_size _ _ _ _ _ Hg1) as Hs1. rewrite length_app in Hs1. cbn in Hs1.
  destruct (IH Hnd (fun j Hj => Hb j (list_elem_of_further _ _ _ Hj)) (l1 ++ [i]) st1 n1 Hg1) as (st' & n' & Hr & Hg'); [|lia|].
  - intros j Hj. rewrite elem_snoc. intros [Hj1| ->]; [|done]. by apply (Hdis j); [right|].
  - exists st', n'. by rewrite <- app_assoc in Hg'.
Qed.

(** A kernel page table that is ready to be shared. *)
Record kernel_table st root n : Prop := {
  kt_tree : tree_ok st root;
  kt_root : st !! root = Some n;
  kt_shared : shares n (range_list top);
  kt_free : forall k va q m, 0 <= va -> node_at st root k va = Some q -> st !! q = Some m -> stray (meta m) = false /\ lock (meta m) = 0;
}.

Lemma new_kernel_ok st root st1 : store_ok st -> empty st = Ret (root, st1) -> (size st + length (range_list top) < pool)%nat ->
  exists st' n, new_kernel_page_table st = Ret (root, st') /\ kernel_table st' root n /\ (forall i, uncounted root i = false) /\
    (forall i e, ptes n !! i = Some e -> i ∉ range_list top -> is_present e = false) /\
    (forall va, 0 <= va -> page_walk debug_assertions st' root va = Ret None) /\
    (forall q, is_Some (st !! q) -> st' !! q = st !! q) /\ (size st' = S (size st) + length (range_list top))%nat.
Proof.
  intros Hst He Hsz. destruct (empty_law _ _ _ He) as (Hv & Hnew & ->). unfold new_kernel_page_table. step He.
  assert (forall i, uncounted root i = false) as Hcnt by (intros i; by eapply new_counted).
  set (n0 := locked_node NR_LEVELS empty_ptes). set (st2 := <[root := n0]> st).
  assert (lock_node (<[root := mk_node (meta_new NR_LEVELS) empty_ptes]> st) root = Ret st2) as Hlock.
  { unfold lock_node. rewrite get_node_insert. cbn [mbind outcome_bind meta meta_new lock rassert Z.eqb nr_children stray level ptes].
    rewrite insert_insert_eq. unfold st2, n0, locked_node. by rewrite number_empty. }
  step Hlock. assert (st2 !! root = Some n0) as Hn0 by apply lookup_insert_eq.
  assert (store_ok st2) as Hst2. { apply locked_node_ok; try done; [lia|]. apply Forall_replicate, absent_ok. }
  destruct (bare_root st2 root n0 Hst2 Hn0 eq_refl) as (Ht2 & Hat2 & Hw2); [intros i e [-> _]%lookup_replicate; apply new_absent_law|].
  assert (growing st root [] st2 n0) as Hg.
  { split; try done.
    - intros i e [-> _]%lookup_replicate. rewrite decide_False by apply not_elem_of_nil. apply new_absent_law.
    - intros [|k] va q m _ Hq; [cbn in Hq; by injection Hq as <-|by rewrite Hat2 in Hq].
    - intros q [x Hx]. apply lookup_insert_ne. congruence.
    - unfold st2. rewrite map_size_insert_None by done. cbn. lia. }
  destruct (grow_loop st root (range_list top) Hcnt Hnew (NoDup_seq _ _) top_bound [] st2 n0 Hg) as (st3 & n & Hloop & Hg3).
  { intros i _. apply not_elem_of_nil. }
  { rewrite (gr_size _ _ _ _ _ Hg). cbn. lia. }
  step Hloop. cbn [app] in Hg3. pose proof Hg3 as [Ht3 Hn3 [Hlk3 Hs3] Hents Hw3 Hfr3 Hkp3 Hsz3].
  unfold unlock_node, get_node. rewrite Hn3. cbn [mbind outcome_bind unwrap]. pose proof (set_lock_same st3 root n 0 Hn3) as Hs.
  eexists _, (set_lock n 0). split; [done|]. split_and!; try done.
  - split; [by eapply tree_ok_same|apply lookup_insert_eq| |].
    + intros i Hi. destruct (tree_store _ _ Ht3 _ _ Hn3) as [_ (_ & Hlen & _)]. pose proof (top_bound i Hi).
      destruct (lookup_lt_is_Some_2 (ptes n) i) as [e He']; [lia|]. exists e. specialize (Hents i e He'). rewrite decide_True in Hents by done. done.
    + intros k va q m Hva Hq Hm. unfold node_at in Hq. rewrite <- Hs in Hq. destruct (decide (q = root)) as [->|Hne].
      * rewrite lookup_insert_eq in Hm. injection Hm as <-. done.
      * rewrite lookup_insert_ne in Hm by done. by apply (Hfr3 k va q m).
  - intros i e He' Hi. specialize (Hents i e He'). by rewrite decide_False in Hents.
  - intros va Hva. rewrite <- (Hw3 va Hva). symmetry. by apply page_walk_same.
  - intros q Hq. rewrite lookup_insert_ne; [by apply Hkp3|]. intros ->. destruct Hq as [x Hx]. congruence.
  - by rewrite (same_tables_size _ _ Hs).
Qed.
End kernel.

(** A new user page table: the tables of the kernel stay as they are, the addresses of the kernel translate as in the kernel page
    table, and the other addresses do not translate; nothing in their part is locked. *)
Record user_table st root new st' : Prop := {
  ut_keep : forall q, q <> new -> st' !! q = st !! q;
  ut_node : exists m, st' !! new = Some m /\ lock (meta m) = 0 /\ nr_children (meta m) = 0;
  ut_tree : tree_ok (U := user_uncounted new) st' new;
  ut_pages : base_pages (U := user_uncounted new) st' new;
  ut_free : forall r, (forall va, in_range r va -> 0 <= va /\ ~ in_range top (top_index va)) -> free_but st' new r None;
  ut_walk : forall va, 0 <= va -> page_walk debug_assertions st' new va =
    if decide (in_range top (top_index va)) then page_walk debug_assertions st root va else Ret None;
}.

(** [create_user_page_table] panics exactly if an entry of the kernel half of the kernel's root does not lead to a table. *)
Lemma create_user_spec st root n new st1 :
  tree_ok st root -> st !! root = Some n -> lock (meta n) = 0 -> empty st = Ret (new, st1) ->
  (~ shares n (range_list top) -> create_user_page_table st root = Panic) /\
  (shares n (range_list top) -> exists st', create_user_page_table st root = Ret (new, st') /\ user_table st root new st').
Proof.
  intros Ht Hn Hlk He. destruct (empty_law _ _ _ He) as (Hv & Hnew & _).
  destruct (create_user_ok st root new n Ht Hn Hlk Hnew st1 He) as [Hyes Hno]. split; [exact Hno|].
  intros Hsh. destruct (Hyes Hsh) as (es & Hr & Hes). eexists. split; [exact Hr|]. split.
  - intros q Hq. by apply lookup_insert_ne.
  - eexists. split; [apply lookup_insert_eq|done].
  - by apply (user_tree st root new n).
  - by apply (user_pages st root new n).
  - intros r. by apply (user_free st root new n).
  - intros va. by apply (user_walk st root new n).
Qed.

(** The kernel page table can be shared.  From any store of page tables, and with enough frames, [new_kernel_page_table] returns a
    root whose entries are tables exactly in the kernel half; no address translates yet, no node of the table is locked
    or stray, and the nodes of other tables are untouched.  So the precondition of [create_user_page_table] holds, and whenever a root can be
    allocated it returns a user page table that shares all of the kernel half. *)
Theorem kernel_page_table_shareable (alloc_frame : pt_store E -> option Z) (alloc_fresh : forall st pa, alloc_frame st = Some pa -> valid_frame_paddr pa /\ st !! pa = None)
    (pool : nat) (alloc_succeeds : forall st, (size st < pool)%nat -> is_Some (alloc_frame st)) st root st1 :
  1 < NR_LEVELS -> store_ok st -> empty st = Ret (root, st1) -> (size st + length (range_list top) < pool)%nat ->
  exists st' n, new_kernel_page_table alloc_frame st = Ret (root, st') /\ kernel_table st' root n /\
    (forall i e, ptes n !! i = Some e -> i ∉ range_list top -> is_present e = false) /\
    (forall va, 0 <= va -> page_walk debug_assertions st' root va = Ret None) /\
    (forall q, is_Some (st !! q) -> st' !! q = st !! q) /\
    forall new st2, empty st' = Ret (new, st2) ->
      exists st3, create_user_page_table st' root = Ret (new, st3) /\ user_table st' root new st3.
Proof.
  intros Hl Hst He Hsz. destruct (new_kernel_ok alloc_frame alloc_fresh pool alloc_succeeds Hl st root st1 Hst He Hsz) as (st' & n & Hr & Hk & _ & Hab & Hw & Hkp & _).
  exists st', n. split_and!; try done. intros new st2 He2. pose proof Hk as [Ht Hn Hsh Hfr].
  destruct (Hfr 0%nat 0 root n ltac:(lia) eq_refl Hn) as [_ Hlk]. by apply (create_user_spec st' root n new st2 Ht Hn Hlk He2).
Qed.
End handle.

(** ** The page tables of x86-64 *)

Module HandleExample.
Local Existing Instance X86.consts.
Local Existing Instance X86.reqs.
Local Existing Instance all_counted.

Definition kernel_half : range := KernelPt.KernelPtConfig.(@TOP_LEVEL_INDEX_RANGE).

(** An allocator with 300 frames, from which the roots come as well. *)
Definition frames : list Z := (fun k => 0x100000 + Z.of_nat k * 0x1000) <$> seq 0 300.
Definition handle_alloc : pt_store PageTableEntry -> option Z := pool_alloc frames.
Definition handle_empty (st : pt_store PageTableEntry) : outcome (Z * pt_store PageTableEntry) := PtNode.alloc handle_alloc st NR_LEVELS.

Lemma handle_alloc_fresh st pa : handle_alloc st = Some pa -> valid_frame_paddr pa /\ st !! pa = None.
Proof.
  apply pool_alloc_fresh. apply Forall_fmap, Forall_forall. intros k Hk%elem_of_seq. cbn. unfold valid_frame_paddr, MAX_PADDR, PAGE_SIZE.
  split; [lia|]. Z.to_euclidean_division_equations. lia.
Qed.

Lemma handle_alloc_succeeds st : (size st < 300)%nat -> is_Some (handle_alloc st).
Proof.
  intros Hs. apply (pool_alloc_succeeds frames); [|done]. apply NoDup_fmap_2; [|apply NoDup_seq]. intros a b Hab. lia.
Qed.

Lemma handle_empty_law st pa st' : handle_empty st = Ret (pa, st') ->
  valid_frame_paddr pa /\ st !! pa = None /\ st' = <[pa := mk_node (meta_new NR_LEVELS) empty_ptes]> st.
Proof.
  unfold handle_empty, PtNode.alloc. destruct (handle_alloc st) as [q|] eqn:Ha; [|done]. cbn [mbind outcome_bind unwrap]. intros [= <- <-].
  destruct (handle_alloc_fresh st q Ha). done.
Qed.

Lemma handle_empty_succeeds st : (size st < 300)%nat -> exists pa st', handle_empty st = Ret (pa, st').
Proof. intros [q Hq]%handle_alloc_succeeds. unfold handle_empty, PtNode.alloc. rewrite Hq. by eexists _, _. Qed.

Lemma no_tables : store_ok (∅ : pt_store PageTableEntry).
Proof. split; [intros pa n Hn; by rewrite lookup_empty in Hn|done]. Qed.

Lemma half_fits : 0 <= r_start kernel_half <= r_end kernel_half /\ r_end kernel_half <= nr_subpage_per_huge.
Proof. change nr_subpage_per_huge with 512. cbn. lia. Qed.

Lemma kernel_page_table_shareable_witness : exists st' n,
  new_kernel_page_table true kernel_half handle_empty handle_alloc ∅ = Ret (0x100000, st') /\ kernel_table kernel_half st' 0x100000 n.
Proof.
  destruct (kernel_page_table_shareable true true kernel_half handle_empty Example86.base86 half_fits handle_empty_law handle_alloc
    handle_alloc_fresh 300 handle_alloc_succeeds ∅ 0x100000 (<[0x100000 := mk_node (meta_new NR_LEVELS) empty_ptes]> ∅)
    eq_refl no_tables eq_refl ltac:(vm_compute; lia)) as (st' & n & Hr & Hk & _).
  exists st', n. split; [exact Hr|exact Hk].
Defined.
End HandleExample.
