(* ===== verification/PtDrop.v ===== *)
(** * Dropping page tables ([on_drop] of [ostd/src/mm/page_table/node/mod.rs])

    A page table node is a frame with a reference count, which the entry that points to
    it owns.  Dropping the last reference of a node drops its children first: the
    nodes below it, with all that is below them, and the items that it maps.  The root
    of a page table only owns the entries in the range of its configuration, since the root
    of a user page table has copies of the entries of the kernel.

    The function is trusted in the source: its contract does not say what happens to
    the children.  The theorem does: each node of the page table is
    freed once, the items that are dropped are exactly the mappings of
    the page table, and the shared tables stay. *)

From S2P Require Import Prelude Agents AlignExt Paging FrameMeta FrameSegment PageProp Pte PteX86 PtChild PtNode PtTree PtStray PtCursor PtConfig PtLock.
Open Scope Z_scope.

(** The page tables, the metadata slots of their frames, and what is given back, in order: the frames whose last reference is
    dropped, which is where [Frame::drop] has the call of the allocator in a comment, and the items. *)
Record tables (E Item : Type) := mk_tables {
  nodes : pt_store E;
  node_slots : gmap Z (MetaSlot unit);
  freed : list Z;
  dropped : list Item;
}.
Arguments mk_tables {E Item}.
Arguments nodes {E Item}.
Arguments node_slots {E Item}.
Arguments freed {E Item}.
Arguments dropped {E Item}.

Section drop.
Context `{PagingConstsTrait} `{PageTableEntryTrait E} `{PageTableConfig}.
Implicit Types (w : tables E Item) (st : pt_store E) (pa q root va : Z) (i j k : nat) (n : pt_node E).

(** One round of the loop over the entries of a node of the level [lv]. *)
Definition on_drop_entry (drop : tables E Item -> Z -> outcome (tables E Item)) pa (lv : Z)
    (acc : outcome (tables E Item)) i : outcome (tables E Item) :=
  w ← acc;
  e ← read_pte (nodes w) pa i;
  if is_present e then
    if negb (is_last e lv) then drop w (paddr e)
    else
      p ← prop e;
      Ret (mk_tables (nodes w) (node_slots w) (freed w) (dropped w ++ [item_from_raw (paddr e) lv p]))
  else Ret w.

(** The entries that a node of the level [lv] owns. *)
Definition drop_range (lv : Z) : range :=
  if lv =? NR_LEVELS then TOP_LEVEL_INDEX_RANGE else mk_range 0 nr_subpage_per_huge.

Definition on_drop (drop : tables E Item -> Z -> outcome (tables E Item)) w pa : outcome (tables E Item) :=
  n ← get_node (nodes w) pa;
  let lv := level (meta n) in
  foldl (on_drop_entry drop pa lv) (Ret w) (range_list (drop_range lv)).

(** [Frame::from_raw] and [Frame::drop] of a node; the recursion goes down at most [k] levels. *)
Fixpoint drop_table k w pa : outcome (tables E Item) :=
  match k with
  | O => Panic
  | S k' =>
      _ ← frame_to_meta pa;
      let ' (s, last) := frame_drop_dec (slot_at (node_slots w) pa) in
      let w1 := mk_tables (nodes w) (<[pa := s]> (node_slots w)) (freed w) (dropped w) in
      if last then
        w2 ← on_drop (drop_table k') w1 pa;
        Ret (mk_tables (delete pa (nodes w2)) (<[pa := drop_last_in_place (slot_at (node_slots w2) pa)]> (node_slots w2))
               (freed w2 ++ [pa]) (dropped w2))
      else Ret w1
  end.

(** ** The nodes and the mappings of a page table *)

(** What is below the entry [i] of a node, by a function on tables. *)
Definition entry_nodes (sub : Z -> list Z) n (lv : Z) i : list Z :=
  match ptes n !! i with
  | Some e => if is_present e && negb (is_last e lv) then sub (paddr e) else []
  | None => []
  end.

(** The nodes from a node of the level [k] down, in the order of the drops. *)
Fixpoint subtree k st pa : list Z :=
  match k with
  | O => []
  | S k' =>
      match st !! pa with
      | None => []
      | Some n => (range_list (drop_range (Z.of_nat k)) ≫= entry_nodes (subtree k' st) n (Z.of_nat k)) ++ [pa]
      end
  end.

(** A mapping: the first virtual address, and the raw item. *)
Notation mapping := (Z * (Z * Z * PageProperty))%type.

Definition entry_mappings (sub : Z -> Z -> list mapping) n (lv va : Z) i : list mapping :=
  let va_i := va + Z.of_nat i * page_size lv in
  match ptes n !! i with
  | Some e =>
      if is_present e then
        if is_last e lv then match prop e with Ret p => [(va_i, (paddr e, lv, p))] | Panic => [] end else sub (paddr e) va_i
      else []
  | None => []
  end.

(** The mappings below a node that serves the addresses from [va] on. *)
Fixpoint mappings k st pa va : list mapping :=
  match k with
  | O => []
  | S k' =>
      match st !! pa with
      | None => []
      | Some n => range_list (drop_range (Z.of_nat k)) ≫= entry_mappings (mappings k' st) n (Z.of_nat k) va
      end
  end.

Definition item_of (m : mapping) : Item := let ' (_, (pa, lv, p)) := m in item_from_raw pa lv p.

(** A node with one owner. *)
Definition table_slot : MetaSlot unit := mk_slot (Some tt) 1 (Some 0) 0.

(** The state after the drop of the nodes [l] and the mappings [ms]. *)
Definition release (l : list Z) (ms : list mapping) w : tables E Item :=
  mk_tables (foldl (fun st q => delete q st) (nodes w) l) (foldl (fun h q => <[q := unused_slot]> h) (node_slots w) l)
    (freed w ++ l) (dropped w ++ (item_of <$> ms)).

Lemma release_app l1 l2 ms1 ms2 w : release (l1 ++ l2) (ms1 ++ ms2) w = release l2 ms2 (release l1 ms1 w).
Proof. unfold release. cbn. by rewrite !foldl_app, fmap_app, !app_assoc. Qed.

Lemma release_nil w : release [] [] w = w.
Proof. unfold release. cbn. rewrite !app_nil_r. by destruct w. Qed.

Lemma release_nodes l ms w q : nodes (release l ms w) !! q = if decide (q ∈ l) then None else nodes w !! q.
Proof.
  cbn. generalize (nodes w) as st. induction l as [|p l IH]; intros st; [done|]. cbn [foldl]. rewrite IH.
  destruct (decide (q ∈ l)); [by rewrite decide_True by (by right)|]. destruct (decide (q = p)) as [->|].
  - rewrite decide_True by left. by rewrite lookup_delete_eq.
  - rewrite decide_False by (by intros [?|?]%elem_of_cons). by rewrite lookup_delete_ne.
Qed.

Lemma unused_lookup l (h : gmap Z (MetaSlot unit)) q :
  foldl (fun h q => <[q := unused_slot]> h) h l !! q = if decide (q ∈ l) then Some unused_slot else h !! q.
Proof.
  revert h. induction l as [|p l IH]; intros h; [done|]. cbn [foldl]. rewrite IH.
  destruct (decide (q ∈ l)); [by rewrite decide_True by (by right)|]. destruct (decide (q = p)) as [->|].
  - rewrite decide_True by left. by rewrite lookup_insert_eq.
  - rewrite decide_False by (by intros [?|?]%elem_of_cons). by rewrite lookup_insert_ne.
Qed.

(** The nodes [l] are still there and have one owner. *)
Definition alive st w (l : list Z) : Prop :=
  forall q, q ∈ l -> nodes w !! q = st !! q /\ slot_at (node_slots w) q = table_slot.

Lemma alive_release st w l l' ms : alive st w l' -> (forall q, q ∈ l -> q ∉ l') -> alive st (release l ms w) l'.
Proof.
  intros Ha Hd q Hq. destruct (Ha q Hq) as [Hn Hs]. rewrite release_nodes. unfold slot_at. cbn [release node_slots]. rewrite unused_lookup.
  rewrite !decide_False by (intros ?; by eapply Hd). done.
Qed.

(** ** Dropping a subtree *)

Context `{!PagingConstsReqs} `{!PageTableEntryLaws E} `{U : !Uncounted} (base_is_page : BASE_PAGE_SIZE = PAGE_SIZE).
(** The range of the configuration is a part of the root. *)
Context (top_fits : 0 <= r_start TOP_LEVEL_INDEX_RANGE <= r_end TOP_LEVEL_INDEX_RANGE /\ r_end TOP_LEVEL_INDEX_RANGE <= nr_subpage_per_huge).

Lemma drop_range_bound lv i : i ∈ range_list (drop_range lv) -> Z.of_nat i < nr_subpage_per_huge.
Proof. unfold range_list, drop_range. rewrite elem_of_seq. destruct (lv =? NR_LEVELS); cbn; lia. Qed.

Section subtree.
Context (st : pt_store E) (Hst : store_ok st).

(** An entry of a node. *)
Lemma owned_entry pa n i : st !! pa = Some n -> Z.of_nat i < nr_subpage_per_huge ->
  exists e, ptes n !! i = Some e /\ pte_ok st (level (meta n)) e.
Proof.
  intros Hn Hi. destruct (Hst _ _ Hn) as [_ (_ & Hlen & _ & Hf)]. destruct (lookup_lt_is_Some_2 (ptes n) i) as [e He]; [lia|].
  exists e. split; [done|]. by apply (Forall_lookup_1 _ _ _ _ Hf He).
Qed.

(** What a call on a child does. *)
Definition drop_spec k (drop : tables E Item -> Z -> outcome (tables E Item)) : Prop :=
  forall w pa n va, st !! pa = Some n -> level (meta n) = Z.of_nat k -> NoDup (subtree k st pa) -> alive st w (subtree k st pa) ->
    drop w pa = Ret (release (subtree k st pa) (mappings k st pa va) w).

Lemma on_drop_entries k drop pa n va l w : drop_spec k drop -> st !! pa = Some n -> level (meta n) = Z.of_nat (S k) ->
  (forall i, i ∈ l -> Z.of_nat i < nr_subpage_per_huge) -> nodes w !! pa = Some n ->
  let below := l ≫= entry_nodes (subtree k st) n (Z.of_nat (S k)) in
  NoDup below -> pa ∉ below -> alive st w below ->
  foldl (on_drop_entry drop pa (Z.of_nat (S k))) (Ret w) l =
    Ret (release below (l ≫= entry_mappings (mappings k st) n (Z.of_nat (S k)) va) w).
Proof.
  intros Hdrop Hn Hlv. revert w. induction l as [|i l IH]; intros w Hl Hw below Hnd Hpa Hal; cbn [foldl].
  { cbn. by rewrite release_nil. }
  subst below. cbn [mbind list_bind] in Hnd, Hpa, Hal |- *. apply NoDup_app in Hnd as (Hnd1 & Hdis & Hnd2).
  apply not_elem_of_app in Hpa as [Hpa1 Hpa2]. set (ns := entry_nodes (subtree k st) n (Z.of_nat (S k)) i) in *.
  set (ms := entry_mappings (mappings k st) n (Z.of_nat (S k)) va i).
  assert (Hone : on_drop_entry drop pa (Z.of_nat (S k)) (Ret w) i = Ret (release ns ms w)).
  { destruct (owned_entry pa n i Hn (Hl i (list_elem_of_here _ _))) as (e & He & _ & Hok). rewrite Hlv in Hok.
    unfold on_drop_entry, read_pte, get_node. cbn [mbind outcome_bind]. rewrite Hw. cbn [mbind outcome_bind unwrap]. rewrite (proj2 (arr_get_Ret _ _ _) He).
    cbn [mbind outcome_bind]. subst ns ms. unfold entry_nodes, entry_mappings in *. rewrite He in *.
    destruct (is_present e) eqn:Hp; cbn [andb] in *; [|by rewrite release_nil]. specialize (Hok eq_refl).
    destruct (is_last e (Z.of_nat (S k))) eqn:Hla; cbn [negb] in *.
    - destruct Hok as (_ & _ & _ & _ & p & Hpr & _). rewrite Hpr. cbn [mbind outcome_bind]. unfold release. cbn. by rewrite !app_nil_r.
    - destruct Hok as (_ & m & Hm & Hlm). apply (Hdrop w (paddr e) m); try done; [lia|]. intros q Hq. apply Hal, elem_of_app. by left. }
  rewrite Hone. rewrite release_app. apply IH; try done; [by intros; apply Hl; right|..].
  - rewrite release_nodes. by rewrite decide_False.
  - apply alive_release; [|done]. intros q Hq. apply Hal, elem_of_app. by right.
Qed.

Lemma drop_table_ok k : drop_spec k (drop_table k).
Proof.
  induction k as [|k IH]; intros w pa n va Hn Hlv Hnd Hal; destruct (Hst _ _ Hn) as [Hv (Hl & _)]; [lia|].
  cbn [subtree mappings] in Hnd, Hal |- *. rewrite Hn in Hnd, Hal |- *. set (below := _ ≫= entry_nodes _ _ _) in *.
  apply NoDup_app in Hnd as (Hnd & Hpa & _). assert (Hnot : pa ∉ below) by (intros Hin; apply (Hpa pa Hin); left).
  destruct (Hal pa) as [Hnode Hslot]; [apply elem_of_app; right; left|]. destruct (frame_meta_frame _ Hv) as (nd & Hnd' & _).
  cbn [drop_table]. step Hnd'. rewrite Hslot. cbn [frame_drop_dec table_slot ref_count]. change (1 =? 1) with true. cbv iota.
  unfold on_drop, get_node. cbn [nodes]. rewrite Hnode, Hn. cbn [mbind outcome_bind unwrap]. rewrite Hlv.
  rewrite (on_drop_entries k (drop_table k) pa n va _ _ IH Hn Hlv); try done.
  2: { intros i. apply drop_range_bound. }
  2: { cbn. by rewrite Hnode. }
  2: { intros q Hq. destruct (Hal q) as [? Hs]; [apply elem_of_app; by left|]. split; [done|]. unfold slot_at in *. cbn [node_slots].
       rewrite lookup_insert_ne; [done|]. intros ->. done. }
  fold below. cbn [mbind outcome_bind]. unfold release. cbn [nodes node_slots freed dropped]. rewrite !foldl_app, app_assoc. cbn [foldl].
  f_equal. f_equal. unfold slot_at. rewrite unused_lookup, decide_False, lookup_insert_eq by done. cbn [default].
  apply map_eq. intros q. destruct (decide (q = pa)) as [->|Hne]; [by rewrite !lookup_insert_eq|].
  rewrite !lookup_insert_ne, !unused_lookup by done. destruct (decide _); [done|]. by rewrite lookup_insert_ne.
Qed.

(** ** The mappings of a subtree *)

Lemma drop_range_low lv i : lv < NR_LEVELS -> Z.of_nat i < nr_subpage_per_huge -> i ∈ range_list (drop_range lv).
Proof. intros Hlv Hi. unfold range_list, drop_range. rewrite elem_of_seq. destruct (Z.eqb_spec lv NR_LEVELS); cbn; lia. Qed.

Definition map_lo (m : mapping) : Z := m.1.
Definition map_hi (m : mapping) : Z := m.1 + page_size m.2.1.2.
Definition map_apart (m m' : mapping) : Prop := map_hi m <= map_lo m'.

(** The mappings are in the order of their addresses, from [lo] to [hi]. *)
Definition bounded (l : list mapping) (lo hi : Z) : Prop :=
  StronglySorted map_apart l /\ Forall (fun m => lo <= map_lo m /\ map_hi m <= hi) l.

Lemma entry_bounds k pa n base i :
  (forall pa n base, st !! pa = Some n -> level (meta n) = Z.of_nat k -> bounded (mappings k st pa base) base (base + page_size (Z.of_nat k + 1))) ->
  st !! pa = Some n -> level (meta n) = Z.of_nat (S k) -> Z.of_nat i < nr_subpage_per_huge ->
  let va_i := base + Z.of_nat i * page_size (Z.of_nat (S k)) in
  bounded (entry_mappings (mappings k st) n (Z.of_nat (S k)) base i) va_i (va_i + page_size (Z.of_nat (S k))).
Proof.
  intros Hsub Hn Hlv Hi va_i. destruct (owned_entry pa n i Hn Hi) as (e & He & _ & Hok). unfold entry_mappings. rewrite He. fold va_i.
  destruct (is_present e); [|by split; constructor]. specialize (Hok eq_refl). rewrite Hlv in Hok. destruct (is_last e (Z.of_nat (S k))) eqn:Hla.
  - destruct (prop e); [|by split; constructor]. split; [by repeat constructor|]. constructor; [|constructor]. unfold map_lo, map_hi. cbn. lia.
  - destruct Hok as (_ & m & Hm & Hlm). replace (Z.of_nat (S k)) with (Z.of_nat k + 1) by lia. apply (Hsub _ m); [done|lia].
Qed.

Lemma seq_steps (base step : Z) (s len : nat) : 0 <= step ->
  StronglySorted (fun i j => base + Z.of_nat i * step + step <= base + Z.of_nat j * step) (seq s len).
Proof.
  intros Hs. revert s. induction len as [|len IH]; intros s; [constructor|]. cbn [seq]. constructor; [apply IH|].
  apply Forall_forall. intros j Hj%elem_of_seq. nia.
Qed.

Lemma mappings_bounds k pa n base : st !! pa = Some n -> level (meta n) = Z.of_nat k ->
  bounded (mappings k st pa base) base (base + page_size (Z.of_nat k + 1)).
Proof.
  revert pa n base. induction k as [|k IH]; intros pa n base Hn Hlv; destruct (Hst _ _ Hn) as [_ (Hl & _)]; [lia|].
  cbn [mappings]. rewrite Hn. set (lv := Z.of_nat (S k)) in *. know (page_size_pos lv) as Hps. know (page_size_next lv) as Hnx.
  assert (Hentry : forall i, i ∈ range_list (drop_range lv) -> bounded (entry_mappings (mappings k st) n lv base i)
    (base + Z.of_nat i * page_size lv) (base + Z.of_nat i * page_size lv + page_size lv)).
  { intros i Hi%drop_range_bound. by apply (entry_bounds k pa n base i IH). }
  split.
  - apply (sorted_bind (fun i => base + Z.of_nat i * page_size lv) (fun i => base + Z.of_nat i * page_size lv + page_size lv)); [|done].
    apply seq_steps. lia.
  - apply Forall_forall. intros m (i & Hm & Hi)%list_elem_of_bind. destruct (Hentry i Hi) as [_ Hb]. rewrite Forall_forall in Hb.
    specialize (Hb m Hm). apply drop_range_bound in Hi. nia.
Qed.

(** The mapping [m] sends the offset [o] to [a]. *)
Definition sends (m : mapping) (o a : Z) (p : PageProperty) : Prop :=
  map_lo m <= o < map_hi m /\ a = m.2.1.1 + (o - map_lo m) /\ p = m.2.2.

Lemma mappings_walk debug k pa n va base a p : st !! pa = Some n -> level (meta n) = Z.of_nat k -> 0 <= va ->
  Z.to_nat (pte_index va (Z.of_nat k)) ∈ range_list (drop_range (Z.of_nat k)) ->
  walk debug st k pa va = Ret (Some (a, p)) <->
  exists m, m ∈ mappings k st pa base /\ sends m (base + va mod page_size (Z.of_nat k + 1)) a p.
Proof.
  revert pa n base. induction k as [|k IH]; intros pa n base Hn Hlv Hva Hi; destruct (Hst _ _ Hn) as [_ Hok]; pose proof Hok as (Hl & _); [lia|].
  set (lv := Z.of_nat (S k)) in *. know (index_digits va lv) as [Hd Hmod]. know (page_size_pos lv) as Hps. know (Z.mod_pos_bound va (page_size lv)) as Hb.
  set (i := Z.to_nat (pte_index va lv)) in *. rewrite Hmod. destruct (walk_index base_is_page st n va Hok Hva) as (e & He & _ & Hpok).
  pose proof (node_walk_step debug base_is_page st pa n va e Hst Hn Hva He) as Hstep. unfold node_walk in Hstep. rewrite Hlv in Hstep. replace (Z.to_nat lv) with (S k) in Hstep by lia.
  rewrite Hstep. unfold walk_pte in He. rewrite Hlv in He, Hpok. fold lv i in He, Hpok |- *.
  replace (pte_index va lv) with (Z.of_nat i) by lia.
  assert (Hone : pte_walk debug st lv e va = Ret (Some (a, p)) <->
    exists m, m ∈ entry_mappings (mappings k st) n lv base i /\ sends m (base + (Z.of_nat i * page_size lv + va mod page_size lv)) a p).
  { unfold pte_walk, entry_mappings. rewrite He. destruct (is_present e) eqn:Hp; cbn [negb].
    2: { split; [done|]. by intros (m & []%not_elem_of_nil & _). }
    specialize (Hpok eq_refl). destruct (is_last e lv) eqn:Hla.
    - destruct Hpok as (_ & _ & _ & _ & p' & Hpr & _). rewrite Hpr. cbn [mbind outcome_bind]. split.
      + intros [= <- <-]. eexists. split; [apply list_elem_of_singleton; reflexivity|]. unfold sends, map_lo, map_hi. cbn. split_and!; done || lia.
      + intros (m & ->%list_elem_of_singleton & (_ & -> & ->)). unfold map_lo. cbn. do 3 f_equal. lia.
    - destruct Hpok as (Hgt & m & Hm & Hlm). replace (Z.to_nat (lv - 1)) with k by lia.
      rewrite (IH (paddr e) m (base + Z.of_nat i * page_size lv) Hm ltac:(lia) Hva).
      + replace (Z.of_nat k + 1) with lv by lia. by rewrite Z.add_assoc.
      + apply drop_range_low; [lia|]. know (index_digits va (Z.of_nat k)) as [? _]. lia. }
  rewrite Hone. cbn [mappings]. rewrite Hn. fold lv. setoid_rewrite list_elem_of_bind. split.
  - intros (m & Hm & Hs). exists m. split; [|done]. by exists i.
  - intros (m & (j & Hm & Hj) & Hs). exists m. split; [|done]. assert (i = j) as ->; [|done].
    apply drop_range_bound in Hj. destruct (entry_bounds k pa n base j (mappings_bounds k) Hn Hlv Hj) as [_ Hbd].
    rewrite Forall_forall in Hbd. specialize (Hbd m Hm). fold lv in Hbd.
    destruct Hs as [Hs _]. nia.
Qed.

(** ** The nodes of a subtree *)

Lemma subtree_descend d k pa n va q : st !! pa = Some n -> level (meta n) = Z.of_nat k -> 0 <= va ->
  ((0 < d)%nat -> Z.to_nat (pte_index va (Z.of_nat k)) ∈ range_list (drop_range (Z.of_nat k))) ->
  descend st d (Z.of_nat k) pa va = Some q -> q ∈ subtree k st pa.
Proof.
  revert k pa n. induction d as [|d IH]; intros k pa n Hn Hlv Hva Hi Hd; destruct (Hst _ _ Hn) as [_ (Hl & _ & _ & Hf)];
    (destruct k as [|k]; [lia|]); cbn [subtree descend] in Hd |- *; rewrite Hn in *; apply elem_of_app.
  { injection Hd as <-. right. left. }
  left. cbn [mbind option_bind] in Hd. destruct (ptes n !! _) as [e|] eqn:He; [|done]. cbn [mbind option_bind] in Hd.
  destruct (is_present e && negb (is_last e (Z.of_nat (S k)))) eqn:Hc; [|done].
  apply list_elem_of_bind. exists (Z.to_nat (pte_index va (Z.of_nat (S k)))). split; [|apply Hi; lia]. unfold entry_nodes. rewrite He, Hc.
  apply andb_true_iff in Hc as [Hp Hla%negb_true_iff]. destruct (Forall_lookup_1 _ _ _ _ Hf He) as [_ Hok]. specialize (Hok Hp).
  rewrite Hlv, Hla in Hok. destruct Hok as (Hgt & m & Hm & Hlm). replace (Z.of_nat (S k) - 1) with (Z.of_nat k) in * by lia.
  apply (IH k (paddr e) m); try done. intros _. apply drop_range_low; [lia|]. know (index_digits va (Z.of_nat k)) as [? _]. lia.
Qed.

End subtree.

(** *** Under a root *)

(** Another address in the slot above a level, with the index [i] at this level. *)
Lemma retarget va (lv : Z) i : 0 <= va -> 1 <= lv <= NR_LEVELS -> Z.of_nat i < nr_subpage_per_huge ->
  exists va1, 0 <= va1 /\ slot va1 (lv + 1) = slot va (lv + 1) /\ pte_index va1 lv = Z.of_nat i.
Proof.
  intros Hva Hl Hi. know (page_size_pos lv) as Hp. know (page_size_pos (lv + 1)) as Hp1.
  assert (Hs : 0 <= slot va (lv + 1)) by (apply Z.div_pos; lia). set (x := slot va (lv + 1)) in *.
  exists ((x * nr_subpage_per_huge + Z.of_nat i) * page_size lv).
  assert (Hsl : slot ((x * nr_subpage_per_huge + Z.of_nat i) * page_size lv) lv = x * nr_subpage_per_huge + Z.of_nat i) by (apply Z.div_mul; lia).
  assert (0 <= (x * nr_subpage_per_huge + Z.of_nat i) * page_size lv) by (apply Z.mul_nonneg_nonneg; [apply Z.add_nonneg_nonneg; [apply Z.mul_nonneg_nonneg|]|]; lia).
  split; [done|]. rewrite slot_up, slot_index, Hsl by done. split.
  - rewrite Z.add_comm, Z.div_add, Z.div_small by lia. lia.
  - rewrite Z.add_comm, Z.mod_add, Z.mod_small by lia. done.
Qed.

Section under_root.
Context (st : pt_store E) (root : Z) (Ht : tree_ok st root).

(** The child of the entry [i] of a node, with an address that selects it. *)
Lemma child_at (lv : Z) j pa n va i e : 0 <= va -> node_at st root j va = Some pa -> st !! pa = Some n -> lv = NR_LEVELS - Z.of_nat j -> 1 <= lv ->
  ptes n !! i = Some e -> Z.of_nat i < nr_subpage_per_huge -> is_present e = true -> is_last e lv = false ->
  exists va1, 0 <= va1 /\ slot va1 (lv + 1) = slot va (lv + 1) /\ pte_index va1 lv = Z.of_nat i /\ node_at st root (S j) va1 = Some (paddr e).
Proof.
  intros Hva Hj Hn -> Hl He Hi Hp Hla. destruct (retarget va (NR_LEVELS - Z.of_nat j) i Hva) as (va1 & Hva1 & Hs1 & Hi1); [lia|done|].
  exists va1. split_and!; try done. apply (descend_step_intro _ _ _ _ _ pa n e); try done.
  - rewrite <- Hj. apply descend_slot; done || lia.
  - by rewrite Hi1, Nat2Z.id.
Qed.

(** The node [q] is properly below the node at the depth [j] for [va], through the entry [i] of this node, which is at the level [lv]. *)
Definition through (j : nat) va (lv : Z) i q : Prop :=
  exists d va', (0 < d)%nat /\ 0 <= va' /\ node_at st root (j + d) va' = Some q /\
    slot va' (lv + 1) = slot va (lv + 1) /\ pte_index va' lv = Z.of_nat i.

Definition subtree_below k : Prop := forall j pa va q, 0 <= va -> node_at st root j va = Some pa -> Z.of_nat j + Z.of_nat k = NR_LEVELS ->
  q ∈ subtree k st pa -> q = pa \/ exists i, i ∈ range_list (drop_range (Z.of_nat k)) /\ through j va (Z.of_nat k) i q.

Lemma entry_below k j pa n va i q : subtree_below k -> 0 <= va -> node_at st root j va = Some pa -> st !! pa = Some n ->
  Z.of_nat j + Z.of_nat (S k) = NR_LEVELS -> Z.of_nat i < nr_subpage_per_huge ->
  q ∈ entry_nodes (subtree k st) n (Z.of_nat (S k)) i -> through j va (Z.of_nat (S k)) i q.
Proof.
  intros Hsub Hva Hj Hn Hjk Hi Hq. destruct (node_at_level _ _ _ _ _ Ht Hj) as (n' & Hn' & Hlv & _). assert (n' = n) as -> by congruence.
  destruct (owned_entry st (tree_store _ _ Ht) pa n i Hn Hi) as (e & He & _ & Hok). unfold entry_nodes in Hq. rewrite He in Hq.
  destruct (is_present e) eqn:Hp; [|by apply not_elem_of_nil in Hq]. destruct (is_last e (Z.of_nat (S k))) eqn:Hla; [by apply not_elem_of_nil in Hq|].
  cbn [andb negb] in Hq.
  destruct (child_at (Z.of_nat (S k)) j pa n va i e Hva Hj Hn) as (va1 & Hva1 & Hs1 & Hi1 & Hj1); try done; try lia.
  destruct (Hsub (S j) (paddr e) va1 q Hva1 Hj1 ltac:(lia) Hq) as [->|(i' & _ & d & va' & Hd & Hva' & Hn2 & Hs & _)].
  - exists 1%nat, va1. rewrite Nat.add_1_r. split_and!; done || lia.
  - exists (S d), va'. rewrite Nat.add_succ_r. replace (Z.of_nat k + 1) with (Z.of_nat (S k)) in Hs by lia. split_and!; try done; try lia.
    + rewrite <- Hs1. apply (slot_above _ _ (Z.of_nat (S k))); done || lia.
    + rewrite <- Hi1. apply (slot_index_eq _ _ (Z.of_nat (S k))); done || lia.
Qed.

Lemma subtree_at k : subtree_below k.
Proof.
  induction k as [|k IH]; intros j pa va q Hva Hj Hjk Hq; destruct (node_at_level _ _ _ _ _ Ht Hj) as (n & Hn & Hlv & ?); [lia|].
  cbn [subtree] in Hq. rewrite Hn in Hq. apply elem_of_app in Hq as [(i & Hq & Hi)%list_elem_of_bind|Hq%list_elem_of_singleton]; [right|by left].
  exists i. split; [done|]. apply (entry_below k j pa n); try done. by eapply drop_range_bound.
Qed.

(** No node is there twice. *)
Lemma through_inj j va lv i1 i2 q : lv = NR_LEVELS - Z.of_nat j -> through j va lv i1 q -> through j va lv i2 q -> i1 = i2.
Proof.
  intros Hlv (d1 & va1 & Hd1 & Hv1 & Hn1 & _ & Hi1) (d2 & va2 & Hd2 & Hv2 & Hn2 & _ & Hi2).
  pose proof (node_at_inj _ _ _ _ _ _ _ Ht Hn1 Hn2) as Hdd. assert (d1 = d2) as <- by lia.
  pose proof (tree_unshared _ _ Ht _ _ _ _ Hv1 Hv2 Hn1 Hn2 lv) as Hix. destruct (node_at_level _ _ _ _ _ Ht Hn1) as (? & _ & ? & ?).
  specialize (Hix ltac:(lia)). lia.
Qed.

Lemma subtree_nodup k j pa va : 0 <= va -> node_at st root j va = Some pa -> Z.of_nat j + Z.of_nat k = NR_LEVELS -> NoDup (subtree k st pa).
Proof.
  revert j pa va. induction k as [|k IH]; intros j pa va Hva Hj Hjk; destruct (node_at_level _ _ _ _ _ Ht Hj) as (n & Hn & Hlv & ?); [lia|].
  cbn [subtree]. rewrite Hn. assert (Hthr : forall i q, Z.of_nat i < nr_subpage_per_huge -> q ∈ entry_nodes (subtree k st) n (Z.of_nat (S k)) i -> through j va (Z.of_nat (S k)) i q).
  { intros i q Hi. apply (entry_below k j pa n); try done. apply subtree_at. }
  assert (Hb : forall i, i ∈ range_list (drop_range (Z.of_nat (S k))) -> Z.of_nat i < nr_subpage_per_huge) by (intros i; apply drop_range_bound).
  apply NoDup_app. split_and!; [| |apply NoDup_singleton].
  2: { intros q (i & Hq & Hi)%list_elem_of_bind ->%list_elem_of_singleton. destruct (Hthr i pa (Hb i Hi) Hq) as (d & va' & Hd & _ & Hn' & _).
       pose proof (node_at_inj _ _ _ _ _ _ _ Ht Hj Hn'). lia. }
  assert (Hnd : NoDup (range_list (drop_range (Z.of_nat (S k))))) by apply NoDup_seq. revert Hb Hnd.
  induction (range_list (drop_range (Z.of_nat (S k)))) as [|i l IHl]; intros Hb Hnd; [constructor|]. apply NoDup_cons in Hnd as [Hil Hnd].
  cbn [mbind list_bind]. apply NoDup_app. split_and!; [| |apply IHl; [by intros; apply Hb; right|done]].
  - unfold entry_nodes. destruct (ptes n !! i) as [e|] eqn:He; [|constructor]. destruct (is_present e && _) eqn:Hc; [|constructor].
    apply andb_true_iff in Hc as [Hp Hla%negb_true_iff].
    destruct (child_at (Z.of_nat (S k)) j pa n va i e Hva Hj Hn) as (va1 & Hva1 & _ & _ & Hj1); try done; try lia; [apply Hb; left|].
    apply (IH (S j) (paddr e) va1); done || lia.
  - intros q Hq (i' & Hq' & Hi')%list_elem_of_bind. assert (i = i') as <-; [|done].
    apply (through_inj j va (Z.of_nat (S k)) i i' q); [lia|apply Hthr; [apply Hb; left|done]|apply Hthr; [apply Hb; by right|done]].
Qed.

End under_root.

(** C3: dropping a page table gives back all of it and nothing else.  Let each node that the table owns have one owner: the nodes that
    addresses in the range of the configuration select, and the root.  Then the drop of the root returns (it does not panic, and the
    recursion ends).  It frees each of these nodes exactly once, with its metadata slot unused afterwards, and touches
    no other node and no other slot; in particular the tables below the other entries of the root, those that it shares, stay.  The
    items that it drops are those of a list of mappings in the order of their addresses, which do not overlap and which
    are exactly the translations of the page table.  The drop of a handle that is not the last one only takes its count. *)
Theorem page_table_drop_correct debug st (h : gmap Z (MetaSlot unit)) root : tree_ok st root ->
  (forall c, slot_at h root = mk_slot (Some tt) c (Some 0) 0 -> 1 < c < 2 ^ 64 ->
     drop_table (Z.to_nat NR_LEVELS) (mk_tables st h [] []) root =
       Ret (mk_tables st (<[root := mk_slot (Some tt) (c - 1) (Some 0) 0]> h) [] [])) /\
  let owned q := q = root \/ exists d va, (0 < d)%nat /\ 0 <= va /\ Z.to_nat (pte_index va NR_LEVELS) ∈ range_list TOP_LEVEL_INDEX_RANGE /\
    node_at st root d va = Some q in
  ((forall q, owned q -> slot_at h q = table_slot) ->
   exists w maps, drop_table (Z.to_nat NR_LEVELS) (mk_tables st h [] []) root = Ret w /\
     NoDup (freed w) /\ (forall q, q ∈ freed w <-> owned q) /\
     (forall q, nodes w !! q = if decide (q ∈ freed w) then None else st !! q) /\
     (forall q, slot_at (node_slots w) q = if decide (q ∈ freed w) then unused_slot else slot_at h q) /\
     (forall d va q, (0 < d)%nat -> 0 <= va -> Z.to_nat (pte_index va NR_LEVELS) ∉ range_list TOP_LEVEL_INDEX_RANGE ->
        node_at st root d va = Some q -> q ∉ freed w) /\
     dropped w = item_of <$> maps /\ StronglySorted map_apart maps /\
     forall va a p, 0 <= va < page_size (NR_LEVELS + 1) -> Z.to_nat (pte_index va NR_LEVELS) ∈ range_list TOP_LEVEL_INDEX_RANGE ->
       page_walk debug st root va = Ret (Some (a, p)) <-> exists m, m ∈ maps /\ sends m va a p).
Proof.
  intros Ht. pose proof (tree_store _ _ Ht) as Hst. destruct (tree_root _ _ Ht) as (n & Hn & Hlv). pose proof req_levels as Hnl.
  set (K := Z.to_nat NR_LEVELS). assert (HK : Z.of_nat K = NR_LEVELS) by lia. rewrite <- HK in Hlv. split.
  { intros c Hs Hc. destruct (Hst _ _ Hn) as [Hv _]. destruct (frame_meta_frame _ Hv) as (nd & Hnd & _). destruct K as [|K']; [lia|].
    cbn [drop_table node_slots]. step Hnd. rewrite Hs. cbn [frame_drop_dec ref_count]. destruct (Z.eqb_spec c 1); [lia|].
    unfold store, wrapping_sub. cbn. by rewrite Z.mod_small by lia. }
  intros owned Hsl. assert (Htop : range_list (drop_range (Z.of_nat K)) = range_list TOP_LEVEL_INDEX_RANGE).
  { unfold drop_range. rewrite HK, Z.eqb_refl. done. }
  assert (Hown : forall q, q ∈ subtree K st root <-> owned q).
  { intros q. split.
    - intros [->|(i & Hi & d & va & Hd & Hva & Hq & _ & Hix)]%(subtree_at st root Ht K 0%nat root 0 q ltac:(lia) eq_refl ltac:(lia)); [by left|right].
      exists d, va. rewrite HK in Hix. rewrite Hix, Nat2Z.id, <- Htop. done.
    - intros [->|(d & va & Hd & Hva & Hi & Hq)]; [apply (subtree_descend st Hst 0%nat K root n 0); done || lia|].
      apply (subtree_descend st Hst d K root n va); try done; [by rewrite HK, <- HK, Htop, HK|]. by rewrite HK. }
  exists (release (subtree K st root) (mappings K st root 0) (mk_tables st h [] [])), (mappings K st root 0).
  pose proof (subtree_nodup st root Ht K 0%nat root 0 ltac:(lia) eq_refl ltac:(lia)) as Hnd.
  split; [|split; [|split; [|split; [|split; [|split; [|split; [|split]]]]]]]; try done.
  - apply (drop_table_ok st Hst K _ root n 0); try done. intros q Hq%Hown. cbn. split; [done|by apply Hsl].
  - intros q. by rewrite release_nodes.
  - intros q. unfold slot_at. cbn [release node_slots freed app]. rewrite unused_lookup. by destruct (decide _).
  - intros d va q Hd Hva Hi Hq Hin. cbn in Hin. apply Hown in Hin as [->|(d' & va' & Hd' & Hva' & Hi' & Hq')].
    + pose proof (node_at_inj _ _ 0%nat d 0 va root Ht eq_refl Hq). lia.
    + pose proof (node_at_inj _ _ _ _ _ _ _ Ht Hq Hq') as <-. apply Hi. rewrite (tree_unshared _ _ Ht d va va' q Hva Hva' Hq Hq' NR_LEVELS); [done|lia].
  - apply (mappings_bounds st Hst K root n 0 Hn Hlv).
  - intros va a p Hva Hi. unfold page_walk. fold K. rewrite (mappings_walk st Hst debug K root n va 0 a p Hn Hlv); [|lia|by rewrite Htop, HK].
    rewrite HK, Z.mod_small by done. done.
Qed.

End drop.

(** ** A user page table with one page *)

Module DropExample.
Import Cursor86.
Local Existing Instance X86.consts.
Local Existing Instance X86.reqs.
Local Existing Instance UserPt.UserPtConfig.
Local Existing Instance all_counted.

(** The page table after the cursor maps [item0]. *)
Definition table : pt_store pte64 :=
  match map true alloc empty_table cursor0 item0 with Ret (_, st1) => st1 | Panic => empty_table end.

Definition slots : gmap Z (MetaSlot unit) := (fun _ => table_slot) <$> table.

Lemma table_ok : tree_ok table 0x1000.
Proof.
  assert (map_allowed cursor0 1) as Hal by (repeat split; try reflexivity; discriminate).
  destruct (map_ok true true alloc Example86.base86 levels_fit alloc_fresh 4 alloc_succeeds empty_table 0x1000 cursor0 item0 0x200000 1 sample_prop
    cursor0_ok item0_ok eq_refl Hal ltac:(vm_compute; lia) (or_introl eq_refl)) as ([[res c'] st'] & Hr & [Hok _] & _).
  unfold table. rewrite Hr. apply Hok.
Qed.

Lemma user_half_fits : 0 <= r_start TOP_LEVEL_INDEX_RANGE <= r_end TOP_LEVEL_INDEX_RANGE /\ r_end TOP_LEVEL_INDEX_RANGE <= nr_subpage_per_huge.
Proof. vm_compute. split_and!; discriminate. Qed.

Lemma slots_ok q d va : node_at table 0x1000 d va = Some q -> slot_at slots q = table_slot.
Proof. intros (n & Hn & _)%(node_at_level _ _ _ _ _ table_ok). unfold slot_at, slots. by rewrite lookup_fmap, Hn. Qed.

(** The nodes below the root go first, then the root; the page goes once. *)
Example drop_run :
  match drop_table 4 (mk_tables table slots [] []) 0x1000 with
  | Ret w => freed w = [0x7000; 0x6000; 0x5000; 0x1000] /\ dropped w = [item0]
  | Panic => False
  end.
Proof. vm_compute. split; reflexivity. Qed.

Lemma page_table_drop_correct_witness : exists w maps, drop_table 4 (mk_tables table slots [] []) 0x1000 = Ret w /\
  NoDup (freed w) /\ dropped w = item_of <$> maps /\ StronglySorted map_apart maps.
Proof.
  destruct (page_table_drop_correct Example86.base86 user_half_fits true table slots 0x1000 table_ok) as [_ Hd].
  destruct Hd as (w & maps & Hr & Hnd & _ & _ & _ & _ & Hdr & Hso & _).
  - intros q [->|(d & va & _ & _ & _ & Hq)]; [by apply (slots_ok 0x1000 0 0)|by apply (slots_ok q d va)].
  - exists w, maps. split_and!; [exact Hr|exact Hnd|exact Hdr|exact Hso].
Defined.

End DropExample.
