(* ===== verification/KVirtArea.v ===== *)
(** * [ostd/src/mm/kspace/kvirt_area.rs]: virtual areas of the kernel

    A [KVirtArea] is a range of virtual addresses from the allocator of the kernel,
    with frames mapped into it.  [map_frames] maps a list of frames, page by page;
    [map_untracked_frames] maps a range of physical addresses with the largest pages that
    fit.

    The allocator is [RangeAlloc] over the range of virtual areas; the kernel page table is
    a store of nodes with its root, and the cursor that of [PtLock] and [PtCursor].  Dropping
    an area, which is commented out in the source, is not modelled. *)

From S2P Require Import Prelude RangeAlloc Bitflags Paging FrameMeta PageProp Pte PteX86 PtChild PtNode PtTree PtStray PtCursor PtConfig PtLock.
Open Scope Z_scope.

Definition VMALLOC_VADDR_RANGE : range := mk_range 0xffffc00000000000 0xffffe00000000000.

Section kvirt.
Local Existing Instance X86.consts.
Local Existing Instance X86.reqs.
Local Existing Instance KernelPt.KernelPtConfig.
Context (allow_panic debug_assertions : bool) (alloc_frame : pt_store PageTableEntry -> option Z).
Implicit Types (st : pt_store PageTableEntry) (c : Cursor) (ra : RangeAllocator) (root : Z).

Local Notation map := (map allow_panic alloc_frame).
Local Notation cursor_new := (cursor_new allow_panic alloc_frame).

(** The area is its range. *)
Definition KVirtArea := range.

Definition tracked (prop : PageProperty) (frame : Z) : Item := KernelPt.Tracked frame prop.
Definition untracked (prop : PageProperty) (page : Z * Z) : Item := KernelPt.Untracked page.1 page.2 prop.

(** The loops over frames and pages; what [map] hands out is dropped. *)
Fixpoint map_items st c (items : list Item) : outcome (Cursor * pt_store PageTableEntry) :=
  match items with
  | [] => Ret (c, st)
  | item :: items' => ' (_, c', st') ← map st c item; map_items st' c' items'
  end.

(** [cursor_mut(...)] followed by [unwrap], with fuel for the attempts to lock. *)
Definition kernel_cursor (fuel : nat) st root (r : range) : outcome (Cursor * pt_store PageTableEntry) :=
  ' (res, st') ← cursor_new fuel st root r;
  match res with inl c => Ret (c, st') | inr _ => Panic end.

Definition map_frames (fuel : nat) ra st root (area_size map_offset : Z) (frames : list Z) (prop : PageProperty)
  : outcome (KVirtArea * RangeAllocator * pt_store PageTableEntry) :=
  _ ← rassert (map_offset mod PAGE_SIZE =? 0);
  ' (res, ra') ← RangeAlloc.alloc ra area_size;
  match res with
  | None => Panic
  | Some rg =>
      start ← uadd 64 (r_start rg) map_offset;
      ' (c, st1) ← kernel_cursor fuel st root (mk_range start (r_end rg));
      ' (_, st2) ← map_items st1 c (tracked prop <$> frames);
      Ret (rg, ra', st2)
  end.

(** [collect_largest_pages], with fuel for the pages. *)
Definition collect_largest_pages (va pa len : Z) : outcome (list (Z * Z)) :=
  it ← largest_pages kernel_top va pa len;
  pages ← collect_pages (S (Z.to_nat (len / PAGE_SIZE))) it;
  unwrap pages.

Definition map_untracked_frames (fuel : nat) ra st root (area_size map_offset : Z) (pa_range : range) (prop : PageProperty)
  : outcome (KVirtArea * RangeAllocator * pt_store PageTableEntry) :=
  ' (res, ra') ← RangeAlloc.alloc ra area_size;
  match res with
  | None => Panic
  | Some rg =>
      if r_start pa_range <? r_end pa_range then
        len ← usub (r_end pa_range) (r_start pa_range);
        start ← uadd 64 (r_start rg) map_offset;
        end_ ← uadd 64 start len;
        ' (c, st1) ← kernel_cursor fuel st root (mk_range start end_);
        pages ← collect_largest_pages start (r_start pa_range) len;
        ' (_, st2) ← map_items st1 c (untracked prop <$> pages);
        Ret (rg, ra', st2)
      else Ret (rg, ra', st)
  end.

(** ** What the loops map *)

(** The length of the items, and where an address is mapped if they lie from [lo] on. *)
Fixpoint span (items : list Item) : Z :=
  match items with [] => 0 | item :: items' => let '(_, lv, _) := item_into_raw item in page_size lv + span items' end.

Fixpoint target (lo : Z) (items : list Item) (va : Z) : option (Z * PageProperty) :=
  match items with
  | [] => None
  | item :: items' =>
      let '(pa, lv, p) := item_into_raw item in
      if va <? lo + page_size lv then Some (pa + (va - lo), p) else target (lo + page_size lv) items' va
  end.

(** A range that is longer than one page of the level, so that a cursor of the range has locked a table of the level. *)
Definition wide (b : range) (lv : Z) : Prop := lv = 1 \/ slot (r_start b) lv <> slot (r_end b - 1) lv.

(** The items can be mapped from [lo] on by a cursor of the range [b]. *)
Fixpoint placed (b : range) (lo : Z) (items : list Item) : Prop :=
  match items with
  | [] => True
  | item :: items' =>
      let '(_, lv, _) := item_into_raw item in
      item_ok item /\ lv <= HIGHEST_TRANSLATION_LEVEL /\ wide b lv /\ lo mod page_size lv = 0 /\ lo + page_size lv <= r_end b /\
      placed b (lo + page_size lv) items'
  end.

Context `{U : !Uncounted} (kv_alloc_fresh : forall st pa, alloc_frame st = Some pa -> valid_frame_paddr pa /\ st !! pa = None).
Context (pool : nat) (kv_alloc_succeeds : forall st, (size st < pool)%nat -> is_Some (alloc_frame st)).

Local Notation cursor_ok := (cursor_ok (E := PageTableEntry)).
Local Notation updates := (updates debug_assertions (E := PageTableEntry)).

Lemma wide_guard st root c lv : cursor_ok st root c -> 1 <= lv <= NR_LEVELS -> wide (barrier_va c) lv -> lv <= guard_level c.
Proof.
  intros [Hc _] Hlv Hw. pose proof (at_levels _ _ _ Hc) as [Hl Hg]. destruct Hw as [->|Hne]; [lia|].
  destruct (decide (lv <= guard_level c)) as [|Hgt]; [done|]. destruct Hne. pose proof (at_barrier _ _ _ Hc) as (Hb & _ & _ & Hs & _).
  apply (slot_above _ _ (guard_level c + 1)); [lia|lia|done].
Qed.

Lemma page_pos lv : 1 <= lv <= NR_LEVELS -> 0 < page_size lv.
Proof. intros Hlv. apply page_size_pos. lia. Qed.

Lemma placed_span b lo items : placed b lo items -> 0 <= span items.
Proof.
  revert lo. induction items as [|item items IH]; intros lo; cbn [placed span]; [lia|].
  destruct (item_into_raw item) as [[pa lv] p] eqn:Hraw. intros (Hi & _ & _ & _ & _ & Hp). specialize (IH _ Hp).
  destruct (item_raw_law item pa lv p Hi Hraw) as (Hlv & _). pose proof (page_pos lv Hlv). lia.
Qed.

Lemma map_items_ok items st c root : cursor_ok st root c -> placed (barrier_va c) (c_va c) items ->
  (size st + 3 * length items + 4 <= S pool)%nat ->
  exists c' st', map_items st c items = Ret (c', st') /\ cursor_ok st' root c' /\ barrier_va c' = barrier_va c /\
    c_va c' = c_va c + span items /\ updates st st' root (mk_range (c_va c) (c_va c + span items)) (fun va => Ret (target (c_va c) items va)).
Proof.
  revert st c. induction items as [|item items IH]; intros st c Hok Hp Hsz; cbn [map_items placed span target length] in *.
  { exists c, st. rewrite Z.add_0_r. split_and!; try done. apply updates_empty. }
  destruct (item_into_raw item) as [[pa lv] p] eqn:Hraw. destruct Hp as (Hi & Hh & Hw & Hal & Hfit & Hp).
  destruct (item_raw_law item pa lv p Hi Hraw) as (Hlv & _). pose proof (page_pos lv Hlv) as Hps.
  assert (map_allowed c lv) as Hallow. { split_and!; try done; try lia. by eapply wide_guard. }
  destruct (map_ok allow_panic debug_assertions alloc_frame Example86.base86 Cursor86.levels_fit kv_alloc_fresh pool kv_alloc_succeeds st root c item pa lv p
    Hok Hi Hraw Hallow) as ([[res c1] st1] & Hmap & Hok1 & Hb1 & Hva1 & Hup1 & _ & _ & Hsz1); [change (Z.to_nat NR_LEVELS) with 4%nat; lia| |].
  { right. change NR_LEVELS with 4. change HIGHEST_TRANSLATION_LEVEL with 2 in Hh. lia. }
  change (Z.to_nat NR_LEVELS) with 4%nat in Hsz1. rewrite Hmap. cbn [mbind outcome_bind].
  destruct (IH st1 c1 Hok1) as (c' & st' & Hms & Hok' & Hb' & Hva' & Hup'); [by rewrite Hb1, Hva1|lia|].
  exists c', st'. rewrite Hva1 in Hva', Hup'. split_and!; try done; [congruence|lia|].
  destruct items as [|item2 items].
  { cbn [map_items] in Hms. injection Hms as _ <-. cbn [span] in *. rewrite Z.add_0_r. eapply updates_ext; [|exact Hup1].
    intros va [Hr1 Hr2]. cbn [r_start r_end target] in *. rewrite (proj2 (Z.ltb_lt _ _)) by lia. done. }
  assert (0 <= span (item2 :: items) /\ c_va c + page_size lv < r_end (barrier_va c)) as [Hspan Hin].
  { pose proof (placed_span _ _ _ Hp). cbn [placed span] in *. destruct (item_into_raw item2) as [[pa2 lv2] p2] eqn:Hraw2. destruct Hp as (Hi2 & _ & _ & _ & Hf2 & _).
    destruct (item_raw_law item2 pa2 lv2 p2 Hi2 Hraw2) as (Hlv2 & _). pose proof (page_pos lv2 Hlv2). lia. }
  replace (c_va c + (page_size lv + span (item2 :: items))) with (c_va c + page_size lv + span (item2 :: items)) by lia.
  eapply updates_ext; [|eapply updates_append; [|eapply barrier_window; [apply Hok| |]|exact Hup1|exact Hup']].
  - intros va [Hr1 Hr2]. cbn [r_start r_end] in *. by destruct (Z.ltb va (c_va c + page_size lv)).
  - lia.
  - destruct Hok as [Hc _]. pose proof (at_va _ _ _ Hc) as [[Hv _] _]. unfold in_range. lia.
  - destruct Hok as [Hc _]. pose proof (at_va _ _ _ Hc) as [[Hv _] _]. unfold in_range. lia.
Qed.

(** ** Cursors of kernel addresses *)

(** The addresses that a cursor of the kernel page table can lock: the last slot of the top level is left out, so that the
    end of every slot is an address. *)
Definition KERNEL_LOW : Z := 0xffff800000000000.
Definition KERNEL_HIGH : Z := 0xffffff8000000000.

Definition page_range (r : range) : Prop := r_start r mod PAGE_SIZE = 0 /\ r_end r mod PAGE_SIZE = 0.

Lemma kernel_cursor_ok (fuel : nat) st root r : KERNEL_LOW <= r_start r < r_end r -> r_end r <= KERNEL_HIGH -> page_range r ->
  tree_ok st root -> counted_range root r -> free_but st root r None -> (size st + 4 <= S pool)%nat ->
  exists c st', kernel_cursor (S fuel) st root r = Ret (c, st') /\ new_cursor debug_assertions st st' root r c.
Proof.
  intros Hr Hhi [Ha1 Ha2] Ht Hcr Hfr Hsz. unfold KERNEL_LOW, KERNEL_HIGH in *.
  assert (forall va, 0xffff800000000000 <= va < 2 ^ 64 -> slot va (NR_LEVELS + 1) = 0xffff) as Hwin.
  { intros va Hva. unfold slot. change (page_size (NR_LEVELS + 1)) with (2 ^ 48). symmetry. apply (Z.div_unique_pos _ _ _ (va - 0xffff * 2 ^ 48)); lia. }
  destruct (lock_range_ok allow_panic debug_assertions alloc_frame Example86.base86 ltac:(done) kv_alloc_fresh pool kv_alloc_succeeds r ltac:(lia)
    Cursor86.levels_fit (conj Ha1 Ha2)) with (fuel := fuel) (st := st) (root := root) as (c & st' & Hl & Hc); try done.
  - pose proof (slot_bounds (r_end r - 1) NR_LEVELS ltac:(split; discriminate)) as Hsb. change (page_size NR_LEVELS) with (2 ^ 39) in *. lia.
  - rewrite !Hwin; [done|lia|lia].
  - exists c, st'. split; [|done]. unfold kernel_cursor, cursor_new, is_valid_range.
    change (vaddr_range TOP_LEVEL_INDEX_RANGE) with (0xffff800000000000, 0xffffffffffffffff). cbn [fst snd]. change BASE_PAGE_SIZE with PAGE_SIZE.
    rewrite (proj2 (Z.ltb_lt _ _)), (proj2 (Z.leb_le _ _)), (proj2 (Z.leb_le _ _)), (proj2 (Z.leb_gt _ _)), Ha1, Ha2 by lia.
    cbn [negb orb andb Z.eqb]. by rewrite Hl.
Qed.

Lemma kernel_cursor_refused (fuel : nat) st root r : r_end r <= r_start r \/ ~ page_range r -> kernel_cursor fuel st root r = Panic.
Proof.
  intros Hno. unfold kernel_cursor, cursor_new. destruct (negb _ || _) eqn:Hv; [done|]. apply orb_false_iff in Hv as [_ Hv].
  change BASE_PAGE_SIZE with PAGE_SIZE. destruct (Z.eqb_spec (r_start r mod PAGE_SIZE) 0), (Z.eqb_spec (r_end r mod PAGE_SIZE) 0); try done.
  destruct Hno as [|[]]; [lia|]. done.
Qed.

(** ** Areas *)

(** The free addresses are whole pages. *)
Definition paged (F : Z -> Prop) : Prop := forall a b, a / PAGE_SIZE = b / PAGE_SIZE -> F a -> F b.

Lemma alloc_paged ra F area_size rg ra' : represents ra VMALLOC_VADDR_RANGE F -> paged F -> 0 < area_size ->
  RangeAlloc.alloc ra area_size = Ret (Some rg, ra') ->
  r_end rg - r_start rg = area_size /\ all_free F rg /\ represents ra' VMALLOC_VADDR_RANGE (minus F rg) /\
  r_start VMALLOC_VADDR_RANGE <= r_start rg /\ r_end rg <= r_end VMALLOC_VADDR_RANGE /\ r_end rg mod PAGE_SIZE = 0 /\
  (area_size mod PAGE_SIZE = 0 -> r_start rg mod PAGE_SIZE = 0 /\ paged (minus F rg)).
Proof.
  intros Hrep Hpg Hs Ha. destruct (range_alloc_refines ra VMALLOC_VADDR_RANGE F area_size Hrep Hs) as (o & ra1 & Ha1 & Hpost).
  rewrite Ha in Ha1. injection Ha1 as <- <-. destruct Hpost as (Hsz & Hrep' & Hend & s & Hs1 & Hfree & _).
  assert (all_free F rg) as Hall by (intros a Hr; apply Hfree; unfold in_range in *; cbn; lia).
  pose proof (represents_in_full ra VMALLOC_VADDR_RANGE F (r_start rg) Hrep ltac:(apply Hall; unfold in_range; lia)) as Hlo.
  pose proof (represents_in_full ra VMALLOC_VADDR_RANGE F (r_end rg - 1) Hrep ltac:(apply Hall; unfold in_range; lia)) as Hhi.
  assert (r_end rg mod PAGE_SIZE = 0) as Hal.
  { destruct (decide (r_end rg mod PAGE_SIZE = 0)) as [|Hne]; [done|]. destruct Hend. apply (Hpg (r_end rg - 1)).
    - unfold PAGE_SIZE in *. Z.to_euclidean_division_equations. lia.
    - apply Hall. unfold in_range. lia. }
  unfold in_range in Hlo, Hhi. split_and!; try done; try lia. intros Hsa.
  assert (r_start rg mod PAGE_SIZE = 0) as Hal' by (unfold PAGE_SIZE in *; Z.to_euclidean_division_equations; lia). split; [done|].
  intros a b Hab [HFa Hna]. split; [by apply (Hpg a)|]. intros Hb. apply Hna. unfold in_range, PAGE_SIZE in *. Z.to_euclidean_division_equations. lia.
Qed.

(** ** Frames *)

Lemma frames_placed b lo frames prop : Forall (fun pa => item_ok (tracked prop pa)) frames ->
  lo mod PAGE_SIZE = 0 -> lo + Z.of_nat (length frames) * PAGE_SIZE <= r_end b ->
  placed b lo (tracked prop <$> frames) /\ span (tracked prop <$> frames) = Z.of_nat (length frames) * PAGE_SIZE.
Proof.
  intros Hf. revert lo. induction Hf as [|pa frames Hi _ IH]; intros lo Hlo Hfit; [done|].
  cbn [fmap list_fmap placed span tracked item_into_raw KernelPt.KernelPtConfig KernelPt.kernel_into_raw length] in *. unfold map_level. change (page_size 1) with PAGE_SIZE.
  assert (0 < PAGE_SIZE) by done. destruct (IH (lo + PAGE_SIZE)) as [Hp Hs]; [by apply mod0_add|lia|]. rewrite Hs. split; [|lia].
  split_and!; try done; [by left|lia].
Qed.

Lemma frames_overrun frames prop st c root : Forall (fun pa => item_ok (tracked prop pa)) frames -> cursor_ok st root c ->
  r_end (barrier_va c) < c_va c + Z.of_nat (length frames) * PAGE_SIZE -> (size st + 3 * length frames + 4 <= S pool)%nat ->
  map_items st c (tracked prop <$> frames) = Panic.
Proof.
  intros Hf. revert st c. induction Hf as [|pa frames Hi _ IH]; intros st c Hok Hover Hsz; cbn [length] in *.
  { destruct Hok as [_ Hend]. lia. }
  pose proof Hok as [Hc Hend]. pose proof (at_va _ _ _ Hc) as [_ Hal]. pose proof (at_barrier _ _ _ Hc) as (_ & _ & Hbe & _). pose proof (at_levels _ _ _ Hc) as [Hl _].
  change BASE_PAGE_SIZE with PAGE_SIZE in *. cbn [fmap list_fmap map_items].
  destruct (decide (c_va c = r_end (barrier_va c))) as [Heq|Hne].
  { assert (map st c (tracked prop pa) = Panic) as ->; [|done]. eapply map_refused; [exact Hok|reflexivity|]. intros (? & _). lia. }
  assert (c_va c + PAGE_SIZE <= r_end (barrier_va c)) as Hfit by (unfold PAGE_SIZE in *; Z.to_euclidean_division_equations; lia).
  destruct (map_ok allow_panic debug_assertions alloc_frame Example86.base86 Cursor86.levels_fit kv_alloc_fresh pool kv_alloc_succeeds st root c (tracked prop pa)
    pa map_level _ Hok Hi eq_refl) as ([[res c1] st1] & Hmap & Hok1 & Hb1 & Hva1 & _ & _ & _ & Hsz1).
  - unfold map_allowed, map_level. change (page_size 1) with PAGE_SIZE. split_and!; try done; lia.
  - change (Z.to_nat NR_LEVELS) with 4%nat. lia.
  - by right.
  - rewrite Hmap. cbn [mbind outcome_bind]. apply IH; [done| |]; change (Z.to_nat NR_LEVELS) with 4%nat in *; [|lia].
    rewrite Hb1, Hva1. unfold map_level. change (page_size 1) with PAGE_SIZE. lia.
Qed.

(** Where the frames of an area are mapped. *)
Definition frame_target (frames : list Z) (prop : PageProperty) (lo va : Z) : option (Z * PageProperty) :=
  match frames !! Z.to_nat ((va - lo) / PAGE_SIZE) with
  | Some pa => Some (pa + (va - lo) mod PAGE_SIZE, KernelPt.with_flags prop (union (pflags prop) PageFlags.AVAIL1))
  | None => None
  end.

Lemma target_frames frames prop lo va : lo <= va -> target lo (tracked prop <$> frames) va = frame_target frames prop lo va.
Proof.
  unfold frame_target. revert lo. induction frames as [|pa frames IH]; intros lo Hva; [done|].
  cbn [fmap list_fmap target tracked item_into_raw KernelPt.KernelPtConfig KernelPt.kernel_into_raw]. unfold map_level. change (page_size 1) with PAGE_SIZE.
  assert (0 < PAGE_SIZE) by done. destruct (Z.ltb_spec va (lo + PAGE_SIZE)).
  - rewrite Z.div_small, Z.mod_small by lia. done.
  - rewrite IH by lia. replace (va - lo) with (va - (lo + PAGE_SIZE) + 1 * PAGE_SIZE) by lia. rewrite Z.div_add, Z.mod_add by lia.
    pose proof (Z.div_pos (va - (lo + PAGE_SIZE)) PAGE_SIZE ltac:(lia) ltac:(lia)). rewrite Z2Nat.inj_add, Nat.add_comm by lia. done.
Qed.

(** The state in which an area is made: what the allocator has left is whole pages, and nobody uses the page table. *)
Record kernel_ok ra (F : Z -> Prop) st root : Prop := {
  ko_free : represents ra VMALLOC_VADDR_RANGE F;
  ko_paged : paged F;
  ko_tree : tree_ok st root;
  ko_unlocked : forall r, free_but st root r None;
  ko_counted : forall i, uncounted root i = false;
}.

(** A new area: its range has been free and is no longer. *)
Definition new_area (F : Z -> Prop) (area_size : Z) (rg : KVirtArea) ra' : Prop :=
  r_end rg - r_start rg = area_size /\ all_free F rg /\ represents ra' VMALLOC_VADDR_RANGE (minus F rg) /\
  (area_size mod PAGE_SIZE = 0 -> paged (minus F rg)).

Lemma alloc_answer ra F st root area_size : kernel_ok ra F st root -> 0 < area_size ->
  exists o ra', RangeAlloc.alloc ra area_size = Ret (o, ra') /\
    match o with
    | None => forall x, ~ all_free F (mk_range x (x + area_size))
    | Some rg => new_area F area_size rg ra' /\ r_end rg mod PAGE_SIZE = 0 /\ KERNEL_LOW <= r_start rg /\ r_end rg <= r_end VMALLOC_VADDR_RANGE /\
        (area_size mod PAGE_SIZE = 0 -> r_start rg mod PAGE_SIZE = 0) /\ exists x, all_free F (mk_range x (x + area_size))
    end.
Proof.
  intros [Hrep Hpg _ _ _] Hs. destruct (range_alloc_refines ra VMALLOC_VADDR_RANGE F area_size Hrep Hs) as (o & ra' & Ha & Hpost).
  exists o, ra'. split; [done|]. destruct o as [rg|]; [|apply Hpost].
  destruct (alloc_paged ra F area_size rg ra' Hrep Hpg Hs Ha) as (Hsz & Hall & Hrep' & Hlo & Hhi & He & Hal). unfold KERNEL_LOW. cbn [r_start r_end VMALLOC_VADDR_RANGE] in *.
  split; [split; [done|]; split; [done|]; split; [done|]; intros ?; by apply Hal|]. split; [done|]. split; [lia|]. split; [lia|]. split; [intros ?; by apply Hal|].
  exists (r_start rg). intros a Hr. apply Hall. unfold in_range in *. cbn in Hr. lia.
Qed.

(** Which calls of [map_frames] have arguments that fit. *)
Definition frames_fit (area_size map_offset n : Z) : Prop :=
  area_size mod PAGE_SIZE = 0 /\ map_offset mod PAGE_SIZE = 0 /\ map_offset < area_size /\ map_offset + n * PAGE_SIZE <= area_size.

(** C9: a virtual area of the kernel.  [map_frames] panics exactly if the area size or the offset is not a multiple of the
    page size, the frames do not fit behind the offset, or no free run of addresses is long enough.  Otherwise the area is a
    range of free addresses of the right size, which the allocator gives away; each of its pages from the offset on
    translates to its frame, in the order of the list, and no other translation of the kernel changes. *)
Theorem kvirt_map_frames_correct (fuel : nat) ra F st root area_size map_offset frames prop :
  kernel_ok ra F st root -> 0 < area_size -> 0 <= map_offset -> Forall (fun pa => item_ok (tracked prop pa)) frames ->
  (size st + 3 * length frames + 7 <= S pool)%nat ->
  let n := Z.of_nat (length frames) in
  let room := exists x, all_free F (mk_range x (x + area_size)) in
  (~ frames_fit area_size map_offset n \/ ~ room -> map_frames (S fuel) ra st root area_size map_offset frames prop = Panic) /\
  (frames_fit area_size map_offset n -> room -> exists rg ra' st',
    map_frames (S fuel) ra st root area_size map_offset frames prop = Ret (rg, ra', st') /\ new_area F area_size rg ra' /\ tree_ok st' root /\
    let lo := r_start rg + map_offset in
    updates st st' root (mk_range lo (lo + n * PAGE_SIZE)) (fun va => Ret (frame_target frames prop lo va))).
Proof.
  intros Hko Hs Ho Hf Hsz n room. destruct (alloc_answer ra F st root area_size Hko Hs) as (o & ra' & Ha & Hpost). pose proof Hko as [_ _ Ht Hun Hcnt].
  unfold map_frames. destruct (Z.eqb_spec (map_offset mod PAGE_SIZE) 0) as [Hoa|Hoa]; cbn [rassert mbind outcome_bind].
  2: { split; [done|]. intros (_ & ? & _). done. }
  rewrite Ha. cbn [mbind outcome_bind]. destruct o as [rg|].
  2: { split; [done|]. intros _ [x Hx]. by destruct (Hpost x). }
  destruct Hpost as (Hna & He & Hlo & Hhi & Hsa & Hroom). pose proof Hna as (Hlen & _). cbn [r_end VMALLOC_VADDR_RANGE] in Hhi.
  destruct (decide (map_offset < area_size /\ area_size mod PAGE_SIZE = 0)) as [[Hlt Hal]|Hno].
  2: { split; [|intros (? & ? & ? & ?); tauto]. intros _. destruct (uadd 64 (r_start rg) map_offset) as [start|] eqn:Hadd; [|done]. apply uadd_Ret in Hadd as [-> _].
       cbn [mbind outcome_bind]. rewrite kernel_cursor_refused; [done|]. unfold page_range. cbn [r_start r_end].
       destruct (decide (map_offset < area_size)); [right|left; lia]. intros [Hal _]. apply Hno. split; [done|].
       unfold PAGE_SIZE in *. Z.to_euclidean_division_equations. lia. }
  specialize (Hsa Hal). rewrite uadd_ok by lia. cbn [mbind outcome_bind]. unfold KERNEL_LOW in Hlo.
  destruct (kernel_cursor_ok fuel st root (mk_range (r_start rg + map_offset) (r_end rg))) as (c & st1 & Hcur & Hc); try done; cbn [r_start r_end]; unfold KERNEL_LOW, KERNEL_HIGH; try lia.
  { split; [by apply mod0_add|done]. }
  { intros va _. apply Hcnt. }
  rewrite Hcur. cbn [mbind outcome_bind]. destruct (nc_start _ _ _ _ _ _ Hc) as (Hva & Hb & _). pose proof (nc_size _ _ _ _ _ _ Hc) as Hsz1.
  pose proof (nc_ok _ _ _ _ _ _ Hc) as Hok. change NR_LEVELS with 4 in Hsz1. cbn [r_start] in Hva.
  split.
  - intros [Hno|]; [|done]. rewrite (frames_overrun frames prop st1 c root Hf Hok); [done| |lia].
    rewrite Hb, Hva. cbn [r_end]. apply Znot_ge_lt. intros Hge. apply Hno. unfold frames_fit. split_and!; try done. fold n in Hge. lia.
  - intros (_ & _ & _ & Hfit) _.
    destruct (frames_placed (barrier_va c) (c_va c) frames prop Hf) as [Hp Hsp]; [rewrite Hva; by apply mod0_add|rewrite Hb, Hva; cbn [r_end]; fold n; lia|].
    destruct (map_items_ok (tracked prop <$> frames) st1 c root Hok Hp) as (c' & st' & Hms & Hok' & _ & _ & Hup); [rewrite length_fmap; lia|].
    rewrite Hms. cbn [mbind outcome_bind]. exists rg, ra', st'. split; [done|]. split; [done|]. split; [apply Hok'|]. cbn zeta.
    rewrite Hsp, Hva in Hup. eapply updates_walks; [exact (nc_walks _ _ _ _ _ _ Hc)|]. eapply updates_ext; [|exact Hup].
    intros va [Hv _]. cbn [r_start] in Hv. cbn beta. by rewrite target_frames.
Qed.

(** ** Physical ranges *)

(** A range that contains an aligned page and is not that page reaches over the page. *)
Lemma page_wide b va lv : 1 <= lv <= NR_LEVELS -> va mod page_size lv = 0 -> r_start b <= va -> va + page_size lv <= r_end b ->
  r_end b - r_start b <> page_size lv -> wide b lv.
Proof.
  intros Hlv Hal Hlo Hhi Hne. right. intros Heq. pose proof (page_pos lv Hlv) as Hps. assert (1 <= lv <= NR_LEVELS + 1) as Hlv' by lia.
  pose proof (slot_bounds (r_start b) lv Hlv') as Hs1. pose proof (slot_bounds (r_end b - 1) lv Hlv') as Hs2. rewrite <- Heq in Hs2.
  pose proof (slot_start va lv Hlv' Hal) as Hs3. pose proof (slot_mono (r_start b) va lv Hlv' Hlo). pose proof (slot_mono va (r_end b - 1) lv Hlv' ltac:(lia)).
  assert (slot va lv = slot (r_start b) lv) as Hs4 by lia. rewrite Hs4 in Hs3. lia.
Qed.

(** No page of a higher level is as long as the range. *)
Definition no_whole_page (len : Z) : Prop := forall lv, 2 <= lv <= HIGHEST_TRANSLATION_LEVEL -> len <> page_size lv.

Definition untracked_prop (prop : PageProperty) : PageProperty := KernelPt.with_flags prop (difference 8 (pflags prop) PageFlags.AVAIL1).

Lemma pages_placed b prop va pa len items : tiling va pa len items -> r_start b <= va -> va + len = r_end b -> no_whole_page (r_end b - r_start b) ->
  0 <= pa -> pa + len <= MAX_PADDR -> pa mod PAGE_SIZE = 0 -> prop_req (E := PageTableEntry) prop -> contains (pflags prop) PageFlags.AVAIL1 = false ->
  placed b va (untracked prop <$> items) /\ span (untracked prop <$> items) = len /\
  forall x, va <= x < va + len -> target va (untracked prop <$> items) x = Some (pa + (x - va), untracked_prop prop).
Proof.
  intros Ht Hlo Hhi Hno Hpa Hmax Hal Hreq Hav. induction Ht as [va pa|va pa len lv items Hbest Ht IH].
  { split_and!; try done. lia. }
  destruct Hbest as (Hl & (Hfit & Hva & Hpal) & _).
  assert (1 <= lv <= NR_LEVELS) as Hlv by (change NR_LEVELS with 4; change HIGHEST_TRANSLATION_LEVEL with 2 in Hl; lia). pose proof (page_pos lv Hlv) as Hps.
  assert (page_size lv mod PAGE_SIZE = 0) as Hpm by (change HIGHEST_TRANSLATION_LEVEL with 2 in Hl; assert (lv = 1 \/ lv = 2) as [-> | ->] by lia; done).
  assert (0 <= len - page_size lv) by lia.
  destruct IH as (Hp & Hsp & Htg); try lia; [by apply mod0_add|].
  cbn [fmap list_fmap placed span target untracked fst snd item_into_raw KernelPt.KernelPtConfig KernelPt.kernel_into_raw]. split_and!.
  - split; [|done]. unfold frame_ok, valid_frame_paddr. cbn [fst snd]. split; [done|]. split_and!; try done; lia.
  - apply Hl.
  - destruct (decide (lv = 1)) as [->|]; [by left|]. apply (page_wide b va lv Hlv); try done; try lia. apply Hno. lia.
  - done.
  - lia.
  - done.
  - lia.
  - intros x Hx. destruct (Z.ltb_spec x (va + page_size lv)); [done|]. rewrite Htg by lia. do 2 f_equal. lia.
Qed.

Lemma tiling_length va pa len items : tiling va pa len items -> Z.of_nat (length items) * PAGE_SIZE <= len.
Proof.
  induction 1 as [va pa|va pa len lv items ((Hl1 & Hl2) & _) _ IH]; [done|]. change HIGHEST_TRANSLATION_LEVEL with 2 in Hl2. cbn [length].
  assert (lv = 1 \/ lv = 2) as [-> | ->] by lia; [change (page_size 1) with PAGE_SIZE in IH|change (page_size 2) with (512 * PAGE_SIZE) in IH]; unfold PAGE_SIZE in *; lia.
Qed.

Lemma collect_largest_ok va pa len : KERNEL_LOW <= va -> va + len <= KERNEL_HIGH -> 0 < len -> va mod PAGE_SIZE = 0 -> pa mod PAGE_SIZE = 0 -> len mod PAGE_SIZE = 0 ->
  pa + len <= MAX_PADDR -> exists items, collect_largest_pages va pa len = Ret items /\ tiling va pa len items.
Proof.
  unfold KERNEL_LOW, KERNEL_HIGH. intros Hlo Hhi Hlen Hva Hpa Hla Hmax. assert (MAX_PADDR < 2 ^ 64) by done. unfold collect_largest_pages, largest_pages. change BASE_PAGE_SIZE with PAGE_SIZE.
  rewrite Hva, Hpa, Hla. cbn [Z.eqb rassert mbind outcome_bind]. rewrite uadd_ok by lia. cbn [mbind outcome_bind]. unfold is_valid_range.
  change (vaddr_range kernel_top) with (0xffff800000000000, 0xffffffffffffffff). cbn [fst snd r_start r_end].
  rewrite (proj2 (Z.ltb_lt _ _)), (proj2 (Z.leb_le _ _)), (proj2 (Z.leb_le _ _)) by lia. cbn [andb rassert mbind outcome_bind].
  destruct (collect_pages_spec (S (Z.to_nat (len / PAGE_SIZE))) (mk_iter va pa len)) as (items & Hc & Ht); cbn [it_va it_pa it_len]; try lia; [done| |].
  - change BASE_PAGE_SIZE with PAGE_SIZE. pose proof (Z.div_pos len PAGE_SIZE ltac:(lia) eq_refl). lia.
  - exists items. by rewrite Hc.
Qed.

(** A virtual area for physical memory without metadata.  When there is room for the area and the physical range is
    aligned and no huge page of its own, [map_untracked_frames] gives a new area of free addresses and maps exactly the
    addresses of the length of the physical range behind the offset, byte for byte, with pages of whatever size fits.  The
    code does not compare that length with the area: when it is longer, the addresses behind the area are mapped too. *)
Theorem kvirt_map_untracked_correct (fuel : nat) ra F st root area_size map_offset pa_range prop :
  let len := r_end pa_range - r_start pa_range in
  kernel_ok ra F st root -> 0 < area_size -> (exists x, all_free F (mk_range x (x + area_size))) ->
  0 <= map_offset -> r_end VMALLOC_VADDR_RANGE + map_offset + len <= KERNEL_HIGH -> area_size mod PAGE_SIZE = 0 -> map_offset mod PAGE_SIZE = 0 ->
  0 <= r_start pa_range < r_end pa_range -> r_end pa_range <= MAX_PADDR -> page_range pa_range -> no_whole_page len ->
  prop_req (E := PageTableEntry) prop -> contains (pflags prop) PageFlags.AVAIL1 = false -> (size st + 3 * Z.to_nat (len / PAGE_SIZE) + 7 <= S pool)%nat ->
  exists rg ra' st', map_untracked_frames (S fuel) ra st root area_size map_offset pa_range prop = Ret (rg, ra', st') /\ new_area F area_size rg ra' /\ tree_ok st' root /\
    let lo := r_start rg + map_offset in
    updates st st' root (mk_range lo (lo + len)) (fun va => Ret (Some (r_start pa_range + (va - lo), untracked_prop prop))).
Proof.
  intros len Hko Hs [x Hx] Ho Hhi Hal Hoa Hpr Hmax [Hpa1 Hpa2] Hno Hreq Hav Hsz.
  destruct (alloc_answer ra F st root area_size Hko Hs) as (o & ra' & Ha & Hpost). pose proof Hko as [_ _ Ht Hun Hcnt].
  destruct o as [rg|]; [|by destruct (Hpost x)]. destruct Hpost as (Hna & He & Hlo & Hhi' & Hsa & _). specialize (Hsa Hal). pose proof Hna as (Hlen & _).
  unfold map_untracked_frames. rewrite Ha. cbn [mbind outcome_bind]. rewrite (proj2 (Z.ltb_lt _ _)) by lia. rewrite usub_ok by lia. fold len. cbn [mbind outcome_bind].
  assert (KERNEL_HIGH < 2 ^ 64) by done. assert (0 < len) by (unfold len; lia). rewrite uadd_ok by lia. cbn [mbind outcome_bind]. rewrite uadd_ok by lia. cbn [mbind outcome_bind].
  assert (len mod PAGE_SIZE = 0) as Hla by (by apply mod0_sub). assert ((r_start rg + map_offset) mod PAGE_SIZE = 0) as Hloa by (by apply mod0_add).
  destruct (kernel_cursor_ok fuel st root (mk_range (r_start rg + map_offset) (r_start rg + map_offset + len))) as (c & st1 & Hcur & Hc); try done; cbn [r_start r_end]; try lia.
  { split; [done|by apply mod0_add]. }
  { intros va _. apply Hcnt. }
  rewrite Hcur. cbn [mbind outcome_bind]. destruct (nc_start _ _ _ _ _ _ Hc) as (Hva & Hb & _). pose proof (nc_size _ _ _ _ _ _ Hc) as Hsz1.
  pose proof (nc_ok _ _ _ _ _ _ Hc) as Hok. change NR_LEVELS with 4 in Hsz1. cbn [r_start] in Hva.
  destruct (collect_largest_ok (r_start rg + map_offset) (r_start pa_range) len) as (items & Hcol & Htl); try done; try (unfold len; lia). rewrite Hcol. cbn [mbind outcome_bind].
  destruct (pages_placed (barrier_va c) prop (c_va c) (r_start pa_range) len items) as (Hp & Hsp & Htg); try done; rewrite ?Hva, ?Hb; cbn [r_start r_end]; try done; try (unfold len; lia).
  { replace (r_start rg + map_offset + len - (r_start rg + map_offset)) with len by lia. done. }
  assert (length items <= Z.to_nat (len / PAGE_SIZE))%nat as Hli.
  { pose proof (tiling_length _ _ _ _ Htl). pose proof (Z.div_le_lower_bound len PAGE_SIZE (Z.of_nat (length items)) eq_refl ltac:(lia)). lia. }
  destruct (map_items_ok (untracked prop <$> items) st1 c root Hok Hp) as (c' & st' & Hms & Hok' & _ & _ & Hup); [rewrite length_fmap; lia|].
  rewrite Hms. cbn [mbind outcome_bind]. exists rg, ra', st'. split; [done|]. split; [done|]. split; [apply Hok'|]. cbn zeta.
  rewrite Hsp, Hva in Hup. eapply updates_walks; [exact (nc_walks _ _ _ _ _ _ Hc)|]. eapply updates_ext; [|exact Hup].
  intros va [Hv1 Hv2]. cbn [r_start r_end] in Hv1, Hv2. cbn beta. rewrite <- Hva, Htg by lia. done.
Qed.
End kvirt.

(** ** Examples *)

Module KVirtExample.
Local Existing Instance X86.consts.
Local Existing Instance X86.reqs.
Local Existing Instance KernelPt.KernelPtConfig.
Local Existing Instance all_counted.

Definition frames : list Z := (fun k => 0x5000 + Z.of_nat k * 0x1000) <$> seq 0 20.
Definition alloc : pt_store PageTableEntry -> option Z := pool_alloc frames.
Definition free_table : pt_store PageTableEntry := LockExample.free_table.
Definition areas : RangeAllocator := RangeAlloc.new VMALLOC_VADDR_RANGE.
Definition fresh (a : Z) : Prop := in_range VMALLOC_VADDR_RANGE a.

Lemma kv_alloc_fresh st pa : alloc st = Some pa -> valid_frame_paddr pa /\ st !! pa = None.
Proof. apply pool_alloc_fresh. unfold frames. cbn. repeat (constructor; [split; [unfold MAX_PADDR; lia|done]|]). constructor. Qed.

Lemma kv_alloc_succeeds st : (size st < 20)%nat -> is_Some (alloc st).
Proof. intros Hs. apply pool_alloc_succeeds; [|done]. apply (bool_decide_unpack _). vm_compute. done. Qed.

Lemma areas_ok : kernel_ok areas fresh free_table 0x1000.
Proof.
  split.
  - apply new_represents. vm_compute. done.
  - intros a b Hab Ha. unfold fresh, in_range in *. cbn [r_start r_end VMALLOC_VADDR_RANGE] in *. unfold PAGE_SIZE in *. Z.to_euclidean_division_equations. lia.
  - exact LockExample.free_table_ok.
  - exact LockExample.free_table_free.
  - done.
Qed.

Lemma fresh_room n : 0 <= n <= 0x10000 -> exists x, all_free fresh (mk_range x (x + n)).
Proof. intros Hn. exists 0xffffc00000000000. intros a Ha. unfold fresh, in_range in *. cbn in *. lia. Qed.

(** Two frames in the second and third page of an area of four pages. *)
Lemma kvirt_map_frames_correct_witness : exists rg ra' st',
  map_frames true alloc 1 areas free_table 0x1000 0x4000 0x1000 [0x300000; 0x201000] sample_prop = Ret (rg, ra', st') /\ new_area fresh 0x4000 rg ra'.
Proof.
  destruct (proj2 (kvirt_map_frames_correct true true alloc kv_alloc_fresh 20 kv_alloc_succeeds 0 areas fresh free_table 0x1000 0x4000 0x1000 [0x300000; 0x201000] sample_prop
    areas_ok ltac:(lia) ltac:(lia) ltac:(repeat constructor; done) ltac:(vm_compute; lia)) ltac:(unfold frames_fit; vm_compute; repeat split; congruence) (fresh_room 0x4000 ltac:(lia)))
    as (rg & ra' & st' & Hm & Hna & _).
  exists rg, ra', st'. split; [exact Hm|exact Hna].
Defined.

(** Three pages in an area of two: the third lies behind the area. *)
Lemma kvirt_map_untracked_correct_witness : exists rg ra' st',
  map_untracked_frames true alloc 1 areas free_table 0x1000 0x2000 0 (mk_range 0x300000 0x303000) sample_prop = Ret (rg, ra', st') /\
  r_end rg - r_start rg = 0x2000 /\ page_walk true st' 0x1000 (r_end rg) = Ret (Some (0x302000, untracked_prop sample_prop)).
Proof.
  destruct (kvirt_map_untracked_correct true true alloc kv_alloc_fresh 20 kv_alloc_succeeds 0 areas fresh free_table 0x1000 0x2000 0 (mk_range 0x300000 0x303000) sample_prop
    areas_ok ltac:(lia) (fresh_room 0x2000 ltac:(lia)) ltac:(lia) ltac:(vm_compute; congruence) eq_refl eq_refl ltac:(cbn; lia) ltac:(vm_compute; congruence)
    (conj eq_refl eq_refl) ltac:(intros lv [? Hlv]; change HIGHEST_TRANSLATION_LEVEL with 2 in Hlv; assert (lv = 2) as -> by lia; vm_compute; congruence)
    Example86.sample_prop_req eq_refl ltac:(vm_compute; lia)) as (rg & ra' & st' & Hm & (Hlen & Hfree & _) & _ & Hup).
  exists rg, ra', st'. split; [exact Hm|]. split; [exact Hlen|].
  assert (fresh (r_start rg)) as [Hlo Hhi] by (apply Hfree; unfold in_range; lia). cbn [r_start r_end VMALLOC_VADDR_RANGE] in Hlo, Hhi.
  cbn zeta in Hup. rewrite Z.add_0_r in Hup. rewrite (Hup (r_end rg)).
  - rewrite decide_True by (unfold in_range; cbn; lia). cbn [r_start r_end]. do 4 f_equal. lia.
  - lia.
  - unfold same_window, slot. cbn [r_start]. change (page_size (NR_LEVELS + 1)) with (2 ^ 48). Z.to_euclidean_division_equations. lia.
Defined.

(** A physical range that is exactly one huge page: the cursor has locked the table below it, and [map] panics. *)
Example whole_huge_page_panics :
  map_untracked_frames true alloc 1 areas free_table 0x1000 0x200000 0 (mk_range 0x200000 0x400000) sample_prop = Panic.
Proof. vm_compute. reflexivity. Qed.

(** A page more, and it is mapped. *)
Example huge_page_and_more :
  match map_untracked_frames true alloc 1 areas free_table 0x1000 0x201000 0 (mk_range 0x1ff000 0x400000) sample_prop with Ret (rg, _, _) => r_end rg - r_start rg = 0x201000 | Panic => False end.
Proof. vm_compute. reflexivity. Qed.
End KVirtExample.
