(* ===== verification/IoMem.v ===== *)
(** * I/O memory ([ostd/src/io/io_mem])

    An [IoMem] is a range of device memory that is mapped into a virtual area of the kernel.  Since
    the range need not start at a page, the mapped area starts before it: [io_offset] is the distance, and
    grows when the memory is sliced.  Accesses go through the readers and writers of [VmIo]; the
    build for confidential guests is not modelled.

    The ranges come from [IoMemAllocator], which has one [RangeAlloc] per region that the machine reports.

    The theorems: who may use which addresses under every history of the allocator, that
    [IoMem::new] maps exactly the bytes of the range, and what the accesses
    reach, which is not what the offset says. *)

From S2P Require Import Prelude AlignExt VmIo RangeAlloc Bitflags Paging FrameMeta PageProp Pte PteX86 PtChild PtNode PtTree PtStray PtCursor PtConfig PtLock KVirtArea.
Open Scope Z_scope.

Record IoMem := mk_iomem { kvirt_area : KVirtArea; io_offset : Z; io_limit : Z; io_pa : Z }.

(** ** Access *)

Section access.
Context `{FallibleMem} (debug_assertions : bool).
Implicit Types (self : IoMem) (m : memory) (w : VmWriter) (r : VmReader).

Definition io_paddr self : Z := io_pa self.
Definition io_length self : Z := io_limit self.

Definition io_slice self (rg : range) : outcome IoMem :=
  _ ← rassert (negb (range_is_empty rg) && (r_end rg <=? io_limit self));
  offset ← uadd 64 (io_offset self) (r_start rg);
  pa ← uadd 64 (io_pa self) (r_start rg);
  Ret (mk_iomem (kvirt_area self) offset (range_len rg) pa).

Definition io_reader self : outcome VmReader :=
  p ← uadd 64 (r_start (kvirt_area self)) (io_offset self); Ret (reader_from_kernel_space p (io_limit self)).
Definition io_writer self : outcome VmWriter :=
  p ← uadd 64 (r_start (kvirt_area self)) (io_offset self); Ret (writer_from_kernel_space p (io_limit self)).

(** The check of [read] and [write]: the distance to skip, if it and [len] bytes more are in the limit. *)
Definition io_check self (offset : Z) (len : outcome Z) : outcome (option Z) :=
  offset ← uadd 64 offset (io_offset self);
  if io_limit self <? offset then Ret None
  else
    remain ← usub (io_limit self) offset;
    n ← len;
    Ret (if remain <? n then None else Some offset).

Definition io_read m self (offset : Z) w : outcome ((unit + Error) * VmWriter * memory) :=
  o ← io_check self offset (avail w);
  match o with
  | None => Ret (inr InvalidArgs, w, m)
  | Some offset =>
      reader ← io_reader self;
      reader' ← reader_skip reader offset;
      ' (res, _, w', m') ← read_fallible m reader' w;
      match res with
      | inr (e, _) => Ret (inr e, w', m')
      | inl _ => _ ← debug_assert debug_assertions (b ← has_avail w'; Ret (negb b)); Ret (inl tt, w', m')
      end
  end.

Definition io_write m self (offset : Z) r : outcome ((unit + Error) * VmReader * memory) :=
  o ← io_check self offset (remain r);
  match o with
  | None => Ret (inr InvalidArgs, r, m)
  | Some offset =>
      writer ← io_writer self;
      writer' ← writer_skip writer offset;
      ' (res, r', _, m') ← write_fallible m writer' r;
      match res with
      | inr (e, _) => Ret (inr e, r', m')
      | inl _ => _ ← debug_assert debug_assertions (b ← has_remain r'; Ret (negb b)); Ret (inl tt, r', m')
      end
  end.

Definition io_read_once m self (offset size align : Z) : outcome (list Z + Error) :=
  reader ← io_reader self; reader' ← reader_skip reader offset; ' (res, _) ← read_once m reader' size align; Ret res.
Definition io_write_once m self (offset : Z) (new_val : list Z) (align : Z) : outcome ((unit + Error) * memory) :=
  writer ← io_writer self; writer' ← writer_skip writer offset; ' (res, _, m') ← write_once m writer' new_val align; Ret (res, m').

End access.

(** ** Construction *)

Section new.
Local Existing Instance X86.consts.
Context (allow_panic : bool) (alloc_frame : pt_store PageTableEntry -> option Z).
Implicit Types (ra : RangeAllocator) (st : pt_store PageTableEntry) (root : Z).

(** [IoMem::new], on the kernel page table at [root] with the allocator of virtual areas; [fuel] is that of the cursor. *)
Definition io_new (fuel : nat) ra st root (rg : range) (f : flags) (c : CachePolicy) : outcome (IoMem * RangeAllocator * pt_store PageTableEntry) :=
  first_page_start ← align_down 64 (r_start rg) PAGE_SIZE;
  last_page_end ← align_up 64 (r_end rg) PAGE_SIZE;
  let frames_range := mk_range first_page_start last_page_end in
  let area_size := range_len frames_range in
  let prop := mk_prop f c Bitflags.empty in
  ' (kva, ra', st') ← map_untracked_frames allow_panic alloc_frame fuel ra st root area_size 0 frames_range prop;
  offset ← usub (r_start rg) first_page_start;
  Ret (mk_iomem kva offset (range_len rg) (r_start rg), ra', st').

End new.

(** ** The allocator *)

Section allocator.
Context (debug_assertions : bool).
Local Notation alloc_specific := (RangeAlloc.alloc_specific debug_assertions).
Implicit Types (allocators : list RangeAllocator) (rg : range).

(** [IoMemAllocatorBuilder::new]; the builder and the allocator have the same field. *)
Definition builder_new (ranges : list range) : list RangeAllocator := RangeAlloc.new <$> ranges.

(** The position of the allocator that [find_allocator] returns. *)
Fixpoint find_allocator allocators rg : option nat :=
  match allocators with
  | [] => None
  | allocator :: rest =>
      let allocator_range := fullrange allocator in
      if (r_end rg <=? r_start allocator_range) || (r_end allocator_range <=? r_start rg) then S <$> find_allocator rest rg
      else Some 0%nat
  end.

(** [acquire] up to the creation of the [IoMem]. *)
Definition acquire_range allocators rg : outcome (option range * list RangeAllocator) :=
  match find_allocator allocators rg with
  | None => Ret (None, allocators)
  | Some i =>
      allocator ← unwrap (allocators !! i);
      ' (ok, allocator') ← alloc_specific allocator rg;
      Ret (if (ok : bool) then Some rg else None, <[i := allocator']> allocators)
  end.

Definition builder_remove allocators rg : outcome (list RangeAllocator) :=
  match find_allocator allocators rg with
  | None => Panic
  | Some i =>
      allocator ← unwrap (allocators !! i);
      ' (ok, allocator') ← alloc_specific allocator rg;
      if (ok : bool) then Ret (<[i := allocator']> allocators) else Panic
  end.

Definition io_recycle allocators rg : outcome (list RangeAllocator) :=
  i ← unwrap (find_allocator allocators rg);
  allocator ← unwrap (allocators !! i);
  allocator' ← RangeAlloc.free allocator rg;
  Ret (<[i := allocator']> allocators).

End allocator.

(** [IoMemAllocator::acquire]. *)
Definition io_acquire (debug_assertions allow_panic : bool) (alloc_frame : pt_store PageTableEntry -> option Z) (fuel : nat)
    (allocators : list RangeAllocator) (ra : RangeAllocator) (st : pt_store PageTableEntry) (root : Z) (rg : range)
  : outcome (option IoMem * list RangeAllocator * RangeAllocator * pt_store PageTableEntry) :=
  ' (o, allocators') ← acquire_range debug_assertions allocators rg;
  match o with
  | None => Ret (None, allocators', ra, st)
  | Some rg =>
      ' (mem, ra', st') ← io_new allow_panic alloc_frame fuel ra st root rg PageFlags.RW Uncacheable;
      Ret (Some mem, allocators', ra', st')
  end.

(** ** What the accesses reach *)

Section reach.
Context `{FallibleMem} `{!FallibleMemLaws} (debug_assertions : bool).
Implicit Types (self : IoMem) (m : memory) (w : VmWriter) (r : VmReader).

(** The address of the first byte. *)
Definition io_vaddr self : Z := r_start (kvirt_area self) + io_offset self.

(** The memory lies in its area. *)
Record io_ok self : Prop := {
  io_area : 0 <= r_start (kvirt_area self) /\ r_end (kvirt_area self) < 2 ^ 64;
  io_sizes : 0 <= io_offset self /\ 0 <= io_limit self /\ io_offset self + io_limit self <= r_end (kvirt_area self) - r_start (kvirt_area self);
  io_phys : 0 <= io_pa self /\ io_pa self + io_limit self < 2 ^ 64 }.

(** The window of a transfer has been filled from [src] on, or up to a fault, where the cursor is. *)
Definition io_filled m (src : Z) w (res : unit + Error) w' m' : Prop :=
  exists k, 0 <= k <= wr_len w /\ w' = wr_advance w k /\ res = (if k <? wr_len w then inr PageFault else inl tt) /\
    handled m m' (wr_cursor w) (wr_len w) (wr_len w - k) (fun i => m (src + i)).
Definition io_stored m (dst : Z) r (res : unit + Error) r' m' : Prop :=
  exists k, 0 <= k <= rd_len r /\ r' = rd_advance r k /\ res = (if k <? rd_len r then inr PageFault else inl tt) /\
    handled m m' dst (rd_len r) (rd_len r - k) (fun i => m (rd_cursor r + i)).

Lemma io_check_ok self off len : 0 <= off -> 0 <= len -> io_ok self -> off + io_offset self < 2 ^ 64 ->
  io_check self off (Ret len) = Ret (if io_limit self <? off + io_offset self + len then None else Some (off + io_offset self)).
Proof.
  intros Ho Hl [_ ? _] Hfit. unfold io_check. step uadd_ok by lia.
  destruct (Z.ltb_spec (io_limit self) (off + io_offset self)); [by rewrite (proj2 (Z.ltb_lt _ _)) by lia|]. step usub_ok by lia.
  destruct (Z.ltb_spec (io_limit self - (off + io_offset self)) len), (Z.ltb_spec (io_limit self) (off + io_offset self + len)); done || lia.
Qed.

Lemma io_windows self : io_ok self -> valid_range (io_vaddr self) (io_limit self) /\
  io_reader self = Ret (mk_reader (io_vaddr self) (io_vaddr self + io_limit self)) /\
  io_writer self = Ret (mk_writer (io_vaddr self) (io_vaddr self + io_limit self)).
Proof.
  intros [? ? ?]. assert (Hv : valid_range (io_vaddr self) (io_limit self)) by (unfold valid_range, io_vaddr; lia).
  split; [done|]. unfold io_reader, io_writer. step uadd_ok by lia. fold (io_vaddr self). by rewrite buffer_reader, buffer_writer.
Qed.

Lemma io_read_ok m self off w : io_ok self -> 0 <= off -> off + io_offset self < 2 ^ 64 -> wr_ok w ->
  disjoint_ranges (wr_cursor w) (wr_len w) (io_vaddr self) (io_limit self) ->
  exists res w' m', io_read debug_assertions m self off w = Ret (res, w', m') /\
    if io_limit self <? off + io_offset self + wr_len w then res = inr InvalidArgs /\ w' = w /\ m' = m
    else io_filled m (io_vaddr self + (io_offset self + off)) w res w' m'.
Proof.
  intros Hok Ho Hfit Hw Hd. pose proof Hw as (_ & Hwl & _). destruct (io_windows self Hok) as (Hv & Hrd & _). unfold io_read. rewrite (avail_ok w Hw).
  step io_check_ok by done. destruct (Z.ltb_spec (io_limit self) (off + io_offset self + wr_len w)) as [|Hle]; [by do 3 eexists|].
  pose proof (io_sizes _ Hok). step Hrd. step reader_skip_ok by (done || lia).
  destruct (read_fallible_ok m (mk_reader (io_vaddr self + (off + io_offset self)) (io_vaddr self + io_limit self)) w) as (k & m' & -> & Hk & Hh);
    [windows; lia|done|windows; intros a Ha; specialize (Hd a Ha); lia|].
  unfold rd_len in *. cbn [rd_cursor rd_end] in *. replace (Z.min _ (wr_len w)) with (wr_len w) in * by lia. cbn [mbind outcome_bind].
  rewrite (Z.add_comm off) in Hh. unfold fault_at. destruct (Z.ltb_spec k (wr_len w)) as [Hlt|Hge].
  - do 3 eexists. split; [done|]. exists k. by rewrite (proj2 (Z.ltb_lt _ _)).
  - assert (Hna : debug_assert debug_assertions (b ← has_avail (wr_advance w k); Ret (negb b)) = Ret tt).
    { unfold debug_assert, has_avail, wr_advance, writer_at, avail. cbn [wr_end wr_cursor]. step usub_ok by (windows; lia).
      rewrite (proj2 (Z.ltb_ge _ _)) by (windows; lia). by destruct debug_assertions. }
    step Hna. do 3 eexists. split; [done|]. exists k. by rewrite (proj2 (Z.ltb_ge _ _)).
Qed.

Lemma io_write_ok m self off r : io_ok self -> 0 <= off -> off + io_offset self < 2 ^ 64 -> rd_ok r ->
  disjoint_ranges (rd_cursor r) (rd_len r) (io_vaddr self) (io_limit self) ->
  exists res r' m', io_write debug_assertions m self off r = Ret (res, r', m') /\
    if io_limit self <? off + io_offset self + rd_len r then res = inr InvalidArgs /\ r' = r /\ m' = m
    else io_stored m (io_vaddr self + (io_offset self + off)) r res r' m'.
Proof.
  intros Hok Ho Hfit Hr Hd. pose proof Hr as (_ & Hrl & _). destruct (io_windows self Hok) as (Hv & _ & Hwr). unfold io_write. rewrite (remain_ok r Hr).
  step io_check_ok by done. destruct (Z.ltb_spec (io_limit self) (off + io_offset self + rd_len r)) as [|Hle]; [by do 3 eexists|].
  pose proof (io_sizes _ Hok). step Hwr. step writer_skip_ok by (done || lia). unfold write_fallible.
  destruct (read_fallible_ok m r (mk_writer (io_vaddr self + (off + io_offset self)) (io_vaddr self + io_limit self))) as (k & m' & -> & Hk & Hh);
    [done|windows; lia|windows; intros a Ha Hx; specialize (Hd a Hx); lia|].
  unfold wr_len in *. cbn [wr_cursor wr_end] in *. replace (Z.min (rd_len r) _) with (rd_len r) in * by lia. cbn [mbind outcome_bind].
  rewrite (Z.add_comm off) in Hh. unfold fault_at. destruct (Z.ltb_spec k (rd_len r)) as [Hlt|Hge].
  - do 3 eexists. split; [done|]. exists k. by rewrite (proj2 (Z.ltb_lt _ _)).
  - assert (Hna : debug_assert debug_assertions (b ← has_remain (rd_advance r k); Ret (negb b)) = Ret tt).
    { unfold debug_assert, has_remain, rd_advance, reader_at, remain. cbn [rd_end rd_cursor]. step usub_ok by (windows; lia).
      rewrite (proj2 (Z.ltb_ge _ _)) by (windows; lia). by destruct debug_assertions. }
    step Hna. do 3 eexists. split; [done|]. exists k. by rewrite (proj2 (Z.ltb_ge _ _)).
Qed.

(** A single value is where the offset says. *)
Lemma io_once_ok m self off size align value : io_ok self -> 0 <= off -> 0 <= size -> off <= io_limit self -> Z.of_nat (length value) = size ->
  (io_vaddr self + off) mod align = 0 ->
  io_read_once m self off size align = Ret (if io_limit self <? off + size then inr InvalidArgs else inl (bytes m (io_vaddr self + off) size)) /\
  io_write_once m self off value align =
    Ret (if io_limit self <? off + size then (inr InvalidArgs, m) else (inl tt, put m (io_vaddr self + off) value)).
Proof.
  intros Hok Ho Hs Hle Hval Hal. destruct (io_windows self Hok) as (Hv & Hrd & Hwr). unfold io_read_once, io_write_once, read_once, write_once.
  step Hrd. step Hwr. step reader_skip_ok by (done || lia). step writer_skip_ok by (done || lia). rewrite Hval.
  step (remain_ok (mk_reader (io_vaddr self + off) (io_vaddr self + io_limit self))) by (windows; lia).
  step (avail_ok (mk_writer (io_vaddr self + off) (io_vaddr self + io_limit self))) by (windows; lia).
  unfold rd_len, wr_len. cbn [rd_cursor rd_end wr_cursor wr_end].
  destruct (Z.ltb_spec (io_vaddr self + io_limit self - (io_vaddr self + off)) size), (Z.ltb_spec (io_limit self) (off + size)); try lia; [done|].
  by rewrite Hal.
Qed.

End reach.

(** ** What the memory maps *)

Section view.
Local Existing Instance X86.consts.
Local Existing Instance X86.reqs.
Local Existing Instance KernelPt.KernelPtConfig.
Context (allow_panic debug_assertions : bool) (alloc_frame : pt_store PageTableEntry -> option Z).
Context `{U : !Uncounted} (kv_alloc_fresh : forall st pa, alloc_frame st = Some pa -> valid_frame_paddr pa /\ st !! pa = None).
Context (pool : nat) (kv_alloc_succeeds : forall st, (size st < pool)%nat -> is_Some (alloc_frame st)).
Implicit Types (self : IoMem) (st : pt_store PageTableEntry) (root : Z) (prop : PageProperty).

(** Every byte of the memory is mapped to its physical address. *)
Definition io_view st root prop self : Prop :=
  forall i, 0 <= i < io_limit self -> page_walk debug_assertions st root (io_vaddr self + i) = Ret (Some (io_pa self + i, prop)).

Lemma io_slice_ok st root prop self rg : io_ok self -> io_view st root prop self -> 0 <= r_start rg ->
  (r_end rg <= r_start rg \/ io_limit self < r_end rg -> io_slice self rg = Panic) /\
  (r_start rg < r_end rg <= io_limit self ->
   exists mem, io_slice self rg = Ret mem /\ io_ok mem /\ io_view st root prop mem /\ kvirt_area mem = kvirt_area self /\
     io_pa mem = io_pa self + r_start rg /\ io_limit mem = r_end rg - r_start rg).
Proof.
  intros [? ? ?] Hview H0. unfold io_slice, range_is_empty. rewrite negb_involutive. split.
  - intros Hno. destruct (Z.ltb_spec (r_start rg) (r_end rg)), (Z.leb_spec (r_end rg) (io_limit self)); done || lia.
  - intros Hr. rewrite (proj2 (Z.ltb_lt _ _)), (proj2 (Z.leb_le _ _)) by lia. cbn [andb rassert mbind outcome_bind].
    step uadd_ok by lia. step uadd_ok by lia. eexists. split; [done|]. unfold range_len. rewrite Z.max_r by lia. split_and!; try done.
    + split; cbn; lia.
    + intros i Hi. cbn in Hi |- *. unfold io_vaddr. cbn. specialize (Hview (r_start rg + i)). unfold io_vaddr in Hview.
      replace (r_start (kvirt_area self) + (io_offset self + r_start rg) + i) with (r_start (kvirt_area self) + io_offset self + (r_start rg + i)) by lia.
      rewrite Hview by lia. do 3 f_equal. lia.
Qed.

(** [IoMem::new] maps exactly the pages of the range into a new area, and the memory is the range, byte for byte. *)
Theorem io_mem_new_correct (fuel : nat) ra F st root rg f c :
  let first := nat_align_down (r_start rg) PAGE_SIZE in let size_ := nat_align_up (r_end rg) PAGE_SIZE - first in let prop := mk_prop f c Bitflags.empty in
  kernel_ok ra F st root -> 0 <= r_start rg < r_end rg -> r_end rg <= MAX_PADDR -> (exists x, all_free F (mk_range x (x + size_))) ->
  r_end VMALLOC_VADDR_RANGE + size_ <= KERNEL_HIGH -> no_whole_page size_ -> prop_req (E := PageTableEntry) prop -> contains f PageFlags.AVAIL1 = false ->
  (size st + 3 * Z.to_nat (size_ / PAGE_SIZE) + 7 <= S pool)%nat ->
  exists mem ra' st', io_new allow_panic alloc_frame (S fuel) ra st root rg f c = Ret (mem, ra', st') /\ io_ok mem /\
    io_pa mem = r_start rg /\ io_limit mem = r_end rg - r_start rg /\ io_offset mem = r_start rg mod PAGE_SIZE /\
    new_area F size_ (kvirt_area mem) ra' /\ tree_ok st' root /\ io_view st' root (untracked_prop prop) mem /\
    let area := r_start (kvirt_area mem) in
    updates debug_assertions st st' root (mk_range area (area + size_)) (fun va => Ret (Some (first + (va - area), untracked_prop prop))).
Proof.
  intros first size_ prop Hko Hr Hmax Hroom Hhi Hno Hreq Hav Hsz. assert (valid_align PAGE_SIZE) as Hpv by (by exists 12). assert (uint 64 PAGE_SIZE) as Hpu by done. assert (MAX_PADDR < 2 ^ 63) by done.
  destruct (nat_align_down_spec (r_start rg) PAGE_SIZE) as [Hd Hdm]; [done|]. fold first in Hd, Hdm.
  destruct (nat_align_up_spec (r_end rg) PAGE_SIZE) as [Hu Hum]; [done|]. set (last_ := nat_align_up (r_end rg) PAGE_SIZE) in *.
  assert (0 <= first) by (apply nat_align_down_greatest; done || lia). assert (last_ <= MAX_PADDR) by (apply nat_align_up_least; done || lia).
  assert (Had : align_down 64 (r_start rg) PAGE_SIZE = Ret first) by (by apply align_down_Ret; [lia|split; lia|done|]).
  assert (Hau : align_up 64 (r_end rg) PAGE_SIZE = Ret last_).
  { apply align_up_Ret; [lia|split; lia|done|]. split_and!; [done|unfold PAGE_SIZE; lia|done]. }
  destruct (kvirt_map_untracked_correct allow_panic debug_assertions alloc_frame kv_alloc_fresh pool kv_alloc_succeeds fuel ra F st root size_ 0 (mk_range first last_) prop)
    as (kva & ra' & st' & Hmap & Hna & Ht & Hup); cbn [r_start r_end]; try done; try (unfold size_; lia); try (by apply mod0_sub).
  unfold io_new. step Had. step Hau. cbv zeta. fold prop.
  assert (range_len (mk_range first last_) = size_) as -> by (unfold range_len; cbn; lia). step Hmap. step usub_ok by lia.
  pose proof Hna as (Hlen & Hfree & _). pose proof (ko_free _ _ _ _ Hko) as Hrep. rewrite Z.add_0_r in Hup.
  assert (Hin : forall a, in_range kva a -> in_range VMALLOC_VADDR_RANGE a) by (intros a Ha; by apply (represents_in_full _ _ _ _ Hrep), Hfree).
  pose proof (Hin (r_start kva) ltac:(unfold in_range; lia)) as Hlo. pose proof (Hin (r_end kva - 1) ltac:(unfold in_range; lia)) as Hhi'.
  unfold in_range in Hlo, Hhi'. cbn [r_start r_end VMALLOC_VADDR_RANGE] in Hlo, Hhi'. unfold range_len. rewrite Z.max_r by lia.
  eexists _, ra', st'. split; [reflexivity|]. cbn [io_pa io_limit io_offset kvirt_area]. split_and!; try done.
  - split; cbn [io_pa io_limit io_offset kvirt_area]; [lia|unfold size_ in Hlen; lia|lia].
  - unfold first, nat_align_down. lia.
  - intros i Hi. unfold io_vaddr. cbn [io_limit io_pa io_offset kvirt_area] in Hi |- *. rewrite Hup.
    + rewrite decide_True by (unfold in_range; cbn; unfold size_; lia). cbn [r_start r_end]. do 3 f_equal. lia.
    + lia.
    + unfold same_window, slot. cbn [r_start]. change (page_size (NR_LEVELS + 1)) with (2 ^ 48). unfold size_ in *. Z.to_euclidean_division_equations. lia.
Qed.

(** C29: where the accesses to device memory go.  For device memory whose bytes are mapped to the physical addresses from [io_pa] on, as
    [IoMem::new] and [slice] leave it: [read] and [write] at an offset return and transfer the whole window of the other side, or up to a
    fault there, but from the physical address [io_pa + io_offset + offset] on, and they refuse whatever reaches beyond the limit behind
    [io_offset + offset].  They stay inside of the memory, but miss the addressed byte
    whenever the memory does not start at the start of its area, for example after [slice].  [read_once] and [write_once] access
    [io_pa + offset]. *)
Theorem io_mem_access_correct `{FallibleMem} `{!FallibleMemLaws} m st root prop self off w r size_ align value :
  io_ok self -> io_view st root prop self -> 0 <= off -> off + io_offset self < 2 ^ 64 ->
  wr_ok w -> disjoint_ranges (wr_cursor w) (wr_len w) (io_vaddr self) (io_limit self) ->
  rd_ok r -> disjoint_ranges (rd_cursor r) (rd_len r) (io_vaddr self) (io_limit self) ->
  let shifted := io_vaddr self + (io_offset self + off) in
  (exists res w' m', io_read debug_assertions m self off w = Ret (res, w', m') /\
    if io_limit self <? off + io_offset self + wr_len w then res = inr InvalidArgs /\ w' = w /\ m' = m
    else io_filled m shifted w res w' m' /\
      forall i, 0 <= i < wr_len w -> page_walk debug_assertions st root (shifted + i) = Ret (Some (io_pa self + io_offset self + off + i, prop))) /\
  (exists res r' m', io_write debug_assertions m self off r = Ret (res, r', m') /\
    if io_limit self <? off + io_offset self + rd_len r then res = inr InvalidArgs /\ r' = r /\ m' = m
    else io_stored m shifted r res r' m' /\
      forall i, 0 <= i < rd_len r -> page_walk debug_assertions st root (shifted + i) = Ret (Some (io_pa self + io_offset self + off + i, prop))) /\
  (off <= io_limit self -> 0 <= size_ -> Z.of_nat (length value) = size_ -> (io_vaddr self + off) mod align = 0 ->
   io_read_once m self off size_ align = Ret (if io_limit self <? off + size_ then inr InvalidArgs else inl (bytes m (io_vaddr self + off) size_)) /\
   io_write_once m self off value align =
     Ret (if io_limit self <? off + size_ then (inr InvalidArgs, m) else (inl tt, put m (io_vaddr self + off) value)) /\
   forall i, 0 <= i < size_ -> off + size_ <= io_limit self -> page_walk debug_assertions st root (io_vaddr self + off + i) = Ret (Some (io_pa self + off + i, prop))).
Proof.
  intros Hok Hview Ho Hfit Hw Hdw Hr Hdr shifted. pose proof (io_sizes _ Hok).
  assert (Hph : forall i, 0 <= i -> io_offset self + off + i < io_limit self ->
    page_walk debug_assertions st root (shifted + i) = Ret (Some (io_pa self + io_offset self + off + i, prop))).
  { intros i Hi Hlt. unfold shifted. replace (io_vaddr self + (io_offset self + off) + i) with (io_vaddr self + (io_offset self + off + i)) by lia.
    rewrite Hview by lia. do 3 f_equal. lia. }
  split_and!.
  - destruct (io_read_ok debug_assertions m self off w Hok Ho Hfit Hw Hdw) as (res & w' & m' & Heq & Hres). exists res, w', m'. split; [done|].
    destruct (Z.ltb_spec (io_limit self) (off + io_offset self + wr_len w)); [done|]. split; [done|]. intros i Hi. apply Hph; lia.
  - destruct (io_write_ok debug_assertions m self off r Hok Ho Hfit Hr Hdr) as (res & r' & m' & Heq & Hres). exists res, r', m'. split; [done|].
    destruct (Z.ltb_spec (io_limit self) (off + io_offset self + rd_len r)); [done|]. split; [done|]. intros i Hi. apply Hph; lia.
  - intros Hle Hs Hval Hal. destruct (io_once_ok m self off size_ align value Hok Ho Hs Hle Hval Hal) as [Hro Hwo]. split_and!; try done.
    intros i Hi Hle'. rewrite <- Z.add_assoc. rewrite Hview by lia. do 3 f_equal. lia.
Qed.

End view.

(** ** Who has which addresses *)

Section exclusive.
Context (debug_assertions : bool).
Implicit Types (fulls held : list range) (allocators : list RangeAllocator) (rg full : range) (i j : nat).

(** The allocator with the ranges that are in use: removed by the system, or acquired and not recycled. *)
Inductive io_reach fulls : list RangeAllocator -> list range -> Prop :=
| io_start : io_reach fulls (builder_new fulls) []
| io_removed allocators held rg allocators' : io_reach fulls allocators held -> 0 <= r_start rg < r_end rg ->
    builder_remove debug_assertions allocators rg = Ret allocators' -> io_reach fulls allocators' (rg :: held)
| io_acquired allocators held rg o allocators' : io_reach fulls allocators held -> 0 <= r_start rg < r_end rg ->
    acquire_range debug_assertions allocators rg = Ret (o, allocators') -> io_reach fulls allocators' (option_list o ++ held)
| io_recycled allocators held i rg allocators' : io_reach fulls allocators held -> held !! i = Some rg ->
    io_recycle allocators rg = Ret allocators' -> io_reach fulls allocators' (delete i held).

Definition inside full rg : Prop := r_start full <= r_start rg /\ r_end rg <= r_end full.
Global Instance inside_dec full rg : Decision (inside full rg).
Proof. unfold inside. apply _. Defined.

(** The regions of the machine do not overlap. *)
Record regions_ok fulls : Prop := {
  regions_wf : Forall wf_full fulls;
  regions_apart : forall i j r s x, fulls !! i = Some r -> fulls !! j = Some s -> in_range r x -> in_range s x -> i = j }.

Record io_inv fulls allocators held : Prop := {
  inv_length : length allocators = length fulls;
  inv_region : forall i full a, fulls !! i = Some full -> allocators !! i = Some a -> client_inv full a (base.filter (inside full) held);
  inv_held : forall rg, rg ∈ held -> r_start rg < r_end rg /\ exists full, full ∈ fulls /\ inside full rg }.

Lemma find_allocator_spec allocators rg :
  match find_allocator allocators rg with
  | Some i => exists a, allocators !! i = Some a /\ r_start (fullrange a) < r_end rg /\ r_start rg < r_end (fullrange a)
  | None => forall i a, allocators !! i = Some a -> r_end rg <= r_start (fullrange a) \/ r_end (fullrange a) <= r_start rg
  end.
Proof.
  induction allocators as [|a l IH]; [by intros i a|]. cbn [find_allocator].
  destruct (Z.leb_spec (r_end rg) (r_start (fullrange a))), (Z.leb_spec (r_end (fullrange a)) (r_start rg)); cbn [orb];
    try (exists a; split; [done|lia]).
  all: destruct (find_allocator l rg) as [i|]; [exact IH|intros [|i] b Hb; [injection Hb as <-; lia|by apply (IH i)]].
Qed.

(** Two regions that both meet a range inside of the second are the same. *)
Lemma inside_unique fulls i j r s rg : regions_ok fulls -> fulls !! i = Some r -> fulls !! j = Some s -> r_start rg < r_end rg ->
  r_start r < r_end rg -> r_start rg < r_end r -> inside s rg -> i = j.
Proof.
  intros [Hwf Hap] Hi Hj Hrg H1 H2 [H3 H4]. rewrite Forall_forall in Hwf.
  assert (wf_full r) as Hr by (apply Hwf; by eapply list_elem_of_lookup_2). unfold wf_full in Hr.
  apply (Hap i j r s (Z.max (r_start r) (r_start rg)) Hi Hj); unfold in_range; lia.
Qed.

(** Ranges of a list at different positions that share an address. *)
Definition positions_apart (l : list range) : Prop :=
  forall i j r s x, l !! i = Some r -> l !! j = Some s -> in_range r x -> in_range s x -> i = j.

Lemma filter_positions (P : range -> Prop) `{!forall r, Decision (P r)} l i j r s x : positions_apart (base.filter P l) ->
  l !! i = Some r -> l !! j = Some s -> P r -> P s -> in_range r x -> in_range s x -> i = j.
Proof.
  revert i j. induction l as [|y l IH]; intros i j Hd Hi Hj Hr Hs Hx Hy; [done|]. rewrite filter_cons in Hd.
  assert (Hne : forall k t, l !! k = Some t -> P t -> in_range t x -> P y -> in_range y x -> False).
  { intros k t Hk Ht Htx Hpy Hyx. rewrite decide_True in Hd by done. assert (t ∈ base.filter P l) as [b Hb]%list_elem_of_lookup.
    { apply list_elem_of_filter. split; [done|by eapply list_elem_of_lookup_2]. }
    by specialize (Hd 0%nat (S b) y t x eq_refl Hb Hyx Htx). }
  destruct i as [|i], j as [|j]; cbn in Hi, Hj; simplify_eq; [done|by destruct (Hne j s)|by destruct (Hne i r)|]. f_equal. apply IH; try done.
  destruct (decide (P y)); [|done]. intros a b t u z Ha Hb Hz Hz'. specialize (Hd (S a) (S b) t u z Ha Hb Hz Hz'). lia.
Qed.

(** A range can be had: it is inside of a region and nobody has any of its addresses. *)
Definition obtainable fulls held rg : Prop :=
  (exists full, full ∈ fulls /\ inside full rg) /\ forall s x, s ∈ held -> in_range s x -> ~ in_range rg x.

Section step.
Context (fulls : list range) (allocators : list RangeAllocator) (held : list range).
Context (Hf : regions_ok fulls) (Hinv : io_inv fulls allocators held).

Lemma allocator_at i full : fulls !! i = Some full -> exists a, allocators !! i = Some a /\ fullrange a = full /\ client_inv full a (base.filter (inside full) held).
Proof.
  intros Hi. destruct (lookup_lt_is_Some_2 allocators i) as [a Ha]; [rewrite (inv_length _ _ _ Hinv); by eapply lookup_lt_Some|].
  exists a. pose proof (inv_region _ _ _ Hinv i full a Hi Ha) as Hc. split; [done|]. split; [|done]. by destruct Hc as (F & (? & _) & _).
Qed.

(** The region that [find_allocator] returns is the one with the range inside, if there is one. *)
Lemma find_region rg : r_start rg < r_end rg ->
  match find_allocator allocators rg with
  | Some i => exists full a, fulls !! i = Some full /\ allocators !! i = Some a /\ client_inv full a (base.filter (inside full) held) /\
      forall j s, fulls !! j = Some s -> inside s rg -> i = j /\ s = full
  | None => forall s, s ∈ fulls -> ~ inside s rg
  end.
Proof.
  intros Hrg. pose proof (find_allocator_spec allocators rg) as Hspec. destruct (find_allocator allocators rg) as [i|].
  - destruct Hspec as (a & Ha & H1 & H2). destruct (lookup_lt_is_Some_2 fulls i) as [full Hi]; [rewrite <- (inv_length _ _ _ Hinv); by eapply lookup_lt_Some|].
    destruct (allocator_at i full Hi) as (a' & Ha' & Hfull & Hc). assert (a' = a) as -> by congruence. exists full, a. split_and!; try done.
    intros j s Hj Hin. rewrite Hfull in H1, H2. assert (i = j) as <- by (by apply (inside_unique fulls i j full s rg)). split; congruence.
  - intros s [j Hj]%list_elem_of_lookup [? ?]. destruct (allocator_at j s Hj) as (a & Ha & Hfull & _). specialize (Hspec j a Ha). rewrite Hfull in Hspec.
    pose proof (regions_wf _ Hf) as Hwf. rewrite Forall_forall in Hwf. lia.
Qed.

(** Replacing the allocator of one region. *)
Lemma io_inv_update i full a' held' : fulls !! i = Some full -> client_inv full a' (base.filter (inside full) held') ->
  (forall j s, fulls !! j = Some s -> j <> i -> base.filter (inside s) held' = base.filter (inside s) held) ->
  (forall rg, rg ∈ held' -> r_start rg < r_end rg /\ exists full, full ∈ fulls /\ inside full rg) -> io_inv fulls (<[i := a']> allocators) held'.
Proof.
  intros Hi Hc Hother Hheld. split; [rewrite length_insert; apply (inv_length _ _ _ Hinv)| |done]. intros j s a Hj Ha.
  destruct (decide (j = i)) as [->|Hne].
  - rewrite list_lookup_insert_eq in Ha by (rewrite (inv_length _ _ _ Hinv); by eapply lookup_lt_Some). injection Ha as <-. assert (s = full) as -> by congruence. done.
  - rewrite list_lookup_insert_ne in Ha by done. rewrite (Hother j s Hj Hne). by apply (inv_region _ _ _ Hinv j).
Qed.

(** The addresses of a region that are free are those that nobody has. *)
Lemma region_free i full F rg : fulls !! i = Some full -> (forall a, F a -> in_range full a) -> partitioned full F (base.filter (inside full) held) ->
  r_start rg < r_end rg -> all_free F rg <-> inside full rg /\ forall s x, s ∈ held -> in_range s x -> ~ in_range rg x.
Proof.
  intros Hi HF (_ & _ & Hcov & Hnf) Hrg. split.
  - intros Hall. split.
    + pose proof (HF _ (Hall (r_start rg) ltac:(unfold in_range; lia))) as H1. pose proof (HF _ (Hall (r_end rg - 1) ltac:(unfold in_range; lia))) as H2.
      unfold in_range, inside in *. lia.
    + intros s x Hs Hx Hx'. specialize (Hall x Hx'). destruct (inv_held _ _ _ Hinv s Hs) as (_ & full' & [j Hj]%list_elem_of_lookup & Hin).
      assert (i = j) as <-; [|assert (full' = full) as -> by congruence; apply (Hnf s x); [by apply list_elem_of_filter|done|done]].
      apply (regions_apart _ Hf i j full full' x Hi Hj); [by apply HF|]. unfold in_range, inside in *. lia.
  - intros [Hin Hdis] x Hx. destruct (Hcov x) as [|(s & [_ Hs]%list_elem_of_filter & Hsx)]; [unfold in_range, inside in *; lia|done|].
    by destruct (Hdis s x Hs Hsx).
Qed.

Lemma specific_ok i full a rg : fulls !! i = Some full -> allocators !! i = Some a -> 0 <= r_start rg < r_end rg ->
  (forall j s, fulls !! j = Some s -> inside s rg -> i = j /\ s = full) ->
  exists ok a', RangeAlloc.alloc_specific debug_assertions a rg = Ret (ok, a') /\ (ok = true <-> obtainable fulls held rg) /\
    io_inv fulls (<[i := a']> allocators) ((if ok then [rg] else []) ++ held).
Proof.
  intros Hi Ha Hrg Huniq. pose proof (inv_region _ _ _ Hinv i full a Hi Ha) as Hc. pose proof Hc as (F & Hrep & Hpart & _).
  destruct (range_alloc_specific_refines debug_assertions a full F rg Hrep Hrg) as (ok & a' & Hal & Hok & _). exists ok, a'. split; [done|].
  rewrite (region_free i full F rg Hi (fun x => represents_in_full a full F x Hrep) Hpart ltac:(lia)) in Hok.
  assert (Hobt : ok = true <-> obtainable fulls held rg).
  { rewrite Hok. unfold obtainable. split; [intros [? ?]; split; [exists full; split; [by eapply list_elem_of_lookup_2|done]|done]|].
    intros [(s & [j Hj]%list_elem_of_lookup & Hin) Hd]. destruct (Huniq j s Hj Hin) as [_ ->]. done. }
  split; [done|]. destruct (client_step_inv debug_assertions full a _ (CAllocSpecific rg) Hc Hrg) as (a2 & held2 & Hst & Hc2).
  cbn [client_step] in Hst. rewrite Hal in Hst. cbn [mbind outcome_bind mret outcome_ret] in Hst. injection Hst as <- <-. apply (io_inv_update i full a'); try done.
  - rewrite filter_app. destruct ok; [|done]. rewrite filter_cons, decide_True by (by apply Hok). done.
  - intros j s Hj Hne. rewrite filter_app. destruct ok; [|done]. rewrite filter_cons, decide_False; [done|]. intros Hin. by destruct (Huniq j s Hj Hin).
  - intros r [Hr|Hr]%elem_of_app; [|by apply (inv_held _ _ _ Hinv)]. destruct ok; [|by apply not_elem_of_nil in Hr].
    apply list_elem_of_singleton in Hr as ->. split; [lia|]. by apply Hobt.
Qed.

Lemma acquire_ok rg : 0 <= r_start rg < r_end rg ->
  exists o allocators', acquire_range debug_assertions allocators rg = Ret (o, allocators') /\ (o = Some rg \/ o = None) /\
    (o = Some rg <-> obtainable fulls held rg) /\ io_inv fulls allocators' (option_list o ++ held) /\
    builder_remove debug_assertions allocators rg = match o with Some _ => Ret allocators' | None => Panic end.
Proof.
  intros Hrg. pose proof (find_region rg ltac:(lia)) as Hfind. unfold acquire_range, builder_remove. destruct (find_allocator allocators rg) as [i|].
  - destruct Hfind as (full & a & Hi & Ha & _ & Huniq). rewrite Ha. cbn [unwrap mbind outcome_bind].
    destruct (specific_ok i full a rg Hi Ha Hrg Huniq) as (ok & a' & Hal & Hok & Hinv'). rewrite Hal. cbn [mbind outcome_bind].
    eexists _, _. split; [done|]. destruct ok; cbn in Hinv' |- *; (split; [auto|]); (split; [split; [intros ?; by apply Hok|by intros ?%Hok]|done]).
  - exists None, allocators. split_and!; try done; [by right|]. split; [done|]. intros [(s & Hs & Hin) _]. by destruct (Hfind s Hs).
Qed.

Lemma recycle_ok k rg : held !! k = Some rg -> exists allocators', io_recycle allocators rg = Ret allocators' /\ io_inv fulls allocators' (delete k held).
Proof.
  intros Hk. destruct (inv_held _ _ _ Hinv rg) as (Hrg & s & Hs & Hin); [by eapply list_elem_of_lookup_2|].
  pose proof (find_region rg Hrg) as Hfind. unfold io_recycle. destruct (find_allocator allocators rg) as [i|]; [|by destruct (Hfind s Hs)].
  destruct Hfind as (full & a & Hi & Ha & Hc & Huniq). apply list_elem_of_lookup in Hs as [j Hj]. destruct (Huniq j s Hj Hin) as [<- ->].
  cbn [unwrap mbind outcome_bind]. rewrite Ha. cbn [unwrap mbind outcome_bind].
  pose proof (take_drop_middle held k rg Hk) as Hsplit. set (l1 := take k held) in *. set (l2 := drop (S k) held) in *.
  assert (Hdel : delete k held = l1 ++ l2) by apply delete_take_drop.
  assert (Hfil : base.filter (inside full) held = base.filter (inside full) l1 ++ rg :: base.filter (inside full) l2).
  { rewrite <- Hsplit, filter_app, filter_cons, decide_True by done. done. }
  rewrite Hfil in Hc. set (n := length (base.filter (inside full) l1)).
  destruct (client_step_inv debug_assertions full a _ (CFree n) Hc) as (a' & held2 & Hst & Hc2); [cbn; rewrite length_app; cbn; lia|].
  cbn [client_step] in Hst. rewrite list_lookup_middle in Hst by done. cbn [unwrap mbind outcome_bind] in Hst.
  destruct (RangeAlloc.free a rg) as [a2|] eqn:Hfree; [|done]. cbn [mbind outcome_bind mret outcome_ret] in Hst |- *. injection Hst as -> <-. eexists. split; [done|].
  rewrite Hdel. apply (io_inv_update i full a'); try done.
  - rewrite filter_app. subst n. rewrite delete_middle in Hc2. done.
  - intros j' s' Hj' Hne. rewrite <- Hsplit, !filter_app, filter_cons, decide_False; [done|]. intros Hin'. by destruct (Huniq j' s' Hj' Hin').
  - intros r Hr. apply (inv_held _ _ _ Hinv). rewrite <- Hsplit. apply elem_of_app in Hr as [?|?]; apply elem_of_app; [by left|right; by right].
Qed.

End step.

Lemma io_reach_inv fulls allocators held : regions_ok fulls -> io_reach fulls allocators held -> io_inv fulls allocators held.
Proof.
  intros Hf. induction 1 as [|al held rg al' _ IH Hrg Hrm|al held rg o al' _ IH Hrg Hac|al held k rg al' _ IH Hk Hre].
  - split; [apply length_fmap| |by intros rg ?%not_elem_of_nil]. intros i full a Hi Ha. unfold builder_new in Ha. rewrite list_lookup_fmap, Hi in Ha. injection Ha as <-.
    apply (range_reachable_inv debug_assertions); [|constructor]. pose proof (regions_wf _ Hf) as Hwf. rewrite Forall_forall in Hwf. apply Hwf. by eapply list_elem_of_lookup_2.
  - destruct (acquire_ok fulls al held Hf IH rg Hrg) as (o & al2 & _ & Ho & _ & Hinv & Hrm'). rewrite Hrm in Hrm'. destruct Ho as [->| ->]; [|done]. injection Hrm' as ->. done.
  - destruct (acquire_ok fulls al held Hf IH rg Hrg) as (o2 & al2 & Hac2 & _ & _ & Hinv & _). rewrite Hac in Hac2. injection Hac2 as -> ->. done.
  - destruct (recycle_ok fulls al held Hf IH k rg Hk) as (al2 & Hre2 & Hinv). rewrite Hre in Hre2. injection Hre2 as ->. done.
Qed.

(** C28: no two users share device memory.  After any history in which the system removes ranges from the reported regions and drivers acquire
    and recycle ranges, the ranges in use are pairwise disjoint and each lies in one region.  [acquire] of a nonempty range returns,
    and gets the range exactly if it is inside of one region and overlaps no range in use; [remove] succeeds in the same
    cases and panics otherwise; recycling a range in use returns. *)
Theorem io_mem_exclusive fulls allocators held rg : regions_ok fulls -> io_reach fulls allocators held -> 0 <= r_start rg < r_end rg ->
  (forall i j r s x, held !! i = Some r -> held !! j = Some s -> in_range r x -> in_range s x -> i = j) /\
  (forall r, r ∈ held -> exists full, full ∈ fulls /\ inside full r) /\
  (exists o allocators', acquire_range debug_assertions allocators rg = Ret (o, allocators') /\ (o = Some rg \/ o = None) /\
     (o = Some rg <-> obtainable fulls held rg) /\
     builder_remove debug_assertions allocators rg = match o with Some _ => Ret allocators' | None => Panic end) /\
  (forall k r, held !! k = Some r -> exists allocators', io_recycle allocators r = Ret allocators').
Proof.
  intros Hf Hr Hrg. pose proof (io_reach_inv fulls allocators held Hf Hr) as Hinv. split_and!.
  - intros i j r s x Hi Hj Hx Hy. destruct (inv_held _ _ _ Hinv r) as (_ & full & [a Ha]%list_elem_of_lookup & Hin); [by eapply list_elem_of_lookup_2|].
    destruct (inv_held _ _ _ Hinv s) as (_ & full' & [b Hb]%list_elem_of_lookup & Hin'); [by eapply list_elem_of_lookup_2|].
    assert (a = b) as <- by (apply (regions_apart _ Hf a b full full' x); try done; unfold in_range, inside in *; lia).
    assert (full' = full) as -> by congruence. destruct (allocator_at fulls allocators held Hinv a full Ha) as (al & _ & _ & F & _ & (_ & Hd & _) & _).
    by apply (filter_positions (inside full) held i j r s x).
  - intros r Hin. by apply (inv_held _ _ _ Hinv).
  - destruct (acquire_ok fulls allocators held Hf Hinv rg Hrg) as (o & al' & ? & ? & ? & _ & ?). by exists o, al'.
  - intros k r Hk. destruct (recycle_ok fulls allocators held Hf Hinv k r Hk) as (al' & ? & _). eauto.
Qed.

End exclusive.

(** ** Examples *)

Module IoExample.
Local Existing Instance X86.consts.
Local Existing Instance X86.reqs.
Local Existing Instance KernelPt.KernelPtConfig.
Local Existing Instance all_counted.
Local Existing Instance riscv_mem.
Local Existing Instance riscv_mem_laws.
Import KVirtExample.

Definition io_regions : list range := [mk_range 0x40000000 0x42000000; mk_range 0x50000000 0x50010000].

Lemma io_regions_ok : regions_ok io_regions.
Proof.
  split; [repeat constructor; cbn; lia|]. intros [|[|i]] [|[|j]] r s x Hr Hs; cbn in Hr, Hs; simplify_eq; unfold in_range; cbn; intros; done || lia.
Qed.

(** The system has removed a page, and a driver has acquired the next one. *)
Definition system_page : range := mk_range 0x40000000 0x40001000.
Definition driver_page : range := mk_range 0x40001000 0x40002000.
Definition io_used : list RangeAllocator :=
  match (al ← builder_remove true (builder_new io_regions) system_page; acquire_range true al driver_page) with Ret (_, al) => al | Panic => [] end.

Lemma io_used_reached : io_reach true io_regions io_used [driver_page; system_page].
Proof.
  unfold io_used. assert (exists al, builder_remove true (builder_new io_regions) system_page = Ret al /\
    exists al', acquire_range true al driver_page = Ret (Some driver_page, al')) as (al & Hrm & al' & Hac).
  { eexists. split; [vm_compute; reflexivity|]. eexists. vm_compute. reflexivity. }
  rewrite Hrm. cbn [mbind outcome_bind]. rewrite Hac. apply (io_acquired true _ al [system_page] driver_page (Some driver_page) al'); [|cbn; lia|exact Hac].
  eapply io_removed; [constructor|cbn; lia|exact Hrm].
Qed.

Lemma io_mem_exclusive_witness :
  (exists o al, acquire_range true io_used (mk_range 0x40001800 0x40003000) = Ret (o, al) /\ (o = Some (mk_range 0x40001800 0x40003000) <-> obtainable io_regions [driver_page; system_page] (mk_range 0x40001800 0x40003000))) /\
  exists al, io_recycle io_used driver_page = Ret al.
Proof.
  destruct (io_mem_exclusive true io_regions io_used [driver_page; system_page] (mk_range 0x40001800 0x40003000) io_regions_ok io_used_reached ltac:(cbn; lia))
    as (_ & _ & (o & al & Hac & _ & Hob & _) & Hre).
  split; [exists o, al; split; [exact Hac|exact Hob]|]. exact (Hre 0%nat driver_page eq_refl).
Defined.

(** An empty range in the middle of a region: with debug assertions [acquire] panics, although the documentation says [None]. *)
Example acquire_empty_panics : acquire_range true (builder_new io_regions) (mk_range 0x41000000 0x41000000) = Panic.
Proof. vm_compute. reflexivity. Qed.

(** Without them a reversed range is handed out, and the same addresses can be acquired twice afterwards. *)
Example acquire_reversed_corrupts :
  match acquire_range false (builder_new io_regions) (mk_range 0x41001000 0x41000000) with
  | Ret (Some _, al1) =>
      match acquire_range false al1 (mk_range 0x41000000 0x41000800) with
      | Ret (Some _, al2) => match acquire_range false al2 (mk_range 0x41000000 0x41000800) with Ret (Some _, _) => True | _ => False end
      | _ => False
      end
  | _ => False
  end.
Proof. vm_compute. exact I. Qed.

(** Device registers from the middle of a page on: 6 KiB from [0x300800] on. *)
Definition registers : range := mk_range 0x300800 0x302000.
Definition io_prop : PageProperty := mk_prop PageFlags.RW Uncacheable Bitflags.empty.

Lemma registers_mapped : exists mem ra' st',
  io_new true alloc 1 areas free_table 0x1000 registers PageFlags.RW Uncacheable = Ret (mem, ra', st') /\ io_ok mem /\ io_pa mem = 0x300800 /\
  io_limit mem = 0x1800 /\ io_offset mem = 0x800 /\ in_range VMALLOC_VADDR_RANGE (r_start (kvirt_area mem)) /\ io_view true st' 0x1000 (untracked_prop io_prop) mem.
Proof.
  destruct (io_mem_new_correct true true alloc kv_alloc_fresh 20 kv_alloc_succeeds 0 areas fresh free_table 0x1000 registers PageFlags.RW Uncacheable)
    as (mem & ra' & st' & Hnew & Hok & Hpa & Hli & Hof & Hna & _ & Hview & _).
  - exact areas_ok.
  - cbn. lia.
  - vm_compute. congruence.
  - apply fresh_room. vm_compute. split; congruence.
  - vm_compute. congruence.
  - intros lv [? Hlv]. change HIGHEST_TRANSLATION_LEVEL with 2 in Hlv. assert (lv = 2) as -> by lia. vm_compute. congruence.
  - split; [split; reflexivity|split; reflexivity].
  - reflexivity.
  - vm_compute. lia.
  - assert (nat_align_up (r_end registers) PAGE_SIZE - nat_align_down (r_start registers) PAGE_SIZE = 0x2000) as Hsz by (vm_compute; reflexivity).
    rewrite Hsz in Hna. destruct Hna as (Hlen & Hfree & _). assert (0x300800 mod PAGE_SIZE = 0x800) as Hm by reflexivity.
    exists mem, ra', st'. split; [exact Hnew|]. split; [exact Hok|]. split; [exact Hpa|]. split; [exact Hli|]. split; [by rewrite Hof|].
    split; [|exact Hview]. apply Hfree. split; lia.
Qed.

(** Reading sixteen bytes at the offset 0 gets those at the physical address [0x301000]. *)
Lemma io_mem_access_correct_witness : exists mem st', io_pa mem = 0x300800 /\ io_limit mem = 0x1800 /\
  forall m, exists res w' m', io_read true m mem 0 (mk_writer 0x10000 0x10010) = Ret (res, w', m') /\
    (forall i, 0 <= i < 16 -> page_walk true st' 0x1000 (io_vaddr mem + (io_offset mem + 0) + i) = Ret (Some (0x301000 + i, untracked_prop io_prop))).
Proof.
  destruct registers_mapped as (mem & ra' & st' & _ & Hok & Hpa & Hli & Hof & Hva & Hview). exists mem, st'. split; [exact Hpa|]. split; [exact Hli|]. intros m.
  unfold in_range in Hva. cbn [r_start r_end VMALLOC_VADDR_RANGE] in Hva.
  assert (disjoint_ranges 0x10000 16 (io_vaddr mem) (io_limit mem)) as Hd.
  { intros a. unfold within, io_vaddr. rewrite Hli, Hof. lia. }
  destruct (io_mem_access_correct true m st' 0x1000 (untracked_prop io_prop) mem 0 (mk_writer 0x10000 0x10010) (mk_reader 0x10000 0x10010) 0 1 []
    Hok Hview ltac:(lia) ltac:(lia) ltac:(windows; lia) Hd ltac:(windows; lia) Hd) as [(res & w' & m' & Hr & Hres) _].
  exists res, w', m'. split; [exact Hr|]. rewrite Hli, Hof in Hres. unfold wr_len in Hres. cbn [wr_cursor wr_end] in Hres.
  replace (0x1800 <? 0 + 0x800 + (0x10010 - 0x10000)) with false in Hres by reflexivity. destruct Hres as [_ Hph]. intros i Hi.
  rewrite Hof, Hph by lia. rewrite Hpa. reflexivity.
Defined.

End IoExample.
