(* ===== verification/Tlb.v ===== *)
(** * [ostd/src/mm/tlb.rs]: TLB flushes

    A [TlbFlusher] collects flush requests in a stack of bounded size
    ([OpsStack]), hands them to the queues of the other CPUs that use the address
    space, and waits until they are acknowledged.  The stack is compiled code;
    [dispatch_tlb_flush], [sync_tlb_flush], [do_remote_flush] and the flushes
    themselves have no compiled bodies and follow those in their comments.

    Performing a flush is recorded: a CPU has the list of the operations that it
    performed.  [covers] says which addresses an operation flushes. *)

From S2P Require Import Prelude Paging CpuSet.
Open Scope Z_scope.

Inductive TlbFlushOp := All | Address (va : Z) | FlushRange (r : range).

Global Instance TlbFlushOp_eq_dec : EqDecision TlbFlushOp.
Proof. solve_decision. Defined.

Definition FLUSH_ALL_RANGE_THRESHOLD : Z := 32 * PAGE_SIZE.
Definition FLUSH_ALL_OPS_THRESHOLD : nat := 32.

Definition optimize_for_large_range (self : TlbFlushOp) : TlbFlushOp :=
  match self with
  | FlushRange r => if FLUSH_ALL_RANGE_THRESHOLD <? range_len r then All else FlushRange r
  | _ => self
  end.

Record OpsStack := mk_ops { ops : list (option TlbFlushOp); need_flush_all : bool; osize : nat }.

Definition ops_new : OpsStack := mk_ops (replicate FLUSH_ALL_OPS_THRESHOLD None) false 0.

Definition ops_is_empty (self : OpsStack) : bool := negb (need_flush_all self) && (osize self =? 0)%nat.

Definition push (self : OpsStack) (op : TlbFlushOp) : outcome OpsStack :=
  if need_flush_all self then Ret self
  else
    let op := optimize_for_large_range op in
    if bool_decide (op = All) || (FLUSH_ALL_OPS_THRESHOLD <=? osize self)%nat then Ret (mk_ops (ops self) true 0)
    else
      l ← arr_set (ops self) (osize self) (Some op);
      Ret (mk_ops l (need_flush_all self) (osize self + 1)).

(** The loop of [push_from]. *)
Fixpoint push_from_loop (self : OpsStack) (other : list (option TlbFlushOp)) (idxs : list nat) : outcome OpsStack :=
  match idxs with
  | [] => Ret self
  | i :: idxs' =>
      o ← arr_get other i;
      l ← arr_set (ops self) (osize self) o;
      push_from_loop (mk_ops l (need_flush_all self) (osize self + 1)) other idxs'
  end.

Definition push_from (self other : OpsStack) : outcome OpsStack :=
  if need_flush_all self then Ret self
  else if need_flush_all other || (FLUSH_ALL_OPS_THRESHOLD <=? osize self + osize other)%nat
  then Ret (mk_ops (ops self) true 0)
  else push_from_loop self (ops other) (seq 0 (osize other)).

Definition clear_without_flush (self : OpsStack) : OpsStack := mk_ops (ops self) false 0.

(** The loop of [flush_all]: the operations that are performed. *)
Fixpoint flush_loop (l : list (option TlbFlushOp)) (idxs : list nat) : outcome (list TlbFlushOp) :=
  match idxs with
  | [] => Ret []
  | i :: idxs' =>
      o ← arr_get l i;
      done ← flush_loop l idxs';
      Ret (match o with Some op => op :: done | None => done end)
  end.

Definition flush_all (self : OpsStack) : outcome (list TlbFlushOp * OpsStack) :=
  done ← (if need_flush_all self then Ret [All] else flush_loop (ops self) (seq 0 (osize self)));
  Ret (done, clear_without_flush self).

(** ** What the stack stands for *)

(** [invlpg] flushes the page of its address; a range is flushed by the addresses in steps of the page size. *)
Definition covers (op : TlbFlushOp) (va : Z) : bool :=
  match op with
  | All => true
  | Address a => va / PAGE_SIZE =? a / PAGE_SIZE
  | FlushRange r => let x := va / PAGE_SIZE * PAGE_SIZE + r_start r mod PAGE_SIZE in (r_start r <=? x) && (x <? r_end r)
  end.

Definition covered (l : list TlbFlushOp) (va : Z) : bool := existsb (fun op => covers op va) l.

(** The requests that the stack holds. *)
Definition requests (s : OpsStack) : list TlbFlushOp :=
  if need_flush_all s then [All] else omap id (take (osize s) (ops s)).

Definition ops_inv (s : OpsStack) : Prop :=
  length (ops s) = FLUSH_ALL_OPS_THRESHOLD /\ (osize s <= FLUSH_ALL_OPS_THRESHOLD)%nat /\ (need_flush_all s = true -> osize s = 0%nat).

Lemma covered_app l l' va : covered (l ++ l') va = covered l va || covered l' va.
Proof. apply existsb_app. Qed.

Lemma optimize_same op : optimize_for_large_range op <> All -> optimize_for_large_range op = op.
Proof. destruct op as [| |r]; cbn [optimize_for_large_range]; try done. by destruct (_ <? _). Qed.

Lemma ops_new_ok : ops_inv ops_new /\ requests ops_new = [].
Proof. split; [|done]. unfold ops_inv. cbn. split_and!; [done|lia|done]. Qed.

Lemma flush_everything s : ops_inv s -> ops_inv (mk_ops (ops s) true 0).
Proof. intros (? & _ & _). unfold ops_inv. cbn. split_and!; [done|lia|done]. Qed.

(** The stack has taken the requests [new], or it flushes everything. *)
Definition grown (s s' : OpsStack) (new : list TlbFlushOp) : Prop :=
  ops_inv s' /\ (need_flush_all s' = true \/ (need_flush_all s = false /\ need_flush_all s' = false /\ requests s' = requests s ++ new)).

Lemma grown_covers s s' new va : grown s s' new -> covered (requests s) va || covered new va = true -> covered (requests s') va = true.
Proof. intros [_ [Hn|(_ & _ & ->)]] Hva; [unfold requests; by rewrite Hn|]. by rewrite covered_app. Qed.

(** Writing behind the last request. *)
Lemma ops_append s o : ops_inv s -> need_flush_all s = false -> (osize s < FLUSH_ALL_OPS_THRESHOLD)%nat ->
  exists l, arr_set (ops s) (osize s) o = Ret l /\ ops_inv (mk_ops l false (osize s + 1)) /\
    requests (mk_ops l false (osize s + 1)) = requests s ++ option_list o.
Proof.
  intros (Hl & _ & _) Hn Hs. exists (<[osize s := o]> (ops s)). split; [apply arr_set_Ret; lia|]. split.
  - unfold ops_inv. cbn. rewrite length_insert. split_and!; [done|unfold FLUSH_ALL_OPS_THRESHOLD in *; lia|done].
  - unfold requests. rewrite Hn. cbn [need_flush_all osize ops].
    rewrite Nat.add_1_r, (take_S_r _ _ o) by (apply list_lookup_insert_eq; lia).
    rewrite take_insert_ge by lia. rewrite omap_app. by destruct o.
Qed.

Lemma ops_push_ok s op : ops_inv s -> exists s', push s op = Ret s' /\ grown s s' [op].
Proof.
  intros Hs. unfold push. destruct (need_flush_all s) eqn:Hn; [exists s; split; [done|split; [done|by left]]|].
  destruct (bool_decide_reflect (optimize_for_large_range op = All)) as [|Hop]; cbn [orb].
  { eexists. split; [done|]. split; [by apply flush_everything|by left]. }
  destruct (Nat.leb_spec FLUSH_ALL_OPS_THRESHOLD (osize s)) as [|Hlt].
  { eexists. split; [done|]. split; [by apply flush_everything|by left]. }
  destruct (ops_append s (Some (optimize_for_large_range op)) Hs Hn Hlt) as (l & -> & Hi & Hr). cbn [mbind outcome_bind].
  eexists. split; [done|]. split; [done|]. right. split_and!; try done. rewrite Hr. cbn. by rewrite optimize_same.
Qed.

Lemma push_from_loop_ok s o (n k : nat) : ops_inv s -> need_flush_all s = false -> (k + n <= length o)%nat ->
  (osize s + n <= FLUSH_ALL_OPS_THRESHOLD)%nat ->
  exists s', push_from_loop s o (seq k n) = Ret s' /\ ops_inv s' /\ need_flush_all s' = false /\
    requests s' = requests s ++ omap id (take n (drop k o)).
Proof.
  revert s k. induction n as [|n IH]; intros s k Hs Hn Hk Hsz; cbn [push_from_loop seq].
  { exists s. rewrite take_0. cbn. by rewrite app_nil_r. }
  destruct (lookup_lt_is_Some_2 o k) as [x Hx]; [lia|]. rewrite (proj2 (arr_get_Ret _ _ _) Hx). cbn [mbind outcome_bind].
  destruct (ops_append s x Hs Hn) as (l & -> & Hi & Hr); [lia|]. cbn [mbind outcome_bind]. rewrite Hn.
  destruct (IH (mk_ops l false (osize s + 1)) (S k)) as (s' & Hp & Hi' & Hn' & Hr'); try done; [lia|cbn; lia|].
  exists s'. split_and!; try done. rewrite Hr', Hr, <- app_assoc. f_equal. rewrite (drop_S o x k Hx). cbn. by destruct x.
Qed.

Lemma push_from_ok s o : ops_inv s -> ops_inv o -> exists s', push_from s o = Ret s' /\ grown s s' (requests o).
Proof.
  intros Hs (Hlo & Hso & _). unfold push_from. destruct (need_flush_all s) eqn:Hn; [exists s; split; [done|split; [done|by left]]|].
  destruct (need_flush_all o || _) eqn:Hall.
  { eexists. split; [done|]. split; [by apply flush_everything|by left]. }
  apply orb_false_iff in Hall as [Hno Hlt%Nat.leb_gt].
  destruct (push_from_loop_ok s (ops o) (osize o) 0 Hs Hn) as (s' & -> & Hi & Hn' & Hr); [lia|lia|].
  exists s'. split; [done|]. split; [done|]. right. split_and!; try done. rewrite Hr. unfold requests at 3. by rewrite Hno, drop_0.
Qed.

Lemma flush_loop_ok l (n k : nat) : (k + n <= length l)%nat -> flush_loop l (seq k n) = Ret (omap id (take n (drop k l))).
Proof.
  revert k. induction n as [|n IH]; intros k Hk; cbn [flush_loop seq]; [done|].
  destruct (lookup_lt_is_Some_2 l k) as [x Hx]; [lia|]. rewrite (proj2 (arr_get_Ret _ _ _) Hx). cbn [mbind outcome_bind].
  rewrite IH by lia. cbn [mbind outcome_bind]. rewrite (drop_S l x k Hx). cbn. by destruct x.
Qed.

Lemma flush_all_ok s : ops_inv s -> flush_all s = Ret (requests s, clear_without_flush s) /\
  ops_inv (clear_without_flush s) /\ requests (clear_without_flush s) = [].
Proof.
  intros (Hl & Hsz & _). split; [|split; [|done]].
  - unfold flush_all, requests. destruct (need_flush_all s); [done|]. rewrite flush_loop_ok by lia. cbn. by rewrite drop_0.
  - unfold ops_inv. cbn. split_and!; [done|lia|done].
Qed.

Lemma omap_shorter {A B} (f : A -> option B) (l : list A) : (length (omap f l) <= length l)%nat.
Proof. induction l as [|x l IH]; cbn; [lia|]. destruct (f x); cbn; lia. Qed.

Lemma requests_length s : ops_inv s -> (length (requests s) <= FLUSH_ALL_OPS_THRESHOLD)%nat.
Proof.
  intros (_ & Hs & _). unfold requests. destruct (need_flush_all s); [cbn; unfold FLUSH_ALL_OPS_THRESHOLD; lia|].
  etransitivity; [apply omap_shorter|]. rewrite length_take. lia.
Qed.

Lemma pushes_ok l s : ops_inv s -> exists s', foldl (fun acc op => s ← acc; push s op) (Ret s) l = Ret s' /\ grown s s' l.
Proof.
  revert s. induction l as [|op l IH]; intros s Hs; cbn [foldl].
  { exists s. split; [done|]. split; [done|]. destruct (need_flush_all s); [by left|right]. by rewrite app_nil_r. }
  destruct (ops_push_ok s op Hs) as (s1 & Hp & Hg1). cbn [mbind outcome_bind]. rewrite Hp. destruct (IH s1 (proj1 Hg1)) as (s' & Hf & Hs' & Hg).
  exists s'. split; [done|]. split; [done|]. destruct Hg as [|(Hn1 & Hn' & Hr')]; [by left|right].
  destruct Hg1 as [_ [|(Hn & _ & Hr)]]; [congruence|]. split_and!; try done. rewrite Hr', Hr. by rewrite <- app_assoc.
Qed.

(** The bounded stack loses no flush request.  Whatever requests are pushed onto an empty stack, none of them is
    written outside of the array, at most as many flushes as the array has places are performed, and together they flush every
    address of the requests; unless everything is flushed, they are exactly the requests. *)
Theorem ops_stack_flushes_requests (l : list TlbFlushOp) :
  exists s done, foldl (fun acc op => s ← acc; push s op) (Ret ops_new) l = Ret s /\
    flush_all s = Ret (done, clear_without_flush s) /\ requests (clear_without_flush s) = [] /\
    (length done <= FLUSH_ALL_OPS_THRESHOLD)%nat /\ (forall va, covered l va = true -> covered done va = true) /\
    (done = [All] \/ done = l).
Proof.
  destruct (pushes_ok l ops_new (proj1 ops_new_ok)) as (s & Hf & Hg). pose proof Hg as [Hs Hr].
  destruct (flush_all_ok s Hs) as (Hfl & _ & Hc). exists s, (requests s). split_and!; try done.
  - by apply requests_length.
  - intros va Hva. apply (grown_covers ops_new s l va Hg). by rewrite Hva, orb_true_r.
  - destruct Hr as [Hr|(_ & _ & ->)]; [left; unfold requests; by rewrite Hr|by right].
Qed.

(** ** Flushing on several CPUs *)

(** The CPU-local variables [FLUSH_OPS] and [ACK_REMOTE_FLUSH], the queue that a running [do_remote_flush] has taken,
    and the flushes that the CPU has performed. *)
Record cpu_tlb := mk_cpu {
  FLUSH_OPS : OpsStack;
  ACK_REMOTE_FLUSH : bool;
  new_op_queue : option OpsStack;
  performed : list TlbFlushOp;
}.
Notation tlb_state := (list cpu_tlb).

Definition update_cpu (sys : tlb_state) (cpu : nat) (f : cpu_tlb -> outcome cpu_tlb) : outcome tlb_state :=
  c ← arr_get sys cpu; c' ← f c; arr_set sys cpu c'.

(** A request to a remote CPU, under the lock of its queue. *)
Definition request (stack : OpsStack) (c : cpu_tlb) : outcome cpu_tlb :=
  q ← push_from (FLUSH_OPS c) stack; Ret (mk_cpu q false (new_op_queue c) (performed c)).

(** [do_remote_flush], up to the release of the lock and behind it. *)
Definition take_queue (c : cpu_tlb) : cpu_tlb := mk_cpu ops_new true (Some (FLUSH_OPS c)) (performed c).
Definition flush_queue (c : cpu_tlb) : outcome cpu_tlb :=
  q ← unwrap (new_op_queue c);
  ' (done, _) ← flush_all q;
  Ret (mk_cpu (FLUSH_OPS c) (ACK_REMOTE_FLUSH c) None (performed c ++ done)).
Definition do_remote_flush (sys : tlb_state) (cpu : nat) : outcome tlb_state :=
  sys1 ← update_cpu sys cpu (fun c => Ret (take_queue c)); update_cpu sys1 cpu flush_queue.

Section flusher.
Context {V : Type} `{SV : SmallVec V} (num_cpus : nat).

Record TlbFlusher := mk_flusher {
  target_cpus : AtomicCpuSet (V := V);
  have_unsynced_flush : CpuSet (V := V);
  ops_stack : OpsStack;
}.

Definition flusher_new (target : AtomicCpuSet (V := V)) : TlbFlusher := mk_flusher target (new_empty num_cpus) ops_new.

Definition issue_tlb_flush (self : TlbFlusher) (op : TlbFlushOp) : outcome TlbFlusher :=
  s ← push (ops_stack self) op; Ret (mk_flusher (target_cpus self) (have_unsynced_flush self) s).

(** The frame of [issue_tlb_flush_with] is dropped by [push]. *)
Definition issue_tlb_flush_with (self : TlbFlusher) (op : TlbFlushOp) (drop_after_flush : Z) : outcome TlbFlusher :=
  issue_tlb_flush self op.

(** The loop of [dispatch_tlb_flush] over the remote CPUs. *)
Fixpoint dispatch_loop (stack : OpsStack) (cpus : list nat) (sys : tlb_state) (unsynced : CpuSet (V := V))
  : outcome (tlb_state * CpuSet (V := V)) :=
  match cpus with
  | [] => Ret (sys, unsynced)
  | cpu :: cpus' =>
      sys1 ← update_cpu sys cpu (request stack);
      unsynced1 ← CpuSet.add unsynced cpu;
      dispatch_loop stack cpus' sys1 unsynced1
  end.

(** The CPUs that are sent a request, and whether this CPU flushes itself. *)
Definition dispatch_targets (self : TlbFlusher) (cur_cpu : nat) : outcome (list nat * bool) :=
  target ← load (target_cpus self) Release;
  need_flush_on_self ← CpuSet.contains target cur_cpu;
  target' ← (if need_flush_on_self : bool then CpuSet.remove target cur_cpu else Ret target);
  cpus ← CpuSet.iter target';
  Ret (cpus, need_flush_on_self).

Definition perform (done : list TlbFlushOp) (c : cpu_tlb) : outcome cpu_tlb :=
  Ret (mk_cpu (FLUSH_OPS c) (ACK_REMOTE_FLUSH c) (new_op_queue c) (performed c ++ done)).

(** The last part of [dispatch_tlb_flush]: the flushes on this CPU. *)
Definition dispatch_self (stack : OpsStack) (cur_cpu : nat) (need_flush_on_self : bool) (sys : tlb_state)
  : outcome (OpsStack * tlb_state) :=
  if need_flush_on_self then
    ' (done, stack') ← flush_all stack;
    sys' ← update_cpu sys cur_cpu (perform done);
    Ret (stack', sys')
  else Ret (clear_without_flush stack, sys).

Definition dispatch_tlb_flush (self : TlbFlusher) (cur_cpu : nat) (sys : tlb_state) : outcome (TlbFlusher * tlb_state) :=
  if ops_is_empty (ops_stack self) then Ret (self, sys)
  else
    ' (cpus, need_flush_on_self) ← dispatch_targets self cur_cpu;
    ' (sys1, unsynced) ← dispatch_loop (ops_stack self) cpus sys (have_unsynced_flush self);
    ' (stack, sys2) ← dispatch_self (ops_stack self) cur_cpu need_flush_on_self sys1;
    Ret (mk_flusher (target_cpus self) unsynced stack, sys2).

(** [sync_tlb_flush] up to its loop: the CPUs that it waits for, one after the other. *)
Definition sync_start (irq_enabled : bool) (self : TlbFlusher) : outcome (list nat) :=
  _ ← rassert irq_enabled; CpuSet.iter (have_unsynced_flush self).

(** One read of an acknowledgement in the loop, which spins on the first of the CPUs that are left. *)
Definition sync_next (cpus : list nat) (sys : tlb_state) : outcome (list nat) :=
  match cpus with
  | [] => Ret []
  | cpu :: cpus' => c ← arr_get sys cpu; Ret (if ACK_REMOTE_FLUSH c then cpus' else cpus)
  end.

(** Behind the loop. *)
Definition sync_finish (self : TlbFlusher) : TlbFlusher := mk_flusher (target_cpus self) (new_empty num_cpus) (ops_stack self).

(** *** The steps of the CPUs *)

(** Other CPUs take steps at any time: requests of other flushers, the two halves of a remote flush (which the
    interrupt does not reenter), and local flushes. *)
Inductive tlb_step (sys sys' : tlb_state) : Prop :=
| step_request cpu stack : ops_inv stack -> update_cpu sys cpu (request stack) = Ret sys' -> tlb_step sys sys'
| step_take cpu c : sys !! cpu = Some c -> new_op_queue c = None -> sys' = <[cpu := take_queue c]> sys -> tlb_step sys sys'
| step_flush cpu : update_cpu sys cpu flush_queue = Ret sys' -> tlb_step sys sys'
| step_self cpu done : update_cpu sys cpu (perform done) = Ret sys' -> tlb_step sys sys'.

(** The loop of [dispatch_tlb_flush] with steps of other CPUs in between. *)
Inductive dispatch_run (stack : OpsStack) : list nat -> tlb_state -> CpuSet (V := V) -> tlb_state -> CpuSet (V := V) -> Prop :=
| run_end sys u : dispatch_run stack [] sys u sys u
| run_env cpus sys u sys1 sys' u' : tlb_step sys sys1 -> dispatch_run stack cpus sys1 u sys' u' -> dispatch_run stack cpus sys u sys' u'
| run_cpu cpu cpus sys u sys1 u1 sys' u' : update_cpu sys cpu (request stack) = Ret sys1 -> CpuSet.add u cpu = Ret u1 ->
    dispatch_run stack cpus sys1 u1 sys' u' -> dispatch_run stack (cpu :: cpus) sys u sys' u'.

(** The loop of [sync_tlb_flush] up to its end, with steps of other CPUs between its reads; they may also clear
    acknowledgements that it has read already. *)
Inductive sync_run : list nat -> tlb_state -> tlb_state -> Prop :=
| sync_end sys : sync_run [] sys sys
| sync_env cpus sys sys1 sys' : tlb_step sys sys1 -> sync_run cpus sys1 sys' -> sync_run cpus sys sys'
| sync_read cpus cpus1 sys sys' : cpus <> [] -> sync_next cpus sys = Ret cpus1 -> sync_run cpus1 sys sys' -> sync_run cpus sys sys'.

(** Without other CPUs it is the loop. *)
Lemma dispatch_loop_run stack cpus sys u sys' u' : dispatch_loop stack cpus sys u = Ret (sys', u') -> dispatch_run stack cpus sys u sys' u'.
Proof.
  revert sys u. induction cpus as [|cpu cpus IH]; intros sys u; cbn [dispatch_loop]; [intros [= <- <-]; constructor|].
  intros (sys1 & Hr & (u1 & Ha & Hl)%bind_Ret)%bind_Ret. eapply run_cpu; [done|done|]. by apply IH.
Qed.

Definition cpu_ok (c : cpu_tlb) : Prop := ops_inv (FLUSH_OPS c) /\ forall q, new_op_queue c = Some q -> ops_inv q.

(** The flush of an address waits in the queue, without an acknowledgement, is on its way, or is done. *)
Definition in_hand (va : Z) (c : cpu_tlb) : Prop :=
  (exists q, new_op_queue c = Some q /\ covered (requests q) va = true) \/ covered (performed c) va = true.
Definition reached (va : Z) (c : cpu_tlb) : Prop :=
  (ACK_REMOTE_FLUSH c = false /\ covered (requests (FLUSH_OPS c)) va = true) \/ in_hand va c.

Lemma update_cpu_Ret sys cpu f sys' : update_cpu sys cpu f = Ret sys' <->
  exists c c', sys !! cpu = Some c /\ f c = Ret c' /\ sys' = <[cpu := c']> sys.
Proof.
  unfold update_cpu. split.
  - intros (c & Hc%arr_get_Ret & (c' & Hf & Hs)%bind_Ret)%bind_Ret. exists c, c'. split_and!; try done.
    rewrite arr_set_Ret in Hs by (by eapply lookup_lt_Some). by injection Hs.
  - intros (c & c' & Hc & Hf & ->). rewrite (proj2 (arr_get_Ret _ _ _) Hc). cbn [mbind outcome_bind]. rewrite Hf. cbn [mbind outcome_bind].
    apply arr_set_Ret. by eapply lookup_lt_Some.
Qed.

(** A step of the CPU loses nothing. *)
Definition advances (c c' : cpu_tlb) : Prop :=
  cpu_ok c' /\ forall va, (reached va c -> reached va c') /\ (in_hand va c -> in_hand va c').

Lemma request_ok stack c : cpu_ok c -> ops_inv stack -> exists c', request stack c = Ret c' /\ advances c c' /\
  forall va, covered (requests stack) va = true -> reached va c'.
Proof.
  intros [Hq Hn] Hs. destruct (push_from_ok _ _ Hq Hs) as (q & Hp & Hg). unfold request. step Hp.
  eexists. split; [done|]. split; [split; [by split; [destruct Hg|]|]|]; intros va.
  - split; [|done]. intros [[_ Hva]|?]; [left|by right]. split; [done|]. apply (grown_covers _ _ _ va Hg). by rewrite Hva.
  - intros Hva. left. split; [done|]. apply (grown_covers _ _ _ va Hg). by rewrite Hva, orb_true_r.
Qed.

Lemma take_ok c : cpu_ok c -> new_op_queue c = None -> advances c (take_queue c).
Proof.
  intros [Hq _] Hn. split; [split; [apply ops_new_ok|by intros q [= <-]]|]. intros va.
  assert (in_hand va c -> in_hand va (take_queue c)) as Hh by (intros [(q & Hq' & _)|Hp]; [congruence|by right]).
  split; [|done]. intros [[_ Hva]|Hva]; right; [|by apply Hh]. left. by eexists.
Qed.

Lemma flush_ok c c' : cpu_ok c -> flush_queue c = Ret c' -> advances c c'.
Proof.
  intros [Hq Hn] (q & Hq'%unwrap_Ret & ([done s] & Hf & [= <-])%bind_Ret)%bind_Ret. rewrite (proj1 (flush_all_ok q (Hn q Hq'))) in Hf.
  injection Hf as <- <-. split; [done|]. intros va.
  assert (in_hand va c -> in_hand va (mk_cpu (FLUSH_OPS c) (ACK_REMOTE_FLUSH c) None (performed c ++ requests q))) as Hh.
  { intros [(q' & Hq'' & Hva)|Hva]; right; cbn [performed]; rewrite covered_app; [|by rewrite Hva].
    assert (q' = q) as -> by congruence. by rewrite Hva, orb_true_r. }
  split; [|done]. intros [?|Hva]; [by left|right; by apply Hh].
Qed.

Lemma perform_ok done c c' : cpu_ok c -> perform done c = Ret c' -> advances c c' /\ forall va, covered done va = true -> in_hand va c'.
Proof.
  intros Hc [= <-]. assert (forall va, covered (performed c) va || covered done va = true ->
    in_hand va (mk_cpu (FLUSH_OPS c) (ACK_REMOTE_FLUSH c) (new_op_queue c) (performed c ++ done))) as Hh.
  { intros va Hva. right. cbn [performed]. by rewrite covered_app. }
  split; [split; [done|]; intros va; split|].
  - intros [?|[?|Hva]]; [by left|right; by left|right; apply Hh; by rewrite Hva].
  - intros [?|Hva]; [by left|apply Hh; by rewrite Hva].
  - intros va Hva. apply Hh. by rewrite Hva, orb_true_r.
Qed.

(** The state of the CPUs, kept by their steps. *)
Definition system_ok (sys : tlb_state) : Prop := forall j c, sys !! j = Some c -> cpu_ok c.
Definition keeps (sys sys' : tlb_state) : Prop :=
  length sys' = length sys /\ forall j c', sys' !! j = Some c' -> exists c, sys !! j = Some c /\ advances c c'.

Lemma advances_refl c : cpu_ok c -> advances c c.
Proof. done. Qed.

Lemma keeps_ok sys sys' : keeps sys sys' -> system_ok sys'.
Proof. intros [_ Hk] j c' Hc'. by destruct (Hk j c' Hc') as (c & _ & Ha & _). Qed.

Lemma keeps_refl sys : system_ok sys -> keeps sys sys.
Proof. intros Hs. split; [done|]. intros j c Hc. exists c. split; [done|]. apply advances_refl. by eapply Hs. Qed.

Lemma keeps_trans sys1 sys2 sys3 : keeps sys1 sys2 -> keeps sys2 sys3 -> keeps sys1 sys3.
Proof.
  intros [Hl1 H12] [Hl2 H23]. split; [congruence|]. intros j c3 Hc3. destruct (H23 j c3 Hc3) as (c2 & Hc2 & Hok & Ha).
  destruct (H12 j c2 Hc2) as (c1 & Hc1 & _ & Ha'). exists c1. split; [done|]. split; [done|]. intros va.
  destruct (Ha va), (Ha' va). split; auto.
Qed.

Lemma keeps_update sys cpu c c' : system_ok sys -> sys !! cpu = Some c -> advances c c' -> keeps sys (<[cpu := c']> sys).
Proof.
  intros Hs Hc Ha. assert (cpu < length sys)%nat by (by eapply lookup_lt_Some). split; [by rewrite length_insert|].
  intros j d. destruct (decide (j = cpu)) as [->|].
  - rewrite list_lookup_insert_eq by done. intros [= <-]. by exists c.
  - rewrite list_lookup_insert_ne by done. intros Hd. exists d. split; [done|]. apply advances_refl. by eapply Hs.
Qed.

Lemma step_keeps sys sys' : system_ok sys -> tlb_step sys sys' -> keeps sys sys'.
Proof.
  intros Hs [cpu stack Hst (c & c' & Hc & Hf & ->)%update_cpu_Ret|cpu c Hc Hn ->|cpu (c & c' & Hc & Hf & ->)%update_cpu_Ret
    |cpu done (c & c' & Hc & Hf & ->)%update_cpu_Ret]; pose proof (Hs _ _ Hc) as Hok; apply (keeps_update _ _ c _ Hs Hc).
  - destruct (request_ok stack c Hok Hst) as (c1 & Hf' & ? & _). by assert (c1 = c') as -> by congruence.
  - by apply take_ok.
  - by apply flush_ok.
  - by apply (perform_ok done).
Qed.

Lemma steps_keep sys sys' : system_ok sys -> rtc tlb_step sys sys' -> keeps sys sys'.
Proof.
  intros Hs Hr. induction Hr as [|sys sys1 sys' Hst _ IH]; [by apply keeps_refl|].
  pose proof (step_keeps _ _ Hs Hst) as Hk. eapply keeps_trans; [done|]. apply IH. by eapply keeps_ok.
Qed.

(** *** A dispatched flush *)

Context `{SL : !SmallVecLaws V}.

Local Notation view := (CpuSet.view num_cpus).
Local Notation inv := (CpuSet.inv num_cpus).

(** The CPUs that use the address space. *)
Definition targets (self : TlbFlusher) : CpuSet (V := V) := mk_CpuSet (abits (target_cpus self)).

Lemma load_release a : load a Release = Ret (mk_CpuSet (sv_collect (sv_iter (abits a)))).
Proof.
  unfold load. rewrite (mapM_Ret _ id).
  - cbn. by rewrite list_fmap_id.
  - intros w _. cbn. by rewrite Z.lor_0_r.
Qed.

Lemma view_seq u j : j ∈ view u -> j ∈ all_cpus num_cpus.
Proof. intros Hj. unfold CpuSet.view in Hj. by apply elem_of_list_to_set, list_elem_of_filter in Hj as [_ Hj]. Qed.

Lemma view_iter u : inv u -> exists cpus, CpuSet.iter u = Ret cpus /\ forall j, j ∈ cpus <-> j ∈ view u.
Proof.
  intros Hu. eexists. split; [by apply (iter_ok num_cpus)|]. intros j. rewrite list_elem_of_filter.
  split; [by intros [? _]|]. intros Hj. split; [done|by eapply view_seq].
Qed.

Lemma dispatch_targets_ok self cur : inv (targets self) -> (cur < num_cpus)%nat ->
  exists cpus, dispatch_targets self cur = Ret (cpus, bool_decide (cur ∈ view (targets self))) /\
    forall j, j ∈ cpus <-> j ∈ view (targets self) /\ j <> cur.
Proof.
  intros Hi Hc. unfold dispatch_targets. step load_release. set (t := mk_CpuSet _).
  assert (inv t /\ view t = view (targets self)) as [Ht Hv].
  { unfold CpuSet.inv, CpuSet.view. cbn [t CpuSet.bits]. by rewrite sv_collect_iter. }
  step (contains_ok num_cpus t cur Ht Hc). rewrite Hv. destruct (remove_ok num_cpus t cur Ht Hc) as (t' & Hr & Ht' & Hv').
  destruct (view_iter t Ht) as (l & Hl & Hin), (view_iter t' Ht') as (l' & Hl' & Hin').
  destruct (bool_decide_reflect (cur ∈ view (targets self))) as [Hcur|Hcur].
  - step Hr. step Hl'. exists l'. split; [done|]. intros j. rewrite Hin', Hv', Hv, elem_of_difference, elem_of_singleton. done.
  - cbn [mbind outcome_bind]. step Hl. exists l. split; [done|]. intros j. rewrite Hin, Hv. split; [|by intros [? _]].
    intros Hj. split; [done|]. by intros ->.
Qed.

Lemma dispatch_run_ok stack cpus sys u sys' u' : dispatch_run stack cpus sys u sys' u' -> ops_inv stack -> system_ok sys ->
  inv u -> length sys = num_cpus -> keeps sys sys' /\ inv u' /\ view u ⊆ view u' /\
  forall j, j ∈ cpus -> j ∈ view u' /\ forall c va, sys' !! j = Some c -> covered (requests stack) va = true -> reached va c.
Proof.
  intros Hrun Hst. induction Hrun as [sys u|cpus sys u sys1 sys' u' Hstep _ IH|cpu cpus sys u sys1 u1 sys' u' Hup Hadd _ IH]; intros Hs Hu Hl.
  - split_and!; try done; [by apply keeps_refl|]. intros j Hj. by apply not_elem_of_nil in Hj.
  - pose proof (step_keeps _ _ Hs Hstep) as Hk. destruct IH as (Hk' & Hrest); try done; [by eapply keeps_ok|destruct Hk; congruence|].
    split; [by eapply keeps_trans|done].
  - apply update_cpu_Ret in Hup as (c & c1 & Hc & Hf & ->).
    destruct (request_ok stack c (Hs _ _ Hc) Hst) as (c2 & Hf' & Ha & Hnew). assert (c2 = c1) as -> by congruence.
    pose proof (keeps_update sys cpu c c1 Hs Hc Ha) as Hk. assert (cpu < length sys)%nat as Hlt by (by eapply lookup_lt_Some).
    destruct (add_ok num_cpus u cpu Hu ltac:(lia)) as (u2 & Hau & Hu2 & Hv2). assert (u2 = u1) as -> by congruence.
    destruct IH as (Hk' & Hu' & Hsub & Hin); try done; [by eapply keeps_ok|by rewrite length_insert|]. split_and!; try done.
    + by eapply keeps_trans.
    + etransitivity; [|exact Hsub]. rewrite Hv2. apply union_subseteq_r.
    + intros j [->|Hj]%elem_of_cons; [|by apply Hin]. split; [apply Hsub; rewrite Hv2; apply elem_of_union_l, elem_of_singleton; done|].
      intros d va Hd Hva. destruct Hk' as [_ Hk']. destruct (Hk' cpu d Hd) as (d' & Hd' & _ & Had).
      rewrite list_lookup_insert_eq in Hd' by done. injection Hd' as <-. apply Had. by apply Hnew.
Qed.

Lemma dispatch_loop_total stack cpus sys u : ops_inv stack -> system_ok sys -> inv u -> length sys = num_cpus ->
  (forall j, j ∈ cpus -> (j < num_cpus)%nat) -> exists sys' u', dispatch_loop stack cpus sys u = Ret (sys', u').
Proof.
  intros Hst. revert sys u. induction cpus as [|cpu cpus IH]; intros sys u Hs Hu Hl Hin; cbn [dispatch_loop]; [eauto|].
  assert (cpu < num_cpus)%nat as Hcpu by (apply Hin; by left). destruct (lookup_lt_is_Some_2 sys cpu) as [c Hc]; [lia|].
  destruct (request_ok stack c (Hs _ _ Hc) Hst) as (c1 & Hf & Ha & _).
  rewrite (proj2 (update_cpu_Ret sys cpu (request stack) (<[cpu := c1]> sys))) by eauto. cbn [mbind outcome_bind].
  destruct (add_ok num_cpus u cpu Hu Hcpu) as (u1 & Hau & Hu1 & _). step Hau.
  pose proof (keeps_update sys cpu c c1 Hs Hc Ha) as Hk. apply IH; try done; [by eapply keeps_ok|by rewrite length_insert|].
  intros j Hj. apply Hin. by right.
Qed.

Lemma dispatch_self_ok stack cur flag sys : ops_inv stack -> system_ok sys -> (cur < length sys)%nat ->
  exists stack' sys', dispatch_self stack cur flag sys = Ret (stack', sys') /\ requests stack' = [] /\ keeps sys sys' /\
    (flag = true -> forall c va, sys' !! cur = Some c -> covered (requests stack) va = true -> in_hand va c).
Proof.
  intros Hst Hs Hc. destruct (flush_all_ok stack Hst) as (Hf & _ & Hr). unfold dispatch_self. destruct flag.
  2: { eexists _, _. split; [done|]. split_and!; try done. by apply keeps_refl. }
  step Hf. destruct (lookup_lt_is_Some_2 sys cur Hc) as [c Hc'].
  destruct (perform_ok (requests stack) c _ (Hs _ _ Hc') eq_refl) as (Ha & Hnew).
  rewrite (proj2 (update_cpu_Ret sys cur (perform (requests stack)) _)) by (eexists _, _; split_and!; done). cbn [mbind outcome_bind].
  eexists _, _. split; [done|]. split; [done|]. split; [by eapply keeps_update|]. intros _ d va. rewrite list_lookup_insert_eq by done.
  intros [= <-] Hva. by apply Hnew.
Qed.

Lemma sync_start_ok self : inv (have_unsynced_flush self) ->
  exists cpus, sync_start true self = Ret cpus /\ forall j, j ∈ cpus <-> j ∈ view (have_unsynced_flush self).
Proof. intros Hu. exact (view_iter _ Hu). Qed.

(** A requested flush is in hand once the acknowledgement of its CPU has been read, whatever happens to the acknowledgement later. *)
Lemma sync_run_ok cpus sys sys' : sync_run cpus sys sys' -> system_ok sys -> keeps sys sys' /\
  forall j c c' va, j ∈ cpus -> sys !! j = Some c -> sys' !! j = Some c' -> reached va c -> in_hand va c'.
Proof.
  intros Hrun. induction Hrun as [sys|cpus sys sys1 sys' Hst _ IH|cpus cpus1 sys sys' Hne Hn _ IH]; intros Hs.
  - split; [by apply keeps_refl|]. intros j c c' va Hj. by apply not_elem_of_nil in Hj.
  - pose proof (step_keeps _ _ Hs Hst) as Hk. destruct (IH (keeps_ok _ _ Hk)) as [Hk' Hin]. split; [by eapply keeps_trans|].
    intros j c c' va Hj Hc Hc' Hr. destruct Hk' as [_ Hk']. destruct (Hk' j c' Hc') as (c1 & Hc1 & _).
    destruct Hk as [_ Hk]. destruct (Hk j c1 Hc1) as (c0 & Hc0 & _ & Ha). assert (c0 = c) as -> by congruence.
    apply (Hin j c1 c' va Hj Hc1 Hc'). by apply Ha.
  - destruct (IH Hs) as [Hk Hin]. split; [done|]. destruct cpus as [|cpu cpus]; [done|]. cbn [sync_next] in Hn.
    apply bind_Ret in Hn as (d & Hd%arr_get_Ret & [= <-]). intros j c c' va Hj Hc Hc' Hr.
    destruct (ACK_REMOTE_FLUSH d) eqn:Hack; [|by apply (Hin j c)].
    apply elem_of_cons in Hj as [->|Hj]; [|by apply (Hin j c)]. assert (d = c) as -> by congruence.
    destruct Hk as [_ Hk]. destruct (Hk cpu c' Hc') as (c0 & Hc0 & _ & Ha). assert (c0 = c) as -> by congruence.
    apply Ha. destruct Hr as [[? _]|]; [congruence|done].
Qed.

(** What the flusher and the CPUs are like between calls. *)
Record flusher_ok (self : TlbFlusher) (cur : nat) (sys : tlb_state) : Prop := {
  fl_targets : inv (targets self);
  fl_unsynced : inv (have_unsynced_flush self);
  fl_stack : ops_inv (ops_stack self);
  fl_system : system_ok sys;
  fl_cpus : length sys = num_cpus;
  fl_cur : (cur < num_cpus)%nat;
}.

Lemma dispatch_total self cur sys0 : flusher_ok self cur sys0 ->
  exists self' sys', dispatch_tlb_flush self cur sys0 = Ret (self', sys') /\ requests (ops_stack self') = [].
Proof.
  intros [Ht Hu Hst Hs0 Hl0 Hcur]. destruct (dispatch_targets_ok self cur Ht Hcur) as (cpus & Htg & Hin).
  unfold dispatch_tlb_flush. destruct (ops_is_empty (ops_stack self)) eqn:He.
  { eexists _, _. split; [done|]. apply andb_true_iff in He as [Hn%negb_true_iff Hz%Nat.eqb_eq]. unfold requests. by rewrite Hn, Hz, take_0. }
  step Htg. destruct (dispatch_loop_total (ops_stack self) cpus sys0 (have_unsynced_flush self)) as (sys1 & u1 & Hlp); try done.
  { intros j Hj. apply Hin in Hj as [Hj%view_seq _]. unfold all_cpus in Hj. apply elem_of_seq in Hj. lia. }
  step Hlp. destruct (dispatch_run_ok _ _ _ _ _ _ (dispatch_loop_run _ _ _ _ _ _ Hlp)) as (Hk & _); try done.
  destruct (dispatch_self_ok (ops_stack self) cur (bool_decide (cur ∈ view (targets self))) sys1) as (stack & sys2 & Hself & Hr & _);
    [done|by eapply keeps_ok|destruct Hk; lia|]. step Hself. eauto.
Qed.

(** C6: a TLB shootdown.  A flusher dispatches its requests while other CPUs dispatch theirs and run their handlers,
    step by step in any order.  The dispatch returns and empties the stack of the flusher.  The wait panics with interrupts disabled;
    otherwise it reads the acknowledgements of the CPUs one after the other, spinning on each, while
    the others go on and may clear acknowledgements that it has passed.  When the wait ends, every CPU that uses
    the address space has flushed every requested address, or is inside of its handler with the flush in its
    queue; then no CPU is left to wait for. *)
Theorem tlb_shootdown_sound self cur sys0 : flusher_ok self cur sys0 ->
  (exists self' sys', dispatch_tlb_flush self cur sys0 = Ret (self', sys') /\ requests (ops_stack self') = []) /\
  (forall cpus flag sys1 unsynced stack sys2 sys3,
     dispatch_targets self cur = Ret (cpus, flag) ->
     dispatch_run (ops_stack self) cpus sys0 (have_unsynced_flush self) sys1 unsynced ->
     dispatch_self (ops_stack self) cur flag sys1 = Ret (stack, sys2) -> rtc tlb_step sys2 sys3 ->
     let self' := mk_flusher (target_cpus self) unsynced stack in
     sync_start false self' = Panic /\
     exists waits, sync_start true self' = Ret waits /\ forall sys4, sync_run waits sys3 sys4 ->
       forall j c va, j ∈ view (targets self) -> sys4 !! j = Some c -> covered (requests (ops_stack self)) va = true -> in_hand va c) /\
  (inv (have_unsynced_flush (sync_finish self)) /\ view (have_unsynced_flush (sync_finish self)) = ∅).
Proof.
  intros Hok. split; [by apply dispatch_total|]. split; [|by apply (new_empty_ok num_cpus)]. destruct Hok as [Ht Hu Hst Hs0 Hl0 Hcur].
  destruct (dispatch_targets_ok self cur Ht Hcur) as (cpus & Htg & Hin).
  intros cpus' flag sys1 u1 stack sys2 sys3 Htg' Hrun Hself Hsteps self'. rewrite Htg in Htg'. injection Htg' as <- <-.
  destruct (dispatch_run_ok _ _ _ _ _ _ Hrun) as (Hk1 & Hu1 & _ & Hreq); try done.
  destruct (dispatch_self_ok (ops_stack self) cur (bool_decide (cur ∈ view (targets self))) sys1) as (stack' & sys2' & Hself' & _ & Hk2 & Hcur2);
    [done|by eapply keeps_ok|destruct Hk1; lia|]. rewrite Hself in Hself'. injection Hself' as <- <-.
  pose proof (steps_keep _ _ (keeps_ok _ _ Hk2) Hsteps) as Hk3. destruct (sync_start_ok self' Hu1) as (waits & Hw & Hwin).
  split; [done|]. exists waits. split; [done|]. intros sys4 Hsync j c4 va Hj Hc4 Hva.
  destruct (sync_run_ok _ _ _ Hsync (keeps_ok _ _ Hk3)) as [[_ Hk4] Hack]. destruct (Hk4 j c4 Hc4) as (c & Hc & _ & Ha4).
  destruct Hk3 as [_ Hadv]. destruct (Hadv j c Hc) as (c2 & Hc2 & _ & Ha). destruct (decide (j = cur)) as [->|Hne].
  - apply Ha4, Ha, Hcur2; [by apply bool_decide_eq_true_2|done|done].
  - destruct Hk2 as [Hl2 Hk2]. destruct (Hk2 j c2 Hc2) as (c1 & Hc1 & _ & Ha2). destruct (Hreq j) as [Hju Hr1]; [by apply Hin|].
    apply (Hack j c c4 va); [by apply Hwin|done|done|]. apply Ha, Ha2. by apply (Hr1 c1 va Hc1 Hva).
Qed.

End flusher.

(** Two CPUs that use the address space; the second handles the request of the first. *)
Module TlbExample.
Definition stack0 : OpsStack := mk_ops (<[0%nat := Some (Address 0x5000)]> (ops ops_new)) false 1.
Definition flusher0 : TlbFlusher (V := list Z) := mk_flusher (mk_AtomicCpuSet [3]) (new_empty 2) stack0.
Definition idle : cpu_tlb := mk_cpu ops_new true None [].

Lemma set_ok w : 0 <= w < 4 -> CpuSet.inv 2 (mk_CpuSet [w]).
Proof.
  intros Hw. split; [reflexivity|]. split; [apply Forall_singleton; unfold uint; lia|]. intros i Hi. destruct i as [|[|i]]; [lia|lia|].
  unfold bit_at. cbn [sv_iter list_SmallVec CpuSet.bits].
  destruct ([w] !! (S (S i) / 64)%nat) as [x|] eqn:Hx; [|done].
  assert (x = w) as ->. { destruct (S (S i) / 64)%nat as [|k]; [by injection Hx|done]. }
  assert (S (S i) / 64 = 0)%nat as Hz. { destruct (S (S i) / 64)%nat as [|k]; [done|done]. }
  apply Nat.div_small_iff in Hz; [|lia]. rewrite Nat.mod_small by lia.
  assert (uint 2 w) as Hu by (unfold uint; lia). apply uint_bits in Hu as [_ Hb]; [|lia]. apply Hb. lia.
Qed.

Lemma flusher0_ok : flusher_ok 2 flusher0 0 [idle; idle].
Proof.
  split; [by apply set_ok|by apply (set_ok 0)| | |reflexivity|lia].
  - unfold ops_inv, FLUSH_ALL_OPS_THRESHOLD. cbn. split_and!; [done|lia|done].
  - intros [|[|j]] c; cbn; [intros [= <-]|intros [= <-]|done]; (split; [apply ops_new_ok|done]).
Qed.

(** What the second CPU is asked to do, and its state while it handles the request. *)
Definition asked : cpu_tlb := mk_cpu stack0 false None [].
Definition own : cpu_tlb := mk_cpu ops_new true None [Address 0x5000].

Lemma tlb_shootdown_sound_witness :
  (exists self' sys', dispatch_tlb_flush flusher0 0 [idle; idle] = Ret (self', sys') /\ requests (ops_stack self') = []) /\
  in_hand 0x5000 (take_queue asked).
Proof.
  destruct (tlb_shootdown_sound 2 flusher0 0 [idle; idle] flusher0_ok) as (Hd & Hs & _). split; [exact Hd|].
  destruct (Hs [1%nat] true [idle; asked] (mk_CpuSet [2]) (clear_without_flush stack0) [own; asked] [own; asked]) as (_ & waits & Hw & Hin).
  - vm_compute. reflexivity.
  - eapply run_cpu; [vm_compute; reflexivity|vm_compute; reflexivity|]. apply run_end.
  - vm_compute. reflexivity.
  - apply rtc_refl.
  - assert (waits = [1%nat]) as -> by (vm_compute in Hw; congruence).
    apply (Hin [own; take_queue asked]) with (j := 1%nat); [|vm_compute; set_solver|reflexivity|reflexivity].
    eapply sync_read; [done|reflexivity|]. eapply sync_env; [by eapply (step_take _ _ 1%nat asked)|].
    eapply sync_read; [done|reflexivity|]. apply sync_end.
Defined.

(** The acknowledgement is missing before the handler of the second CPU runs. *)
Example shootdown_run :
  match dispatch_tlb_flush flusher0 0 [idle; idle] with
  | Ret (self', sys1) =>
      sync_start true self' = Ret [1%nat] /\ sync_next [1%nat] sys1 = Ret [1%nat] /\
      match do_remote_flush sys1 1 with
      | Ret sys2 => sync_next [1%nat] sys2 = Ret [] /\ (performed <$> sys2) = [[Address 0x5000]; [Address 0x5000]]
      | Panic => False
      end
  | Panic => False
  end.
Proof. vm_compute. repeat split. Qed.
End TlbExample.
