(* ===== verification/VmSpace.v ===== *)
(** * [ostd/src/mm/vm_space.rs]: the address space of a user program

    A [VmSpace] is a user page table with the set of CPUs that use it.  Its
    mutable cursor combines a cursor of the page table with a TLB flusher: it
    maps frames, unmaps ranges and protects pages, and requests a flush for
    every translation that it removes.

    User page tables hold no huge pages ([base_pages]), because a user item is
    a single frame; the operations keep it so.  The theorems say what the
    operations do to the translations, that the flushes that they dispatch cover
    all addresses that lose one, and that the panic of [map] on a removed
    page table is not reached. *)

From S2P Require Import Prelude AlignExt VmIo Agents Paging FrameMeta PageProp Pte PteX86 PtChild PtNode PtTree PtStray PtCursor PtConfig PtLock PtHandle CpuSet Tlb.
Open Scope Z_scope.

Section vm_space.
Local Existing Instance X86.consts.
Local Existing Instance X86.reqs.
Local Existing Instance UserPt.UserPtConfig.
Context {V : Type} `{SV : SmallVec V} `{U : !Uncounted} (num_cpus : nat).
Context (allow_panic debug_assertions : bool) (alloc_frame : pt_store PageTableEntry -> option Z).
Implicit Types (st : pt_store PageTableEntry) (c : Cursor) (va len root : Z) (fl : TlbFlusher (V := V)).

Local Notation map := (map allow_panic alloc_frame).
Local Notation take_next := (take_next allow_panic alloc_frame).

Record VmSpace := mk_space { pt : Z; cpus : AtomicCpuSet (V := V) }.

(** [VmSpace::new], for the kernel page table at [kernel_root]; [empty] is [PageTable::empty]. *)
Definition vm_space_new (empty : pt_store PageTableEntry -> outcome (Z * pt_store PageTableEntry)) st (kernel_root : Z)
  : outcome (VmSpace * pt_store PageTableEntry) :=
  ' (pt, st') ← create_user_page_table allow_panic KernelPt.KernelPtConfig.(@TOP_LEVEL_INDEX_RANGE) empty st kernel_root;
  Ret (mk_space pt (atomic_new (new_empty num_cpus)), st').

(** The cursor: that of the page table, and the flusher. *)
Record VmCursor := mk_vm { pt_cursor : Cursor; flusher : TlbFlusher (V := V) }.

Definition user_item (frame : Z) (prop : PageProperty) : Item := UserPt.mk_item frame prop.

Definition vm_map st (sys : list cpu_tlb) (cur_cpu : nat) (self : VmCursor) (frame : Z) (prop : PageProperty)
  : outcome (VmCursor * pt_store PageTableEntry * list cpu_tlb) :=
  let start_va := c_va (pt_cursor self) in
  ' (res, c, st') ← map st (pt_cursor self) (user_item frame prop);
  match res with
  | inl _ => Ret (mk_vm c (flusher self), st', sys)
  | inr (Mapped _ old) =>
      fl ← issue_tlb_flush_with (flusher self) (Address start_va) (UserPt.frame old);
      ' (fl', sys') ← dispatch_tlb_flush fl cur_cpu sys;
      Ret (mk_vm c fl', st', sys')
  | inr (StrayPageTable _ _ _ _) => if allow_panic then Panic else Ret (mk_vm c (flusher self), st', sys)
  end.

(** The loop of [unmap], with fuel for its iterations. *)
Fixpoint unmap_loop (fuel : nat) (end_va : Z) st c fl (num_unmapped : Z)
  : outcome (Z * Cursor * TlbFlusher (V := V) * pt_store PageTableEntry) :=
  match fuel with
  | O => Panic
  | S fuel' =>
      rest ← usub end_va (c_va c);
      ' (frag, c1, st1) ← take_next st c rest;
      match frag with
      | None => Ret (num_unmapped, c1, fl, st1)
      | Some (Mapped va item) =>
          num ← uadd 64 num_unmapped 1;
          fl1 ← issue_tlb_flush_with fl (Address va) (UserPt.frame item);
          unmap_loop fuel' end_va st1 c1 fl1 num
      | Some (StrayPageTable pt va len num_frames) =>
          num ← uadd 64 num_unmapped num_frames;
          end_ ← uadd 64 va len;
          fl1 ← issue_tlb_flush_with fl (FlushRange (mk_range va end_)) pt;
          unmap_loop fuel' end_va st1 c1 fl1 num
      end
  end.

Definition unmap st (sys : list cpu_tlb) (cur_cpu : nat) (self : VmCursor) len
  : outcome (Z * VmCursor * pt_store PageTableEntry * list cpu_tlb) :=
  let c := pt_cursor self in
  _ ← rassert (len mod PAGE_SIZE =? 0);
  end_va ← uadd 64 (c_va c) len;
  _ ← rassert (end_va <=? r_end (barrier_va c));
  ' (num_unmapped, c1, fl1, st1) ← unmap_loop (Z.to_nat (len / PAGE_SIZE + 1)) end_va st c (flusher self) 0;
  ' (fl2, sys') ← dispatch_tlb_flush fl1 cur_cpu sys;
  Ret (num_unmapped, mk_vm c1 fl2, st1, sys').

(** The other operations pass on those of the page table; their errors become [Error::AccessDenied]. *)
Definition from_pt_error {A} (r : A + PageTableError) : A + Error := match r with inl a => inl a | inr _ => inr AccessDenied end.

Definition vm_query st c : outcome ((range * option Item + Error) * Cursor) :=
  ' (r, c') ← query allow_panic st c; Ret (from_pt_error r, c').
Definition vm_find_next st c len : outcome (option Z * Cursor * pt_store PageTableEntry) := find_next allow_panic alloc_frame st c len.
Definition vm_jump c va : outcome ((unit + Error) * Cursor) :=
  ' (r, c') ← jump c va; Ret (from_pt_error r, c').
Definition vm_protect_next st c len (op : PageProperty -> PageProperty) : outcome (option range * Cursor * pt_store PageTableEntry) :=
  protect_next allow_panic alloc_frame st c len op.

(** [VmSpace::cursor] and [VmSpace::cursor_mut], for the page table at [root] and the CPUs of the address space. *)
Definition vm_cursor (fuel : nat) st root (r : range) : outcome ((Cursor + Error) * pt_store PageTableEntry) :=
  ' (res, st') ← cursor_new allow_panic alloc_frame fuel st root r; Ret (from_pt_error res, st').
Definition vm_cursor_mut (fuel : nat) st root (cpus : AtomicCpuSet (V := V)) (r : range)
  : outcome ((VmCursor + Error) * pt_store PageTableEntry) :=
  ' (res, st') ← cursor_new allow_panic alloc_frame fuel st root r;
  Ret (match res with inl c => inl (mk_vm c (flusher_new num_cpus cpus)) | inr _ => inr AccessDenied end, st').

(** [VmSpace::reader] and [VmSpace::writer] hand out the user memory of the given range. *)
Definition MAX_USERSPACE_VADDR : Z := 0x800000000000 - PAGE_SIZE.
Definition reader (current_root root vaddr len : Z) : VmReader + Error :=
  if negb (current_root =? root) then inr AccessDenied
  else if MAX_USERSPACE_VADDR <? unwrap_or (2 ^ 64 - 1) (checked_add 64 vaddr len) then inr AccessDenied
  else inl (reader_from_user_space vaddr len).
Definition writer (current_root root vaddr len : Z) : VmWriter + Error :=
  if negb (current_root =? root) then inr AccessDenied
  else if MAX_USERSPACE_VADDR <? unwrap_or (2 ^ 64 - 1) (checked_add 64 vaddr len) then inr AccessDenied
  else inl (writer_from_user_space vaddr len).

(** ** Unmapping a range *)

Context (alloc_fresh : forall st pa, alloc_frame st = Some pa -> valid_frame_paddr pa /\ st !! pa = None).
Context (pool : nat) (alloc_succeeds : forall st, (size st < pool)%nat -> is_Some (alloc_frame st)).

Local Notation page_walk := (page_walk debug_assertions).
Local Notation updates := (updates debug_assertions).
Local Notation unmapped := (unmapped debug_assertions).
Local Notation taken := (taken debug_assertions).

(** Everything from [lo] to [hi] has lost its translation, nothing else has changed. *)
Definition cleared st0 st root lo hi : Prop := updates st0 st root (mk_range lo hi) (fun _ => Ret None).

Lemma cleared_empty st root lo : cleared st st root lo lo.
Proof. apply updates_empty. Qed.

Lemma cleared_extend st0 st root lo mid hi : cleared st0 st root lo mid -> unmapped st root mid hi -> mid <= hi -> cleared st0 st root lo hi.
Proof.
  intros Hcl Hun Hm x Hx Hwx. pose proof (Hcl x Hx Hwx) as Hc. unfold in_range in *. cbn [r_start r_end] in *.
  destruct (decide (lo <= x < mid)), (decide (lo <= x < hi)); try done; try lia. apply Hun. lia.
Qed.

Lemma cleared_step st0 st st' root lo va hi : cleared st0 st root lo va -> cleared st st' root va hi -> same_window va lo ->
  lo <= va <= hi -> cleared st0 st' root lo hi.
Proof.
  intros Hcl Hup Hw Hv. eapply updates_ext; [|eapply updates_append; [exact Hv|exact (eq_sym Hw)|exact Hcl|exact Hup]].
  intros x _. cbn beta. by destruct (Z.ltb x va).
Qed.

(** The flushes cover the addresses that had a translation. *)
Definition flushes st0 root lo hi fl : Prop :=
  ops_inv (ops_stack fl) /\
  forall va, lo <= va < hi -> page_walk st0 root va <> Ret None -> covered (requests (ops_stack fl)) va = true.

Lemma flushes_extend st0 st root lo mid hi fl : cleared st0 st root lo mid -> unmapped st root mid hi -> 0 <= mid ->
  (forall x, mid <= x < hi -> same_window x lo) -> flushes st0 root lo mid fl -> flushes st0 root lo hi fl.
Proof.
  intros Hcl Hun Hm Hw [Hinv Hfl]. split; [done|]. intros x Hx Hmap. destruct (decide (x < mid)); [apply Hfl; [lia|done]|].
  exfalso. apply Hmap. rewrite <- (Hun x) by lia. symmetry. rewrite (Hcl x) by (apply Hw || lia; lia).
  by destruct (decide _) as [[? ?]|]; [cbn in *; lia|].
Qed.

(** The same CPUs to flush. *)
Definition same_cpus fl fl' : Prop := have_unsynced_flush fl' = have_unsynced_flush fl /\ target_cpus fl' = target_cpus fl.

Lemma flushes_issue st0 root lo va hi fl op : flushes st0 root lo va fl -> (forall x, va <= x < hi -> covers op x = true) ->
  exists fl', issue_tlb_flush fl op = Ret fl' /\ flushes st0 root lo hi fl' /\ same_cpus fl fl'.
Proof.
  intros [Hinv Hfl] Hop. destruct (ops_push_ok (ops_stack fl) op Hinv) as (s & Hp & Hg).
  unfold issue_tlb_flush. step Hp. eexists. split; [done|]. split; [|done]. split; [apply Hg|]. intros x Hx Hmap.
  apply (grown_covers _ _ _ x Hg). destruct (decide (x < va)); [by rewrite (Hfl x) by (done || lia)|].
  cbn. rewrite Hop by lia. by rewrite orb_true_r.
Qed.

Lemma covers_page va x : va mod PAGE_SIZE = 0 -> va <= x < va + PAGE_SIZE -> covers (Address va) x = true.
Proof. intros Hal Hx. cbn [covers]. apply Z.eqb_eq. unfold PAGE_SIZE in *. Z.div_mod_to_equations. lia. Qed.

Lemma covers_range va hi x : va mod PAGE_SIZE = 0 -> va <= x < hi -> covers (FlushRange (mk_range va hi)) x = true.
Proof.
  intros Hal Hx. cbn [covers r_start r_end]. rewrite Hal. apply andb_true_iff. rewrite Z.leb_le, Z.ltb_lt.
  unfold PAGE_SIZE in *. Z.div_mod_to_equations. lia.
Qed.

Local Notation cursor_ok := (cursor_ok (E := PageTableEntry)).

(** The state in the middle of [unmap], which started at [lo] with the page table [st0]. *)
Record unmapping st0 root lo (b : range) fl0 st c fl (num : Z) : Prop := {
  un_cursor : cursor_ok st root c;
  un_barrier : barrier_va c = b;
  un_pages : base_pages st root;
  un_size : size st = size st0;
  un_range : r_start b <= lo <= c_va c /\ 0 <= lo;
  un_cleared : cleared st0 st root lo (c_va c);
  un_flushes : flushes st0 root lo (c_va c) fl;
  un_cpus : same_cpus fl0 fl;
  un_num : 0 <= num /\ num * PAGE_SIZE <= c_va c - lo;
}.

Lemma take_fragment st0 root lo b fl0 st c fl num end_va : unmapping st0 root lo b fl0 st c fl num -> c_va c <= end_va <= r_end b ->
  end_va mod PAGE_SIZE = 0 -> (size st0 + 4 <= S pool)%nat ->
  exists frag c1 st1, take_next st c (end_va - c_va c) = Ret (frag, c1, st1) /\
    match frag with
    | None => st1 = st /\ cursor_ok st root c1 /\ barrier_va c1 = b /\ end_va <= c_va c1 /\ unmapped st root (c_va c) end_va
    | Some f =>
        let '(op, n) := match f with
                        | Mapped va _ => (Address va, 1)
                        | StrayPageTable _ va len k => (FlushRange (mk_range va (va + len)), k)
                        end in
        c_va c < c_va c1 <= end_va /\ num + n < 2 ^ 64 /\ (forall pt va len k, f = StrayPageTable pt va len k -> va + len < 2 ^ 64) /\
        exists fl1, issue_tlb_flush fl op = Ret fl1 /\ unmapping st0 root lo b fl0 st1 c1 fl1 (num + n)
    end.
Proof.
  intros [Hok Hb Hbp Hsz Hr Hcl Hfl Hcpus Hnum] Hend Hal Hpool. pose proof Hok as [Hc _]. pose proof (at_va _ _ _ Hc) as [[Hlo _] Hva].
  pose proof (at_barrier _ _ _ Hc) as ([Hb0 _] & _ & _ & _ & Hlim). rewrite Hb in *.
  destruct (take_next_ok allow_panic debug_assertions alloc_frame Example86.base86 Cursor86.levels_fit alloc_fresh pool alloc_succeeds
    st root c (end_va - c_va c) Hok ltac:(lia) ltac:(rewrite Hsz; exact Hpool)) as ([[frag c1] st1] & Htake & Hpost).
  { split; [|rewrite Hb; lia]. change BASE_PAGE_SIZE with PAGE_SIZE in *. unfold PAGE_SIZE in *. Z.div_mod_to_equations. lia. }
  exists frag, c1, st1. split; [done|]. destruct Hpost as (Hok1 & Hb1 & Hcase). rewrite Hb in Hb1. destruct frag as [f|].
  2: { destruct Hcase as (-> & Hge & Hun). replace (c_va c + (end_va - c_va c)) with end_va in * by lia. done. }
  destruct Hcase as (va & lv & Hva0 & Hlv & Hfit & Hva1 & Hun & Hup & Htk & Hbase). destruct (Hbase Hbp) as (Hbp1 & Hsz1 & Hmp).
  replace (c_va c + (end_va - c_va c)) with end_va in Hfit by lia. know (page_size_pos lv) as Hps.
  assert (va mod PAGE_SIZE = 0) as Hval.
  { pose proof (at_va _ _ _ (proj1 Hok1)) as [_ Hal1]. rewrite Hva1 in Hal1. destruct (page_size_divide 1 lv) as [d Hd]; [lia|lia|].
    rewrite Hd, page_size_1 in Hal1. by rewrite Z.mod_add in Hal1 by done. }
  assert (forall x, lo <= x < end_va -> same_window x lo) as Hwin.
  { intros x Hx. apply (barrier_window st root c); [done| |]; rewrite Hb; split; lia. }
  pose proof (cleared_extend _ _ _ _ _ _ Hcl Hun Hva0) as Hcl0.
  pose proof (flushes_extend _ _ _ _ _ va fl Hcl Hun ltac:(lia) ltac:(intros; apply Hwin; lia) Hfl) as Hfl0.
  set (op := match f with Mapped va _ => Address va | StrayPageTable _ va len _ => FlushRange (mk_range va (va + len)) end).
  set (n := match f with Mapped _ _ => 1 | StrayPageTable _ _ _ k => k end).
  assert ((forall x, va <= x < c_va c1 -> covers op x = true) /\ 0 <= n /\ n * PAGE_SIZE <= page_size lv) as (Hop & Hn0 & Hn1).
  { rewrite Hva1. destruct f as [va' item|pt va' len k]; cbn [PtCursor.taken] in Htk; unfold op, n.
    - destruct Htk as (-> & _). rewrite (Hmp va item eq_refl). split_and!; [|lia|done]. intros x Hx. by apply covers_page.
    - destruct Htk as (-> & -> & _ & _ & ? & ?). split_and!; [|done|done]. intros x Hx. by apply covers_range. }
  destruct (flushes_issue _ _ _ _ (c_va c1) fl op Hfl0 Hop) as (fl1 & Hissue & Hfl1 & Hcp1).
  replace (match f with Mapped va0 _ => (Address va0, 1) | StrayPageTable _ va0 len k => (FlushRange (mk_range va0 (va0 + len)), k) end)
    with (op, n) by (by destruct f). assert (end_va <= limit c) as Hel.
  { pose proof (at_levels _ _ _ Hc) as [? ?]. unfold limit. know (slot_bounds (r_end (barrier_va c) - 1) (guard_level c)) as Hsb. rewrite Hb in Hsb |- *. lia. }
  split; [lia|]. split; [unfold PAGE_SIZE in *; lia|]. split.
  { intros pt va' len k ->. destruct Htk as (-> & -> & _). lia. }
  exists fl1. split; [done|]. split; try done.
  - congruence.
  - lia.
  - apply (cleared_step st0 st st1 root lo va (c_va c1)); [done|by rewrite Hva1|apply Hwin; lia|lia].
  - destruct Hcpus, Hcp1. split; congruence.
  - lia.
Qed.

Lemma unmap_loop_ok st0 root lo b fl0 end_va fuel : r_start b <= lo -> end_va <= r_end b -> end_va mod PAGE_SIZE = 0 -> (size st0 + 4 <= S pool)%nat ->
  forall st c fl num, unmapping st0 root lo b fl0 st c fl num -> c_va c <= end_va -> (end_va - c_va c) / PAGE_SIZE < Z.of_nat fuel ->
  exists num' c' fl' st', unmap_loop fuel end_va st c fl num = Ret (num', c', fl', st') /\
    cursor_ok st' root c' /\ barrier_va c' = b /\ end_va <= c_va c' /\ base_pages st' root /\ size st' = size st0 /\
    cleared st0 st' root lo end_va /\ flushes st0 root lo end_va fl' /\ same_cpus fl0 fl' /\ 0 <= num' /\ num' * PAGE_SIZE <= end_va - lo.
Proof.
  intros Hlo Hend Hal Hpool. induction fuel as [|fuel IH]; intros st c fl num Hun Hc Hfuel.
  { exfalso. assert (0 <= (end_va - c_va c) / PAGE_SIZE) by (apply Z.div_pos; unfold PAGE_SIZE; lia). lia. }
  cbn [unmap_loop]. step usub_ok by lia.
  destruct (take_fragment _ _ _ _ _ _ _ _ _ end_va Hun) as (frag & c1 & st1 & Htake & Hcase); [lia|done|done|]. step Htake.
  destruct frag as [f|].
  2: { destruct Hcase as (-> & Hok & Hb & Hge & Hunm). destruct Hun as [Hok0 Hb0 Hbp Hsz Hr Hcl Hfl Hcpus Hnum].
       exists num, c1, fl, st. split; [done|]. split_and!; try done; [by eapply cleared_extend| |lia|lia].
       eapply flushes_extend; try done; [lia|]. intros x Hx. apply (barrier_window st root c); [apply Hok0| |]; rewrite Hb0; split; lia. }
  assert (forall num1 fl1, unmapping st0 root lo b fl0 st1 c1 fl1 num1 -> c_va c < c_va c1 <= end_va ->
    (end_va - c_va c1) / PAGE_SIZE < Z.of_nat fuel) as Hdec.
  { intros num1 fl1 Hun1 Hlt. destruct (at_va _ _ _ (proj1 (un_cursor _ _ _ _ _ _ _ _ _ Hun))) as [_ Ha].
    destruct (at_va _ _ _ (proj1 (un_cursor _ _ _ _ _ _ _ _ _ Hun1))) as [_ Ha1].
    pose proof (aligned_gap _ _ Ha Ha1 ltac:(lia)). change BASE_PAGE_SIZE with PAGE_SIZE in *.
    assert ((end_va - c_va c1) / PAGE_SIZE + 1 <= (end_va - c_va c) / PAGE_SIZE); [|lia].
    rewrite <- Z.div_add by done. apply Z.div_le_mono; unfold PAGE_SIZE in *; lia. }
  destruct f as [va item|pt va len k]; destruct Hcase as (Hadv & Hsum & Hlen & fl1 & Hissue & Hun1).
  - step (uadd_ok 64 num 1 Hsum). unfold issue_tlb_flush_with. step Hissue. apply IH; [done|lia|by eapply Hdec].
  - step (uadd_ok 64 num k Hsum). step (uadd_ok 64 va len (Hlen _ _ _ _ eq_refl)). unfold issue_tlb_flush_with. step Hissue. apply IH; [done|lia|by eapply Hdec].
Qed.

Context `{SL : !SmallVecLaws V}.

(** A cursor of a user address space between calls. *)
Definition vm_ok st root (self : VmCursor) (cur_cpu : nat) (sys : list cpu_tlb) : Prop :=
  cursor_ok st root (pt_cursor self) /\ base_pages st root /\ flusher_ok num_cpus (flusher self) cur_cpu sys /\
  (size st + 4 <= S pool)%nat.

(** The flushes that an operation dispatched: those of [fl], which cover every address of the range that had a translation. *)
Definition dispatched st root (self : VmCursor) (cur_cpu : nat) (sys : list cpu_tlb) (r : range) (self' : VmCursor) (sys' : list cpu_tlb) : Prop :=
  exists fl, dispatch_tlb_flush fl cur_cpu sys = Ret (flusher self', sys') /\ target_cpus fl = target_cpus (flusher self) /\
    forall va, in_range r va -> page_walk st root va <> Ret None -> covered (requests (ops_stack fl)) va = true.

Lemma flusher_ok_same fl fl' cur_cpu sys : flusher_ok num_cpus fl cur_cpu sys -> same_cpus fl fl' -> ops_inv (ops_stack fl') ->
  flusher_ok num_cpus fl' cur_cpu sys.
Proof. intros [Ht Hu _ Hs Hl Hc] [Hu' Ht'] Hst. split; try done; [unfold targets in *; by rewrite Ht'|by rewrite Hu']. Qed.

(** What [unmap] does when it does not panic. *)
Definition unmapped_range st root self len cur_cpu sys st' (self' : VmCursor) sys' : Prop :=
  let c := pt_cursor self in
  cursor_ok st' root (pt_cursor self') /\ barrier_va (pt_cursor self') = barrier_va c /\ c_va c + len <= c_va (pt_cursor self') /\
  base_pages st' root /\ updates st st' root (mk_range (c_va c) (c_va c + len)) (fun _ => Ret None) /\
  dispatched st root self cur_cpu sys (mk_range (c_va c) (c_va c + len)) self' sys'.

Lemma barrier_end st root c : cursor_at st root c -> r_end (barrier_va c) < 2 ^ 64.
Proof.
  intros Hc. pose proof (at_barrier _ _ _ Hc) as (_ & _ & _ & _ & Hlim). pose proof (at_levels _ _ _ Hc) as [? ?]. unfold limit in Hlim.
  know (slot_bounds (r_end (barrier_va c) - 1) (guard_level c)) as Hsb. lia.
Qed.

Lemma unmap_ok st root self len cur_cpu sys : vm_ok st root self cur_cpu sys -> 0 <= len -> len mod PAGE_SIZE = 0 ->
  c_va (pt_cursor self) + len <= r_end (barrier_va (pt_cursor self)) ->
  exists num self' st' sys', unmap st sys cur_cpu self len = Ret (num, self', st', sys') /\
    unmapped_range st root self len cur_cpu sys st' self' sys' /\ 0 <= num /\ num * PAGE_SIZE <= len.
Proof.
  intros (Hok & Hbp & Hfok & Hpool) Hlen Hal Hfit. unfold unmapped_range. set (c := pt_cursor self) in *. pose proof Hok as [Hc Hend].
  pose proof (at_barrier _ _ _ Hc) as ([Hb0 _] & _). pose proof (at_va _ _ _ Hc) as [[Hlo _] Hva]. pose proof (barrier_end _ _ _ Hc) as Hlim.
  unfold unmap. fold c. rewrite Hal. cbn [Z.eqb rassert mbind outcome_bind]. step (uadd_ok 64 (c_va c) len) by lia.
  rewrite (proj2 (Z.leb_le _ _) Hfit). cbn [rassert mbind outcome_bind].
  destruct (unmap_loop_ok st root (c_va c) (barrier_va c) (flusher self) (c_va c + len) (Z.to_nat (len / PAGE_SIZE + 1))) with (st := st) (c := c)
    (fl := flusher self) (num := 0) as (num & c' & fl' & st' & Hloop & Hok' & Hb' & Hge & Hbp' & _ & Hcl & [Hst' Hfl] & Hcp & Hn0 & Hn1); try done.
  { change BASE_PAGE_SIZE with PAGE_SIZE in Hva. unfold PAGE_SIZE in *. Z.div_mod_to_equations. lia. }
  { split; try done; [lia|apply cleared_empty|split; [apply Hfok|lia]|lia]. }
  { lia. }
  { replace (c_va c + len - c_va c) with len by lia. pose proof (Z.div_pos len PAGE_SIZE Hlen ltac:(done)). lia. }
  step Hloop. destruct (dispatch_total num_cpus fl' cur_cpu sys) as (fl2 & sys' & Hd & _); [by eapply flusher_ok_same|]. step Hd.
  exists num, (mk_vm c' fl2), st', sys'. split; [done|]. split; [|lia]. do 5 (split; [done|]). exists fl'. split; [done|]. split; [apply Hcp|exact Hfl].
Qed.

(** Unmapping a range of a user address space.  [unmap] panics when the length is not a multiple of the page size or
    reaches behind the range of the cursor.  Otherwise its loop ends, within the fuel of the model; the
    addresses of the range have no translation any more and no other translation has changed; the flushes that it
    dispatches to the CPUs of the address space cover every address that lost one; the cursor
    is behind the range, and the returned number of frames is at most the number of pages of the range. *)
Theorem vm_unmap_correct st root self len cur_cpu sys : vm_ok st root self cur_cpu sys -> 0 <= len ->
  let c := pt_cursor self in
  let allowed := len mod PAGE_SIZE = 0 /\ c_va c + len <= r_end (barrier_va c) in
  (~ allowed -> unmap st sys cur_cpu self len = Panic) /\
  (allowed -> exists num self' st' sys', unmap st sys cur_cpu self len = Ret (num, self', st', sys') /\
     unmapped_range st root self len cur_cpu sys st' self' sys' /\ 0 <= num /\ num * PAGE_SIZE <= len).
Proof.
  intros Hvm Hlen c allowed. split; [|intros [? ?]; by apply unmap_ok]. intros Hno. unfold unmap. fold c.
  destruct (Z.eqb_spec (len mod PAGE_SIZE) 0); [|done]. cbn [rassert mbind outcome_bind].
  destruct (uadd 64 (c_va c) len) as [end_|] eqn:He; [|done]. apply uadd_Ret in He as [-> _]. cbn [mbind outcome_bind].
  destruct (Z.leb_spec (c_va c + len) (r_end (barrier_va c))); [|done]. exfalso. by apply Hno.
Qed.

(** *** From the address space *)

(** User addresses are the first half of one window. *)
Lemma user_range r : is_valid_range TOP_LEVEL_INDEX_RANGE r = true -> 0 <= r_start r < r_end r /\ r_end r <= 2 ^ 47.
Proof.
  unfold is_valid_range. change (vaddr_range TOP_LEVEL_INDEX_RANGE) with (0, 2 ^ 47 - 1). cbn [fst snd].
  rewrite !andb_true_iff, Z.ltb_lt, !Z.leb_le. lia.
Qed.

(** The root of a user page table: the entries of the user half count. *)
Definition user_root root : Prop := forall i : nat, (i < 256)%nat -> uncounted root i = false.

Lemma user_counted root r : user_root root -> is_valid_range TOP_LEVEL_INDEX_RANGE r = true -> counted_range root r.
Proof.
  intros Hu [Hr0 Hr1]%user_range va [Hv0 Hv1]. apply Hu. rewrite pte_index_div by (cbn; lia).
  change (page_size NR_LEVELS) with (2 ^ 39). change nr_subpage_per_huge with 512.
  rewrite Z.mod_small by (split; [apply Z.div_pos|apply Z.div_lt_upper_bound]; lia).
  assert (va / 2 ^ 39 < 256) by (apply Z.div_lt_upper_bound; lia). assert (0 <= va / 2 ^ 39) by (apply Z.div_pos; lia). lia.
Qed.

(** An address space that no cursor uses on the range. *)
Definition space_ok st root (cpus : AtomicCpuSet (V := V)) (r : range) (cur_cpu : nat) (sys : list cpu_tlb) : Prop :=
  tree_ok st root /\ user_root root /\ base_pages st root /\ free_but st root r None /\ flusher_ok num_cpus (flusher_new num_cpus cpus) cur_cpu sys /\
  (size st + 7 <= S pool)%nat.

Lemma vm_cursor_mut_ok (fuel : nat) st root cpus r cur_cpu sys : space_ok st root cpus r cur_cpu sys ->
  is_valid_range TOP_LEVEL_INDEX_RANGE r = true -> r_start r mod PAGE_SIZE = 0 -> r_end r mod PAGE_SIZE = 0 ->
  exists c st', vm_cursor_mut (S fuel) st root cpus r = Ret (inl (mk_vm c (flusher_new num_cpus cpus)), st') /\
    new_cursor debug_assertions st st' root r c /\ vm_ok st' root (mk_vm c (flusher_new num_cpus cpus)) cur_cpu sys.
Proof.
  intros (Ht & Hur & Hbp & Hfr & Hfl & Hsz) Hv Ha1 Ha2. destruct (user_range r Hv) as [Hr0 Hr1].
  assert (forall va, 0 <= va < 2 ^ 47 -> slot va (NR_LEVELS + 1) = 0) as Hwin by (intros va Hva; unfold slot; change (page_size (NR_LEVELS + 1)) with (2 ^ 48); apply Z.div_small; lia).
  destruct (lock_range_ok allow_panic debug_assertions alloc_frame Example86.base86 ltac:(done) alloc_fresh pool alloc_succeeds r Hr0
    Cursor86.levels_fit (conj Ha1 Ha2)) with (fuel := fuel) (st := st) (root := root) as (c & st' & Hr & Hc); try done.
  - pose proof (slot_bounds (r_end r - 1) NR_LEVELS ltac:(split; discriminate)) as Hsb. change (page_size NR_LEVELS) with (2 ^ 39) in *. lia.
  - by apply user_counted.
  - rewrite !Hwin; [done|lia|lia].
  - change (Z.to_nat NR_LEVELS) with 4%nat. lia.
  - exists c, st'. split; [|split; [done|]].
    + unfold vm_cursor_mut, cursor_new. change BASE_PAGE_SIZE with PAGE_SIZE. rewrite Hv, Ha1, Ha2.
      destruct (Z.leb_spec (r_end r) (r_start r)); [lia|]. cbn [negb orb Z.eqb]. by step Hr.
    + destruct Hc as [Hok _ _ _ _ Hsize Hbase]. change NR_LEVELS with 4 in Hsize. split_and!; try done; [by apply Hbase|]. lia.
Qed.

(** C1: unmapping through the address space.  For a page aligned range of user addresses that no cursor uses,
    [cursor_mut] gives a cursor, and [unmap] with the length of the range takes away exactly the translations of the
    range and dispatches flushes that cover all of them to the CPUs of the address space. *)
Theorem vm_space_unmap_range (fuel : nat) st root cpus r cur_cpu sys : space_ok st root cpus r cur_cpu sys ->
  is_valid_range TOP_LEVEL_INDEX_RANGE r = true -> r_start r mod PAGE_SIZE = 0 -> r_end r mod PAGE_SIZE = 0 ->
  exists self st1 num self' st' sys',
    vm_cursor_mut (S fuel) st root cpus r = Ret (inl self, st1) /\
    unmap st1 sys cur_cpu self (r_end r - r_start r) = Ret (num, self', st', sys') /\
    tree_ok st' root /\ base_pages st' root /\ updates st st' root r (fun _ => Ret None) /\
    exists fl, dispatch_tlb_flush fl cur_cpu sys = Ret (flusher self', sys') /\ target_cpus fl = cpus /\
      forall va, in_range r va -> page_walk st root va <> Ret None -> covered (requests (ops_stack fl)) va = true.
Proof.
  intros Hsp Hv Ha1 Ha2. destruct (user_range r Hv) as [Hr0 Hr1].
  destruct (vm_cursor_mut_ok fuel _ _ _ _ _ _ Hsp Hv Ha1 Ha2) as (c & st1 & Hnew & Hc & Hvm).
  destruct (nc_start _ _ _ _ _ _ Hc) as (Hva & Hb & _). pose proof (nc_walks _ _ _ _ _ _ Hc) as Hw.
  destruct (unmap_ok st1 root _ (r_end r - r_start r) cur_cpu sys Hvm ltac:(lia)) as (num & self' & st' & sys' & Hun & Hpost & _).
  - unfold PAGE_SIZE in *. Z.div_mod_to_equations. lia.
  - cbn [pt_cursor]. rewrite Hb, Hva. lia.
  - destruct Hpost as (Hok & _ & _ & Hbp & Hup & fl & Hd & Hcpu & Hcov). cbn [pt_cursor] in *. rewrite Hva in *.
    replace (r_start r + (r_end r - r_start r)) with (r_end r) in * by lia.
    exists (mk_vm c (flusher_new num_cpus cpus)), st1, num, self', st', sys'. split_and!; try done; [apply Hok| |].
    + eapply updates_walks; [exact Hw|]. by destruct r.
    + exists fl. split_and!; try done. intros va Hin Hm. apply Hcov; [done|]. rewrite Hw; [done|]. destruct Hin. lia.
Qed.

(** ** Mapping a frame *)

(** A node of level 1 has no tables below. *)
Lemma no_table_below st st' root va pt va' len k : tree_ok st root -> ~ taken st st' root va 1 (Some (StrayPageTable pt va' len k)).
Proof.
  intros Ht (_ & _ & Hat & _). destruct (node_at_level st root _ _ _ Ht Hat) as (n & Hn & Hl & _).
  destruct (tree_store _ _ Ht _ _ Hn) as [_ (Hlr & _)]. unfold depth in Hl. cbn in Hl, Hlr. lia.
Qed.

(** Mapping a frame into a user address space.  [map] panics exactly when the cursor is at the end of its
    range.  Otherwise the page of the cursor translates to the frame with the given property and no other
    translation has changed, the cursor is behind the page, and the table still has no huge pages.  If the page had no
    translation before, nothing is flushed; otherwise the flush of its addresses is dispatched to the CPUs of the address
    space.  The panic on a removed page table is never reached. *)
Theorem vm_map_correct st root self frame prop cur_cpu sys : vm_ok st root self cur_cpu sys -> item_ok (user_item frame prop) ->
  let c := pt_cursor self in
  let r := mk_range (c_va c) (c_va c + PAGE_SIZE) in
  (r_end (barrier_va c) <= c_va c -> vm_map st sys cur_cpu self frame prop = Panic) /\
  (c_va c < r_end (barrier_va c) -> exists self' st' sys', vm_map st sys cur_cpu self frame prop = Ret (self', st', sys') /\
     cursor_ok st' root (pt_cursor self') /\ barrier_va (pt_cursor self') = barrier_va c /\ c_va (pt_cursor self') = c_va c + PAGE_SIZE /\
     base_pages st' root /\ updates st st' root r (fun va => Ret (Some (frame + (va - c_va c), prop))) /\
     (maps_to debug_assertions st root r None /\ flusher self' = flusher self /\ sys' = sys \/
      dispatched st root self cur_cpu sys r self' sys')).
Proof.
  intros (Hok & Hbp & Hfok & Hpool) Hitem c r. pose proof Hok as [Hc Hend]. fold c in Hok, Hc, Hend.
  pose proof (at_levels _ _ _ Hc) as [Hl Hg]. pose proof (at_va _ _ _ Hc) as [_ Hal]. pose proof (at_barrier _ _ _ Hc) as (_ & _ & Hbe & _).
  change BASE_PAGE_SIZE with PAGE_SIZE in *. unfold vm_map. fold c. split.
  - intros Hge. rewrite (map_refused allow_panic alloc_frame st root c (user_item frame prop) frame 1 prop Hok eq_refl); [done|]. intros [Hlt _]. lia.
  - intros Hlt.
    assert (map_allowed c 1) as Hallow.
    { pose proof (aligned_gap _ _ Hal Hbe Hlt). change BASE_PAGE_SIZE with PAGE_SIZE in *. unfold map_allowed.
      change (page_size 1) with PAGE_SIZE. split_and!; try done; cbn; lia. }
    destruct (map_ok allow_panic debug_assertions alloc_frame Example86.base86 Cursor86.levels_fit alloc_fresh pool alloc_succeeds st root c (user_item frame prop) frame 1 prop
      Hok Hitem eq_refl Hallow Hpool (or_introl eq_refl)) as ([[res c'] st'] & Hmap & Hok' & Hb' & Hva' & Hup & Htk & [Hbp' _]).
    step Hmap. change (page_size 1) with PAGE_SIZE in *. specialize (Hbp' Hbp eq_refl). destruct res as [[]|[va old|pt va len k]].
    + eexists _, _, _. split; [done|]. do 5 (split; [done|]). left. split; [exact Htk|done].
    + destruct Htk as (-> & _).
      assert (flushes st root (c_va c) (c_va c) (flusher self)) as Hfl0 by (split; [apply Hfok|lia]).
      destruct (flushes_issue st root (c_va c) (c_va c) (c_va c + PAGE_SIZE) (flusher self) (Address (c_va c)) Hfl0) as (fl' & Hi & [Hinv Hfl] & Hcp).
      { intros x Hx. by apply covers_page. }
      unfold issue_tlb_flush_with. step Hi. destruct (dispatch_total num_cpus fl' cur_cpu sys) as (fl2 & sys' & Hd & _); [by eapply flusher_ok_same|].
      step Hd. eexists _, _, _. split; [done|]. do 5 (split; [done|]). right. exists fl'. split; [done|]. split; [apply Hcp|exact Hfl].
    + exfalso. by eapply (no_table_below st st' root (c_va c)), Htk; apply Hc.
Qed.

(** The check of [reader] and [writer]. *)
Lemma user_range_check vaddr len : uint 64 vaddr -> uint 64 len ->
  (MAX_USERSPACE_VADDR <? unwrap_or (2 ^ 64 - 1) (checked_add 64 vaddr len)) = negb (vaddr + len <=? MAX_USERSPACE_VADDR).
Proof.
  intros [Hv _] [Hl _]. unfold checked_add, MAX_USERSPACE_VADDR, PAGE_SIZE. destruct (Z.ltb_spec (vaddr + len) (2 ^ 64)); cbn [unwrap_or]; lia.
Qed.

(** The memory that [reader] and [writer] hand out.  For machine addresses and lengths, they hand out a window
    exactly when the address space is active and the range ends inside of user space; a range that wraps
    around is refused.  The window is the given range of user addresses, and all of it is left to read or write. *)
Theorem vm_user_range_bounds current_root root vaddr len r w : uint 64 vaddr -> uint 64 len ->
  (reader current_root root vaddr len = inl r <->
   current_root = root /\ vaddr + len <= MAX_USERSPACE_VADDR /\ r = mk_reader vaddr (vaddr + len)) /\
  (writer current_root root vaddr len = inl w <->
   current_root = root /\ vaddr + len <= MAX_USERSPACE_VADDR /\ w = mk_writer vaddr (vaddr + len)) /\
  (reader current_root root vaddr len = inl r -> remain r = Ret len) /\
  (writer current_root root vaddr len = inl w -> avail w = Ret len) /\ MAX_USERSPACE_VADDR < 2 ^ 47.
Proof.
  clear alloc_fresh pool alloc_succeeds. intros Hv Hl. unfold reader, writer. rewrite user_range_check by done. destruct Hv as [Hv _], Hl as [Hl _].
  unfold reader_from_user_space, writer_from_user_space.
  destruct (Z.eqb_spec current_root root); cbn [negb]; [|naive_solver].
  destruct (Z.leb_spec (vaddr + len) MAX_USERSPACE_VADDR) as [Hle|]; cbn [negb]; [|naive_solver lia].
  rewrite wrap_ok by (unfold MAX_USERSPACE_VADDR, PAGE_SIZE in Hle; lia).
  assert (forall x, usub (vaddr + len) vaddr = Ret x <-> x = len) as Hu by (intros x; rewrite usub_Ret; lia).
  split_and!; [naive_solver|naive_solver| | |done]; intros [= <-]; by apply Hu.
Qed.
End vm_space.

(** ** New address spaces *)

Section new_space.
Local Existing Instance X86.consts.
Local Existing Instance X86.reqs.
Local Existing Instance UserPt.UserPtConfig.
Context {V : Type} `{SV : SmallVec V} `{SL : !SmallVecLaws V} `{U : !Uncounted} (num_cpus : nat).
Context (allow_panic debug_assertions : bool).
Context (empty : pt_store PageTableEntry -> outcome (Z * pt_store PageTableEntry)).
Context (empty_law : forall st pa st', empty st = Ret (pa, st') ->
  valid_frame_paddr pa /\ st !! pa = None /\ st' = <[pa := mk_node (meta_new NR_LEVELS) empty_ptes]> st).

Local Notation kernel_half := (mk_range 256 512).
Local Notation page_walk := (page_walk debug_assertions).

Lemma half_index va : 0 <= va < 2 ^ 64 -> (va < 2 ^ 47 -> ~ in_range kernel_half (top_index va)) /\
  (0xffff800000000000 <= va -> in_range kernel_half (top_index va)).
Proof.
  intros Hva. unfold top_index. rewrite pte_index_div by (cbn; lia). change (page_size NR_LEVELS) with (2 ^ 39). change nr_subpage_per_huge with 512.
  unfold in_range. cbn [r_start r_end]. split; intros Hh; Z.to_euclidean_division_equations; lia.
Qed.

Lemma no_cpus : inv num_cpus (mk_CpuSet (V := V) (abits (atomic_new (new_empty num_cpus)))) /\
  view num_cpus (mk_CpuSet (V := V) (abits (atomic_new (new_empty num_cpus)))) = ∅.
Proof.
  unfold CpuSet.inv, CpuSet.view, atomic_new. cbn [CpuSet.bits abits]. rewrite sv_collect_iter. apply (new_empty_ok num_cpus).
Qed.

(** The uncounted entries of an address space are those of the kernel half. *)
Lemma new_user_root root : user_root (U := user_uncounted kernel_half root) root.
Proof.
  intros i Hi. unfold uncounted, user_uncounted. rewrite decide_True by done. unfold in_top. apply bool_decide_eq_false.
  unfold range_list. cbn [r_start r_end]. rewrite elem_of_seq. lia.
Qed.

(** C2: a new address space.  When every entry of the kernel half of the kernel's root leads to a table, [VmSpace::new] returns
    a space with no CPUs in which no user address has a translation and every kernel address translates as it does in the kernel page
    table.  No table of the kernel changes, and every range of user addresses of the space is ready for a cursor: the premise of the
    theorem on unmapping through the address space holds.  If an entry does not lead to a table, the call panics. *)
Theorem vm_space_new_correct (pool : nat) st kernel_root n root st1 cur_cpu sys :
  tree_ok st kernel_root -> st !! kernel_root = Some n -> lock (meta n) = 0 -> empty st = Ret (root, st1) ->
  (cur_cpu < num_cpus)%nat -> length sys = num_cpus -> system_ok sys -> (size st + 8 <= S pool)%nat ->
  (~ shares n (range_list kernel_half) -> vm_space_new (V := V) num_cpus allow_panic empty st kernel_root = Panic) /\
  (shares n (range_list kernel_half) -> exists cpus st', vm_space_new num_cpus allow_panic empty st kernel_root = Ret (mk_space root cpus, st') /\
     view num_cpus (mk_CpuSet (V := V) (abits cpus)) = ∅ /\
     (forall va, 0 <= va < 2 ^ 47 -> page_walk st' root va = Ret None) /\
     (forall va, 0xffff800000000000 <= va < 2 ^ 64 -> page_walk st' root va = page_walk st kernel_root va) /\
     (forall q m, st !! q = Some m -> st' !! q = Some m) /\
     forall r, is_valid_range TOP_LEVEL_INDEX_RANGE r = true ->
       space_ok (U := user_uncounted kernel_half root) num_cpus pool st' root cpus r cur_cpu sys).
Proof.
  intros Ht Hn Hlk He Hcur Hlen Hsys Hsz. destruct (empty_law _ _ _ He) as (_ & Hnew & _).
  assert (0 <= r_start kernel_half <= r_end kernel_half /\ r_end kernel_half <= nr_subpage_per_huge) as Hfits by (change nr_subpage_per_huge with 512; cbn; lia).
  destruct (create_user_spec allow_panic debug_assertions kernel_half empty Example86.base86 Hfits empty_law st kernel_root n root st1 Ht Hn Hlk He) as [Hno Hyes].
  unfold vm_space_new. change KernelPt.KernelPtConfig.(@TOP_LEVEL_INDEX_RANGE) with kernel_half. split; [by intros ->%Hno|].
  intros Hsh. destruct (Hyes Hsh) as (st' & Hr & Hu). step Hr. destruct no_cpus as [Hinv Hview]. eexists _, st'. split; [done|]. split_and!; [done| | | |].
  - intros va Hva. rewrite (ut_walk _ _ _ _ _ _ Hu) by lia. rewrite decide_False; [done|]. apply half_index; lia.
  - intros va Hva. rewrite (ut_walk _ _ _ _ _ _ Hu) by lia. rewrite decide_True; [done|]. apply half_index; lia.
  - intros q m Hq. rewrite (ut_keep _ _ _ _ _ _ Hu); [done|congruence].
  - intros r Hv. destruct (user_range r Hv) as [Hr0 Hr1]. split_and!.
    + apply Hu.
    + apply new_user_root.
    + apply Hu.
    + apply (ut_free _ _ _ _ _ _ Hu). intros va [Hv0 Hv1]. split; [lia|]. apply half_index; lia.
    + split; try done; [|apply ops_new_ok]. by destruct (new_empty_ok num_cpus).
    + destruct (ut_node _ _ _ _ _ _ Hu) as (m & Hm & _). pose proof (ut_keep _ _ _ _ _ _ Hu) as Hk.
      assert (st' = <[root := m]> st) as ->.
      { apply map_eq. intros q. destruct (decide (q = root)) as [->|Hq]; [by rewrite lookup_insert_eq|rewrite lookup_insert_ne by done; by apply Hk]. }
      rewrite map_size_insert_None by done. lia.
Qed.
End new_space.

(** ** A user address space of x86-64 on two CPUs *)

Module VmExample.
Local Existing Instance X86.consts.
Local Existing Instance X86.reqs.
Local Existing Instance UserPt.UserPtConfig.
Local Existing Instance all_counted.

Definition table := Cursor86.empty_table.
Definition self0 : VmCursor (V := list Z) :=
  mk_vm Cursor86.cursor0 (mk_flusher (mk_AtomicCpuSet [3]) (new_empty 2) ops_new).
Definition sys0 : list cpu_tlb := [TlbExample.idle; TlbExample.idle].

Lemma table_pages : base_pages table 0x1000.
Proof.
  intros k va pa n e _ _ _ Hn He Hp. unfold table, Cursor86.empty_table, Example86.one_store in Hn.
  apply lookup_insert_Some in Hn as [[_ <-]|[_ Hn]]; [|by rewrite lookup_empty in Hn].
  apply lookup_replicate in He as [-> _]. by rewrite new_absent_law in Hp.
Qed.

Lemma self0_ok : vm_ok 2 4 table 0x1000 self0 0 sys0.
Proof.
  split; [exact Cursor86.cursor0_ok|]. split; [exact table_pages|]. split; [|vm_compute; lia].
  split; [by apply TlbExample.set_ok|by apply (TlbExample.set_ok 0)|apply ops_new_ok| |reflexivity|lia].
  intros [|[|j]] c; cbn; [intros [= <-]|intros [= <-]|done]; (split; [apply ops_new_ok|done]).
Qed.

Lemma vm_unmap_correct_witness : exists num self' st' sys', unmap true Cursor86.alloc table sys0 0 self0 0x3000 = Ret (num, self', st', sys') /\
  base_pages st' 0x1000.
Proof.
  destruct (proj2 (vm_unmap_correct 2 true true Cursor86.alloc Cursor86.alloc_fresh 4 Cursor86.alloc_succeeds table 0x1000 self0 0x3000 0 sys0
    self0_ok ltac:(lia)) ltac:(split; [reflexivity|cbn; lia])) as (num & self' & st' & sys' & Hu & (_ & _ & _ & Hbp & _) & _).
  eauto 6.
Defined.

Lemma vm_map_correct_witness : exists self' st' sys', vm_map true Cursor86.alloc table sys0 0 self0 0x200000 sample_prop = Ret (self', st', sys') /\
  base_pages st' 0x1000.
Proof.
  destruct (proj2 (vm_map_correct 2 true true Cursor86.alloc Cursor86.alloc_fresh 4 Cursor86.alloc_succeeds table 0x1000 self0 0x200000 sample_prop 0 sys0
    self0_ok Cursor86.item0_ok) eq_refl) as (self' & st' & sys' & Hm & _ & _ & _ & Hbp & _).
  eauto 6.
Defined.

(** The unused address space of the empty table, with more frames. *)
Definition frames7 : list Z := [0x5000; 0x6000; 0x7000; 0x8000; 0x9000; 0xa000; 0xb000].
Definition alloc7 : pt_store PageTableEntry -> option Z := pool_alloc frames7.

Lemma alloc7_fresh st pa : alloc7 st = Some pa -> valid_frame_paddr pa /\ st !! pa = None.
Proof. apply pool_alloc_fresh. repeat constructor; done. Qed.

Lemma alloc7_succeeds st : (size st < 7)%nat -> is_Some (alloc7 st).
Proof. apply (pool_alloc_succeeds frames7). apply (bool_decide_unpack _). reflexivity. Qed.

Lemma free_space_ok r : space_ok 2 7 LockExample.free_table 0x1000 (mk_AtomicCpuSet [3] : AtomicCpuSet (V := list Z)) r 0 sys0.
Proof.
  split; [exact LockExample.free_table_ok|]. split; [done|]. split.
  { eapply base_pages_same; [|exact table_pages]. apply set_lock_same. apply lookup_insert_eq. }
  split; [apply LockExample.free_table_free|]. split; [|vm_compute; lia]. apply self0_ok.
Qed.

Lemma vm_space_unmap_range_witness : exists self st1 num self' st' sys',
  vm_cursor_mut (V := list Z) 2 true alloc7 1 LockExample.free_table 0x1000 (mk_AtomicCpuSet [3]) LockExample.two_pages = Ret (inl self, st1) /\
  unmap true alloc7 st1 sys0 0 self 0x2000 = Ret (num, self', st', sys') /\ tree_ok st' 0x1000.
Proof.
  destruct (vm_space_unmap_range 2 true true alloc7 alloc7_fresh 7 alloc7_succeeds 0 LockExample.free_table 0x1000 (mk_AtomicCpuSet [3])
    LockExample.two_pages 0 sys0 (free_space_ok _) eq_refl eq_refl eq_refl) as (self & st1 & num & self' & st' & sys' & Hn & Hu & Ht & _).
  eauto 10.
Defined.

Lemma vm_user_range_bounds_witness :
  reader 0x1000 0x1000 0x400000 0x2000 = inl (mk_reader 0x400000 0x402000).
Proof.
  refine (proj2 (proj1 (vm_user_range_bounds 0x1000 0x1000 0x400000 0x2000 (mk_reader 0x400000 0x402000) (mk_writer 0x400000 0x402000) _ _)) _).
  - split; [discriminate|reflexivity].
  - split; [discriminate|reflexivity].
  - split; [reflexivity|]. split; [discriminate|reflexivity].
Defined.

(** A new address space beside a new kernel page table. *)
Lemma vm_space_new_correct_witness : exists st root cpus st',
  vm_space_new (V := list Z) 2 true HandleExample.handle_empty st 0x100000 = Ret (mk_space root cpus, st') /\ page_walk true st' root 0x400000 = Ret None.
Proof.
  destruct (new_kernel_ok true true HandleExample.kernel_half HandleExample.handle_empty Example86.base86 HandleExample.half_fits
    HandleExample.handle_empty_law HandleExample.handle_alloc HandleExample.handle_alloc_fresh 300 HandleExample.handle_alloc_succeeds eq_refl
    ∅ 0x100000 (<[0x100000 := mk_node (meta_new NR_LEVELS) empty_ptes]> ∅) HandleExample.no_tables eq_refl ltac:(vm_compute; lia))
    as (st & n & _ & [Ht Hn Hsh Hfr] & _ & _ & _ & _ & Hsz). change (size st = 257%nat) in Hsz.
  destruct (HandleExample.handle_empty_succeeds st ltac:(lia)) as (root & st1 & He).
  destruct (proj2 (vm_space_new_correct (V := list Z) 2 true true HandleExample.handle_empty HandleExample.handle_empty_law 300 st 0x100000 n root st1 0 sys0
    Ht Hn (proj2 (Hfr 0%nat 0 _ n ltac:(lia) eq_refl Hn)) He ltac:(lia) eq_refl (fl_system _ _ _ _ (proj1 (proj2 (proj2 self0_ok)))) ltac:(lia)) Hsh)
    as (cpus & st' & Hr & _ & Hw & _).
  exists st, root, cpus, st'. split; [exact Hr|]. apply Hw. lia.
Defined.

(** Mapping a page twice flushes the first translation on both CPUs when the second one has handled its request; unmapping counts it. *)
Example map_unmap_run :
  match vm_map true Cursor86.alloc table sys0 0 self0 0x200000 sample_prop with
  | Ret (s1, st1, sys1) =>
      match jump (pt_cursor s1) 0x400000 with
      | Ret (inl _, c) =>
          match vm_map true Cursor86.alloc st1 sys1 0 (mk_vm c (flusher s1)) 0x300000 sample_prop with
          | Ret (s2, st2, sys2) =>
              page_walk true st2 0x1000 0x400008 = Ret (Some (0x300008, sample_prop)) /\
              (performed <$> sys2) = [[Address 0x400000]; []] /\
              match do_remote_flush sys2 1, jump (pt_cursor s2) 0x400000 with
              | Ret sys3, Ret (inl _, c3) =>
                  (performed <$> sys3) = [[Address 0x400000]; [Address 0x400000]] /\
                  match unmap true Cursor86.alloc st2 sys3 0 (mk_vm c3 (flusher s2)) 0x3000 with
                  | Ret (num, _, st4, _) => num = 1 /\ page_walk true st4 0x1000 0x400008 = Ret None
                  | Panic => False
                  end
              | _, _ => False
              end
          | Panic => False
          end
      | _ => False
      end
  | Panic => False
  end.
Proof. vm_compute. repeat split. Qed.
End VmExample.
